(* ===== verification/_CoqProject ===== *)
-Q . S2P
Prelude.v
ConfigTypes.v
FwMark.v
RoutingPlan.v
RoutingPlanProps.v
RoutingPlanClaims.v
AffectedUrltests.v
CircuitBreaker.v
IpSet.v
PortSpec.v
Cron.v
Base64.v
ListParser.v
InetModel.v
ListClaims.v
RouteFailure.v
KernelRoutes.v
FirewallRules.v
Prefilter.v
UrltestSelect.v
UrltestManager.v
UrltestManagerProps.v
UrltestManagerHealth.v
UrltestManagerSerials.v
ProbeBatch.v
StateError.v
RouteTable.v
RouteTableSafety.v
RouteTableConverge.v
RouteTableRetire.v
RouteTableModel.v
PlannedRoutes.v
PolicyRules.v
PolicyRulesSafety.v
PolicyRulesDeps.v
PolicyRulesConverge.v
RouteTableTables.v
RoutingState.v
RoutingStateAnchors.v
RoutingCommit.v
TransactionPlan.v
Transaction.v
TransactionKernel.v
TransactionPlanFacts.v
TransactionRollback.v
TransactionAbort.v
TransactionOwned.v
TransactionCommit.v
TransactionJournal.v
TransactionModel.v
OperationOwner.v
OperationOwnerHistory.v
OperationOwnerExact.v
OperationOwnerClaims.v
RtnetlinkCodec.v
RtnetlinkFraming.v
RtnetlinkWire.v
RtnetlinkRoutes.v
RtnetlinkClaims.v
DependencyAnalysis.v
DependencyClaims.v
ConfigDelete.v
ConfigDeleteClaims.v
Cipher.v
CipherClaims.v
RuntimeAdmission.v
RuntimeAdmissionClaims.v
IdleStall.v
IdleStallClaims.v
SrsReader.v
SrsAddress.v
SrsDecoder.v
SrsText.v
SrsFields.v
SrsTrie.v
SrsRules.v
SrsClaims.v
Lifecycle.v
ResolverSync.v
