(* ===== verification/Prelude.v ===== *)
(** * keen-pbr-sb: verification development (root file)

    keen-pbr-sb is a policy-routing daemon for routers. It reads a configuration
    of outbounds (interfaces, tables, urltest groups), lists of destinations and
    routing rules; allocates a firewall mark per outbound; plans the policy rules
    and routes of one generation; installs them through netlink; produces the
    firewall rule states that put the marks on packets; and keeps probing the
    members of urltest groups to choose which one carries the traffic. Around
    that core it imports lists of destinations, plans the deletion of parts of
    the configuration, seals stored secrets, serialises the writers of the
    runtime and retires stalled flows. This library models these parts, as
    translated from the C++ sources under src/src, and proves what makes them
    correct. It is a shallow embedding: pure functions
    are functions, exceptions are values of [result], stateful classes are
    computations over their fields, concurrent ones are step relations over
    their critical sections. Definitions are executable; every theorem with
    hypotheses has a lemma that applies it to a concrete input.

    ** Files, in dependency order

    - [Prelude]: exceptions as values and their [let!] notation, machine integers
      with explicit wrap-around, bytes and strings, a loop with a step budget
      ([loop_pow2]), a stable sort, and the hint databases and tactics the
      components share.
    - [ConfigTypes]: the records of api/generated/api_types.hpp and
      config/config.hpp that the components read.
    - [FwMark]: parsing of marks and masks and [allocate_outbound_marks]
      (config/config.cpp). Marks are distinct, non-zero, confined to the mask and
      independent of the order of the outbounds; the exact condition for success.
    - [RoutingPlan], [RoutingPlanProps], [RoutingPlanClaims]:
      the planner of config/routing_state.cpp. One rule per mark, rules backed by
      routes in unreserved tables, and a fail-closed verdict for every packet of
      a urltest group or strict interface, read off the plan by an abstract
      kernel lookup ([plan_verdict]).
    - [AffectedUrltests]: [find_affected_urltests] is the upward closure of the
      changed tags.
    - [CircuitBreaker]: health/circuit_breaker.cpp; when a circuit opens, how long
      it blocks, and how many probes run at once.
    - [IpSet]: lists/ipset.cpp; the trie refines a set of prefixes, the address
      parsers against their grammars.
    - [PortSpec]: firewall/port_spec_util.cpp; normal form and printing.
    - [Cron]: util/cron.hpp; field expansion and the next fire time.
    - [Base64]: util/base64.cpp; the two directions are inverse.
    - [ListParser], [InetModel], [ListClaims]: config/list_parser.cpp;
      classification, canonical forms, the streaming loop, safe log output.
    - [RouteFailure]: config/route_failure_policy.hpp.
    - [KernelRoutes]: the reading of dumped routes in config/routing_state.cpp.
    - [FirewallRules], [Prefilter]: the rule states, the firewall state object and
      the ingress prefilter (config/routing_state.cpp, routing/firewall_state.cpp).
    - [UrltestSelect], [UrltestManager], [UrltestManagerProps],
      [UrltestManagerHealth], [UrltestManagerSerials], [ProbeBatch]:
      routing/urltest_manager.cpp. Selection and quarantine; every operation cut
      into its critical sections, interleaved by [sys_step]; one owner per probe,
      no forgotten health request, no health edge answered by an older probe, and
      a worker pool that ends exactly once.
    - [StateError]: the state-and-exception monad, weakest preconditions and
      invariants, for the classes below.
    - [RouteTable], [RouteTableSafety], [RouteTableConverge], [RouteTableRetire],
      [RouteTableModel]: routing/route_table.cpp and the exact
      delete of routing/netlink.cpp over an abstract backend ([RouteNetlink]).
      Foreign routes are never touched, whatever fails; a strict reconciliation
      that returns has installed the desired routes; a retirement without
      uncertain tables is complete; repair messages are rate limited.
      [RouteTableModel] is a kernel with scripted faults that satisfies the
      laws, and shows two cases in which the code falls short.
    - [PlannedRoutes]: the planner composed with the route table, down to live
      unreachable routes in the kernel.
    - [PolicyRules], [PolicyRulesSafety], [PolicyRulesDeps],
      [PolicyRulesConverge]: routing/policy_rule.cpp and the
      exact rule deletion of routing/netlink.cpp, over an abstract rule backend
      ([RuleNetlink]). The manager deletes only rules it created; it reports the
      table of every rule it could not get rid of; what it installs survives its
      own cleanup.
    - [RouteTableTables]: every operation of the route table touches only the
      routing tables its arguments name; the rate of repair messages.
    - [RoutingState], [RoutingStateAnchors], [RoutingCommit]:
      [populate_routing_state] and
      [reconcile_kernel_routing_state] of config/routing_state.cpp, planner, route
      table and rule manager together. A live rule outside the new generation
      keeps the routes of its table, however the call ends; a strict
      reconciliation that returns has the whole plan, routes and rules, in the
      kernel.
    - [TransactionPlan]: the data and the planner of
      routing/runtime_routing_transaction.cpp: the diff of the owned inventory
      against the desired generation, refused on collisions, identity overlaps
      and exhausted capacities.
    - [Transaction]: the executor of the same file: preflight, the fence probes,
      the journal written ahead of each kernel write, publication, rollback and
      cleanup. [TransactionKernel] has the laws of one exact write
      ([RouteSlotLaws], [RulePresentLaws]) and the effect of each primitive.
    - [TransactionPlanFacts]: an accepted plan carries a well-formed journal.
      [TransactionRollback], [TransactionAbort]: a transaction that ends rolled
      back leaves the kernel as it found it. [TransactionOwned],
      [TransactionCommit]: no transaction, however it ends, touches an object
      that is neither in the owned inventory nor desired, and one that ends
      committed has exchanged exactly the owned generation for the desired one.
      [TransactionJournal]: the record published last is the journal the
      transaction returns. [TransactionModel]: the laws hold of the scripted
      kernels, and the theorems are run on them.
    - [OperationOwner]: routing/runtime_routing_operation_owner.cpp, every
      operation under the owner's mutex: startup, compatibility and exact
      reconciliation, interface notifications, publication with its fallback,
      shutdown. [OperationOwnerHistory]: histories of an owner whose kernel is
      also written by others, and the invariant of its published inventory.
      [OperationOwnerExact], [OperationOwnerClaims]: what
      each outcome of an exact operation says about the kernel, the ledgers and
      the inventory; an inventory that calls itself authoritative is the exact
      image of the kernel; a consumed serial is never accepted again.
    - [RtnetlinkCodec]: routing/raw_rtnetlink_codec.cpp and the receive loops of
      the route and rule dumps of routing/netlink.cpp, on bytes.
      [RtnetlinkFraming]: no byte string makes the decoder read outside its
      buffer or run on. [RtnetlinkWire], [RtnetlinkRoutes]:
      the wire format, the messages of rules and routes and what they decode to.
      [RtnetlinkClaims]: a dump delivers the inventory that the kernel wrote,
      whatever its attribute order and its division into datagrams; tables above
      255 are never exact. An identity is exact only if the
      message holds nothing that decoding loses.
    - [DependencyAnalysis], [DependencyClaims]:
      config/dependency_analysis.cpp. The analysis ends, removes the least set of
      outbounds closed under losing all members, and reports exactly the removed
      objects that something else names.
    - [ConfigDelete], [ConfigDeleteClaims]:
      config/outbound_delete.cpp and config/list_delete_planner.cpp. An edited
      configuration names nothing that was deleted, loses no other reference and
      stays resolved; no rule turns into one that matches everything.
    - [Cipher], [CipherClaims]: crypto/chacha20poly1305.cpp. The
      limb arithmetic is the polynomial of RFC 8439 for every division of the
      message; opening accepts exactly what sealing produces.
    - [RuntimeAdmission], [RuntimeAdmissionClaims]:
      runtime/runtime_mutation_admission.hpp as sequences of operations under its
      mutex. One lease at a time, none past a gate or a waiting foreground writer,
      one cleanup after shutdown, and a waiting writer is served.
    - [IdleStall], [IdleStallClaims]:
      runtime/idle_stall_detector.hpp. The deletions it asks for respect the rate
      window and the cooldowns in every execution; each is justified by an
      uninterrupted observation; the order of a snapshot does not matter.
    - [SrsReader], [SrsAddress], [SrsDecoder]: lists/srs_decoder.cpp, the binary
      rule sets of sing-box: the inflating reader, the arithmetic on addresses,
      the decoder and its entry points. [SrsFields] has the encoding as a
      specification (a syntax of rules with [enc_rule_set]) and the calculus
      [spec], in which a computation either rejects its input or has read an
      encoding; [SrsFields], [SrsTrie] and [SrsText] relate the parts to it
      (ranges, code points, the succinct trie and its walk, the printed blocks
      against the parsers of [IpSet]); [SrsRules] has the extracted domains and
      gives rule sets a meaning, and [SrsClaims] draws the conclusions:
      the extracted list never matches more than the rule set, it matches
      exactly that when nothing is counted as omitted, and the decoder ends within
      its limits on any input.
    - [Lifecycle]: the states of runtime/runtime_state_machine.cpp, the single
      operation of runtime/lifecycle_operation.cpp with its store and observer, and
      the counter of util/bounded_operation_admission.hpp. In every interleaving
      the snapshots of an operation only advance and a new one is admitted exactly
      when none is in progress; the counter is the number of live leases.
    - [ResolverSync]: daemon/resolver_sync_state_machine.cpp and the commit of a
      probe in daemon/daemon_resolver.cpp: the report as a function of the history
      of events, and the retry delays.

    ** How the code is read

    Integers keep their width where the code can wrap ([u32], [u64]); times are
    integers of the clock's unit. [std::map] and unordered maps are [gmap],
    vectors are lists. Code that is not in the repository is a parameter with
    named laws: inet_pton/inet_ntop ([InetModel] instantiates them), localtime_r,
    the timer scheduler, the worker pool and the callbacks of the urltest manager
    (the environment steps of [sys_step]), and the netlink backend, the interface
    probe and the clock of the route table ([RouteNetlink], [RouteNetlinkLaws],
    [RouteNetlinkExactLaws], [RouteNetlinkTableLaws]) and of the rule manager
    ([RuleNetlink], [RuleNetlinkLaws]); an exact transaction asks for the effect
    of one write more sharply ([RouteSlotLaws], [RulePresentLaws]), and its fence
    probe, its journal publisher and the writer lease are supplied by the caller
    as they are in the source; the operation owner gets its snapshot factory in
    the same way, and the factory may fail. The codec sees pointers as suffixes of
    the receive buffer and has the byte order as a parameter; what recvmsg,
    setsockopt and the clock return are the inputs of its loops. The format that
    the kernel writes is stated in [RtnetlinkWire] and the files after it, as a
    specification to decode against. The laws of the backends describe one call
    at a time; the guarantees hold while no other process writes the same slots.
    Routes and rules are separate objects of the kernel, so the composition runs
    over a pair of backends.

    The rule-set decoder is written over the interface [ByteReader] with
    [ByteReaderLaws], which the inflating reader satisfies over any zlib
    ([Zlib], [ZlibLaws]: what its manual promises of one call, and that the calls
    up to the end of a stream decompress what they took); [SrsClaims] instantiates
    zlib with streams of stored bytes. What the items mean that the decoder passes
    over is a parameter too ([RuleLanguage]), and so is the width of
    [std::size_t] ([SizeT]). The clock of the stall detector is an argument of its
    operations, and a wait of the admission on its condition variable is two
    operations.

    ** Bounds and fuel

    Loops without a structural measure run on fuel that is proved sufficient:
    [safe_table_id] has a budget of 2^64 iterations and needs at most 32000;
    recursive walks over urltest groups have the fuel 9, which is the source's
    own depth limit (kMaxUrltestDepth, kFailureDepth) and not an approximation;
    [affected_loop] has one round more than there are outbounds; the list parser
    recurses on the length of its input; the cron search runs over the source's
    bound of minutes. Runs of the urltest manager are bounded by 2^64 steps,
    since its serials and generations are 64-bit counters. The route table has
    the source's two installation attempts and structural loops only. The loops of
    the codec have one round for each byte that is left and are shown never to run
    out of them. The cascade of the dependency analysis has one round more than
    there are outbounds, and every round but the last removes one. The loops of the
    cipher have the length of their input. The decoder of rule sets has: one round
    per byte of input and one more to fill its output buffer, two per node for the
    walk over a trie, sixteen per address byte and one more for the blocks of a
    range (at most two of each size), 257 for the items of a rule (no type comes
    twice), and the configured nesting depth plus two for logical rules;
    [srs_decode_total] excludes the outcome of missing fuel.

    ** Not modelled

    Log messages, lock errors and allocation failures (the operation owner's
    snapshots apart), the texts of exceptions. JSON: the parsing, validation and
    writing of configurations, subscriptions and list sources is a conversation
    with nlohmann::json, and the generated records of the API are only its target;
    the functions that read the parsed records are modelled. The HTTP API and its
    handlers. The generation of iptables, nft and dnsmasq text and the subprocesses
    that run it; the rule states they receive are modelled. Sockets and the encoding
    of netlink requests; the connection table, whose deletions [IdleStall] decides
    but does not perform, and the affinity of UDP calls. The floating-point threshold of
    the list shrink guard. The Keenetic firmware services; probes over libcurl;
    updates, backups, the web front end and the Go transport manager. They are I/O
    or glue around the components above. *)

From Stdlib Require Import ZArith Lia Ascii String.
From stdpp Require Import base gmap strings list sorting numbers.

(** ** Notation scope *)

Declare Scope kpbr_scope.
Delimit Scope kpbr_scope with kpbr.
#[global] Open Scope kpbr_scope.

(** ** Exceptions as values

    A C++ function that may throw returns a [result]; the payload of [Throw]
    is the component's own error enumeration (one constructor per throw
    statement), so theorems can speak about each error path. *)

Inductive result (E A : Type) : Type :=
| Ok (a : A)
| Throw (e : E).
Arguments Ok {E A} a.
Arguments Throw {E A} e.

Definition rbind {E A B} (c : result E A) (k : A → result E B) : result E B :=
  match c with Ok a => k a | Throw e => Throw e end.

Notation "'let!' x := c 'in' k" := (rbind c (fun x => k))
  (at level 10, x pattern, c at level 200, k at level 200,
   format "'let!'  x  :=  c  'in' '//' k") : kpbr_scope.

Definition is_ok {E A} (r : result E A) : bool :=
  match r with Ok _ => true | Throw _ => false end.

(** [mapM] over [result]: the loop "for each x: push_back(f x)" with early exit
    through an exception. *)
Fixpoint rmap {E A B} (f : A → result E B) (l : list A) : result E (list B) :=
  match l with
  | [] => Ok []
  | x :: l => let! y := f x in let! ys := rmap f l in Ok (y :: ys)
  end.

(** Left fold with early exit. *)
Fixpoint rfold {E A B} (f : A → B → result E A) (a : A) (l : list B) : result E A :=
  match l with
  | [] => Ok a
  | x :: l => let! a' := f a x in rfold f a' l
  end.

Lemma rbind_ok {E A B} (c : result E A) (k : A → result E B) b :
  rbind c k = Ok b ↔ ∃ a, c = Ok a ∧ k a = Ok b.
Proof.
  split.
  - destruct c as [a|e]; simpl; intros Hk; [by exists a | discriminate].
  - intros (a & -> & Hk). exact Hk.
Qed.

Lemma rmap_ok {E A B} (f : A → result E B) l ys :
  rmap f l = Ok ys ↔ Forall2 (λ x y, f x = Ok y) l ys.
Proof.
  revert ys; induction l as [|x l IH]; intros ys; simpl.
  - split; [intros [= <-]; constructor | by inversion 1].
  - rewrite rbind_ok. setoid_rewrite rbind_ok. setoid_rewrite IH. split.
    + intros (y & ? & ys' & ? & [= <-]). by constructor.
    + inversion 1; subst. eauto 10.
Qed.

(** ** Machine integers

    Unsigned w-bit values are kept in [Z]; every operation that can wrap does
    so explicitly. *)

Definition wrap (w : Z) (z : Z) : Z := (z mod 2 ^ w)%Z.
Definition u32 (z : Z) : Z := wrap 32 z.
Definition u64 (z : Z) : Z := wrap 64 z.
Definition u32_max : Z := 4294967295%Z.
Definition u64_max : Z := 18446744073709551615%Z.
Definition int_max : Z := 2147483647%Z.
Definition int_min : Z := (-2147483648)%Z.
Definition is_u32 (z : Z) : Prop := (0 ≤ z < 2 ^ 32)%Z.

Lemma u32_id z : is_u32 z → u32 z = z.
Proof. intros. unfold u32, wrap. by apply Z.mod_small. Qed.

Lemma u32_range z : is_u32 (u32 z).
Proof. apply Z.mod_pos_bound. lia. Qed.

(** ** Tactics *)

(** Splits a successful chain of [let!]s in the hypotheses. *)
Ltac res_inv :=
  repeat match goal with
  | H : rbind _ _ = Ok _ |- _ => apply rbind_ok in H as (? & ? & ?)
  | H : Ok _ = Ok _ |- _ => injection H as H
  | H1 : ?c = Ok _, H2 : ?c = Ok _ |- _ => rewrite H1 in H2; injection H2 as H2
  | H : Throw _ = Ok _ |- _ => discriminate H
  | H : Ok _ = Throw _ |- _ => discriminate H
  end.

(** Turns boolean comparisons of the code into propositions. *)
Ltac bool_to_prop :=
  repeat match goal with
  | H : (_ && _) = true |- _ => apply andb_true_iff in H as [? ?]
  | H : (_ || _) = false |- _ => apply orb_false_iff in H as [? ?]
  | H : negb _ = true |- _ => apply negb_true_iff in H
  | H : negb _ = false |- _ => apply negb_false_iff in H
  | H : (_ <? _)%Z = true |- _ => apply Z.ltb_lt in H
  | H : (_ <? _)%Z = false |- _ => apply Z.ltb_ge in H
  | H : (_ <=? _)%Z = true |- _ => apply Z.leb_le in H
  | H : (_ <=? _)%Z = false |- _ => apply Z.leb_gt in H
  | H : (_ =? _)%Z = true |- _ => apply Z.eqb_eq in H
  | H : (_ =? _)%Z = false |- _ => apply Z.eqb_neq in H
  | H : (_ <? _)%nat = true |- _ => apply Nat.ltb_lt in H
  | H : (_ <? _)%nat = false |- _ => apply Nat.ltb_ge in H
  | H : (_ <=? _)%nat = true |- _ => apply Nat.leb_le in H
  | H : (_ <=? _)%nat = false |- _ => apply Nat.leb_gt in H
  | H : bool_decide _ = true |- _ => apply bool_decide_eq_true in H
  | H : bool_decide _ = false |- _ => apply bool_decide_eq_false in H
  end.

(** ** Characters and strings

    [std::string] and [std::string_view] are byte strings: Rocq's [string] of
    8-bit [ascii]. [code] is the value of [static_cast<unsigned char>(c)]. *)

#[global] Arguments String.append !s1 s2 /.

Definition code (c : ascii) : Z := Z.of_N (N_of_ascii c).
Definition chr (z : Z) : ascii := ascii_of_N (Z.to_N z).

Lemma code_range c : (0 ≤ code c < 256)%Z.
Proof.
  unfold code. pose proof (N_ascii_bounded c) as H. split; [lia|].
  apply N2Z.inj_lt in H. exact H.
Qed.

Lemma chr_code c : chr (code c) = c.
Proof. unfold chr, code. rewrite N2Z.id. apply ascii_N_embedding. Qed.

Lemma code_chr z : (0 ≤ z < 256)%Z → code (chr z) = z.
Proof. intros. unfold chr, code. rewrite N_ascii_embedding by lia. lia. Qed.

Lemma code_inj c d : code c = code d → c = d.
Proof. intros H. by rewrite <- (chr_code c), <- (chr_code d), H. Qed.

Definition in_range (lo hi : Z) (c : ascii) : bool :=
  ((lo <=? code c) && (code c <=? hi))%Z.
(** ['0'..'9'] *)
Definition is_digit (c : ascii) : bool := in_range 48 57 c.
(** ['a'..'z'] and ['A'..'Z'] *)
Definition is_lower (c : ascii) : bool := in_range 97 122 c.
Definition is_upper (c : ascii) : bool := in_range 65 90 c.

Fixpoint all_chars (p : ascii → bool) (s : string) : bool :=
  match s with EmptyString => true | String c s => p c && all_chars p s end.

Fixpoint any_char (p : ascii → bool) (s : string) : bool :=
  match s with EmptyString => false | String c s => p c || any_char p s end.

(** [s.find(c) != npos] *)
Definition has_char (c : ascii) (s : string) : bool := any_char (Ascii.eqb c) s.

(** [s.find(c)] together with [s.substr(0, pos)] and [s.substr(pos + 1)]. *)
Fixpoint break_at (c : ascii) (s : string) : option (string * string) :=
  match s with
  | EmptyString => None
  | String d s =>
      if Ascii.eqb c d then Some (EmptyString, s)
      else match break_at c s with
           | Some (l, r) => Some (String d l, r)
           | None => None
           end
  end.

(** [s.rfind(c)] together with the two substrings around it. *)
Fixpoint break_last (c : ascii) (s : string) : option (string * string) :=
  match s with
  | EmptyString => None
  | String d s =>
      match break_last c s with
      | Some (l, r) => Some (String d l, r)
      | None => if Ascii.eqb c d then Some (EmptyString, s) else None
      end
  end.

(** The loop that appends to [cur] and pushes [cur] at every separator and
    once more at the end. *)
Fixpoint split_on (c : ascii) (s : string) : list string :=
  match s with
  | EmptyString => [EmptyString]
  | String d s =>
      if Ascii.eqb c d then EmptyString :: split_on c s
      else match split_on c s with
           | t :: ts => String d t :: ts
           | [] => [String d EmptyString]
           end
  end.

(** Repeated [std::getline(ss, token, c)]: like [split_on], but an input that
    is empty or ends in the separator yields no final empty token. *)
Definition getline_tokens (c : ascii) (s : string) : list string :=
  match reverse (split_on c s) with
  | EmptyString :: ts => reverse ts
  | _ => split_on c s
  end.

(** Drop the longest prefix / suffix satisfying [p]. *)
Fixpoint drop_while (p : ascii → bool) (s : string) : string :=
  match s with
  | EmptyString => EmptyString
  | String c s' => if p c then drop_while p s' else s
  end.

Fixpoint drop_while_end (p : ascii → bool) (s : string) : string :=
  match s with
  | EmptyString => EmptyString
  | String c s' =>
      match drop_while_end p s' with
      | EmptyString => if p c then EmptyString else String c EmptyString
      | t => String c t
      end
  end.

Definition trim_by (p : ascii → bool) (s : string) : string :=
  drop_while_end p (drop_while p s).

(** The longest prefix satisfying [p], and the rest. *)
Fixpoint span (p : ascii → bool) (s : string) : string * string :=
  match s with
  | EmptyString => (EmptyString, EmptyString)
  | String c s' =>
      if p c then let '(l, r) := span p s' in (String c l, r)
      else (EmptyString, s)
  end.

Fixpoint last_char (s : string) : option ascii :=
  match s with
  | EmptyString => None
  | String c EmptyString => Some c
  | String _ s => last_char s
  end.

Definition first_char (s : string) : option ascii :=
  match s with EmptyString => None | String c _ => Some c end.

Definition empty_str (s : string) : bool :=
  match s with EmptyString => true | _ => false end.

Lemma empty_str_true s : empty_str s = true ↔ s = EmptyString.
Proof. destruct s; naive_solver. Qed.

Lemma empty_str_false s : empty_str s = false ↔ s ≠ EmptyString.
Proof. destruct s; naive_solver. Qed.

(** ** Decimal numbers *)

Definition digit_val (c : ascii) : Z := (code c - 48)%Z.

Fixpoint dec_value (acc : Z) (s : string) : Z :=
  match s with
  | EmptyString => acc
  | String c s => dec_value (acc * 10 + digit_val c)%Z s
  end.

(** [std::from_chars] into an unsigned type with maximum [max], together with
    the check [ec == {} && ptr == end] every call site makes: the whole text is
    one non-empty run of digits whose value fits. *)
Definition from_chars_uint (max : Z) (s : string) : option Z :=
  if empty_str s then None
  else if all_chars is_digit s
       then let v := dec_value 0 s in if (v <=? max)%Z then Some v else None
       else None.

(** The same for a signed [int]: one optional leading minus sign. *)
Definition from_chars_int (s : string) : option Z :=
  match s with
  | String c s' =>
      if Ascii.eqb c "-" then
        match from_chars_uint (- int_min) s' with
        | Some v => Some (- v)%Z
        | None => None
        end
      else from_chars_uint int_max s
  | EmptyString => None
  end.

(** [std::to_string] of a non-negative integer; 20 digits hold every value of
    a 64-bit type. *)
Fixpoint dec_digits (fuel : nat) (n : Z) (acc : string) : string :=
  match fuel with
  | O => acc
  | S fuel =>
      let acc' := String (chr (48 + n mod 10)%Z) acc in
      if (n <? 10)%Z then acc' else dec_digits fuel (n / 10)%Z acc'
  end.

Definition to_string (n : Z) : string := dec_digits 20 n EmptyString.

Lemma digit_char n : (0 ≤ n)%Z → is_digit (chr (48 + n mod 10)) = true
  ∧ digit_val (chr (48 + n mod 10)) = (n mod 10)%Z.
Proof.
  intros Hn. pose proof (Z.mod_pos_bound n 10 ltac:(lia)).
  unfold is_digit, in_range, digit_val. rewrite code_chr by lia. split; [|lia].
  apply andb_true_iff; split; apply Z.leb_le; lia.
Qed.

Lemma dec_digits_all fuel n acc :
  (0 ≤ n)%Z → all_chars is_digit acc = true → all_chars is_digit (dec_digits fuel n acc) = true.
Proof.
  revert n acc. induction fuel as [|fuel IH]; intros n acc Hn Hacc; simpl; [done|].
  destruct (digit_char n Hn) as [Hd _].
  assert (all_chars is_digit (String (chr (48 + n mod 10)) acc) = true).
  { simpl. by rewrite Hd. }
  case_match; [done|]. apply IH; [|done]. apply Z.div_pos; lia.
Qed.

Lemma dec_digits_value fuel n acc :
  (0 ≤ n < 10 ^ Z.of_nat fuel)%Z → (0 < fuel)%nat →
  dec_value 0 (dec_digits fuel n acc) = dec_value n acc.
Proof.
  revert n acc. induction fuel as [|fuel IH]; intros n acc Hn Hf; [lia|].
  simpl. destruct (digit_char n ltac:(lia)) as [_ Hv].
  case_match eqn:E; bool_to_prop.
  - simpl. rewrite Hv. f_equal. rewrite Z.mod_small; lia.
  - rewrite Nat2Z.inj_succ, Z.pow_succ_r in Hn by lia.
    assert (0 < fuel)%nat by (destruct fuel; simpl in *; lia).
    rewrite IH; [|split; [apply Z.div_pos; lia | apply Z.div_lt_upper_bound; lia] | done].
    simpl. rewrite Hv. f_equal. pose proof (Z.div_mod n 10 ltac:(lia)). lia.
Qed.

Lemma dec_digits_nonempty fuel n acc :
  acc ≠ EmptyString ∨ (0 < fuel)%nat → dec_digits fuel n acc ≠ EmptyString.
Proof.
  revert n acc. induction fuel as [|fuel IH]; intros n acc Hacc; simpl.
  - destruct Hacc; [done | lia].
  - case_match; [done|]. apply IH. by left.
Qed.

Lemma to_string_nonempty n : to_string n ≠ EmptyString.
Proof. apply dec_digits_nonempty. right. lia. Qed.

Lemma to_string_digits n : (0 ≤ n)%Z → all_chars is_digit (to_string n) = true.
Proof. intros. by apply dec_digits_all. Qed.

Lemma to_string_value n :
  (0 ≤ n < 10 ^ 20)%Z → dec_value 0 (to_string n) = n.
Proof. intros. unfold to_string. rewrite dec_digits_value; [done | lia | lia]. Qed.

Lemma from_chars_to_string max n :
  (0 ≤ n ≤ max)%Z → (n < 10 ^ 20)%Z → from_chars_uint max (to_string n) = Some n.
Proof.
  intros Hn Hb. unfold from_chars_uint.
  destruct (empty_str (to_string n)) eqn:E.
  { apply empty_str_true in E. by destruct (to_string_nonempty n). }
  rewrite to_string_digits by lia. rewrite to_string_value by lia.
  case_match eqn:El; [done|]. bool_to_prop. lia.
Qed.

Lemma dec_value_lower s acc :
  (0 ≤ acc)%Z → all_chars is_digit s = true → (acc ≤ dec_value acc s)%Z.
Proof.
  revert acc. induction s as [|c s IH]; intros acc Ha Hs; simpl in *; [lia|].
  apply andb_true_iff in Hs as [Hc Hs]. unfold is_digit, in_range in Hc. bool_to_prop.
  etransitivity; [|apply IH; [|done]]; unfold digit_val; lia.
Qed.

(** ** String lemmas *)

Lemma all_chars_app p s t : all_chars p (s +:+ t) = all_chars p s && all_chars p t.
Proof. induction s as [|c s IH]; simpl; [done|]. by rewrite IH, andb_assoc. Qed.

Lemma all_chars_impl (p q : ascii → bool) s :
  (∀ c, p c = true → q c = true) → all_chars p s = true → all_chars q s = true.
Proof.
  intros H. induction s as [|c s IH]; simpl; [done|].
  intros [Hp Hs]%andb_true_iff. rewrite H, IH; done.
Qed.

Lemma any_char_false p s : any_char p s = false ↔ all_chars (λ c, negb (p c)) s = true.
Proof.
  induction s as [|c s IH]; simpl; [done|].
  rewrite orb_false_iff, andb_true_iff, negb_true_iff. by rewrite IH.
Qed.

Lemma break_at_none c s : break_at c s = None ↔ has_char c s = false.
Proof.
  unfold has_char. induction s as [|d s IH]; simpl; [done|].
  destruct (Ascii.eqb c d) eqn:E; simpl; [done|].
  rewrite <- IH. by destruct (break_at c s) as [[l r]|].
Qed.

Lemma break_at_app c s t :
  has_char c s = false → break_at c (s +:+ String c t) = Some (s, t).
Proof.
  unfold has_char. induction s as [|d s IH]; simpl; intros H.
  - by rewrite Ascii.eqb_refl.
  - apply orb_false_iff in H as [E H]. by rewrite E, IH.
Qed.

Lemma break_at_some c s l r :
  break_at c s = Some (l, r) → s = l +:+ String c r ∧ has_char c l = false.
Proof.
  unfold has_char. revert l r. induction s as [|d s IH]; intros l r H; simpl in *; [done|].
  destruct (Ascii.eqb c d) eqn:E.
  - apply Ascii.eqb_eq in E as <-. by simplify_eq.
  - destruct (break_at c s) as [[l' r']|] eqn:Eb; simplify_eq.
    destruct (IH _ _ eq_refl) as [-> Hl]. simpl. by rewrite E, Hl.
Qed.

Lemma split_on_cons c s : ∃ t ts, split_on c s = t :: ts.
Proof.
  induction s as [|d s (t & ts & E)]; simpl; [eauto|].
  rewrite E. case_match; eauto.
Qed.

Lemma split_on_no_sep c s : has_char c s = false → split_on c s = [s].
Proof.
  unfold has_char. induction s as [|d s IH]; simpl; intros H; [done|].
  apply orb_false_iff in H as [E H]. by rewrite E, IH.
Qed.

Lemma split_on_app c s t :
  has_char c s = false → split_on c (s +:+ String c t) = s :: split_on c t.
Proof.
  unfold has_char. induction s as [|d s IH]; simpl; intros H.
  - by rewrite Ascii.eqb_refl.
  - apply orb_false_iff in H as [E H]. by rewrite E, IH.
Qed.

Lemma has_char_digits c s :
  is_digit c = false → all_chars is_digit s = true → has_char c s = false.
Proof.
  intros Hc Hs. apply any_char_false. eapply all_chars_impl; [|exact Hs].
  intros d Hd. apply negb_true_iff, Ascii.eqb_neq. by intros ->; congruence.
Qed.

Lemma has_char_app c s t : has_char c (s +:+ t) = has_char c s || has_char c t.
Proof. unfold has_char. induction s as [|x s IH]; simpl; [done|]. by rewrite IH, orb_assoc. Qed.

Lemma append_nil_r s : s +:+ EmptyString = s.
Proof. induction s as [|c s IH]; simpl; [done|]. by rewrite IH. Qed.

Lemma append_assoc s t u : (s +:+ t) +:+ u = s +:+ (t +:+ u).
Proof. induction s as [|c s IH]; simpl; [done|]. by rewrite IH. Qed.

Lemma append_nonempty s t : s ≠ EmptyString → s +:+ t ≠ EmptyString.
Proof. by destruct s. Qed.

(** *** The byte-wise order of [std::string] *)

Lemma ascii_compare_refl c : Ascii.compare c c = Eq.
Proof. unfold Ascii.compare. apply N.compare_refl. Qed.

Lemma ascii_compare_eq c d : Ascii.compare c d = Eq → c = d.
Proof. apply Ascii.compare_eq_iff. Qed.

Lemma string_compare_refl s : String.compare s s = Eq.
Proof. induction s as [|c s IH]; simpl; [done|]. by rewrite ascii_compare_refl. Qed.

Lemma string_compare_trans_lt s t u :
  String.compare s t = Lt → String.compare t u = Lt → String.compare s u = Lt.
Proof.
  revert t u. induction s as [|a s IH]; intros [|b t] [|c u]; simpl; try done.
  destruct (Ascii.compare a b) eqn:Eab; try done.
  - apply ascii_compare_eq in Eab as ->. destruct (Ascii.compare b c) eqn:Ebc; try done.
    apply IH.
  - intros _. destruct (Ascii.compare b c) eqn:Ebc; try done; intros _.
    + apply ascii_compare_eq in Ebc as <-. by rewrite Eab.
    + unfold Ascii.compare in *. apply N.compare_lt_iff in Eab, Ebc.
      pose proof (N.lt_trans _ _ _ Eab Ebc) as Hac.
      apply N.compare_lt_iff in Hac. by rewrite Hac.
Qed.

(** [lhs < rhs] on [std::string] *)
Definition string_ltb (s t : string) : bool :=
  match String.compare s t with Lt => true | _ => false end.

Lemma string_ltb_asym s t : string_ltb s t = true → string_ltb t s = false.
Proof.
  unfold string_ltb. rewrite (String.compare_antisym t s).
  by destruct (String.compare s t).
Qed.

Lemma string_ltb_total s t : string_ltb s t = false → string_ltb t s = false → s = t.
Proof.
  unfold string_ltb. rewrite (String.compare_antisym t s).
  destruct (String.compare s t) eqn:E; try done. intros _ _. by apply String.compare_eq_iff.
Qed.

Lemma string_ltb_trans s t u :
  string_ltb s t = true → string_ltb t u = true → string_ltb s u = true.
Proof.
  unfold string_ltb. destruct (String.compare s t) eqn:E1; try done.
  destruct (String.compare t u) eqn:E2; try done.
  by rewrite (string_compare_trans_lt s t u).
Qed.

Lemma string_ltb_negtrans s t u :
  string_ltb t s = false → string_ltb u t = false → string_ltb u s = false.
Proof.
  intros H1 H2. destruct (string_ltb u s) eqn:E; [|done].
  destruct (string_ltb s t) eqn:E1.
  - pose proof (string_ltb_trans _ _ _ E E1). congruence.
  - rewrite (string_ltb_total _ _ E1 H1) in E. congruence.
Qed.

(** ** Stable sorting: [std::stable_sort], and [std::sort] wherever equal keys
    cannot be told apart *)

Section StableSort.
Context {A : Type} (lt : A → A → bool).

Fixpoint insert_stable (x : A) (l : list A) : list A :=
  match l with
  | [] => [x]
  | y :: l' => if lt y x then y :: insert_stable x l' else x :: y :: l'
  end.

Fixpoint stable_sort (l : list A) : list A :=
  match l with
  | [] => []
  | x :: l' => insert_stable x (stable_sort l')
  end.

Lemma insert_stable_perm x l : insert_stable x l ≡ₚ x :: l.
Proof.
  induction l as [|y l IH]; simpl; [done|]. case_match; [|done].
  rewrite IH. constructor.
Qed.

Lemma stable_sort_perm l : stable_sort l ≡ₚ l.
Proof. induction l as [|x l IH]; simpl; [done|]. by rewrite insert_stable_perm, IH. Qed.

(** [¬ (b < a)] is the order the output is sorted by. *)
Definition not_after (a b : A) : Prop := lt b a = false.

Hypothesis lt_asym : ∀ a b, lt a b = true → lt b a = false.
Hypothesis lt_negtrans : ∀ a b c, lt b a = false → lt c b = false → lt c a = false.

Lemma insert_stable_sorted x l :
  StronglySorted not_after l → StronglySorted not_after (insert_stable x l).
Proof.
  induction 1 as [|y l Hs IH Hy]; simpl; [repeat constructor|].
  case_match eqn:E.
  - constructor; [done|]. rewrite insert_stable_perm.
    constructor; [by apply lt_asym | done].
  - constructor; [by constructor|]. constructor; [done|].
    eapply Forall_impl; [|exact Hy]. intros z Hz. by eapply lt_negtrans.
Qed.

Lemma stable_sort_sorted l : StronglySorted not_after (stable_sort l).
Proof.
  induction l as [|x l IH]; simpl; [constructor|]. by apply insert_stable_sorted.
Qed.

(** Already sorted input is returned unchanged. *)
Lemma stable_sort_id l : StronglySorted not_after l → stable_sort l = l.
Proof.
  induction 1 as [|x l Hs IH Hx]; simpl; [done|]. rewrite IH.
  destruct l as [|y l]; simpl; [done|].
  apply Forall_inv in Hx. unfold not_after in Hx. by rewrite Hx.
Qed.
End StableSort.

(** ** Hint database of the development *)

Create HintDb kpbr discriminated.
#[export] Hint Resolve code_range u32_range to_string_nonempty : kpbr.
Create Rewrite HintDb kpbr_str.
#[export] Hint Rewrite @all_chars_app append_nil_r append_assoc : kpbr_str.

(** ** Unbounded loops

    [loop_pow2 n step s] runs the loop body [step] at most [2^n] times and stops
    at the first [inr]. The budget is binary, so a loop that the source leaves
    unbounded keeps a budget far beyond anything the program can execute while
    the definition still computes. *)

Section LoopPow2.
Context {St Rt : Type} (step : St → (St + Rt)%type).

Fixpoint loop_pow2 (n : nat) (s : St) : (St + Rt)%type :=
  match n with
  | O => step s
  | S n => match loop_pow2 n s with inl s' => loop_pow2 n s' | inr r => inr r end
  end.

(** [runs k s r]: after [k] further iterations the body returns [r]. *)
Inductive runs : N → St → Rt → Prop :=
| runs_done s r : step s = inr r → runs 0 s r
| runs_next k s s' r : step s = inl s' → runs k s' r → runs (N.succ k) s r.

Lemma runs_loop n k s r :
  runs k s r →
  if (k <? 2 ^ N.of_nat n)%N then loop_pow2 n s = inr r
  else ∃ s', loop_pow2 n s = inl s' ∧ runs (k - 2 ^ N.of_nat n) s' r.
Proof.
  revert k s. induction n as [|n IH]; intros k s H.
  - change (2 ^ N.of_nat 0)%N with 1%N. cbn [loop_pow2].
    inversion H as [? ? E|k' ? s' ? E Hr]; subst; [done|].
    destruct (N.ltb_spec (N.succ k') 1); [lia|]. exists s'.
    by replace (N.succ k' - 1)%N with k' by lia.
  - rewrite Nat2N.inj_succ, N.pow_succ_r'. pose proof (IH k s H) as H1. cbn [loop_pow2].
    destruct (N.ltb_spec k (2 ^ N.of_nat n)) as [Hk|Hk].
    + destruct (N.ltb_spec k (2 * 2 ^ N.of_nat n)); [|lia]. by rewrite H1.
    + destruct H1 as (s' & -> & Hr). pose proof (IH _ _ Hr) as H2.
      destruct (N.ltb_spec (k - 2 ^ N.of_nat n) (2 ^ N.of_nat n));
        destruct (N.ltb_spec k (2 * 2 ^ N.of_nat n)); try lia; [done|].
      destruct H2 as (s'' & -> & Hr'). exists s''. split; [done|].
      by replace (k - 2 * 2 ^ N.of_nat n)%N with (k - 2 ^ N.of_nat n - 2 ^ N.of_nat n)%N by lia.
Qed.

Lemma runs_loop_done n k s r :
  runs k s r → (k < 2 ^ N.of_nat n)%N → loop_pow2 n s = inr r.
Proof.
  intros H Hk. pose proof (runs_loop n k s r H) as HL.
  by rewrite (proj2 (N.ltb_lt _ _) Hk) in HL.
Qed.
End LoopPow2.

(** Rule induction for folds that keep an invariant. *)
Lemma fold_left_inv {A B} (P : A → Prop) (f : A → B → A) l a :
  (∀ a b, b ∈ l → P a → P (f a b)) → P a → P (fold_left f l a).
Proof.
  revert a. induction l as [|b l IH]; intros a Hf Ha; simpl; [done|].
  apply IH; [intros; apply Hf; [by right|done] | apply Hf; [by left|done]].
Qed.

(** ** Hexadecimal text *)

Section Hex.
Open Scope Z_scope.

(** [std::isxdigit] in the C locale, and the value of such a digit *)
Definition is_xdigit (c : ascii) : bool :=
  is_digit c || in_range 97 102 c || in_range 65 70 c.

Definition xdigit_val (c : ascii) : Z :=
  if is_digit c then code c - 48
  else if in_range 97 102 c then code c - 87 else code c - 55.

Fixpoint hex_value (acc : Z) (s : string) : Z :=
  match s with
  | EmptyString => acc
  | String c s => hex_value (acc * 16 + xdigit_val c) s
  end.

Lemma xdigit_val_nonneg c : is_xdigit c = true → 0 ≤ xdigit_val c.
Proof.
  destruct c as [[] [] [] [] [] [] [] []]; vm_compute; (discriminate || by intros).
Qed.

Lemma hex_value_nonneg s acc :
  0 ≤ acc → all_chars is_xdigit s = true → 0 ≤ hex_value acc s.
Proof.
  revert acc. induction s as [|c s IH]; intros acc Ha Hs; simpl in *; [done|].
  apply andb_true_iff in Hs as [Hc%xdigit_val_nonneg Hs]. apply IH; [lia|done].
Qed.

(** [%x] of an unsigned value below [16 ^ fuel] *)
Definition hex_digit (n : Z) : ascii := if n <? 10 then chr (48 + n) else chr (87 + n).

Fixpoint hex_digits (fuel : nat) (n : Z) (acc : string) : string :=
  match fuel with
  | O => acc
  | S fuel =>
      let acc' := String (hex_digit (n mod 16)) acc in
      if n <? 16 then acc' else hex_digits fuel (n / 16) acc'
  end.

Definition to_hex (n : Z) : string := hex_digits 16 n EmptyString.
End Hex.

(** ** Longest runs *)

Definition stops (p : ascii → bool) (s : string) : Prop :=
  match s with EmptyString => True | String c _ => p c = false end.

Lemma span_app p l r : all_chars p l = true → stops p r → span p (l +:+ r) = (l, r).
Proof.
  intros Hl Hr. induction l as [|c l IH]; simpl in *.
  - destruct r as [|c r]; [done|]. simpl in *. by rewrite Hr.
  - apply andb_true_iff in Hl as [-> Hl]. by rewrite IH.
Qed.

Lemma span_spec p s l r :
  span p s = (l, r) → s = l +:+ r ∧ all_chars p l = true ∧ stops p r.
Proof.
  revert l r. induction s as [|c s IH]; intros l r; simpl; [by intros [= <- <-]|].
  destruct (p c) eqn:E.
  - destruct (span p s) as [l' r']. intros [= <- <-]. destruct (IH l' r') as (-> & H & ?); [done|].
    simpl. by rewrite E, H.
  - intros [= <- <-]. by simpl.
Qed.

(** ** Address families *)

Definition AF_UNSPEC : Z := 0%Z.
Definition AF_INET : Z := 2%Z.
Definition AF_INET6 : Z := 10%Z.

(** ** Bytes and bounded numbers *)

Section Bytes.
Open Scope Z_scope.

Definition byte_values : list Z := Z.of_nat <$> seq 0 256.

Lemma elem_of_byte_values n : 0 ≤ n < 256 → In n byte_values.
Proof.
  intros Hn. apply list_elem_of_In, list_elem_of_fmap. exists (Z.to_nat n).
  split; [lia|]. apply elem_of_seq. lia.
Qed.
Lemma from_chars_uint_nonneg max s v : from_chars_uint max s = Some v → 0 ≤ v ≤ max.
Proof.
  unfold from_chars_uint. destruct (empty_str s); [done|].
  destruct (all_chars is_digit s) eqn:E; [|done].
  destruct (Z.leb_spec (dec_value 0 s) max); [|done]. intros [= <-].
  pose proof (dec_value_lower s 0 ltac:(lia) E). lia.
Qed.
Lemma land_255 z : Z.land z 255 = z mod 256.
Proof. by apply (Z.land_ones z 8). Qed.

Lemma lor_disjoint a b k : 0 ≤ k → 0 ≤ b < 2 ^ k → Z.lor (a * 2 ^ k) b = a * 2 ^ k + b.
Proof.
  intros Hk Hb. rewrite <- Z.add_lor_land.
  assert (Z.land (a * 2 ^ k) b = 0) as ->; [|lia].
  apply Z.bits_inj'. intros n Hn. rewrite Z.land_spec, Z.bits_0.
  destruct (Z_lt_ge_dec n k).
  - by rewrite Z.mul_pow2_bits_low.
  - rewrite <- (Z.mod_small b (2 ^ k)) by lia. rewrite Z.mod_pow2_bits_high by lia. apply andb_false_r.
Qed.
End Bytes.
