(* ===== verification/ConfigTypes.v ===== *)
(** * Configuration data

    The records and enumerations of the parsed configuration
    (src/src/api/generated/api_types.hpp, aliased in src/src/config/config.hpp)
    that the modelled components read. Optional JSON members are [option]s,
    [int64_t] members are [Z], and members no modelled operation reads
    (display names, opaque extension payloads, API and UI settings) are
    left out of the records. *)

From Stdlib Require Import ZArith.
From stdpp Require Import base gmap strings list.
From S2P Require Import Prelude.

(** ** Enumerations *)

(** [enum class OutboundType] *)
Inductive OutboundType := BLACKHOLE | IGNORE | INTERFACE | TABLE | URLTEST.

(** [enum class SelectionMode] (alias [UrltestSelectionMode]) *)
Inductive SelectionMode := LATENCY | PRIORITY.

(** [enum class FailurePolicy] *)
Inductive FailurePolicy := BLOCK | FALLBACK | INHERIT.

(** [enum class RefreshDetourMode] *)
Inductive RefreshDetourMode := RDM_INHERIT | RDM_OVERRIDE.

(** [enum class ConntrackOnSwitch] *)
Inductive ConntrackOnSwitch := DELETE | DELETE_ON_FAILURE | PRESERVE.

#[export] Instance OutboundType_eq_dec : EqDecision OutboundType.
Proof. solve_decision. Defined.
#[export] Instance SelectionMode_eq_dec : EqDecision SelectionMode.
Proof. solve_decision. Defined.
#[export] Instance FailurePolicy_eq_dec : EqDecision FailurePolicy.
Proof. solve_decision. Defined.
#[export] Instance ConntrackOnSwitch_eq_dec : EqDecision ConntrackOnSwitch.
Proof. solve_decision. Defined.

(** ** Records *)

(** [struct CircuitBreakerConfig] *)
Record CircuitBreakerConfig := {
  cbc_failure_threshold : option Z;
  cbc_half_open_max_requests : option Z;
  cbc_success_threshold : option Z;
  cbc_timeout_ms : option Z;
}.

Definition CircuitBreakerConfig_default : CircuitBreakerConfig :=
  {| cbc_failure_threshold := None; cbc_half_open_max_requests := None;
     cbc_success_threshold := None; cbc_timeout_ms := None |}.

(** [struct OutboundGroupElement] (alias [OutboundGroup]) *)
Record OutboundGroup := {
  og_outbounds : list string;
  og_weight : option Z;
}.

(** [struct Retry] (alias [RetryConfig]) *)
Record Retry := {
  rt_attempts : option Z;
  rt_interval_ms : option Z;
}.

Definition Retry_default : Retry := {| rt_attempts := None; rt_interval_ms := None |}.

(** [struct OutboundElement] (alias [Outbound]) *)
Record Outbound := {
  ob_circuit_breaker : option CircuitBreakerConfig;
  ob_conntrack_on_switch : option ConntrackOnSwitch;
  ob_gateway : option string;
  ob_gateway6 : option string;
  ob_interface : option string;
  ob_interval_ms : option Z;
  ob_outbound_groups : option (list OutboundGroup);
  ob_probe_timeout_ms : option Z;
  ob_retry : option Retry;
  ob_selection_mode : option SelectionMode;
  ob_strict_enforcement : option bool;
  ob_table : option Z;
  ob_tag : string;
  ob_tolerance_ms : option Z;
  ob_type : OutboundType;
  ob_url : option string;
}.

(** [struct RouteRuleElement] (alias [RouteRule]) *)
Record RouteRule := {
  rr_dest_addr : option string;
  rr_dest_port : option string;
  rr_dscp : option Z;
  rr_enabled : option bool;
  rr_failure_policy : option FailurePolicy;
  rr_fallback_outbound : option string;
  rr_list : option (list string);
  rr_outbound : string;
  rr_proto : option string;
  rr_src_addr : option string;
  rr_src_port : option string;
}.

(** [struct Fwmark] (alias [FwmarkConfig]) *)
Record FwmarkConfig := { fw_mask : option string; fw_start : option string }.

Definition FwmarkConfig_default : FwmarkConfig := {| fw_mask := None; fw_start := None |}.

(** [struct ListConfigValue] (alias [ListConfig]) *)
Record ListConfig := {
  lc_detour : option string;
  lc_domains : option (list string);
  lc_fallback_detours : option (list string);
  lc_refresh_detour_mode : option RefreshDetourMode;
  lc_ip_cidrs : option (list string);
  lc_ttl_ms : option Z;
}.

(** [struct Daemon] (alias [DaemonConfig]) *)
Record DaemonConfig := {
  dc_reconnect_lists : option (list string);
  dc_strict_enforcement : option bool;
  dc_skip_marked_packets : option bool;
}.

Definition DaemonConfig_default : DaemonConfig :=
  {| dc_reconnect_lists := None; dc_strict_enforcement := None; dc_skip_marked_packets := None |}.

(** [struct Iproute] (alias [IprouteConfig]) *)
Record IprouteConfig := { ip_table_start : option Z }.

(** [struct Route] (alias [RouteConfig]) *)
Record RouteConfig := {
  rc_inbound_interfaces : option (list string);
  rc_rules : option (list RouteRule);
}.

Definition RouteConfig_default : RouteConfig :=
  {| rc_inbound_interfaces := None; rc_rules := None |}.

(** [struct DnsRuleElement] (alias [DnsRule]) *)
Record DnsRule := {
  dnr_list : list string;
  dnr_server : string;
}.

(** [struct DnsServerElement] (alias [DnsServer]) *)
Record DnsServer := {
  dns_detour : option string;
  dns_tag : string;
}.

(** [struct Dns] (alias [DnsConfig]) *)
Record DnsConfig := {
  dn_fallback : option (list string);
  dn_rules : option (list DnsRule);
  dn_servers : option (list DnsServer);
}.

(** [struct ListRefresh] (alias [ListRefreshConfig]) *)
Record ListRefreshConfig := {
  lr_detour : option string;
  lr_fallback_detours : option (list string);
}.

(** [struct ConfigObject] (alias [Config]) *)
Record Config := {
  cfg_daemon : option DaemonConfig;
  cfg_dns : option DnsConfig;
  cfg_fwmark : option FwmarkConfig;
  cfg_iproute : option IprouteConfig;
  cfg_list_refresh : option ListRefreshConfig;
  cfg_lists : option (gmap string ListConfig);
  cfg_outbounds : option (list Outbound);
  cfg_route : option RouteConfig;
}.

(** ** Accessors of config.hpp *)

(** [route_rule_lists] *)
Definition route_rule_lists (rule : RouteRule) : list string :=
  default [] (rr_list rule).

(** [route_rule_has_non_list_match_condition] *)
Definition route_rule_has_non_list_match_condition (rule : RouteRule) : bool :=
  bool_decide (is_Some (rr_dscp rule)) || bool_decide (is_Some (rr_src_port rule))
  || bool_decide (is_Some (rr_dest_port rule)) || bool_decide (is_Some (rr_src_addr rule))
  || bool_decide (is_Some (rr_dest_addr rule)).

(** [route_rule_enabled] *)
Definition route_rule_enabled (rule : RouteRule) : bool :=
  default true (rr_enabled rule).

(** [find_outbound] (routing_state.cpp), [find_outbound_by_tag] (target.cpp):
    the first outbound with the tag. *)
Fixpoint find_outbound (outbounds : list Outbound) (tag : string) : option Outbound :=
  match outbounds with
  | [] => None
  | ob :: rest => if String.eqb (ob_tag ob) tag then Some ob else find_outbound rest tag
  end.

Lemma find_outbound_tag obs tag ob : find_outbound obs tag = Some ob → ob_tag ob = tag.
Proof.
  induction obs as [|o obs IH]; simpl; [done|].
  destruct (String.eqb (ob_tag o) tag) eqn:E; [|done].
  intros [= <-]. by apply String.eqb_eq.
Qed.

Lemma find_outbound_elem obs tag ob : find_outbound obs tag = Some ob → ob ∈ obs.
Proof.
  induction obs as [|o obs IH]; simpl; [done|].
  destruct (String.eqb (ob_tag o) tag); [intros [= <-]; left | intros ?; right; auto].
Qed.

Lemma find_outbound_first obs ob :
  ob ∈ obs → NoDup (ob_tag <$> obs) → find_outbound obs (ob_tag ob) = Some ob.
Proof.
  induction obs as [|o obs IH]; simpl; [by intros ?%elem_of_nil|].
  intros [->|Hin]%elem_of_cons [Hn Hnd]%NoDup_cons.
  - by rewrite String.eqb_refl.
  - destruct (String.eqb (ob_tag o) (ob_tag ob)) eqn:E; [|auto].
    apply String.eqb_eq in E. destruct Hn. rewrite E. by apply list_elem_of_fmap_2.
Qed.

#[export] Hint Resolve find_outbound_tag find_outbound_elem : kpbr.

(** A minimal outbound, the input of examples and witnesses. *)
Definition sample_outbound (tag : string) (ty : OutboundType) : Outbound :=
  {| ob_circuit_breaker := None; ob_conntrack_on_switch := None; ob_gateway := None;
     ob_gateway6 := None; ob_interface := Some "nwg0"%string; ob_outbound_groups := None;
     ob_selection_mode := None; ob_strict_enforcement := None; ob_table := None;
     ob_tag := tag; ob_tolerance_ms := None; ob_type := ty; ob_interval_ms := None;
     ob_probe_timeout_ms := None; ob_retry := None; ob_url := None |}.

Definition with_interface (ob : Outbound) (ifname : string) (gw4 gw6 : option string) : Outbound :=
  {| ob_circuit_breaker := ob_circuit_breaker ob; ob_conntrack_on_switch := ob_conntrack_on_switch ob;
     ob_gateway := gw4; ob_gateway6 := gw6; ob_interface := Some ifname;
     ob_outbound_groups := ob_outbound_groups ob; ob_selection_mode := ob_selection_mode ob;
     ob_strict_enforcement := ob_strict_enforcement ob; ob_table := ob_table ob;
     ob_tag := ob_tag ob; ob_tolerance_ms := ob_tolerance_ms ob; ob_type := ob_type ob;
     ob_interval_ms := ob_interval_ms ob; ob_probe_timeout_ms := ob_probe_timeout_ms ob;
     ob_retry := ob_retry ob; ob_url := ob_url ob |}.

Definition with_groups (ob : Outbound) (groups : list (list string)) : Outbound :=
  {| ob_circuit_breaker := ob_circuit_breaker ob; ob_conntrack_on_switch := ob_conntrack_on_switch ob;
     ob_gateway := ob_gateway ob; ob_gateway6 := ob_gateway6 ob; ob_interface := None;
     ob_outbound_groups := Some ((λ l, {| og_outbounds := l; og_weight := None |}) <$> groups);
     ob_selection_mode := ob_selection_mode ob; ob_strict_enforcement := ob_strict_enforcement ob;
     ob_table := ob_table ob; ob_tag := ob_tag ob; ob_tolerance_ms := ob_tolerance_ms ob;
     ob_type := ob_type ob; ob_interval_ms := ob_interval_ms ob;
     ob_probe_timeout_ms := ob_probe_timeout_ms ob; ob_retry := ob_retry ob; ob_url := ob_url ob |}.

Definition vpn_a : Outbound := with_interface (sample_outbound "vpn_a" INTERFACE) "nwg0" None None.
Definition vpn_b : Outbound := with_interface (sample_outbound "vpn_b" INTERFACE) "nwg1" None None.
Definition auto_group : Outbound :=
  with_groups (sample_outbound "auto" URLTEST) [["vpn_a"; "vpn_b"]%string].

Definition sample_config (obs : list Outbound) : Config :=
  {| cfg_daemon := None; cfg_dns := None; cfg_fwmark := None; cfg_iproute := None; cfg_list_refresh := None;
     cfg_lists := None;
     cfg_outbounds := Some obs; cfg_route := None |}.
