(* ===== verification/FwMark.v ===== *)
(** * Firewall mark allocation

    Models the fwmark part of src/src/config/config.cpp: parsing the hexadecimal
    settings, validating the mask and giving every routable outbound its own
    mark. 32-bit arithmetic is explicit ([u32]). *)

From Stdlib Require Import ZArith Lia Ascii String.
From stdpp Require Import base gmap strings list sorting.
From S2P Require Import Prelude ConfigTypes.
Open Scope Z_scope.

(** One constructor per [throw ConfigError]. *)
Inductive FwmarkError :=
| HexEmpty (path : string)
| HexNoPrefix (path : string)
| HexBadDigit (path : string)
| HexInvalid (path : string)
| HexTooWide (path : string)
| MaskZero
| MaskUnaligned (mask : Z)
| MaskNotFullNibbles (mask : Z)
| StartSelectsZero
| TooManyOutbounds (max_marks : Z).

(** ** Parsing *)

(** [" \t\n\r\f\v"] *)
Definition is_trim_copy_space (c : ascii) : bool :=
  (code c =? 32) || (code c =? 9) || (code c =? 10) || (code c =? 13)
  || (code c =? 12) || (code c =? 11).

Definition trim_copy (value : string) : string := trim_by is_trim_copy_space value.

(** [parse_fwmark_hex_or_throw]; [std::stoul] throws above [ULONG_MAX]
    (64-bit [unsigned long]). *)
Definition parse_fwmark_hex_or_throw (raw : option string) (default_value : Z)
    (path : string) : result FwmarkError Z :=
  match raw with
  | None => Ok default_value
  | Some raw =>
      let value := trim_copy raw in
      if empty_str value then Throw (HexEmpty path)
      else match value with
      | String c0 (String c1 (String c2 ds)) =>
          if negb (Ascii.eqb c0 "0")
             || (negb (Ascii.eqb c1 "x") && negb (Ascii.eqb c1 "X"))
          then Throw (HexNoPrefix path)
          else if negb (all_chars is_xdigit (String c2 ds)) then Throw (HexBadDigit path)
          else
            let parsed := hex_value 0 (String c2 ds) in
            if u64_max <? parsed then Throw (HexInvalid path)
            else if u32_max <? parsed then Throw (HexTooWide path)
            else Ok parsed
      | _ => Throw (HexNoPrefix path)
      end
  end.

Definition parse_fwmark_start_or_throw (cfg : FwmarkConfig) : result FwmarkError Z :=
  parse_fwmark_hex_or_throw (fw_start cfg) 65536 "fwmark.start".

Definition parse_fwmark_mask_or_throw (cfg : FwmarkConfig) : result FwmarkError Z :=
  parse_fwmark_hex_or_throw (fw_mask cfg) 16711680 "fwmark.mask".

(** ** Mask validation *)

(** [mask & (~mask + 1)] *)
Definition lowest_bit (mask : Z) : Z := Z.land mask (u32 (u32 (Z.lnot mask) + 1)).

Definition normalized_fwmark_mask (mask : Z) : Z := mask / lowest_bit mask.

(** The nibble loop; a 32-bit value is zero after eight shifts. *)
Fixpoint full_f_nibbles_loop (fuel : nat) (m : Z) : bool :=
  if m =? 0 then true
  else match fuel with
       | O => false
       | S fuel =>
           if negb (Z.land m 15 =? 15) then false
           else full_f_nibbles_loop fuel (Z.shiftr m 4)
       end.

Definition has_consecutive_full_f_nibbles (normalized_mask : Z) : bool :=
  if normalized_mask =? 0 then false else full_f_nibbles_loop 8 normalized_mask.

(** [while (tmp > 1) { tmp >>= 1; ++bit_pos; }] *)
Fixpoint bit_pos_loop (fuel : nat) (tmp bit_pos : Z) : Z :=
  match fuel with
  | O => bit_pos
  | S fuel =>
      if 1 <? tmp then bit_pos_loop fuel (Z.shiftr tmp 1) (bit_pos + 1) else bit_pos
  end.

Definition validate_fwmark_mask (mask : Z) : result FwmarkError unit :=
  if mask =? 0 then Throw MaskZero
  else
    let bit_pos := bit_pos_loop 32 (lowest_bit mask) 0 in
    if negb (bit_pos mod 4 =? 0) then Throw (MaskUnaligned mask)
    else if negb (has_consecutive_full_f_nibbles (normalized_fwmark_mask mask))
         then Throw (MaskNotFullNibbles mask)
         else Ok tt.

Definition fwmark_mask_value (cfg : FwmarkConfig) : result FwmarkError Z :=
  let! mask := parse_fwmark_mask_or_throw cfg in
  let! _ := validate_fwmark_mask mask in
  Ok mask.

Definition fwmark_start_value (cfg : FwmarkConfig) : result FwmarkError Z :=
  parse_fwmark_start_or_throw cfg.

(** ** Allocation *)

Definition fwmark_mask_mark_capacity (mask start : Z) : result FwmarkError Z :=
  let first_value := Z.land start mask / lowest_bit mask in
  if first_value =? 0 then Throw StartSelectsZero
  else Ok (u32 (normalized_fwmark_mask mask - first_value + 1)).

Definition is_routable (ob : Outbound) : bool :=
  match ob_type ob with
  | INTERFACE | TABLE | URLTEST => true
  | BLACKHOLE | IGNORE => false
  end.

(** [lhs->tag < rhs->tag] on [std::string] *)
Definition tag_lt (lhs rhs : Outbound) : bool :=
  string_ltb (ob_tag lhs) (ob_tag rhs).

(** The allocation loop with its three locals. *)
Fixpoint allocate_loop (max_marks step : Z) (routable : list Outbound)
    (mark_map : gmap string Z) (current_mark count : Z) : result FwmarkError (gmap string Z) :=
  match routable with
  | [] => Ok mark_map
  | ob :: rest =>
      if max_marks <=? count then Throw (TooManyOutbounds max_marks)
      else allocate_loop max_marks step rest
             (<[ob_tag ob := current_mark]> mark_map)
             (u32 (current_mark + step)) (u32 (count + 1))
  end.

Definition routable_sorted (outbounds : list Outbound) : list Outbound :=
  stable_sort tag_lt (List.filter is_routable outbounds).

Definition allocate_outbound_marks (cfg : FwmarkConfig) (outbounds : list Outbound)
    : result FwmarkError (gmap string Z) :=
  let! mask := parse_fwmark_mask_or_throw cfg in
  let! start := parse_fwmark_start_or_throw cfg in
  let! _ := validate_fwmark_mask mask in
  let step := lowest_bit mask in
  let! max_marks := fwmark_mask_mark_capacity mask start in
  allocate_loop max_marks step (routable_sorted outbounds) ∅ start 0.

(** ** The lowest set bit *)

Lemma land_double a b : Z.land (2 * a) (2 * b) = 2 * Z.land a b.
Proof.
  rewrite !(Z.mul_comm 2), <- !(Z.shiftl_mul_pow2 _ 1) by lia.
  by rewrite Z.shiftl_land.
Qed.

Lemma land_succ_double a b : Z.land (2 * a + 1) (2 * b + 1) = 2 * Z.land a b + 1.
Proof.
  apply Z.bits_inj'. intros n Hn. rewrite Z.land_spec.
  destruct (Z.eq_dec n 0) as [->|Hn0].
  - by rewrite !Z.testbit_odd_0.
  - replace n with (Z.succ (n - 1)) by lia.
    rewrite !Z.testbit_odd_succ by lia. by rewrite Z.land_spec.
Qed.

Lemma land_opp_pos p :
  ∃ t q, 0 ≤ t ∧ 0 ≤ q ∧ Z.pos p = 2 ^ t * (2 * q + 1)
         ∧ Z.land (Z.pos p) (- Z.pos p) = 2 ^ t.
Proof.
  induction p as [p _|p (t & q & Ht & Hq & E & L)|].
  - exists 0, (Z.pos p). repeat split; try lia.
    change (Z.pos p~1) with (2 * Z.pos p + 1).
    replace (- (2 * Z.pos p + 1)) with (2 * Z.lnot (Z.pos p) + 1)
      by (unfold Z.lnot; lia).
    rewrite land_succ_double, Z.land_lnot_diag. done.
  - exists (Z.succ t), q. rewrite Z.pow_succ_r by done. repeat split; try lia.
    change (Z.pos p~0) with (2 * Z.pos p).
    replace (- (2 * Z.pos p)) with (2 * (- Z.pos p)) by lia.
    by rewrite land_double, L.
  - by exists 0, 0.
Qed.

Lemma u32_land z : u32 z = Z.land z (Z.ones 32).
Proof. unfold u32, wrap. by rewrite Z.land_ones. Qed.

Lemma lowest_bit_opp mask : is_u32 mask → lowest_bit mask = Z.land mask (- mask).
Proof.
  intros Hm. unfold lowest_bit.
  replace (u32 (u32 (Z.lnot mask) + 1)) with (u32 (- mask)).
  - rewrite u32_land, (Z.land_comm (- mask)), Z.land_assoc, <- u32_land.
    by rewrite u32_id.
  - unfold u32, wrap. rewrite Zplus_mod_idemp_l. f_equal. unfold Z.lnot. lia.
Qed.

(** Every non-zero 32-bit value is an odd number times its lowest bit. *)
Lemma lowest_bit_spec mask :
  is_u32 mask → mask ≠ 0 →
  ∃ t q, 0 ≤ t < 32 ∧ 0 ≤ q ∧ mask = 2 ^ t * (2 * q + 1) ∧ lowest_bit mask = 2 ^ t.
Proof.
  intros Hm Hz. rewrite lowest_bit_opp by done. unfold is_u32 in Hm.
  destruct mask as [|p|p]; [done| |lia].
  destruct (land_opp_pos p) as (t & q & Ht & Hq & E & L).
  exists t, q. repeat split; try done.
  apply (Z.pow_lt_mono_r_iff 2); [lia|lia|]. nia.
Qed.

(** ** Which masks are accepted *)

(** A run of [k] full nibbles starting at nibble [j]. *)
Definition nibble_mask (j k mask : Z) : Prop :=
  0 ≤ j ∧ 1 ≤ k ∧ j + k ≤ 8 ∧ mask = (16 ^ k - 1) * 16 ^ j.

Lemma full_f_nibbles_loop_spec fuel m :
  0 ≤ m < 16 ^ Z.of_nat fuel →
  full_f_nibbles_loop fuel m = true ↔ ∃ k, 0 ≤ k ≤ Z.of_nat fuel ∧ m = 16 ^ k - 1.
Proof.
  revert m. induction fuel as [|fuel IH]; intros m Hm.
  - simpl in *. rewrite (proj2 (Z.eqb_eq m 0)) by lia. split; [|done].
    intros _. exists 0. simpl. lia.
  - cbn [full_f_nibbles_loop]. destruct (Z.eqb_spec m 0) as [->|Hz].
    { split; [|done]. intros _. exists 0. lia. }
    rewrite Nat2Z.inj_succ, Z.pow_succ_r in Hm by lia.
    change 15 with (Z.ones 4) at 1. rewrite Z.land_ones, Z.shiftr_div_pow2 by lia.
    change (2 ^ 4) with 16. pose proof (Z.div_mod m 16 ltac:(lia)) as Hdm.
    pose proof (Z.mod_pos_bound m 16 ltac:(lia)).
    destruct (Z.eqb_spec (m mod 16) 15) as [E|E]; simpl.
    + rewrite IH by (split; [apply Z.div_pos; lia | apply Z.div_lt_upper_bound; lia]).
      split; intros (k & Hk & Ek).
      * exists (Z.succ k). rewrite Z.pow_succ_r by lia. lia.
      * assert (k ≠ 0) by (intros ->; simpl in Ek; lia).
        exists (k - 1). replace k with (Z.succ (k - 1)) in Ek by lia.
        rewrite Z.pow_succ_r in Ek by lia. lia.
    + split; [done|]. intros (k & Hk & Ek). destruct E.
      assert (k ≠ 0) by (intros ->; simpl in Ek; lia).
      replace k with (Z.succ (k - 1)) in Ek by lia. rewrite Z.pow_succ_r in Ek by lia.
      rewrite Ek. symmetry. apply Z.mod_unique with (16 ^ (k - 1) - 1); lia.
Qed.

Lemma bit_pos_loop_pow2 fuel t b :
  0 ≤ t ≤ Z.of_nat fuel → bit_pos_loop fuel (2 ^ t) b = b + t.
Proof.
  revert t b. induction fuel as [|fuel IH]; intros t b Ht.
  - replace t with 0 by lia. simpl. lia.
  - cbn [bit_pos_loop]. destruct (Z.eq_dec t 0) as [->|Hz]; [simpl; lia|].
    assert (2 ^ t = 2 ^ (t - 1) * 2) as ->.
    { rewrite Z.mul_comm, <- Z.pow_succ_r by lia. f_equal. lia. }
    pose proof (Z.pow_pos_nonneg 2 (t - 1)).
    rewrite (proj2 (Z.ltb_lt _ _)) by lia.
    rewrite Z.shiftr_div_pow2, Z.div_mul by lia.
    rewrite IH by lia. lia.
Qed.

Lemma lowest_bit_nibble j k mask : nibble_mask j k mask → lowest_bit mask = 16 ^ j.
Proof.
  intros (Hj & Hk & Hjk & ->).
  assert (forallb (λ j, forallb (λ k, (8 <? j + k)
            || (lowest_bit ((16 ^ k - 1) * 16 ^ j) =? 16 ^ j)) (seqZ 1 8)) (seqZ 0 8) = true)
    as H by (vm_compute; reflexivity).
  rewrite forallb_forall in H. specialize (H j). rewrite forallb_forall in H.
  specialize (H ltac:(apply list_elem_of_In, elem_of_seqZ; lia) k
                ltac:(apply list_elem_of_In, elem_of_seqZ; lia)).
  apply orb_true_iff in H as [H|H]; bool_to_prop; lia.
Qed.

Lemma validate_fwmark_mask_iff mask :
  is_u32 mask →
  validate_fwmark_mask mask = Ok tt ↔ ∃ j k, nibble_mask j k mask.
Proof.
  intros Hm. unfold validate_fwmark_mask. destruct (Z.eqb_spec mask 0) as [->|Hz].
  { split; [done|]. intros (j & k & Hj & Hk & _ & E). exfalso.
    pose proof (Z.pow_pos_nonneg 16 j). pose proof (Z.pow_gt_1 16 k). nia. }
  destruct (lowest_bit_spec mask Hm Hz) as (t & q & Ht & Hq & Em & El).
  assert (normalized_fwmark_mask mask = 2 * q + 1) as En.
  { unfold normalized_fwmark_mask. rewrite El, Em, Z.mul_comm.
    apply Z.div_mul. lia. }
  rewrite En, El, bit_pos_loop_pow2, Z.add_0_l by lia.
  unfold has_consecutive_full_f_nibbles. rewrite (proj2 (Z.eqb_neq (2 * q + 1) 0)) by lia.
  unfold is_u32 in Hm. pose proof (Z.pow_pos_nonneg 2 t).
  assert (full_f_nibbles_loop 8 (2 * q + 1) = true
          ↔ ∃ k, 0 ≤ k ≤ 8 ∧ 2 * q + 1 = 16 ^ k - 1) as Hloop.
  { apply (full_f_nibbles_loop_spec 8). change (16 ^ Z.of_nat 8) with (2 ^ 32). nia. }
  split.
  - destruct (Z.eqb_spec (t mod 4) 0) as [Et|]; [|done].
    destruct (full_f_nibbles_loop 8 (2 * q + 1)) eqn:Ef; [|done]. intros _.
    destruct (proj1 Hloop eq_refl) as (k & Hk & Ek).
    exists (t / 4), k. pose proof (Z.div_mod t 4 ltac:(lia)).
    assert (2 ^ t = 16 ^ (t / 4)) as Ep.
    { change 16 with (2 ^ 4). rewrite <- Z.pow_mul_r by lia. f_equal. lia. }
    assert (k ≠ 0) by (intros ->; simpl in Ek; lia).
    repeat split; [lia|lia| |rewrite Em, <- Ep; nia].
    apply Znot_gt_le. intros Hgt.
    assert (2 ^ 32 ≤ 16 ^ (t / 4 + k - 1)) as Hbig.
    { change (2 ^ 32) with (16 ^ 8). apply Z.pow_le_mono_r; lia. }
    rewrite <- Z.add_sub_assoc, Z.pow_add_r, <- Ep in Hbig by lia.
    replace k with (Z.succ (k - 1)) in Ek by lia. rewrite Z.pow_succ_r in Ek by lia. nia.
  - intros (j & k & Hs). pose proof (lowest_bit_nibble _ _ _ Hs) as Hl.
    destruct Hs as (Hj & Hk & Hjk & E). rewrite El in Hl.
    assert (t = 4 * j) as ->.
    { apply (Z.pow_inj_r 2); [lia|lia|lia|]. rewrite Hl. change 16 with (2 ^ 4).
      by rewrite <- Z.pow_mul_r by lia. }
    rewrite (proj2 Hloop).
    + by rewrite Z.mul_comm, Z.mod_mul by lia.
    + exists k. split; [lia|]. apply (Z.mul_reg_r _ _ (16 ^ j)); [lia|].
      rewrite <- E, Em, Hl. lia.
Qed.

(** ** Masked values *)

Lemma land_shiftl_r z a n :
  0 ≤ n → Z.land z (Z.shiftl a n) = Z.shiftl (Z.land (Z.shiftr z n) a) n.
Proof.
  intros Hn. apply Z.bits_inj'. intros i Hi.
  rewrite Z.land_spec, !Z.shiftl_spec, Z.land_spec by done.
  destruct (Z.le_gt_cases n i).
  - rewrite Z.shiftr_spec by lia. by replace (i - n + n) with i by lia.
  - rewrite !(Z.testbit_neg_r _ (i - n)) by lia. by rewrite !andb_false_r.
Qed.

Lemma land_nibble_mask z j k mask :
  nibble_mask j k mask → Z.land z mask = (z / 16 ^ j) mod 16 ^ k * 16 ^ j.
Proof.
  intros (Hj & Hk & _ & ->). change 16 with (2 ^ 4). rewrite <- !Z.pow_mul_r by lia.
  replace (2 ^ (4 * k) - 1) with (Z.ones (4 * k)) by (rewrite Z.ones_equiv; lia).
  rewrite <- Z.shiftl_mul_pow2 at 1 by lia.
  rewrite land_shiftl_r, Z.land_ones, Z.shiftr_div_pow2 by lia.
  by rewrite Z.shiftl_mul_pow2 by lia.
Qed.

Lemma ldiff_sub a b : Z.ldiff a b = a - Z.land a b.
Proof.
  rewrite Z.sub_nocarry_ldiff; apply Z.bits_inj'; intros i Hi;
    rewrite !Z.ldiff_spec, Z.land_spec, ?Z.bits_0;
    by destruct (Z.testbit a i), (Z.testbit b i).
Qed.

Section Marks.
Context (j k mask start : Z).
Context (Hmask : nibble_mask j k mask) (Hstart : is_u32 start).

Let first := (start / 16 ^ j) mod 16 ^ k.

Lemma nibble_positive : 0 < 16 ^ j ∧ 1 < 16 ^ k ∧ 16 ^ j * 16 ^ k ≤ 2 ^ 32.
Proof.
  destruct Hmask as (Hj & Hk & Hjk & _). split; [by apply Z.pow_pos_nonneg; lia|].
  split; [apply Z.pow_gt_1; lia|]. rewrite <- Z.pow_add_r by lia.
  change (2 ^ 32) with (16 ^ 8). apply Z.pow_le_mono_r; lia.
Qed.

Lemma first_value_range : 0 ≤ first < 16 ^ k.
Proof. apply Z.mod_pos_bound. pose proof nibble_positive. lia. Qed.

Lemma normalized_nibble : normalized_fwmark_mask mask = 16 ^ k - 1.
Proof.
  unfold normalized_fwmark_mask. rewrite (lowest_bit_nibble j k) by done.
  destruct Hmask as (_ & _ & _ & E). rewrite E. apply Z.div_mul.
  pose proof nibble_positive. lia.
Qed.

Lemma capacity_nibble :
  fwmark_mask_mark_capacity mask start
  = if first =? 0 then Throw StartSelectsZero else Ok (16 ^ k - first).
Proof.
  pose proof nibble_positive. pose proof first_value_range.
  unfold fwmark_mask_mark_capacity.
  rewrite (lowest_bit_nibble j k), (land_nibble_mask start j k) by done.
  rewrite Z.div_mul by lia. fold first. case_match; [done|]. bool_to_prop.
  rewrite normalized_nibble, u32_id; [f_equal; lia|]. unfold is_u32.
  assert (16 ^ k ≤ 2 ^ 32) by nia. lia.
Qed.

(** The [i]-th mark stays inside 32 bits and only changes masked bits. *)
Lemma mark_value i :
  0 ≤ i → first + i < 16 ^ k →
  u32 (start + i * 16 ^ j) = start + i * 16 ^ j
  ∧ Z.land (start + i * 16 ^ j) mask = (first + i) * 16 ^ j
  ∧ Z.ldiff (start + i * 16 ^ j) mask = Z.ldiff start mask.
Proof.
  intros Hi Hlt. pose proof nibble_positive as (HL & HK & HLK).
  pose proof first_value_range as HF. unfold is_u32 in Hstart.
  pose proof (Z.div_mod start (16 ^ j) ltac:(lia)) as E1.
  pose proof (Z.mod_pos_bound start (16 ^ j) HL) as B1.
  pose proof (Z.div_mod (start / 16 ^ j) (16 ^ k) ltac:(lia)) as E2. fold first in E2.
  set (q := start / 16 ^ j) in *. set (h := q / 16 ^ k) in *.
  assert (0 ≤ q) by (apply Z.div_pos; lia). assert (0 ≤ h) by (apply Z.div_pos; lia).
  assert ((start + i * 16 ^ j) / 16 ^ j = q + i) as Ed by (rewrite Z.div_add; lia).
  assert ((q + i) mod 16 ^ k = first + i) as Em
    by (symmetry; apply Z.mod_unique with h; lia).
  assert (Z.land (start + i * 16 ^ j) mask = (first + i) * 16 ^ j) as El
    by (by rewrite (land_nibble_mask _ j k), Ed, Em).
  split; [|split; [done|]].
  - apply u32_id. unfold is_u32. split; [nia|].
    destruct Hmask as (Hj & Hk & Hjk & _).
    assert (2 ^ 32 = 16 ^ (8 - j - k) * (16 ^ k * 16 ^ j)) as E32.
    { rewrite <- !Z.pow_add_r by lia. by replace (8 - j - k + (k + j)) with 8 by lia. }
    assert (h < 16 ^ (8 - j - k)).
    { apply (Z.mul_lt_mono_pos_r (16 ^ k * 16 ^ j)); [nia|]. rewrite <- E32. nia. }
    nia.
  - rewrite !ldiff_sub, El, (land_nibble_mask start j k) by done. fold q first. lia.
Qed.
End Marks.

(** ** The allocation loop in closed form *)

(** The map after giving the [n]-th outbound of [l] the mark
    [start + (i + n) * step]. *)
Fixpoint assign_marks (start step : Z) (l : list Outbound) (i : Z) (m : gmap string Z)
    : gmap string Z :=
  match l with
  | [] => m
  | ob :: l => assign_marks start step l (i + 1) (<[ob_tag ob := u32 (start + i * step)]> m)
  end.

Lemma allocate_loop_eq cap step start l m i :
  0 ≤ i ≤ cap → cap < 2 ^ 32 →
  allocate_loop cap step l m (u32 (start + i * step)) i
  = if i + Z.of_nat (length l) <=? cap then Ok (assign_marks start step l i m)
    else Throw (TooManyOutbounds cap).
Proof.
  revert m i. induction l as [|ob l IH]; intros m i Hi Hc; cbn [allocate_loop length].
  - by rewrite (proj2 (Z.leb_le _ _)) by (simpl; lia).
  - destruct (Z.leb_spec cap i).
    + rewrite (proj2 (Z.leb_gt _ _)) by lia. done.
    + replace (u32 (u32 (start + i * step) + step)) with (u32 (start + (i + 1) * step)).
      2: { unfold u32, wrap. rewrite Zplus_mod_idemp_l. f_equal. lia. }
      rewrite (u32_id (i + 1)) by (unfold is_u32; lia). rewrite IH by lia.
      by replace (i + Z.of_nat (S (length l))) with (i + 1 + Z.of_nat (length l)) by lia.
Qed.

Lemma assign_marks_lookup start step l i m t v :
  assign_marks start step l i m !! t = Some v →
  m !! t = Some v ∨ ∃ n ob, l !! n = Some ob ∧ ob_tag ob = t
                            ∧ v = u32 (start + (i + Z.of_nat n) * step).
Proof.
  revert i m. induction l as [|ob l IH]; intros i m H; simpl in H; [by left|].
  apply IH in H as [H|(n & ob' & Hn & Ht & Hv)].
  - apply lookup_insert_Some in H as [[Ht Hv]|[_ H]]; [|by left].
    right. exists 0%nat, ob. rewrite Z.add_0_r. done.
  - right. exists (S n), ob'. split; [done|]. split; [done|]. rewrite Hv. do 2 f_equal. lia.
Qed.

Lemma assign_marks_dom start step l i m t :
  is_Some (assign_marks start step l i m !! t) ↔ is_Some (m !! t) ∨ t ∈ ob_tag <$> l.
Proof.
  revert i m. induction l as [|ob l IH]; intros i m; simpl.
  - rewrite elem_of_nil. naive_solver.
  - rewrite IH, lookup_insert_is_Some', elem_of_cons. naive_solver.
Qed.

Lemma routable_sorted_perm obs : routable_sorted obs ≡ₚ List.filter is_routable obs.
Proof. apply stable_sort_perm. Qed.

Lemma parse_hex_range raw d path v :
  is_u32 d → parse_fwmark_hex_or_throw raw d path = Ok v → is_u32 v.
Proof.
  intros Hd. unfold parse_fwmark_hex_or_throw. destruct raw as [raw|]; [|by intros [= <-]].
  destruct (empty_str _); [done|].
  destruct (trim_copy raw) as [|c0 [|c1 [|c2 ds]]]; try done.
  destruct (_ || _); [done|]. destruct (negb _) eqn:Hx; [done|]. apply negb_false_iff in Hx.
  destruct (u64_max <? _); [done|]. destruct (u32_max <? _) eqn:Hw; [done|].
  intros [= <-]. bool_to_prop. unfold is_u32, u32_max in *.
  pose proof (hex_value_nonneg _ 0 ltac:(lia) Hx). simpl in *. lia.
Qed.

Lemma parse_mask_range cfg mask : parse_fwmark_mask_or_throw cfg = Ok mask → is_u32 mask.
Proof. apply parse_hex_range. unfold is_u32. lia. Qed.

Lemma parse_start_range cfg start : parse_fwmark_start_or_throw cfg = Ok start → is_u32 start.
Proof. apply parse_hex_range. unfold is_u32. lia. Qed.

(** What a successful allocation computed, in one place. *)
Lemma allocate_inv cfg obs m :
  allocate_outbound_marks cfg obs = Ok m →
  ∃ mask start j k, let first := (start / 16 ^ j) mod 16 ^ k in
    fwmark_mask_value cfg = Ok mask ∧ fwmark_start_value cfg = Ok start
    ∧ is_u32 start ∧ nibble_mask j k mask ∧ 0 < first < 16 ^ k
    ∧ first + Z.of_nat (length (routable_sorted obs)) ≤ 16 ^ k
    ∧ m = assign_marks start (16 ^ j) (routable_sorted obs) 0 ∅.
Proof.
  unfold allocate_outbound_marks, fwmark_mask_value, fwmark_start_value. intros H. res_inv.
  destruct x1. rename x into mask, x0 into start.
  pose proof (parse_mask_range _ _ H) as Hmask. pose proof (parse_start_range _ _ H0) as Hst.
  destruct (proj1 (validate_fwmark_mask_iff mask Hmask) H1) as (j & k & Hjk).
  exists mask, start, j, k. cbv zeta.
  rewrite (capacity_nibble j k) in H2 by done. rewrite (lowest_bit_nibble j k) in H3 by done.
  pose proof (first_value_range j k mask start Hjk) as HF.
  pose proof (nibble_positive j k mask start Hjk).
  destruct (Z.eqb_spec ((start / 16 ^ j) mod 16 ^ k) 0); [done|]. injection H2 as <-.
  replace start with (u32 (start + 0 * 16 ^ j)) in H3 at 2
    by (rewrite Z.add_0_r; by apply u32_id).
  assert (16 ^ k ≤ 2 ^ 32) by nia.
  rewrite allocate_loop_eq in H3 by lia. case_match; [|done]. bool_to_prop. res_inv.
  rewrite H. simpl. rewrite H1. simpl. rewrite H0. split_and!; try done; lia.
Qed.

(** The marks depend only on which outbounds there are, not on their order. *)
Lemma routable_sorted_unique obs1 obs2 :
  obs1 ≡ₚ obs2 → NoDup (ob_tag <$> obs1) → routable_sorted obs1 = routable_sorted obs2.
Proof.
  intros Hp Hnd. unfold routable_sorted.
  assert (List.filter is_routable obs1 ≡ₚ List.filter is_routable obs2) as Hf.
  { clear Hnd. induction Hp; simpl; repeat case_match; try done;
      [by constructor | by constructor | by etransitivity]. }
  apply (StronglySorted_unique_strong (not_after tag_lt)).
  - intros x1 x2 H1 H2 H12 H21. rewrite stable_sort_perm in H1, H2. rewrite <- Hf in H2.
    apply list_elem_of_In, List.filter_In in H1 as [H1 _].
    apply list_elem_of_In, List.filter_In in H2 as [H2 _].
    rewrite <- list_elem_of_In in H1, H2.
    pose proof (string_ltb_total _ _ H21 H12) as E.
    pose proof (find_outbound_first _ _ H1 Hnd) as F1.
    pose proof (find_outbound_first _ _ H2 Hnd) as F2. congruence.
  - apply stable_sort_sorted; unfold tag_lt.
    + intros; by apply string_ltb_asym. + intros a b c; by apply string_ltb_negtrans.
  - apply stable_sort_sorted; unfold tag_lt.
    + intros; by apply string_ltb_asym. + intros a b c; by apply string_ltb_negtrans.
  - by rewrite !stable_sort_perm.
Qed.

Lemma marks_separated cfg obs m mask start :
  allocate_outbound_marks cfg obs = Ok m →
  fwmark_mask_value cfg = Ok mask → fwmark_start_value cfg = Ok start →
  (∀ t v, m !! t = Some v →
     is_u32 v ∧ Z.land v mask ≠ 0 ∧ Z.ldiff v mask = Z.ldiff start mask)
  ∧ (∀ t1 t2 v1 v2, m !! t1 = Some v1 → m !! t2 = Some v2 → t1 ≠ t2 →
       Z.land v1 mask ≠ Z.land v2 mask).
Proof.
  intros Ha Hm Hs. destruct (allocate_inv _ _ _ Ha)
    as (mask' & start' & j & k & E1 & E2 & Hst & Hjk & HF & Hlen & ->).
  res_inv. subst mask' start'. pose proof (nibble_positive j k mask start Hjk) as (HL & _ & _).
  set (l := routable_sorted obs) in *.
  assert (∀ t v, assign_marks start (16 ^ j) l 0 ∅ !! t = Some v →
    ∃ n ob, l !! n = Some ob ∧ ob_tag ob = t ∧ is_u32 v
            ∧ Z.land v mask = ((start / 16 ^ j) mod 16 ^ k + Z.of_nat n) * 16 ^ j
            ∧ Z.ldiff v mask = Z.ldiff start mask) as Hinv.
  { intros t v Hv. apply assign_marks_lookup in Hv as [Hv|(n & ob & Hn & Ht & Hv)]; [done|].
    pose proof (lookup_lt_Some _ _ _ Hn).
    destruct (mark_value j k mask start Hjk Hst (0 + Z.of_nat n)) as (Hu & Hl & Hd); [lia..|].
    exists n, ob. rewrite Hv. split_and!; try done; [apply u32_range | by rewrite Hu, Hl |].
    by rewrite Hu. }
  split.
  - intros t v Hv. destruct (Hinv t v Hv) as (n & ob & _ & _ & Hu & Hl & Hd).
    split_and!; [done | rewrite Hl; nia | done].
  - intros t1 t2 v1 v2 H1 H2 Hne.
    destruct (Hinv t1 v1 H1) as (n1 & ob1 & Hn1 & Ht1 & _ & -> & _).
    destruct (Hinv t2 v2 H2) as (n2 & ob2 & Hn2 & Ht2 & _ & -> & _).
    intros E. apply Z.mul_reg_r in E; [|lia]. assert (n1 = n2) as <- by lia. congruence.
Qed.

(** ** Properties *)

(** C26. Mark separation: when allocation succeeds, every assigned mark fits 32
    bits, is non-zero under the mask (so marked traffic is distinguishable from
    unmarked traffic), differs from [fwmark.start] only in masked bits, and two
    different tags never share a masked value. *)
Theorem allocate_marks_separated cfg obs m mask start :
  allocate_outbound_marks cfg obs = Ok m →
  fwmark_mask_value cfg = Ok mask → fwmark_start_value cfg = Ok start →
  (∀ t v, m !! t = Some v →
     is_u32 v ∧ Z.land v mask ≠ 0 ∧ Z.ldiff v mask = Z.ldiff start mask)
  ∧ (∀ t1 t2 v1 v2, m !! t1 = Some v1 → m !! t2 = Some v2 → t1 ≠ t2 →
       Z.land v1 mask ≠ Z.land v2 mask).
Proof. apply marks_separated. Qed.

Lemma allocate_marks_separated_witness :
  ∃ m, allocate_outbound_marks FwmarkConfig_default
         [sample_outbound "vpn_b" INTERFACE; sample_outbound "vpn_a" URLTEST] = Ok m
  ∧ (∀ t1 t2 v1 v2, m !! t1 = Some v1 → m !! t2 = Some v2 → t1 ≠ t2 →
       Z.land v1 16711680 ≠ Z.land v2 16711680).
Proof.
  eexists. split; [vm_compute; reflexivity|].
  refine (proj2 (allocate_marks_separated FwmarkConfig_default
    [sample_outbound "vpn_b" INTERFACE; sample_outbound "vpn_a" URLTEST] _ _ 65536 _ _ _));
    vm_compute; reflexivity.
Defined.

(** The accepted masks are exactly the non-empty runs of full nibbles: a
    parsed [fwmark.mask] passes validation iff it is [(16^k - 1) * 16^j] for
    some [k >= 1] nibbles at nibble position [j] within 32 bits. *)
Theorem fwmark_mask_accepted_iff cfg mask :
  fwmark_mask_value cfg = Ok mask ↔
  parse_fwmark_mask_or_throw cfg = Ok mask ∧ ∃ j k, nibble_mask j k mask.
Proof.
  unfold fwmark_mask_value. split.
  - intros H. res_inv. simplify_eq. destruct x0. split; [done|].
    by apply validate_fwmark_mask_iff; [eapply parse_mask_range|].
  - intros [Hp Hs]. rewrite Hp. simpl. apply validate_fwmark_mask_iff in Hs;
      [by rewrite Hs | by eapply parse_mask_range].
Qed.

(** Allocation succeeds exactly when the routable outbounds fit the mask's
    capacity, and then exactly the interface, table and urltest tags get a mark;
    otherwise it reports the capacity. *)
Theorem allocate_marks_total cfg obs mask start cap :
  fwmark_mask_value cfg = Ok mask → fwmark_start_value cfg = Ok start →
  fwmark_mask_mark_capacity mask start = Ok cap →
  if Z.of_nat (length (List.filter is_routable obs)) <=? cap
  then ∃ m, allocate_outbound_marks cfg obs = Ok m
            ∧ ∀ t, is_Some (m !! t) ↔ t ∈ ob_tag <$> List.filter is_routable obs
  else allocate_outbound_marks cfg obs = Throw (TooManyOutbounds cap).
Proof.
  unfold fwmark_mask_value, fwmark_start_value. intros Hm Hs Hc. res_inv. simplify_eq.
  destruct x0. unfold allocate_outbound_marks. rewrite H. simpl. rewrite Hs. simpl.
  rewrite H0. simpl. rewrite Hc. simpl.
  pose proof (parse_start_range _ _ Hs) as Hst.
  destruct (proj1 (validate_fwmark_mask_iff mask (parse_mask_range _ _ H)) H0) as (j & k & Hjk).
  rewrite (capacity_nibble j k) in Hc by done.
  pose proof (first_value_range j k mask start Hjk). pose proof (nibble_positive j k mask start Hjk).
  case_match; simplify_eq.
  rewrite <- (Permutation_length (routable_sorted_perm obs)).
  assert (∀ m, allocate_loop (16 ^ k - (start / 16 ^ j) mod 16 ^ k) (lowest_bit mask) m ∅ start 0
             = allocate_loop (16 ^ k - (start / 16 ^ j) mod 16 ^ k) (lowest_bit mask) m ∅
                 (u32 (start + 0 * lowest_bit mask)) 0) as ->
    by (intros; by rewrite Z.add_0_r, u32_id).
  assert (16 ^ k ≤ 2 ^ 32) by nia. rewrite allocate_loop_eq by (bool_to_prop; lia).
  rewrite Z.add_0_l. case_match; [|done]. eexists. split; [done|]. intros t.
  rewrite assign_marks_dom, lookup_empty, (routable_sorted_perm obs).
  rewrite is_Some_alt. intuition.
Qed.

Lemma allocate_marks_total_witness :
  ∃ m, allocate_outbound_marks FwmarkConfig_default [sample_outbound "vpn" INTERFACE] = Ok m
       ∧ ∀ t, is_Some (m !! t) ↔ t ∈ ["vpn"%string].
Proof.
  refine (allocate_marks_total FwmarkConfig_default [sample_outbound "vpn" INTERFACE]
            16711680 65536 255 _ _ _); vm_compute; reflexivity.
Defined.

(** Marks are stable under reordering: permuting the configured outbounds
    (tags unique, as validation requires) yields the same mark map or the same
    error, so editing the order of the configuration never moves live
    connections to another mark. *)
Theorem allocate_marks_order_independent cfg obs1 obs2 :
  obs1 ≡ₚ obs2 → NoDup (ob_tag <$> obs1) →
  allocate_outbound_marks cfg obs1 = allocate_outbound_marks cfg obs2.
Proof.
  intros Hp Hnd. unfold allocate_outbound_marks.
  by rewrite (routable_sorted_unique obs1 obs2).
Qed.

Lemma allocate_marks_order_independent_witness :
  allocate_outbound_marks FwmarkConfig_default
    [sample_outbound "vpn_b" INTERFACE; sample_outbound "vpn_a" URLTEST]
  = allocate_outbound_marks FwmarkConfig_default
    [sample_outbound "vpn_a" URLTEST; sample_outbound "vpn_b" INTERFACE].
Proof.
  apply allocate_marks_order_independent; [apply perm_swap|].
  apply (bool_decide_unpack _). vm_compute. exact I.
Defined.
