(* ===== verification/RoutingPlan.v ===== *)
(** * Routing plan

    Models the pure planner of src/src/config/routing_state.cpp: which routing
    tables, routes and policy rules one configuration generation wants, given
    the fwmarks, the urltest selections and a reachability snapshot. *)

From Stdlib Require Import ZArith Lia Ascii String.
From stdpp Require Import base gmap strings list sorting.
From S2P Require Import Prelude ConfigTypes FwMark.
Open Scope Z_scope.

(** ** Kernel objects *)

(** [KEEN_PBR_GENERATED_ROUTE_PROTOCOL] *)
Definition KEEN_PBR_ROUTE_PROTOCOL : Z := 186.

(** [struct RouteSpec] *)
Record RouteSpec := {
  rt_destination : string;
  rt_table : Z;
  rt_interface : option string;
  rt_gateway : option string;
  rt_blackhole : bool;
  rt_unreachable : bool;
  rt_family : Z;
  rt_metric : Z;
  rt_protocol : Z;
}.

(** [struct RuleSpec] *)
Record RuleSpec := {
  ru_fwmark : Z;
  ru_fwmask : Z;
  ru_table : Z;
  ru_priority : Z;
  ru_family : Z;
}.

(** [struct OutboundFamilyReachability] *)
Record OutboundFamilyReachability := { rch_ipv4 : bool; rch_ipv6 : bool }.

Definition reach_any (r : OutboundFamilyReachability) (ipv6_enabled : bool) : bool :=
  rch_ipv4 r || (ipv6_enabled && rch_ipv6 r).

(** [OutboundFamilyReachability::for_family] *)
Definition for_family (r : OutboundFamilyReachability) (family : Z) : bool :=
  if family =? AF_INET then rch_ipv4 r else (family =? AF_INET6) && rch_ipv6 r.

(** [struct PlannedRoutingState] *)
Record PlannedRoutingState := { plan_routes : list RouteSpec; plan_rules : list RuleSpec }.

(** ** Table identifiers *)

Definition RESERVED_TABLE_UNSPEC : Z := 0.
Definition RESERVED_TABLE_PRELOCAL : Z := 128.
Definition RESERVED_TABLE_BLOCK_LOW : Z := 250.
Definition RESERVED_TABLE_BLOCK_HIGH : Z := 260.
Definition RESERVED_TABLE_SYSTEM_START : Z := 32000.

Definition is_reserved_table (id : Z) : bool :=
  (id =? RESERVED_TABLE_UNSPEC) || (id =? RESERVED_TABLE_PRELOCAL)
  || ((RESERVED_TABLE_BLOCK_LOW <=? id) && (id <=? RESERVED_TABLE_BLOCK_HIGH))
  || (RESERVED_TABLE_SYSTEM_START <=? id).

(** The body of the [while (true)] loop over [(id, count)]. *)
Definition safe_table_step (offset : Z) (st : Z * Z) : (Z * Z) + Z :=
  let '(id, count) := st in
  if negb (is_reserved_table id) then
    if count =? offset then inr id else inl (u32 (id + 1), u32 (count + 1))
  else inl (u32 (id + 1), count).

(** [safe_table_id]; the loop has no bound in the source, [2^64] iterations
    cover every 32-bit start and offset. *)
Definition safe_table_id (table_start offset : Z) : Z :=
  match loop_pow2 (safe_table_step offset) 64 (table_start, 0) with
  | inr id => id
  | inl _ => 0
  end.

(** ** Route construction *)

Definition kUnreachableRouteMetric : Z := 65535.

Definition default_route (table_id family : Z) (ob : Outbound) (gateway : option string)
    : RouteSpec :=
  {| rt_destination := "default"; rt_table := table_id;
     rt_interface := Some (default "" (ob_interface ob)); rt_gateway := gateway;
     rt_blackhole := false; rt_unreachable := false; rt_family := family;
     rt_metric := 0; rt_protocol := KEEN_PBR_ROUTE_PROTOCOL |}.

Definition unreachable_route (table_id family metric : Z) : RouteSpec :=
  {| rt_destination := "default"; rt_table := table_id; rt_interface := None;
     rt_gateway := None; rt_blackhole := false; rt_unreachable := true;
     rt_family := family; rt_metric := metric; rt_protocol := KEEN_PBR_ROUTE_PROTOCOL |}.

Definition has_value {A} (o : option A) : bool :=
  match o with Some _ => true | None => false end.

Definition make_default_routes (table_id : Z) (ob : Outbound) : list RouteSpec :=
  let has_gateway4 := has_value (ob_gateway ob) in
  let has_gateway6 := has_value (ob_gateway6 ob) in
  if negb has_gateway4 && negb has_gateway6 then
    [default_route table_id AF_INET ob None; default_route table_id AF_INET6 ob None]
  else
    (if has_gateway4 then [default_route table_id AF_INET ob (ob_gateway ob)] else [])
    ++ (if has_gateway6 then [default_route table_id AF_INET6 ob (ob_gateway6 ob)] else []).

Definition make_family_closure_routes (table_id : Z) (ob : Outbound) (metric : Z)
    : list RouteSpec :=
  let has_gateway4 := has_value (ob_gateway ob) in
  let has_gateway6 := has_value (ob_gateway6 ob) in
  if negb has_gateway4 && negb has_gateway6 then []
  else
    (if negb has_gateway4 then [unreachable_route table_id AF_INET metric] else [])
    ++ (if negb has_gateway6 then [unreachable_route table_id AF_INET6 metric] else []).

Definition make_unreachable_routes (table_id metric : Z) : list RouteSpec :=
  (λ family, unreachable_route table_id family metric) <$> [AF_INET; AF_INET6].

Definition set_metric (metric : Z) (r : RouteSpec) : RouteSpec :=
  {| rt_destination := rt_destination r; rt_table := rt_table r;
     rt_interface := rt_interface r; rt_gateway := rt_gateway r;
     rt_blackhole := rt_blackhole r; rt_unreachable := rt_unreachable r;
     rt_family := rt_family r; rt_metric := metric; rt_protocol := rt_protocol r |}.

(** ** Outbound helpers *)

Definition strict_enforcement_enabled (cfg : Config) (ob : Outbound) : bool :=
  match ob_strict_enforcement ob with
  | Some b => b
  | None =>
      match dc_strict_enforcement (default DaemonConfig_default (cfg_daemon cfg)) with
      | Some b => b
      | None =>
          bool_decide (ob_type ob = INTERFACE)
          && negb (has_value (ob_gateway ob)) && negb (has_value (ob_gateway6 ob))
      end
  end.

(** [nullptr] is [None]; an absent entry is the empty string. *)
Definition resolve_urltest_selection (selections : option (gmap string string))
    (urltest_tag : string) : string :=
  match selections with
  | None => ""
  | Some m => default "" (m !! urltest_tag)
  end.

(** [ordered_urltest_children]: children of the groups in ascending weight,
    declaration order among equal weights. The vector of [GroupRef]s is the
    list of (weight, group) pairs. *)
Definition group_weight_lt (a b : Z * OutboundGroup) : bool := a.1 <? b.1.

Definition sorted_groups (groups : list OutboundGroup) : list OutboundGroup :=
  snd <$> stable_sort group_weight_lt ((λ g, (default 1 (og_weight g), g)) <$> groups).

Definition ordered_urltest_children (outbounds : list Outbound) (urltest : Outbound)
    : list Outbound :=
  match ob_outbound_groups urltest with
  | None => []
  | Some groups =>
      omap (find_outbound outbounds) (concat (og_outbounds <$> sorted_groups groups))
  end.

Definition kMaxUrltestDepth : nat := 8.

(** Recursive walks carry [fuel = kMaxUrltestDepth + 1 - depth]; fuel zero is
    the source's [depth > kMaxUrltestDepth]. *)
Fixpoint resolve_selected_interface (fuel : nat) (outbounds : list Outbound)
    (selections : option (gmap string string)) (ob : Outbound) : option Outbound :=
  match fuel with
  | O => None
  | S fuel =>
      match ob_type ob with
      | INTERFACE => Some ob
      | URLTEST =>
          let selected_tag := resolve_urltest_selection selections (ob_tag ob) in
          if empty_str selected_tag then None
          else match find_outbound outbounds selected_tag with
               | None => None
               | Some child => resolve_selected_interface fuel outbounds selections child
               end
      | _ => None
      end
  end.

Fixpoint resolve_effective_outbound (fuel : nat) (outbounds : list Outbound)
    (selections : option (gmap string string)) (ob : Outbound) : option Outbound :=
  match ob_type ob with
  | URLTEST =>
      match fuel with
      | O => None
      | S fuel =>
          let selected_tag := resolve_urltest_selection selections (ob_tag ob) in
          if empty_str selected_tag then None
          else match find_outbound outbounds selected_tag with
               | None => None
               | Some child => resolve_effective_outbound fuel outbounds selections child
               end
      end
  | _ => Some ob
  end.

Fixpoint collect_urltest_leaf_interfaces (fuel : nat) (outbounds : list Outbound)
    (urltest : Outbound) (acc : list Outbound * gset string) : list Outbound * gset string :=
  match fuel with
  | O => acc
  | S fuel =>
      if bool_decide (ob_tag urltest ∈ acc.2) then acc
      else
        fold_left
          (λ acc child,
             match ob_type child with
             | INTERFACE => (acc.1 ++ [child], acc.2)
             | URLTEST => collect_urltest_leaf_interfaces fuel outbounds child acc
             | _ => acc
             end)
          (ordered_urltest_children outbounds urltest)
          (acc.1, {[ob_tag urltest]} ∪ acc.2)
  end.

(** ** The planner *)

(** [OutboundFamilyReachabilitySnapshot]: reachability by outbound tag *)
Abbreviation ReachSnapshot := (gmap string OutboundFamilyReachability).

Section Planner.
Context (cfg : Config) (marks : gmap string Z)
        (reachability_check : Outbound → OutboundFamilyReachability)
        (selections : option (gmap string string)) (ipv6_enabled : bool).

(** The lambda [add_route_if_enabled]: the routes appended and the returned
    flag. *)
Definition add_route_if_enabled (route : RouteSpec) : list RouteSpec * bool :=
  if negb ipv6_enabled && (rt_family route =? AF_INET6) then ([], false) else ([route], true).

Definition add_routes (l : list RouteSpec) : list RouteSpec :=
  l ≫= (λ r, (add_route_if_enabled r).1).

(** The lambda [reachability_for]: one check per tag and per plan, later
    queries answer from the snapshot. *)
Definition reachability_for (snap : ReachSnapshot) (ob : Outbound)
    : OutboundFamilyReachability * ReachSnapshot :=
  match snap !! ob_tag ob with
  | Some r => (r, snap)
  | None => let r := reachability_check ob in (r, <[ob_tag ob := r]> snap)
  end.

(** [if (reachable.for_family(route.family) && add_route_if_enabled(route))]:
    the routes added and whether there was one. *)
Definition add_usable (reachable : OutboundFamilyReachability) (l : list RouteSpec)
    : list RouteSpec * bool :=
  let usable := List.filter (λ r, for_family reachable (rt_family r)) l in
  (add_routes usable, existsb (λ r, (add_route_if_enabled r).2) usable).

(** What one outbound contributes to the plan. *)
Record Contribution := {
  ct_routes : list RouteSpec;
  ct_rules : list RuleSpec;
  ct_snapshot : ReachSnapshot;
  ct_consumed : bool;   (* ++table_offset happened *)
}.

(** The rule of an interface outbound, for the families its table has routes
    for; no rule without a route. *)
Definition interface_rules (fwmark_mask table_id mark : Z) (routes : list RouteSpec)
    : list RuleSpec :=
  let has_ipv4_route := existsb (λ r, rt_family r =? AF_INET) routes in
  let has_ipv6_route := existsb (λ r, rt_family r =? AF_INET6) routes in
  if negb has_ipv4_route && negb has_ipv6_route then []
  else [{| ru_fwmark := mark; ru_fwmask := fwmark_mask; ru_table := table_id;
           ru_priority := table_id;
           ru_family := if negb has_ipv4_route || negb has_ipv6_route
                        then (if has_ipv4_route then AF_INET else AF_INET6)
                        else AF_UNSPEC |}].

Definition plan_interface (fwmark_mask table_id mark : Z) (ob : Outbound)
    (snap : ReachSnapshot) : Contribution :=
  let strict := strict_enforcement_enabled cfg ob in
  let '(reachable, snap) := reachability_for snap ob in
  let routes :=
    (if reach_any reachable ipv6_enabled then
       (add_usable reachable (make_default_routes table_id ob)).1
       ++ add_routes (make_family_closure_routes table_id ob kUnreachableRouteMetric)
     else [])
    ++ (if strict then add_routes (make_unreachable_routes table_id kUnreachableRouteMetric)
        else []) in
  {| ct_routes := routes; ct_rules := interface_rules fwmark_mask table_id mark routes;
     ct_snapshot := snap; ct_consumed := true |}.

Definition plan_table (fwmark_mask table_start table_offset mark : Z) (ob : Outbound)
    (snap : ReachSnapshot) : Contribution :=
  {| ct_routes := [];
     ct_rules := [{| ru_fwmark := mark; ru_fwmask := fwmark_mask;
                     ru_table := u32 (default 0 (ob_table ob));
                     ru_priority := safe_table_id table_start table_offset;
                     ru_family := if negb ipv6_enabled then AF_INET else AF_UNSPEC |}];
     ct_snapshot := snap; ct_consumed := true |}.

(** The fallback loop over the flattened children, with the running [metric]. *)
Fixpoint plan_fallbacks (table_id : Z) (planned_selected : option string)
    (children : list Outbound) (metric : Z) (snap : ReachSnapshot)
    : list RouteSpec * ReachSnapshot :=
  match children with
  | [] => ([], snap)
  | child :: rest =>
      if bool_decide (planned_selected = Some (ob_tag child))
      then plan_fallbacks table_id planned_selected rest metric snap
      else
        let '(reachable, snap) := reachability_for snap child in
        if negb (reach_any reachable ipv6_enabled)
        then plan_fallbacks table_id planned_selected rest metric snap
        else
          let '(usable, usable_default_planned) :=
            add_usable reachable (set_metric metric <$> make_default_routes table_id child) in
          if negb usable_default_planned then
            let '(more, snap) := plan_fallbacks table_id planned_selected rest metric snap in
            (usable ++ more, snap)
          else
            let '(more, snap) :=
              plan_fallbacks table_id planned_selected rest (u32 (metric + 1)) snap in
            (usable
             ++ add_routes (make_family_closure_routes table_id child kUnreachableRouteMetric)
             ++ more, snap)
  end.

(** The metric-zero routes of the selected leaf. *)
Definition plan_selected (table_id : Z) (selected : option Outbound) (snap : ReachSnapshot)
    : list RouteSpec * bool * ReachSnapshot :=
  match selected with
  | None => ([], false, snap)
  | Some sel =>
      let '(reachable, snap) := reachability_for snap sel in
      if reach_any reachable ipv6_enabled then
        let '(usable, planned) := add_usable reachable (make_default_routes table_id sel) in
        (usable ++ add_routes (make_family_closure_routes table_id sel kUnreachableRouteMetric),
         planned, snap)
      else ([], false, snap)
  end.

Definition plan_urltest (outbounds : list Outbound) (fwmark_mask table_id mark : Z)
    (ob : Outbound) (snap : ReachSnapshot) : Contribution :=
  let ordered_children :=
    (collect_urltest_leaf_interfaces (S kMaxUrltestDepth) outbounds ob ([], ∅)).1 in
  let selected_tag := resolve_urltest_selection selections (ob_tag ob) in
  let '(routes, snap) :=
    if negb (empty_str selected_tag) then
      let selected :=
        resolve_selected_interface (S kMaxUrltestDepth) outbounds selections ob in
      let '(primary, selected_primary_planned, snap) :=
        plan_selected table_id selected snap in
      let planned_selected :=
        if selected_primary_planned then ob_tag <$> selected else None in
      let '(fallbacks, snap) :=
        plan_fallbacks table_id planned_selected ordered_children 1 snap in
      (primary ++ fallbacks, snap)
    else ([], snap) in
  {| ct_routes := routes ++ add_routes (make_unreachable_routes table_id kUnreachableRouteMetric);
     ct_rules := [{| ru_fwmark := mark; ru_fwmask := fwmark_mask; ru_table := table_id;
                     ru_priority := table_id;
                     ru_family := if negb ipv6_enabled then AF_INET else AF_UNSPEC |}];
     ct_snapshot := snap; ct_consumed := true |}.

Definition no_contribution (snap : ReachSnapshot) : Contribution :=
  {| ct_routes := []; ct_rules := []; ct_snapshot := snap; ct_consumed := false |}.

(** One iteration of the outbound loop. *)
Definition plan_outbound (outbounds : list Outbound) (fwmark_mask table_start table_offset : Z)
    (ob : Outbound) (snap : ReachSnapshot) : Contribution :=
  match ob_type ob with
  | INTERFACE =>
      match marks !! ob_tag ob with
      | None => no_contribution snap
      | Some mark =>
          plan_interface fwmark_mask (safe_table_id table_start table_offset) mark ob snap
      end
  | TABLE =>
      match marks !! ob_tag ob with
      | None => no_contribution snap
      | Some mark => plan_table fwmark_mask table_start table_offset mark ob snap
      end
  | URLTEST =>
      match marks !! ob_tag ob with
      | None => no_contribution snap
      | Some mark =>
          plan_urltest outbounds fwmark_mask (safe_table_id table_start table_offset) mark ob snap
      end
  | BLACKHOLE | IGNORE => no_contribution snap
  end.

Fixpoint plan_loop (outbounds : list Outbound) (fwmark_mask table_start : Z)
    (todo : list Outbound) (table_offset : Z) (snap : ReachSnapshot) : PlannedRoutingState :=
  match todo with
  | [] => {| plan_routes := []; plan_rules := [] |}
  | ob :: todo =>
      let ct := plan_outbound outbounds fwmark_mask table_start table_offset ob snap in
      let rest :=
        plan_loop outbounds fwmark_mask table_start todo
          (if ct_consumed ct then u32 (table_offset + 1) else table_offset) (ct_snapshot ct) in
      {| plan_routes := ct_routes ct ++ plan_routes rest;
         plan_rules := ct_rules ct ++ plan_rules rest |}
  end.

Definition config_table_start : Z :=
  u32 (default 150 (match cfg_iproute cfg with
                    | Some ip => ip_table_start ip | None => None end)).

Definition build_planned_routing_state : result FwmarkError PlannedRoutingState :=
  let outbounds := default [] (cfg_outbounds cfg) in
  let! fwmark_mask := fwmark_mask_value (default FwmarkConfig_default (cfg_fwmark cfg)) in
  Ok (plan_loop outbounds fwmark_mask config_table_start outbounds 0 ∅).
End Planner.

(** The check [plan_routing_state] passes: the family snapshot first, then the
    legacy snapshot, and a missing entry is reachable. *)
Definition snapshot_check (reachability_snapshot : gmap string bool)
    (family_reachability : option ReachSnapshot) (ob : Outbound) : OutboundFamilyReachability :=
  let legacy :=
    let reachable := default true (reachability_snapshot !! ob_tag ob) in
    {| rch_ipv4 := reachable; rch_ipv6 := reachable |} in
  match family_reachability with
  | Some fr => default legacy (fr !! ob_tag ob)
  | None => legacy
  end.

Definition plan_routing_state (cfg : Config) (marks : gmap string Z)
    (reachability_snapshot : gmap string bool) (selections : option (gmap string string))
    (ipv6_enabled : bool) (family_reachability : option ReachSnapshot)
    : result FwmarkError PlannedRoutingState :=
  build_planned_routing_state cfg marks
    (snapshot_check reachability_snapshot family_reachability) selections ipv6_enabled.

(** ** Affected urltest groups *)

Definition contains_affected_child (affected_tags : gset string) (groups : list OutboundGroup)
    : bool :=
  existsb (λ g, existsb (λ child, bool_decide (child ∈ affected_tags)) (og_outbounds g)) groups.

(** One visit of the inner loop; the state is
    [(affected_tags, affected_urltests, discovered_parent)]. *)
Definition affected_step (st : gset string * gset string * bool) (ob : Outbound)
    : gset string * gset string * bool :=
  let '(affected_tags, affected_urltests, discovered_parent) := st in
  match ob_type ob, ob_outbound_groups ob with
  | URLTEST, Some groups =>
      if bool_decide (ob_tag ob ∈ affected_urltests) then st
      else if contains_affected_child affected_tags groups
           then ({[ob_tag ob]} ∪ affected_tags, {[ob_tag ob]} ∪ affected_urltests, true)
           else st
  | _, _ => st
  end.

(** [while (discovered_parent)]; every productive round adds a tag, so one more
    round than there are outbounds is enough. *)
Fixpoint affected_loop (fuel : nat) (outbounds : list Outbound)
    (affected_tags affected_urltests : gset string) : gset string :=
  match fuel with
  | O => affected_urltests
  | S fuel =>
      let '(tags', urltests', discovered) :=
        fold_left affected_step outbounds (affected_tags, affected_urltests, false) in
      if discovered then affected_loop fuel outbounds tags' urltests' else urltests'
  end.

Definition find_affected_urltests (outbounds : list Outbound)
    (changed_outbound_tags : list string) : list string :=
  let affected_urltests :=
    affected_loop (S (length outbounds)) outbounds (list_to_set changed_outbound_tags) ∅ in
  ob_tag <$> List.filter (λ ob, bool_decide (ob_tag ob ∈ affected_urltests)) outbounds.

(** ** Table identifier lemmas *)

(** Reserved identifiers at or above [id] and below the system range. *)
Definition reserved_from (id : Z) : Z :=
  (if id <=? 0 then 1 else 0) + (if id <=? 128 then 1 else 0)
  + (if id <=? 250 then 11 else if id <=? 260 then 261 - id else 0).

Ltac reserved_cases :=
  unfold reserved_from, is_reserved_table, RESERVED_TABLE_UNSPEC, RESERVED_TABLE_PRELOCAL,
    RESERVED_TABLE_BLOCK_LOW, RESERVED_TABLE_BLOCK_HIGH, RESERVED_TABLE_SYSTEM_START in *;
  repeat match goal with
  | |- context [?a <=? ?b] => destruct (Z.leb_spec a b)
  | |- context [?a =? ?b] => destruct (Z.eqb_spec a b)
  end; simpl.

Lemma reserved_from_step id :
  0 ≤ id < 32000 →
  reserved_from id = reserved_from (id + 1) + (if is_reserved_table id then 1 else 0).
Proof. intros. reserved_cases; lia. Qed.

Lemma reserved_from_range id : 0 ≤ id → 0 ≤ reserved_from id ≤ 13.
Proof. intros. reserved_cases; lia. Qed.

Lemma reserved_below_system id : is_reserved_table id = false → id < 32000.
Proof. reserved_cases; lia. Qed.

Lemma safe_table_runs n offset id count :
  0 ≤ id → 0 ≤ count ≤ offset → offset < 2 ^ 32 → Z.of_nat n = 32000 - id →
  id + (offset - count) + reserved_from id < 32000 →
  ∃ k r, runs (safe_table_step offset) k (id, count) r ∧ (k ≤ N.of_nat n)%N ∧ id ≤ r
         ∧ is_reserved_table r = false
         ∧ r + reserved_from r = id + reserved_from id + (offset - count).
Proof.
  revert id count. induction n as [|n IH]; intros id count Hid Hc Ho Hn Hb.
  { pose proof (reserved_from_range id Hid). lia. }
  pose proof (reserved_from_range id Hid).
  pose proof (reserved_from_step id ltac:(lia)) as Hstep.
  assert (u32 (id + 1) = id + 1) as Hu by (apply u32_id; unfold is_u32; lia).
  destruct (is_reserved_table id) eqn:Er.
  - destruct (IH (id + 1) count) as (k & r & Hr & Hk & Hle & Hf & Heq); [lia..|].
    exists (N.succ k), r. split_and!; try done; try lia.
    eapply runs_next; [|exact Hr]. simpl. by rewrite Er, Hu.
  - destruct (Z.eqb_spec count offset) as [->|Hne].
    + exists 0%N, id. split_and!; try done; try lia.
      constructor. simpl. by rewrite Er, Z.eqb_refl.
    + destruct (IH (id + 1) (count + 1)) as (k & r & Hr & Hk & Hle & Hf & Heq); [lia..|].
      exists (N.succ k), r. split_and!; try done; try lia.
      eapply runs_next; [|exact Hr]. simpl.
      rewrite Er, (proj2 (Z.eqb_neq _ _) Hne), Hu. simpl.
      by rewrite (u32_id (count + 1)) by (unfold is_u32; lia).
Qed.

(** The identifiers an allocation can use without touching the system range. *)
Definition table_range_ok (table_start offset : Z) : Prop :=
  0 ≤ table_start ∧ 0 ≤ offset ∧ table_start + offset + 13 < 32000.

Lemma safe_table_id_spec table_start offset :
  table_range_ok table_start offset →
  let id := safe_table_id table_start offset in
  table_start ≤ id ∧ is_reserved_table id = false
  ∧ id + reserved_from id = table_start + reserved_from table_start + offset.
Proof.
  intros (Hs & Ho & Hb) id. pose proof (reserved_from_range table_start Hs).
  destruct (safe_table_runs (Z.to_nat (32000 - table_start)) offset table_start 0)
    as (k & r & Hr & Hk & Hle & Hf & Heq); [lia..|].
  unfold id, safe_table_id. rewrite (runs_loop_done _ 64 k _ r Hr).
  - split_and!; try done; lia.
  - apply N.le_lt_trans with 32000%N; [lia|done].
Qed.

Lemma safe_table_id_inj table_start o1 o2 :
  table_range_ok table_start o1 → table_range_ok table_start o2 →
  safe_table_id table_start o1 = safe_table_id table_start o2 → o1 = o2.
Proof.
  intros H1 H2 E. pose proof (safe_table_id_spec _ _ H1) as (_ & _ & E1).
  pose proof (safe_table_id_spec _ _ H2) as (_ & _ & E2). rewrite E in E1. lia.
Qed.
