(* ===== verification/RoutingPlanProps.v ===== *)
(** * Properties of the routing plan

    What the plan built by src/src/config/routing_state.cpp guarantees: the
    kill switch, ownership of rules and tables, IPv6 gating, reachability of
    every usable route and the order in which the kernel sees the candidates. *)

From Stdlib Require Import ZArith Lia Ascii String.
From stdpp Require Import base gmap strings list sorting.
From S2P Require Import Prelude ConfigTypes FwMark RoutingPlan.
Open Scope Z_scope.

(** * Facts about the routing plan

    Membership lemmas for the planner's building blocks and the decomposition
    of a plan into one contribution per outbound, then the plan's properties:
    kill switch, rule/table ownership, IPv6 gating and selection order. *)

(** ** Building blocks *)

Lemma elem_of_unreachable t metric r :
  r ∈ make_unreachable_routes t metric ↔
  r = unreachable_route t AF_INET metric ∨ r = unreachable_route t AF_INET6 metric.
Proof.
  unfold make_unreachable_routes. simpl. rewrite !elem_of_cons, elem_of_nil. tauto.
Qed.

(** Defaults are usable routes of the outbound's own interface, one per family
    it can carry. *)
Definition is_default_of (t : Z) (ob : Outbound) (r : RouteSpec) : Prop :=
  rt_table r = t ∧ rt_unreachable r = false ∧ rt_blackhole r = false
  ∧ rt_destination r = "default"%string
  ∧ rt_interface r = Some (default ""%string (ob_interface ob))
  ∧ (rt_family r = AF_INET ∧ rt_gateway r = ob_gateway ob
     ∧ (ob_gateway6 ob = None ∨ has_value (ob_gateway ob) = true)
     ∨ rt_family r = AF_INET6 ∧ rt_gateway r = ob_gateway6 ob
       ∧ (ob_gateway ob = None ∨ has_value (ob_gateway6 ob) = true)).

Lemma elem_of_default_routes t ob r :
  r ∈ make_default_routes t ob → is_default_of t ob r ∧ rt_metric r = 0.
Proof.
  unfold make_default_routes, is_default_of.
  destruct (ob_gateway ob), (ob_gateway6 ob); simpl;
    rewrite ?elem_of_cons, ?elem_of_nil; naive_solver.
Qed.

Lemma elem_of_closure_routes t ob metric r :
  r ∈ make_family_closure_routes t ob metric →
  r = unreachable_route t AF_INET metric ∨ r = unreachable_route t AF_INET6 metric.
Proof.
  unfold make_family_closure_routes. destruct (ob_gateway ob), (ob_gateway6 ob); simpl;
    rewrite ?elem_of_cons, ?elem_of_nil; naive_solver.
Qed.

Section Blocks.
Context (ipv6 : bool).

(** The family a plan may contain. *)
Definition family_enabled (r : RouteSpec) : Prop := ipv6 = true ∨ rt_family r ≠ AF_INET6.

Lemma add_route_flag r : (add_route_if_enabled ipv6 r).2 = true ↔ family_enabled r.
Proof.
  unfold add_route_if_enabled, family_enabled.
  destruct ipv6; simpl; [naive_solver|]. destruct (Z.eqb_spec (rt_family r) AF_INET6); naive_solver.
Qed.

Lemma elem_of_add_routes r l : r ∈ add_routes ipv6 l ↔ r ∈ l ∧ family_enabled r.
Proof.
  unfold add_routes. rewrite list_elem_of_bind. unfold add_route_if_enabled, family_enabled.
  split.
  - intros (x & Hr & Hx). revert Hr.
    destruct ipv6; simpl; [rewrite list_elem_of_singleton; intros ->; auto|].
    destruct (Z.eqb_spec (rt_family x) AF_INET6); simpl; [by rewrite elem_of_nil|].
    rewrite list_elem_of_singleton. intros ->. auto.
  - intros [Hr He]. exists r. split; [|done].
    destruct ipv6; simpl; [by apply list_elem_of_singleton|].
    destruct (Z.eqb_spec (rt_family r) AF_INET6); simpl; [naive_solver|].
    by apply list_elem_of_singleton.
Qed.

Lemma elem_of_add_usable reach l r :
  r ∈ (add_usable ipv6 reach l).1 ↔
  r ∈ l ∧ for_family reach (rt_family r) = true ∧ family_enabled r.
Proof.
  unfold add_usable; simpl. rewrite elem_of_add_routes.
  rewrite !list_elem_of_In, List.filter_In. tauto.
Qed.

Lemma add_usable_flag reach l :
  (add_usable ipv6 reach l).2 = true ↔ ∃ r, r ∈ (add_usable ipv6 reach l).1.
Proof.
  setoid_rewrite elem_of_add_usable. unfold add_usable; simpl. rewrite existsb_exists.
  setoid_rewrite List.filter_In. setoid_rewrite add_route_flag.
  setoid_rewrite list_elem_of_In. naive_solver.
Qed.

(** The snapshot only ever records answers of the check, which looks at tags. *)
Context (check : Outbound → OutboundFamilyReachability)
        (check_tag : string → OutboundFamilyReachability).
Context (Hcheck : ∀ ob, check ob = check_tag (ob_tag ob)).

Definition snapshot_ok (snap : ReachSnapshot) : Prop :=
  ∀ t r, snap !! t = Some r → r = check_tag t.

Lemma reachability_for_ok snap ob :
  snapshot_ok snap →
  (reachability_for check snap ob).1 = check ob
  ∧ snapshot_ok (reachability_for check snap ob).2.
Proof.
  intros Hs. unfold reachability_for. destruct (snap !! ob_tag ob) as [r|] eqn:E; simpl.
  - split; [|done]. rewrite Hcheck. by apply Hs.
  - split; [done|]. intros t r. rewrite lookup_insert. case_decide as Ht; [|apply Hs].
    intros [= <-]. by rewrite Hcheck, Ht.
Qed.
End Blocks.

(** ** Leaves of urltest groups *)

Definition is_leaf (outbounds : list Outbound) (ob : Outbound) : Prop :=
  ob ∈ outbounds ∧ ob_type ob = INTERFACE.

Lemma ordered_children_elem obs ut ob : ob ∈ ordered_urltest_children obs ut → ob ∈ obs.
Proof.
  unfold ordered_urltest_children. destruct (ob_outbound_groups ut); [|by rewrite elem_of_nil].
  rewrite list_elem_of_omap. intros (t & _ & Hf). eauto with kpbr.
Qed.

Lemma collect_leaves fuel obs ut acc :
  Forall (is_leaf obs) acc.1 →
  Forall (is_leaf obs) (collect_urltest_leaf_interfaces fuel obs ut acc).1.
Proof.
  revert ut acc. induction fuel as [|fuel IH]; intros ut acc Hacc; simpl; [done|].
  case_bool_decide; [done|]. apply fold_left_inv; [|done].
  intros a b Hb Ha. destruct (ob_type b) eqn:Et; try done; [|by apply IH].
  apply Forall_app; split; [done|]. constructor; [|done].
  split; [by eapply ordered_children_elem | done].
Qed.

Lemma resolve_selected_leaf fuel obs sel ob leaf :
  ob ∈ obs → resolve_selected_interface fuel obs sel ob = Some leaf → is_leaf obs leaf.
Proof.
  revert ob. induction fuel as [|fuel IH]; intros ob Hob; simpl; [done|].
  destruct (ob_type ob) eqn:Et; try done; [by intros [= <-]|].
  destruct (empty_str _); [done|].
  destruct (find_outbound obs _) as [child|] eqn:Ef; [|done]. apply IH. eauto with kpbr.
Qed.

(** ** Contributions *)

Section Contributions.
Context (cfg : Config) (marks : gmap string Z)
        (check : Outbound → OutboundFamilyReachability)
        (selections : option (gmap string string)) (ipv6 : bool).
Context (check_tag : string → OutboundFamilyReachability).
Context (Hcheck : ∀ ob, check ob = check_tag (ob_tag ob)).
Context (outbounds : list Outbound).

(** The two kinds of route a plan contains: the terminal unreachable route, and
    a default through an interface that is reachable for that family. *)
Definition closure_route (t : Z) (r : RouteSpec) : Prop :=
  r = unreachable_route t AF_INET kUnreachableRouteMetric
  ∨ r = unreachable_route t AF_INET6 kUnreachableRouteMetric.

(** The interfaces the traffic of an outbound may use: itself, or for a group
    the leaves below it and the leaf its selection resolves to. *)
Definition own_leaf (ob leaf : Outbound) : Prop :=
  ob_type ob = INTERFACE ∧ leaf = ob
  ∨ ob_type ob = URLTEST
    ∧ (leaf ∈ (collect_urltest_leaf_interfaces (S kMaxUrltestDepth) outbounds ob ([], ∅)).1
       ∨ resolve_selected_interface (S kMaxUrltestDepth) outbounds selections ob = Some leaf).

Definition live_route (ob : Outbound) (t : Z) (r : RouteSpec) : Prop :=
  ∃ leaf, own_leaf ob leaf ∧ is_default_of t leaf r
          ∧ for_family (check leaf) (rt_family r) = true.

Definition good_route (ob : Outbound) (t : Z) (r : RouteSpec) : Prop :=
  family_enabled ipv6 r ∧ (closure_route t r ∨ live_route ob t r).

Lemma good_closures ob t child :
  Forall (good_route ob t) (add_routes ipv6 (make_family_closure_routes t child kUnreachableRouteMetric)).
Proof.
  apply Forall_forall. intros r [Hr He]%elem_of_add_routes.
  split; [done|]. left. by apply elem_of_closure_routes in Hr.
Qed.

Lemma good_unreachable ob t :
  Forall (good_route ob t) (add_routes ipv6 (make_unreachable_routes t kUnreachableRouteMetric)).
Proof.
  apply Forall_forall. intros r [Hr He]%elem_of_add_routes.
  split; [done|]. left. by apply elem_of_unreachable in Hr.
Qed.

Lemma good_usable ob t leaf reach l :
  own_leaf ob leaf → reach = check leaf →
  (∀ r, r ∈ l → is_default_of t leaf r) → Forall (good_route ob t) (add_usable ipv6 reach l).1.
Proof.
  intros Hleaf -> Hl. apply Forall_forall.
  intros r (Hr & Hf & He)%elem_of_add_usable. split; [done|]. right. exists leaf. auto.
Qed.

Lemma default_of_metric t ob m r :
  r ∈ set_metric m <$> make_default_routes t ob → is_default_of t ob r ∧ rt_metric r = m.
Proof.
  intros (r' & -> & Hr)%list_elem_of_fmap.
  apply elem_of_default_routes in Hr as [Hr _]. by split.
Qed.

Lemma plan_fallbacks_good ob t sel children metric snap :
  Forall (own_leaf ob) children → snapshot_ok check_tag snap →
  let res := plan_fallbacks check ipv6 t sel children metric snap in
  Forall (good_route ob t) res.1 ∧ snapshot_ok check_tag res.2.
Proof.
  revert metric snap.
  induction children as [|child rest IH]; intros metric snap Hc Hs; cbn [plan_fallbacks]; [done|].
  inversion_clear Hc as [|? ? Hchild Hrest].
  case_bool_decide; [by apply IH|].
  destruct (reachability_for_ok check check_tag Hcheck snap child Hs) as [Hr Hs'].
  destruct (reachability_for check snap child) as [reach snap'] eqn:Er. simpl in Hr, Hs'.
  destruct (negb _); [by apply IH|].
  pose proof (good_usable ob t child reach (set_metric metric <$> make_default_routes t child)
    Hchild Hr (λ r H, proj1 (default_of_metric t child metric r H))) as Hg.
  destruct (add_usable _ _ _) as [usable planned]. simpl in Hg.
  destruct (negb planned).
  - destruct (IH metric snap' Hrest Hs') as [H1 H2].
    destruct (plan_fallbacks _ _ _ _ _ _ _) as [more snap'']. simpl in *.
    by rewrite Forall_app.
  - destruct (IH (u32 (metric + 1)) snap' Hrest Hs') as [H1 H2].
    destruct (plan_fallbacks _ _ _ _ _ _ _) as [more snap'']. simpl in *.
    rewrite !Forall_app. auto using good_closures.
Qed.

Lemma plan_selected_good ob t sel snap :
  (∀ s, sel = Some s → own_leaf ob s) → snapshot_ok check_tag snap →
  let res := plan_selected check ipv6 t sel snap in
  Forall (good_route ob t) res.1.1 ∧ snapshot_ok check_tag res.2.
Proof.
  intros Hsel Hs. destruct sel as [s|]; cbn [plan_selected]; [|done].
  destruct (reachability_for_ok check check_tag Hcheck snap s Hs) as [Hr Hs'].
  destruct (reachability_for check snap s) as [reach snap']. simpl in Hr, Hs'.
  destruct (reach_any _ _); [|done].
  pose proof (good_usable ob t s reach (make_default_routes t s) (Hsel s eq_refl) Hr
    (λ r H, proj1 (elem_of_default_routes t s r H))) as Hg.
  destruct (add_usable _ _ _) as [usable planned]. simpl in *.
  rewrite Forall_app. auto using good_closures.
Qed.

Lemma plan_outbound_good mask ts off ob snap :
  snapshot_ok check_tag snap →
  let ct := plan_outbound cfg marks check selections ipv6 outbounds mask ts off ob snap in
  Forall (good_route ob (safe_table_id ts off)) (ct_routes ct) ∧ snapshot_ok check_tag (ct_snapshot ct).
Proof.
  intros Hs. unfold plan_outbound.
  destruct (ob_type ob) eqn:Et; try done; destruct (marks !! ob_tag ob) as [mark|]; try done.
  - unfold plan_interface.
    destruct (reachability_for_ok check check_tag Hcheck snap ob Hs) as [Hr Hs'].
    destruct (reachability_for check snap ob) as [reach snap']. simpl in Hr, Hs'.
    cbn [ct_routes ct_snapshot].
    split; [|done]. apply Forall_app; split; [|case_match; [apply good_unreachable|done]].
    case_match; [|done]. apply Forall_app; split; [|apply good_closures].
    apply good_usable with ob; [by left|done|]. intros r Hin. by apply elem_of_default_routes in Hin as [? _].
  - unfold plan_urltest. destruct (negb (empty_str _)); cbn [ct_routes ct_snapshot].
    + pose proof (plan_selected_good ob (safe_table_id ts off)
        (resolve_selected_interface (S kMaxUrltestDepth) outbounds selections ob) snap) as Hsel.
      destruct (plan_selected _ _ _ _ _) as [[primary planned] snap'] eqn:E1.
      cbn [fst snd] in Hsel.
      destruct Hsel as [H1 H2]; [intros s Hsel; right; by split; [|right] | done |].
      pose proof (plan_fallbacks_good ob (safe_table_id ts off)
        (if planned then ob_tag <$> resolve_selected_interface (S kMaxUrltestDepth) outbounds selections ob
         else None)
        (collect_urltest_leaf_interfaces (S kMaxUrltestDepth) outbounds ob ([], ∅)).1 1 snap'
        ltac:(apply Forall_forall; intros x Hx; right; by split; [|left]) H2) as Hfb.
      destruct (plan_fallbacks _ _ _ _ _ _ _) as [fb snap''].
      cbn [fst snd ct_routes ct_snapshot] in *. destruct Hfb. rewrite !Forall_app. auto using good_unreachable.
    + auto using good_unreachable.
Qed.

Definition next_offset (off : Z) (ct : Contribution) : Z :=
  if ct_consumed ct then u32 (off + 1) else off.

(** The sequence of contributions behind [plan_loop]. *)
Fixpoint contributions (mask ts : Z) (todo : list Outbound) (off : Z) (snap : ReachSnapshot)
    : list (Outbound * Z * Contribution) :=
  match todo with
  | [] => []
  | ob :: todo =>
      let ct := plan_outbound cfg marks check selections ipv6 outbounds mask ts off ob snap in
      (ob, off, ct)
      :: contributions mask ts todo (next_offset off ct) (ct_snapshot ct)
  end.

Lemma next_offset_range mask ts off ob snap :
  0 ≤ off < 2 ^ 32 - 1 →
  let ct := plan_outbound cfg marks check selections ipv6 outbounds mask ts off ob snap in
  off ≤ next_offset off ct ≤ off + 1 ∧ (ct_consumed ct = true → next_offset off ct = off + 1).
Proof.
  intros H ct. unfold next_offset.
  destruct (ct_consumed ct); [rewrite u32_id by (unfold is_u32; lia)|]; split; done || lia.
Qed.

Lemma plan_loop_contributions mask ts todo off snap :
  let cs := contributions mask ts todo off snap in
  let plan := plan_loop cfg marks check selections ipv6 outbounds mask ts todo off snap in
  plan_routes plan = concat ((λ c, ct_routes c.2) <$> cs)
  ∧ plan_rules plan = concat ((λ c, ct_rules c.2) <$> cs).
Proof.
  revert off snap. induction todo as [|ob todo IH]; intros off snap; simpl; [done|].
  edestruct IH as [H1 H2]. by rewrite H1, H2.
Qed.

Lemma contributions_obs mask ts todo off snap :
  (λ c, c.1.1) <$> contributions mask ts todo off snap = todo.
Proof. revert off snap. induction todo; intros; simpl; f_equal; auto. Qed.

(** Each contribution is one iteration of the loop, at an offset inside the
    range; contributions that consumed an offset have different offsets. *)
Lemma contributions_spec mask ts todo off snap :
  0 ≤ off → off + Z.of_nat (length todo) < 2 ^ 32 → snapshot_ok check_tag snap →
  ∀ i ob o ct, contributions mask ts todo off snap !! i = Some (ob, o, ct) →
    todo !! i = Some ob ∧ off ≤ o ≤ off + Z.of_nat i
    ∧ (∃ snap', snapshot_ok check_tag snap'
         ∧ ct = plan_outbound cfg marks check selections ipv6 outbounds mask ts o ob snap').
Proof.
  intros Hoff Hlen Hs i. revert todo off snap Hoff Hlen Hs.
  induction i as [|i IH]; intros [|ob0 todo] off snap Hoff Hlen Hs ob o ct; simpl; try done.
  - intros [= <- <- <-]. split; [done|]. split; [lia|]. eauto.
  - intros Hi. cbn [length] in Hlen.
    pose proof (next_offset_range mask ts off ob0 snap ltac:(lia)) as Hn.
    cbv zeta in Hn.
    destruct (plan_outbound_good mask ts off ob0 snap) as [_ Hs']; [done|].
    eapply IH in Hi as (H1 & H2 & H3);
      [|lia|lia|exact Hs'].
    split; [done|]. split; [lia|]. exact H3.
Qed.

Lemma contributions_offsets mask ts todo off snap :
  0 ≤ off → off + Z.of_nat (length todo) < 2 ^ 32 → snapshot_ok check_tag snap →
  ∀ i j ob1 o1 ct1 ob2 o2 ct2, (i < j)%nat →
    contributions mask ts todo off snap !! i = Some (ob1, o1, ct1) →
    contributions mask ts todo off snap !! j = Some (ob2, o2, ct2) →
    ct_consumed ct1 = true → o1 < o2.
Proof.
  intros Hoff Hlen Hs i. revert todo off snap Hoff Hlen Hs.
  induction i as [|i IH]; intros [|ob0 todo] off snap Hoff Hlen Hs
    [|j] ob1 o1 ct1 ob2 o2 ct2 Hij; simpl; try done; try lia;
    cbn [length] in Hlen;
    pose proof (next_offset_range mask ts off ob0 snap ltac:(lia)) as Hn; cbv zeta in Hn;
    (destruct (plan_outbound_good mask ts off ob0 snap) as [_ Hs']; [done|]); intros Hi Hj Hc.
  - injection Hi as <- <- <-.
    eapply contributions_spec in Hj as (_ & H2 & _);
      [|lia|lia|exact Hs'].
    unfold next_offset in *. rewrite Hc in *. lia.
  - eapply IH; [..|exact Hi|exact Hj|exact Hc];
      [lia|lia|exact Hs'|lia].
Qed.
End Contributions.

(** A policy rule covers a family when it is family-independent or of that
    family. *)
Definition rule_covers (ru : RuleSpec) (family : Z) : Prop :=
  ru_family ru = AF_UNSPEC ∨ ru_family ru = family.

(** The families the plan manages. *)
Definition managed_families (ipv6 : bool) : list Z :=
  if ipv6 then [AF_INET; AF_INET6] else [AF_INET].

Lemma managed_enabled ipv6 f r :
  f ∈ managed_families ipv6 → rt_family r = f → family_enabled ipv6 r.
Proof.
  unfold managed_families, family_enabled. intros Hf <-.
  destruct ipv6; [by left|right]. apply list_elem_of_singleton in Hf. by rewrite Hf.
Qed.

Lemma elem_of_concat_fmap {A B} (f : A → list B) (l : list A) (x : B) :
  x ∈ concat (f <$> l) ↔ ∃ i a, l !! i = Some a ∧ x ∈ f a.
Proof.
  rewrite list_elem_of_In, in_concat. setoid_rewrite <- list_elem_of_In. split.
  - intros (y & (a & -> & Ha)%list_elem_of_fmap & Hx).
    apply list_elem_of_lookup in Ha as [i Hi]. eauto.
  - intros (i & a & Ha & Hx). exists (f a). split; [|done].
    apply list_elem_of_fmap. exists a. split; [done|]. by eapply list_elem_of_lookup_2.
Qed.

Section Plan.
Context (cfg : Config) (marks : gmap string Z) (reach : gmap string bool)
        (selections : option (gmap string string)) (ipv6 : bool)
        (family_reach : option ReachSnapshot) (plan : PlannedRoutingState).

Definition cfg_obs : list Outbound := default [] (cfg_outbounds cfg).

Definition plan_check : Outbound → OutboundFamilyReachability :=
  snapshot_check reach family_reach.

Definition check_by_tag (t : string) : OutboundFamilyReachability :=
  let legacy := {| rch_ipv4 := default true (reach !! t); rch_ipv6 := default true (reach !! t) |} in
  match family_reach with Some fr => default legacy (fr !! t) | None => legacy end.

Lemma plan_check_tag ob : plan_check ob = check_by_tag (ob_tag ob).
Proof. done. Qed.

Context (Hplan : plan_routing_state cfg marks reach selections ipv6 family_reach = Ok plan).
Context (Hlen : Z.of_nat (length cfg_obs) < 2 ^ 32).

(** The contributions of a plan, by position of the outbound. *)
Definition plan_contributions (mask : Z) : list (Outbound * Z * Contribution) :=
  contributions cfg marks plan_check selections ipv6 cfg_obs mask (config_table_start cfg)
    cfg_obs 0 ∅.

Definition is_iteration (mask : Z) (ob : Outbound) (o : Z) (ct : Contribution) : Prop :=
  ∃ snap, snapshot_ok check_by_tag snap
    ∧ ct = plan_outbound cfg marks plan_check selections ipv6 cfg_obs mask
             (config_table_start cfg) o ob snap.

Lemma plan_parts :
  ∃ mask,
    fwmark_mask_value (default FwmarkConfig_default (cfg_fwmark cfg)) = Ok mask
    ∧ plan_routes plan = concat ((λ c, ct_routes c.2) <$> plan_contributions mask)
    ∧ plan_rules plan = concat ((λ c, ct_rules c.2) <$> plan_contributions mask).
Proof.
  revert Hplan. unfold plan_routing_state, build_planned_routing_state. intros Hp. res_inv.
  subst plan. eexists. split; [eassumption|]. apply plan_loop_contributions.
Qed.

Lemma snapshot_ok_empty : snapshot_ok check_by_tag ∅.
Proof. intros t r. by rewrite lookup_empty. Qed.

Lemma iteration_of mask i ob o ct :
  plan_contributions mask !! i = Some (ob, o, ct) →
  cfg_obs !! i = Some ob ∧ 0 ≤ o ≤ Z.of_nat i ∧ is_iteration mask ob o ct.
Proof.
  intros H. eapply contributions_spec in H; [|exact plan_check_tag|lia|done
    |apply snapshot_ok_empty].
  by rewrite Z.add_0_l in H.
Qed.

Lemma contribution_of mask ob :
  ob ∈ cfg_obs → ∃ i o ct, plan_contributions mask !! i = Some (ob, o, ct).
Proof.
  intros [i Hi]%list_elem_of_lookup.
  assert (((λ c, c.1.1) <$> plan_contributions mask) = cfg_obs) as Hm
    by apply contributions_obs.
  rewrite <- Hm, list_lookup_fmap in Hi.
  destruct (plan_contributions mask !! i) as [[[ob' o] ct]|] eqn:E; [|done].
  injection Hi as <-. eauto.
Qed.

Lemma elem_of_plan_rules mask ru :
  plan_rules plan = concat ((λ c, ct_rules c.2) <$> plan_contributions mask) →
  ru ∈ plan_rules plan ↔
  ∃ i ob o ct, plan_contributions mask !! i = Some (ob, o, ct) ∧ ru ∈ ct_rules ct.
Proof.
  intros ->. rewrite elem_of_concat_fmap. split.
  - intros (i & [[ob o] ct] & H & Hr). eauto 10.
  - intros (i & ob & o & ct & H & Hr). by exists i, (ob, o, ct).
Qed.

Lemma elem_of_plan_routes mask r :
  plan_routes plan = concat ((λ c, ct_routes c.2) <$> plan_contributions mask) →
  r ∈ plan_routes plan ↔
  ∃ i ob o ct, plan_contributions mask !! i = Some (ob, o, ct) ∧ r ∈ ct_routes ct.
Proof.
  intros ->. rewrite elem_of_concat_fmap. split.
  - intros (i & [[ob o] ct] & H & Hr). eauto 10.
  - intros (i & ob & o & ct & H & Hr). by exists i, (ob, o, ct).
Qed.
End Plan.

(** ** One iteration of the outbound loop *)

Section Iteration.
Context (cfg : Config) (marks : gmap string Z)
        (check : Outbound → OutboundFamilyReachability)
        (selections : option (gmap string string)) (ipv6 : bool) (outbounds : list Outbound)
        (mask ts off : Z) (ob : Outbound) (snap : ReachSnapshot).

Definition iteration : Contribution :=
  plan_outbound cfg marks check selections ipv6 outbounds mask ts off ob snap.

(** Outbounds whose traffic must never leave their table. *)
Definition fail_closed : Prop :=
  ob_type ob = URLTEST ∨ ob_type ob = INTERFACE ∧ strict_enforcement_enabled cfg ob = true.

Lemma unreachable_planned t f :
  f ∈ managed_families ipv6 →
  unreachable_route t f kUnreachableRouteMetric
    ∈ add_routes ipv6 (make_unreachable_routes t kUnreachableRouteMetric).
Proof.
  intros Hf. apply elem_of_add_routes. split; [|by eapply managed_enabled].
  apply elem_of_unreachable. revert Hf. unfold managed_families.
  destruct ipv6; rewrite !elem_of_cons, elem_of_nil; naive_solver.
Qed.

Lemma existsb_family routes f :
  existsb (λ r, rt_family r =? f) routes = true ↔ ∃ r, r ∈ routes ∧ rt_family r = f.
Proof.
  rewrite existsb_exists. setoid_rewrite list_elem_of_In. setoid_rewrite Z.eqb_eq. done.
Qed.

(** An interface rule covers exactly the families its table has routes for. *)
Lemma interface_rules_spec t mark routes ru :
  ru ∈ interface_rules mask t mark routes →
  ru_fwmark ru = mark ∧ ru_fwmask ru = mask ∧ ru_table ru = t ∧ ru_priority ru = t
  ∧ ∀ f, f ∈ [AF_INET; AF_INET6] → rule_covers ru f ↔ ∃ r, r ∈ routes ∧ rt_family r = f.
Proof.
  unfold interface_rules. setoid_rewrite <- existsb_family.
  destruct (existsb _ routes) eqn:E4, (existsb (λ r, rt_family r =? AF_INET6) routes) eqn:E6;
    simpl; rewrite ?elem_of_nil, ?list_elem_of_singleton; try done; intros ->; simpl;
    split_and!; try done; intros f Hf; unfold rule_covers; simpl;
    rewrite !elem_of_cons, elem_of_nil in Hf; destruct Hf as [->|[->|[]]];
    rewrite ?E4, ?E6; naive_solver.
Qed.

Lemma interface_rules_exist t mark routes r :
  r ∈ routes → rt_family r = AF_INET → ∃ ru, ru ∈ interface_rules mask t mark routes.
Proof.
  intros Hr Hf. unfold interface_rules.
  rewrite (proj2 (existsb_family routes AF_INET)) by eauto. simpl.
  eexists. by apply list_elem_of_singleton.
Qed.

Lemma interface_rules_unique t mark routes r1 r2 :
  r1 ∈ interface_rules mask t mark routes → r2 ∈ interface_rules mask t mark routes → r1 = r2.
Proof.
  unfold interface_rules. destruct (_ && _); rewrite ?elem_of_nil, ?list_elem_of_singleton; [done|].
  by intros -> ->.
Qed.

Lemma managed_both f : f ∈ managed_families ipv6 → f ∈ [AF_INET; AF_INET6].
Proof.
  unfold managed_families. destruct ipv6; rewrite !elem_of_cons, ?elem_of_nil; naive_solver.
Qed.

Lemma managed_inet : AF_INET ∈ managed_families ipv6.
Proof. unfold managed_families. destruct ipv6; by left. Qed.

Lemma urltest_rule_covers ru f :
  ru_family ru = (if negb ipv6 then AF_INET else AF_UNSPEC) →
  f ∈ [AF_INET; AF_INET6] → rule_covers ru f ↔ f ∈ managed_families ipv6.
Proof.
  unfold rule_covers, managed_families. intros ->. rewrite !elem_of_cons, elem_of_nil.
  destruct ipv6; rewrite !elem_of_cons, elem_of_nil; naive_solver.
Qed.

Lemma iteration_marked mark ru :
  marks !! ob_tag ob = Some mark → ru ∈ ct_rules iteration →
  ru_fwmark ru = mark ∧ ru_fwmask ru = mask.
Proof.
  intros Hm. unfold iteration, plan_outbound. rewrite Hm.
  destruct (ob_type ob); try by rewrite elem_of_nil.
  - unfold plan_interface. destruct (reachability_for _ _ _).
    intros (? & ? & _)%interface_rules_spec. done.
  - intros ->%list_elem_of_singleton. done.
  - unfold plan_urltest. case_match. intros ->%list_elem_of_singleton. done.
Qed.

Lemma iteration_unmarked :
  marks !! ob_tag ob = None → ct_rules iteration = [] ∧ ct_routes iteration = [].
Proof.
  intros Hm. unfold iteration, plan_outbound. rewrite Hm. by destruct (ob_type ob).
Qed.

Lemma iteration_rule_unique r1 r2 :
  r1 ∈ ct_rules iteration → r2 ∈ ct_rules iteration → r1 = r2.
Proof.
  unfold iteration, plan_outbound.
  destruct (ob_type ob), (marks !! ob_tag ob); simpl; rewrite ?elem_of_nil; try done.
  - unfold plan_interface. destruct (reachability_for _ _ _). apply interface_rules_unique.
  - rewrite !list_elem_of_singleton. by intros -> ->.
  - unfold plan_urltest. case_match. simpl. rewrite !list_elem_of_singleton. by intros -> ->.
Qed.

(** A rule either points at a configured table or is backed by routes of its
    own table for every family it covers. *)
Lemma iteration_rule_backed ru :
  ru ∈ ct_rules iteration →
  (ob_type ob = TABLE ∧ ru_table ru = u32 (default 0 (ob_table ob))
   ∧ ru_family ru = (if negb ipv6 then AF_INET else AF_UNSPEC)
   ∨ ru_table ru = safe_table_id ts off
     ∧ ∀ f, f ∈ [AF_INET; AF_INET6] → rule_covers ru f →
            ∃ r, r ∈ ct_routes iteration ∧ rt_family r = f).
Proof.
  unfold iteration, plan_outbound.
  destruct (ob_type ob), (marks !! ob_tag ob) as [mark|]; try by rewrite elem_of_nil.
  - unfold plan_interface. destruct (reachability_for _ _ _).
    intros (? & ? & ? & ? & Hc)%interface_rules_spec. right. split; [done|].
    intros f Hf Hcov. by apply Hc.
  - intros ->%list_elem_of_singleton. by left.
  - unfold plan_urltest. case_match. cbn [ct_rules ct_routes].
    intros ->%list_elem_of_singleton. right. split; [done|]. intros f Hf Hcov.
    apply urltest_rule_covers in Hcov; [|done..].
    eexists. split; [apply elem_of_app; right; by apply unreachable_planned | done].
Qed.

Lemma iteration_kill_switch mark :
  marks !! ob_tag ob = Some mark → fail_closed →
  ∃ ru, ru ∈ ct_rules iteration ∧ ∀ f, f ∈ managed_families ipv6 →
    rule_covers ru f
    ∧ unreachable_route (ru_table ru) f kUnreachableRouteMetric ∈ ct_routes iteration.
Proof.
  intros Hm Hfc. unfold iteration, plan_outbound. rewrite Hm.
  destruct Hfc as [Ht|[Ht Hs]]; rewrite Ht.
  - unfold plan_urltest. case_match. cbn [ct_rules ct_routes].
    eexists. split; [by apply list_elem_of_singleton|]. intros f Hf. split.
    + by apply urltest_rule_covers; [| apply managed_both |].
    + apply elem_of_app. right. by apply unreachable_planned.
  - unfold plan_interface. destruct (reachability_for _ _ _). rewrite Hs.
    cbn [ct_rules ct_routes]. set (t := safe_table_id ts off).
    match goal with |- context [interface_rules _ _ _ ?l] => set (routes := l) end.
    assert (∀ f, f ∈ managed_families ipv6 →
                 unreachable_route t f kUnreachableRouteMetric ∈ routes) as Hr.
    { intros f Hf. apply elem_of_app. right. by apply unreachable_planned. }
    destruct (interface_rules_exist t mark routes _ (Hr _ managed_inet) eq_refl) as [ru Hru].
    exists ru. split; [done|]. intros f Hf.
    apply interface_rules_spec in Hru as (_ & _ & -> & _ & Hc). split; [|by apply Hr].
    apply Hc; [by apply managed_both|]. eexists. split; [by apply Hr|done].
Qed.
End Iteration.

(** ** How the kernel reads the plan

    Policy rules are tried in priority order; the route of a table and family
    with the lowest metric wins; a table without a route hands the packet to the
    next rule. All planned destinations are the default route. *)

(** [normalized_metric] of [NetlinkManager::replace_route_if_exact]: the kernel
    materialises metric zero of an IPv6 route as 1024. *)
Definition normalized_metric (r : RouteSpec) : Z :=
  if (rt_family r =? AF_INET6) && (rt_metric r =? 0) then 1024 else rt_metric r.

Fixpoint best_route (l : list RouteSpec) : option RouteSpec :=
  match l with
  | [] => None
  | r :: l =>
      match best_route l with
      | Some r' => if normalized_metric r' <? normalized_metric r then Some r' else Some r
      | None => Some r
      end
  end.

Definition table_lookup (routes : list RouteSpec) (table family : Z) : option RouteSpec :=
  best_route (List.filter (λ r, (rt_table r =? table) && (rt_family r =? family)) routes).

Definition rule_matches (ru : RuleSpec) (family mark : Z) : bool :=
  ((ru_family ru =? AF_UNSPEC) || (ru_family ru =? family))
  && (Z.land mark (ru_fwmask ru) =? Z.land (ru_fwmark ru) (ru_fwmask ru)).

Fixpoint walk_rules (routes : list RouteSpec) (rules : list RuleSpec) (family mark : Z)
    : option RouteSpec :=
  match rules with
  | [] => None
  | ru :: rest =>
      if rule_matches ru family mark then
        match table_lookup routes (ru_table ru) family with
        | Some r => Some r
        | None => walk_rules routes rest family mark
        end
      else walk_rules routes rest family mark
  end.

Definition plan_verdict (plan : PlannedRoutingState) (family mark : Z) : option RouteSpec :=
  walk_rules (plan_routes plan)
    (stable_sort (λ a b, ru_priority a <? ru_priority b) (plan_rules plan)) family mark.

Lemma best_route_spec l :
  match best_route l with
  | Some r => r ∈ l ∧ ∀ r', r' ∈ l → normalized_metric r ≤ normalized_metric r'
  | None => l = []
  end.
Proof.
  induction l as [|r l IH]; simpl; [done|]. destruct (best_route l) as [r0|].
  - destruct IH as [Hin Hmin]. destruct (Z.ltb_spec (normalized_metric r0) (normalized_metric r)).
    + split; [by right|]. intros r' [->|Hr]%elem_of_cons; [lia|auto].
    + split; [by left|]. intros r' [->|Hr]%elem_of_cons; [lia|]. specialize (Hmin _ Hr). lia.
  - subst l. split; [by left|]. intros r' ->%list_elem_of_singleton. lia.
Qed.

Lemma table_lookup_some routes t f r0 :
  r0 ∈ routes → rt_table r0 = t → rt_family r0 = f →
  ∃ r, table_lookup routes t f = Some r ∧ r ∈ routes ∧ rt_table r = t ∧ rt_family r = f
       ∧ ∀ r', r' ∈ routes → rt_table r' = t → rt_family r' = f →
               normalized_metric r ≤ normalized_metric r'.
Proof.
  intros H0 Ht Hf. unfold table_lookup. set (l := List.filter _ _).
  assert (∀ r, r ∈ l ↔ r ∈ routes ∧ rt_table r = t ∧ rt_family r = f) as Hl.
  { intros r. unfold l. rewrite !list_elem_of_In, List.filter_In, andb_true_iff, !Z.eqb_eq. done. }
  pose proof (best_route_spec l) as Hb. destruct (best_route l) as [r|].
  - destruct Hb as [Hin Hmin]. apply Hl in Hin as (? & ? & ?).
    exists r. split_and!; try done. intros r' ???. apply Hmin. by apply Hl.
  - assert (r0 ∈ l) as Hr by by apply Hl. rewrite Hb in Hr. by apply elem_of_nil in Hr.
Qed.

Lemma walk_rules_unique routes rules f m ru r :
  ru ∈ rules → rule_matches ru f m = true →
  (∀ ru', ru' ∈ rules → rule_matches ru' f m = true → ru' = ru) →
  table_lookup routes (ru_table ru) f = Some r →
  walk_rules routes rules f m = Some r.
Proof.
  intros Hin Hm Hu Hl. induction rules as [|ru' rules IH]; [by apply elem_of_nil in Hin|].
  simpl. destruct (rule_matches ru' f m) eqn:E.
  - rewrite (Hu ru'), Hl; [done|by left|done].
  - apply elem_of_cons in Hin as [->|Hin]; [congruence|]. apply IH; [done|].
    intros ru'' Hin'. apply Hu. by right.
Qed.

(** ** Ownership of rules and tables *)

Section Ownership.
Context (cfg : Config) (marks : gmap string Z) (reach : gmap string bool)
        (selections : option (gmap string string)) (ipv6 : bool)
        (family_reach : option ReachSnapshot) (plan : PlannedRoutingState) (mask : Z).
Context (Hplan : plan_routing_state cfg marks reach selections ipv6 family_reach = Ok plan).
Context (Hmask : fwmark_mask_value (default FwmarkConfig_default (cfg_fwmark cfg)) = Ok mask).

Abbreviation obs := (cfg_obs cfg).
Abbreviation tstart := (config_table_start cfg).
Abbreviation cts :=
  (plan_contributions cfg marks reach selections ipv6 family_reach mask).
Abbreviation good := (good_route (plan_check reach family_reach) selections ipv6 obs).

Lemma tstart_nonneg : 0 ≤ tstart.
Proof. unfold config_table_start. apply u32_range. Qed.

Lemma plan_as_contributions :
  plan_routes plan = concat ((λ c, ct_routes c.2) <$> cts)
  ∧ plan_rules plan = concat ((λ c, ct_rules c.2) <$> cts).
Proof.
  destruct (plan_parts _ _ _ _ _ _ _ Hplan) as (mask' & Hm & H1 & H2).
  rewrite Hmask in Hm. injection Hm as <-. done.
Qed.

Lemma plan_rule_from ru :
  ru ∈ plan_rules plan ↔ ∃ i ob o ct, cts !! i = Some (ob, o, ct) ∧ ru ∈ ct_rules ct.
Proof. by apply elem_of_plan_rules, plan_as_contributions. Qed.

Lemma plan_route_from r :
  r ∈ plan_routes plan ↔ ∃ i ob o ct, cts !! i = Some (ob, o, ct) ∧ r ∈ ct_routes ct.
Proof. by apply elem_of_plan_routes, plan_as_contributions. Qed.

Context (Hlen : Z.of_nat (length obs) < 2 ^ 32).

Lemma contribution_inv i ob o ct :
  cts !! i = Some (ob, o, ct) →
  obs !! i = Some ob ∧ 0 ≤ o ≤ Z.of_nat i
  ∧ is_iteration cfg marks reach selections ipv6 family_reach mask ob o ct.
Proof. by apply iteration_of. Qed.

Lemma contribution_good i ob o ct r :
  cts !! i = Some (ob, o, ct) → r ∈ ct_routes ct → good ob (safe_table_id tstart o) r.
Proof.
  intros (_ & _ & snap & Hs & ->)%contribution_inv Hr.
  destruct (plan_outbound_good cfg marks (plan_check reach family_reach) selections ipv6
    (check_by_tag reach family_reach) (plan_check_tag reach family_reach) obs mask
    tstart o ob snap Hs) as [Hg _].
  rewrite Forall_forall in Hg. by apply Hg.
Qed.

Lemma consumed_iff_marked i ob o ct :
  cts !! i = Some (ob, o, ct) →
  ct_consumed ct = false → ct_routes ct = [] ∧ ct_rules ct = [].
Proof.
  intros (_ & _ & snap & _ & ->)%contribution_inv. unfold plan_outbound.
  destruct (ob_type ob), (marks !! ob_tag ob); try done.
  - unfold plan_interface. by destruct (reachability_for _ _ _).
  - unfold plan_urltest. by case_match.
Qed.

(** Outbounds with different marks never share a policy rule. *)
Context (Hmarks : allocate_outbound_marks (default FwmarkConfig_default (cfg_fwmark cfg)) obs
                  = Ok marks).
Context (Hnd : NoDup (ob_tag <$> obs)).

Lemma rule_of_marked i ob o ct ru :
  cts !! i = Some (ob, o, ct) → ru ∈ ct_rules ct →
  ∃ mark, marks !! ob_tag ob = Some mark ∧ ru_fwmark ru = mark ∧ ru_fwmask ru = mask.
Proof.
  intros (_ & _ & snap & _ & ->)%contribution_inv Hr.
  destruct (marks !! ob_tag ob) as [mark|] eqn:Em.
  - exists mark. split; [done|]. by eapply iteration_marked.
  - edestruct iteration_unmarked as [E _]; [exact Em|].
    unfold iteration in E. rewrite E in Hr. by apply elem_of_nil in Hr.
Qed.

Lemma masked_marks_inj t1 t2 v1 v2 :
  marks !! t1 = Some v1 → marks !! t2 = Some v2 → Z.land v1 mask = Z.land v2 mask → t1 = t2.
Proof.
  intros H1 H2 E. destruct (allocate_inv _ _ _ Hmarks) as (m' & start & j & k & Em & Es & _).
  destruct (marks_separated _ _ _ _ _ Hmarks Hmask Es) as [_ Hsep].
  destruct (decide (t1 = t2)); [done|]. by destruct (Hsep t1 t2 v1 v2).
Qed.

Lemma same_mark_same_index i1 ob1 o1 ct1 ru1 i2 ob2 o2 ct2 ru2 :
  cts !! i1 = Some (ob1, o1, ct1) → cts !! i2 = Some (ob2, o2, ct2) →
  ru1 ∈ ct_rules ct1 → ru2 ∈ ct_rules ct2 →
  Z.land (ru_fwmark ru1) mask = Z.land (ru_fwmark ru2) mask → i1 = i2.
Proof.
  intros H1 H2 Hr1 Hr2 E.
  destruct (rule_of_marked _ _ _ _ _ H1 Hr1) as (m1 & Hm1 & <- & _).
  destruct (rule_of_marked _ _ _ _ _ H2 Hr2) as (m2 & Hm2 & <- & _).
  pose proof (masked_marks_inj _ _ _ _ Hm1 Hm2 E) as Ht.
  apply contribution_inv in H1 as (H1 & _), H2 as (H2 & _).
  apply (NoDup_lookup (ob_tag <$> obs) _ _ (ob_tag ob1)); [done|..];
    rewrite list_lookup_fmap; [by rewrite H1|rewrite H2, Ht; done].
Qed.

Lemma rules_unique ru1 ru2 :
  ru1 ∈ plan_rules plan → ru2 ∈ plan_rules plan →
  Z.land (ru_fwmark ru1) mask = Z.land (ru_fwmark ru2) mask → ru1 = ru2.
Proof.
  intros (i1 & ob1 & o1 & ct1 & H1 & Hr1)%plan_rule_from
         (i2 & ob2 & o2 & ct2 & H2 & Hr2)%plan_rule_from E.
  assert (i1 = i2) as <- by (by eapply same_mark_same_index).
  rewrite H1 in H2. injection H2 as <- <- <-.
  apply contribution_inv in H1 as (_ & _ & snap & _ & ->).
  by eapply iteration_rule_unique.
Qed.

(** Tables are owned: all routes of a generated table come from one outbound. *)
Context (Hrange : table_range_ok tstart (Z.of_nat (length obs))).

Lemma table_owner i ob o ct r :
  cts !! i = Some (ob, o, ct) → ct_consumed ct = true → r ∈ plan_routes plan →
  rt_table r = safe_table_id tstart o → r ∈ ct_routes ct.
Proof.
  intros Hi Hc (j & ob' & o' & ct' & Hj & Hr)%plan_route_from Ht.
  assert (rt_table r = safe_table_id tstart o') as Ht'.
  { pose proof (contribution_good _ _ _ _ _ Hj Hr) as [_ [[->| ->]|(leaf & _ & Hd & _)]];
      [done..|]. by destruct Hd. }
  assert (ct_consumed ct' = true) as Hc'.
  { destruct (ct_consumed ct') eqn:E; [done|].
    destruct (consumed_iff_marked _ _ _ _ Hj E) as [E' _]. rewrite E' in Hr.
    by apply elem_of_nil in Hr. }
  pose proof (contribution_inv _ _ _ _ Hi) as (Hli & Hoi & _).
  pose proof (contribution_inv _ _ _ _ Hj) as (Hlj & Hoj & _).
  apply lookup_lt_Some in Hli, Hlj.
  assert (o = o') as <-.
  { unfold table_range_ok in Hrange. apply (safe_table_id_inj tstart); [..|congruence];
      unfold table_range_ok; lia. }
  pose proof (contributions_offsets cfg marks (plan_check reach family_reach) selections ipv6
    (check_by_tag reach family_reach) (plan_check_tag reach family_reach) obs mask
    tstart obs 0 ∅ ltac:(lia) ltac:(lia) (snapshot_ok_empty reach family_reach)) as Ho.
  destruct (lt_eq_lt_dec i j) as [[Hlt| ->]|Hlt].
  - specialize (Ho _ _ _ _ _ _ _ _ Hlt Hi Hj Hc). lia.
  - congruence.
  - specialize (Ho _ _ _ _ _ _ _ _ Hlt Hj Hi Hc'). lia.
Qed.
End Ownership.

(** ** Preference among the routes of a group table *)

Section Preference.
Context (check : Outbound → OutboundFamilyReachability) (ipv6 : bool).

Lemma closure_metric t ob r :
  r ∈ add_routes ipv6 (make_family_closure_routes t ob kUnreachableRouteMetric) →
  rt_metric r = kUnreachableRouteMetric.
Proof. intros [Hr _]%elem_of_add_routes. by apply elem_of_closure_routes in Hr as [->| ->]. Qed.

(** Fallback metrics count up from the first one; they never wrap below it. *)
Lemma plan_fallbacks_metric t sel children metric snap r :
  0 < metric → metric + Z.of_nat (length children) < 2 ^ 32 →
  r ∈ (plan_fallbacks check ipv6 t sel children metric snap).1 → 0 < rt_metric r.
Proof.
  revert metric snap. induction children as [|child rest IH]; intros metric snap Hm Hb;
    cbn [plan_fallbacks]; [by rewrite elem_of_nil|]. cbn [length] in Hb.
  case_bool_decide; [apply IH; lia|]. destruct (reachability_for check snap child) as [rch snap'].
  destruct (negb _); [apply IH; lia|].
  destruct (add_usable ipv6 rch _) as [usable planned] eqn:Eu.
  assert (∀ r, r ∈ usable → rt_metric r = metric) as Hus.
  { intros r' Hr'. assert (r' ∈ (usable, planned).1) as Hx by done.
    rewrite <- Eu in Hx. apply elem_of_add_usable in Hx as [Hx _].
    by apply default_of_metric in Hx as [_ ?]. }
  destruct (negb planned).
  - destruct (plan_fallbacks _ _ _ _ _ _ _) as [more snap''] eqn:Ef. cbn [fst].
    intros [Hr|Hr]%elem_of_app; [rewrite (Hus _ Hr); lia|].
    apply (IH metric snap'); [lia|lia|]. by rewrite Ef.
  - destruct (plan_fallbacks _ _ _ _ _ _ _) as [more snap''] eqn:Ef. cbn [fst].
    intros [Hr|[Hr|Hr]%elem_of_app]%elem_of_app.
    + rewrite (Hus _ Hr). lia.
    + rewrite (closure_metric _ _ _ Hr). done.
    + rewrite u32_id in Ef by (unfold is_u32; lia).
      apply (IH (metric + 1) snap'); [lia|lia|]. by rewrite Ef.
Qed.

(** The leaf has an IPv4 default route of its own. *)
Definition carries_ipv4 (leaf : Outbound) : bool :=
  has_value (ob_gateway leaf) || negb (has_value (ob_gateway6 leaf)).

Lemma default_route_planned t leaf :
  carries_ipv4 leaf = true →
  default_route t AF_INET leaf (ob_gateway leaf) ∈ make_default_routes t leaf.
Proof.
  unfold carries_ipv4, make_default_routes.
  destruct (ob_gateway leaf), (ob_gateway6 leaf); simpl; try done; intros _; left.
Qed.

Lemma default_route_ipv4 t leaf r :
  r ∈ make_default_routes t leaf → rt_family r = AF_INET →
  r = default_route t AF_INET leaf (ob_gateway leaf).
Proof.
  unfold make_default_routes. destruct (ob_gateway leaf), (ob_gateway6 leaf); simpl;
    rewrite ?elem_of_cons, ?elem_of_nil; naive_solver.
Qed.

Lemma plan_selected_first t leaf snap :
  rch_ipv4 (reachability_for check snap leaf).1 = true → carries_ipv4 leaf = true →
  let primary := (plan_selected check ipv6 t (Some leaf) snap).1.1 in
  default_route t AF_INET leaf (ob_gateway leaf) ∈ primary
  ∧ ∀ r, r ∈ primary → rt_family r = AF_INET →
         r = default_route t AF_INET leaf (ob_gateway leaf)
         ∨ rt_metric r = kUnreachableRouteMetric.
Proof.
  intros Hr Hc primary. unfold primary. cbn [plan_selected].
  destruct (reachability_for check snap leaf) as [rch snap'].
  cbn [fst] in Hr. unfold reach_any. rewrite Hr. cbn [orb].
  destruct (add_usable ipv6 rch _) as [usable planned] eqn:Eu. cbn [fst].
  assert (usable = (add_usable ipv6 rch (make_default_routes t leaf)).1) as -> by by rewrite Eu.
  split.
  - apply elem_of_app; left. apply elem_of_add_usable.
    split; [by apply default_route_planned|]. split; [done|]. by right.
  - intros r [Hin|Hin]%elem_of_app Hf; [left|right; by eapply closure_metric].
    apply elem_of_add_usable in Hin as [Hin _]. by apply default_route_ipv4.
Qed.
End Preference.

Section Selected.
Context (cfg : Config) (marks : gmap string Z)
        (check : Outbound → OutboundFamilyReachability)
        (selections : option (gmap string string)) (ipv6 : bool) (outbounds : list Outbound)
        (mask ts off : Z) (ob : Outbound) (snap : ReachSnapshot).

Definition leaves : list Outbound :=
  (collect_urltest_leaf_interfaces (S kMaxUrltestDepth) outbounds ob ([], ∅)).1.

Lemma iteration_selected_first leaf mark t :
  ob_type ob = URLTEST → marks !! ob_tag ob = Some mark → t = safe_table_id ts off →
  empty_str (resolve_urltest_selection selections (ob_tag ob)) = false →
  resolve_selected_interface (S kMaxUrltestDepth) outbounds selections ob = Some leaf →
  rch_ipv4 (reachability_for check snap leaf).1 = true → carries_ipv4 leaf = true →
  1 + Z.of_nat (length leaves) < 2 ^ 32 →
  let routes := ct_routes (plan_outbound cfg marks check selections ipv6 outbounds mask ts off ob snap) in
  default_route t AF_INET leaf (ob_gateway leaf) ∈ routes
  ∧ ∀ r, r ∈ routes → rt_family r = AF_INET →
         r = default_route t AF_INET leaf (ob_gateway leaf) ∨ 0 < rt_metric r.
Proof.
  intros Ht Hm -> Hne Hsel Hr Hc Hlen routes. unfold routes, plan_outbound.
  rewrite Ht, Hm. unfold plan_urltest. rewrite Hne, Hsel. cbn [negb].
  destruct (plan_selected_first check ipv6 (safe_table_id ts off) leaf snap Hr Hc) as [H1 H2].
  destruct (plan_selected _ _ _ _ _) as [[primary planned] snap'].
  cbn [fst snd] in H1, H2. fold leaves.
  destruct (plan_fallbacks _ _ _ _ _ _ _) as [fb snap''] eqn:Ef. cbn [ct_routes].
  split; [rewrite !elem_of_app; auto|].
  intros r [[Hin|Hin]%elem_of_app|Hin]%elem_of_app Hf.
  - destruct (H2 r Hin Hf) as [->| ->]; [by left|by right].
  - right. eapply (plan_fallbacks_metric check ipv6 _ _ leaves 1); [lia|exact Hlen|].
    by rewrite Ef.
  - right. apply elem_of_add_routes in Hin as [Hin _].
    by apply elem_of_unreachable in Hin as [->| ->].
Qed.
End Selected.
