(* ===== verification/RoutingPlanClaims.v ===== *)
(** * Guarantees of the routing plan

    The plan of src/src/config/routing_state.cpp read by the kernel: fail-closed
    outbounds, one rule per mark, rules backed by routes, disjoint unreserved
    tables, IPv6 gating and the preference of the selected leaf. *)

From Stdlib Require Import ZArith Lia Ascii String.
From stdpp Require Import base gmap strings list sorting.
From S2P Require Import Prelude ConfigTypes FwMark RoutingPlan RoutingPlanProps.
Open Scope Z_scope.

(** The inputs of one planning round: the marks come from the allocator, tags are
    unique, and the tables fit below the system range. *)
Record planning_round (cfg : Config) (marks : gmap string Z) (reach : gmap string bool)
    (selections : option (gmap string string)) (ipv6 : bool)
    (family_reach : option ReachSnapshot) (plan : PlannedRoutingState) (mask : Z) : Prop := {
  pr_mask : fwmark_mask_value (default FwmarkConfig_default (cfg_fwmark cfg)) = Ok mask;
  pr_marks : allocate_outbound_marks (default FwmarkConfig_default (cfg_fwmark cfg))
               (cfg_obs cfg) = Ok marks;
  pr_tags : NoDup (ob_tag <$> cfg_obs cfg);
  pr_plan : plan_routing_state cfg marks reach selections ipv6 family_reach = Ok plan;
  pr_tables : table_range_ok (config_table_start cfg) (Z.of_nat (length (cfg_obs cfg)));
}.

Section Round.
Context (cfg : Config) (marks : gmap string Z) (reach : gmap string bool)
        (selections : option (gmap string string)) (ipv6 : bool)
        (family_reach : option ReachSnapshot) (plan : PlannedRoutingState) (mask : Z).
Context (Hround : planning_round cfg marks reach selections ipv6 family_reach plan mask).

Lemma round_length : Z.of_nat (length (cfg_obs cfg)) < 2 ^ 32.
Proof.
  pose proof (pr_tables _ _ _ _ _ _ _ _ Hround) as (? & ? & ?).
  lia.
Qed.

Lemma round_unique ru1 ru2 :
  ru1 ∈ plan_rules plan → ru2 ∈ plan_rules plan →
  Z.land (ru_fwmark ru1) mask = Z.land (ru_fwmark ru2) mask → ru1 = ru2.
Proof.
  destruct Hround as [Hmask Hmarks Htags Hplan _].
  eapply rules_unique; eauto using round_length.
Qed.

Lemma round_rule_inv ru :
  ru ∈ plan_rules plan →
  ∃ ob mark, ob ∈ cfg_obs cfg ∧ marks !! ob_tag ob = Some mark
    ∧ ru_fwmark ru = mark ∧ ru_fwmask ru = mask.
Proof.
  destruct Hround as [Hmask Hmarks Htags Hplan _].
  rewrite (plan_rule_from _ _ _ _ _ _ _ _ Hplan Hmask). intros (i & ob & o & ct & Hi & Hr).
  edestruct rule_of_marked as (mark & ? & ? & ?); [exact round_length|exact Hi|exact Hr|].
  exists ob, mark. split; [|done]. apply iteration_of in Hi as (Hi & _); [|exact round_length].
  by eapply list_elem_of_lookup_2.
Qed.

Lemma round_route_enabled r : r ∈ plan_routes plan → family_enabled ipv6 r.
Proof.
  pose proof round_length as Hlen. destruct Hround as [Hmask Hmarks Htags Hplan _].
  intros (i & ob & o & ct & Hi & Hr)%(plan_route_from _ _ _ _ _ _ _ _ Hplan Hmask).
  by destruct (contribution_good _ _ _ _ _ _ _ Hlen _ _ _ _ _ Hi Hr).
Qed.

(** Every rule comes from one iteration of the outbound loop. *)
Lemma round_rule_iteration ru :
  ru ∈ plan_rules plan → ∃ i ob o ct snap,
    plan_contributions cfg marks reach selections ipv6 family_reach mask !! i = Some (ob, o, ct)
    ∧ ob ∈ cfg_obs cfg ∧ 0 ≤ o < Z.of_nat (length (cfg_obs cfg))
    ∧ ct = plan_outbound cfg marks (plan_check reach family_reach) selections ipv6 (cfg_obs cfg)
             mask (config_table_start cfg) o ob snap ∧ ru ∈ ct_rules ct.
Proof.
  pose proof round_length as Hlen. destruct Hround as [Hmask Hmarks Htags Hplan _].
  intros (i & ob & o & ct & Hi & Hr)%(plan_rule_from _ _ _ _ _ _ _ _ Hplan Hmask).
  pose proof (iteration_of _ _ _ _ _ _ Hlen _ _ _ _ _ Hi) as (Hob & Ho & snap & _ & Hct).
  exists i, ob, o, ct, snap. pose proof (lookup_lt_Some _ _ _ Hob).
  split_and!; try done; try lia. by eapply list_elem_of_lookup_2.
Qed.

(** The verdict for a mark is the best route of the table its rule names. *)
Lemma round_verdict ru f m :
  ru ∈ plan_rules plan → rule_covers ru f → f ∈ [AF_INET; AF_INET6] →
  Z.land m mask = Z.land (ru_fwmark ru) mask →
  ∀ r, table_lookup (plan_routes plan) (ru_table ru) f = Some r → plan_verdict plan f m = Some r.
Proof.
  intros Hru Hcov Hf Hm r Hr. unfold plan_verdict.
  destruct (round_rule_inv ru Hru) as (_ & _ & _ & _ & _ & Hfm).
  assert (∀ x, x ∈ stable_sort (λ a b, ru_priority a <? ru_priority b) (plan_rules plan)
               ↔ x ∈ plan_rules plan) as Hs.
  { intros x. by rewrite stable_sort_perm. }
  eapply walk_rules_unique; [by apply Hs| |intros ru' Hru'%Hs Hmt |exact Hr].
  - unfold rule_matches. rewrite Hfm, Hm, Z.eqb_refl, andb_true_r.
    apply orb_true_iff. rewrite !Z.eqb_eq. done.
  - unfold rule_matches in Hmt. apply andb_true_iff in Hmt as [_ Hmt%Z.eqb_eq].
    destruct (round_rule_inv ru' Hru') as (_ & _ & _ & _ & _ & Hfm'). rewrite Hfm' in Hmt.
    apply round_unique; [done..|]. congruence.
Qed.

Lemma round_fail_closed ob mark :
  ob ∈ cfg_obs cfg → fail_closed cfg ob → marks !! ob_tag ob = Some mark →
  ∃ ru i o ct,
    plan_contributions cfg marks reach selections ipv6 family_reach mask !! i = Some (ob, o, ct)
    ∧ ct_consumed ct = true ∧ ru ∈ plan_rules plan ∧ ru_fwmark ru = mark
    ∧ ru_table ru = safe_table_id (config_table_start cfg) o
    ∧ ∀ f, f ∈ managed_families ipv6 →
        rule_covers ru f
        ∧ unreachable_route (ru_table ru) f kUnreachableRouteMetric ∈ plan_routes plan.
Proof.
  intros Hob Hfc Hm. destruct Hround as [Hmask Hmarks Htags Hplan _].
  pose proof round_length as Hlen.
  destruct (contribution_of cfg marks reach selections ipv6 family_reach mask ob Hob)
    as (i & o & ct & Hi).
  pose proof (iteration_of _ _ _ _ _ _ Hlen _ _ _ _ _ Hi) as (_ & _ & snap & _ & Hct).
  destruct (iteration_kill_switch cfg marks (plan_check reach family_reach) selections ipv6
    (cfg_obs cfg) mask (config_table_start cfg) o ob snap mark Hm Hfc) as (ru & Hru & Hall).
  unfold iteration in Hru, Hall. rewrite <- Hct in Hru, Hall.
  exists ru, i, o, ct. split; [done|]. split.
  { destruct (ct_consumed ct) eqn:E; [done|].
    edestruct consumed_iff_marked as [_ E']; [exact Hlen|exact Hi|exact E|].
    rewrite E' in Hru. by apply elem_of_nil in Hru. }
  split; [apply (plan_rule_from _ _ _ _ _ _ _ _ Hplan Hmask); eauto 10|].
  split; [rewrite Hct in Hru; by eapply iteration_marked in Hru as [? _]|].
  split.
  - rewrite Hct in Hru. apply iteration_rule_backed in Hru as [(Ht & _)|[Ht _]]; [|done].
    destruct Hfc as [Hfc|[Hfc _]]; congruence.
  - intros f Hf. destruct (Hall f Hf) as [Hc Hr]. split; [done|].
    apply (plan_route_from _ _ _ _ _ _ _ _ Hplan Hmask). eauto 10.
Qed.
End Round.

(** ** A sample round *)

Definition sample_cfg : Config := sample_config [vpn_a; vpn_b; auto_group].

Definition sample_marks : gmap string Z :=
  match allocate_outbound_marks FwmarkConfig_default (cfg_obs sample_cfg) with
  | Ok m => m | Throw _ => ∅ end.

Definition sample_selection : option (gmap string string) := Some {["auto"%string := "vpn_b"%string]}.

Definition sample_plan : PlannedRoutingState :=
  match plan_routing_state sample_cfg sample_marks ∅ sample_selection true None with
  | Ok p => p | Throw _ => {| plan_routes := []; plan_rules := [] |} end.

Lemma sample_round :
  planning_round sample_cfg sample_marks ∅ sample_selection true None sample_plan 16711680.
Proof.
  constructor; try (vm_compute; reflexivity).
  - apply (bool_decide_unpack _). vm_compute. exact I.
  - vm_compute. split_and!; done.
Qed.

(** ** Claims *)

(** C4. Fail-closed isolation: traffic carrying the mark of a urltest group or of
    a strictly enforced interface always gets a verdict from the plan, in every
    managed family, and the verdict is either the unreachable route or a route
    through an interface the outbound owns (itself, a leaf of the group) that is
    reachable for that family. It never falls through to the main table. *)
Theorem fail_closed_isolation cfg marks reach selections ipv6 family_reach plan mask ob mark f m :
  planning_round cfg marks reach selections ipv6 family_reach plan mask →
  ob ∈ cfg_obs cfg → fail_closed cfg ob → marks !! ob_tag ob = Some mark →
  f ∈ managed_families ipv6 → Z.land m mask = Z.land mark mask →
  ∃ r, plan_verdict plan f m = Some r
    ∧ (rt_unreachable r = true ∧ rt_interface r = None
       ∨ ∃ leaf, own_leaf selections (cfg_obs cfg) ob leaf
           ∧ rt_interface r = Some (default ""%string (ob_interface leaf))
           ∧ for_family (snapshot_check reach family_reach leaf) f = true).
Proof.
  intros Hround Hob Hfc Hm Hf Hmm.
  destruct (round_fail_closed _ _ _ _ _ _ _ _ Hround ob mark Hob Hfc Hm)
    as (ru & i & o & ct & Hi & Hc & Hru & Hmark & Ht & Hall).
  destruct (Hall f Hf) as [Hcov Hun].
  destruct (table_lookup_some _ _ f _ Hun eq_refl eq_refl) as (r & Hr & Hin & Htb & Hfam & _).
  exists r. split.
  { apply (round_verdict _ _ _ _ _ _ _ _ Hround ru f m Hru Hcov); [|congruence|done].
    by apply managed_both in Hf. }
  pose proof (round_length _ _ _ _ _ _ _ _ Hround) as Hlen.
  destruct Hround as [Hmask Hmarks Htags Hplan Hrange].
  assert (r ∈ ct_routes ct) as Hrct.
  { eapply table_owner; try eassumption. by rewrite Htb, Ht. }
  pose proof (contribution_good _ _ _ _ _ _ _ Hlen _ _ _ _ _ Hi Hrct) as [_ [Hcl|Hlive]].
  - left. by destruct Hcl as [->| ->].
  - right. destruct Hlive as (leaf & Hown & Hd & Hrch). exists leaf.
    rewrite Hfam in Hrch. split; [done|]. split; [|done]. by destruct Hd as (_ & _ & _ & _ & ? & _).
Qed.

Lemma fail_closed_isolation_witness :
  ∃ r, plan_verdict sample_plan AF_INET6 65536 = Some r
    ∧ (rt_unreachable r = true ∧ rt_interface r = None
       ∨ ∃ leaf, own_leaf sample_selection (cfg_obs sample_cfg) auto_group leaf
           ∧ rt_interface r = Some (default ""%string (ob_interface leaf))
           ∧ for_family (snapshot_check ∅ None leaf) AF_INET6 = true).
Proof.
  apply (fail_closed_isolation sample_cfg sample_marks ∅ sample_selection true None sample_plan
    16711680 auto_group 65536 AF_INET6 65536 sample_round).
  - right; right; left.
  - by left.
  - vm_compute. reflexivity.
  - right; left.
  - reflexivity.
Defined.

(** Rule ownership: two planned policy rules that match the same masked mark
    are the same rule, so no packet mark is claimed by two outbounds. *)
Theorem plan_rules_unique cfg marks reach selections ipv6 family_reach plan mask ru1 ru2 :
  planning_round cfg marks reach selections ipv6 family_reach plan mask →
  ru1 ∈ plan_rules plan → ru2 ∈ plan_rules plan →
  Z.land (ru_fwmark ru1) mask = Z.land (ru_fwmark ru2) mask → ru1 = ru2.
Proof. intros Hround. exact (round_unique _ _ _ _ _ _ _ _ Hround ru1 ru2). Qed.

Lemma plan_rules_unique_witness :
  ∃ ru, ru ∈ plan_rules sample_plan
    ∧ ∀ ru', ru' ∈ plan_rules sample_plan →
        Z.land (ru_fwmark ru) 16711680 = Z.land (ru_fwmark ru') 16711680 → ru = ru'.
Proof.
  exists {| ru_fwmark := 65536; ru_fwmask := 16711680; ru_table := 152; ru_priority := 152;
            ru_family := AF_UNSPEC |}.
  assert ({| ru_fwmark := 65536; ru_fwmask := 16711680; ru_table := 152; ru_priority := 152;
             ru_family := AF_UNSPEC |} ∈ plan_rules sample_plan) as Hin
    by (vm_compute; right; right; left).
  split; [exact Hin|]. intros ru' Hru'.
  exact (plan_rules_unique _ _ _ _ _ _ _ _ _ ru' sample_round Hin Hru').
Defined.

(** No orphan rule: a planned rule either points at a table the
    configuration names, or its table is generated, not reserved, and holds a
    planned route for every family the rule covers. With IPv6 disabled no rule
    covers IPv6 and no IPv6 route is planned. *)
Theorem plan_rules_backed cfg marks reach selections ipv6 family_reach plan mask :
  planning_round cfg marks reach selections ipv6 family_reach plan mask →
  (∀ ru, ru ∈ plan_rules plan →
     (∃ ob, ob ∈ cfg_obs cfg ∧ ob_type ob = TABLE ∧ ru_table ru = u32 (default 0 (ob_table ob)))
     ∨ is_reserved_table (ru_table ru) = false
       ∧ ∀ f, f ∈ [AF_INET; AF_INET6] → rule_covers ru f →
              ∃ r, r ∈ plan_routes plan ∧ rt_table r = ru_table ru ∧ rt_family r = f)
  ∧ (ipv6 = false →
       (∀ ru, ru ∈ plan_rules plan → ¬ rule_covers ru AF_INET6)
       ∧ ∀ r, r ∈ plan_routes plan → rt_family r ≠ AF_INET6).
Proof.
  intros Hround. pose proof (round_length _ _ _ _ _ _ _ _ Hround) as Hlen.
  pose proof (round_rule_iteration _ _ _ _ _ _ _ _ Hround) as Hfrom.
  pose proof (round_route_enabled _ _ _ _ _ _ _ _ Hround) as Hen.
  destruct Hround as [Hmask Hmarks Htags Hplan Hrange].
  split.
  - intros ru (i & ob & o & ct & snap & Hi & Hob & Ho & Hct & Hr)%Hfrom.
    rewrite Hct in Hr. apply iteration_rule_backed in Hr as [(Ht & Htb & _)|[Ht Hback]].
    + left. eauto.
    + right. split.
      { rewrite Ht. apply safe_table_id_spec. unfold table_range_ok in *. lia. }
      intros f Hf Hc. destruct (Hback f Hf Hc) as (r & Hr & Hrf).
      unfold iteration in Hr. rewrite <- Hct in Hr. exists r. split_and!; try done.
      { apply (plan_route_from _ _ _ _ _ _ _ _ Hplan Hmask). eauto 10. }
      pose proof (contribution_good _ _ _ _ _ _ _ Hlen _ _ _ _ _ Hi Hr)
        as [_ [[->| ->]|(leaf & _ & (-> & _) & _)]]; by rewrite Ht.
  - intros Hv6. assert (∀ r, r ∈ plan_routes plan → rt_family r ≠ AF_INET6) as Hno.
    { intros r Hr. destruct (Hen r Hr); congruence. }
    split; [|done]. intros ru Hru Hc. pose proof Hru as
      (i & ob & o & ct & snap & Hi & Hob & Ho & Hct & Hr)%Hfrom.
    rewrite Hct in Hr. apply iteration_rule_backed in Hr as [(_ & _ & Hfam)|[_ Hback]].
    + unfold rule_covers in Hc. rewrite Hfam, Hv6 in Hc. by destruct Hc.
    + destruct (Hback AF_INET6 ltac:(right; left) Hc) as (r & Hr & Hrf).
      unfold iteration in Hr. rewrite <- Hct in Hr. apply (Hno r); [|done].
      apply (plan_route_from _ _ _ _ _ _ _ _ Hplan Hmask). eauto 10.
Qed.

Definition auto_rule : RuleSpec :=
  {| ru_fwmark := 65536; ru_fwmask := 16711680; ru_table := 152; ru_priority := 152;
     ru_family := AF_UNSPEC |}.

Lemma plan_rules_backed_witness :
  (∃ ob, ob ∈ cfg_obs sample_cfg ∧ ob_type ob = TABLE ∧ 152 = u32 (default 0 (ob_table ob)))
  ∨ ∃ r, r ∈ plan_routes sample_plan ∧ rt_table r = 152 ∧ rt_family r = AF_INET6.
Proof.
  destruct (proj1 (plan_rules_backed _ _ _ _ _ _ _ _ sample_round) auto_rule) as [H|[_ H]];
    [vm_compute; right; right; left | by left |].
  right. apply H; [right; left | by left].
Defined.

Lemma resolve_selected_nonempty fuel obs sel ob leaf :
  ob_type ob = URLTEST → resolve_selected_interface fuel obs sel ob = Some leaf →
  empty_str (resolve_urltest_selection sel (ob_tag ob)) = false.
Proof.
  intros Ht. destruct fuel; cbn [resolve_selected_interface]; [done|]. rewrite Ht.
  by destruct (empty_str _).
Qed.

(** Selection is honoured: when the selection of a urltest group resolves to
    a leaf that is reachable over IPv4 and has an IPv4 default route, IPv4
    traffic carrying the group's mark leaves through exactly that leaf's default
    route, whatever the fallbacks of the group are. *)
Theorem selected_leaf_preferred cfg marks reach selections ipv6 family_reach plan mask ob mark leaf m :
  planning_round cfg marks reach selections ipv6 family_reach plan mask →
  ob ∈ cfg_obs cfg → ob_type ob = URLTEST → marks !! ob_tag ob = Some mark →
  resolve_selected_interface (S kMaxUrltestDepth) (cfg_obs cfg) selections ob = Some leaf →
  rch_ipv4 (snapshot_check reach family_reach leaf) = true → carries_ipv4 leaf = true →
  1 + Z.of_nat (length (leaves (cfg_obs cfg) ob)) < 2 ^ 32 →
  Z.land m mask = Z.land mark mask →
  ∃ t, plan_verdict plan AF_INET m = Some (default_route t AF_INET leaf (ob_gateway leaf)).
Proof.
  intros Hround Hob Hty Hm Hsel Hrch Hcar Hlv Hmm.
  destruct (round_fail_closed _ _ _ _ _ _ _ _ Hround ob mark Hob (or_introl Hty) Hm)
    as (ru & i & o & ct & Hi & Hc & Hru & Hmark & Ht & Hall).
  destruct (Hall AF_INET (managed_inet ipv6)) as [Hcov _].
  pose proof (round_length _ _ _ _ _ _ _ _ Hround) as Hlen.
  pose proof (iteration_of _ _ _ _ _ _ Hlen _ _ _ _ _ Hi) as (_ & _ & snap & Hs & Hct).
  destruct (iteration_selected_first cfg marks (plan_check reach family_reach) selections ipv6
    (cfg_obs cfg) mask (config_table_start cfg) o ob snap leaf mark _ Hty Hm eq_refl
    (resolve_selected_nonempty _ _ _ _ _ Hty Hsel) Hsel) as [Hin Hother]; [|done|done|].
  { by rewrite (proj1 (reachability_for_ok _ _ (plan_check_tag reach family_reach) snap leaf Hs)). }
  rewrite <- Hct in Hin, Hother. set (d := default_route _ _ leaf _) in *.
  pose proof Hround as [Hmask Hmarks Htags Hplan Hrange].
  assert (d ∈ plan_routes plan) as Hd.
  { apply (plan_route_from _ _ _ _ _ _ _ _ Hplan Hmask). eauto 10. }
  destruct (table_lookup_some _ (ru_table ru) AF_INET d Hd (eq_sym Ht) eq_refl)
    as (r & Hr & Hrin & Htb & Hfam & Hmin).
  exists (safe_table_id (config_table_start cfg) o). fold d.
  assert (r = d) as <-.
  { assert (r ∈ ct_routes ct) as Hrct by (eapply table_owner; try eassumption; congruence).
    destruct (Hother r Hrct Hfam) as [|Hpos]; [done|].
    specialize (Hmin d Hd (eq_sym Ht) eq_refl). unfold normalized_metric in Hmin.
    rewrite Hfam in Hmin. simpl in Hmin. lia. }
  apply (round_verdict _ _ _ _ _ _ _ _ Hround ru AF_INET m Hru Hcov); [left|congruence|done].
Qed.

Lemma selected_leaf_preferred_witness :
  ∃ t, plan_verdict sample_plan AF_INET 65536 = Some (default_route t AF_INET vpn_b None).
Proof.
  apply (selected_leaf_preferred sample_cfg sample_marks ∅ sample_selection true None sample_plan
    16711680 auto_group 65536 vpn_b 65536 sample_round);
    [right; right; left | vm_compute; reflexivity..].
Defined.

(** The same preference fails for IPv6: the selected leaf's IPv6 route is
    planned with metric zero, which the kernel materialises as 1024, so the first
    fallback (metric one) of the group takes the traffic although the selected
    leaf is reachable. *)
Theorem ipv6_fallback_overrides_selection :
  ∃ r, plan_verdict sample_plan AF_INET6 65536 = Some r
    ∧ resolve_selected_interface (S kMaxUrltestDepth) (cfg_obs sample_cfg) sample_selection auto_group
      = Some vpn_b
    ∧ rch_ipv6 (snapshot_check ∅ None vpn_b) = true
    ∧ rt_interface r = ob_interface vpn_a ∧ rt_interface r ≠ ob_interface vpn_b.
Proof. eexists. split; [vm_compute; reflexivity|]. split_and!; vm_compute; done. Qed.
