(* ===== verification/AffectedUrltests.v ===== *)
(** * Urltest groups affected by a change

    [find_affected_urltests] of src/src/config/routing_state.cpp walks parent
    groups until nothing new is found; it computes the upward closure of the
    changed tags in the group graph. *)

From Stdlib Require Import ZArith Lia Ascii String.
From stdpp Require Import base gmap strings list sorting.
From S2P Require Import Prelude ConfigTypes FwMark RoutingPlan RoutingPlanProps.

Section Affected.
Context (outbounds : list Outbound) (changed : list string).

(** [parent ob child]: the group [ob] lists [child]. *)
Definition parent (ob : Outbound) (child : string) : Prop :=
  ob ∈ outbounds ∧ ob_type ob = URLTEST
  ∧ ∃ groups g, ob_outbound_groups ob = Some groups ∧ g ∈ groups ∧ child ∈ og_outbounds g.

(** The abstract specification: reachable upwards from a changed tag. *)
Inductive affected : string → Prop :=
| affected_changed t : t ∈ changed → affected t
| affected_parent ob child : parent ob child → affected child → affected (ob_tag ob).

Definition affected_group (t : string) : Prop :=
  ∃ ob child, ob_tag ob = t ∧ parent ob child ∧ affected child.

Lemma contains_affected_child_spec tags groups :
  contains_affected_child tags groups = true ↔
  ∃ g child, g ∈ groups ∧ child ∈ og_outbounds g ∧ child ∈ tags.
Proof.
  unfold contains_affected_child. rewrite existsb_exists. setoid_rewrite existsb_exists.
  setoid_rewrite bool_decide_eq_true. setoid_rewrite list_elem_of_In. naive_solver.
Qed.

(** Sound states: only affected tags, and the tags are the changed ones plus the
    groups found. *)
Definition sound (tags uts : gset string) : Prop :=
  (∀ t, t ∈ uts → affected_group t) ∧ ∀ t, t ∈ tags ↔ t ∈ changed ∨ t ∈ uts.

Lemma sound_affected tags uts t : sound tags uts → t ∈ tags → affected t.
Proof.
  intros [H1 H2] [Ht|Ht]%H2; [by constructor|].
  destruct (H1 t Ht) as (ob & child & <- & Hp & Ha). by econstructor.
Qed.

Definition closed_at (tags uts : gset string) (ob : Outbound) : Prop :=
  ∀ child, parent ob child → child ∈ tags → ob_tag ob ∈ uts.

Lemma affected_step_spec tags uts d ob tags' uts' d' :
  ob ∈ outbounds → sound tags uts → affected_step (tags, uts, d) ob = (tags', uts', d') →
  sound tags' uts'
  ∧ (tags' = tags ∧ uts' = uts ∧ d' = d ∧ closed_at tags uts ob
     ∨ d' = true ∧ (ob_tag ob ∉ uts) ∧ uts' = {[ob_tag ob]} ∪ uts).
Proof.
  intros Hob Hs. unfold affected_step, closed_at, parent.
  destruct (ob_type ob) eqn:Et; try (intros [= <- <- <-]; naive_solver).
  destruct (ob_outbound_groups ob) as [groups|] eqn:Eg; [|intros [= <- <- <-]; naive_solver].
  case_bool_decide; [intros [= <- <- <-]; naive_solver|].
  destruct (contains_affected_child tags groups) eqn:Ec; intros [= <- <- <-].
  - apply contains_affected_child_spec in Ec as (g & child & Hg & Hc & Ht).
    split; [|by right]. destruct Hs as [Hs1 Hs2]. split.
    + intros t [->%elem_of_singleton|Hin]%elem_of_union; [|by apply Hs1].
      exists ob, child. split_and!; [done|repeat split; eauto|].
      by eapply sound_affected.
    + intros t. rewrite !elem_of_union, Hs2. tauto.
  - split; [done|]. left. split_and!; try done.
    intros child (_ & _ & groups' & g & [= <-] & Hg & Hc) Ht.
    assert (contains_affected_child tags groups = true) as E
      by (apply contains_affected_child_spec; eauto). congruence.
Qed.

(** One round over the outbounds. *)
Lemma affected_round l tags uts d tags' uts' d' :
  l ⊆ outbounds → sound tags uts → fold_left affected_step l (tags, uts, d) = (tags', uts', d') →
  sound tags' uts' ∧ uts ⊆ uts' ∧ (uts' ⊆ uts ∪ list_to_set (ob_tag <$> l))
  ∧ (d' = true ∧ (d = true ∨ (size uts < size uts')%nat)
     ∨ d' = false ∧ d = false ∧ tags' = tags ∧ uts' = uts ∧ Forall (closed_at tags uts) l).
Proof.
  revert tags uts d. induction l as [|ob l IH]; intros tags uts d Hl Hs; cbn [fold_left].
  { intros [= <- <- <-]. split; [done|]. split; [done|]. split; [set_solver|].
    destruct d; [left|right]; auto. }
  destruct (affected_step (tags, uts, d) ob) as [[tags1 uts1] d1] eqn:E1. intros E.
  apply affected_step_spec in E1 as [Hs1 Hcase]; [|apply Hl; by left|done].
  apply IH in E as (Hs' & Hsub & Hup & Hd); [|set_solver|done]. split; [done|].
  destruct Hcase as [(-> & -> & -> & Hcl)|(-> & Hnew & ->)].
  - split; [done|]. split; [set_solver|]. destruct Hd as [Hd|(? & ? & ? & ? & ?)]; [by left|].
    right. split_and!; try done. by constructor.
  - split; [set_solver|]. split; [set_solver|]. left.
    destruct Hd as [[-> _]|(_ & ? & _)]; [|done]. split; [done|]. right.
    apply subset_size. set_solver.
Qed.

Definition tag_set : gset string := list_to_set (ob_tag <$> outbounds).

Lemma tag_set_size : (size tag_set ≤ length outbounds)%nat.
Proof.
  unfold tag_set. rewrite <- (length_fmap ob_tag outbounds).
  induction (ob_tag <$> outbounds) as [|t l IH]; simpl; [done|].
  pose proof (size_union_alt {[t]} (list_to_set l : gset string)) as E.
  rewrite E, size_singleton.
  pose proof (subseteq_size (list_to_set l ∖ {[t]} : gset string) (list_to_set l)
    ltac:(set_solver)). lia.
Qed.

(** Enough fuel: the loop ends in a closed sound state. *)
Lemma affected_loop_spec fuel tags uts :
  sound tags uts → uts ⊆ tag_set → (length outbounds < fuel + size uts)%nat →
  let res := affected_loop fuel outbounds tags uts in
  res ⊆ tag_set ∧ ∃ tags', sound tags' res ∧ Forall (closed_at tags' res) outbounds.
Proof.
  revert tags uts. induction fuel as [|fuel IH]; intros tags uts Hs Hsub Hf; simpl.
  { pose proof (subseteq_size _ _ Hsub). pose proof tag_set_size. lia. }
  destruct (fold_left affected_step outbounds (tags, uts, false)) as [[tags1 uts1] d1] eqn:E.
  apply affected_round in E as (Hs1 & Hle & Hup & Hd); [|done|done].
  assert (uts1 ⊆ tag_set) as Hsub1 by (unfold tag_set; set_solver).
  destruct Hd as [(-> & [|Hlt])|(-> & _ & -> & -> & Hcl)]; [done| |].
  - apply IH; [done|done|lia].
  - split; [done|]. eauto.
Qed.

Lemma closed_complete tags uts :
  sound tags uts → Forall (closed_at tags uts) outbounds → ∀ t, affected t → t ∈ tags.
Proof.
  intros [_ Hs] Hc t Ha. induction Ha as [t Ht|ob child Hp Ha IH]; apply Hs; [by left|right].
  rewrite Forall_forall in Hc. eapply Hc; [apply Hp|exact Hp|exact IH].
Qed.

Lemma find_affected_elem t :
  t ∈ find_affected_urltests outbounds changed ↔ affected_group t.
Proof.
  unfold find_affected_urltests.
  destruct (affected_loop_spec (S (length outbounds)) (list_to_set changed) ∅)
    as (Hsub & tags' & Hs & Hcl).
  { split; [by intros ? ?%elem_of_empty|]. intros x. rewrite elem_of_list_to_set. set_solver. }
  { set_solver. } { lia. }
  set (res := affected_loop _ _ _ _) in *. clearbody res. pose proof Hcl as Hcl'.
  assert (t ∈ ob_tag <$> List.filter (λ ob, bool_decide (ob_tag ob ∈ res)) outbounds ↔ t ∈ res)
    as ->.
  { rewrite list_elem_of_fmap. setoid_rewrite list_elem_of_In.
    setoid_rewrite List.filter_In. setoid_rewrite bool_decide_eq_true. split.
    - intros (ob & -> & _ & ?). done.
    - intros Ht. apply Hsub in Ht as Hx. unfold tag_set in Hx.
      apply elem_of_list_to_set, list_elem_of_fmap in Hx as (ob & -> & Hob).
      exists ob. by rewrite <- list_elem_of_In. }
  split; [apply Hs|].
  intros (ob & child & <- & Hp & Ha).
  eapply Forall_forall in Hcl; [|apply Hp]. apply (Hcl child Hp).
  by eapply closed_complete.
Qed.
End Affected.

(** Refresh propagation: [find_affected_urltests] returns exactly the urltest
    groups that reach a changed outbound through group membership, at any depth
    and also when groups refer to each other cyclically. *)
Theorem find_affected_urltests_closure outbounds changed t :
  t ∈ find_affected_urltests outbounds changed ↔ affected_group outbounds changed t.
Proof. apply find_affected_elem. Qed.
