(* ===== verification/CircuitBreaker.v ===== *)
(** * Circuit breaker

    Models src/src/health/circuit_breaker.{hpp,cpp}: per-outbound entries that
    block an outbound after repeated failures and let a bounded number of probe
    requests through after a cooldown. Steady-clock time points are integers in
    nanoseconds; [now] is the clock value an operation reads. *)

From Stdlib Require Import ZArith Lia Ascii String.
From stdpp Require Import base gmap strings list.
From S2P Require Import Prelude ConfigTypes.
Open Scope Z_scope.

Inductive CircuitState := cs_closed | cs_open | cs_half_open.

#[export] Instance CircuitState_eq_dec : EqDecision CircuitState.
Proof. solve_decision. Defined.

Record CircuitBreakerEntry := {
  cb_state : CircuitState;
  cb_failure_count : Z;                 (* int *)
  cb_success_count_in_half_open : Z;    (* uint32_t *)
  cb_half_open_active_requests : Z;     (* uint32_t *)
  cb_last_failure_time : Z;
  cb_opened_at : Z;
}.

Definition CircuitBreakerEntry_default : CircuitBreakerEntry :=
  {| cb_state := cs_closed; cb_failure_count := 0; cb_success_count_in_half_open := 0;
     cb_half_open_active_requests := 0; cb_last_failure_time := 0; cb_opened_at := 0 |}.

(** [entries_] *)
Abbreviation CbEntries := (gmap string CircuitBreakerEntry).

Definition get_or_create (es : CbEntries) (tag : string) : CircuitBreakerEntry :=
  default CircuitBreakerEntry_default (es !! tag).

(** [static_cast<int>] of a 64-bit value. *)
Definition to_int (z : Z) : Z := (z + 2 ^ 31) mod 2 ^ 32 - 2 ^ 31.

Section Breaker.
Context (config : CircuitBreakerConfig).

Definition success_threshold : Z := u32 (default 2 (cbc_success_threshold config)).
Definition failure_threshold : Z := to_int (default 5 (cbc_failure_threshold config)).
Definition half_open_max : Z := u32 (default 1 (cbc_half_open_max_requests config)).
Definition cooldown_ns : Z := default 30000 (cbc_timeout_ms config) * 1000000.

(** Entry updates, one per operation. *)
Definition entry_success (e : CircuitBreakerEntry) : CircuitBreakerEntry :=
  match cb_state e with
  | cs_half_open =>
      let n := u32 (cb_success_count_in_half_open e + 1) in
      if success_threshold <=? n then
        {| cb_state := cs_closed; cb_failure_count := 0; cb_success_count_in_half_open := 0;
           cb_half_open_active_requests := 0;
           cb_last_failure_time := cb_last_failure_time e; cb_opened_at := cb_opened_at e |}
      else
        {| cb_state := cs_half_open; cb_failure_count := cb_failure_count e;
           cb_success_count_in_half_open := n;
           cb_half_open_active_requests := cb_half_open_active_requests e;
           cb_last_failure_time := cb_last_failure_time e; cb_opened_at := cb_opened_at e |}
  | cs_closed =>
      {| cb_state := cs_closed; cb_failure_count := 0;
         cb_success_count_in_half_open := cb_success_count_in_half_open e;
         cb_half_open_active_requests := cb_half_open_active_requests e;
         cb_last_failure_time := cb_last_failure_time e; cb_opened_at := cb_opened_at e |}
  | cs_open => e
  end.

Definition entry_failure (now : Z) (e : CircuitBreakerEntry) : CircuitBreakerEntry :=
  let n := cb_failure_count e + 1 in
  match cb_state e with
  | cs_closed =>
      {| cb_state := if failure_threshold <=? n then cs_open else cs_closed;
         cb_failure_count := n;
         cb_success_count_in_half_open := cb_success_count_in_half_open e;
         cb_half_open_active_requests := cb_half_open_active_requests e;
         cb_last_failure_time := now;
         cb_opened_at := if failure_threshold <=? n then now else cb_opened_at e |}
  | cs_half_open =>
      {| cb_state := cs_open; cb_failure_count := n; cb_success_count_in_half_open := 0;
         cb_half_open_active_requests := 0; cb_last_failure_time := now; cb_opened_at := now |}
  | cs_open =>
      {| cb_state := cs_open; cb_failure_count := n;
         cb_success_count_in_half_open := cb_success_count_in_half_open e;
         cb_half_open_active_requests := cb_half_open_active_requests e;
         cb_last_failure_time := now; cb_opened_at := cb_opened_at e |}
  end.

Definition entry_allowed (now : Z) (e : CircuitBreakerEntry) : bool * CircuitBreakerEntry :=
  match cb_state e with
  | cs_closed => (true, e)
  | cs_open =>
      if cooldown_ns <=? now - cb_opened_at e then
        (true,
         {| cb_state := cs_half_open; cb_failure_count := cb_failure_count e;
            cb_success_count_in_half_open := 0; cb_half_open_active_requests := 0;
            cb_last_failure_time := cb_last_failure_time e; cb_opened_at := cb_opened_at e |})
      else (false, e)
  | cs_half_open => (cb_half_open_active_requests e <? half_open_max, e)
  end.

Definition with_active (e : CircuitBreakerEntry) (n : Z) : CircuitBreakerEntry :=
  {| cb_state := cb_state e; cb_failure_count := cb_failure_count e;
     cb_success_count_in_half_open := cb_success_count_in_half_open e;
     cb_half_open_active_requests := n;
     cb_last_failure_time := cb_last_failure_time e; cb_opened_at := cb_opened_at e |}.

Definition entry_begin (e : CircuitBreakerEntry) : CircuitBreakerEntry :=
  match cb_state e with
  | cs_half_open => with_active e (u32 (cb_half_open_active_requests e + 1))
  | _ => e
  end.

Definition entry_end (e : CircuitBreakerEntry) : CircuitBreakerEntry :=
  if 0 <? cb_half_open_active_requests e
  then with_active e (cb_half_open_active_requests e - 1) else e.

(** The public operations on the map. *)
Definition record_success (es : CbEntries) (tag : string) : CbEntries :=
  <[tag := entry_success (get_or_create es tag)]> es.

Definition record_failure (es : CbEntries) (tag : string) (now : Z) : CbEntries :=
  <[tag := entry_failure now (get_or_create es tag)]> es.

Definition is_allowed (es : CbEntries) (tag : string) (now : Z) : bool * CbEntries :=
  let '(b, e) := entry_allowed now (get_or_create es tag) in (b, <[tag := e]> es).

Definition begin_request (es : CbEntries) (tag : string) : CbEntries :=
  <[tag := entry_begin (get_or_create es tag)]> es.

Definition end_request (es : CbEntries) (tag : string) : CbEntries :=
  <[tag := entry_end (get_or_create es tag)]> es.

Definition circuit_state (es : CbEntries) (tag : string) : CircuitState :=
  match es !! tag with None => cs_closed | Some e => cb_state e end.

Definition failure_count (es : CbEntries) (tag : string) : Z :=
  match es !! tag with None => 0 | Some e => cb_failure_count e end.

Definition reset (es : CbEntries) (tag : string) : CbEntries := delete tag es.
Definition reset_all (es : CbEntries) : CbEntries := ∅.

(** ** Traces *)

Inductive CbOp := OpSuccess | OpFailure (now : Z) | OpAllowed (now : Z) | OpBegin | OpEnd.

Definition run_op (es : CbEntries) (c : string * CbOp) : CbEntries :=
  match c.2 with
  | OpSuccess => record_success es c.1
  | OpFailure now => record_failure es c.1 now
  | OpAllowed now => (is_allowed es c.1 now).2
  | OpBegin => begin_request es c.1
  | OpEnd => end_request es c.1
  end.

Definition run_ops (es : CbEntries) (ops : list (string * CbOp)) : CbEntries :=
  fold_left run_op ops es.

(** The effect of an operation on its own entry. *)
Definition entry_op (op : CbOp) (e : CircuitBreakerEntry) : CircuitBreakerEntry :=
  match op with
  | OpSuccess => entry_success e
  | OpFailure now => entry_failure now e
  | OpAllowed now => (entry_allowed now e).2
  | OpBegin => entry_begin e
  | OpEnd => entry_end e
  end.

Lemma run_op_entry es t op tag :
  get_or_create (run_op es (t, op)) tag =
  if decide (t = tag) then entry_op op (get_or_create es tag) else get_or_create es tag.
Proof.
  assert (∀ e, get_or_create (<[t := e]> es) tag
               = if decide (t = tag) then e else get_or_create es tag) as H.
  { intros e. unfold get_or_create. rewrite lookup_insert. by case_decide. }
  destruct op; unfold run_op; cbn [fst snd];
    unfold record_success, record_failure, is_allowed, begin_request, end_request, entry_op;
    try (rewrite H; case_decide; by subst).
  destruct (entry_allowed now (get_or_create es t)) as [b e] eqn:E. cbn [snd].
  rewrite H. case_decide; [subst; by rewrite E|done].
Qed.

Lemma circuit_state_entry es tag : circuit_state es tag = cb_state (get_or_create es tag).
Proof. unfold circuit_state, get_or_create. by destruct (es !! tag). Qed.

(** *** Blocking *)

Definition op_time (op : CbOp) : option Z :=
  match op with OpFailure now | OpAllowed now => Some now | _ => None end.

Lemma entry_op_blocked op e :
  cb_state e = cs_open →
  (∀ now, op_time op = Some now → now - cb_opened_at e < cooldown_ns) →
  cb_state (entry_op op e) = cs_open ∧ cb_opened_at (entry_op op e) = cb_opened_at e.
Proof.
  intros Ho Ht. destruct op; simpl; unfold entry_success, entry_failure, entry_allowed,
    entry_begin, entry_end; rewrite ?Ho; try done.
  - rewrite (proj2 (Z.leb_gt _ _)); [done|]. by apply Ht.
  - by destruct (0 <? _).
Qed.

Lemma run_ops_blocked ops es tag :
  circuit_state es tag = cs_open →
  (∀ t op now, (t, op) ∈ ops → op_time op = Some now →
     now - cb_opened_at (get_or_create es tag) < cooldown_ns) →
  circuit_state (run_ops es ops) tag = cs_open
  ∧ cb_opened_at (get_or_create (run_ops es ops) tag) = cb_opened_at (get_or_create es tag).
Proof.
  unfold run_ops. revert es. induction ops as [|[t op] ops IH]; intros es Ho Ht; [done|].
  cbn [fold_left].
  assert (cb_state (get_or_create (run_op es (t, op)) tag) = cs_open
    ∧ cb_opened_at (get_or_create (run_op es (t, op)) tag) = cb_opened_at (get_or_create es tag))
    as [Hs He].
  { rewrite run_op_entry. rewrite circuit_state_entry in Ho.
    case_decide; [|done]. apply entry_op_blocked; [done|].
    intros now Hn. eapply Ht; [by left|done]. }
  destruct (IH (run_op es (t, op))) as [H1 H2].
  - by rewrite circuit_state_entry.
  - rewrite He. intros t' op' now Hin. eapply Ht. by right.
  - by rewrite H2, He.
Qed.

(** *** Opening *)

(** Length of the run of failures that ends a sequence of results. *)
Definition trailing (bs : list bool) : Z := fold_left (λ n b, if b : bool then 0 else n + 1) bs 0.

Definition has_run (n : nat) (bs : list bool) : Prop := ∃ p r, bs = p ++ replicate n false ++ r.

Lemma trailing_snoc bs b : trailing (bs ++ [b]) = if b then 0 else trailing bs + 1.
Proof. unfold trailing. by rewrite fold_left_app. Qed.

Lemma trailing_nonneg bs : 0 ≤ trailing bs.
Proof. induction bs as [|b bs IH] using rev_ind; [done|]. rewrite trailing_snoc. destruct b; lia. Qed.

Lemma trailing_spec n bs : Z.of_nat n ≤ trailing bs ↔ ∃ p, bs = p ++ replicate n false.
Proof.
  revert n. induction bs as [|b bs IH] using rev_ind; intros n.
  - unfold trailing; simpl. split.
    + intros ?. exists []. by replace n with 0%nat by lia.
    + intros [p Hp]. symmetry in Hp. apply app_nil in Hp as [_ Hp].
      destruct n; [done|discriminate].
  - rewrite trailing_snoc. destruct n as [|n].
    { simpl. split; [intros _; exists (bs ++ [b]); by rewrite app_nil_r|].
      pose proof (trailing_nonneg bs). intros _. destruct b; lia. }
    destruct b.
    + split; [lia|]. intros [p Hp]. rewrite replicate_S_end, app_assoc in Hp.
      by apply app_inj_tail in Hp as [_ ?].
    + assert (Z.of_nat (S n) ≤ trailing bs + 1 ↔ Z.of_nat n ≤ trailing bs) as -> by lia.
      rewrite IH. split.
      * intros [p ->]. exists p. by rewrite replicate_S_end, app_assoc.
      * intros [p Hp]. exists p. rewrite replicate_S_end, app_assoc in Hp.
        by apply app_inj_tail in Hp as [? _].
Qed.

Lemma has_run_snoc n bs b :
  (0 < n)%nat → has_run n (bs ++ [b]) ↔ has_run n bs ∨ Z.of_nat n ≤ trailing (bs ++ [b]).
Proof.
  intros Hn. rewrite trailing_spec. unfold has_run. split.
  - intros (p & r & E). destruct r as [|x r' _] using rev_ind.
    + right. exists p. by rewrite E, app_nil_r.
    + left. rewrite !app_assoc in E. apply app_inj_tail in E as [-> _].
      exists p, r'. by rewrite !app_assoc.
  - intros [(p & r & ->)|[p ->]].
    + exists p, (r ++ [b]). by rewrite !app_assoc.
    + exists p, []. by rewrite app_nil_r.
Qed.

(** A health result as an operation. *)
Definition result_op (tag : string) (r : bool * Z) : string * CbOp :=
  (tag, if r.1 : bool then OpSuccess else OpFailure r.2).

Lemma results_entry tag rs :
  0 < failure_threshold →
  let e := get_or_create (run_ops ∅ (result_op tag <$> rs)) tag in
  (cb_state e = cs_closed ∧ cb_failure_count e = trailing rs.*1
   ∧ trailing rs.*1 < failure_threshold ∧ ¬ has_run (Z.to_nat failure_threshold) rs.*1)
  ∨ cb_state e = cs_open ∧ has_run (Z.to_nat failure_threshold) rs.*1.
Proof.
  intros HT. induction rs as [|[b now] rs IH] using rev_ind.
  - left. split_and!; try done. intros (p & r & E). symmetry in E.
    apply app_nil in E as [_ [E _]%app_nil]. destruct (Z.to_nat failure_threshold) eqn:En; [lia|done].
  - rewrite !fmap_app. unfold run_ops in *. rewrite fold_left_app. cbv zeta.
    cbn [fold_left fmap list_fmap].
    change (result_op tag (b, now)) with (tag, if b then OpSuccess else OpFailure now).
    cbn [fst]. rewrite run_op_entry, decide_True by done.
    set (e := get_or_create _ _) in *. rewrite has_run_snoc, trailing_snoc by lia.
    destruct IH as [(Hs & Hc & Hlt & Hno)|[Hs Hrun]].
    + destruct b; cbn [entry_op]; unfold entry_success, entry_failure; rewrite Hs; simpl.
      * left. split_and!; try done. intros [?|?]; [done|lia].
      * rewrite Hc. destruct (Z.leb_spec failure_threshold (trailing rs.*1 + 1)).
        -- right. split; [done|]. right. lia.
        -- left. split_and!; try done. intros [?|?]; [done|lia].
    + right. split; [|by left]. destruct b; cbn [entry_op];
        unfold entry_success, entry_failure; by rewrite Hs.
Qed.

(** *** Probing *)

(** A caller that asks before it sends a probe. *)
Inductive ProbeOp := Acquire (now : Z) | Finish | Report (ok : bool) (now : Z).

Definition probe_op (e : CircuitBreakerEntry) (op : ProbeOp) : CircuitBreakerEntry :=
  match op with
  | Acquire now => let '(b, e') := entry_allowed now e in if b then entry_begin e' else e'
  | Finish => entry_end e
  | Report ok now => if ok : bool then entry_success e else entry_failure now e
  end.

Definition probe_inv (e : CircuitBreakerEntry) : Prop :=
  0 ≤ cb_half_open_active_requests e ≤ half_open_max
  ∧ (cb_state e = cs_half_open →
     0 ≤ cb_success_count_in_half_open e < Z.max 1 success_threshold).

Lemma probe_op_inv e op :
  1 ≤ half_open_max → probe_inv e → probe_inv (probe_op e op).
Proof.
  intros Hmax [Ha Hs].
  assert (half_open_max < 2 ^ 32) as Hm by apply u32_range.
  assert (success_threshold < 2 ^ 32) as Hst by apply u32_range.
  unfold probe_inv.
  destruct op as [now| |[] now]; simpl;
    unfold entry_allowed, entry_begin, entry_end, entry_success, entry_failure, with_active.
  - destruct (cb_state e) eqn:E; rewrite ?E; simpl; [done| |].
    + destruct (_ <=? _); simpl; rewrite ?E; [|split; [lia|done]].
      rewrite u32_id by (unfold is_u32; lia). lia.
    + destruct (Z.ltb_spec (cb_half_open_active_requests e) half_open_max); simpl; rewrite ?E; simpl.
      * rewrite u32_id by (unfold is_u32; lia). auto with lia.
      * auto.
  - destruct (Z.ltb_spec 0 (cb_half_open_active_requests e)); simpl; [|done]. auto with lia.
  - destruct (cb_state e) eqn:E; rewrite ?E; simpl; try (split; [done|]; congruence).
    specialize (Hs eq_refl). rewrite u32_id by (unfold is_u32; lia).
    destruct (Z.leb_spec success_threshold (cb_success_count_in_half_open e + 1)); simpl; [lia|].
    split; [done|]. intros _. lia.
  - destruct (cb_state e) eqn:E; simpl; [|done|lia].
    split; [done|]. by destruct (_ <=? _).
Qed.
End Breaker.

(** ** Properties *)

(** Cooldown: once a circuit is open, no sequence of operations on any tags
    whose clock readings stay within the cooldown closes it or lets a request of
    that tag through. *)
Theorem open_circuit_blocks config es ops tag now :
  circuit_state es tag = cs_open →
  (∀ t op n, (t, op) ∈ ops → op_time op = Some n →
     n - cb_opened_at (get_or_create es tag) < cooldown_ns config) →
  now - cb_opened_at (get_or_create es tag) < cooldown_ns config →
  circuit_state (run_ops config es ops) tag = cs_open
  ∧ (is_allowed config (run_ops config es ops) tag now).1 = false.
Proof.
  intros Ho Ht Hn. destruct (run_ops_blocked config ops es tag Ho Ht) as [Hs He].
  split; [done|]. rewrite circuit_state_entry in Hs. unfold is_allowed, entry_allowed.
  rewrite Hs, He. by rewrite (proj2 (Z.leb_gt _ _) Hn).
Qed.

Definition five_failures (tag : string) : list (string * CbOp) :=
  replicate 5 (tag, OpFailure 1000).

Lemma open_circuit_blocks_witness :
  let es := run_ops CircuitBreakerConfig_default ∅ (five_failures "vpn") in
  circuit_state (run_ops CircuitBreakerConfig_default es [("vpn"%string, OpSuccess)]) "vpn" = cs_open
  ∧ (is_allowed CircuitBreakerConfig_default
       (run_ops CircuitBreakerConfig_default es [("vpn"%string, OpSuccess)]) "vpn" 30000000999).1 = false.
Proof.
  apply open_circuit_blocks; [reflexivity| |vm_compute; reflexivity].
  intros t op n [= -> ->]%list_elem_of_singleton. done.
Defined.

(** Opening: a fresh breaker fed with health results is open exactly when the
    results contain [failure_threshold] consecutive failures, and is closed
    otherwise (an isolated success clears the count). *)
Theorem opens_on_consecutive_failures config tag rs :
  0 < failure_threshold config →
  let st := circuit_state (run_ops config ∅ (result_op tag <$> rs)) tag in
  (st = cs_open ↔ has_run (Z.to_nat (failure_threshold config)) rs.*1)
  ∧ (st = cs_closed ↔ ¬ has_run (Z.to_nat (failure_threshold config)) rs.*1).
Proof.
  intros HT st. unfold st. rewrite circuit_state_entry.
  destruct (results_entry config tag rs HT) as [(-> & _ & _ & ?)|[-> ?]];
    split; split; try done; naive_solver.
Qed.

Lemma opens_on_consecutive_failures_witness :
  circuit_state (run_ops CircuitBreakerConfig_default ∅
    (result_op "vpn" <$> replicate 4 (false, 7) ++ [(true, 8)] ++ replicate 4 (false, 9))) "vpn" = cs_closed
  ↔ ¬ has_run 5 (replicate 4 (false, 7) ++ [(true, 8)] ++ replicate 4 (false, 9)).*1.
Proof.
  refine (proj2 (opens_on_consecutive_failures CircuitBreakerConfig_default "vpn"
    (replicate 4 (false, 7) ++ [(true, 8)] ++ replicate 4 (false, 9)) _)).
  vm_compute; reflexivity.
Defined.

(** Probe concurrency: when every request asks [is_allowed] before
    [begin_request], the number of active half-open requests of an entry never
    exceeds [half_open_max_requests] and a half-open entry has seen fewer
    successes than it needs to close. *)
Theorem probe_concurrency_bounded config ops :
  1 ≤ half_open_max config →
  probe_inv config (fold_left (probe_op config) ops CircuitBreakerEntry_default).
Proof.
  intros Hmax. apply fold_left_inv; [intros e op _; by apply probe_op_inv|].
  split; simpl; [lia|done].
Qed.

Lemma probe_concurrency_bounded_witness :
  probe_inv CircuitBreakerConfig_default
    (fold_left (probe_op CircuitBreakerConfig_default)
       (replicate 5 (Report false 0) ++ [Acquire 30000000000; Acquire 30000000001; Finish])
       CircuitBreakerEntry_default).
Proof. apply probe_concurrency_bounded. vm_compute. discriminate. Defined.
