(* ===== verification/IpSet.v ===== *)
(** * IP prefix set

    Models src/src/lists/ipset.{hpp,cpp}: the binary trie of prefixes, the two
    hand-written address parsers and the set built on them. The trie is refined
    by a list of prefixes; the parsers are characterised by the texts they
    accept. *)

From Stdlib Require Import ZArith Lia Ascii String.
From stdpp Require Import base strings list.
From S2P Require Import Prelude.
Open Scope Z_scope.

(** [std::invalid_argument] with its message prefix *)
Inductive IpSetError :=
| InvalidPrefixLength
| InvalidAddress (addr : string)
| CidrNoSlash (cidr : string)
| CidrBadLength (cidr : string)
| CidrV4TooLong (cidr : string)
| CidrV6TooLong (cidr : string)
| CidrInvalid (cidr : string).

(** ** The trie *)

(** [IpTrie::Node]; a null child pointer is [Null]. *)
Inductive Node :=
| Null
| NodeAt (child0 child1 : Node) (is_prefix : bool).

Definition fresh_node : Node := NodeAt Null Null false.

Definition node_is_prefix (n : Node) : bool :=
  match n with Null => false | NodeAt _ _ p => p end.

(** Bit [i] of an address: [(bits[i / 8] >> (7 - i % 8)) & 1]. *)
Definition addr_bit (bytes : list Z) (i : nat) : bool :=
  Z.land (Z.shiftr (default 0 (bytes !! (i / 8)%nat)) (7 - Z.of_nat (i mod 8))) 1 =? 1.

(** The bits the loops over [0 .. n - 1] read. *)
Definition addr_bits (bytes : list Z) (n : nat) : list bool := addr_bit bytes <$> seq 0 n.

(** The loop of [IpTrie::insert] from one node down. *)
Fixpoint insert_bits (node : Node) (bits : list bool) : Node :=
  match node, bits with
  | Null, _ => Null
  | NodeAt c0 c1 _, [] => NodeAt c0 c1 true
  | NodeAt c0 c1 p, b :: bits =>
      let descend child :=
        let child := match child with Null => fresh_node | _ => child end in
        if node_is_prefix child then child else insert_bits child bits in
      if b then NodeAt c0 (descend c1) p else NodeAt (descend c0) c1 p
  end.

Definition trie_insert (root : Node) (bytes : list Z) (prefix_len max_bits : Z)
    : result IpSetError Node :=
  if (prefix_len <? 0) || (max_bits <? prefix_len) then Throw InvalidPrefixLength
  else Ok (insert_bits root (addr_bits bytes (Z.to_nat prefix_len))).

(** The loop of [IpTrie::contains] from one node down. *)
Fixpoint contains_bits (node : Node) (bits : list bool) : bool :=
  match bits with
  | [] => false
  | b :: bits =>
      match node with
      | Null => false
      | NodeAt c0 c1 _ =>
          match (if b then c1 else c0) with
          | Null => false
          | child => if node_is_prefix child then true else contains_bits child bits
          end
      end
  end.

Definition trie_contains (root : Node) (bytes : list Z) (max_bits : nat) : bool :=
  if node_is_prefix root then true else contains_bits root (addr_bits bytes max_bits).

(** ** IPv4 parsing *)

(** One octet: the digits and the rest. *)
Definition parse_octet (s : string) : option (Z * string) :=
  let '(digits, rest) := span is_digit s in
  if empty_str digits then None
  else match from_chars_uint u32_max digits with
       | None => None
       | Some val => if 255 <? val then None else Some (val, rest)
       end.

(** The loop over [i], [first] being [i == 0]. *)
Fixpoint parse_octets (n : nat) (first : bool) (s : string) : option (list Z * string) :=
  match n with
  | O => Some ([], s)
  | S n =>
      let after_dot :=
        if first then Some s
        else match s with String c s' => if Ascii.eqb c "." then Some s' else None | _ => None end in
      match after_dot with
      | None => None
      | Some s =>
          match parse_octet s with
          | None => None
          | Some (val, rest) =>
              match parse_octets n false rest with
              | None => None
              | Some (vals, rest) => Some (val :: vals, rest)
              end
          end
      end
  end.

Definition parse_ipv4 (s : string) : option (list Z) :=
  match parse_octets 4 true s with
  | Some (vals, EmptyString) => Some vals
  | _ => None
  end.

(** ** IPv6 parsing *)

Fixpoint span_upto (n : nat) (p : ascii → bool) (s : string) : string * string :=
  match n, s with
  | S n, String c s' => if p c then let '(l, r) := span_upto n p s' in (String c l, r) else (EmptyString, s)
  | _, _ => (EmptyString, s)
  end.

(** The state of the [while] loop: groups so far and [double_colon_pos]. *)
Definition parse_hex_group (s : string) : option (Z * string) :=
  let '(digits, rest) := span_upto 4 is_xdigit s in
  if empty_str digits then None
  else
    let val := hex_value 0 digits in
    if 65535 <? val then None
    else match rest with
         | EmptyString => Some (val, rest)
         | String c _ => if Ascii.eqb c ":" then Some (val, rest) else None
         end.

(** Every iteration consumes a character, so the length of the text is enough
    fuel. *)
Fixpoint parse_groups (fuel : nat) (s : string) (groups : list Z) (dcp : option nat)
    : option (list Z * option nat) :=
  match fuel, s with
  | _, EmptyString => Some (groups, dcp)
  | O, _ => None
  | S fuel, String c s' =>
      let group s :=
        match parse_hex_group s with
        | None => None
        | Some (val, rest) => parse_groups fuel rest (groups ++ [val]) dcp
        end in
      if Ascii.eqb c ":" then
        match s' with
        | String c2 s'' =>
            if Ascii.eqb c2 ":" then
              match dcp with
              | Some _ => None
              | None => parse_groups fuel s'' groups (Some (length groups))
              end
            else group s'
        | EmptyString => group s'
        end
      else group s
  end.

Definition group_bytes (g : Z) : list Z := [Z.land (Z.shiftr g 8) 255; Z.land g 255].

(** Expansion of the groups into sixteen bytes. *)
Definition expand_groups (groups : list Z) (dcp : option nat) : option (list Z) :=
  match dcp with
  | Some k =>
      if (8 <? Z.of_nat (length groups)) then None
      else Some (concat (group_bytes <$> take k groups
                         ++ replicate (8 - length groups) 0 ++ drop k groups))
  | None =>
      if (length groups =? 8)%nat then Some (concat (group_bytes <$> groups)) else None
  end.

Definition parse_ipv6_groups (s : string) : option (list Z) :=
  match s with
  | String c1 (String c2 rest) =>
      if Ascii.eqb c1 ":" && Ascii.eqb c2 ":" then
        match rest with
        | EmptyString => Some (replicate 16 0)
        | _ => match parse_groups (String.length s) rest [] (Some 0%nat) with
               | Some (groups, dcp) => expand_groups groups dcp
               | None => None
               end
        end
      else match parse_groups (String.length s) s [] None with
           | Some (groups, dcp) => expand_groups groups dcp
           | None => None
           end
  | _ => match parse_groups (String.length s) s [] None with
         | Some (groups, dcp) => expand_groups groups dcp
         | None => None
         end
  end.

(** [parse_ipv6]; the text after the last colon may be a dotted quad, which is
    rewritten into two groups and parsed again. The rewritten text has no dot
    after its last colon, so two levels are enough. *)
Fixpoint parse_ipv6_at (fuel : nat) (s : string) : option (list Z) :=
  match fuel with
  | O => None
  | S fuel =>
      match break_last ":" s with
      | Some (prefix, after_colon) =>
          if negb (empty_str after_colon) && has_char "." after_colon then
            match parse_ipv4 after_colon with
            | Some [a; b; c; d] =>
                parse_ipv6_at fuel
                  (prefix +:+ ":" +:+ to_hex (Z.lor (Z.shiftl a 8) b)
                   +:+ ":" +:+ to_hex (Z.lor (Z.shiftl c 8) d))
            | _ => None
            end
          else parse_ipv6_groups s
      | None => parse_ipv6_groups s
      end
  end.

Definition parse_ipv6 (s : string) : option (list Z) := parse_ipv6_at 2 s.

(** ** The set *)

Record IpSet := { v4_trie : Node; v6_trie : Node }.

Definition empty_ipset : IpSet := {| v4_trie := fresh_node; v6_trie := fresh_node |}.

Definition insert_v4 (s : IpSet) (bytes : list Z) (len : Z) : result IpSetError IpSet :=
  let! t := trie_insert (v4_trie s) bytes len 32 in Ok {| v4_trie := t; v6_trie := v6_trie s |}.

Definition insert_v6 (s : IpSet) (bytes : list Z) (len : Z) : result IpSetError IpSet :=
  let! t := trie_insert (v6_trie s) bytes len 128 in Ok {| v4_trie := v4_trie s; v6_trie := t |}.

Definition add_address (s : IpSet) (addr : string) : result IpSetError IpSet :=
  match parse_ipv4 addr with
  | Some v4 => insert_v4 s v4 32
  | None =>
      match parse_ipv6 addr with
      | Some v6 => insert_v6 s v6 128
      | None => Throw (InvalidAddress addr)
      end
  end.

Definition add_cidr (s : IpSet) (cidr : string) : result IpSetError IpSet :=
  match break_at "/" cidr with
  | None => Throw (CidrNoSlash cidr)
  | Some (ip_part, prefix_str) =>
      match from_chars_uint u32_max prefix_str with
      | None => Throw (CidrBadLength cidr)
      | Some prefix_len =>
          match parse_ipv4 ip_part with
          | Some v4 =>
              if 32 <? prefix_len then Throw (CidrV4TooLong cidr) else insert_v4 s v4 prefix_len
          | None =>
              match parse_ipv6 ip_part with
              | Some v6 =>
                  if 128 <? prefix_len then Throw (CidrV6TooLong cidr)
                  else insert_v6 s v6 prefix_len
              | None => Throw (CidrInvalid cidr)
              end
          end
      end
  end.

Definition contains (s : IpSet) (addr : string) : result IpSetError bool :=
  match parse_ipv4 addr with
  | Some v4 => Ok (trie_contains (v4_trie s) v4 32)
  | None =>
      match parse_ipv6 addr with
      | Some v6 => Ok (trie_contains (v6_trie s) v6 128)
      | None => Throw (InvalidAddress addr)
      end
  end.

(** ** Refinement of the trie *)

(** The abstract set: the prefixes inserted so far. *)
Fixpoint is_prefix_bits (p q : list bool) : bool :=
  match p, q with
  | [], _ => true
  | b :: p, b' :: q => eqb b b' && is_prefix_bits p q
  | _ :: _, [] => false
  end.

Definition lookup_bits (n : Node) (q : list bool) : bool := node_is_prefix n || contains_bits n q.

Lemma lookup_bits_child c0 c1 p b q :
  lookup_bits (NodeAt c0 c1 p) (b :: q) = p || lookup_bits (if b then c1 else c0) q.
Proof.
  unfold lookup_bits. simpl. destruct p; [done|]. simpl.
  destruct b; [destruct c1 as [|? ? []]|destruct c0 as [|? ? []]]; simpl; try done; by destruct q.
Qed.

Lemma lookup_fresh q : lookup_bits fresh_node q = false.
Proof. unfold lookup_bits. destruct q as [|[] q]; done. Qed.

Lemma lookup_null q : lookup_bits Null q = false.
Proof. unfold lookup_bits. by destruct q. Qed.

Lemma insert_bits_spec p n q :
  n ≠ Null →
  insert_bits n p ≠ Null ∧ lookup_bits (insert_bits n p) q = is_prefix_bits p q || lookup_bits n q.
Proof.
  revert n q. induction p as [|b p IH]; intros [|c0 c1 pr] q Hn; try done.
  split; [by destruct b|].
  set (child := match (if b then c1 else c0) with Null => fresh_node | c => c end).
  assert (child ≠ Null) as Hc by (unfold child; destruct b; [destruct c1|destruct c0]; done).
  assert (∀ q', lookup_bits child q' = lookup_bits (if b then c1 else c0) q') as Hl.
  { intros q'. unfold child. destruct b; [destruct c1|destruct c0]; try done;
      by rewrite lookup_fresh, lookup_null. }
  assert (insert_bits (NodeAt c0 c1 pr) (b :: p)
    = let d := if node_is_prefix child then child else insert_bits child p in
      if b then NodeAt c0 d pr else NodeAt d c1 pr) as ->
    by (unfold child; destruct b; [destruct c1|destruct c0]; reflexivity).
  cbv zeta. set (d := if node_is_prefix child then child else insert_bits child p).
  assert (∀ q', lookup_bits d q' = is_prefix_bits p q' || lookup_bits child q') as Hd.
  { intros q'. unfold d. destruct (node_is_prefix child) eqn:E; [|by apply IH].
    unfold lookup_bits. rewrite E. by rewrite orb_true_r. }
  destruct q as [|b' q]; [by destruct b|].
  destruct b, b'; rewrite !lookup_bits_child; simpl; try done;
    rewrite Hd, Hl; by destruct pr, (is_prefix_bits p q).
Qed.

(** Operations of a set and the prefix each successful one adds. *)
Inductive IpSetOp := AddAddress (addr : string) | AddCidr (cidr : string).

Definition apply_op (s : IpSet) (op : IpSetOp) : result IpSetError IpSet :=
  match op with AddAddress a => add_address s a | AddCidr c => add_cidr s c end.

(** A prefix of a family; [true] is IPv6. *)
Definition Prefix : Type := bool * list bool.

Definition parse_any (a : string) : option (bool * list Z) :=
  match parse_ipv4 a with
  | Some v4 => Some (false, v4)
  | None => match parse_ipv6 a with Some v6 => Some (true, v6) | None => None end
  end.

Definition width (v6 : bool) : nat := if v6 then 128 else 32.

(** What the text of an entry denotes. *)
Definition op_prefix (op : IpSetOp) : option Prefix :=
  match op with
  | AddAddress a =>
      match parse_any a with
      | Some (v6, bytes) => Some (v6, addr_bits bytes (width v6))
      | None => None
      end
  | AddCidr c =>
      match break_at "/" c with
      | Some (ip, len) =>
          match parse_any ip, from_chars_uint u32_max len with
          | Some (v6, bytes), Some len =>
              if len <=? Z.of_nat (width v6) then Some (v6, addr_bits bytes (Z.to_nat len)) else None
          | _, _ => None
          end
      | None => None
      end
  end.

Definition prefix_covers (e : Prefix) (v6 : bool) (bytes : list Z) : bool :=
  eqb e.1 v6 && is_prefix_bits e.2 (addr_bits bytes (width v6)).

Definition trie_of (s : IpSet) (v6 : bool) : Node := if v6 then v6_trie s else v4_trie s.

Definition represents (s : IpSet) (l : list Prefix) : Prop :=
  v4_trie s ≠ Null ∧ v6_trie s ≠ Null
  ∧ ∀ v6 q, lookup_bits (trie_of s v6) q = existsb (λ e, eqb e.1 v6 && is_prefix_bits e.2 q) l.

Lemma represents_insert s l (v6 : bool) bits s' :
  represents s l →
  s' = (if v6 then {| v4_trie := v4_trie s; v6_trie := insert_bits (v6_trie s) bits |}
        else {| v4_trie := insert_bits (v4_trie s) bits; v6_trie := v6_trie s |}) →
  represents s' ((v6, bits) :: l).
Proof.
  intros (H4 & H6 & Hl) Hs. subst s'.
  destruct (insert_bits_spec bits (trie_of s v6) [] ltac:(by destruct v6)) as [Hnn _].
  split; [by destruct v6|]. split; [by destruct v6|]. intros f q. simpl. rewrite <- Hl.
  destruct v6, f; simpl in *; try done; by apply insert_bits_spec.
Qed.

Lemma trie_insert_ok root bytes len max t :
  trie_insert root bytes len max = Ok t →
  0 ≤ len ≤ max ∧ t = insert_bits root (addr_bits bytes (Z.to_nat len)).
Proof.
  unfold trie_insert. destruct (Z.ltb_spec len 0), (Z.ltb_spec max len); simpl; try done.
  by intros [= <-].
Qed.

Lemma trie_insert_in root bytes len max :
  0 ≤ len ≤ max → trie_insert root bytes len max = Ok (insert_bits root (addr_bits bytes (Z.to_nat len))).
Proof.
  intros H. unfold trie_insert.
  by rewrite (proj2 (Z.ltb_ge len 0)), (proj2 (Z.ltb_ge max len)) by lia.
Qed.

#[local] Arguments addr_bits : simpl never.
#[local] Arguments insert_bits : simpl never.
#[local] Arguments Z.to_nat : simpl never.

(** Each operation succeeds exactly on the texts that denote a prefix, and adds
    that prefix. *)
Lemma apply_op_spec s l op :
  represents s l →
  match op_prefix op with
  | Some e => ∃ s', apply_op s op = Ok s' ∧ represents s' (e :: l)
  | None => ∃ err, apply_op s op = Throw err
  end.
Proof.
  intros Hr. destruct op as [a|c]; simpl.
  - unfold add_address, parse_any, insert_v4, insert_v6.
    destruct (parse_ipv4 a) as [v4|]; [|destruct (parse_ipv6 a) as [v6|]; [|eauto]];
      rewrite trie_insert_in by lia; cbn [rbind]; eexists; (split; [reflexivity|]).
    + apply (represents_insert s l false); [done|reflexivity].
    + apply (represents_insert s l true); [done|reflexivity].
  - unfold add_cidr, parse_any, insert_v4, insert_v6.
    destruct (break_at "/" c) as [[ip len]|]; [|eauto].
    destruct (from_chars_uint u32_max len) as [n|] eqn:En;
      [|destruct (parse_ipv4 ip); [|destruct (parse_ipv6 ip)]; eauto].
    apply from_chars_uint_nonneg in En.
    destruct (parse_ipv4 ip) as [v4|]; [|destruct (parse_ipv6 ip) as [v6|]; [|eauto]]; cbn [width].
    + destruct (Z.leb_spec n (Z.of_nat 32)), (Z.ltb_spec 32 n); cbn [width] in *; try lia; [|eauto].
      rewrite trie_insert_in by lia. cbn [rbind]. eexists; split; [reflexivity|].
      apply (represents_insert s l false); [done|reflexivity].
    + destruct (Z.leb_spec n (Z.of_nat 128)), (Z.ltb_spec 128 n); cbn [width] in *; try lia; [|eauto].
      rewrite trie_insert_in by lia. cbn [rbind]. eexists; split; [reflexivity|].
      apply (represents_insert s l true); [done|reflexivity].
Qed.

(** A loader that skips the entries that throw. *)
Definition apply_or_skip (s : IpSet) (op : IpSetOp) : IpSet :=
  match apply_op s op with Ok s' => s' | Throw _ => s end.

Lemma represents_run ops s l :
  represents s l → represents (fold_left apply_or_skip ops s) (rev (omap op_prefix ops) ++ l).
Proof.
  revert s l. induction ops as [|op ops IH]; intros s l Hr; simpl; [done|].
  pose proof (apply_op_spec s l op Hr) as Hop. unfold apply_or_skip at 2.
  destruct (op_prefix op) as [e|]; simpl.
  - destruct Hop as (s' & -> & Hs'). rewrite <- app_assoc. by apply IH.
  - destruct Hop as (err & ->). by apply IH.
Qed.

Lemma represents_empty : represents empty_ipset [].
Proof. split_and!; try done. intros [] q; apply lookup_fresh. Qed.

Lemma existsb_rev {A} (f : A → bool) l : existsb f (rev l) = existsb f l.
Proof.
  induction l as [|a l IH]; simpl; [done|].
  rewrite existsb_app, IH. simpl. rewrite orb_false_r. apply orb_comm.
Qed.

(** ** Accepted address texts *)

Definition is_octet (d : string) (v : Z) : Prop :=
  d ≠ EmptyString ∧ all_chars is_digit d = true ∧ dec_value 0 d = v ∧ v ≤ 255.

Lemma parse_octet_spec s v rest :
  parse_octet s = Some (v, rest) ↔
  ∃ d, s = d +:+ rest ∧ is_octet d v ∧ stops is_digit rest.
Proof.
  unfold parse_octet, is_octet. split.
  - destruct (span is_digit s) as [d r] eqn:Es. apply span_spec in Es as (-> & Hd & Hr).
    destruct (empty_str d) eqn:Ee; [done|]. apply empty_str_false in Ee.
    unfold from_chars_uint. rewrite (proj2 (empty_str_false d) Ee), Hd.
    destruct (_ <=? u32_max); [|done]. destruct (Z.ltb_spec 255 (dec_value 0 d)); [done|].
    intros [= <- <-]. eauto 10.
  - intros (d & -> & (Hne & Hd & <- & Hv) & Hr). rewrite span_app by done.
    unfold from_chars_uint. rewrite (proj2 (empty_str_false d) Hne), Hd.
    rewrite (proj2 (Z.leb_le _ u32_max)) by (unfold u32_max; lia).
    by rewrite (proj2 (Z.ltb_ge 255 _)).
Qed.

(** The loop reads octets separated by single dots. *)
Fixpoint dotted (first : bool) (ds : list string) (rest : string) : string :=
  match ds with
  | [] => rest
  | d :: ds => (if first then EmptyString else "."%string) +:+ d +:+ dotted false ds rest
  end.

Lemma dotted_stops ds rest : stops is_digit rest → stops is_digit (dotted false ds rest).
Proof. by destruct ds. Qed.

Lemma parse_octets_spec n first s vs rest :
  stops is_digit rest →
  parse_octets n first s = Some (vs, rest) ↔
  length vs = n ∧ ∃ ds, s = dotted first ds rest ∧ Forall2 is_octet ds vs.
Proof.
  intros Hrest. revert first s vs. induction n as [|n IH]; intros first s vs; simpl.
  { split.
    - intros [= <- <-]. split; [done|]. by exists [].
    - intros (Hvs%nil_length_inv & ds & -> & Hf). subst vs. by inversion Hf. }
  split.
  - intros H. destruct (if first then Some s else _) as [s'|] eqn:Ed; [|done].
    assert (s = (if first then EmptyString else "."%string) +:+ s') as ->.
    { destruct first; [by injection Ed|]. destruct s as [|c s0]; [done|].
      destruct (Ascii.eqb_spec c "."); [|done]. injection Ed as ->. by subst c. }
    destruct (parse_octet s') as [[v r]|] eqn:Eo; [|done].
    destruct (parse_octets n false r) as [[vs' r']|] eqn:Ep; [|done].
    injection H as <- <-. apply IH in Ep as (<- & ds & -> & Hf).
    apply parse_octet_spec in Eo as (d & -> & Ho & _). split; [done|].
    exists (d :: ds). split; [done|]. by constructor.
  - intros (Hlen & ds & -> & Hf). destruct Hf as [|d v ds vs Ho Hf]; [done|].
    assert (parse_octet (d +:+ dotted false ds rest) = Some (v, dotted false ds rest)) as Eo.
    { apply parse_octet_spec. exists d. split_and!; [done|done|by apply dotted_stops]. }
    assert (parse_octets n false (dotted false ds rest) = Some (vs, rest)) as Ep.
    { apply IH. split; [simpl in Hlen; lia|]. eauto. }
    by destruct first; simpl; rewrite Eo, Ep.
Qed.

Lemma parse_ipv4_spec s vs :
  parse_ipv4 s = Some vs ↔
  length vs = 4%nat ∧ ∃ ds, s = dotted true ds EmptyString ∧ Forall2 is_octet ds vs.
Proof.
  unfold parse_ipv4. rewrite <- (parse_octets_spec 4 true s vs EmptyString I). split.
  - destruct (parse_octets 4 true s) as [[vals [|]]|]; try done. by intros [= ->].
  - by intros ->.
Qed.

(** ** Canonical IPv6 texts *)

Definition is_u16 (n : Z) : Prop := 0 ≤ n < 65536.

Definition hex16_check (n : Z) : bool :=
  let h := to_hex n in
  all_chars is_xdigit h && negb (empty_str h) && (String.length h <=? 4)%nat
  && (hex_value 0 h =? n).

Lemma hex16_all :
  forallb (λ a, forallb (λ b, hex16_check (a * 256 + b)) byte_values) byte_values = true.
Proof. vm_compute. reflexivity. Qed.

Lemma hex16_ok n : is_u16 n → hex16_check n = true.
Proof.
  unfold is_u16. intros Hn.
  pose proof (Z.div_mod n 256 ltac:(lia)). pose proof (Z.mod_pos_bound n 256 ltac:(lia)).
  assert (0 ≤ n / 256 < 256) as Hd by (split; [apply Z.div_pos|apply Z.div_lt_upper_bound]; lia).
  pose proof (proj1 (forallb_forall _ _) hex16_all (n / 256) (elem_of_byte_values _ Hd)) as Ha.
  cbv beta in Ha.
  pose proof (proj1 (forallb_forall _ _) Ha (n mod 256) (elem_of_byte_values (n mod 256) ltac:(lia))) as Hb.
  cbv beta in Hb. by rewrite (Z.mul_comm (n / 256)), <- (Z.div_mod n 256) in Hb by lia.
Qed.

Lemma span_upto_app n p l r :
  (String.length l ≤ n)%nat → all_chars p l = true → stops p r → span_upto n p (l +:+ r) = (l, r).
Proof.
  revert n. induction l as [|c l IH]; intros n Hn Hl Hr; simpl in *.
  - destruct n, r as [|c r]; simpl in *; try done. by rewrite Hr.
  - destruct n as [|n]; [lia|]. simpl. apply andb_true_iff in Hl as [-> Hl].
    by rewrite IH by (done || lia).
Qed.

(** Texts that may follow a group. *)
Definition after_group (s : string) : Prop :=
  match s with EmptyString => True | String c _ => c = ":"%char end.

Lemma parse_hex_group_ok n rest :
  is_u16 n → after_group rest → parse_hex_group (to_hex n +:+ rest) = Some (n, rest).
Proof.
  intros Hn Hr. pose proof (hex16_ok n Hn) as H. unfold hex16_check in H. bool_to_prop.
  unfold parse_hex_group. rewrite span_upto_app.
  - destruct (empty_str (to_hex n)); [done|].
    replace (hex_value 0 (to_hex n)) with n by (symmetry; lia).
    rewrite (proj2 (Z.ltb_ge _ _)) by (unfold is_u16 in Hn; lia).
    destruct rest as [|c rest]; [done|]. simpl in Hr. by subst c.
  - lia.
  - done.
  - destruct rest as [|c rest]; [done|]. simpl in *. by subst c.
Qed.

(** The text of further groups, each after a colon. *)
Fixpoint colon_groups (gs : list Z) : string :=
  match gs with [] => EmptyString | g :: gs => ":" +:+ to_hex g +:+ colon_groups gs end.

Lemma colon_groups_after gs : after_group (colon_groups gs).
Proof. by destruct gs. Qed.

Lemma to_hex_first n : is_u16 n → ∃ c h, to_hex n = String c h ∧ Ascii.eqb c ":" = false.
Proof.
  intros Hn. pose proof (hex16_ok n Hn) as H. unfold hex16_check in H. bool_to_prop.
  destruct (to_hex n) as [|c h]; [done|]. exists c, h. split; [done|].
  simpl in *. bool_to_prop. destruct (Ascii.eqb_spec c ":") as [->|]; [|done].
  discriminate.
Qed.

Lemma parse_groups_colons gs fuel acc dcp :
  Forall is_u16 gs → (length gs ≤ fuel)%nat →
  parse_groups fuel (colon_groups gs) acc dcp = Some (acc ++ gs, dcp).
Proof.
  intros Hgs. revert fuel acc. induction Hgs as [|g gs Hg Hgs IH]; intros fuel acc Hf.
  { rewrite app_nil_r. by destruct fuel. }
  destruct fuel as [|fuel]; simpl in Hf; [lia|]. cbn [colon_groups String.append parse_groups].
  rewrite Ascii.eqb_refl.
  pose proof (parse_hex_group_ok g (colon_groups gs) Hg (colon_groups_after gs)) as Eg.
  destruct (to_hex_first g Hg) as (c & h & Eh & Ec). rewrite Eh in Eg |- *.
  cbn [String.append] in *. rewrite Ec, Eg, IH by lia. by rewrite <- app_assoc.
Qed.

Lemma break_last_none c s : has_char c s = false → break_last c s = None.
Proof.
  unfold has_char. induction s as [|x s IH]; simpl; [done|].
  intros [E H]%orb_false_iff. by rewrite IH, E.
Qed.

Lemma break_last_app c s t :
  has_char c t = false → break_last c (s +:+ String c t) = Some (s, t).
Proof.
  intros H. induction s as [|x s IH]; simpl.
  - by rewrite break_last_none, Ascii.eqb_refl.
  - by rewrite IH.
Qed.

Lemma to_hex_has_no n c : is_u16 n → is_xdigit c = false → has_char c (to_hex n) = false.
Proof.
  intros Hn Hc. pose proof (hex16_ok n Hn) as H. unfold hex16_check in H. bool_to_prop.
  apply any_char_false. eapply all_chars_impl; [|eassumption]. intros x Hx.
  destruct (Ascii.eqb_spec c x); [congruence|done].
Qed.

Lemma colon_groups_no_dot gs : Forall is_u16 gs → has_char "." (colon_groups gs) = false.
Proof.
  induction 1 as [|g gs Hg _ IH]; [done|]. cbn [colon_groups].
  rewrite !has_char_app, IH, to_hex_has_no by done. done.
Qed.

(** A text without a dot is parsed as groups. *)
Lemma break_last_suffix c s l r : break_last c s = Some (l, r) → s = l +:+ String c r.
Proof.
  revert l r. induction s as [|x s IH]; intros l r; simpl; [done|].
  destruct (break_last c s) as [[l' r']|] eqn:E.
  - intros [= <- <-]. simpl. by rewrite (IH l' r').
  - destruct (Ascii.eqb_spec c x) as [->|]; [|done]. by intros [= <- <-].
Qed.

Lemma parse_ipv6_no_dot fuel s :
  has_char "." s = false → parse_ipv6_at (S fuel) s = parse_ipv6_groups s.
Proof.
  intros H. simpl. destruct (break_last ":" s) as [[l r]|] eqn:E; [|done].
  apply break_last_suffix in E as ->. rewrite has_char_app in H.
  apply orb_false_iff in H as [_ H]. unfold has_char in H. simpl in H.
  unfold has_char. rewrite H. by rewrite andb_false_r.
Qed.

Lemma parse_groups_first g gs fuel dcp :
  is_u16 g → Forall is_u16 gs → (S (length gs) ≤ fuel)%nat →
  parse_groups fuel (to_hex g +:+ colon_groups gs) [] dcp = Some (g :: gs, dcp).
Proof.
  intros Hg Hgs Hf. destruct fuel as [|fuel]; [lia|].
  pose proof (parse_hex_group_ok g (colon_groups gs) Hg (colon_groups_after gs)) as Eg.
  destruct (to_hex_first g Hg) as (c & h & Eh & Ec). rewrite Eh in Eg |- *.
  cbn [String.append parse_groups] in *. rewrite Ec, Eg.
  apply (parse_groups_colons gs fuel [g]); [done|lia].
Qed.

Lemma length_colon_groups gs : (length gs ≤ String.length (colon_groups gs))%nat.
Proof.
  induction gs as [|g gs IH]; [done|]. cbn [colon_groups String.append String.length length].
  assert (∀ s t : string, (String.length t ≤ String.length (s +:+ t))%nat) as H.
  { induction s as [|x s IHs]; intros t; simpl; [done|]. specialize (IHs t). lia. }
  specialize (H (to_hex g) (colon_groups gs)). lia.
Qed.

Lemma parse_canonical g gs :
  is_u16 g → Forall is_u16 gs → length gs = 7%nat →
  parse_ipv6 (to_hex g +:+ colon_groups gs) = Some (concat (group_bytes <$> g :: gs)).
Proof.
  intros Hg Hgs Hlen. unfold parse_ipv6. rewrite parse_ipv6_no_dot.
  2: { by rewrite has_char_app, to_hex_has_no, colon_groups_no_dot. }
  pose proof (parse_groups_first g gs (String.length (to_hex g +:+ colon_groups gs)) None Hg Hgs) as Hp.
  pose proof (length_colon_groups gs) as Hl.
  destruct (to_hex_first g Hg) as (c & h & Eh & Ec). rewrite Eh in Hp |- *.
  cbn [String.append String.length] in *.
  assert (∀ s t : string, String.length (s +:+ t) = (String.length s + String.length t)%nat) as Hla.
  { induction s; intros; simpl; auto. }
  rewrite Hla in Hp. specialize (Hp ltac:(lia)). rewrite <- Hla in Hp.
  unfold parse_ipv6_groups. cbn [String.length]. rewrite Ec. cbn [andb].
  destruct (h +:+ colon_groups gs) as [|c2 r] eqn:Er; cbn [String.length] in *; rewrite Hp;
    unfold expand_groups; cbn [length]; by rewrite Hlen.
Qed.

(** A dotted quad has a dot and no colon. *)
Lemma dotted_no_colon first ds vs :
  Forall2 is_octet ds vs → has_char ":" (dotted first ds EmptyString) = false.
Proof.
  intros Hf. revert first. induction Hf as [|d v ds vs (_ & Hd & _) Hf IH]; intros first; [done|].
  cbn [dotted]. rewrite !has_char_app, IH, (has_char_digits ":" d) by done.
  by destruct first.
Qed.

Lemma quad_bytes_all :
  forallb (λ a, forallb (λ b, let g := Z.lor (Z.shiftl a 8) b in
    (0 <=? g) && (g <? 65536) && (Z.land (Z.shiftr g 8) 255 =? a) && (Z.land g 255 =? b))
    byte_values) byte_values = true.
Proof. vm_compute. reflexivity. Qed.

Lemma quad_group a b :
  0 ≤ a < 256 → 0 ≤ b < 256 →
  let g := Z.lor (Z.shiftl a 8) b in is_u16 g ∧ group_bytes g = [a; b].
Proof.
  intros Ha Hb g.
  pose proof (proj1 (forallb_forall _ _) quad_bytes_all a (elem_of_byte_values a Ha)) as H.
  cbv beta in H. pose proof (proj1 (forallb_forall _ _) H b (elem_of_byte_values b Hb)) as H'.
  cbv beta zeta in H'. fold g in H'. bool_to_prop. unfold group_bytes, is_u16.
  split; [lia|]. f_equal; [lia|]. f_equal. lia.
Qed.

Lemma parse_mapped t a b c d :
  parse_ipv4 t = Some [a; b; c; d] →
  parse_ipv6 ("::ffff:" +:+ t) = Some (replicate 10 0 ++ [255; 255; a; b; c; d]).
Proof.
  intros Ht. pose proof Ht as (_ & ds & Ed & Hf)%parse_ipv4_spec.
  assert (∀ x, x ∈ [a; b; c; d] → 0 ≤ x < 256) as Hr.
  { intros x [i Hi]%list_elem_of_lookup. destruct (Forall2_lookup_r _ _ _ _ _ Hf Hi)
      as (y & _ & _ & Hd & <- & ?). pose proof (dec_value_lower y 0 ltac:(lia) Hd). lia. }
  destruct (quad_group a b) as [H1 E1]; [apply Hr; rewrite !elem_of_cons; tauto..|].
  destruct (quad_group c d) as [H2 E2]; [apply Hr; rewrite !elem_of_cons; tauto..|].
  set (g1 := Z.lor (Z.shiftl a 8) b) in *. set (g2 := Z.lor (Z.shiftl c 8) d) in *.
  assert (has_char "." t = true) as Hdot.
  { rewrite Ed. inversion Hf as [|d1 ? ? ? _ Hf1]; subst. inversion Hf1; subst. cbn [dotted].
    rewrite !has_char_app. simpl. by rewrite !orb_true_r. }
  unfold parse_ipv6. remember 1%nat as one eqn:Eone.
  change ("::ffff:" +:+ t)%string with ("::ffff" +:+ String ":" t)%string.
  cbn [parse_ipv6_at]. rewrite (break_last_app ":" "::ffff" t) by (rewrite Ed; by eapply dotted_no_colon).
  rewrite Hdot, Ht. destruct t as [|? ?]; [done|]. cbn [empty_str negb andb].
  fold g1 g2.
  assert ("::ffff" +:+ ":" +:+ to_hex g1 +:+ ":" +:+ to_hex g2
          = "::" +:+ (to_hex 65535 +:+ colon_groups [g1; g2]))%string as ->
    by (cbn [colon_groups]; rewrite append_nil_r; reflexivity).
  assert (Forall is_u16 [g1; g2]) as Hgs
    by (apply List.Forall_cons, List.Forall_cons, List.Forall_nil; done).
  subst one. rewrite parse_ipv6_no_dot.
  2: { rewrite !has_char_app, colon_groups_no_dot by done. done. }
  pose proof (parse_groups_first 65535 [g1; g2]
    (String.length ("::" +:+ (to_hex 65535 +:+ colon_groups [g1; g2]))%string) (Some 0%nat)
    ltac:(unfold is_u16; lia) Hgs) as Hp.
  change (to_hex 65535) with "ffff"%string in Hp |- *.
  cbn [String.append] in Hp |- *. unfold parse_ipv6_groups. cbn [Ascii.eqb Bool.eqb andb].
  rewrite Hp by (cbn [String.length length]; lia). unfold expand_groups. simpl.
  change (Z.land (Z.shiftr 65535 8) 255) with 255. change (Z.land 65535 255) with 255.
  unfold group_bytes in E1, E2. injection E1 as -> ->. injection E2 as -> ->. done.
Qed.

(** ** Properties *)

(** C38. The set is what was put into it: after any sequence of [add_address] and
    [add_cidr] calls (calls that throw leave the set as it was), [contains]
    answers true exactly for the addresses covered by a prefix some accepted
    entry denotes, in the family of the address. *)
Theorem ipset_contains_refines ops addr :
  contains (fold_left apply_or_skip ops empty_ipset) addr =
  match parse_any addr with
  | None => Throw (InvalidAddress addr)
  | Some (v6, bytes) => Ok (existsb (λ e, prefix_covers e v6 bytes) (omap op_prefix ops))
  end.
Proof.
  destruct (represents_run ops _ _ represents_empty) as (_ & _ & Hl). rewrite app_nil_r in Hl.
  unfold contains, parse_any, prefix_covers.
  assert (∀ v6 bytes, trie_contains (trie_of (fold_left apply_or_skip ops empty_ipset) v6) bytes (width v6)
    = existsb (λ e, eqb e.1 v6 && is_prefix_bits e.2 (addr_bits bytes (width v6))) (omap op_prefix ops))
    as Hc.
  { intros v6 bytes. rewrite <- existsb_rev, <- Hl. unfold trie_contains, lookup_bits.
    by destruct (node_is_prefix _). }
  destruct (parse_ipv4 addr) as [v4|]; [exact (f_equal Ok (Hc false v4))|].
  destruct (parse_ipv6 addr) as [v6|]; [exact (f_equal Ok (Hc true v6))|done].
Qed.

(** IPv4 grammar: [parse_ipv4] accepts exactly four non-empty decimal runs
    of value at most 255 separated by single dots (leading zeros allowed), and
    returns their values. *)
Theorem parse_ipv4_accepts s vs :
  parse_ipv4 s = Some vs ↔
  length vs = 4%nat ∧ ∃ ds, s = dotted true ds EmptyString ∧ Forall2 is_octet ds vs.
Proof. apply parse_ipv4_spec. Qed.

(** Canonical IPv6 texts: eight 16-bit groups in hexadecimal separated by
    colons parse to their sixteen bytes, and an IPv4-mapped text parses to the
    mapped address of the dotted quad. *)
Theorem parse_ipv6_canonical g gs t a b c d :
  is_u16 g → Forall is_u16 gs → length gs = 7%nat →
  parse_ipv4 t = Some [a; b; c; d] →
  parse_ipv6 (to_hex g +:+ colon_groups gs) = Some (concat (group_bytes <$> g :: gs))
  ∧ parse_ipv6 ("::ffff:" +:+ t) = Some (replicate 10 0 ++ [255; 255; a; b; c; d]).
Proof.
  intros Hg Hgs Hlen Ht. split; [by apply parse_canonical | by apply parse_mapped].
Qed.

Lemma parse_ipv6_canonical_witness :
  parse_ipv6 (to_hex 8193 +:+ colon_groups [3512; 0; 0; 0; 0; 0; 1])
    = Some (concat (group_bytes <$> [8193; 3512; 0; 0; 0; 0; 0; 1]))
  ∧ parse_ipv6 ("::ffff:" +:+ "192.168.1.1") = Some (replicate 10 0 ++ [255; 255; 192; 168; 1; 1]).
Proof.
  apply parse_ipv6_canonical; [unfold is_u16; lia| |reflexivity|vm_compute; reflexivity].
  repeat constructor; unfold is_u16; lia.
Defined.

(** The IPv6 parser accepts texts that are not IPv6 addresses: a leading
    single colon, a triple colon, and a double colon that stands for no group. *)
Theorem parse_ipv6_accepts_malformed :
  is_Some (parse_ipv6 ":1:2:3:4:5:6:7:8") ∧ is_Some (parse_ipv6 "1:::2")
  ∧ is_Some (parse_ipv6 ":::1") ∧ is_Some (parse_ipv6 "1:2:3:4::5:6:7:8").
Proof. split_and!; vm_compute; eauto. Qed.
