(* ===== verification/PortSpec.v ===== *)
(** * Port specifications

    Models src/src/firewall/port_spec_util.{hpp,cpp}: parsing of the [dest_port]
    and [src_port] texts of a route rule, their normal form and the two texts
    printed from it (configuration and iptables). *)

From Stdlib Require Import ZArith Lia Ascii String Sorted.
From stdpp Require Import base strings list.
From S2P Require Import Prelude.
Open Scope Z_scope.

Inductive PortSpecError :=
| InvalidPortToken (token input : string)
| EmptyPortToken (spec : string).

(** [struct PortRange], [struct PortSpec] *)
Record PortRange := { pr_from : Z; pr_to : Z }.
Record PortSpec := { ps_ranges : list PortRange }.

Inductive PortSpecKind := PsEmpty | PsSingle | PsRange | PsList.

(** [parse_port_value]: the loop over the characters with its early exits. *)
Fixpoint port_value_loop (token : string) (value : Z) : option Z :=
  match token with
  | EmptyString => Some value
  | String c rest =>
      if negb (is_digit c) then None
      else let value := value * 10 + (code c - 48) in
           if int_max <? value then None else port_value_loop rest value
  end.

Definition parse_port_value (token : string) : option Z :=
  if empty_str token then None
  else match port_value_loop token 0 with
       | None => None
       | Some value => if (value <? 1) || (65535 <? value) then None else Some value
       end.

Definition parse_port_range_token (token : string) (range_sep : ascii) : option (Z * Z) :=
  match break_at range_sep token with
  | None => match parse_port_value token with Some lo => Some (lo, lo) | None => None end
  | Some (lhs, rhs) =>
      if has_char range_sep rhs then None
      else match parse_port_value lhs, parse_port_value rhs with
           | Some lo, Some hi => if lo <=? hi then Some (lo, hi) else None
           | _, _ => None
           end
  end.

(** [split_port_spec_tokens]: the accumulated [token] and the rest. *)
Fixpoint split_tokens_loop (spec rest token : string) : result PortSpecError (list string) :=
  match rest with
  | EmptyString =>
      if empty_str spec then Ok []
      else if empty_str token then Throw (EmptyPortToken spec) else Ok [token]
  | String c rest =>
      if Ascii.eqb c "," then
        if empty_str token then Throw (EmptyPortToken spec)
        else let! tokens := split_tokens_loop spec rest EmptyString in Ok (token :: tokens)
      else split_tokens_loop spec rest (token +:+ String c EmptyString)
  end.

Definition split_port_spec_tokens (spec : string) : result PortSpecError (list string) :=
  split_tokens_loop spec spec EmptyString.

(** The comparison of [normalize_ranges]; equivalent ranges are equal, so the
    unstable sort has one result. *)
Definition range_lt (a b : PortRange) : bool :=
  if pr_from a =? pr_from b then pr_to a <? pr_to b else pr_from a <? pr_from b.

Definition normalize_ranges (ranges : list PortRange) : list PortRange :=
  stable_sort range_lt ranges.

Definition u16 (z : Z) : Z := z mod 65536.

Definition parse_token (input token : string) : result PortSpecError PortRange :=
  match parse_port_range_token token "-" with
  | Some (lo, hi) => Ok {| pr_from := u16 lo; pr_to := u16 hi |}
  | None =>
      match parse_port_range_token token ":" with
      | Some (lo, hi) => Ok {| pr_from := u16 lo; pr_to := u16 hi |}
      | None => Throw (InvalidPortToken token input)
      end
  end.

Definition parse_port_spec (input : string) : result PortSpecError PortSpec :=
  if empty_str input then Ok {| ps_ranges := [] |}
  else
    let! tokens := split_port_spec_tokens input in
    let! ranges := rmap (parse_token input) tokens in
    Ok {| ps_ranges := normalize_ranges ranges |}.

Definition range_to_string (range_sep : ascii) (r : PortRange) : string :=
  if pr_from r =? pr_to r then to_string (pr_from r)
  else to_string (pr_from r) +:+ String range_sep (to_string (pr_to r)).

Fixpoint join_comma (l : list string) : string :=
  match l with
  | [] => EmptyString
  | [s] => s
  | s :: l => s +:+ String "," (join_comma l)
  end.

Definition ranges_to_string (ranges : list PortRange) (range_sep : ascii) : string :=
  join_comma (range_to_string range_sep <$> ranges).

Definition to_config_string (spec : PortSpec) : string := ranges_to_string (ps_ranges spec) "-".
Definition to_iptables_string (spec : PortSpec) : string := ranges_to_string (ps_ranges spec) ":".

Definition kind (spec : PortSpec) : PortSpecKind :=
  match ps_ranges spec with
  | [] => PsEmpty
  | [r] => if pr_from r =? pr_to r then PsSingle else PsRange
  | _ => PsList
  end.

Definition classify_port_spec (spec : string) : result PortSpecError PortSpecKind :=
  let! s := parse_port_spec spec in Ok (kind s).

Definition normalize_port_spec_for_iptables (spec : string) : result PortSpecError string :=
  let! s := parse_port_spec spec in Ok (to_iptables_string s).

(** ** Well-formed specifications *)

Definition wf_range (r : PortRange) : Prop := 1 ≤ pr_from r ≤ pr_to r ∧ pr_to r ≤ 65535.

Definition wf_spec (s : PortSpec) : Prop :=
  Forall wf_range (ps_ranges s) ∧ StronglySorted (not_after range_lt) (ps_ranges s).

Lemma range_lt_asym a b : range_lt a b = true → range_lt b a = false.
Proof.
  unfold range_lt. destruct (Z.eqb_spec (pr_from a) (pr_from b)), (Z.eqb_spec (pr_from b) (pr_from a));
    rewrite ?Z.ltb_lt, ?Z.ltb_ge; lia.
Qed.

Lemma range_lt_negtrans a b c :
  range_lt a b = false → range_lt b c = false → range_lt a c = false.
Proof.
  unfold range_lt. destruct (Z.eqb_spec (pr_from a) (pr_from b)), (Z.eqb_spec (pr_from b) (pr_from c)),
    (Z.eqb_spec (pr_from a) (pr_from c)); rewrite ?Z.ltb_ge; lia.
Qed.

Lemma port_value_range token v : parse_port_value token = Some v → 1 ≤ v ≤ 65535.
Proof.
  unfold parse_port_value. destruct (empty_str token); [done|].
  destruct (port_value_loop token 0) as [x|]; [|done].
  destruct (Z.ltb_spec x 1), (Z.ltb_spec 65535 x); simpl; try done. intros [= <-]. lia.
Qed.

Lemma range_token_wf token sep lo hi :
  parse_port_range_token token sep = Some (lo, hi) → 1 ≤ lo ≤ hi ∧ hi ≤ 65535.
Proof.
  unfold parse_port_range_token. destruct (break_at sep token) as [[l r]|].
  - destruct (has_char sep r); [done|].
    destruct (parse_port_value l) as [x|] eqn:El; [|done].
    destruct (parse_port_value r) as [y|] eqn:Er; [|done].
    apply port_value_range in El, Er. destruct (Z.leb_spec x y); [|done].
    intros [= <- <-]. lia.
  - destruct (parse_port_value token) as [x|] eqn:E; [|done].
    apply port_value_range in E. intros [= <- <-]. lia.
Qed.

Lemma parse_token_wf input token r : parse_token input token = Ok r → wf_range r.
Proof.
  assert (∀ lo hi, 1 ≤ lo ≤ hi ∧ hi ≤ 65535 → wf_range {| pr_from := u16 lo; pr_to := u16 hi |}) as H.
  { intros lo hi Hb. unfold wf_range, u16; simpl. rewrite !Z.mod_small by lia. lia. }
  unfold parse_token. destruct (parse_port_range_token token "-") as [[lo hi]|] eqn:E1.
  - intros [= <-]. by eapply H, range_token_wf.
  - destruct (parse_port_range_token token ":") as [[lo hi]|] eqn:E2; [|done].
    intros [= <-]. by eapply H, range_token_wf.
Qed.

Lemma parse_port_spec_wf input spec : parse_port_spec input = Ok spec → wf_spec spec.
Proof.
  unfold parse_port_spec. destruct (empty_str input).
  { intros [= <-]. split; constructor. }
  intros H. res_inv. subst spec. unfold wf_spec, normalize_ranges. simpl. split.
  - rewrite stable_sort_perm. match goal with H : rmap _ _ = Ok _ |- _ => apply rmap_ok in H as Hf end.
    apply Forall_forall. intros r [i Hi]%list_elem_of_lookup.
    destruct (Forall2_lookup_r _ _ _ _ _ Hf Hi) as (t & _ & Ht). by eapply parse_token_wf.
  - apply stable_sort_sorted; [apply range_lt_asym|intros a b c ? ?; by apply (range_lt_negtrans c b a)].
Qed.

(** ** Printing and parsing again *)

Lemma port_value_loop_digits s v :
  0 ≤ v → all_chars is_digit s = true → dec_value v s ≤ int_max →
  port_value_loop s v = Some (dec_value v s).
Proof.
  revert v. induction s as [|c s IH]; intros v Hv Hs Hb; simpl in *; [done|].
  apply andb_true_iff in Hs as [Hc Hs]. rewrite Hc. simpl. fold (digit_val c) in *.
  assert (0 ≤ digit_val c) as Hd.
  { revert Hc. unfold is_digit, in_range, digit_val. rewrite andb_true_iff, !Z.leb_le. lia. }
  pose proof (dec_value_lower s (v * 10 + digit_val c) ltac:(lia) Hs).
  rewrite (proj2 (Z.ltb_ge int_max _)) by lia. apply IH; [lia|done|done].
Qed.

Lemma parse_port_value_print n : 1 ≤ n ≤ 65535 → parse_port_value (to_string n) = Some n.
Proof.
  intros Hn. unfold parse_port_value.
  rewrite (proj2 (empty_str_false _) (to_string_nonempty n)).
  rewrite port_value_loop_digits; rewrite ?to_string_value by lia.
  - by rewrite (proj2 (Z.ltb_ge n 1)), (proj2 (Z.ltb_ge 65535 n)) by lia.
  - done.
  - apply to_string_digits. lia.
  - unfold int_max. lia.
Qed.

Lemma port_value_bad_char c s t :
  is_digit c = false → parse_port_value (s +:+ String c t) = None.
Proof.
  intros Hc. unfold parse_port_value. destruct (empty_str _); [done|].
  assert (∀ v, port_value_loop (s +:+ String c t) v = None) as ->; [|done].
  induction s as [|d s IH]; intros v; simpl; [by rewrite Hc|].
  destruct (negb _); [done|]. destruct (_ <? _); [done|]. apply IH.
Qed.

Lemma to_string_no_char n c : 0 ≤ n → is_digit c = false → has_char c (to_string n) = false.
Proof. intros. apply has_char_digits; [done|]. by apply to_string_digits. Qed.

Lemma u16_id n : 1 ≤ n ≤ 65535 → u16 n = n.
Proof. intros. apply Z.mod_small. lia. Qed.

Lemma range_token_print r sep :
  wf_range r → is_digit sep = false →
  parse_port_range_token (range_to_string sep r) sep = Some (pr_from r, pr_to r).
Proof.
  intros [Hf Ht] Hs. unfold parse_port_range_token, range_to_string.
  destruct (Z.eqb_spec (pr_from r) (pr_to r)) as [E|E].
  - rewrite (proj2 (break_at_none sep _)) by (apply to_string_no_char; [lia|done]).
    by rewrite parse_port_value_print, E by lia.
  - rewrite break_at_app by (apply to_string_no_char; [lia|done]).
    rewrite to_string_no_char, !parse_port_value_print by (done || lia).
    by rewrite (proj2 (Z.leb_le _ _)) by lia.
Qed.

Lemma parse_token_print input r sep :
  wf_range r → sep = "-"%char ∨ sep = ":"%char →
  parse_token input (range_to_string sep r) = Ok r.
Proof.
  intros Hr Hs. pose proof (range_token_print r sep Hr ltac:(destruct Hs as [->| ->]; done)) as Hp.
  assert (Ok {| pr_from := u16 (pr_from r); pr_to := u16 (pr_to r) |} = (Ok r : result PortSpecError _))
    as Hu by (destruct r, Hr; simpl in *; by rewrite !u16_id by lia).
  unfold parse_token. destruct Hs as [->| ->].
  - by rewrite Hp.
  - destruct (parse_port_range_token (range_to_string ":" r) "-") as [[lo hi]|] eqn:E;
      [|by rewrite Hp].
    revert E. unfold parse_port_range_token. destruct Hr as [Hf Ht].
    rewrite (proj2 (break_at_none "-" _)).
    + unfold range_to_string. destruct (Z.eqb_spec (pr_from r) (pr_to r)) as [Eq|].
      * rewrite parse_port_value_print by lia. intros [= <- <-]. by rewrite <- Hu, Eq.
      * by rewrite port_value_bad_char.
    + unfold range_to_string. destruct (_ =? _); [apply to_string_no_char; [lia|done]|].
      rewrite has_char_app, to_string_no_char by (done || lia).
      exact (to_string_no_char (pr_to r) "-" ltac:(lia) eq_refl).
Qed.

(** Splitting a joined list of tokens gives the tokens back. *)
Definition is_token (t : string) : Prop := t ≠ EmptyString ∧ has_char "," t = false.

Lemma split_tokens_plain spec t acc rest :
  has_char "," t = false →
  split_tokens_loop spec (t +:+ rest) acc = split_tokens_loop spec rest (acc +:+ t).
Proof.
  revert acc. induction t as [|c t IH]; intros acc H; cbn [String.append split_tokens_loop].
  - by rewrite append_nil_r.
  - unfold has_char in H. cbn [any_char] in H. apply orb_false_iff in H as [Hc H].
    rewrite Ascii.eqb_sym, Hc, IH by done. by rewrite append_assoc.
Qed.

Lemma split_tokens_join spec l :
  spec ≠ EmptyString → l ≠ [] → Forall is_token l →
  split_tokens_loop spec (join_comma l) EmptyString = Ok l.
Proof.
  intros Hsp Hl Hf. induction Hf as [|t l [Hne Hc] Hf IH]; [done|].
  destruct l as [|t2 l].
  - cbn [join_comma]. rewrite <- (append_nil_r t), split_tokens_plain by done.
    cbn [split_tokens_loop String.append]. rewrite (proj2 (empty_str_false _) Hsp), append_nil_r.
    by rewrite (proj2 (empty_str_false _) Hne).
  - change (join_comma (t :: t2 :: l)) with (t +:+ String "," (join_comma (t2 :: l))).
    rewrite split_tokens_plain by done. cbn [split_tokens_loop String.append].
    rewrite Ascii.eqb_refl, (proj2 (empty_str_false _) Hne). by rewrite IH.
Qed.

Lemma range_to_string_token r sep :
  wf_range r → Ascii.eqb "," sep = false → is_token (range_to_string sep r).
Proof.
  intros [Hf Ht] Hs. unfold range_to_string. destruct (_ =? _); split.
  - apply to_string_nonempty.
  - by apply to_string_no_char; [lia|].
  - apply append_nonempty, to_string_nonempty.
  - rewrite has_char_app, to_string_no_char by (done || lia).
    unfold has_char. cbn [any_char]. rewrite Hs. by apply to_string_no_char; [lia|].
Qed.

Lemma join_nonempty l : l ≠ [] → Forall is_token l → join_comma l ≠ EmptyString.
Proof.
  intros Hl Hf. destruct Hf as [|t l [Hne _] Hf]; [done|].
  destruct l; [done|]. simpl. by apply append_nonempty.
Qed.

Lemma rmap_parse_print input sep rs :
  Forall wf_range rs → sep = "-"%char ∨ sep = ":"%char →
  rmap (parse_token input) (range_to_string sep <$> rs) = Ok rs.
Proof.
  intros Hf Hs. apply rmap_ok. apply Forall2_fmap_l. apply Forall_Forall2_diag.
  eapply Forall_impl; [exact Hf|]. intros r Hr. by apply parse_token_print.
Qed.

Lemma parse_print_sep sep spec :
  wf_spec spec → sep = "-"%char ∨ sep = ":"%char →
  parse_port_spec (ranges_to_string (ps_ranges spec) sep) = Ok spec.
Proof.
  intros [Hwf Hsorted] Hs. destruct spec as [rs]. simpl in *.
  destruct rs as [|r rs]; [done|].
  set (l := range_to_string sep <$> r :: rs).
  assert (Forall is_token l) as Htok.
  { apply Forall_fmap. eapply Forall_impl; [exact Hwf|]. intros x Hx.
    apply range_to_string_token; [done|]. by destruct Hs as [->| ->]. }
  unfold ranges_to_string. fold l. unfold parse_port_spec, split_port_spec_tokens.
  rewrite (proj2 (empty_str_false _) (join_nonempty l ltac:(done) Htok)).
  rewrite split_tokens_join; [|by apply join_nonempty|done|done]. cbn [rbind].
  unfold l. rewrite rmap_parse_print by done. cbn [rbind].
  unfold normalize_ranges. by rewrite stable_sort_id.
Qed.

(** ** Properties *)

(** Normal form: every specification [parse_port_spec] accepts has its ranges
    within 1..65535, non-empty and in ascending order; parsing the text printed
    from it (either notation) gives the same specification, so
    [normalize_port_spec_for_iptables] is idempotent. *)
Theorem port_spec_normal_form input spec :
  parse_port_spec input = Ok spec →
  wf_spec spec
  ∧ parse_port_spec (to_config_string spec) = Ok spec
  ∧ parse_port_spec (to_iptables_string spec) = Ok spec
  ∧ normalize_port_spec_for_iptables (to_iptables_string spec) = Ok (to_iptables_string spec).
Proof.
  intros Hwf%parse_port_spec_wf. split; [done|].
  assert (parse_port_spec (to_iptables_string spec) = Ok spec) as Hi
    by (apply parse_print_sep; auto).
  split_and!; [apply parse_print_sep; auto|done|].
  unfold normalize_port_spec_for_iptables. by rewrite Hi.
Qed.

Lemma port_spec_normal_form_witness :
  ∃ spec, parse_port_spec "443,80,1000-2000" = Ok spec
    ∧ to_iptables_string spec = "80,443,1000:2000"%string
    ∧ parse_port_spec (to_iptables_string spec) = Ok spec.
Proof.
  eexists. split; [vm_compute; reflexivity|]. split; [vm_compute; reflexivity|].
  refine (proj1 (proj2 (proj2 (port_spec_normal_form "443,80,1000-2000" _ _)))).
  vm_compute. reflexivity.
Defined.
