(* ===== verification/Cron.v ===== *)
(** * Cron schedules

    Models src/src/util/cron.hpp: expansion of the five fields of an expression
    and the minute-by-minute search for the next fire time. The time zone enters
    through [localtime_r], a parameter. *)

From Stdlib Require Import ZArith Lia Ascii String.
From stdpp Require Import base gmap strings list.
From S2P Require Import Prelude.
Open Scope Z_scope.

Inductive CronError :=
| CronEmptyNumber (ctx : string)
| CronNonNumeric (ctx : string)
| CronNumberRange (ctx : string)
| CronBadStep (token : string)
| CronOutOfRange (value lo hi : Z) (token : string)
| CronReversed (token : string)
| CronEmptyExpansion (token : string)
| CronFieldCount (count : Z) (expr : string)
| CronNoMatch (expr : string).

(** [cron_parse_int]; [std::stoi] throws above [INT_MAX]. *)
Definition cron_parse_int (s ctx : string) : result CronError Z :=
  if empty_str s then Throw (CronEmptyNumber ctx)
  else if negb (all_chars is_digit s) then Throw (CronNonNumeric ctx)
  else let v := dec_value 0 s in
       if int_max <? v then Throw (CronNumberRange ctx) else Ok v.

(** [for (int v = start; v <= end; v += step)], with [fuel] more than the number
    of values. *)
Fixpoint step_values (fuel : nat) (v stop step : Z) : list Z :=
  match fuel with
  | O => []
  | S fuel => if v <=? stop then v :: step_values fuel (v + step) stop step else []
  end.

(** The range of one comma-separated part: start, end, step. *)
Definition part_range (token : string) (lo hi : Z) (part : string)
    : result CronError (Z * Z * Z) :=
  let slash := break_at "/" part in
  let! sr :=
    match slash with
    | None => Ok (1, part)
    | Some (range_part, step_part) =>
        let! step := cron_parse_int step_part token in
        if step <? 1 then Throw (CronBadStep token) else Ok (step, range_part)
    end in
  let '(step, range_part) := sr in
  let! se :=
    if String.eqb range_part "*" then Ok (lo, hi)
    else match break_at "-" range_part with
         | Some (a, b) =>
             let! start := cron_parse_int a token in
             let! stop := cron_parse_int b token in Ok (start, stop)
         | None =>
             let! start := cron_parse_int range_part token in
             Ok (start, match slash with Some _ => hi | None => start end)
         end in
  let '(start, stop) := se in
  if (start <? lo) || (hi <? start) then Throw (CronOutOfRange start lo hi token)
  else if (stop <? lo) || (hi <? stop) then Throw (CronOutOfRange stop lo hi token)
  else if stop <? start then Throw (CronReversed token)
  else Ok (start, stop, step).

Definition expand_part (token : string) (lo hi : Z) (part : string) : result CronError (list Z) :=
  let! r := part_range token lo hi part in
  let '(start, stop, step) := r in
  Ok (step_values (S (Z.to_nat (stop - start))) start stop step).

Definition expand_cron_field (token : string) (lo hi : Z) : result CronError (gset Z) :=
  let! values := rmap (expand_part token lo hi) (split_on "," token) in
  let result := list_to_set (concat values) in
  if bool_decide (result = ∅) then Throw (CronEmptyExpansion token) else Ok result.

Record CronFields := {
  cf_minute : gset Z; cf_hour : gset Z; cf_mday : gset Z; cf_month : gset Z; cf_wday : gset Z
}.

(** Tokens separated by runs of blanks. *)
Definition is_blank (c : ascii) : bool := (code c =? 32) || (code c =? 9).

Fixpoint cron_tokens (s cur : string) : list string :=
  match s with
  | EmptyString => if empty_str cur then [] else [cur]
  | String c s =>
      if is_blank c then
        if empty_str cur then cron_tokens s EmptyString else cur :: cron_tokens s EmptyString
      else cron_tokens s (cur +:+ String c EmptyString)
  end.

Definition parse_cron_fields (expr : string) : result CronError CronFields :=
  match cron_tokens expr EmptyString with
  | [t0; t1; t2; t3; t4] =>
      let! minute := expand_cron_field t0 0 59 in
      let! hour := expand_cron_field t1 0 23 in
      let! mday := expand_cron_field t2 1 31 in
      let! month := expand_cron_field t3 1 12 in
      let! wday := expand_cron_field t4 0 6 in
      Ok {| cf_minute := minute; cf_hour := hour; cf_mday := mday; cf_month := month;
            cf_wday := wday |}
  | tokens => Throw (CronFieldCount (Z.of_nat (length tokens)) expr)
  end.

Definition cron_validate (expr : string) : result CronError unit :=
  let! _ := parse_cron_fields expr in Ok tt.

(** The members of [std::tm] the search reads. *)
Record Tm := { tm_min : Z; tm_hour : Z; tm_mday : Z; tm_mon : Z; tm_wday : Z }.

Definition MAX_MINUTES : Z := 366 * 2 * 24 * 60.

Section Next.
Context (localtime_r : Z → Tm).

Definition cron_matches (f : CronFields) (t : Z) : bool :=
  let tm := localtime_r t in
  bool_decide (tm_mon tm + 1 ∈ cf_month f) && bool_decide (tm_mday tm ∈ cf_mday f)
  && bool_decide (tm_wday tm ∈ cf_wday f) && bool_decide (tm_hour tm ∈ cf_hour f)
  && bool_decide (tm_min tm ∈ cf_minute f).

Fixpoint cron_search (fuel : nat) (f : CronFields) (t : Z) : option Z :=
  match fuel with
  | O => None
  | S fuel => if cron_matches f t then Some t else cron_search fuel f (t + 60)
  end.

(** [from] in nanoseconds since the epoch; [to_time_t] truncates to seconds. *)
Definition first_minute (from : Z) : Z :=
  Z.quot (Z.quot (from + 1000000000) 1000000000 + 59) 60 * 60.

Definition cron_next (expr : string) (from : Z) : result CronError Z :=
  let! f := parse_cron_fields expr in
  match cron_search (Z.to_nat MAX_MINUTES) f (first_minute from) with
  | Some t => Ok t
  | None => Throw (CronNoMatch expr)
  end.

(** ** The search *)

Lemma cron_search_spec fuel f t :
  match cron_search fuel f t with
  | Some r => ∃ k, 0 ≤ k < Z.of_nat fuel ∧ r = t + 60 * k ∧ cron_matches f r = true
              ∧ ∀ j, 0 ≤ j < k → cron_matches f (t + 60 * j) = false
  | None => ∀ j, 0 ≤ j < Z.of_nat fuel → cron_matches f (t + 60 * j) = false
  end.
Proof.
  revert t. induction fuel as [|fuel IH]; intros t; cbn [cron_search]; [lia|].
  destruct (cron_matches f t) eqn:E.
  - exists 0. split_and!; [lia|lia|lia|done|lia].
  - specialize (IH (t + 60)). destruct (cron_search fuel f (t + 60)) as [r|].
    + destruct IH as (k & Hk & Hr & Hm & Hno). exists (k + 1).
      split_and!; [lia|lia|lia|done|]. intros j Hj. destruct (Z.eq_dec j 0) as [->|].
      * by rewrite Z.mul_0_r, Z.add_0_r.
      * replace (t + 60 * j) with (t + 60 + 60 * (j - 1)) by lia. apply Hno. lia.
    + intros j Hj. destruct (Z.eq_dec j 0) as [->|].
      * by rewrite Z.mul_0_r, Z.add_0_r.
      * replace (t + 60 * j) with (t + 60 + 60 * (j - 1)) by lia. apply IH. lia.
Qed.

(** The first candidate is the first whole minute strictly after [from]. *)
Lemma first_minute_spec from :
  0 ≤ from →
  first_minute from mod 60 = 0 ∧ from < first_minute from * 1000000000
  ∧ ∀ b, b mod 60 = 0 → from < b * 1000000000 → first_minute from ≤ b.
Proof.
  intros Hf. unfold first_minute. rewrite (Z.quot_div_nonneg (from + _)) by lia.
  set (s := (from + 1000000000) / 1000000000).
  assert (s = from / 1000000000 + 1) as Es.
  { unfold s. replace (from + 1000000000) with (from + 1 * 1000000000) by lia.
    apply Z.div_add. lia. }
  pose proof (Z.div_mod from 1000000000 ltac:(lia)). pose proof (Z.mod_pos_bound from 1000000000 ltac:(lia)).
  assert (0 ≤ from / 1000000000) by (apply Z.div_pos; lia).
  rewrite Z.quot_div_nonneg by lia.
  pose proof (Z.div_mod (s + 59) 60 ltac:(lia)). pose proof (Z.mod_pos_bound (s + 59) 60 ltac:(lia)).
  split_and!; [by apply Z.mod_mul|lia|]. intros b Hb Hlt.
  pose proof (Z.div_mod b 60 ltac:(lia)). lia.
Qed.
End Next.

(** ** Expansion *)

Lemma elem_of_step_values fuel v stop step x :
  0 < step → (Z.to_nat (stop - v) < fuel)%nat →
  x ∈ step_values fuel v stop step ↔ v ≤ x ≤ stop ∧ (x - v) mod step = 0.
Proof.
  intros Hs. revert v. induction fuel as [|fuel IH]; intros v Hf; [lia|]. cbn [step_values].
  destruct (Z.leb_spec v stop); [|rewrite elem_of_nil; lia].
  rewrite elem_of_cons. destruct fuel as [|fuel].
  { cbn [step_values]. rewrite elem_of_nil.
    assert (stop = v) by lia. split; [intros [->|[]]|intros [? ?]; left; lia].
    rewrite Z.sub_diag, Z.mod_0_l by lia. lia. }
  rewrite IH by lia. split.
  - intros [->|[Hx Hm]]; [rewrite Z.sub_diag, Z.mod_0_l by lia; lia|]. split; [lia|].
    replace (x - v) with (x - (v + step) + 1 * step) by lia. by rewrite Z.mod_add by lia.
  - intros [Hx Hm]. destruct (Z.eq_dec x v) as [|Hne]; [by left|right].
    apply Z.mod_divide in Hm as [q Hq]; [|lia].
    assert (1 ≤ q) by nia. split; [nia|].
    replace (x - (v + step)) with ((q - 1) * step) by lia. apply Z.mod_mul. lia.
Qed.

Lemma cron_parse_int_range s ctx v : cron_parse_int s ctx = Ok v → 0 ≤ v ≤ int_max.
Proof.
  unfold cron_parse_int. destruct (empty_str s); [done|].
  destruct (all_chars is_digit s) eqn:E; [|done]. simpl.
  destruct (Z.ltb_spec int_max (dec_value 0 s)); [done|]. intros [= <-].
  pose proof (dec_value_lower s 0 ltac:(lia) E). lia.
Qed.

Lemma part_range_ok token lo hi part start stop step :
  part_range token lo hi part = Ok (start, stop, step) →
  lo ≤ start ≤ stop ∧ stop ≤ hi ∧ 1 ≤ step ≤ int_max.
Proof.
  unfold part_range. intros H. apply rbind_ok in H as ([st rp] & H1 & H).
  assert (1 ≤ st ≤ int_max) as Hst.
  { clear H. destruct (break_at "/" part) as [[r s]|]; [|simplify_eq; unfold int_max; lia].
    apply rbind_ok in H1 as (n & Hn%cron_parse_int_range & H1).
    destruct (Z.ltb_spec n 1); simplify_eq. lia. }
  apply rbind_ok in H as ([a b] & _ & H).
  destruct (Z.ltb_spec a lo), (Z.ltb_spec hi a); simpl in H; try done.
  destruct (Z.ltb_spec b lo), (Z.ltb_spec hi b); simpl in H; try done.
  destruct (Z.ltb_spec b a); simplify_eq. lia.
Qed.

Lemma expand_part_spec token lo hi part values :
  expand_part token lo hi part = Ok values →
  ∃ start stop step, part_range token lo hi part = Ok (start, stop, step)
    ∧ ∀ x, x ∈ values ↔ start ≤ x ≤ stop ∧ (x - start) mod step = 0.
Proof.
  unfold expand_part. intros H. apply rbind_ok in H as ([[start stop] step] & Hr & [= <-]).
  pose proof (part_range_ok _ _ _ _ _ _ _ Hr) as (? & ? & ?).
  exists start, stop, step. split; [done|]. intros x.
  exact (elem_of_step_values (S (Z.to_nat (stop - start))) start stop step x ltac:(lia) ltac:(lia)).
Qed.

(** ** Properties *)

(** Field expansion: an accepted field denotes a non-empty subset of
    [lo .. hi], and a value is in it exactly when one of the comma-separated
    parts covers it: it lies between the part's start and end at a multiple of
    the part's step. *)
Theorem expand_cron_field_spec token lo hi vs :
  expand_cron_field token lo hi = Ok vs →
  vs ≠ ∅ ∧ (∀ x, x ∈ vs → lo ≤ x ≤ hi)
  ∧ ∀ x, x ∈ vs ↔ ∃ part start stop step, part ∈ split_on "," token
      ∧ part_range token lo hi part = Ok (start, stop, step)
      ∧ start ≤ x ≤ stop ∧ (x - start) mod step = 0.
Proof.
  unfold expand_cron_field. intros H. apply rbind_ok in H as (values & Hv & H).
  case_bool_decide as Hne; [done|]. injection H as <-. apply rmap_ok in Hv.
  assert (∀ x, x ∈ (list_to_set (concat values) : gset Z) ↔
    ∃ part start stop step, part ∈ split_on "," token
      ∧ part_range token lo hi part = Ok (start, stop, step)
      ∧ start ≤ x ≤ stop ∧ (x - start) mod step = 0) as Hin.
  { intros x. rewrite elem_of_list_to_set, list_elem_of_In, in_concat. split.
    - intros (l & [i Hi]%list_elem_of_In%list_elem_of_lookup & Hx%list_elem_of_In).
      destruct (Forall2_lookup_r _ _ _ _ _ Hv Hi) as (part & Hp & He).
      apply expand_part_spec in He as (start & stop & step & Hr & Hs).
      exists part, start, stop, step. split; [by eapply list_elem_of_lookup_2|].
      split; [done|]. by apply Hs.
    - intros (part & start & stop & step & [i Hi]%list_elem_of_lookup & Hr & Hx).
      destruct (Forall2_lookup_l _ _ _ _ _ Hv Hi) as (l & Hl & He).
      apply expand_part_spec in He as (start' & stop' & step' & Hr' & Hs).
      rewrite Hr in Hr'. simplify_eq. exists l. rewrite <- !list_elem_of_In.
      split; [by eapply list_elem_of_lookup_2|]. by apply Hs. }
  split; [done|]. split; [|done]. intros x (part & start & stop & step & _ & Hr & Hx)%Hin.
  apply part_range_ok in Hr. lia.
Qed.

Lemma expand_cron_field_spec_witness :
  ∃ vs, expand_cron_field "1-10/4,30" 0 59 = Ok vs ∧ vs = {[1; 5; 9; 30]} ∧ vs ≠ ∅.
Proof.
  eexists. split; [vm_compute; reflexivity|]. split; [vm_compute; reflexivity|].
  refine (proj1 (expand_cron_field_spec "1-10/4,30" 0 59 _ _)). vm_compute. reflexivity.
Defined.

(** Next fire time: [cron_next] returns the earliest whole minute strictly
    after [from] whose local time matches all five fields, and throws exactly
    when the expression is invalid or none of the next [MAX_MINUTES] minutes
    matches. *)
Theorem cron_next_earliest localtime_r expr from :
  0 ≤ from →
  match cron_next localtime_r expr from with
  | Ok t =>
      ∃ f, parse_cron_fields expr = Ok f ∧ t mod 60 = 0 ∧ from < t * 1000000000
        ∧ cron_matches localtime_r f t = true
        ∧ ∀ b, b mod 60 = 0 → from < b * 1000000000 → b < t → cron_matches localtime_r f b = false
  | Throw e =>
      parse_cron_fields expr = Throw e
      ∨ ∃ f, parse_cron_fields expr = Ok f ∧ e = CronNoMatch expr
        ∧ ∀ b, b mod 60 = 0 → from < b * 1000000000 → b < first_minute from + 60 * MAX_MINUTES →
               cron_matches localtime_r f b = false
  end.
Proof.
  intros Hf. unfold cron_next. destruct (parse_cron_fields expr) as [f|e]; [|by left].
  cbn [rbind]. destruct (first_minute_spec from Hf) as (Hm & Hgt & Hle).
  pose proof (cron_search_spec localtime_r (Z.to_nat MAX_MINUTES) f (first_minute from)) as Hs.
  assert (∀ b, b mod 60 = 0 → from < b * 1000000000 → ∃ j, 0 ≤ j ∧ b = first_minute from + 60 * j)
    as Hidx.
  { intros b Hb Hfb. specialize (Hle b Hb Hfb). apply Z.mod_divide in Hb as [p Hp], Hm as [q Hq]; try lia.
    exists (p - q). lia. }
  destruct (cron_search _ _ _ _) as [t|].
  - destruct Hs as (k & Hk & -> & Hmt & Hno). exists f. split_and!; [done| |lia|done|].
    + replace (first_minute from + 60 * k) with (first_minute from + k * 60) by lia.
      by rewrite Z.mod_add by lia.
    + intros b Hb Hfb Hlt. destruct (Hidx b Hb Hfb) as (j & Hj & ->). apply Hno. lia.
  - right. exists f. split_and!; [done|done|].
    intros b Hb Hfb Hlt. destruct (Hidx b Hb Hfb) as (j & Hj & ->). apply Hs.
    rewrite Z2Nat.id by (unfold MAX_MINUTES; lia). lia.
Qed.

(** A clock without calendar: minutes and hours of UTC on one fixed day. *)
Definition utc_clock (t : Z) : Tm :=
  {| tm_min := t / 60 mod 60; tm_hour := t / 3600 mod 24; tm_mday := 1; tm_mon := 0; tm_wday := 4 |}.

Lemma cron_next_earliest_witness :
  cron_next utc_clock "30 4 * * *" 0 = Ok 16200
  ∧ ∃ f, parse_cron_fields "30 4 * * *" = Ok f ∧ cron_matches utc_clock f 16200 = true.
Proof.
  assert (cron_next utc_clock "30 4 * * *" 0 = Ok 16200) as E by (vm_compute; reflexivity).
  split; [exact E|].
  pose proof (cron_next_earliest utc_clock "30 4 * * *" 0 ltac:(lia)) as H. rewrite E in H.
  destruct H as (f & Hf & _ & _ & Hm & _). exists f. split; [exact Hf|exact Hm].
Defined.
