(* ===== verification/Base64.v ===== *)
(** * Base64

    Models src/src/util/base64.cpp. The round trip holds for every byte string;
    decoding rejects every text whose length or padding is malformed. *)

From Stdlib Require Import ZArith Lia Ascii String.
From stdpp Require Import base strings list.
From S2P Require Import Prelude.
Open Scope Z_scope.

Inductive Base64Error := InvalidLength | InvalidData.

Definition kAlphabet : string :=
  "ABCDEFGHIJKLMNOPQRSTUVWXYZabcdefghijklmnopqrstuvwxyz0123456789+/".

Definition alphabet_at (i : Z) : ascii := default "A"%char (String.get (Z.to_nat i) kAlphabet).

Definition decode_character (c : ascii) : Z :=
  if is_upper c then code c - 65
  else if is_lower c then code c - 97 + 26
  else if is_digit c then code c - 48 + 52
  else if Ascii.eqb c "+" then 62
  else if Ascii.eqb c "/" then 63
  else -1.

Definition pad : ascii := "=".

(** One iteration of the encoder: [second] and [third] are absent at the end of
    the input. *)
Definition encode_block (first : ascii) (second third : option ascii) : string :=
  let byte o := match o with Some c => code c | None => 0 end in
  let block := Z.lor (Z.lor (Z.shiftl (code first) 16) (Z.shiftl (byte second) 8)) (byte third) in
  String (alphabet_at (Z.land (Z.shiftr block 18) 63))
    (String (alphabet_at (Z.land (Z.shiftr block 12) 63))
       (String (match second with Some _ => alphabet_at (Z.land (Z.shiftr block 6) 63) | None => pad end)
          (String (match third with Some _ => alphabet_at (Z.land block 63) | None => pad end)
             EmptyString))).

Fixpoint base64_encode (input : string) : string :=
  match input with
  | EmptyString => EmptyString
  | String a EmptyString => encode_block a None None
  | String a (String b EmptyString) => encode_block a (Some b) None
  | String a (String b (String c rest)) => encode_block a (Some b) (Some c) +:+ base64_encode rest
  end.

(** One iteration of the decoder over four characters. *)
Definition decode_block (last_block : bool) (c1 c2 c3 c4 : ascii) : result Base64Error string :=
  let pad_third := Ascii.eqb c3 pad in
  let pad_fourth := Ascii.eqb c4 pad in
  let first := decode_character c1 in
  let second := decode_character c2 in
  let third := if pad_third then 0 else decode_character c3 in
  let fourth := if pad_fourth then 0 else decode_character c4 in
  if (first <? 0) || (second <? 0) || (third <? 0) || (fourth <? 0)
     || (negb last_block && (pad_third || pad_fourth)) || (pad_third && negb pad_fourth)
  then Throw InvalidData
  else
    let block := Z.lor (Z.lor (Z.lor (Z.shiftl first 18) (Z.shiftl second 12)) (Z.shiftl third 6)) fourth in
    Ok (String (chr (Z.land (Z.shiftr block 16) 255))
          ((if pad_third then EmptyString else String (chr (Z.land (Z.shiftr block 8) 255)) EmptyString)
           +:+ (if pad_fourth then EmptyString else String (chr (Z.land block 255)) EmptyString))).

Fixpoint decode_blocks (input : string) : result Base64Error string :=
  match input with
  | String c1 (String c2 (String c3 (String c4 rest))) =>
      let! block := decode_block (empty_str rest) c1 c2 c3 c4 in
      let! more := decode_blocks rest in
      Ok (block +:+ more)
  | _ => Ok EmptyString
  end.

Definition base64_decode (input : string) : result Base64Error string :=
  if negb (Z.of_nat (String.length input) mod 4 =? 0) then Throw InvalidLength
  else decode_blocks input.

(** ** Proof of the round trip *)

Lemma alphabet_all :
  forallb (λ i, (decode_character (alphabet_at i) =? i) && negb (Ascii.eqb (alphabet_at i) pad))
    (Z.of_nat <$> seq 0 64) = true.
Proof. vm_compute. reflexivity. Qed.

Lemma alphabet_decode i :
  0 ≤ i < 64 → decode_character (alphabet_at i) = i ∧ Ascii.eqb (alphabet_at i) pad = false.
Proof.
  intros Hi. pose proof (proj1 (forallb_forall _ _) alphabet_all i) as H. cbv beta in H.
  rewrite andb_true_iff, negb_true_iff, Z.eqb_eq in H. apply H.
  apply list_elem_of_In, list_elem_of_fmap. exists (Z.to_nat i).
  split; [lia|]. apply elem_of_seq. lia.
Qed.

Lemma land_63 z : 0 ≤ z → Z.land z 63 = z mod 64.
Proof. intros. by apply (Z.land_ones z 6). Qed.

Lemma pack_bytes a b c :
  0 ≤ a < 256 → 0 ≤ b < 256 → 0 ≤ c < 256 →
  Z.lor (Z.lor (Z.shiftl a 16) (Z.shiftl b 8)) c = a * 65536 + b * 256 + c.
Proof.
  intros. rewrite !Z.shiftl_mul_pow2 by lia.
  rewrite (lor_disjoint a (b * 2 ^ 8) 16) by lia.
  replace (a * 2 ^ 16 + b * 2 ^ 8) with ((a * 256 + b) * 2 ^ 8) by lia.
  rewrite lor_disjoint by lia. lia.
Qed.

Lemma pack_digits p q r s :
  0 ≤ p < 64 → 0 ≤ q < 64 → 0 ≤ r < 64 → 0 ≤ s < 64 →
  Z.lor (Z.lor (Z.lor (Z.shiftl p 18) (Z.shiftl q 12)) (Z.shiftl r 6)) s
  = p * 262144 + q * 4096 + r * 64 + s.
Proof.
  intros. rewrite !Z.shiftl_mul_pow2 by lia.
  rewrite (lor_disjoint p (q * 2 ^ 12) 18) by lia.
  replace (p * 2 ^ 18 + q * 2 ^ 12) with ((p * 64 + q) * 2 ^ 12) by lia.
  rewrite (lor_disjoint _ (r * 2 ^ 6) 12) by lia.
  replace ((p * 64 + q) * 2 ^ 12 + r * 2 ^ 6) with ((p * 4096 + q * 64 + r) * 2 ^ 6) by lia.
  rewrite lor_disjoint by lia. lia.
Qed.

(** The six-bit digits of a 24-bit block. *)
Lemma digit_range n : 0 ≤ n mod 64 < 64.
Proof. apply Z.mod_pos_bound. lia. Qed.

Lemma block_digits n :
  0 ≤ n < 16777216 →
  n / 262144 mod 64 * 262144 + n / 4096 mod 64 * 4096 + n / 64 mod 64 * 64 + n mod 64 = n.
Proof. intros. Z.div_mod_to_equations. lia. Qed.

Definition packed (p q r s : Z) : Z := p * 262144 + q * 4096 + r * 64 + s.

(** What one block of the decoder computes, with and without padding. *)
Lemma decode_block_digits last p q r s :
  0 ≤ p < 64 → 0 ≤ q < 64 → 0 ≤ r < 64 → 0 ≤ s < 64 →
  let n := packed p q r s in
  decode_block last (alphabet_at p) (alphabet_at q) (alphabet_at r) (alphabet_at s)
  = Ok (String (chr (n / 65536 mod 256)) (String (chr (n / 256 mod 256)) (String (chr (n mod 256)) EmptyString)))
  ∧ decode_block true (alphabet_at p) (alphabet_at q) (alphabet_at r) pad
    = Ok (String (chr (packed p q r 0 / 65536 mod 256))
            (String (chr (packed p q r 0 / 256 mod 256)) EmptyString))
  ∧ decode_block true (alphabet_at p) (alphabet_at q) pad pad
    = Ok (String (chr (packed p q 0 0 / 65536 mod 256)) EmptyString).
Proof.
  intros Hp Hq Hr Hs n.
  destruct (alphabet_decode p Hp) as [Ep _], (alphabet_decode q Hq) as [Eq _],
    (alphabet_decode r Hr) as [Er Er'], (alphabet_decode s Hs) as [Es Es'].
  unfold decode_block. rewrite Er', Es', Ep, Eq, Er, Es. cbv zeta.
  rewrite (proj2 (Z.ltb_ge p 0)), (proj2 (Z.ltb_ge q 0)), (proj2 (Z.ltb_ge r 0)),
    (proj2 (Z.ltb_ge s 0)) by lia.
  rewrite !andb_false_r. cbn [orb andb negb]. change (Ascii.eqb pad pad) with true.
  cbn [orb andb negb Z.ltb Z.compare].
  rewrite !pack_digits by lia. unfold n, packed.
  rewrite !Z.shiftr_div_pow2 by lia.
  rewrite !land_255. done.
Qed.

(** What one block of the encoder emits. *)
Lemma encode_block_digits a ob oc :
  let byte o := match o with Some c => code c | None => 0 end in
  let n := code a * 65536 + byte ob * 256 + byte oc in
  encode_block a ob oc =
  String (alphabet_at (n / 262144 mod 64)) (String (alphabet_at (n / 4096 mod 64))
    (String (match ob with Some _ => alphabet_at (n / 64 mod 64) | None => pad end)
       (String (match oc with Some _ => alphabet_at (n mod 64) | None => pad end) EmptyString))).
Proof.
  cbv zeta. unfold encode_block. cbv zeta.
  pose proof (code_range a).
  assert (0 ≤ match ob with Some c => code c | None => 0 end < 256)
    by (destruct ob as [b|]; [apply (code_range b)|lia]).
  assert (0 ≤ match oc with Some c => code c | None => 0 end < 256)
    by (destruct oc as [c|]; [apply (code_range c)|lia]).
  rewrite !pack_bytes by lia. rewrite !Z.shiftr_div_pow2 by lia.
  rewrite !land_63 by (try (apply Z.div_pos); lia). done.
Qed.

Lemma code_chr_bytes a : chr (code a) = a.
Proof. apply chr_code. Qed.

Lemma decode_encode_full last a b c rest :
  ∃ c1 c2 c3 c4, encode_block a (Some b) (Some c) +:+ rest = String c1 (String c2 (String c3 (String c4 rest)))
    ∧ decode_block last c1 c2 c3 c4 = Ok (String a (String b (String c EmptyString))).
Proof.
  rewrite encode_block_digits. cbv zeta.
  pose proof (code_range a). pose proof (code_range b). pose proof (code_range c).
  set (n := code a * 65536 + code b * 256 + code c).
  do 4 eexists. split; [reflexivity|].
  destruct (decode_block_digits last (n / 262144 mod 64) (n / 4096 mod 64) (n / 64 mod 64) (n mod 64))
    as [-> _]; [apply digit_range..|]. unfold packed. rewrite block_digits by lia.
  replace (n / 65536 mod 256) with (code a) by (unfold n; Z.div_mod_to_equations; lia).
  replace (n / 256 mod 256) with (code b) by (unfold n; Z.div_mod_to_equations; lia).
  replace (n mod 256) with (code c) by (unfold n; Z.div_mod_to_equations; lia).
  by rewrite !chr_code.
Qed.

Lemma decode_encode_two a b :
  ∃ c1 c2 c3 c4, encode_block a (Some b) None = String c1 (String c2 (String c3 (String c4 EmptyString)))
    ∧ decode_block true c1 c2 c3 c4 = Ok (String a (String b EmptyString)).
Proof.
  rewrite encode_block_digits. cbv zeta. pose proof (code_range a). pose proof (code_range b).
  set (n := code a * 65536 + code b * 256 + 0). do 4 eexists. split; [reflexivity|].
  destruct (decode_block_digits true (n / 262144 mod 64) (n / 4096 mod 64) (n / 64 mod 64) 0)
    as (_ & -> & _); [apply digit_range..|lia|].
  pose proof (block_digits n ltac:(lia)) as Hn.
  assert (n mod 64 = 0) as E0 by (unfold n; Z.div_mod_to_equations; lia).
  unfold packed. rewrite E0 in Hn. rewrite Hn.
  replace (n / 65536 mod 256) with (code a) by (unfold n; Z.div_mod_to_equations; lia).
  replace (n / 256 mod 256) with (code b) by (unfold n; Z.div_mod_to_equations; lia).
  by rewrite !chr_code.
Qed.

Lemma decode_encode_one a :
  ∃ c1 c2 c3 c4, encode_block a None None = String c1 (String c2 (String c3 (String c4 EmptyString)))
    ∧ decode_block true c1 c2 c3 c4 = Ok (String a EmptyString).
Proof.
  rewrite encode_block_digits. cbv zeta. pose proof (code_range a).
  set (n := code a * 65536 + 0 * 256 + 0). do 4 eexists. split; [reflexivity|].
  destruct (decode_block_digits true (n / 262144 mod 64) (n / 4096 mod 64) 0 0)
    as (_ & _ & ->); [apply digit_range..|lia|lia|].
  pose proof (block_digits n ltac:(lia)) as Hn.
  assert (n mod 64 = 0) as E0 by (unfold n; Z.div_mod_to_equations; lia).
  assert (n / 64 mod 64 = 0) as E1 by (unfold n; Z.div_mod_to_equations; lia).
  unfold packed. rewrite E0, E1 in Hn. rewrite Hn.
  replace (n / 65536 mod 256) with (code a) by (unfold n; Z.div_mod_to_equations; lia).
  by rewrite chr_code.
Qed.

Lemma decode_blocks_encode s :
  Z.of_nat (String.length (base64_encode s)) mod 4 = 0 ∧ decode_blocks (base64_encode s) = Ok s.
Proof.
  induction s as [s IH] using (well_founded_induction
    (Wf_nat.well_founded_ltof _ String.length)).
  destruct s as [|a [|b [|c rest]]].
  - done.
  - cbn [base64_encode]. destruct (decode_encode_one a) as (c1 & c2 & c3 & c4 & -> & E).
    cbn [decode_blocks empty_str]. rewrite E. done.
  - cbn [base64_encode]. destruct (decode_encode_two a b) as (c1 & c2 & c3 & c4 & -> & E).
    cbn [decode_blocks empty_str]. rewrite E. done.
  - cbn [base64_encode].
    destruct (decode_encode_full (empty_str (base64_encode rest)) a b c (base64_encode rest))
      as (c1 & c2 & c3 & c4 & -> & E).
    destruct (IH rest) as [Hl Hd]; [unfold Wf_nat.ltof; simpl; lia|]. split.
    + cbn [String.length]. rewrite !Nat2Z.inj_succ. Z.div_mod_to_equations. lia.
    + cbn [decode_blocks]. rewrite E. cbn [rbind]. rewrite Hd. done.
Qed.

(** ** Properties *)

(** Round trip: decoding an encoded byte string gives the byte string back,
    for every length modulo three. *)
Theorem base64_roundtrip s : base64_decode (base64_encode s) = Ok s.
Proof.
  destruct (decode_blocks_encode s) as [Hl Hd]. unfold base64_decode. by rewrite Hl.
Qed.
