(* ===== verification/ListParser.v ===== *)
(** * List entries

    Models src/src/config/list_parser.{hpp,cpp}: classification and
    normalisation of the lines of an address or domain list, the escaping of
    rejected entries for the log and the cap on log lines. The C library's
    [inet_pton] and [inet_ntop] are the interface [Inet]. *)

From Stdlib Require Import ZArith Lia Ascii String.
From stdpp Require Import base strings list.
From S2P Require Import Prelude.
Open Scope Z_scope.

(** ** The address library *)

(** [inet_pton family text] is the network-order bytes, [inet_ntop family bytes]
    the presentation text. *)
Class Inet := {
  inet_pton : Z → string → option (list Z);
  inet_ntop : Z → list Z → option string;
}.

Definition addr_len (family : Z) : nat := if family =? AF_INET then 4 else 16.

Definition is_family (family : Z) : Prop := family = AF_INET ∨ family = AF_INET6.

Definition is_byte (b : Z) : Prop := 0 ≤ b < 256.

Definition is_addr (family : Z) (bytes : list Z) : Prop :=
  length bytes = addr_len family ∧ Forall is_byte bytes.

(** Characters of presentation text. *)
Definition is_v4_char (c : ascii) : bool := is_digit c || Ascii.eqb c ".".
Definition is_v6_char (c : ascii) : bool := is_xdigit c || Ascii.eqb c ":" || Ascii.eqb c ".".

(** A decimal part with a superfluous leading zero. *)
Definition zero_led (part : string) : bool :=
  match part with
  | String c (String d rest) => Ascii.eqb c "0" && all_chars is_digit part
  | _ => false
  end.

Definition dotted_tail (host : string) : string :=
  match break_last ":" host with Some (_, tail) => tail | None => host end.

Definition has_zero_led (host : string) : bool :=
  has_char "." host && existsb zero_led (split_on "." (dotted_tail host)).

(** The documented behaviour the callers rely on: lengths, the text of an address
    is made of the address characters of its family without superfluous zeros,
    and reading it back gives the address. *)
Class InetLaws (I : Inet) := {
  pton_addr f s bytes : is_family f → inet_pton f s = Some bytes → is_addr f bytes;
  ntop_total f bytes : is_family f → is_addr f bytes → is_Some (inet_ntop f bytes);
  ntop_pton f bytes s : is_family f → is_addr f bytes →
    inet_ntop f bytes = Some s → inet_pton f s = Some bytes;
  ntop_v4_text bytes s : is_addr AF_INET bytes → inet_ntop AF_INET bytes = Some s →
    s ≠ EmptyString ∧ all_chars is_v4_char s = true ∧ has_zero_led s = false;
  ntop_v6_text bytes s : is_addr AF_INET6 bytes → inet_ntop AF_INET6 bytes = Some s →
    all_chars is_v6_char s = true ∧ has_char ":" s = true ∧ has_zero_led s = false;
}.

(** ** The parser *)

Inductive IpCidrError := ip_leading_zeros | ip_invalid_address | ip_invalid_prefix.
Inductive EntryType := EtIp | EtCidr | EtDomain.

Definition is_trim_char (c : ascii) : bool := (code c =? 32) || (code c =? 9) || (code c =? 13).

Definition trim (sv : string) : string := trim_by is_trim_char sv.

(** The byte loop that clears the host bits. *)
Definition mask_byte (prefix : Z) (i : nat) (b : Z) : Z :=
  let first_bit := Z.of_nat i * 8 in
  if prefix <=? first_bit then 0
  else if prefix <? first_bit + 8
       then Z.land b (Z.land (Z.shiftl 255 (8 - (prefix - first_bit))) 255)
       else b.

Definition mask_address (prefix : Z) (bytes : list Z) : list Z := imap (mask_byte prefix) bytes.

Definition max_prefix (family : Z) : Z := if family =? AF_INET then 32 else 128.

Section Parser.
Context `{I : Inet}.

(** What a valid entry denotes: family, prefix length and network address. *)
Record Network := { nw_family : Z; nw_prefix : Z; nw_bytes : list Z }.

(** The first half of [normalize_ip_or_cidr], up to the cleared host bits. *)
Definition parse_network (entry : string) : result IpCidrError Network :=
  let entry := trim entry in
  if empty_str entry || has_char "000" entry then Throw ip_invalid_address
  else
    let '(host, suffix) :=
      match break_at "/" entry with
      | Some (host, suffix) => (host, Some suffix)
      | None => (entry, None)
      end in
    let family := if has_char ":" host then AF_INET6 else AF_INET in
    if (family =? AF_INET) && negb (all_chars is_v4_char host) then Throw ip_invalid_address
    else if has_zero_led host then Throw ip_leading_zeros
    else match inet_pton family host with
         | None => Throw ip_invalid_address
         | Some address =>
             match (match suffix with
                    | None => Some (max_prefix family)
                    | Some s =>
                        match from_chars_uint u32_max s with
                        | Some p => if max_prefix family <? p then None else Some p
                        | None => None
                        end
                    end) with
             | None => Throw ip_invalid_prefix
             | Some prefix =>
                 Ok {| nw_family := family; nw_prefix := prefix;
                       nw_bytes := mask_address prefix address |}
             end
         end.

Definition network_text (n : Network) : result IpCidrError string :=
  match inet_ntop (nw_family n) (nw_bytes n) with
  | None => Throw ip_invalid_address
  | Some text =>
      Ok (if nw_prefix n =? max_prefix (nw_family n) then text
          else text +:+ "/" +:+ to_string (nw_prefix n))
  end.

Definition normalize_ip_or_cidr (entry : string) : result IpCidrError string :=
  let! n := parse_network entry in network_text n.

(** [normalize_domain]: the label loop, with [has_alpha]. *)
Definition is_alpha (c : ascii) : bool := is_lower c || is_upper c.
Definition is_label_char (c : ascii) : bool :=
  is_alpha c || is_digit c || Ascii.eqb c "-" || Ascii.eqb c "_".

Definition valid_label (label : string) : bool :=
  negb (empty_str label) && (String.length label <=? 63)%nat
  && negb (match first_char label with Some c => Ascii.eqb c "-" | None => false end)
  && negb (match last_char label with Some c => Ascii.eqb c "-" | None => false end)
  && all_chars is_label_char label.

Definition strip_wildcard (s : string) : string :=
  match s with
  | String c1 (String c2 rest) => if Ascii.eqb c1 "*" && Ascii.eqb c2 "." then rest else s
  | _ => s
  end.

Fixpoint remove_last (s : string) : string :=
  match s with
  | EmptyString => EmptyString
  | String c EmptyString => EmptyString
  | String c s => String c (remove_last s)
  end.

Definition ends_with_dot (s : string) : bool :=
  match last_char s with Some c => Ascii.eqb c "." | None => false end.

Definition strip_root_dot (s : string) : string := if ends_with_dot s then remove_last s else s.

Definition normalize_domain (s : string) : option string :=
  if empty_str s then None
  else
    let s := strip_root_dot (strip_wildcard s) in
    if empty_str s || ends_with_dot s || (253 <? Z.of_nat (String.length s)) then None
    else if negb (forallb valid_label (split_on "." s)) then None
    else if negb (any_char is_alpha s) then None
    else Some s.

(** [classify_entry]: the entry handed to the visitor. *)
Definition classify_entry (entry : string) : option (EntryType * string) :=
  match normalize_ip_or_cidr entry with
  | Ok normalized => Some (if has_char "/" normalized then EtCidr else EtIp, normalized)
  | Throw _ =>
      match normalize_domain entry with
      | Some domain => Some (EtDomain, domain)
      | None => None
      end
  end.
End Parser.
Arguments parse_network {I} _. Arguments normalize_ip_or_cidr {I} _. Arguments classify_entry {I} _.

(** ** Log lines for rejected entries *)

Definition escape_char (c : ascii) : string :=
  let ch := code c in
  if ch =? 92 then "\\"
  else if ch =? 39 then String "\" (String "'" EmptyString)
  else if ch =? 10 then "\n"
  else if ch =? 13 then "\r"
  else if ch =? 9 then "\t"
  else if (ch <? 32) || (ch =? 127)
       then String "\" (String "x" (String (hex_digit (Z.shiftr ch 4))
              (String (hex_digit (Z.land ch 15)) EmptyString)))
       else String c EmptyString.

Fixpoint escape_upto (n : nat) (entry : string) : string :=
  match n, entry with
  | S n, String c entry => escape_char c +:+ escape_upto n entry
  | _, _ => EmptyString
  end.

Definition kMaxLoggedBytes : nat := 256.

Definition format_entry_for_log (entry : string) : string :=
  String "'" (escape_upto kMaxLoggedBytes entry
    +:+ (if (kMaxLoggedBytes <? String.length entry)%nat then "..." else EmptyString)
    +:+ "'").

(** [Logger::warn] calls of [parse_line]. *)
Inductive Warning :=
| WarnTooMany (source : string)
| WarnSkipping (entry source : string) (line_number : Z).

(** [ParseContext] *)
Record ParseContext := { pc_log_invalid_entries : bool; pc_invalid_entry_count : Z }.

Definition ParseContext_default : ParseContext :=
  {| pc_log_invalid_entries := true; pc_invalid_entry_count := 0 |}.

Definition kMaxDetailedInvalidEntries : Z := 5.

Section Stream.
Context `{I : Inet}.

(** [parse_line] with a context: the entry for the visitor, the warning, the
    context. *)
Definition parse_line (line source_name : string) (line_number : Z) (context : ParseContext)
    : option (EntryType * string) * option Warning * ParseContext :=
  let value := trim line in
  let source := if empty_str source_name then "list source"%string else source_name in
  match value with
  | EmptyString => (None, None, context)
  | String c _ =>
      if Ascii.eqb c "#" then (None, None, context)
      else match classify_entry value with
           | Some e => (Some e, None, context)
           | None =>
               if negb (pc_log_invalid_entries context) then (None, None, context)
               else
                 let count := pc_invalid_entry_count context + 1 in
                 let context := {| pc_log_invalid_entries := pc_log_invalid_entries context;
                                   pc_invalid_entry_count := count |} in
                 if kMaxDetailedInvalidEntries + 1 <? count then (None, None, context)
                 else if count =? kMaxDetailedInvalidEntries + 1
                      then (None, Some (WarnTooMany source), context)
                      else (None, Some (WarnSkipping (format_entry_for_log value) source line_number),
                            context)
           end
  end.

(** [stream_parse] over the lines of the input. *)
Fixpoint stream_lines (lines : list string) (source_name : string) (line_number : Z)
    (context : ParseContext) : list (EntryType * string) * list Warning :=
  match lines with
  | [] => ([], [])
  | line :: lines =>
      let line_number := line_number + 1 in
      let '(e, w, context) := parse_line line source_name line_number context in
      let '(es, ws) := stream_lines lines source_name line_number context in
      (option_list e ++ es, option_list w ++ ws)
  end.

Definition stream_parse (input source_name : string) : list (EntryType * string) * list Warning :=
  stream_lines (getline_tokens "010" input) source_name 0 ParseContext_default.
End Stream.

(** ** Logging is safe *)

(** No control character and no delete. *)
Definition is_printable (c : ascii) : bool := (32 <=? code c) && negb (code c =? 127).

Lemma escape_char_ok c :
  all_chars is_printable (escape_char c) = true ∧ (String.length (escape_char c) ≤ 4)%nat.
Proof.
  destruct c as [[] [] [] [] [] [] [] []]; vm_compute; split; (reflexivity || lia).
Qed.

Lemma length_append s t : String.length (s +:+ t) = (String.length s + String.length t)%nat.
Proof. induction s; simpl; auto. Qed.

Lemma escape_upto_ok n s :
  all_chars is_printable (escape_upto n s) = true
  ∧ (String.length (escape_upto n s) ≤ 4 * n)%nat.
Proof.
  revert s. induction n as [|n IH]; intros [|c s]; cbn [escape_upto]; try (split; [done|simpl; lia]).
  destruct (escape_char_ok c) as [H1 H2], (IH s) as [H3 H4].
  rewrite all_chars_app, H1, H3, length_append. split; [done|lia].
Qed.

(** ** Streaming *)

Section StreamFacts.
Context `{I : Inet}.

(** The entry a line stands for. *)
Definition line_entry (line : string) : option (EntryType * string) :=
  match trim line with
  | EmptyString => None
  | String c _ => if Ascii.eqb c "#" then None else classify_entry (trim line)
  end.

Lemma parse_line_spec line src n ctx :
  let '(e, w, ctx') := parse_line line src n ctx in
  e = line_entry line
  ∧ (w = None ∧ pc_invalid_entry_count ctx ≤ pc_invalid_entry_count ctx'
     ∨ is_Some w ∧ pc_invalid_entry_count ctx' = pc_invalid_entry_count ctx + 1
       ∧ pc_invalid_entry_count ctx ≤ kMaxDetailedInvalidEntries).
Proof.
  unfold parse_line, line_entry. cbv zeta.
  destruct (trim line) as [|c v]; [split; [done|left; split; [done|lia]]|].
  destruct (Ascii.eqb c "#"); [split; [done|left; split; [done|lia]]|].
  destruct (classify_entry _) as [e|]; [split; [done|left; split; [done|lia]]|].
  destruct (pc_log_invalid_entries ctx); simpl; [|split; [done|left; split; [done|lia]]].
  unfold kMaxDetailedInvalidEntries.
  destruct (Z.ltb_spec (5 + 1) (pc_invalid_entry_count ctx + 1)); simpl; [split; [done|left; split; [done|lia]]|].
  destruct (Z.eqb_spec (pc_invalid_entry_count ctx + 1) (5 + 1)); simpl;
    split; try done; right; split_and!; eauto; lia.
Qed.

Lemma stream_lines_spec lines src n ctx :
  let '(es, ws) := stream_lines lines src n ctx in
  es = omap line_entry lines
  ∧ Z.of_nat (length ws) ≤ Z.max 0 (kMaxDetailedInvalidEntries + 1 - pc_invalid_entry_count ctx).
Proof.
  revert n ctx. induction lines as [|line lines IH]; intros n ctx; simpl; [split; [done|lia]|].
  pose proof (parse_line_spec line src (n + 1) ctx) as Hp.
  destruct (parse_line line src (n + 1) ctx) as [[e w] ctx'].
  specialize (IH (n + 1) ctx'). destruct (stream_lines lines src (n + 1) ctx') as [es ws].
  destruct Hp as [-> Hw], IH as [-> Hl]. split; [by destruct (line_entry line)|].
  rewrite length_app. destruct Hw as [[-> ?]|([w' ->] & ? & ?)]; simpl;
    unfold kMaxDetailedInvalidEntries in *; lia.
Qed.
End StreamFacts.

(** ** Canonical networks *)

Lemma drop_while_id p s : all_chars (λ c, negb (p c)) s = true → drop_while p s = s.
Proof. destruct s as [|c s]; simpl; [done|]. by destruct (p c). Qed.

Lemma drop_while_end_id p s : all_chars (λ c, negb (p c)) s = true → drop_while_end p s = s.
Proof.
  induction s as [|c s IH]; simpl; [done|]. intros [Hc Hs]%andb_true_iff.
  rewrite IH by done. destruct s; [|done]. by destruct (p c).
Qed.

Lemma trim_by_id p s : all_chars (λ c, negb (p c)) s = true → trim_by p s = s.
Proof. intros H. unfold trim_by. rewrite drop_while_id by done. by apply drop_while_end_id. Qed.

Definition is_network (n : Network) : Prop :=
  is_family (nw_family n) ∧ is_addr (nw_family n) (nw_bytes n)
  ∧ 0 ≤ nw_prefix n ≤ max_prefix (nw_family n)
  ∧ mask_address (nw_prefix n) (nw_bytes n) = nw_bytes n.

Lemma mask_byte_all :
  forallb (λ k, forallb (λ b,
    let m := Z.land (Z.shiftl 255 (8 - k)) 255 in let v := Z.land b m in
    (0 <=? v) && (v <? 256) && (Z.land v m =? v)) byte_values) [1; 2; 3; 4; 5; 6; 7] = true.
Proof. vm_compute. reflexivity. Qed.

Lemma mask_byte_ok p i b :
  is_byte b → is_byte (mask_byte p i b) ∧ mask_byte p i (mask_byte p i b) = mask_byte p i b.
Proof.
  intros Hb. unfold mask_byte. cbv zeta.
  destruct (Z.leb_spec p (Z.of_nat i * 8)); [unfold is_byte; split; [lia|done]|].
  destruct (Z.ltb_spec p (Z.of_nat i * 8 + 8)); [|done].
  set (k := p - Z.of_nat i * 8).
  assert (In k [1; 2; 3; 4; 5; 6; 7]) as Hk by (simpl; lia).
  pose proof (proj1 (forallb_forall _ _) mask_byte_all k Hk) as H1. cbv beta in H1.
  pose proof (proj1 (forallb_forall _ _) H1 b (elem_of_byte_values b Hb)) as H2.
  cbv beta zeta in H2. bool_to_prop. unfold is_byte. split; lia.
Qed.

Lemma mask_address_ok p f bytes :
  is_addr f bytes →
  is_addr f (mask_address p bytes) ∧ mask_address p (mask_address p bytes) = mask_address p bytes.
Proof.
  intros [Hl Hb]. unfold mask_address. split.
  - split; [by rewrite length_imap|]. apply Forall_lookup. intros i x.
    rewrite list_lookup_imap. destruct (bytes !! i) as [b|] eqn:E; [|done].
    intros [= <-]. apply mask_byte_ok. by eapply Forall_lookup_1 in E.
  - apply list_eq. intros i. rewrite !list_lookup_imap.
    destruct (bytes !! i) as [b|] eqn:E; [|done]. simpl. f_equal. apply mask_byte_ok.
    by eapply Forall_lookup_1 in E.
Qed.

Lemma max_prefix_range f : 0 ≤ max_prefix f ≤ 128.
Proof. unfold max_prefix. destruct (_ =? _); lia. Qed.

Section Canonical.
Context `{L : InetLaws}.

Lemma parse_network_ok entry n : parse_network entry = Ok n → is_network n.
Proof.
  unfold parse_network. destruct (_ || _); [done|].
  destruct (match break_at "/" (trim entry) with Some _ => _ | None => _ end) as [host suffix].
  set (f := if has_char ":" host then AF_INET6 else AF_INET).
  assert (is_family f) as Hf by (unfold f, is_family; destruct (has_char _ _); auto).
  cbv zeta. destruct (_ && _); [done|]. destruct (has_zero_led host); [done|].
  destruct (inet_pton f host) as [bytes|] eqn:Ep; [|done].
  destruct (match suffix with None => _ | Some _ => _ end) as [pre|] eqn:Es; [|done].
  intros [= <-]. apply pton_addr in Ep; [|done].
  destruct (mask_address_ok pre f bytes Ep) as [Ha Hm].
  unfold is_network; simpl. split_and!; try done.
  - destruct suffix as [sfx|]; [|injection Es as <-; pose proof (max_prefix_range f); lia].
    destruct (from_chars_uint u32_max sfx) as [q|] eqn:Eq; [|done].
    destruct (max_prefix f <? q); [done|]. injection Es as <-.
    by apply from_chars_uint_nonneg in Eq as [? _].
  - destruct suffix as [sfx|]; [|injection Es as <-; lia].
    destruct (from_chars_uint u32_max sfx) as [q|] eqn:Eq; [|done].
    destruct (Z.ltb_spec (max_prefix f) q); [done|]. by injection Es as <-.
Qed.

(** Characters a canonical text consists of. *)
Definition is_text_char (c : ascii) : bool := is_v6_char c || Ascii.eqb c "/".

Lemma text_char_plain c :
  is_text_char c = true → is_trim_char c = false ∧ Ascii.eqb "000" c = false.
Proof. destruct c as [[] [] [] [] [] [] [] []]; vm_compute; done. Qed.

Lemma v6_char_no_slash c : is_v6_char c = true → Ascii.eqb "/" c = false.
Proof. destruct c as [[] [] [] [] [] [] [] []]; vm_compute; done. Qed.

Lemma v4_char_v6 c : is_v4_char c = true → is_v6_char c = true ∧ Ascii.eqb ":" c = false.
Proof. destruct c as [[] [] [] [] [] [] [] []]; vm_compute; done. Qed.

Lemma digit_v6 c : is_digit c = true → is_v6_char c = true.
Proof. destruct c as [[] [] [] [] [] [] [] []]; vm_compute; done. Qed.

Lemma all_chars_has_not p c s :
  (∀ d, p d = true → Ascii.eqb c d = false) → all_chars p s = true → has_char c s = false.
Proof.
  intros H Hs. apply any_char_false. eapply all_chars_impl; [|exact Hs].
  intros d Hd. by rewrite H.
Qed.

(** The facts about the text of an address both families share. *)
Lemma ntop_text f bytes text :
  is_family f → is_addr f bytes → inet_ntop f bytes = Some text →
  text ≠ EmptyString ∧ all_chars is_v6_char text = true ∧ has_zero_led text = false
  ∧ (if has_char ":" text then AF_INET6 else AF_INET) = f
  ∧ (f = AF_INET → all_chars is_v4_char text = true).
Proof.
  intros [->| ->] Ha Ht.
  - destruct (ntop_v4_text _ _ Ha Ht) as (Hne & Hc & Hz). split_and!; try done.
    + eapply all_chars_impl; [|exact Hc]. intros c ?. by apply v4_char_v6.
    + by rewrite (all_chars_has_not is_v4_char) by (done || (intros d ?; by apply v4_char_v6)).
  - destruct (ntop_v6_text _ _ Ha Ht) as (Hc & Hcol & Hz). split_and!; try done.
    + by destruct text.
    + by rewrite Hcol.
Qed.

Lemma parse_network_text n text :
  is_network n → network_text n = Ok text → parse_network text = Ok n.
Proof.
  intros (Hf & Ha & Hp & Hm). unfold network_text.
  destruct (inet_ntop (nw_family n) (nw_bytes n)) as [host|] eqn:Et; [|done]. intros [= <-].
  destruct (ntop_text _ _ _ Hf Ha Et) as (Hne & Hc & Hz & Hfam & H4).
  pose proof (ntop_pton _ _ _ Hf Ha Et) as Hpt.
  pose proof (max_prefix_range (nw_family n)) as Hmax.
  set (text := if _ =? _ then host else _).
  assert (all_chars is_text_char text = true) as Htc.
  { assert (all_chars is_text_char host = true) as Hh.
    { eapply all_chars_impl; [|exact Hc]. intros c Hcc. unfold is_text_char. by rewrite Hcc. }
    unfold text. destruct (_ =? _); [done|]. rewrite all_chars_app, Hh. simpl.
    eapply all_chars_impl; [|apply to_string_digits; lia].
    intros c Hd. unfold is_text_char. by rewrite digit_v6. }
  assert (has_char "/" host = false) as Hsl.
  { eapply all_chars_has_not; [|exact Hc]. apply v6_char_no_slash. }
  unfold parse_network. unfold trim.
  rewrite trim_by_id.
  2: { eapply all_chars_impl; [|exact Htc]. intros c Hx. by destruct (text_char_plain c Hx) as [-> _]. }
  assert (empty_str text = false) as ->.
  { apply empty_str_false. unfold text. destruct (_ =? _); [done|]. by apply append_nonempty. }
  rewrite (all_chars_has_not is_text_char "000" text)
    by (done || (intros d ?; by apply text_char_plain)).
  cbn [orb].
  assert (match break_at "/" text with Some (h, sfx) => (h, Some sfx) | None => (text, None) end
    = (host, if nw_prefix n =? max_prefix (nw_family n) then None else Some (to_string (nw_prefix n))))
    as ->.
  { unfold text. destruct (_ =? _).
    - by rewrite (proj2 (break_at_none "/" host) Hsl).
    - change (host +:+ "/" +:+ to_string (nw_prefix n))
        with (host +:+ String "/" (to_string (nw_prefix n))). by rewrite break_at_app. }
  cbv zeta. rewrite Hfam.
  assert ((nw_family n =? AF_INET) && negb (all_chars is_v4_char host) = false) as ->.
  { destruct (Z.eqb_spec (nw_family n) AF_INET) as [E|]; [|done]. by rewrite H4. }
  rewrite Hz, Hpt.
  destruct (Z.eqb_spec (nw_prefix n) (max_prefix (nw_family n))) as [E|E].
  - rewrite <- E, Hm. by destruct n.
  - rewrite from_chars_to_string by (unfold u32_max; lia).
    rewrite (proj2 (Z.ltb_ge _ _)) by lia. rewrite Hm. by destruct n.
Qed.

Lemma network_text_total n : is_network n → ∃ text, network_text n = Ok text.
Proof.
  intros (Hf & Ha & _). unfold network_text.
  destruct (ntop_total _ _ Hf Ha) as [t ->]. eauto.
Qed.
End Canonical.
