(* ===== verification/InetModel.v ===== *)
(** * An address library that satisfies the laws

    An instance of the interface [Inet] built on the parsers of IpSet.v and plain
    printers (no zero compression), with a proof of its laws: the hypotheses the
    list parser makes about [inet_pton] and [inet_ntop] can hold. *)

From Stdlib Require Import ZArith Lia Ascii String.
From stdpp Require Import base strings list.
From S2P Require Import Prelude IpSet ListParser.
Open Scope Z_scope.

Fixpoint bytes_groups (bytes : list Z) : list Z :=
  match bytes with
  | a :: b :: rest => (a * 256 + b) :: bytes_groups rest
  | _ => []
  end.

Definition v4_text (a b c d : Z) : string :=
  to_string a +:+ String "." (to_string b +:+ String "." (to_string c +:+ String "." (to_string d))).

Definition model_pton (f : Z) (s : string) : option (list Z) :=
  if f =? AF_INET then parse_ipv4 s else parse_ipv6 s.

Definition model_ntop (f : Z) (bytes : list Z) : option string :=
  if f =? AF_INET then
    match bytes with [a; b; c; d] => Some (v4_text a b c d) | _ => None end
  else
    match bytes_groups bytes with
    | g :: gs => Some (to_hex g +:+ colon_groups gs)
    | [] => None
    end.

#[export] Instance ModelInet : Inet := {| inet_pton := model_pton; inet_ntop := model_ntop |}.

(** ** Results of the parsers are addresses *)

Lemma is_octet_byte d v : is_octet d v → is_byte v.
Proof.
  intros (_ & Hd & <- & Hv). pose proof (dec_value_lower d 0 ltac:(lia) Hd). unfold is_byte. lia.
Qed.

Lemma parse_ipv4_addr s bytes : parse_ipv4 s = Some bytes → is_addr AF_INET bytes.
Proof.
  intros (Hl & ds & _ & Hf)%parse_ipv4_spec. split; [done|].
  apply Forall_lookup. intros i v Hi. destruct (Forall2_lookup_r _ _ _ _ _ Hf Hi) as (d & _ & Ho).
  by eapply is_octet_byte.
Qed.

Lemma group_bytes_ok g : length (group_bytes g) = 2%nat ∧ Forall is_byte (group_bytes g).
Proof.
  split; [done|]. assert (∀ z, is_byte (Z.land z 255)) as H.
  { intros z. rewrite land_255. apply Z.mod_pos_bound. lia. }
  apply List.Forall_cons; [apply H|]. apply List.Forall_cons; [apply H|]. apply List.Forall_nil.
Qed.

Lemma groups_bytes_ok gs :
  length (concat (group_bytes <$> gs)) = (2 * length gs)%nat
  ∧ Forall is_byte (concat (group_bytes <$> gs)).
Proof.
  induction gs as [|g gs [IH1 IH2]]; [by split; [|apply List.Forall_nil]|].
  destruct (group_bytes_ok g) as [H1 H2]. split.
  - change (concat (group_bytes <$> g :: gs)) with (group_bytes g ++ concat (group_bytes <$> gs)).
    rewrite length_app, IH1, H1. cbn [length]. lia.
  - change (concat (group_bytes <$> g :: gs)) with (group_bytes g ++ concat (group_bytes <$> gs)).
    by apply Forall_app.
Qed.

Lemma expand_groups_addr groups dcp bytes :
  expand_groups groups dcp = Some bytes → is_addr AF_INET6 bytes.
Proof.
  unfold expand_groups. destruct dcp as [k|].
  - destruct (Z.ltb_spec 8 (Z.of_nat (length groups))); [done|].
    intros Hb0. assert (bytes = concat (group_bytes <$> take k groups
      ++ replicate (8 - length groups) 0 ++ drop k groups)) as -> by congruence.
    destruct (groups_bytes_ok (take k groups ++ replicate (8 - length groups) 0 ++ drop k groups))
      as [Hl Hb]. split; [|done]. rewrite Hl, !length_app, length_take, length_replicate, length_drop.
    change (addr_len AF_INET6) with 16%nat. lia.
  - destruct (Nat.eqb_spec (length groups) 8) as [E|]; [|done].
    intros H. assert (bytes = concat (group_bytes <$> groups)) as -> by congruence.
    destruct (groups_bytes_ok groups) as [Hl Hb]. split; [|done]. by rewrite Hl, E.
Qed.

Lemma parse_ipv6_groups_addr s bytes : parse_ipv6_groups s = Some bytes → is_addr AF_INET6 bytes.
Proof.
  assert (∀ r groups dcp, match parse_groups (String.length s) r groups dcp with
    | Some (g, d) => expand_groups g d | None => None end = Some bytes → is_addr AF_INET6 bytes) as Hp.
  { intros r groups dcp. destruct (parse_groups _ _ _ _) as [[g d]|]; [|done].
    apply expand_groups_addr. }
  unfold parse_ipv6_groups. destruct s as [|c1 [|c2 rest]]; [apply Hp..|].
  destruct (_ && _); [|apply Hp]. destruct rest; [|apply Hp].
  intros H. assert (bytes = replicate 16 0) as -> by congruence.
  split; [done|]. apply Forall_replicate. unfold is_byte. lia.
Qed.

Lemma parse_ipv6_at_addr fuel s bytes : parse_ipv6_at fuel s = Some bytes → is_addr AF_INET6 bytes.
Proof.
  revert s. induction fuel as [|fuel IH]; intros s; cbn [parse_ipv6_at]; [done|].
  destruct (break_last ":" s) as [[pre tail]|]; [|apply parse_ipv6_groups_addr].
  destruct (_ && _); [|apply parse_ipv6_groups_addr].
  destruct (parse_ipv4 tail) as [[|a [|b [|c [|d [|]]]]]|]; try done. apply IH.
Qed.

(** ** Printed addresses *)

Lemma bytes_groups_spec n bytes :
  length bytes = (2 * n)%nat → Forall is_byte bytes →
  length (bytes_groups bytes) = n ∧ Forall is_u16 (bytes_groups bytes)
  ∧ concat (group_bytes <$> bytes_groups bytes) = bytes.
Proof.
  revert bytes. induction n as [|n IH]; intros [|a [|b bytes]] Hl Hf; cbn [length] in Hl; try lia.
  { split_and!; done. }
  apply Forall_cons in Hf as [Ha Hf], Hf as [Hb Hf].
  destruct (IH bytes ltac:(lia) Hf) as (H1 & H2 & H3). cbn [bytes_groups length].
  split; [lia|]. destruct (quad_group a b Ha Hb) as [Hu Hg].
  assert (Z.lor (Z.shiftl a 8) b = a * 256 + b) as E.
  { unfold is_byte in *. rewrite Z.shiftl_mul_pow2 by lia. by rewrite lor_disjoint by lia. }
  rewrite E in Hu, Hg. split; [by apply List.Forall_cons|].
  change (concat (group_bytes <$> (a * 256 + b) :: bytes_groups bytes))
    with (group_bytes (a * 256 + b) ++ concat (group_bytes <$> bytes_groups bytes)).
  by rewrite Hg, H3.
Qed.

Lemma to_string_octet a : is_byte a → is_octet (to_string a) a.
Proof.
  unfold is_byte, is_octet. intros Ha. split_and!;
    [apply to_string_nonempty | apply to_string_digits; lia | apply to_string_value; lia | lia].
Qed.

Lemma v4_text_dotted a b c d :
  v4_text a b c d = dotted true [to_string a; to_string b; to_string c; to_string d] EmptyString.
Proof. unfold v4_text. cbn [dotted String.append]. by rewrite append_nil_r. Qed.

Lemma parse_v4_text a b c d :
  is_byte a → is_byte b → is_byte c → is_byte d →
  parse_ipv4 (v4_text a b c d) = Some [a; b; c; d].
Proof.
  intros. apply parse_ipv4_spec. split; [done|]. eexists. split; [apply v4_text_dotted|].
  repeat apply Forall2_cons_2; try apply Forall2_nil_2; by apply to_string_octet.
Qed.

Lemma no_zero_led_all : forallb (λ b, negb (zero_led (to_string b))) byte_values = true.
Proof. vm_compute. reflexivity. Qed.

Lemma no_zero_led b : is_byte b → zero_led (to_string b) = false.
Proof.
  intros Hb. apply negb_true_iff.
  exact (proj1 (forallb_forall _ _) no_zero_led_all b (elem_of_byte_values b Hb)).
Qed.

Lemma byte_text_chars b : is_byte b → all_chars is_digit (to_string b) = true.
Proof. unfold is_byte. intros. apply to_string_digits. lia. Qed.

Lemma v4_text_ok a b c d :
  is_byte a → is_byte b → is_byte c → is_byte d →
  v4_text a b c d ≠ EmptyString ∧ all_chars is_v4_char (v4_text a b c d) = true
  ∧ has_zero_led (v4_text a b c d) = false.
Proof.
  intros Ha Hb Hc Hd.
  assert (∀ x, is_byte x → all_chars is_v4_char (to_string x) = true) as Hv.
  { intros x Hx. eapply all_chars_impl; [|by apply byte_text_chars].
    intros ch Hch. unfold is_v4_char. by rewrite Hch. }
  assert (∀ x ch, is_byte x → is_digit ch = false → has_char ch (to_string x) = false) as Hn.
  { intros x ch Hx Hch. apply has_char_digits; [done|]. by apply byte_text_chars. }
  split; [apply append_nonempty, to_string_nonempty|]. split.
  { unfold v4_text. rewrite !all_chars_app. cbn [all_chars]. rewrite !all_chars_app.
    cbn [all_chars]. rewrite !all_chars_app. cbn [all_chars]. by rewrite !Hv. }
  unfold has_zero_led, dotted_tail. rewrite break_last_none.
  - unfold v4_text. rewrite !split_on_app, split_on_no_sep by (by apply Hn). cbn [existsb].
    rewrite !no_zero_led by done. apply andb_false_r.
  - rewrite v4_text_dotted. apply dotted_no_colon with [a; b; c; d].
    repeat apply Forall2_cons_2; try apply Forall2_nil_2; by apply to_string_octet.
Qed.

Lemma hex_chars g : is_u16 g → all_chars is_v6_char (to_hex g) = true.
Proof.
  intros Hg. pose proof (hex16_ok g Hg) as H. unfold hex16_check in H. bool_to_prop.
  apply (all_chars_impl is_xdigit); [|done]. intros c Hc. unfold is_v6_char. by rewrite Hc.
Qed.

Lemma all_chars_colons gs : Forall is_u16 gs → all_chars is_v6_char (colon_groups gs) = true.
Proof.
  induction 1 as [|g gs Hg _ IH]; [done|]. cbn [colon_groups].
  by rewrite !all_chars_app, IH, hex_chars.
Qed.

Lemma v6_text_ok g g2 gs :
  is_u16 g → Forall is_u16 (g2 :: gs) →
  let s := to_hex g +:+ colon_groups (g2 :: gs) in
  all_chars is_v6_char s = true ∧ has_char ":" s = true ∧ has_zero_led s = false.
Proof.
  intros Hg Hgs s. unfold s. split_and!.
  - by rewrite all_chars_app, all_chars_colons, hex_chars.
  - rewrite has_char_app. cbn [colon_groups]. rewrite !has_char_app. simpl. apply orb_true_r.
  - unfold has_zero_led. by rewrite has_char_app, to_hex_has_no, colon_groups_no_dot.
Qed.

Lemma model_ntop_v6 bytes s :
  is_addr AF_INET6 bytes → model_ntop AF_INET6 bytes = Some s →
  ∃ g g2 gs, s = to_hex g +:+ colon_groups (g2 :: gs) ∧ is_u16 g ∧ Forall is_u16 (g2 :: gs)
    ∧ length (g2 :: gs) = 7%nat ∧ concat (group_bytes <$> g :: g2 :: gs) = bytes.
Proof.
  intros [Hl Hb]. unfold model_ntop. change (AF_INET6 =? AF_INET) with false. cbv iota.
  destruct (bytes_groups_spec 8 bytes Hl Hb) as (H1 & H2 & H3).
  destruct (bytes_groups bytes) as [|g [|g2 gs]]; try done. intros [= <-].
  apply Forall_cons in H2 as [? ?]. exists g, g2, gs. split_and!; try done. cbn [length] in *. lia.
Qed.

#[export] Instance ModelInetLaws : InetLaws ModelInet.
Proof.
  split.
  - intros f s bytes [->| ->] H; [by apply parse_ipv4_addr in H|].
    by apply parse_ipv6_at_addr in H.
  - intros f bytes [->| ->] [Hl Hb]; simpl; unfold model_ntop; simpl.
    + destruct bytes as [|? [|? [|? [|? [|]]]]]; try done; eauto.
    + destruct (bytes_groups_spec 8 bytes Hl Hb) as (H1 & _ & _).
      destruct (bytes_groups bytes); [done|eauto].
  - intros f bytes s [->| ->] Ha H.
    + destruct Ha as [Hl Hb]. destruct bytes as [|a [|b [|c [|d [|]]]]]; try done.
      rewrite !Forall_cons in Hb. destruct Hb as (Ha & Hb & Hc & Hd & _).
      injection H as <-. by apply parse_v4_text.
    + destruct (model_ntop_v6 _ _ Ha H) as (g & g2 & gs & -> & Hg & Hgs & Hl & <-).
      by apply parse_canonical.
  - intros bytes s [Hl Hb] H. destruct bytes as [|a [|b [|c [|d [|]]]]]; try done.
    rewrite !Forall_cons in Hb. destruct Hb as (Ha & Hb & Hc & Hd & _).
    injection H as <-. by apply v4_text_ok.
  - intros bytes s Ha H. destruct (model_ntop_v6 _ _ Ha H) as (g & g2 & gs & -> & Hg & Hgs & _ & _).
    by apply v6_text_ok.
Qed.
