(* ===== verification/ListClaims.v ===== *)
(** * Guarantees of the list parser

    Canonical form of address and domain entries, and what a parsed stream hands
    to the visitor and to the log (src/src/config/list_parser.cpp). *)

From Stdlib Require Import ZArith Lia Ascii String.
From stdpp Require Import base strings list.
From S2P Require Import Prelude IpSet ListParser InetModel.
Open Scope Z_scope.

Section Domains.

Lemma split_on_chars p c s :
  forallb (all_chars p) (split_on c s) = true → all_chars (λ x, p x || Ascii.eqb c x) s = true.
Proof.
  induction s as [|d s IH]; [done|]. cbn [split_on all_chars].
  destruct (Ascii.eqb c d) eqn:E.
  - cbn [forallb all_chars andb]. intros H. rewrite orb_true_r. by apply IH.
  - destruct (split_on_cons c s) as (t & ts & Es). rewrite Es in IH |- *.
    cbn [forallb all_chars]. intros [[Hd Ht]%andb_true_iff Hts]%andb_true_iff.
    rewrite Hd. apply IH. cbn [forallb]. by rewrite Ht, Hts.
Qed.

Lemma valid_labels_chars s :
  forallb valid_label (split_on "." s) = true →
  all_chars (λ x, is_label_char x || Ascii.eqb "." x) s = true.
Proof.
  intros H. apply split_on_chars. apply forallb_forall. intros l Hl.
  pose proof (proj1 (forallb_forall _ _) H l Hl) as Hv. unfold valid_label in Hv. by bool_to_prop.
Qed.

Lemma strip_wildcard_label s :
  all_chars (λ x, is_label_char x || Ascii.eqb "." x) s = true → strip_wildcard s = s.
Proof.
  destruct s as [|c1 [|c2 rest]]; try done. cbn [all_chars strip_wildcard].
  intros [Hc _]%andb_true_iff. destruct (Ascii.eqb_spec c1 "*") as [->|]; [|done].
  vm_compute in Hc. discriminate.
Qed.
End Domains.

(** ** Properties *)

(** Canonical addresses: a normalised entry denotes the same network as the
    entry it came from (host bits cleared, full-length prefixes dropped),
    normalising it again changes nothing, and two accepted entries have the same
    text exactly when they denote the same network. *)
Theorem normalize_ip_canonical (I : Inet) (L : InetLaws I) e1 t1 :
  normalize_ip_or_cidr e1 = Ok t1 →
  normalize_ip_or_cidr t1 = Ok t1 ∧ parse_network t1 = parse_network e1
  ∧ ∀ e2 t2, normalize_ip_or_cidr e2 = Ok t2 → (t1 = t2 ↔ parse_network e1 = parse_network e2).
Proof.
  assert (∀ e t, normalize_ip_or_cidr e = Ok t →
    ∃ n, parse_network e = Ok n ∧ network_text n = Ok t ∧ parse_network t = Ok n) as Hn.
  { intros e t (n & Hp & Ht)%rbind_ok. exists n. split_and!; [done|done|].
    by eapply parse_network_text; [eapply parse_network_ok|]. }
  intros (n1 & Hp1 & Ht1 & Hr1)%Hn. split; [|split].
  - unfold normalize_ip_or_cidr. by rewrite Hr1.
  - by rewrite Hr1, Hp1.
  - intros e2 t2 (n2 & Hp2 & Ht2 & Hr2)%Hn. rewrite Hp1, Hp2. split; congruence.
Qed.

Lemma normalize_ip_canonical_witness :
  normalize_ip_or_cidr "10.1.2.3/8" = Ok "10.0.0.0/8"%string
  ∧ normalize_ip_or_cidr "10.0.0.0/8" = Ok "10.0.0.0/8"%string.
Proof.
  assert (normalize_ip_or_cidr "10.1.2.3/8" = Ok "10.0.0.0/8"%string) as E by (vm_compute; reflexivity).
  split; [exact E|]. exact (proj1 (normalize_ip_canonical ModelInet ModelInetLaws _ _ E)).
Defined.

(** Canonical domains: a normalised domain has at most 253 characters, only
    valid labels (1 to 63 letters, digits, hyphens and underscores, no hyphen at
    either end) and a letter, has no trailing dot, and is its own normal form. *)
Theorem normalize_domain_canonical s d :
  normalize_domain s = Some d →
  normalize_domain d = Some d ∧ (1 ≤ Z.of_nat (String.length d) ≤ 253)
  ∧ forallb valid_label (split_on "." d) = true ∧ any_char is_alpha d = true.
Proof.
  unfold normalize_domain at 1. destruct (empty_str s); [done|].
  set (x := strip_root_dot (strip_wildcard s)).
  destruct (empty_str x) eqn:E1; [done|]. destruct (ends_with_dot x) eqn:E2; [done|].
  destruct (Z.ltb_spec 253 (Z.of_nat (String.length x))) as [|E3]; [done|]. cbn [orb].
  destruct (forallb valid_label (split_on "." x)) eqn:E4; [|done].
  destruct (any_char is_alpha x) eqn:E5; [|done]. cbn [negb]. intros [= <-].
  split_and!; try done.
  - unfold normalize_domain. rewrite E1, strip_wildcard_label by (by apply valid_labels_chars).
    unfold strip_root_dot. rewrite E2, E1, E2, E4, E5.
    by rewrite (proj2 (Z.ltb_ge _ _) E3).
  - destruct x; [done|]. simpl. lia.
Qed.

Lemma normalize_domain_canonical_witness :
  normalize_domain "*.Example.com." = Some "Example.com"%string
  ∧ normalize_domain "Example.com" = Some "Example.com"%string.
Proof.
  assert (normalize_domain "*.Example.com." = Some "Example.com"%string) as E
    by (vm_compute; reflexivity).
  split; [exact E|]. exact (proj1 (normalize_domain_canonical _ _ E)).
Defined.

(** Streaming a list source: the visitor receives, in order, exactly the
    entries of the non-comment lines that classify; however many lines are
    invalid, at most six warnings are logged. *)
Theorem stream_parse_spec (I : Inet) input source_name :
  (stream_parse input source_name).1 = omap line_entry (getline_tokens "010" input)
  ∧ Z.of_nat (length (stream_parse input source_name).2) ≤ 6.
Proof.
  unfold stream_parse.
  pose proof (stream_lines_spec (getline_tokens "010" input) source_name 0 ParseContext_default) as H.
  destruct (stream_lines _ _ _ _) as [es ws]. destruct H as [-> H].
  split; [done|]. unfold kMaxDetailedInvalidEntries in H. simpl in *. lia.
Qed.

(** Log safety: the text logged for a rejected entry contains no control
    character whatever the entry contains, and is at most 1029 bytes long. *)
Theorem format_entry_for_log_safe entry :
  all_chars is_printable (format_entry_for_log entry) = true
  ∧ Z.of_nat (String.length (format_entry_for_log entry)) ≤ 1029.
Proof.
  unfold format_entry_for_log. destruct (escape_upto_ok kMaxLoggedBytes entry) as [H1 H2].
  cbn [all_chars String.length]. rewrite !all_chars_app, H1, !length_append.
  unfold kMaxLoggedBytes in *. split; destruct (_ <? _)%nat; cbn [String.length]; try reflexivity; lia.
Qed.
