(* ===== verification/RouteFailure.v ===== *)
(** * Per-rule failure policy

    Models src/src/config/route_failure_policy.hpp: when a route rule may leave
    its configured outbound. The abstract specification [proven_down] lists the
    evidence that counts; nothing weaker moves or drops traffic. *)

From Stdlib Require Import ZArith Lia Ascii String.
From stdpp Require Import base gmap strings list.
From S2P Require Import Prelude ConfigTypes.

Inductive RouteFailureHealth :=
| rf_unknown | rf_healthy | rf_degraded | rf_unavailable | rf_link_unavailable.

#[export] Instance RouteFailureHealth_eq_dec : EqDecision RouteFailureHealth.
Proof. solve_decision. Defined.

Abbreviation HealthSnapshot := (gmap string RouteFailureHealth).

Definition route_failure_probe_health (attributed success : bool) : RouteFailureHealth :=
  if negb attributed then rf_unknown else if success then rf_healthy else rf_degraded.

Definition route_failure_is_unavailable (h : RouteFailureHealth) : bool :=
  match h with rf_unavailable | rf_link_unavailable => true | _ => false end.

Definition route_failure_is_usable (h : RouteFailureHealth) : bool :=
  match h with rf_healthy | rf_degraded => true | _ => false end.

Definition route_failure_group_children (ob : Outbound) : list string :=
  concat (og_outbounds <$> default [] (ob_outbound_groups ob)).

Definition route_failure_policies_enabled (cfg : Config) : bool :=
  match cfg_route cfg with
  | None => false
  | Some r =>
      match rc_rules r with
      | None => false
      | Some rules =>
          existsb (λ rule, default true (rr_enabled rule)
                     && negb (bool_decide (default INHERIT (rr_failure_policy rule) = INHERIT))) rules
      end
  end.

(** Missing links override every cached observation. *)
Definition merge_route_failure_link_health (health : HealthSnapshot) (reachability : gmap string bool)
    : HealthSnapshot :=
  map_fold (λ tag (up : bool) h, if up then h else <[tag := rf_link_unavailable]> h) health reachability.

Section Health.
Context (outbounds : list Outbound) (selections : option (gmap string string))
        (health : option HealthSnapshot).

(** [route_failure_health_for]; fuel is [9 - depth]. *)
Fixpoint route_failure_health_for (fuel : nat) (tag : string) : RouteFailureHealth :=
  match health, fuel with
  | None, _ | _, O => rf_unknown
  | Some hs, S fuel =>
      match find_outbound outbounds tag with
      | None => rf_unknown
      | Some ob =>
          match ob_type ob with
          | BLACKHOLE => rf_unavailable
          | INTERFACE => default rf_unknown (hs !! tag)
          | URLTEST =>
              match selections with
              | None => rf_unknown
              | Some sel =>
                  let children := route_failure_group_children ob in
                  let selected := default EmptyString (sel !! tag) in
                  if negb (empty_str selected) then
                    if negb (existsb (String.eqb selected) children) then rf_unknown
                    else
                      let child := route_failure_health_for fuel selected in
                      if bool_decide (child = rf_link_unavailable) then child
                      else
                        match find_outbound outbounds selected with
                        | Some sob =>
                            if bool_decide (ob_type sob = INTERFACE) then
                              match hs !! tag with
                              | Some g => if bool_decide (g = rf_unknown) then child else g
                              | None => child
                              end
                            else child
                        | None => child
                        end
                  else if bool_decide (hs !! tag = Some rf_unavailable) then rf_unavailable
                  else if negb (bool_decide (children = []))
                          && forallb (λ c, route_failure_is_unavailable (route_failure_health_for fuel c)) children
                       then rf_unavailable else rf_unknown
              end
          | _ => rf_unknown
          end
      end
  end.

Definition kFailureDepth : nat := 9.

(** [RouteFailureTarget] *)
Record RouteFailureTarget := { rft_outbound_tag : string; rft_drop : bool }.

Definition select_route_failure_target (rule : RouteRule) : RouteFailureTarget :=
  let policy := default INHERIT (rr_failure_policy rule) in
  if bool_decide (policy = INHERIT)
     || negb (route_failure_is_unavailable (route_failure_health_for kFailureDepth (rr_outbound rule)))
  then {| rft_outbound_tag := rr_outbound rule; rft_drop := false |}
  else
    match rr_fallback_outbound rule with
    | Some fb =>
        if bool_decide (policy = FALLBACK)
           && route_failure_is_usable (route_failure_health_for kFailureDepth fb)
        then {| rft_outbound_tag := fb; rft_drop := false |}
        else {| rft_outbound_tag := EmptyString; rft_drop := true |}
    | None => {| rft_outbound_tag := EmptyString; rft_drop := true |}
    end.

(** ** Evidence of failure *)

(** A snapshot entry that says the path is gone. *)
Definition entry_down (tag : string) : Prop :=
  ∃ hs h, health = Some hs ∧ hs !! tag = Some h ∧ route_failure_is_unavailable h = true.

(** The evidence that an outbound is down: it is a blackhole, its own entry says
    so, the child a group selected is down, or every child of a group without a
    selection is down. *)
Inductive proven_down : string → Prop :=
| down_blackhole t ob : find_outbound outbounds t = Some ob → ob_type ob = BLACKHOLE → proven_down t
| down_entry t ob : find_outbound outbounds t = Some ob →
    ob_type ob = INTERFACE ∨ ob_type ob = URLTEST → entry_down t → proven_down t
| down_selected t ob c : find_outbound outbounds t = Some ob → ob_type ob = URLTEST →
    (∃ sel, selections = Some sel ∧ sel !! t = Some c) → c ∈ route_failure_group_children ob →
    proven_down c → proven_down t
| down_children t ob : find_outbound outbounds t = Some ob → ob_type ob = URLTEST →
    route_failure_group_children ob ≠ [] →
    (∀ c, c ∈ route_failure_group_children ob → proven_down c) → proven_down t.

Lemma health_evidence fuel tag :
  route_failure_is_unavailable (route_failure_health_for fuel tag) = true → proven_down tag.
Proof.
  revert tag. induction fuel as [|fuel IH]; intros tag; cbn [route_failure_health_for];
    destruct health as [hs|] eqn:Eh; try done.
  destruct (find_outbound outbounds tag) as [ob|] eqn:Ef; [|done].
  assert (∀ h, hs !! tag = Some h → route_failure_is_unavailable h = true → entry_down tag) as Hent.
  { intros h Hh Hd. exists hs, h. by rewrite Eh. }
  destruct (ob_type ob) eqn:Et; try done.
  - intros _. by eapply down_blackhole.
  - destruct (hs !! tag) as [h|] eqn:El; [|done]. intros Hd.
    eapply down_entry; [done|by left|by eapply Hent].
  - destruct selections as [sel|] eqn:Es; [|done].
    destruct (negb (empty_str (default EmptyString (sel !! tag)))) eqn:Ene.
    + destruct (sel !! tag) as [c|] eqn:Ec; [|done]. cbn [default] in *. simpl.
      destruct (existsb (String.eqb c) (route_failure_group_children ob)) eqn:Ex; [|done]. cbn [negb].
      assert (c ∈ route_failure_group_children ob) as Hin.
      { apply existsb_exists in Ex as (x & Hx & ->%String.eqb_eq). by apply list_elem_of_In. }
      assert (route_failure_is_unavailable (route_failure_health_for fuel c) = true → proven_down tag)
        as Hchild.
      { intros Hd. eapply down_selected; eauto. }
      case_bool_decide as Hl; [by rewrite Hl in *; auto|].
      destruct (find_outbound outbounds c) as [sob|] eqn:Esob; [|done].
      case_bool_decide; [|done]. destruct (hs !! tag) as [g|] eqn:Eg; [|done].
      case_bool_decide; [done|]. intros Hd. eapply down_entry; [done|by right|by eapply Hent].
    + case_bool_decide as Hu; [intros _; eapply down_entry; [done|by right|by eapply Hent]|].
      case_bool_decide as Hne; simpl; [done|].
      destruct (forallb _ _) eqn:Ef2; [|done]. intros _.
      eapply down_children; [done|done|done|]. intros c Hc. apply IH.
      apply list_elem_of_In in Hc. exact (proj1 (forallb_forall _ _) Ef2 c Hc).
Qed.

Lemma health_kind fuel tag :
  route_failure_is_unavailable (route_failure_health_for fuel tag) = true →
  ∃ ob, find_outbound outbounds tag = Some ob
        ∧ (ob_type ob = BLACKHOLE ∨ ob_type ob = INTERFACE ∨ ob_type ob = URLTEST).
Proof. intros [t ob ?? | t ob ? [] ? | t ob c ??? | t ob ???]%health_evidence; eauto 10. Qed.
End Health.

(** ** Properties *)

(** Failure policy is conservative: a rule is dropped or moved only when it
    opted in and there is evidence that its configured outbound is down (never on
    missing or inconclusive observations), and it is moved only to its configured
    fallback when that fallback is known to be usable. *)
Theorem failure_policy_conservative outbounds selections health rule :
  let target := select_route_failure_target outbounds selections health rule in
  let policy := default INHERIT (rr_failure_policy rule) in
  (rft_drop target = true ∨ rft_outbound_tag target ≠ rr_outbound rule →
     policy ≠ INHERIT ∧ proven_down outbounds selections health (rr_outbound rule))
  ∧ (rft_drop target = false → rft_outbound_tag target ≠ rr_outbound rule →
       policy = FALLBACK ∧ rr_fallback_outbound rule = Some (rft_outbound_tag target)
       ∧ route_failure_is_usable
           (route_failure_health_for outbounds selections health kFailureDepth (rft_outbound_tag target))
         = true)
  ∧ (health = None → target = {| rft_outbound_tag := rr_outbound rule; rft_drop := false |}).
Proof.
  cbv zeta. unfold select_route_failure_target. set (depth := kFailureDepth). clearbody depth.
  destruct (route_failure_is_unavailable _) eqn:Eu.
  - pose proof (health_evidence _ _ _ _ _ Eu) as Hd.
    assert (health ≠ None) as Hh by (intros ->; by destruct depth).
    case_bool_decide as Hp; cbn [orb andb negb rft_drop rft_outbound_tag]; [split_and!; [by intros [?|?]|done|done]|].
    destruct (rr_fallback_outbound rule) as [fb|]; cbn [orb andb negb rft_drop rft_outbound_tag]; [|by split_and!].
    case_bool_decide as Hf; cbn [orb andb negb rft_drop rft_outbound_tag]; [|by split_and!].
    destruct (route_failure_is_usable _) eqn:Eus; cbn [orb andb negb rft_drop rft_outbound_tag]; by split_and!.
  - rewrite orb_true_r. cbn [orb andb negb rft_drop rft_outbound_tag]. split_and!; [by intros [?|?]|done|done].
Qed.
