(* ===== verification/KernelRoutes.v ===== *)
(** * Reading the kernel's routes

    Models the part of src/src/config/routing_state.cpp that interprets dumped
    kernel routes: prefix containment, whether an interface outbound is
    reachable, and which child of a group the installed routes correspond to. *)

From Stdlib Require Import ZArith Lia Ascii String.
From stdpp Require Import base gmap strings list.
From S2P Require Import Prelude ConfigTypes RoutingPlan IpSet ListParser.
Open Scope Z_scope.

(** [struct DumpedRoute] *)
Record DumpedRoute := {
  dr_destination : string;
  dr_table : Z;
  dr_interface : option string;
  dr_gateway : option string;
  dr_blackhole : bool;
  dr_unreachable : bool;
  dr_family : Z;
  dr_metric : Z;
  dr_protocol : Z;
  dr_exact_identity_representable : bool;
}.

(** ** Prefix containment *)

(** [ntohl] of a four-byte address. *)
Definition be32 (bytes : list Z) : Z :=
  fold_left (λ acc b, Z.lor (Z.shiftl acc 8) b) bytes 0.

Definition ipv4_prefix_contains (network candidate : list Z) (prefix_len : Z) : bool :=
  if (prefix_len <? 0) || (32 <? prefix_len) then false
  else if prefix_len =? 0 then true
  else
    let mask := if 32 <=? prefix_len then u32_max
                else Z.land (Z.shiftl u32_max (32 - prefix_len)) u32_max in
    Z.land (be32 network) mask =? Z.land (be32 candidate) mask.

Definition ipv6_prefix_contains (network candidate : list Z) (prefix_len : Z) : bool :=
  if (prefix_len <? 0) || (128 <? prefix_len) then false
  else if prefix_len =? 0 then true
  else
    let full_bytes := Z.to_nat (prefix_len / 8) in
    let extra_bits := prefix_len mod 8 in
    if negb (bool_decide (take full_bytes network = take full_bytes candidate)) then false
    else if extra_bits =? 0 then true
    else
      let mask := Z.land (Z.shiftl 255 (8 - extra_bits)) 255 in
      Z.land (nth full_bytes network 0) mask =? Z.land (nth full_bytes candidate 0) mask.

Section Reading.
Context `{I : Inet}.

Definition route_contains_ip (route : DumpedRoute) (ip : string) : bool :=
  let family := if has_char ":" ip then AF_INET6 else AF_INET in
  if negb (dr_family route =? family) then false
  else if String.eqb (dr_destination route) "default" then true
  else match break_at "/" (dr_destination route) with
       | None => String.eqb (dr_destination route) ip
       | Some (network, prefix) =>
           match from_chars_int prefix with
           | None => false
           | Some prefix_len =>
               let network_family := if has_char ":" network then AF_INET6 else AF_INET in
               if negb (family =? network_family) then false
               else match inet_pton family network, inet_pton family ip with
                    | Some n, Some a =>
                        if family =? AF_INET then ipv4_prefix_contains n a prefix_len
                        else ipv6_prefix_contains n a prefix_len
                    | _, _ => false
                    end
           end
       end.

Definition interface_has_gateway_route (routes : list DumpedRoute) (iface gateway : string) : bool :=
  existsb (λ route,
    negb (negb (dr_table route =? 254) || dr_blackhole route || dr_unreachable route)
    && match dr_interface route with Some i => String.eqb i iface | None => false end
    && route_contains_ip route gateway) routes.

(** [interface_outbound_family_reachability] with the administrative state of the
    interface. *)
Definition interface_outbound_family_reachability (ob : Outbound)
    (main_table_routes : list DumpedRoute) (interface_admin_up : bool)
    : OutboundFamilyReachability :=
  match ob_type ob with
  | INTERFACE =>
      let iface := default EmptyString (ob_interface ob) in
      if empty_str iface || negb interface_admin_up then {| rch_ipv4 := false; rch_ipv6 := false |}
      else
        match ob_gateway ob, ob_gateway6 ob with
        | None, None => {| rch_ipv4 := true; rch_ipv6 := true |}
        | g4, g6 =>
            {| rch_ipv4 := match g4 with
                           | Some g => interface_has_gateway_route main_table_routes iface g
                           | None => false end;
               rch_ipv6 := match g6 with
                           | Some g => interface_has_gateway_route main_table_routes iface g
                           | None => false end |}
        end
  | _ => {| rch_ipv4 := true; rch_ipv6 := true |}
  end.

Definition is_interface_outbound_reachable (ob : Outbound) (main_table_routes : list DumpedRoute)
    (interface_admin_up : bool) : bool :=
  reach_any (interface_outbound_family_reachability ob main_table_routes interface_admin_up) true.
End Reading.

(** ** The selection the installed routes correspond to *)

Definition route_matches_outbound (route : DumpedRoute) (ob : Outbound) : bool :=
  if negb (String.eqb (dr_destination route) "default") || dr_blackhole route || dr_unreachable route
  then false
  else if negb (bool_decide (ob_type ob = INTERFACE)) then false
  else if negb (bool_decide (dr_interface route = ob_interface ob)) then false
  else if (dr_family route =? AF_INET) && has_value (ob_gateway ob)
       then bool_decide (dr_gateway route = ob_gateway ob)
  else if (dr_family route =? AF_INET6) && has_value (ob_gateway6 ob)
       then bool_decide (dr_gateway route = ob_gateway6 ob)
  else negb (has_value (dr_gateway route)).

(** The inner loops over the children: [inl] is the early [return nullopt]. *)
Fixpoint match_children (outbounds : list Outbound) (route : DumpedRoute) (children : list string)
    (route_tag : option string) : unit + option string :=
  match children with
  | [] => inr route_tag
  | child_tag :: rest =>
      match find_outbound outbounds child_tag with
      | None => match_children outbounds route rest route_tag
      | Some child =>
          if negb (route_matches_outbound route child)
          then match_children outbounds route rest route_tag
          else match route_tag with
               | Some t => if negb (String.eqb t child_tag) then inl tt
                           else match_children outbounds route rest (Some child_tag)
               | None => match_children outbounds route rest (Some child_tag)
               end
      end
  end.

(** Routes that take part: live defaults of metric zero. *)
Definition is_primary_route (route : DumpedRoute) : bool :=
  String.eqb (dr_destination route) "default" && negb (dr_blackhole route)
  && negb (dr_unreachable route) && (dr_metric route =? 0).

Definition group_children (urltest : Outbound) : list string :=
  concat (og_outbounds <$> default [] (ob_outbound_groups urltest)).

Fixpoint infer_loop (outbounds : list Outbound) (urltest : Outbound) (routes : list DumpedRoute)
    (selected_tag : option string) : option string :=
  match routes with
  | [] => selected_tag
  | route :: rest =>
      if negb (is_primary_route route) then infer_loop outbounds urltest rest selected_tag
      else match match_children outbounds route (group_children urltest) None with
           | inl _ | inr None => None
           | inr (Some t) =>
               match selected_tag with
               | Some s => if negb (String.eqb s t) then None
                           else infer_loop outbounds urltest rest (Some t)
               | None => infer_loop outbounds urltest rest (Some t)
               end
           end
  end.

Definition infer_urltest_selection_from_routes (outbounds : list Outbound) (urltest : Outbound)
    (routes : list DumpedRoute) : option string :=
  infer_loop outbounds urltest routes None.

(** ** Containment is agreement on the leading bits *)

Definition agree (n c : list Z) (len : nat) : Prop := ∀ i, (i < len)%nat → addr_bit n i = addr_bit c i.

Lemma addr_bit_testbit bytes i :
  addr_bit bytes i = Z.testbit (default 0 (bytes !! (i / 8)%nat)) (7 - Z.of_nat (i mod 8)).
Proof.
  unfold addr_bit. rewrite (Z.land_ones _ 1) by lia. change (2 ^ 1) with 2.
  rewrite <- Z.bit0_mod, Z.shiftr_spec, Z.add_0_l by lia.
  by destruct (Z.testbit _ _).
Qed.

(** Masking the low bits away compares the high ones. *)
Lemma masked_eq_bits w e x y m :
  0 ≤ e ≤ w → (∀ j, 0 ≤ j → Z.testbit m j = (w - e <=? j) && (j <? w)) →
  Z.land x m = Z.land y m ↔ ∀ j, w - e ≤ j < w → Z.testbit x j = Z.testbit y j.
Proof.
  intros He Hm. split.
  - intros H j Hj. apply (f_equal (λ z, Z.testbit z j)) in H. rewrite !Z.land_spec, Hm in H by lia.
    rewrite (proj2 (Z.leb_le _ _)), (proj2 (Z.ltb_lt _ _)) in H by lia.
    by rewrite !andb_true_r in H.
  - intros H. apply Z.bits_inj'. intros j Hj. rewrite !Z.land_spec, Hm by lia.
    destruct (Z.leb_spec (w - e) j); [|by rewrite !andb_false_r].
    destruct (Z.ltb_spec j w); [|by rewrite !andb_false_r]. by rewrite H by lia.
Qed.

Lemma shifted_mask_bits w k m :
  0 ≤ k ≤ w → m = Z.land (Z.shiftl (Z.ones w) k) (Z.ones w) →
  ∀ j, 0 ≤ j → Z.testbit m j = (k <=? j) && (j <? w).
Proof.
  intros Hk -> j Hj. rewrite Z.land_spec, Z.shiftl_spec by lia.
  rewrite (Z.testbit_ones_nonneg w j) by lia.
  destruct (Z.leb_spec k j); simpl.
  - rewrite Z.testbit_ones_nonneg by lia.
    destruct (Z.ltb_spec j w), (Z.ltb_spec (j - k) w); lia || done.
  - by rewrite Z.testbit_neg_r by lia.
Qed.

Lemma byte_high_bit b j : is_byte b → 8 ≤ j → Z.testbit b j = false.
Proof.
  unfold is_byte. intros Hb Hj. destruct (Z.eq_dec b 0) as [->|]; [apply Z.bits_0|].
  apply Z.bits_above_log2; [lia|]. assert (Z.log2 b < 8) by (apply Z.log2_lt_pow2; lia). lia.
Qed.

Lemma append_byte_bit acc b j :
  is_byte b → 0 ≤ j →
  Z.testbit (Z.lor (Z.shiftl acc 8) b) j = if j <? 8 then Z.testbit b j else Z.testbit acc (j - 8).
Proof.
  intros Hb Hj. rewrite Z.lor_spec, Z.shiftl_spec by lia. destruct (Z.ltb_spec j 8).
  - by rewrite Z.testbit_neg_r by lia.
  - by rewrite (byte_high_bit b j), orb_false_r by (done || lia).
Qed.

(** Bit [31 - i] of the big-endian word is bit [i] of the address. *)
Lemma be32_testbit a b c d i :
  is_byte a → is_byte b → is_byte c → is_byte d → (i < 32)%nat →
  Z.testbit (be32 [a; b; c; d]) (31 - Z.of_nat i) = addr_bit [a; b; c; d] i.
Proof.
  intros Ha Hb Hc Hd Hi. rewrite addr_bit_testbit. unfold be32. cbn [fold_left].
  assert (∀ q r, (r < 8)%nat → i = (8 * q + r)%nat → (i / 8 = q ∧ i mod 8 = r)%nat) as Hqr.
  { intros q r Hr Hi'. split; [symmetry; apply Nat.div_unique with r; lia|].
    symmetry. apply Nat.mod_unique with q; lia. }
  destruct (lt_dec i 8); [|destruct (lt_dec i 16); [|destruct (lt_dec i 24)]].
  - destruct (Hqr 0%nat i) as [-> ->]; [lia|lia|]. cbn [lookup list_lookup default].
    rewrite append_byte_bit, (proj2 (Z.ltb_ge _ _)) by (done || lia).
    rewrite append_byte_bit, (proj2 (Z.ltb_ge _ _)) by (done || lia).
    rewrite append_byte_bit, (proj2 (Z.ltb_ge _ _)) by (done || lia).
    rewrite append_byte_bit, (proj2 (Z.ltb_lt _ _)) by (done || lia). f_equal. lia.
  - destruct (Hqr 1%nat (i - 8)%nat) as [-> ->]; [lia|lia|]. cbn [lookup list_lookup default].
    rewrite append_byte_bit, (proj2 (Z.ltb_ge _ _)) by (done || lia).
    rewrite append_byte_bit, (proj2 (Z.ltb_ge _ _)) by (done || lia).
    rewrite append_byte_bit, (proj2 (Z.ltb_lt _ _)) by (done || lia). f_equal. lia.
  - destruct (Hqr 2%nat (i - 16)%nat) as [-> ->]; [lia|lia|]. cbn [lookup list_lookup default].
    rewrite append_byte_bit, (proj2 (Z.ltb_ge _ _)) by (done || lia).
    rewrite append_byte_bit, (proj2 (Z.ltb_lt _ _)) by (done || lia). f_equal. lia.
  - destruct (Hqr 3%nat (i - 24)%nat) as [-> ->]; [lia|lia|]. cbn [lookup list_lookup default].
    rewrite append_byte_bit, (proj2 (Z.ltb_lt _ _)) by (done || lia). f_equal. lia.
Qed.

(** The reference for both families. *)
Definition prefix_agrees (network candidate : list Z) (prefix_len : Z) : Prop :=
  agree network candidate (Z.to_nat prefix_len).

Lemma ipv4_contains_agree n c len :
  is_addr AF_INET n → is_addr AF_INET c → 0 ≤ len ≤ 32 →
  ipv4_prefix_contains n c len = true ↔ prefix_agrees n c len.
Proof.
  intros [Hn Hnb] [Hc Hcb] Hl.
  destruct n as [|n0 [|n1 [|n2 [|n3 [|]]]]]; try done.
  destruct c as [|c0 [|c1 [|c2 [|c3 [|]]]]]; try done.
  rewrite !Forall_cons in Hnb, Hcb. destruct Hnb as (? & ? & ? & ? & _), Hcb as (? & ? & ? & ? & _).
  unfold ipv4_prefix_contains, prefix_agrees, agree.
  rewrite (proj2 (Z.ltb_ge len 0)), (proj2 (Z.ltb_ge 32 len)) by lia. simpl orb. cbv iota.
  destruct (Z.eqb_spec len 0) as [->|Hne]; [split; [intros _ i Hi; lia|done]|].
  set (m := if 32 <=? len then _ else _).
  assert (∀ j, 0 ≤ j → Z.testbit m j = (32 - len <=? j) && (j <? 32)) as Hm.
  { apply shifted_mask_bits; [lia|]. unfold m. destruct (Z.leb_spec 32 len).
    - assert (len = 32) as -> by lia. reflexivity.
    - reflexivity. }
  rewrite Z.eqb_eq, (masked_eq_bits 32 len _ _ m) by (done || lia). split.
  - intros H' i Hi. rewrite <- !be32_testbit by (done || lia). apply H'. lia.
  - intros H' j Hj. specialize (H' (Z.to_nat (31 - j)) ltac:(lia)).
    rewrite <- !be32_testbit in H' by (done || lia).
    by replace (31 - Z.of_nat (Z.to_nat (31 - j))) with j in H' by lia.
Qed.

(** Bytes are equal when their eight bits are. *)
Lemma byte_eq_bits x y :
  is_byte x → is_byte y → (∀ j, 0 ≤ j < 8 → Z.testbit x j = Z.testbit y j) → x = y.
Proof.
  intros Hx Hy H. apply Z.bits_inj'. intros j Hj. destruct (Z_lt_ge_dec j 8); [by apply H|].
  by rewrite !byte_high_bit by (done || lia).
Qed.

Lemma addr_bit_at bytes q r :
  (r < 8)%nat → addr_bit bytes (8 * q + r) = Z.testbit (default 0 (bytes !! q)) (7 - Z.of_nat r).
Proof.
  intros Hr. rewrite addr_bit_testbit.
  replace ((8 * q + r) / 8)%nat with q by (apply Nat.div_unique with r; lia).
  replace ((8 * q + r) mod 8)%nat with r by (apply Nat.mod_unique with q; lia). done.
Qed.

Lemma agree_bytes n c k :
  length n = length c → (k ≤ length n)%nat → Forall is_byte n → Forall is_byte c →
  agree n c (8 * k) ↔ take k n = take k c.
Proof.
  intros Hl Hk Hn Hc. split.
  - intros H. apply list_eq. intros q. destruct (decide (q < k)%nat) as [Hq|Hq].
    + rewrite !lookup_take_lt by done.
      destruct (lookup_lt_is_Some_2 n q ltac:(lia)) as [x Hx].
      destruct (lookup_lt_is_Some_2 c q ltac:(lia)) as [y Hy]. rewrite Hx, Hy. f_equal.
      apply byte_eq_bits; [exact (Forall_lookup_1 _ _ _ _ Hn Hx)|exact (Forall_lookup_1 _ _ _ _ Hc Hy)|].
      intros j Hj. specialize (H (8 * q + Z.to_nat (7 - j))%nat ltac:(lia)).
      rewrite !addr_bit_at, Hx, Hy in H by lia. cbn [default] in H.
      by replace (7 - Z.of_nat (Z.to_nat (7 - j))) with j in H by lia.
    + rewrite !lookup_take_ge by lia. done.
  - intros H i Hi. rewrite !addr_bit_testbit.
    assert (i / 8 < k)%nat as Hq by (apply Nat.Div0.div_lt_upper_bound; lia).
    rewrite <- (lookup_take_lt n k), <- (lookup_take_lt c k), H by done. done.
Qed.

Lemma ipv6_contains_agree n c len :
  is_addr AF_INET6 n → is_addr AF_INET6 c → 0 ≤ len ≤ 128 →
  ipv6_prefix_contains n c len = true ↔ prefix_agrees n c len.
Proof.
  intros [Hn Hnb] [Hc Hcb] Hl. change (addr_len AF_INET6) with 16%nat in *.
  unfold ipv6_prefix_contains, prefix_agrees.
  rewrite (proj2 (Z.ltb_ge len 0)), (proj2 (Z.ltb_ge 128 len)) by lia. simpl orb. cbv iota.
  destruct (Z.eqb_spec len 0) as [->|Hne]; [split; [intros _ i Hi; lia|done]|].
  set (k := Z.to_nat (len / 8)). set (e := len mod 8).
  pose proof (Z.div_mod len 8 ltac:(lia)) as Hdm. pose proof (Z.mod_pos_bound len 8 ltac:(lia)) as He.
  assert (0 ≤ len / 8 ≤ 16) as Hq by (split; [apply Z.div_pos|apply Z.div_le_upper_bound]; lia).
  assert (Z.to_nat len = 8 * k + Z.to_nat e)%nat as -> by (unfold k, e; lia).
  assert (agree n c (8 * k + Z.to_nat e) ↔
    take k n = take k c ∧ ∀ r, (r < Z.to_nat e)%nat → addr_bit n (8 * k + r) = addr_bit c (8 * k + r))
    as ->.
  { rewrite <- (agree_bytes n c k) by (done || (unfold k; lia)). unfold agree. split.
    - intros H. split; intros; apply H; lia.
    - intros [H1 H2] i Hi. destruct (decide (i < 8 * k)%nat); [by apply H1|].
      replace i with (8 * k + (i - 8 * k))%nat by lia. apply H2. lia. }
  case_bool_decide as Ht; cbn [negb]; [|naive_solver].
  destruct (Z.eqb_spec e 0) as [->|He0]; [split; [intros _; split; [done|lia]|done]|].
  rewrite Z.eqb_eq, (masked_eq_bits 8 e _ _ _) by
    first [lia | apply shifted_mask_bits; [lia|reflexivity]].
  assert (∀ bytes : list Z, nth k bytes 0 = default 0 (bytes !! k)) as Hnth.
  { intros bytes. rewrite nth_lookup. done. }
  rewrite !Hnth. split.
  - intros H. split; [done|]. intros r Hr. rewrite !addr_bit_at by (unfold e in *; lia). apply H. lia.
  - intros [_ H] j Hj. specialize (H (Z.to_nat (7 - j)) ltac:(lia)).
    rewrite !addr_bit_at in H by lia. by replace (7 - Z.of_nat (Z.to_nat (7 - j))) with j in H by lia.
Qed.

(** ** Inference *)

Section Inference.
Context (outbounds : list Outbound) (urltest : Outbound).

(** A child of the list that explains the route. *)
Definition explains (children : list string) (route : DumpedRoute) (t : string) : Prop :=
  t ∈ children ∧ ∃ child, find_outbound outbounds t = Some child
                          ∧ route_matches_outbound route child = true.

Lemma match_children_spec route children acc :
  match match_children outbounds route children acc with
  | inl _ => ∃ t t', t ≠ t' ∧ (acc = Some t ∨ explains children route t) ∧ explains children route t'
  | inr res =>
      (∀ t, explains children route t → res = Some t)
      ∧ match res with
        | Some t => (acc = Some t ∨ explains children route t) ∧ (∀ a, acc = Some a → a = t)
        | None => acc = None
        end
  end.
Proof.
  assert (∀ c l t, explains l route t → explains (c :: l) route t) as Hmono.
  { intros c l t [Hin Hx]. split; [by right|done]. }
  revert acc. induction children as [|c children IH]; intros acc; cbn [match_children].
  { split; [by intros t [?%elem_of_nil _]|]. destruct acc; naive_solver. }
  assert (∀ t, explains (c :: children) route t → t ≠ c ∨
    ¬ (∃ child, find_outbound outbounds c = Some child ∧ route_matches_outbound route child = true) →
    explains children route t) as Hskip.
  { intros t [[->|Hin]%elem_of_cons Hx] [Hne|Hno]; done. }
  destruct (find_outbound outbounds c) as [child|] eqn:Ef.
  2: { specialize (IH acc). destruct (match_children _ _ _ _) as [|res].
       - destruct IH as (t & t' & ? & [?|?] & ?); exists t, t'; auto.
       - destruct IH as [H1 H2]. split; [|destruct res as [t|]; [destruct H2 as [[?|?] ?]; auto|done]].
         intros t Ht. apply H1, Hskip; [done|right]. intros (ch & E1 & E2). congruence. }
  destruct (route_matches_outbound route child) eqn:Em; cbn [negb].
  2: { specialize (IH acc). destruct (match_children _ _ _ _) as [|res].
       - destruct IH as (t & t' & ? & [?|?] & ?); exists t, t'; auto.
       - destruct IH as [H1 H2]. split; [|destruct res as [t|]; [destruct H2 as [[?|?] ?]; auto|done]].
         intros t Ht. apply H1, Hskip; [done|right]. intros (ch & E1 & E2). congruence. }
  assert (explains (c :: children) route c) as Hc by (split; [by left|eauto]).
  assert (∀ acc', acc' = None ∨ acc' = Some c →
    match match_children outbounds route children (Some c) with
    | inl _ => ∃ t t', t ≠ t' ∧ (acc' = Some t ∨ explains (c :: children) route t)
                 ∧ explains (c :: children) route t'
    | inr res => (∀ t, explains (c :: children) route t → res = Some t)
        ∧ match res with
          | Some t => (acc' = Some t ∨ explains (c :: children) route t) ∧ (∀ a, acc' = Some a → a = t)
          | None => acc' = None
          end
    end) as Hgo.
  { intros acc' Hacc'. specialize (IH (Some c)). destruct (match_children _ _ _ _) as [|res].
    - destruct IH as (t & t' & ? & [[= ->]|?] & ?); exists t, t'; auto.
    - destruct IH as [H1 H2]. destruct res as [t|]; [|done].
      destruct H2 as [Ht Heq]. specialize (Heq c eq_refl) as <-. split.
      + intros t [[->|Hin]%elem_of_cons Hx]; [done|]. by apply H1.
      + split; [by right|]. intros a ->. destruct Hacc' as [|[= ->]]; done. }
  destruct acc as [a|]; [|apply Hgo; by left].
  destruct (String.eqb_spec a c) as [->|Hne]; cbn [negb]; [apply Hgo; by right|].
  exists a, c. auto.
Qed.

Lemma infer_loop_spec routes acc t :
  infer_loop outbounds urltest routes acc = Some t →
  (∀ a, acc = Some a → a = t)
  ∧ (acc = Some t ∨ ∃ r, r ∈ routes ∧ is_primary_route r = true)
  ∧ ∀ r, r ∈ routes → is_primary_route r = true →
      explains (group_children urltest) r t
      ∧ ∀ t', explains (group_children urltest) r t' → t' = t.
Proof.
  revert acc. induction routes as [|r routes IH]; intros acc; cbn [infer_loop].
  { intros ->. split; [naive_solver|]. split; [by left|]. by intros r ?%elem_of_nil. }
  destruct (is_primary_route r) eqn:Ep; cbn [negb].
  2: { intros (H1 & H2 & H3)%IH. split; [done|]. split.
       - destruct H2 as [|(r' & ? & ?)]; [by left|right]. exists r'. split; [by right|done].
       - intros r' [->|Hin]%elem_of_cons Hp; [congruence|]. by apply H3. }
  pose proof (match_children_spec r (group_children urltest) None) as Hm.
  destruct (match_children _ _ _ _) as [|[s|]]; [done| |done].
  destruct Hm as [Huniq [[|Hex] _]]; [done|].
  assert (∀ acc', infer_loop outbounds urltest routes (Some s) = Some t → (acc' = None ∨ acc' = Some s) →
    (∀ a, acc' = Some a → a = t) ∧ (acc' = Some t ∨ ∃ r0, r0 ∈ r :: routes ∧ is_primary_route r0 = true)
    ∧ ∀ r0, r0 ∈ r :: routes → is_primary_route r0 = true →
        explains (group_children urltest) r0 t ∧ ∀ t', explains (group_children urltest) r0 t' → t' = t)
    as Hgo.
  { intros acc' (H1 & _ & H3)%IH Hacc'. specialize (H1 s eq_refl) as <-. split; [naive_solver|].
    split; [right; exists r; split; [by left|done]|].
    intros r0 [->|Hin]%elem_of_cons Hp; [|by apply H3]. split; [done|].
    intros t' Ht'. apply Huniq in Ht'. congruence. }
  destruct acc as [a|]; [|intros H; apply Hgo; auto].
  destruct (String.eqb_spec a s) as [->|]; cbn [negb]; [intros H; apply Hgo; auto|done].
Qed.
End Inference.

(** ** Properties *)

(** Prefix containment: for valid addresses and every prefix length in range,
    the masked 32-bit comparison of IPv4 and the byte-wise comparison of IPv6
    both mean that the leading [prefix_len] bits agree; outside the range both
    answer no. *)
Theorem prefix_contains_reference n c len :
  (is_addr AF_INET n → is_addr AF_INET c →
     ipv4_prefix_contains n c len = true ↔ 0 ≤ len ≤ 32 ∧ prefix_agrees n c len)
  ∧ (is_addr AF_INET6 n → is_addr AF_INET6 c →
     ipv6_prefix_contains n c len = true ↔ 0 ≤ len ≤ 128 ∧ prefix_agrees n c len).
Proof.
  split; intros Hn Hc.
  - destruct (decide (0 ≤ len ≤ 32)) as [Hl|Hl]; [rewrite ipv4_contains_agree by done; tauto|].
    unfold ipv4_prefix_contains.
    destruct (Z.ltb_spec len 0), (Z.ltb_spec 32 len); simpl; try lia; naive_solver.
  - destruct (decide (0 ≤ len ≤ 128)) as [Hl|Hl]; [rewrite ipv6_contains_agree by done; tauto|].
    unfold ipv6_prefix_contains.
    destruct (Z.ltb_spec len 0), (Z.ltb_spec 128 len); simpl; try lia; naive_solver.
Qed.

(** Selection recovery after a restart: when a selection is inferred from the
    installed routes, there is a live metric-zero default route, every such route
    is explained by the inferred child and by no other child of the group. *)
Theorem infer_selection_sound outbounds urltest routes t :
  infer_urltest_selection_from_routes outbounds urltest routes = Some t →
  (∃ r, r ∈ routes ∧ is_primary_route r = true)
  ∧ ∀ r, r ∈ routes → is_primary_route r = true →
      explains outbounds (group_children urltest) r t
      ∧ ∀ t', explains outbounds (group_children urltest) r t' → t' = t.
Proof. intros (_ & [|H] & H3)%infer_loop_spec; [done|]. by split. Qed.

Definition sample_route (iface : string) : DumpedRoute :=
  {| dr_destination := "default"; dr_table := 152; dr_interface := Some iface; dr_gateway := None;
     dr_blackhole := false; dr_unreachable := false; dr_family := AF_INET; dr_metric := 0;
     dr_protocol := 186; dr_exact_identity_representable := true |}.

Lemma infer_selection_sound_witness :
  infer_urltest_selection_from_routes [vpn_a; vpn_b; auto_group] auto_group [sample_route "nwg1"]
    = Some "vpn_b"%string
  ∧ explains [vpn_a; vpn_b; auto_group] (group_children auto_group) (sample_route "nwg1") "vpn_b".
Proof.
  assert (infer_urltest_selection_from_routes [vpn_a; vpn_b; auto_group] auto_group
    [sample_route "nwg1"] = Some "vpn_b"%string) as E by (vm_compute; reflexivity).
  split; [exact E|].
  apply (proj2 (infer_selection_sound _ _ _ _ E)); [left|reflexivity].
Defined.
