(* ===== verification/FirewallRules.v ===== *)
(** * Firewall rule states

    Models src/src/config/addr_spec.hpp, src/src/routing/target.cpp,
    src/src/routing/firewall_state.{hpp,cpp} and the rule-state builder of
    src/src/config/routing_state.cpp: what each route rule of the configuration
    becomes in the packet filter. *)

From Stdlib Require Import ZArith Lia Ascii String.
From stdpp Require Import base gmap strings list.
From S2P Require Import Prelude ConfigTypes RoutingPlan RoutingPlanProps PortSpec ListParser RouteFailure.
Open Scope Z_scope.

Inductive RuleError :=
| UnsupportedProto (proto : string)
| BadPort (e : PortSpecError)
| BadAddress (cidr : string)
| BadPrefix (cidr : string)
| PrefixOutOfRange (cidr : string).

(** ** Address selectors *)

Record AddrSpec := { as_addrs : list string; as_negate : bool }.

Section Criteria.
Context `{I : Inet}.

Definition validate_cidr (cidr : string) : result RuleError unit :=
  let '(ip_part, prefix_part) :=
    match break_at "/" cidr with
    | Some (ip, p) => (ip, Some p)
    | None => (cidr, None)
    end in
  let is_v4 := has_value (inet_pton AF_INET ip_part) in
  let is_v6 := negb is_v4 && has_value (inet_pton AF_INET6 ip_part) in
  if negb is_v4 && negb is_v6 then Throw (BadAddress cidr)
  else match prefix_part with
       | None => Ok tt
       | Some p =>
           match from_chars_int p with
           | None => Throw (BadPrefix cidr)
           | Some prefix =>
               if (prefix <? 0) || ((if is_v4 then 32 else 128) <? prefix)
               then Throw (PrefixOutOfRange cidr) else Ok tt
           end
       end.

Definition is_blank_char (c : ascii) : bool := (code c =? 32) || (code c =? 9).

(** The loop over the comma-separated tokens; blank tokens are skipped. *)
Fixpoint addr_tokens (tokens : list string) : result RuleError (list string) :=
  match tokens with
  | [] => Ok []
  | token :: rest =>
      let token := trim_by is_blank_char token in
      if empty_str token then addr_tokens rest
      else let! _ := validate_cidr token in
           let! more := addr_tokens rest in
           Ok (token :: more)
  end.

Definition parse_addr_spec (spec : string) : result RuleError AddrSpec :=
  match spec with
  | EmptyString => Ok {| as_addrs := []; as_negate := false |}
  | String c rest =>
      let negate := Ascii.eqb c "!" in
      let body := if negate then rest else spec in
      let! addrs := addr_tokens (getline_tokens "," body) in
      Ok {| as_addrs := addrs; as_negate := negate |}
  end.

(** ** Selector criteria *)

Inductive L4Proto := L4Any | L4Tcp | L4Udp | L4TcpUdp.

Definition parse_rule_proto (proto : option string) : result RuleError L4Proto :=
  match proto with
  | None => Ok L4Any
  | Some p =>
      if empty_str p then Ok L4Any
      else if String.eqb p "tcp" then Ok L4Tcp
      else if String.eqb p "udp" then Ok L4Udp
      else if String.eqb p "tcp/udp" then Ok L4TcpUdp
      else Throw (UnsupportedProto p)
  end.

(** The members of [FirewallRuleCriteria] the builder sets. *)
Record FirewallRuleCriteria := {
  fc_dscp : option Z;
  fc_proto : L4Proto;
  fc_src_port : PortSpec;
  fc_dst_port : PortSpec;
  fc_src_addr : list string;
  fc_dst_addr : list string;
  fc_negate_src_port : bool;
  fc_negate_dst_port : bool;
  fc_negate_src_addr : bool;
  fc_negate_dst_addr : bool;
}.

Definition FirewallRuleCriteria_default : FirewallRuleCriteria :=
  {| fc_dscp := None; fc_proto := L4Any; fc_src_port := {| ps_ranges := [] |};
     fc_dst_port := {| ps_ranges := [] |}; fc_src_addr := []; fc_dst_addr := [];
     fc_negate_src_port := false; fc_negate_dst_port := false;
     fc_negate_src_addr := false; fc_negate_dst_addr := false |}.

Definition strip_neg (value : string) : string * bool :=
  match value with
  | String c rest => if Ascii.eqb c "!" then (rest, true) else (value, false)
  | EmptyString => (value, false)
  end.

(** [criteria.src_port = port] parses the text. *)
Definition assign_port (text : string) : result RuleError PortSpec :=
  match parse_port_spec text with Ok p => Ok p | Throw e => Throw (BadPort e) end.

Definition build_firewall_rule_criteria (rule : RouteRule) : result RuleError FirewallRuleCriteria :=
  let! proto := parse_rule_proto (rr_proto rule) in
  let dscp := match rr_dscp rule with Some d => Some (d mod 256) | None => None end in
  let '(sport, nsport) := strip_neg (default EmptyString (rr_src_port rule)) in
  let! src_port := assign_port sport in
  let '(dport, ndport) := strip_neg (default EmptyString (rr_dest_port rule)) in
  let! dst_port := assign_port dport in
  let! src := parse_addr_spec (default EmptyString (rr_src_addr rule)) in
  let! dst := parse_addr_spec (default EmptyString (rr_dest_addr rule)) in
  Ok {| fc_dscp := dscp; fc_proto := proto; fc_src_port := src_port; fc_dst_port := dst_port;
        fc_src_addr := as_addrs src; fc_dst_addr := as_addrs dst;
        fc_negate_src_port := nsport; fc_negate_dst_port := ndport;
        fc_negate_src_addr := as_negate src; fc_negate_dst_addr := as_negate dst |}.
End Criteria.

(** ** Routing decisions *)

(** [struct RoutingDecision] *)
Record RoutingDecision := {
  rd_outbound : option Outbound;
  rd_is_skip : bool;
  rd_is_passthrough : bool;
}.

Definition decision_none : RoutingDecision :=
  {| rd_outbound := None; rd_is_skip := false; rd_is_passthrough := false |}.

Definition resolve_route_action (outbound_tag : string) (outbounds : list Outbound)
    : RoutingDecision :=
  match find_outbound outbounds outbound_tag with
  | None => decision_none
  | Some ob =>
      {| rd_outbound := Some ob; rd_is_skip := false;
         rd_is_passthrough := bool_decide (ob_type ob = IGNORE) |}
  end.

(** The lambda [usable] *)
Definition family_usable (family : Z) (family_reachability : option ReachSnapshot) (child : Outbound)
    : bool :=
  let has_gateways := has_value (ob_gateway child) || has_value (ob_gateway6 child) in
  if has_gateways && negb (if family =? AF_INET6 then has_value (ob_gateway6 child)
                           else has_value (ob_gateway child)) then false
  else match family_reachability with
       | Some fr => match fr !! ob_tag child with
                    | Some r => for_family r family
                    | None => true
                    end
       | None => true
       end.

Definition resolve_effective_outbound_for_family (outbounds : list Outbound) (ob : Outbound)
    (selections : option (gmap string string)) (family : Z)
    (family_reachability : option ReachSnapshot) : Outbound :=
  match ob_type ob with
  | URLTEST =>
      if empty_str (resolve_urltest_selection selections (ob_tag ob)) then ob
      else
        let usable := family_usable family family_reachability in
        let fallback :=
          match List.find usable
                  (collect_urltest_leaf_interfaces (S kMaxUrltestDepth) outbounds ob ([], ∅)).1 with
          | Some child => child
          | None => ob
          end in
        match resolve_effective_outbound (S kMaxUrltestDepth) outbounds selections ob with
        | Some selected =>
            if negb (bool_decide (ob_type selected = INTERFACE)) || usable selected
            then selected else fallback
        | None => fallback
        end
  | _ => ob
  end.

(** ** Rule states *)

Inductive RuleActionType := ActMark | ActDrop | ActPass | ActSkip.

#[export] Instance RuleActionType_eq_dec : EqDecision RuleActionType.
Proof. solve_decision. Defined.

(** [struct RuleState] *)
Record RuleState := {
  rs_rule_index : nat;
  rs_list_names : list string;
  rs_set_names : list string;
  rs_outbound_tag : string;
  rs_action_type : RuleActionType;
  rs_fwmark : Z;
  rs_criteria : FirewallRuleCriteria;
  rs_effective_outbound_tag : string;
  rs_fwmark_ipv6 : option Z;
}.

Definition mark_for_family (rs : RuleState) (family : Z) : Z :=
  if family =? AF_INET6 then default (rs_fwmark rs) (rs_fwmark_ipv6 rs) else rs_fwmark rs.

Definition set_names_for (list_name : string) : list string :=
  ["kpbr4_" +:+ list_name; "kpbr6_" +:+ list_name; "kpbr4d_" +:+ list_name; "kpbr6d_" +:+ list_name]%string.

Definition rule_set_names (lists_map : gmap string ListConfig) (rule : RouteRule) : list string :=
  route_rule_lists rule ≫= (λ name, match lists_map !! name with
                                     | Some _ => set_names_for name | None => [] end).

Section States.
Context (cfg : Config) (marks : gmap string Z) (selections : option (gmap string string))
        (failure_health : option HealthSnapshot) (family_reachability : option ReachSnapshot).

Definition all_outbounds : list Outbound := default [] (cfg_outbounds cfg).
Definition lists_map : gmap string ListConfig := default ∅ (cfg_lists cfg).
Definition route_rules : list RouteRule := default [] (rc_rules (default RouteConfig_default (cfg_route cfg))).

Definition skip_state (rule_idx : nat) (rule : RouteRule) : RuleState :=
  {| rs_rule_index := rule_idx; rs_list_names := route_rule_lists rule; rs_set_names := [];
     rs_outbound_tag := rr_outbound rule; rs_action_type := ActSkip; rs_fwmark := 0;
     rs_criteria := FirewallRuleCriteria_default; rs_effective_outbound_tag := EmptyString;
     rs_fwmark_ipv6 := None |}.

(** The body of the rule loop. *)
Definition build_rule_state (rule_idx : nat) (rule : RouteRule) : RuleState :=
  if negb (route_rule_enabled rule) then skip_state rule_idx rule
  else
    let target := select_route_failure_target all_outbounds selections failure_health rule in
    let decision := resolve_route_action
      (if rft_drop target then rr_outbound rule else rft_outbound_tag target) all_outbounds in
    let moved := negb (String.eqb (rft_outbound_tag target) (rr_outbound rule)) in
    if rd_is_skip decision then skip_state rule_idx rule
    else match rd_outbound decision with
    | None => skip_state rule_idx rule
    | Some ob =>
        if rd_is_passthrough decision then
          {| rs_rule_index := rule_idx; rs_list_names := route_rule_lists rule;
             rs_set_names := rule_set_names lists_map rule; rs_outbound_tag := rr_outbound rule;
             rs_action_type := ActPass; rs_fwmark := 0; rs_criteria := FirewallRuleCriteria_default;
             rs_effective_outbound_tag := if moved then ob_tag ob else EmptyString;
             rs_fwmark_ipv6 := None |}
        else
          let effective_ob :=
            if bool_decide (ob_type ob = URLTEST)
            then resolve_effective_outbound_for_family all_outbounds ob selections AF_INET family_reachability
            else ob in
          let is_blackhole := bool_decide (ob_type effective_ob = BLACKHOLE) in
          if is_blackhole || rft_drop target then
            {| rs_rule_index := rule_idx; rs_list_names := route_rule_lists rule;
               rs_set_names := rule_set_names lists_map rule; rs_outbound_tag := rr_outbound rule;
               rs_action_type := ActDrop; rs_fwmark := 0; rs_criteria := FirewallRuleCriteria_default;
               rs_effective_outbound_tag := if rft_drop target then "(blocked)"%string else EmptyString;
               rs_fwmark_ipv6 := None |}
          else
            let fwmark := default 0 (marks !! ob_tag effective_ob) in
            let ipv6 :=
              if bool_decide (ob_type ob = URLTEST) then
                let leaf := resolve_effective_outbound_for_family all_outbounds ob selections AF_INET6
                              family_reachability in
                match marks !! ob_tag leaf with
                | Some m => if m =? fwmark then None else Some m
                | None => None
                end
              else None in
            {| rs_rule_index := rule_idx; rs_list_names := route_rule_lists rule;
               rs_set_names := rule_set_names lists_map rule; rs_outbound_tag := rr_outbound rule;
               rs_action_type := ActMark; rs_fwmark := fwmark;
               rs_criteria := FirewallRuleCriteria_default;
               rs_effective_outbound_tag := if moved then ob_tag effective_ob else EmptyString;
               rs_fwmark_ipv6 := ipv6 |}
    end.

Definition build_fw_rule_states : list RuleState := imap build_rule_state route_rules.
End States.

(** ** Pruning to the sets that exist *)

(** The members of [ListSetUsage] read here. *)
Record ListSetUsage := { lu_has_static_entries : bool; lu_has_domain_entries : bool }.

Section Prune.
Context `{I : Inet}.
Context (cfg : Config) (list_usage_fn : string → ListConfig → ListSetUsage) (ipv6_enabled : bool).

(** [list_usage_fn] is asked once per list name and call ([usage_cache]); it is a
    function here, so the cache is not visible. *)
Definition realized_sets (name : string) : list string :=
  match lists_map cfg !! name with
  | None => []
  | Some lc =>
      let usage := list_usage_fn name lc in
      (if lu_has_static_entries usage
       then ("kpbr4_" +:+ name)%string :: (if ipv6_enabled then [("kpbr6_" +:+ name)%string] else [])
       else [])
      ++ (if lu_has_domain_entries usage
          then ("kpbr4d_" +:+ name)%string :: (if ipv6_enabled then [("kpbr6d_" +:+ name)%string] else [])
          else [])
  end.

Definition prune_state (rs : RuleState) : result RuleError RuleState :=
  if bool_decide (rs_action_type rs = ActSkip) then Ok rs
  else match route_rules cfg !! rs_rule_index rs with
       | None => Ok rs
       | Some rule =>
           let! criteria := build_firewall_rule_criteria rule in
           Ok {| rs_rule_index := rs_rule_index rs; rs_list_names := rs_list_names rs;
                 rs_set_names := route_rule_lists rule ≫= realized_sets;
                 rs_outbound_tag := rs_outbound_tag rs; rs_action_type := rs_action_type rs;
                 rs_fwmark := rs_fwmark rs; rs_criteria := criteria;
                 rs_effective_outbound_tag := rs_effective_outbound_tag rs;
                 rs_fwmark_ipv6 := rs_fwmark_ipv6 rs |}
       end.

Definition prune_fw_rule_states_to_realized_sets (states : list RuleState)
    : result RuleError (list RuleState) := rmap prune_state states.
End Prune.

(** ** [FirewallState] *)

Record FirewallState := {
  fs_outbound_marks : gmap string Z;
  fs_fwmark_mask : Z;
  fs_rules : list RuleState;
  fs_urltest_selections : gmap string string;
}.

Definition FirewallState_default : FirewallState :=
  {| fs_outbound_marks := ∅; fs_fwmark_mask := 0xFFFFFFFF; fs_rules := [];
     fs_urltest_selections := ∅ |}.

Definition set_rules (s : FirewallState) (rules : list RuleState) : FirewallState :=
  {| fs_outbound_marks := fs_outbound_marks s; fs_fwmark_mask := fs_fwmark_mask s;
     fs_rules := rules; fs_urltest_selections := fs_urltest_selections s |}.

(** The swaps exchange a member with the argument: the new state and the
    caller's value afterwards. *)
Definition swap_rules (s : FirewallState) (rules : list RuleState)
    : FirewallState * list RuleState :=
  (set_rules s rules, fs_rules s).

Definition set_urltest_selections (s : FirewallState) (selections : gmap string string)
    : FirewallState :=
  {| fs_outbound_marks := fs_outbound_marks s; fs_fwmark_mask := fs_fwmark_mask s;
     fs_rules := fs_rules s; fs_urltest_selections := selections |}.

Definition swap_urltest_selections (s : FirewallState) (selections : gmap string string)
    : FirewallState * gmap string string :=
  (set_urltest_selections s selections, fs_urltest_selections s).

Definition set_urltest_selection (s : FirewallState) (urltest_tag child_tag : string) : FirewallState :=
  set_urltest_selections s (<[urltest_tag := child_tag]> (fs_urltest_selections s)).

Definition set_outbound_marks (s : FirewallState) (marks : gmap string Z) : FirewallState :=
  {| fs_outbound_marks := marks; fs_fwmark_mask := fs_fwmark_mask s;
     fs_rules := fs_rules s; fs_urltest_selections := fs_urltest_selections s |}.

Definition swap_outbound_marks (s : FirewallState) (marks : gmap string Z)
    : FirewallState * gmap string Z :=
  (set_outbound_marks s marks, fs_outbound_marks s).

Definition set_fwmark_mask (s : FirewallState) (fwmark_mask : Z) : FirewallState :=
  {| fs_outbound_marks := fs_outbound_marks s; fs_fwmark_mask := fwmark_mask;
     fs_rules := fs_rules s; fs_urltest_selections := fs_urltest_selections s |}.

Definition resolve_rule_outbound (s : FirewallState) (rule : RuleState) : string :=
  if negb (empty_str (rs_effective_outbound_tag rule)) then rs_effective_outbound_tag rule
  else default (rs_outbound_tag rule) (fs_urltest_selections s !! rs_outbound_tag rule).

(** ** Facts *)

Section Facts.
Context (cfg : Config) (marks : gmap string Z) (selections : option (gmap string string))
        (failure_health : option HealthSnapshot) (family_reachability : option ReachSnapshot).

Abbreviation obs := (all_outbounds cfg).
Abbreviation state_of :=
  (build_rule_state cfg marks selections failure_health family_reachability).
Abbreviation target_of := (select_route_failure_target obs selections failure_health).

Lemma drop_is_unavailable rule :
  rft_drop (target_of rule) = true →
  route_failure_is_unavailable
    (route_failure_health_for obs selections failure_health kFailureDepth (rr_outbound rule)) = true.
Proof.
  unfold select_route_failure_target. set (depth := kFailureDepth). clearbody depth.
  destruct (route_failure_is_unavailable _) eqn:E; [done|].
  rewrite orb_true_r. done.
Qed.

Lemma state_identity i rule :
  rs_rule_index (state_of i rule) = i ∧ rs_list_names (state_of i rule) = route_rule_lists rule
  ∧ rs_outbound_tag (state_of i rule) = rr_outbound rule.
Proof.
  unfold build_rule_state. set (t := select_route_failure_target _ _ _ _). clearbody t.
  set (r := resolve_effective_outbound_for_family). clearbody r.
  repeat case_match; done.
Qed.

Lemma state_drop i rule :
  route_rule_enabled rule = true → rft_drop (target_of rule) = true →
  rs_action_type (state_of i rule) = ActDrop
  ∧ rs_set_names (state_of i rule) = rule_set_names (lists_map cfg) rule.
Proof.
  intros He Hd. pose proof (drop_is_unavailable rule Hd) as Hu.
  apply health_kind in Hu as (ob & Hf & Ht).
  unfold build_rule_state. rewrite He, Hd. cbn [negb].
  set (t := select_route_failure_target _ _ _ _) in *. clearbody t.
  set (r := resolve_effective_outbound_for_family). clearbody r.
  unfold resolve_route_action. rewrite Hf. cbn [rd_is_skip rd_outbound rd_is_passthrough].
  rewrite bool_decide_eq_false_2 by (destruct Ht as [->|[->| ->]]; done).
  by rewrite orb_true_r.
Qed.

(** Which outbound lends its mark to the traffic of one family: the resolved
    selection when it is not an interface or is usable for the family; otherwise
    the first usable leaf of the group; otherwise the group itself. *)
Definition lends_mark (family : Z) (ob leaf : Outbound) : Prop :=
  let usable := family_usable family family_reachability in
  let leaves := (collect_urltest_leaf_interfaces (S kMaxUrltestDepth) obs ob ([], ∅)).1 in
  let resolved := resolve_effective_outbound (S kMaxUrltestDepth) obs selections ob in
  if empty_str (resolve_urltest_selection selections (ob_tag ob)) then leaf = ob
  else
    resolved = Some leaf ∧ (ob_type leaf ≠ INTERFACE ∨ usable leaf = true)
    ∨ (∀ s, resolved = Some s → ob_type s = INTERFACE ∧ usable s = false)
      ∧ (leaf ∈ leaves ∧ usable leaf = true ∨ leaf = ob ∧ ∀ l, l ∈ leaves → usable l = false).

Lemma resolve_family_lends family ob :
  ob_type ob = URLTEST →
  lends_mark family ob
    (resolve_effective_outbound_for_family obs ob selections family family_reachability).
Proof.
  intros Ht. unfold lends_mark, resolve_effective_outbound_for_family. rewrite Ht.
  destruct (empty_str _); [done|].
  set (leaves := (collect_urltest_leaf_interfaces _ _ _ _).1). clearbody leaves.
  set (resolved := resolve_effective_outbound _ _ _ _). clearbody resolved.
  set (usable := family_usable family family_reachability).
  set (fallback := match List.find usable leaves with Some c => c | None => ob end).
  assert (fallback ∈ leaves ∧ usable fallback = true
          ∨ fallback = ob ∧ ∀ l, l ∈ leaves → usable l = false) as Hfb.
  { unfold fallback. destruct (List.find usable leaves) as [c|] eqn:E.
    - left. apply find_some in E. by rewrite list_elem_of_In.
    - right. split; [done|]. intros l Hl. apply list_elem_of_In in Hl. by eapply find_none in E. }
  destruct resolved as [s|]; [|by right].
  case_bool_decide as Hi; cbn [negb orb]; [|by auto].
  destruct (usable s) eqn:Eu; [by auto|]. right. split; [|done]. by intros s' [= <-].
Qed.

Lemma state_mark i rule :
  rs_action_type (state_of i rule) = ActMark →
  route_rule_enabled rule = true ∧ rft_drop (target_of rule) = false
  ∧ ∃ ob, find_outbound obs (rft_outbound_tag (target_of rule)) = Some ob ∧ ob_type ob ≠ IGNORE
    ∧ ∀ family, family ∈ [AF_INET; AF_INET6] →
        let leaf family := if bool_decide (ob_type ob = URLTEST)
                           then resolve_effective_outbound_for_family obs ob selections family family_reachability
                           else ob in
        mark_for_family (state_of i rule) family =
        match marks !! ob_tag (leaf family) with
        | Some m => m
        | None => default 0 (marks !! ob_tag (leaf AF_INET))
        end.
Proof.
  unfold build_rule_state. set (t := select_route_failure_target _ _ _ _). clearbody t.
  set (r := resolve_effective_outbound_for_family). clearbody r.
  destruct (route_rule_enabled rule); [|done]. cbn [negb].
  unfold resolve_route_action. destruct (find_outbound obs _) as [ob|] eqn:Ef; [|done].
  cbn [rd_is_skip rd_outbound rd_is_passthrough]. case_bool_decide as Hig; [done|].
  destruct (_ || _) eqn:Ed; [done|]. apply orb_false_iff in Ed as [_ Ed].
  rewrite Ed in Ef |- *. intros _. split; [done|]. split; [done|]. exists ob. split; [done|].
  split; [done|]. intros family Hfam. cbv zeta. unfold mark_for_family.
  cbn [rs_fwmark rs_fwmark_ipv6]. rewrite !elem_of_cons, elem_of_nil in Hfam.
  destruct Hfam as [->|[->|[]]].
  - change (AF_INET =? AF_INET6) with false. cbv iota.
    by destruct (marks !! ob_tag (if bool_decide (ob_type ob = URLTEST) then _ else ob)).
  - change (AF_INET6 =? AF_INET6) with true. cbv iota. case_bool_decide.
    + destruct (marks !! ob_tag (r obs ob selections AF_INET6 family_reachability)) as [m|]; [|done].
      destruct (Z.eqb_spec m (default 0 (marks !! ob_tag (r obs ob selections AF_INET family_reachability))));
        [by subst m|done].
    + by destruct (marks !! ob_tag ob).
Qed.
End Facts.

(** ** Properties *)

(** C40. Every route rule has its state: the states are one per configured rule,
    in order and with the rule's identity; a disabled rule has no effect; and an
    enabled rule whose failure policy blocks it becomes a drop over all the
    rule's list sets (it cannot degrade to a skip, a pass-through or a mark). *)
Theorem rule_states_enforced cfg marks selections health family_reach i rule :
  route_rules cfg !! i = Some rule →
  ∃ rs, build_fw_rule_states cfg marks selections health family_reach !! i = Some rs
    ∧ length (build_fw_rule_states cfg marks selections health family_reach) = length (route_rules cfg)
    ∧ rs_rule_index rs = i ∧ rs_list_names rs = route_rule_lists rule
    ∧ rs_outbound_tag rs = rr_outbound rule
    ∧ (route_rule_enabled rule = false → rs_action_type rs = ActSkip)
    ∧ (route_rule_enabled rule = true →
       rft_drop (select_route_failure_target (all_outbounds cfg) selections health rule) = true →
       rs_action_type rs = ActDrop ∧ rs_set_names rs = rule_set_names (lists_map cfg) rule).
Proof.
  intros Hr. unfold build_fw_rule_states. rewrite list_lookup_imap, Hr. cbn [fmap option_fmap option_map].
  eexists. split; [done|]. rewrite length_imap. split; [done|].
  destruct (state_identity cfg marks selections health family_reach i rule) as (-> & -> & ->).
  split_and!; try done.
  - intros Hd. unfold build_rule_state. by rewrite Hd.
  - intros He Hd. by apply state_drop.
Qed.

Definition sample_rule (outbound : string) : RouteRule :=
  {| rr_dest_addr := None; rr_dest_port := None; rr_dscp := None; rr_enabled := None;
     rr_failure_policy := Some FALLBACK; rr_fallback_outbound := None; rr_list := Some ["vpn_list"%string];
     rr_outbound := outbound; rr_proto := None; rr_src_addr := None; rr_src_port := None |}.

Definition rule_config (rules : list RouteRule) : Config :=
  {| cfg_daemon := None; cfg_dns := None; cfg_fwmark := None; cfg_iproute := None; cfg_list_refresh := None;
     cfg_lists := None;
     cfg_outbounds := Some [vpn_a; vpn_b; auto_group];
     cfg_route := Some {| rc_inbound_interfaces := None; rc_rules := Some rules |} |}.

Lemma rule_states_enforced_witness :
  ∃ rs, build_fw_rule_states (rule_config [sample_rule "vpn_a"]) ∅ None
          (Some {["vpn_a"%string := rf_link_unavailable]}) None !! 0%nat = Some rs
        ∧ rs_action_type rs = ActDrop.
Proof.
  destruct (rule_states_enforced (rule_config [sample_rule "vpn_a"]) ∅ None
    (Some {["vpn_a"%string := rf_link_unavailable]}) None 0%nat (sample_rule "vpn_a") eq_refl)
    as (rs & Hrs & _ & _ & _ & _ & _ & Hdrop).
  exists rs. split; [exact Hrs|]. apply Hdrop; vm_compute; reflexivity.
Defined.

(** Marks follow the path: a marking rule carries, for each family, the mark
    of the outbound that serves it: the target itself, or for a urltest group the
    outbound [lends_mark] singles out for that family (an IPv6 mark is kept only
    when it differs). *)
Theorem rule_marks_follow_path cfg marks selections health family_reach i rule :
  let rs := build_rule_state cfg marks selections health family_reach i rule in
  rs_action_type rs = ActMark →
  ∃ ob leaf4 leaf6,
    find_outbound (all_outbounds cfg)
      (rft_outbound_tag (select_route_failure_target (all_outbounds cfg) selections health rule)) = Some ob
    ∧ (if bool_decide (ob_type ob = URLTEST)
       then lends_mark cfg selections family_reach AF_INET ob leaf4
            ∧ lends_mark cfg selections family_reach AF_INET6 ob leaf6
       else leaf4 = ob ∧ leaf6 = ob)
    ∧ mark_for_family rs AF_INET = default 0 (marks !! ob_tag leaf4)
    ∧ mark_for_family rs AF_INET6 = default (mark_for_family rs AF_INET) (marks !! ob_tag leaf6).
Proof.
  intros rs (_ & _ & ob & Hf & _ & Hm)%state_mark. fold rs in Hm.
  pose proof (Hm AF_INET ltac:(left)) as H4. pose proof (Hm AF_INET6 ltac:(right; left)) as H6.
  cbv zeta in H4, H6. revert H4 H6. case_bool_decide as Hu; intros H4 H6.
  - exists ob, (resolve_effective_outbound_for_family (all_outbounds cfg) ob selections AF_INET family_reach),
      (resolve_effective_outbound_for_family (all_outbounds cfg) ob selections AF_INET6 family_reach).
    rewrite bool_decide_eq_true_2 by done.
    split; [done|]. split; [split; by apply resolve_family_lends|].
    rewrite H4, H6. by destruct (marks !! _); destruct (marks !! _).
  - exists ob, ob, ob. rewrite bool_decide_eq_false_2 by done. split; [done|]. split; [done|].
    rewrite H4, H6. by destruct (marks !! ob_tag ob).
Qed.

Lemma rule_marks_follow_path_witness :
  ∃ ob leaf4 : Outbound, ob_tag ob = "auto"%string
    ∧ mark_for_family (build_rule_state (rule_config [sample_rule "auto"])
        {["vpn_a"%string := 131072; "vpn_b"%string := 196608]}
        (Some {["auto"%string := "vpn_b"%string]}) None None 0 (sample_rule "auto")) AF_INET
      = default 0 (({["vpn_a"%string := 131072; "vpn_b"%string := 196608]} : gmap string Z) !! ob_tag leaf4).
Proof.
  destruct (rule_marks_follow_path (rule_config [sample_rule "auto"])
    {["vpn_a"%string := 131072; "vpn_b"%string := 196608]}
    (Some {["auto"%string := "vpn_b"%string]}) None None 0%nat (sample_rule "auto"))
    as (ob & leaf4 & leaf6 & Hf & _ & H4 & _); [vm_compute; reflexivity|].
  exists ob, leaf4. split; [|exact H4].
  vm_compute in Hf. injection Hf as <-. reflexivity.
Defined.
