(* ===== verification/Prefilter.v ===== *)
(** * Global prefilter

    Models [build_firewall_global_prefilter_for_runtime_targets] of
    src/src/config/routing_state.cpp with the runtime targets of
    src/src/keenetic/internal_vpn_runtime_target.hpp: which ingress traffic skips
    keen-pbr, which is included by source, and where DNS redirection is off. *)

From Stdlib Require Import ZArith Lia Ascii String.
From stdpp Require Import base gmap strings list.
From S2P Require Import Prelude ConfigTypes.

Inductive InternalVpnRuntimeMatchKind := mk_interface | mk_source_pool.

#[export] Instance MatchKind_eq_dec : EqDecision InternalVpnRuntimeMatchKind.
Proof. solve_decision. Defined.

Record InternalVpnVerifiedBridgeIngress := { bi_interface : string; bi_bridge_port : string }.

Record InternalVpnRuntimeTarget := {
  vt_stable_id : string;
  vt_match_kind : InternalVpnRuntimeMatchKind;
  vt_process_clients : bool;
  vt_interface : option string;
  vt_verified_ingress_interfaces : list string;
  vt_verified_bridge_ingress_interfaces : list InternalVpnVerifiedBridgeIngress;
  vt_dns_redirect_bypass_ingress_v4 : list string;
  vt_dns_redirect_bypass_ingress_v6 : list string;
  vt_dns_redirect_local_destinations_v4 : list string;
  vt_dns_redirect_local_destinations_v6 : list string;
  vt_source_cidrs_v4 : list string;
  vt_source_cidrs_v6 : list string;
}.

Definition internal_vpn_target_bypasses_routing (t : InternalVpnRuntimeTarget) : bool :=
  negb (vt_process_clients t).

Definition internal_vpn_target_uses_destination_policies (t : InternalVpnRuntimeTarget) : bool :=
  negb (internal_vpn_target_bypasses_routing t).

(** The vectors the builder fills from ordered sets are the sets themselves. *)
Record FirewallGlobalPrefilter := {
  pf_inbound_interfaces : option (list string);
  pf_bypass_inbound_interfaces : gset string;
  pf_include_source_cidrs_v4 : gset string;
  pf_include_source_cidrs_v6 : gset string;
  pf_bypass_sources_v4 : gset (string * string);
  pf_bypass_sources_v6 : gset (string * string);
  pf_bypass_bridge_sources_v4 : gset (string * string * string);
  pf_bypass_bridge_sources_v6 : gset (string * string * string);
  pf_dns_bypass_sources_v4 : gset (string * string);
  pf_dns_bypass_sources_v6 : gset (string * string);
  pf_dns_local_destinations_v4 : gset (string * string);
  pf_dns_local_destinations_v6 : gset (string * string);
  pf_skip_established_or_dnat : bool;
  pf_skip_marked_packets : bool;
}.

Definition empty_prefilter (inbound : option (list string)) (skip_marked : bool)
    : FirewallGlobalPrefilter :=
  {| pf_inbound_interfaces := inbound; pf_bypass_inbound_interfaces := ∅;
     pf_include_source_cidrs_v4 := ∅; pf_include_source_cidrs_v6 := ∅;
     pf_bypass_sources_v4 := ∅; pf_bypass_sources_v6 := ∅;
     pf_bypass_bridge_sources_v4 := ∅; pf_bypass_bridge_sources_v6 := ∅;
     pf_dns_bypass_sources_v4 := ∅; pf_dns_bypass_sources_v6 := ∅;
     pf_dns_local_destinations_v4 := ∅; pf_dns_local_destinations_v6 := ∅;
     pf_skip_established_or_dnat := true; pf_skip_marked_packets := skip_marked |}.

(** The nested loops over interfaces and CIDRs. *)
Definition pairs {A B} (l : list A) (k : list B) : list (A * B) := l ≫= (λ a, pair a <$> k).

Definition bridge_triples (l : list InternalVpnVerifiedBridgeIngress) (cidrs : list string)
    : list (string * string * string) :=
  l ≫= (λ b, (λ c, (bi_interface b, bi_bridge_port b, c)) <$> cidrs).

(** The body of the first loop over the targets. *)
Definition prefilter_step (p : FirewallGlobalPrefilter) (t : InternalVpnRuntimeTarget)
    : FirewallGlobalPrefilter :=
  match vt_match_kind t, vt_interface t with
  | mk_interface, Some iface =>
      if vt_process_clients t then p
      else {| pf_inbound_interfaces := pf_inbound_interfaces p;
              pf_bypass_inbound_interfaces := {[iface]} ∪ pf_bypass_inbound_interfaces p;
              pf_include_source_cidrs_v4 := pf_include_source_cidrs_v4 p;
              pf_include_source_cidrs_v6 := pf_include_source_cidrs_v6 p;
              pf_bypass_sources_v4 := pf_bypass_sources_v4 p;
              pf_bypass_sources_v6 := pf_bypass_sources_v6 p;
              pf_bypass_bridge_sources_v4 := pf_bypass_bridge_sources_v4 p;
              pf_bypass_bridge_sources_v6 := pf_bypass_bridge_sources_v6 p;
              pf_dns_bypass_sources_v4 := pf_dns_bypass_sources_v4 p;
              pf_dns_bypass_sources_v6 := pf_dns_bypass_sources_v6 p;
              pf_dns_local_destinations_v4 := pf_dns_local_destinations_v4 p;
              pf_dns_local_destinations_v6 := pf_dns_local_destinations_v6 p;
              pf_skip_established_or_dnat := pf_skip_established_or_dnat p;
              pf_skip_marked_packets := pf_skip_marked_packets p |}
  | mk_interface, None => p
  | mk_source_pool, _ =>
      let ingress := vt_verified_ingress_interfaces t in
      if internal_vpn_target_uses_destination_policies t then
        {| pf_inbound_interfaces := pf_inbound_interfaces p;
           pf_bypass_inbound_interfaces := pf_bypass_inbound_interfaces p;
           pf_include_source_cidrs_v4 := list_to_set (vt_source_cidrs_v4 t) ∪ pf_include_source_cidrs_v4 p;
           pf_include_source_cidrs_v6 := list_to_set (vt_source_cidrs_v6 t) ∪ pf_include_source_cidrs_v6 p;
           pf_bypass_sources_v4 := pf_bypass_sources_v4 p;
           pf_bypass_sources_v6 := pf_bypass_sources_v6 p;
           pf_bypass_bridge_sources_v4 := pf_bypass_bridge_sources_v4 p;
           pf_bypass_bridge_sources_v6 := pf_bypass_bridge_sources_v6 p;
           pf_dns_bypass_sources_v4 :=
             list_to_set (pairs (vt_dns_redirect_bypass_ingress_v4 t) (vt_source_cidrs_v4 t))
             ∪ pf_dns_bypass_sources_v4 p;
           pf_dns_bypass_sources_v6 :=
             list_to_set (pairs (vt_dns_redirect_bypass_ingress_v6 t) (vt_source_cidrs_v6 t))
             ∪ pf_dns_bypass_sources_v6 p;
           pf_dns_local_destinations_v4 :=
             list_to_set (pairs ingress (vt_dns_redirect_local_destinations_v4 t))
             ∪ pf_dns_local_destinations_v4 p;
           pf_dns_local_destinations_v6 :=
             list_to_set (pairs ingress (vt_dns_redirect_local_destinations_v6 t))
             ∪ pf_dns_local_destinations_v6 p;
           pf_skip_established_or_dnat := pf_skip_established_or_dnat p;
           pf_skip_marked_packets := pf_skip_marked_packets p |}
      else
        {| pf_inbound_interfaces := pf_inbound_interfaces p;
           pf_bypass_inbound_interfaces := pf_bypass_inbound_interfaces p;
           pf_include_source_cidrs_v4 := pf_include_source_cidrs_v4 p;
           pf_include_source_cidrs_v6 := pf_include_source_cidrs_v6 p;
           pf_bypass_sources_v4 := list_to_set (pairs ingress (vt_source_cidrs_v4 t)) ∪ pf_bypass_sources_v4 p;
           pf_bypass_sources_v6 := list_to_set (pairs ingress (vt_source_cidrs_v6 t)) ∪ pf_bypass_sources_v6 p;
           pf_bypass_bridge_sources_v4 :=
             list_to_set (bridge_triples (vt_verified_bridge_ingress_interfaces t) (vt_source_cidrs_v4 t))
             ∪ pf_bypass_bridge_sources_v4 p;
           pf_bypass_bridge_sources_v6 :=
             list_to_set (bridge_triples (vt_verified_bridge_ingress_interfaces t) (vt_source_cidrs_v6 t))
             ∪ pf_bypass_bridge_sources_v6 p;
           pf_dns_bypass_sources_v4 := pf_dns_bypass_sources_v4 p;
           pf_dns_bypass_sources_v6 := pf_dns_bypass_sources_v6 p;
           pf_dns_local_destinations_v4 := pf_dns_local_destinations_v4 p;
           pf_dns_local_destinations_v6 := pf_dns_local_destinations_v6 p;
           pf_skip_established_or_dnat := pf_skip_established_or_dnat p;
           pf_skip_marked_packets := pf_skip_marked_packets p |}
  end.

(** The second loop: interfaces appended to a restricted inbound list. *)
Fixpoint extend_inbound (bypass : gset string) (targets : list InternalVpnRuntimeTarget)
    (inbound : list string) : list string :=
  match targets with
  | [] => inbound
  | t :: rest =>
      match vt_match_kind t, vt_interface t with
      | mk_interface, Some iface =>
          if negb (vt_process_clients t) || bool_decide (iface ∈ bypass) || bool_decide (iface ∈ inbound)
          then extend_inbound bypass rest inbound
          else extend_inbound bypass rest (inbound ++ [iface])
      | _, _ => extend_inbound bypass rest inbound
      end
  end.

Definition build_firewall_global_prefilter_for_runtime_targets (cfg : Config)
    (targets : list InternalVpnRuntimeTarget) : FirewallGlobalPrefilter :=
  let skip_marked :=
    default true (dc_skip_marked_packets (default DaemonConfig_default (cfg_daemon cfg))) in
  let inbound :=
    match rc_inbound_interfaces (default RouteConfig_default (cfg_route cfg)) with
    | Some (i :: rest) => Some (i :: rest)
    | _ => None
    end in
  let p := fold_left prefilter_step targets (empty_prefilter inbound skip_marked) in
  {| pf_inbound_interfaces :=
       match inbound with
       | Some l => Some (extend_inbound (pf_bypass_inbound_interfaces p) targets l)
       | None => None
       end;
     pf_bypass_inbound_interfaces := pf_bypass_inbound_interfaces p;
     pf_include_source_cidrs_v4 := pf_include_source_cidrs_v4 p;
     pf_include_source_cidrs_v6 := pf_include_source_cidrs_v6 p;
     pf_bypass_sources_v4 := pf_bypass_sources_v4 p; pf_bypass_sources_v6 := pf_bypass_sources_v6 p;
     pf_bypass_bridge_sources_v4 := pf_bypass_bridge_sources_v4 p;
     pf_bypass_bridge_sources_v6 := pf_bypass_bridge_sources_v6 p;
     pf_dns_bypass_sources_v4 := pf_dns_bypass_sources_v4 p;
     pf_dns_bypass_sources_v6 := pf_dns_bypass_sources_v6 p;
     pf_dns_local_destinations_v4 := pf_dns_local_destinations_v4 p;
     pf_dns_local_destinations_v6 := pf_dns_local_destinations_v6 p;
     pf_skip_established_or_dnat := pf_skip_established_or_dnat p;
     pf_skip_marked_packets := pf_skip_marked_packets p |}.

(** ** Facts *)

(** A set accumulated over the targets holds what some target contributes. *)
Lemma fold_contributions {A} `{Countable A} (proj : FirewallGlobalPrefilter → gset A)
    (contrib : InternalVpnRuntimeTarget → A → Prop) targets p x :
  (∀ p t, x ∈ proj (prefilter_step p t) ↔ x ∈ proj p ∨ contrib t x) →
  x ∈ proj (fold_left prefilter_step targets p) ↔ x ∈ proj p ∨ ∃ t, t ∈ targets ∧ contrib t x.
Proof.
  intros Hs. revert p. induction targets as [|t ts IH]; intros p; cbn [fold_left].
  - setoid_rewrite elem_of_nil. naive_solver.
  - rewrite IH, Hs. setoid_rewrite elem_of_cons. naive_solver.
Qed.

Lemma elem_of_pairs {A B} (l : list A) (k : list B) a b : (a, b) ∈ pairs l k ↔ a ∈ l ∧ b ∈ k.
Proof.
  unfold pairs. rewrite list_elem_of_bind. split.
  - intros (x & (y & [= -> ->] & Hy)%list_elem_of_fmap & Hx). done.
  - intros [Ha Hb]. exists a. split; [|done]. by apply list_elem_of_fmap_2.
Qed.

Lemma elem_of_triples l cidrs i b c :
  (i, b, c) ∈ bridge_triples l cidrs ↔
  (∃ x, x ∈ l ∧ bi_interface x = i ∧ bi_bridge_port x = b) ∧ c ∈ cidrs.
Proof.
  unfold bridge_triples. rewrite list_elem_of_bind. split.
  - intros (x & (y & [= -> -> ->] & Hy)%list_elem_of_fmap & Hx). eauto.
  - intros [(x & Hx & <- & <-) Hc]. exists x. split; [|done].
    apply list_elem_of_fmap. eauto.
Qed.

Ltac prefilter_cases :=
  intros q t; unfold prefilter_step, internal_vpn_target_uses_destination_policies,
    internal_vpn_target_bypasses_routing;
  destruct (vt_match_kind t) eqn:?, (vt_interface t) eqn:?, (vt_process_clients t) eqn:?; cbn;
  rewrite ?elem_of_union, ?elem_of_list_to_set, ?elem_of_singleton, ?elem_of_pairs, ?elem_of_triples;
  naive_solver.

(** Off-pool targets: the ones whose clients bypass keen-pbr. *)
Definition off_pool (t : InternalVpnRuntimeTarget) : Prop :=
  vt_match_kind t = mk_source_pool ∧ vt_process_clients t = false.

Lemma bypass_interfaces_spec targets p x :
  x ∈ pf_bypass_inbound_interfaces (fold_left prefilter_step targets p) ↔
  x ∈ pf_bypass_inbound_interfaces p
  ∨ ∃ t, t ∈ targets ∧ vt_match_kind t = mk_interface ∧ vt_interface t = Some x
         ∧ vt_process_clients t = false.
Proof.
  apply (fold_contributions pf_bypass_inbound_interfaces
    (λ t x, vt_match_kind t = mk_interface ∧ vt_interface t = Some x ∧ vt_process_clients t = false)).
  prefilter_cases.
Qed.

Lemma bypass_v4_spec targets p i c :
  (i, c) ∈ pf_bypass_sources_v4 (fold_left prefilter_step targets p) ↔
  (i, c) ∈ pf_bypass_sources_v4 p
  ∨ ∃ t, t ∈ targets ∧ off_pool t ∧ i ∈ vt_verified_ingress_interfaces t ∧ c ∈ vt_source_cidrs_v4 t.
Proof.
  unfold off_pool.
  apply (fold_contributions pf_bypass_sources_v4 (λ t x, (vt_match_kind t = mk_source_pool
    ∧ vt_process_clients t = false) ∧ x.1 ∈ vt_verified_ingress_interfaces t ∧ x.2 ∈ vt_source_cidrs_v4 t)).
  prefilter_cases.
Qed.

Lemma bypass_v6_spec targets p i c :
  (i, c) ∈ pf_bypass_sources_v6 (fold_left prefilter_step targets p) ↔
  (i, c) ∈ pf_bypass_sources_v6 p
  ∨ ∃ t, t ∈ targets ∧ off_pool t ∧ i ∈ vt_verified_ingress_interfaces t ∧ c ∈ vt_source_cidrs_v6 t.
Proof.
  unfold off_pool.
  apply (fold_contributions pf_bypass_sources_v6 (λ t x, (vt_match_kind t = mk_source_pool
    ∧ vt_process_clients t = false) ∧ x.1 ∈ vt_verified_ingress_interfaces t ∧ x.2 ∈ vt_source_cidrs_v6 t)).
  prefilter_cases.
Qed.

Lemma bypass_bridge_v4_spec targets p i b c :
  (i, b, c) ∈ pf_bypass_bridge_sources_v4 (fold_left prefilter_step targets p) ↔
  (i, b, c) ∈ pf_bypass_bridge_sources_v4 p
  ∨ ∃ t, t ∈ targets ∧ off_pool t
      ∧ (∃ x, x ∈ vt_verified_bridge_ingress_interfaces t ∧ bi_interface x = i ∧ bi_bridge_port x = b)
      ∧ c ∈ vt_source_cidrs_v4 t.
Proof.
  unfold off_pool.
  apply (fold_contributions pf_bypass_bridge_sources_v4 (λ t y, (vt_match_kind t = mk_source_pool
    ∧ vt_process_clients t = false) ∧ (∃ x, x ∈ vt_verified_bridge_ingress_interfaces t
      ∧ bi_interface x = y.1.1 ∧ bi_bridge_port x = y.1.2) ∧ y.2 ∈ vt_source_cidrs_v4 t)).
  prefilter_cases.
Qed.

(** A target whose clients are processed on an interface that is not bypassed. *)
Definition admits (bypass : gset string) (t : InternalVpnRuntimeTarget) (x : string) : Prop :=
  vt_match_kind t = mk_interface ∧ vt_interface t = Some x ∧ vt_process_clients t = true
  ∧ (x ∉ bypass).

Lemma extend_inbound_step bypass t ts inbound :
  (extend_inbound bypass (t :: ts) inbound = extend_inbound bypass ts inbound
   ∧ ∀ x, admits bypass t x → x ∈ inbound)
  ∨ ∃ x, extend_inbound bypass (t :: ts) inbound = extend_inbound bypass ts (inbound ++ [x])
         ∧ (x ∉ inbound) ∧ ∀ y, admits bypass t y ↔ y = x.
Proof.
  unfold admits. cbn [extend_inbound].
  destruct (vt_match_kind t); [|left; split; [done|intros x (? & _); done]].
  destruct (vt_interface t) as [iface|]; [|left; split; [done|intros x (_ & ? & _); done]].
  destruct (vt_process_clients t); cbn [negb orb]; [|left; split; [done|intros x (_ & _ & ? & _); done]].
  case_bool_decide as Hb; cbn [orb].
  { left. split; [done|]. intros x (_ & [= <-] & _ & ?). done. }
  case_bool_decide as Hin.
  { left. split; [done|]. intros x (_ & [= <-] & _). done. }
  right. exists iface. split; [done|]. split; [done|]. intros y. split; [intros (_ & [= <-] & _); done|].
  intros ->. done.
Qed.

Lemma extend_inbound_spec bypass targets inbound :
  ∃ added, extend_inbound bypass targets inbound = inbound ++ added
    ∧ (NoDup inbound → NoDup (inbound ++ added))
    ∧ ∀ x, x ∈ inbound ++ added ↔ x ∈ inbound ∨ ∃ t, t ∈ targets ∧ admits bypass t x.
Proof.
  revert inbound. induction targets as [|t ts IH]; intros inbound.
  { exists []. rewrite app_nil_r. split_and!; [done|done|]. intros x. split; [by left|].
    intros [|(t & ?%elem_of_nil & _)]; done. }
  destruct (extend_inbound_step bypass t ts inbound) as [[-> Hno]|(iface & -> & Hnew & Had)].
  - destruct (IH inbound) as (a & E & Hn & Hx). exists a. split_and!; [done|done|].
    intros x. rewrite Hx. split.
    + intros [|(t' & ? & ?)]; [by left|right; exists t'; split; [by right|done]].
    + intros [|(t' & [->|?]%elem_of_cons & ?)]; [by left|left; by apply Hno|right; eauto].
  - destruct (IH (inbound ++ [iface])) as (a & E & Hn & Hx). exists (iface :: a).
    rewrite <- app_assoc in E, Hn. split; [done|]. split.
    + intros Hnd. apply Hn. apply NoDup_app. split_and!; [done| |by apply NoDup_singleton].
      intros x Hx' ->%list_elem_of_singleton. done.
    + intros x. specialize (Hx x). rewrite <- app_assoc in Hx. simpl in Hx.
      rewrite Hx, elem_of_app, list_elem_of_singleton. split.
      * intros [[?| ->]|(t' & ? & ?)]; [by left| |].
        -- right. exists t. split; [by left|]. by apply Had.
        -- right. exists t'. split; [by right|done].
      * intros [|(t' & [->|?]%elem_of_cons & Ht)]; [by left; left| |right; eauto].
        left. right. by apply Had.
Qed.

(** ** Properties *)

(** Ingress ownership: traffic bypasses keen-pbr only through a target whose
    clients are switched off, and then only on an exact interface (an interface
    target's own, or a verified ingress interface or bridge port of the target
    together with its client pool): a source pool alone never grants a bypass.
    A restricted inbound list keeps the configured interfaces first, gains only
    interfaces of processed targets that are not bypassed, and gains them once. *)
Theorem prefilter_ingress_owned cfg targets :
  let p := build_firewall_global_prefilter_for_runtime_targets cfg targets in
  (∀ x, x ∈ pf_bypass_inbound_interfaces p ↔
     ∃ t, t ∈ targets ∧ vt_match_kind t = mk_interface ∧ vt_interface t = Some x
          ∧ vt_process_clients t = false)
  ∧ (∀ i c, (i, c) ∈ pf_bypass_sources_v4 p ↔
       ∃ t, t ∈ targets ∧ off_pool t ∧ i ∈ vt_verified_ingress_interfaces t ∧ c ∈ vt_source_cidrs_v4 t)
  ∧ (∀ i c, (i, c) ∈ pf_bypass_sources_v6 p ↔
       ∃ t, t ∈ targets ∧ off_pool t ∧ i ∈ vt_verified_ingress_interfaces t ∧ c ∈ vt_source_cidrs_v6 t)
  ∧ (∀ i b c, (i, b, c) ∈ pf_bypass_bridge_sources_v4 p ↔
       ∃ t, t ∈ targets ∧ off_pool t
         ∧ (∃ x, x ∈ vt_verified_bridge_ingress_interfaces t ∧ bi_interface x = i ∧ bi_bridge_port x = b)
         ∧ c ∈ vt_source_cidrs_v4 t)
  ∧ match rc_inbound_interfaces (default RouteConfig_default (cfg_route cfg)) with
    | Some (i0 :: rest) =>
        ∃ added, pf_inbound_interfaces p = Some ((i0 :: rest) ++ added)
          ∧ (NoDup (i0 :: rest) → NoDup ((i0 :: rest) ++ added))
          ∧ ∀ x, x ∈ (i0 :: rest) ++ added ↔ x ∈ i0 :: rest
              ∨ ∃ t, t ∈ targets ∧ admits (pf_bypass_inbound_interfaces p) t x
    | _ => pf_inbound_interfaces p = None
    end.
Proof.
  cbv zeta. unfold build_firewall_global_prefilter_for_runtime_targets.
  set (p0 := empty_prefilter _ _). cbn [pf_bypass_inbound_interfaces pf_bypass_sources_v4
    pf_bypass_sources_v6 pf_bypass_bridge_sources_v4 pf_inbound_interfaces].
  split; [intros x; rewrite bypass_interfaces_spec; set_solver|].
  split; [intros i c; rewrite bypass_v4_spec; set_solver|].
  split; [intros i c; rewrite bypass_v6_spec; set_solver|].
  split; [intros i b c; rewrite bypass_bridge_v4_spec; set_solver|].
  destruct (rc_inbound_interfaces _) as [[|i0 rest]|]; [done| |done].
  destruct (extend_inbound_spec (pf_bypass_inbound_interfaces (fold_left prefilter_step targets p0))
    targets (i0 :: rest)) as (added & -> & Hn & Hx). exists added. done.
Qed.
