(* ===== verification/UrltestSelect.v ===== *)
(** * Urltest selection

    The per-group state of src/src/routing/urltest_manager.{hpp,cpp}, the choice
    of a child ([select_outbound_from_state]) and the effect of one round of
    probe results on a group ([commit_probe_results] up to the publication of the
    candidate state). The manager's locking, generations and retries are in
    UrltestManager.v. *)

From Stdlib Require Import ZArith Lia Ascii String.
From stdpp Require Import base gmap strings list sorting.
From S2P Require Import Prelude ConfigTypes CircuitBreaker.
Open Scope Z_scope.

(** [struct URLTestResult] *)
Record URLTestResult := {
  tr_success : bool;
  tr_latency_ms : Z;   (* uint32_t *)
  tr_error : string;
  tr_measured_at : Z;
}.

(** One [CircuitBreaker] object: its configuration and entries. *)
Record Breaker := { br_config : CircuitBreakerConfig; br_entries : CbEntries }.

Definition Breaker_new (config : CircuitBreakerConfig) : Breaker :=
  {| br_config := config; br_entries := ∅ |}.

Definition breaker_with (b : Breaker) (es : CbEntries) : Breaker :=
  {| br_config := br_config b; br_entries := es |}.

Definition breaker_state (b : Breaker) (tag : string) : CircuitState :=
  circuit_state (br_entries b) tag.

(** [end_request] followed by [record_success] or [record_failure]. *)
Definition breaker_record (b : Breaker) (tag : string) (success : bool) (now : Z) : Breaker :=
  let es := end_request (br_entries b) tag in
  breaker_with b (if success then record_success (br_config b) es tag
                  else record_failure (br_config b) es tag now).

(** [struct UrltestState] *)
Record UrltestState := {
  us_config : Outbound;
  us_last_results : gmap string URLTestResult;
  us_circuit_breakers : gmap string Breaker;
  us_direct_child_interfaces : gmap string string;
  us_priority_recovery_successes : gmap string Z;   (* uint32_t *)
  us_selected_outbound : string;
  us_scheduler_task_id : Z;
  us_probe_inflight : bool;
  us_selection_pending : bool;
  us_generation : Z;
  us_external_health_request_serial : Z;
  us_external_health_completed_serial : Z;
  us_probe_external_health_serial : Z;
  us_external_health_failures : Z;
  us_external_health_retry_task_id : Z;
  us_external_health_retry_scheduling : bool;
  us_external_health_retry_epoch : Z;
}.

(** [enum class UrltestSelectionChangeReason] *)
Inductive UrltestSelectionChangeReason :=
  | reason_initial | reason_previous_unhealthy | reason_healthy_rebalance.

#[export] Instance UrltestSelectionChangeReason_eq_dec : EqDecision UrltestSelectionChangeReason.
Proof. solve_decision. Defined.

(** [struct UrltestSelectionChange] *)
Record UrltestSelectionChange := {
  sc_urltest_tag : string;
  sc_probe_generation : Z;
  sc_previous_child_tag : string;
  sc_new_child_tag : string;
  sc_reason : UrltestSelectionChangeReason;
}.

Definition should_cleanup_retired_urltest_flows (configured_mode : option ConntrackOnSwitch)
    (reason : UrltestSelectionChangeReason) (previous_child_is_selector : bool) : bool :=
  if bool_decide (reason = reason_initial) then false
  else match configured_mode with
       | Some DELETE => true
       | Some DELETE_ON_FAILURE => bool_decide (reason = reason_previous_unhealthy)
       | Some PRESERVE => false
       | None => bool_decide (reason = reason_previous_unhealthy) && negb previous_child_is_selector
       end.

(** ** Selection *)

(** The stable sort of the group indices by their 32-bit weight. *)
Definition weight_lt (a b : Z * OutboundGroup) : bool := fst a <? fst b.

Definition weighted_groups (groups : list OutboundGroup) : list OutboundGroup :=
  snd <$> stable_sort weight_lt ((λ g, (u32 (default 1 (og_weight g)), g)) <$> groups).

Definition prefer_declared_priority (s : UrltestState) : bool :=
  bool_decide (default LATENCY (ob_selection_mode (us_config s)) = PRIORITY).

Definition healthy_result (s : UrltestState) (child_tag : string) : option URLTestResult :=
  if prefer_declared_priority s
     && bool_decide (is_Some (us_priority_recovery_successes s !! child_tag)) then None
  else
    match us_circuit_breakers s !! child_tag with
    | None => None
    | Some cb =>
        if bool_decide (breaker_state cb child_tag ≠ cs_closed) then None
        else match us_last_results s !! child_tag with
             | None => None
             | Some r => if tr_success r then Some r else None
             end
    end.

(** The smallest latency of the healthy children, from UINT32_MAX. *)
Definition min_latency (s : UrltestState) (children : list string) : Z :=
  fold_left (λ m c, match healthy_result s c with
                    | None => m
                    | Some r => Z.min m (tr_latency_ms r)
                    end) children u32_max.

Definition tolerance (s : UrltestState) : Z := u32 (default 100 (ob_tolerance_ms (us_config s))).

Definition within (s : UrltestState) (limit : Z) (child_tag : string) : bool :=
  match healthy_result s child_tag with
  | None => false
  | Some r => tr_latency_ms r <=? limit
  end.

Fixpoint first_such (p : string → bool) (l : list string) : option string :=
  match l with
  | [] => None
  | c :: rest => if p c then Some c else first_such p rest
  end.

(** One iteration of the loop over the groups; [None] is [continue]. *)
Definition select_in_group (s : UrltestState) (group : OutboundGroup) : option string :=
  let children := og_outbounds group in
  if prefer_declared_priority s then
    first_such (λ c, bool_decide (is_Some (healthy_result s c))) children
  else
    let m := min_latency s children in
    if m =? u32_max then None
    else
      let tolerated := u64 (m + tolerance s) in
      let selected := us_selected_outbound s in
      if negb (empty_str selected) && bool_decide (selected ∈ children)
         && within s tolerated selected
      then Some selected
      else first_such (within s tolerated) children.

Fixpoint select_loop (s : UrltestState) (groups : list OutboundGroup) : string :=
  match groups with
  | [] => EmptyString
  | g :: rest => match select_in_group s g with
                 | Some c => c
                 | None => select_loop s rest
                 end
  end.

Definition select_outbound_from_state (s : UrltestState) : string :=
  match ob_outbound_groups (us_config s) with
  | None => EmptyString
  | Some groups => select_loop s (weighted_groups groups)
  end.

(** ** One round of results *)

(** The fields of the state a commit replaces; the others keep their values. *)
Definition with_probe_fields (s : UrltestState) (results : gmap string URLTestResult)
    (breakers : gmap string Breaker) (recovery : gmap string Z) (selected : string) : UrltestState :=
  {| us_config := us_config s; us_last_results := results; us_circuit_breakers := breakers;
     us_direct_child_interfaces := us_direct_child_interfaces s;
     us_priority_recovery_successes := recovery; us_selected_outbound := selected;
     us_scheduler_task_id := us_scheduler_task_id s; us_probe_inflight := us_probe_inflight s;
     us_selection_pending := us_selection_pending s; us_generation := us_generation s;
     us_external_health_request_serial := us_external_health_request_serial s;
     us_external_health_completed_serial := us_external_health_completed_serial s;
     us_probe_external_health_serial := us_probe_external_health_serial s;
     us_external_health_failures := us_external_health_failures s;
     us_external_health_retry_task_id := us_external_health_retry_task_id s;
     us_external_health_retry_scheduling := us_external_health_retry_scheduling s;
     us_external_health_retry_epoch := us_external_health_retry_epoch s |}.

Definition recovery_success_threshold (s : UrltestState) : Z :=
  u32 (default 2 (cbc_success_threshold
         (default CircuitBreakerConfig_default (ob_circuit_breaker (us_config s))))).

(** The quarantine counters after one result of a direct priority child. *)
Definition update_recovery (threshold : Z) (previous_selected child_tag : string) (success : bool)
    (recovery : gmap string Z) : gmap string Z :=
  if success then
    match recovery !! child_tag with
    | None => recovery
    | Some n =>
        let n' := u32 (n + 1) in
        if threshold <=? n' then delete child_tag recovery else <[child_tag := n']> recovery
    end
  else if String.eqb child_tag previous_selected
          || bool_decide (is_Some (recovery !! child_tag))
       then <[child_tag := 0]> recovery
       else recovery.

(** The loop body for one result; [now] is the clock [record_failure] reads. *)
Definition commit_result (now : string → Z) (previous_selected : string) (s : UrltestState)
    (c : string * URLTestResult) : UrltestState :=
  let '(child_tag, result) := c in
  match us_circuit_breakers s !! child_tag with
  | None => s
  | Some cb =>
      with_probe_fields s (<[child_tag := result]> (us_last_results s))
        (<[child_tag := breaker_record cb child_tag (tr_success result) (now child_tag)]>
           (us_circuit_breakers s))
        (if prefer_declared_priority s
            && bool_decide (is_Some (us_direct_child_interfaces s !! child_tag))
         then update_recovery (recovery_success_threshold s) previous_selected child_tag
                (tr_success result) (us_priority_recovery_successes s)
         else us_priority_recovery_successes s)
        (us_selected_outbound s)
  end.

Definition commit_results (now : string → Z) (s : UrltestState) (results : gmap string URLTestResult)
    : UrltestState :=
  fold_left (commit_result now (us_selected_outbound s)) (map_to_list results) s.

(** Whether the child that is left was healthy in the candidate state. *)
Definition previous_healthy (s : UrltestState) (previous : string) : bool :=
  match us_last_results s !! previous, us_circuit_breakers s !! previous with
  | Some r, Some cb => tr_success r && bool_decide (breaker_state cb previous = cs_closed)
  | _, _ => false
  end.

Definition change_reason (s : UrltestState) (previous : string) : UrltestSelectionChangeReason :=
  if empty_str previous then reason_initial
  else if previous_healthy s previous then reason_healthy_rebalance
  else reason_previous_unhealthy.

(** The candidate state of a commit and the transition it announces. *)
Definition commit_prepare (now : string → Z) (urltest_tag : string) (generation : Z)
    (s : UrltestState) (results : gmap string URLTestResult)
    : UrltestState * option UrltestSelectionChange :=
  let previous := us_selected_outbound s in
  let s1 := commit_results now s results in
  let new := select_outbound_from_state s1 in
  (with_probe_fields s1 (us_last_results s1) (us_circuit_breakers s1)
     (us_priority_recovery_successes s1) new,
   if String.eqb new previous then None
   else Some {| sc_urltest_tag := urltest_tag; sc_probe_generation := generation;
                sc_previous_child_tag := previous; sc_new_child_tag := new;
                sc_reason := change_reason s1 previous |}).

(** ** Facts about the selection *)

Lemma first_such_some p l c :
  first_such p l = Some c →
  ∃ l1 l2, l = l1 ++ c :: l2 ∧ p c = true ∧ ∀ x, x ∈ l1 → p x = false.
Proof.
  induction l as [|x l IH]; simpl; [done|].
  destruct (p x) eqn:Ep; [intros [= ->]|].
  - exists [], l. split_and!; [done|done|]. by intros y ?%not_elem_of_nil.
  - intros (l1 & l2 & -> & Hc & Hl)%IH. exists (x :: l1), l2.
    split_and!; [done|done|]. by intros y [->|Hy]%elem_of_cons; [|apply Hl].
Qed.

Lemma first_such_none p l : first_such p l = None → ∀ c, c ∈ l → p c = false.
Proof.
  induction l as [|x l IH]; simpl; [intros _ c []%not_elem_of_nil|].
  destruct (p x) eqn:Ep; [done|]. by intros H c [->|Hc]%elem_of_cons; [|apply IH].
Qed.

Section Select.
Context (s : UrltestState).

(** The children the selection may choose. *)
Definition usable (c : string) : Prop :=
  ∃ r, healthy_result s c = Some r
       ∧ (prefer_declared_priority s = true ∨ tr_latency_ms r < u32_max).

Definition is_min_latency (children : list string) (m : Z) : Prop :=
  (∃ c r, c ∈ children ∧ healthy_result s c = Some r ∧ tr_latency_ms r = m)
  ∧ ∀ c r, c ∈ children → healthy_result s c = Some r → m ≤ tr_latency_ms r.

Definition min_step (m : Z) (c : string) : Z :=
  match healthy_result s c with None => m | Some r => Z.min m (tr_latency_ms r) end.

Lemma min_step_fold l m0 :
  let m := fold_left min_step l m0 in
  (m = m0 ∨ ∃ c r, c ∈ l ∧ healthy_result s c = Some r ∧ tr_latency_ms r = m)
  ∧ m ≤ m0 ∧ ∀ c r, c ∈ l → healthy_result s c = Some r → m ≤ tr_latency_ms r.
Proof.
  revert m0. induction l as [|x l IH]; intros m0; cbn [fold_left].
  { split_and!; [by left|lia|]. by intros ?? ?%not_elem_of_nil. }
  destruct (IH (min_step m0 x)) as (H1 & H2 & H3). set (m := fold_left min_step l _) in *.
  assert (min_step m0 x ≤ m0) as Hx by (unfold min_step; destruct (healthy_result s x); lia).
  split_and!; [|lia|].
  - destruct H1 as [H1|(c & r & ? & ?)]; [|right; exists c, r; split; [by right|done]].
    revert H1. unfold min_step at 1. destruct (healthy_result s x) as [r|] eqn:Er; [|by left].
    destruct (Z.min_spec m0 (tr_latency_ms r)) as [[_ ->]|[_ ->]]; [by left|].
    intros H1. right. exists x, r. split_and!; [by left|done|done].
  - intros c r [->|Hc]%elem_of_cons Hr; [|by eapply H3].
    unfold min_step in Hx, H2. rewrite Hr in H2. lia.
Qed.

Lemma min_latency_usable children :
  prefer_declared_priority s = false →
  (min_latency s children = u32_max → ∀ c, c ∈ children → ¬ usable c)
  ∧ (min_latency s children ≠ u32_max →
     min_latency s children < u32_max ∧ is_min_latency children (min_latency s children)).
Proof.
  intros Hp. destruct (min_step_fold children u32_max) as (H1 & H2 & H3).
  change (fold_left min_step children u32_max) with (min_latency s children) in *.
  split.
  - intros Hm c Hc (r & Hr & [?|Hl]); [congruence|]. specialize (H3 c r Hc Hr). lia.
  - intros Hm. split; [lia|]. split; [|done]. by destruct H1.
Qed.

(** What the choice in one group promises. *)
Definition best_child (children : list string) (sel : string) : Prop :=
  if prefer_declared_priority s then
    ∃ l1 l2, children = l1 ++ sel :: l2 ∧ usable sel ∧ ∀ c, c ∈ l1 → ¬ usable c
  else
    ∃ m, is_min_latency children m ∧ sel ∈ children
      ∧ within s (m + tolerance s) sel = true
      ∧ (us_selected_outbound s ≠ EmptyString → us_selected_outbound s ∈ children →
         within s (m + tolerance s) (us_selected_outbound s) = true → sel = us_selected_outbound s)
      ∧ (sel = us_selected_outbound s ∨
         ∃ l1 l2, children = l1 ++ sel :: l2
                  ∧ ∀ c, c ∈ l1 → within s (m + tolerance s) c = false).

Context (Hu32 : ∀ c r, us_last_results s !! c = Some r → is_u32 (tr_latency_ms r)).

Lemma healthy_result_last c r : healthy_result s c = Some r → us_last_results s !! c = Some r.
Proof.
  unfold healthy_result. destruct (_ && _); [done|].
  destruct (us_circuit_breakers s !! c); [|done]. case_bool_decide; [done|].
  destruct (us_last_results s !! c) as [r'|]; [|done]. by destruct (tr_success r').
Qed.

Lemma min_latency_u32 children m : is_min_latency children m → is_u32 m.
Proof. intros [(c & r & _ & Hr & <-) _]. eapply Hu32, healthy_result_last, Hr. Qed.

Lemma select_in_group_spec g :
  match select_in_group s g with
  | Some c => best_child (og_outbounds g) c
  | None => ∀ c, c ∈ og_outbounds g → ¬ usable c
  end.
Proof.
  unfold select_in_group, best_child. destruct (prefer_declared_priority s) eqn:Hp.
  - assert (∀ c, bool_decide (is_Some (healthy_result s c)) = false → ¬ usable c) as Hn.
    { intros c ?%bool_decide_eq_false (r & Hr & _). naive_solver. }
    destruct (first_such _ _) as [c|] eqn:E.
    + apply first_such_some in E as (l1 & l2 & E & [r Hr]%bool_decide_eq_true & Hl).
      exists l1, l2. split; [done|]. split; [exists r; by auto|]. intros x Hx. by apply Hn, Hl.
    + intros c Hc. apply Hn. exact (first_such_none _ _ E c Hc).
  - destruct (min_latency_usable (og_outbounds g) Hp) as [Hz Hm].
    set (m := min_latency s (og_outbounds g)) in *.
    destruct (Z.eqb_spec m u32_max) as [Em|Em]; [by apply Hz|].
    destruct (Hm Em) as [Hlt Hmin]. pose proof (min_latency_u32 _ _ Hmin) as Hmu.
    replace (u64 (m + tolerance s)) with (m + tolerance s).
    2:{ symmetry. unfold u64, wrap. apply Z.mod_small. unfold tolerance.
        pose proof (u32_range (default 100 (ob_tolerance_ms (us_config s)))).
        unfold is_u32 in *. lia. }
    destruct (negb _ && _ && _) eqn:Ec.
    + apply andb_prop in Ec as [[Ee Ei%bool_decide_eq_true]%andb_prop Ew].
      exists m. split_and!; [done|done|done|done|by left].
    + assert (us_selected_outbound s ≠ EmptyString → us_selected_outbound s ∈ og_outbounds g →
              within s (m + tolerance s) (us_selected_outbound s) = true → False) as Hno.
      { intros He Hi Hw. apply empty_str_false in He. rewrite He, Hw in Ec. simpl in Ec.
        rewrite bool_decide_true in Ec; done. }
      destruct (first_such _ _) as [c|] eqn:E.
      * apply first_such_some in E as (l1 & l2 & E & Hw & Hl). exists m.
        split_and!; [done|rewrite E; apply elem_of_app; right; left|done| |right; eauto].
        intros. exfalso. eauto.
      * destruct Hmin as [(c & r & Hc & Hr & Hl) _].
        pose proof (first_such_none _ _ E c Hc) as Hw. unfold within in Hw. rewrite Hr in Hw.
        pose proof (u32_range (default 100 (ob_tolerance_ms (us_config s)))) as Ht.
        fold (tolerance s) in Ht. unfold is_u32 in *. lia.
Qed.

Lemma select_loop_spec groups :
  (select_loop s groups = EmptyString ∧ ∀ g c, g ∈ groups → c ∈ og_outbounds g → ¬ usable c)
  ∨ ∃ before g after, groups = before ++ g :: after
      ∧ (∀ g' c, g' ∈ before → c ∈ og_outbounds g' → ¬ usable c)
      ∧ best_child (og_outbounds g) (select_loop s groups).
Proof.
  induction groups as [|g groups IH]; cbn [select_loop].
  { left. split; [done|]. by intros ?? ?%not_elem_of_nil. }
  pose proof (select_in_group_spec g) as Hg. destruct (select_in_group s g) as [c|].
  { right. exists [], g, groups. split_and!; [done| |done]. by intros ?? ?%not_elem_of_nil. }
  destruct IH as [[-> IH]|(b & g' & a & -> & Hb & Hbest)].
  - left. split; [done|]. intros g' c [->|Hg']%elem_of_cons; eauto.
  - right. exists (g :: b), g', a. split_and!; [done| |done].
    intros x c [->|Hx]%elem_of_cons; eauto.
Qed.
End Select.

(** The groups are tried in the order of their 32-bit weights, ties as declared. *)
Definition weight_of (g : OutboundGroup) : Z := u32 (default 1 (og_weight g)).

Lemma weighted_groups_perm groups : weighted_groups groups ≡ₚ groups.
Proof.
  unfold weighted_groups. rewrite stable_sort_perm, <- list_fmap_compose.
  by rewrite (list_fmap_ext _ id) by done; rewrite list_fmap_id.
Qed.

Lemma weighted_groups_sorted groups :
  StronglySorted (λ a b, weight_of a ≤ weight_of b) (weighted_groups groups).
Proof.
  unfold weighted_groups. set (l := (λ g, (u32 (default 1 (og_weight g)), g)) <$> groups).
  assert (StronglySorted (not_after weight_lt) (stable_sort weight_lt l)) as Hs.
  { apply stable_sort_sorted; unfold weight_lt; intros; bool_to_prop; lia. }
  assert (∀ p, p ∈ stable_sort weight_lt l → p.1 = weight_of p.2) as Hp.
  { intros p. rewrite stable_sort_perm. unfold l. by intros (g & -> & _)%list_elem_of_fmap. }
  induction Hs as [|p q Hq IH Hf]; simpl; constructor.
  - apply IH. intros. apply Hp. by right.
  - apply Forall_fmap, Forall_forall. intros x Hx. rewrite Forall_forall in Hf.
    specialize (Hf x Hx). unfold not_after, weight_lt in Hf. simpl.
    rewrite <- (Hp p) by left. rewrite <- (Hp x) by (by right). lia.
Qed.

(** A chosen child is healthy. *)
Lemma select_in_group_healthy s g c :
  select_in_group s g = Some c → is_Some (healthy_result s c).
Proof.
  assert (∀ limit x, within s limit x = true → is_Some (healthy_result s x)) as Hw.
  { intros limit x. unfold within. by destruct (healthy_result s x). }
  unfold select_in_group. destruct (prefer_declared_priority s).
  { by intros (_ & _ & _ & H%bool_decide_eq_true & _)%first_such_some. }
  destruct (_ =? _); [done|]. destruct (negb _ && _ && _) eqn:E.
  - intros [= <-]. apply andb_prop in E as [_ E]. eauto.
  - intros (_ & _ & _ & H & _)%first_such_some. eauto.
Qed.

Lemma select_healthy s :
  select_outbound_from_state s ≠ EmptyString →
  is_Some (healthy_result s (select_outbound_from_state s)).
Proof.
  unfold select_outbound_from_state. destruct (ob_outbound_groups (us_config s)); [|done].
  induction (weighted_groups l) as [|g gs IH]; cbn [select_loop]; [done|].
  destruct (select_in_group s g) as [c|] eqn:E; [|done]. intros _.
  by eapply select_in_group_healthy.
Qed.

(** ** Facts about a round of results *)

(** What a round keeps: configuration, direct interfaces, which children have a
    breaker, and all of the scheduling and generation fields. *)
Record same_frame (s s' : UrltestState) : Prop := {
  sf_config : us_config s' = us_config s;
  sf_direct : us_direct_child_interfaces s' = us_direct_child_interfaces s;
  sf_breakers : ∀ c, is_Some (us_circuit_breakers s' !! c) ↔ is_Some (us_circuit_breakers s !! c);
  sf_selected : us_selected_outbound s' = us_selected_outbound s;
}.

Lemma same_frame_refl s : same_frame s s.
Proof. by split. Qed.

Lemma commit_result_frame now prev s cr : same_frame s (commit_result now prev s cr).
Proof.
  destruct cr as [c r]. unfold commit_result.
  destruct (us_circuit_breakers s !! c) as [cb|] eqn:E; [|apply same_frame_refl].
  split; cbn; try done. intros c'. destruct (decide (c = c')) as [->|].
  - by rewrite lookup_insert_eq, E.
  - by rewrite lookup_insert_ne.
Qed.

Lemma same_frame_trans s1 s2 s3 : same_frame s1 s2 → same_frame s2 s3 → same_frame s1 s3.
Proof. intros [?? H1 ?] [?? H2 ?]. split; try congruence. intros c. by rewrite H2, H1. Qed.

Lemma same_frame_priority s s' :
  same_frame s s' → prefer_declared_priority s' = prefer_declared_priority s
                    ∧ recovery_success_threshold s' = recovery_success_threshold s.
Proof. intros []. unfold prefer_declared_priority, recovery_success_threshold. by rewrite sf_config0. Qed.

Lemma commit_result_recovery_ne now prev s c r c' :
  c ≠ c' →
  us_priority_recovery_successes (commit_result now prev s (c, r)) !! c'
  = us_priority_recovery_successes s !! c'.
Proof.
  intros Hc. unfold commit_result. destruct (us_circuit_breakers s !! c); [|done].
  cbn. destruct (_ && _); [|done]. unfold update_recovery.
  destruct (tr_success r).
  - destruct (_ !! c); [|done]. destruct (_ <=? _); [by rewrite lookup_delete_ne|by rewrite lookup_insert_ne].
  - destruct (_ || _); [by rewrite lookup_insert_ne|done].
Qed.

Lemma commit_result_recovery_eq now prev s c r :
  prefer_declared_priority s = true → is_Some (us_direct_child_interfaces s !! c) →
  is_Some (us_circuit_breakers s !! c) →
  us_priority_recovery_successes (commit_result now prev s (c, r))
  = update_recovery (recovery_success_threshold s) prev c (tr_success r)
      (us_priority_recovery_successes s).
Proof.
  intros Hp Hd [cb Hb]. unfold commit_result. rewrite Hb. cbn.
  by rewrite Hp, bool_decide_true.
Qed.

Lemma commit_fold_frame now prev l s : same_frame s (fold_left (commit_result now prev) l s).
Proof.
  revert s. induction l as [|x l IH]; intros s; cbn [fold_left]; [apply same_frame_refl|].
  eapply same_frame_trans; [apply commit_result_frame|apply IH].
Qed.

Lemma commit_fold_recovery_notin now prev l s c :
  c ∉ l.*1 → us_priority_recovery_successes (fold_left (commit_result now prev) l s) !! c
             = us_priority_recovery_successes s !! c.
Proof.
  revert s. induction l as [|[x r] l IH]; intros s Hc; cbn [fold_left]; [done|].
  rewrite fmap_cons in Hc. apply not_elem_of_cons in Hc as [Hx Hl].
  rewrite IH by done. by apply commit_result_recovery_ne.
Qed.

(** One counter, seen alone. *)
Definition next_recovery (threshold : Z) (is_selected success : bool) (n : option Z) : option Z :=
  match n, success with
  | None, true => None
  | None, false => if is_selected then Some 0 else None
  | Some n, true => if threshold <=? u32 (n + 1) then None else Some (u32 (n + 1))
  | Some _, false => Some 0
  end.

Lemma update_recovery_lookup threshold prev c success recovery :
  update_recovery threshold prev c success recovery !! c
  = next_recovery threshold (String.eqb c prev) success (recovery !! c).
Proof.
  unfold update_recovery, next_recovery. destruct success, (recovery !! c) as [n|] eqn:E.
  - destruct (_ <=? _); [apply lookup_delete_eq|apply lookup_insert_eq].
  - done.
  - rewrite bool_decide_true, orb_true_r by done. apply lookup_insert_eq.
  - rewrite bool_decide_false, orb_false_r by (by intros [? ?]).
    destruct (c =? prev)%string; [apply lookup_insert_eq|done].
Qed.

(** The counter of a direct priority child after a round. *)
Lemma commit_results_recovery now s results c :
  prefer_declared_priority s = true → is_Some (us_direct_child_interfaces s !! c) →
  is_Some (us_circuit_breakers s !! c) →
  us_priority_recovery_successes (commit_results now s results) !! c =
  match results !! c with
  | None => us_priority_recovery_successes s !! c
  | Some r => next_recovery (recovery_success_threshold s) (String.eqb c (us_selected_outbound s))
                (tr_success r) (us_priority_recovery_successes s !! c)
  end.
Proof.
  intros Hp Hd Hb. unfold commit_results. destruct (results !! c) as [r|] eqn:E.
  - apply elem_of_map_to_list in E. apply list_elem_of_split in E as (l1 & l2 & E).
    pose proof (NoDup_fst_map_to_list results) as Hnd. rewrite E in Hnd |- *.
    rewrite fmap_app, fmap_cons in Hnd. apply NoDup_app in Hnd as (_ & Hn1 & Hnd).
    apply NoDup_cons in Hnd as [Hn2 _].
    rewrite fold_left_app. cbn [fold_left].
    pose proof (commit_fold_frame now (us_selected_outbound s) l1 s) as Hf.
    destruct (same_frame_priority _ _ Hf) as [Hp1 Ht1].
    set (s1 := fold_left _ l1 s) in *.
    rewrite commit_fold_recovery_notin by exact Hn2.
    rewrite commit_result_recovery_eq, update_recovery_lookup, Ht1.
    + f_equal. apply commit_fold_recovery_notin. intros Hc. apply (Hn1 c Hc). left.
    + congruence.
    + by rewrite (sf_direct _ _ Hf).
    + by apply (sf_breakers _ _ Hf).
  - apply commit_fold_recovery_notin. intros ([x r] & -> & H)%list_elem_of_fmap.
    apply elem_of_map_to_list in H. simpl in E. congruence.
Qed.

(** ** Rounds of probes *)

(** A round: the clock readings and the results handed to the commit. *)
Definition Round : Type := (string → Z) * gmap string URLTestResult.

Definition commit_round (tag : string) (s : UrltestState) (round : Round) : UrltestState :=
  (commit_prepare round.1 tag (us_generation s) s round.2).1.

(** Successes of a child in a row at the end of the rounds, starting from [n]. *)
Definition streak_step (c : string) (n : Z) (round : Round) : Z :=
  match round.2 !! c with
  | None => n
  | Some r => if tr_success r then n + 1 else 0
  end.

Definition streak (c : string) (n : Z) (rounds : list Round) : Z :=
  fold_left (streak_step c) rounds n.

Lemma commit_round_selected tag s round :
  us_selected_outbound (commit_round tag s round)
  = select_outbound_from_state (commit_results round.1 s round.2).
Proof. done. Qed.

Lemma commit_round_not_quarantined tag s round c :
  prefer_declared_priority s = true → c ≠ EmptyString →
  is_Some (us_priority_recovery_successes (commit_round tag s round) !! c) →
  us_selected_outbound (commit_round tag s round) ≠ c.
Proof.
  intros Hp Hc Hq. rewrite commit_round_selected. intros <-.
  pose proof (commit_fold_frame round.1 (us_selected_outbound s) (map_to_list round.2) s) as Hf.
  destruct (same_frame_priority _ _ Hf) as [Hp' _]. fold (commit_results round.1 s round.2) in Hp'.
  pose proof (select_healthy _ Hc) as [r Hr]. unfold healthy_result in Hr.
  rewrite Hp', Hp in Hr. cbn in Hq. by rewrite bool_decide_true in Hr.
Qed.

(** A direct priority child in quarantine with [n] successes in a row. *)
Record quarantined (threshold : Z) (c : string) (n : Z) (s : UrltestState) : Prop := {
  qu_priority : prefer_declared_priority s = true;
  qu_threshold : recovery_success_threshold s = threshold;
  qu_direct : is_Some (us_direct_child_interfaces s !! c);
  qu_breaker : is_Some (us_circuit_breakers s !! c);
  qu_count : us_priority_recovery_successes s !! c = Some n;
}.

Lemma commit_round_frame tag s round :
  prefer_declared_priority (commit_round tag s round) = prefer_declared_priority s
  ∧ recovery_success_threshold (commit_round tag s round) = recovery_success_threshold s
  ∧ us_direct_child_interfaces (commit_round tag s round) = us_direct_child_interfaces s
  ∧ (∀ c, is_Some (us_circuit_breakers (commit_round tag s round) !! c)
          ↔ is_Some (us_circuit_breakers s !! c)).
Proof.
  pose proof (commit_fold_frame round.1 (us_selected_outbound s) (map_to_list round.2) s) as Hf.
  destruct (same_frame_priority _ _ Hf) as [Hp Ht].
  split_and!; [exact Hp|exact Ht|exact (sf_direct _ _ Hf)|exact (sf_breakers _ _ Hf)].
Qed.

Lemma quarantined_round tag threshold c n s round :
  quarantined threshold c n s → 0 ≤ n < threshold →
  us_priority_recovery_successes (commit_round tag s round) !! c
    = (if threshold <=? streak_step c n round then None else Some (streak_step c n round))
  ∧ (streak_step c n round < threshold →
     quarantined threshold c (streak_step c n round) (commit_round tag s round)).
Proof.
  intros [Hp Ht Hd Hb Hq] Hn.
  assert (is_u32 threshold) as Hu by (rewrite <- Ht; apply u32_range).
  destruct (commit_round_frame tag s round) as (Hp' & Ht' & Hd' & Hb').
  assert (us_priority_recovery_successes (commit_round tag s round) !! c
    = (if threshold <=? streak_step c n round then None else Some (streak_step c n round))) as Hc.
  { cbn. rewrite commit_results_recovery by done. rewrite Hq, Ht. unfold streak_step.
    destruct (round.2 !! c) as [r|]; [|by rewrite (proj2 (Z.leb_gt _ _)) by lia].
    unfold next_recovery. destruct (tr_success r).
    - by rewrite u32_id by (unfold is_u32 in *; lia).
    - by rewrite (proj2 (Z.leb_gt _ _)) by lia. }
  split; [done|]. intros Hl. split; rewrite ?Hp', ?Ht', ?Hd', ?Hb'; try done.
  rewrite Hc. by rewrite (proj2 (Z.leb_gt _ _)) by lia.
Qed.

Lemma streak_step_nonneg c n round : 0 ≤ n → 0 ≤ streak_step c n round.
Proof. unfold streak_step. destruct (round.2 !! c) as [r|]; [destruct (tr_success r)|]; lia. Qed.

Lemma quarantined_rounds tag threshold c n s rounds :
  quarantined threshold c n s → 0 ≤ n →
  (∀ k, streak c n (take k rounds) < threshold) →
  quarantined threshold c (streak c n rounds) (fold_left (commit_round tag) rounds s).
Proof.
  revert n s. induction rounds as [|round rounds IH]; intros n s Hq Hn Hs; [done|].
  cbn [fold_left]. pose proof (Hs 0%nat) as H0. cbn in H0.
  change (streak c n (round :: rounds)) with (streak c (streak_step c n round) rounds).
  apply IH.
  - apply quarantined_round; [done|lia|]. apply (Hs 1%nat).
  - by apply streak_step_nonneg.
  - intros k. apply (Hs (S k)).
Qed.

(** ** Properties *)

(** Selection: the groups are tried in the order of their weights; the first
    group with a usable child decides, and in it priority mode takes the first
    usable child, while latency mode keeps the current child as long as it is
    healthy and within the tolerance of the fastest one, and otherwise takes the
    first child within that tolerance. Nothing is selected only when no child of
    any group is usable. *)
Theorem select_outbound_spec s groups :
  ob_outbound_groups (us_config s) = Some groups →
  (∀ c r, us_last_results s !! c = Some r → is_u32 (tr_latency_ms r)) →
  weighted_groups groups ≡ₚ groups
  ∧ StronglySorted (λ a b, weight_of a ≤ weight_of b) (weighted_groups groups)
  ∧ ((select_outbound_from_state s = EmptyString
      ∧ ∀ g c, g ∈ groups → c ∈ og_outbounds g → ¬ usable s c)
     ∨ ∃ before g after, weighted_groups groups = before ++ g :: after
         ∧ (∀ g' c, g' ∈ before → c ∈ og_outbounds g' → ¬ usable s c)
         ∧ best_child s (og_outbounds g) (select_outbound_from_state s)).
Proof.
  intros Hg Hu. split; [apply weighted_groups_perm|]. split; [apply weighted_groups_sorted|].
  unfold select_outbound_from_state. rewrite Hg.
  destruct (select_loop_spec s Hu (weighted_groups groups)) as [[-> H]|H]; [|by right].
  left. split; [done|]. intros g c Hin. apply H. by rewrite weighted_groups_perm.
Qed.

(** C34. Quarantine: in priority mode, when a probe of the selected direct child
    fails, no later round selects that child until its probes have succeeded
    success_threshold times in a row, and the round that completes such a run
    lifts the quarantine. *)
Theorem failed_child_quarantined tag s c round0 r0 rounds :
  prefer_declared_priority s = true →
  is_Some (us_direct_child_interfaces s !! c) → is_Some (us_circuit_breakers s !! c) →
  us_selected_outbound s = c → c ≠ EmptyString →
  round0.2 !! c = Some r0 → tr_success r0 = false →
  (∀ k, streak c 0 (take k rounds) < recovery_success_threshold s) →
  let s' := fold_left (commit_round tag) rounds (commit_round tag s round0) in
  us_selected_outbound s' ≠ c
  ∧ ∀ round, us_priority_recovery_successes (commit_round tag s' round) !! c = None
             ↔ streak c 0 (rounds ++ [round]) = recovery_success_threshold s.
Proof.
  intros Hp Hd Hb Hsel Hc Hr0 Hf Hs s'.
  destruct (commit_round_frame tag s round0) as (Hp1 & Ht1 & Hd1 & Hb1).
  assert (quarantined (recovery_success_threshold s) c 0 (commit_round tag s round0)) as Hq0.
  { split; rewrite ?Hp1, ?Ht1, ?Hd1, ?Hb1; try done. cbn.
    rewrite commit_results_recovery by done. rewrite Hr0, Hf, Hsel, String.eqb_refl.
    unfold next_recovery. by destruct (us_priority_recovery_successes s !! c). }
  pose proof (quarantined_rounds tag _ c 0 _ rounds Hq0 ltac:(lia) Hs) as Hq. fold s' in Hq.
  assert (streak c 0 rounds < recovery_success_threshold s) as Hlt.
  { rewrite <- (firstn_all rounds). apply Hs. }
  assert (0 ≤ streak c 0 rounds) as Hge.
  { unfold streak. apply fold_left_inv; [|lia]. intros. by apply streak_step_nonneg. }
  split.
  - revert Hq. unfold s'. destruct rounds as [|x l _] using rev_ind; intros Hq.
    + apply commit_round_not_quarantined; [done|done|]. cbn in Hq |- *. eexists. apply (qu_count _ _ _ _ Hq).
    + rewrite fold_left_app in Hq |- *. cbn [fold_left] in Hq |- *.
      apply commit_round_not_quarantined; [|done|eexists; apply (qu_count _ _ _ _ Hq)].
      destruct (commit_round_frame tag (fold_left (commit_round tag) l (commit_round tag s round0)) x)
        as (Hp2 & _). rewrite <- Hp2. apply (qu_priority _ _ _ _ Hq).
  - intros round. destruct (quarantined_round tag _ _ _ _ round Hq ltac:(lia)) as [-> _].
    unfold streak. rewrite fold_left_app. cbn [fold_left]. fold (streak c 0 rounds).
    assert (streak_step c (streak c 0 rounds) round ≤ streak c 0 rounds + 1).
    { unfold streak_step. destruct (round.2 !! c) as [r|]; [destruct (tr_success r)|]; lia. }
    destruct (Z.leb_spec (recovery_success_threshold s) (streak_step c (streak c 0 rounds) round)).
    + split; [lia|done].
    + split; [done|lia].
Qed.

(** *** Sample groups *)

Definition sample_result (success : bool) (latency : Z) : URLTestResult :=
  {| tr_success := success; tr_latency_ms := latency; tr_error := EmptyString; tr_measured_at := 0 |}.

Definition sample_state (mode : SelectionMode) (selected : string)
    (results : gmap string URLTestResult) : UrltestState :=
  {| us_config := {| ob_circuit_breaker := None; ob_conntrack_on_switch := None; ob_gateway := None;
       ob_gateway6 := None; ob_interface := None; ob_interval_ms := None;
       ob_outbound_groups := ob_outbound_groups auto_group; ob_probe_timeout_ms := None;
       ob_retry := None; ob_selection_mode := Some mode; ob_strict_enforcement := None;
       ob_table := None; ob_tag := "auto"; ob_tolerance_ms := None; ob_type := URLTEST;
       ob_url := None |};
     us_last_results := results;
     us_circuit_breakers := {[ "vpn_a"%string := Breaker_new CircuitBreakerConfig_default;
                               "vpn_b"%string := Breaker_new CircuitBreakerConfig_default ]};
     us_direct_child_interfaces := {[ "vpn_a"%string := "nwg0"%string; "vpn_b"%string := "nwg1"%string ]};
     us_priority_recovery_successes := ∅; us_selected_outbound := selected;
     us_scheduler_task_id := 1; us_probe_inflight := false; us_selection_pending := false;
     us_generation := 0; us_external_health_request_serial := 0;
     us_external_health_completed_serial := 0; us_probe_external_health_serial := 0;
     us_external_health_failures := 0; us_external_health_retry_task_id := -1;
     us_external_health_retry_scheduling := false; us_external_health_retry_epoch := 0 |}.

Definition two_results (a b : Z) : gmap string URLTestResult :=
  {[ "vpn_a"%string := sample_result true a; "vpn_b"%string := sample_result true b ]}.

(** Stickiness: 90 ms slower than the best is within the default tolerance. *)
Example sticky_child :
  select_outbound_from_state (sample_state LATENCY "vpn_b" (two_results 20 110)) = "vpn_b"%string.
Proof. vm_compute. reflexivity. Qed.

Lemma select_outbound_spec_witness :
  select_outbound_from_state (sample_state LATENCY "vpn_b" (two_results 20 130)) = "vpn_a"%string
  ∧ weighted_groups (default [] (ob_outbound_groups auto_group))
    ≡ₚ default [] (ob_outbound_groups auto_group).
Proof.
  split; [vm_compute; reflexivity|].
  apply (select_outbound_spec (sample_state LATENCY "vpn_b" (two_results 20 130))
           (default [] (ob_outbound_groups auto_group)) eq_refl).
  intros c r Hr. change (two_results 20 130 !! c = Some r) in Hr. unfold two_results in Hr.
  apply lookup_insert_Some in Hr as [[_ <-]|[_ [_ <-]%lookup_singleton_Some]];
    unfold is_u32; cbn; lia.
Defined.

(** One failure of the selected child, then a single success (the default
    threshold is 2): the child stays out. *)
Definition sample_round (a b : bool) : Round :=
  (λ _, 0, {[ "vpn_a"%string := sample_result a 20; "vpn_b"%string := sample_result b 30 ]}).

Lemma failed_child_quarantined_witness :
  us_selected_outbound
    (fold_left (commit_round "auto") [sample_round true true]
       (commit_round "auto" (sample_state PRIORITY "vpn_a" ∅) (sample_round false true)))
    ≠ "vpn_a"%string
  ∧ us_selected_outbound
      (fold_left (commit_round "auto") [sample_round true true; sample_round true true]
         (commit_round "auto" (sample_state PRIORITY "vpn_a" ∅) (sample_round false true)))
    = "vpn_a"%string.
Proof.
  split; [|vm_compute; reflexivity].
  apply (failed_child_quarantined "auto" (sample_state PRIORITY "vpn_a" ∅) "vpn_a"
           (sample_round false true) (sample_result false 20) [sample_round true true]);
    try (vm_compute; reflexivity); try (by eexists; vm_compute); [done|].
  intros [|[|k]]; [vm_compute; reflexivity|vm_compute; reflexivity|].
  cbn [take]. destruct k; vm_compute; reflexivity.
Defined.
