(* ===== verification/UrltestManager.v ===== *)
(** * Urltest manager

    The concurrent part of src/src/routing/urltest_manager.{hpp,cpp}: probe
    generations, the single-flight probe of a group, the hand-over of a changed
    selection, and the serials, budget and timer of external-health requests.

    Every critical section of the source (one lock of [mutex_]) is one function
    on a group state or on the manager; a public operation, timer callback or
    worker is a thread, that is a stack of the sections it still has to run
    ([Instr]), and [sys_step] interleaves the threads section by section. What
    the sources outside the manager decide (whether the scheduler, the executor
    and the callbacks accept, clock readings, probe results) is the [Oracle] of a
    step. Lock and allocation failures inside the noexcept sections are not
    modelled. *)

From Stdlib Require Import ZArith Lia Ascii String.
From stdpp Require Import base gmap strings list sorting.
From S2P Require Import Prelude ConfigTypes CircuitBreaker UrltestSelect.
Open Scope Z_scope.

Definition kMaxConcurrentUrltestCandidates : nat := 2.
Definition kExternalHealthMaxFailures : Z := 4.

Definition next_nonzero_serial (current : Z) : Z :=
  if current =? u64_max then 1 else current + 1.

(** ** Updates of a group state *)

Definition with_health (s : UrltestState) (request completed claimed failures : Z) : UrltestState :=
  {| us_config := us_config s; us_last_results := us_last_results s;
     us_circuit_breakers := us_circuit_breakers s;
     us_direct_child_interfaces := us_direct_child_interfaces s;
     us_priority_recovery_successes := us_priority_recovery_successes s;
     us_selected_outbound := us_selected_outbound s;
     us_scheduler_task_id := us_scheduler_task_id s; us_probe_inflight := us_probe_inflight s;
     us_selection_pending := us_selection_pending s; us_generation := us_generation s;
     us_external_health_request_serial := request;
     us_external_health_completed_serial := completed;
     us_probe_external_health_serial := claimed; us_external_health_failures := failures;
     us_external_health_retry_task_id := us_external_health_retry_task_id s;
     us_external_health_retry_scheduling := us_external_health_retry_scheduling s;
     us_external_health_retry_epoch := us_external_health_retry_epoch s |}.

Definition with_retry (s : UrltestState) (task : Z) (scheduling : bool) (epoch : Z) : UrltestState :=
  {| us_config := us_config s; us_last_results := us_last_results s;
     us_circuit_breakers := us_circuit_breakers s;
     us_direct_child_interfaces := us_direct_child_interfaces s;
     us_priority_recovery_successes := us_priority_recovery_successes s;
     us_selected_outbound := us_selected_outbound s;
     us_scheduler_task_id := us_scheduler_task_id s; us_probe_inflight := us_probe_inflight s;
     us_selection_pending := us_selection_pending s; us_generation := us_generation s;
     us_external_health_request_serial := us_external_health_request_serial s;
     us_external_health_completed_serial := us_external_health_completed_serial s;
     us_probe_external_health_serial := us_probe_external_health_serial s;
     us_external_health_failures := us_external_health_failures s;
     us_external_health_retry_task_id := task; us_external_health_retry_scheduling := scheduling;
     us_external_health_retry_epoch := epoch |}.

Definition with_probe (s : UrltestState) (inflight pending : bool) (generation : Z) : UrltestState :=
  {| us_config := us_config s; us_last_results := us_last_results s;
     us_circuit_breakers := us_circuit_breakers s;
     us_direct_child_interfaces := us_direct_child_interfaces s;
     us_priority_recovery_successes := us_priority_recovery_successes s;
     us_selected_outbound := us_selected_outbound s;
     us_scheduler_task_id := us_scheduler_task_id s; us_probe_inflight := inflight;
     us_selection_pending := pending; us_generation := generation;
     us_external_health_request_serial := us_external_health_request_serial s;
     us_external_health_completed_serial := us_external_health_completed_serial s;
     us_probe_external_health_serial := us_probe_external_health_serial s;
     us_external_health_failures := us_external_health_failures s;
     us_external_health_retry_task_id := us_external_health_retry_task_id s;
     us_external_health_retry_scheduling := us_external_health_retry_scheduling s;
     us_external_health_retry_epoch := us_external_health_retry_epoch s |}.

Definition with_breakers (s : UrltestState) (breakers : gmap string Breaker) : UrltestState :=
  with_probe_fields s (us_last_results s) breakers (us_priority_recovery_successes s)
    (us_selected_outbound s).

Definition with_selected (s : UrltestState) (selected : string) : UrltestState :=
  with_probe_fields s (us_last_results s) (us_circuit_breakers s)
    (us_priority_recovery_successes s) selected.

(** ** Sections on one group *)

Definition health_pending (s : UrltestState) : bool :=
  negb (us_external_health_request_serial s =? us_external_health_completed_serial s).

Definition has_budget (s : UrltestState) : bool :=
  us_external_health_failures s <? kExternalHealthMaxFailures.

Definition retry_armed (s : UrltestState) : bool := 0 <=? us_external_health_retry_task_id s.

(** [struct ExternalHealthResolution] *)
Record ExternalHealthResolution := {
  ehr_launch_trailing : bool;
  ehr_ensure_retry : bool;
  ehr_retry_task_to_cancel : Z;
}.

Definition no_resolution : ExternalHealthResolution :=
  {| ehr_launch_trailing := false; ehr_ensure_retry := false; ehr_retry_task_to_cancel := -1 |}.

(** [trigger_external_health_test], the locked part. *)
Definition trigger_edge (s : UrltestState) : UrltestState :=
  let request := us_external_health_request_serial s in
  let completed := us_external_health_completed_serial s in
  let rebased := (request =? u64_max) && (completed =? request) in
  let request := if rebased then 0 else request in
  let completed := if rebased then 0 else completed in
  let request := if request =? u64_max then request else request + 1 in
  with_health s request completed (us_probe_external_health_serial s) 0.

(** [ensure_external_health_retry], the reservation and the publication. *)
Definition ensure_reserve (s : UrltestState) : option UrltestState :=
  if negb (health_pending s) || negb (has_budget s) || retry_armed s
     || us_external_health_retry_scheduling s then None
  else Some (with_retry s (us_external_health_retry_task_id s) true
               (next_nonzero_serial (us_external_health_retry_epoch s))).

Definition ensure_publish (s : UrltestState) (registration_task_id retry_epoch scheduled_task_id : Z)
    : UrltestState * bool :=
  if (us_scheduler_task_id s =? registration_task_id) && us_external_health_retry_scheduling s
     && (us_external_health_retry_epoch s =? retry_epoch) then
    if (0 <=? scheduled_task_id) && health_pending s && has_budget s && negb (retry_armed s)
    then (with_retry s scheduled_task_id false (us_external_health_retry_epoch s), true)
    else (with_retry s (us_external_health_retry_task_id s) false
            (us_external_health_retry_epoch s), false)
  else (s, false).

(** [run_external_health_retry]: the new state, the task to cancel and whether to
    attempt a probe. *)
Definition retry_check (s : UrltestState) (registration_task_id retry_epoch : Z)
    : UrltestState * Z * bool :=
  if negb (us_scheduler_task_id s =? registration_task_id) || negb (retry_armed s)
     || negb (us_external_health_retry_epoch s =? retry_epoch) then (s, -1, false)
  else if negb (health_pending s) || negb (has_budget s) then
    (with_retry s (-1) (us_external_health_retry_scheduling s)
       (next_nonzero_serial (us_external_health_retry_epoch s)),
     us_external_health_retry_task_id s, false)
  else (s, -1, negb (us_probe_inflight s)).

(** [try_start_external_health_probe], the reading section. *)
Definition start_read (s : UrltestState) : option Z :=
  if negb (health_pending s) || us_probe_inflight s || negb (has_budget s) then None
  else Some (us_external_health_failures s).

Definition record_external_health_start_failure (s : UrltestState) (expected_failures : Z)
    : UrltestState :=
  if negb (health_pending s) || us_probe_inflight s
     || negb (us_external_health_failures s =? expected_failures) then s
  else if has_budget s then
    with_health s (us_external_health_request_serial s) (us_external_health_completed_serial s)
      (us_probe_external_health_serial s) (us_external_health_failures s + 1)
  else s.

Definition record_claimed_external_health_failure (s : UrltestState) : UrltestState :=
  if us_probe_external_health_serial s =? 0 then s
  else with_health s (us_external_health_request_serial s) (us_external_health_completed_serial s) 0
         (if health_pending s && has_budget s then us_external_health_failures s + 1
          else us_external_health_failures s).

Definition finish_external_health_probe (s : UrltestState) (controller_admitted : bool)
    : UrltestState * ExternalHealthResolution :=
  let claimed := us_probe_external_health_serial s in
  let request := us_external_health_request_serial s in
  let completed :=
    if negb (claimed =? 0) && controller_admitted then claimed
    else us_external_health_completed_serial s in
  let failures :=
    if claimed =? 0 then us_external_health_failures s
    else if controller_admitted then 0
    else if has_budget s then us_external_health_failures s + 1
    else us_external_health_failures s in
  let s1 := with_health s request completed 0 failures in
  if negb (health_pending s1) then
    (with_health
       (with_retry s1 (-1) false (next_nonzero_serial (us_external_health_retry_epoch s1)))
       request completed 0 0,
     {| ehr_launch_trailing := false; ehr_ensure_retry := false;
        ehr_retry_task_to_cancel := us_external_health_retry_task_id s1 |})
  else
    (s1,
     {| ehr_launch_trailing := ((claimed =? 0) || controller_admitted) && has_budget s1;
        ehr_ensure_retry := has_budget s1; ehr_retry_task_to_cancel := -1 |}).

(** ** Sections on the manager *)

Record Manager := {
  um_states : gmap string UrltestState;
  um_generation : Z;              (* uint64_t *)
  um_marks : gmap string Z;
}.

Definition set_state (m : Manager) (tag : string) (s : UrltestState) : Manager :=
  {| um_states := <[tag := s]> (um_states m); um_generation := um_generation m;
     um_marks := um_marks m |}.

Definition bump_generation (m : Manager) : Manager :=
  {| um_states := um_states m; um_generation := u64 (um_generation m + 1); um_marks := um_marks m |}.

(** [struct TestCandidate] *)
Record TestCandidate := {
  tc_child_tag : string;
  tc_url : string;
  tc_bind_interface : string;
  tc_fwmark : Z;
  tc_timeout_ms : Z;
  tc_retry : Retry;
}.

Definition kDefaultUrltestProbeTimeoutMs : Z := 5000.

Definition make_candidate (s : UrltestState) (child_tag : string) (mark : Z) : TestCandidate :=
  {| tc_child_tag := child_tag; tc_url := default EmptyString (ob_url (us_config s));
     tc_bind_interface := default EmptyString (us_direct_child_interfaces s !! child_tag);
     tc_fwmark := mark;
     tc_timeout_ms := u32 (default kDefaultUrltestProbeTimeoutMs (ob_probe_timeout_ms (us_config s)));
     tc_retry := default Retry_default (ob_retry (us_config s)) |}.

Definition children_of (ut : Outbound) : list string :=
  concat (og_outbounds <$> default [] (ob_outbound_groups ut)).

(** The candidate loop; [is_allowed] may move a breaker to half-open. *)
Fixpoint collect_candidates (marks : gmap string Z) (now : string → Z) (s : UrltestState)
    (breakers : gmap string Breaker) (children : list string)
    : gmap string Breaker * list TestCandidate :=
  match children with
  | [] => (breakers, [])
  | c :: rest =>
      match marks !! c, breakers !! c with
      | Some mark, Some b =>
          let '(allowed, es) := is_allowed (br_config b) (br_entries b) c (now c) in
          let '(breakers', cs) :=
            collect_candidates marks now s (<[c := breaker_with b es]> breakers) rest in
          (breakers', if allowed then make_candidate s c mark :: cs else cs)
      | _, _ => collect_candidates marks now s breakers rest
      end
  end.

Definition begin_one (breakers : gmap string Breaker) (c : string) : gmap string Breaker :=
  match breakers !! c with
  | None => breakers
  | Some b => <[c := breaker_with b (begin_request (br_entries b) c)]> breakers
  end.

Definition end_one (breakers : gmap string Breaker) (c : string) : gmap string Breaker :=
  match breakers !! c with
  | None => breakers
  | Some b => <[c := breaker_with b (end_request (br_entries b) c)]> breakers
  end.

Inductive ProbeReason := pr_initial | pr_manual | pr_scheduled | pr_external_health.

#[export] Instance ProbeReason_eq_dec : EqDecision ProbeReason.
Proof. solve_decision. Defined.

(** A refused probe of a group whose selection is pending leaves one trailing
    request. *)
Definition note_refused (s : UrltestState) (reason : ProbeReason) : UrltestState :=
  let request := us_external_health_request_serial s in
  let completed := us_external_health_completed_serial s in
  let claimed := us_probe_external_health_serial s in
  if us_selection_pending s && bool_decide (reason = pr_manual ∨ reason = pr_scheduled)
     && ((request =? claimed) || (request =? completed))
  then with_health s (next_nonzero_serial request) completed claimed 0
  else s.

(** The claim of a probe generation. The candidates' breakers have their entries
    since [is_allowed] ran, so [begin_request] cannot throw and the rollback of
    the source's inner catch has no case here. *)
Definition claim_probe (m : Manager) (now : string → Z) (s : UrltestState)
    : UrltestState * list TestCandidate :=
  let '(breakers, candidates) :=
    collect_candidates (um_marks m) now s (us_circuit_breakers s) (children_of (us_config s)) in
  let s1 := with_breakers s (fold_left begin_one (tc_child_tag <$> candidates) breakers) in
  let s2 := with_probe s1 true (us_selection_pending s) (um_generation m) in
  (with_health s2 (us_external_health_request_serial s) (us_external_health_completed_serial s)
     (if health_pending s then us_external_health_request_serial s else 0)
     (us_external_health_failures s),
   candidates).

(** [queue_probe_unlocked], the locked part: [None] when no probe was claimed. *)
Definition queue_claim (m : Manager) (tag : string) (reason : ProbeReason) (now : string → Z)
    : Manager * option (Z * list TestCandidate) :=
  match um_states m !! tag with
  | None => (m, None)
  | Some s =>
      if us_probe_inflight s then (set_state m tag (note_refused s reason), None)
      else
        let '(s', candidates) := claim_probe m now s in
        (bump_generation (set_state m tag s'), Some (um_generation m, candidates))
  end.

Definition worker_count (candidates : list TestCandidate) : nat :=
  Nat.max 1 (Nat.min kMaxConcurrentUrltestCandidates (length candidates)).

(** [abandon_probe] and [abandon_probe_results], which differ only in where the
    child tags come from: the new manager and whether a retry is needed. *)
Definition abandon_probe (m : Manager) (tag : string) (generation : Z) (child_tags : list string)
    : Manager * bool :=
  match um_states m !! tag with
  | None => (m, false)
  | Some s =>
      if negb (us_generation s =? generation) || negb (us_probe_inflight s) then (m, false)
      else
        let s1 := record_claimed_external_health_failure
                    (with_probe s false false (us_generation s)) in
        let s2 := with_probe (with_breakers s1 (fold_left end_one child_tags (us_circuit_breakers s1)))
                    false false (um_generation m) in
        (bump_generation (set_state m tag s2), health_pending s1 && has_budget s1)
  end.

(** [commit_probe_results], the first locked part. *)
Inductive CommitOutcome :=
  | commit_skipped
  | commit_unchanged (resolution : ExternalHealthResolution)
  | commit_changed (change : UrltestSelectionChange).

Definition commit_publish (m : Manager) (tag : string) (generation : Z)
    (results : gmap string URLTestResult) (now : string → Z) : Manager * CommitOutcome :=
  match um_states m !! tag with
  | None => (m, commit_skipped)
  | Some s =>
      if negb (generation =? us_generation s) || negb (us_probe_inflight s) then (m, commit_skipped)
      else
        let '(s1, change) := commit_prepare now tag generation s results in
        match change with
        | Some ch => (set_state m tag s1, commit_changed ch)
        | None =>
            let '(s2, resolution) :=
              finish_external_health_probe
                (with_probe s1 false (us_selection_pending s1) (us_generation s1)) true in
            (set_state m tag s2, commit_unchanged resolution)
        end
  end.

(** [commit_probe_results], the locked part after the callback. *)
Definition commit_resolve (m : Manager) (tag : string) (generation : Z) (previous_selected : string)
    (transition_admitted : bool) : Manager * ExternalHealthResolution :=
  match um_states m !! tag with
  | None => (m, no_resolution)
  | Some s =>
      if negb (us_generation s =? generation) || negb (us_probe_inflight s) then (m, no_resolution)
      else
        let s1 := if transition_admitted then s
                  else with_selected (with_probe s (us_probe_inflight s) false (us_generation s))
                         previous_selected in
        if us_selection_pending s1 then (set_state m tag s1, no_resolution)
        else
          let '(s2, resolution) :=
            finish_external_health_probe
              (with_probe s1 false (us_selection_pending s1) (us_generation s1)) transition_admitted in
          (set_state m tag s2, resolution)
  end.

Definition selectable (s : UrltestState) (selected : string) : bool :=
  empty_str selected || bool_decide (is_Some (us_circuit_breakers s !! selected)).

Definition synchronize_selected (m : Manager) (tag selected : string) : Manager * bool :=
  match um_states m !! tag with
  | None => (m, false)
  | Some s => if selectable s selected then (set_state m tag (with_selected s selected), true)
              else (m, false)
  end.

Definition synchronize_selected_if_generation (m : Manager) (tag : string) (expected_generation : Z)
    (selected : string) : Manager * bool :=
  match um_states m !! tag with
  | None => (m, false)
  | Some s => if (us_generation s =? expected_generation) && selectable s selected
              then (set_state m tag (with_selected s selected), true) else (m, false)
  end.

Definition defer_selection_completion (m : Manager) (tag : string) (expected_generation : Z)
    : Manager * bool :=
  match um_states m !! tag with
  | None => (m, false)
  | Some s =>
      if negb (us_generation s =? expected_generation) || negb (us_probe_inflight s) then (m, false)
      else (set_state m tag (with_probe s (us_probe_inflight s) true (us_generation s)), true)
  end.

Definition complete_selection (m : Manager) (tag : string) (expected_generation : Z)
    (resume_pending : bool) : Manager * ExternalHealthResolution :=
  match um_states m !! tag with
  | None => (m, no_resolution)
  | Some s =>
      if negb (us_generation s =? expected_generation) || negb (us_selection_pending s)
      then (m, no_resolution)
      else
        let '(s1, r) :=
          finish_external_health_probe (with_probe s false false (us_generation s)) true in
        if resume_pending then (set_state m tag s1, r)
        else
          (set_state m tag
             (with_retry s1 (if retry_armed s1 then -1 else us_external_health_retry_task_id s1) false
                (next_nonzero_serial (us_external_health_retry_epoch s1))),
           {| ehr_launch_trailing := false; ehr_ensure_retry := false;
              ehr_retry_task_to_cancel :=
                if retry_armed s1 then us_external_health_retry_task_id s1
                else ehr_retry_task_to_cancel r |})
  end.

(** [register_urltest]: the registered state. *)
Definition register_breakers (ut : Outbound) : gmap string Breaker :=
  fold_left (λ bs c, <[c := Breaker_new (default CircuitBreakerConfig_default (ob_circuit_breaker ut))]> bs)
    (children_of ut) ∅.

Definition register_interfaces (ut : Outbound) (direct : gmap string string) : gmap string string :=
  fold_left (λ ifs c, match direct !! c with
                      | Some i => if empty_str i then ifs else <[c := i]> ifs
                      | None => ifs
                      end) (children_of ut) ∅.

Definition registered_state (ut : Outbound) (initial_selected : string)
    (direct : gmap string string) (scheduler_task_id : Z) : UrltestState :=
  let breakers := register_breakers ut in
  {| us_config := ut; us_last_results := ∅; us_circuit_breakers := breakers;
     us_direct_child_interfaces := register_interfaces ut direct;
     us_priority_recovery_successes := ∅;
     us_selected_outbound :=
       if negb (empty_str initial_selected)
          && bool_decide (¬ is_Some (breakers !! initial_selected))
       then EmptyString else initial_selected;
     us_scheduler_task_id := scheduler_task_id; us_probe_inflight := false;
     us_selection_pending := false; us_generation := 0;
     us_external_health_request_serial := 0; us_external_health_completed_serial := 0;
     us_probe_external_health_serial := 0; us_external_health_failures := 0;
     us_external_health_retry_task_id := -1; us_external_health_retry_scheduling := false;
     us_external_health_retry_epoch := 0 |}.

(** [emplace] keeps a state that is already registered. *)
Definition register_urltest (m : Manager) (ut : Outbound) (initial_selected : string)
    (direct : gmap string string) (task : Z) : Manager :=
  match um_states m !! ob_tag ut with
  | Some _ => m
  | None => set_state m (ob_tag ut) (registered_state ut initial_selected direct task)
  end.

(** [um_clear] and [replace_marks_generation]: the states are retired. *)
Definition um_clear (m : Manager) : Manager :=
  {| um_states := ∅; um_generation := u64 (um_generation m + 1); um_marks := um_marks m |}.

Definition replace_marks_generation (m : Manager) (marks : gmap string Z) : Manager :=
  {| um_states := ∅; um_generation := u64 (um_generation m + 1); um_marks := marks |}.

(** [cancel_retired_states]: the tasks that are cancelled. *)
Definition retired_tasks (states : gmap string UrltestState) : list Z :=
  (map_to_list states).*2 ≫= (λ s,
    filter (λ t, 0 ≤ t) [us_scheduler_task_id s; us_external_health_retry_task_id s]).

(** ** Threads *)

(** The sections a thread still has to run. [IBatch] is the worker pool of one
    probe (ProbeBatch.v), from the admission of its last worker to its single
    terminal action. *)
Inductive Instr :=
  | IRegister (ut : Outbound) (initial : string) (direct : gmap string string)
  | IManual (tag : string)
  | IScheduled (tag : string)
  | ITrigger (tag : string)
  | IStart (tag : string)
  | IStartRead (tag : string)
  | IStartFailed (tag : string) (expected : Z)
  | IEnsure (tag : string)
  | ISchedule (tag : string) (registration epoch : Z)
  | IPublish (tag : string) (registration epoch task : Z)
  | ICancel (task : Z)
  | IRetry (tag : string) (registration epoch : Z)
  | IQueue (tag : string) (reason : ProbeReason) (expected : option Z)
  | IPost (tag : string) (generation : Z) (tags : list string) (remaining : nat) (expected : option Z)
  | IBatch (tag : string) (generation : Z) (tags : list string)
  | IHandOff (tag : string) (generation : Z) (tags : list string) (results : gmap string URLTestResult)
  | IAbandon (tag : string) (generation : Z) (tags : list string)
  | ICommit (tag : string) (generation : Z) (results : gmap string URLTestResult)
  | IOnChange (tag : string) (generation : Z) (previous : string)
  | IResolve (tag : string) (generation : Z) (previous : string) (admitted : bool)
  | IComplete (tag : string) (generation : Z) (resume : bool)
  | ISync (tag selected : string)
  | ISyncGeneration (tag : string) (generation : Z) (selected : string)
  | IClear
  | IReplaceMarks (marks : gmap string Z).

(** What the surroundings decide in a step. *)
Record Oracle := {
  or_ok : bool;          (* the scheduler, executor or commit callback accepts *)
  or_defer : bool;       (* the change callback defers the completion *)
  or_now : string → Z;   (* clock readings *)
  or_results : option (gmap string URLTestResult);   (* of a worker pool *)
}.

(** Repeating tasks of the scheduler. *)
Inductive TimerCallback :=
  | TPeriodic (tag : string)
  | TRetry (tag : string) (registration epoch : Z).

Record Env := {
  e_manager : Manager;
  e_timers : gmap Z TimerCallback;
  e_next_task : Z;
}.

Definition with_manager (e : Env) (m : Manager) : Env :=
  {| e_manager := m; e_timers := e_timers e; e_next_task := e_next_task e |}.

(** [schedule_repeating] hands out a fresh identifier. *)
Definition schedule_repeating (e : Env) (cb : TimerCallback) : Env * Z :=
  ({| e_manager := e_manager e; e_timers := <[e_next_task e := cb]> (e_timers e);
      e_next_task := e_next_task e + 1 |}, e_next_task e).

Definition cancel_scheduler_task (e : Env) (task : Z) : Env :=
  if task <? 0 then e
  else {| e_manager := e_manager e; e_timers := delete task (e_timers e);
          e_next_task := e_next_task e |}.

Definition dispatch_external_health_resolution (tag : string) (r : ExternalHealthResolution)
    : list Instr :=
  (if 0 <=? ehr_retry_task_to_cancel r then [ICancel (ehr_retry_task_to_cancel r)] else [])
  ++ (if ehr_launch_trailing r then [IStart tag]
      else if ehr_ensure_retry r then [IEnsure tag] else []).

(** What follows a probe that was not queued. *)
Definition not_queued (tag : string) (expected : option Z) : list Instr :=
  match expected with
  | Some n => [IStartFailed tag n; IEnsure tag]
  | None => []
  end.

Definition update_state (e : Env) (tag : string) (f : UrltestState → UrltestState) : Env :=
  match um_states (e_manager e) !! tag with
  | None => e
  | Some s => with_manager e (set_state (e_manager e) tag (f s))
  end.

Definition retire_states (e : Env) (m : Manager) : Env * list Instr * list (list Instr) :=
  (with_manager e m, ICancel <$> retired_tasks (um_states (e_manager e)), []).

(** One section: the new environment, what the thread runs next, and the threads
    it starts. *)
Definition exec (o : Oracle) (e : Env) (i : Instr) : Env * list Instr * list (list Instr) :=
  let m := e_manager e in
  match i with
  | IRegister ut initial direct =>
      if or_ok o then
        let '(e', task) := schedule_repeating e (TPeriodic (ob_tag ut)) in
        (with_manager e' (register_urltest m ut initial direct task),
         [IQueue (ob_tag ut) pr_initial None], [])
      else (e, [], [])
  | IManual tag => (e, [IQueue tag pr_manual None], [])
  | IScheduled tag => (e, [IQueue tag pr_scheduled None], [])
  | ITrigger tag =>
      match um_states m !! tag with
      | None => (e, [], [])
      | Some _ => (update_state e tag trigger_edge, [IStart tag], [])
      end
  | IStart tag => (e, [IEnsure tag; IStartRead tag], [])
  | IStartRead tag =>
      match um_states m !! tag ≫= start_read with
      | None => (e, [], [])
      | Some n => (e, [IQueue tag pr_external_health (Some n)], [])
      end
  | IStartFailed tag n =>
      (update_state e tag (λ s, record_external_health_start_failure s n), [], [])
  | IEnsure tag =>
      match um_states m !! tag with
      | None => (e, [], [])
      | Some s =>
          match ensure_reserve s with
          | None => (e, [], [])
          | Some s' =>
              (with_manager e (set_state m tag s'),
               [ISchedule tag (us_scheduler_task_id s') (us_external_health_retry_epoch s')], [])
          end
      end
  | ISchedule tag reg epoch =>
      if or_ok o then
        let '(e', task) := schedule_repeating e (TRetry tag reg epoch) in
        (e', [IPublish tag reg epoch task], [])
      else (e, [IPublish tag reg epoch (-1)], [])
  | IPublish tag reg epoch task =>
      match um_states m !! tag with
      | None => (e, if 0 <=? task then [ICancel task] else [], [])
      | Some s =>
          let '(s', published) := ensure_publish s reg epoch task in
          (with_manager e (set_state m tag s'),
           if (0 <=? task) && negb published then [ICancel task] else [], [])
      end
  | ICancel task => (cancel_scheduler_task e task, [], [])
  | IRetry tag reg epoch =>
      match um_states m !! tag with
      | None => (e, [], [])
      | Some s =>
          let '(s', task, attempt) := retry_check s reg epoch in
          (with_manager e (set_state m tag s'),
           (if 0 <=? task then [ICancel task] else [])
           ++ (if attempt then [IStart tag] else []), [])
      end
  | IQueue tag reason expected =>
      match queue_claim m tag reason (or_now o) with
      | (m', None) => (with_manager e m', not_queued tag expected, [])
      | (m', Some (g, candidates)) =>
          (with_manager e m',
           [IPost tag g (tc_child_tag <$> candidates) (worker_count candidates) expected], [])
      end
  | IPost tag g tags remaining expected =>
      if or_ok o then
        match remaining with
        | S (S n) => (e, [IPost tag g tags (S n) expected], [])
        | _ => (e, [], [[IBatch tag g tags]])
        end
      else (e, IAbandon tag g tags :: not_queued tag expected, [])
  | IBatch tag g tags =>
      match or_results o with
      | None => (e, [IAbandon tag g tags], [])
      | Some results => (e, [IHandOff tag g tags results], [])
      end
  | IHandOff tag g tags results =>
      if or_ok o then (e, [], [[ICommit tag g results]]) else (e, [IAbandon tag g tags], [])
  | IAbandon tag g tags =>
      let '(m', retry) := abandon_probe m tag g tags in
      (with_manager e m', if retry then [IEnsure tag] else [], [])
  | ICommit tag g results =>
      if or_ok o then
        match commit_publish m tag g results (or_now o) with
        | (m', commit_skipped) => (with_manager e m', [], [])
        | (m', commit_unchanged r) =>
            (with_manager e m', dispatch_external_health_resolution tag r, [])
        | (m', commit_changed ch) =>
            (with_manager e m', [IOnChange tag g (sc_previous_child_tag ch)], [])
        end
      else (e, [IAbandon tag g (map_to_list results).*1], [])
  | IOnChange tag g previous =>
      (if or_defer o then with_manager e (defer_selection_completion m tag g).1 else e,
       [IResolve tag g previous (or_ok o)], [])
  | IResolve tag g previous admitted =>
      let '(m', r) := commit_resolve m tag g previous admitted in
      (with_manager e m', dispatch_external_health_resolution tag r, [])
  | IComplete tag g resume =>
      let '(m', r) := complete_selection m tag g resume in
      (with_manager e m', dispatch_external_health_resolution tag r, [])
  | ISync tag selected => (with_manager e (synchronize_selected m tag selected).1, [], [])
  | ISyncGeneration tag g selected =>
      (with_manager e (synchronize_selected_if_generation m tag g selected).1, [], [])
  | IClear => retire_states e (um_clear m)
  | IReplaceMarks marks => retire_states e (replace_marks_generation m marks)
  end.

(** The public operations a caller may start at any time. *)
Definition public_call (i : Instr) : bool :=
  match i with
  | IRegister _ _ _ | IManual _ | ITrigger _ | IComplete _ _ _ | ISync _ _
  | ISyncGeneration _ _ _ | IClear | IReplaceMarks _ => true
  | _ => false
  end.

Definition timer_instr (cb : TimerCallback) : Instr :=
  match cb with
  | TPeriodic tag => IScheduled tag
  | TRetry tag reg epoch => IRetry tag reg epoch
  end.

Record System := { sys_env : Env; sys_threads : list (list Instr) }.

(** [allowed] restricts what the surroundings may do in a run. *)
Inductive sys_step (allowed : Oracle → Instr → Prop) : System → System → Prop :=
  | step_section o e before i k after e' next spawned :
      allowed o i → exec o e i = (e', next, spawned) →
      sys_step allowed {| sys_env := e; sys_threads := before ++ (i :: k) :: after |}
               {| sys_env := e'; sys_threads := before ++ (next ++ k) :: after ++ spawned |}
  | step_call e threads i :
      public_call i = true →
      sys_step allowed {| sys_env := e; sys_threads := threads |}
               {| sys_env := e; sys_threads := threads ++ [[i]] |}
  | step_timer e threads id cb :
      e_timers e !! id = Some cb →
      sys_step allowed {| sys_env := e; sys_threads := threads |}
               {| sys_env := e; sys_threads := threads ++ [[timer_instr cb]] |}.

(** The constructed manager: generation 1, no states, no tasks. *)
Definition sys_init (marks : gmap string Z) : System :=
  {| sys_env := {| e_manager := {| um_states := ∅; um_generation := 1; um_marks := marks |};
                   e_timers := ∅; e_next_task := 1 |};
     sys_threads := [] |}.

(** Runs of [n] steps. *)
Inductive reaches (allowed : Oracle → Instr → Prop) : nat → System → System → Prop :=
  | reaches_refl sys : reaches allowed 0 sys sys
  | reaches_step n a b c :
      reaches allowed n a b → sys_step allowed b c → reaches allowed (S n) a c.

Definition anything (o : Oracle) (i : Instr) : Prop := True.
