(* ===== verification/UrltestManagerProps.v ===== *)
(** * Urltest manager: ownership of probes

    Invariants of the interleavings of UrltestManager.v. The threads of a system
    are abstracted to the pool of sections still to run, since none of the
    invariants depends on the order within a thread. *)

From Stdlib Require Import ZArith Lia Ascii String.
From stdpp Require Import base gmap strings list sorting.
From S2P Require Import Prelude ConfigTypes CircuitBreaker UrltestSelect UrltestManager.
Open Scope Z_scope.

(** ** Pools *)

Definition pool (sys : System) : list Instr := concat (sys_threads sys).

Inductive pool_step (allowed : Oracle → Instr → Prop) (e : Env) (p : list Instr)
    : Env → list Instr → Prop :=
  | pool_section o i rest e' next spawned p' :
      allowed o i → exec o e i = (e', next, spawned) → p ≡ₚ i :: rest →
      p' ≡ₚ next ++ concat spawned ++ rest → pool_step allowed e p e' p'
  | pool_call i p' : public_call i = true → p' ≡ₚ i :: p → pool_step allowed e p e p'
  | pool_timer id cb p' :
      e_timers e !! id = Some cb → p' ≡ₚ timer_instr cb :: p → pool_step allowed e p e p'.

Lemma sys_step_pool allowed a b :
  sys_step allowed a b → pool_step allowed (sys_env a) (pool a) (sys_env b) (pool b).
Proof.
  intros [o e bf i k af e' next sp Ha Hx|e th i Hc|e th id cb Ht]; unfold pool; cbn [sys_env sys_threads].
  - eapply (pool_section _ _ _ o i (concat bf ++ k ++ concat af)); [exact Ha|exact Hx| |].
    + rewrite concat_app. cbn [concat]. simpl. by rewrite <- Permutation_middle.
    + rewrite !concat_app. cbn [concat]. rewrite concat_app. solve_Permutation.
  - apply (pool_call _ _ _ i); [done|]. rewrite concat_app. simpl. by rewrite Permutation_app_comm.
  - apply (pool_timer _ _ _ id cb); [done|]. rewrite concat_app. simpl. by rewrite Permutation_app_comm.
Qed.

(** ** Ownership tokens *)

(** A section that owns a probe generation; [late] once the commit has been
    published. *)
Definition early_token (i : Instr) : option (string * Z) :=
  match i with
  | IPost t g _ _ _ | IBatch t g _ | IHandOff t g _ _ | IAbandon t g _ | ICommit t g _ => Some (t, g)
  | _ => None
  end.

Definition late_token (i : Instr) : option (string * Z) :=
  match i with
  | IOnChange t g _ | IResolve t g _ _ => Some (t, g)
  | _ => None
  end.

Definition count_tokens (f : Instr → option (string * Z)) (x : string * Z) (p : list Instr) : nat :=
  length (filter (λ i, f i = Some x) p).

Abbreviation early x p := (count_tokens early_token x p).
Abbreviation late x p := (count_tokens late_token x p).

Lemma count_app f x p q : count_tokens f x (p ++ q) = (count_tokens f x p + count_tokens f x q)%nat.
Proof. unfold count_tokens. by rewrite filter_app, length_app. Qed.

Lemma count_cons f x i p :
  count_tokens f x (i :: p) = ((if decide (f i = Some x) then 1 else 0) + count_tokens f x p)%nat.
Proof. unfold count_tokens. rewrite filter_cons. by destruct (decide _). Qed.

Lemma count_nil f x : count_tokens f x [] = 0%nat.
Proof. done. Qed.

#[export] Instance count_perm f x : Proper ((≡ₚ) ==> (=)) (count_tokens f x).
Proof. intros p q H. unfold count_tokens. by rewrite H. Qed.

Definition tokenless (i : Instr) : Prop := early_token i = None ∧ late_token i = None.

Lemma count_tokenless f p x :
  (f = early_token ∨ f = late_token) → Forall tokenless p → count_tokens f x p = 0%nat.
Proof.
  intros Hf. induction 1 as [|i p [H1 H2] _ IH]; [done|]. rewrite count_cons, IH.
  rewrite decide_False; [done|]. destruct Hf as [-> | ->]; congruence.
Qed.

(** ** The invariant *)

Record owned_state (u : Z) (p : list Instr) (t : string) (s : UrltestState) : Prop := {
  os_generation : 0 ≤ us_generation s < u;
  os_claimed : us_probe_inflight s = true → 1 ≤ us_generation s;
  os_pending : us_selection_pending s = true →
               us_probe_inflight s = true ∧ early (t, us_generation s) p = 0%nat;
  os_owner : us_probe_inflight s = true → us_selection_pending s = false →
             (early (t, us_generation s) p + late (t, us_generation s) p = 1)%nat;
}.

Record owned (n : nat) (e : Env) (p : list Instr) : Prop := {
  ow_generation : 1 ≤ um_generation (e_manager e) ≤ Z.of_nat n + 1;
  ow_unique : ∀ x, (early x p + late x p ≤ 1)%nat;
  ow_fresh : ∀ t g, (0 < early (t, g) p + late (t, g) p)%nat → 1 ≤ g < um_generation (e_manager e);
  ow_states : ∀ t s, um_states (e_manager e) !! t = Some s →
                     owned_state (um_generation (e_manager e)) p t s;
}.

(** The fields ownership depends on. *)
Definition probe_view (s : UrltestState) : bool * bool * Z :=
  (us_probe_inflight s, us_selection_pending s, us_generation s).

Lemma owned_state_view u p p' t s s' :
  owned_state u p t s → probe_view s' = probe_view s →
  (∀ x, early x p' = early x p) → (∀ x, late x p' = late x p) → owned_state u p' t s'.
Proof.
  intros [H1 H2 H3 H4] [= E1 E2 E3] He Hl. split; rewrite ?E1, ?E2, ?E3, ?He, ?Hl; done.
Qed.

(** Steps that leave the probe fields and the tokens alone. *)
Lemma owned_frame n e e' p p' :
  owned n e p →
  um_generation (e_manager e') = um_generation (e_manager e) →
  (∀ t s', um_states (e_manager e') !! t = Some s' →
     ∃ s, um_states (e_manager e) !! t = Some s ∧ probe_view s' = probe_view s) →
  (∀ x, early x p' = early x p) → (∀ x, late x p' = late x p) →
  owned (S n) e' p'.
Proof.
  intros [H1 H2 H3 H4] Hg Hs He Hl. split; rewrite ?Hg.
  - lia.
  - intros x. rewrite He, Hl. apply H2.
  - intros t g. rewrite He, Hl. apply H3.
  - intros t s' Hs'. destruct (Hs t s' Hs') as (s & Hs1 & Hv). eapply owned_state_view; eauto.
Qed.

(** Steps on one group whose token changes. *)
Lemma owned_change n e e' p p' t g :
  owned n e p →
  um_generation (e_manager e) ≤ um_generation (e_manager e') ≤ um_generation (e_manager e) + 1 →
  (∀ t', t' ≠ t → um_states (e_manager e') !! t' = um_states (e_manager e) !! t') →
  (∀ x, x ≠ (t, g) → early x p' = early x p ∧ late x p' = late x p) →
  (early (t, g) p' + late (t, g) p' ≤ 1)%nat →
  ((0 < early (t, g) p' + late (t, g) p')%nat → 1 ≤ g < um_generation (e_manager e')) →
  (∀ s', um_states (e_manager e') !! t = Some s' →
         owned_state (um_generation (e_manager e')) p' t s') →
  owned (S n) e' p'.
Proof.
  intros [H1 H2 H3 H4] Hg Ho Hx Hu Hf Hs. split.
  - lia.
  - intros x. destruct (decide (x = (t, g))) as [->|Hne]; [done|].
    destruct (Hx x Hne) as [-> ->]. apply H2.
  - intros t' g'. destruct (decide ((t', g') = (t, g))) as [[= -> ->]|Hne]; [done|].
    destruct (Hx _ Hne) as [-> ->]. intros ?%H3. lia.
  - intros t' s' Hs'. destruct (decide (t' = t)) as [->|Ht]; [by apply Hs|].
    rewrite Ho in Hs' by done. destruct (H4 t' s' Hs') as [P1 P2 P3 P4].
    destruct (Hx (t', us_generation s')) as [E1 E2]; [congruence|].
    split; rewrite ?E1, ?E2; try done. lia.
Qed.


(** Views of the group updates. *)
Lemma trigger_edge_view s : probe_view (trigger_edge s) = probe_view s.
Proof. done. Qed.
Lemma start_failure_view s k : probe_view (record_external_health_start_failure s k) = probe_view s.
Proof. unfold record_external_health_start_failure. by repeat case_match. Qed.
Lemma claimed_failure_view s : probe_view (record_claimed_external_health_failure s) = probe_view s.
Proof. unfold record_claimed_external_health_failure. by case_match. Qed.
Lemma reserve_view s s' : ensure_reserve s = Some s' → probe_view s' = probe_view s.
Proof. unfold ensure_reserve. case_match; [done|]. by intros [= <-]. Qed.
Lemma publish_view s a b c : probe_view (ensure_publish s a b c).1 = probe_view s.
Proof. unfold ensure_publish. by repeat case_match. Qed.
Lemma retry_check_view s a b : probe_view (retry_check s a b).1.1 = probe_view s.
Proof. unfold retry_check. by repeat case_match. Qed.
Lemma note_refused_view s r : probe_view (note_refused s r) = probe_view s.
Proof. unfold note_refused. by case_match. Qed.
Lemma finish_view s a : probe_view (finish_external_health_probe s a).1 = probe_view s.
Proof. unfold finish_external_health_probe. by case_match. Qed.
(** A commit touches only the probe fields. *)
Lemma commit_prepare_keeps {A} (f : UrltestState → A) now t g s r :
  (∀ s a b c d, f (with_probe_fields s a b c d) = f s) → f (commit_prepare now t g s r).1 = f s.
Proof.
  intros Hf. unfold commit_prepare. cbn [fst]. rewrite Hf. unfold commit_results.
  apply (fold_left_inv (λ s', f s' = f s)); [|done].
  intros s' [c res] _ <-. unfold commit_result. case_match; [apply Hf|done].
Qed.

(** Counting after a step on a pool. *)
Lemma step_counts f x p p' i rest new :
  p ≡ₚ i :: rest → p' ≡ₚ new ++ rest →
  count_tokens f x p = ((if decide (f i = Some x) then 1 else 0) + count_tokens f x rest)%nat
  ∧ count_tokens f x p' = (count_tokens f x new + count_tokens f x rest)%nat.
Proof. intros -> ->. by rewrite count_cons, count_app. Qed.

(** A token step: [i] owns [(t, g)] and the new sections own at most that. *)
Lemma token_counts n e p p' i rest new t g :
  owned n e p → p ≡ₚ i :: rest → p' ≡ₚ new ++ rest →
  (early_token i = Some (t, g) ∨ late_token i = Some (t, g)) →
  (∀ x, x ≠ (t, g) → early x new = 0%nat ∧ late x new = 0%nat) →
  early (t, g) rest = 0%nat ∧ late (t, g) rest = 0%nat
  ∧ early (t, g) p' = early (t, g) new ∧ late (t, g) p' = late (t, g) new
  ∧ 1 ≤ g < um_generation (e_manager e)
  ∧ ∀ x, x ≠ (t, g) → early x p' = early x p ∧ late x p' = late x p.
Proof.
  intros Ho Hp Hp' Hi Hn.
  destruct (step_counts early_token (t, g) _ _ _ _ _ Hp Hp') as [E1 E2].
  destruct (step_counts late_token (t, g) _ _ _ _ _ Hp Hp') as [L1 L2].
  pose proof (ow_unique _ _ _ Ho (t, g)) as Hu.
  assert (early (t, g) rest = 0%nat ∧ late (t, g) rest = 0%nat
          ∧ (0 < early (t, g) p + late (t, g) p)%nat) as (He & Hl & Hpos).
  { destruct Hi as [Hi|Hi]; [rewrite Hi, decide_True in E1 by done|rewrite Hi, decide_True in L1 by done]; lia. }
  pose proof (ow_fresh _ _ _ Ho t g Hpos) as Hf. split_and!; try lia.
  intros x Hx. destruct (Hn x Hx) as [N1 N2].
  destruct (step_counts early_token x _ _ _ _ _ Hp Hp') as [E3 E4].
  destruct (step_counts late_token x _ _ _ _ _ Hp Hp') as [L3 L4].
  rewrite decide_False in E3.
  2:{ destruct Hi as [Hi|Hi]; destruct i; simpl in *; congruence. }
  rewrite decide_False in L3.
  2:{ destruct Hi as [Hi|Hi]; destruct i; simpl in *; congruence. }
  lia.
Qed.

(** Sections without tokens. *)
Lemma silent_counts p p' i rest new :
  p ≡ₚ i :: rest → p' ≡ₚ new ++ rest → tokenless i → Forall tokenless new →
  ∀ x, early x p' = early x p ∧ late x p' = late x p.
Proof.
  intros Hp Hp' [H1 H2] Hn x.
  destruct (step_counts early_token x _ _ _ _ _ Hp Hp') as [-> ->].
  destruct (step_counts late_token x _ _ _ _ _ Hp Hp') as [-> ->].
  rewrite (count_tokenless early_token new) by auto. rewrite (count_tokenless late_token new) by auto.
  rewrite H1, H2. by rewrite !decide_False.
Qed.

Lemma dispatch_tokenless t r : Forall tokenless (dispatch_external_health_resolution t r).
Proof. unfold dispatch_external_health_resolution. by repeat case_match; repeat constructor. Qed.

Lemma not_queued_tokenless t k : Forall tokenless (not_queued t k).
Proof. destruct k; by repeat constructor. Qed.

(** Several current owners of a generation are impossible. *)
Lemma lookup_set_state m t s t' :
  um_states (set_state m t s) !! t' = if decide (t = t') then Some s else um_states m !! t'.
Proof. cbn. apply lookup_insert. Qed.

(** ** Preservation *)

Lemma owned_silent n e e' p p' i rest new :
  owned n e p → p ≡ₚ i :: rest → p' ≡ₚ new ++ rest → tokenless i → Forall tokenless new →
  um_generation (e_manager e') = um_generation (e_manager e) →
  (∀ t s', um_states (e_manager e') !! t = Some s' →
     ∃ s, um_states (e_manager e) !! t = Some s ∧ probe_view s' = probe_view s) →
  owned (S n) e' p'.
Proof.
  intros Ho Hp Hp' Hi Hn Hg Hs. eapply owned_frame; [exact Ho|done|done| |];
    intros x; by destruct (silent_counts _ _ _ _ _ Hp Hp' Hi Hn x).
Qed.

(** One group updated, its view kept. *)
Lemma set_state_views m t s s' :
  um_states m !! t = Some s → probe_view s' = probe_view s →
  ∀ t' s1, um_states (set_state m t s') !! t' = Some s1 →
    ∃ s0, um_states m !! t' = Some s0 ∧ probe_view s1 = probe_view s0.
Proof.
  intros Hs Hv t' s1. rewrite lookup_set_state. case_decide; [|eauto].
  subst. intros [= <-]. eauto.
Qed.

(** A token that moves to another section of the same kind. *)
Lemma owned_move n e p p' i rest j others t g :
  owned n e p → p ≡ₚ i :: rest → p' ≡ₚ (j :: others) ++ rest →
  (early_token i = early_token j ∧ late_token i = late_token j) →
  (early_token i = Some (t, g) ∨ late_token i = Some (t, g)) → Forall tokenless others →
  owned (S n) e p'.
Proof.
  intros Ho Hp Hp' [Hi Hj] _ Hn. eapply owned_frame; [exact Ho|done|eauto| |]; intros x.
  - destruct (step_counts early_token x _ _ _ _ _ Hp Hp') as [-> ->].
    rewrite count_cons, Hi, (count_tokenless early_token others) by auto. lia.
  - destruct (step_counts late_token x _ _ _ _ _ Hp Hp') as [-> ->].
    rewrite count_cons, Hj, (count_tokenless late_token others) by auto. lia.
Qed.

Lemma owned_state_other u u' p p' t g s :
  owned_state u p t s → u ≤ u' → (us_generation s ≠ g ∨ us_probe_inflight s = false) →
  (∀ x, x ≠ (t, g) → early x p' = early x p ∧ late x p' = late x p) →
  owned_state u' p' t s.
Proof.
  intros [H1 H2 H3 H4] Hu Hs Hx.
  assert (us_probe_inflight s = true → early (t, us_generation s) p' = early (t, us_generation s) p
          ∧ late (t, us_generation s) p' = late (t, us_generation s) p) as He.
  { intros Hi. apply Hx. destruct Hs; congruence. }
  split; [lia|done| |].
  - intros Hp. destruct (H3 Hp) as [Hi He0]. split; [done|]. destruct (He Hi). lia.
  - intros Hi Hp. destruct (He Hi). specialize (H4 Hi Hp). lia.
Qed.

(** A released or fresh group needs no owner. *)
Lemma owned_state_idle u p t s :
  0 ≤ us_generation s < u → us_probe_inflight s = false → us_selection_pending s = false →
  owned_state u p t s.
Proof. intros. split; [done| | |]; congruence. Qed.

Lemma not_current (s : UrltestState) g :
  negb (us_generation s =? g) || negb (us_probe_inflight s) = true →
  us_generation s ≠ g ∨ us_probe_inflight s = false.
Proof. destruct (Z.eqb_spec (us_generation s) g), (us_probe_inflight s); auto. Qed.

Lemma is_current (s : UrltestState) g :
  negb (us_generation s =? g) || negb (us_probe_inflight s) = false →
  us_generation s = g ∧ us_probe_inflight s = true.
Proof. by destruct (Z.eqb_spec (us_generation s) g), (us_probe_inflight s). Qed.

(** The token is spent and nothing happens to the groups. *)
Lemma owned_spent n e p p' i rest new t g :
  owned n e p → p ≡ₚ i :: rest → p' ≡ₚ new ++ rest →
  (early_token i = Some (t, g) ∨ late_token i = Some (t, g)) → Forall tokenless new →
  (∀ s, um_states (e_manager e) !! t = Some s →
        us_generation s ≠ g ∨ us_probe_inflight s = false ∨ us_selection_pending s = true) →
  owned (S n) e p'.
Proof.
  intros Ho Hp Hp' Hi Hn Hs.
  destruct (token_counts _ _ _ _ _ _ _ t g Ho Hp Hp' Hi) as (R1 & R2 & E1 & E2 & Hg & Hx).
  { intros x _. by rewrite !count_tokenless by auto. }
  rewrite (count_tokenless early_token new) in E1 by auto.
  rewrite (count_tokenless late_token new) in E2 by auto.
  eapply (owned_change _ _ _ _ _ t g Ho); [lia|done|done|lia|lia|].
  intros s Hs'. pose proof (ow_states _ _ _ Ho t s Hs') as Hos.
  destruct (Hs s Hs') as [H|[H|H]]; [eapply owned_state_other; eauto; lia..|].
  destruct (decide (us_generation s = g)) as [<-|]; [|eapply owned_state_other; eauto; lia].
  destruct Hos as [P1 P2 P3 P4]. split; [done|done| |congruence].
  intros _. split; [by apply P3|done].
Qed.

(** The token is spent and its group is released. *)
Lemma owned_release n e e' p p' i rest new t g s' :
  owned n e p → p ≡ₚ i :: rest → p' ≡ₚ new ++ rest →
  (early_token i = Some (t, g) ∨ late_token i = Some (t, g)) → Forall tokenless new →
  um_generation (e_manager e) ≤ um_generation (e_manager e') ≤ um_generation (e_manager e) + 1 →
  um_states (e_manager e') = <[t := s']> (um_states (e_manager e)) →
  0 ≤ us_generation s' < um_generation (e_manager e') →
  us_probe_inflight s' = false → us_selection_pending s' = false →
  owned (S n) e' p'.
Proof.
  intros Ho Hp Hp' Hi Hn Hg' Hst Hs Hf Hpd.
  destruct (token_counts _ _ _ _ _ _ _ t g Ho Hp Hp' Hi) as (R1 & R2 & E1 & E2 & Hg & Hx).
  { intros x _. by rewrite !count_tokenless by auto. }
  rewrite (count_tokenless early_token new) in E1 by auto.
  rewrite (count_tokenless late_token new) in E2 by auto.
  eapply (owned_change _ _ _ _ _ t g Ho); [lia| |done|lia|lia|].
  - intros t' Ht. rewrite Hst. by rewrite lookup_insert_ne.
  - intros s1. rewrite Hst, lookup_insert_eq. intros [= <-]. by apply owned_state_idle.
Qed.

Lemma with_manager_id e : with_manager e (e_manager e) = e.
Proof. by destruct e. Qed.

Lemma u64_bump n e p :
  owned n e p → Z.of_nat n + 2 < 2 ^ 64 →
  u64 (um_generation (e_manager e) + 1) = um_generation (e_manager e) + 1.
Proof. intros [H _ _ _] Hn. unfold u64, wrap. apply Z.mod_small. lia. Qed.

Lemma claim_probe_view m now s :
  probe_view (claim_probe m now s).1 = (true, us_selection_pending s, um_generation m).
Proof. unfold claim_probe. by destruct (collect_candidates _ _ _ _ _). Qed.

Section Cases.
Context (n : nat) (e : Env) (p p' rest : list Instr).
Context (Ho : owned n e p) (Hn : Z.of_nat n + 2 < 2 ^ 64).
Abbreviation m := (e_manager e).

Lemma owned_queue t reason k now :
  p ≡ₚ IQueue t reason k :: rest →
  match queue_claim m t reason now with
  | (m', None) => p' ≡ₚ not_queued t k ++ rest → owned (S n) (with_manager e m') p'
  | (m', Some (g, cs)) =>
      p' ≡ₚ [IPost t g (tc_child_tag <$> cs) (worker_count cs) k] ++ rest →
      owned (S n) (with_manager e m') p'
  end.
Proof.
  intros Hp. unfold queue_claim. destruct (um_states m !! t) as [s|] eqn:Hs.
  2:{ intros Hp'. eapply owned_silent; eauto using not_queued_tokenless; done. }
  destruct (us_probe_inflight s) eqn:Hi.
  { intros Hp'. eapply owned_silent; eauto using not_queued_tokenless; [done|].
    eapply set_state_views; [done|apply note_refused_view]. }
  pose proof (claim_probe_view m now s) as Hv. destruct (claim_probe m now s) as [s' cs].
  intros Hp'. injection Hv as Hv1 Hv2 Hv3.
  pose proof (u64_bump _ _ _ Ho Hn) as Hb. pose proof (ow_generation _ _ _ Ho) as Hg.
  destruct (step_counts early_token (t, um_generation m) _ _ _ _ _ Hp Hp') as [E1 E2].
  destruct (step_counts late_token (t, um_generation m) _ _ _ _ _ Hp Hp') as [L1 L2].
  rewrite decide_False in E1, L1 by done. rewrite count_cons, count_nil in E2, L2.
  rewrite decide_True in E2 by done. rewrite decide_False in L2 by done.
  assert (early (t, um_generation m) p + late (t, um_generation m) p = 0)%nat as Hz.
  { destruct (decide (0 < early (t, um_generation m) p + late (t, um_generation m) p)%nat)
      as [Hpos|]; [|lia]. apply (ow_fresh _ _ _ Ho) in Hpos. lia. }
  pose proof (ow_states _ _ _ Ho t s Hs) as [Hs1 Hs2 Hs3 Hs4].
  assert (us_selection_pending s = false) as Hpd.
  { destruct (us_selection_pending s); [|done]. destruct (Hs3 eq_refl). congruence. }
  eapply (owned_change _ _ _ _ _ t (um_generation m) Ho); cbn [with_manager e_manager bump_generation
    set_state um_states um_generation]; rewrite ?Hb; [lia| | |lia|lia|].
  - intros t' Ht. by rewrite lookup_insert_ne.
  - intros x Hx.
    destruct (step_counts early_token x _ _ _ _ _ Hp Hp') as [-> ->].
    destruct (step_counts late_token x _ _ _ _ _ Hp Hp') as [-> ->].
    rewrite !count_cons, !count_nil. simpl. rewrite !decide_False by congruence. lia.
  - intros s1. rewrite lookup_insert_eq. intros [= <-]. split; rewrite ?Hv1, ?Hv2, ?Hv3; try lia.
    congruence.
Qed.

Lemma owned_abandon t g tags :
  p ≡ₚ IAbandon t g tags :: rest →
  let '(m', retry) := abandon_probe m t g tags in
  p' ≡ₚ (if retry then [IEnsure t] else []) ++ rest → owned (S n) (with_manager e m') p'.
Proof.
  intros Hp. pose proof (ow_generation _ _ _ Ho) as Hg.
  assert (∀ b, Forall tokenless (if b : bool then [IEnsure t] else [])) as Htl
    by (intros []; by repeat constructor).
  unfold abandon_probe. destruct (um_states m !! t) as [s|] eqn:Hs.
  2:{ intros Hp'. rewrite with_manager_id.
    eapply (owned_spent _ _ _ _ _ _ [] t g Ho Hp Hp'); [by left|constructor|congruence]. }
  destruct (negb _ || negb _) eqn:Hc.
  { apply not_current in Hc. intros Hp'. rewrite with_manager_id.
    eapply (owned_spent _ _ _ _ _ _ [] t g Ho Hp Hp'); [by left|constructor|].
    intros s1 Hs1. replace s1 with s by congruence. tauto. }
  intros Hp'. pose proof (u64_bump _ _ _ Ho Hn) as Hb.
  eapply (owned_release _ _ _ _ _ _ _ _ t g _ Ho Hp Hp'); cbn; rewrite ?Hb;
    [by left|apply Htl|lia|reflexivity|cbn; lia|done|done].
Qed.

Lemma owned_commit t g results now :
  p ≡ₚ ICommit t g results :: rest →
  match commit_publish m t g results now with
  | (m', commit_skipped) => p' ≡ₚ [] ++ rest → owned (S n) (with_manager e m') p'
  | (m', commit_unchanged r) =>
      p' ≡ₚ dispatch_external_health_resolution t r ++ rest → owned (S n) (with_manager e m') p'
  | (m', commit_changed ch) =>
      p' ≡ₚ [IOnChange t g (sc_previous_child_tag ch)] ++ rest → owned (S n) (with_manager e m') p'
  end.
Proof.
  intros Hp. pose proof (ow_generation _ _ _ Ho) as Hg.
  unfold commit_publish. destruct (um_states m !! t) as [s|] eqn:Hs.
  2:{ intros Hp'. rewrite with_manager_id.
    eapply (owned_spent _ _ _ _ _ _ [] t g Ho Hp Hp'); [by left|constructor|congruence]. }
  rewrite Z.eqb_sym. destruct (negb _ || negb _) eqn:Hc.
  { apply not_current in Hc. intros Hp'. rewrite with_manager_id.
    eapply (owned_spent _ _ _ _ _ _ [] t g Ho Hp Hp'); [by left|constructor|].
    intros s1 Hs1. replace s1 with s by congruence. tauto. }
  apply is_current in Hc as [Hgs Hi].
  pose proof (ow_states _ _ _ Ho t s Hs) as [Hs1 Hs2 Hs3 Hs4].
  pose proof (commit_prepare_keeps probe_view now t g s results ltac:(done)) as Hv.
  destruct (commit_prepare now t g s results) as [s1 [ch|]]; cbn [fst] in Hv; injection Hv as V1 V2 V3.
  - intros Hp'.
    destruct (token_counts _ _ _ _ _ _ _ t g Ho Hp Hp' ltac:(by left)) as (R1 & R2 & E1 & E2 & Hg' & Hx).
    { intros x Hx. rewrite !count_cons, !count_nil. simpl. by rewrite !decide_False by congruence. }
    rewrite count_cons, count_nil in E1, E2.
    rewrite decide_False in E1 by done. rewrite decide_True in E2 by done.
    eapply (owned_change _ _ _ _ _ t g Ho); [cbn; lia| |done|lia|cbn; lia|].
    + intros t' Ht. cbn. by rewrite lookup_insert_ne.
    + intros s2. cbn. rewrite lookup_insert_eq. intros [= <-].
      split; rewrite ?V1, ?V2, ?V3, ?Hgs; try done; [lia|lia|]. rewrite E1, E2. done.
  - pose proof (finish_view (with_probe s1 false (us_selection_pending s1) (us_generation s1)) true) as Fv.
    destruct (finish_external_health_probe _ true) as [s2 r]. cbn [fst] in Fv. injection Fv as F1 F2 F3.
    intros Hp'.
    assert (us_selection_pending s = false) as Hpd.
    { destruct (us_selection_pending s) eqn:Hpd; [|done]. destruct (Hs3 eq_refl) as [_ H0].
      rewrite Hgs in H0. revert H0. rewrite Hp, count_cons, decide_True by done. lia. }
    eapply (owned_release _ _ _ _ _ _ _ _ t g _ Ho Hp Hp'); cbn;
      [by left|apply dispatch_tokenless|lia|reflexivity|lia|done|congruence].
Qed.

Lemma owned_on_change t g previous (defer admitted : bool) :
  p ≡ₚ IOnChange t g previous :: rest → p' ≡ₚ [IResolve t g previous admitted] ++ rest →
  owned (S n) (if defer then with_manager e (defer_selection_completion m t g).1 else e) p'.
Proof.
  intros Hp Hp'.
  assert (owned (S n) e p') as Hsame.
  { eapply (owned_move _ _ _ _ _ _ _ [] t g Ho Hp Hp'); [done|by right|constructor]. }
  destruct defer; [|done]. unfold defer_selection_completion.
  destruct (um_states m !! t) as [s|] eqn:Hs; [|by rewrite with_manager_id].
  destruct (negb _ || negb _) eqn:Hc; [by rewrite with_manager_id|].
  apply is_current in Hc as [Hgs Hi].
  pose proof (ow_states _ _ _ Ho t s Hs) as [Hs1 Hs2 Hs3 Hs4].
  destruct (token_counts _ _ _ _ _ _ _ t g Ho Hp Hp' ltac:(by right)) as (R1 & R2 & E1 & E2 & Hg' & Hx).
  { intros x Hx. rewrite !count_cons, !count_nil. simpl. by rewrite !decide_False by congruence. }
  rewrite count_cons, count_nil in E1, E2.
  rewrite decide_False in E1 by done. rewrite decide_True in E2 by done.
  eapply (owned_change _ _ _ _ _ t g Ho); [cbn; lia| |done|lia|cbn; lia|].
  - intros t' Ht. cbn. by rewrite lookup_insert_ne.
  - intros s2. cbn. rewrite lookup_insert_eq. intros [= <-].
    split; cbn; rewrite ?Hgs; [lia|lia| |done]. intros _. split; [done|lia].
Qed.

Lemma owned_resolve t g previous admitted :
  p ≡ₚ IResolve t g previous admitted :: rest →
  let '(m', r) := commit_resolve m t g previous admitted in
  p' ≡ₚ dispatch_external_health_resolution t r ++ rest → owned (S n) (with_manager e m') p'.
Proof.
  intros Hp. unfold commit_resolve. destruct (um_states m !! t) as [s|] eqn:Hs.
  2:{ intros Hp'. rewrite with_manager_id.
      eapply (owned_spent _ _ _ _ _ _ [] t g Ho Hp Hp'); [by right|constructor|congruence]. }
  destruct (negb _ || negb _) eqn:Hc.
  { apply not_current in Hc. intros Hp'. rewrite with_manager_id.
    eapply (owned_spent _ _ _ _ _ _ [] t g Ho Hp Hp'); [by right|constructor|].
    intros s1 Hs1. replace s1 with s by congruence. tauto. }
  apply is_current in Hc as [Hgs Hi].
  pose proof (ow_states _ _ _ Ho t s Hs) as [Hs1 Hs2 Hs3 Hs4].
  set (s1 := if admitted then s else _).
  assert (us_generation s1 = g) as Hg1 by (unfold s1; by destruct admitted).
  assert (us_selection_pending s1 = true → s1 = s) as Hps by (unfold s1; by destruct admitted).
  destruct (us_selection_pending s1) eqn:Hpd.
  - intros Hp'. rewrite Hps in Hpd |- * by done.
    assert (set_state m t s = m) as ->.
    { destruct (e_manager e) as [sts gn mk]. unfold set_state. cbn in *. by rewrite insert_id. }
    rewrite with_manager_id.
    eapply (owned_spent _ _ _ _ _ _ [] t g Ho Hp Hp'); [by right|constructor|].
    intros s2 Hs2'. replace s2 with s by congruence. tauto.
  - pose proof (finish_view (with_probe s1 false false (us_generation s1)) admitted) as Fv.
    destruct (finish_external_health_probe _ admitted) as [s2 r]. cbn [fst] in Fv. injection Fv as F1 F2 F3.
    intros Hp'. eapply (owned_release _ _ _ _ _ _ _ _ t g _ Ho Hp Hp'); cbn;
      [by right|apply dispatch_tokenless|lia|reflexivity|rewrite F3; lia|done|done].
Qed.

(** A group released or created by a section that holds no token. *)
Lemma owned_idle e' i new t s' :
  p ≡ₚ i :: rest → p' ≡ₚ new ++ rest → tokenless i → Forall tokenless new →
  um_generation (e_manager e') = um_generation m →
  um_states (e_manager e') = <[t := s']> (um_states m) →
  0 ≤ us_generation s' < um_generation m →
  us_probe_inflight s' = false → us_selection_pending s' = false → owned (S n) e' p'.
Proof.
  intros Hp Hp' Hi Hnew Hg Hst Hs Hf Hpd.
  pose proof (silent_counts _ _ _ _ _ Hp Hp' Hi Hnew) as Hx.
  assert (um_generation m = um_generation (e_manager e')) as Hg' by done.
  eapply (owned_change _ _ _ _ _ t 0 Ho); [lia| | | | |].
  - intros t' Ht. rewrite Hst. by rewrite lookup_insert_ne.
  - intros x _. apply Hx.
  - destruct (Hx (t, 0)) as [-> ->]. apply (ow_unique _ _ _ Ho).
  - destruct (Hx (t, 0)) as [-> ->]. intros ?%(ow_fresh _ _ _ Ho). lia.
  - intros s1. rewrite Hst, lookup_insert_eq. intros [= <-]. apply owned_state_idle; [lia|done|done].
Qed.

Lemma owned_complete t g resume :
  p ≡ₚ IComplete t g resume :: rest →
  let '(m', r) := complete_selection m t g resume in
  p' ≡ₚ dispatch_external_health_resolution t r ++ rest → owned (S n) (with_manager e m') p'.
Proof.
  intros Hp. unfold complete_selection. destruct (um_states m !! t) as [s|] eqn:Hs.
  2:{ intros Hp'. eapply (owned_silent _ _ _ _ _ _ _ [] Ho Hp Hp'); eauto; by constructor. }
  destruct (negb _ || negb _) eqn:Hc.
  { intros Hp'. eapply (owned_silent _ _ _ _ _ _ _ [] Ho Hp Hp'); eauto; by constructor. }
  pose proof (ow_states _ _ _ Ho t s Hs) as [Hs1 Hs2 Hs3 Hs4].
  pose proof (finish_view (with_probe s false false (us_generation s)) true) as Fv.
  destruct (finish_external_health_probe _ true) as [s1 r]. cbn [fst] in Fv. injection Fv as F1 F2 F3.
  destruct resume; intros Hp';
    (eapply (owned_idle _ _ _ t _ Hp Hp'); cbn;
      [done|apply dispatch_tokenless|done|reflexivity|cbn; lia|done|done]).
Qed.

Lemma owned_retire i m' :
  tokenless i → um_states m' = ∅ → um_generation m' = u64 (um_generation m + 1) →
  p ≡ₚ i :: rest → p' ≡ₚ (ICancel <$> retired_tasks (um_states m)) ++ rest →
  owned (S n) (with_manager e m') p'.
Proof.
  intros Hi Hst Hg Hp Hp'. rewrite (u64_bump _ _ _ Ho Hn) in Hg.
  assert (Forall tokenless (ICancel <$> retired_tasks (um_states m))) as Hnew.
  { apply Forall_fmap, Forall_forall. done. }
  pose proof (silent_counts _ _ _ _ _ Hp Hp' Hi Hnew) as Hx.
  destruct Ho as [H1 H2 H3 H4]. split; cbn; rewrite ?Hg.
  - lia.
  - intros x. destruct (Hx x) as [-> ->]. apply H2.
  - intros t g. destruct (Hx (t, g)) as [-> ->]. intros ?%H3. lia.
  - intros t s. rewrite Hst. by intros ?%lookup_empty_Some.
Qed.

Lemma owned_register ut initial direct task e' :
  p ≡ₚ IRegister ut initial direct :: rest → p' ≡ₚ [IQueue (ob_tag ut) pr_initial None] ++ rest →
  e_manager e' = register_urltest m ut initial direct task → owned (S n) e' p'.
Proof.
  intros Hp Hp' He. pose proof (ow_generation _ _ _ Ho) as Hg.
  assert (Forall tokenless [IQueue (ob_tag ut) pr_initial None]) as Hnew by by repeat constructor.
  unfold register_urltest in He. destruct (um_states m !! ob_tag ut) as [s|] eqn:Hs.
  - eapply (owned_silent _ _ _ _ _ _ _ _ Ho Hp Hp'); rewrite ?He; eauto. done.
  - eapply (owned_idle e' _ _ (ob_tag ut) _ Hp Hp'); rewrite ?He;
      [done|done|done|reflexivity|cbn; lia|done|done].
Qed.
End Cases.

Lemma update_state_silent n e p p' i rest new t f :
  owned n e p → p ≡ₚ i :: rest → p' ≡ₚ new ++ rest → tokenless i → Forall tokenless new →
  (∀ s, probe_view (f s) = probe_view s) → owned (S n) (update_state e t f) p'.
Proof.
  intros Ho Hp Hp' Hi Hn Hf. unfold update_state. destruct (um_states _ !! t) as [s|] eqn:Hs.
  - eapply (owned_silent _ _ _ _ _ _ _ _ Ho Hp Hp'); try done. by eapply set_state_views.
  - eapply (owned_silent _ _ _ _ _ _ _ _ Ho Hp Hp'); eauto.
Qed.

(** Closes the silent cases of a section. *)
Ltac silent H := apply H; [done|try (by repeat constructor)|done].

Lemma exec_owned n e p p' rest o i e' next spawned :
  owned n e p → Z.of_nat n + 2 < 2 ^ 64 → exec o e i = (e', next, spawned) →
  p ≡ₚ i :: rest → p' ≡ₚ next ++ concat spawned ++ rest → owned (S n) e' p'.
Proof.
  intros Ho Hn Hx Hp Hp'. rewrite app_assoc in Hp'.
  assert (tokenless i → Forall tokenless (next ++ concat spawned) →
          e_manager e' = e_manager e → owned (S n) e' p') as Hsilent.
  { intros Hi Hf He. eapply (owned_silent _ _ _ _ _ _ _ _ Ho Hp Hp'); rewrite ?He; eauto. }
  destruct i; cbn [exec] in Hx; cbv zeta in Hx.
  - (* IRegister *)
    destruct (or_ok o); injection Hx as <- <- <-; [|silent Hsilent].
    eapply owned_register; [exact Ho|exact Hp|exact Hp'|reflexivity].
  - injection Hx as <- <- <-. silent Hsilent.
  - injection Hx as <- <- <-. silent Hsilent.
  - (* ITrigger *)
    destruct (um_states _ !! tag); injection Hx as <- <- <-; [|silent Hsilent].
    eapply (update_state_silent _ _ _ _ _ _ _ _ _ Ho Hp Hp');
      [done|by repeat constructor|apply trigger_edge_view].
  - injection Hx as <- <- <-. silent Hsilent.
  - destruct (_ ≫= start_read); injection Hx as <- <- <-; silent Hsilent.
  - (* IStartFailed *)
    injection Hx as <- <- <-. eapply (update_state_silent _ _ _ _ _ _ _ _ _ Ho Hp Hp');
      [done|by constructor|].
    intros s. apply (start_failure_view s expected).
  - (* IEnsure *)
    destruct (um_states _ !! tag) as [s|] eqn:Hs; [|injection Hx as <- <- <-; silent Hsilent].
    destruct (ensure_reserve s) as [s'|] eqn:Hr; injection Hx as <- <- <-; [|silent Hsilent].
    eapply (owned_silent _ _ _ _ _ _ _ _ Ho Hp Hp'); [done|by repeat constructor|done|].
    eapply set_state_views; [done|by eapply reserve_view].
  - destruct (or_ok o); injection Hx as <- <- <-; silent Hsilent.
  - (* IPublish *)
    destruct (um_states _ !! tag) as [s|] eqn:Hs.
    2:{ injection Hx as <- <- <-. apply Hsilent; [done|case_match; by repeat constructor|done]. }
    pose proof (publish_view s registration epoch task) as Hv.
    destruct (ensure_publish s registration epoch task) as [s' b]. injection Hx as <- <- <-.
    eapply (owned_silent _ _ _ _ _ _ _ _ Ho Hp Hp'); [done|case_match; by repeat constructor|done|].
    by eapply set_state_views.
  - injection Hx as <- <- <-. apply Hsilent; [done|by constructor|]. unfold cancel_scheduler_task. by case_match.
  - (* IRetry *)
    destruct (um_states _ !! tag) as [s|] eqn:Hs; [|injection Hx as <- <- <-; silent Hsilent].
    pose proof (retry_check_view s registration epoch) as Hv.
    destruct (retry_check s registration epoch) as [[s' task] b]. injection Hx as <- <- <-.
    eapply (owned_silent _ _ _ _ _ _ _ _ Ho Hp Hp'); [done|repeat case_match; by repeat constructor|done|].
    by eapply set_state_views.
  - (* IQueue *)
    pose proof (owned_queue n e p p' rest Ho Hn tag reason expected (or_now o) Hp) as H.
    destruct (queue_claim _ _ _ _) as [m' [[g cs]|]]; injection Hx as <- <- <-;
      apply H; by rewrite app_nil_r in Hp'.
  - (* IPost *)
    destruct (or_ok o).
    + destruct remaining as [|[|k]]; injection Hx as <- <- <-; rewrite ?app_nil_r in Hp';
        eapply (owned_move _ _ _ _ _ _ _ [] tag generation Ho Hp Hp'); by (left || constructor || done).
    + injection Hx as <- <- <-. rewrite app_nil_r in Hp'.
      eapply (owned_move _ _ _ _ _ _ _ _ tag generation Ho Hp Hp'); [done|by left|apply not_queued_tokenless].
  - (* IBatch *)
    destruct (or_results o); injection Hx as <- <- <-;
      eapply (owned_move _ _ _ _ _ _ _ [] tag generation Ho Hp Hp'); by (left || constructor || done).
  - (* IHandOff *)
    destruct (or_ok o); injection Hx as <- <- <-;
      eapply (owned_move _ _ _ _ _ _ _ [] tag generation Ho Hp Hp'); by (left || constructor || done).
  - (* IAbandon *)
    pose proof (owned_abandon n e p p' rest Ho Hn tag generation tags Hp) as H.
    destruct (abandon_probe _ _ _ _) as [m' b]. injection Hx as <- <- <-.
    apply H. by rewrite app_nil_r in Hp'.
  - (* ICommit *)
    destruct (or_ok o).
    + pose proof (owned_commit n e p p' rest Ho tag generation results (or_now o) Hp) as H.
      destruct (commit_publish _ _ _ _ _) as [m' []]; injection Hx as <- <- <-;
        apply H; by rewrite app_nil_r in Hp'.
    + injection Hx as <- <- <-.
      eapply (owned_move _ _ _ _ _ _ _ [] tag generation Ho Hp Hp'); by (left || constructor || done).
  - (* IOnChange *)
    injection Hx as <- <- <-. by eapply owned_on_change.
  - (* IResolve *)
    pose proof (owned_resolve n e p p' rest Ho tag generation previous admitted Hp) as H.
    destruct (commit_resolve _ _ _ _ _) as [m' r]. injection Hx as <- <- <-.
    apply H. by rewrite app_nil_r in Hp'.
  - (* IComplete *)
    pose proof (owned_complete n e p p' rest Ho tag generation resume Hp) as H.
    destruct (complete_selection _ _ _ _) as [m' r]. injection Hx as <- <- <-.
    apply H. by rewrite app_nil_r in Hp'.
  - (* ISync *)
    injection Hx as <- <- <-. unfold synchronize_selected.
    destruct (um_states _ !! tag) as [s|] eqn:Hs; [|rewrite with_manager_id;
      eapply (owned_silent _ _ _ _ _ _ _ _ Ho Hp Hp'); [done|constructor|done|eauto]].
    destruct (selectable s selected); [|rewrite with_manager_id;
      eapply (owned_silent _ _ _ _ _ _ _ _ Ho Hp Hp'); [done|constructor|done|eauto]].
    eapply (owned_silent _ _ _ _ _ _ _ _ Ho Hp Hp'); [done|by constructor|done|]. by eapply set_state_views.
  - (* ISyncGeneration *)
    injection Hx as <- <- <-. unfold synchronize_selected_if_generation.
    destruct (um_states _ !! tag) as [s|] eqn:Hs; [|rewrite with_manager_id;
      eapply (owned_silent _ _ _ _ _ _ _ _ Ho Hp Hp'); [done|constructor|done|eauto]].
    destruct (_ && _); [|rewrite with_manager_id;
      eapply (owned_silent _ _ _ _ _ _ _ _ Ho Hp Hp'); [done|constructor|done|eauto]].
    eapply (owned_silent _ _ _ _ _ _ _ _ Ho Hp Hp'); [done|by constructor|done|]. by eapply set_state_views.
  - (* IClear *)
    unfold retire_states in Hx. injection Hx as <- <- <-. rewrite app_nil_r in Hp'.
    eapply (owned_retire n e p p' rest Ho Hn); [| | |exact Hp|exact Hp']; done.
  - (* IReplaceMarks *)
    unfold retire_states in Hx. injection Hx as <- <- <-. rewrite app_nil_r in Hp'.
    eapply (owned_retire n e p p' rest Ho Hn); [| | |exact Hp|exact Hp']; done.
Qed.

Lemma pool_step_owned allowed n e p e' p' :
  owned n e p → Z.of_nat n + 2 < 2 ^ 64 → pool_step allowed e p e' p' → owned (S n) e' p'.
Proof.
  intros Ho Hn Hs.
  assert (∀ i q, tokenless i → q ≡ₚ i :: p → owned (S n) e q) as Hadd.
  { intros i q [H1 H2] Hq. eapply owned_frame; [exact Ho|done|eauto| |]; intros x;
      rewrite Hq, count_cons; rewrite decide_False by congruence; lia. }
  destruct Hs as [o i rest e' next spawned p' _ Hx Hp Hp'|i p' Hc Hp'|id cb p' Ht Hp'].
  - by eapply exec_owned.
  - eapply Hadd; [|exact Hp']. by destruct i.
  - eapply Hadd; [|exact Hp']. by destruct cb.
Qed.

Lemma owned_init marks : owned 0 (sys_env (sys_init marks)) (pool (sys_init marks)).
Proof.
  split; cbn; [lia|intros; lia|intros; cbn in *; lia|]. by intros t s ?%lookup_empty_Some.
Qed.

Lemma reaches_owned allowed marks n sys :
  reaches allowed n (sys_init marks) sys → Z.of_nat n + 1 < 2 ^ 64 → owned n (sys_env sys) (pool sys).
Proof.
  remember (sys_init marks) as s0 eqn:E0. induction 1 as [s|n a b c Hab IH Hbc]; intros Hn; subst.
  - apply owned_init.
  - eapply pool_step_owned; [apply IH; [done|lia]|lia|by apply sys_step_pool].
Qed.

(** ** Stale owners *)

Definition owner_of (i : Instr) : option (string * Z) :=
  match early_token i with Some x => Some x | None => late_token i end.

Lemma owner_token i x : owner_of i = Some x ↔ early_token i = Some x ∨ late_token i = Some x.
Proof. destruct i; cbn; intuition congruence. Qed.

(** An owner whose generation is not the one in flight leaves every group as it is. *)
Lemma stale_owner_no_effect o e i t g :
  owner_of i = Some (t, g) →
  (∀ s, um_states (e_manager e) !! t = Some s →
        us_generation s ≠ g ∨ us_probe_inflight s = false) →
  um_states (e_manager (exec o e i).1.1) = um_states (e_manager e).
Proof.
  intros Hi Hs.
  assert (∀ s, um_states (e_manager e) !! t = Some s →
    negb (us_generation s =? g) || negb (us_probe_inflight s) = true) as Hc.
  { intros s Hst. destruct (Hs s Hst) as [H | ->]; [|by rewrite orb_true_r].
    by rewrite (proj2 (Z.eqb_neq _ _) H). }
  clear Hs. revert Hc. destruct i; cbn in Hi; try done; injection Hi as -> ->; cbn [exec];
    unfold abandon_probe, commit_publish, defer_selection_completion, commit_resolve.
  - destruct (or_ok o); [destruct remaining as [|[|]]|]; done.
  - by destruct (or_results o).
  - by destruct (or_ok o).
  - destruct (_ !! t) as [s|]; [|done]. intros Hc. by rewrite (Hc s eq_refl).
  - destruct (or_ok o); [|done]. destruct (_ !! t) as [s|]; [|done]. intros Hc.
    rewrite (Z.eqb_sym g). by rewrite (Hc s eq_refl).
  - cbn. destruct (or_defer o); [|done]. destruct (_ !! t) as [s|]; [|done]. intros Hc.
    by rewrite (Hc s eq_refl).
  - destruct (_ !! t) as [s|]; [|done]. intros Hc. by rewrite (Hc s eq_refl).
Qed.

Lemma owner_count p t g :
  (early (t, g) p + late (t, g) p ≤ 1)%nat →
  ∀ i j rest, p ≡ₚ i :: j :: rest → owner_of i = Some (t, g) → owner_of j ≠ Some (t, g).
Proof.
  intros H i j rest Hp Hi%owner_token Hj%owner_token. rewrite Hp, !count_cons in H.
  destruct Hi as [Hi|Hi], Hj as [Hj|Hj]; rewrite Hi, Hj in H;
    repeat rewrite (decide_True (P := Some (t, g) = Some (t, g))) in H by done; lia.
Qed.

Lemma owner_exists p t g :
  (early (t, g) p + late (t, g) p = 1)%nat → ∃ i, i ∈ p ∧ owner_of i = Some (t, g).
Proof.
  intros H. assert (∀ f, (0 < count_tokens f (t, g) p)%nat → ∃ i, i ∈ p ∧ f i = Some (t, g)) as Hf.
  { intros f. unfold count_tokens. destruct (filter _ p) as [|i l] eqn:E; [cbn; lia|]. intros _.
    exists i. assert (i ∈ i :: l) as Hi by left. rewrite <- E in Hi.
    apply list_elem_of_filter in Hi. tauto. }
  destruct (decide (0 < early (t, g) p)%nat) as [He|He].
  - destruct (Hf _ He) as (i & ? & ?). exists i. rewrite owner_token. auto.
  - destruct (Hf late_token ltac:(lia)) as (i & ? & ?). exists i. rewrite owner_token. auto.
Qed.

(** Running the [k]-th thread, for concrete executions. *)
Definition run_thread (o : Oracle) (k : nat) (sys : System) : System :=
  match sys_threads sys !! k with
  | Some (i :: rest) =>
      let '(e', next, spawned) := exec o (sys_env sys) i in
      {| sys_env := e';
         sys_threads := take k (sys_threads sys)
                        ++ (next ++ rest) :: drop (S k) (sys_threads sys) ++ spawned |}
  | _ => sys
  end.

Definition thread_head (sys : System) (k : nat) : option Instr := sys_threads sys !! k ≫= head.

Lemma run_thread_step allowed o k sys i :
  thread_head sys k = Some i → allowed o i → sys_step allowed sys (run_thread o k sys).
Proof.
  destruct sys as [e th]. unfold thread_head, run_thread. cbn [sys_env sys_threads].
  destruct (th !! k) as [[|j rest]|] eqn:Hk; cbn; try done. intros [= ->] Ha.
  destruct (exec o e i) as [[e' next] spawned] eqn:Hx.
  pose proof (step_section allowed o e (take k th) i rest (drop (S k) th) e' next spawned Ha Hx) as Hs.
  by rewrite take_drop_middle in Hs.
Qed.

Definition call (i : Instr) (sys : System) : System :=
  {| sys_env := sys_env sys; sys_threads := sys_threads sys ++ [[i]] |}.

Lemma call_step allowed i sys : public_call i = true → sys_step allowed sys (call i sys).
Proof. destruct sys. apply step_call. Qed.

(** ** Properties *)

(** C12. Single flight: in every interleaving, a group whose probe is in flight has
    its generation either owned by exactly one running section or parked with the
    controller's pending selection, so the flag is never left behind; no
    generation has two owners; and an owner left over from an earlier probe or
    registration changes no group. The 64-bit generation counter bounds the length
    of the runs considered. *)
Theorem probe_single_flight marks n sys :
  reaches anything n (sys_init marks) sys → Z.of_nat n + 1 < 2 ^ 64 →
  let states := um_states (e_manager (sys_env sys)) in
  (∀ t s, states !! t = Some s → us_probe_inflight s = true →
     us_selection_pending s = true ∨ ∃ i, i ∈ pool sys ∧ owner_of i = Some (t, us_generation s))
  ∧ (∀ t s, states !! t = Some s → us_selection_pending s = true → us_probe_inflight s = true)
  ∧ (∀ x i j rest, pool sys ≡ₚ i :: j :: rest → owner_of i = Some x → owner_of j ≠ Some x)
  ∧ (∀ o i t g, owner_of i = Some (t, g) →
       (∀ s, states !! t = Some s → us_generation s ≠ g ∨ us_probe_inflight s = false) →
       um_states (e_manager (exec o (sys_env sys) i).1.1) = states).
Proof.
  intros Hr Hn states. pose proof (reaches_owned _ _ _ _ Hr Hn) as [H1 H2 H3 H4].
  split_and!.
  - intros t s Hs Hi. destruct (us_selection_pending s) eqn:Hp; [by left|right].
    destruct (H4 t s Hs) as [_ _ _ Ho]. by apply owner_exists, Ho.
  - intros t s Hs Hp. by destruct (os_pending _ _ _ _ (H4 t s Hs) Hp).
  - intros [t g]. apply owner_count, H2.
  - intros o i t g. apply stale_owner_no_effect.
Qed.

Definition sample_oracle (ok defer : bool) (results : option (gmap string URLTestResult)) : Oracle :=
  {| or_ok := ok; or_defer := defer; or_now := λ _, 0; or_results := results |}.

Definition sample_marks : gmap string Z := {[ "vpn_a"%string := 1; "vpn_b"%string := 2 ]}.

(** A registration whose first probe is being posted. *)
Definition sample_registered : System :=
  run_thread (sample_oracle true false None) 0
    (call (IRegister auto_group EmptyString ∅) (sys_init sample_marks)).

Definition sample_probing : System :=
  run_thread (sample_oracle true false None) 0 sample_registered.

Lemma sample_registered_reaches allowed :
  (∀ o i, public_call i = true → (∀ t g r, i ≠ IComplete t g r) → allowed o i) →
  reaches allowed 2 (sys_init sample_marks) sample_registered.
Proof.
  intros Ha. eapply reaches_step; [eapply reaches_step; [apply reaches_refl|]|].
  - by apply (call_step allowed (IRegister auto_group EmptyString ∅)).
  - apply (run_thread_step allowed _ 0 _ (IRegister auto_group EmptyString ∅)); [done|by apply Ha].
Qed.

Lemma probe_single_flight_witness :
  (us_probe_inflight <$> um_states (e_manager (sys_env sample_probing)) !! "auto"%string) = Some true
  ∧ ∃ i, i ∈ pool sample_probing ∧ owner_of i = Some ("auto"%string, 1).
Proof.
  assert (reaches anything 3 (sys_init sample_marks) sample_probing) as Hr.
  { eapply reaches_step; [by apply sample_registered_reaches|].
    eapply run_thread_step; [vm_compute; reflexivity|exact I]. }
  destruct (probe_single_flight sample_marks 3 sample_probing Hr ltac:(lia)) as [H _].
  split; [vm_compute; reflexivity|].
  destruct (um_states (e_manager (sys_env sample_probing)) !! "auto"%string) as [s|] eqn:E;
    [|vm_compute in E; discriminate E].
  destruct (H "auto"%string s E) as [Hp|Hi].
  - vm_compute in E. injection E as <-. reflexivity.
  - exfalso. vm_compute in E. injection E as <-. discriminate Hp.
  - replace 1 with (us_generation s) by (vm_compute in E; injection E as <-; reflexivity). exact Hi.
Defined.
