(* ===== verification/UrltestManagerHealth.v ===== *)
(** * Urltest manager: external-health requests

    No outstanding health request is forgotten: the retry timers, reservations
    and running sections of UrltestManager.v always hold somebody who will act on
    it. Task identifiers are tracked as resources: every identifier is held by at
    most one group, publication or cancellation. *)

From Stdlib Require Import ZArith Lia Ascii String.
From stdpp Require Import base gmap strings list sorting.
From S2P Require Import Prelude ConfigTypes CircuitBreaker UrltestSelect UrltestManager.
From S2P Require Import UrltestManagerProps.
Open Scope Z_scope.

(** ** Task identifiers *)

Definition some_task (id : Z) : list Z := filter (λ t, 0 ≤ t) [id].

Definition state_tasks (s : UrltestState) : list Z :=
  filter (λ t, 0 ≤ t) [us_scheduler_task_id s; us_external_health_retry_task_id s].

Definition instr_tasks (i : Instr) : list Z :=
  match i with
  | ICancel id | IPublish _ _ _ id => some_task id
  | _ => []
  end.

Definition live (e : Env) (p : list Instr) : list Z :=
  retired_tasks (um_states (e_manager e)) ++ (p ≫= instr_tasks).

Lemma state_tasks_split s :
  state_tasks s = some_task (us_scheduler_task_id s) ++ some_task (us_external_health_retry_task_id s).
Proof. unfold state_tasks, some_task. by rewrite <- filter_app. Qed.

Lemma elem_of_some_task id x : x ∈ some_task id ↔ x = id ∧ 0 ≤ id.
Proof.
  unfold some_task. rewrite list_elem_of_filter, list_elem_of_singleton. naive_solver.
Qed.

Lemma some_task_neg id : id < 0 → some_task id = [].
Proof. intros H. unfold some_task. rewrite filter_cons_False by lia. done. Qed.

Lemma some_task_pos id : 0 ≤ id → some_task id = [id].
Proof. intros H. unfold some_task. by rewrite filter_cons_True. Qed.

#[global] Arguments some_task : simpl never.

Lemma retired_tasks_insert states t s :
  retired_tasks (<[t := s]> states) ≡ₚ state_tasks s ++ retired_tasks (delete t states).
Proof.
  unfold retired_tasks. rewrite <- insert_delete_eq.
  rewrite map_to_list_insert by apply lookup_delete_eq. done.
Qed.

Lemma retired_tasks_lookup states t s :
  states !! t = Some s → retired_tasks states ≡ₚ state_tasks s ++ retired_tasks (delete t states).
Proof. intros Hs. rewrite <- (insert_id states t s) at 1 by done. apply retired_tasks_insert. Qed.

Lemma retired_tasks_elem states t s id :
  states !! t = Some s → id ∈ state_tasks s → id ∈ retired_tasks states.
Proof. intros Hs Hid. rewrite (retired_tasks_lookup _ _ _ Hs). apply elem_of_app. by left. Qed.

Lemma tasks_of_pool p i rest : p ≡ₚ i :: rest → p ≫= instr_tasks ≡ₚ instr_tasks i ++ (rest ≫= instr_tasks).
Proof. intros ->. by rewrite bind_cons. Qed.

(** ** The invariant *)

Definition holds_tag (i : Instr) : option string :=
  match i with
  | IEnsure t | IStart t | ISchedule t _ _ | IPublish t _ _ _ => Some t
  | _ => None
  end.

(** Somebody acts on an outstanding request of a group. *)
Record wake (e : Env) (p : list Instr) (t : string) (s : UrltestState) : Prop := {
  wk_armed : 0 ≤ us_external_health_retry_task_id s →
    e_timers e !! us_external_health_retry_task_id s
    = Some (TRetry t (us_scheduler_task_id s) (us_external_health_retry_epoch s));
  wk_scheduling : us_external_health_retry_scheduling s = true →
    ISchedule t (us_scheduler_task_id s) (us_external_health_retry_epoch s) ∈ p
    ∨ ∃ task, IPublish t (us_scheduler_task_id s) (us_external_health_retry_epoch s) task ∈ p;
  wk_exclusive : us_external_health_retry_scheduling s = true →
    us_external_health_retry_task_id s < 0;
  wk_request : health_pending s = true → has_budget s = true →
    us_probe_inflight s = true ∨ 0 ≤ us_external_health_retry_task_id s
    ∨ us_external_health_retry_scheduling s = true ∨ IEnsure t ∈ p ∨ IStart t ∈ p;
}.

Record vigilant (e : Env) (p : list Instr) : Prop := {
  vg_nodup : NoDup (live e p);
  vg_bound : ∀ id, id ∈ live e p → id < e_next_task e;
  vg_next : 0 ≤ e_next_task e;
  vg_states : ∀ t s, um_states (e_manager e) !! t = Some s → wake e p t s;
  vg_publish : ∀ t reg epoch task, IPublish t reg epoch task ∈ p →
    0 ≤ task ∧ e_timers e !! task = Some (TRetry t reg epoch);
}.

(** What the runs considered exclude: a retry that cannot be scheduled, and a
    completion that hands the wake-up over to the recovery controller. *)
Definition lossless (o : Oracle) (i : Instr) : Prop :=
  match i with
  | ISchedule _ _ _ => or_ok o = true
  | IComplete _ _ resume => resume = true
  | _ => True
  end.

(** The live identifiers after a step, and the identifier a step may allocate. *)
Definition live_after (e e' : Env) (p p' : list Instr) : Prop :=
  (live e' p' ⊆+ live e p ∧ e_next_task e' = e_next_task e)
  ∨ (live e' p' ⊆+ e_next_task e :: live e p ∧ e_next_task e' = e_next_task e + 1).

Lemma submseteq_nodup (l k : list Z) : l ⊆+ k → NoDup k → NoDup l.
Proof. intros [k' ->]%submseteq_Permutation Hk. by apply NoDup_app in Hk as (? & _). Qed.

Lemma live_after_ok e e' p p' :
  vigilant e p → live_after e e' p p' →
  NoDup (live e' p') ∧ (∀ id, id ∈ live e' p' → id < e_next_task e') ∧ 0 ≤ e_next_task e'.
Proof.
  intros [H1 H2 H3 _ _] [[Hl ->]|[Hl ->]].
  - split_and!; [by eapply submseteq_nodup| |done]. intros id Hid. apply H2. by eapply elem_of_submseteq.
  - split_and!; [|intros id Hid|lia].
    + eapply submseteq_nodup; [exact Hl|]. constructor; [|done]. intros ?%H2. lia.
    + eapply elem_of_submseteq in Hl; [|done]. apply elem_of_cons in Hl as [->|?%H2]; lia.
Qed.

Section Step.
Context (e e' : Env) (p p' rest new : list Instr) (i : Instr).
Context (Hv : vigilant e p) (Hp : p ≡ₚ i :: rest) (Hp' : p' ≡ₚ new ++ rest).

Lemma elem_pool_old j : j ∈ p → j = i ∨ j ∈ p'.
Proof. rewrite Hp, Hp'. intros [->|H]%elem_of_cons; [by left|right]. apply elem_of_app. by right. Qed.

Lemma elem_pool_new j : j ∈ p' → j ∈ new ∨ j ∈ p.
Proof.
  rewrite Hp, Hp'. intros [H|H]%elem_of_app; [by left|right]. by right.
Qed.

(** A group the step does not concern. *)
Lemma wake_other t s :
  um_states (e_manager e) !! t = Some s → um_states (e_manager e') !! t = Some s →
  holds_tag i ≠ Some t →
  (∀ id, id ∈ live e p → id ∈ live e' p' → e_timers e' !! id = e_timers e !! id) →
  wake e' p' t s.
Proof.
  intros Hs Hs' Hi Ht. destruct (vg_states _ _ Hv t s Hs) as [W1 W2 W3 W4].
  assert (∀ j, holds_tag j = Some t → j ∈ p → j ∈ p') as Hin.
  { intros j Hj Hjp. destruct (elem_pool_old j Hjp) as [->|]; [done|done]. }
  split.
  - intros Ha. rewrite <- (W1 Ha).
    assert (us_external_health_retry_task_id s ∈ state_tasks s) as Hid.
    { rewrite state_tasks_split. apply elem_of_app. right. by apply elem_of_some_task. }
    apply Ht; apply elem_of_app; left; by eapply retired_tasks_elem.
  - intros Hsch. destruct (W2 Hsch) as [H|[task H]]; [left|right; exists task]; by apply Hin.
  - done.
  - intros H1 H2. destruct (W4 H1 H2) as [H|[H|[H|[H|H]]]]; auto 6.
Qed.

Lemma vigilant_change t :
  live_after e e' p p' →
  (∀ id, id ∈ live e p → id ∈ live e' p' → e_timers e' !! id = e_timers e !! id) →
  (holds_tag i = None ∨ holds_tag i = Some t) →
  (∀ t' s, t' ≠ t → um_states (e_manager e') !! t' = Some s → um_states (e_manager e) !! t' = Some s) →
  (∀ s, um_states (e_manager e') !! t = Some s → wake e' p' t s) →
  (∀ u reg epoch task, IPublish u reg epoch task ∈ new →
     0 ≤ task ∧ e_timers e' !! task = Some (TRetry u reg epoch)) →
  vigilant e' p'.
Proof.
  intros Hl Ht Hi Ho Hw Hpub. destruct (live_after_ok _ _ _ _ Hv Hl) as (L1 & L2 & L3).
  split; [done|done|done| |].
  - intros t' s Hs. destruct (decide (t' = t)) as [->|Hne]; [by apply Hw|].
    eapply wake_other; eauto. destruct Hi as [-> | ->]; congruence.
  - intros u reg epoch task Hin. destruct (elem_pool_new _ Hin) as [H|H]; [by apply Hpub|].
    destruct (vg_publish _ _ Hv _ _ _ _ H) as [H0 H1]. split; [done|]. rewrite <- H1. apply Ht.
    + apply elem_of_app. right. apply list_elem_of_bind. exists (IPublish u reg epoch task).
      split; [by apply elem_of_some_task|done].
    + apply elem_of_app. right. apply list_elem_of_bind. exists (IPublish u reg epoch task).
      split; [by apply elem_of_some_task|done].
Qed.

(** Identifiers: one group changes, the rest of the pool stays. *)
Lemma live_after_state t s s' :
  um_states (e_manager e) !! t = Some s → um_states (e_manager e') = <[t := s']> (um_states (e_manager e)) →
  e_next_task e' = e_next_task e →
  state_tasks s' ++ (new ≫= instr_tasks) ⊆+ state_tasks s ++ instr_tasks i →
  live_after e e' p p'.
Proof.
  intros Hs Hs' Hn Hsub. left. split; [|done]. unfold live. rewrite Hs', retired_tasks_insert.
  rewrite (retired_tasks_lookup _ _ _ Hs), (tasks_of_pool _ _ _ Hp), Hp', bind_app.
  set (R := retired_tasks (delete t _)). set (Q := rest ≫= instr_tasks).
  transitivity ((state_tasks s' ++ (new ≫= instr_tasks)) ++ (R ++ Q)).
  { apply Permutation_submseteq. solve_Permutation. }
  transitivity ((state_tasks s ++ instr_tasks i) ++ (R ++ Q)).
  { by apply submseteq_skips_r. }
  apply Permutation_submseteq. solve_Permutation.
Qed.

Lemma live_after_same :
  um_states (e_manager e') = um_states (e_manager e) → e_next_task e' = e_next_task e →
  (new ≫= instr_tasks) ⊆+ instr_tasks i → live_after e e' p p'.
Proof.
  intros Hs Hn Hsub. left. split; [|done]. unfold live.
  rewrite Hs, (tasks_of_pool _ _ _ Hp), Hp', bind_app. apply submseteq_skips_l. by apply submseteq_skips_r.
Qed.
End Step.

(** Sections that hold no task identifier. *)
Definition quiet (i : Instr) : Prop :=
  match i with ICancel _ | IPublish _ _ _ _ => False | _ => True end.

Lemma quiet_tasks new : Forall quiet new → new ≫= instr_tasks = [].
Proof. induction 1 as [|j l Hj _ IH]; [done|]. rewrite bind_cons, IH. by destruct j. Qed.

Lemma quiet_publish new u reg epoch task : Forall quiet new → IPublish u reg epoch task ∉ new.
Proof. intros Hq Hin. rewrite Forall_forall in Hq. exact (Hq _ Hin). Qed.

Lemma not_queued_quiet t k : Forall quiet (not_queued t k).
Proof. destruct k; by repeat constructor. Qed.

(** The retry fields of a group are unchanged. *)
Definition same_retry (s s' : UrltestState) : Prop :=
  us_scheduler_task_id s' = us_scheduler_task_id s
  ∧ us_external_health_retry_task_id s' = us_external_health_retry_task_id s
  ∧ us_external_health_retry_scheduling s' = us_external_health_retry_scheduling s
  ∧ us_external_health_retry_epoch s' = us_external_health_retry_epoch s.

Lemma same_retry_tasks s s' : same_retry s s' → state_tasks s' = state_tasks s.
Proof. intros (H1 & H2 & _). unfold state_tasks. by rewrite H1, H2. Qed.

(** Who takes over the outstanding request of a changed group. *)
Definition answered (t : string) (s s' : UrltestState) (p' : list Instr) : Prop :=
  health_pending s' = true → has_budget s' = true →
  us_probe_inflight s' = true
  ∨ (health_pending s = true ∧ has_budget s = true ∧ us_probe_inflight s = false)
  ∨ IEnsure t ∈ p' ∨ IStart t ∈ p'.

Section State.
Context (e e' : Env) (p p' rest new : list Instr) (i : Instr) (t : string) (s s' : UrltestState).
Context (Hv : vigilant e p) (Hp : p ≡ₚ i :: rest) (Hp' : p' ≡ₚ new ++ rest).
Context (Hs : um_states (e_manager e) !! t = Some s).
Context (Hst : um_states (e_manager e') = <[t := s']> (um_states (e_manager e))).
Context (Htm : e_timers e' = e_timers e) (Hnx : e_next_task e' = e_next_task e).

Lemma vigilant_state :
  holds_tag i = None → instr_tasks i = [] → Forall quiet new → same_retry s s' →
  answered t s s' p' → vigilant e' p'.
Proof.
  intros Hi Hti Hq Hr Ha. destruct (vg_states _ _ Hv t s Hs) as [W1 W2 W3 W4].
  assert (∀ j, holds_tag j = Some t → j ∈ p → j ∈ p') as Hin.
  { intros j Hj Hjp. destruct (elem_pool_old _ _ _ _ _ Hp Hp' j Hjp) as [->|]; [congruence|done]. }
  eapply (vigilant_change _ _ _ _ _ _ _ Hv Hp Hp' t).
  - eapply (live_after_state _ _ _ _ _ _ _ Hp Hp'); [exact Hs|exact Hst|done|].
    by rewrite (same_retry_tasks _ _ Hr), quiet_tasks, Hti by done.
  - intros. by rewrite Htm.
  - by left.
  - intros t' s1 Ht. rewrite Hst. by rewrite lookup_insert_ne.
  - intros s1. rewrite Hst, lookup_insert_eq. intros [= <-]. destruct Hr as (R1 & R2 & R3 & R4).
    split; rewrite ?R1, ?R2, ?R3, ?R4, ?Htm; [done| |done|].
    + intros H. destruct (W2 H) as [H0|[task H0]]; [left|right; exists task]; by apply Hin.
    + intros H1 H2. destruct (Ha H1 H2) as [?|[(P1 & P2 & P3)|[?|?]]]; auto 6.
      destruct (W4 P1 P2) as [?|[?|[?|[?|?]]]]; auto 6; congruence.
  - intros u reg ep task H. by apply quiet_publish in H.
Qed.

(** A group that is released through [finish_external_health_probe]. *)
Lemma vigilant_finish s1 admitted :
  holds_tag i = None → instr_tasks i = [] → same_retry s s1 →
  s' = (finish_external_health_probe s1 admitted).1 →
  new = dispatch_external_health_resolution t (finish_external_health_probe s1 admitted).2 →
  vigilant e' p'.
Proof.
  intros Hi Hti (R1 & R2 & R3 & R4) Es En. destruct (vg_states _ _ Hv t s Hs) as [W1 W2 W3 W4].
  assert (∀ j, holds_tag j = Some t → j ∈ p → j ∈ p') as Hin.
  { intros j Hj Hjp. destruct (elem_pool_old _ _ _ _ _ Hp Hp' j Hjp) as [->|]; [congruence|done]. }
  revert Es En. unfold finish_external_health_probe. cbv zeta. set (s2 := with_health s1 _ _ _ _).
  assert (IEnsure t ∈ new ∨ IStart t ∈ new → IEnsure t ∈ p' ∨ IStart t ∈ p') as Hnew.
  { rewrite Hp'. by intros [?|?]; [left|right]; apply elem_of_app; left. }
  destruct (negb (health_pending s2)) eqn:Hpd; cbn [fst snd]; intros Es En.
  - (* nothing outstanding: the timer is cancelled *)
    assert (new ≫= instr_tasks = some_task (us_external_health_retry_task_id s)) as Hnt.
    { rewrite En. unfold dispatch_external_health_resolution. cbn. rewrite R2.
      destruct (Z.leb_spec 0 (us_external_health_retry_task_id s)); cbn; [by rewrite app_nil_r|].
      by rewrite some_task_neg. }
    eapply (vigilant_change _ _ _ _ _ _ _ Hv Hp Hp' t).
    + eapply (live_after_state _ _ _ _ _ _ _ Hp Hp'); [exact Hs|exact Hst|done|].
      rewrite Hnt, Hti, app_nil_r, !state_tasks_split, Es. cbn. rewrite R1.
      by rewrite (some_task_neg (-1)), app_nil_r by lia.
    + intros. by rewrite Htm.
    + by left.
    + intros t' sx Ht. rewrite Hst. by rewrite lookup_insert_ne.
    + intros sx. rewrite Hst, lookup_insert_eq. intros [= <-]. rewrite Es. split; cbn; try done; try lia.
      intros Hx. exfalso. apply negb_true_iff in Hpd. unfold health_pending in *. cbn in *. congruence.
    + intros u reg ep task. rewrite En. unfold dispatch_external_health_resolution.
      repeat case_match; rewrite ?elem_of_app, ?elem_of_cons, ?elem_of_nil; naive_solver.
  - apply vigilant_state; [done|done| |rewrite Es; by split_and!|].
    + rewrite En. unfold dispatch_external_health_resolution. cbn. repeat case_match; by repeat constructor.
    + intros H1 H2. right. right. apply Hnew. rewrite En. rewrite Es in H2.
      unfold dispatch_external_health_resolution. cbn. rewrite H2.
      destruct (_ && true); [right|left]; left.
Qed.
End State.

(** ** Preservation *)

Section Exec.
Context (e e' : Env) (p p' rest new : list Instr) (i : Instr).
Context (Hv : vigilant e p) (Hp : p ≡ₚ i :: rest) (Hp' : p' ≡ₚ new ++ rest).

(** Nothing but the pool changes. *)
Lemma vigilant_quiet :
  um_states (e_manager e') = um_states (e_manager e) → e_timers e' = e_timers e →
  e_next_task e' = e_next_task e → holds_tag i = None → Forall quiet new → vigilant e' p'.
Proof.
  intros Hs Ht Hn Hi Hq.
  eapply (vigilant_change _ _ _ _ _ _ _ Hv Hp Hp' EmptyString).
  - eapply (live_after_same _ _ _ _ _ _ _ Hp Hp'); [done|done|].
    rewrite quiet_tasks by done. apply submseteq_nil_l.
  - intros. by rewrite Ht.
  - by left.
  - intros t' s _. by rewrite Hs.
  - intros s Hst. eapply (wake_other _ _ _ _ _ _ _ Hv Hp Hp'); [by rewrite <- Hs|done|by rewrite Hi|].
    intros. by rewrite Ht.
  - intros u reg ep task H. by apply quiet_publish in H.
Qed.

(** [IStart] and a refused [IEnsure] of a group: the pool loses that section. *)
Lemma vigilant_lose t :
  um_states (e_manager e') = um_states (e_manager e) → e_timers e' = e_timers e →
  e_next_task e' = e_next_task e → (i = IStart t ∨ i = IEnsure t) → Forall quiet new →
  (∀ s, um_states (e_manager e) !! t = Some s →
     IEnsure t ∈ new ∨ health_pending s = false ∨ has_budget s = false
     ∨ 0 ≤ us_external_health_retry_task_id s ∨ us_external_health_retry_scheduling s = true) →
  vigilant e' p'.
Proof.
  intros Hs Ht Hn Hi Hq Hw.
  eapply (vigilant_change _ _ _ _ _ _ _ Hv Hp Hp' t).
  - eapply (live_after_same _ _ _ _ _ _ _ Hp Hp'); [done|done|].
    rewrite quiet_tasks by done. apply submseteq_nil_l.
  - intros. by rewrite Ht.
  - right. by destruct Hi as [-> | ->].
  - intros t' s _. by rewrite Hs.
  - intros s. rewrite Hs. intros Hst. destruct (vg_states _ _ Hv t s Hst) as [W1 W2 W3 W4].
    assert (∀ j, j ≠ i → j ∈ p → j ∈ p') as Hin.
    { intros j Hj Hjp. by destruct (elem_pool_old _ _ _ _ _ Hp Hp' j Hjp). }
    split; [by rewrite Ht| |done|].
    + intros H. destruct (W2 H) as [H0|[task H0]]; [left|right; exists task];
        (apply Hin; [by destruct Hi as [-> | ->]|done]).
    + intros H1 H2. destruct (Hw s Hst) as [H|[H|[H|[H|H]]]]; try congruence; auto.
      right. right. right. left. rewrite Hp'. apply elem_of_app. by left.
  - intros u reg ep task H. by apply quiet_publish in H.
Qed.
End Exec.

Lemma reserve_spec s s' :
  ensure_reserve s = Some s' →
  us_external_health_retry_task_id s < 0 ∧ us_external_health_retry_scheduling s' = true
  ∧ us_external_health_retry_task_id s' = us_external_health_retry_task_id s
  ∧ us_scheduler_task_id s' = us_scheduler_task_id s.
Proof.
  unfold ensure_reserve. destruct (_ || _ || _ || _) eqn:E; [done|]. intros [= <-]. cbn.
  apply orb_false_elim in E as [[[_ _]%orb_false_elim Ha]%orb_false_elim _].
  unfold retry_armed in Ha. split_and!; try done. lia.
Qed.

Lemma reserve_refused s :
  ensure_reserve s = None →
  health_pending s = false ∨ has_budget s = false
  ∨ 0 ≤ us_external_health_retry_task_id s ∨ us_external_health_retry_scheduling s = true.
Proof.
  unfold ensure_reserve, retry_armed. destruct (health_pending s), (has_budget s); cbn; try tauto.
  destruct (Z.leb_spec 0 (us_external_health_retry_task_id s)); [tauto|]. cbn.
  by destruct (us_external_health_retry_scheduling s); [tauto|].
Qed.

Section Cases.
Context (e : Env) (p p' rest : list Instr) (Hv : vigilant e p).
Abbreviation m := (e_manager e).

Lemma vigilant_ensure t s s' :
  p ≡ₚ IEnsure t :: rest → um_states m !! t = Some s → ensure_reserve s = Some s' →
  p' ≡ₚ [ISchedule t (us_scheduler_task_id s') (us_external_health_retry_epoch s')] ++ rest →
  vigilant (with_manager e (set_state m t s')) p'.
Proof.
  intros Hp Hs Hr Hp'. destruct (reserve_spec _ _ Hr) as (R1 & R2 & R3 & R4).
  destruct (vg_states _ _ Hv t s Hs) as [W1 W2 W3 W4].
  eapply (vigilant_change _ _ _ _ _ _ _ Hv Hp Hp' t); cbn.
  - eapply (live_after_state _ _ _ _ _ _ _ Hp Hp'); [exact Hs|done|done|].
    rewrite !state_tasks_split, R3, R4. done.
  - done.
  - by right.
  - intros t' s1 Ht. by rewrite lookup_insert_ne.
  - intros s1. rewrite lookup_insert_eq. intros [= <-]. split; rewrite ?R3; try lia; [|auto].
    intros _. left. rewrite Hp'. left.
  - intros u reg ep task. by intros [|H%not_elem_of_nil]%elem_of_cons.
Qed.

Lemma vigilant_schedule t reg epoch :
  p ≡ₚ ISchedule t reg epoch :: rest → p' ≡ₚ [IPublish t reg epoch (e_next_task e)] ++ rest →
  vigilant (schedule_repeating e (TRetry t reg epoch)).1 p'.
Proof.
  intros Hp Hp'. pose proof (vg_next _ _ Hv) as Hnx.
  eapply (vigilant_change _ _ _ _ _ _ _ Hv Hp Hp' t); cbn.
  - right. split; [|done]. unfold live. cbn. rewrite (tasks_of_pool _ _ _ Hp), Hp', bind_app. cbn.
    rewrite some_task_pos by done. apply Permutation_submseteq. solve_Permutation.
  - intros id Hid _. apply (vg_bound _ _ Hv) in Hid. by rewrite lookup_insert_ne by lia.
  - by right.
  - done.
  - intros s Hs. destruct (vg_states _ _ Hv t s Hs) as [W1 W2 W3 W4].
    assert (∀ j, j ≠ ISchedule t reg epoch → j ∈ p → j ∈ p') as Hin.
    { intros j Hj Hjp. by destruct (elem_pool_old _ _ _ _ _ Hp Hp' j Hjp). }
    split; cbn; [| |done|].
    + intros Ha. rewrite lookup_insert_ne; [by apply W1|].
      assert (us_external_health_retry_task_id s < e_next_task e); [|lia].
      apply (vg_bound _ _ Hv), elem_of_app. left. eapply retired_tasks_elem; [done|].
      rewrite state_tasks_split. apply elem_of_app. right. by apply elem_of_some_task.
    + intros H. destruct (W2 H) as [H0|[task H0]]; [|right; exists task; by apply Hin].
      destruct (elem_pool_old _ _ _ _ _ Hp Hp' _ H0) as [[= E1 E2]|]; [|by left].
      right. exists (e_next_task e). rewrite Hp', E1, E2. left.
    + intros H1 H2. destruct (W4 H1 H2) as [?|[?|[?|[?|?]]]]; auto 6.
  - intros u r0 ep task [[= -> -> -> ->]|H%not_elem_of_nil]%elem_of_cons; [|done].
    split; [done|]. apply lookup_insert_eq.
Qed.

Lemma vigilant_publish t reg epoch task :
  p ≡ₚ IPublish t reg epoch task :: rest →
  match um_states m !! t with
  | None => p' ≡ₚ (if 0 <=? task then [ICancel task] else []) ++ rest → vigilant e p'
  | Some s =>
      let '(s', published) := ensure_publish s reg epoch task in
      p' ≡ₚ (if (0 <=? task) && negb published then [ICancel task] else []) ++ rest →
      vigilant (with_manager e (set_state m t s')) p'
  end.
Proof.
  intros Hp.
  assert (IPublish t reg epoch task ∈ p) as Hpub by (rewrite Hp; left).
  destruct (vg_publish _ _ Hv _ _ _ _ Hpub) as [Htask Htm].
  rewrite (proj2 (Z.leb_le 0 task) Htask). cbn [andb].
  destruct (um_states m !! t) as [s|] eqn:Hs.
  2:{ intros Hp'. eapply (vigilant_change _ _ _ _ _ _ _ Hv Hp Hp' t); [|done|by right|done|congruence|].
      - eapply (live_after_same _ _ _ _ _ _ _ Hp Hp'); [done|done|]. cbn. by rewrite app_nil_r.
      - intros u r0 ep tk. by intros [|H%not_elem_of_nil]%elem_of_cons. }
  destruct (vg_states _ _ Hv t s Hs) as [W1 W2 W3 W4].
  unfold ensure_publish. destruct (_ && _ && _) eqn:Hm.
  - (* the reservation is this one *)
    apply andb_prop in Hm as [[Hm1 Hm2]%andb_prop Hm3]. specialize (W3 Hm2).
    rewrite (proj2 (Z.leb_le 0 task) Htask). unfold retry_armed.
    rewrite (proj2 (Z.leb_gt 0 _) W3). cbn [andb negb]. rewrite andb_true_r.
    destruct (health_pending s && has_budget s) eqn:Hb; intros Hp'.
    + eapply (vigilant_change _ _ _ _ _ _ _ Hv Hp Hp' t); [| |by right| | |]; cbn.
      * eapply (live_after_state _ _ _ _ _ _ _ Hp Hp'); [exact Hs|done|done|].
        rewrite !state_tasks_split. cbn. rewrite app_nil_r, <- app_assoc.
        apply submseteq_skips_l. rewrite (some_task_neg _ W3). done.
      * done.
      * intros t' s1 Ht. by rewrite lookup_insert_ne.
      * intros s1. rewrite lookup_insert_eq. intros [= <-]. split; cbn; try done; [|auto].
        intros _. rewrite Htm. f_equal. f_equal; lia.
      * intros u r0 ep tk. by intros H%not_elem_of_nil.
    + eapply (vigilant_change _ _ _ _ _ _ _ Hv Hp Hp' t); [| |by right| | |]; cbn.
      * eapply (live_after_state _ _ _ _ _ _ _ Hp Hp'); [exact Hs|done|done|].
        rewrite !state_tasks_split. cbn. by rewrite app_nil_r.
      * done.
      * intros t' s1 Ht. by rewrite lookup_insert_ne.
      * intros s1. rewrite lookup_insert_eq. intros [= <-]. split; cbn; try done; try lia.
        intros H1 H2. unfold health_pending, has_budget in *. cbn in H1, H2. rewrite H1, H2 in Hb. done.
      * intros u r0 ep tk. by intros [|H%not_elem_of_nil]%elem_of_cons.
  - (* a stale reservation: its task is cancelled *)
    cbn [negb]. intros Hp'.
    eapply (vigilant_change _ _ _ _ _ _ _ Hv Hp Hp' t); [| |by right| | |]; cbn.
    + eapply (live_after_state _ _ _ _ _ _ _ Hp Hp'); [exact Hs|done|done|]. cbn. by rewrite app_nil_r.
    + done.
    + intros t' s1 Ht. by rewrite lookup_insert_ne.
    + intros s1. rewrite lookup_insert_eq. intros [= <-].
      split; cbn; [done| |done|].
      * intros H. destruct (W2 H) as [H0|[tk H0]].
        -- destruct (elem_pool_old _ _ _ _ _ Hp Hp' _ H0) as [|]; [done|by left].
        -- destruct (elem_pool_old _ _ _ _ _ Hp Hp' _ H0) as [[= E1 E2 E3]|]; [|right; by exists tk].
           exfalso. rewrite E1, E2, H, !Z.eqb_refl in Hm. done.
      * intros H1 H2. destruct (W4 H1 H2) as [?|[?|[?|[H0|H0]]]]; auto 6;
          destruct (elem_pool_old _ _ _ _ _ Hp Hp' _ H0) as [|]; auto 6; done.
    + intros u r0 ep tk. by intros [|H%not_elem_of_nil]%elem_of_cons.
Qed.

Lemma vigilant_cancel id :
  p ≡ₚ ICancel id :: rest → p' ≡ₚ [] ++ rest → vigilant (cancel_scheduler_task e id) p'.
Proof.
  intros Hp Hp'. unfold cancel_scheduler_task. destruct (Z.ltb_spec id 0) as [Hneg|Hpos].
  { eapply (vigilant_quiet _ _ _ _ _ _ _ Hv Hp Hp'); try done. }
  set (e' := {| e_manager := m; e_timers := _; e_next_task := _ |}).
  assert (∀ x, x ∈ live e p → x ∈ live e' p' → e_timers e' !! x = e_timers e !! x) as Htm.
  { intros x _ Hx. cbn. apply lookup_delete_ne. intros <-.
    pose proof (vg_nodup _ _ Hv) as Hnd. unfold live in Hnd, Hx. cbn in Hx.
    rewrite Hp' in Hx. cbn in Hx. rewrite (tasks_of_pool _ _ _ Hp) in Hnd. cbn in Hnd.
    rewrite some_task_pos in Hnd by done. cbn [app] in Hnd. rewrite <- Permutation_middle in Hnd.
    by apply NoDup_cons in Hnd as [Hnd _]. }
  eapply (vigilant_change _ _ _ _ _ _ _ Hv Hp Hp' EmptyString); [|done|by left|done| |].
  - eapply (live_after_same _ _ _ _ _ _ _ Hp Hp'); [done|done|]. apply submseteq_nil_l.
  - intros s Hs. by eapply (wake_other _ _ _ _ _ _ _ Hv Hp Hp').
  - by intros u r0 ep tk H%not_elem_of_nil.
Qed.

Lemma vigilant_retry t reg epoch s :
  p ≡ₚ IRetry t reg epoch :: rest → um_states m !! t = Some s →
  let '(s', task, attempt) := retry_check s reg epoch in
  p' ≡ₚ ((if 0 <=? task then [ICancel task] else []) ++ (if attempt : bool then [IStart t] else [])) ++ rest →
  vigilant (with_manager e (set_state m t s')) p'.
Proof.
  intros Hp Hs. destruct (vg_states _ _ Hv t s Hs) as [W1 W2 W3 W4].
  assert (∀ b : bool, Forall quiet (if b then [IStart t] else [])) as Hq
    by (intros []; by repeat constructor).
  assert (∀ b : bool, p' ≡ₚ (if b then [IStart t] else []) ++ rest →
          vigilant (with_manager e (set_state m t s)) p') as Hsame.
  { intros b Hp'. eapply (vigilant_quiet _ _ _ _ _ _ _ Hv Hp Hp'); cbn; [|done|done|done|by apply Hq].
    by apply insert_id. }
  unfold retry_check. destruct (_ || _ || _) eqn:Hm; [apply (Hsame false)|].
  destruct (negb (health_pending s) || negb (has_budget s)) eqn:Hb; [|apply Hsame].
  apply orb_false_elim in Hm as [[_ Ha]%orb_false_elim _]. apply negb_false_iff in Ha.
  unfold retry_armed in Ha. assert (0 ≤ us_external_health_retry_task_id s) as Ha' by lia.
  assert (us_external_health_retry_scheduling s = false) as Hsch.
  { destruct (us_external_health_retry_scheduling s); [|done]. specialize (W3 eq_refl). lia. }
  rewrite Ha, Hsch. rewrite app_nil_r. intros Hp'.
  eapply (vigilant_change _ _ _ _ _ _ _ Hv Hp Hp' t); [| |by left| | |]; cbn.
  - eapply (live_after_state _ _ _ _ _ _ _ Hp Hp'); [exact Hs|done|done|].
    rewrite !state_tasks_split. cbn. by rewrite (some_task_neg (-1)), !app_nil_r by lia.
  - done.
  - intros t' s1 Ht. by rewrite lookup_insert_ne.
  - intros s1. rewrite lookup_insert_eq. intros [= <-]. split; cbn; try done; try lia.
    intros H1 H2. unfold health_pending, has_budget in *. cbn in H1, H2. rewrite H1, H2 in Hb. done.
  - intros u r0 ep tk. by intros [|H%not_elem_of_nil]%elem_of_cons.
Qed.
End Cases.

Section MoreCases.
Context (e : Env) (p p' rest : list Instr) (Hv : vigilant e p).
Abbreviation m := (e_manager e).

Lemma vigilant_register ut initial direct :
  p ≡ₚ IRegister ut initial direct :: rest → p' ≡ₚ [IQueue (ob_tag ut) pr_initial None] ++ rest →
  vigilant (with_manager (schedule_repeating e (TPeriodic (ob_tag ut))).1
              (register_urltest m ut initial direct (e_next_task e))) p'.
Proof.
  intros Hp Hp'. pose proof (vg_next _ _ Hv) as Hnx. set (e' := with_manager _ _).
  assert (∀ id, id ∈ live e p → id ∈ live e' p' → e_timers e' !! id = e_timers e !! id) as Htm.
  { intros id Hid _. apply (vg_bound _ _ Hv) in Hid. cbn. by rewrite lookup_insert_ne by lia. }
  assert (p' ≫= instr_tasks ≡ₚ p ≫= instr_tasks) as Hpt.
  { rewrite (tasks_of_pool _ _ _ Hp), Hp'. done. }
  eapply (vigilant_change _ _ _ _ _ _ _ Hv Hp Hp' (ob_tag ut)); [|exact Htm|by left| | |].
  - right. split; [|done]. unfold live. rewrite Hpt. unfold e', register_urltest. cbn.
    destruct (um_states m !! ob_tag ut) as [s|] eqn:Hs; [by apply submseteq_cons|].
    cbn. rewrite retired_tasks_insert, state_tasks_split, delete_id by done. cbn.
    rewrite some_task_pos, some_task_neg by lia. done.
  - intros t' s Ht. unfold e', register_urltest. cbn. destruct (um_states m !! ob_tag ut); [done|].
    cbn. by rewrite lookup_insert_ne.
  - intros s Hs. unfold e', register_urltest in Hs. cbn in Hs.
    destruct (um_states m !! ob_tag ut) as [s0|] eqn:Hs0.
    + cbn in Hs. eapply (wake_other _ _ _ _ _ _ _ Hv Hp Hp'); [exact Hs| |done|exact Htm].
      unfold e', register_urltest. cbn. rewrite Hs0. done.
    + cbn in Hs. rewrite lookup_insert_eq in Hs. injection Hs as <-. by split.
  - intros u reg ep task. by intros [|H%not_elem_of_nil]%elem_of_cons.
Qed.

(** The pending and budget tests read only the serials and the failures. *)
Lemma vigilant_update t s s' i new :
  p ≡ₚ i :: rest → p' ≡ₚ new ++ rest → holds_tag i = None → instr_tasks i = [] → Forall quiet new →
  um_states m !! t = Some s → same_retry s s' → answered t s s' p' →
  vigilant (with_manager e (set_state m t s')) p'.
Proof.
  intros Hp Hp' Hi Ht Hq Hs Hr Ha.
  by eapply (vigilant_state e _ p p' rest new i t s s' Hv Hp Hp' Hs).
Qed.

(** Unchanged health fields. *)
Definition same_health (s s' : UrltestState) : Prop :=
  same_retry s s' ∧ health_pending s' = health_pending s ∧ has_budget s' = has_budget s
  ∧ us_probe_inflight s' = us_probe_inflight s.

Lemma same_health_answered t s s' p1 : same_health s s' → answered t s s' p1.
Proof.
  intros (_ & H1 & H2 & H3) Hp1 Hb1. rewrite H3. destruct (us_probe_inflight s) eqn:Hi; [by left|].
  right. left. by rewrite <- H1, <- H2.
Qed.

Lemma vigilant_same_health t s s' i new :
  p ≡ₚ i :: rest → p' ≡ₚ new ++ rest → holds_tag i = None → instr_tasks i = [] → Forall quiet new →
  um_states m !! t = Some s → same_health s s' → vigilant (with_manager e (set_state m t s')) p'.
Proof.
  intros Hp Hp' Hi Ht Hq Hs Hh.
  eapply vigilant_update; eauto; [apply Hh|by apply same_health_answered].
Qed.

Lemma vigilant_queue t reason k now :
  p ≡ₚ IQueue t reason k :: rest →
  match queue_claim m t reason now with
  | (m', None) => p' ≡ₚ not_queued t k ++ rest → vigilant (with_manager e m') p'
  | (m', Some (g, cs)) =>
      p' ≡ₚ [IPost t g (tc_child_tag <$> cs) (worker_count cs) k] ++ rest →
      vigilant (with_manager e m') p'
  end.
Proof.
  intros Hp. unfold queue_claim. destruct (um_states m !! t) as [s|] eqn:Hs.
  2:{ intros Hp'. eapply (vigilant_quiet _ _ _ _ _ _ _ Hv Hp Hp'); try done. apply not_queued_quiet. }
  destruct (us_probe_inflight s) eqn:Hi.
  - intros Hp'. eapply vigilant_update; [exact Hp|exact Hp'|done|done|apply not_queued_quiet|exact Hs| |].
    + unfold note_refused. by case_match.
    + left. pose proof (note_refused_view s reason) as Hvw. injection Hvw as -> _ _. done.
  - pose proof (claim_probe_view m now s) as Hvw.
    assert (same_retry s (claim_probe m now s).1) as Hr.
    { unfold claim_probe. by destruct (collect_candidates _ _ _ _ _). }
    destruct (claim_probe m now s) as [s' cs]. cbn [fst] in Hvw, Hr. injection Hvw as V1 _ _.
    intros Hp'.
    eapply (vigilant_state e _ p p' rest _ _ t s s' Hv Hp Hp' Hs); try done.
    + by repeat constructor.
    + by left.
Qed.

Lemma vigilant_abandon t g tags :
  p ≡ₚ IAbandon t g tags :: rest →
  let '(m', retry) := abandon_probe m t g tags in
  p' ≡ₚ (if retry then [IEnsure t] else []) ++ rest → vigilant (with_manager e m') p'.
Proof.
  intros Hp. unfold abandon_probe. destruct (um_states m !! t) as [s|] eqn:Hs.
  2:{ intros Hp'. by eapply (vigilant_quiet _ _ _ _ _ _ _ Hv Hp Hp'). }
  destruct (negb _ || negb _) eqn:Hc.
  { intros Hp'. by eapply (vigilant_quiet _ _ _ _ _ _ _ Hv Hp Hp'). }
  set (s1 := record_claimed_external_health_failure _). intros Hp'.
  eapply (vigilant_state e _ p p' rest _ _ t s _ Hv Hp Hp' Hs); try done.
  - case_match; by repeat constructor.
  - assert (same_retry s s1) as Hr.
    { unfold s1, record_claimed_external_health_failure. destruct (_ =? 0); by split_and!. }
    exact Hr.
  - intros H1 H2. right. right. left. rewrite Hp'.
    replace (health_pending s1 && has_budget s1) with true; [left|].
    symmetry. apply andb_true_intro. split; [exact H1|exact H2].
Qed.

Lemma commit_prepare_health now t g s results : same_health s (commit_prepare now t g s results).1.
Proof.
  repeat split;
    (match goal with |- ?f (commit_prepare _ _ _ _ _).1 = _ => by apply (commit_prepare_keeps f) end).
Qed.

Lemma vigilant_commit t g results now :
  p ≡ₚ ICommit t g results :: rest →
  match commit_publish m t g results now with
  | (m', commit_skipped) => p' ≡ₚ [] ++ rest → vigilant (with_manager e m') p'
  | (m', commit_unchanged r) =>
      p' ≡ₚ dispatch_external_health_resolution t r ++ rest → vigilant (with_manager e m') p'
  | (m', commit_changed ch) =>
      p' ≡ₚ [IOnChange t g (sc_previous_child_tag ch)] ++ rest → vigilant (with_manager e m') p'
  end.
Proof.
  intros Hp. unfold commit_publish. destruct (um_states m !! t) as [s|] eqn:Hs.
  2:{ intros Hp'. by eapply (vigilant_quiet _ _ _ _ _ _ _ Hv Hp Hp'). }
  destruct (negb _ || negb _).
  { intros Hp'. by eapply (vigilant_quiet _ _ _ _ _ _ _ Hv Hp Hp'). }
  pose proof (commit_prepare_health now t g s results) as Hh.
  destruct (commit_prepare now t g s results) as [s1 [ch|]]; cbn [fst] in Hh.
  - intros Hp'. eapply (vigilant_same_health t s s1 _ _ Hp Hp'); try done. by repeat constructor.
  - destruct (finish_external_health_probe _ true) as [s2 r] eqn:Hf. intros Hp'.
    eapply (vigilant_finish e (with_manager e (set_state m t s2)) p p' rest _ _ t s s2 Hv Hp Hp' Hs
              eq_refl eq_refl eq_refl (with_probe s1 false (us_selection_pending s1) (us_generation s1)) true);
      rewrite ?Hf; [done|done|apply Hh|done|done].
Qed.

Lemma vigilant_resolve t g previous admitted :
  p ≡ₚ IResolve t g previous admitted :: rest →
  let '(m', r) := commit_resolve m t g previous admitted in
  p' ≡ₚ dispatch_external_health_resolution t r ++ rest → vigilant (with_manager e m') p'.
Proof.
  intros Hp. unfold commit_resolve. destruct (um_states m !! t) as [s|] eqn:Hs.
  2:{ intros Hp'. by eapply (vigilant_quiet _ _ _ _ _ _ _ Hv Hp Hp'). }
  destruct (negb _ || negb _).
  { intros Hp'. by eapply (vigilant_quiet _ _ _ _ _ _ _ Hv Hp Hp'). }
  set (s1 := if admitted then s else _).
  assert (same_health s s1) as Hh by (unfold s1; by destruct admitted).
  destruct (us_selection_pending s1) eqn:Hpd.
  - intros Hp'. by eapply (vigilant_same_health t s s1 _ _ Hp Hp').
  - destruct (finish_external_health_probe _ admitted) as [s2 r] eqn:Hf. intros Hp'.
    eapply (vigilant_finish e (with_manager e (set_state m t s2)) p p' rest _ _ t s s2 Hv Hp Hp' Hs
              eq_refl eq_refl eq_refl (with_probe s1 false false (us_generation s1)) admitted);
      rewrite ?Hf; [done|done|apply Hh|done|done].
Qed.

Lemma vigilant_complete t g :
  p ≡ₚ IComplete t g true :: rest →
  let '(m', r) := complete_selection m t g true in
  p' ≡ₚ dispatch_external_health_resolution t r ++ rest → vigilant (with_manager e m') p'.
Proof.
  intros Hp. unfold complete_selection. destruct (um_states m !! t) as [s|] eqn:Hs.
  2:{ intros Hp'. by eapply (vigilant_quiet _ _ _ _ _ _ _ Hv Hp Hp'). }
  destruct (negb _ || negb _).
  { intros Hp'. by eapply (vigilant_quiet _ _ _ _ _ _ _ Hv Hp Hp'). }
  destruct (finish_external_health_probe _ true) as [s2 r] eqn:Hf. intros Hp'.
  eapply (vigilant_finish e (with_manager e (set_state m t s2)) p p' rest _ _ t s s2 Hv Hp Hp' Hs
            eq_refl eq_refl eq_refl (with_probe s false false (us_generation s)) true);
    rewrite ?Hf; done.
Qed.

Lemma vigilant_retire i m' :
  um_states m' = ∅ → holds_tag i = None → p ≡ₚ i :: rest →
  p' ≡ₚ (ICancel <$> retired_tasks (um_states m)) ++ rest → vigilant (with_manager e m') p'.
Proof.
  intros Hst Hi Hp Hp'.
  assert ((ICancel <$> retired_tasks (um_states m)) ≫= instr_tasks = retired_tasks (um_states m)) as Hb.
  { unfold retired_tasks. induction ((map_to_list (um_states m)).*2) as [|s l IH]; [done|].
    rewrite bind_cons, fmap_app, bind_app, IH. f_equal.
    change (filter _ _) with (state_tasks s). rewrite state_tasks_split, fmap_app, bind_app.
    f_equal; (unfold some_task; rewrite filter_cons; case_decide; [|done]; cbn; by rewrite some_task_pos). }
  eapply (vigilant_change _ _ _ _ _ _ _ Hv Hp Hp' EmptyString); [|done|by left| | |]; cbn; rewrite ?Hst.
  - left. split; [|done]. unfold live. cbn. rewrite Hst, Hp', bind_app, Hb, (tasks_of_pool _ _ _ Hp).
    unfold retired_tasks at 1. rewrite map_to_list_empty. cbn. apply submseteq_skips_l, submseteq_inserts_l. done.
  - intros t' s _. by intros ?%lookup_empty_Some.
  - intros s. by intros ?%lookup_empty_Some.
  - intros u reg ep task. by intros (x & ? & _)%list_elem_of_fmap.
Qed.
End MoreCases.

Lemma start_failure_frame s k :
  same_retry s (record_external_health_start_failure s k)
  ∧ ∀ t p, answered t s (record_external_health_start_failure s k) p.
Proof.
  unfold record_external_health_start_failure.
  assert (∀ t p, answered t s s p) as Hs by (intros; by apply same_health_answered).
  destruct (_ || _ || _); [done|]. destruct (has_budget s) eqn:Hb; [|done].
  split; [done|]. intros t p H1 H2. destruct (us_probe_inflight s) eqn:Hi; [by left|].
  right. left. done.
Qed.

Lemma exec_vigilant e p p' rest o i e' next spawned :
  vigilant e p → lossless o i → exec o e i = (e', next, spawned) →
  p ≡ₚ i :: rest → p' ≡ₚ next ++ concat spawned ++ rest → vigilant e' p'.
Proof.
  intros Hv Hok Hx Hp Hp'. rewrite app_assoc in Hp'.
  assert (um_states (e_manager e') = um_states (e_manager e) → e_timers e' = e_timers e →
          e_next_task e' = e_next_task e → holds_tag i = None → Forall quiet (next ++ concat spawned) →
          vigilant e' p') as Hquiet by exact (vigilant_quiet _ _ _ _ _ _ _ Hv Hp Hp').
  destruct i; cbn [exec] in Hx; cbv zeta in Hx.
  - (* IRegister *)
    destruct (or_ok o); injection Hx as <- <- <-; [|by apply Hquiet].
    rewrite app_nil_r in Hp'. by eapply vigilant_register.
  - injection Hx as <- <- <-. apply Hquiet; try done. by repeat constructor.
  - injection Hx as <- <- <-. apply Hquiet; try done. by repeat constructor.
  - (* ITrigger *)
    destruct (um_states _ !! tag) as [s|] eqn:Hs; injection Hx as <- <- <-; [|by apply Hquiet].
    unfold update_state. rewrite Hs.
    eapply (vigilant_update e p p' rest Hv tag s (trigger_edge s) _ _ Hp Hp'); try done.
    + by repeat constructor.
    + intros _ _. right. right. right. rewrite Hp'. left.
  - (* IStart *)
    injection Hx as <- <- <-.
    eapply (vigilant_lose _ _ _ _ _ _ _ Hv Hp Hp' tag); try done; [by left|by repeat constructor|].
    intros s _. left. left.
  - destruct (_ ≫= start_read); injection Hx as <- <- <-; apply Hquiet; try done; by repeat constructor.
  - (* IStartFailed *)
    injection Hx as <- <- <-. unfold update_state in Hquiet |- *.
    destruct (um_states _ !! tag) as [s|] eqn:Hs; [|by apply Hquiet].
    destruct (start_failure_frame s expected) as [Hr Ha].
    by eapply (vigilant_update e p p' rest Hv tag s _ _ _ Hp Hp').
  - (* IEnsure *)
    destruct (um_states _ !! tag) as [s|] eqn:Hs.
    2:{ injection Hx as <- <- <-.
        eapply (vigilant_lose _ _ _ _ _ _ _ Hv Hp Hp' tag); try done; [by right|congruence]. }
    destruct (ensure_reserve s) as [s'|] eqn:Hr; injection Hx as <- <- <-.
    + rewrite app_nil_r in Hp'. by eapply vigilant_ensure.
    + eapply (vigilant_lose _ _ _ _ _ _ _ Hv Hp Hp' tag); try done; [by right|].
      intros s1 Hs1. right. replace s1 with s by congruence. by apply reserve_refused.
  - (* ISchedule *)
    cbn in Hok. rewrite Hok in Hx. injection Hx as <- <- <-. rewrite app_nil_r in Hp'.
    by eapply (vigilant_schedule e p p' rest Hv tag registration epoch).
  - (* IPublish *)
    pose proof (vigilant_publish e p p' rest Hv tag registration epoch task Hp) as H.
    destruct (um_states _ !! tag) as [s|].
    + destruct (ensure_publish s registration epoch task) as [s' b]. injection Hx as <- <- <-.
      apply H. by rewrite app_nil_r in Hp'.
    + injection Hx as <- <- <-. apply H. by rewrite app_nil_r in Hp'.
  - (* ICancel *)
    injection Hx as <- <- <-. by eapply vigilant_cancel.
  - (* IRetry *)
    destruct (um_states _ !! tag) as [s|] eqn:Hs; [|by injection Hx as <- <- <-; apply Hquiet].
    pose proof (vigilant_retry e p p' rest Hv tag registration epoch s Hp Hs) as H.
    destruct (retry_check s registration epoch) as [[s' task] b]. injection Hx as <- <- <-.
    apply H. by rewrite app_nil_r in Hp'.
  - (* IQueue *)
    pose proof (vigilant_queue e p p' rest Hv tag reason expected (or_now o) Hp) as H.
    destruct (queue_claim _ _ _ _) as [m' [[g cs]|]]; injection Hx as <- <- <-;
      apply H; by rewrite app_nil_r in Hp'.
  - (* IPost *)
    destruct (or_ok o).
    + destruct remaining as [|[|k]]; injection Hx as <- <- <-; apply Hquiet; try done; by repeat constructor.
    + injection Hx as <- <- <-. apply Hquiet; try done. rewrite app_nil_r. constructor; [done|].
      apply not_queued_quiet.
  - destruct (or_results o); injection Hx as <- <- <-; apply Hquiet; try done; by repeat constructor.
  - destruct (or_ok o); injection Hx as <- <- <-; apply Hquiet; try done; by repeat constructor.
  - (* IAbandon *)
    pose proof (vigilant_abandon e p p' rest Hv tag generation tags Hp) as H.
    destruct (abandon_probe _ _ _ _) as [m' b]. injection Hx as <- <- <-.
    apply H. by rewrite app_nil_r in Hp'.
  - (* ICommit *)
    destruct (or_ok o).
    + pose proof (vigilant_commit e p p' rest Hv tag generation results (or_now o) Hp) as H.
      destruct (commit_publish _ _ _ _ _) as [m' []]; injection Hx as <- <- <-;
        apply H; by rewrite app_nil_r in Hp'.
    + injection Hx as <- <- <-. apply Hquiet; try done; by repeat constructor.
  - (* IOnChange *)
    injection Hx as <- <- <-.
    assert (Forall quiet [IResolve tag generation previous (or_ok o)]) as Hq by by repeat constructor.
    destruct (or_defer o); [|by apply Hquiet].
    unfold defer_selection_completion in Hquiet |- *.
    destruct (um_states _ !! tag) as [s|] eqn:Hs; [|by apply Hquiet].
    destruct (negb _ || negb _); [by apply Hquiet|].
    by eapply (vigilant_same_health e p p' rest Hv tag s _ _ _ Hp Hp').
  - (* IResolve *)
    pose proof (vigilant_resolve e p p' rest Hv tag generation previous admitted Hp) as H.
    destruct (commit_resolve _ _ _ _ _) as [m' r]. injection Hx as <- <- <-.
    apply H. by rewrite app_nil_r in Hp'.
  - (* IComplete *)
    cbn in Hok. subst resume.
    pose proof (vigilant_complete e p p' rest Hv tag generation Hp) as H.
    destruct (complete_selection _ _ _ _) as [m' r]. injection Hx as <- <- <-.
    apply H. by rewrite app_nil_r in Hp'.
  - (* ISync *)
    injection Hx as <- <- <-. unfold synchronize_selected in Hquiet |- *.
    destruct (um_states _ !! tag) as [s|] eqn:Hs; [|by apply Hquiet].
    destruct (selectable s selected); [|by apply Hquiet].
    by eapply (vigilant_same_health e p p' rest Hv tag s _ _ _ Hp Hp').
  - (* ISyncGeneration *)
    injection Hx as <- <- <-. unfold synchronize_selected_if_generation in Hquiet |- *.
    destruct (um_states _ !! tag) as [s|] eqn:Hs; [|by apply Hquiet].
    destruct (_ && _); [|by apply Hquiet].
    by eapply (vigilant_same_health e p p' rest Hv tag s _ _ _ Hp Hp').
  - unfold retire_states in Hx. injection Hx as <- <- <-. rewrite app_nil_r in Hp'.
    eapply (vigilant_retire e p p' rest Hv); [| |exact Hp|exact Hp']; done.
  - unfold retire_states in Hx. injection Hx as <- <- <-. rewrite app_nil_r in Hp'.
    eapply (vigilant_retire e p p' rest Hv); [| |exact Hp|exact Hp']; done.
Qed.

Lemma vigilant_add e p p' i : vigilant e p → quiet i → p' ≡ₚ i :: p → vigilant e p'.
Proof.
  intros [V1 V2 V3 V4 V5] Hi Hp'.
  assert (live e p' ≡ₚ live e p) as Hl.
  { unfold live. rewrite (tasks_of_pool _ _ _ Hp'). by destruct i. }
  assert (∀ j, j ∈ p → j ∈ p') as Hin by (intros j Hj; rewrite Hp'; by right).
  split; [by rewrite Hl|intros id; by rewrite Hl; apply V2|done| |].
  - intros t s Hs. destruct (V4 t s Hs) as [W1 W2 W3 W4]. split; [done| |done|].
    + intros H. destruct (W2 H) as [H0|[task H0]]; [left|right; exists task]; by apply Hin.
    + intros H1 H2. destruct (W4 H1 H2) as [?|[?|[?|[?|?]]]]; auto 6.
  - intros t reg epoch task Hj. apply V5. rewrite Hp' in Hj.
    apply elem_of_cons in Hj as [<-|]; [done|done].
Qed.

Lemma pool_step_vigilant e p e' p' :
  vigilant e p → pool_step lossless e p e' p' → vigilant e' p'.
Proof.
  intros Hv Hs. destruct Hs as [o i rest e' next spawned p' Hok Hx Hp Hp'|i p' Hc Hp'|id cb p' Ht Hp'].
  - by eapply exec_vigilant.
  - eapply vigilant_add; [exact Hv| |exact Hp']. by destruct i.
  - eapply vigilant_add; [exact Hv| |exact Hp']. by destruct cb.
Qed.

Lemma reaches_vigilant marks n sys :
  reaches lossless n (sys_init marks) sys → vigilant (sys_env sys) (pool sys).
Proof.
  remember (sys_init marks) as s0 eqn:E0. induction 1 as [s|n a b c Hab IH Hbc]; subst.
  - split; cbn; [constructor|by intros id ?%not_elem_of_nil|lia| |by intros ???? ?%not_elem_of_nil].
    by intros t s ?%lookup_empty_Some.
  - eapply pool_step_vigilant; [by apply IH|by apply sys_step_pool].
Qed.

(** ** Properties *)


(** A health edge whose retry timer gets armed before its probe is queued. *)
Definition sample_armed : System :=
  let go := run_thread (sample_oracle true false None) 1 in
  go (go (go (go (go (call (ITrigger "auto") sample_registered))))).

