(* ===== verification/UrltestManagerSerials.v ===== *)
(** * Urltest manager: health serials

    A health edge that arrives while a probe is in flight is not answered by that
    probe, whatever the interleaving: its request stays outstanding until a later
    probe has been claimed. *)

From Stdlib Require Import ZArith Lia Ascii String.
From stdpp Require Import base gmap strings list sorting.
From S2P Require Import Prelude ConfigTypes CircuitBreaker UrltestSelect UrltestManager.
From S2P Require Import UrltestManagerProps.
Open Scope Z_scope.

Abbreviation request s := (us_external_health_request_serial s).
Abbreviation completed s := (us_external_health_completed_serial s).
Abbreviation claimed s := (us_probe_external_health_serial s).

(** How a section moves the serials of a group whose generation it keeps. *)
Definition serial_step (s s' : UrltestState) : Prop :=
  us_generation s' = us_generation s
  ∧ request s ≤ request s' ≤ request s + 1
  ∧ (claimed s' = claimed s ∨ claimed s' = 0)
  ∧ (completed s' = completed s ∨ completed s' = claimed s).

(** The serials of a new registration or of a new generation. *)
Definition serial_new (u : Z) (s' : UrltestState) (old : option UrltestState) : Prop :=
  (us_generation s' = 0 ∧ request s' = 0 ∧ completed s' = 0 ∧ claimed s' = 0)
  ∨ (us_generation s' = u ∧ ∃ s, old = Some s ∧ request s' = request s ∧ completed s' = completed s
     ∧ (claimed s' = claimed s ∨ claimed s' = request s ∨ claimed s' = 0)).

Lemma serial_step_refl s : serial_step s s.
Proof. unfold serial_step. intuition lia. Qed.

Lemma serial_step_same s s' :
  us_generation s' = us_generation s → request s' = request s → completed s' = completed s →
  claimed s' = claimed s → serial_step s s'.
Proof. intros H1 H2 H3 H4. unfold serial_step. intuition lia. Qed.

Lemma trigger_serial s : request s < u64_max → serial_step s (trigger_edge s).
Proof.
  intros H. unfold trigger_edge. assert (request s ≠ u64_max) as Hr by lia.
  apply Z.eqb_neq in Hr. cbv zeta. rewrite Hr. cbn [andb]. rewrite Hr. unfold serial_step. cbn. split_and!; auto; lia.
Qed.

Lemma refused_serial s r : request s < u64_max → serial_step s (note_refused s r).
Proof.
  intros H. unfold note_refused, next_nonzero_serial. destruct (_ && _); [|apply serial_step_refl].
  assert (request s ≠ u64_max) as Hr by lia. apply Z.eqb_neq in Hr. rewrite Hr.
  unfold serial_step. cbn. split_and!; auto; lia.
Qed.

Lemma finish_serial s a : serial_step s (finish_external_health_probe s a).1.
Proof.
  unfold finish_external_health_probe. cbv zeta.
  destruct (negb (health_pending _)); unfold serial_step; cbn;
    (split_and!; [done|lia|lia|by right|]; destruct (_ && _); auto).
Qed.

Lemma start_failure_serial s k : serial_step s (record_external_health_start_failure s k).
Proof.
  unfold record_external_health_start_failure.
  destruct (_ || _ || _); [apply serial_step_refl|]. destruct (has_budget s); [|apply serial_step_refl].
  by apply serial_step_same.
Qed.

Lemma claimed_failure_serial s : serial_step s (record_claimed_external_health_failure s).
Proof.
  unfold record_claimed_external_health_failure. destruct (_ =? 0); [apply serial_step_refl|].
  unfold serial_step. cbn. split_and!; auto; lia.
Qed.

Lemma commit_prepare_serial now t g s r : serial_step s (commit_prepare now t g s r).1.
Proof.
  apply serial_step_same;
    (match goal with |- ?f (commit_prepare _ _ _ _ _).1 = _ => by apply (commit_prepare_keeps f) end).
Qed.

Lemma serial_step_probe s s' a b g' : serial_step s s' → g' = us_generation s' → serial_step s (with_probe s' a b g').
Proof. intros (H1 & H2 & H3 & H4) ->. unfold serial_step. cbn. tauto. Qed.

Lemma finish_after s s1 a b c :
  us_generation s1 = us_generation s → request s1 = request s → completed s1 = completed s →
  claimed s1 = claimed s →
  serial_step s (finish_external_health_probe (with_probe s1 a b (us_generation s1)) c).1.
Proof.
  intros H1 H2 H3 H4.
  destruct (finish_serial (with_probe s1 a b (us_generation s1)) c) as (F1 & F2 & F3 & F4).
  cbn in *. unfold serial_step. rewrite <- H1, <- H2, <- H3, <- H4. tauto.
Qed.

(** ** One section *)

Definition serial_rel (e : Env) (t : string) (s' : UrltestState) : Prop :=
  (∃ s, um_states (e_manager e) !! t = Some s ∧ serial_step s s')
  ∨ serial_new (um_generation (e_manager e)) s' (um_states (e_manager e) !! t).

Lemma serial_rel_same e t s : um_states (e_manager e) !! t = Some s → serial_rel e t s.
Proof. intros Hs. left. exists s. split; [done|apply serial_step_refl]. Qed.

Lemma serial_rel_set e t s s' t' s1 :
  um_states (e_manager e) !! t = Some s →
  serial_step s s' ∨ serial_new (um_generation (e_manager e)) s' (Some s) →
  um_states (set_state (e_manager e) t s') !! t' = Some s1 → serial_rel e t' s1.
Proof.
  intros Hs Hr. rewrite lookup_set_state. case_decide; [subst|by apply serial_rel_same].
  intros [= <-]. destruct Hr as [Hr|Hr]; [left; eauto|right; by rewrite Hs].
Qed.

(** Every group after a section descends from the group before it, or is new. *)
Lemma exec_serial o e i e' next spawned t s' :
  exec o e i = (e', next, spawned) →
  (∀ t s, um_states (e_manager e) !! t = Some s → request s < u64_max) →
  um_states (e_manager e') !! t = Some s' → serial_rel e t s'.
Proof.
  intros Hx Hb.
  destruct i; cbn [exec] in Hx; cbv zeta in Hx.
  - (* IRegister *)
    destruct (or_ok o); injection Hx as <- _ _; [|by apply serial_rel_same].
    cbn. unfold register_urltest. destruct (um_states _ !! ob_tag ut) eqn:Hs; [by apply serial_rel_same|].
    rewrite lookup_set_state. case_decide; [|by apply serial_rel_same]. intros [= <-]. right. by left.
  - injection Hx as <- _ _. by apply serial_rel_same.
  - injection Hx as <- _ _. by apply serial_rel_same.
  - (* ITrigger *)
    destruct (um_states _ !! tag) as [s|] eqn:Hs; injection Hx as <- _ _; [|by apply serial_rel_same].
    unfold update_state. rewrite Hs. cbn [with_manager e_manager].
    apply (serial_rel_set _ _ _ _ _ _ Hs). left. apply trigger_serial. by eapply Hb.
  - injection Hx as <- _ _. by apply serial_rel_same.
  - destruct (_ ≫= start_read); injection Hx as <- _ _; by apply serial_rel_same.
  - (* IStartFailed *)
    injection Hx as <- _ _. unfold update_state.
    destruct (um_states _ !! tag) as [s|] eqn:Hs; [|by apply serial_rel_same].
    apply (serial_rel_set _ _ _ _ _ _ Hs). left. apply start_failure_serial.
  - (* IEnsure *)
    destruct (um_states _ !! tag) as [s|] eqn:Hs; [|injection Hx as <- _ _; by apply serial_rel_same].
    destruct (ensure_reserve s) as [s1|] eqn:Hr; injection Hx as <- _ _; [|by apply serial_rel_same].
    apply (serial_rel_set _ _ _ _ _ _ Hs). left.
    unfold ensure_reserve in Hr. destruct (_ || _ || _ || _); [done|]. injection Hr as <-.
    by apply serial_step_same.
  - destruct (or_ok o); injection Hx as <- _ _; by apply serial_rel_same.
  - (* IPublish *)
    destruct (um_states _ !! tag) as [s|] eqn:Hs; [|injection Hx as <- _ _; by apply serial_rel_same].
    destruct (ensure_publish s registration epoch task) as [s1 b] eqn:Hr. injection Hx as <- _ _.
    apply (serial_rel_set _ _ _ _ _ _ Hs). left. unfold ensure_publish in Hr.
    repeat case_match; injection Hr as <- _; (apply serial_step_same || apply serial_step_refl); done.
  - injection Hx as <- _ _. unfold cancel_scheduler_task. case_match; by apply serial_rel_same.
  - (* IRetry *)
    destruct (um_states _ !! tag) as [s|] eqn:Hs; [|injection Hx as <- _ _; by apply serial_rel_same].
    destruct (retry_check s registration epoch) as [[s1 task] b] eqn:Hr. injection Hx as <- _ _.
    apply (serial_rel_set _ _ _ _ _ _ Hs). left. unfold retry_check in Hr.
    repeat case_match; injection Hr as <- _ _; (apply serial_step_same || apply serial_step_refl); done.
  - (* IQueue *)
    unfold queue_claim in Hx. destruct (um_states _ !! tag) as [s|] eqn:Hs.
    2:{ injection Hx as <- _ _. by apply serial_rel_same. }
    destruct (us_probe_inflight s).
    { injection Hx as <- _ _. apply (serial_rel_set _ _ _ _ _ _ Hs). left.
      apply refused_serial. by eapply Hb. }
    assert (serial_new (um_generation (e_manager e)) (claim_probe (e_manager e) (or_now o) s).1 (Some s)) as Hn.
    { unfold claim_probe. destruct (collect_candidates _ _ _ _ _). right. cbn. split; [done|].
      exists s. split_and!; [done|done|done|]. destruct (health_pending s); auto. }
    destruct (claim_probe _ _ s) as [s1 cs]. injection Hx as <- _ _.
    apply (serial_rel_set _ _ _ _ _ _ Hs). by right.
  - destruct (or_ok o); [destruct remaining as [|[|]]|]; injection Hx as <- _ _; by apply serial_rel_same.
  - destruct (or_results o); injection Hx as <- _ _; by apply serial_rel_same.
  - destruct (or_ok o); injection Hx as <- _ _; by apply serial_rel_same.
  - (* IAbandon *)
    unfold abandon_probe in Hx. destruct (um_states _ !! tag) as [s|] eqn:Hs.
    2:{ injection Hx as <- _ _. by apply serial_rel_same. }
    destruct (negb _ || negb _); injection Hx as <- _ _; [by apply serial_rel_same|].
    apply (serial_rel_set _ _ _ _ _ _ Hs). right. right. cbn. split; [done|]. exists s.
    unfold record_claimed_external_health_failure. destruct (_ =? 0); cbn; auto 10.
  - (* ICommit *)
    destruct (or_ok o); [|injection Hx as <- _ _; by apply serial_rel_same].
    unfold commit_publish in Hx. destruct (um_states _ !! tag) as [s|] eqn:Hs.
    2:{ injection Hx as <- _ _. by apply serial_rel_same. }
    destruct (negb _ || negb _); [injection Hx as <- _ _; by apply serial_rel_same|].
    pose proof (commit_prepare_serial (or_now o) tag generation s results) as Hc.
    assert (∀ f : UrltestState → Z, (∀ s a b c d, f (with_probe_fields s a b c d) = f s) →
      f (commit_prepare (or_now o) tag generation s results).1 = f s) as Hk
      by (intros f Hf; by apply commit_prepare_keeps).
    destruct (commit_prepare _ _ _ _ _) as [s1 [ch|]]; cbn [fst] in Hc, Hk.
    + injection Hx as <- _ _. apply (serial_rel_set _ _ _ _ _ _ Hs). by left.
    + assert (serial_step s (finish_external_health_probe
        (with_probe s1 false (us_selection_pending s1) (us_generation s1)) true).1) as Hf
        by (apply finish_after; by apply Hk).
      destruct (finish_external_health_probe _ true) as [s2 r]. injection Hx as <- _ _.
      apply (serial_rel_set _ _ _ _ _ _ Hs). by left.
  - (* IOnChange *)
    injection Hx as <- _ _. destruct (or_defer o); [|by apply serial_rel_same].
    unfold defer_selection_completion. destruct (um_states _ !! tag) as [s|] eqn:Hs; [|by apply serial_rel_same].
    destruct (negb _ || negb _); [by apply serial_rel_same|].
    apply (serial_rel_set _ _ _ _ _ _ Hs). left. by apply serial_step_same.
  - (* IResolve *)
    unfold commit_resolve in Hx. destruct (um_states _ !! tag) as [s|] eqn:Hs.
    2:{ injection Hx as <- _ _. by apply serial_rel_same. }
    destruct (negb _ || negb _); [injection Hx as <- _ _; by apply serial_rel_same|].
    set (s1 := if admitted then s else _) in Hx.
    assert (us_generation s1 = us_generation s ∧ request s1 = request s ∧ completed s1 = completed s
            ∧ claimed s1 = claimed s) as (A1 & A2 & A3 & A4) by (unfold s1; by destruct admitted).
    destruct (us_selection_pending s1).
    + injection Hx as <- _ _. apply (serial_rel_set _ _ _ _ _ _ Hs). left. by apply serial_step_same.
    + pose proof (finish_after s s1 false false admitted A1 A2 A3 A4) as Hf.
      destruct (finish_external_health_probe _ admitted) as [s2 r]. injection Hx as <- _ _.
      apply (serial_rel_set _ _ _ _ _ _ Hs). by left.
  - (* IComplete *)
    unfold complete_selection in Hx. destruct (um_states _ !! tag) as [s|] eqn:Hs.
    2:{ injection Hx as <- _ _. by apply serial_rel_same. }
    destruct (negb _ || negb _); [injection Hx as <- _ _; by apply serial_rel_same|].
    pose proof (finish_after s s false false true eq_refl eq_refl eq_refl eq_refl) as Hf.
    destruct (finish_external_health_probe _ true) as [s2 r]. cbn [fst] in Hf.
    destruct resume; injection Hx as <- _ _; apply (serial_rel_set _ _ _ _ _ _ Hs); left; [done|].
    destruct Hf as (F1 & F2 & F3 & F4). unfold serial_step. cbn. tauto.
  - (* ISync *)
    injection Hx as <- _ _. unfold synchronize_selected.
    destruct (um_states _ !! tag) as [s|] eqn:Hs; [|by apply serial_rel_same].
    destruct (selectable s selected); [|by apply serial_rel_same].
    apply (serial_rel_set _ _ _ _ _ _ Hs). left. by apply serial_step_same.
  - (* ISyncGeneration *)
    injection Hx as <- _ _. unfold synchronize_selected_if_generation.
    destruct (um_states _ !! tag) as [s|] eqn:Hs; [|by apply serial_rel_same].
    destruct (_ && _); [|by apply serial_rel_same].
    apply (serial_rel_set _ _ _ _ _ _ Hs). left. by apply serial_step_same.
  - unfold retire_states in Hx. injection Hx as <- _ _. cbn. by intros ?%lookup_empty_Some.
  - unfold retire_states in Hx. injection Hx as <- _ _. cbn. by intros ?%lookup_empty_Some.
Qed.

(** ** Runs *)

(** Serials stay below the number of steps, so the 64-bit counters do not wrap. *)
Definition serials_ok (n : nat) (e : Env) : Prop :=
  ∀ t s, um_states (e_manager e) !! t = Some s →
    0 ≤ completed s ≤ request s ∧ 0 ≤ claimed s ≤ request s ∧ request s ≤ Z.of_nat n.

Lemma pool_step_serial allowed n e p e' p' :
  serials_ok n e → Z.of_nat n < u64_max → pool_step allowed e p e' p' →
  serials_ok (S n) e' ∧ ∀ t s', um_states (e_manager e') !! t = Some s' → serial_rel e t s'.
Proof.
  intros Hk Hn Hs.
  assert (∀ t s', um_states (e_manager e') !! t = Some s' → serial_rel e t s') as Hr.
  { destruct Hs as [o i rest e' next spawned p' _ Hx _ _|i p' _ _|id cb p' _ _];
      [|by intros; apply serial_rel_same..].
    intros t s'. eapply exec_serial; [exact Hx|]. intros t0 s0 Hs0. destruct (Hk t0 s0 Hs0). lia. }
  split; [|done]. intros t s' Hs'.
  destruct (Hr t s' Hs') as [(s & Hs0 & H1 & H2 & H3 & H4)|[(H1 & H2 & H3 & H4)|(H1 & s & Hs0 & H2 & H3 & H4)]].
  - destruct (Hk t s Hs0) as (K1 & K2 & K3). lia.
  - lia.
  - destruct (Hk t s Hs0) as (K1 & K2 & K3). lia.
Qed.

Lemma reaches_serials allowed marks n sys :
  reaches allowed n (sys_init marks) sys → Z.of_nat n < u64_max → serials_ok n (sys_env sys).
Proof.
  remember (sys_init marks) as s0 eqn:E0. induction 1 as [s|n a b c Hab IH Hbc]; intros Hn; subst.
  - intros t s. cbn. by intros ?%lookup_empty_Some.
  - eapply pool_step_serial; [apply IH; [done|lia]|lia|by apply sys_step_pool].
Qed.

(** A request that the generation [g] of a group cannot answer. *)
Definition beyond (g r : Z) (e : Env) (t : string) : Prop :=
  g < um_generation (e_manager e)
  ∧ ∀ s, um_states (e_manager e) !! t = Some s → us_generation s = g →
         claimed s < r ∧ completed s < r ∧ r ≤ request s.

Lemma exec_generation o e i e' next spawned :
  exec o e i = (e', next, spawned) →
  um_generation (e_manager e') = um_generation (e_manager e)
  ∨ um_generation (e_manager e') = u64 (um_generation (e_manager e) + 1).
Proof.
  intros Hx. destruct i; cbn [exec] in Hx; cbv zeta in Hx;
    unfold update_state, retire_states, schedule_repeating, cancel_scheduler_task, queue_claim, abandon_probe,
      commit_publish, defer_selection_completion, commit_resolve, complete_selection,
      synchronize_selected, synchronize_selected_if_generation in Hx;
    repeat (match type of Hx with context [match ?x with _ => _ end] =>
              lazymatch x with context [match _ with _ => _ end] => fail | _ => destruct x end end);
    injection Hx as <- _ _; try (by left); try (by right).
  cbn. unfold register_urltest. destruct (_ !! ob_tag ut); by left.
Qed.

Lemma pool_step_beyond allowed n e p e' p' g r t :
  owned n e p → serials_ok n e → Z.of_nat n + 2 < u64_max → 1 ≤ g → 1 ≤ r →
  beyond g r e t → pool_step allowed e p e' p' → beyond g r e' t.
Proof.
  intros Ho Hk Hn Hg Hr [Hgu Hb] Hs.
  destruct (pool_step_serial _ _ _ _ _ _ Hk ltac:(lia) Hs) as [_ Hrel].
  assert (um_generation (e_manager e) ≤ um_generation (e_manager e')) as Hmono.
  { destruct Hs as [o i rest e' next spawned p' _ Hx _ _|i p' _ _|id cb p' _ _]; [|lia..].
    pose proof (ow_generation _ _ _ Ho) as Hu.
    destruct (exec_generation _ _ _ _ _ _ Hx) as [-> | ->]; [lia|].
    unfold u64, wrap. rewrite Z.mod_small; [lia|]. unfold u64_max in Hn. lia. }
  split; [lia|]. intros s' Hs' Hg'.
  destruct (Hrel t s' Hs') as [(s & Hs0 & H1 & H2 & H3 & H4)|[(H1 & _)|(H1 & _)]]; [|lia|lia].
  destruct (Hb s Hs0 ltac:(lia)) as (B1 & B2 & B3). lia.
Qed.

Lemma reaches_add allowed n k a b c :
  reaches allowed n a b → reaches allowed k b c → reaches allowed (n + k) a c.
Proof.
  intros Hab. induction 1 as [s|k b c d Hbc IH Hcd]; [by rewrite Nat.add_0_r|].
  rewrite Nat.add_succ_r. eapply reaches_step; [by apply IH|done].
Qed.

Lemma reaches_beyond allowed marks n k sys sys' g r t :
  reaches allowed n (sys_init marks) sys → reaches allowed k sys sys' →
  Z.of_nat (n + k) + 2 < u64_max → 1 ≤ g → 1 ≤ r →
  beyond g r (sys_env sys) t → beyond g r (sys_env sys') t.
Proof.
  intros H0 Hk Hb Hg Hr Hbe. induction Hk as [s|k a b c Hab IH Hbc]; [done|].
  pose proof (reaches_add _ _ _ _ _ _ H0 Hab) as Hnk.
  assert (u64_max = 2 ^ 64 - 1) as Hmax by reflexivity.
  eapply (pool_step_beyond allowed (n + k)); [| | |exact Hg|exact Hr|apply IH|by apply sys_step_pool]; try lia; try done.
  - eapply reaches_owned; [exact Hnk|lia].
  - eapply reaches_serials; [exact Hnk|lia].
Qed.

(** ** Properties *)

(** A health edge outlives the probe it meets: when the reachability of a
    group changes while its probe is in flight, that probe cannot answer the
    change; as long as no later probe of the group has been claimed its request
    is outstanding, whatever commits, completions, failures and retries run in
    between. *)
Theorem health_edge_outlives_probe marks n k sys sys' before after rest o t s s' :
  reaches anything n (sys_init marks) sys →
  sys_threads sys = before ++ (ITrigger t :: rest) :: after →
  um_states (e_manager (sys_env sys)) !! t = Some s → us_probe_inflight s = true →
  reaches anything k
    {| sys_env := (exec o (sys_env sys) (ITrigger t)).1.1;
       sys_threads := before ++ (IStart t :: rest) :: after |} sys' →
  Z.of_nat (n + k) + 3 < u64_max →
  um_states (e_manager (sys_env sys')) !! t = Some s' → us_generation s' = us_generation s →
  health_pending s' = true.
Proof.
  intros Hr Hth Hs Hi Hk Hb Hs' Hg.
  assert (u64_max = 2 ^ 64 - 1) as Hmax by reflexivity.
  pose proof (reaches_owned _ _ _ _ Hr ltac:(lia)) as Ho.
  pose proof (reaches_serials _ _ _ _ Hr ltac:(lia)) as Hser.
  destruct (Hser t s Hs) as (K1 & K2 & K3).
  destruct (ow_states _ _ _ Ho t s Hs) as [O1 O2 _ _]. specialize (O2 Hi).
  set (sys1 := {| sys_env := _; sys_threads := _ |}) in Hk.
  assert (reaches anything (S n) (sys_init marks) sys1) as Hr1.
  { eapply reaches_step; [exact Hr|]. destruct sys as [e th]. cbn in Hth, Hs |- *. subst th.
    pose proof (step_section anything o e before (ITrigger t) rest after) as Hst.
    cbn [exec] in Hst. unfold sys1. cbn [sys_env exec]. rewrite Hs in Hst |- *.
    specialize (Hst _ _ _ I eq_refl). by rewrite app_nil_r in Hst. }
  assert (beyond (us_generation s) (request s + 1) (sys_env sys1) t) as Hbe.
  { unfold sys1. cbn [sys_env exec]. rewrite Hs. unfold update_state. cbn [fst]. rewrite Hs.
    split; cbn [with_manager e_manager set_state um_generation um_states]; [lia|].
    intros s1. rewrite lookup_insert_eq. intros [= <-] _.
    unfold trigger_edge. cbv zeta. assert (request s ≠ u64_max) as Hne by lia.
    apply Z.eqb_neq in Hne. rewrite Hne. cbn [andb]. rewrite Hne. cbn. lia. }
  destruct (reaches_beyond anything marks (S n) k sys1 sys' (us_generation s) (request s + 1) t Hr1 Hk)
    as [_ Hfin]; [lia|done|lia|done|].
  destruct (Hfin s' Hs' Hg) as (_ & F2 & F3). unfold health_pending.
  apply negb_true_iff, Z.eqb_neq. lia.
Qed.

(** A health edge during the first probe of a group, whose results are then
    committed without a change: the request is still outstanding. *)
Definition sample_edge : System := call (ITrigger "auto") sample_probing.

Definition sample_edge_noted : System :=
  {| sys_env := (exec (sample_oracle true false None) (sys_env sample_edge) (ITrigger "auto")).1.1;
     sys_threads := [default [] (sys_threads sample_probing !! 0%nat)] ++ [IStart "auto"] :: [] |}.

Definition sample_committed : System :=
  let go := run_thread (sample_oracle true false (Some ∅)) in
  go 3%nat (go 2%nat (go 2%nat (go 0%nat (go 0%nat sample_edge_noted)))).

Lemma sample_edge_reaches : reaches anything 4 (sys_init sample_marks) sample_edge.
Proof.
  eapply reaches_step; [|by apply call_step].
  eapply reaches_step; [by apply sample_registered_reaches|].
  eapply run_thread_step; [vm_compute; reflexivity|exact I].
Qed.

Lemma sample_committed_reaches : reaches anything 5 sample_edge_noted sample_committed.
Proof.
  do 5 (eapply reaches_step; [|eapply run_thread_step; [vm_compute; reflexivity|exact I]]).
  apply reaches_refl.
Qed.

Lemma sample_edge_state :
  ∃ s, um_states (e_manager (sys_env sample_edge)) !! "auto"%string = Some s
       ∧ us_probe_inflight s = true ∧ us_generation s = 1.
Proof.
  assert ((λ s, (us_probe_inflight s, us_generation s)) <$>
          um_states (e_manager (sys_env sample_edge)) !! "auto"%string = Some (true, 1)) as H
    by (vm_compute; reflexivity).
  apply fmap_Some in H as (s & Hs & [= H1 H2]). exists s. auto.
Qed.

Lemma sample_committed_state :
  ∃ s, um_states (e_manager (sys_env sample_committed)) !! "auto"%string = Some s
       ∧ us_probe_inflight s = false ∧ us_generation s = 1.
Proof.
  assert ((λ s, (us_probe_inflight s, us_generation s)) <$>
          um_states (e_manager (sys_env sample_committed)) !! "auto"%string = Some (false, 1)) as H
    by (vm_compute; reflexivity).
  apply fmap_Some in H as (s & Hs & [= H1 H2]). exists s. auto.
Qed.

Lemma sample_edge_threads :
  sys_threads sample_edge
  = [default [] (sys_threads sample_probing !! 0%nat)] ++ (ITrigger "auto" :: []) :: [].
Proof. vm_compute. reflexivity. Qed.

Lemma health_edge_outlives_probe_witness :
  ∃ s, um_states (e_manager (sys_env sample_committed)) !! "auto"%string = Some s
       ∧ us_probe_inflight s = false ∧ us_generation s = 1 ∧ health_pending s = true.
Proof.
  destruct sample_edge_state as (s & Hs & Hi & Hg).
  destruct sample_committed_state as (s' & Hs' & Hi' & Hg').
  exists s'. split; [exact Hs'|]. split; [exact Hi'|]. split; [exact Hg'|].
  refine (health_edge_outlives_probe sample_marks 4 5 sample_edge sample_committed
            [default [] (sys_threads sample_probing !! 0%nat)] [] []
            (sample_oracle true false None) "auto" s s' sample_edge_reaches sample_edge_threads
            Hs Hi sample_committed_reaches _ Hs' _).
  - vm_compute. reflexivity.
  - by rewrite Hg, Hg'.
Defined.
