(* ===== verification/ProbeBatch.v ===== *)
(** * Probe batches

    The worker pool of one probe in [queue_probe_unlocked]
    (src/src/routing/urltest_manager.cpp): worker [k] of [n] tests the candidates
    k, k + n, k + 2n, ..., all workers share a [ProbeBatch], and the completion
    guard of the last one either hands the results over or abandons the probe.
    UrltestManager.v uses the pool through its single terminal action. *)

From Stdlib Require Import ZArith Lia Ascii String.
From stdpp Require Import base gmap strings list.
From S2P Require Import Prelude ConfigTypes UrltestSelect UrltestManager.

(** [struct ProbeBatch] *)
Record ProbeBatch := {
  pb_results : gmap string URLTestResult;
  pb_workers_remaining : nat;
  pb_aborted : bool;
}.

(** A worker runs its strided loop, then its completion guard. *)
Inductive Worker :=
  | WRun (index : nat)
  | WGuard (worker_aborted : bool)
  | WExited.

(** What the last guard does. *)
Inductive Terminal :=
  | TAbandon
  | TCommit (results : gmap string URLTestResult).

Record Pool := {
  wp_batch : ProbeBatch;
  wp_workers : list Worker;
  wp_terminals : list Terminal;
}.

(** The completion guard: the batch after it and the terminal action, if any. *)
Definition completion_guard (b : ProbeBatch) (worker_aborted : bool) : ProbeBatch * option Terminal :=
  let aborted := pb_aborted b || worker_aborted in
  match pb_workers_remaining b with
  | O => ({| pb_results := pb_results b; pb_workers_remaining := 0; pb_aborted := aborted |}, None)
  | S r =>
      ({| pb_results := pb_results b; pb_workers_remaining := r; pb_aborted := aborted |},
       match r with
       | O => Some (if aborted then TAbandon else TCommit (pb_results b))
       | S _ => None
       end)
  end.

(** [results.emplace] keeps an earlier result of the same child. *)
Definition emplace_result (b : ProbeBatch) (tag : string) (r : URLTestResult) : ProbeBatch :=
  {| pb_results := match pb_results b !! tag with
                   | Some _ => pb_results b
                   | None => <[tag := r]> (pb_results b)
                   end;
     pb_workers_remaining := pb_workers_remaining b; pb_aborted := pb_aborted b |}.

Section Pool.
Context (candidates : list string).
Abbreviation n := (length candidates).
Context (workers : nat) (Hw : (0 < workers)%nat).

Definition pool_init : Pool :=
  {| wp_batch := {| pb_results := ∅; pb_workers_remaining := workers; pb_aborted := false |};
     wp_workers := WRun <$> seq 0 workers; wp_terminals := [] |}.

(** [stale]: the generation check fails or an exception leaves the loop. *)
Inductive worker_step (b : ProbeBatch) : Worker → ProbeBatch → Worker → list Terminal → Prop :=
  | ws_abort i : worker_step b (WRun i) b (WGuard true) []
  | ws_test i c r :
      candidates !! i = Some c →
      worker_step b (WRun i) (emplace_result b c r) (WRun (i + workers)) []
  | ws_done i : (n ≤ i)%nat → worker_step b (WRun i) b (WGuard false) []
  | ws_guard a :
      worker_step b (WGuard a) (completion_guard b a).1 WExited
        (option_list (completion_guard b a).2).

Inductive batch_step : Pool → Pool → Prop :=
  | bs_worker b before w after terminals b' w' ts :
      worker_step b w b' w' ts →
      batch_step {| wp_batch := b; wp_workers := before ++ w :: after; wp_terminals := terminals |}
                 {| wp_batch := b'; wp_workers := before ++ w' :: after;
                    wp_terminals := terminals ++ ts |}.

(** ** Invariant *)

Definition exited (w : Worker) : bool := match w with WExited => true | _ => false end.

Definition exits (ws : list Worker) : nat := length (filter (λ w, exited w = true) ws).

(** The candidates of worker [k] below [limit] have results. *)
Definition tested (results : gmap string URLTestResult) (k limit : nat) : Prop :=
  ∀ j c, candidates !! j = Some c → (j mod workers = k)%nat → (j < limit)%nat → is_Some (results !! c).

Definition worker_ok (b : ProbeBatch) (k : nat) (w : Worker) : Prop :=
  match w with
  | WRun i => (i mod workers = k)%nat ∧ tested (pb_results b) k i
  | WGuard true => True
  | WGuard false => tested (pb_results b) k n
  | WExited => pb_aborted b = true ∨ tested (pb_results b) k n
  end.

Record pool_ok (p : Pool) : Prop := {
  po_length : length (wp_workers p) = workers;
  po_remaining : (pb_workers_remaining (wp_batch p) + exits (wp_workers p) = workers)%nat;
  po_terminals : length (wp_terminals p)
                 = if decide (pb_workers_remaining (wp_batch p) = 0%nat) then 1%nat else 0%nat;
  po_workers : ∀ k w, wp_workers p !! k = Some w → worker_ok (wp_batch p) k w;
  po_results : ∀ c, is_Some (pb_results (wp_batch p) !! c) → c ∈ candidates;
  po_commit : ∀ r, TCommit r ∈ wp_terminals p →
    pb_aborted (wp_batch p) = false ∧ r = pb_results (wp_batch p);
}.

Lemma exits_app ws1 ws2 : exits (ws1 ++ ws2) = (exits ws1 + exits ws2)%nat.
Proof. unfold exits. by rewrite filter_app, length_app. Qed.

Lemma exits_cons w ws : exits (w :: ws) = ((if exited w then 1 else 0) + exits ws)%nat.
Proof. unfold exits. rewrite filter_cons. by destruct w. Qed.

Lemma exits_run l : exits (WRun <$> l) = 0%nat.
Proof. induction l as [|x l IH]; [done|]. rewrite fmap_cons, exits_cons. cbn. done. Qed.

Lemma exits_full ws : exits ws = length ws → ∀ w, w ∈ ws → w = WExited.
Proof.
  assert (∀ l, (exits l ≤ length l)%nat) as Hle by (intros; apply length_filter).
  induction ws as [|x ws IH]; intros He w; [by intros ?%not_elem_of_nil|].
  rewrite exits_cons in He. specialize (Hle ws). cbn [length] in He.
  intros [->|Hin]%elem_of_cons.
  - destruct x; cbn in He; [lia|lia|done].
  - apply IH; [|done]. destruct (exited x); lia.
Qed.

Lemma pool_init_ok : pool_ok pool_init.
Proof.
  split; unfold pool_init;
    cbn [wp_batch wp_workers wp_terminals pb_workers_remaining pb_results pb_aborted].
  - by rewrite length_fmap, length_seq.
  - rewrite exits_run. lia.
  - by rewrite decide_False by lia.
  - intros k w. rewrite list_lookup_fmap, fmap_Some. intros (i & Hi & ->).
    apply lookup_seq in Hi as [-> Hi]. split; [by apply Nat.mod_small|].
    intros j c _ Hj Hlt. rewrite Nat.mod_small in Hj by lia. lia.
  - intros c. rewrite lookup_empty. by intros [].
  - intros r. by intros ?%not_elem_of_nil.
Qed.

(** Batches only grow. *)
Definition grows (b b' : ProbeBatch) : Prop :=
  (∀ c, is_Some (pb_results b !! c) → is_Some (pb_results b' !! c))
  ∧ (pb_aborted b = true → pb_aborted b' = true).

Lemma worker_ok_grows b b' k w : grows b b' → worker_ok b k w → worker_ok b' k w.
Proof.
  intros [H1 H2].
  assert (∀ limit, tested (pb_results b) k limit → tested (pb_results b') k limit) as Ht
    by (intros limit H j c ???; eauto).
  destruct w as [i|[]|]; cbn; naive_solver.
Qed.

Lemma emplace_lookup b c r x :
  is_Some (pb_results (emplace_result b c r) !! x) ↔ x = c ∨ is_Some (pb_results b !! x).
Proof.
  cbn. destruct (pb_results b !! c) eqn:E.
  - split; [by right|]. by intros [->|?].
  - destruct (decide (x = c)) as [->|Hx].
    + rewrite lookup_insert_eq. split; [by left|done].
    + rewrite lookup_insert_ne by done. naive_solver.
Qed.

Lemma emplace_grows b c r : grows b (emplace_result b c r).
Proof. split; [|done]. intros x Hx. apply emplace_lookup. by right. Qed.

Lemma guard_grows b a : grows b (completion_guard b a).1.
Proof.
  unfold completion_guard, grows. destruct (pb_workers_remaining b); cbn; (split; [done|]);
    intros ->; done.
Qed.

(** The next index of a worker has been tested below. *)
Lemma tested_next b k i c r :
  candidates !! i = Some c → (i mod workers = k)%nat → tested (pb_results b) k i →
  tested (pb_results (emplace_result b c r)) k (i + workers).
Proof.
  intros Hc Hi Ht j d Hd Hj Hlt. apply emplace_lookup.
  destruct (decide (j < i)%nat); [right; by eapply Ht|].
  assert (j = i) as ->; [|left; congruence].
  pose proof (Nat.div_mod_eq j workers). pose proof (Nat.div_mod_eq i workers).
  assert (j / workers = i / workers)%nat; [|lia]. nia.
Qed.

Lemma tested_all results k i : (n ≤ i)%nat → tested results k i → tested results k n.
Proof. intros Hi Ht j c Hc Hj _. eapply Ht; eauto. apply lookup_lt_Some in Hc. lia. Qed.

Lemma middle_lookup {A} (l1 l2 : list A) x y k w :
  (l1 ++ y :: l2) !! k = Some w →
  (k = length l1 ∧ w = y) ∨ (k ≠ length l1 ∧ (l1 ++ x :: l2) !! k = Some w).
Proof.
  intros H. destruct (decide (k = length l1)) as [->|Hk].
  - left. rewrite list_lookup_middle in H by done. naive_solver.
  - right. split; [done|]. destruct (decide (k < length l1)%nat).
    + by rewrite lookup_app_l in H |- * by done.
    + rewrite lookup_app_r in H |- * by lia. destruct (k - length l1)%nat eqn:E; [lia|done].
Qed.

Lemma exits_le ws : (exits ws ≤ length ws)%nat.
Proof. apply length_filter. Qed.

Lemma guard_remaining b a :
  pb_workers_remaining (completion_guard b a).1 = pred (pb_workers_remaining b).
Proof. unfold completion_guard. by destruct (pb_workers_remaining b). Qed.

Lemma guard_results b a : pb_results (completion_guard b a).1 = pb_results b.
Proof. unfold completion_guard. by destruct (pb_workers_remaining b). Qed.

Lemma guard_aborted b a : pb_aborted (completion_guard b a).1 = pb_aborted b || a.
Proof. unfold completion_guard. by destruct (pb_workers_remaining b). Qed.

(** The action of a guard that finds a worker still counted. *)
Lemma guard_terminal b a r :
  pb_workers_remaining b = S r →
  (completion_guard b a).2
  = (if decide (r = 0%nat)
     then Some (if pb_aborted b || a then TAbandon else TCommit (pb_results b)) else None).
Proof. intros E. unfold completion_guard. rewrite E. by destruct r. Qed.

Lemma batch_step_ok p p' : pool_ok p → batch_step p p' → pool_ok p'.
Proof.
  intros [P1 P2 P3 P4 P5 P6] Hp. destruct Hp as [b before w after terminals b' w' ts Hs].
  cbn [wp_batch wp_workers wp_terminals] in *.
  rewrite exits_app, exits_cons in P2. rewrite length_app in P1. cbn [length] in P1.
  pose proof (exits_le before) as E1. pose proof (exits_le after) as E2.
  assert (worker_ok b (length before) w) as Hok by (apply P4; by rewrite list_lookup_middle).
  assert (∀ b1 w1, grows b b1 → worker_ok b1 (length before) w1 →
    ∀ k x, (before ++ w1 :: after) !! k = Some x → worker_ok b1 k x) as Hworkers.
  { intros b1 w1 Hg Hw1 k x Hx. destruct (middle_lookup _ _ w _ _ _ Hx) as [[-> ->]|[_ H]]; [done|].
    eapply worker_ok_grows; [exact Hg|by apply P4]. }
  assert (exited w = false → terminals = []) as Hnil.
  { intros Hx. rewrite Hx in P2. rewrite decide_False in P3 by lia. by destruct terminals. }
  destruct Hs as [i|i c r Hc|i Hi|a];
    (split; cbn [wp_batch wp_workers wp_terminals];
     [rewrite length_app; cbn [length]; lia|rewrite exits_app, exits_cons|..]).
  - done.
  - by rewrite app_nil_r.
  - apply Hworkers; [by split|done].
  - done.
  - intros r. rewrite Hnil by done. by intros ?%not_elem_of_nil.
  - done.
  - by rewrite app_nil_r.
  - destruct Hok as [Hm Ht]. apply Hworkers; [apply emplace_grows|]. split; [|by apply tested_next].
    rewrite <- Hm. rewrite <- (Nat.mul_1_l workers) at 1. by rewrite Nat.Div0.mod_add.
  - intros x [->|Hx]%emplace_lookup; [by eapply list_elem_of_lookup_2|auto].
  - intros r'. rewrite Hnil by done. by intros ?%not_elem_of_nil.
  - done.
  - by rewrite app_nil_r.
  - apply Hworkers; [by split|]. by eapply tested_all; [|apply Hok].
  - done.
  - intros r. rewrite Hnil by done. by intros ?%not_elem_of_nil.
  - rewrite guard_remaining. cbn [exited] in *. lia.
  - cbn [exited] in P2. rewrite guard_remaining, Hnil by done. cbn [app].
    destruct (pb_workers_remaining b) as [|r] eqn:Er; [lia|].
    rewrite (guard_terminal _ _ _ Er). change (pred (S r)) with r. by destruct (decide (r = 0%nat)).
  - apply Hworkers; [apply guard_grows|]. cbn. rewrite guard_aborted, guard_results.
    destruct a; [left; by rewrite orb_true_r|right; exact Hok].
  - intros c. by rewrite guard_results; apply P5.
  - intros r. rewrite Hnil by done. cbn [app]. rewrite guard_aborted, guard_results.
    destruct (pb_workers_remaining b) as [|k] eqn:Er.
    { unfold completion_guard. rewrite Er. by intros ?%not_elem_of_nil. }
    rewrite (guard_terminal _ _ _ Er).
    destruct (decide (k = 0%nat)); [|by intros ?%not_elem_of_nil].
    destruct (pb_aborted b || a); intros [H|H%not_elem_of_nil]%elem_of_cons; try done.
    injection H as ->. done.
Qed.

(** ** Termination *)

Definition worker_measure (w : Worker) : nat :=
  match w with WRun i => 2 + (n + workers - i) | WGuard _ => 1 | WExited => 0 end.

Definition pool_measure (p : Pool) : nat := sum_list_with worker_measure (wp_workers p).

Lemma batch_step_decreases p p' : batch_step p p' → (pool_measure p' < pool_measure p)%nat.
Proof.
  intros [b before w after terminals b' w' ts Hs]. unfold pool_measure. cbn [wp_workers].
  rewrite !sum_list_with_app. cbn [sum_list_with].
  enough (worker_measure w' < worker_measure w)%nat by lia.
  destruct Hs as [i|i c r Hc|i Hi|a]; cbn; [lia| |lia|lia]. apply lookup_lt_Some in Hc. lia.
Qed.

(** A pool in which somebody has not exited can move. *)
Lemma batch_progress p :
  (∃ p', batch_step p p') ∨ ∀ w, w ∈ wp_workers p → w = WExited.
Proof.
  destruct p as [b ws ts]. cbn. induction ws as [|w ws IH]; [right; by intros w ?%not_elem_of_nil|].
  assert (w = WExited ∨ ∃ b' w' ts', worker_step b w b' w' ts') as [->|(b' & w' & ts' & Hs)].
  { destruct w; [right; repeat eexists; apply ws_abort|right; repeat eexists; apply ws_guard|by left]. }
  - destruct IH as [[p' Hp]|IH]; [left|right; by intros w [->|?]%elem_of_cons; auto].
    remember {| wp_batch := b; wp_workers := ws; wp_terminals := ts |} as p eqn:Ep.
    destruct Hp as [b0 before w0 after ts0 b' w' ts' Hs]. injection Ep as -> <- ->.
    eexists. apply (bs_worker b (WExited :: before) w0 after ts b' w' ts' Hs).
  - left. eexists. apply (bs_worker b [] w ws ts b' w' ts' Hs).
Qed.

Inductive batch_reaches : Pool → Pool → Prop :=
  | br_refl p : batch_reaches p p
  | br_step p q r : batch_reaches p q → batch_step q r → batch_reaches p r.

Lemma reaches_ok p : batch_reaches pool_init p → pool_ok p.
Proof.
  remember pool_init as p0 eqn:E0. induction 1 as [p|p q r Hpq IH Hqr]; subst.
  - apply pool_init_ok.
  - eapply batch_step_ok; [by apply IH|done].
Qed.

(** The last state of a maximal run. *)
Lemma all_exited_terminal p :
  pool_ok p → (∀ w, w ∈ wp_workers p → w = WExited) →
  wp_terminals p = [TAbandon]
  ∨ wp_terminals p = [TCommit (pb_results (wp_batch p))]
    ∧ ∀ c, is_Some (pb_results (wp_batch p) !! c) ↔ c ∈ candidates.
Proof.
  intros [P1 P2 P3 P4 P5 P6] Hall.
  assert (exits (wp_workers p) = length (wp_workers p)) as He.
  { clear -Hall. revert Hall. generalize (wp_workers p). intros ws Hall.
    induction ws as [|w ws IH]; [done|].
    rewrite exits_cons, IH by (intros; apply Hall; by right). rewrite (Hall w) by left. done. }
  rewrite decide_True in P3 by lia.
  destruct (wp_terminals p) as [|x [|]] eqn:Et; try done.
  destruct x as [|r]; [by left|right]. destruct (P6 r ltac:(left)) as [Ha ->].
  split; [done|]. intros c. split; [apply P5|]. intros [j Hj]%list_elem_of_lookup.
  assert (is_Some (wp_workers p !! (j mod workers)%nat)) as [w Hwk].
  { apply lookup_lt_is_Some. rewrite P1. apply Nat.mod_upper_bound. lia. }
  pose proof (P4 _ _ Hwk) as Hok. rewrite (Hall w) in Hok by (by eapply list_elem_of_lookup_2).
  destruct Hok as [|Ht]; [congruence|]. eapply Ht; [exact Hj|done|by eapply lookup_lt_Some].
Qed.
End Pool.

(** ** Properties *)

(** C39. A probe ends once: the worker pool of a probe cannot run forever; it is
    stuck only when every worker has exited, and then exactly one terminal action
    has been taken: the probe is abandoned, or results for exactly the candidates
    are handed over, which happens only when no worker aborted. Until then no
    terminal action has been taken. *)
Theorem batch_ends_once candidates workers :
  (0 < workers)%nat →
  let init := pool_init workers in
  (∀ p q, batch_step candidates workers p q →
     (pool_measure candidates workers q < pool_measure candidates workers p)%nat)
  ∧ ∀ p, batch_reaches candidates workers init p →
      ((∀ q, ¬ batch_step candidates workers p q) →
         wp_terminals p = [TAbandon]
         ∨ wp_terminals p = [TCommit (pb_results (wp_batch p))]
           ∧ pb_aborted (wp_batch p) = false
           ∧ ∀ c, is_Some (pb_results (wp_batch p) !! c) ↔ c ∈ candidates)
      ∧ ((∃ w, w ∈ wp_workers p ∧ w ≠ WExited) → wp_terminals p = []).
Proof.
  intros Hw init. split; [by apply batch_step_decreases|]. intros p Hr.
  pose proof (reaches_ok candidates workers Hw p Hr) as Hok. split.
  - intros Hstuck. destruct (batch_progress candidates workers p) as [[q Hq]|Hall]; [by apply Hstuck in Hq|].
    destruct (all_exited_terminal candidates workers Hw p Hok Hall) as [H|[H1 H2]]; [by left|right].
    split; [done|]. split; [|done].
    destruct (po_commit _ _ _ Hok (pb_results (wp_batch p))) as [Ha _]; [rewrite H1; left|done].
  - intros (w & Hin & Hne). pose proof (po_remaining _ _ _ Hok) as P2.
    pose proof (po_length _ _ _ Hok) as P1. pose proof (po_terminals _ _ _ Hok) as P3.
    rewrite decide_False in P3; [by destruct (wp_terminals p)|]. intros Hz.
    apply Hne. eapply exits_full; [exact Hw| |exact Hin]. lia.
Qed.

(** One candidate, tested and handed over. *)
Definition sample_ended : Pool :=
  {| wp_batch := {| pb_results := {[ "vpn_a"%string := sample_result true 20 ]};
                    pb_workers_remaining := 0; pb_aborted := false |};
     wp_workers := [WExited];
     wp_terminals := [TCommit {[ "vpn_a"%string := sample_result true 20 ]}] |}.

Lemma batch_ends_once_witness :
  batch_reaches ["vpn_a"%string] 1 (pool_init 1) sample_ended
  ∧ ∀ c, is_Some (pb_results (wp_batch sample_ended) !! c) ↔ c ∈ ["vpn_a"%string].
Proof.
  assert (batch_reaches ["vpn_a"%string] 1 (pool_init 1) sample_ended) as Hr.
  { eapply br_step; [eapply br_step; [eapply br_step; [apply br_refl|]|]|].
    - apply (bs_worker _ _ _ [] (WRun 0) []). apply (ws_test _ _ _ 0 "vpn_a" (sample_result true 20)). done.
    - apply (bs_worker _ _ _ [] (WRun 1) []). apply ws_done. cbn. lia.
    - exact (bs_worker ["vpn_a"%string] 1 _ [] (WGuard false) [] [] _ _ _ (ws_guard _ _ _ false)). }
  split; [exact Hr|].
  destruct (batch_ends_once ["vpn_a"%string] 1 ltac:(lia)) as [_ H].
  destruct (H sample_ended Hr) as [Hend _].
  destruct Hend as [He|(_ & _ & He)]; [|discriminate He|exact He].
  intros q Hq. unfold sample_ended in Hq. inversion Hq as [b before w after ts b' w' ts' Hs E1 E2].
  destruct before as [|x [|]]; cbn in *; simplify_eq; try done. inversion Hs.
Defined.
