(* ===== verification/StateError.v ===== *)
(** * Computations with state and exceptions

    The monad in which the stateful classes are written: a computation maps the
    world (an object's fields together with the system it drives) to the world
    it leaves and to a value or an exception. A [throw] keeps the writes made so
    far, as a C++ exception does. Weakest preconditions with one postcondition
    for normal return and one for exceptions carry the proofs. *)

From Stdlib Require Import ZArith Lia.
From stdpp Require Import base list.
From S2P Require Import Prelude.

Definition SE (W E A : Type) : Type := W → W * result E A.

Section Monad.
Context {W E : Type}.

Global Instance se_ret : MRet (SE W E) := λ A a w, (w, Ok a).
Global Instance se_bind : MBind (SE W E) := λ A B k m w,
  match m w with
  | (w', Ok a) => k a w'
  | (w', Throw e) => (w', Throw e)
  end.

Definition throw {A} (e : E) : SE W E A := λ w, (w, Throw e).

(** [try { m } catch (e) { h e }] *)
Definition catch {A} (m : SE W E A) (h : E → SE W E A) : SE W E A := λ w,
  match m w with
  | (w', Ok a) => (w', Ok a)
  | (w', Throw e) => h e w'
  end.

Definition gets {A} (f : W → A) : SE W E A := λ w, (w, Ok (f w)).
Definition modify (f : W → W) : SE W E unit := λ w, (f w, Ok ()).

(** Range-based [for] with an accumulator of the variables the body assigns. *)
Fixpoint mfold {A B} (f : B → A → SE W E B) (b : B) (l : list A) : SE W E B :=
  match l with
  | [] => mret b
  | x :: l => b' ← f b x; mfold f b' l
  end.

Definition mfor {A} (f : A → SE W E unit) (l : list A) : SE W E unit :=
  mfold (λ _ x, f x) () l.

(** ** Weakest preconditions *)

Definition wp {A} (m : SE W E A) (Q : A → W → Prop) (X : E → W → Prop) (w : W) : Prop :=
  match m w with
  | (w', Ok a) => Q a w'
  | (w', Throw e) => X e w'
  end.

Lemma wp_ret {A} (a : A) Q X w : Q a w → wp (mret a) Q X w.
Proof. done. Qed.

Lemma wp_throw {A} e (Q : A → W → Prop) (X : E → W → Prop) w : X e w → wp (throw e) Q X w.
Proof. done. Qed.

Lemma wp_gets {A} (f : W → A) Q X w : Q (f w) w → wp (gets f) Q X w.
Proof. done. Qed.

Lemma wp_modify f Q X w : Q () (f w) → wp (modify f) Q X w.
Proof. done. Qed.

Lemma wp_bind {A B} (m : SE W E A) (k : A → SE W E B) Q X w :
  wp m (λ a, wp (k a) Q X) X w → wp (mbind k m) Q X w.
Proof. unfold wp, mbind, se_bind. by destruct (m w) as [w' [a|e]]. Qed.

(** When nothing is asked of the exceptional exits. *)
Lemma wp_bind_any {A B} (m : SE W E A) (k : A → SE W E B) (Q : B → W → Prop) w :
  (∀ a w', wp (k a) Q (λ _ _, True) w') → wp (mbind k m) Q (λ _ _, True) w.
Proof. intros Hk. apply wp_bind. unfold wp at 1. destruct (m w) as [w' [a|e]]; auto. Qed.

Lemma wp_catch {A} (m : SE W E A) h Q X w :
  wp m Q (λ e, wp (h e) Q X) w → wp (catch m h) Q X w.
Proof. unfold wp, catch. by destruct (m w) as [w' [a|e]]. Qed.

Lemma wp_mono {A} (m : SE W E A) (Q Q' : A → W → Prop) (X X' : E → W → Prop) w :
  wp m Q X w → (∀ a w', Q a w' → Q' a w') → (∀ e w', X e w' → X' e w') → wp m Q' X' w.
Proof. unfold wp. destruct (m w) as [w' [a|e]]; eauto. Qed.

Lemma wp_and {A} (m : SE W E A) (Q Q' : A → W → Prop) (X X' : E → W → Prop) w :
  wp m Q X w → wp m Q' X' w →
  wp m (λ a w', Q a w' ∧ Q' a w') (λ e w', X e w' ∧ X' e w') w.
Proof. unfold wp. destruct (m w) as [w' [a|e]]; eauto. Qed.

(** The loop rule: [I done rest] is indexed by the elements still to visit, so an
    invariant may speak of what has been handled. *)
Lemma wp_mfold {A B} (f : B → A → SE W E B) (I : B → list A → W → Prop) X b l w :
  I b l w →
  (∀ b x l' w', I b (x :: l') w' → wp (f b x) (λ b', I b' l') X w') →
  wp (mfold f b l) (λ b', I b' []) X w.
Proof.
  intros HI Hf. revert b w HI. induction l as [|x l IH]; intros b w HI; [done|].
  simpl. apply wp_bind. eapply wp_mono; [by apply Hf | |done].
  intros b' w' HI'. by apply IH.
Qed.

Lemma wp_mfor {A} (f : A → SE W E unit) (I : list A → W → Prop) X l w :
  I l w →
  (∀ x l' w', I (x :: l') w' → wp (f x) (λ _, I l') X w') →
  wp (mfor f l) (λ _, I []) X w.
Proof.
  intros HI Hf. apply (wp_mfold (λ _ x, f x) (λ _, I)); [done|].
  intros _ x l' w'. apply Hf.
Qed.

(** ** Invariants *)

(** [m] preserves [I] whether it returns or throws. *)
Definition preserves {A} (I : W → Prop) (m : SE W E A) : Prop :=
  ∀ w, I w → I (m w).1.

Lemma preserves_wp {A} (I : W → Prop) (m : SE W E A) :
  preserves I m ↔ ∀ w, I w → wp m (λ _, I) (λ _, I) w.
Proof.
  unfold preserves, wp. split; intros H w Hw; specialize (H w Hw);
    by destruct (m w) as [w' [a|e]].
Qed.

(** Postconditions on normal return only: an exception may leave any world. *)
Lemma wp_frame {A} (I : W → Prop) (m : SE W E A) (Q : A → W → Prop) w :
  preserves I m → I w → (∀ a w', I w' → Q a w') → wp m Q (λ _ _, True) w.
Proof. rewrite preserves_wp. intros Hm Hw HQ. eapply wp_mono; eauto. Qed.

Lemma wp_rethrow {A B} (m : SE W E A) e (Q : B → W → Prop) w :
  wp (mbind (λ _, throw e) m) Q (λ _ _, True) w.
Proof. apply wp_bind. unfold wp. by destruct (m w) as [w' [a|x]]. Qed.

Section Preserves.
Context (I : W → Prop).

Lemma preserves_ret {A} (a : A) : preserves I (mret a).
Proof. by intros w Hw. Qed.

Lemma preserves_throw {A} e : preserves I (throw e : SE W E A).
Proof. by intros w Hw. Qed.

Lemma preserves_gets {A} (f : W → A) : preserves I (gets f).
Proof. by intros w Hw. Qed.

Lemma preserves_modify f : (∀ w, I w → I (f w)) → preserves I (modify f).
Proof. intros Hf w Hw. by apply Hf. Qed.

Lemma preserves_bind {A B} (m : SE W E A) (k : A → SE W E B) :
  preserves I m → (∀ a, preserves I (k a)) → preserves I (mbind k m).
Proof.
  intros Hm Hk w Hw. specialize (Hm w Hw). unfold mbind, se_bind.
  destruct (m w) as [w' [a|e]]; [by apply Hk | done].
Qed.

(** As [preserves_bind], keeping what is known of the value. *)
Lemma preserves_bind_fact {A B} (R : A → Prop) (m : SE W E A) (k : A → SE W E B) :
  preserves I m → (∀ w w' a, I w → m w = (w', Ok a) → R a) →
  (∀ a, R a → preserves I (k a)) → preserves I (mbind k m).
Proof.
  intros Hm HR Hk w Hw. specialize (Hm w Hw). unfold mbind, se_bind.
  destruct (m w) as [w' [a|e]] eqn:Heq; [|done]. apply Hk; [by eapply HR | done].
Qed.

Lemma preserves_catch {A} (m : SE W E A) h :
  preserves I m → (∀ e, preserves I (h e)) → preserves I (catch m h).
Proof.
  intros Hm Hh w Hw. specialize (Hm w Hw). unfold catch.
  destruct (m w) as [w' [a|e]]; [done | by apply Hh].
Qed.

Lemma preserves_mfold {A B} (f : B → A → SE W E B) b l :
  (∀ b x, x ∈ l → preserves I (f b x)) → preserves I (mfold f b l).
Proof.
  revert b. induction l as [|x l IH]; intros b Hf; [apply preserves_ret|].
  simpl. apply preserves_bind; [apply Hf; by left|].
  intros b'. apply IH. intros b'' y Hy. apply Hf. by right.
Qed.

Lemma preserves_mfor {A} (f : A → SE W E unit) l :
  (∀ x, x ∈ l → preserves I (f x)) → preserves I (mfor f l).
Proof. intros Hf. apply preserves_mfold. intros _ x. apply Hf. Qed.
End Preserves.
End Monad.

Create HintDb preserves discriminated.
#[export] Hint Resolve preserves_ret preserves_throw preserves_gets : preserves.

(** Decomposes a goal [preserves I m] along the structure of [m]; component
    lemmas in the [preserves] database close the leaves. *)
Ltac preserve :=
  repeat match goal with
  | |- preserves _ _ => solve [eauto 3 with preserves]
  | |- preserves _ (mbind _ _) => apply preserves_bind
  | |- preserves _ (catch _ _) => apply preserves_catch
  | |- preserves _ (mfor _ _) => apply preserves_mfor
  | |- preserves _ (mfold _ _ _) => apply preserves_mfold
  | |- preserves _ (if ?b then _ else _) => destruct b eqn:?
  | |- preserves _ (match ?x with _ => _ end) => destruct x eqn:?
  | |- preserves _ (let _ := _ in _) => cbv zeta
  | |- preserves _ _ => fail 1
  | |- ∀ _, _ => intro
  end.

(** Runs the symbolic execution one construct further. *)
Ltac wp_step :=
  first
    [ apply wp_bind
    | apply wp_catch
    | apply wp_ret
    | apply wp_throw
    | apply wp_gets
    | apply wp_modify
    | match goal with |- wp (if ?b then _ else _) _ _ _ => destruct b eqn:? end
    | match goal with |- wp (match ?x with _ => _ end) _ _ _ => destruct x eqn:? end ].
