(* ===== verification/RouteTable.v ===== *)
(** * Route table

    Models src/src/routing/route_table.cpp, the owner of the routes this program
    installs, and [NetlinkManager::delete_route_if_exact] of
    src/src/routing/netlink.cpp, over an abstract netlink backend: the kernel's
    tables, libnl, the interface probe and the clock are operations of the class
    [RouteNetlink], which may fail at any call and advance the world as they
    like. Exceptions keep the fields written so far. *)

From Stdlib Require Import ZArith Lia Ascii String.
From stdpp Require Import base gmap strings list.
From S2P Require Import Prelude ConfigTypes RoutingPlan KernelRoutes StateError.
Open Scope Z_scope.

(** ** Data *)

(** [KEEN_PBR_GENERATED_ROUTE_PROTOCOL] *)
Definition KEEN_PBR_GENERATED_ROUTE_PROTOCOL : Z := KEEN_PBR_ROUTE_PROTOCOL.

(** [enum class InterfaceAdminState] *)
Inductive InterfaceAdminState := Unknown | Missing | Down | Up.

(** [enum class RouteAddResult] *)
Inductive RouteAddResult := AddCreated | AddAlreadyPresent.

(** [enum class RouteExactDeleteResult] *)
Inductive RouteExactDeleteResult := Deleted | AlreadyAbsent | PreconditionMismatch.

(** [enum class RouteReconcileMode] *)
Inductive RouteReconcileMode := Strict | DeferredRepair.

(** [enum class RouteInstallOutcome] *)
Inductive RouteInstallOutcome := Created | AlreadyManaged | ReplacedManaged.

(** [enum class RouteRepairLogDecision] *)
Inductive RouteRepairLogDecision := Info | Warning | Suppress.

(** The exceptions: [RouteInterfaceUnavailableError] derives from [NetlinkError],
    whose other uses are told apart by the throw statement. *)
Inductive NetlinkErrorKind :=
| BackendError | EexistRace | ForeignSlot | PostconditionMissed | SlotStillOccupied
| UnreachableInstallState.

Inductive RouteError :=
| RouteInterfaceUnavailableError
| NetlinkError (kind : NetlinkErrorKind).

(** [struct RouteRepairRateState]; times are nanoseconds of the steady clock. *)
Record RouteRepairRateState := {
  recent_repairs : list Z;
  last_warning : option Z;
}.

(** [struct RouteRepairRecord] *)
Record RouteRepairRecord := {
  rr_route : RouteSpec;
  rr_rate : RouteRepairRateState;
  rr_consecutive_deferrals : nat;
  rr_retry_after : option Z;
}.

(** [struct PendingReplacement] *)
Record PendingReplacement := { pr_installed : RouteSpec; pr_previous : list RouteSpec }.

(** The fields of [class RouteTable]. *)
Record RouteTableState := {
  dry_run_ : bool;
  routes_ : list RouteSpec;
  owned_routes_ : list RouteSpec;
  repair_records_ : list RouteRepairRecord;
  pending_replacements_ : list PendingReplacement;
}.

Definition set_routes (l : list RouteSpec) (s : RouteTableState) : RouteTableState :=
  {| dry_run_ := dry_run_ s; routes_ := l; owned_routes_ := owned_routes_ s;
     repair_records_ := repair_records_ s; pending_replacements_ := pending_replacements_ s |}.
Definition set_owned (l : list RouteSpec) (s : RouteTableState) : RouteTableState :=
  {| dry_run_ := dry_run_ s; routes_ := routes_ s; owned_routes_ := l;
     repair_records_ := repair_records_ s; pending_replacements_ := pending_replacements_ s |}.
Definition set_records (l : list RouteRepairRecord) (s : RouteTableState) : RouteTableState :=
  {| dry_run_ := dry_run_ s; routes_ := routes_ s; owned_routes_ := owned_routes_ s;
     repair_records_ := l; pending_replacements_ := pending_replacements_ s |}.
Definition set_pending (l : list PendingReplacement) (s : RouteTableState) : RouteTableState :=
  {| dry_run_ := dry_run_ s; routes_ := routes_ s; owned_routes_ := owned_routes_ s;
     repair_records_ := repair_records_ s; pending_replacements_ := l |}.

(** [std::optional<std::string>] comparison. *)
Definition opt_eqb (a b : option string) : bool :=
  match a, b with
  | Some x, Some y => String.eqb x y
  | None, None => true
  | _, _ => false
  end.

(** [erase(find_if(...))]: drops the first element satisfying [p]. *)
Fixpoint erase_first {A} (p : A → bool) (l : list A) : list A :=
  match l with
  | [] => []
  | x :: l => if p x then l else x :: erase_first p l
  end.

(** A write through the reference to the first element satisfying [p]. *)
Fixpoint update_first {A} (p : A → bool) (y : A) (l : list A) : list A :=
  match l with
  | [] => []
  | x :: l => if p x then y :: l else x :: update_first p y l
  end.

(** ** Route identities *)

Definition routes_equal (a b : RouteSpec) : bool :=
  String.eqb (rt_destination a) (rt_destination b)
  && (rt_table a =? rt_table b)
  && opt_eqb (rt_interface a) (rt_interface b)
  && opt_eqb (rt_gateway a) (rt_gateway b)
  && Bool.eqb (rt_blackhole a) (rt_blackhole b)
  && Bool.eqb (rt_unreachable a) (rt_unreachable b)
  && (rt_family a =? rt_family b)
  && (rt_metric a =? rt_metric b)
  && (rt_protocol a =? rt_protocol b).

Definition route_requires_interface_readiness (route : RouteSpec) : bool :=
  negb (rt_blackhole route) && negb (rt_unreachable route)
  && match rt_interface route with Some i => negb (empty_str i) | None => false end.

Definition interface_is_unavailable (state : InterfaceAdminState) : bool :=
  match state with Unknown | Missing | Down => true | Up => false end.

Definition route_metric_matches_live (expected : RouteSpec) (actual : DumpedRoute) : bool :=
  if rt_metric expected =? dr_metric actual then true
  else (rt_metric expected =? 0) && (dr_metric actual =? 1024)
       && ((rt_family expected =? AF_INET6) || (dr_family actual =? AF_INET6)).

Definition route_matches_live (expected : RouteSpec) (actual : DumpedRoute) : bool :=
  String.eqb (rt_destination expected) (dr_destination actual)
  && (rt_table expected =? dr_table actual)
  && opt_eqb (rt_interface expected) (dr_interface actual)
  && opt_eqb (rt_gateway expected) (dr_gateway actual)
  && Bool.eqb (rt_blackhole expected) (dr_blackhole actual)
  && Bool.eqb (rt_unreachable expected) (dr_unreachable actual)
  && ((rt_family expected =? 0) || (rt_family expected =? dr_family actual))
  && route_metric_matches_live expected actual
  && (rt_protocol expected =? dr_protocol actual).

Definition route_occupies_same_slot (expected : RouteSpec) (actual : DumpedRoute) : bool :=
  String.eqb (rt_destination expected) (dr_destination actual)
  && (rt_table expected =? dr_table actual)
  && ((rt_family expected =? 0) || (rt_family expected =? dr_family actual))
  && route_metric_matches_live expected actual.

Definition route_spec_from_live (route : DumpedRoute) : RouteSpec :=
  {| rt_destination := dr_destination route; rt_table := dr_table route;
     rt_interface := dr_interface route; rt_gateway := dr_gateway route;
     rt_blackhole := dr_blackhole route; rt_unreachable := dr_unreachable route;
     rt_family := dr_family route; rt_metric := dr_metric route;
     rt_protocol := dr_protocol route |}.

Definition is_generated_route_candidate (route : DumpedRoute) : bool :=
  (dr_protocol route =? KEEN_PBR_GENERATED_ROUTE_PROTOCOL)
  && negb (dr_table route =? 0)
  && negb (dr_table route =? 128)
  && ((dr_table route <? 250) || (260 <? dr_table route))
  && (dr_table route <? 32000).

Definition find_missing_live_routes (desired : list RouteSpec) (live : list DumpedRoute)
    : list RouteSpec :=
  List.filter (λ route, negb (existsb (route_matches_live route) live)) desired.

(** ** Repair log rate *)

Definition seconds (n : Z) : Z := n * 1000000000.
Definition minutes (n : Z) : Z := seconds (60 * n).
Definition warning_threshold : nat := 3.

(** [while (!empty && now - front > window) pop_front()] *)
Fixpoint drop_expired (now : Z) (l : list Z) : list Z :=
  match l with
  | t :: l' => if minutes 5 <? now - t then drop_expired now l' else l
  | [] => []
  end.

(** [while (size > warning_threshold) pop_front()] *)
Definition keep_last (n : nat) (l : list Z) : list Z := drop (length l - n) l.

Definition record_route_repair (state : RouteRepairRateState) (now : Z)
    : RouteRepairRateState * RouteRepairLogDecision :=
  let reset := match last (recent_repairs state) with
               | Some t => now <? t
               | None => false
               end in
  let recent := if reset then [] else recent_repairs state in
  let warned := if reset then None else last_warning state in
  let recent := keep_last warning_threshold (drop_expired now recent ++ [now]) in
  if (length recent <? warning_threshold)%nat
  then ({| recent_repairs := recent; last_warning := warned |}, Info)
  else
    let warn := match warned with
                | None => true
                | Some t => (now <? t) || (minutes 5 <=? now - t)
                end in
    if warn then ({| recent_repairs := recent; last_warning := Some now |}, Warning)
    else ({| recent_repairs := recent; last_warning := warned |}, Suppress).

(** ** The netlink backend *)

(** [class RouteNetlinkOperations], the readiness probe and the clock of the
    constructor. [nl_live] is the kernel's content, read only by specifications;
    the program observes it through [nl_dump_routes]. *)
Class RouteNetlink (K : Type) := {
  nl_live : K → list DumpedRoute;
  nl_supports_exact_route_transaction : K → bool;
  nl_add_route : RouteSpec → K → K * result RouteError RouteAddResult;
  nl_replace_route : RouteSpec → K → K * result RouteError unit;
  nl_delete_route : RouteSpec → K → K * result RouteError unit;
  nl_dump_routes : Z → K → K * result RouteError (list DumpedRoute);
  nl_interface_readiness : string → K → K * InterfaceAdminState;
  nl_now : K → K * Z;
}.

Section Operations.
Context {K : Type} `{RouteNetlink K}.

Definition World : Type := RouteTableState * K.
Definition RT (A : Type) : Type := SE World RouteError A.

Definition field {A} (f : RouteTableState → A) : RT A := gets (λ w, f w.1).
Definition update (f : RouteTableState → RouteTableState) : RT unit :=
  modify (λ w, (f w.1, w.2)).
Definition lift {A} (op : K → K * result RouteError A) : RT A :=
  λ w, let '(k', r) := op w.2 in ((w.1, k'), r).
Definition lift_pure {A} (op : K → K * A) : RT A :=
  λ w, let '(k', a) := op w.2 in ((w.1, k'), Ok a).

Definition add_route (spec : RouteSpec) : RT RouteAddResult := lift (nl_add_route spec).
Definition replace_route (spec : RouteSpec) : RT unit := lift (nl_replace_route spec).
Definition delete_route (spec : RouteSpec) : RT unit := lift (nl_delete_route spec).
Definition dump_routes (family : Z) : RT (list DumpedRoute) := lift (nl_dump_routes family).
Definition interface_readiness (name : string) : RT InterfaceAdminState :=
  lift_pure (nl_interface_readiness name).
Definition now : RT Z := lift_pure nl_now.
Definition supports_exact : RT bool := gets (λ w, nl_supports_exact_route_transaction w.2).

(** [detect_family] and [route_family] of netlink.cpp *)
Definition detect_family (addr : string) : Z :=
  if has_char ":" addr then AF_INET6 else AF_INET.

Definition route_family (spec : RouteSpec) : Z :=
  if negb (rt_family spec =? 0) then rt_family spec
  else if String.eqb (rt_destination spec) "default" then AF_INET
  else detect_family (rt_destination spec).

(** The scan of [delete_route_if_exact]: the number of routes in the slot and the
    last representable one that matches. *)
Definition scan_slot (expected : RouteSpec) (live : list DumpedRoute)
    : nat * option DumpedRoute :=
  fold_left (λ acc candidate,
    if negb (route_occupies_same_slot expected candidate) then acc
    else (S acc.1,
          if dr_exact_identity_representable candidate && route_matches_live expected candidate
          then Some candidate else acc.2)) live (0%nat, None).

Definition delete_route_if_exact (expected : RouteSpec) : RT RouteExactDeleteResult :=
  live ← dump_routes (route_family expected);
  match scan_slot expected live with
  | (0%nat, _) => mret AlreadyAbsent
  | (1%nat, Some candidate) =>
      _ ← delete_route (route_spec_from_live candidate);
      after ← dump_routes (route_family expected);
      if existsb (route_occupies_same_slot expected) after
      then throw (NetlinkError SlotStillOccupied)
      else mret Deleted
  | _ => mret PreconditionMismatch
  end.

(** ** Ledgers *)

Definition tracked_in (spec : RouteSpec) (l : list RouteSpec) : bool :=
  existsb (λ r, routes_equal r spec) l.

Definition is_tracked (spec : RouteSpec) : RT bool :=
  field (λ s, tracked_in spec (routes_ s)).

Definition record_of (spec : RouteSpec) (record : RouteRepairRecord) : bool :=
  routes_equal (rr_route record) spec.

(** [repair_record]: the record of the route, created when absent. *)
Definition repair_record (spec : RouteSpec) : RT RouteRepairRecord :=
  records ← field repair_records_;
  match List.find (record_of spec) records with
  | Some record => mret record
  | None =>
      let record := {| rr_route := spec;
                       rr_rate := {| recent_repairs := []; last_warning := None |};
                       rr_consecutive_deferrals := 0; rr_retry_after := None |} in
      _ ← update (set_records (records ++ [record]));
      mret record
  end.

(** Writes through the reference [repair_record] returned. *)
Definition store_record (spec : RouteSpec) (record : RouteRepairRecord) : RT unit :=
  update (λ s, set_records (update_first (record_of spec) record (repair_records_ s)) s).

Definition record_repair (spec : RouteSpec) : RT RouteRepairLogDecision :=
  record ← repair_record spec;
  t ← now;
  let '(rate, decision) := record_route_repair (rr_rate record) t in
  _ ← store_record spec
        {| rr_route := rr_route record; rr_rate := rate;
           rr_consecutive_deferrals := rr_consecutive_deferrals record;
           rr_retry_after := rr_retry_after record |};
  mret decision.

Definition repair_retry_due (spec : RouteSpec) : RT bool :=
  records ← field repair_records_;
  match List.find (record_of spec) records with
  | None => mret true
  | Some record =>
      match rr_retry_after record with
      | None => mret true
      | Some deadline => t ← now; mret (deadline <=? t)
      end
  end.

Definition repair_delays : list Z := seconds <$> [1; 2; 4; 8; 16; 32; 60].

Definition defer_repair (spec : RouteSpec) : RT unit :=
  record ← repair_record spec;
  let deferrals := rr_consecutive_deferrals record in
  let last_delay := (length repair_delays - 1)%nat in
  let delay_index := Nat.min deferrals last_delay in
  t ← now;
  store_record spec
    {| rr_route := rr_route record; rr_rate := rr_rate record;
       rr_consecutive_deferrals := if (deferrals <? last_delay)%nat then S deferrals else deferrals;
       rr_retry_after := Some (t + nth delay_index repair_delays 0) |}.

Definition clear_backoff (record : RouteRepairRecord) : RouteRepairRecord :=
  {| rr_route := rr_route record; rr_rate := rr_rate record;
     rr_consecutive_deferrals := 0; rr_retry_after := None |}.

Definition reset_repair_backoff (spec : RouteSpec) : RT unit :=
  records ← field repair_records_;
  match List.find (record_of spec) records with
  | None => mret ()
  | Some record => store_record spec (clear_backoff record)
  end.

Definition forget_repair_record (spec : RouteSpec) : RT unit :=
  update (λ s, set_records (List.filter (λ r, negb (record_of spec r)) (repair_records_ s)) s).

Definition forget_owned_route (spec : RouteSpec) : RT unit :=
  update (λ s, set_owned (List.filter (λ r, negb (routes_equal r spec)) (owned_routes_ s)) s).

Definition push_route (spec : RouteSpec) : RT unit :=
  update (λ s, set_routes (routes_ s ++ [spec]) s).

Definition push_owned (spec : RouteSpec) : RT unit :=
  update (λ s, set_owned (owned_routes_ s ++ [spec]) s).

Definition pending_of (spec : RouteSpec) (p : PendingReplacement) : bool :=
  routes_equal (pr_installed p) spec.

Definition has_pending (spec : RouteSpec) : RT bool :=
  field (λ s, existsb (pending_of spec) (pending_replacements_ s)).

(** ** Replacement rollback *)

Definition restore_pending_replacement (installed : RouteSpec) : RT bool :=
  pendings ← field pending_replacements_;
  match List.find (pending_of installed) pendings with
  | None => mret false
  | Some pending =>
      catch
        (_ ← match pr_previous pending with
             | [] => delete_route installed
             | front :: rest =>
                 _ ← replace_route front;
                 mfor (λ previous, _ ← add_route previous; mret ()) rest
             end;
         _ ← update (λ s, set_pending (erase_first (pending_of installed)
                                         (pending_replacements_ s)) s);
         mret true)
        (λ _, mret false)
  end.

Definition finalize_pending_replacements : RT unit := update (set_pending []).

Definition rollback_pending_replacements : RT unit :=
  installed ← field (λ s, pr_installed <$> rev (pending_replacements_ s));
  mfor (λ route,
    restored ← restore_pending_replacement route;
    if restored : bool then forget_owned_route route else mret ()) installed.

(** ** Installation *)

(** [needs_interface && interface_is_unavailable(probe(interface))] *)
Definition interface_lost (spec : RouteSpec) : RT bool :=
  if route_requires_interface_readiness spec then
    state ← interface_readiness (default EmptyString (rt_interface spec));
    mret (interface_is_unavailable state)
  else mret false.

(** The replacement of managed collisions, with the rollback receipt first. *)
Definition replace_managed (spec : RouteSpec) (collisions : list DumpedRoute)
    : RT RouteInstallOutcome :=
  _ ← update (λ s, set_pending
        (pending_replacements_ s
         ++ [{| pr_installed := spec; pr_previous := route_spec_from_live <$> collisions |}]) s);
  _ ← catch
        (_ ← replace_route spec;
         replaced ← dump_routes (rt_family spec);
         if existsb (route_matches_live spec) replaced then mret ()
         else throw (NetlinkError PostconditionMissed))
        (λ e, _ ← restore_pending_replacement spec; throw e);
  mret ReplacedManaged.

(** One iteration of the two-attempt loop; [None] is [continue]. *)
Definition install_attempt (spec : RouteSpec) (attempt : nat) : RT (option RouteInstallOutcome) :=
  added ← add_route spec;
  match added with
  | AddCreated => mret (Some Created)
  | AddAlreadyPresent =>
      live ← dump_routes (rt_family spec);
      if existsb (route_matches_live spec) live
         && (rt_protocol spec =? KEEN_PBR_GENERATED_ROUTE_PROTOCOL)
      then mret (Some AlreadyManaged)
      else
        let collisions := List.filter (route_occupies_same_slot spec) live in
        match collisions with
        | [] => if (attempt =? 0)%nat then mret None else throw (NetlinkError EexistRace)
        | _ =>
            if (rt_protocol spec =? KEEN_PBR_GENERATED_ROUTE_PROTOCOL)
               && forallb (λ c, dr_protocol c =? KEEN_PBR_GENERATED_ROUTE_PROTOCOL) collisions
            then outcome ← replace_managed spec collisions; mret (Some outcome)
            else throw (NetlinkError ForeignSlot)
        end
  end.

Definition add_route_checked (spec : RouteSpec) : RT RouteInstallOutcome :=
  lost ← interface_lost spec;
  if lost : bool then throw RouteInterfaceUnavailableError
  else
    catch
      (first ← install_attempt spec 0;
       match first with
       | Some outcome => mret outcome
       | None =>
           second ← install_attempt spec 1;
           match second with
           | Some outcome => mret outcome
           | None => throw (NetlinkError UnreachableInstallState)
           end
       end)
      (λ e, match e with
            | RouteInterfaceUnavailableError => throw e
            | NetlinkError _ =>
                lost ← interface_lost spec;
                if lost : bool then throw RouteInterfaceUnavailableError else throw e
            end).

Definition add (spec : RouteSpec) : RT unit :=
  tracked ← is_tracked spec;
  if tracked : bool then mret ()
  else
    dry_run ← field dry_run_;
    if dry_run : bool then _ ← push_route spec; push_owned spec
    else
      outcome ← catch (add_route_checked spec)
        (λ e,
          pending ← has_pending spec;
          _ ← (if pending : bool then _ ← push_route spec; push_owned spec else mret ());
          throw e);
      _ ← push_route spec;
      match outcome with
      | Created | ReplacedManaged => push_owned spec
      | AlreadyManaged => mret ()
      end.

(** The destructive request of [remove] on an owned route; [false] keeps the
    ledgers. *)
Definition release_owned (spec owned : RouteSpec) : RT bool :=
  pending ← has_pending spec;
  if pending : bool then restore_pending_replacement spec
  else
    catch
      (exact ← supports_exact;
       if exact : bool then
         receipt ← delete_route_if_exact owned;
         match receipt with
         | PreconditionMismatch => mret false
         | Deleted | AlreadyAbsent => mret true
         end
       else _ ← delete_route owned; mret true)
      (λ _, mret false).

Definition remove (spec : RouteSpec) : RT bool :=
  tracked ← is_tracked spec;
  if negb tracked then mret true
  else
    owned ← field (λ s, List.find (λ r, routes_equal r spec) (owned_routes_ s));
    dry_run ← field dry_run_;
    released ← match owned with
               | Some owned_it => if dry_run : bool then mret true else release_owned spec owned_it
               | None => mret true
               end;
    if released : bool then
      _ ← update (λ s, set_owned (erase_first (λ r, routes_equal r spec) (owned_routes_ s)) s);
      _ ← forget_repair_record spec;
      _ ← update (λ s, set_routes (erase_first (λ r, routes_equal r spec) (routes_ s)) s);
      mret true
    else mret false.

(** ** Reconciliation *)

Definition prune_records (desired : list RouteSpec) : RT unit :=
  update (λ s, set_records
    (List.filter (λ record, existsb (routes_equal (rr_route record)) desired)
       (repair_records_ s)) s).

(** The first loop over the live dump. *)
Definition settle_present (desired : list RouteSpec) (live : list DumpedRoute) : RT unit :=
  mfor (λ route,
    tracked ← is_tracked route;
    if tracked && existsb (route_matches_live route) live
    then reset_repair_backoff route else mret ()) desired.

(** The body of the loop over [missing_live]; the accumulator is
    [desired_live_complete]. *)
Definition repair_missing (mode : RouteReconcileMode) (complete : bool) (route : RouteSpec)
    : RT bool :=
  tracked ← is_tracked route;
  if negb tracked then mret complete
  else
    _ ← forget_owned_route route;
    due ← match mode with
          | DeferredRepair => repair_retry_due route
          | Strict => mret true
          end;
    if negb due then mret false
    else
      result ← catch (o ← add_route_checked route; mret (Some o))
        (λ e, match e, mode with
              | RouteInterfaceUnavailableError, DeferredRepair =>
                  _ ← defer_repair route; mret None
              | _, _ => throw e
              end);
      match result with
      | None => mret false
      | Some outcome =>
          _ ← match outcome with
              | Created | ReplacedManaged =>
                  already_owned ← field (λ s, tracked_in route (owned_routes_ s));
                  _ ← (if already_owned : bool then mret () else push_owned route);
                  _ ← record_repair route;
                  mret ()
              | AlreadyManaged => mret ()
              end;
          _ ← match mode with
              | DeferredRepair => defer_repair route
              | Strict => reset_repair_backoff route
              end;
          mret complete
      end.

(** The body of the last loop of [add_missing]. *)
Definition add_untracked (mode : RouteReconcileMode) (route : RouteSpec) : RT unit :=
  tracked ← is_tracked route;
  if tracked : bool then mret ()
  else
    due ← match mode with
          | DeferredRepair => repair_retry_due route
          | Strict => mret true
          end;
    if negb due then throw RouteInterfaceUnavailableError
    else
      catch (_ ← add route; reset_repair_backoff route)
        (λ e, match e, mode with
              | RouteInterfaceUnavailableError, DeferredRepair =>
                  _ ← defer_repair route; throw e
              | _, _ => throw e
              end).

Definition add_missing (desired : list RouteSpec) (mode : RouteReconcileMode) : RT bool :=
  _ ← prune_records desired;
  dry_run ← field dry_run_;
  complete ← (if dry_run : bool then mret true
              else
                live ← dump_routes 0;
                _ ← settle_present desired live;
                mfold (repair_missing mode) true (find_missing_live_routes desired live));
  _ ← mfor (add_untracked mode) desired;
  mret complete.

Definition adopt_live_generated_desired (desired : list RouteSpec) : RT unit :=
  dry_run ← field dry_run_;
  if dry_run : bool then mret ()
  else
    catch
      (live ← dump_routes 0;
       owned ← field owned_routes_;
       let committed := fold_left (λ committed expected,
         if negb (rt_protocol expected =? KEEN_PBR_GENERATED_ROUTE_PROTOCOL) then committed
         else if existsb (route_matches_live expected) live
                 && negb (tracked_in expected committed)
         then committed ++ [expected] else committed) desired owned in
       update (set_owned committed))
      (λ _, mret ()).

(** The body of the loop of [adopt_generated_orphans]. *)
Definition adopt_orphan (desired : list RouteSpec) (actual : DumpedRoute) : RT unit :=
  if negb (is_generated_route_candidate actual)
     || existsb (λ candidate, route_matches_live candidate actual) desired
  then mret ()
  else
    let orphan := route_spec_from_live actual in
    tracked ← is_tracked orphan;
    _ ← (if tracked : bool then mret () else push_route orphan);
    owned ← field (λ s, tracked_in orphan (owned_routes_ s));
    if owned : bool then mret () else push_owned orphan.

Definition adopt_generated_orphans (desired : list RouteSpec) : RT unit :=
  dry_run ← field dry_run_;
  if dry_run : bool then mret ()
  else live ← dump_routes 0; mfor (adopt_orphan desired) live.

(** The removal of one route of a snapshot, shared by [remove_obsolete] and
    [clear]; the accumulator is [uncertain_tables]. *)
Definition retire (protected_tables uncertain_tables : gset Z) (route : RouteSpec) : RT (gset Z) :=
  if decide (rt_table route ∈ protected_tables)
  then mret ({[ rt_table route ]} ∪ uncertain_tables)
  else
    removed ← remove route;
    if removed : bool then mret uncertain_tables
    else mret ({[ rt_table route ]} ∪ uncertain_tables).

Definition remove_obsolete (desired : list RouteSpec) (protected_tables : gset Z)
    : RT (gset Z) :=
  _ ← adopt_generated_orphans desired;
  current ← field routes_;
  mfold (λ uncertain route,
    if existsb (routes_equal route) desired then mret uncertain
    else retire protected_tables uncertain route) ∅ current.

Definition live_generated_route_tables : RT (gset Z) :=
  dry_run ← field dry_run_;
  if dry_run : bool then mret ∅
  else
    live ← dump_routes 0;
    mret (list_to_set (dr_table <$> List.filter is_generated_route_candidate live)).

Definition adopt_exact_state (desired owned : list RouteSpec) : RT unit :=
  update (λ s, {| dry_run_ := dry_run_ s; routes_ := desired; owned_routes_ := owned;
                  repair_records_ := []; pending_replacements_ := [] |}).

Definition adopt_desired (desired : list RouteSpec) : RT unit :=
  update (λ s, {| dry_run_ := dry_run_ s; routes_ := desired; owned_routes_ := [];
                  repair_records_ := []; pending_replacements_ := [] |}).

Definition notify_interface_up (interface_name : string) : RT unit :=
  if empty_str interface_name then mret ()
  else update (λ s, set_records
         ((λ record, if opt_eqb (rt_interface (rr_route record)) (Some interface_name)
                     then clear_backoff record else record) <$> repair_records_ s) s).

Definition clear (protected_tables : gset Z) : RT (gset Z) :=
  tracked ← field routes_;
  uncertain ← mfold (retire protected_tables) ∅ (rev tracked);
  _ ← update (set_records []);
  mret uncertain.

Definition reconcile (desired : list RouteSpec) (mode : RouteReconcileMode) : RT unit :=
  _ ← add_missing desired mode;
  _ ← finalize_pending_replacements;
  _ ← remove_obsolete desired ∅;
  adopt_live_generated_desired desired.
End Operations.

Arguments World K : clear implicits.
Arguments RT K A : clear implicits.
