(* ===== verification/RouteTableSafety.v ===== *)
(** * Route table: foreign routes

    What the route table may rely on from the kernel (class
    [RouteNetlinkLaws]), and the ownership guarantee proved from it: whatever
    calls are made and whichever of them fail, the routes that do not carry the
    program's protocol number are neither removed nor created. The laws speak of
    one call at a time, so the guarantee is for periods in which no other process
    writes the same tables. *)

From Stdlib Require Import ZArith Lia Ascii String.
From stdpp Require Import base gmap strings list.
From S2P Require Import Prelude ConfigTypes RoutingPlan KernelRoutes StateError RouteTable.
Open Scope Z_scope.

(** ** The kernel's contract *)

Section Contract.
Context {K : Type} `{RouteNetlink K}.

(** The kernel can report a route in the slot of the specification: its
    destination is in the kernel's spelling, its table is explicit. *)
Definition addressable (spec : RouteSpec) : Prop :=
  ∃ k d, d ∈ nl_live k ∧ route_occupies_same_slot spec d = true.
End Contract.

(** Documented behaviour of rtnetlink: a dump is complete for its family and
    reports concrete families; [NLM_F_EXCL] creation leaves the existing routes
    alone; [NLM_F_REPLACE] displaces only routes of the same slot; [RTM_DELROUTE]
    with a protocol removes only routes of that protocol. Each law covers the
    failing calls too. *)
Class RouteNetlinkLaws (K : Type) `{RouteNetlink K} : Prop := {
  law_live_family k d : d ∈ nl_live k → dr_family d ≠ 0;
  law_dump_keeps f k d : d ∈ nl_live (nl_dump_routes f k).1 ↔ d ∈ nl_live k;
  law_dump_exact f k l d :
    (nl_dump_routes f k).2 = Ok l → d ∈ l ↔ d ∈ nl_live k ∧ (f = 0 ∨ dr_family d = f);
  law_add_keeps spec k d : d ∈ nl_live k → d ∈ nl_live (nl_add_route spec k).1;
  law_add_new spec k d :
    d ∈ nl_live (nl_add_route spec k).1 → d ∈ nl_live k ∨ dr_protocol d = rt_protocol spec;
  law_replace_keeps spec k d :
    addressable spec → d ∈ nl_live k → route_occupies_same_slot spec d = false →
    d ∈ nl_live (nl_replace_route spec k).1;
  law_replace_new spec k d :
    d ∈ nl_live (nl_replace_route spec k).1 → d ∈ nl_live k ∨ dr_protocol d = rt_protocol spec;
  law_delete_keeps spec k d :
    rt_protocol spec ≠ 0 → d ∈ nl_live k → dr_protocol d ≠ rt_protocol spec →
    d ∈ nl_live (nl_delete_route spec k).1;
  law_delete_new spec k d : d ∈ nl_live (nl_delete_route spec k).1 → d ∈ nl_live k;
  law_probe_keeps name k d : d ∈ nl_live (nl_interface_readiness name k).1 ↔ d ∈ nl_live k;
  law_now_keeps k d : d ∈ nl_live (nl_now k).1 ↔ d ∈ nl_live k;
}.

(** ** Identities *)

Lemma opt_eqb_eq a b : opt_eqb a b = true ↔ a = b.
Proof.
  destruct a, b; simpl; rewrite ?String.eqb_eq; split; intros; simplify_eq; done.
Qed.

Ltac route_bool :=
  repeat match goal with
  | H : (_ && _) = true |- _ => apply andb_true_iff in H as [? ?]
  | H : String.eqb _ _ = true |- _ => apply String.eqb_eq in H
  | H : opt_eqb _ _ = true |- _ => apply opt_eqb_eq in H
  | H : Bool.eqb _ _ = true |- _ => apply Bool.eqb_prop in H
  | H : (_ =? _) = true |- _ => apply Z.eqb_eq in H
  end.

Lemma routes_equal_eq a b : routes_equal a b = true ↔ a = b.
Proof.
  split.
  - unfold routes_equal. intros Heq. route_bool. destruct a, b. simpl in *. by subst.
  - intros ->. unfold routes_equal.
    rewrite String.eqb_refl, !Z.eqb_refl, !Bool.eqb_reflx.
    by rewrite !(proj2 (opt_eqb_eq _ _)).
Qed.

#[export] Instance RouteSpec_eq_dec : EqDecision RouteSpec.
Proof. solve_decision. Defined.

Lemma tracked_in_elem spec l : tracked_in spec l = true ↔ spec ∈ l.
Proof.
  unfold tracked_in. rewrite existsb_exists. split.
  - intros (r & Hr & ->%routes_equal_eq). by apply list_elem_of_In.
  - intros Hin. exists spec. split; [by apply list_elem_of_In | by apply routes_equal_eq].
Qed.

Lemma metric_matches_eq expected actual :
  route_metric_matches_live expected actual = true ↔
  rt_metric expected = dr_metric actual
  ∨ (rt_metric expected = 0 ∧ dr_metric actual = 1024
     ∧ (rt_family expected = AF_INET6 ∨ dr_family actual = AF_INET6)).
Proof.
  unfold route_metric_matches_live.
  destruct (Z.eqb_spec (rt_metric expected) (dr_metric actual)); [tauto|].
  rewrite !andb_true_iff, orb_true_iff, !Z.eqb_eq. tauto.
Qed.

Lemma occupies_eq expected actual :
  route_occupies_same_slot expected actual = true ↔
  rt_destination expected = dr_destination actual ∧ rt_table expected = dr_table actual
  ∧ (rt_family expected = 0 ∨ rt_family expected = dr_family actual)
  ∧ route_metric_matches_live expected actual = true.
Proof.
  unfold route_occupies_same_slot.
  rewrite !andb_true_iff, orb_true_iff, String.eqb_eq, !Z.eqb_eq. tauto.
Qed.

Lemma occupies_from_live d : route_occupies_same_slot (route_spec_from_live d) d = true.
Proof. apply occupies_eq. rewrite metric_matches_eq. simpl. tauto. Qed.

(** The slot of a route found in the slot of [spec] is inside the slot of [spec]. *)
Lemma occupies_transfer spec c d :
  dr_family c ≠ 0 → route_occupies_same_slot spec c = true →
  route_occupies_same_slot (route_spec_from_live c) d = true →
  route_occupies_same_slot spec d = true.
Proof.
  rewrite !occupies_eq, !metric_matches_eq. unfold AF_INET6. simpl.
  intros Hfam (-> & -> & Hf & Hm) (-> & -> & Hf' & Hm').
  assert (dr_family c = dr_family d) as Hcd by tauto. rewrite Hcd in *.
  split; [done|]. split; [done|]. split; [done|]. lia.
Qed.

(** ** Ledger lists *)

Lemma Forall_filter_bool {A} (P : A → Prop) (p : A → bool) l :
  Forall P l → Forall P (List.filter p l).
Proof.
  rewrite !Forall_forall. intros HP x Hx%list_elem_of_In%filter_In.
  apply HP, list_elem_of_In. tauto.
Qed.

Lemma Forall_erase_first {A} (P : A → Prop) (p : A → bool) l :
  Forall P l → Forall P (erase_first p l).
Proof. induction 1; simpl; [done|]. destruct (p _); auto. Qed.

Lemma find_Forall {A} (P : A → Prop) p l x : Forall P l → List.find p l = Some x → P x ∧ p x = true.
Proof.
  intros HP Hx%find_some. rewrite Forall_forall in HP. split; [|tauto].
  apply HP, list_elem_of_In. tauto.
Qed.

Lemma scan_slot_match expected live n d :
  scan_slot expected live = (n, Some d) → route_matches_live expected d = true ∧ d ∈ live.
Proof.
  unfold scan_slot.
  assert (∀ l acc, (∀ d, acc.2 = Some d → route_matches_live expected d = true ∧ d ∈ live) →
    (∀ d, d ∈ l → d ∈ live) →
    ∀ n d, fold_left (λ acc candidate,
      if negb (route_occupies_same_slot expected candidate) then acc
      else (S acc.1,
            if dr_exact_identity_representable candidate && route_matches_live expected candidate
            then Some candidate else acc.2)) l acc = (n, Some d) →
    route_matches_live expected d = true ∧ d ∈ live) as Hgen.
  { induction l as [|c l IH]; intros acc Hacc Hl m e; simpl; [intros ->; by apply Hacc|].
    apply IH; [|intros; apply Hl; by right]. destruct (negb _); [done|]. intros e'. simpl.
    destruct (_ && _) eqn:Hb; [|apply Hacc]. intros [= <-]. apply andb_true_iff in Hb.
    split; [tauto|]. apply Hl. by left. }
  intros Heq. eapply Hgen; [| |exact Heq]; [done|done].
Qed.

Lemma matches_protocol spec d : route_matches_live spec d = true → rt_protocol spec = dr_protocol d.
Proof. unfold route_matches_live. intros Hm. by route_bool. Qed.

Lemma missing_sub desired live r : r ∈ find_missing_live_routes desired live → r ∈ desired.
Proof. rewrite !list_elem_of_In. unfold find_missing_live_routes. rewrite filter_In. tauto. Qed.

Lemma elem_of_erase_first (l : list RouteSpec) r e :
  e ≠ r → e ∈ erase_first (λ x, routes_equal x r) l ↔ e ∈ l.
Proof.
  intros Hne. induction l as [|x l IH]; simpl; [done|]. destruct (routes_equal x r) eqn:Hx.
  - apply routes_equal_eq in Hx as ->. set_solver.
  - set_solver.
Qed.

Lemma scan_slot_count spec live n o :
  scan_slot spec live = (n, o) → n = length (List.filter (route_occupies_same_slot spec) live).
Proof.
  unfold scan_slot.
  assert (∀ l acc, (fold_left (λ acc candidate,
      if negb (route_occupies_same_slot spec candidate) then acc
      else (S acc.1,
            if dr_exact_identity_representable candidate && route_matches_live spec candidate
            then Some candidate else acc.2)) l acc).1
    = (acc.1 + length (List.filter (route_occupies_same_slot spec) l))%nat) as Hgen.
  { induction l as [|c l IH]; intros acc; simpl; [lia|]. rewrite IH.
    destruct (route_occupies_same_slot spec c); simpl; lia. }
  intros Heq. specialize (Hgen live (0%nat, None)). rewrite Heq in Hgen. exact Hgen.
Qed.

(** ** Foreign routes *)

Definition foreign (d : DumpedRoute) : Prop := dr_protocol d ≠ KEEN_PBR_GENERATED_ROUTE_PROTOCOL.
Definition managed (spec : RouteSpec) : Prop :=
  rt_protocol spec = KEEN_PBR_GENERATED_ROUTE_PROTOCOL.

Section Safety.
Context {K : Type} `{HL : RouteNetlinkLaws K}.
Context (F : DumpedRoute → Prop).

(** The slot of a rollback receipt holds no foreign route. *)
Definition receipt_ok (q : RouteSpec) : Prop :=
  managed q ∧ addressable q ∧
  ∀ d, foreign d → F d → route_occupies_same_slot q d = false.

Definition pending_ok (p : PendingReplacement) : Prop :=
  managed (pr_installed p) ∧ Forall receipt_ok (pr_previous p).

(** [F] is the set of the foreign routes, and every ledger entry that a later
    call may turn into a destructive request is managed. *)
Definition kernel_ok (k : K) : Prop := ∀ d, foreign d → (d ∈ nl_live k ↔ F d).

Definition ledger_ok (s : RouteTableState) : Prop :=
  Forall managed (owned_routes_ s) ∧ Forall pending_ok (pending_replacements_ s).

Definition owned_inv (w : World K) : Prop := kernel_ok w.2 ∧ ledger_ok w.1.

Lemma preserves_update f :
  (∀ s, ledger_ok s → ledger_ok (f s)) → preserves owned_inv (update f).
Proof. intros Hf [s k] [? ?]. split; simpl; auto. Qed.

Lemma preserves_field {A} (f : RouteTableState → A) : preserves owned_inv (field f).
Proof. apply preserves_gets. Qed.

Lemma preserves_supports_exact : preserves owned_inv supports_exact.
Proof. apply preserves_gets. Qed.

Lemma preserves_lift {A} (op : K → K * result RouteError A) :
  (∀ k, kernel_ok k → kernel_ok (op k).1) → preserves owned_inv (lift op).
Proof.
  intros Hop [s k] [Hk Hs]. unfold lift. simpl. specialize (Hop k Hk).
  by destruct (op k) as [k' r].
Qed.

Lemma preserves_lift_pure {A} (op : K → K * A) :
  (∀ k, kernel_ok k → kernel_ok (op k).1) → preserves owned_inv (lift_pure op).
Proof.
  intros Hop [s k] [Hk Hs]. unfold lift_pure. simpl. specialize (Hop k Hk).
  by destruct (op k) as [k' r].
Qed.

(** *** The primitives *)

Lemma preserves_dump f : preserves owned_inv (dump_routes f).
Proof. apply preserves_lift. intros k Hk d Hd. rewrite law_dump_keeps. by apply Hk. Qed.

Lemma preserves_readiness name : preserves owned_inv (interface_readiness name).
Proof. apply preserves_lift_pure. intros k Hk d Hd. rewrite law_probe_keeps. by apply Hk. Qed.

Lemma preserves_now : preserves owned_inv now.
Proof. apply preserves_lift_pure. intros k Hk d Hd. rewrite law_now_keeps. by apply Hk. Qed.

Lemma preserves_add_route spec : managed spec → preserves owned_inv (add_route spec).
Proof.
  intros Hm. apply preserves_lift. intros k Hk d Hd. rewrite <- (Hk d Hd). split.
  - intros [?|Hp]%law_add_new; [done|]. by rewrite Hm in Hp.
  - apply law_add_keeps.
Qed.

Lemma preserves_delete_route spec : managed spec → preserves owned_inv (delete_route spec).
Proof.
  intros Hm. apply preserves_lift. intros k Hk d Hd. rewrite <- (Hk d Hd). split.
  - apply law_delete_new.
  - intros Hin. apply law_delete_keeps; [by rewrite Hm | done | by rewrite Hm].
Qed.

Lemma preserves_replace_route spec : receipt_ok spec → preserves owned_inv (replace_route spec).
Proof.
  intros (Hm & Ha & Hf). apply preserves_lift. intros k Hk d Hd. rewrite <- (Hk d Hd). split.
  - intros [?|Hp]%law_replace_new; [done|]. by rewrite Hm in Hp.
  - intros Hin. apply law_replace_keeps; [done|done|]. apply Hf; [done|]. by apply Hk.
Qed.

Lemma ledger_same s s' :
  owned_routes_ s' = owned_routes_ s → pending_replacements_ s' = pending_replacements_ s →
  ledger_ok s → ledger_ok s'.
Proof. unfold ledger_ok. by intros -> ->. Qed.

Lemma preserves_update_same f :
  (∀ s, owned_routes_ (f s) = owned_routes_ s) →
  (∀ s, pending_replacements_ (f s) = pending_replacements_ s) → preserves owned_inv (update f).
Proof. intros Ho Hp. apply preserves_update. intros s. by apply ledger_same. Qed.

Lemma preserves_set_owned (f : RouteTableState → list RouteSpec) :
  (∀ s, Forall managed (owned_routes_ s) → Forall managed (f s)) →
  preserves owned_inv (update (λ s, set_owned (f s) s)).
Proof. intros Hf. apply preserves_update. intros s [??]. split; simpl; auto. Qed.

Lemma preserves_set_pending (f : RouteTableState → list PendingReplacement) :
  (∀ s, Forall pending_ok (pending_replacements_ s) → Forall pending_ok (f s)) →
  preserves owned_inv (update (λ s, set_pending (f s) s)).
Proof. intros Hf. apply preserves_update. intros s [??]. split; simpl; auto. Qed.

(** *** Ledger operations *)

Lemma preserves_store_record spec r : preserves owned_inv (store_record spec r).
Proof. by apply preserves_update_same. Qed.

Lemma preserves_set_records l : preserves owned_inv (update (set_records l)).
Proof. by apply preserves_update_same. Qed.

Lemma preserves_push_route spec : preserves owned_inv (push_route spec).
Proof. by apply preserves_update_same. Qed.

Lemma preserves_push_owned spec : managed spec → preserves owned_inv (push_owned spec).
Proof.
  intros Hm. apply preserves_set_owned. intros s Hs. apply Forall_app. split; [done|].
  by apply Forall_singleton.
Qed.

Lemma preserves_forget_owned spec : preserves owned_inv (forget_owned_route spec).
Proof. apply preserves_set_owned. intros s. apply Forall_filter_bool. Qed.

Lemma preserves_forget_record spec : preserves owned_inv (forget_repair_record spec).
Proof. by apply preserves_update_same. Qed.

Lemma preserves_prune desired : preserves owned_inv (prune_records desired).
Proof. by apply preserves_update_same. Qed.

Lemma preserves_finalize : preserves owned_inv finalize_pending_replacements.
Proof. apply (preserves_set_pending (λ _, [])). constructor. Qed.

#[local] Hint Resolve preserves_field preserves_supports_exact preserves_dump
  preserves_readiness preserves_now preserves_add_route preserves_delete_route
  preserves_replace_route preserves_store_record preserves_set_records preserves_push_route
  preserves_push_owned preserves_forget_owned preserves_forget_record preserves_prune
  preserves_finalize : preserves.

(** *** Rollback and exact deletion *)

Lemma preserves_repair_record spec : preserves owned_inv (repair_record spec).
Proof. unfold repair_record. preserve. Qed.
#[local] Hint Resolve preserves_repair_record : preserves.

Lemma preserves_record_repair spec : preserves owned_inv (record_repair spec).
Proof. unfold record_repair. preserve. Qed.

Lemma preserves_retry_due spec : preserves owned_inv (repair_retry_due spec).
Proof. unfold repair_retry_due. preserve. Qed.

Lemma preserves_defer spec : preserves owned_inv (defer_repair spec).
Proof. unfold defer_repair. preserve. Qed.

Lemma preserves_reset spec : preserves owned_inv (reset_repair_backoff spec).
Proof. unfold reset_repair_backoff. preserve. Qed.
#[local] Hint Resolve preserves_record_repair preserves_retry_due preserves_defer
  preserves_reset : preserves.

(** Reads of a field, with what the invariant says of it. *)
Lemma preserves_bind_field {A B} (R : A → Prop) (f : RouteTableState → A) (c : A → RT K B) :
  (∀ s, ledger_ok s → R (f s)) → (∀ a, R a → preserves owned_inv (c a)) →
  preserves owned_inv (mbind c (field f)).
Proof.
  intros HR. apply preserves_bind_fact; [apply preserves_field|].
  intros w w' a [_ Hs] [= _ <-]. by apply HR.
Qed.

Lemma preserves_restore spec : preserves owned_inv (restore_pending_replacement spec).
Proof.
  apply (preserves_bind_field (Forall pending_ok)); [by intros s [_ Hp]|].
  intros pendings Hp. destruct (List.find _ _) as [p|] eqn:Hfind; [|preserve].
  destruct (find_Forall _ _ _ _ Hp Hfind) as [[Hm Hprev] Heq%routes_equal_eq]. subst spec.
  apply preserves_catch; [|preserve]. apply preserves_bind.
  - destruct (pr_previous p) as [|front rest]; [preserve|]. inversion_clear Hprev as [|?? Hf Hr].
    apply preserves_bind; [preserve|]. intros _. apply preserves_mfor. intros q Hq.
    rewrite Forall_forall in Hr. destruct (Hr q Hq) as [Hmq _]. preserve.
  - intros _. apply preserves_bind; [|preserve]. apply preserves_set_pending.
    intros s. apply Forall_erase_first.
Qed.
#[local] Hint Resolve preserves_restore : preserves.

Lemma preserves_delete_exact spec : managed spec → preserves owned_inv (delete_route_if_exact spec).
Proof.
  intros Hm. unfold delete_route_if_exact. apply preserves_bind; [preserve|]. intros live.
  destruct (scan_slot spec live) as [[|[|n]] [c|]] eqn:Hscan; try preserve.
  apply scan_slot_match in Hscan as [Hc%matches_protocol _].
  assert (managed (route_spec_from_live c)) by (unfold managed in *; simpl; congruence).
  preserve.
Qed.
#[local] Hint Resolve preserves_delete_exact : preserves.

(** *** Installation *)

(** What a dump of the family of [spec] tells about the slot of [spec]. *)
Definition dump_facts (family : Z) (live : list DumpedRoute) : Prop :=
  (∀ d, foreign d → F d → family = 0 ∨ dr_family d = family → d ∈ live)
  ∧ ∀ d, d ∈ live → dr_family d ≠ 0 ∧ ∃ k : K, d ∈ nl_live k.

Lemma preserves_bind_dump {B} family (c : list DumpedRoute → RT K B) :
  (∀ live, dump_facts family live → preserves owned_inv (c live)) →
  preserves owned_inv (mbind c (dump_routes family)).
Proof.
  apply preserves_bind_fact; [preserve|]. intros [s k] w' live [Hk _] Hd.
  unfold dump_routes, lift in Hd. simpl in Hd.
  destruct (nl_dump_routes family k) as [k' r] eqn:Hdump. injection Hd as <- ->.
  pose proof (law_dump_exact family k live) as Hex. rewrite Hdump in Hex. split.
  - intros d Hd HF Hf. apply Hex; [done|]. split; [by apply Hk | done].
  - intros d Hd. apply Hex in Hd as [Hd _]; [|done]. split; [by eapply law_live_family | by exists k].
Qed.

Lemma collisions_receipts spec live :
  dump_facts (rt_family spec) live → managed spec →
  forallb (λ c, dr_protocol c =? KEEN_PBR_GENERATED_ROUTE_PROTOCOL)
    (List.filter (route_occupies_same_slot spec) live) = true →
  (List.filter (route_occupies_same_slot spec) live ≠ [] → receipt_ok spec)
  ∧ Forall receipt_ok (route_spec_from_live <$> List.filter (route_occupies_same_slot spec) live).
Proof.
  intros [Hforeign Hlive] Hm Hall. rewrite forallb_forall in Hall.
  assert (∀ d, foreign d → F d → route_occupies_same_slot spec d = false) as Hfree.
  { intros d Hd HF. apply not_true_iff_false. intros Hocc. apply Hd. apply Z.eqb_eq, Hall.
    apply filter_In. split; [|done]. apply list_elem_of_In, Hforeign; [done|done|].
    apply occupies_eq in Hocc as (_ & _ & [->| ->] & _); tauto. }
  split.
  - intros Hne. split; [done|]. split; [|done].
    destruct (List.filter _ _) as [|c cs] eqn:Hcs; [done|].
    assert (In c (List.filter (route_occupies_same_slot spec) live)) as Hc
      by (rewrite Hcs; by left).
    apply filter_In in Hc as [Hc%list_elem_of_In Hocc]. destruct (Hlive c Hc) as [_ [k Hk]].
    by exists k, c.
  - apply Forall_fmap, Forall_forall. intros c Hc%list_elem_of_In. simpl.
    pose proof (Hall c Hc) as Hp%Z.eqb_eq. apply filter_In in Hc as [Hc%list_elem_of_In Hocc].
    destruct (Hlive c Hc) as [Hfam [k Hk]]. split; [done|]. split.
    + exists k, c. split; [done | apply occupies_from_live].
    + intros d Hd HF. apply not_true_iff_false. intros Hocc'.
      pose proof (Hfree d Hd HF) as Hno. by rewrite (occupies_transfer spec c d) in Hno.
Qed.

Lemma preserves_replace_managed spec live :
  dump_facts (rt_family spec) live → managed spec →
  List.filter (route_occupies_same_slot spec) live ≠ [] →
  forallb (λ c, dr_protocol c =? KEEN_PBR_GENERATED_ROUTE_PROTOCOL)
    (List.filter (route_occupies_same_slot spec) live) = true →
  preserves owned_inv
    (replace_managed spec (List.filter (route_occupies_same_slot spec) live)).
Proof.
  intros Hd Hm Hne Hall. destruct (collisions_receipts spec live Hd Hm Hall) as [Hspec Hprev].
  specialize (Hspec Hne). unfold replace_managed. apply preserves_bind; [|preserve].
  apply preserves_set_pending. intros s Hs. apply Forall_app. split; [done|].
  by apply Forall_singleton.
Qed.

Lemma preserves_interface_lost spec : preserves owned_inv (interface_lost spec).
Proof. unfold interface_lost. preserve. Qed.
#[local] Hint Resolve preserves_interface_lost : preserves.

Lemma preserves_install_attempt spec n :
  managed spec → preserves owned_inv (install_attempt spec n).
Proof.
  intros Hm. unfold install_attempt. apply preserves_bind; [preserve|]. intros [|]; [preserve|].
  apply preserves_bind_dump. intros live Hd. destruct (_ && _); [preserve|]. cbv zeta.
  destruct (List.filter _ live) as [|c cs] eqn:Hcs; [preserve|].
  destruct (_ && forallb _ _) eqn:Hb; [|preserve]. apply andb_true_iff in Hb as [_ Hall].
  rewrite <- Hcs in *. apply preserves_bind; [|preserve].
  apply preserves_replace_managed; [done|done| |done]. by rewrite Hcs.
Qed.
#[local] Hint Resolve preserves_install_attempt : preserves.

Lemma preserves_add_route_checked spec : managed spec → preserves owned_inv (add_route_checked spec).
Proof. intros Hm. unfold add_route_checked. preserve. Qed.

Lemma preserves_has_pending spec : preserves owned_inv (has_pending spec).
Proof. apply preserves_field. Qed.

Lemma preserves_is_tracked spec : preserves owned_inv (is_tracked spec).
Proof. apply preserves_field. Qed.
#[local] Hint Resolve preserves_add_route_checked preserves_has_pending preserves_is_tracked
  : preserves.

Lemma preserves_add spec : managed spec → preserves owned_inv (add spec).
Proof. intros Hm. unfold add. preserve. Qed.
#[local] Hint Resolve preserves_add : preserves.

Lemma preserves_release_owned spec owned :
  managed owned → preserves owned_inv (release_owned spec owned).
Proof. intros Hm. unfold release_owned. preserve. Qed.
#[local] Hint Resolve preserves_release_owned : preserves.

Lemma preserves_erase_route spec :
  preserves owned_inv
    (update (λ s, set_routes (erase_first (λ r, routes_equal r spec) (routes_ s)) s)).
Proof. by apply preserves_update_same. Qed.

Lemma preserves_erase_owned spec :
  preserves owned_inv
    (update (λ s, set_owned (erase_first (λ r, routes_equal r spec) (owned_routes_ s)) s)).
Proof. apply preserves_set_owned. intros s. apply Forall_erase_first. Qed.
#[local] Hint Resolve preserves_erase_route preserves_erase_owned : preserves.

Lemma preserves_remove spec : preserves owned_inv (remove spec).
Proof.
  unfold remove. apply preserves_bind; [preserve|]. intros tracked.
  destruct (negb tracked); [preserve|].
  apply (preserves_bind_field (λ o, ∀ r, o = Some r → managed r)).
  { intros s [Ho _] r Hr. by destruct (find_Forall _ _ _ _ Ho Hr). }
  intros [owned|] Howned; [specialize (Howned _ eq_refl)|]; preserve.
Qed.
#[local] Hint Resolve preserves_remove : preserves.

(** *** Reconciliation *)

Lemma preserves_rollback : preserves owned_inv rollback_pending_replacements.
Proof. unfold rollback_pending_replacements. preserve. Qed.

Lemma preserves_repair_missing mode complete route :
  managed route → preserves owned_inv (repair_missing mode complete route).
Proof. intros Hm. unfold repair_missing. preserve. Qed.

Lemma preserves_add_untracked mode route :
  managed route → preserves owned_inv (add_untracked mode route).
Proof. intros Hm. unfold add_untracked. preserve. Qed.

Lemma preserves_add_missing desired mode :
  Forall managed desired → preserves owned_inv (add_missing desired mode).
Proof.
  intros Hm. rewrite Forall_forall in Hm. unfold add_missing, settle_present. preserve.
  - eapply preserves_repair_missing, Hm, missing_sub; eauto.
  - by apply preserves_add_untracked, Hm.
Qed.

Lemma adopted_managed desired live owned :
  Forall managed owned →
  Forall managed (fold_left (λ committed expected,
    if negb (rt_protocol expected =? KEEN_PBR_GENERATED_ROUTE_PROTOCOL) then committed
    else if existsb (route_matches_live expected) live && negb (tracked_in expected committed)
    then committed ++ [expected] else committed) desired owned).
Proof.
  revert owned. induction desired as [|r l IH]; intros owned Ho; simpl; [done|]. apply IH.
  destruct (Z.eqb_spec (rt_protocol r) KEEN_PBR_GENERATED_ROUTE_PROTOCOL); simpl; [|done].
  destruct (_ && _); [|done]. apply Forall_app. split; [done|]. by apply Forall_singleton.
Qed.

Lemma preserves_adopt_live desired : preserves owned_inv (adopt_live_generated_desired desired).
Proof.
  unfold adopt_live_generated_desired. apply preserves_bind; [preserve|]. intros [|]; [preserve|].
  apply preserves_catch; [|preserve]. apply preserves_bind; [preserve|]. intros live.
  apply (preserves_bind_field (Forall managed)); [by intros s [? _]|]. intros owned Ho.
  apply (preserves_set_owned (λ _, _)). intros _ _. by apply adopted_managed.
Qed.

Lemma preserves_adopt_orphan desired actual : preserves owned_inv (adopt_orphan desired actual).
Proof.
  unfold adopt_orphan. destruct (_ || _) eqn:Hb; [preserve|].
  assert (managed (route_spec_from_live actual)).
  { apply orb_false_iff in Hb as [Hb%negb_false_iff _]. unfold is_generated_route_candidate in Hb.
    unfold managed. simpl. by route_bool. }
  preserve.
Qed.
#[local] Hint Resolve preserves_adopt_orphan : preserves.

Lemma preserves_adopt_orphans desired : preserves owned_inv (adopt_generated_orphans desired).
Proof. unfold adopt_generated_orphans. preserve. Qed.

Lemma preserves_retire protected uncertain route :
  preserves owned_inv (retire protected uncertain route).
Proof. unfold retire. preserve. Qed.
#[local] Hint Resolve preserves_adopt_orphans preserves_retire : preserves.

Lemma preserves_remove_obsolete desired protected :
  preserves owned_inv (remove_obsolete desired protected).
Proof. unfold remove_obsolete. preserve. Qed.

Lemma preserves_clear protected : preserves owned_inv (clear protected).
Proof. unfold clear. preserve. Qed.

Lemma preserves_notify name : preserves owned_inv (notify_interface_up name).
Proof.
  unfold notify_interface_up. destruct (empty_str name); [preserve|].
  by apply preserves_update_same.
Qed.

Lemma preserves_adopt_exact desired owned :
  Forall managed owned → preserves owned_inv (adopt_exact_state desired owned).
Proof. intros Ho. apply preserves_update. intros s _. split; simpl; [done | constructor]. Qed.

Lemma preserves_adopt_desired desired : preserves owned_inv (adopt_desired desired).
Proof. apply preserves_update. intros s _. split; constructor. Qed.

Lemma preserves_live_tables : preserves owned_inv live_generated_route_tables.
Proof. unfold live_generated_route_tables. preserve. Qed.

Lemma preserves_reconcile desired mode :
  Forall managed desired → preserves owned_inv (reconcile desired mode).
Proof.
  intros Hm. unfold reconcile. apply preserves_bind; [by apply preserves_add_missing|].
  intros _. apply preserves_bind; [preserve|]. intros _.
  apply preserves_bind; [apply preserves_remove_obsolete|]. intros _. apply preserves_adopt_live.
Qed.
End Safety.

(** ** Call sequences *)

(** The public operations that a client of [class RouteTable] may call. *)
Inductive Call :=
| CallAdd (spec : RouteSpec)
| CallRemove (spec : RouteSpec)
| CallAddMissing (desired : list RouteSpec) (mode : RouteReconcileMode)
| CallRemoveObsolete (desired : list RouteSpec) (protected_tables : gset Z)
| CallReconcile (desired : list RouteSpec) (mode : RouteReconcileMode)
| CallRollbackPending
| CallFinalizePending
| CallAdoptLive (desired : list RouteSpec)
| CallLiveTables
| CallAdoptDesired (desired : list RouteSpec)
| CallAdoptExact (desired owned : list RouteSpec)
| CallNotifyUp (interface_name : string)
| CallClear (protected_tables : gset Z).

(** Every route the client asks to install or to own carries the protocol. *)
Definition call_managed (c : Call) : Prop :=
  match c with
  | CallAdd spec => managed spec
  | CallAddMissing desired _ | CallReconcile desired _ => Forall managed desired
  | CallAdoptExact _ owned => Forall managed owned
  | _ => True
  end.

Section Calls.
Context {K : Type} `{RouteNetlink K}.

(** The world after the call, returned or thrown. *)
Definition run_call (c : Call) (w : World K) : World K :=
  match c with
  | CallAdd spec => (add spec w).1
  | CallRemove spec => (remove spec w).1
  | CallAddMissing desired mode => (add_missing desired mode w).1
  | CallRemoveObsolete desired protected => (remove_obsolete desired protected w).1
  | CallReconcile desired mode => (reconcile desired mode w).1
  | CallRollbackPending => (rollback_pending_replacements w).1
  | CallFinalizePending => (finalize_pending_replacements w).1
  | CallAdoptLive desired => (adopt_live_generated_desired desired w).1
  | CallLiveTables => (live_generated_route_tables w).1
  | CallAdoptDesired desired => (adopt_desired desired w).1
  | CallAdoptExact desired owned => (adopt_exact_state desired owned w).1
  | CallNotifyUp name => (notify_interface_up name w).1
  | CallClear protected => (clear protected w).1
  end.

Definition run_calls (calls : list Call) (w : World K) : World K :=
  fold_left (λ w c, run_call c w) calls w.

(** The table the constructor builds. *)
Definition initial_table (dry_run : bool) : RouteTableState :=
  {| dry_run_ := dry_run; routes_ := []; owned_routes_ := []; repair_records_ := [];
     pending_replacements_ := [] |}.

Lemma run_call_inv `{!RouteNetlinkLaws K} F c w :
  call_managed c → owned_inv F w → owned_inv F (run_call c w).
Proof.
  destruct c; simpl; intros Hc Hw.
  - by apply preserves_add.
  - by apply preserves_remove.
  - by apply preserves_add_missing.
  - by apply preserves_remove_obsolete.
  - by apply preserves_reconcile.
  - by apply preserves_rollback.
  - by apply preserves_finalize.
  - by apply preserves_adopt_live.
  - by apply preserves_live_tables.
  - by apply preserves_adopt_desired.
  - by apply preserves_adopt_exact.
  - by apply preserves_notify.
  - by apply preserves_clear.
Qed.

Lemma run_calls_inv `{!RouteNetlinkLaws K} F calls w :
  Forall call_managed calls → owned_inv F w → owned_inv F (run_calls calls w).
Proof.
  intros Hc. revert w. induction Hc as [|c l Hc _ IH]; intros w Hw; simpl; [done|].
  by apply IH, run_call_inv.
Qed.
End Calls.

(** C8. After any sequence of calls on a fresh route table, whichever calls of the
    backend failed on the way, the kernel holds exactly the foreign routes it held
    before: none is deleted, displaced by a replacement or by its rollback, and
    none is created. *)
Theorem foreign_routes_untouched {K : Type} `{RouteNetlinkLaws K} (calls : list Call)
    (dry_run : bool) (k : K) (d : DumpedRoute) :
  Forall call_managed calls → dr_protocol d ≠ KEEN_PBR_GENERATED_ROUTE_PROTOCOL →
  d ∈ nl_live (run_calls calls (initial_table dry_run, k)).2 ↔ d ∈ nl_live k.
Proof.
  intros Hc Hd. eapply (run_calls_inv (λ d, d ∈ nl_live k)) in Hc as [Hk _]; [by apply Hk|].
  split; [done|]. by split; constructor.
Qed.
