(* ===== verification/RouteTableConverge.v ===== *)
(** * Route table: convergence

    What a reconciliation that returns has achieved. The class
    [RouteNetlinkExactLaws] adds to the kernel's contract what the exact backend
    provides; the routes of a plan are canonical specifications, pairwise in
    different slots. *)

From Stdlib Require Import ZArith Lia Ascii String.
From stdpp Require Import base gmap strings list.
From S2P Require Import Prelude ConfigTypes RoutingPlan KernelRoutes StateError RouteTable.
From S2P Require Import RouteTableSafety.
Open Scope Z_scope.

Section Contract.
Context {K : Type} `{RouteNetlink K}.

(** The kernel holds a route that the program recognises as [spec]. *)
Definition live_in (k : K) (spec : RouteSpec) : Prop :=
  ∃ d, d ∈ nl_live k ∧ route_matches_live spec d = true.

(** The kernel can report the specification back as it was written. *)
Definition reportable (spec : RouteSpec) : Prop := ∃ k, live_in k spec.
End Contract.

(** Further behaviour of rtnetlink and of [NetlinkManager]: a created route is
    reported back; the kernel gives every IPv6 route a nonzero metric; deleting
    the exact image of a reported route that is alone in its slot removes no other
    route (the kernel tries the lowest metric first, so that even the wildcard
    metric zero meets that route). *)
Class RouteNetlinkExactLaws (K : Type) `{RouteNetlinkLaws K} : Prop := {
  law_supports_exact k : nl_supports_exact_route_transaction k = true;
  law_add_created spec k :
    reportable spec → (nl_add_route spec k).2 = Ok AddCreated →
    live_in (nl_add_route spec k).1 spec;
  law_ipv6_metric k d : d ∈ nl_live k → dr_family d = AF_INET6 → dr_metric d ≠ 0;
  law_delete_exact k c d :
    c ∈ nl_live k →
    (∀ x, x ∈ nl_live k → route_occupies_same_slot (route_spec_from_live c) x = true → x = c) →
    d ∈ nl_live k → d ≠ c →
    d ∈ nl_live (nl_delete_route (route_spec_from_live c) k).1;
}.

(** ** Canonical specifications *)

(** The form [populate_routing_state] generates: a concrete family, and not the
    metric the kernel uses to spell an unset IPv6 metric. *)
Definition canonical (spec : RouteSpec) : bool :=
  ((rt_family spec =? AF_INET) || (rt_family spec =? AF_INET6))
  && negb ((rt_family spec =? AF_INET6) && (rt_metric spec =? 1024)).

Definition slot_key (spec : RouteSpec) : string * Z * Z * Z :=
  (rt_destination spec, rt_table spec, rt_family spec, rt_metric spec).

Lemma matches_eq spec d :
  route_matches_live spec d = true ↔
  rt_destination spec = dr_destination d ∧ rt_table spec = dr_table d
  ∧ rt_interface spec = dr_interface d ∧ rt_gateway spec = dr_gateway d
  ∧ rt_blackhole spec = dr_blackhole d ∧ rt_unreachable spec = dr_unreachable d
  ∧ (rt_family spec = 0 ∨ rt_family spec = dr_family d)
  ∧ route_metric_matches_live spec d = true ∧ rt_protocol spec = dr_protocol d.
Proof.
  unfold route_matches_live. rewrite !andb_true_iff, orb_true_iff, String.eqb_eq, !Z.eqb_eq,
    !opt_eqb_eq, !Bool.eqb_true_iff. tauto.
Qed.

Lemma matches_occupies spec d :
  route_matches_live spec d = true → route_occupies_same_slot spec d = true.
Proof. rewrite matches_eq, occupies_eq. tauto. Qed.

Lemma matches_from_live d : route_matches_live (route_spec_from_live d) d = true.
Proof. apply matches_eq. rewrite metric_matches_eq. simpl. tauto. Qed.

Lemma canonical_eq spec :
  canonical spec = true ↔
  (rt_family spec = AF_INET ∨ rt_family spec = AF_INET6)
  ∧ ¬ (rt_family spec = AF_INET6 ∧ rt_metric spec = 1024).
Proof.
  unfold canonical. rewrite andb_true_iff, orb_true_iff, negb_true_iff, andb_false_iff,
    !Z.eqb_eq, !Z.eqb_neq. destruct (Z.eq_dec (rt_family spec) AF_INET6); tauto.
Qed.

(** Two canonical specifications meet in a live route only when they share the
    slot. *)
Lemma canonical_slot e1 e2 d :
  canonical e1 = true → canonical e2 = true → route_occupies_same_slot e1 d = true →
  route_occupies_same_slot e2 d = true → slot_key e1 = slot_key e2.
Proof.
  rewrite !canonical_eq, !occupies_eq, !metric_matches_eq. unfold slot_key, AF_INET, AF_INET6.
  intros [Hf1 Hm1] [Hf2 Hm2] (-> & -> & Hd1 & H1) (-> & -> & Hd2 & H2).
  assert (rt_family e1 = rt_family e2) as -> by lia.
  assert (rt_metric e1 = rt_metric e2) as -> by lia. done.
Qed.

Lemma canonical_apart e1 e2 d :
  canonical e1 = true → canonical e2 = true → route_matches_live e1 d = true →
  route_matches_live e2 d = true → e1 = e2.
Proof.
  intros Hc1 Hc2 H1 H2.
  pose proof (canonical_slot e1 e2 d Hc1 Hc2 (matches_occupies _ _ H1) (matches_occupies _ _ H2))
    as Hkey.
  apply matches_eq in H1, H2. destruct e1, e2. unfold slot_key in Hkey. simpl in *.
  injection Hkey as -> -> -> ->.
  destruct H1 as (_ & _ & -> & -> & -> & -> & _ & _ & ->).
  by destruct H2 as (_ & _ & -> & -> & -> & -> & _ & _ & ->).
Qed.

Lemma existsb_live spec l :
  existsb (route_matches_live spec) l = true ↔ ∃ d, d ∈ l ∧ route_matches_live spec d = true.
Proof. rewrite existsb_exists. by setoid_rewrite list_elem_of_In. Qed.

Section Converge.
Context {K : Type} `{HX : RouteNetlinkExactLaws K}.
Context (desired : list RouteSpec).

(** ** Installing *)

Hypothesis desired_canonical : Forall (λ e, canonical e = true) desired.
Hypothesis desired_reportable : Forall reportable desired.
Hypothesis desired_slots :
  ∀ e1 e2, e1 ∈ desired → e2 ∈ desired → slot_key e1 = slot_key e2 → e1 = e2.

(** The tracked routes are [R] and the routes of [S] are live. *)
Definition installed (R : list RouteSpec) (S : RouteSpec → Prop) (w : World K) : Prop :=
  dry_run_ w.1 = false ∧ routes_ w.1 = R ∧ ∀ e, S e → live_in w.2 e.

Section Frame.
Context (R : list RouteSpec) (S : RouteSpec → Prop).

Lemma installed_update f :
  (∀ s, dry_run_ (f s) = dry_run_ s) → (∀ s, routes_ (f s) = routes_ s) →
  preserves (installed R S) (update f).
Proof. intros Hd Hr [s k] (? & ? & ?). split; simpl; [by rewrite Hd|]. by rewrite Hr. Qed.

Lemma installed_lift {A} (op : K → K * result RouteError A) :
  (∀ k e, S e → live_in k e → live_in (op k).1 e) → preserves (installed R S) (lift op).
Proof.
  intros Hop [s k] (Hd & Hr & HS). unfold lift. simpl in *.
  pose proof (λ e He, Hop k e He (HS e He)) as Hop'. by destruct (op k) as [k' r].
Qed.

Lemma installed_lift_pure {A} (op : K → K * A) :
  (∀ k e, S e → live_in k e → live_in (op k).1 e) → preserves (installed R S) (lift_pure op).
Proof.
  intros Hop [s k] (Hd & Hr & HS). unfold lift_pure. simpl in *.
  pose proof (λ e He, Hop k e He (HS e He)) as Hop'. by destruct (op k) as [k' r].
Qed.

Lemma installed_field {A} (f : RouteTableState → A) : preserves (installed R S) (field f).
Proof. apply preserves_gets. Qed.

Lemma installed_dump f : preserves (installed R S) (dump_routes f).
Proof.
  apply installed_lift. intros k e _ (d & Hd & Hm). exists d. by rewrite law_dump_keeps.
Qed.

Lemma installed_readiness name : preserves (installed R S) (interface_readiness name).
Proof.
  apply installed_lift_pure. intros k e _ (d & Hd & Hm). exists d. by rewrite law_probe_keeps.
Qed.

Lemma installed_now : preserves (installed R S) now.
Proof.
  apply installed_lift_pure. intros k e _ (d & Hd & Hm). exists d. by rewrite law_now_keeps.
Qed.

Lemma installed_add_route spec : preserves (installed R S) (add_route spec).
Proof.
  apply installed_lift. intros k e _ (d & Hd & Hm). exists d. split; [by apply law_add_keeps|done].
Qed.

Lemma installed_set_records f :
  preserves (installed R S) (update (λ s, set_records (f s) s)).
Proof. by apply installed_update. Qed.

Lemma installed_set_owned f : preserves (installed R S) (update (λ s, set_owned (f s) s)).
Proof. by apply installed_update. Qed.

Lemma installed_set_pending f : preserves (installed R S) (update (λ s, set_pending (f s) s)).
Proof. by apply installed_update. Qed.
End Frame.

#[local] Hint Resolve installed_field installed_dump installed_readiness installed_now
  installed_add_route installed_set_records installed_set_owned installed_set_pending : preserves.

Lemma installed_repair_record R S spec : preserves (installed R S) (repair_record spec).
Proof. unfold repair_record. preserve. Qed.

Lemma installed_store_record R S spec r : preserves (installed R S) (store_record spec r).
Proof. apply installed_set_records. Qed.
#[local] Hint Resolve installed_repair_record installed_store_record : preserves.

Lemma installed_reset R S spec : preserves (installed R S) (reset_repair_backoff spec).
Proof. unfold reset_repair_backoff. preserve. Qed.

Lemma installed_record_repair R S spec : preserves (installed R S) (record_repair spec).
Proof. unfold record_repair. preserve. Qed.

Lemma installed_push_owned R S spec : preserves (installed R S) (push_owned spec).
Proof. apply installed_set_owned. Qed.

Lemma installed_forget_owned R S spec : preserves (installed R S) (forget_owned_route spec).
Proof. apply installed_set_owned. Qed.

Lemma installed_interface_lost R S spec : preserves (installed R S) (interface_lost spec).
Proof. unfold interface_lost. preserve. Qed.

Lemma installed_is_tracked R S spec : preserves (installed R S) (is_tracked spec).
Proof. apply installed_field. Qed.

Lemma installed_prune R S : preserves (installed R S) (prune_records desired).
Proof. apply installed_set_records. Qed.
#[local] Hint Resolve installed_reset installed_record_repair installed_push_owned
  installed_forget_owned installed_interface_lost installed_is_tracked installed_prune : preserves.

(** *** The primitives with their results *)

Lemma wp_dump R S f w :
  installed R S w →
  wp (dump_routes f) (λ l w', installed R S w' ∧
        ∀ d, d ∈ l ↔ d ∈ nl_live w'.2 ∧ (f = 0 ∨ dr_family d = f)) (λ _ _, True) w.
Proof.
  intros Hw. pose proof (installed_dump R S f w Hw) as Hw'. revert Hw'. destruct w as [s k].
  unfold wp, dump_routes, lift. simpl. pose proof (law_dump_exact f k) as Hex.
  pose proof (law_dump_keeps f k) as Hk. destruct (nl_dump_routes f k) as [k' [l|e]]; [|done].
  intros Hw'. split; [done|]. intros d. simpl in *. rewrite Hk. by apply Hex.
Qed.

Lemma wp_add_route R S spec w :
  reportable spec → installed R S w →
  wp (add_route spec) (λ r w', installed R S w' ∧ (r = AddCreated → live_in w'.2 spec))
     (λ _ _, True) w.
Proof.
  intros Hr Hw. pose proof (installed_add_route R S spec w Hw) as Hw'. revert Hw'.
  destruct w as [s k]. unfold wp, add_route, lift. simpl.
  pose proof (law_add_created spec k Hr) as Hc.
  destruct (nl_add_route spec k) as [k' [r|e]]; [|done]. simpl in *.
  intros Hw'. split; [done|]. by intros ->; apply Hc.
Qed.

(** A replacement may cost only the route it replaces. *)
Lemma installed_replace R (S : RouteSpec → Prop) spec w :
  spec ∈ desired → (∀ e, S e → e ∈ desired) → addressable spec → installed R S w →
  wp (replace_route spec) (λ _, installed R (λ e, S e ∧ e ≠ spec)) (λ _ _, True) w.
Proof.
  intros Hspec HS Ha (Hd & Hr & Hlive). destruct w as [s k]. unfold wp, replace_route, lift.
  simpl in *. pose proof (λ d, law_replace_keeps spec k d Ha) as Hkeep.
  destruct (nl_replace_route spec k) as [k' [u|e]]; [|done]. split; [done|]. split; [done|].
  intros e [He Hne]. destruct (Hlive e He) as (d & Hd' & Hm). exists d. split; [|done].
  apply Hkeep; [done|]. apply not_true_iff_false. intros Hocc. apply Hne.
  rewrite Forall_forall in desired_canonical. apply desired_slots; [by apply HS|done|].
  eapply canonical_slot; eauto using matches_occupies.
Qed.

Lemma installed_mono R (S S' : RouteSpec → Prop) w :
  installed R S w → (∀ e, S' e → S e ∨ live_in w.2 e) → installed R S' w.
Proof.
  intros (? & ? & Hlive) HS. split; [done|]. split; [done|].
  intros e He. destruct (HS e He) as [?|?]; [by apply Hlive | done].
Qed.

(** *** Installing one desired route *)

Lemma wp_replace_managed R (S : RouteSpec → Prop) spec collisions w :
  spec ∈ desired → (∀ e, S e → e ∈ desired) → addressable spec → installed R S w →
  wp (replace_managed spec collisions) (λ _, installed R (λ e, S e ∨ e = spec)) (λ _ _, True) w.
Proof.
  intros Hspec HS Ha Hw. unfold replace_managed. apply wp_bind.
  eapply wp_frame; [apply installed_set_pending | exact Hw |]. intros u1 w1 Hw1.
  apply wp_bind, wp_catch, wp_bind.
  eapply wp_mono; [by apply (installed_replace R S) | | intros; apply wp_rethrow].
  intros u2 w2 Hw2. apply wp_bind.
  eapply wp_mono; [apply (wp_dump _ _ _ _ Hw2) | | intros; apply wp_rethrow].
  intros l w3 [Hw3 Hl]. destruct (existsb _ l) eqn:Hex; [|apply wp_throw, wp_rethrow].
  apply wp_ret, wp_ret. apply existsb_live in Hex as (d & Hd & Hm).
  eapply installed_mono; [exact Hw3|]. intros e He. simpl.
  destruct (decide (e = spec)) as [->|]; [right|left; naive_solver].
  exists d. split; [|done]. by apply Hl in Hd as [? _].
Qed.

Lemma wp_install_attempt R (S : RouteSpec → Prop) spec n w :
  spec ∈ desired → (∀ e, S e → e ∈ desired) → installed R S w →
  wp (install_attempt spec n)
     (λ o, installed R (λ e, S e ∨ (is_Some o ∧ e = spec))) (λ _ _, True) w.
Proof.
  intros Hspec HS Hw. unfold install_attempt. apply wp_bind.
  rewrite Forall_forall in desired_reportable.
  eapply wp_mono; [apply wp_add_route; eauto | |done].
  intros added w1 [Hw1 Hc]. destruct added.
  { apply wp_ret. eapply installed_mono; [exact Hw1|]. intros e [He|[_ ->]]; auto. }
  apply wp_bind. eapply wp_mono; [apply (wp_dump _ _ _ _ Hw1) | |done]. intros l w2 [Hw2 Hl].
  destruct (_ && _) eqn:Hb.
  { apply wp_ret. apply andb_true_iff in Hb as [(d & Hd & Hm)%existsb_live _].
    eapply installed_mono; [exact Hw2|]. intros e [He|[_ ->]]; [by left|]. right.
    exists d. apply Hl in Hd. naive_solver. }
  cbv zeta. destruct (List.filter _ l) as [|c cs] eqn:Hcs.
  { destruct (n =? 0)%nat; [|by apply wp_throw]. apply wp_ret. eapply installed_mono; [exact Hw2|].
    intros e [He|[[? [=]] _]]. by left. }
  destruct ((rt_protocol spec =? _) && _); [|by apply wp_throw]. apply wp_bind.
  assert (addressable spec) as Ha.
  { assert (In c (List.filter (route_occupies_same_slot spec) l)) as Hin by (rewrite Hcs; by left).
    apply filter_In in Hin as [Hin%list_elem_of_In Hocc]. exists w2.2, c. apply Hl in Hin. tauto. }
  eapply wp_mono; [by apply (wp_replace_managed R S) | |done]. intros o w3 Hw3. apply wp_ret.
  eapply installed_mono; [exact Hw3|]. intros e [He|[_ ->]]; auto.
Qed.

Lemma wp_add_route_checked R (S : RouteSpec → Prop) spec w :
  spec ∈ desired → (∀ e, S e → e ∈ desired) → installed R S w →
  wp (add_route_checked spec) (λ _, installed R (λ e, S e ∨ e = spec)) (λ _ _, True) w.
Proof.
  intros Hspec HS Hw. unfold add_route_checked. apply wp_bind.
  eapply wp_frame; [apply installed_interface_lost | exact Hw |]. intros [|] w1 Hw1; [by apply wp_throw|].
  assert (∀ e w', wp (match e with
      | RouteInterfaceUnavailableError => throw e
      | NetlinkError _ => lost ← interface_lost spec;
                          if lost : bool then throw RouteInterfaceUnavailableError else throw e
      end) (λ _ : RouteInstallOutcome, installed R (λ e, S e ∨ e = spec)) (λ _ _, True) w') as Hexn.
  { intros [|kind] w'; [by apply wp_throw|]. apply wp_bind. unfold wp.
    destruct (interface_lost spec w') as [w'' [[|]|?]]; done. }
  apply wp_catch, wp_bind.
  eapply wp_mono; [by apply (wp_install_attempt R S) | | intros e w' _; apply Hexn].
  intros [o|] w2 Hw2.
  { apply wp_ret. eapply installed_mono; [exact Hw2|]. intros e [?| ->]; left; eauto. }
  assert (installed R S w2) as Hw2' by (eapply installed_mono; [exact Hw2|]; auto).
  apply wp_bind.
  eapply wp_mono; [by apply (wp_install_attempt R S) | | intros e w' _; apply Hexn].
  intros [o|] w3 Hw3; [|by apply wp_throw, (Hexn (NetlinkError _))].
  apply wp_ret. eapply installed_mono; [exact Hw3|]. intros e [?| ->]; left; eauto.
Qed.

Lemma wp_is_tracked R S spec w :
  installed R S w →
  wp (is_tracked spec) (λ b w', installed R S w' ∧ (b = true ↔ spec ∈ R)) (λ _ _, True) w.
Proof.
  intros Hw. apply wp_gets. split; [done|]. destruct Hw as (_ & -> & _). apply tracked_in_elem.
Qed.

Lemma wp_dry_run R S (Q : bool → World K → Prop) (X : RouteError → World K → Prop) w :
  installed R S w → Q false w → wp (field dry_run_) Q X w.
Proof. intros [Hd _] HQ. apply wp_gets. by rewrite Hd. Qed.

Lemma installed_push_route R S spec w :
  installed R S w → wp (push_route spec) (λ _, installed (R ++ [spec]) S) (λ _ _, True) w.
Proof. intros (? & <- & ?). by apply wp_modify. Qed.

Lemma wp_add R (S : RouteSpec → Prop) spec w :
  spec ∈ desired → (∀ e, S e → e ∈ desired) → spec ∉ R → installed R S w →
  wp (add spec) (λ _, installed (R ++ [spec]) (λ e, S e ∨ e = spec)) (λ _ _, True) w.
Proof.
  intros Hspec HS Hnot Hw. unfold add. apply wp_bind.
  eapply wp_mono; [apply (wp_is_tracked _ _ _ _ Hw) | |done]. intros b w1 [Hw1 Hb].
  destruct b; [naive_solver|]. apply wp_bind. eapply wp_dry_run; [exact Hw1|]. apply wp_bind, wp_catch.
  eapply wp_mono; [by apply (wp_add_route_checked R S) | |].
  - intros o w2 Hw2. apply wp_bind. eapply wp_mono; [apply (installed_push_route _ _ _ _ Hw2) | |done].
    intros u3 w3 Hw3. destruct o; [|by apply wp_ret|];
      (eapply wp_frame; [apply installed_push_owned | exact Hw3 | done]).
  - intros e w2 _. apply wp_bind, wp_gets.
    destruct (existsb (pending_of spec) _); apply wp_rethrow.
Qed.

(** *** The phases of [add_missing] *)

Lemma wp_repair_missing R (S : RouteSpec → Prop) complete route w :
  route ∈ desired → (∀ e, S e → e ∈ desired) → installed R S w →
  wp (repair_missing Strict complete route)
     (λ _, installed R (λ e, S e ∨ (e = route ∧ route ∈ R))) (λ _ _, True) w.
Proof.
  intros Hr HS Hw. unfold repair_missing. apply wp_bind.
  eapply wp_mono; [apply (wp_is_tracked _ _ _ _ Hw) | |done]. intros b w1 [Hw1 Hb].
  destruct b; simpl.
  2: { apply wp_ret. eapply installed_mono; [exact Hw1|]. naive_solver. }
  apply wp_bind. eapply wp_frame; [apply installed_forget_owned | exact Hw1 |].
  intros u2 w2 Hw2. apply wp_bind, wp_ret. simpl. apply wp_bind, wp_catch, wp_bind.
  eapply wp_mono; [by apply (wp_add_route_checked R S) | |].
  2: { intros e w3 _. destruct e; by apply wp_throw. }
  intros o w3 Hw3. apply wp_ret. apply wp_bind.
  eapply wp_frame; [| exact Hw3 |]; [preserve|]. intros u4 w4 Hw4. apply wp_bind.
  eapply wp_frame; [apply installed_reset | exact Hw4 |]. intros u5 w5 Hw5. apply wp_ret.
  eapply installed_mono; [exact Hw5|]. naive_solver.
Qed.

Lemma wp_add_untracked R (S : RouteSpec → Prop) route w :
  route ∈ desired → (∀ e, S e → e ∈ desired) → installed R S w →
  wp (add_untracked Strict route)
     (λ _ w', (route ∈ R ∧ installed R S w')
              ∨ installed (R ++ [route]) (λ e, S e ∨ e = route) w') (λ _ _, True) w.
Proof.
  intros Hr HS Hw. unfold add_untracked. apply wp_bind.
  eapply wp_mono; [apply (wp_is_tracked _ _ _ _ Hw) | |done]. intros b w1 [Hw1 Hb].
  destruct b; simpl; [apply wp_ret; naive_solver|].
  apply wp_bind, wp_ret. simpl. apply wp_catch, wp_bind.
  eapply wp_mono; [apply (wp_add R S); [done|done| |done]; naive_solver | |].
  2: { intros e w2 _. destruct e; by apply wp_throw. }
  intros u2 w2 Hw2. eapply wp_mono; [apply preserves_wp, Hw2; apply installed_reset | |].
  - intros u3 w3 Hw3. right. exact Hw3.
  - intros e w3 _. destruct e; by apply wp_throw.
Qed.

Lemma installed_settle R S live : preserves (installed R S) (settle_present desired live).
Proof. unfold settle_present. preserve. Qed.

(** What the repair loop still owes when [rest] is to be visited. *)
Definition repaired (R missing rest : list RouteSpec) (e : RouteSpec) : Prop :=
  e ∈ desired ∧ (e ∉ missing ∨ (e ∈ R ∧ e ∉ rest)).

Lemma wp_repair_loop R missing w :
  (∀ e, e ∈ missing → e ∈ desired) → installed R (repaired R missing missing) w →
  wp (mfold (repair_missing Strict) true missing)
     (λ _, installed R (λ e, e ∈ desired ∧ e ∈ R)) (λ _ _, True) w.
Proof.
  intros Hmiss Hw. eapply wp_mono; [apply (wp_mfold _ (λ _ rest w',
    (∀ e, e ∈ rest → e ∈ desired) ∧ installed R (repaired R missing rest) w')) | |done].
  - done.
  - intros b x rest w' [Hrest Hw'].
    eapply wp_mono; [apply (wp_repair_missing R (repaired R missing (x :: rest)));
      [by apply Hrest; left | by intros e [He _] | done] | |done].
    intros b' w'' Hw''. split; [intros e He; apply Hrest; by right|].
    eapply installed_mono; [exact Hw''|]. intros e [He Hc]. left. unfold repaired.
    destruct (decide (e = x)); set_solver.
  - intros b w' [_ Hw']. eapply installed_mono; [exact Hw'|].
    intros e [He HR]. left. split; [done|]. right. split; [done | set_solver].
Qed.

(** The tracked routes grow by the desired ones, each live once tracked. *)
Definition completed (R : list RouteSpec) (rest : list RouteSpec) (w : World K) : Prop :=
  ∃ R', installed R' (λ e, e ∈ desired ∧ e ∈ R') w
        ∧ (∀ r, r ∈ R → r ∈ R') ∧ (∀ r, r ∈ R' → r ∈ R ∨ r ∈ desired)
        ∧ (∀ e, e ∈ desired → e ∈ R' ∨ e ∈ rest) ∧ (∀ e, e ∈ rest → e ∈ desired).

Lemma wp_add_loop R w :
  installed R (λ e, e ∈ desired ∧ e ∈ R) w →
  wp (mfor (add_untracked Strict) desired) (λ _, completed R []) (λ _ _, True) w.
Proof.
  intros Hw. apply (wp_mfor _ (completed R)); [by exists R; naive_solver|].
  intros x rest w' (R' & Hw' & H1 & H2 & H3 & H4).
  eapply wp_mono; [apply (wp_add_untracked R' (λ e, e ∈ desired ∧ e ∈ R'));
    [by apply H4; left | by intros e [? _] | done] | |done].
  intros u w'' [[Hx Hw'']|Hw''].
  - exists R'. split; [done|]. set_solver.
  - exists (R' ++ [x]). split; [|set_solver].
    eapply installed_mono; [exact Hw''|]. intros e [He Hin]. set_solver.
Qed.

Lemma wp_add_missing s k :
  dry_run_ s = false →
  wp (add_missing desired Strict)
     (λ _ w', dry_run_ w'.1 = false ∧ (∀ r, r ∈ routes_ w'.1 ↔ r ∈ routes_ s ∨ r ∈ desired)
              ∧ ∀ e, e ∈ desired → live_in w'.2 e) (λ _ _, True) (s, k).
Proof.
  intros Hdry. set (R := routes_ s). unfold add_missing. apply wp_bind.
  assert (installed R (λ _, False) (s, k)) as H0' by done.
  eapply wp_frame; [apply installed_prune | exact H0' |]. intros u1 w1 Hw1.
  apply wp_bind. eapply wp_dry_run; [exact Hw1|]. apply wp_bind.
  apply wp_bind. eapply wp_mono; [apply (wp_dump _ _ _ _ Hw1) | |done]. intros live w2 [Hw2 Hl].
  set (missing := find_missing_live_routes desired live).
  assert (installed R (repaired R missing missing) w2) as Hw2'.
  { eapply installed_mono; [exact Hw2|]. intros e [He Hc].
    assert (e ∉ missing) as Hn by tauto. right.
    destruct (existsb (route_matches_live e) live) eqn:Hex.
    - apply existsb_live in Hex as (d & Hd & Hm). exists d. apply Hl in Hd. naive_solver.
    - destruct Hn. apply list_elem_of_In, filter_In. rewrite Hex. by apply list_elem_of_In in He. }
  apply wp_bind. eapply wp_frame; [apply installed_settle | exact Hw2' |]. intros u3 w3 Hw3.
  eapply wp_mono; [apply wp_repair_loop; [intros e; apply missing_sub | exact Hw3] | |done].
  intros complete w4 Hw4. apply wp_bind.
  eapply wp_mono; [apply (wp_add_loop _ _ Hw4) | |done].
  intros u5 w5 (R' & (Hd5 & <- & Hl5) & HR1 & HR2 & Hdes & _). apply wp_ret.
  split; [done|]. split; [|set_solver]. intros r. split; [apply HR2|]. set_solver.
Qed.

(** ** Retiring obsolete routes *)

(** No live route is at once the route [r] and a desired route other than [r]. *)
Definition apart (r : RouteSpec) : Prop :=
  ∀ (k : K) c e, c ∈ nl_live k → e ∈ desired → route_matches_live r c = true →
  route_matches_live e c = true → r = e.

Definition settled (w : World K) : Prop :=
  dry_run_ w.1 = false ∧ pending_replacements_ w.1 = [] ∧ Forall apart (routes_ w.1)
  ∧ ∀ e, e ∈ desired → e ∈ routes_ w.1 ∧ live_in w.2 e.

Lemma canonical_is_apart r : canonical r = true → apart r.
Proof.
  intros Hr k c e _ He Hm1 Hm2. rewrite Forall_forall in desired_canonical.
  eapply canonical_apart; eauto.
Qed.

(** An orphan is apart from the desired routes, none of which matches it. *)
Lemma orphan_is_apart (k0 : K) d :
  d ∈ nl_live k0 → existsb (λ e, route_matches_live e d) desired = false →
  apart (route_spec_from_live d).
Proof.
  intros Hd Hno k c e Hc He Hm Hm'. exfalso. apply not_true_iff_false in Hno. apply Hno.
  apply existsb_exists. exists e. split; [by apply list_elem_of_In|].
  pose proof (law_live_family _ _ Hd) as Hf. pose proof (law_ipv6_metric _ _ Hd) as H6.
  rewrite matches_eq, metric_matches_eq in *. simpl in Hm.
  destruct Hm as (E1 & E2 & E3 & E4 & E5 & E6 & E7 & E8 & E9).
  assert (dr_family d = dr_family c) as Hfam by tauto.
  assert (dr_metric d = dr_metric c) as Hmet.
  { destruct E8 as [?|(? & _ & [?|?])]; [done| |]; exfalso; apply H6; congruence. }
  rewrite E1, E2, E3, E4, E5, E6, E9, Hfam, Hmet. exact Hm'.
Qed.

Lemma settled_update f :
  (∀ s, dry_run_ (f s) = dry_run_ s) → (∀ s, routes_ (f s) = routes_ s) →
  (∀ s, pending_replacements_ (f s) = pending_replacements_ s) → preserves settled (update f).
Proof. intros H1 H2 H3 [s k] Hw. unfold settled in *. simpl in *. by rewrite H1, H2, H3. Qed.

Lemma settled_field {A} (f : RouteTableState → A) : preserves settled (field f).
Proof. apply preserves_gets. Qed.

Lemma settled_dump f : preserves settled (dump_routes f).
Proof.
  intros [s k] (H1 & H2 & H3 & H4). unfold dump_routes, lift. simpl in *.
  pose proof (law_dump_keeps f k) as Hk. destruct (nl_dump_routes f k) as [k' r].
  split; [done|]. split; [done|]. split; [done|]. intros e He.
  destruct (H4 e He) as [? (d & Hd & Hm)]. split; [done|]. exists d. by rewrite Hk.
Qed.

Lemma settled_set_records f : preserves settled (update (λ s, set_records (f s) s)).
Proof. by apply settled_update. Qed.

Lemma settled_set_owned f : preserves settled (update (λ s, set_owned (f s) s)).
Proof. by apply settled_update. Qed.

Lemma settled_supports_exact : preserves settled supports_exact.
Proof. apply preserves_gets. Qed.

Lemma settled_is_tracked r : preserves settled (is_tracked r).
Proof. apply preserves_gets. Qed.
#[local] Hint Resolve settled_field settled_dump settled_set_records settled_set_owned
  settled_supports_exact settled_is_tracked : preserves.

Lemma wp_dump_live f w :
  wp (dump_routes f) (λ l w', ∀ d, d ∈ l ↔ d ∈ nl_live w'.2 ∧ (f = 0 ∨ dr_family d = f))
     (λ _ _, True) w.
Proof.
  destruct w as [s k]. unfold wp, dump_routes, lift. simpl. pose proof (law_dump_exact f k) as Hex.
  pose proof (law_dump_keeps f k) as Hk. destruct (nl_dump_routes f k) as [k' [l|e]]; [|done].
  intros d. simpl in *. rewrite Hk. by apply Hex.
Qed.

(** Deleting the live image of an obsolete route keeps every desired route. *)
Lemma settled_delete_image r c w :
  apart r → r ∉ desired → c ∈ nl_live w.2 → route_matches_live r c = true →
  (∀ x, x ∈ nl_live w.2 → route_occupies_same_slot (route_spec_from_live c) x = true → x = c) →
  settled w → wp (delete_route (route_spec_from_live c)) (λ _, settled) (λ _, settled) w.
Proof.
  intros Hap Hr Hc Hm Huniq (H1 & H2 & H3 & H4). destruct w as [s k].
  unfold wp, delete_route, lift. simpl in *.
  pose proof (λ d, law_delete_exact k c d Hc Huniq) as Hdel.
  assert (settled (s, (nl_delete_route (route_spec_from_live c) k).1)) as Hset.
  { split; [done|]. split; [done|]. split; [done|]. intros e He. simpl.
    destruct (H4 e He) as [? (d & Hd & Hmd)]. split; [done|]. exists d. split; [|done].
    apply Hdel; [done|]. intros ->. apply Hr. by rewrite (Hap k c e). }
  by destruct (nl_delete_route (route_spec_from_live c) k) as [k' [u|e]].
Qed.

(** The scan that found one route in the slot found the only one. *)
Lemma scan_slot_unique spec live c (k : K) x :
  scan_slot spec live = (1%nat, Some c) →
  (∀ d, d ∈ live ↔ d ∈ nl_live k ∧ (route_family spec = 0 ∨ dr_family d = route_family spec)) →
  x ∈ nl_live k → route_occupies_same_slot (route_spec_from_live c) x = true → x = c.
Proof.
  intros Hscan Hl Hx Hocc. pose proof (scan_slot_match _ _ _ _ Hscan) as [Hm Hc].
  apply scan_slot_count in Hscan. apply matches_occupies in Hm as Hmocc.
  pose proof (proj1 (Hl c) Hc) as [Hck Hcf]. pose proof (law_live_family _ _ Hck) as Hfam.
  assert (∀ d, d ∈ live → route_occupies_same_slot spec d = true →
    In d (List.filter (route_occupies_same_slot spec) live)) as Hin
    by (intros d Hd ?; apply filter_In; split; [by apply list_elem_of_In | done]).
  assert (x ∈ live) as Hxl.
  { apply Hl. split; [done|]. apply occupies_eq in Hocc as (_ & _ & Hf & _). simpl in Hf.
    destruct Hf as [?| <-]; [done | exact Hcf]. }
  pose proof (Hin c Hc Hmocc) as H1.
  pose proof (Hin x Hxl (occupies_transfer spec c x Hfam Hmocc Hocc)) as H2.
  destruct (List.filter _ live) as [|a [|b l]]; simpl in *; try discriminate Hscan.
  destruct H1 as [<-|[]]. by destruct H2 as [<-|[]].
Qed.

Lemma settled_delete_exact r :
  apart r → r ∉ desired → preserves settled (delete_route_if_exact r).
Proof.
  intros Hap Hr. apply preserves_wp. intros w Hw. unfold delete_route_if_exact. apply wp_bind.
  eapply wp_mono; [apply (wp_and _ _ _ _ _ _ (proj1 (preserves_wp _ _) (settled_dump _) w Hw)
    (wp_dump_live _ _)) | | by intros e w' [? _]].
  intros live w1 [Hw1 Hl]. destruct (scan_slot r live) as [[|[|n]] [c|]] eqn:Hscan;
    try (apply wp_ret; done).
  pose proof (scan_slot_match _ _ _ _ Hscan) as [Hm Hc]. apply Hl in Hc as [Hc _]. apply wp_bind.
  eapply wp_mono; [apply (settled_delete_image r c); try done | |done].
  - intros x. by apply (scan_slot_unique r live c).
  - intros u w2 Hw2. revert w2 Hw2. apply preserves_wp. preserve.
Qed.

Lemma settled_release r owned :
  apart owned → owned ∉ desired → preserves settled (release_owned r owned).
Proof.
  intros Hap Hr. unfold release_owned.
  apply (preserves_bind_fact _ (λ b, b = false)); [apply preserves_gets| |].
  { intros w w' b (_ & Hp & _) [= _ <-]. by rewrite Hp. }
  intros b ->. apply preserves_catch; [|preserve].
  apply (preserves_bind_fact _ (λ b, b = true)); [apply preserves_gets| |].
  { intros w w' b _ [= _ <-]. apply law_supports_exact. }
  intros b ->. apply preserves_bind; [by apply settled_delete_exact | preserve].
Qed.

Lemma settled_erase_route r :
  r ∉ desired →
  preserves settled
    (update (λ s, set_routes (erase_first (λ x, routes_equal x r) (routes_ s)) s)).
Proof.
  intros Hr [s k] (H1 & H2 & H3 & H4). split; [done|]. split; [done|].
  split; [by apply Forall_erase_first|]. intros e He. destruct (H4 e He) as [Hin ?].
  split; [|done]. simpl. apply elem_of_erase_first; [|done]. by intros ->.
Qed.

Lemma settled_remove r : apart r → r ∉ desired → preserves settled (remove r).
Proof.
  intros Hap Hr. unfold remove. apply preserves_bind; [preserve|]. intros tracked.
  destruct (negb tracked); [preserve|].
  apply (preserves_bind_fact _ (λ o, ∀ x, o = Some x → x = r)); [preserve| |].
  { intros w w' o _ [= _ <-] x [_ Hx]%find_some. by apply routes_equal_eq. }
  intros owned Howned. apply preserves_bind; [preserve|]. intros dry_run. apply preserves_bind.
  - destruct owned as [o|]; [rewrite (Howned o) by done|preserve]. destruct dry_run; [preserve|].
    by apply settled_release.
  - intros [|]; [|preserve]. unfold forget_repair_record. preserve. by apply settled_erase_route.
Qed.

Lemma settled_adopt_orphan (k0 : K) d : d ∈ nl_live k0 → preserves settled (adopt_orphan desired d).
Proof.
  intros Hd. unfold adopt_orphan. destruct (_ || _) eqn:Hb; [preserve|].
  apply orb_false_iff in Hb as [_ Hno]. pose proof (orphan_is_apart k0 d Hd Hno) as Hap.
  cbv zeta. preserve.
  intros [s k] (H1 & H2 & H3 & H4). split; [done|]. split; [done|]. split.
  - apply Forall_app. split; [done|]. by apply Forall_singleton.
  - intros e He. destruct (H4 e He). split; [|done]. simpl. set_solver.
Qed.

Lemma settled_adopt_orphans : preserves settled (adopt_generated_orphans desired).
Proof.
  unfold adopt_generated_orphans. apply preserves_bind; [preserve|]. intros [|]; [preserve|].
  apply (preserves_bind_fact _ (λ l, ∃ k : K, ∀ d, d ∈ l → d ∈ nl_live k)); [preserve| |].
  - intros w w' l _ Hd. exists w'.2. intros d. pose proof (wp_dump_live 0 w) as Hwp.
    unfold wp in Hwp. rewrite Hd in Hwp. by intros [? _]%Hwp.
  - intros l [k Hk]. apply preserves_mfor. intros d Hd. by apply (settled_adopt_orphan k), Hk.
Qed.

Lemma not_desired r : existsb (routes_equal r) desired = false → r ∉ desired.
Proof.
  intros Hno Hin. apply not_true_iff_false in Hno. apply Hno, existsb_exists. exists r.
  split; [by apply list_elem_of_In | by apply routes_equal_eq].
Qed.

Lemma settled_remove_obsolete protected : preserves settled (remove_obsolete desired protected).
Proof.
  unfold remove_obsolete. apply preserves_bind; [apply settled_adopt_orphans|]. intros _.
  apply (preserves_bind_fact _ (Forall apart)); [preserve| |].
  { intros w w' l (_ & _ & Hap & _) [= _ <-]. exact Hap. }
  intros current Hap. rewrite Forall_forall in Hap. apply preserves_mfold. intros u r Hr.
  destruct (existsb _ desired) eqn:Hno; [preserve|]. apply not_desired in Hno.
  unfold retire. destruct (decide _); [preserve|].
  apply preserves_bind; [by apply settled_remove; [apply Hap|] | preserve].
Qed.

Lemma settled_adopt_live : preserves settled (adopt_live_generated_desired desired).
Proof. unfold adopt_live_generated_desired. preserve. Qed.

Lemma settled_after_add_missing s (w : World K) :
  Forall (λ r, canonical r = true) (routes_ s) → dry_run_ w.1 = false →
  (∀ r, r ∈ routes_ w.1 ↔ r ∈ routes_ s ∨ r ∈ desired) →
  (∀ e, e ∈ desired → live_in w.2 e) → settled (set_pending [] w.1, w.2).
Proof.
  intros Hcan Hdry HR Hlive. split; [done|]. split; [done|]. split.
  - apply Forall_forall. intros r Hr. simpl in Hr. apply canonical_is_apart.
    rewrite Forall_forall in Hcan. rewrite Forall_forall in desired_canonical.
    apply HR in Hr as [?|?]; auto.
  - intros e He. simpl. split; [apply HR; by right | by apply Hlive].
Qed.

Lemma wp_reconcile s k :
  Forall (λ r, canonical r = true) (routes_ s) → dry_run_ s = false →
  wp (reconcile desired Strict) (λ _, settled) (λ _ _, True) (s, k).
Proof.
  intros Hcan Hdry. unfold reconcile. apply wp_bind.
  eapply wp_mono; [by apply wp_add_missing | |done]. intros complete w1 (Hd & HR & Hlive).
  apply wp_bind, wp_modify. apply wp_bind.
  eapply wp_frame; [apply settled_remove_obsolete | by apply (settled_after_add_missing s) |].
  intros u w2 Hw2. eapply wp_frame; [apply settled_adopt_live | exact Hw2 | done].
Qed.
End Converge.

(** A strict reconciliation that returns has installed the plan: every desired
    route is tracked and the kernel reports a route that matches it, although
    obsolete routes were replaced and deleted on the way. Desired and previously
    tracked routes are in canonical form, the desired ones in different slots. *)
Theorem reconcile_converges {K : Type} `{RouteNetlinkExactLaws K} (desired : list RouteSpec)
    (s s' : RouteTableState) (k k' : K) :
  Forall (λ e, canonical e = true) desired → Forall reportable desired →
  (∀ e1 e2, e1 ∈ desired → e2 ∈ desired → slot_key e1 = slot_key e2 → e1 = e2) →
  Forall (λ r, canonical r = true) (routes_ s) → dry_run_ s = false →
  reconcile desired Strict (s, k) = ((s', k'), Ok ()) →
  ∀ e, e ∈ desired →
    e ∈ routes_ s' ∧ ∃ d, d ∈ nl_live k' ∧ route_matches_live e d = true.
Proof.
  intros Hcan Hrep Hslots Htr Hdry Hrun e He.
  pose proof (wp_reconcile desired Hcan Hrep Hslots s k Htr Hdry) as Hwp.
  unfold wp in Hwp. rewrite Hrun in Hwp. destruct Hwp as (_ & _ & _ & Hset). by apply Hset.
Qed.
