(* ===== verification/RouteTableRetire.v ===== *)
(** * Route table: retiring obsolete routes

    What [remove_obsolete] has achieved when it reports no uncertain table. *)

From Stdlib Require Import ZArith Lia Ascii String.
From stdpp Require Import base gmap strings list.
From S2P Require Import Prelude ConfigTypes RoutingPlan KernelRoutes StateError RouteTable.
From S2P Require Import RouteTableSafety RouteTableConverge.
Open Scope Z_scope.

(** ** The slot scan *)

Lemma scan_slot_empty spec live o d :
  scan_slot spec live = (0%nat, o) → d ∈ live → route_occupies_same_slot spec d = false.
Proof.
  intros Hn%scan_slot_count Hd. apply not_true_iff_false. intros Hocc. symmetry in Hn.
  apply nil_length_inv in Hn.
  assert (In d (List.filter (route_occupies_same_slot spec) live)) as Hin
    by (apply filter_In; split; [by apply list_elem_of_In | done]).
  by rewrite Hn in Hin.
Qed.

(** A concrete family makes the dump of [delete_route_if_exact] cover the slot. *)
Lemma slot_family spec d :
  rt_family spec ≠ 0 → route_occupies_same_slot spec d = true → dr_family d = route_family spec.
Proof.
  rewrite occupies_eq. unfold route_family. intros Hf (_ & _ & Hfam & _).
  destruct (Z.eqb_spec (rt_family spec) 0); simpl; [done|]. naive_solver.
Qed.

Section Retire.
Context {K : Type} `{HX : RouteNetlinkExactLaws K}.

Definition slot_empty (spec : RouteSpec) (k : K) : Prop :=
  ∀ d, d ∈ nl_live k → route_occupies_same_slot spec d = false.

(** The fields are untouched and the kernel has lost routes only. *)
Definition shrunk (w w' : World K) : Prop :=
  w'.1 = w.1 ∧ ∀ d, d ∈ nl_live w'.2 → d ∈ nl_live w.2.

Lemma shrunk_trans w1 w2 w3 : shrunk w1 w2 → shrunk w2 w3 → shrunk w1 w3.
Proof. intros [E1 H1] [E2 H2]. split; [congruence | auto]. Qed.

Lemma wp_dump_shrunk f w :
  wp (dump_routes f) (λ l w', shrunk w w' ∧
        ∀ d, d ∈ l ↔ d ∈ nl_live w'.2 ∧ (f = 0 ∨ dr_family d = f)) (λ _, shrunk w) w.
Proof.
  destruct w as [s k]. unfold wp, dump_routes, lift, shrunk. simpl.
  pose proof (law_dump_exact f k) as Hex. pose proof (law_dump_keeps f k) as Hk.
  destruct (nl_dump_routes f k) as [k' [l|e]]; simpl in *.
  - split; [split; [done|]; intros d; apply Hk|]. intros d. rewrite Hk. by apply Hex.
  - split; [done|]. intros d. apply Hk.
Qed.

Lemma wp_delete_shrunk spec w : wp (delete_route spec) (λ _, shrunk w) (λ _, shrunk w) w.
Proof.
  destruct w as [s k]. unfold wp, delete_route, lift, shrunk. simpl.
  pose proof (law_delete_new spec k) as Hk. by destruct (nl_delete_route spec k) as [k' [u|e]].
Qed.

Lemma wp_delete_exact spec w :
  wp (delete_route_if_exact spec)
     (λ r w', shrunk w w' ∧ (r ≠ PreconditionMismatch → rt_family spec ≠ 0 → slot_empty spec w'.2))
     (λ _, shrunk w) w.
Proof.
  unfold delete_route_if_exact. apply wp_bind.
  eapply wp_mono; [apply wp_dump_shrunk | |done]. intros live w1 [Hw1 Hl].
  destruct (scan_slot spec live) as [[|[|n]] [c|]] eqn:Hscan;
    try (apply wp_ret; split; [exact Hw1 | done]).
  1,2: apply wp_ret; split; [exact Hw1|]; intros _ Hf d Hd; apply not_true_iff_false;
    intros Hocc; pose proof (scan_slot_empty spec live _ d Hscan) as Hno;
    rewrite Hno in Hocc; [done|]; apply Hl; split; [done|]; right; by apply slot_family.
  apply wp_bind. eapply wp_mono; [apply wp_delete_shrunk | |].
  2: { intros e w2 Hw2. by eapply shrunk_trans. }
  intros u w2 Hw2. apply wp_bind. eapply wp_mono; [apply wp_dump_shrunk | |].
  2: { intros e w3 Hw3. exact (shrunk_trans _ _ _ (shrunk_trans _ _ _ Hw1 Hw2) Hw3). }
  intros after w3 [Hw3 Hl3].
  pose proof (shrunk_trans _ _ _ (shrunk_trans _ _ _ Hw1 Hw2) Hw3) as Hs.
  destruct (existsb _ after) eqn:Hex; [by apply wp_throw|]. apply wp_ret. split; [done|].
  intros _ Hf d Hd. apply not_true_iff_false. intros Hocc. apply not_true_iff_false in Hex.
  apply Hex, existsb_exists. exists d. split; [|done]. apply list_elem_of_In, Hl3.
  split; [done|]. right. by apply slot_family.
Qed.

(** ** Removing one route *)

Definition quiet (w : World K) : Prop :=
  dry_run_ w.1 = false ∧ pending_replacements_ w.1 = [].

Definition dropped (r : RouteSpec) (w w' : World K) : Prop :=
  (∀ d, d ∈ nl_live w'.2 → d ∈ nl_live w.2)
  ∧ (r ∈ routes_ w.1 → r ∈ owned_routes_ w.1 → rt_family r ≠ 0 → slot_empty r w'.2)
  ∧ (∀ o, o ≠ r → o ∈ owned_routes_ w.1 → o ∈ owned_routes_ w'.1)
  ∧ routes_ w'.1 = erase_first (λ x, routes_equal x r) (routes_ w.1).

Lemma wp_release r owned w :
  quiet w →
  wp (release_owned r owned)
     (λ b w', shrunk w w' ∧ (b = true → rt_family owned ≠ 0 → slot_empty owned w'.2))
     (λ _ _, False) w.
Proof.
  intros [Hdry Hpend]. unfold release_owned. apply wp_bind, wp_gets. rewrite Hpend. simpl.
  apply wp_catch, wp_bind, wp_gets. rewrite law_supports_exact. apply wp_bind.
  eapply wp_mono; [apply wp_delete_exact | |].
  - intros [] w1 [Hw1 Hs]; apply wp_ret; (split; [done|]); naive_solver.
  - intros e w1 Hw1. apply wp_ret. split; [done|]. intros [=].
Qed.

Lemma erase_first_absent (l : list RouteSpec) r :
  r ∉ l → erase_first (λ x, routes_equal x r) l = l.
Proof.
  induction l as [|x l IH]; intros Hr; simpl; [done|]. destruct (routes_equal x r) eqn:Hx.
  - apply routes_equal_eq in Hx as ->. set_solver.
  - rewrite IH; set_solver.
Qed.

Lemma wp_remove r w :
  quiet w →
  wp (remove r) (λ b w', quiet w' ∧ (b = true → dropped r w w')) (λ _ _, False) w.
Proof.
  intros Hq. unfold remove. apply wp_bind, wp_gets.
  destruct (tracked_in r (routes_ w.1)) eqn:Htr; simpl.
  2: { apply wp_ret. split; [done|]. intros _.
    assert (r ∉ routes_ w.1) as Hr by (intros Hin%tracked_in_elem; congruence).
    split; [done|]. split; [done|]. split; [done|]. by rewrite erase_first_absent. }
  apply wp_bind, wp_gets, wp_bind, wp_gets.
  assert (∀ w1, shrunk w w1 → (r ∈ owned_routes_ w.1 → rt_family r ≠ 0 → slot_empty r w1.2) →
    wp (_ ← update (λ s, set_owned (erase_first (λ r0, routes_equal r0 r) (owned_routes_ s)) s);
        _ ← forget_repair_record r;
        _ ← update (λ s, set_routes (erase_first (λ r0, routes_equal r0 r) (routes_ s)) s);
        mret true : RT K bool)
       (λ b w', quiet w' ∧ (b = true → dropped r w w')) (λ _ _, False) w1) as Hfin.
  { intros [s1 k1] [Heq Hlive] Hslot. simpl in Heq. subst s1.
    apply wp_bind, wp_modify, wp_bind, wp_modify, wp_bind, wp_modify, wp_ret.
    split; [exact Hq|]. intros _. split; [done|]. split; [intros _; apply Hslot|].
    split; [|done]. intros o Ho Hin. simpl. by apply elem_of_erase_first. }
  apply wp_bind. rewrite (proj1 Hq).
  destruct (List.find _ _) as [o|] eqn:Hfind.
  - apply find_some in Hfind as [_ Heq]. apply routes_equal_eq in Heq as ->.
    eapply wp_mono; [by apply wp_release | |done]. intros [|] w1 [Hw1 Hs].
    + apply Hfin; [done|]. intros _. by apply Hs.
    + apply wp_ret. split; [|done]. destruct Hw1 as [Heq _]. unfold quiet. by rewrite Heq.
  - apply wp_ret. apply Hfin; [done|]. intros Hin. exfalso. rewrite list_elem_of_In in Hin.
    apply (find_none _ _ Hfind) in Hin. by rewrite (proj2 (routes_equal_eq _ _)) in Hin.
Qed.

(** ** The whole pass *)

Section Pass.
Context (desired : list RouteSpec).

Definition wanted (d : DumpedRoute) : Prop :=
  ∃ e, e ∈ desired ∧ route_matches_live e d = true.

Definition obsolete (r : RouteSpec) : bool := negb (existsb (routes_equal r) desired).

(** A live generated route is desired, or recorded for deletion in both ledgers. *)
Definition accounted (rest : list RouteSpec) (w : World K) : Prop :=
  ∀ d, d ∈ nl_live w.2 → is_generated_route_candidate d = true →
       wanted d ∨ (route_spec_from_live d ∈ rest
                   ∧ route_spec_from_live d ∈ owned_routes_ w.1).

Definition adopting (l rest : list DumpedRoute) (w : World K) : Prop :=
  quiet w ∧ (∀ d, d ∈ nl_live w.2 → d ∈ l)
  ∧ ∀ d, d ∈ l → is_generated_route_candidate d = true →
         wanted d ∨ d ∈ rest ∨ (route_spec_from_live d ∈ routes_ w.1
                                ∧ route_spec_from_live d ∈ owned_routes_ w.1).

Lemma wp_push_unless (p : RouteTableState → list RouteSpec) spec
    (push : RT K unit) (Q : unit → World K → Prop) (X : RouteError → World K → Prop) w :
  (spec ∈ p w.1 → Q () w) → (spec ∉ p w.1 → wp push Q X w) →
  wp (b ← field (λ s, tracked_in spec (p s)); if b : bool then mret () else push) Q X w.
Proof.
  intros Hin Hout. apply wp_bind, wp_gets. destruct (tracked_in spec (p w.1)) eqn:Ht.
  - by apply wp_ret, Hin, tracked_in_elem.
  - apply Hout. intros Hc%tracked_in_elem. congruence.
Qed.

Lemma wp_adopt_orphan l d rest w :
  adopting l (d :: rest) w →
  wp (adopt_orphan desired d) (λ _, adopting l rest) (λ _ _, False) w.
Proof.
  intros (Hq & Hl & Hacc). unfold adopt_orphan.
  assert (∀ w', quiet w' → w'.2 = w.2 →
    (∀ o, o ∈ routes_ w.1 → o ∈ routes_ w'.1) → (∀ o, o ∈ owned_routes_ w.1 → o ∈ owned_routes_ w'.1) →
    (is_generated_route_candidate d = true → wanted d ∨
       (route_spec_from_live d ∈ routes_ w'.1 ∧ route_spec_from_live d ∈ owned_routes_ w'.1)) →
    adopting l rest w') as Hgoal.
  { intros w' Hq' Hk Hr Ho Hd. split; [done|]. rewrite Hk. split; [done|]. intros d' Hd' Hc.
    destruct (Hacc d' Hd' Hc) as [?|[Hin|[? ?]]]; [by left| |by right; right; auto].
    apply list_elem_of_In in Hin as [->|Hin%list_elem_of_In]; [|by right; left].
    destruct (Hd Hc) as [?|?]; auto. }
  destruct (_ || _) eqn:Hb.
  { apply wp_ret, Hgoal; [done|done|done|done|]. intros Hc. left. rewrite Hc in Hb.
    apply existsb_exists in Hb as (e & He & Hm). exists e. by rewrite list_elem_of_In. }
  cbv zeta. set (o := route_spec_from_live d) in *. unfold is_tracked.
  apply wp_bind, wp_gets, wp_bind.
  assert (∀ w', quiet w' → w'.2 = w.2 → (∀ x, x ∈ routes_ w.1 → x ∈ routes_ w'.1) →
    owned_routes_ w'.1 = owned_routes_ w.1 → o ∈ routes_ w'.1 →
    wp (b ← field (λ s, tracked_in o (owned_routes_ s)); if b : bool then mret () else push_owned o)
       (λ _, adopting l rest) (λ _ _, False) w') as Hown.
  { intros w' Hq' Hk Hr Ho Hin. apply wp_push_unless; [|intros _; apply wp_modify].
    - intros Hin'. apply Hgoal; [done|done|done|by rewrite Ho|auto].
    - apply Hgoal; [done|done|done| |]; simpl; rewrite Ho; set_solver. }
  destruct (tracked_in o (routes_ w.1)) eqn:Ht.
  - apply wp_ret, Hown; [done|done|done|done|]. by apply tracked_in_elem.
  - apply wp_modify, Hown; [done|done| |done|]; simpl; set_solver.
Qed.

Lemma wp_adopt_orphans w :
  quiet w →
  wp (adopt_generated_orphans desired)
     (λ _ w', quiet w' ∧ accounted (routes_ w'.1) w') (λ _ _, True) w.
Proof.
  intros Hq. unfold adopt_generated_orphans. apply wp_bind, wp_gets. rewrite (proj1 Hq).
  apply wp_bind. eapply wp_mono; [apply wp_dump_shrunk | |done]. intros l w1 [[Heq _] Hl].
  eapply wp_mono; [apply (wp_mfor _ (adopting l)) | |].
  - split; [unfold quiet; by rewrite Heq|]. split; [intros d Hd; apply Hl; auto | auto].
  - intros d rest w2 Hw2. exact (wp_adopt_orphan l d rest w2 Hw2).
  - intros u w2 (Hq2 & Hl2 & Hacc). split; [done|]. intros d Hd Hc.
    destruct (Hacc d (Hl2 d Hd) Hc) as [?|[Hin|?]]; [auto | by apply not_elem_of_nil in Hin | auto].
  - done.
Qed.

(** [u] is empty only while every visited route could be removed. *)
Definition retiring (u : gset Z) (rest : list RouteSpec) (w : World K) : Prop :=
  quiet w ∧ (u = ∅ → accounted rest w
                     ∧ List.filter obsolete (routes_ w.1) ≡ₚ List.filter obsolete rest).

Lemma erase_first_perm (p : RouteSpec → bool) r l :
  r ∈ l → p r = true →
  List.filter p l ≡ₚ r :: List.filter p (erase_first (λ x, routes_equal x r) l).
Proof.
  intros Hin Hp. induction l as [|x l IH]; [by apply not_elem_of_nil in Hin|]. simpl.
  destruct (routes_equal x r) eqn:Hx.
  - apply routes_equal_eq in Hx as ->. by rewrite Hp.
  - assert (r ∈ l) as Hl.
    { apply list_elem_of_In in Hin as [->|?]; [|by apply list_elem_of_In].
      by rewrite (proj2 (routes_equal_eq _ _)) in Hx. }
    specialize (IH Hl). simpl. destruct (p x); [|done].
    rewrite IH. apply Permutation_swap.
Qed.

Lemma obsolete_not_desired r : obsolete r = true ↔ r ∉ desired.
Proof.
  unfold obsolete. rewrite negb_true_iff, <- not_true_iff_false, existsb_exists.
  setoid_rewrite routes_equal_eq. setoid_rewrite <- list_elem_of_In. naive_solver.
Qed.

(** One successful removal discharges the head of [rest]. *)
Lemma retiring_dropped r rest w w' :
  (∀ k d, d ∈ nl_live (k : K) → dr_family d ≠ 0) → obsolete r = true →
  retiring ∅ (r :: rest) w → quiet w' → dropped r w w' → retiring ∅ rest w'.
Proof.
  intros Hfam Hr [_ Hret] Hq' (Hlive & Hslot & Hown & Hroutes).
  destruct (Hret eq_refl) as [Hacc Hperm]. split; [done|]. intros _.
  simpl in Hperm. rewrite Hr in Hperm.
  assert (r ∈ routes_ w.1) as Hin.
  { assert (r ∈ List.filter obsolete (routes_ w.1)) as Hf by (rewrite Hperm; by left).
    apply list_elem_of_In, filter_In in Hf as [Hf _]. by apply list_elem_of_In. }
  split.
  - intros d Hd Hc. destruct (Hacc d (Hlive d Hd) Hc) as [?|[Hrest Ho]]; [by left|].
    destruct (decide (route_spec_from_live d = r)) as [<-|Hne].
    + exfalso. specialize (Hslot Hin Ho (Hfam _ _ Hd) d Hd). by rewrite occupies_from_live in Hslot.
    + right. split; [set_solver | by apply Hown].
  - rewrite Hroutes. apply (Permutation_cons_inv (a := r)). rewrite <- erase_first_perm; done.
Qed.

Lemma wp_retire_loop protected w :
  quiet w → accounted (routes_ w.1) w →
  wp (mfold (λ uncertain route,
        if existsb (routes_equal route) desired then mret uncertain
        else retire protected uncertain route) ∅ (routes_ w.1))
     (λ u, retiring u []) (λ _ _, False) w.
Proof.
  intros Hq Hacc. apply (wp_mfold _ retiring); [by split|].
  intros u r rest w1 [Hq1 Hw1]. destruct (existsb _ desired) eqn:Hex.
  { apply wp_ret. split; [done|]. intros Hu. destruct (Hw1 Hu) as [Hacc1 Hperm].
    assert (obsolete r = false) as Hob by (unfold obsolete; by rewrite Hex).
    simpl in Hperm. rewrite Hob in Hperm. split; [|done]. intros d Hd Hc.
    destruct (Hacc1 d Hd Hc) as [?|[Hin Ho]]; [by left|].
    apply list_elem_of_In in Hin as [Heq|Hin]; [|right; by rewrite list_elem_of_In].
    left. exists r. split; [|subst r; apply matches_from_live].
    apply not_true_iff_false in Hob. rewrite obsolete_not_desired in Hob.
    by apply dec_stable. }
  assert (obsolete r = true) as Hob by (unfold obsolete; by rewrite Hex).
  assert (∀ u' : gset Z, {[rt_table r]} ∪ u' ≠ ∅) as Hne by set_solver.
  unfold retire. destruct (decide _); [apply wp_ret; split; [done | by intros []%Hne]|].
  apply wp_bind. eapply wp_mono; [by apply wp_remove | |done].
  intros [|] w2 [Hq2 Hd]; apply wp_ret; [|by split; [|intros []%Hne]]. split; [done|]. intros Hu. subst u.
  by destruct (retiring_dropped r rest w1 w2 law_live_family Hob (conj Hq1 Hw1) Hq2 (Hd eq_refl))
    as [_ Hret]; apply Hret.
Qed.

Lemma wp_remove_obsolete protected w :
  quiet w →
  wp (remove_obsolete desired protected)
     (λ u w', u = ∅ → (∀ d, d ∈ nl_live w'.2 → is_generated_route_candidate d = true → wanted d)
                      ∧ ∀ r, r ∈ routes_ w'.1 → r ∈ desired) (λ _ _, True) w.
Proof.
  intros Hq. unfold remove_obsolete. apply wp_bind.
  eapply wp_mono; [by apply wp_adopt_orphans | |done]. intros u1 w1 [Hq1 Hacc].
  apply wp_bind, wp_gets. eapply wp_mono; [by apply wp_retire_loop | |done].
  intros u w2 [_ Hret] Hu. destruct (Hret Hu) as [Hacc2 Hperm]. split.
  - intros d Hd Hc. destruct (Hacc2 d Hd Hc) as [?|[Hin _]]; [done|by apply not_elem_of_nil in Hin].
  - intros r Hr. simpl in Hperm. symmetry in Hperm. apply Permutation_nil in Hperm.
    destruct (obsolete r) eqn:Hob.
    + assert (In r (List.filter obsolete (routes_ w2.1))) as Hin
        by (apply filter_In; split; [by apply list_elem_of_In | done]).
      by rewrite Hperm in Hin.
    + apply not_true_iff_false in Hob. rewrite obsolete_not_desired in Hob. by apply dec_stable.
Qed.
End Pass.
End Retire.

(** C35. When [remove_obsolete] reports no uncertain table, the pass is complete: every
    route of the program that the kernel still holds, whether this process created
    it or an earlier one left it, matches a desired route, and only desired routes
    remain tracked. *)
Theorem remove_obsolete_complete {K : Type} `{RouteNetlinkExactLaws K}
    (desired : list RouteSpec) (protected : gset Z) (s s' : RouteTableState) (k k' : K) :
  dry_run_ s = false → pending_replacements_ s = [] →
  remove_obsolete desired protected (s, k) = ((s', k'), Ok ∅) →
  (∀ d, d ∈ nl_live k' → is_generated_route_candidate d = true →
        ∃ e, e ∈ desired ∧ route_matches_live e d = true)
  ∧ ∀ r, r ∈ routes_ s' → r ∈ desired.
Proof.
  intros Hdry Hpend Hrun.
  pose proof (wp_remove_obsolete desired protected (s, k) (conj Hdry Hpend)) as Hwp.
  unfold wp in Hwp. rewrite Hrun in Hwp. by apply Hwp.
Qed.
