(* ===== verification/RouteTableModel.v ===== *)
(** * A route kernel that satisfies the laws

    A list of routes with the slot rules of rtnetlink, a set of interfaces that
    are up, a clock, and a script of faults that makes chosen calls fail. It
    instantiates the contracts of the route table, so the theorems apply to it
    and the table's code can be run on concrete kernels. *)

From Stdlib Require Import ZArith Lia Ascii String.
From stdpp Require Import base gmap strings list.
From S2P Require Import Prelude ConfigTypes RoutingPlan KernelRoutes StateError RouteTable.
From S2P Require Import RouteTableSafety RouteTableConverge RouteTableRetire.
Open Scope Z_scope.

Record ListKernel := {
  lk_routes : list DumpedRoute;
  lk_faults : list bool;
  lk_up : list string;
  lk_clock : Z;
}.

(** The shapes a route can have in a dump. *)
Definition reported (d : DumpedRoute) : bool :=
  negb (dr_family d =? 0) && negb ((dr_family d =? AF_INET6) && (dr_metric d =? 0))
  && (0 <=? dr_metric d) && negb (dr_table d =? 0)
  && negb (dr_blackhole d && dr_unreachable d)
  && (negb (dr_blackhole d || dr_unreachable d)
      || (opt_eqb (dr_interface d) None && opt_eqb (dr_gateway d) None)).

Definition lk_live (k : ListKernel) : list DumpedRoute := List.filter reported (lk_routes k).

Definition table_of (spec : RouteSpec) : Z := if rt_table spec =? 0 then 254 else rt_table spec.

Definition metric_of (spec : RouteSpec) : Z :=
  if (route_family spec =? AF_INET6) && (rt_metric spec =? 0) then 1024 else rt_metric spec.

(** The route the kernel holds after installing [spec]. *)
Definition realise (spec : RouteSpec) : DumpedRoute :=
  let special := rt_blackhole spec || rt_unreachable spec in
  {| dr_destination := rt_destination spec; dr_table := table_of spec;
     dr_interface := if special then None else rt_interface spec;
     dr_gateway := if special then None else rt_gateway spec;
     dr_blackhole := rt_blackhole spec;
     dr_unreachable := rt_unreachable spec && negb (rt_blackhole spec);
     dr_family := route_family spec; dr_metric := metric_of spec;
     dr_protocol := rt_protocol spec; dr_exact_identity_representable := true |}.

Definition in_slot (spec : RouteSpec) (d : DumpedRoute) : bool :=
  String.eqb (rt_destination spec) (dr_destination d) && (table_of spec =? dr_table d)
  && (route_family spec =? dr_family d) && (metric_of spec =? dr_metric d).

Definition with_routes (l : list DumpedRoute) (k : ListKernel) : ListKernel :=
  {| lk_routes := l; lk_faults := lk_faults k; lk_up := lk_up k; lk_clock := lk_clock k |}.

Definition link_missing (spec : RouteSpec) (k : ListKernel) : bool :=
  match rt_interface spec with
  | Some i => negb (rt_blackhole spec || rt_unreachable spec)
              && negb (existsb (String.eqb i) (lk_up k))
  | None => false
  end.

(** Runs [op] unless the script says that this call fails. *)
Definition scripted {A} (op : ListKernel → ListKernel * result RouteError A) (k : ListKernel)
    : ListKernel * result RouteError A :=
  let k' := {| lk_routes := lk_routes k; lk_faults := tl (lk_faults k); lk_up := lk_up k;
               lk_clock := lk_clock k |} in
  if hd false (lk_faults k) then (k', Throw (NetlinkError BackendError)) else op k'.

Definition lk_add (spec : RouteSpec) : ListKernel → ListKernel * result RouteError RouteAddResult :=
  scripted (λ k,
    if link_missing spec k then (k, Throw RouteInterfaceUnavailableError)
    else if existsb (in_slot spec) (lk_live k) then (k, Ok AddAlreadyPresent)
    else (with_routes (lk_routes k ++ [realise spec]) k, Ok AddCreated)).

Definition lk_replace (spec : RouteSpec) : ListKernel → ListKernel * result RouteError unit :=
  scripted (λ k,
    if link_missing spec k then (k, Throw RouteInterfaceUnavailableError)
    else (with_routes (List.filter (λ d, negb (in_slot spec d)) (lk_routes k) ++ [realise spec]) k,
          Ok ())).

(** [RTM_DELROUTE]: a zero metric is a wildcard, the lowest metric goes first. *)
Definition delete_candidate (spec : RouteSpec) (d : DumpedRoute) : bool :=
  reported d && String.eqb (rt_destination spec) (dr_destination d) && (table_of spec =? dr_table d)
  && (route_family spec =? dr_family d)
  && ((rt_protocol spec =? 0) || (rt_protocol spec =? dr_protocol d))
  && Bool.eqb (rt_blackhole spec) (dr_blackhole d)
  && Bool.eqb (rt_unreachable spec) (dr_unreachable d)
  && (opt_eqb (rt_interface spec) None || opt_eqb (rt_interface spec) (dr_interface d))
  && (opt_eqb (rt_gateway spec) None || opt_eqb (rt_gateway spec) (dr_gateway d))
  && ((rt_metric spec =? 0) || (rt_metric spec =? dr_metric d)).

Definition lowest (l : list DumpedRoute) : option DumpedRoute :=
  fold_left (λ best d,
    match best with
    | Some b => if dr_metric d <? dr_metric b then Some d else best
    | None => Some d
    end) l None.

#[export] Instance DumpedRoute_eq_dec : EqDecision DumpedRoute.
Proof. solve_decision. Defined.

Definition lk_delete (spec : RouteSpec) : ListKernel → ListKernel * result RouteError unit :=
  scripted (λ k,
    if link_missing spec k then (k, Ok ())
    else match lowest (List.filter (delete_candidate spec) (lk_routes k)) with
         | Some x => (with_routes (List.filter (λ d, negb (bool_decide (d = x))) (lk_routes k)) k, Ok ())
         | None => (k, Ok ())
         end).

Definition lk_dump (family : Z) : ListKernel → ListKernel * result RouteError (list DumpedRoute) :=
  scripted (λ k,
    (k, Ok (List.filter (λ d, (family =? 0) || (dr_family d =? family)) (lk_live k)))).

#[export] Instance list_kernel : RouteNetlink ListKernel := {
  nl_live := lk_live;
  nl_supports_exact_route_transaction := λ _, true;
  nl_add_route := lk_add;
  nl_replace_route := lk_replace;
  nl_delete_route := lk_delete;
  nl_dump_routes := lk_dump;
  nl_interface_readiness := λ name k, (k, if existsb (String.eqb name) (lk_up k) then Up else Missing);
  nl_now := λ k, ({| lk_routes := lk_routes k; lk_faults := lk_faults k; lk_up := lk_up k;
                     lk_clock := lk_clock k + seconds 1 |}, lk_clock k);
}.

(** ** The laws *)

Lemma elem_of_lk_live d k : d ∈ lk_live k ↔ d ∈ lk_routes k ∧ reported d = true.
Proof. unfold lk_live. by rewrite !list_elem_of_In, filter_In. Qed.

Lemma elem_of_filter_bool {A} (p : A → bool) l x : x ∈ List.filter p l ↔ x ∈ l ∧ p x = true.
Proof. by rewrite !list_elem_of_In, filter_In. Qed.

Lemma reported_eq d :
  reported d = true → dr_family d ≠ 0 ∧ ¬ (dr_family d = AF_INET6 ∧ dr_metric d = 0)
  ∧ 0 ≤ dr_metric d ∧ dr_table d ≠ 0 ∧ ¬ (dr_blackhole d = true ∧ dr_unreachable d = true)
  ∧ (dr_blackhole d = true ∨ dr_unreachable d = true → dr_interface d = None ∧ dr_gateway d = None).
Proof.
  unfold reported. rewrite !andb_true_iff, !negb_true_iff, !Z.eqb_neq, Z.leb_le, orb_true_iff,
    !andb_true_iff, negb_true_iff, !opt_eqb_eq, <- !not_true_iff_false, !andb_true_iff,
    orb_true_iff, !Z.eqb_eq. tauto.
Qed.

(** A property of the live routes that the operation keeps is kept under faults. *)
Lemma scripted_live {A} (P : list DumpedRoute → Prop)
    (op : ListKernel → ListKernel * result RouteError A) k :
  P (lk_routes k) → (∀ k', lk_routes k' = lk_routes k → P (lk_routes (op k').1)) →
  P (lk_routes (scripted op k).1).
Proof. intros Hk Hop. unfold scripted. destruct (hd false _); [done | by apply Hop]. Qed.

Lemma route_family_nonzero spec : route_family spec ≠ 0.
Proof.
  unfold route_family, detect_family, AF_INET, AF_INET6.
  destruct (Z.eqb_spec (rt_family spec) 0); simpl; [|done].
  destruct (String.eqb _ _); [done|]. by destruct (has_char _ _).
Qed.

Lemma route_family_spec spec : rt_family spec = 0 ∨ rt_family spec = route_family spec.
Proof. unfold route_family. destruct (Z.eqb_spec (rt_family spec) 0); auto. Qed.

Lemma in_slot_occupies spec d :
  rt_table spec ≠ 0 → in_slot spec d = true → route_occupies_same_slot spec d = true.
Proof.
  unfold in_slot. rewrite !andb_true_iff, String.eqb_eq, !Z.eqb_eq.
  intros Ht [[[Hd Htab] Hf] Hm]. apply occupies_eq. rewrite metric_matches_eq.
  unfold table_of in Htab. destruct (Z.eqb_spec (rt_table spec) 0); [done|].
  pose proof (route_family_spec spec) as Hfam. rewrite Hf in Hfam.
  split; [done|]. split; [done|]. split; [done|]. unfold metric_of in Hm. rewrite Hf in Hm.
  destruct (Z.eqb_spec (dr_family d) AF_INET6), (Z.eqb_spec (rt_metric spec) 0); simpl in Hm; auto.
Qed.

Lemma addressable_table spec : addressable (K := ListKernel) spec → rt_table spec ≠ 0.
Proof.
  intros (k & d & Hd & Hocc). apply elem_of_lk_live in Hd as [_ Hrep%reported_eq].
  apply occupies_eq in Hocc as (_ & -> & _). tauto.
Qed.

Lemma lowest_spec l :
  match lowest l with
  | Some x => x ∈ l ∧ ∀ y, y ∈ l → dr_metric x ≤ dr_metric y
  | None => l = []
  end.
Proof.
  unfold lowest.
  assert (∀ l best seen, (match best with
      | Some x => x ∈ seen ∧ ∀ y, y ∈ seen → dr_metric x ≤ dr_metric y
      | None => seen = [] end) →
    match fold_left (λ best d, match best with
      | Some b => if dr_metric d <? dr_metric b then Some d else best
      | None => Some d end) l best with
    | Some x => x ∈ seen ++ l ∧ ∀ y, y ∈ seen ++ l → dr_metric x ≤ dr_metric y
    | None => seen ++ l = [] end) as Hgen.
  { clear l. induction l as [|d l IH]; intros best seen Hb; simpl.
    - rewrite app_nil_r. exact Hb.
    - rewrite cons_middle, (assoc_L (++)). apply IH. destruct best as [b|].
      + destruct Hb as [Hin Hmin]. destruct (Z.ltb_spec (dr_metric d) (dr_metric b)).
        * split; [set_solver|]. intros y [Hy| ->%list_elem_of_singleton]%elem_of_app; [|lia].
          specialize (Hmin y Hy). lia.
        * split; [set_solver|]. intros y [Hy| ->%list_elem_of_singleton]%elem_of_app; [auto|lia].
      + subst seen. simpl. split; [set_solver|]. intros y ->%list_elem_of_singleton. lia. }
  exact (Hgen l None [] eq_refl).
Qed.

Lemma candidate_eq spec d :
  delete_candidate spec d = true →
  reported d = true ∧ rt_destination spec = dr_destination d ∧ table_of spec = dr_table d
  ∧ route_family spec = dr_family d ∧ (rt_protocol spec = 0 ∨ rt_protocol spec = dr_protocol d)
  ∧ (rt_metric spec = 0 ∨ rt_metric spec = dr_metric d).
Proof.
  unfold delete_candidate. rewrite !andb_true_iff, !orb_true_iff, String.eqb_eq, !Z.eqb_eq. tauto.
Qed.

Lemma candidate_self d :
  reported d = true → delete_candidate (route_spec_from_live d) d = true.
Proof.
  intros Hrep. pose proof (reported_eq d Hrep) as (Hf & _ & _ & Ht & _).
  unfold delete_candidate, table_of, route_family. simpl.
  rewrite Hrep, String.eqb_refl, !Bool.eqb_reflx, !Z.eqb_refl.
  rewrite (proj2 (opt_eqb_eq (dr_interface d) _) eq_refl), (proj2 (opt_eqb_eq (dr_gateway d) _) eq_refl).
  destruct (Z.eqb_spec (dr_table d) 0), (Z.eqb_spec (dr_family d) 0); try done.
  simpl. by rewrite !Z.eqb_refl, !orb_true_r.
Qed.

Lemma delete_keeps_other spec k d :
  d ∈ lk_routes k →
  (∀ x, lowest (List.filter (delete_candidate spec) (lk_routes k)) = Some x → d ≠ x) →
  d ∈ lk_routes (lk_delete spec k).1.
Proof.
  intros Hd Hx. apply (scripted_live (λ l, d ∈ l)); [done|]. intros k' Hk'. destruct (link_missing spec k').
  { simpl. by rewrite Hk'. }
  rewrite Hk'. destruct (lowest _) as [x|] eqn:Hl; simpl; [|by rewrite Hk'].
  apply elem_of_filter_bool. split; [done|]. apply negb_true_iff, bool_decide_eq_false. by apply Hx.
Qed.

#[export] Instance list_kernel_laws : RouteNetlinkLaws ListKernel.
Proof.
  split.
  - intros k d [_ Hrep%reported_eq]%elem_of_lk_live. tauto.
  - intros f k d. simpl. rewrite !elem_of_lk_live.
    apply (scripted_live (λ l, d ∈ l ∧ reported d = true ↔ d ∈ lk_routes k ∧ reported d = true));
      [done|]. intros k' Hk'. simpl. by rewrite Hk'.
  - intros f k l d. simpl. unfold lk_dump, scripted. destruct (hd false _); [done|].
    intros [= <-]. rewrite elem_of_filter_bool, orb_true_iff, !Z.eqb_eq. done.
  - intros spec k d. simpl. rewrite !elem_of_lk_live. intros [Hd Hrep]. split; [|done].
    apply (scripted_live (λ l, d ∈ l)); [done|]. intros k' Hk'.
    destruct (link_missing spec k'); simpl; [|destruct (existsb _ _); simpl]; rewrite Hk'; set_solver.
  - intros spec k d. simpl. rewrite !elem_of_lk_live. intros [Hd Hrep]. revert Hd.
    apply (scripted_live (λ l, d ∈ l → _)); [tauto|]. intros k' Hk'.
    destruct (link_missing spec k'); simpl; [|destruct (existsb _ _); simpl]; rewrite Hk'; try tauto.
    intros [?| ->%list_elem_of_singleton]%elem_of_app; [tauto|by right].
  - intros spec k d Ha. simpl. rewrite !elem_of_lk_live. intros [Hd Hrep] Hocc. split; [|done].
    apply (scripted_live (λ l, d ∈ l)); [done|]. intros k' Hk'.
    destruct (link_missing spec k'); simpl; rewrite Hk'; [done|].
    apply elem_of_app. left. apply elem_of_filter_bool. split; [done|]. apply negb_true_iff.
    apply not_true_iff_false. intros Hslot. apply addressable_table in Ha.
    by rewrite in_slot_occupies in Hocc.
  - intros spec k d. simpl. rewrite !elem_of_lk_live. intros [Hd Hrep]. revert Hd.
    apply (scripted_live (λ l, d ∈ l → _)); [tauto|]. intros k' Hk'.
    destruct (link_missing spec k'); simpl; rewrite Hk'; [tauto|].
    intros [[? _]%elem_of_filter_bool| ->%list_elem_of_singleton]%elem_of_app; [tauto|by right].
  - intros spec k d Hp. simpl. rewrite !elem_of_lk_live. intros [Hd Hrep] Hne. split; [|done].
    apply delete_keeps_other; [done|]. intros x Hx ->. pose proof (lowest_spec
      (List.filter (delete_candidate spec) (lk_routes k))) as Hl. rewrite Hx in Hl.
    destruct Hl as [[_ Hc%candidate_eq]%elem_of_filter_bool _]. naive_solver.
  - intros spec k d. simpl. rewrite !elem_of_lk_live. intros [Hd Hrep]. split; [|done]. revert Hd.
    apply (scripted_live (λ l, d ∈ l → d ∈ lk_routes k)); [done|]. intros k' Hk'.
    destruct (link_missing spec k'); simpl; [by rewrite Hk'|].
    destruct (lowest _); simpl; rewrite Hk'; [|done]. by intros [? _]%elem_of_filter_bool.
  - done.
  - done.
Qed.

Lemma metric_of_cases spec :
  (route_family spec = AF_INET6 ∧ rt_metric spec = 0 ∧ metric_of spec = 1024)
  ∨ (¬ (route_family spec = AF_INET6 ∧ rt_metric spec = 0) ∧ metric_of spec = rt_metric spec).
Proof.
  unfold metric_of. destruct (Z.eqb_spec (route_family spec) AF_INET6), (Z.eqb_spec (rt_metric spec) 0);
    simpl; tauto.
Qed.

(** A specification the kernel can report is realised as written. *)
Lemma realise_matches spec d :
  reported d = true → route_matches_live spec d = true →
  route_matches_live spec (realise spec) = true ∧ reported (realise spec) = true.
Proof.
  intros (Hfam & H6 & Hpos & Ht0 & Hbu & Hspecial)%reported_eq
    (Hdst & Htab & Hi & Hg & Hb & Hu & Hf & Hmet%metric_matches_eq & Hp)%matches_eq.
  rewrite <- Hi, <- Hg, <- Hb, <- Hu in *. rewrite <- Htab in Ht0.
  assert (table_of spec = rt_table spec) as Htable.
  { unfold table_of. by destruct (Z.eqb_spec (rt_table spec) 0). }
  assert (rt_unreachable spec && negb (rt_blackhole spec) = rt_unreachable spec) as Hur
    by (destruct (rt_unreachable spec), (rt_blackhole spec); tauto).
  assert (∀ o : option string, (o = rt_interface spec ∨ o = rt_gateway spec) →
    (if rt_blackhole spec || rt_unreachable spec then None else o) = o) as Hnone.
  { intros o Ho. destruct (rt_blackhole spec), (rt_unreachable spec); simpl; naive_solver. }
  assert (0 ≤ rt_metric spec) as Hmpos by lia.
  pose proof (metric_of_cases spec) as Hmc. pose proof (route_family_spec spec) as Hfs.
  assert (realise spec = {| dr_destination := rt_destination spec; dr_table := rt_table spec;
     dr_interface := rt_interface spec; dr_gateway := rt_gateway spec;
     dr_blackhole := rt_blackhole spec; dr_unreachable := rt_unreachable spec;
     dr_family := route_family spec; dr_metric := metric_of spec;
     dr_protocol := rt_protocol spec; dr_exact_identity_representable := true |}) as ->.
  { unfold realise. by rewrite Htable, Hur, !Hnone by auto. }
  split.
  - apply matches_eq. rewrite metric_matches_eq. simpl. naive_solver.
  - unfold reported. simpl. rewrite !andb_true_iff, !negb_true_iff, andb_false_iff, !Z.eqb_neq,
      Z.leb_le, orb_true_iff, andb_true_iff, negb_true_iff, !opt_eqb_eq.
    pose proof (route_family_nonzero spec).
    assert (metric_of spec ≠ 0 ∨ route_family spec ≠ AF_INET6) by (destruct (Z.eq_dec (route_family spec) AF_INET6); lia).
    split; [split; [split; [split; [split|]|]|]|]; [done|tauto|lia|done| |].
    + destruct (rt_blackhole spec), (rt_unreachable spec); tauto.
    + destruct (rt_blackhole spec), (rt_unreachable spec); simpl; tauto.
Qed.

#[export] Instance list_kernel_exact : RouteNetlinkExactLaws ListKernel.
Proof.
  split.
  - done.
  - intros spec k (k0 & d & [_ Hrep]%elem_of_lk_live & Hm) Hadd. simpl in *.
    destruct (realise_matches spec d Hrep Hm) as [Hrm Hrr]. revert Hadd.
    unfold lk_add, scripted. destruct (hd false _); [done|]. destruct (link_missing _ _); [done|].
    destruct (existsb _ _); [done|]. intros _. exists (realise spec). split; [|done].
    apply elem_of_lk_live. split; [simpl; set_solver | done].
  - intros k d [_ Hrep%reported_eq]%elem_of_lk_live. tauto.
  - intros k c d [Hc Hrep]%elem_of_lk_live Huniq [Hd Hdrep]%elem_of_lk_live Hne. simpl.
    apply elem_of_lk_live. split; [|done]. apply delete_keeps_other; [done|]. intros x Hx ->.
    pose proof (lowest_spec (List.filter (delete_candidate (route_spec_from_live c)) (lk_routes k)))
      as Hl. rewrite Hx in Hl. destruct Hl as [[_ Hcand%candidate_eq]%elem_of_filter_bool Hmin].
    apply Hne, Huniq; [by apply elem_of_lk_live|].
    assert (c ∈ List.filter (delete_candidate (route_spec_from_live c)) (lk_routes k)) as Hcin
      by (apply elem_of_filter_bool; split; [done | by apply candidate_self]).
    specialize (Hmin c Hcin). apply reported_eq in Hrep, Hdrep.
    destruct Hcand as (_ & H1 & H2 & H3 & H4 & H5). simpl in *.
    unfold route_family, table_of in H2, H3. simpl in H2, H3.
    destruct (Z.eqb_spec (dr_table c) 0), (Z.eqb_spec (dr_family c) 0); simpl in H2, H3; try tauto.
    apply occupies_eq. rewrite metric_matches_eq. simpl.
    split; [done|]. split; [done|]. split; [auto|]. lia.
Qed.

(** ** Scenarios *)

Definition via (table : Z) (iface : string) (family metric : Z) : RouteSpec :=
  {| rt_destination := "default"; rt_table := table; rt_interface := Some iface;
     rt_gateway := None; rt_blackhole := false; rt_unreachable := false; rt_family := family;
     rt_metric := metric; rt_protocol := KEEN_PBR_ROUTE_PROTOCOL |}.

Definition with_protocol (protocol : Z) (d : DumpedRoute) : DumpedRoute :=
  {| dr_destination := dr_destination d; dr_table := dr_table d; dr_interface := dr_interface d;
     dr_gateway := dr_gateway d; dr_blackhole := dr_blackhole d;
     dr_unreachable := dr_unreachable d; dr_family := dr_family d; dr_metric := dr_metric d;
     dr_protocol := protocol; dr_exact_identity_representable := true |}.

(** The provider's default route, a static route in a table of ours, the route of
    the previous selection and an orphan of an earlier process. *)
Definition main_default : DumpedRoute := with_protocol 3 (realise (via 254 "eth0" AF_INET 0)).
Definition static_route : DumpedRoute := with_protocol 4 (realise (via 150 "eth0" AF_INET 5)).
Definition old_route : RouteSpec := via 150 "nwg0" AF_INET 0.
Definition orphan : RouteSpec := via 151 "nwg0" AF_INET6 0.

Definition router (faults : list bool) : ListKernel :=
  {| lk_routes := [main_default; static_route; realise old_route; realise orphan];
     lk_faults := faults; lk_up := ["eth0"; "nwg0"; "nwg1"]%string; lk_clock := 0 |}.

Definition desired_routes : list RouteSpec :=
  [via 150 "nwg1" AF_INET 0; via 150 "nwg1" AF_INET6 0; unreachable_route 150 AF_INET 100].

(** A reconciliation whose first backend calls fail, an attempt on a slot held by
    a foreign route, a retry, a rollback and the shutdown. *)
Definition busy_calls : list Call :=
  [CallReconcile desired_routes Strict; CallAdd (via 150 "nwg1" AF_INET 5);
   CallAddMissing desired_routes DeferredRepair; CallRollbackPending;
   CallReconcile desired_routes Strict; CallClear ∅].

Lemma foreign_routes_untouched_witness :
  Forall call_managed busy_calls
  ∧ dr_protocol static_route ≠ KEEN_PBR_GENERATED_ROUTE_PROTOCOL
  ∧ (static_route ∈ nl_live (run_calls busy_calls
        (initial_table false, router [false; false; false; false; true])).2
     ↔ static_route ∈ nl_live (router [false; false; false; false; true])).
Proof.
  assert (Forall call_managed busy_calls) as Hc by (repeat constructor).
  split; [exact Hc|]. split; [discriminate|].
  apply (foreign_routes_untouched busy_calls false (router _) static_route); [exact Hc | discriminate].
Defined.

Definition tracking_old : RouteTableState :=
  {| dry_run_ := false; routes_ := [old_route]; owned_routes_ := [old_route];
     repair_records_ := []; pending_replacements_ := [] |}.

Definition reconciled : World ListKernel :=
  (reconcile desired_routes Strict (tracking_old, router [])).1.

Lemma desired_reportable : Forall (reportable (K := ListKernel)) desired_routes.
Proof.
  apply Forall_forall. intros e He.
  exists {| lk_routes := [realise e]; lk_faults := []; lk_up := []; lk_clock := 0 |}, (realise e).
  unfold desired_routes in He. rewrite !list_elem_of_In in *. simpl in He.
  destruct He as [<-|[<-|[<-|[]]]]; (split; [by left | reflexivity]).
Qed.

Lemma desired_distinct :
  ∀ e1 e2, e1 ∈ desired_routes → e2 ∈ desired_routes → slot_key e1 = slot_key e2 → e1 = e2.
Proof.
  intros e1 e2. unfold desired_routes. rewrite !list_elem_of_In. simpl.
  intros [<-|[<-|[<-|[]]]] [<-|[<-|[<-|[]]]]; unfold slot_key; simpl; congruence.
Qed.

Lemma reconcile_converges_witness :
  reconcile desired_routes Strict (tracking_old, router [])
    = ((reconciled.1, reconciled.2), Ok ())
  ∧ via 150 "nwg1" AF_INET 0 ∈ routes_ reconciled.1
  ∧ ∃ d, d ∈ nl_live reconciled.2 ∧ route_matches_live (via 150 "nwg1" AF_INET 0) d = true.
Proof.
  assert (reconcile desired_routes Strict (tracking_old, router [])
    = ((reconciled.1, reconciled.2), Ok ())) as Hrun by (vm_compute; reflexivity).
  split; [exact Hrun|].
  apply (reconcile_converges desired_routes tracking_old reconciled.1 (router []) reconciled.2).
  - repeat constructor.
  - exact desired_reportable.
  - exact desired_distinct.
  - repeat constructor.
  - reflexivity.
  - exact Hrun.
  - by apply list_elem_of_In; left.
Defined.

(** The orphan and the previous selection leave, the desired routes are installed
    later. *)
Definition retired : World ListKernel :=
  (remove_obsolete desired_routes ∅ (tracking_old, router [])).1.

Lemma remove_obsolete_complete_witness :
  remove_obsolete desired_routes ∅ (tracking_old, router []) = ((retired.1, retired.2), Ok ∅)
  ∧ length (nl_live (router [])) = 4%nat ∧ length (nl_live retired.2) = 2%nat
  ∧ (∀ d, d ∈ nl_live retired.2 → is_generated_route_candidate d = true →
          ∃ e, e ∈ desired_routes ∧ route_matches_live e d = true)
  ∧ ∀ r, r ∈ routes_ retired.1 → r ∈ desired_routes.
Proof.
  assert (remove_obsolete desired_routes ∅ (tracking_old, router [])
    = ((retired.1, retired.2), Ok ∅)) as Hrun by (vm_compute; reflexivity).
  split; [exact Hrun|]. split; [reflexivity|]. split; [reflexivity|].
  by apply (remove_obsolete_complete desired_routes ∅ tracking_old retired.1 (router []) retired.2).
Defined.

(** ** Two observations *)

(** An IPv6 orphan kept in a protected table is tracked under the metric 1024 the
    kernel reports. When its route is desired again (metric 0), the same live
    route stands for both; the reconciliation returns after deleting it. *)
Theorem readopted_ipv6_route_lost :
  let adopted := run_calls [CallRemoveObsolete [] {[150; 151]}] (initial_table false, router []) in
  let '(after, outcome) := reconcile [orphan] Strict adopted in
  existsb (route_matches_live orphan) (nl_live adopted.2) = true
  ∧ outcome = Ok ()
  ∧ existsb (route_matches_live orphan) (nl_live after.2) = false.
Proof. vm_compute. done. Qed.

(** A route replaced in its slot stays in both ledgers: its exact deletion is
    refused because the slot now holds the replacement, so every later pass
    reports the table uncertain and changes nothing. *)
Theorem replaced_route_stays_uncertain :
  let '(after, outcome) := remove_obsolete desired_routes ∅ reconciled in
  after = reconciled
  ∧ (elements <$> match outcome with Ok uncertain => Some uncertain | Throw _ => None end)
    = Some [150]
  ∧ tracked_in old_route (owned_routes_ after.1) = true.
Proof. vm_compute. done. Qed.
