(* ===== verification/PlannedRoutes.v ===== *)
(** * From the plan to the kernel

    The planner of src/src/config/routing_state.cpp meets what the route table of
    src/src/routing/route_table.cpp expects of its input: managed routes in
    canonical form, at most one per kernel slot. A strict reconciliation of a
    plan therefore installs the plan. *)

From Stdlib Require Import ZArith Lia Ascii String.
From stdpp Require Import base gmap strings list sorting.
From S2P Require Import Prelude ConfigTypes FwMark RoutingPlan RoutingPlanProps RoutingPlanClaims KernelRoutes StateError.
From S2P Require Import RouteTable RouteTableSafety RouteTableConverge RouteTableRetire RouteTableModel.
Open Scope Z_scope.

Definition one_per_slot (l : list RouteSpec) : Prop :=
  ∀ r1 r2, r1 ∈ l → r2 ∈ l → slot_key r1 = slot_key r2 → r1 = r2.

(** A route of a generated table: the closing unreachable route, or a default
    route with a metric of the range [lo, hi). *)
Definition planned_shape (t lo hi : Z) (r : RouteSpec) : Prop :=
  rt_destination r = "default"%string ∧ rt_table r = t
  ∧ (rt_family r = AF_INET ∨ rt_family r = AF_INET6) ∧ managed r
  ∧ (closure_route t r ∨ lo ≤ rt_metric r < hi).

Definition planned_list (t lo hi : Z) (l : list RouteSpec) : Prop :=
  Forall (planned_shape t lo hi) l ∧ one_per_slot l.

Lemma closure_route_metric t r : closure_route t r → rt_metric r = 65535.
Proof. by intros [->| ->]. Qed.

Lemma closure_route_family t r1 r2 :
  closure_route t r1 → closure_route t r2 → rt_family r1 = rt_family r2 → r1 = r2.
Proof. intros [->| ->] [->| ->]; simpl; unfold AF_INET, AF_INET6; done. Qed.

Lemma planned_shape_mono t lo hi lo' hi' r :
  planned_shape t lo hi r → lo' ≤ lo → hi ≤ hi' → planned_shape t lo' hi' r.
Proof. intros (? & ? & ? & ? & [?|?]) ??; repeat split; auto; right; lia. Qed.

Lemma planned_list_mono t lo hi lo' hi' l :
  planned_list t lo hi l → lo' ≤ lo → hi ≤ hi' → planned_list t lo' hi' l.
Proof.
  intros [Hs Ho] ??. split; [|done]. eapply Forall_impl; [exact Hs|]. intros r Hr.
  by eapply planned_shape_mono.
Qed.

Lemma planned_list_nil t lo hi : planned_list t lo hi [].
Proof. split; [constructor|]. intros r1 r2 Hr. by apply elem_of_nil in Hr. Qed.

(** Lists with consecutive metric ranges share only closing routes. *)
Lemma planned_list_app t a b c l1 l2 :
  a ≤ b → b ≤ c → c ≤ 65535 → planned_list t a b l1 → planned_list t b c l2 →
  planned_list t a c (l1 ++ l2).
Proof.
  intros Hab Hbc Hc [Hs1 Ho1] [Hs2 Ho2].
  assert (∀ r1 r2, r1 ∈ l1 → r2 ∈ l2 → slot_key r1 = slot_key r2 → r1 = r2) as Hcross.
  { intros r1 r2 Hr1 Hr2 Hkey. rewrite Forall_forall in Hs1. rewrite Forall_forall in Hs2.
    destruct (Hs1 r1 Hr1) as (_ & _ & _ & _ & H1). destruct (Hs2 r2 Hr2) as (_ & _ & _ & _ & H2).
    injection Hkey as _ _ Hf Hm.
    destruct H1 as [H1|H1], H2 as [H2|H2]; [by eapply closure_route_family| | |lia];
      [apply closure_route_metric in H1 | apply closure_route_metric in H2]; lia. }
  split.
  - apply Forall_app. split; (eapply Forall_impl; [eassumption|]); intros r Hr;
      (eapply planned_shape_mono; [exact Hr|lia|lia]).
  - intros r1 r2 [?|?]%elem_of_app [?|?]%elem_of_app Hkey; [auto|auto|symmetry; auto|auto].
Qed.

Section Shape.
Context (ipv6 : bool).

Lemma planned_closures t m ob :
  planned_list t m m (add_routes ipv6 (make_family_closure_routes t ob kUnreachableRouteMetric)).
Proof.
  split.
  - apply Forall_forall. intros r [Hr _]%elem_of_add_routes.
    apply elem_of_closure_routes in Hr as [->| ->]; repeat split; auto; left; unfold closure_route; auto.
  - intros r1 r2 [H1 _]%elem_of_add_routes [H2 _]%elem_of_add_routes [= _ _ Hf _].
    apply elem_of_closure_routes in H1, H2. by eapply closure_route_family.
Qed.

Lemma planned_unreachable t m :
  planned_list t m m (add_routes ipv6 (make_unreachable_routes t kUnreachableRouteMetric)).
Proof.
  split.
  - apply Forall_forall. intros r [Hr _]%elem_of_add_routes.
    apply elem_of_unreachable in Hr as [->| ->]; repeat split; auto; left; unfold closure_route; auto.
  - intros r1 r2 [H1 _]%elem_of_add_routes [H2 _]%elem_of_add_routes [= _ _ Hf _].
    apply elem_of_unreachable in H1, H2. by eapply closure_route_family.
Qed.

Lemma default_routes_managed t ob r : r ∈ make_default_routes t ob → managed r.
Proof.
  unfold make_default_routes. destruct (ob_gateway ob), (ob_gateway6 ob); simpl;
    rewrite ?elem_of_cons, ?elem_of_nil; naive_solver.
Qed.

Lemma default_routes_family t ob r1 r2 :
  r1 ∈ make_default_routes t ob → r2 ∈ make_default_routes t ob →
  rt_family r1 = rt_family r2 → r1 = r2.
Proof.
  unfold make_default_routes. destruct (ob_gateway ob), (ob_gateway6 ob); simpl;
    rewrite ?elem_of_cons, ?elem_of_nil; intros; destruct_or?; subst; done.
Qed.

Lemma planned_usable t m reach ob :
  planned_list t m (m + 1)
    (add_usable ipv6 reach (set_metric m <$> make_default_routes t ob)).1.
Proof.
  split.
  - apply Forall_forall. intros r (Hr & _ & _)%elem_of_add_usable.
    apply list_elem_of_fmap in Hr as (r0 & -> & Hr0).
    pose proof (default_routes_managed _ _ _ Hr0) as Hm.
    apply elem_of_default_routes in Hr0 as [(? & _ & _ & ? & _ & Hf) _].
    split; [done|]. split; [done|]. split; [naive_solver|]. split; [done|]. right. simpl. lia.
  - intros r1 r2 (H1 & _ & _)%elem_of_add_usable (H2 & _ & _)%elem_of_add_usable [= _ _ Hf _].
    apply list_elem_of_fmap in H1 as (x1 & -> & H1), H2 as (x2 & -> & H2). simpl in Hf.
    by rewrite (default_routes_family t ob x1 x2).
Qed.

Lemma planned_usable_zero t reach ob :
  planned_list t 0 1 (add_usable ipv6 reach (make_default_routes t ob)).1.
Proof.
  pose proof (planned_usable t 0 reach ob) as Hp.
  assert (set_metric 0 <$> make_default_routes t ob = make_default_routes t ob) as Heq.
  { unfold make_default_routes. by destruct (ob_gateway ob), (ob_gateway6 ob). }
  by rewrite Heq in Hp.
Qed.
End Shape.

Section Fallbacks.
Context (check : Outbound → OutboundFamilyReachability) (ipv6 : bool).

Lemma planned_fallbacks t sel children m snap :
  0 ≤ m → m + Z.of_nat (length children) ≤ 65535 →
  planned_list t m (m + Z.of_nat (length children))
    (plan_fallbacks check ipv6 t sel children m snap).1.
Proof.
  revert m snap. induction children as [|child rest IH]; intros m snap Hm Hb;
    cbn [plan_fallbacks]; [apply planned_list_nil|].
  cbn [length] in *. rewrite Nat2Z.inj_succ in *.
  assert (∀ snap', planned_list t m (m + Z.succ (Z.of_nat (length rest)))
    (plan_fallbacks check ipv6 t sel rest m snap').1) as Hskip
    by (intros snap'; eapply planned_list_mono; [apply IH; lia|lia|lia]).
  case_bool_decide; [apply Hskip|]. destruct (reachability_for check snap child) as [rch snap'].
  destruct (negb _); [apply Hskip|].
  pose proof (planned_usable ipv6 t m rch child) as Hu.
  pose proof (add_usable_flag ipv6 rch (set_metric m <$> make_default_routes t child)) as Hflag.
  destruct (add_usable _ _ _) as [usable planned]. cbn [fst snd] in *.
  destruct planned; cbn [negb].
  - rewrite u32_id by (unfold is_u32; lia).
    pose proof (IH (m + 1) snap' ltac:(lia) ltac:(lia)) as Hmore.
    destruct (plan_fallbacks _ _ _ _ _ _ _) as [more snap'']. cbn [fst] in *.
    apply (planned_list_app t m (m + 1)); [lia|lia|lia|done|].
    apply (planned_list_app t (m + 1) (m + 1)); [lia|lia|lia|apply planned_closures|].
    eapply planned_list_mono; [exact Hmore|lia|lia].
  - assert (usable = []) as ->.
    { destruct usable as [|r l]; [done|]. assert (false = true) by (apply Hflag; exists r; by left).
      done. }
    pose proof (Hskip snap') as Hmore.
    by destruct (plan_fallbacks _ _ _ _ _ _ _) as [more snap''].
Qed.

Lemma planned_selected t sel snap : planned_list t 0 1 (plan_selected check ipv6 t sel snap).1.1.
Proof.
  destruct sel as [s|]; cbn [plan_selected]; [|apply planned_list_nil].
  destruct (reachability_for check snap s) as [rch snap'].
  destruct (reach_any _ _); [|apply planned_list_nil].
  pose proof (planned_usable_zero ipv6 t rch s) as Hu.
  destruct (add_usable _ _ _) as [usable planned]. cbn [fst snd] in *.
  apply (planned_list_app t 0 1); [lia|lia|lia|done|apply planned_closures].
Qed.
End Fallbacks.

(** Fewer leaves than the metric that stands for an unset IPv6 metric. *)
Definition group_bound (outbounds : list Outbound) : Prop :=
  ∀ ob, ob ∈ outbounds → ob_type ob = URLTEST →
    (length (collect_urltest_leaf_interfaces (S kMaxUrltestDepth) outbounds ob ([], ∅)).1 < 1023)%nat.

Lemma planned_outbound cfg marks check selections ipv6 outbounds mask ts off ob snap :
  group_bound outbounds → ob ∈ outbounds →
  planned_list (safe_table_id ts off) 0 1024
    (ct_routes (plan_outbound cfg marks check selections ipv6 outbounds mask ts off ob snap)).
Proof.
  intros Hbound Hob. unfold plan_outbound. set (t := safe_table_id ts off).
  destruct (ob_type ob) eqn:Et; try apply planned_list_nil;
    destruct (marks !! ob_tag ob); try apply planned_list_nil.
  - unfold plan_interface. destruct (reachability_for check snap ob) as [rch snap'].
    cbn [ct_routes]. apply (planned_list_app t 0 1); [lia|lia|lia| |].
    + destruct (reach_any _ _); [|apply planned_list_nil].
      apply (planned_list_app t 0 1); [lia|lia|lia|apply planned_usable_zero|apply planned_closures].
    + destruct (strict_enforcement_enabled cfg ob); [|apply planned_list_nil].
      eapply planned_list_mono; [apply (planned_unreachable ipv6 t 1)|lia|lia].
  - unfold plan_urltest. specialize (Hbound ob Hob Et).
    set (children := (collect_urltest_leaf_interfaces (S kMaxUrltestDepth) outbounds ob ([], ∅)).1) in *.
    destruct (negb (empty_str _)); cbn [ct_routes].
    + pose proof (planned_selected check ipv6 t
        (resolve_selected_interface (S kMaxUrltestDepth) outbounds selections ob) snap) as Hs.
      destruct (plan_selected _ _ _ _ _) as [[primary planned] snap']. cbn [fst] in Hs.
      pose proof (planned_fallbacks check ipv6 t
        (if planned then ob_tag <$> resolve_selected_interface (S kMaxUrltestDepth) outbounds selections ob
         else None) children 1 snap' ltac:(lia) ltac:(lia)) as Hf.
      destruct (plan_fallbacks _ _ _ _ _ _ _) as [fb snap'']. cbn [fst ct_routes] in *.
      apply (planned_list_app t 0 1024); [lia|lia|lia| |apply planned_unreachable].
      apply (planned_list_app t 0 1); [lia|lia|lia|done|].
      eapply planned_list_mono; [exact Hf|lia|lia].
    + apply (planned_list_app t 0 0); [lia|lia|lia|apply planned_list_nil|].
      eapply planned_list_mono; [apply (planned_unreachable ipv6 t 0)|lia|lia].
Qed.

Lemma planned_canonical t r : planned_shape t 0 1024 r → canonical r = true.
Proof.
  intros (_ & _ & Hf & _ & Hm). apply canonical_eq. split; [done|]. intros [_ H1024].
  destruct Hm as [Hm%closure_route_metric|Hm]; lia.
Qed.

Section Plan.
Context (cfg : Config) (marks : gmap string Z) (reach : gmap string bool)
        (selections : option (gmap string string)) (ipv6 : bool)
        (family_reach : option ReachSnapshot) (plan : PlannedRoutingState) (mask : Z).
Context (Hround : planning_round cfg marks reach selections ipv6 family_reach plan mask)
        (Hbound : group_bound (cfg_obs cfg)).

(** Every planned route comes from one outbound, whose routes are the routes of
    the table. *)
Lemma planned_route_owner r :
  r ∈ plan_routes plan →
  ∃ t l, planned_list t 0 1024 l ∧ r ∈ l ∧ ∀ r', r' ∈ plan_routes plan → rt_table r' = t → r' ∈ l.
Proof.
  pose proof (round_length _ _ _ _ _ _ _ _ Hround) as Hlen.
  destruct Hround as [Hmask Hmarks Htags Hplan Hrange].
  intros (i & ob & o & ct & Hi & Hr)%(plan_route_from _ _ _ _ _ _ _ _ Hplan Hmask).
  exists (safe_table_id (config_table_start cfg) o), (ct_routes ct). split; [|split; [done|]].
  - destruct (iteration_of _ _ _ _ _ _ Hlen _ _ _ _ _ Hi) as (Hob & _ & snap & _ & ->).
    apply planned_outbound; [done|]. by eapply list_elem_of_lookup_2.
  - intros r' Hr' Ht.
    eapply (table_owner cfg marks reach selections ipv6 family_reach plan mask); eauto.
    destruct (ct_consumed ct) eqn:Hc; [done|].
    destruct (consumed_iff_marked _ _ _ _ _ _ _ Hlen _ _ _ _ Hi Hc) as [E _].
    rewrite E in Hr. by apply elem_of_nil in Hr.
Qed.

Lemma planned_shapes r : r ∈ plan_routes plan → ∃ t, planned_shape t 0 1024 r.
Proof.
  intros (t & l & [Hs _] & Hr & _)%planned_route_owner. rewrite Forall_forall in Hs.
  exists t. by apply Hs.
Qed.

Lemma planned_slots : one_per_slot (plan_routes plan).
Proof.
  intros r1 r2 (t & l & [Hs Ho] & H1 & Hall)%planned_route_owner H2 Hkey.
  apply Ho; [done| |done]. apply Hall; [done|]. rewrite Forall_forall in Hs.
  destruct (Hs r1 H1) as (_ & Ht & _). injection Hkey as _ Ht' _ _. congruence.
Qed.
End Plan.

Lemma round_canonical cfg marks reach selections ipv6 family_reach plan mask :
  planning_round cfg marks reach selections ipv6 family_reach plan mask →
  group_bound (cfg_obs cfg) → Forall (λ e, canonical e = true) (plan_routes plan).
Proof.
  intros Hround Hbound. apply Forall_forall. intros r Hr.
  destruct (planned_shapes _ _ _ _ _ _ _ _ Hround Hbound r Hr) as [t Hs].
  by eapply planned_canonical.
Qed.

(** From configuration to kernel: a strict reconciliation of a plan that
    returns has every planned route in the kernel. In particular the kill switch is
    armed: for the mark of a urltest group or a strictly enforced interface and
    every managed family, the table its policy rule names holds a live
    unreachable default route. *)
Theorem planned_generation_installed {K : Type} `{RouteNetlinkExactLaws K}
    cfg marks reach selections ipv6 family_reach plan mask (s s' : RouteTableState) (k k' : K) :
  planning_round cfg marks reach selections ipv6 family_reach plan mask →
  group_bound (cfg_obs cfg) → Forall reportable (plan_routes plan) →
  Forall (λ r, canonical r = true) (routes_ s) → dry_run_ s = false →
  reconcile (plan_routes plan) Strict (s, k) = ((s', k'), Ok ()) →
  (∀ r, r ∈ plan_routes plan →
        r ∈ routes_ s' ∧ ∃ d, d ∈ nl_live k' ∧ route_matches_live r d = true)
  ∧ ∀ ob mark f, ob ∈ cfg_obs cfg → fail_closed cfg ob → marks !! ob_tag ob = Some mark →
      f ∈ managed_families ipv6 →
      ∃ ru d, ru ∈ plan_rules plan ∧ ru_fwmark ru = mark ∧ rule_covers ru f
              ∧ d ∈ nl_live k' ∧ dr_table d = ru_table ru ∧ dr_family d = f
              ∧ dr_destination d = "default"%string ∧ dr_unreachable d = true.
Proof.
  intros Hround Hbound Hrep Htr Hdry Hrun.
  pose proof (wp_reconcile (plan_routes plan) (round_canonical _ _ _ _ _ _ _ _ Hround Hbound) Hrep
    (planned_slots _ _ _ _ _ _ _ _ Hround Hbound) s k Htr Hdry) as Hwp.
  unfold wp in Hwp. rewrite Hrun in Hwp. destruct Hwp as (_ & _ & _ & Hset).
  split; [exact Hset|]. intros ob mark f Hob Hfc Hm Hf.
  destruct (round_fail_closed _ _ _ _ _ _ _ _ Hround ob mark Hob Hfc Hm)
    as (ru & _ & _ & _ & _ & _ & Hru & Hmark & _ & Hall).
  destruct (Hall f Hf) as [Hcov Hun]. destruct (Hset _ Hun) as [_ (d & Hd & Hmatch)].
  apply matches_eq in Hmatch as (Hdst & Htab & _ & _ & _ & Hu & Hfam & _). simpl in *.
  exists ru, d. split_and!; try done; try congruence.
  unfold managed_families, AF_INET, AF_INET6 in Hf.
  destruct ipv6; rewrite !elem_of_cons, elem_of_nil in Hf; naive_solver.
Qed.

(** ** The sample round, on a kernel with routes of an earlier process *)

Lemma reportable_realised l :
  forallb (λ r, reported (realise r) && route_matches_live r (realise r)) l = true →
  Forall (reportable (K := ListKernel)) l.
Proof.
  rewrite forallb_forall. intros Hall. apply Forall_forall. intros r Hr%list_elem_of_In.
  specialize (Hall r Hr). apply andb_true_iff in Hall as [Hrep Hm].
  exists {| lk_routes := [realise r]; lk_faults := []; lk_up := []; lk_clock := 0 |}, (realise r).
  split; [|done]. apply elem_of_lk_live. split; [by left | done].
Qed.

Definition installed_sample : World ListKernel :=
  (reconcile (plan_routes sample_plan) Strict (initial_table false, router [])).1.

Lemma sample_bound : group_bound (cfg_obs sample_cfg).
Proof.
  intros ob Hob Ht. unfold cfg_obs, sample_cfg, sample_config in Hob. simpl in Hob.
  rewrite !elem_of_cons, elem_of_nil in Hob.
  destruct Hob as [->|[->|[->|[]]]]; [done|done|]. vm_compute. lia.
Qed.

Lemma sample_installed :
  reconcile (plan_routes sample_plan) Strict (initial_table false, router [])
    = ((installed_sample.1, installed_sample.2), Ok ()).
Proof. vm_compute. reflexivity. Qed.

Lemma planned_generation_installed_witness :
  ∃ ru d, ru ∈ plan_rules sample_plan ∧ ru_fwmark ru = 65536 ∧ rule_covers ru AF_INET6
          ∧ d ∈ nl_live installed_sample.2 ∧ dr_table d = ru_table ru ∧ dr_family d = AF_INET6
          ∧ dr_destination d = "default"%string ∧ dr_unreachable d = true.
Proof.
  refine (proj2 (planned_generation_installed sample_cfg sample_marks ∅ sample_selection true None
    sample_plan 16711680 (initial_table false) installed_sample.1 (router []) installed_sample.2
    sample_round sample_bound _ _ eq_refl sample_installed) auto_group 65536 AF_INET6 _ _ _ _).
  - apply reportable_realised. vm_compute. reflexivity.
  - constructor.
  - right; right; left.
  - by left.
  - vm_compute. reflexivity.
  - right; left.
Defined.
