(* ===== verification/PolicyRules.v ===== *)
(** * Policy rules

    Models src/src/routing/policy_rule.cpp, the owner of the [ip rule] entries the
    program installs, and [NetlinkManager::delete_rule_if_exact] of
    src/src/routing/netlink.cpp, over an abstract rule backend
    ([RuleNetlink]). A logical rule with family 0 stands for one kernel rule per
    family; the ledger of owned rules is concrete. *)

From Stdlib Require Import ZArith Lia Ascii String.
From stdpp Require Import base gmap list.
From S2P Require Import Prelude ConfigTypes RoutingPlan StateError RouteTable.
Open Scope Z_scope.

(** ** Data *)

(** [struct DumpedRule] *)
Record DumpedRule := {
  du_priority : Z;
  du_fwmark : Z;
  du_fwmask : Z;
  du_table : Z;
  du_family : Z;
  du_exact_identity_representable : bool;
}.

(** [enum class RuleAddResult] *)
Inductive RuleAddResult := RuleCreated | RuleAlreadyPresent.

(** [enum class RuleExactDeleteResult] *)
Inductive RuleExactDeleteResult :=
| RuleDeleted | RuleAlreadyAbsent | RulePreconditionMismatch.

(** The [NetlinkError]s of the rule operations. *)
Inductive RuleError := RuleBackendError | ExactRuleStillPresent.

(** The fields of [class PolicyRuleManager]. *)
Record PolicyRuleState := {
  pm_dry_run : bool;
  pm_rules : list RuleSpec;
  pm_owned_rules : list RuleSpec;
}.

Definition set_rules_ (l : list RuleSpec) (s : PolicyRuleState) : PolicyRuleState :=
  {| pm_dry_run := pm_dry_run s; pm_rules := l; pm_owned_rules := pm_owned_rules s |}.
Definition set_owned_rules (l : list RuleSpec) (s : PolicyRuleState) : PolicyRuleState :=
  {| pm_dry_run := pm_dry_run s; pm_rules := pm_rules s; pm_owned_rules := l |}.

(** ** Rule identities *)

Definition rules_equal (a b : RuleSpec) : bool :=
  (ru_fwmark a =? ru_fwmark b) && (ru_fwmask a =? ru_fwmask b) && (ru_table a =? ru_table b)
  && (ru_priority a =? ru_priority b) && (ru_family a =? ru_family b).

Definition rule_covers_family (rule concrete : RuleSpec) : bool :=
  (ru_fwmark rule =? ru_fwmark concrete) && (ru_fwmask rule =? ru_fwmask concrete)
  && (ru_table rule =? ru_table concrete) && (ru_priority rule =? ru_priority concrete)
  && ((ru_family rule =? 0) || (ru_family rule =? ru_family concrete)).

Definition rule_matches_live (expected : RuleSpec) (actual : DumpedRule) : bool :=
  (ru_fwmark expected =? du_fwmark actual) && (ru_fwmask expected =? du_fwmask actual)
  && (ru_table expected =? du_table actual) && (ru_priority expected =? du_priority actual)
  && (ru_family expected =? du_family actual).

(** [concrete = logical; concrete.family = family] *)
Definition with_family (family : Z) (r : RuleSpec) : RuleSpec :=
  {| ru_fwmark := ru_fwmark r; ru_fwmask := ru_fwmask r; ru_table := ru_table r;
     ru_priority := ru_priority r; ru_family := family |}.

(** The families a logical rule stands for. *)
Definition families_of (r : RuleSpec) : list Z :=
  if negb (ru_family r =? 0) then [ru_family r] else [AF_INET; AF_INET6].

(** The live rule is an instance of the logical rule. *)
Definition logical_matches (logical : RuleSpec) (actual : DumpedRule) : bool :=
  if negb (ru_family logical =? 0) && negb (ru_family logical =? du_family actual) then false
  else rule_matches_live (with_family (du_family actual) logical) actual.

Definition logical_rule_present_live (logical : RuleSpec) (live : list DumpedRule) : bool :=
  existsb (logical_matches logical) live.

(** [others] are the tracked rules other than the one being removed. *)
Definition logical_rule_has_uncovered_live_family (logical : RuleSpec) (live : list DumpedRule)
    (others : list RuleSpec) : bool :=
  existsb (λ actual,
    logical_matches logical actual
    && negb (existsb (λ candidate,
               rule_covers_family candidate (with_family (du_family actual) logical)) others)) live.

Definition rule_spec_of_live (d : DumpedRule) : RuleSpec :=
  {| ru_fwmark := du_fwmark d; ru_fwmask := du_fwmask d; ru_table := du_table d;
     ru_priority := du_priority d; ru_family := du_family d |}.

Definition find_orphaned_generated_rules (desired : list RuleSpec) (live : list DumpedRule)
    (corroborated_route_tables : gset Z) : list RuleSpec :=
  rule_spec_of_live <$> List.filter (λ candidate,
    negb (negb (du_exact_identity_representable candidate)
          || (negb (du_family candidate =? AF_INET) && negb (du_family candidate =? AF_INET6))
          || negb (du_priority candidate =? du_table candidate)
          || negb (bool_decide (du_table candidate ∈ corroborated_route_tables)))
    && existsb (λ expected, (ru_fwmark expected =? du_fwmark candidate)
                            && (ru_fwmask expected =? du_fwmask candidate)) desired
    && negb (existsb (λ expected,
               ((ru_family expected =? 0) || (ru_family expected =? du_family candidate))
               && rule_matches_live (with_family (du_family candidate) expected) candidate) desired))
    live.

Definition missing_live_rules (desired : list RuleSpec) (live : list DumpedRule) : list RuleSpec :=
  desired ≫= λ logical,
    List.filter (λ concrete, negb (existsb (rule_matches_live concrete) live))
      ((λ family, with_family family logical) <$> families_of logical).

(** ** The rule backend *)

(** [class RuleNetlinkOperations]; [rl_live] is read by specifications only. *)
Class RuleNetlink (K : Type) := {
  rl_live : K → list DumpedRule;
  rl_supports_exact_rule_transaction : K → bool;
  rl_add_rule_for_family : RuleSpec → Z → K → K * result RuleError RuleAddResult;
  rl_delete_rule_for_family : RuleSpec → Z → K → K * result RuleError unit;
  rl_dump_policy_rules : Z → K → K * result RuleError (list DumpedRule);
}.

Section Operations.
Context {K : Type} `{RuleNetlink K}.

Definition RuleWorld : Type := PolicyRuleState * K.
Definition PM (A : Type) : Type := SE RuleWorld RuleError A.

Definition pm_field {A} (f : PolicyRuleState → A) : PM A := gets (λ w, f w.1).
Definition pm_update (f : PolicyRuleState → PolicyRuleState) : PM unit :=
  modify (λ w, (f w.1, w.2)).
Definition pm_lift {A} (op : K → K * result RuleError A) : PM A :=
  λ w, let '(k', r) := op w.2 in ((w.1, k'), r).

Definition add_rule_for_family (spec : RuleSpec) (family : Z) : PM RuleAddResult :=
  pm_lift (rl_add_rule_for_family spec family).
Definition delete_rule_for_family (spec : RuleSpec) (family : Z) : PM unit :=
  pm_lift (rl_delete_rule_for_family spec family).
Definition dump_policy_rules (family : Z) : PM (list DumpedRule) :=
  pm_lift (rl_dump_policy_rules family).
Definition supports_exact_rules : PM bool := gets (λ w, rl_supports_exact_rule_transaction w.2).

(** The scan of [delete_rule_if_exact]: how many live rules have the identity and
    whether one of them is representable. *)
Definition scan_identity (expected : RuleSpec) (live : list DumpedRule) : nat * bool :=
  let same := List.filter (rule_matches_live expected) live in
  (length same, existsb du_exact_identity_representable same).

Definition delete_rule_if_exact (spec : RuleSpec) (family : Z) : PM RuleExactDeleteResult :=
  if negb (family =? AF_INET) && negb (family =? AF_INET6) then mret RulePreconditionMismatch
  else
    let expected := with_family family spec in
    live ← dump_policy_rules family;
    match scan_identity expected live with
    | (0%nat, _) => mret RuleAlreadyAbsent
    | (1%nat, true) =>
        _ ← delete_rule_for_family expected family;
        after ← dump_policy_rules family;
        if existsb (rule_matches_live expected) after then throw ExactRuleStillPresent
        else mret RuleDeleted
    | _ => mret RulePreconditionMismatch
    end.

(** The destructive request shared by rollback, [remove], the orphan cleanup and
    [clear]: [true] when the backend confirms it. *)
Definition delete_concrete (rule : RuleSpec) : PM bool :=
  catch
    (exact ← supports_exact_rules;
     if exact : bool then
       receipt ← delete_rule_if_exact rule (ru_family rule);
       match receipt with
       | RulePreconditionMismatch => mret false
       | RuleDeleted | RuleAlreadyAbsent => mret true
       end
     else _ ← delete_rule_for_family rule (ru_family rule); mret true)
    (λ _, mret false).

Definition rule_in (spec : RuleSpec) (l : list RuleSpec) : bool :=
  existsb (λ r, rules_equal r spec) l.

Definition pm_is_tracked (spec : RuleSpec) : PM bool :=
  pm_field (λ s, rule_in spec (pm_rules s)).

(** ** Installing *)

(** The loop over the families: the rules created so far and the exception that
    stopped it. *)
Fixpoint add_families (spec : RuleSpec) (families : list Z) (newly_owned : list RuleSpec)
    : PM (list RuleSpec * option RuleError) :=
  match families with
  | [] => mret (newly_owned, None)
  | family :: families =>
      added ← catch (r ← add_rule_for_family spec family; mret (inl r)) (λ e, mret (inr e));
      match added with
      | inr e => mret (newly_owned, Some e)
      | inl RuleCreated => add_families spec families (newly_owned ++ [with_family family spec])
      | inl RuleAlreadyPresent => add_families spec families newly_owned
      end
  end.

(** The rollback of a partial installation: the rules whose removal is unknown. *)
Definition rollback_families (newly_owned : list RuleSpec) : PM (list RuleSpec) :=
  mfold (λ uncertain rule,
    known ← delete_concrete rule;
    mret (if known : bool then uncertain else uncertain ++ [rule])) [] (rev newly_owned).

Definition pm_add (spec : RuleSpec) : PM unit :=
  tracked ← pm_is_tracked spec;
  if tracked : bool then mret ()
  else
    dry_run ← pm_field pm_dry_run;
    _ ← (if dry_run : bool then mret ()
         else
           '(newly_owned, failure) ← add_families spec (families_of spec) [];
           match failure with
           | None =>
               pm_update (λ s, set_owned_rules (pm_owned_rules s ++ newly_owned) s)
           | Some e =>
               uncertain ← rollback_families newly_owned;
               _ ← match uncertain with
                   | [] => mret ()
                   | _ =>
                       _ ← pm_update (λ s, set_owned_rules (pm_owned_rules s ++ uncertain) s);
                       pm_update (λ s, set_rules_ (pm_rules s ++ [spec]) s)
                   end;
               throw e
           end);
    pm_update (λ s, set_rules_ (pm_rules s ++ [spec]) s).

(** ** Removing *)

Definition same_logical_rule (owned spec : RuleSpec) : bool :=
  (ru_fwmark owned =? ru_fwmark spec) && (ru_fwmask owned =? ru_fwmask spec)
  && (ru_table owned =? ru_table spec) && (ru_priority owned =? ru_priority spec).

(** The loop over the owned rules; the ledger is [kept ++ rest] at every step. *)
Fixpoint release_owned_rules (spec : RuleSpec) (others kept rest : list RuleSpec) : PM bool :=
  match rest with
  | [] => mret true
  | owned :: rest =>
      if same_logical_rule owned spec
         && ((ru_family spec =? 0) || (ru_family spec =? ru_family owned))
         && negb (existsb (λ candidate, rule_covers_family candidate owned) others)
      then
        deleted ← delete_concrete owned;
        if deleted : bool then
          _ ← pm_update (set_owned_rules (kept ++ rest));
          release_owned_rules spec others kept rest
        else mret false
      else release_owned_rules spec others (kept ++ [owned]) rest
  end.

Definition pm_remove (spec : RuleSpec) : PM bool :=
  tracked ← pm_is_tracked spec;
  if negb tracked then mret true
  else
    dry_run ← pm_field pm_dry_run;
    rules ← pm_field pm_rules;
    let others := erase_first (λ r, rules_equal r spec) rules in
    absent ← (if dry_run : bool then mret true
              else
                owned ← pm_field pm_owned_rules;
                released ← release_owned_rules spec others [] owned;
                if released : bool then
                  catch
                    (live ← dump_policy_rules 0;
                     mret (negb (logical_rule_has_uncovered_live_family spec live others)))
                    (λ _, mret false)
                else mret false);
    if absent : bool then _ ← pm_update (set_rules_ others); mret true else mret false.

(** ** Reconciliation *)

(** The body of the repair loop of [add_missing]. *)
Definition restore_rule (concrete : RuleSpec) : PM unit :=
  tracked_logical ← pm_is_tracked (with_family 0 concrete);
  tracked_concrete ← pm_is_tracked concrete;
  if negb tracked_logical && negb tracked_concrete then mret ()
  else
    _ ← pm_update (λ s, set_owned_rules
          (List.filter (λ r, negb (rules_equal r concrete)) (pm_owned_rules s)) s);
    added ← add_rule_for_family concrete (ru_family concrete);
    match added with
    | RuleAlreadyPresent => mret ()
    | RuleCreated =>
        owned ← pm_field (λ s, rule_in concrete (pm_owned_rules s));
        if owned : bool then mret ()
        else pm_update (λ s, set_owned_rules (pm_owned_rules s ++ [concrete]) s)
    end.

Definition pm_add_missing (desired : list RuleSpec) : PM unit :=
  dry_run ← pm_field pm_dry_run;
  _ ← (if dry_run : bool then mret ()
       else
         live ← dump_policy_rules 0;
         mfor restore_rule (missing_live_rules desired live));
  mfor pm_add desired.

Definition pm_remove_obsolete (desired : list RuleSpec) : PM (gset Z) :=
  current ← pm_field pm_rules;
  mfold (λ uncertain rule,
    if existsb (rules_equal rule) desired then mret uncertain
    else
      removed ← pm_remove rule;
      mret (if removed : bool then uncertain else {[ ru_table rule ]} ∪ uncertain)) ∅ current.

Definition pm_reconcile (desired : list RuleSpec) : PM unit :=
  _ ← pm_add_missing desired;
  _ ← pm_remove_obsolete desired;
  mret ().

(** The body of the loop of [remove_orphaned_generated]. *)
Definition retire_orphan (uncertain : gset Z) (rule : RuleSpec) : PM (gset Z) :=
  tracked ← pm_field (λ s, existsb (λ t, rule_covers_family t rule) (pm_rules s));
  if tracked : bool then mret uncertain
  else
    deleted ← delete_concrete rule;
    mret (if deleted : bool then uncertain else {[ ru_table rule ]} ∪ uncertain).

Definition remove_orphaned_generated (desired : list RuleSpec)
    (corroborated_route_tables : gset Z) : PM (gset Z) :=
  dry_run ← pm_field pm_dry_run;
  if dry_run || bool_decide (corroborated_route_tables = ∅) then mret ∅
  else
    orphaned ← catch
      (live ← dump_policy_rules 0;
       mret (Some (find_orphaned_generated_rules desired live corroborated_route_tables)))
      (λ _, mret None);
    match orphaned with
    | None => mret corroborated_route_tables
    | Some rules => mfold retire_orphan ∅ rules
    end.

Definition protect_route_tables_with_live_rules (candidate_routes : list RouteSpec)
    (additional_candidate_tables : gset Z) (accounted_rules : list RuleSpec) : PM (gset Z) :=
  let candidates := list_to_set (rt_table <$> candidate_routes) ∪ additional_candidate_tables in
  dry_run ← pm_field pm_dry_run;
  if dry_run || bool_decide (candidates = ∅) then mret ∅
  else
    catch
      (live ← dump_policy_rules 0;
       mret (list_to_set (du_table <$> List.filter (λ rule,
         bool_decide (du_table rule ∈ candidates)
         && negb (existsb (λ logical, logical_matches logical rule) accounted_rules)) live)))
      (λ _, mret candidates).

Definition pm_adopt_live_generated_desired (desired : list RuleSpec)
    (corroborated_route_tables : gset Z) : PM unit :=
  dry_run ← pm_field pm_dry_run;
  if dry_run || bool_decide (corroborated_route_tables = ∅) then mret ()
  else
    catch
      (live ← dump_policy_rules 0;
       owned ← pm_field pm_owned_rules;
       let concretes :=
         desired ≫= λ logical,
           if bool_decide (ru_table logical ∈ corroborated_route_tables)
           then (λ family, with_family family logical) <$> families_of logical else [] in
       let committed := fold_left (λ committed concrete,
         if existsb (rule_matches_live concrete) live && negb (rule_in concrete committed)
         then committed ++ [concrete] else committed) concretes owned in
       pm_update (set_owned_rules committed))
      (λ _, mret ()).

Definition pm_adopt_desired (desired : list RuleSpec) : PM unit :=
  pm_update (λ s, {| pm_dry_run := pm_dry_run s; pm_rules := desired; pm_owned_rules := [] |}).

Definition pm_adopt_exact_state (desired owned : list RuleSpec) : PM unit :=
  pm_update (λ s, {| pm_dry_run := pm_dry_run s; pm_rules := desired; pm_owned_rules := owned |}).

(** ** Shutdown and rollback *)

(** The first loop of [clear]: the rules that could not be deleted, and their
    tables. *)
Definition clear_owned (dry_run : bool) (acc : list RuleSpec * gset Z) (rule : RuleSpec)
    : PM (list RuleSpec * gset Z) :=
  deleted ← (if dry_run then mret true else delete_concrete rule);
  mret (if deleted : bool then acc else (acc.1 ++ [rule], {[ ru_table rule ]} ∪ acc.2)).

(** The logical rules [clear] keeps; [None] is an unknown live inventory. *)
Definition retained_logical (retained_owned : list RuleSpec) (live : option (list DumpedRule))
    (rules : list RuleSpec) : list RuleSpec :=
  List.filter (λ logical,
    existsb (rule_covers_family logical) retained_owned
    || match live with Some l => logical_rule_present_live logical l | None => true end) rules.

Definition pm_clear : PM (gset Z) :=
  dry_run ← pm_field pm_dry_run;
  owned ← pm_field pm_owned_rules;
  '(retained, uncertain) ← mfold (clear_owned dry_run) ([], ∅) (rev owned);
  let retained_owned := rev retained in
  live ← (if dry_run : bool then mret (Some [])
          else catch (l ← dump_policy_rules 0; mret (Some l)) (λ _, mret None));
  rules ← pm_field pm_rules;
  let logical := retained_logical retained_owned live rules in
  _ ← pm_update (set_owned_rules retained_owned);
  _ ← pm_update (set_rules_ logical);
  mret (list_to_set (ru_table <$> logical) ∪ uncertain).
End Operations.

Arguments RuleWorld K : clear implicits.
Arguments PM K A : clear implicits.
