(* ===== verification/PolicyRulesSafety.v ===== *)
(** * Policy rules: ownership and dependencies

    What the rule manager may rely on from the kernel (class [RuleNetlinkLaws]),
    and two guarantees: it deletes only rules it created, until it explicitly
    adopts others; and a live rule it gave up tracking is either still desired or
    its table is reported, so that the caller keeps the routes of that table. *)

From Stdlib Require Import ZArith Lia.
From stdpp Require Import base gmap list.
From S2P Require Import Prelude ConfigTypes RoutingPlan StateError RouteTable RouteTableSafety.
From S2P Require Import PolicyRules.
Open Scope Z_scope.

(** ** The kernel's contract *)

(** Zero attributes are wildcards of [RTM_DELRULE]. *)
Definition explicit_rule (spec : RuleSpec) : Prop :=
  ru_fwmark spec ≠ 0 ∧ ru_fwmask spec ≠ 0 ∧ ru_table spec ≠ 0 ∧ ru_priority spec ≠ 0.

(** Documented behaviour of rtnetlink rules: a dump is complete for its family;
    [NLM_F_EXCL] creates only when no rule with the same attributes exists (a rule
    with further selectors has other attributes) and leaves the others alone, and
    after a successful creation or [EEXIST] a rule of the identity is live; a
    deletion by explicit identity removes only rules of that identity. Each law
    covers the failing calls too. *)
Class RuleNetlinkLaws (K : Type) `{RuleNetlink K} : Prop := {
  law_rule_dump_keeps f k d : d ∈ rl_live (rl_dump_policy_rules f k).1 ↔ d ∈ rl_live k;
  law_rule_dump_exact f k l d :
    (rl_dump_policy_rules f k).2 = Ok l → d ∈ l ↔ d ∈ rl_live k ∧ (f = 0 ∨ du_family d = f);
  law_rule_add_keeps spec f k d :
    d ∈ rl_live k → d ∈ rl_live (rl_add_rule_for_family spec f k).1;
  law_rule_add_new spec f k d :
    d ∈ rl_live (rl_add_rule_for_family spec f k).1 →
    d ∈ rl_live k ∨ rule_matches_live (with_family f spec) d = true;
  law_rule_add_created spec f k d :
    (rl_add_rule_for_family spec f k).2 = Ok RuleCreated →
    d ∈ rl_live k → du_exact_identity_representable d = true →
    rule_matches_live (with_family f spec) d = false;
  law_rule_add_live spec f k r :
    (rl_add_rule_for_family spec f k).2 = Ok r →
    ∃ d, d ∈ rl_live (rl_add_rule_for_family spec f k).1
         ∧ rule_matches_live (with_family f spec) d = true;
  law_rule_delete_keeps spec f k d :
    explicit_rule spec → d ∈ rl_live k → rule_matches_live (with_family f spec) d = false →
    d ∈ rl_live (rl_delete_rule_for_family spec f k).1;
  law_rule_delete_new spec f k d :
    d ∈ rl_live (rl_delete_rule_for_family spec f k).1 → d ∈ rl_live k;
}.

(** ** Identities *)

#[export] Instance RuleSpec_eq_dec : EqDecision RuleSpec.
Proof. solve_decision. Defined.

Lemma rules_equal_eq a b : rules_equal a b = true ↔ a = b.
Proof.
  unfold rules_equal. rewrite !andb_true_iff, !Z.eqb_eq. destruct a, b; simpl. split.
  - intros [[[[-> ->] ->] ->] ->]. done.
  - intros [= -> -> -> -> ->]. done.
Qed.

Lemma rule_in_elem spec l : rule_in spec l = true ↔ spec ∈ l.
Proof.
  unfold rule_in. rewrite existsb_exists. setoid_rewrite rules_equal_eq.
  setoid_rewrite <- list_elem_of_In. naive_solver.
Qed.

Lemma with_family_id r : with_family (ru_family r) r = r.
Proof. by destruct r. Qed.

(** ** Created rules only *)

Section Safety.
Context {K : Type} `{HL : RuleNetlinkLaws K}.
Context (F : DumpedRule → Prop).

(** A rule with further selectors is told apart by the exact deletion only. *)
Definition distinguishable : Prop :=
  ∀ d, F d → du_exact_identity_representable d = true
             ∨ ∀ k : K, rl_supports_exact_rule_transaction k = true.
Context (HF : distinguishable).

(** No representable rule of [F] has the identity of an owned rule. *)
Definition own_rule (o : RuleSpec) : Prop :=
  explicit_rule o
  ∧ ∀ d, F d → du_exact_identity_representable d = true → rule_matches_live o d = false.

Definition rules_inv (w : RuleWorld K) : Prop :=
  (∀ d, F d → d ∈ rl_live w.2) ∧ Forall own_rule (pm_owned_rules w.1).

Lemma rules_inv_update f :
  (∀ s, Forall own_rule (pm_owned_rules s) → Forall own_rule (pm_owned_rules (f s))) →
  preserves rules_inv (pm_update f).
Proof. intros Hf [s k] [? ?]. split; simpl; auto. Qed.

Lemma rules_inv_field {A} (f : PolicyRuleState → A) : preserves rules_inv (pm_field f).
Proof. apply preserves_gets. Qed.

Lemma rules_inv_exact : preserves rules_inv supports_exact_rules.
Proof. apply preserves_gets. Qed.

Lemma rules_inv_lift {A} (op : K → K * result RuleError A) :
  (∀ k, (∀ d, F d → d ∈ rl_live k) → ∀ d, F d → d ∈ rl_live (op k).1) →
  preserves rules_inv (pm_lift op).
Proof.
  intros Hop [s k] [Hk Hs]. unfold pm_lift. simpl. specialize (Hop k Hk).
  by destruct (op k) as [k' r].
Qed.

Lemma rules_inv_dump f : preserves rules_inv (dump_policy_rules f).
Proof. apply rules_inv_lift. intros k Hk d Hd. apply law_rule_dump_keeps. auto. Qed.

Lemma rules_inv_add_rule spec f : preserves rules_inv (add_rule_for_family spec f).
Proof. apply rules_inv_lift. intros k Hk d Hd. apply law_rule_add_keeps. auto. Qed.

Lemma rules_inv_delete o f :
  explicit_rule o → (∀ d, F d → rule_matches_live (with_family f o) d = false) →
  preserves rules_inv (delete_rule_for_family o f).
Proof.
  intros He Ho. apply rules_inv_lift. intros k Hk d Hd. apply law_rule_delete_keeps; auto.
Qed.

Lemma rules_inv_rules l : preserves rules_inv (pm_update (set_rules_ l)).
Proof. by apply rules_inv_update. Qed.

Lemma rules_inv_push_rule r :
  preserves rules_inv (pm_update (λ s, set_rules_ (pm_rules s ++ [r]) s)).
Proof. by apply rules_inv_update. Qed.

Lemma rules_inv_append l :
  Forall own_rule l →
  preserves rules_inv (pm_update (λ s, set_owned_rules (pm_owned_rules s ++ l) s)).
Proof. intros Hl. apply rules_inv_update. intros s Hs. by apply Forall_app. Qed.

Lemma rules_inv_tracked r : preserves rules_inv (pm_is_tracked r).
Proof. apply preserves_gets. Qed.
#[local] Hint Resolve rules_inv_field rules_inv_exact rules_inv_dump rules_inv_add_rule
  rules_inv_delete rules_inv_rules rules_inv_push_rule rules_inv_append rules_inv_tracked
  : preserves.

(** The exact deletion goes ahead only when the single live rule of the identity
    is representable. *)
Lemma wp_dump_scan o w :
  own_rule o → rules_inv w →
  wp (dump_policy_rules (ru_family o))
     (λ l w', rules_inv w' ∧ (scan_identity o l = (1%nat, true) →
        ∀ d, F d → rule_matches_live o d = false)) (λ _, rules_inv) w.
Proof.
  intros Ho Hw. pose proof (rules_inv_dump (ru_family o) w Hw) as Hw'. revert Hw'.
  destruct w as [s k]. unfold wp, dump_policy_rules, pm_lift. simpl.
  pose proof (law_rule_dump_exact (ru_family o) k) as Hex.
  destruct (rl_dump_policy_rules (ru_family o) k) as [k' [l|e]]; [|done]. simpl in *.
  intros Hw'. split; [done|]. intros Hscan d Hd. apply not_true_iff_false. intros Hm.
  assert (d ∈ l) as Hl.
  { apply Hex; [done|]. split; [by apply Hw|]. right. revert Hm. unfold rule_matches_live.
    rewrite !andb_true_iff, !Z.eqb_eq. intuition congruence. }
  assert (In d (List.filter (rule_matches_live o) l)) as Hin
    by (apply filter_In; by rewrite <- list_elem_of_In).
  unfold scan_identity in Hscan. injection Hscan as Hlen Hrep.
  destruct (List.filter _ l) as [|x [|]]; simpl in *; try done. destruct Hin as [->|[]].
  rewrite orb_false_r in Hrep. destruct Ho as [_ Ho]. by rewrite (Ho d Hd Hrep) in Hm.
Qed.

Lemma rules_inv_delete_exact o :
  own_rule o → preserves rules_inv (delete_rule_if_exact o (ru_family o)).
Proof.
  intros Ho. unfold delete_rule_if_exact. cbv zeta. destruct (_ && _); [preserve|].
  rewrite with_family_id. apply preserves_wp. intros w Hw. apply wp_bind.
  eapply wp_mono; [by apply wp_dump_scan | |done].
  intros l w1 [Hw1 Hscan]. revert w1 Hw1. apply preserves_wp.
  destruct (scan_identity o l) as [[|[|n]] [|]]; [preserve|preserve| |preserve|preserve|preserve].
  apply preserves_bind; [|preserve].
  apply rules_inv_delete; [apply Ho|]. rewrite with_family_id. by apply Hscan.
Qed.
#[local] Hint Resolve rules_inv_delete_exact : preserves.

Lemma rules_inv_delete_concrete o : own_rule o → preserves rules_inv (delete_concrete o).
Proof.
  intros Ho. unfold delete_concrete. apply preserves_catch; [|preserve].
  apply preserves_bind_fact with (R := λ b : bool, b = false → ∀ d, F d →
    du_exact_identity_representable d = true); [preserve| |].
  - intros w w' b Hw [= _ <-] Hb d Hd. destruct (HF d Hd) as [|He]; [done|]. by rewrite He in Hb.
  - intros [|] Hb; [preserve|]. apply preserves_bind; [|preserve].
    apply rules_inv_delete; [apply Ho|]. rewrite with_family_id. intros d Hd. apply Ho; auto.
Qed.
#[local] Hint Resolve rules_inv_delete_concrete : preserves.

(** A created rule is owned: no rule of [F] had its identity. *)
Lemma wp_add_rule spec f w :
  explicit_rule spec → rules_inv w →
  wp (add_rule_for_family spec f)
     (λ r w', rules_inv w' ∧ (r = RuleCreated → own_rule (with_family f spec)))
     (λ _, rules_inv) w.
Proof.
  intros He Hw. pose proof (rules_inv_add_rule spec f w Hw) as Hw'. revert Hw'.
  destruct w as [s k]. unfold wp, add_rule_for_family, pm_lift. simpl.
  pose proof (law_rule_add_created spec f k) as Hc.
  destruct (rl_add_rule_for_family spec f k) as [k' [r|e]]; [|done]. simpl in *.
  intros Hw'. split; [done|]. intros ->. split; [done|]. intros d Hd Hr. apply Hc; [done| |done].
  by apply Hw.
Qed.

Lemma wp_add_families spec families newly w :
  explicit_rule spec → Forall own_rule newly → rules_inv w →
  wp (add_families spec families newly) (λ r w', rules_inv w' ∧ Forall own_rule r.1)
     (λ _ _, False) w.
Proof.
  intros He. revert newly w. induction families as [|f families IH]; intros newly w Hn Hw; [done|].
  simpl. apply wp_bind, wp_catch, wp_bind.
  eapply wp_mono; [by apply (wp_add_rule spec f w) | |].
  - intros r w1 [Hw1 Hr]. apply wp_ret. destruct r; [|by apply IH]. apply IH; [|done].
    apply Forall_app. split; [done|]. apply Forall_singleton. by apply Hr.
  - intros e w1 Hw1. by apply wp_ret, wp_ret.
Qed.

Lemma wp_rollback newly w :
  Forall own_rule newly → rules_inv w →
  wp (rollback_families newly) (λ l w', rules_inv w' ∧ Forall own_rule l) (λ _, rules_inv) w.
Proof.
  intros Hn Hw. unfold rollback_families.
  assert (Forall own_rule (rev newly)) as Hr by (rewrite Forall_forall in *; intros x Hx;
    apply Hn; apply list_elem_of_In, in_rev, list_elem_of_In; done).
  eapply wp_mono; [apply (wp_mfold _ (λ l rest w', rules_inv w' ∧ Forall own_rule l
    ∧ Forall own_rule rest)) | | intros e w' Hx; exact Hx].
  - by split_and!.
  - intros l o rest w1 (Hw1 & Hl & Hrest). inversion_clear Hrest as [|?? Ho Hrest'].
    apply wp_bind. eapply wp_mono; [apply preserves_wp, Hw1; by apply rules_inv_delete_concrete | |done].
    intros b w2 Hw2. apply wp_ret. split_and!; try done. destruct b; [done|].
    apply Forall_app. split; [done|]. by apply Forall_singleton.
  - naive_solver.
Qed.

Lemma rules_inv_add spec : explicit_rule spec → preserves rules_inv (pm_add spec).
Proof.
  intros He. unfold pm_add. apply preserves_bind; [preserve|]. intros [|]; [preserve|].
  apply preserves_bind; [preserve|]. intros dry_run. apply preserves_bind; [|preserve].
  destruct dry_run; [preserve|]. apply preserves_wp. intros w Hw. apply wp_bind.
  eapply wp_mono; [apply wp_add_families; [done|constructor|exact Hw] | |done].
  intros [newly [e|]] w1 [Hw1 Hn]; simpl in Hn.
  - apply wp_bind. eapply wp_mono; [by apply wp_rollback | |done]. intros l w2 [Hw2 Hl].
    revert w2 Hw2. apply preserves_wp. preserve.
  - revert w1 Hw1. apply preserves_wp. preserve.
Qed.

Lemma rules_inv_release spec others kept rest :
  Forall own_rule kept → Forall own_rule rest →
  preserves rules_inv (release_owned_rules spec others kept rest).
Proof.
  revert kept. induction rest as [|o rest IH]; intros kept Hk Hr; simpl; [preserve|].
  inversion_clear Hr as [|?? Ho Hrest]. destruct (_ && _).
  - apply preserves_bind; [preserve|]. intros [|]; [|preserve].
    apply preserves_bind; [|intros _; by apply IH].
    apply rules_inv_update. intros s _. simpl. by apply Forall_app.
  - apply IH; [|done]. apply Forall_app. split; [done|]. by apply Forall_singleton.
Qed.

Lemma rules_inv_bind_owned {A} (c : list RuleSpec → PM K A) :
  (∀ l, Forall own_rule l → preserves rules_inv (c l)) →
  preserves rules_inv (mbind c (pm_field pm_owned_rules)).
Proof.
  apply preserves_bind_fact; [preserve|]. intros w w' l [_ Ho] [= _ <-]. exact Ho.
Qed.

Lemma rules_inv_remove spec : preserves rules_inv (pm_remove spec).
Proof.
  unfold pm_remove. apply preserves_bind; [preserve|]. intros tracked.
  destruct (negb tracked); [preserve|]. apply preserves_bind; [preserve|]. intros dry_run.
  apply preserves_bind; [preserve|]. intros rules. cbv zeta. apply preserves_bind; [|preserve].
  destruct dry_run; [preserve|]. apply rules_inv_bind_owned. intros owned Ho.
  apply preserves_bind; [by apply rules_inv_release | preserve].
Qed.
#[local] Hint Resolve rules_inv_remove : preserves.

Lemma rules_inv_restore concrete : explicit_rule concrete → preserves rules_inv (restore_rule concrete).
Proof.
  intros He. unfold restore_rule. apply preserves_bind; [preserve|]. intros t1.
  apply preserves_bind; [preserve|]. intros t2. destruct (_ && _); [preserve|].
  apply preserves_bind; [apply rules_inv_update; intros s; apply Forall_filter_bool|]. intros _.
  apply preserves_wp. intros w Hw. apply wp_bind.
  eapply wp_mono; [by apply (wp_add_rule concrete (ru_family concrete) w) | |done].
  intros r w1 [Hw1 Hr]. rewrite with_family_id in Hr. revert w1 Hw1. apply preserves_wp.
  destruct r; [|preserve]. specialize (Hr eq_refl).
  assert (Forall own_rule [concrete]) by (by apply Forall_singleton). preserve.
Qed.

Lemma missing_explicit desired live :
  Forall explicit_rule desired → Forall explicit_rule (missing_live_rules desired live).
Proof.
  intros Hd. apply Forall_forall. intros r Hr. unfold missing_live_rules in Hr.
  apply list_elem_of_bind in Hr as (l & Hr & Hl). apply list_elem_of_In, filter_In in Hr as [Hr _].
  apply list_elem_of_In, list_elem_of_fmap in Hr as (f & -> & _).
  rewrite Forall_forall in Hd. by apply Hd in Hl.
Qed.

Lemma rules_inv_add_missing desired :
  Forall explicit_rule desired → preserves rules_inv (pm_add_missing desired).
Proof.
  intros Hd. pose proof (missing_explicit desired) as Hm.
  unfold pm_add_missing. preserve.
  - specialize (Hm a0 Hd). rewrite Forall_forall in Hm. by apply rules_inv_restore, Hm.
  - rewrite Forall_forall in Hd. by apply rules_inv_add, Hd.
Qed.

Lemma rules_inv_remove_obsolete desired : preserves rules_inv (pm_remove_obsolete desired).
Proof. unfold pm_remove_obsolete. preserve. Qed.

Lemma rules_inv_protect routes extra accounted :
  preserves rules_inv (protect_route_tables_with_live_rules routes extra accounted).
Proof. unfold protect_route_tables_with_live_rules. cbv zeta. preserve. Qed.

Lemma wp_clear_owned dry_run owned w :
  Forall own_rule owned → rules_inv w →
  wp (mfold (clear_owned dry_run) ([], ∅) owned)
     (λ r w', rules_inv w' ∧ Forall own_rule r.1) (λ _, rules_inv) w.
Proof.
  intros Ho Hw. eapply wp_mono; [apply (wp_mfold _ (λ r rest w', rules_inv w'
    ∧ Forall own_rule r.1 ∧ Forall own_rule rest)) | | intros e w' Hx; exact Hx].
  - by split_and!.
  - intros acc o rest w1 (Hw1 & Hl & Hrest). inversion_clear Hrest as [|?? Ho' Hrest'].
    unfold clear_owned. apply wp_bind.
    eapply wp_mono; [apply preserves_wp, Hw1; destruct dry_run; preserve | |done].
    intros b w2 Hw2. apply wp_ret. split_and!; try done. destruct b; [done|].
    apply Forall_app. split; [done|]. by apply Forall_singleton.
  - naive_solver.
Qed.

Lemma Forall_rev_bool {A} (P : A → Prop) l : Forall P l → Forall P (rev l).
Proof.
  rewrite !Forall_forall. intros HP x Hx. apply HP. apply list_elem_of_In, in_rev, list_elem_of_In.
  done.
Qed.

Lemma rules_inv_clear : preserves rules_inv pm_clear.
Proof.
  unfold pm_clear. apply preserves_bind; [preserve|]. intros dry_run.
  apply rules_inv_bind_owned. intros owned Ho. apply preserves_wp. intros w Hw. apply wp_bind.
  eapply wp_mono; [apply wp_clear_owned; [by apply Forall_rev_bool | exact Hw] | |done].
  intros [retained uncertain] w1 [Hw1 Hr]. simpl in Hr. revert w1 Hw1. apply preserves_wp.
  cbv zeta. preserve.
  apply rules_inv_update. intros s _. simpl. by apply Forall_rev_bool.
Qed.

Lemma rules_inv_adopt_desired desired : preserves rules_inv (pm_adopt_desired desired).
Proof. apply rules_inv_update. intros s _. constructor. Qed.
End Safety.

(** ** Call sequences *)

(** The operations that act on the rules this process asked for. The other three,
    [remove_orphaned_generated], [adopt_live_generated_desired] and
    [adopt_exact_state], take over rules of an earlier process on evidence. *)
Inductive RuleCall :=
| RuleCallAdd (spec : RuleSpec)
| RuleCallRemove (spec : RuleSpec)
| RuleCallAddMissing (desired : list RuleSpec)
| RuleCallRemoveObsolete (desired : list RuleSpec)
| RuleCallReconcile (desired : list RuleSpec)
| RuleCallProtect (routes : list RouteSpec) (extra : gset Z) (accounted : list RuleSpec)
| RuleCallAdoptDesired (desired : list RuleSpec)
| RuleCallClear.

Definition rule_call_explicit (c : RuleCall) : Prop :=
  match c with
  | RuleCallAdd spec => explicit_rule spec
  | RuleCallAddMissing desired | RuleCallReconcile desired => Forall explicit_rule desired
  | _ => True
  end.

Section Calls.
Context {K : Type} `{RuleNetlink K}.

Definition run_rule_call (c : RuleCall) (w : RuleWorld K) : RuleWorld K :=
  match c with
  | RuleCallAdd spec => (pm_add spec w).1
  | RuleCallRemove spec => (pm_remove spec w).1
  | RuleCallAddMissing desired => (pm_add_missing desired w).1
  | RuleCallRemoveObsolete desired => (pm_remove_obsolete desired w).1
  | RuleCallReconcile desired => (pm_reconcile desired w).1
  | RuleCallProtect routes extra accounted =>
      (protect_route_tables_with_live_rules routes extra accounted w).1
  | RuleCallAdoptDesired desired => (pm_adopt_desired desired w).1
  | RuleCallClear => (pm_clear w).1
  end.

Definition run_rule_calls (calls : list RuleCall) (w : RuleWorld K) : RuleWorld K :=
  fold_left (λ w c, run_rule_call c w) calls w.

Definition initial_rules (dry_run : bool) : PolicyRuleState :=
  {| pm_dry_run := dry_run; pm_rules := []; pm_owned_rules := [] |}.

Lemma run_rule_call_inv `{!RuleNetlinkLaws K} F c w :
  distinguishable (K:=K) F → rule_call_explicit c → rules_inv F w → rules_inv F (run_rule_call c w).
Proof.
  destruct c; simpl; intros HF Hc Hw.
  - by apply rules_inv_add.
  - by apply rules_inv_remove.
  - by apply rules_inv_add_missing.
  - by apply rules_inv_remove_obsolete.
  - apply (preserves_bind (rules_inv F)); [by apply rules_inv_add_missing| |done].
    intros _. apply preserves_bind; [by apply rules_inv_remove_obsolete|]. intros _.
    apply preserves_ret.
  - by apply rules_inv_protect.
  - by apply rules_inv_adopt_desired.
  - by apply rules_inv_clear.
Qed.
End Calls.

(** C15. The rule manager deletes only what it created: whatever calls are made and
    whichever backend calls fail, every policy rule that was live before the
    manager existed is still live, also one identical to a desired rule. A live rule
    with selectors the program cannot represent needs a backend with exact
    transactions, which the production backend has. *)
Theorem preexisting_rules_kept {K : Type} `{RuleNetlinkLaws K} (calls : list RuleCall)
    (dry_run : bool) (k : K) (d : DumpedRule) :
  Forall rule_call_explicit calls → d ∈ rl_live k →
  du_exact_identity_representable d = true ∨ (∀ k' : K, rl_supports_exact_rule_transaction k' = true) →
  d ∈ rl_live (run_rule_calls calls (initial_rules dry_run, k)).2.
Proof.
  intros Hc Hd Hex.
  assert (distinguishable (K:=K) (eq d)) as HF by (intros ? <-; exact Hex).
  assert (rules_inv (eq d) (run_rule_calls calls (initial_rules dry_run, k)))
    as [Hk _]; [|by apply Hk].
  assert (rules_inv (eq d) (initial_rules dry_run, k)) as Hw by (split; [by intros x <-|constructor]).
  revert Hw. generalize (initial_rules dry_run, k). clear Hd.
  induction Hc as [|c l Hc _ IH]; intros w Hw; simpl; [done|].
  by apply IH, run_rule_call_inv.
Qed.
