(* ===== verification/PolicyRulesDeps.v ===== *)
(** * Policy rules: reported dependencies

    A route table may lose its routes only when no policy rule depends on it. The
    three operations that tell the caller which tables to keep are complete:
    [remove_obsolete], [clear] and [protect_route_tables_with_live_rules]. *)

From Stdlib Require Import ZArith Lia.
From stdpp Require Import base gmap list.
From S2P Require Import Prelude ConfigTypes RoutingPlan StateError RouteTable RouteTableSafety.
From S2P Require Import PolicyRules PolicyRulesSafety.
Open Scope Z_scope.

Lemma logical_matches_eq r d :
  logical_matches r d = true ↔
  ru_fwmark r = du_fwmark d ∧ ru_fwmask r = du_fwmask d ∧ ru_table r = du_table d
  ∧ ru_priority r = du_priority d ∧ (ru_family r = 0 ∨ ru_family r = du_family d).
Proof.
  unfold logical_matches, rule_matches_live. simpl.
  destruct (Z.eqb_spec (ru_family r) 0), (Z.eqb_spec (ru_family r) (du_family d)); simpl;
    rewrite ?andb_true_iff, ?Z.eqb_eq; try tauto. split; [done|]. naive_solver.
Qed.

(** A tracked rule that covers the identity of a live rule matches it. *)
Lemma covers_matches candidate r d :
  logical_matches r d = true →
  rule_covers_family candidate (with_family (du_family d) r) = true →
  logical_matches candidate d = true.
Proof.
  rewrite !logical_matches_eq. unfold rule_covers_family. simpl.
  rewrite !andb_true_iff, orb_true_iff, !Z.eqb_eq. intuition congruence.
Qed.

Lemma count_erase_first r x l :
  count_occ RuleSpec_eq_dec (erase_first (λ y, rules_equal y r) l) x
  = if decide (x = r) then pred (count_occ RuleSpec_eq_dec l x) else count_occ RuleSpec_eq_dec l x.
Proof.
  induction l as [|y l IH]; simpl; [by destruct (decide _)|].
  destruct (rules_equal y r) eqn:Hy.
  - apply rules_equal_eq in Hy. subst r.
    destruct (RuleSpec_eq_dec y x) as [Hx|Hx], (decide (x = y)) as [He|He]; simpl; congruence.
  - assert (y ≠ r) as Hne by (intros ->; by rewrite (proj2 (rules_equal_eq r r) eq_refl) in Hy).
    simpl. rewrite IH.
    destruct (RuleSpec_eq_dec y x) as [Hx|Hx], (decide (x = r)) as [He|He]; simpl; congruence.
Qed.

Lemma elem_of_erase_rule r x l : x ∈ erase_first (λ y, rules_equal y r) l → x ∈ l.
Proof.
  induction l as [|y l IH]; simpl; [done|]. destruct (rules_equal y r); set_solver.
Qed.

Section Deps.
Context {K : Type} `{HL : RuleNetlinkLaws K}.

(** The live rules can only become fewer; the logical ledger is untouched. *)
Definition fewer (w w' : RuleWorld K) : Prop :=
  pm_dry_run w'.1 = pm_dry_run w.1 ∧ pm_rules w'.1 = pm_rules w.1
  ∧ ∀ d, d ∈ rl_live w'.2 → d ∈ rl_live w.2.

Lemma fewer_refl w : fewer w w.
Proof. done. Qed.

Lemma fewer_trans w1 w2 w3 : fewer w1 w2 → fewer w2 w3 → fewer w1 w3.
Proof. intros (? & ? & HA) (? & ? & HB). split_and!; [congruence|congruence|auto]. Qed.

Lemma fewer_dump f w0 : preserves (fewer w0) (dump_policy_rules f).
Proof.
  intros [s k] Hw. eapply fewer_trans; [exact Hw|]. unfold dump_policy_rules, pm_lift. simpl.
  pose proof (law_rule_dump_keeps f k) as Hk. destruct (rl_dump_policy_rules f k) as [k' r].
  split_and!; [done|done|]. intros d. apply Hk.
Qed.

Lemma fewer_delete spec f w0 : preserves (fewer w0) (delete_rule_for_family spec f).
Proof.
  intros [s k] Hw. eapply fewer_trans; [exact Hw|]. unfold delete_rule_for_family, pm_lift. simpl.
  pose proof (law_rule_delete_new spec f k) as Hk.
  by destruct (rl_delete_rule_for_family spec f k) as [k' r].
Qed.

Lemma fewer_owned l w0 : preserves (fewer w0) (pm_update (set_owned_rules l)).
Proof. by intros [s k] Hw. Qed.

Lemma fewer_field {A} (f : PolicyRuleState → A) w0 : preserves (fewer w0) (pm_field f).
Proof. apply preserves_gets. Qed.

Lemma fewer_exact w0 : preserves (fewer w0) supports_exact_rules.
Proof. apply preserves_gets. Qed.
#[local] Hint Resolve fewer_dump fewer_delete fewer_owned fewer_field fewer_exact : preserves.

Lemma fewer_delete_exact spec f w0 : preserves (fewer w0) (delete_rule_if_exact spec f).
Proof. unfold delete_rule_if_exact. cbv zeta. preserve. Qed.
#[local] Hint Resolve fewer_delete_exact : preserves.

Lemma fewer_delete_concrete rule w0 : preserves (fewer w0) (delete_concrete rule).
Proof. unfold delete_concrete. preserve. Qed.
#[local] Hint Resolve fewer_delete_concrete : preserves.

Lemma fewer_release spec others kept rest w0 :
  preserves (fewer w0) (release_owned_rules spec others kept rest).
Proof.
  revert kept. induction rest as [|o rest IH]; intros kept; simpl; [preserve|].
  destruct (_ && _); [|apply IH]. apply preserves_bind; [preserve|]. intros [|]; [|preserve].
  apply preserves_bind; [preserve|]. intros _. apply IH.
Qed.

(** The destructive requests report their failures as values. *)
Lemma delete_concrete_returns rule w :
  wp (delete_concrete rule) (λ _ _, True) (λ _ _, False) w.
Proof.
  unfold delete_concrete. apply wp_catch.
  match goal with |- wp ?m _ _ _ => unfold wp; by destruct (m w) as [w1 [b|e]] end.
Qed.

Lemma release_returns spec others kept rest w :
  wp (release_owned_rules spec others kept rest) (λ _ _, True) (λ _ _, False) w.
Proof.
  revert kept w. induction rest as [|o rest IH]; intros kept w; simpl; [done|].
  destruct (_ && _); [|apply IH]. apply wp_bind.
  eapply wp_mono; [apply delete_concrete_returns | |done]. intros [|] w1 _; [|done].
  apply wp_bind, wp_modify. apply IH.
Qed.

Lemma wp_dump_rules w :
  wp (dump_policy_rules 0) (λ l w', fewer w w' ∧ ∀ d, d ∈ l ↔ d ∈ rl_live w'.2) (λ _, fewer w) w.
Proof.
  pose proof (fewer_dump 0 w w (fewer_refl w)) as Hf. revert Hf. destruct w as [s k].
  unfold wp, dump_policy_rules, pm_lift. simpl. pose proof (law_rule_dump_exact 0 k) as Hex.
  pose proof (law_rule_dump_keeps 0 k) as Hk. destruct (rl_dump_policy_rules 0 k) as [k' [l|e]]; [|done].
  intros Hf. split; [done|]. intros d. simpl in *. rewrite Hk, Hex by done. naive_solver.
Qed.

(** ** Removing one rule *)

(** The outcome of [remove]: nothing new is live, and a rule that left the ledger
    leaves no live instance that another tracked rule does not cover. *)
Definition removed (r : RuleSpec) (b : bool) (w w' : RuleWorld K) : Prop :=
  pm_dry_run w'.1 = pm_dry_run w.1 ∧ (∀ d, d ∈ rl_live w'.2 → d ∈ rl_live w.2)
  ∧ if b then
      pm_rules w'.1 = erase_first (λ y, rules_equal y r) (pm_rules w.1)
      ∧ (r ∈ pm_rules w.1 → ∀ d, d ∈ rl_live w'.2 → logical_matches r d = true →
           ∃ r', r' ∈ pm_rules w'.1 ∧ logical_matches r' d = true)
    else pm_rules w'.1 = pm_rules w.1.

Lemma erase_rule_absent l r : r ∉ l → erase_first (λ y, rules_equal y r) l = l.
Proof.
  induction l as [|x l IH]; intros Hr; simpl; [done|]. destruct (rules_equal x r) eqn:Hx.
  - apply rules_equal_eq in Hx as ->. set_solver.
  - rewrite IH; set_solver.
Qed.

Lemma uncovered_none r live others :
  logical_rule_has_uncovered_live_family r live others = false →
  ∀ d, d ∈ live → logical_matches r d = true →
       ∃ r', r' ∈ others ∧ logical_matches r' d = true.
Proof.
  intros Hno d Hd Hm. apply not_true_iff_false in Hno.
  destruct (existsb (λ c, rule_covers_family c (with_family (du_family d) r)) others) eqn:Hc.
  - apply existsb_exists in Hc as (c & Hin & Hcov). exists c.
    split; [by apply list_elem_of_In | by eapply covers_matches].
  - destruct Hno. apply existsb_exists. exists d. split; [by apply list_elem_of_In|].
    by rewrite Hm, Hc.
Qed.

Lemma wp_pm_remove r w :
  pm_dry_run w.1 = false → wp (pm_remove r) (λ b, removed r b w) (λ _ _, False) w.
Proof.
  intros Hdry. unfold pm_remove. apply wp_bind, wp_gets.
  destruct (rule_in r (pm_rules w.1)) eqn:Htr; simpl.
  2: { apply wp_ret. assert (r ∉ pm_rules w.1) as Hr by (intros ?%rule_in_elem; congruence).
    split; [done|]. split; [done|]. split; [by rewrite erase_rule_absent|done]. }
  apply wp_bind, wp_gets, wp_bind, wp_gets. cbv zeta. rewrite Hdry. apply wp_bind, wp_bind, wp_gets.
  apply wp_bind. eapply wp_mono; [apply (wp_and _ _ _ _ _ _
    (proj1 (preserves_wp _ _) (fewer_release _ _ _ _ w) w (fewer_refl w)) (release_returns _ _ _ _ w))
    | | by intros e w1 [_ []]].
  intros released w1 [Hw1 _]. destruct released.
  2: { do 2 apply wp_ret. destruct Hw1 as (? & ? & ?). by split_and!. }
  apply wp_catch, wp_bind. eapply wp_mono; [apply wp_dump_rules | |].
  2: { intros e w2 Hw2. do 2 apply wp_ret.
    destruct (fewer_trans _ _ _ Hw1 Hw2) as (? & ? & ?). by split_and!. }
  intros live w2 [Hw2 Hl]. apply wp_ret. destruct (fewer_trans _ _ _ Hw1 Hw2) as (Hd & Hrules & Hlive).
  destruct (logical_rule_has_uncovered_live_family _ _ _) eqn:Hunc; simpl.
  - apply wp_ret. by split_and!.
  - apply wp_bind, wp_modify, wp_ret. split; [done|]. split; [done|]. split; [done|].
    intros _ d Hdl Hm. apply (uncovered_none _ _ _ Hunc d); [by apply Hl | done].
Qed.

(** ** [remove_obsolete] *)

Definition obsolete_inv (R desired : list RuleSpec) (u : gset Z) (rest : list RuleSpec)
    (w : RuleWorld K) : Prop :=
  pm_dry_run w.1 = false
  ∧ (∀ r d, r ∈ R → d ∈ rl_live w.2 → logical_matches r d = true →
       ∃ r', r' ∈ pm_rules w.1 ∧ logical_matches r' d = true)
  ∧ ∀ r, r ∈ desired ∨ ru_table r ∈ u
         ∨ (count_occ RuleSpec_eq_dec (pm_rules w.1) r ≤ count_occ RuleSpec_eq_dec rest r)%nat.

Lemma obsolete_step R desired u r rest b w w' :
  obsolete_inv R desired u (r :: rest) w → removed r b w w' →
  obsolete_inv R desired (if b then u else {[ ru_table r ]} ∪ u) rest w'.
Proof.
  intros (Hdry & Hcov & Hcount) (Hdry' & Hlive & Hb). split; [congruence|]. split.
  - intros r0 d Hr0 Hd Hm. destruct (Hcov r0 d Hr0 (Hlive d Hd) Hm) as (r' & Hr' & Hm').
    destruct b; [|rewrite Hb; eauto]. destruct Hb as [Hrules Hrem].
    destruct (decide (r' = r)) as [->|Hne]; [by apply Hrem|].
    exists r'. split; [|done]. rewrite Hrules.
    rewrite list_elem_of_In, (count_occ_In RuleSpec_eq_dec), count_erase_first, decide_False by done.
    by apply (count_occ_In RuleSpec_eq_dec), list_elem_of_In.
  - intros x. destruct (Hcount x) as [?|[?|Hc]]; [by left|right; left; destruct b; set_solver|].
    simpl in Hc. destruct b.
    + destruct Hb as [-> _]. rewrite count_erase_first. right; right.
      destruct (RuleSpec_eq_dec r x) as [<-|Hne]; [rewrite decide_True by done; lia|].
      rewrite decide_False by done. exact Hc.
    + rewrite Hb. destruct (RuleSpec_eq_dec r x) as [<-|Hne]; [right; left; set_solver|].
      right; right. exact Hc.
Qed.

Lemma wp_remove_obsolete_rules desired w :
  pm_dry_run w.1 = false →
  wp (pm_remove_obsolete desired) (λ u, obsolete_inv (pm_rules w.1) desired u []) (λ _ _, False) w.
Proof.
  intros Hdry. unfold pm_remove_obsolete. apply wp_bind, wp_gets.
  apply (wp_mfold _ (obsolete_inv (pm_rules w.1) desired)).
  { split; [done|]. split; [naive_solver|]. intros r. right; right. done. }
  intros u r rest w1 Hw1. destruct (existsb _ desired) eqn:Hex.
  - apply wp_ret. destruct Hw1 as (? & ? & Hcount). split; [done|]. split; [done|]. intros x.
    destruct (Hcount x) as [?|[?|Hc]]; [by left|by right; left|]. simpl in Hc.
    destruct (RuleSpec_eq_dec r x) as [<-|Hne]; [left|by right; right].
    apply existsb_exists in Hex as (y & Hy & ->%rules_equal_eq). by apply list_elem_of_In.
  - apply wp_bind. eapply wp_mono; [by apply wp_pm_remove; destruct Hw1 | |done].
    intros b w2 Hw2. apply wp_ret. by eapply obsolete_step.
Qed.

Lemma obsolete_end R desired u w r d :
  obsolete_inv R desired u [] w → r ∈ R → d ∈ rl_live w.2 → logical_matches r d = true →
  du_table d ∈ u ∨ ∃ e, e ∈ desired ∧ logical_matches e d = true.
Proof.
  intros (_ & Hcov & Hcount) Hr Hd Hm. destruct (Hcov r d Hr Hd Hm) as (r' & Hr' & Hm').
  destruct (Hcount r') as [?|[Hu|Hc]]; [eauto| |].
  - left. apply logical_matches_eq in Hm' as (_ & _ & <- & _). done.
  - exfalso. rewrite list_elem_of_In, (count_occ_In RuleSpec_eq_dec) in Hr'. simpl in Hc. lia.
Qed.

(** ** [clear] *)

Lemma wp_clear_rules w :
  pm_dry_run w.1 = false →
  wp pm_clear (λ u w', ∀ r d, r ∈ pm_rules w.1 → d ∈ rl_live w'.2 → logical_matches r d = true →
                du_table d ∈ u) (λ _ _, True) w.
Proof.
  intros Hdry. unfold pm_clear. apply wp_bind, wp_gets, wp_bind, wp_gets, wp_bind. rewrite Hdry.
  eapply wp_frame; [|apply fewer_refl|].
  { apply preserves_mfold. intros acc rule _. unfold clear_owned. preserve. }
  intros [retained uncertain] w1 (Hd1 & Hr1 & Hl1). cbv zeta. apply wp_bind, wp_catch, wp_bind.
  assert (∀ live w2, pm_rules w2.1 = pm_rules w.1 →
    (∀ l d, live = Some l → d ∈ rl_live w2.2 → d ∈ l) →
    wp (rules ← pm_field pm_rules;
        _ ← pm_update (set_owned_rules (rev retained));
        _ ← pm_update (set_rules_ (retained_logical (rev retained) live rules));
        mret (list_to_set (ru_table <$> retained_logical (rev retained) live rules) ∪ uncertain)
          : PM K (gset Z))
      (λ u w', ∀ r d, r ∈ pm_rules w.1 → d ∈ rl_live w'.2 → logical_matches r d = true →
         du_table d ∈ u) (λ _ _, True) w2) as Hrest.
  { intros live w2 Hrules Hlive. apply wp_bind, wp_gets, wp_bind, wp_modify, wp_bind, wp_modify, wp_ret.
    rewrite Hrules. intros r d Hr Hd Hm. apply elem_of_union_l, elem_of_list_to_set.
    apply list_elem_of_fmap. exists r. split; [by apply logical_matches_eq in Hm as (_ & _ & -> & _)|].
    apply list_elem_of_In, filter_In. split; [by apply list_elem_of_In|]. apply orb_true_iff. right.
    destruct live as [l|]; [|done]. apply existsb_exists. exists d. split; [|done].
    apply list_elem_of_In, Hlive; done. }
  eapply wp_mono; [apply wp_dump_rules | |].
  - intros l w2 [(_ & Hr2 & _) Hl2]. apply wp_ret, Hrest; [congruence|].
    intros ? d [= <-] Hd. by apply Hl2.
  - intros e w2 (_ & Hr2 & _). apply wp_ret, Hrest; [congruence|done].
Qed.

(** ** [protect_route_tables_with_live_rules] *)

Lemma wp_protect routes extra accounted w :
  pm_dry_run w.1 = false →
  wp (protect_route_tables_with_live_rules routes extra accounted)
     (λ p w', fewer w w' ∧ ∀ d, d ∈ rl_live w'.2 →
        du_table d ∈ (list_to_set (rt_table <$> routes) ∪ extra : gset Z) →
        du_table d ∈ p ∨ ∃ e, e ∈ accounted ∧ logical_matches e d = true) (λ _ _, False) w.
Proof.
  intros Hdry. unfold protect_route_tables_with_live_rules. cbv zeta.
  apply wp_bind, wp_gets. rewrite Hdry. simpl. case_bool_decide as Hemp.
  { apply wp_ret. split; [done|]. intros d _ Hd. rewrite Hemp in Hd. set_solver. }
  apply wp_catch, wp_bind. eapply wp_mono; [apply wp_dump_rules | |].
  - intros l w1 [Hf Hl]. apply wp_ret. split; [done|]. intros d Hd Hc.
    destruct (existsb (λ logical, logical_matches logical d) accounted) eqn:Hacc.
    + right. apply existsb_exists in Hacc as (e & He & Hm). exists e. by rewrite list_elem_of_In.
    + left. apply elem_of_list_to_set, list_elem_of_fmap. exists d. split; [done|].
      apply list_elem_of_In, filter_In. split; [by apply list_elem_of_In, Hl|].
      by rewrite Hacc, bool_decide_eq_true_2.
  - intros e w1 Hf. apply wp_ret. split; [done|]. intros d _ Hc. by left.
Qed.
End Deps.

(** C20. Dependencies are reported: after [remove_obsolete], [clear] or
    [protect_route_tables_with_live_rules] returned, each policy rule that is still
    live (and, for the first two, belongs to a rule tracked before; for the third,
    points at a candidate table) has its table in the returned set, or is an
    instance of a desired (accounted) rule. Backend failures on the way included. *)
Theorem rule_dependencies_reported {K : Type} `{RuleNetlinkLaws K} (s s' : PolicyRuleState)
    (k k' : K) (u : gset Z) :
  pm_dry_run s = false →
  (∀ desired, pm_remove_obsolete desired (s, k) = ((s', k'), Ok u) →
     ∀ r d, r ∈ pm_rules s → d ∈ rl_live k' → logical_matches r d = true →
     du_table d ∈ u ∨ ∃ e, e ∈ desired ∧ logical_matches e d = true)
  ∧ (pm_clear (s, k) = ((s', k'), Ok u) →
     ∀ r d, r ∈ pm_rules s → d ∈ rl_live k' → logical_matches r d = true → du_table d ∈ u)
  ∧ (∀ routes extra accounted,
     protect_route_tables_with_live_rules routes extra accounted (s, k) = ((s', k'), Ok u) →
     ∀ d, d ∈ rl_live k' → du_table d ∈ (list_to_set (rt_table <$> routes) ∪ extra : gset Z) →
     du_table d ∈ u ∨ ∃ e, e ∈ accounted ∧ logical_matches e d = true).
Proof.
  intros Hdry. split; [|split].
  - intros desired Hrun r d Hr Hd Hm.
    pose proof (wp_remove_obsolete_rules desired (s, k) Hdry) as Hwp.
    unfold wp in Hwp. rewrite Hrun in Hwp. by eapply obsolete_end.
  - intros Hrun r d Hr Hd Hm. pose proof (wp_clear_rules (s, k) Hdry) as Hwp.
    unfold wp in Hwp. rewrite Hrun in Hwp. by eapply Hwp.
  - intros routes extra accounted Hrun d Hd Hc.
    pose proof (wp_protect routes extra accounted (s, k) Hdry) as Hwp.
    unfold wp in Hwp. rewrite Hrun in Hwp. by apply Hwp.
Qed.
