(* ===== verification/PolicyRulesConverge.v ===== *)
(** * Policy rules: convergence

    After [add_missing] returned, every desired rule is tracked and live for each
    of its families, and the cleanup that follows ([remove_orphaned_generated],
    [remove_obsolete]) does not take any of them away. A list of rules with a script of
    faults satisfies the laws of the rule backend. *)

From Stdlib Require Import ZArith Lia.
From stdpp Require Import base gmap list.
From S2P Require Import Prelude ConfigTypes RoutingPlan StateError RouteTable RouteTableSafety PolicyRules PolicyRulesSafety.
From S2P Require Import PolicyRulesDeps.
Open Scope Z_scope.

Lemma matches_live_eq r d :
  rule_matches_live r d = true ↔
  ru_fwmark r = du_fwmark d ∧ ru_fwmask r = du_fwmask d ∧ ru_table r = du_table d
  ∧ ru_priority r = du_priority d ∧ ru_family r = du_family d.
Proof. unfold rule_matches_live. rewrite !andb_true_iff, !Z.eqb_eq. tauto. Qed.

(** A live rule has one identity. *)
Lemma matches_live_unique r1 r2 d :
  rule_matches_live r1 d = true → rule_matches_live r2 d = true → r1 = r2.
Proof.
  rewrite !matches_live_eq. destruct r1, r2; simpl. intros (-> & -> & -> & -> & ->).
  by intros (-> & -> & -> & -> & ->).
Qed.

Lemma families_of_cases e f : f ∈ families_of e → ru_family e = 0 ∨ ru_family e = f.
Proof.
  unfold families_of. destruct (Z.eqb_spec (ru_family e) 0); simpl; [by left|].
  intros ->%list_elem_of_singleton. by right.
Qed.

(** The concrete rules of [e] are covered by [e] and match it logically. *)
Lemma covers_concrete e f : f ∈ families_of e → rule_covers_family e (with_family f e) = true.
Proof.
  intros Hf%families_of_cases. unfold rule_covers_family. simpl.
  rewrite !Z.eqb_refl. simpl. rewrite orb_true_iff, !Z.eqb_eq. done.
Qed.

Lemma concrete_logical e f d :
  f ∈ families_of e → rule_matches_live (with_family f e) d = true → logical_matches e d = true.
Proof.
  intros Hf%families_of_cases. rewrite matches_live_eq, logical_matches_eq. simpl.
  intros (-> & -> & -> & -> & ->). tauto.
Qed.

Lemma missing_elem desired live c :
  c ∈ missing_live_rules desired live ↔
  ∃ e f, e ∈ desired ∧ f ∈ families_of e ∧ c = with_family f e
         ∧ existsb (rule_matches_live c) live = false.
Proof.
  unfold missing_live_rules. rewrite list_elem_of_bind. split.
  - intros (e & Hc%list_elem_of_In%filter_In & He). destruct Hc as [Hc Hno].
    apply list_elem_of_In, list_elem_of_fmap in Hc as (f & -> & Hf). exists e, f.
    by apply negb_true_iff in Hno.
  - intros (e & f & He & Hf & -> & Hno). exists e. split; [|done].
    apply list_elem_of_In, filter_In. split; [|by rewrite Hno].
    apply list_elem_of_In, list_elem_of_fmap. eauto.
Qed.

Section Converge.
Context {K : Type} `{HL : RuleNetlinkLaws K}.

Definition rule_live (k : K) (c : RuleSpec) : Prop :=
  ∃ d, d ∈ rl_live k ∧ rule_matches_live c d = true.

Definition all_families_live (k : K) (e : RuleSpec) : Prop :=
  ∀ f, f ∈ families_of e → rule_live k (with_family f e).

(** [P] holds of the ledger; the rules of [S] are live. *)
Definition rules_up (L : list RuleSpec) (S : RuleSpec → Prop) (w : RuleWorld K) : Prop :=
  pm_dry_run w.1 = false ∧ pm_rules w.1 = L ∧ ∀ c, S c → rule_live w.2 c.

Lemma up_mono L (S S' : RuleSpec → Prop) w :
  rules_up L S w → (∀ c, S' c → S c ∨ rule_live w.2 c) → rules_up L S' w.
Proof. intros (? & ? & Hs) Hi. split_and!; [done|done|]. intros c Hc. destruct (Hi c Hc); auto. Qed.

Lemma up_owned L S f :
  preserves (rules_up L S) (pm_update (λ s, set_owned_rules (f s) s)).
Proof. by intros [s k] Hw. Qed.

Lemma up_field {A} L S (f : PolicyRuleState → A) : preserves (rules_up L S) (pm_field f).
Proof. apply preserves_gets. Qed.

Lemma up_dump L S f : preserves (rules_up L S) (dump_policy_rules f).
Proof.
  intros [s k] (Hd & Hr & HS). unfold dump_policy_rules, pm_lift. simpl.
  pose proof (law_rule_dump_keeps f k) as Hk. destruct (rl_dump_policy_rules f k) as [k' r].
  split_and!; [done|done|]. intros c Hc. destruct (HS c Hc) as (d & Hin & Hm). exists d.
  by rewrite Hk.
Qed.
#[local] Hint Resolve up_owned up_field up_dump : preserves.

(** ** Installing *)

Lemma wp_add_rule_live L S spec f w :
  rules_up L S w →
  wp (add_rule_for_family spec f) (λ _, rules_up L (λ c, S c ∨ c = with_family f spec))
     (λ _, rules_up L S) w.
Proof.
  destruct w as [s k]. intros (Hd & Hr & HS). unfold wp, add_rule_for_family, pm_lift. simpl.
  pose proof (law_rule_add_keeps spec f k) as Hk. pose proof (law_rule_add_live spec f k) as Hl.
  destruct (rl_add_rule_for_family spec f k) as [k' [r|e]]; simpl in *.
  - split_and!; [done|done|]. intros c [Hc| ->]; [|by eapply Hl].
    destruct (HS c Hc) as (d & Hin & Hm). exists d. auto.
  - split_and!; [done|done|]. intros c Hc. destruct (HS c Hc) as (d & Hin & Hm). exists d. auto.
Qed.

Lemma wp_add_families_live L S spec families newly w :
  rules_up L S w →
  wp (add_families spec families newly)
     (λ r, rules_up L (λ c, S c ∨ (r.2 = None ∧ ∃ f, f ∈ families ∧ c = with_family f spec)))
     (λ _ _, False) w.
Proof.
  revert S newly w. induction families as [|f families IH]; intros S newly w Hw; simpl.
  { apply wp_ret. eapply up_mono; [exact Hw|]. intros c [?|(_ & f & Hf & _)]; [by left|].
    by apply elem_of_nil in Hf. }
  apply wp_bind, wp_catch, wp_bind. eapply wp_mono; [by apply wp_add_rule_live | |].
  - intros r w1 Hw1. apply wp_ret. destruct r.
    all: eapply wp_mono; [by apply IH | |done]; intros [l [e|]] w2 Hw2; simpl in *.
    all: eapply up_mono; [exact Hw2|]; intros c; set_solver.
  - intros e w1 Hw1. apply wp_ret, wp_ret. eapply up_mono; [exact Hw1|]. simpl. naive_solver.
Qed.

Lemma wp_pm_add_live L S spec w :
  spec ∉ L → rules_up L S w →
  wp (pm_add spec)
     (λ _, rules_up (L ++ [spec]) (λ c, S c ∨ ∃ f, f ∈ families_of spec ∧ c = with_family f spec))
     (λ _ _, True) w.
Proof.
  intros Hnot Hw. unfold pm_add. apply wp_bind, wp_gets. destruct Hw as (Hd & Hr & HS).
  destruct (rule_in spec (pm_rules w.1)) eqn:Hin; [apply rule_in_elem in Hin; congruence|].
  apply wp_bind, wp_gets. rewrite Hd. apply wp_bind, wp_bind.
  eapply wp_mono; [by apply (wp_add_families_live L S) | |done].
  intros [newly [e|]] w1 Hw1; simpl in Hw1.
  - apply wp_bind_any. intros uncertain w2. by apply wp_bind_any.
  - apply wp_modify, wp_modify. destruct Hw1 as (? & <- & Hw1). split_and!; [done|done|].
    intros c Hc. apply Hw1. naive_solver.
Qed.
(** The repair of a vanished rule that is tracked, logically or concretely. *)
Lemma wp_restore_live L (S : RuleSpec → Prop) c w :
  rules_up L S w →
  wp (restore_rule c)
     (λ _, rules_up L (λ x, S x ∨ (x = c ∧ (with_family 0 c ∈ L ∨ c ∈ L)))) (λ _ _, True) w.
Proof.
  intros Hw. unfold restore_rule. apply wp_bind, wp_gets, wp_bind, wp_gets.
  assert (pm_rules w.1 = L) as HL' by apply Hw. rewrite HL'.
  destruct (rule_in (with_family 0 c) L) eqn:Ht0, (rule_in c L) eqn:Htc; simpl.
  4: { apply wp_ret. eapply up_mono; [exact Hw|].
    intros x [Hx|[-> [Hx%rule_in_elem|Hx%rule_in_elem]]]; [by left|congruence|congruence]. }
  all: apply wp_bind; eapply wp_mono; [exact (proj1 (preserves_wp _ _) (up_owned L S _) w Hw) | |done].
  all: intros u w1 Hw1; apply wp_bind; eapply wp_mono; [exact (wp_add_rule_live L S c (ru_family c) w1 Hw1) | |done].
  all: intros r w2 Hw2; rewrite with_family_id in Hw2.
  all: assert (rules_up L (λ x, S x ∨ (x = c ∧ (with_family 0 c ∈ L ∨ c ∈ L))) w2) as Hw3
         by (eapply up_mono; [exact Hw2|]; naive_solver).
  all: eapply wp_frame; [|exact Hw3|done]; preserve.
Qed.

Lemma wp_restore_loop L (C : RuleSpec → Prop) missing w :
  rules_up L (λ c, C c ∧ c ∉ missing) w →
  wp (mfor restore_rule missing)
     (λ _, rules_up L (λ c, C c ∧ (c ∈ missing → with_family 0 c ∈ L ∨ c ∈ L))) (λ _ _, True) w.
Proof.
  intros Hw. eapply wp_mono; [apply (wp_mfor _ (λ rest, rules_up L
    (λ c, C c ∧ (c ∈ missing → (c ∉ rest) ∧ (with_family 0 c ∈ L ∨ c ∈ L))))) | |done].
  - eapply up_mono; [exact Hw|]. intros c [HC Hc]. destruct (decide (c ∈ missing)); naive_solver.
  - intros c rest w1 Hw1. eapply wp_mono; [by apply wp_restore_live | |done].
    intros u w2 Hw2. eapply up_mono; [exact Hw2|]. intros x [HC Hx]. left.
    destruct (decide (x = c)) as [->|Hne].
    + destruct (decide (c ∈ missing)) as [Hin|Hout]; [|naive_solver]. right. naive_solver.
    + left. split; [done|]. intros Hin. destruct (Hx Hin) as [??]. split; [set_solver|done].
  - intros u w1 Hw1. eapply up_mono; [exact Hw1|]. intros c [HC Hc]. left. split; [done|].
    intros Hin. split; [apply not_elem_of_nil | by apply Hc].
Qed.

Section Desired.
Context (desired : list RuleSpec).

(** The concrete rules of the tracked desired rules. *)
Definition tracked_concrete (L : list RuleSpec) (c : RuleSpec) : Prop :=
  ∃ e f, e ∈ desired ∧ e ∈ L ∧ f ∈ families_of e ∧ c = with_family f e.

Lemma tracked_restored L c :
  tracked_concrete L c → with_family 0 c ∈ L ∨ c ∈ L.
Proof.
  intros (e & f & _ & He & Hf%families_of_cases & ->). destruct Hf as [H0|<-].
  - left. by rewrite <- H0; destruct e.
  - right. by rewrite with_family_id.
Qed.

Definition adding (rest : list RuleSpec) (w : RuleWorld K) : Prop :=
  (∃ L, rules_up L (tracked_concrete L) w) ∧ (∀ e, e ∈ desired → e ∈ pm_rules w.1 ∨ e ∈ rest)
  ∧ ∀ e, e ∈ rest → e ∈ desired.

Lemma wp_add_one e rest w :
  adding (e :: rest) w → wp (pm_add e) (λ _, adding rest) (λ _ _, True) w.
Proof.
  intros ([L Hw] & Hall & Hsub). assert (pm_rules w.1 = L) as HL' by apply Hw.
  destruct (decide (e ∈ L)) as [Hin|Hout].
  - unfold pm_add. apply wp_bind, wp_gets. rewrite HL'.
    rewrite (proj2 (rule_in_elem e L) Hin). apply wp_ret. split; [eauto|]. rewrite HL' in *.
    split; [set_solver|set_solver].
  - eapply wp_mono; [by apply wp_pm_add_live | |done]. intros u w1 Hw1.
    assert (pm_rules w1.1 = L ++ [e]) as HL1 by apply Hw1. split; [|rewrite HL1, HL' in *; set_solver].
    exists (L ++ [e]). eapply up_mono; [exact Hw1|].
    intros c (e' & f & He' & [Hin|Heq%list_elem_of_singleton]%elem_of_app & Hf & ->); left.
    + left. exists e', f. done.
    + subst e'. right. eauto.
Qed.

(** [add_missing] returned: every desired rule is tracked and live. *)
Definition generation_up (w : RuleWorld K) : Prop :=
  pm_dry_run w.1 = false
  ∧ ∀ e, e ∈ desired → e ∈ pm_rules w.1 ∧ all_families_live w.2 e.

Lemma wp_rules_add_missing w :
  pm_dry_run w.1 = false → wp (pm_add_missing desired) (λ _, generation_up) (λ _ _, True) w.
Proof.
  intros Hdry. unfold pm_add_missing. apply wp_bind, wp_gets. rewrite Hdry. apply wp_bind, wp_bind.
  eapply wp_mono; [exact (wp_and _ _ _ _ _ _ (wp_dump_rules w)
    (proj1 (preserves_wp _ _) (up_dump (pm_rules w.1) (λ _, False) 0) w
       ltac:(by split_and!))) | |done].
  intros live w1 [[_ Hlive] (Hd & Hr & _)]. simpl in Hr.
  eapply wp_mono; [apply (wp_restore_loop (pm_rules w.1) (tracked_concrete (pm_rules w.1))) | |done].
  - split_and!; [done|done|]. intros c [(e & f & He & HeL & Hf & ->) Hno].
    destruct (existsb (rule_matches_live (with_family f e)) live) eqn:Hex.
    + apply existsb_exists in Hex as (d & Hin%list_elem_of_In & Hm). exists d.
      split; [by apply Hlive | done].
    + destruct Hno. apply missing_elem. eauto 10.
  - intros u w2 Hw2. eapply wp_mono; [apply (wp_mfor _ adding) | |done].
    + assert (pm_rules w2.1 = pm_rules w.1) as HL2 by apply Hw2.
      split; [exists (pm_rules w.1); eapply up_mono; [exact Hw2|]|].
      * intros c Hc. left. split; [done|]. intros _. by apply tracked_restored.
      * split; [by right | done].
    + intros e rest w3. apply wp_add_one.
    + intros u' w3 ([L Hup] & Hall & _). destruct Hup as (Hd3 & HL3 & Hup). split; [done|].
      intros e He. destruct (Hall e He) as [Hin|Hnil%elem_of_nil]; [|done]. split; [done|].
      intros f Hf. apply Hup. rewrite HL3 in Hin. by exists e, f.
Qed.

(** ** The cleanup *)

Definition kept_up (w : RuleWorld K) : Prop :=
  generation_up w ∧ Forall explicit_rule (pm_owned_rules w.1).

(** A rule whose deletion cannot hit a desired one. *)
Definition beside (o : RuleSpec) : Prop :=
  explicit_rule o ∧ ∀ e f, e ∈ desired → f ∈ families_of e → with_family f e ≠ o.

Lemma kept_lift {A} (op : K → K * result RuleError A) :
  (∀ k e, e ∈ desired → all_families_live k e → all_families_live (op k).1 e) →
  preserves kept_up (pm_lift op).
Proof.
  intros Hop [s k] [[Hd Hup] Ho]. unfold pm_lift. simpl in *.
  pose proof (λ e He, Hop k e He (proj2 (Hup e He))) as Hk. destruct (op k) as [k' r]. simpl in Hk.
  split; [split; [done|]|done]. intros e He. split; [by apply Hup | by apply Hk].
Qed.

Lemma kept_field {A} (f : PolicyRuleState → A) : preserves kept_up (pm_field f).
Proof. apply preserves_gets. Qed.

Lemma kept_exact : preserves kept_up supports_exact_rules.
Proof. apply preserves_gets. Qed.

Lemma kept_tracked r : preserves kept_up (pm_is_tracked r).
Proof. apply preserves_gets. Qed.

Lemma kept_dump f : preserves kept_up (dump_policy_rules f).
Proof.
  apply kept_lift. intros k e _ He g Hg. destruct (He g Hg) as (d & Hd & Hm). exists d.
  by rewrite law_rule_dump_keeps.
Qed.

Lemma kept_delete o f :
  beside (with_family f o) → preserves kept_up (delete_rule_for_family o f).
Proof.
  intros [Hex Hb]. apply kept_lift. intros k e He Hlive g Hg.
  destruct (Hlive g Hg) as (d & Hd & Hm). exists d. split; [|done].
  apply law_rule_delete_keeps; [done|done|]. apply not_true_iff_false. intros Hm'.
  by apply (Hb e g He Hg), (matches_live_unique _ _ d).
Qed.
#[local] Hint Resolve kept_field kept_exact kept_tracked kept_dump kept_delete : preserves.

Lemma kept_delete_concrete o : beside o → preserves kept_up (delete_concrete o).
Proof.
  intros Hb. assert (beside (with_family (ru_family o) o)) by (by rewrite with_family_id).
  assert (beside (with_family (ru_family o) (with_family (ru_family o) o)))
    by (by rewrite !with_family_id).
  unfold delete_concrete, delete_rule_if_exact. cbv zeta. preserve.
Qed.
#[local] Hint Resolve kept_delete_concrete : preserves.

Lemma kept_set_owned l :
  Forall explicit_rule l → preserves kept_up (pm_update (set_owned_rules l)).
Proof. by intros Hl [s k] [Hw _]. Qed.

Lemma kept_release r others kept rest :
  (∀ e, e ∈ desired → e ∈ others) → Forall explicit_rule kept → Forall explicit_rule rest →
  preserves kept_up (release_owned_rules r others kept rest).
Proof.
  intros Hoth. revert kept. induction rest as [|o rest IH]; intros kept Hk Hr; simpl; [preserve|].
  inversion_clear Hr as [|?? Ho Hrest]. destruct (_ && _) eqn:Hb.
  - apply andb_true_iff in Hb as [_ Hb%negb_true_iff].
    assert (beside o).
    { split; [done|]. intros e f He Hf <-. apply not_true_iff_false in Hb. apply Hb, existsb_exists.
      exists e. split; [by apply list_elem_of_In, Hoth | by apply covers_concrete]. }
    apply preserves_bind; [preserve|]. intros [|]; [|preserve].
    apply preserves_bind; [apply kept_set_owned; by apply Forall_app|]. intros _. by apply IH.
  - apply IH; [|done]. apply Forall_app. split; [done|]. by apply Forall_singleton.
Qed.

Lemma kept_remove r : r ∉ desired → preserves kept_up (pm_remove r).
Proof.
  intros Hr. unfold pm_remove. apply preserves_bind; [preserve|]. intros tracked.
  destruct (negb tracked); [preserve|]. apply preserves_bind; [preserve|]. intros dry_run.
  apply (preserves_bind_fact _ (λ L, ∀ e, e ∈ desired →
    e ∈ erase_first (λ x, rules_equal x r) L)); [preserve| |].
  { intros w w' L [[_ Hup] _] [= _ <-] e He.
    rewrite list_elem_of_In, (count_occ_In RuleSpec_eq_dec), count_erase_first.
    rewrite decide_False by congruence. apply (count_occ_In RuleSpec_eq_dec), list_elem_of_In.
    by apply Hup. }
  intros L HLd. cbv zeta.
  assert (preserves kept_up (pm_update (set_rules_ (erase_first (λ x, rules_equal x r) L)))).
  { intros [s k] [[Hd Hup] Ho]. split; [split; [done|]|done]. intros e He. simpl.
    split; [by apply HLd | by apply Hup]. }
  apply preserves_bind; [|preserve]. destruct dry_run; [preserve|].
  apply (preserves_bind_fact _ (Forall explicit_rule)); [preserve| |].
  { by intros w w' l [_ Ho] [= _ <-]. }
  intros owned Ho. apply preserves_bind; [by apply kept_release | preserve].
Qed.

Lemma kept_remove_obsolete : preserves kept_up (pm_remove_obsolete desired).
Proof.
  unfold pm_remove_obsolete. apply preserves_bind; [preserve|]. intros L. apply preserves_mfold.
  intros u r _. destruct (existsb _ _) eqn:Hex; [preserve|].
  apply preserves_bind; [apply kept_remove | preserve]. intros Hin. apply not_true_iff_false in Hex.
  apply Hex, existsb_exists. exists r. split; [by apply list_elem_of_In | by apply rules_equal_eq].
Qed.

(** An orphan has a mark of a desired rule and a corroborated table. *)
Lemma orphan_beside tables live r :
  Forall explicit_rule desired → 0 ∉ tables →
  r ∈ find_orphaned_generated_rules desired live tables → beside r.
Proof.
  intros Hexp H0 Hr. apply list_elem_of_fmap in Hr as (d & -> & Hd%list_elem_of_In%filter_In).
  destruct Hd as [_ [[Hc Hmark]%andb_true_iff Hno%negb_true_iff]%andb_true_iff].
  rewrite negb_true_iff, !orb_false_iff, !negb_false_iff, Z.eqb_eq, bool_decide_eq_true in Hc.
  destruct Hc as [[_ Hprio] Ht]. split.
  - apply existsb_exists in Hmark as (e & He%list_elem_of_In & [Hm1 Hm2]%andb_true_iff).
    rewrite Forall_forall in Hexp. destruct (Hexp e He) as (? & ? & _).
    apply Z.eqb_eq in Hm1, Hm2. unfold explicit_rule. simpl. split_and!; [congruence|congruence| |];
      intros ?; apply H0; congruence.
  - intros e f He Hf Heq. apply not_true_iff_false in Hno. apply Hno, existsb_exists. exists e.
    split; [by apply list_elem_of_In|].
    assert (rule_matches_live (with_family f e) d = true) as Hm
      by (rewrite Heq; apply matches_live_eq; done).
    assert (f = du_family d) as -> by (by apply (f_equal ru_family) in Heq).
    rewrite Hm, andb_true_r, orb_true_iff, !Z.eqb_eq. by apply families_of_cases.
Qed.

Lemma kept_orphaned tables :
  Forall explicit_rule desired → 0 ∉ tables →
  preserves kept_up (remove_orphaned_generated desired tables).
Proof.
  intros Hexp H0. pose proof (orphan_beside tables) as Hb.
  unfold remove_orphaned_generated. apply preserves_bind; [preserve|]. intros dry_run.
  destruct (_ || _); [preserve|].
  apply (preserves_bind_fact _ (λ o, ∀ rules r, o = Some rules → r ∈ rules → beside r)).
  - preserve.
  - intros w w' o _ Hcatch rules r -> Hr. unfold catch, mbind, se_bind in Hcatch.
    destruct (dump_policy_rules 0 w) as [w1 [live|e]]; simpl in Hcatch; [|by inversion Hcatch].
    injection Hcatch as _ <-. by apply (Hb live).
  - intros [rules|] Hrules; [|preserve]. apply preserves_mfold. intros u r Hr.
    specialize (Hrules rules r eq_refl Hr). unfold retire_orphan. preserve.
Qed.

Lemma kept_protect routes extra accounted :
  preserves kept_up (protect_route_tables_with_live_rules routes extra accounted).
Proof. unfold protect_route_tables_with_live_rules. cbv zeta. preserve. Qed.

(** The adoption extends the ledger by concrete desired rules. *)
Lemma kept_adopt tables :
  Forall explicit_rule desired → preserves kept_up (pm_adopt_live_generated_desired desired tables).
Proof.
  intros Hexp. unfold pm_adopt_live_generated_desired. apply preserves_bind; [preserve|].
  intros dry_run. destruct (_ || _); [preserve|]. apply preserves_catch; [|preserve].
  apply preserves_bind; [preserve|]. intros live.
  apply (preserves_bind_fact _ (Forall explicit_rule)); [preserve| |].
  { by intros w w' l [_ Ho] [= _ <-]. }
  intros owned Ho. cbv zeta. apply kept_set_owned.
  assert (Forall explicit_rule (desired ≫= λ logical,
    if bool_decide (ru_table logical ∈ tables)
    then (λ family, with_family family logical) <$> families_of logical else [])) as Hc.
  { apply Forall_forall. intros c (e & Hc & He)%list_elem_of_bind. rewrite Forall_forall in Hexp.
    case_bool_decide; [|by apply elem_of_nil in Hc].
    apply list_elem_of_fmap in Hc as (f & -> & _). by apply (Hexp e). }
  revert owned Ho. induction Hc as [|c l Hc _ IH]; intros owned Ho; simpl; [done|]. apply IH.
  destruct (_ && _); [|done]. apply Forall_app. split; [done|]. by apply Forall_singleton.
Qed.
End Desired.
End Converge.

(** * A rule kernel that satisfies the laws

    A list of policy rules with the matching of [RTM_NEWRULE] and [RTM_DELRULE] and
    a script of faults. It instantiates the contract of the rule manager, so the
    manager runs on concrete kernels and the theorems apply to it. *)

Record RuleKernel := {
  rk_rules : list DumpedRule;
  rk_faults : list bool;
}.

Definition with_live_rules (l : list DumpedRule) (k : RuleKernel) : RuleKernel :=
  {| rk_rules := l; rk_faults := rk_faults k |}.

(** Runs [op] unless the script says that this call fails. *)
Definition faulty {A} (op : RuleKernel → RuleKernel * result RuleError A) (k : RuleKernel)
    : RuleKernel * result RuleError A :=
  let k' := {| rk_rules := rk_rules k; rk_faults := tl (rk_faults k) |} in
  if hd false (rk_faults k) then (k', Throw RuleBackendError) else op k'.

(** The rule the kernel holds after a successful creation. *)
Definition realise_rule (spec : RuleSpec) (family : Z) : DumpedRule :=
  {| du_priority := ru_priority spec; du_fwmark := ru_fwmark spec; du_fwmask := ru_fwmask spec;
     du_table := ru_table spec; du_family := family; du_exact_identity_representable := true |}.

Definition rk_add (spec : RuleSpec) (family : Z) : RuleKernel → RuleKernel * result RuleError RuleAddResult :=
  faulty (λ k,
    if existsb (λ d, du_exact_identity_representable d && rule_matches_live (with_family family spec) d)
         (rk_rules k)
    then (k, Ok RuleAlreadyPresent)
    else (with_live_rules (rk_rules k ++ [realise_rule spec family]) k, Ok RuleCreated)).

(** [RTM_DELRULE] removes the first rule that has the given attributes; zero
    attributes are not sent. *)
Definition deletable (spec : RuleSpec) (family : Z) (d : DumpedRule) : bool :=
  (family =? du_family d)
  && ((ru_fwmark spec =? 0) || (ru_fwmark spec =? du_fwmark d))
  && ((ru_fwmask spec =? 0) || (ru_fwmask spec =? du_fwmask d))
  && ((ru_table spec =? 0) || (ru_table spec =? du_table d))
  && ((ru_priority spec =? 0) || (ru_priority spec =? du_priority d)).

Definition rk_delete (spec : RuleSpec) (family : Z) : RuleKernel → RuleKernel * result RuleError unit :=
  faulty (λ k, (with_live_rules (erase_first (deletable spec family) (rk_rules k)) k, Ok ())).

Definition rk_dump (family : Z) : RuleKernel → RuleKernel * result RuleError (list DumpedRule) :=
  faulty (λ k, (k, Ok (List.filter (λ d, (family =? 0) || (du_family d =? family)) (rk_rules k)))).

#[export] Instance rule_kernel : RuleNetlink RuleKernel := {
  rl_live := rk_rules;
  rl_supports_exact_rule_transaction := λ _, true;
  rl_add_rule_for_family := rk_add;
  rl_delete_rule_for_family := rk_delete;
  rl_dump_policy_rules := rk_dump;
}.

#[export] Instance DumpedRule_eq_dec : EqDecision DumpedRule.
Proof. solve_decision. Defined.

Lemma erase_first_subset {A} (p : A → bool) l x : x ∈ erase_first p l → x ∈ l.
Proof. induction l as [|y l IH]; simpl; [done|]. destruct (p y); set_solver. Qed.

Lemma erase_first_keeps {A} (p : A → bool) l x : x ∈ l → p x = false → x ∈ erase_first p l.
Proof.
  induction l as [|y l IH]; simpl; [done|]. intros [->|Hx]%elem_of_cons Hp.
  - rewrite Hp. set_solver.
  - destruct (p y); [done|]. set_solver.
Qed.

Lemma deletable_explicit spec family d :
  explicit_rule spec → deletable spec family d = rule_matches_live (with_family family spec) d.
Proof.
  intros (H1 & H2 & H3 & H4). unfold deletable, rule_matches_live. simpl.
  rewrite (proj2 (Z.eqb_neq _ _) H1), (proj2 (Z.eqb_neq _ _) H2), (proj2 (Z.eqb_neq _ _) H3),
    (proj2 (Z.eqb_neq _ _) H4). simpl. rewrite (andb_comm _ (family =? _)). by rewrite !andb_assoc.
Qed.

#[export] Instance rule_kernel_laws : RuleNetlinkLaws RuleKernel.
Proof.
  split; simpl.
  - intros f k d. unfold rk_dump, faulty. by destruct (hd false _).
  - intros f k l d. unfold rk_dump, faulty. destruct (hd false _); [done|]. simpl. intros [= <-].
    rewrite !list_elem_of_In, filter_In, orb_true_iff, !Z.eqb_eq. tauto.
  - intros spec f k d Hd. unfold rk_add, faulty. destruct (hd false _); [done|]. simpl.
    destruct (existsb _ _); simpl; set_solver.
  - intros spec f k d. unfold rk_add, faulty. destruct (hd false _); [by left|]. simpl.
    destruct (existsb _ _); simpl; [by left|].
    intros [?| ->%list_elem_of_singleton]%elem_of_app; [by left|]. right.
    unfold rule_matches_live. simpl. by rewrite !Z.eqb_refl.
  - intros spec f k d. unfold rk_add, faulty. destruct (hd false _); [done|]. simpl.
    destruct (existsb _ _) eqn:Hex; [done|]. intros _ Hd Hr. apply not_true_iff_false. intros Hm.
    apply not_true_iff_false in Hex. apply Hex, existsb_exists. exists d.
    by rewrite <- list_elem_of_In, Hr, Hm.
  - intros spec f k r. unfold rk_add, faulty. destruct (hd false _); [done|]. simpl.
    destruct (existsb _ _) eqn:Hex; simpl; intros _.
    + apply existsb_exists in Hex as (d & Hd & [_ Hm]%andb_true_iff). exists d.
      by rewrite list_elem_of_In.
    + exists (realise_rule spec f). split; [set_solver|]. unfold rule_matches_live. simpl.
      by rewrite !Z.eqb_refl.
  - intros spec f k d He Hd Hm. unfold rk_delete, faulty. destruct (hd false _); [done|]. simpl.
    apply erase_first_keeps; [done|]. by rewrite deletable_explicit.
  - intros spec f k d. unfold rk_delete, faulty. destruct (hd false _); [done|]. simpl.
    apply erase_first_subset.
Qed.

(** ** Concrete runs *)

(** A logical rule, a rule of another tool with its IPv4 identity and one with
    further selectors. *)
Definition rule_a : RuleSpec :=
  {| ru_fwmark := 0x10000; ru_fwmask := 0xff0000; ru_table := 150; ru_priority := 150; ru_family := 0 |}.
Definition rule_b : RuleSpec :=
  {| ru_fwmark := 0x20000; ru_fwmask := 0xff0000; ru_table := 151; ru_priority := 151; ru_family := 0 |}.
Definition foreign_a : DumpedRule := realise_rule rule_a AF_INET.
Definition foreign_selector : DumpedRule :=
  {| du_priority := 151; du_fwmark := 0x20000; du_fwmask := 0xff0000; du_table := 151;
     du_family := AF_INET; du_exact_identity_representable := false |}.

Definition rule_kernel_with (live : list DumpedRule) (faults : list bool) : RuleKernel :=
  {| rk_rules := live; rk_faults := faults |}.

Lemma preexisting_rules_kept_witness :
  foreign_selector ∈ rl_live (run_rule_calls
    [RuleCallAddMissing [rule_a; rule_b]; RuleCallRemoveObsolete [rule_a]; RuleCallClear]
    (initial_rules false, rule_kernel_with [foreign_a; foreign_selector] [false; true])).2.
Proof.
  apply (preexisting_rules_kept
    [RuleCallAddMissing [rule_a; rule_b]; RuleCallRemoveObsolete [rule_a]; RuleCallClear] false
    (rule_kernel_with [foreign_a; foreign_selector] [false; true]) foreign_selector).
  - repeat constructor; simpl; lia.
  - simpl. set_solver.
  - right. intros k. reflexivity.
Defined.

(** Rule [b] is owned and its deletion fails: its table is reported. *)
Definition tracked_ab : PolicyRuleState :=
  {| pm_dry_run := false; pm_rules := [rule_a; rule_b];
     pm_owned_rules := [with_family AF_INET rule_b] |}.

Lemma rule_dependencies_reported_witness :
  ∃ s' k' u, pm_remove_obsolete [rule_a]
      (tracked_ab, rule_kernel_with [foreign_a; realise_rule rule_b AF_INET] [false; true])
    = ((s', k'), Ok u) ∧ realise_rule rule_b AF_INET ∈ rl_live k' ∧ 151 ∈ u.
Proof.
  assert (rl_live (pm_remove_obsolete [rule_a] (tracked_ab,
    rule_kernel_with [foreign_a; realise_rule rule_b AF_INET] [false; true])).1.2
    = [foreign_a; realise_rule rule_b AF_INET]) as Hk by (vm_compute; reflexivity).
  destruct (pm_remove_obsolete [rule_a] (tracked_ab,
    rule_kernel_with [foreign_a; realise_rule rule_b AF_INET] [false; true])) as [[s' k'] [u|e]] eqn:Hrun.
  2: { vm_compute in Hrun. discriminate. }
  exists s', k', u. split; [done|]. simpl in Hk.
  assert (realise_rule rule_b AF_INET ∈ rl_live k') as Hin by (change (realise_rule rule_b AF_INET ∈ rk_rules k'); rewrite Hk; set_solver).
  split; [exact Hin|].
  destruct (rule_dependencies_reported tracked_ab s'
    (rule_kernel_with [foreign_a; realise_rule rule_b AF_INET] [false; true]) k' u eq_refl)
    as [Hobs _].
  destruct (Hobs [rule_a] Hrun rule_b (realise_rule rule_b AF_INET)) as [Hu|(e & He & Hm)].
  - simpl. set_solver.
  - exact Hin.
  - reflexivity.
  - exact Hu.
  - apply list_elem_of_singleton in He as ->. vm_compute in Hm. discriminate.
Defined.
