(* ===== verification/RouteTableTables.v ===== *)
(** * Route table: one routing table at a time

    The calls of the route table touch only the routing tables their arguments
    name. Stated for one table [T] (its anchors, the routes that packets selected
    by a policy rule need) and carried through every operation. At the end, the rate of
    repair messages. *)

From Stdlib Require Import ZArith Lia.
From stdpp Require Import base gmap list.
From S2P Require Import Prelude ConfigTypes RoutingPlan KernelRoutes StateError RouteTable RouteTableSafety.
Open Scope Z_scope.

(** rtnetlink requests with an explicit table concern that table only; table 0
    would stand for the main table. *)
Class RouteNetlinkTableLaws (K : Type) `{RouteNetlinkLaws K} : Prop := {
  law_add_table spec k d :
    rt_table spec ≠ 0 → dr_table d ≠ rt_table spec →
    d ∈ nl_live (nl_add_route spec k).1 ↔ d ∈ nl_live k;
  law_replace_table spec k d :
    rt_table spec ≠ 0 → dr_table d ≠ rt_table spec →
    d ∈ nl_live (nl_replace_route spec k).1 ↔ d ∈ nl_live k;
  law_delete_table spec k d :
    rt_table spec ≠ 0 → dr_table d ≠ rt_table spec →
    d ∈ nl_live (nl_delete_route spec k).1 ↔ d ∈ nl_live k;
}.

Section Tables.
Context {K : Type} `{HT : RouteNetlinkTableLaws K}.
Context (T : Z) (F : DumpedRoute → Prop).

(** The live routes of [T] are the ones of [F]. *)
Definition anchors (k : K) : Prop := ∀ d, dr_table d = T → (d ∈ nl_live k ↔ F d).

Definition away (spec : RouteSpec) : Prop := rt_table spec ≠ 0 ∧ rt_table spec ≠ T.

Definition pending_away (p : PendingReplacement) : Prop :=
  away (pr_installed p) ∧ Forall away (pr_previous p).

(** [R] is what is known of the tracked routes; routes of other tables satisfy it. *)
Definition table_inv (R : RouteSpec → Prop) (w : World K) : Prop :=
  anchors w.2 ∧ Forall R (routes_ w.1) ∧ Forall pending_away (pending_replacements_ w.1).

Section Invariant.
Context (R : RouteSpec → Prop) (HR : ∀ r, away r → R r).

Lemma table_update f :
  (∀ s, Forall R (routes_ s) → Forall R (routes_ (f s))) →
  (∀ s, Forall pending_away (pending_replacements_ s) →
        Forall pending_away (pending_replacements_ (f s))) →
  preserves (table_inv R) (update f).
Proof. intros H1 H2 [s k] (? & ? & ?). split_and!; simpl; auto. Qed.

Lemma table_lift {A} (op : K → K * result RouteError A) :
  (∀ k, anchors k → anchors (op k).1) → preserves (table_inv R) (lift op).
Proof.
  intros Hop [s k] (Hk & Hs). unfold lift. simpl in *. specialize (Hop k Hk).
  by destruct (op k) as [k' r].
Qed.

Lemma table_lift_pure {A} (op : K → K * A) :
  (∀ k, anchors k → anchors (op k).1) → preserves (table_inv R) (lift_pure op).
Proof.
  intros Hop [s k] (Hk & Hs). unfold lift_pure. simpl in *. specialize (Hop k Hk).
  by destruct (op k) as [k' r].
Qed.

Lemma table_field {A} (f : RouteTableState → A) : preserves (table_inv R) (field f).
Proof. apply preserves_gets. Qed.

Lemma table_supports_exact : preserves (table_inv R) supports_exact.
Proof. apply preserves_gets. Qed.

Lemma table_is_tracked r : preserves (table_inv R) (is_tracked r).
Proof. apply preserves_gets. Qed.

Lemma table_has_pending r : preserves (table_inv R) (has_pending r).
Proof. apply preserves_gets. Qed.

Lemma table_dump f : preserves (table_inv R) (dump_routes f).
Proof. apply table_lift. intros k Hk d Hd. rewrite law_dump_keeps. by apply Hk. Qed.

Lemma table_readiness name : preserves (table_inv R) (interface_readiness name).
Proof. apply table_lift_pure. intros k Hk d Hd. rewrite law_probe_keeps. by apply Hk. Qed.

Lemma table_now : preserves (table_inv R) now.
Proof. apply table_lift_pure. intros k Hk d Hd. rewrite law_now_keeps. by apply Hk. Qed.

Lemma table_add_route spec : away spec → preserves (table_inv R) (add_route spec).
Proof.
  intros [? ?]. apply table_lift. intros k Hk d Hd. rewrite law_add_table by congruence. by apply Hk.
Qed.

Lemma table_replace_route spec : away spec → preserves (table_inv R) (replace_route spec).
Proof.
  intros [? ?]. apply table_lift. intros k Hk d Hd. rewrite law_replace_table by congruence.
  by apply Hk.
Qed.

Lemma table_delete_route spec : away spec → preserves (table_inv R) (delete_route spec).
Proof.
  intros [? ?]. apply table_lift. intros k Hk d Hd. rewrite law_delete_table by congruence.
  by apply Hk.
Qed.

Lemma table_set_records f : preserves (table_inv R) (update (λ s, set_records (f s) s)).
Proof. by apply table_update. Qed.

Lemma table_set_owned f : preserves (table_inv R) (update (λ s, set_owned (f s) s)).
Proof. by apply table_update. Qed.

Lemma table_set_pending (f : RouteTableState → list PendingReplacement) :
  (∀ s, Forall pending_away (pending_replacements_ s) → Forall pending_away (f s)) →
  preserves (table_inv R) (update (λ s, set_pending (f s) s)).
Proof. intros Hf. by apply table_update. Qed.

Lemma table_push_route r : R r → preserves (table_inv R) (push_route r).
Proof.
  intros Hr. apply table_update; [|done]. intros s Hs. simpl. apply Forall_app. split; [done|].
  by apply Forall_singleton.
Qed.

Lemma table_erase_route r :
  preserves (table_inv R)
    (update (λ s, set_routes (erase_first (λ x, routes_equal x r) (routes_ s)) s)).
Proof. apply table_update; [|done]. intros s. apply Forall_erase_first. Qed.

Lemma table_push_owned r : preserves (table_inv R) (push_owned r).
Proof. apply table_set_owned. Qed.

Lemma table_forget_owned r : preserves (table_inv R) (forget_owned_route r).
Proof. apply table_set_owned. Qed.

Lemma table_forget_record r : preserves (table_inv R) (forget_repair_record r).
Proof. apply table_set_records. Qed.

Lemma table_finalize : preserves (table_inv R) finalize_pending_replacements.
Proof. apply (table_set_pending (λ _, [])). constructor. Qed.

#[local] Hint Resolve table_field table_supports_exact table_is_tracked table_has_pending
  table_dump table_readiness table_now table_add_route table_replace_route table_delete_route
  table_set_records table_set_owned table_push_route table_erase_route table_push_owned
  table_forget_owned table_forget_record table_finalize : preserves.

Lemma table_repair_record r : preserves (table_inv R) (repair_record r).
Proof. unfold repair_record. preserve. Qed.

Lemma table_store_record r x : preserves (table_inv R) (store_record r x).
Proof. apply table_set_records. Qed.
#[local] Hint Resolve table_repair_record table_store_record : preserves.

Lemma table_record_repair r : preserves (table_inv R) (record_repair r).
Proof. unfold record_repair. preserve. Qed.

Lemma table_retry_due r : preserves (table_inv R) (repair_retry_due r).
Proof. unfold repair_retry_due. preserve. Qed.

Lemma table_defer r : preserves (table_inv R) (defer_repair r).
Proof. unfold defer_repair. preserve. Qed.

Lemma table_reset r : preserves (table_inv R) (reset_repair_backoff r).
Proof. unfold reset_repair_backoff. preserve. Qed.

Lemma table_interface_lost r : preserves (table_inv R) (interface_lost r).
Proof. unfold interface_lost. preserve. Qed.

Lemma table_prune desired : preserves (table_inv R) (prune_records desired).
Proof. apply table_set_records. Qed.
#[local] Hint Resolve table_record_repair table_retry_due table_defer table_reset
  table_interface_lost table_prune : preserves.

(** ** Rollback and deletion *)

Lemma table_restore r : preserves (table_inv R) (restore_pending_replacement r).
Proof.
  unfold restore_pending_replacement.
  apply (preserves_bind_fact _ (Forall pending_away)); [preserve| |].
  { by intros w w' l (_ & _ & Hp) [= _ <-]. }
  intros pendings Hp. destruct (List.find _ _) as [p|] eqn:Hfind; [|preserve].
  destruct (find_Forall _ _ _ _ Hp Hfind) as [[Hm Hprev] Heq%routes_equal_eq]. subst r.
  apply preserves_catch; [|preserve]. apply preserves_bind.
  - destruct (pr_previous p) as [|front rest]; [preserve|]. inversion_clear Hprev as [|?? Hf Hr].
    apply preserves_bind; [preserve|]. intros _. apply preserves_mfor. intros q Hq.
    rewrite Forall_forall in Hr. specialize (Hr q Hq). preserve.
  - intros _. apply preserves_bind; [|preserve]. apply table_set_pending.
    intros s. apply Forall_erase_first.
Qed.
#[local] Hint Resolve table_restore : preserves.

Lemma table_rollback : preserves (table_inv R) rollback_pending_replacements.
Proof. unfold rollback_pending_replacements. preserve. Qed.

(** An exact deletion removes the live image of the expected route. *)
Lemma table_delete_exact r : away r → preserves (table_inv R) (delete_route_if_exact r).
Proof.
  intros [Hr0 HrT]. unfold delete_route_if_exact. apply preserves_bind; [preserve|]. intros live.
  destruct (scan_slot r live) as [[|[|n]] [c|]] eqn:Hscan; try preserve.
  apply scan_slot_match in Hscan as [Hc _].
  assert (away (route_spec_from_live c)).
  { unfold route_matches_live in Hc. route_bool. unfold away. simpl. split; congruence. }
  preserve.
Qed.
#[local] Hint Resolve table_delete_exact : preserves.

Lemma table_release r : away r → preserves (table_inv R) (release_owned r r).
Proof. intros Hr. unfold release_owned. preserve. Qed.

Lemma table_remove r : away r → preserves (table_inv R) (remove r).
Proof.
  intros Hr. unfold remove. apply preserves_bind; [preserve|]. intros tracked.
  destruct (negb tracked); [preserve|].
  apply (preserves_bind_fact _ (λ o, ∀ x, o = Some x → x = r)); [preserve| |].
  { intros w w' o _ [= _ <-] x Hx. apply find_some in Hx as [_ Hx%routes_equal_eq]. done. }
  intros [owned|] Ho; [rewrite (Ho owned eq_refl); pose proof (table_release r Hr)|]; preserve.
Qed.
#[local] Hint Resolve table_remove : preserves.

(** ** Installation *)

Lemma table_replace_managed spec collisions :
  away spec → (∀ c, c ∈ collisions → route_occupies_same_slot spec c = true) →
  preserves (table_inv R) (replace_managed spec collisions).
Proof.
  intros Ha Hc. unfold replace_managed. apply preserves_bind; [|preserve].
  apply table_set_pending. intros s Hs. apply Forall_app. split; [done|].
  apply Forall_singleton. split; [done|]. apply Forall_fmap, Forall_forall. intros c Hin.
  apply Hc, occupies_eq in Hin as (_ & Ht & _). destruct Ha. unfold away. simpl. split; congruence.
Qed.

Lemma table_install_attempt spec n :
  away spec → preserves (table_inv R) (install_attempt spec n).
Proof.
  intros Ha. assert (∀ live, preserves (table_inv R)
    (replace_managed spec (List.filter (route_occupies_same_slot spec) live))).
  { intros live. apply table_replace_managed; [done|].
    intros c Hc%list_elem_of_In%filter_In. tauto. }
  unfold install_attempt. apply preserves_bind; [preserve|]. intros [|]; [preserve|].
  apply preserves_bind; [preserve|]. intros live. destruct (_ && _); [preserve|]. cbv zeta.
  destruct (List.filter _ live) as [|c cs] eqn:Hcs; [preserve|]. rewrite <- Hcs. preserve.
Qed.
#[local] Hint Resolve table_install_attempt : preserves.

Lemma table_add_route_checked spec : away spec → preserves (table_inv R) (add_route_checked spec).
Proof. intros Ha. unfold add_route_checked. preserve. Qed.
#[local] Hint Resolve table_add_route_checked : preserves.

Lemma table_add spec : away spec → preserves (table_inv R) (add spec).
Proof. intros Ha. specialize (HR spec Ha). unfold add. preserve. Qed.
#[local] Hint Resolve table_add : preserves.

Lemma table_repair_missing mode complete route :
  away route → preserves (table_inv R) (repair_missing mode complete route).
Proof. intros Ha. unfold repair_missing. preserve. Qed.

Lemma table_add_untracked mode route :
  away route → preserves (table_inv R) (add_untracked mode route).
Proof. intros Ha. unfold add_untracked. preserve. Qed.

Lemma table_add_missing desired mode :
  Forall away desired → preserves (table_inv R) (add_missing desired mode).
Proof.
  intros Hd. rewrite Forall_forall in Hd. unfold add_missing, settle_present. preserve.
  - eapply table_repair_missing, Hd, missing_sub; eauto.
  - by apply table_add_untracked, Hd.
Qed.

(** ** Retirement *)

Lemma table_live_tables : preserves (table_inv R) live_generated_route_tables.
Proof. unfold live_generated_route_tables. preserve. Qed.

Lemma table_adopt_live desired : preserves (table_inv R) (adopt_live_generated_desired desired).
Proof. unfold adopt_live_generated_desired. preserve. Qed.

Context (protected : gset Z) (Hprot : ∀ r, R r → rt_table r ∈ protected ∨ away r).

Lemma table_retire uncertain r :
  R r → preserves (table_inv R) (retire protected uncertain r).
Proof.
  intros Hr. unfold retire. destruct (decide _); [preserve|].
  destruct (Hprot r Hr) as [|]; [done|]. preserve.
Qed.

Lemma table_bind_routes {A} (c : list RouteSpec → RT K A) :
  (∀ l, Forall R l → preserves (table_inv R) (c l)) →
  preserves (table_inv R) (mbind c (field routes_)).
Proof.
  apply preserves_bind_fact; [preserve|]. by intros w w' l (_ & Hr & _) [= _ <-].
Qed.

Lemma table_clear : preserves (table_inv R) (clear protected).
Proof.
  unfold clear. apply table_bind_routes. intros l Hl. apply preserves_bind; [|preserve].
  apply preserves_mfold. intros b r Hr%list_elem_of_In%in_rev%list_elem_of_In.
  rewrite Forall_forall in Hl. by apply table_retire, Hl.
Qed.

(** The orphans of a dump: those of [T] were among its anchors. *)
Lemma table_adopt_orphans desired :
  (∀ d, F d → dr_table d = T → is_generated_route_candidate d = true → R (route_spec_from_live d)) →
  preserves (table_inv R) (adopt_generated_orphans desired).
Proof.
  intros HF. unfold adopt_generated_orphans. apply preserves_bind; [preserve|].
  intros [|]; [preserve|].
  apply (preserves_bind_fact _ (λ l, ∀ d, d ∈ l → dr_table d = T → F d)); [preserve| |].
  { intros [s k] w' l (Hk & _) Hd d Hin HdT. unfold dump_routes, lift in Hd. simpl in *.
    pose proof (law_dump_exact 0 k l d) as Hex. destruct (nl_dump_routes 0 k) as [k' r].
    injection Hd as <- ->. apply Hex in Hin as [Hin _]; [|done]. by apply Hk. }
  intros live Hlive. apply preserves_mfor. intros d Hd. unfold adopt_orphan.
  destruct (_ || _) eqn:Hb; [preserve|]. apply orb_false_iff in Hb as [Hb%negb_false_iff _].
  assert (R (route_spec_from_live d)).
  { destruct (decide (dr_table d = T)) as [HdT|HdT]; [by apply HF; auto|]. apply HR.
    unfold is_generated_route_candidate in Hb. route_bool. split; [|done]. simpl.
    by apply Z.eqb_neq, negb_true_iff. }
  cbv zeta. preserve.
Qed.

Lemma table_remove_obsolete desired :
  (∀ d, F d → dr_table d = T → is_generated_route_candidate d = true → R (route_spec_from_live d)) →
  preserves (table_inv R) (remove_obsolete desired protected).
Proof.
  intros HF. unfold remove_obsolete. apply preserves_bind; [by apply table_adopt_orphans|]. intros _.
  apply table_bind_routes. intros l Hl. apply preserves_mfold. intros b r Hr.
  destruct (existsb _ _); [preserve|]. rewrite Forall_forall in Hl. by apply table_retire, Hl.
Qed.
End Invariant.
End Tables.

(** * Route table: rate of repair messages

    [record_route_repair] of src/src/routing/route_table.cpp over a whole history
    of repairs of one route. *)

Definition window : Z := minutes 5.

(** The decisions for the repairs at the given clock readings. *)
Fixpoint repair_decisions (st : RouteRepairRateState) (times : list Z)
    : list RouteRepairLogDecision :=
  match times with
  | [] => []
  | t :: times =>
      let '(st', d) := record_route_repair st t in d :: repair_decisions st' times
  end.

Definition no_repairs : RouteRepairRateState := {| recent_repairs := []; last_warning := None |}.

(** A steady clock never goes back. *)
Definition steady (l : list Z) : Prop :=
  ∀ i j x y, (i ≤ j)%nat → l !! i = Some x → l !! j = Some y → x ≤ y.

Lemma steady_cons x l : steady (x :: l) → (∀ y, y ∈ l → x ≤ y) ∧ steady l.
Proof.
  intros Hs. split.
  - intros y [j Hj]%list_elem_of_lookup. by apply (Hs 0%nat (S j) x y); [lia| |].
  - intros i j a b Hij Ha Hb. by apply (Hs (S i) (S j)); [lia| |].
Qed.

(** ** One repair *)

Lemma drop_expired_spec now l :
  ∃ n, (n ≤ length l)%nat ∧ drop_expired now l = drop n l
       ∧ (∀ i x, (i < n)%nat → l !! i = Some x → window < now - x)
       ∧ ∀ x, l !! n = Some x → now - x ≤ window.
Proof.
  induction l as [|t l (n & Hn & Heq & Hexp & Hkeep)]; simpl.
  { exists 0%nat. repeat split; [lia|intros; lia|done]. }
  unfold window in *. destruct (Z.ltb_spec (minutes 5) (now - t)).
  - exists (S n). split; [lia|]. split; [done|]. split; [|done].
    intros [|i] x Hi; simpl; [by intros [= <-]|]. apply Hexp. lia.
  - exists 0%nat. split; [lia|]. split; [done|]. split; [intros; lia|]. by intros x [= <-].
Qed.

Lemma keep_last_drop n l : ∃ m, keep_last n l = drop m l ∧ m = (length l - n)%nat.
Proof. by eexists. Qed.

(** What the state remembers of the history [hist] of repairs: a suffix of at most
    three, without the repairs that left the window. *)
Definition remembers (hist : list Z) (st : RouteRepairRateState) : Prop :=
  ∃ m, recent_repairs st = drop m hist ∧ (m ≤ length hist)%nat ∧ (length hist - m ≤ 3)%nat
       ∧ ∀ i x y, (i < m)%nat → hist !! i = Some x → last hist = Some y →
                  (i + 3 < length hist)%nat ∨ window < y - x.

(** The decision before the cooldown: at least three recent repairs. *)
Definition burst (hist : list Z) : Prop :=
  ∃ u t, (3 ≤ length hist)%nat ∧ hist !! (length hist - 3)%nat = Some u ∧ last hist = Some t
         ∧ t - u ≤ window.

Lemma steady_last hist now y : steady (hist ++ [now]) → last hist = Some y → y ≤ now.
Proof.
  intros Hs Hy. rewrite last_lookup in Hy.
  apply (Hs (pred (length hist)) (length hist)); [lia| |].
  - apply lookup_lt_Some in Hy as Hlt. by rewrite lookup_app_l.
  - rewrite lookup_app_r, Nat.sub_diag by lia. done.
Qed.

Lemma recent_no_reset hist st now :
  remembers hist st → steady (hist ++ [now]) →
  match last (recent_repairs st) with Some t => now <? t | None => false end = false.
Proof.
  intros (m & -> & _) Hs. destruct (last (drop m hist)) as [t|] eqn:Hl; [|done].
  apply Z.ltb_ge. apply (steady_last hist); [done|].
  rewrite last_lookup, lookup_drop, length_drop in Hl. rewrite last_lookup.
  apply lookup_lt_Some in Hl as Hlt. rewrite <- Hl. f_equal. lia.
Qed.

(** The suffix kept after a repair, and that it holds no expired repair. *)
Lemma recent_step hist now m :
  (m ≤ length hist)%nat → (length hist - m ≤ 3)%nat → steady (hist ++ [now]) →
  (∀ i x y, (i < m)%nat → hist !! i = Some x → last hist = Some y →
            (i + 3 < length hist)%nat ∨ window < y - x) →
  ∃ m', keep_last 3 (drop_expired now (drop m hist) ++ [now]) = drop m' (hist ++ [now])
        ∧ (m' ≤ length hist)%nat ∧ (length (hist ++ [now]) - m' ≤ 3)%nat
        ∧ (∀ i x, (i < m')%nat → (hist ++ [now]) !! i = Some x →
                  (i + 3 < length (hist ++ [now]))%nat ∨ window < now - x)
        ∧ ∀ i x, (m' ≤ i)%nat → (hist ++ [now]) !! i = Some x → now - x ≤ window.
Proof.
  intros Hm Hlen Hs Hdrop. destruct (drop_expired_spec now (drop m hist)) as (n & Hn & Heq & Hexp & Hkeep).
  rewrite length_drop in Hn. rewrite Heq, drop_drop.
  assert (drop (m + n) hist ++ [now] = drop (m + n) (hist ++ [now])) as ->
    by (by rewrite drop_app_le by lia).
  unfold keep_last. rewrite drop_drop, !length_drop, !length_app. simpl.
  exists (m + n + (length hist + 1 - (m + n) - 3))%nat.
  split; [done|]. split; [lia|]. split; [lia|]. split.
  - intros i x Hi Hx. destruct (decide (i + 3 < length hist + 1)%nat) as [|Hlast]; [by left|right].
    assert (i < length hist)%nat as Hih by lia. rewrite lookup_app_l in Hx by lia.
    destruct (decide (i < m)%nat) as [Him|Him].
    + destruct (last hist) as [y|] eqn:Hy.
      * destruct (Hdrop i x y Him Hx eq_refl) as [?|Hw]; [lia|].
        pose proof (steady_last hist now y Hs Hy). lia.
      * apply last_None in Hy. subst hist. simpl in Hih. lia.
    + apply (Hexp (i - m)%nat); [lia|]. rewrite lookup_drop. rewrite <- Hx. f_equal. lia.
  - intros i x Hi Hx.
    assert (∀ y, (hist ++ [now]) !! (m + n)%nat = Some y → now - y ≤ window) as Hfirst.
    { intros y Hy. destruct (decide (m + n < length hist)%nat).
      - apply Hkeep. rewrite lookup_drop. by rewrite lookup_app_l in Hy by lia.
      - replace (m + n)%nat with (length hist) in Hy by lia.
        rewrite lookup_app_r, Nat.sub_diag in Hy by lia. injection Hy as <-.
        unfold window, minutes, seconds. lia. }
    destruct (lookup_lt_is_Some_2 (hist ++ [now]) (m + n)) as [y Hy]; [rewrite length_app; simpl; lia|].
    pose proof (Hs (m + n)%nat i y x ltac:(lia) Hy Hx). specialize (Hfirst y Hy). lia.
Qed.

Lemma record_step hist st now st' d :
  remembers hist st → steady (hist ++ [now]) → record_route_repair st now = (st', d) →
  remembers (hist ++ [now]) st' ∧ (d = Info ↔ ¬ burst (hist ++ [now]))
  ∧ match d with
    | Info => last_warning st' = last_warning st
    | Warning => last_warning st' = Some now
                 ∧ ∀ w, last_warning st = Some w → w ≤ now → window ≤ now - w
    | Suppress => last_warning st' = last_warning st
                  ∧ ∃ w, last_warning st = Some w ∧ now - w < window
    end.
Proof.
  intros Hrem Hs. pose proof (recent_no_reset hist st now Hrem Hs) as Hno.
  destruct Hrem as (m & Hrec & Hm & Hlen & Hdrop). unfold record_route_repair.
  rewrite Hno. change warning_threshold with 3%nat. rewrite Hrec.
  destruct (recent_step hist now m Hm Hlen Hs Hdrop) as (m' & -> & Hm' & Hlen' & Hdrop' & Hkept).
  assert (∀ rate : option Z, remembers (hist ++ [now])
    {| recent_repairs := drop m' (hist ++ [now]); last_warning := rate |}) as Hrem'.
  { intros rate. exists m'. split; [done|]. rewrite length_app in *. simpl in *.
    split; [lia|]. split; [lia|]. intros i x y Hi Hx Hy. rewrite last_snoc in Hy.
    injection Hy as <-. by apply Hdrop'. }
  assert ((length (drop m' (hist ++ [now])) <? 3)%nat = true ↔ ¬ burst (hist ++ [now])) as Hburst.
  { rewrite Nat.ltb_lt, length_drop. split.
    - intros Hlt (u & t & H3 & Hu & Ht & Hw). rewrite last_snoc in Ht. injection Ht as <-.
      rewrite length_app in *. simpl in *.
      destruct (Hdrop' (length hist + 1 - 3)%nat u) as [?|?]; [lia|done|lia|lia].
    - intros Hnb. destruct (decide (length (hist ++ [now]) - m' < 3)%nat) as [|Hge]; [done|].
      exfalso. apply Hnb. rewrite length_app in *. simpl in *.
      destruct (lookup_lt_is_Some_2 (hist ++ [now]) (length hist + 1 - 3)) as [u Hu];
        [rewrite length_app; simpl; lia|].
      exists u, now. rewrite length_app, last_snoc. simpl. split; [lia|]. split; [done|].
      split; [done|]. eapply Hkept; [|exact Hu]. lia. }
  destruct (length (drop m' (hist ++ [now])) <? 3)%nat.
  { intros [= <- <-]. split; [apply Hrem'|]. split; [|done]. split; [|done].
    intros _. by apply Hburst. }
  assert (∀ d, d ≠ Info → d = Info ↔ ¬ burst (hist ++ [now])) as Hnot.
  { intros d' Hd'. split; [done|]. intros Hb. by apply Hburst in Hb. }
  destruct (last_warning st) as [w|] eqn:Hw; simpl.
  - destruct (_ || _) eqn:Hb; intros [= <- <-]; (split; [apply Hrem'|]); (split; [by apply Hnot|]).
    + split; [done|]. intros ? [= <-] Hle. apply orb_true_iff in Hb as [?%Z.ltb_lt|?%Z.leb_le].
      * lia.
      * done.
    + split; [done|]. exists w. split; [done|]. apply orb_false_iff in Hb as [_ ?%Z.leb_gt]. done.
  - intros [= <- <-]. split; [apply Hrem'|]. split; [by apply Hnot|]. done.
Qed.

(** ** A history of repairs *)

(** The last warning, when there is one, is not in the future. *)
Definition warned_before (st : RouteRepairRateState) (times : list Z) : Prop :=
  ∀ w t, last_warning st = Some w → t ∈ times → w ≤ t.

Lemma warned_step hist st now times st' d :
  remembers hist st → steady (hist ++ [now]) → (∀ y, y ∈ times → now ≤ y) →
  warned_before st (now :: times) → record_route_repair st now = (st', d) →
  warned_before st' times.
Proof.
  intros Hrem Hs Hle Hw Hrec w t Hw' Ht.
  destruct (record_step _ _ _ _ _ Hrem Hs Hrec) as (_ & _ & Hd). destruct d.
  - rewrite Hd in Hw'. apply (Hw w t Hw'). by right.
  - destruct Hd as [Hd _]. rewrite Hd in Hw'. injection Hw' as <-. by apply Hle.
  - destruct Hd as [Hd _]. rewrite Hd in Hw'. apply (Hw w t Hw'). by right.
Qed.

Lemma steady_app l1 l2 : steady (l1 ++ l2) → steady l1 ∧ steady l2.
Proof.
  intros Hs. split; intros i j x y Hij Hx Hy.
  - apply (Hs i j); [done|by apply lookup_app_l_Some..].
  - apply (Hs (length l1 + i)%nat (length l1 + j)%nat); [lia|..];
      rewrite lookup_app_r by lia; rewrite <- ?Hx, <- ?Hy; f_equal; lia.
Qed.

(** The invariant of a history, split at the repairs still to come. *)
Definition history (hist times : list Z) (st : RouteRepairRateState) : Prop :=
  remembers hist st ∧ steady (hist ++ times) ∧ warned_before st times.

Lemma history_step hist t times st st' d :
  history hist (t :: times) st → record_route_repair st t = (st', d) →
  history (hist ++ [t]) times st'.
Proof.
  intros (Hrem & Hs & Hw) Hrec. rewrite cons_middle, (assoc_L (++)) in Hs.
  pose proof (proj1 (steady_app _ _ Hs)) as Hs1.
  split; [by destruct (record_step _ _ _ _ _ Hrem Hs1 Hrec)|]. split; [done|].
  eapply warned_step; [exact Hrem|exact Hs1| |exact Hw|exact Hrec].
  intros y Hy. rewrite <- (assoc_L (++)) in Hs. apply steady_app in Hs as [_ Hs].
  by apply (proj1 (steady_cons t times Hs)).
Qed.

(** After a warning at [w] the next one waits for the window to pass. *)
Lemma warning_after hist times st w j t :
  history hist times st → last_warning st = Some w → times !! j = Some t →
  repair_decisions st times !! j = Some Warning → window ≤ t - w.
Proof.
  revert hist st w j. induction times as [|t0 times IH]; intros hist st w j Hh Hw Ht Hd; [done|].
  simpl in Hd. destruct (record_route_repair st t0) as [st' d] eqn:Hrec.
  pose proof (history_step _ _ _ _ _ _ Hh Hrec) as Hh'. destruct Hh as (Hrem & Hs & Hwb).
  rewrite cons_middle, (assoc_L (++)) in Hs. pose proof (proj1 (steady_app _ _ Hs)) as Hs1.
  destruct (record_step _ _ _ _ _ Hrem Hs1 Hrec) as (_ & _ & Hstep). destruct j as [|j]; simpl in *.
  - injection Ht as <-. injection Hd as ->. destruct Hstep as [_ Hstep]. apply Hstep; [done|].
    apply (Hwb w t0 Hw). by left.
  - destruct d.
    + apply (IH (hist ++ [t0]) st' w j); [done|congruence|done|done].
    + destruct Hstep as [Hst Hgap]. pose proof (Hwb w t0 Hw ltac:(by left)) as Hle.
      specialize (IH (hist ++ [t0]) st' t0 j Hh' Hst Ht Hd). specialize (Hgap w Hw Hle).
      unfold window, minutes, seconds in *. lia.
    + destruct Hstep as [Hst _]. apply (IH (hist ++ [t0]) st' w j); [done|congruence|done|done].
Qed.

Lemma warnings_spaced hist times st i j ti tj :
  history hist times st → (i < j)%nat → times !! i = Some ti → times !! j = Some tj →
  repair_decisions st times !! i = Some Warning → repair_decisions st times !! j = Some Warning →
  window ≤ tj - ti.
Proof.
  revert hist st i j. induction times as [|t0 times IH]; intros hist st i j Hh Hij Hi Hj Hdi Hdj; [done|].
  simpl in Hdi, Hdj. destruct (record_route_repair st t0) as [st' d] eqn:Hrec.
  pose proof (history_step _ _ _ _ _ _ Hh Hrec) as Hh'. destruct j as [|j]; [lia|].
  destruct i as [|i]; simpl in *; [|apply (IH (hist ++ [t0]) st' i j); auto; lia].
  injection Hi as <-. injection Hdi as ->. destruct Hh as (Hrem & Hs & _).
  rewrite cons_middle, (assoc_L (++)) in Hs. pose proof (proj1 (steady_app _ _ Hs)) as Hs1.
  destruct (record_step _ _ _ _ _ Hrem Hs1 Hrec) as (_ & _ & [Hst _]).
  by apply (warning_after (hist ++ [t0]) times st' t0 j).
Qed.

(** A repair is suppressed only in the shadow of a warning. *)
Lemma suppressed_after hist times st j t :
  history hist times st → times !! j = Some t → repair_decisions st times !! j = Some Suppress →
  (∃ i ti, (i < j)%nat ∧ times !! i = Some ti ∧ repair_decisions st times !! i = Some Warning
           ∧ t - ti < window)
  ∨ ∃ w, last_warning st = Some w ∧ t - w < window.
Proof.
  revert hist st j. induction times as [|t0 times IH]; intros hist st j Hh Ht Hd; [done|].
  simpl in Hd |- *. destruct (record_route_repair st t0) as [st' d] eqn:Hrec.
  pose proof (history_step _ _ _ _ _ _ Hh Hrec) as Hh'. destruct Hh as (Hrem & Hs & _).
  rewrite cons_middle, (assoc_L (++)) in Hs. pose proof (proj1 (steady_app _ _ Hs)) as Hs1.
  destruct (record_step _ _ _ _ _ Hrem Hs1 Hrec) as (_ & _ & Hstep). destruct j as [|j]; simpl in *.
  - injection Ht as <-. injection Hd as ->. by right; destruct Hstep.
  - destruct (IH (hist ++ [t0]) st' j Hh' Ht Hd) as [(i & ti & Hi & Hti & Hdi & Hlt)|(w & Hw & Hlt)].
    + left. exists (S i), ti. split; [lia|]. done.
    + destruct d.
      * right. exists w. split; [congruence|done].
      * left. exists 0%nat, t0. destruct Hstep as [Hst _]. rewrite Hst in Hw. injection Hw as <-.
        split; [lia|]. done.
      * right. exists w. destruct Hstep as [Hst _]. split; [congruence|done].
Qed.

Lemma decision_burst hist times st j t :
  history hist times st → times !! j = Some t →
  ∃ d, repair_decisions st times !! j = Some d
       ∧ (d = Info ↔ ¬ burst (hist ++ take (S j) times)).
Proof.
  revert hist st j. induction times as [|t0 times IH]; intros hist st j Hh Ht; [done|].
  simpl. destruct (record_route_repair st t0) as [st' d] eqn:Hrec.
  pose proof (history_step _ _ _ _ _ _ Hh Hrec) as Hh'. destruct j as [|j]; simpl in *.
  - exists d. split; [done|]. destruct Hh as (Hrem & Hs & _).
    rewrite cons_middle, (assoc_L (++)) in Hs. pose proof (proj1 (steady_app _ _ Hs)) as Hs1.
    by destruct (record_step _ _ _ _ _ Hrem Hs1 Hrec) as (_ & Hinfo & _).
  - destruct (IH (hist ++ [t0]) st' j Hh' Ht) as (d' & Hd' & Hb). exists d'. split; [done|].
    by rewrite <- (assoc_L (++)) in Hb.
Qed.

(** Repair messages are rate limited: with a steady clock, the [j]-th repair of
    a route is informational exactly unless the repair two before it lies within
    five minutes; two warnings are at least five minutes apart; and a message is
    suppressed only when a warning was logged less than five minutes before. *)
Theorem repair_log_rate (times : list Z) :
  steady times →
  let log := repair_decisions no_repairs times in
  (∀ j t, times !! j = Some t →
     log !! j = Some Info ↔
     ¬ ∃ u, (2 ≤ j)%nat ∧ times !! (j - 2)%nat = Some u ∧ t - u ≤ minutes 5)
  ∧ (∀ i j ti tj, (i < j)%nat → times !! i = Some ti → times !! j = Some tj →
       log !! i = Some Warning → log !! j = Some Warning → minutes 5 ≤ tj - ti)
  ∧ ∀ j t, times !! j = Some t → log !! j = Some Suppress →
       ∃ i ti, (i < j)%nat ∧ times !! i = Some ti ∧ log !! i = Some Warning ∧ t - ti < minutes 5.
Proof.
  intros Hs log.
  assert (history [] times no_repairs) as Hh.
  { split; [|by split]. exists 0%nat. simpl. split; [done|]. split; [lia|]. split; [lia|].
    intros i x y Hi. lia. }
  split; [|split].
  - intros j t Ht. destruct (decision_burst [] times no_repairs j t Hh Ht) as (d & Hd & Hb).
    unfold log. rewrite Hd. transitivity (d = Info); [naive_solver|]. rewrite Hb.
    pose proof (lookup_lt_Some _ _ _ Ht) as Hlt. apply not_iff_compat.
    assert (length (take (S j) times) = S j) as Hlen by (rewrite length_take; lia).
    assert (last (take (S j) times) = Some t) as Hlast.
    { rewrite last_lookup, Hlen. simpl. rewrite lookup_take_lt by lia. done. }
    unfold burst. simpl app. rewrite Hlen, Hlast. split.
    + intros (u & t' & H3 & Hu & [= <-] & Hw). exists u. split; [lia|]. split; [|done].
      rewrite lookup_take_lt in Hu by lia. by rewrite <- Hu.
    + intros (u & H2 & Hu & Hw). exists u, t. split; [lia|]. split; [|done].
      rewrite lookup_take_lt by lia. by rewrite <- Hu.
  - intros i j ti tj. by apply (warnings_spaced []).
  - intros j t Ht Hd. destruct (suppressed_after [] times no_repairs j t Hh Ht Hd) as [?|(w & [=] & _)].
    done.
Qed.

Definition repair_times : list Z := seconds <$> [0; 60; 120; 130; 500; 510; 515; 1200].

Lemma repair_log_rate_witness :
  repair_decisions no_repairs repair_times
    = [Info; Info; Warning; Suppress; Info; Info; Warning; Info]
  ∧ minutes 5 ≤ seconds 515 - seconds 120.
Proof.
  assert (repair_decisions no_repairs repair_times
    = [Info; Info; Warning; Suppress; Info; Info; Warning; Info]) as Hlog
    by (vm_compute; reflexivity).
  split; [exact Hlog|].
  assert (steady repair_times) as Hs.
  { intros i j x y Hij Hx Hy. unfold repair_times in *.
    do 8 (destruct j as [|j]; [do 8 (destruct i as [|i];
      [simpl in Hx, Hy; injection Hx as <-; injection Hy as <-; first [exfalso; lia | vm_compute; discriminate]|]); lia|]).
    done. }
  destruct (repair_log_rate repair_times Hs) as (_ & Hspaced & _).
  rewrite Hlog in Hspaced. by apply (Hspaced 2%nat 6%nat); [lia|..].
Defined.
