(* ===== verification/RoutingState.v ===== *)
(** * Installing a routing generation

    [populate_routing_state], [reconcile_kernel_routing_state] and
    [adopt_committed_generated_state] of src/src/config/routing_state.cpp: the
    route table and the rule manager driven together. The world is the pair of
    their worlds; routes and rules are separate objects of the kernel. *)

From Stdlib Require Import ZArith Lia Ascii String.
From stdpp Require Import base gmap strings list.
From S2P Require Import Prelude ConfigTypes FwMark RoutingPlan KernelRoutes StateError RouteTable.
From S2P Require Import PolicyRules.
Open Scope Z_scope.

(** The exceptions of the two managers and of the planner. *)
Inductive RoutingError :=
| RouteFailed (e : RouteError)
| RuleFailed (e : RuleError)
| PlanFailed (e : FwmarkError).

Definition map_error {E E' A} (f : E → E') (r : result E A) : result E' A :=
  match r with Ok a => Ok a | Throw e => Throw (f e) end.

Definition desired_generated_route_tables (desired_routes : list RouteSpec) : gset Z :=
  list_to_set (rt_table <$>
    List.filter (λ route, rt_protocol route =? KEEN_PBR_GENERATED_ROUTE_PROTOCOL) desired_routes).

(** The reachability check [populate_routing_state] hands to the planner. *)
Definition populate_check (reachability_check : option (Outbound → bool))
    (family_reachability : option ReachSnapshot) (ob : Outbound) : OutboundFamilyReachability :=
  let legacy :=
    let reachable := match reachability_check with Some check => check ob | None => true end in
    {| rch_ipv4 := reachable; rch_ipv6 := reachable |} in
  match family_reachability with
  | Some fr => default legacy (fr !! ob_tag ob)
  | None => legacy
  end.

Section Operations.
Context {K1 K2 : Type} `{RouteNetlink K1} `{RuleNetlink K2}.

Definition RoutingWorld : Type := World K1 * RuleWorld K2.
Definition RS (A : Type) : Type := SE RoutingWorld RoutingError A.

Definition on_routes {A} (m : RT K1 A) : RS A :=
  λ w, let '(w1, r) := m w.1 in ((w1, w.2), map_error RouteFailed r).
Definition on_rules {A} (m : PM K2 A) : RS A :=
  λ w, let '(w2, r) := m w.2 in ((w.1, w2), map_error RuleFailed r).

Definition adopt_committed_generated_state (desired_routes : list RouteSpec)
    (desired_rules : list RuleSpec) : RS unit :=
  _ ← on_routes (adopt_live_generated_desired desired_routes);
  catch
    (live_tables ← on_routes live_generated_route_tables;
     let confirmed_tables := desired_generated_route_tables desired_routes ∩ live_tables in
     on_rules (pm_adopt_live_generated_desired desired_rules confirmed_tables))
    (λ _, mret ()).

(** The cleanup after a complete generation, the same in both callers. *)
Definition retire_previous_generation (prior_generated_route_tables : gset Z)
    (desired_routes : list RouteSpec) (desired_rules : list RuleSpec) : RS unit :=
  _ ← on_routes finalize_pending_replacements;
  orphan_tables ← on_rules (remove_orphaned_generated desired_rules prior_generated_route_tables);
  retained_rule_tables ← on_rules (pm_remove_obsolete desired_rules);
  tracked ← on_routes (field routes_);
  live_dependency_tables ← on_rules (protect_route_tables_with_live_rules tracked
                                       prior_generated_route_tables desired_rules);
  _ ← on_routes (remove_obsolete desired_routes
                   (orphan_tables ∪ retained_rule_tables ∪ live_dependency_tables));
  adopt_committed_generated_state desired_routes desired_rules.

(** The [try] block of [populate_routing_state] and its handler. *)
Definition install_generation (plan : PlannedRoutingState) : RS unit :=
  catch
    (_ ← on_routes (mfor RouteTable.add (plan_routes plan));
     on_rules (mfor pm_add (plan_rules plan)))
    (λ e,
      protected_tables ← on_rules pm_clear;
      tracked ← on_routes (field routes_);
      live_dependency_tables ← on_rules (protect_route_tables_with_live_rules tracked ∅ []);
      _ ← on_routes (RouteTable.clear (protected_tables ∪ live_dependency_tables));
      throw e).

Definition populate_routing_state (cfg : Config) (marks : gmap string Z)
    (reachability_check : option (Outbound → bool)) (selections : option (gmap string string))
    (ipv6_enabled : bool) (family_reachability : option ReachSnapshot) : RS unit :=
  prior_generated_route_tables ← on_routes live_generated_route_tables;
  match build_planned_routing_state cfg marks
          (populate_check reachability_check family_reachability) selections ipv6_enabled with
  | Throw e => throw (PlanFailed e)
  | Ok plan =>
      _ ← install_generation plan;
      retire_previous_generation prior_generated_route_tables (plan_routes plan) (plan_rules plan)
  end.

Definition reconcile_kernel_routing_state (desired_routes : list RouteSpec)
    (desired_rules : list RuleSpec) (mode : RouteReconcileMode) : RS unit :=
  prior_generated_route_tables ← on_routes live_generated_route_tables;
  _ ← on_routes (add_missing desired_routes mode);
  _ ← catch (on_rules (pm_add_missing desired_rules))
        (λ e, _ ← on_routes rollback_pending_replacements; throw e);
  retire_previous_generation prior_generated_route_tables desired_routes desired_rules.
End Operations.

Arguments RoutingWorld K1 K2 : clear implicits.
Arguments RS K1 K2 A : clear implicits.
