(* ===== verification/RoutingStateAnchors.v ===== *)
(** * Routing generations: rules keep their routes

    A policy rule that outlives its generation (its deletion failed, or another
    program owns it) still selects its table. The composition of the two managers
    therefore never removes a route from the table of such a rule. *)

From Stdlib Require Import ZArith Lia Ascii String.
From stdpp Require Import base gmap strings list.
From S2P Require Import Prelude ConfigTypes FwMark RoutingPlan KernelRoutes StateError RouteTable.
From S2P Require Import RouteTableSafety RouteTableTables PolicyRules PolicyRulesSafety PolicyRulesDeps.
From S2P Require Import RoutingState.
Open Scope Z_scope.

(** ** The rule manager's mode *)

Section RuleSide.
Context {K : Type} `{RuleNetlink K}.

(** [I] looks at the mode and the live rules only. *)
Definition rules_running (w : RuleWorld K) : Prop := pm_dry_run w.1 = false.

Lemma running_update f :
  (∀ s, pm_dry_run (f s) = pm_dry_run s) → preserves rules_running (pm_update f).
Proof. intros Hf [s k] Hw. unfold rules_running in *. simpl. by rewrite Hf. Qed.

Lemma running_lift {A} (op : K → K * result RuleError A) : preserves rules_running (pm_lift op).
Proof. intros [s k] Hw. unfold pm_lift. simpl. by destruct (op k). Qed.

Lemma running_field {A} (f : PolicyRuleState → A) : preserves rules_running (pm_field f).
Proof. apply preserves_gets. Qed.

Lemma running_tracked r : preserves rules_running (pm_is_tracked r).
Proof. apply preserves_gets. Qed.

Lemma running_exact : preserves rules_running supports_exact_rules.
Proof. apply preserves_gets. Qed.

Lemma running_dump f : preserves rules_running (dump_policy_rules f).
Proof. apply running_lift. Qed.

Lemma running_add_rule r f : preserves rules_running (add_rule_for_family r f).
Proof. apply running_lift. Qed.

Lemma running_delete_rule r f : preserves rules_running (delete_rule_for_family r f).
Proof. apply running_lift. Qed.
#[local] Hint Resolve running_field running_tracked running_exact running_dump running_add_rule
  running_delete_rule : preserves.
#[local] Hint Extern 2 (preserves rules_running (pm_update _)) =>
  (apply running_update; done) : preserves.

Lemma running_delete_exact r f : preserves rules_running (delete_rule_if_exact r f).
Proof. unfold delete_rule_if_exact. cbv zeta. preserve. Qed.
#[local] Hint Resolve running_delete_exact : preserves.

Lemma running_delete_concrete r : preserves rules_running (delete_concrete r).
Proof. unfold delete_concrete. preserve. Qed.
#[local] Hint Resolve running_delete_concrete : preserves.

Lemma running_add_families r families newly :
  preserves rules_running (add_families r families newly).
Proof.
  revert newly. induction families as [|f families IH]; intros newly; simpl; [preserve|].
  apply preserves_bind; [preserve|]. intros [[|]|]; [apply IH|apply IH|preserve].
Qed.
#[local] Hint Resolve running_add_families : preserves.

Lemma running_add r : preserves rules_running (pm_add r).
Proof. unfold pm_add, rollback_families. preserve. Qed.
#[local] Hint Resolve running_add : preserves.

Lemma running_release r others kept rest :
  preserves rules_running (release_owned_rules r others kept rest).
Proof.
  revert kept. induction rest as [|o rest IH]; intros kept; simpl; [preserve|].
  destruct (_ && _); [|apply IH]. apply preserves_bind; [preserve|]. intros [|]; [|preserve].
  apply preserves_bind; [preserve|]. intros _. apply IH.
Qed.
#[local] Hint Resolve running_release : preserves.

Lemma running_remove r : preserves rules_running (pm_remove r).
Proof. unfold pm_remove. preserve. Qed.
#[local] Hint Resolve running_remove : preserves.

Lemma running_add_all rules : preserves rules_running (mfor pm_add rules).
Proof. preserve. Qed.

Lemma running_add_missing desired : preserves rules_running (pm_add_missing desired).
Proof. unfold pm_add_missing, restore_rule. preserve. Qed.

Lemma running_remove_obsolete desired : preserves rules_running (pm_remove_obsolete desired).
Proof. unfold pm_remove_obsolete. preserve. Qed.

Lemma running_orphaned desired tables :
  preserves rules_running (remove_orphaned_generated desired tables).
Proof. unfold remove_orphaned_generated, retire_orphan. preserve. Qed.

Lemma running_clear : preserves rules_running pm_clear.
Proof. unfold pm_clear, clear_owned. preserve. Qed.

(** The adoption after a commit reads the live rules only. *)
Lemma adopt_rules_live `{!RuleNetlinkLaws K} (P : DumpedRule → Prop) desired tables :
  preserves (λ w : RuleWorld K, ∀ d, d ∈ rl_live w.2 → P d)
    (pm_adopt_live_generated_desired desired tables).
Proof.
  assert (preserves (λ w : RuleWorld K, ∀ d, d ∈ rl_live w.2 → P d) (dump_policy_rules 0)).
  { intros [s k] Hw. unfold dump_policy_rules, pm_lift. simpl.
    pose proof (law_rule_dump_keeps 0 k) as Hk. destruct (rl_dump_policy_rules 0 k) as [k' r].
    intros d Hd. by apply Hw, Hk. }
  assert (∀ l, preserves (λ w : RuleWorld K, ∀ d, d ∈ rl_live w.2 → P d)
    (pm_update (set_owned_rules l))) by (by intros l [s k] Hw).
  unfold pm_adopt_live_generated_desired. cbv zeta. preserve; apply preserves_gets.
Qed.
End RuleSide.

(** ** The two worlds *)

Section Anchors.
Context {K1 K2 : Type} `{HT : RouteNetlinkTableLaws K1} `{HRL : RuleNetlinkLaws K2}.

Lemma routes_side {A} I (m : RT K1 A) :
  preserves I m → preserves (λ w : RoutingWorld K1 K2, I w.1) (on_routes m).
Proof.
  intros Hm [w1 w2] Hw. unfold on_routes. specialize (Hm w1 Hw). simpl.
  by destruct (m w1) as [w1' r].
Qed.

Lemma rules_side {A} I (m : PM K2 A) :
  preserves I m → preserves (λ w : RoutingWorld K1 K2, I w.2) (on_rules m).
Proof.
  intros Hm [w1 w2] Hw. unfold on_rules. specialize (Hm w2 Hw). simpl.
  by destruct (m w2) as [w2' r].
Qed.

Lemma routes_other {A} I (m : RT K1 A) :
  preserves (λ w : RoutingWorld K1 K2, I w.2) (on_routes m).
Proof. intros [w1 w2] Hw. unfold on_routes. simpl. by destruct (m w1). Qed.

Lemma rules_other {A} I (m : PM K2 A) :
  preserves (λ w : RoutingWorld K1 K2, I w.1) (on_rules m).
Proof. intros [w1 w2] Hw. unfold on_rules. simpl. by destruct (m w2). Qed.

Lemma wp_on_routes {A} (m : RT K1 A) (Q : A → RoutingWorld K1 K2 → Prop) X w :
  wp m (λ a w1, Q a (w1, w.2)) (λ e w1, X (RouteFailed e) (w1, w.2)) w.1 →
  wp (on_routes m) Q X w.
Proof. unfold wp, on_routes. by destruct (m w.1) as [w1 [a|e]]. Qed.

Lemma wp_on_rules {A} (m : PM K2 A) (Q : A → RoutingWorld K1 K2 → Prop) X w :
  wp m (λ a w2, Q a (w.1, w2)) (λ e w2, X (RuleFailed e) (w.1, w2)) w.2 →
  wp (on_rules m) Q X w.
Proof. unfold wp, on_rules. by destruct (m w.2) as [w2 [a|e]]. Qed.

Context (T : Z) (F : DumpedRoute → Prop).

Definition nonzero (r : RouteSpec) : Prop := rt_table r ≠ 0.

(** Before the cleanup: the anchors of [T] are there. *)
Definition before (w : RoutingWorld K1 K2) : Prop :=
  table_inv T F nonzero w.1 ∧ rules_running w.2.

Definition unaccounted (rules : list RuleSpec) (d : DumpedRule) : Prop :=
  du_table d = T ∧ ∀ e, e ∈ rules → logical_matches e d = false.

(** After it: they are, or no rule outside the generation selects [T]. *)
Definition after (rules : list RuleSpec) (w : RoutingWorld K1 K2) : Prop :=
  (∃ R, table_inv T F R w.1) ∨ ∀ d, d ∈ rl_live w.2.2 → ¬ unaccounted rules d.

Lemma before_after rules w : before w → after rules w.
Proof. intros [Ha _]. left. eauto. Qed.

Lemma before_routes {A} (m : RT K1 A) :
  preserves (table_inv T F nonzero) m → preserves before (on_routes m).
Proof.
  intros Hm w [Hw1 Hw2]. split; [by apply (routes_side _ _ Hm) | by apply (routes_other rules_running)].
Qed.

Lemma before_rules {A} (m : PM K2 A) :
  preserves rules_running m → preserves before (on_rules m).
Proof.
  intros Hm w [Hw1 Hw2]. split; [by apply (rules_other (table_inv T F nonzero)) |
    by apply (rules_side _ _ Hm)].
Qed.

Lemma away_nonzero r : away T r → nonzero r.
Proof. by intros []. Qed.

(** ** The adoption at the end *)

Lemma after_routes {A} rules (m : RT K1 A) :
  (∀ R, preserves (table_inv T F R) m) → preserves (after rules) (on_routes m).
Proof.
  intros Hm w [[R Ha]|Hn]; [left; exists R | right].
  - by apply (routes_side (table_inv T F R) m).
  - by apply (routes_other (λ w2, ∀ d, d ∈ rl_live w2.2 → ¬ unaccounted rules d)).
Qed.

Lemma after_adopt_rules rules desired tables :
  preserves (after rules) (on_rules (pm_adopt_live_generated_desired desired tables)).
Proof.
  intros w [[R Ha]|Hn]; [left; exists R | right].
  - by apply (rules_other (table_inv T F R)).
  - by apply (rules_side _ _ (adopt_rules_live (λ d, ¬ unaccounted rules d) desired tables)).
Qed.

Lemma after_adopt rules dr du : preserves (after rules) (adopt_committed_generated_state dr du).
Proof.
  unfold adopt_committed_generated_state. apply preserves_bind.
  { apply after_routes. intros R. apply table_adopt_live. }
  intros _. apply preserves_catch; [|preserve]. apply preserves_bind.
  { apply after_routes. intros R. apply table_live_tables. }
  intros live. apply after_adopt_rules.
Qed.

(** ** Removing under protection *)

(** [removal] stands for [RouteTable::remove_obsolete], which adopts orphans, and
    [RouteTable::clear], which does not. *)
Lemma wp_protected {A B} (adopts : Prop) (removal : gset Z → RT K1 A) (next : A → RS K1 K2 B) extra known
    accounted w :
  (∀ a, preserves (after accounted) (next a)) →
  (∀ R protected, (∀ r, away T r → R r) →
     (∀ r, R r → rt_table r ∈ protected ∨ away T r) →
     (∀ d, adopts → F d → dr_table d = T → is_generated_route_candidate d = true →
        R (route_spec_from_live d)) →
     preserves (table_inv T F R) (removal protected)) →
  (∀ d, adopts → F d → dr_table d = T → is_generated_route_candidate d = true → T ∈ extra) →
  before w →
  wp (tracked ← on_routes (field routes_);
      live ← on_rules (protect_route_tables_with_live_rules tracked extra accounted);
      a ← on_routes (removal (known ∪ live));
      next a)
     (λ _, after accounted) (λ _, after accounted) w.
Proof.
  intros Hnext Hrem Hextra Hw. apply wp_bind, wp_on_routes, wp_gets, wp_bind, wp_on_rules. simpl.
  destruct w as [[s1 k1] w2]. simpl in *. destruct Hw as [Hinv Hrun].
  eapply wp_mono; [by apply wp_protect | |done]. intros p w2' [_ Hp]. simpl.
  apply wp_bind. eapply wp_mono; [| |intros e w' Hw'; exact Hw'].
  2: { intros a. apply (proj1 (preserves_wp _ _) (Hnext a)). }
  assert (∀ R, table_inv T F R (s1, k1) → preserves (table_inv T F R) (removal (known ∪ p)) →
    wp (on_routes (removal (known ∪ p))) (λ _, after accounted) (λ _, after accounted)
       ((s1, k1), w2')) as Hkeep.
  { intros R HR Hpres. apply wp_on_routes. eapply wp_mono; [apply preserves_wp; [exact Hpres|exact HR] | |];
      intros ? w1' Hw1'; left; by exists R. }
  destruct (decide (T ∈ known ∪ p)) as [Hin|Hout].
  { apply (Hkeep nonzero); [done|]. apply Hrem; [apply away_nonzero| |].
    - intros r Hr. destruct (decide (rt_table r = T)) as [->|]; [by left|by right].
    - intros d _ _ HdT Hc. unfold is_generated_route_candidate in Hc. route_bool. unfold nonzero. simpl.
      by apply Z.eqb_neq, negb_true_iff. }
  destruct (decide (T ∈ (list_to_set (rt_table <$> routes_ s1) ∪ extra : gset Z))) as [Hc|Hc].
  - assert (∀ d, d ∈ rl_live w2'.2 → ¬ unaccounted accounted d) as Hnone.
    { intros d Hd [HdT Hno]. destruct (Hp d Hd) as [Hdp|(e & He & Hm)]; [by rewrite HdT| |].
      - rewrite HdT in Hdp. set_solver.
      - by rewrite (Hno e He) in Hm. }
    eapply wp_mono; [apply (proj1 (preserves_wp _ _) (routes_other (λ w, ∀ d,
      d ∈ rl_live w.2 → ¬ unaccounted accounted d) _)); exact Hnone | |];
      intros ? w' Hw'; by right.
  - destruct Hinv as (Ha & Htr & Hpend). apply (Hkeep (away T)).
    + split; [done|]. split; [|done]. rewrite Forall_forall in *. intros r Hr.
      split; [by apply Htr|]. intros HrT. apply Hc, elem_of_union_l, elem_of_list_to_set,
        list_elem_of_fmap. eauto.
    + apply Hrem; [done|by right|]. intros d Had HF HdT Hgen. exfalso. apply Hc.
      apply elem_of_union_r. by eapply Hextra.
Qed.

Lemma after_weaken rules w : after [] w → after rules w.
Proof.
  intros [?|Hn]; [by left|]. right. intros d Hd [HdT _]. apply (Hn d Hd). split; [done|].
  intros e He. by apply elem_of_nil in He.
Qed.

(** ** The callers *)

Lemma wp_live_tables w :
  dry_run_ w.1.1 = false → (∀ d, F d → d ∈ nl_live w.1.2) → before w →
  wp (on_routes live_generated_route_tables)
     (λ prior w', before w' ∧ ∀ d, F d → dr_table d = T → is_generated_route_candidate d = true →
                  T ∈ prior) (λ _, before) w.
Proof.
  intros Hdry HF Hw.
  pose proof (proj1 (preserves_wp _ _) (before_routes _ (table_live_tables T F nonzero)) w Hw) as Hb.
  assert (wp (on_routes live_generated_route_tables) (λ prior (_ : RoutingWorld K1 K2),
    ∀ d, F d → dr_table d = T → is_generated_route_candidate d = true → T ∈ prior) (λ _ _, True) w)
    as Hp; [|eapply wp_mono; [exact (wp_and _ _ _ _ _ _ Hb Hp) | done | by intros e w' [? _]]].
  destruct w as [[s k] w2]. simpl in *. apply wp_on_routes. unfold live_generated_route_tables.
  apply wp_bind, wp_gets. simpl. rewrite Hdry. apply wp_bind.
  unfold wp at 1, dump_routes, lift. simpl. pose proof (law_dump_exact 0 k) as Hex.
  destruct (nl_dump_routes 0 k) as [k' [live|e]]; [|done]. simpl in Hex. apply wp_ret.
  intros d Hd HdT Hc. apply elem_of_list_to_set, list_elem_of_fmap. exists d. split; [done|].
  apply list_elem_of_In, filter_In. split; [|done]. apply list_elem_of_In, Hex; auto.
Qed.

Lemma wp_retire prior dr du w :
  (∀ d, F d → dr_table d = T → is_generated_route_candidate d = true → T ∈ prior) → before w →
  wp (retire_previous_generation prior dr du) (λ _, after du) (λ _, after du) w.
Proof.
  intros Hprior Hw. unfold retire_previous_generation.
  assert (∀ w', before w' → ∀ A (m : RS K1 K2 A) (Q : A → RoutingWorld K1 K2 → Prop),
    preserves before m → (∀ a w1, before w1 → Q a w1) → wp m Q (λ _, after du) w') as Hstep.
  { intros w' Hb A m Q Hm HQ. eapply wp_mono; [exact (proj1 (preserves_wp _ _) Hm w' Hb) | auto |].
    intros e w1. apply before_after. }
  apply wp_bind, (Hstep w Hw); [apply before_routes, table_finalize|]. intros _ w1 Hw1.
  apply wp_bind, (Hstep w1 Hw1); [apply before_rules, running_orphaned|]. intros orphans w2 Hw2.
  apply wp_bind, (Hstep w2 Hw2); [apply before_rules, running_remove_obsolete|]. intros retained w3 Hw3.
  apply (wp_protected True (λ p, remove_obsolete dr p) (λ _, adopt_committed_generated_state dr du));
    [intros _; apply after_adopt | |by intros d _; apply Hprior|done].
  intros R protected HR Hp HFR. apply table_remove_obsolete; [done|done|]. intros d. by apply HFR.
Qed.

Lemma wp_before {A B} (m : RS K1 K2 A) (next : A → RS K1 K2 B) rules w :
  preserves before m → before w →
  (∀ a w', before w' → wp (next a) (λ _, after rules) (λ _, after rules) w') →
  wp (a ← m; next a) (λ _, after rules) (λ _, after rules) w.
Proof.
  intros Hm Hw Hn. apply wp_bind.
  eapply wp_mono; [exact (proj1 (preserves_wp _ _) Hm w Hw) | exact Hn |].
  intros e w'. apply before_after.
Qed.

Lemma wp_reconcile_kernel dr du mode w :
  dry_run_ w.1.1 = false → (∀ d, F d → d ∈ nl_live w.1.2) → Forall (away T) dr → before w →
  wp (reconcile_kernel_routing_state dr du mode) (λ _, after du) (λ _, after du) w.
Proof.
  intros Hdry HF Hdr Hw. unfold reconcile_kernel_routing_state. apply wp_bind.
  eapply wp_mono; [by apply wp_live_tables | |intros e w1; apply before_after].
  intros prior w1 [Hw1 Hprior]. apply wp_before; [|done|].
  { apply before_routes, table_add_missing; [apply away_nonzero | done]. }
  intros _ w2 Hw2. apply wp_before; [|done|intros _ w3 Hw3; by apply wp_retire].
  apply preserves_catch; [apply before_rules, running_add_missing|]. intros e.
  apply preserves_bind; [apply before_routes, table_rollback | preserve].
Qed.

Lemma wp_install_generation plan w :
  Forall (away T) (plan_routes plan) → before w →
  wp (install_generation plan) (λ _, before) (λ _, after []) w.
Proof.
  intros Hdr Hw. unfold install_generation. apply wp_catch.
  assert (preserves before (_ ← on_routes (mfor RouteTable.add (plan_routes plan));
    on_rules (mfor pm_add (plan_rules plan)) : RS K1 K2 unit)) as Hadd.
  { apply preserves_bind; [|intros _; apply before_rules, running_add_all].
    apply before_routes, preserves_mfor. intros r Hr. rewrite Forall_forall in Hdr.
    apply table_add; [apply away_nonzero | by apply Hdr]. }
  eapply wp_mono; [exact (proj1 (preserves_wp _ _) Hadd w Hw) | done |]. intros e w1 Hw1.
  match goal with |- wp ?m _ _ _ =>
    assert (wp m (λ _ _, False) (λ _ _, True) w1) as Hthrow;
      [|assert (wp m (λ _, after []) (λ _, after []) w1) as Hafter;
        [|eapply wp_mono; [exact (wp_and _ _ _ _ _ _ Hthrow Hafter) | by intros a w' [[] _]
                          | by intros x w' [_ ?]]]]
  end.
  - repeat (apply wp_bind_any; intros). done.
  - apply wp_before; [apply before_rules, running_clear|done|]. intros protected w2 Hw2.
    apply (wp_protected False (λ p, RouteTable.clear p) (λ _, throw e)); [preserve| |done|done].
    intros R p HR Hp _. by apply table_clear.
Qed.

Lemma wp_populate cfg marks check selections ipv6 family_reach rules w :
  dry_run_ w.1.1 = false → (∀ d, F d → d ∈ nl_live w.1.2) → before w →
  (∀ plan, build_planned_routing_state cfg marks (populate_check check family_reach) selections ipv6
             = Ok plan → Forall (away T) (plan_routes plan) ∧ plan_rules plan = rules) →
  wp (populate_routing_state cfg marks check selections ipv6 family_reach)
     (λ _, after rules) (λ _, after rules) w.
Proof.
  intros Hdry HF Hw Hplan. unfold populate_routing_state. apply wp_bind.
  eapply wp_mono; [by apply wp_live_tables | |intros e w1; apply before_after].
  intros prior w1 [Hw1 Hprior].
  destruct (build_planned_routing_state _ _ _ _ _) as [plan|e] eqn:Hbuild; [|by apply wp_throw, before_after].
  destruct (Hplan plan eq_refl) as [Hdr <-]. apply wp_bind.
  eapply wp_mono; [by apply wp_install_generation | |].
  - intros u w2 Hw2. by apply wp_retire.
  - intros e w2. apply after_weaken.
Qed.
End Anchors.

(** The initial state of a call: what [table_inv] asks of the route table's ledgers
    for the routing table [T]. *)
Definition ledger_away (T : Z) (s : RouteTableState) : Prop :=
  Forall nonzero (routes_ s) ∧ Forall (pending_away T) (pending_replacements_ s).

