(* ===== verification/RoutingCommit.v ===== *)
(** * Routing generations: the kernel after a commit

    A strict [reconcile_kernel_routing_state] that returns has installed both halves
    of a plan, and the cleanup of earlier generations left them in place. With the
    planner's guarantees this is the kill switch in the kernel. At the end, the list
    kernels run the sample plan. *)

From Stdlib Require Import ZArith Lia Ascii String.
From stdpp Require Import base gmap strings list.
From S2P Require Import Prelude ConfigTypes FwMark RoutingPlan RoutingPlanProps RoutingPlanClaims KernelRoutes StateError.
From S2P Require Import RouteTable RouteTableSafety RouteTableConverge RouteTableModel PlannedRoutes PolicyRules PolicyRulesSafety PolicyRulesDeps.
From S2P Require Import PolicyRulesConverge RouteTableTables RoutingState RoutingStateAnchors.
Open Scope Z_scope.

Section Commit.
Context {K1 K2 : Type} `{HE : RouteNetlinkExactLaws K1} `{HRL : RuleNetlinkLaws K2}.
Context (dr : list RouteSpec) (du : list RuleSpec).
Context (dr_canonical : Forall (λ e, canonical e = true) dr) (dr_reportable : Forall reportable dr).
Context (dr_slots : ∀ e1 e2, e1 ∈ dr → e2 ∈ dr → slot_key e1 = slot_key e2 → e1 = e2).
Context (du_explicit : Forall explicit_rule du).

(** The tables that corroborate generated rules are explicit. *)
Lemma wp_prior_tables (w : RoutingWorld K1 K2) :
  wp (on_routes live_generated_route_tables)
     (λ prior w', (0 ∉ prior) ∧ w'.1.1 = w.1.1 ∧ w'.2 = w.2) (λ _ _, True) w.
Proof.
  destruct w as [[s k] w2]. apply wp_on_routes. unfold live_generated_route_tables.
  apply wp_bind, wp_gets. simpl. destruct (dry_run_ s); [by apply wp_ret|]. apply wp_bind.
  unfold wp at 1, dump_routes, lift. simpl. destruct (nl_dump_routes 0 k) as [k' [live|e]]; [|done].
  apply wp_ret. split; [|done]. rewrite elem_of_list_to_set, list_elem_of_fmap.
  intros (d & Hd & [_ Hc]%list_elem_of_In%filter_In). unfold is_generated_route_candidate in Hc.
  route_bool. rewrite <- Hd in *. done.
Qed.

Definition committed (w : RoutingWorld K1 K2) : Prop := settled dr w.1 ∧ kept_up du w.2.

Lemma committed_routes {A} (m : RT K1 A) :
  preserves (settled dr) m → preserves committed (on_routes m).
Proof.
  intros Hm w [Hw1 Hw2]. split; [by apply (routes_side _ _ Hm) | by apply (routes_other (kept_up du))].
Qed.

Lemma committed_rules {A} (m : PM K2 A) :
  preserves (kept_up du) m → preserves committed (on_rules m).
Proof.
  intros Hm w [Hw1 Hw2]. split; [by apply (rules_other (settled dr)) | by apply (rules_side _ _ Hm)].
Qed.

Lemma settled_live_tables : preserves (settled dr) live_generated_route_tables.
Proof.
  pose proof (settled_dump dr) as Hd. unfold live_generated_route_tables.
  apply preserves_bind; [apply preserves_gets | preserve].
Qed.

Lemma committed_adopt : preserves committed (adopt_committed_generated_state dr du).
Proof.
  unfold adopt_committed_generated_state.
  apply preserves_bind; [by apply committed_routes, settled_adopt_live|]. intros _.
  apply preserves_catch; [|preserve].
  apply preserves_bind; [apply committed_routes, settled_live_tables|]. intros live.
  by apply committed_rules, kept_adopt.
Qed.

Lemma committed_retire prior :
  0 ∉ prior → preserves committed
    (orphan_tables ← on_rules (remove_orphaned_generated du prior);
     retained_rule_tables ← on_rules (pm_remove_obsolete du);
     tracked ← on_routes (field routes_);
     live_dependency_tables ← on_rules (protect_route_tables_with_live_rules tracked prior du);
     _ ← on_routes (remove_obsolete dr
           (orphan_tables ∪ retained_rule_tables ∪ live_dependency_tables));
     adopt_committed_generated_state dr du).
Proof.
  intros Hp. apply preserves_bind; [by apply committed_rules, kept_orphaned|]. intros o.
  apply preserves_bind; [apply committed_rules, kept_remove_obsolete|]. intros r.
  apply preserves_bind; [apply committed_routes, preserves_gets|]. intros tracked.
  apply preserves_bind; [apply committed_rules, kept_protect|]. intros live.
  apply preserves_bind; [by apply committed_routes, settled_remove_obsolete|]. intros _.
  apply committed_adopt.
Qed.

Lemma wp_reconcile_commit w :
  Forall (λ r, canonical r = true) (routes_ w.1.1) → dry_run_ w.1.1 = false →
  pm_dry_run w.2.1 = false → Forall explicit_rule (pm_owned_rules w.2.1) →
  wp (reconcile_kernel_routing_state dr du Strict) (λ _, committed) (λ _ _, True) w.
Proof.
  intros Hcan Hdry Hpdry Hown. unfold reconcile_kernel_routing_state. apply wp_bind.
  eapply wp_mono; [apply wp_prior_tables | |done]. intros prior [[s1 k1] w2] (Hprior & Hs & Hw2).
  simpl in Hs, Hw2. subst s1 w2. apply wp_bind, wp_on_routes.
  eapply wp_mono; [by apply wp_add_missing | |done]. intros complete w1' (Hd & HR & Hlive).
  apply wp_bind, wp_catch, wp_on_rules.
  assert (rules_inv (λ _, False) w.2) as Hinv.
  { split; [done|]. eapply Forall_impl; [exact Hown|]. by split. }
  assert (distinguishable (K:=K2) (λ _, False)) as Hdist by (by intros ? []).
  eapply wp_mono; [exact (wp_and _ _ _ _ _ _ (wp_rules_add_missing du w.2 Hpdry)
    (proj1 (preserves_wp _ _) (rules_inv_add_missing _ Hdist du du_explicit) w.2 Hinv)) | |].
  2: { intros e w2' _. by apply wp_bind_any. }
  intros u w2' [Hup [_ Hown']]. unfold retire_previous_generation. apply wp_bind, wp_on_routes, wp_modify.
  eapply wp_frame; [by apply committed_retire | |done]. split.
  - by apply (settled_after_add_missing dr dr_canonical (w.1.1)).
  - split; [exact Hup|]. eapply Forall_impl; [exact Hown'|]. by intros o [? _].
Qed.
End Commit.


(** * Routing generations on concrete kernels

    The list kernels satisfy the laws of the composition, and the sample plan is
    installed on a router that holds state of an earlier process and of another
    tool, with and without failing rule deletions. *)

(** ** The table laws *)

Lemma table_of_nonzero spec : rt_table spec ≠ 0 → table_of spec = rt_table spec.
Proof. unfold table_of. by destruct (Z.eqb_spec (rt_table spec) 0). Qed.

(** An operation that changes only the routes that fail [p]. *)
Lemma scripted_table {A} (op : ListKernel → ListKernel * result RouteError A) k d :
  (∀ k', d ∈ lk_routes (op k').1 ↔ d ∈ lk_routes k') →
  d ∈ lk_live (scripted op k).1 ↔ d ∈ lk_live k.
Proof.
  intros Hop. rewrite !elem_of_lk_live. unfold scripted. destruct (hd false _); [done|].
  by rewrite Hop.
Qed.

Lemma not_in_slot spec d : rt_table spec ≠ 0 → dr_table d ≠ rt_table spec → in_slot spec d = false.
Proof.
  intros H0 Hd. apply not_true_iff_false. unfold in_slot. rewrite !andb_true_iff, !Z.eqb_eq.
  rewrite table_of_nonzero by done. naive_solver.
Qed.

Lemma elem_of_append_other spec (l : list DumpedRoute) d :
  rt_table spec ≠ 0 → dr_table d ≠ rt_table spec → d ∈ l ++ [realise spec] ↔ d ∈ l.
Proof.
  intros H0 Hd. rewrite elem_of_app, list_elem_of_singleton. split; [|by left].
  intros [?| ->]; [done|]. simpl in Hd. by rewrite table_of_nonzero in Hd.
Qed.

#[export] Instance list_kernel_tables : RouteNetlinkTableLaws ListKernel.
Proof.
  split; intros spec k d H0 Hd; simpl.
  - apply scripted_table. intros k'. destruct (link_missing _ _); [done|].
    destruct (existsb _ _); [done|]. by apply elem_of_append_other.
  - apply scripted_table. intros k'. destruct (link_missing _ _); [done|]. simpl.
    rewrite elem_of_append_other, elem_of_filter_bool by done. rewrite not_in_slot by done. naive_solver.
  - apply scripted_table. intros k'. destruct (link_missing _ _); [done|].
    pose proof (lowest_spec (List.filter (delete_candidate spec) (lk_routes k'))) as Hlow.
    destruct (lowest _) as [x|]; [|done]. destruct Hlow as [Hx _].
    apply elem_of_filter_bool in Hx as [_ Hx]. simpl. rewrite elem_of_filter_bool.
    rewrite negb_true_iff, bool_decide_eq_false. split; [naive_solver|]. intros Hin. split; [done|].
    intros ->. unfold delete_candidate in Hx. route_bool. rewrite table_of_nonzero in * by done.
    congruence.
Qed.

(** ** The sample configuration on a used router *)

(** A rule of another tool, and a rule an earlier process left behind with a mark of
    the plan, next to its route. *)
Definition other_tool_rule : DumpedRule :=
  {| du_priority := 100; du_fwmark := 1; du_fwmask := 255; du_table := 100;
     du_family := AF_INET; du_exact_identity_representable := true |}.
Definition stale_rule : DumpedRule :=
  {| du_priority := 149; du_fwmark := 65536; du_fwmask := 16711680; du_table := 149;
     du_family := AF_INET; du_exact_identity_representable := true |}.
Definition stale_route : DumpedRoute :=
  {| dr_destination := "default"; dr_table := 149; dr_interface := None; dr_gateway := None;
     dr_blackhole := false; dr_unreachable := true; dr_family := AF_INET; dr_metric := 65535;
     dr_protocol := KEEN_PBR_GENERATED_ROUTE_PROTOCOL; dr_exact_identity_representable := true |}.

Definition used_router (rule_faults : list bool) : RoutingWorld ListKernel RuleKernel :=
  ((initial_table false, with_routes [stale_route] (router [])),
   (initial_rules false, rule_kernel_with [stale_rule; other_tool_rule] rule_faults)).

Definition sample_run (rule_faults : list bool) :=
  reconcile_kernel_routing_state (plan_routes sample_plan) (plan_rules sample_plan) Strict
    (used_router rule_faults).

Lemma sample_run_ok : (sample_run []).2 = Ok ().
Proof. vm_compute. reflexivity. Qed.

(** Without faults the stale rule and its route are gone, the other tool's rule stays. *)
Lemma sample_run_clean :
  (bool_decide (stale_rule ∈ rk_rules (sample_run []).1.2.2),
   bool_decide (other_tool_rule ∈ rk_rules (sample_run []).1.2.2),
   bool_decide (149 ∈ dr_table <$> lk_routes (sample_run []).1.1.2)) = (false, true, false).
Proof. vm_compute. reflexivity. Qed.

Lemma sample_rules_explicit : Forall explicit_rule (plan_rules sample_plan).
Proof. vm_compute. repeat constructor; discriminate. Qed.


(** The ninth rule call, a dump, fails and the stale rule is not deleted: it stays, and
    so does its route. *)
Definition failing_delete : list bool := repeat false 8 ++ [true].

