(* ===== verification/TransactionPlan.v ===== *)
(** * The exact routing transaction: data and plan

    The pure part of src/src/routing/runtime_routing_transaction.cpp: the request
    with its fence, exact identities of routes and rules, the inventory checks, and
    [build_plan], which turns a request and the live inventory into the mutations
    and the journal of one transaction. Diagnostic texts are not modelled. *)

From Stdlib Require Import ZArith Lia Ascii String.
From stdpp Require Import base gmap strings list.
From S2P Require Import Prelude ConfigTypes RoutingPlan KernelRoutes ListParser StateError.
From S2P Require Import RouteTable PolicyRules.
Open Scope Z_scope.

(** ** Requests *)

Record TransactionIdentity := {
  ti_operation_serial : Z;
  ti_runtime_generation : Z;
  ti_intent_serial : Z;
  ti_base_inventory_revision : Z;
  ti_route_epoch : Z;
}.

Record CurrentFence := {
  cf_last_operation_serial : Z;
  cf_runtime_generation : Z;
  cf_intent_serial : Z;
  cf_inventory_revision : Z;
  cf_route_epoch : Z;
}.

Record ExternalTableAuthority := { ea_table : Z; ea_family : Z }.

Record TransactionRequest := {
  tq_identity : TransactionIdentity;
  tq_desired_routes : list RouteSpec;
  tq_desired_rules : list RuleSpec;
  tq_prior_routes : list RouteSpec;
  tq_prior_rules : list RuleSpec;
  tq_require_prior_preimage_proof : bool;
  tq_prior_owned_rules : list RuleSpec;
  tq_authorized_external_tables : list ExternalTableAuthority;
  tq_allow_recovery_rule_heuristic : bool;
}.

Inductive TransactionTerminal :=
| TPrepared | TRunning | TStaleBeforeMutation | TCandidateRolledBack | TCandidateCommitted
| TCommittedCleanupPending | TPartialUnknown | TPreconditionFailed.

Inductive FailureStage :=
| SNone | SJournalPublish | SFence | SCandidateRoute | SCandidateRuleDependency | SCandidateRule
| SCandidateVerify | SRollbackRule | SRollbackRoute | SCleanupRule | SCleanupRoute
| SCommittedVerify | SUnexpectedException.

Inductive StaleReason :=
| RNone | RZeroIdentity | RReplayedOperation | RRuntimeGenerationChanged | RIntentChanged
| RInventoryRevisionChanged | RRouteEpochChanged.

Inductive JournalOperation :=
| JAddCandidateRoute | JReplaceCandidateRoute | JAddCandidateRule | JVerifyCandidate
| JDeleteStaleRule | JVerifyStaleRuleAbsence | JDeleteObsoleteRoute | JVerifyCommittedState
| JRollbackCreatedRule | JRollbackCreatedRoute | JRestoreReplacedRoute.

Inductive JournalState :=
| JPlanned | JCompleted | JVerified | JRolledBack | JSkipped | JFailed | JUnknown.

Inductive JournalReceipt :=
| JNone | JCreated | JAlreadyPresent | JReplaced | JDeletedOrAbsent | JPreconditionMismatch
| JEffectUnknown.

Record JournalEntry := {
  je_operation : JournalOperation;
  je_state : JournalState;
  je_receipt : JournalReceipt;
  je_route : option RouteSpec;
  je_rule : option RuleSpec;
}.

Definition route_entry (operation : JournalOperation) (route : RouteSpec) : JournalEntry :=
  {| je_operation := operation; je_state := JPlanned; je_receipt := JNone;
     je_route := Some route; je_rule := None |}.
Definition rule_entry (operation : JournalOperation) (rule : RuleSpec) : JournalEntry :=
  {| je_operation := operation; je_state := JPlanned; je_receipt := JNone;
     je_route := None; je_rule := Some rule |}.
Definition marker_entry (operation : JournalOperation) : JournalEntry :=
  {| je_operation := operation; je_state := JPlanned; je_receipt := JNone;
     je_route := None; je_rule := None |}.

(** ** The fence *)

Definition identity_has_zero (i : TransactionIdentity) : bool :=
  (ti_operation_serial i =? 0) || (ti_runtime_generation i =? 0) || (ti_intent_serial i =? 0)
  || (ti_base_inventory_revision i =? 0) || (ti_route_epoch i =? 0).

Definition stale_reason (i : TransactionIdentity) (current : CurrentFence) : StaleReason :=
  if identity_has_zero i then RZeroIdentity
  else if ti_operation_serial i <=? cf_last_operation_serial current then RReplayedOperation
  else if negb (ti_runtime_generation i =? cf_runtime_generation current)
  then RRuntimeGenerationChanged
  else if negb (ti_intent_serial i =? cf_intent_serial current) then RIntentChanged
  else if negb (ti_base_inventory_revision i =? cf_inventory_revision current)
  then RInventoryRevisionChanged
  else if negb (ti_route_epoch i =? cf_route_epoch current) then RRouteEpochChanged
  else RNone.

(** ** Exact identities *)

Definition exact_route_kernel_metric (metric family : Z) : Z :=
  if (family =? AF_INET6) && (metric =? 0) then 1024 else metric.

Definition exact_route_same_slot (expected : RouteSpec) (actual : DumpedRoute) : bool :=
  String.eqb (rt_destination expected) (dr_destination actual)
  && (rt_table expected =? dr_table actual)
  && (rt_family expected =? dr_family actual)
  && (exact_route_kernel_metric (rt_metric expected) (rt_family expected)
      =? exact_route_kernel_metric (dr_metric actual) (dr_family actual)).

Definition exact_route_matches_live (expected : RouteSpec) (actual : DumpedRoute) : bool :=
  dr_exact_identity_representable actual
  && exact_route_same_slot expected actual
  && opt_eqb (rt_interface expected) (dr_interface actual)
  && opt_eqb (rt_gateway expected) (dr_gateway actual)
  && Bool.eqb (rt_blackhole expected) (dr_blackhole actual)
  && Bool.eqb (rt_unreachable expected) (dr_unreachable actual)
  && (rt_protocol expected =? dr_protocol actual).

Definition route_present (expected : RouteSpec) (live : list DumpedRoute) : bool :=
  existsb (exact_route_matches_live expected) live.

(** [route_specs_equal] compares the fields [routes_equal] compares. *)
Definition route_specs_equal (left right : RouteSpec) : bool :=
  String.eqb (rt_destination left) (rt_destination right)
  && (rt_table left =? rt_table right)
  && opt_eqb (rt_interface left) (rt_interface right)
  && opt_eqb (rt_gateway left) (rt_gateway right)
  && Bool.eqb (rt_blackhole left) (rt_blackhole right)
  && Bool.eqb (rt_unreachable left) (rt_unreachable right)
  && (rt_family left =? rt_family right)
  && (rt_metric left =? rt_metric right)
  && (rt_protocol left =? rt_protocol right).

Definition dumped_route_from_spec (spec : RouteSpec) : DumpedRoute :=
  {| dr_destination := rt_destination spec; dr_table := rt_table spec;
     dr_interface := rt_interface spec; dr_gateway := rt_gateway spec;
     dr_blackhole := rt_blackhole spec; dr_unreachable := rt_unreachable spec;
     dr_family := rt_family spec; dr_metric := rt_metric spec;
     dr_protocol := rt_protocol spec; dr_exact_identity_representable := true |}.

Definition slot_matches_preimages (candidate : RouteSpec) (preimages : list RouteSpec)
    (live : list DumpedRoute) : bool :=
  let slot := List.filter (exact_route_same_slot candidate) live in
  forallb dr_exact_identity_representable slot
  && (length slot =? length preimages)%nat
  && forallb (λ previous,
       existsb (λ actual, route_specs_equal previous actual) (route_spec_from_live <$> slot))
       preimages.

Inductive ExactSlotState := SlotEmpty | SlotExactSingle | SlotMismatch.

Definition slot_state_of (count : nat) (exact : bool) : ExactSlotState :=
  match count with
  | 0%nat => SlotEmpty
  | 1%nat => if exact then SlotExactSingle else SlotMismatch
  | _ => SlotMismatch
  end.

Definition exact_slot_state (expected : RouteSpec) (live : list DumpedRoute) : ExactSlotState :=
  let slot := List.filter (exact_route_same_slot expected) live in
  slot_state_of (length slot) (existsb (exact_route_matches_live expected) slot).

Definition rule_present (expected : RuleSpec) (live : list DumpedRule) : bool :=
  existsb (λ candidate, du_exact_identity_representable candidate
                        && rule_matches_live expected candidate) live.

Definition rule_occupies_same_identity (expected : RuleSpec) (actual : DumpedRule) : bool :=
  (ru_fwmark expected =? du_fwmark actual) && (ru_fwmask expected =? du_fwmask actual)
  && (ru_table expected =? du_table actual) && (ru_priority expected =? du_priority actual)
  && (ru_family expected =? du_family actual).

Definition exact_rule_state (expected : RuleSpec) (live : list DumpedRule) : ExactSlotState :=
  let same := List.filter (rule_occupies_same_identity expected) live in
  slot_state_of (length same)
    (existsb (λ rule, du_exact_identity_representable rule && rule_matches_live expected rule) same).

(** [push_back] unless an equal rule is there. *)
Definition push_rule_once (l : list RuleSpec) (r : RuleSpec) : list RuleSpec :=
  if existsb (λ c, rules_equal c r) l then l else l ++ [r].

Definition concrete_rules (logical_rules : list RuleSpec) : list RuleSpec :=
  fold_left (λ concrete logical,
    if ru_family logical =? 0
    then fold_left (λ l family, push_rule_once l (with_family family logical))
           [AF_INET; AF_INET6] concrete
    else push_rule_once concrete logical) logical_rules [].

(** ** Dependencies and inventories *)

Definition desired_managed_anchor (rule : RuleSpec) (desired_routes : list RouteSpec) : bool :=
  existsb (λ route, (rt_table route =? ru_table rule) && (rt_family route =? ru_family rule))
    desired_routes.

Definition external_table_authorized (rule : RuleSpec) (authorities : list ExternalTableAuthority)
    : bool :=
  existsb (λ a, (ea_table a =? ru_table rule) && (ea_family a =? ru_family rule)) authorities.

Definition is_exact_single (s : ExactSlotState) : bool :=
  match s with SlotExactSingle => true | _ => false end.
Definition is_slot_empty (s : ExactSlotState) : bool :=
  match s with SlotEmpty => true | _ => false end.

Definition rule_dependency_present (request : TransactionRequest) (rule : RuleSpec)
    (live_routes : list DumpedRoute) : bool :=
  if desired_managed_anchor rule (tq_desired_routes request)
  then existsb (λ route, (rt_table route =? ru_table rule) && (rt_family route =? ru_family rule)
                         && is_exact_single (exact_slot_state route live_routes))
         (tq_desired_routes request)
  else external_table_authorized rule (tq_authorized_external_tables request).

Definition all_rule_dependencies_present (request : TransactionRequest)
    (live_routes : list DumpedRoute) : bool :=
  forallb (λ rule, rule_dependency_present request rule live_routes)
    (concrete_rules (tq_desired_rules request)).

Definition table_has_unaccounted_rule_dependency (obsolete : RouteSpec)
    (request : TransactionRequest) (live_rules : list DumpedRule) (live_routes : list DumpedRoute)
    : bool :=
  existsb (λ live,
    if negb (du_table live =? rt_table obsolete) || negb (du_family live =? rt_family obsolete)
    then false
    else negb (du_exact_identity_representable live)
         || negb (existsb (λ logical,
              if negb (ru_family logical =? 0) && negb (ru_family logical =? du_family live)
              then false
              else
                let concrete := with_family (du_family live) logical in
                rule_matches_live concrete live
                && is_exact_single (exact_rule_state concrete live_rules)
                && desired_managed_anchor concrete (tq_desired_routes request)
                && rule_dependency_present request concrete live_routes)
              (tq_desired_rules request))) live_rules.

Definition all_desired_exact (request : TransactionRequest) (routes : list DumpedRoute)
    (rules : list DumpedRule) : bool :=
  forallb (λ route, is_exact_single (exact_slot_state route routes)) (tq_desired_routes request)
  && all_rule_dependencies_present request routes
  && forallb (λ rule, is_exact_single (exact_rule_state rule rules))
       (concrete_rules (tq_desired_rules request)).

Definition expected_inventory_exact (expected_routes : list RouteSpec)
    (expected_rules : list RuleSpec) (live_routes : list DumpedRoute)
    (live_rules : list DumpedRule) : bool :=
  forallb (λ route, is_exact_single (exact_slot_state route live_routes)) expected_routes
  && negb (existsb (λ live, is_generated_route_candidate live
            && negb (existsb (λ e, exact_route_matches_live e live) expected_routes)) live_routes)
  && forallb (λ rule, is_exact_single (exact_rule_state rule live_rules))
       (concrete_rules expected_rules).

(** ** The plan *)

Record PlannedRouteMutation := {
  pmr_candidate : RouteSpec;
  pmr_preimages : list RouteSpec;
  pmr_forward_journal : nat;
  pmr_rollback_journals : list nat;
  pmr_replace : bool;
  pmr_created_receipt : bool;
  pmr_replacement_receipt : bool;
}.

Record PlannedRuleMutation := {
  pmu_candidate : RuleSpec;
  pmu_forward_journal : nat;
  pmu_rollback_journal : nat;
  pmu_created_receipt : bool;
}.

Record PlannedCleanupRule := { pcu_stale : RuleSpec; pcu_journal : nat }.
Record PlannedCleanupRoute := { pcr_stale : RouteSpec; pcr_journal : nat }.

Record Plan := {
  pl_routes : list PlannedRouteMutation;
  pl_rules : list PlannedRuleMutation;
  pl_stale_rules : list PlannedCleanupRule;
  pl_stale_routes : list PlannedCleanupRoute;
  pl_candidate_verify_journal : nat;
  pl_stale_absence_journal : nat;
  pl_committed_verify_journal : nat;
  pl_corroborated_tables : gset Z;
  pl_journal : list JournalEntry;
}.

(** The reasons for which [build_plan] refuses a request. *)
Inductive PlanError :=
| ExternalAuthorityInvalid | RuleFamilyUnsupported | RuleWildcardIdentity
| PriorRuleFamilyUnsupported | PriorRuleWildcardIdentity | RuleWithoutAnchor
| RouteFamilyImplicit | RouteDestinationNotDefault | RouteConflictingTypes
| TerminalRouteWithNexthop | RouteEmptyInterface | RouteGatewayNotCanonical
| RouteWithoutNexthop | RouteOutsideNamespace | RoutesShareSlot | RouteNotOnlyImage
| ForeignRouteInSlot | MultipleManagedInSlot | ForeignRuleIdentity.

Definition explicit_identity (r : RuleSpec) : bool :=
  negb ((ru_priority r =? 0) || (ru_table r =? 0) || (ru_fwmark r =? 0) || (ru_fwmask r =? 0)).

Definition known_rule_family (r : RuleSpec) : bool :=
  (ru_family r =? 0) || (ru_family r =? AF_INET) || (ru_family r =? AF_INET6).

(** The first failing check of a list, with the error of each check. *)
Fixpoint first_error {A} (checks : list (A → option PlanError)) (x : A) : option PlanError :=
  match checks with
  | [] => None
  | c :: checks => match c x with Some e => Some e | None => first_error checks x end
  end.

Fixpoint check_each {A} (check : A → option PlanError) (l : list A) : option PlanError :=
  match l with
  | [] => None
  | x :: l => match check x with Some e => Some e | None => check_each check l end
  end.

Definition unless (b : bool) (e : PlanError) : option PlanError := if b then None else Some e.

Definition check_authority (a : ExternalTableAuthority) : option PlanError :=
  unless (negb ((ea_table a =? 0)
                || (negb (ea_family a =? AF_INET) && negb (ea_family a =? AF_INET6))))
    ExternalAuthorityInvalid.

Section Planning.
Context `{Inet}.
Context (request : TransactionRequest).

Definition canonical_address_for_family (address : string) (family : Z) : bool :=
  match inet_pton family address with
  | None => false
  | Some binary =>
      match inet_ntop family binary with
      | None => false
      | Some canonical => String.eqb address canonical
      end
  end.

(** The rule checks, up to the anchor of every concrete rule. *)
Definition check_rules : option PlanError :=
  match check_each check_authority (tq_authorized_external_tables request) with
  | Some e => Some e
  | None =>
      match check_each (first_error [λ r, unless (known_rule_family r) RuleFamilyUnsupported;
                                     λ r, unless (explicit_identity r) RuleWildcardIdentity])
              (tq_desired_rules request) with
      | Some e => Some e
      | None =>
          match check_each (first_error
                  [λ r, unless (known_rule_family r) PriorRuleFamilyUnsupported;
                   λ r, unless (explicit_identity r) PriorRuleWildcardIdentity])
                  (tq_prior_owned_rules request) with
          | Some e => Some e
          | None =>
              check_each (λ rule,
                unless (desired_managed_anchor rule (tq_desired_routes request)
                        || external_table_authorized rule (tq_authorized_external_tables request))
                  RuleWithoutAnchor) (concrete_rules (tq_desired_rules request))
          end
      end
  end.

(** The checks on one candidate route before it is compared with others. *)
Definition check_candidate : RouteSpec → option PlanError :=
  first_error
    [λ c, unless ((rt_family c =? AF_INET) || (rt_family c =? AF_INET6)) RouteFamilyImplicit;
     λ c, unless (String.eqb (rt_destination c) "default") RouteDestinationNotDefault;
     λ c, unless (negb (rt_blackhole c && rt_unreachable c)) RouteConflictingTypes;
     λ c, unless (negb ((rt_blackhole c || rt_unreachable c)
                        && (bool_decide (is_Some (rt_interface c))
                            || bool_decide (is_Some (rt_gateway c))))) TerminalRouteWithNexthop;
     λ c, unless (match rt_interface c with Some i => negb (empty_str i) | None => true end)
            RouteEmptyInterface;
     λ c, unless (match rt_gateway c with
                  | Some g => canonical_address_for_family g (rt_family c)
                  | None => true
                  end) RouteGatewayNotCanonical;
     λ c, unless (rt_blackhole c || rt_unreachable c || bool_decide (is_Some (rt_interface c))
                  || bool_decide (is_Some (rt_gateway c))) RouteWithoutNexthop;
     λ c, unless (is_generated_route_candidate (dumped_route_from_spec c)) RouteOutsideNamespace].

(** The scan of the earlier candidates: [Ok true] for a duplicate. *)
Fixpoint check_earlier (candidate : RouteSpec) (earlier : list RouteSpec)
    : result PlanError bool :=
  match earlier with
  | [] => Ok false
  | e :: earlier =>
      if route_specs_equal candidate e then Ok true
      else if exact_route_same_slot candidate (dumped_route_from_spec e) then Throw RoutesShareSlot
      else check_earlier candidate earlier
  end.

(** The collisions of a candidate: all of them managed and representable. *)
Definition collect_collisions (candidate : RouteSpec) (live_routes : list DumpedRoute)
    : result PlanError (list RouteSpec) :=
  let slot := List.filter (exact_route_same_slot candidate) live_routes in
  if forallb (λ live, dr_exact_identity_representable live && is_generated_route_candidate live) slot
  then if (1 <? length slot)%nat then Throw MultipleManagedInSlot
       else Ok (route_spec_from_live <$> slot)
  else Throw ForeignRouteInSlot.

(** The mutation of one candidate and the journal with its entries. *)
Definition plan_route_mutation (candidate : RouteSpec) (collisions : list RouteSpec)
    (journal : list JournalEntry) : PlannedRouteMutation * list JournalEntry :=
  let replace := negb (bool_decide (collisions = [])) in
  let forward := length journal in
  ({| pmr_candidate := candidate; pmr_preimages := collisions; pmr_forward_journal := forward;
      pmr_rollback_journals := if replace then seq (S forward) (length collisions) else [S forward];
      pmr_replace := replace; pmr_created_receipt := false; pmr_replacement_receipt := false |},
   journal ++ [route_entry (if replace then JReplaceCandidateRoute else JAddCandidateRoute) candidate]
   ++ if replace then route_entry JRestoreReplacedRoute <$> collisions
      else [route_entry JRollbackCreatedRoute candidate]).

Fixpoint plan_candidate_routes (live_routes : list DumpedRoute) (earlier rest : list RouteSpec)
    (mutations : list PlannedRouteMutation) (journal : list JournalEntry)
    : result PlanError (list PlannedRouteMutation * list JournalEntry) :=
  match rest with
  | [] => Ok (mutations, journal)
  | candidate :: rest =>
      match check_candidate candidate with
      | Some e => Throw e
      | None =>
          let! duplicate := check_earlier candidate earlier in
          let next := plan_candidate_routes live_routes (earlier ++ [candidate]) rest in
          if (duplicate : bool) then next mutations journal
          else
            match exact_slot_state candidate live_routes with
            | SlotExactSingle => next mutations journal
            | state =>
                if negb (is_slot_empty state) && route_present candidate live_routes
                then Throw RouteNotOnlyImage
                else
                  let! collisions := collect_collisions candidate live_routes in
                  let '(mutation, journal) := plan_route_mutation candidate collisions journal in
                  next (mutations ++ [mutation]) journal
            end
      end
  end.

(** Restart evidence: the rule and an exact generated anchor were both live. *)
Definition recovered_anchor (candidate : RuleSpec) (live_routes : list DumpedRoute) : bool :=
  (ru_priority candidate =? ru_table candidate)
  && existsb (λ route, (rt_table route =? ru_table candidate)
                       && (rt_family route =? ru_family candidate)
                       && (rt_protocol route =? KEEN_PBR_GENERATED_ROUTE_PROTOCOL)
                       && is_exact_single (exact_slot_state route live_routes))
       (tq_desired_routes request).

Definition observed_rule_entry (candidate : RuleSpec) : JournalEntry :=
  {| je_operation := JAddCandidateRule; je_state := JVerified; je_receipt := JAlreadyPresent;
     je_route := None; je_rule := Some candidate |}.

Fixpoint plan_candidate_rules (live_routes : list DumpedRoute) (live_rules : list DumpedRule)
    (rest : list RuleSpec) (mutations : list PlannedRuleMutation) (journal : list JournalEntry)
    : result PlanError (list PlannedRuleMutation * list JournalEntry) :=
  match rest with
  | [] => Ok (mutations, journal)
  | candidate :: rest =>
      let next := plan_candidate_rules live_routes live_rules rest in
      match exact_rule_state candidate live_rules with
      | SlotExactSingle =>
          next mutations
            (if recovered_anchor candidate live_routes
             then journal ++ [observed_rule_entry candidate] else journal)
      | SlotMismatch => Throw ForeignRuleIdentity
      | SlotEmpty =>
          let forward := length journal in
          next (mutations ++ [{| pmu_candidate := candidate; pmu_forward_journal := forward;
                                 pmu_rollback_journal := S forward;
                                 pmu_created_receipt := false |}])
            (journal ++ [rule_entry JAddCandidateRule candidate;
                         rule_entry JRollbackCreatedRule candidate])
      end
  end.

(** The rules to retire: heuristic orphans, then live rules of the prior ledger. *)
Definition plan_stale_rules (live_rules : list DumpedRule) (corroborated : gset Z)
    : list RuleSpec :=
  let orphans :=
    if tq_allow_recovery_rule_heuristic request
    then find_orphaned_generated_rules (tq_desired_rules request) live_rules corroborated else [] in
  let desired_concrete := concrete_rules (tq_desired_rules request) in
  fold_left (λ stale prior,
    if negb (rule_present prior live_rules) then stale
    else if negb (existsb (λ d, rules_equal d prior) desired_concrete)
            && negb (existsb (λ s, rules_equal s prior) stale)
    then stale ++ [prior] else stale) (concrete_rules (tq_prior_owned_rules request)) orphans.

(** The routes to retire. *)
Definition plan_stale_routes (live_routes : list DumpedRoute) : list RouteSpec :=
  route_spec_from_live <$> List.filter (λ live,
    is_generated_route_candidate live
    && negb (existsb (λ c, exact_route_matches_live c live) (tq_desired_routes request))
    && negb (existsb (λ c, exact_route_same_slot c live) (tq_desired_routes request))) live_routes.

Definition build_plan (live_routes : list DumpedRoute) (live_rules : list DumpedRule)
    : result PlanError Plan :=
  match check_rules with
  | Some e => Throw e
  | None =>
      let! planned_routes := plan_candidate_routes live_routes [] (tq_desired_routes request) [] [] in
      let '(routes, journal1) := planned_routes in
      let! planned_rules := plan_candidate_rules live_routes live_rules
                              (concrete_rules (tq_desired_rules request)) [] journal1 in
      let '(rules, journal2) := planned_rules in
      let corroborated := list_to_set (dr_table <$> List.filter (λ route,
          dr_exact_identity_representable route && is_generated_route_candidate route) live_routes) in
      let stale_rules := plan_stale_rules live_rules corroborated in
      let stale_routes := plan_stale_routes live_routes in
      let journal3 := journal2 ++ [marker_entry JVerifyCandidate] in
      let journal4 := journal3 ++ (rule_entry JDeleteStaleRule <$> stale_rules) in
      let journal5 := journal4 ++ [marker_entry JVerifyStaleRuleAbsence] in
      let journal6 := journal5 ++ (route_entry JDeleteObsoleteRoute <$> stale_routes) in
      Ok {| pl_routes := routes; pl_rules := rules;
            pl_stale_rules := zip_with (λ s i, {| pcu_stale := s; pcu_journal := i |})
                                stale_rules (seq (length journal3) (length stale_rules));
            pl_stale_routes := zip_with (λ s i, {| pcr_stale := s; pcr_journal := i |})
                                 stale_routes (seq (length journal5) (length stale_routes));
            pl_candidate_verify_journal := length journal2;
            pl_stale_absence_journal := length journal4;
            pl_committed_verify_journal := length journal6;
            pl_corroborated_tables := corroborated;
            pl_journal := journal6 ++ [marker_entry JVerifyCommittedState] |}
  end.
End Planning.
