(* ===== verification/Transaction.v ===== *)
(** * The exact routing transaction: execution

    [execute_runtime_routing_transaction] and [rollback_candidate] of
    src/src/routing/runtime_routing_transaction.cpp, and
    [NetlinkManager::replace_route_if_exact] of src/src/routing/netlink.cpp. The
    world holds the two kernel backends, the caller's environment (fence probe,
    journal publisher, lease), the published journal and the result under
    construction. A [return] inside a loop is the exception [Returned], which no
    [catch] of the source sees. *)

From Stdlib Require Import ZArith Lia Ascii String.
From stdpp Require Import base gmap strings list.
From S2P Require Import Prelude ConfigTypes RoutingPlan KernelRoutes ListParser StateError.
From S2P Require Import RouteTable PolicyRules TransactionPlan.
Open Scope Z_scope.

(** [enum class RouteExactReplaceResult] *)
Inductive RouteExactReplaceResult := Replaced | ReplacePreconditionMismatch.

Section Replace.
Context {K : Type} `{RouteNetlink K}.

Definition normalized_route_metric (route : RouteSpec) : Z :=
  if (route_family route =? AF_INET6) && (rt_metric route =? 0) then 1024 else rt_metric route.

(** The scan after the replacement: slot population, and whether an exact image of
    the replacement is in it. *)
Definition scan_replacement (replacement : RouteSpec) (live : list DumpedRoute) : nat * bool :=
  let slot := List.filter (route_occupies_same_slot replacement) live in
  (length slot, existsb (λ c, dr_exact_identity_representable c && route_matches_live replacement c) slot).

Definition replace_route_if_exact (expected replacement : RouteSpec) : RT K RouteExactReplaceResult :=
  if negb (String.eqb (rt_destination expected) (rt_destination replacement))
     || negb (rt_table expected =? rt_table replacement)
     || negb (route_family expected =? route_family replacement)
     || negb (normalized_route_metric expected =? normalized_route_metric replacement)
  then mret ReplacePreconditionMismatch
  else
    live ← dump_routes (route_family expected);
    match scan_slot expected live with
    | (1%nat, Some _) =>
        _ ← replace_route replacement;
        after ← dump_routes (route_family replacement);
        match scan_replacement replacement after with
        | (1%nat, true) => mret Replaced
        | _ => throw (NetlinkError PostconditionMissed)
        end
    | _ => mret ReplacePreconditionMismatch
    end.
End Replace.

(** ** The world of a transaction *)

(** [struct RuntimeRoutingPublishedJournal] *)
Record PublishedJournal := {
  pj_identity : TransactionIdentity;
  pj_entries : list JournalEntry;
  pj_terminal : TransactionTerminal;
  pj_failure_stage : FailureStage;
  pj_mutation_started : bool;
  pj_candidate_exact_verified : bool;
}.

(** When the entries of the record may be read. *)
Definition entries_stable_after (t : TransactionTerminal) : bool :=
  match t with TPrepared | TRunning => false | _ => true end.

(** [struct RuntimeRoutingTransactionResult]. [identity] is the request's and
    [published_journal] the record of the world; [detail] is not modelled. *)
Record TransactionResult := {
  tr_terminal : TransactionTerminal;
  tr_stale_reason : StaleReason;
  tr_mutation_started : bool;
  tr_candidate_exact_verified : bool;
  tr_stale_rule_absence_proven : bool;
  tr_route_cleanup_attempted : bool;
  tr_route_interface_unavailable : bool;
  tr_prior_preimage_observed : bool;
  tr_prior_preimage_exact : bool;
  tr_journal : list JournalEntry;
}.

Definition initial_result : TransactionResult :=
  {| tr_terminal := TPreconditionFailed; tr_stale_reason := RNone; tr_mutation_started := false;
     tr_candidate_exact_verified := false; tr_stale_rule_absence_proven := false;
     tr_route_cleanup_attempted := false; tr_route_interface_unavailable := false;
     tr_prior_preimage_observed := false; tr_prior_preimage_exact := false; tr_journal := [] |}.

Definition set_terminal (t : TransactionTerminal) (r : TransactionResult) : TransactionResult :=
  {| tr_terminal := t; tr_stale_reason := tr_stale_reason r;
     tr_mutation_started := tr_mutation_started r;
     tr_candidate_exact_verified := tr_candidate_exact_verified r;
     tr_stale_rule_absence_proven := tr_stale_rule_absence_proven r;
     tr_route_cleanup_attempted := tr_route_cleanup_attempted r;
     tr_route_interface_unavailable := tr_route_interface_unavailable r;
     tr_prior_preimage_observed := tr_prior_preimage_observed r;
     tr_prior_preimage_exact := tr_prior_preimage_exact r; tr_journal := tr_journal r |}.
Definition set_stale_reason (s : StaleReason) (r : TransactionResult) : TransactionResult :=
  {| tr_terminal := tr_terminal r; tr_stale_reason := s;
     tr_mutation_started := tr_mutation_started r;
     tr_candidate_exact_verified := tr_candidate_exact_verified r;
     tr_stale_rule_absence_proven := tr_stale_rule_absence_proven r;
     tr_route_cleanup_attempted := tr_route_cleanup_attempted r;
     tr_route_interface_unavailable := tr_route_interface_unavailable r;
     tr_prior_preimage_observed := tr_prior_preimage_observed r;
     tr_prior_preimage_exact := tr_prior_preimage_exact r; tr_journal := tr_journal r |}.
(** The Boolean fields of the result, in the order of the record. *)
Definition set_flags (started exact absence cleanup unavailable observed preimage : bool)
    (r : TransactionResult) : TransactionResult :=
  {| tr_terminal := tr_terminal r; tr_stale_reason := tr_stale_reason r;
     tr_mutation_started := started; tr_candidate_exact_verified := exact;
     tr_stale_rule_absence_proven := absence; tr_route_cleanup_attempted := cleanup;
     tr_route_interface_unavailable := unavailable; tr_prior_preimage_observed := observed;
     tr_prior_preimage_exact := preimage; tr_journal := tr_journal r |}.
Definition set_mutation_started (r : TransactionResult) : TransactionResult :=
  set_flags true (tr_candidate_exact_verified r) (tr_stale_rule_absence_proven r)
    (tr_route_cleanup_attempted r) (tr_route_interface_unavailable r)
    (tr_prior_preimage_observed r) (tr_prior_preimage_exact r) r.
Definition set_exact_verified (r : TransactionResult) : TransactionResult :=
  set_flags (tr_mutation_started r) true (tr_stale_rule_absence_proven r)
    (tr_route_cleanup_attempted r) (tr_route_interface_unavailable r)
    (tr_prior_preimage_observed r) (tr_prior_preimage_exact r) r.
Definition set_absence_proven (b : bool) (r : TransactionResult) : TransactionResult :=
  set_flags (tr_mutation_started r) (tr_candidate_exact_verified r) b
    (tr_route_cleanup_attempted r) (tr_route_interface_unavailable r)
    (tr_prior_preimage_observed r) (tr_prior_preimage_exact r) r.
Definition set_cleanup_attempted (r : TransactionResult) : TransactionResult :=
  set_flags (tr_mutation_started r) (tr_candidate_exact_verified r) (tr_stale_rule_absence_proven r)
    true (tr_route_interface_unavailable r) (tr_prior_preimage_observed r)
    (tr_prior_preimage_exact r) r.
Definition set_interface_unavailable (r : TransactionResult) : TransactionResult :=
  set_flags (tr_mutation_started r) (tr_candidate_exact_verified r) (tr_stale_rule_absence_proven r)
    (tr_route_cleanup_attempted r) true (tr_prior_preimage_observed r) (tr_prior_preimage_exact r) r.
Definition set_preimage (observed exact : bool) (r : TransactionResult) : TransactionResult :=
  set_flags (tr_mutation_started r) (tr_candidate_exact_verified r) (tr_stale_rule_absence_proven r)
    (tr_route_cleanup_attempted r) (tr_route_interface_unavailable r) observed exact r.
Definition set_journal (j : list JournalEntry) (r : TransactionResult) : TransactionResult :=
  {| tr_terminal := tr_terminal r; tr_stale_reason := tr_stale_reason r;
     tr_mutation_started := tr_mutation_started r;
     tr_candidate_exact_verified := tr_candidate_exact_verified r;
     tr_stale_rule_absence_proven := tr_stale_rule_absence_proven r;
     tr_route_cleanup_attempted := tr_route_cleanup_attempted r;
     tr_route_interface_unavailable := tr_route_interface_unavailable r;
     tr_prior_preimage_observed := tr_prior_preimage_observed r;
     tr_prior_preimage_exact := tr_prior_preimage_exact r; tr_journal := j |}.

(** What the caller supplies: the fence probe and the journal publisher (both may
    be empty functions and may throw), and whether both backends are one object
    that grants a combined lease. *)
Record TransactionCaller (E : Type) := {
  tc_fence : option (E → E * result unit CurrentFence);
  tc_publish : option (PublishedJournal → E → E * result unit bool);
  tc_same_backend : bool;
  tc_acquire_lease : E → E * result unit bool;
}.
Arguments tc_fence {E}. Arguments tc_publish {E}.
Arguments tc_same_backend {E}. Arguments tc_acquire_lease {E}.

(** Netlink exceptions, and the early return of the executor. *)
Inductive TransactionError :=
| RouteThrew (e : RouteError)
| RuleThrew (e : RuleError)
| Returned.

Record TransactionWorld (K1 K2 E : Type) := {
  tw_routes : K1;
  tw_rules : K2;
  tw_env : E;
  tw_pub : PublishedJournal;
  tw_result : TransactionResult;
}.
Arguments tw_routes {K1 K2 E}. Arguments tw_rules {K1 K2 E}. Arguments tw_env {K1 K2 E}.
Arguments tw_pub {K1 K2 E}. Arguments tw_result {K1 K2 E}.

(** The backends keep no state in the route table and the rule manager; their
    operations run beside an unused ledger. *)
Definition unused_table : RouteTableState :=
  {| dry_run_ := false; routes_ := []; owned_routes_ := []; repair_records_ := [];
     pending_replacements_ := [] |}.
Definition unused_rules : PolicyRuleState :=
  {| pm_dry_run := false; pm_rules := []; pm_owned_rules := [] |}.

Section Execution.
Context {K1 K2 E : Type} `{RouteNetlink K1} `{RuleNetlink K2} `{Inet}.
Context (caller : TransactionCaller E) (request : TransactionRequest).

Definition TX (A : Type) : Type := SE (TransactionWorld K1 K2 E) TransactionError A.

Definition tx_routes {A} (m : RT K1 A) : TX A := λ w,
  let '((_, k), r) := m (unused_table, tw_routes w) in
  ({| tw_routes := k; tw_rules := tw_rules w; tw_env := tw_env w; tw_pub := tw_pub w;
      tw_result := tw_result w |},
   match r with Ok a => Ok a | Throw e => Throw (RouteThrew e) end).

Definition tx_rules {A} (m : PM K2 A) : TX A := λ w,
  let '((_, k), r) := m (unused_rules, tw_rules w) in
  ({| tw_routes := tw_routes w; tw_rules := k; tw_env := tw_env w; tw_pub := tw_pub w;
      tw_result := tw_result w |},
   match r with Ok a => Ok a | Throw e => Throw (RuleThrew e) end).

Definition tx_env {A} (op : E → E * A) : TX A := λ w,
  let '(e, a) := op (tw_env w) in
  ({| tw_routes := tw_routes w; tw_rules := tw_rules w; tw_env := e; tw_pub := tw_pub w;
      tw_result := tw_result w |}, Ok a).

Definition tx_result (f : TransactionResult → TransactionResult) : TX unit := modify (λ w,
  {| tw_routes := tw_routes w; tw_rules := tw_rules w; tw_env := tw_env w; tw_pub := tw_pub w;
     tw_result := f (tw_result w) |}).

Definition tx_pub (f : PublishedJournal → PublishedJournal) : TX unit := modify (λ w,
  {| tw_routes := tw_routes w; tw_rules := tw_rules w; tw_env := tw_env w; tw_pub := f (tw_pub w);
     tw_result := tw_result w |}).

(** [catch (...)] *)
Definition catch_all {A} (m : TX A) (h : TransactionError → TX A) : TX A :=
  catch m (λ e, match e with Returned => throw Returned | _ => h e end).

Definition set_entry_state (i : nat) (s : JournalState) : TX unit := tx_pub (λ p,
  {| pj_identity := pj_identity p;
     pj_entries := alter (λ e, {| je_operation := je_operation e; je_state := s;
                                  je_receipt := je_receipt e; je_route := je_route e;
                                  je_rule := je_rule e |}) i (pj_entries p);
     pj_terminal := pj_terminal p; pj_failure_stage := pj_failure_stage p;
     pj_mutation_started := pj_mutation_started p;
     pj_candidate_exact_verified := pj_candidate_exact_verified p |}).

Definition set_entry_receipt (i : nat) (r : JournalReceipt) : TX unit := tx_pub (λ p,
  {| pj_identity := pj_identity p;
     pj_entries := alter (λ e, {| je_operation := je_operation e; je_state := je_state e;
                                  je_receipt := r; je_route := je_route e;
                                  je_rule := je_rule e |}) i (pj_entries p);
     pj_terminal := pj_terminal p; pj_failure_stage := pj_failure_stage p;
     pj_mutation_started := pj_mutation_started p;
     pj_candidate_exact_verified := pj_candidate_exact_verified p |}).

Definition set_entries_state (l : list nat) (s : JournalState) : TX unit :=
  mfor (λ i, set_entry_state i s) l.
Definition set_entries_receipt (l : list nat) (r : JournalReceipt) : TX unit :=
  mfor (λ i, set_entry_receipt i r) l.

(** The stores of the published terminal and failure stage. *)
Definition publish_terminal (t : TransactionTerminal) : TX unit := tx_pub (λ p,
  {| pj_identity := pj_identity p; pj_entries := pj_entries p; pj_terminal := t;
     pj_failure_stage := pj_failure_stage p; pj_mutation_started := pj_mutation_started p;
     pj_candidate_exact_verified := pj_candidate_exact_verified p |}).
Definition publish_stage (s : FailureStage) : TX unit := tx_pub (λ p,
  {| pj_identity := pj_identity p; pj_entries := pj_entries p; pj_terminal := pj_terminal p;
     pj_failure_stage := s; pj_mutation_started := pj_mutation_started p;
     pj_candidate_exact_verified := pj_candidate_exact_verified p |}).

Definition enter_mutation : TX unit :=
  _ ← tx_result set_mutation_started;
  tx_pub (λ p,
    {| pj_identity := pj_identity p; pj_entries := pj_entries p; pj_terminal := TRunning;
       pj_failure_stage := pj_failure_stage p; pj_mutation_started := true;
       pj_candidate_exact_verified := pj_candidate_exact_verified p |}).

Definition retain_result_journal : TX unit := λ w,
  tx_result (set_journal (pj_entries (tw_pub w))) w.

(** ** The fence *)

Inductive FenceProbeState := FenceCurrent | FenceStale | FenceUnavailable.

Definition observe_fence : TX FenceProbeState :=
  match tc_fence caller with
  | None => mret FenceUnavailable
  | Some probe =>
      observed ← tx_env probe;
      match observed with
      | Ok current =>
          let reason := stale_reason (tq_identity request) current in
          _ ← tx_result (set_stale_reason reason);
          mret (match reason with RNone => FenceCurrent | _ => FenceStale end)
      | Throw _ => _ ← tx_result (set_stale_reason RNone); mret FenceUnavailable
      end
  end.

(** ** Rollback *)

Definition verify_created_rules_absent (rules : list PlannedRuleMutation) : TX bool :=
  live ← tx_rules (dump_policy_rules 0);
  mret (negb (existsb (λ m, pmu_created_receipt m
                            && negb (is_slot_empty (exact_rule_state (pmu_candidate m) live))) rules)).

Definition rollback_rule (stage : FailureStage) (m : PlannedRuleMutation) : TX FailureStage :=
  let entry := pmu_rollback_journal m in
  if negb (pmu_created_receipt m) then _ ← set_entry_state entry JSkipped; mret stage
  else
    catch_all
      (receipt ← tx_rules (delete_rule_if_exact (pmu_candidate m) (ru_family (pmu_candidate m)));
       match receipt with
       | RulePreconditionMismatch =>
           _ ← set_entry_receipt entry JPreconditionMismatch;
           _ ← set_entry_state entry JUnknown;
           mret SRollbackRule
       | RuleDeleted | RuleAlreadyAbsent =>
           _ ← set_entry_receipt entry JDeletedOrAbsent;
           _ ← set_entry_state entry JRolledBack;
           mret stage
       end)
      (λ _, _ ← set_entry_receipt entry JEffectUnknown;
            _ ← set_entry_state entry JUnknown;
            mret stage).

(** The outcome of one route: whether the rollback goes on. *)
Definition mark_rollback (m : PlannedRouteMutation) (receipt : JournalReceipt)
    (state : JournalState) : TX unit :=
  _ ← set_entries_receipt (pmr_rollback_journals m) receipt;
  set_entries_state (pmr_rollback_journals m) state.

Definition rollback_created_route (m : PlannedRouteMutation) : TX bool :=
  catch_all
    (before ← tx_routes (dump_routes (rt_family (pmr_candidate m)));
     match exact_slot_state (pmr_candidate m) before with
     | SlotEmpty => _ ← mark_rollback m JDeletedOrAbsent JRolledBack; mret true
     | SlotMismatch => _ ← mark_rollback m JPreconditionMismatch JUnknown; mret false
     | SlotExactSingle =>
         receipt ← tx_routes (delete_route_if_exact (pmr_candidate m));
         match receipt with
         | PreconditionMismatch =>
             _ ← mark_rollback m JPreconditionMismatch JUnknown; mret false
         | Deleted | AlreadyAbsent =>
             _ ← set_entries_receipt (pmr_rollback_journals m) JDeletedOrAbsent;
             live ← tx_routes (dump_routes (rt_family (pmr_candidate m)));
             if is_slot_empty (exact_slot_state (pmr_candidate m) live)
             then _ ← set_entries_state (pmr_rollback_journals m) JRolledBack; mret true
             else _ ← set_entries_state (pmr_rollback_journals m) JUnknown; mret false
         end
     end)
    (λ _, _ ← mark_rollback m JEffectUnknown JUnknown; mret false).

Definition rollback_replaced_route (m : PlannedRouteMutation) : TX bool :=
  catch_all
    (before ← tx_routes (dump_routes (rt_family (pmr_candidate m)));
     if slot_matches_preimages (pmr_candidate m) (pmr_preimages m) before
     then _ ← mark_rollback m JAlreadyPresent JRolledBack; mret true
     else if negb (is_exact_single (exact_slot_state (pmr_candidate m) before))
     then _ ← mark_rollback m JPreconditionMismatch JUnknown; mret false
     else
       receipt ← tx_routes (replace_route_if_exact (pmr_candidate m)
                   (hd (pmr_candidate m) (pmr_preimages m)));
       match receipt with
       | ReplacePreconditionMismatch =>
           _ ← mark_rollback m JPreconditionMismatch JUnknown; mret false
       | Replaced =>
           _ ← set_entries_receipt (pmr_rollback_journals m) JReplaced;
           _ ← mfor (λ previous, _ ← tx_routes (add_route previous); mret ()) (tl (pmr_preimages m));
           live ← tx_routes (dump_routes (rt_family (pmr_candidate m)));
           if slot_matches_preimages (pmr_candidate m) (pmr_preimages m) live
           then _ ← set_entries_state (pmr_rollback_journals m) JRolledBack; mret true
           else _ ← set_entries_state (pmr_rollback_journals m) JUnknown; mret false
       end)
    (λ _, _ ← mark_rollback m JEffectUnknown JUnknown; mret false).

Fixpoint rollback_routes (l : list PlannedRouteMutation) : TX bool :=
  match l with
  | [] => mret true
  | m :: l =>
      continue ← (if pmr_created_receipt m then rollback_created_route m
                  else if pmr_replacement_receipt m then rollback_replaced_route m
                  else _ ← set_entries_state (pmr_rollback_journals m) JSkipped; mret true);
      if continue : bool then rollback_routes l else mret false
  end.

(** [rollback_candidate]: success and the failure stage it leaves. *)
Definition rollback_candidate (routes : list PlannedRouteMutation)
    (rules : list PlannedRuleMutation) (stage : FailureStage) : TX (bool * FailureStage) :=
  stage ← mfold rollback_rule stage (rev rules);
  absent ← catch_all (verify_created_rules_absent rules) (λ _, mret false);
  if negb absent then mret (false, SRollbackRule)
  else
    restored ← rollback_routes (rev routes);
    mret (if restored : bool then (true, stage) else (false, SRollbackRoute)).

(** ** Failing *)

(** The terminal of a failed candidate and the stage to publish. *)
Definition fail_terminal (routes : list PlannedRouteMutation) (rules : list PlannedRuleMutation)
    (stage : FailureStage) (ambiguous : bool) : TX (TransactionTerminal * FailureStage) :=
  if ambiguous then mret (TPartialUnknown, stage)
  else
    '(restored, stage) ← rollback_candidate routes rules stage;
    if negb restored then mret (TPartialUnknown, stage)
    else if negb (tq_require_prior_preimage_proof request) then mret (TCandidateRolledBack, stage)
    else
      proven ← catch_all
        (final_routes ← tx_routes (dump_routes 0);
         final_rules ← tx_rules (dump_policy_rules 0);
         let exact := expected_inventory_exact (tq_prior_routes request) (tq_prior_rules request)
                        final_routes final_rules in
         _ ← tx_result (set_preimage true exact);
         mret exact)
        (λ _, _ ← tx_result (set_preimage false false); mret false);
      mret (if proven : bool then (TCandidateRolledBack, stage)
            else (TPartialUnknown, SRollbackRoute)).

Definition fail_candidate {A} (routes : list PlannedRouteMutation)
    (rules : list PlannedRuleMutation) (stage : FailureStage) (ambiguous : bool) : TX A :=
  '(terminal, stage) ← fail_terminal routes rules stage ambiguous;
  _ ← tx_result (set_terminal terminal);
  _ ← publish_stage stage;
  _ ← publish_terminal terminal;
  _ ← retain_result_journal;
  throw Returned.

Definition fail_forward_fence {A} (routes : list PlannedRouteMutation)
    (rules : list PlannedRuleMutation) (entry : nat) : TX A :=
  reason ← gets (λ w : TransactionWorld K1 K2 E, tr_stale_reason (tw_result w));
  _ ← set_entry_state entry (match reason with RNone => JUnknown | _ => JFailed end);
  started ← gets (λ w : TransactionWorld K1 K2 E, tr_mutation_started (tw_result w));
  if started : bool then fail_candidate routes rules SFence false
  else
    let terminal := match reason with RNone => TPreconditionFailed | _ => TStaleBeforeMutation end in
    _ ← tx_result (set_terminal terminal);
    _ ← publish_stage SFence;
    _ ← publish_terminal terminal;
    _ ← retain_result_journal;
    throw Returned.

(** ** The candidate *)

Definition with_route_receipts (m : PlannedRouteMutation) (created replaced : bool)
    : PlannedRouteMutation :=
  {| pmr_candidate := pmr_candidate m; pmr_preimages := pmr_preimages m;
     pmr_forward_journal := pmr_forward_journal m;
     pmr_rollback_journals := pmr_rollback_journals m; pmr_replace := pmr_replace m;
     pmr_created_receipt := created; pmr_replacement_receipt := replaced |}.

Definition with_rule_receipt (m : PlannedRuleMutation) (created : bool) : PlannedRuleMutation :=
  {| pmu_candidate := pmu_candidate m; pmu_forward_journal := pmu_forward_journal m;
     pmu_rollback_journal := pmu_rollback_journal m; pmu_created_receipt := created |}.

(** The [try] block of one route mutation: the mutation with its receipt. [plan]
    is the vector of mutations around it. *)
Definition apply_route (plan : PlannedRouteMutation → list PlannedRouteMutation)
    (rules : list PlannedRuleMutation) (m : PlannedRouteMutation) : TX PlannedRouteMutation :=
  let entry := pmr_forward_journal m in
  if pmr_replace m then
    current_slot ← tx_routes (dump_routes (rt_family (pmr_candidate m)));
    if negb (slot_matches_preimages (pmr_candidate m) (pmr_preimages m) current_slot)
    then
      _ ← set_entry_state entry JFailed;
      _ ← set_entry_receipt entry JPreconditionMismatch;
      fail_candidate (plan m) rules SCandidateRoute false
    else
      fence ← observe_fence;
      match fence with
      | FenceCurrent =>
          _ ← enter_mutation;
          receipt ← tx_routes (replace_route_if_exact (hd (pmr_candidate m) (pmr_preimages m))
                                 (pmr_candidate m));
          match receipt with
          | ReplacePreconditionMismatch =>
              _ ← set_entry_receipt entry JPreconditionMismatch;
              _ ← set_entry_state entry JFailed;
              fail_candidate (plan m) rules SCandidateRoute false
          | Replaced =>
              _ ← set_entry_receipt entry JReplaced;
              _ ← set_entry_state entry JCompleted;
              mret (with_route_receipts m (pmr_created_receipt m) true)
          end
      | _ => fail_forward_fence (plan m) rules entry
      end
  else
    fence ← observe_fence;
    match fence with
    | FenceCurrent =>
        _ ← enter_mutation;
        receipt ← tx_routes (add_route (pmr_candidate m));
        _ ← set_entry_receipt entry
              (match receipt with AddCreated => JCreated | AddAlreadyPresent => JAlreadyPresent end);
        _ ← set_entry_state entry JCompleted;
        mret (with_route_receipts m
                (match receipt with AddCreated => true | AddAlreadyPresent => false end)
                (pmr_replacement_receipt m))
    | _ => fail_forward_fence (plan m) rules entry
    end.

(** The handlers of [apply_route]: observe whether the candidate is there. *)
Definition route_failed {A} (routes : list PlannedRouteMutation) (rules : list PlannedRuleMutation)
    (m : PlannedRouteMutation) (e : TransactionError) : TX A :=
  _ ← match e with
      | RouteThrew RouteInterfaceUnavailableError => tx_result set_interface_unavailable
      | _ => mret ()
      end;
  _ ← set_entry_state (pmr_forward_journal m) JUnknown;
  _ ← set_entry_receipt (pmr_forward_journal m) JEffectUnknown;
  _ ← catch_all
        (live ← tx_routes (dump_routes (rt_family (pmr_candidate m)));
         if route_present (pmr_candidate m) live then mret ()
         else
           _ ← set_entry_state (pmr_forward_journal m) JFailed;
           _ ← set_entry_receipt (pmr_forward_journal m) JDeletedOrAbsent;
           fail_candidate routes rules SCandidateRoute false)
        (λ _, mret ());
  fail_candidate routes rules SCandidateRoute true.

Fixpoint apply_routes (rules : list PlannedRuleMutation) (done rest : list PlannedRouteMutation)
    : TX (list PlannedRouteMutation) :=
  match rest with
  | [] => mret done
  | m :: rest =>
      m' ← catch_all (apply_route (λ x, done ++ x :: rest) rules m)
             (route_failed (done ++ m :: rest) rules m);
      apply_routes rules (done ++ [m']) rest
  end.

(** The part of a rule's [try] block before the add is entered: whether to add. *)
Definition check_candidate_rule (routes : list PlannedRouteMutation)
    (rules : list PlannedRuleMutation) (m : PlannedRuleMutation) : TX bool :=
  let entry := pmu_forward_journal m in
  let candidate := pmu_candidate m in
  current_routes ← tx_routes (dump_routes (ru_family candidate));
  if negb (rule_dependency_present request candidate current_routes)
  then
    _ ← set_entry_state entry JFailed;
    fail_candidate routes rules SCandidateRuleDependency false
  else
    current_rules ← tx_rules (dump_policy_rules (ru_family candidate));
    match exact_rule_state candidate current_rules with
    | SlotMismatch =>
        _ ← set_entry_state entry JFailed;
        fail_candidate routes rules SCandidateRule false
    | SlotExactSingle =>
        _ ← set_entry_receipt entry JAlreadyPresent;
        _ ← set_entry_state entry JCompleted;
        mret false
    | SlotEmpty =>
        fence ← observe_fence;
        match fence with
        | FenceCurrent => _ ← enter_mutation; mret true
        | _ => fail_forward_fence routes rules entry
        end
    end.

(** The rest of the [try] block, with [add_started] set. *)
Definition add_candidate_rule (m : PlannedRuleMutation) : TX PlannedRuleMutation :=
  let entry := pmu_forward_journal m in
  receipt ← tx_rules (add_rule_for_family (pmu_candidate m) (ru_family (pmu_candidate m)));
  _ ← set_entry_receipt entry
        (match receipt with RuleCreated => JCreated | RuleAlreadyPresent => JAlreadyPresent end);
  _ ← set_entry_state entry JCompleted;
  mret (with_rule_receipt m (match receipt with RuleCreated => true | RuleAlreadyPresent => false end)).

(** The handler: an exact rule observed after an entered add is its effect. *)
Definition rule_failed {A} (routes : list PlannedRouteMutation)
    (plan : PlannedRuleMutation → list PlannedRuleMutation) (m : PlannedRuleMutation)
    (add_started : bool) : TX A :=
  let entry := pmu_forward_journal m in
  _ ← set_entry_state entry JUnknown;
  _ ← set_entry_receipt entry JEffectUnknown;
  _ ← catch_all
        (live ← tx_rules (dump_policy_rules (ru_family (pmu_candidate m)));
         match exact_rule_state (pmu_candidate m) live with
         | SlotEmpty =>
             _ ← set_entry_state entry JFailed;
             _ ← set_entry_receipt entry JDeletedOrAbsent;
             fail_candidate routes (plan m) SCandidateRule false
         | SlotExactSingle =>
             if add_started then
               _ ← set_entry_state entry JCompleted;
               _ ← set_entry_receipt entry JCreated;
               fail_candidate routes (plan (with_rule_receipt m true)) SCandidateRule false
             else mret ()
         | SlotMismatch => mret ()
         end)
        (λ _, mret ());
  fail_candidate routes (plan m) SCandidateRule true.

Definition apply_rule (routes : list PlannedRouteMutation)
    (plan : PlannedRuleMutation → list PlannedRuleMutation) (m : PlannedRuleMutation)
    : TX PlannedRuleMutation :=
  due ← catch_all (check_candidate_rule routes (plan m) m) (λ _, rule_failed routes plan m false);
  if due : bool
  then catch_all (add_candidate_rule m) (λ _, rule_failed routes plan m true)
  else mret m.

Fixpoint apply_rules (routes : list PlannedRouteMutation) (done rest : list PlannedRuleMutation)
    : TX (list PlannedRuleMutation) :=
  match rest with
  | [] => mret done
  | m :: rest =>
      m' ← apply_rule routes (λ x, done ++ x :: rest) m;
      apply_rules routes (done ++ [m']) rest
  end.

(** ** Verification of the candidate *)

Definition publish_exact_verified : TX unit := tx_pub (λ p,
  {| pj_identity := pj_identity p; pj_entries := pj_entries p; pj_terminal := pj_terminal p;
     pj_failure_stage := pj_failure_stage p; pj_mutation_started := pj_mutation_started p;
     pj_candidate_exact_verified := true |}).

Definition verify_candidate (entry : nat) (routes : list PlannedRouteMutation)
    (rules : list PlannedRuleMutation) : TX unit :=
  catch_all
    (live_routes ← tx_routes (dump_routes 0);
     live_rules ← tx_rules (dump_policy_rules 0);
     if negb (all_desired_exact request live_routes live_rules)
     then
       _ ← set_entry_state entry JFailed;
       fail_candidate routes rules SCandidateVerify false
     else
       fence ← observe_fence;
       match fence with
       | FenceCurrent =>
           _ ← set_entry_state entry JVerified;
           _ ← tx_result set_exact_verified;
           publish_exact_verified
       | _ => fail_forward_fence routes rules entry
       end)
    (λ _, _ ← set_entry_state entry JUnknown;
          fail_candidate routes rules SCandidateVerify true).

Definition mark_unused_rollbacks_skipped (routes : list PlannedRouteMutation)
    (rules : list PlannedRuleMutation) : TX unit :=
  _ ← mfor (λ m, set_entry_state (pmu_rollback_journal m) JSkipped) rules;
  mfor (λ m, set_entries_state (pmr_rollback_journals m) JSkipped) routes.

(** ** Cleanup *)

(** The locals [cleanup_pending], [cleanup_superseded], [cleanup_failure_stage]. *)
Record CleanupProgress := {
  cp_pending : bool;
  cp_superseded : bool;
  cp_failure_stage : FailureStage;
}.

Definition cleanup_failed (stage : FailureStage) (p : CleanupProgress) : CleanupProgress :=
  {| cp_pending := true; cp_superseded := cp_superseded p; cp_failure_stage := stage |}.
Definition cleanup_overtaken : CleanupProgress :=
  {| cp_pending := true; cp_superseded := true; cp_failure_stage := SFence |}.

Definition cleanup_rule (p : CleanupProgress) (c : PlannedCleanupRule) : TX CleanupProgress :=
  let entry := pcu_journal c in
  let family := ru_family (pcu_stale c) in
  if cp_superseded p then _ ← set_entry_state entry JSkipped; mret p
  else
    catch_all
      (before ← tx_rules (dump_policy_rules family);
       match exact_rule_state (pcu_stale c) before with
       | SlotEmpty => _ ← set_entry_state entry JSkipped; mret p
       | SlotMismatch =>
           _ ← set_entry_receipt entry JPreconditionMismatch;
           _ ← set_entry_state entry JFailed;
           mret (cleanup_failed SCleanupRule p)
       | SlotExactSingle =>
           fence ← observe_fence;
           match fence with
           | FenceCurrent =>
               _ ← enter_mutation;
               receipt ← tx_rules (delete_rule_if_exact (pcu_stale c) family);
               match receipt with
               | RulePreconditionMismatch =>
                   _ ← set_entry_receipt entry JPreconditionMismatch;
                   _ ← set_entry_state entry JFailed;
                   mret (cleanup_failed SCleanupRule p)
               | _ =>
                   _ ← set_entry_receipt entry JDeletedOrAbsent;
                   live ← tx_rules (dump_policy_rules family);
                   if negb (is_slot_empty (exact_rule_state (pcu_stale c) live))
                   then _ ← set_entry_state entry JFailed; mret (cleanup_failed SCleanupRule p)
                   else _ ← set_entry_state entry JCompleted; mret p
               end
           | _ => _ ← set_entry_state entry JSkipped; mret cleanup_overtaken
           end
       end)
      (λ _, _ ← set_entry_state entry JUnknown;
            _ ← set_entry_receipt entry JEffectUnknown;
            mret (cleanup_failed SCleanupRule p)).

Definition stale_rules_absent (stale : list PlannedCleanupRule) (live : list DumpedRule) : bool :=
  negb (existsb (λ c, negb (is_slot_empty (exact_rule_state (pcu_stale c) live))) stale).

(** The proof that the stale rules are gone: [stale_rule_absence_proven]. *)
Definition prove_stale_absence (entry : nat) (stale : list PlannedCleanupRule) : TX bool :=
  catch_all
    (live ← tx_rules (dump_policy_rules 0);
     let proven := stale_rules_absent stale live in
     _ ← tx_result (set_absence_proven proven);
     _ ← set_entry_state entry (if proven then JVerified else JFailed);
     mret proven)
    (λ _, _ ← set_entry_state entry JUnknown;
          _ ← tx_result (set_absence_proven false);
          mret false).

Definition cleanup_route (p : CleanupProgress) (c : PlannedCleanupRoute) : TX CleanupProgress :=
  let entry := pcr_journal c in
  let family := rt_family (pcr_stale c) in
  if cp_superseded p
  then
    _ ← set_entry_state entry JSkipped;
    mret (cleanup_failed (cp_failure_stage p) p)
  else
    catch_all
      (current_rules ← tx_rules (dump_policy_rules 0);
       before ← tx_routes (dump_routes family);
       if table_has_unaccounted_rule_dependency (pcr_stale c) request current_rules before
       then
         _ ← set_entry_state entry JSkipped;
         _ ← tx_result (set_absence_proven false);
         mret (cleanup_failed SCleanupRoute p)
       else
         match exact_slot_state (pcr_stale c) before with
         | SlotEmpty => _ ← set_entry_state entry JSkipped; mret p
         | SlotMismatch =>
             _ ← set_entry_state entry JFailed;
             mret (cleanup_failed SCleanupRoute p)
         | SlotExactSingle =>
             fence ← observe_fence;
             match fence with
             | FenceCurrent =>
                 _ ← tx_result set_cleanup_attempted;
                 _ ← enter_mutation;
                 receipt ← tx_routes (delete_route_if_exact (pcr_stale c));
                 match receipt with
                 | PreconditionMismatch =>
                     _ ← set_entry_receipt entry JPreconditionMismatch;
                     _ ← set_entry_state entry JFailed;
                     mret (cleanup_failed SCleanupRoute p)
                 | _ =>
                     _ ← set_entry_receipt entry JDeletedOrAbsent;
                     live ← tx_routes (dump_routes family);
                     if negb (is_slot_empty (exact_slot_state (pcr_stale c) live))
                     then
                       _ ← set_entry_state entry JFailed;
                       mret (cleanup_failed SCleanupRoute p)
                     else _ ← set_entry_state entry JCompleted; mret p
                 end
             | _ => _ ← set_entry_state entry JSkipped; mret cleanup_overtaken
             end
         end)
      (λ _, _ ← set_entry_state entry JUnknown;
            _ ← set_entry_receipt entry JEffectUnknown;
            mret (cleanup_failed SCleanupRoute p)).

(** From the first stale rule to the last obsolete route. *)
Definition cleanup (plan : Plan) : TX CleanupProgress :=
  p ← mfold cleanup_rule {| cp_pending := false; cp_superseded := false;
                            cp_failure_stage := SNone |} (pl_stale_rules plan);
  proven ← prove_stale_absence (pl_stale_absence_journal plan) (pl_stale_rules plan);
  if negb proven
  then
    _ ← mfor (λ c, set_entry_state (pcr_journal c) JSkipped) (pl_stale_routes plan);
    mret (cleanup_failed (match cp_failure_stage p with SNone => SCleanupRule | s => s end) p)
  else mfold cleanup_route p (pl_stale_routes plan).

(** ** Verification of the committed state *)

(** What is left of the plan's cleanup in the final inventory. *)
Definition cleanup_remains (plan : Plan) (live_routes : list DumpedRoute)
    (live_rules : list DumpedRule) : bool :=
  existsb (λ c, negb (is_slot_empty (exact_slot_state (pcr_stale c) live_routes)))
    (pl_stale_routes plan)
  || existsb (λ c, negb (is_slot_empty (exact_rule_state (pcu_stale c) live_rules)))
       (pl_stale_rules plan)
  || existsb (λ c, table_has_unaccounted_rule_dependency (pcr_stale c) request live_rules live_routes)
       (pl_stale_routes plan).

Definition verify_committed (plan : Plan) (p : CleanupProgress) : TX unit :=
  let entry := pl_committed_verify_journal plan in
  catch_all
    (live_routes ← tx_routes (dump_routes 0);
     live_rules ← tx_rules (dump_policy_rules 0);
     final_fence ← observe_fence;
     let p := match final_fence with FenceCurrent => p | _ => cleanup_failed SFence p end in
     if negb (all_desired_exact request live_routes live_rules)
     then
       _ ← set_entry_state entry JFailed;
       _ ← tx_result (set_terminal TPartialUnknown);
       publish_stage SCommittedVerify
     else
       let pending := cp_pending p || cleanup_remains plan live_routes live_rules in
       _ ← set_entry_state entry JVerified;
       _ ← tx_result (set_terminal (if pending then TCommittedCleanupPending
                                    else TCandidateCommitted));
       publish_stage (if pending
                      then match cp_failure_stage p with SNone => SCleanupRoute | s => s end
                      else SNone))
    (λ _, _ ← set_entry_state entry JUnknown;
          _ ← tx_result (set_terminal TCommittedCleanupPending);
          publish_stage SCommittedVerify).

(** ** The transaction *)

(** A [return] before the journal is part of the result. *)
Definition refuse {A} (terminal : TransactionTerminal) : TX A :=
  _ ← tx_result (set_terminal terminal);
  throw Returned.

Definition blank_journal : PublishedJournal :=
  {| pj_identity := tq_identity request; pj_entries := []; pj_terminal := TPrepared;
     pj_failure_stage := SNone; pj_mutation_started := false;
     pj_candidate_exact_verified := false |}.

(** The first reading of the fence. *)
Definition admit_fence : TX unit :=
  match tc_fence caller with
  | None => refuse TPreconditionFailed
  | Some probe =>
      observed ← tx_env probe;
      match observed with
      | Throw _ => refuse TPreconditionFailed
      | Ok current =>
          let reason := stale_reason (tq_identity request) current in
          _ ← tx_result (set_stale_reason reason);
          match reason with RNone => mret () | _ => refuse TStaleBeforeMutation end
      end
  end.

(** The backend's capabilities and its lease. *)
Definition acquire_lease : TX unit :=
  exact_routes ← gets (λ w : TransactionWorld K1 K2 E, nl_supports_exact_route_transaction (tw_routes w));
  exact_rules ← gets (λ w : TransactionWorld K1 K2 E, rl_supports_exact_rule_transaction (tw_rules w));
  if negb (tc_same_backend caller) || negb exact_routes || negb exact_rules
  then refuse TPreconditionFailed
  else
    lease ← tx_env (tc_acquire_lease caller);
    match lease with Ok true => mret () | _ => refuse TPreconditionFailed end.

(** The initial inventory, the prior preimage and the plan. *)
Definition make_plan : TX Plan :=
  '(initial_routes, initial_rules) ← catch_all
     (routes ← tx_routes (dump_routes 0); rules ← tx_rules (dump_policy_rules 0);
      mret (routes, rules))
     (λ _, refuse TPreconditionFailed);
  _ ← (if tq_require_prior_preimage_proof request
       then tx_result (set_preimage true
              (expected_inventory_exact (tq_prior_routes request) (tq_prior_rules request)
                 initial_routes initial_rules))
       else mret ());
  match build_plan request initial_routes initial_rules with
  | Throw _ => refuse TPreconditionFailed
  | Ok plan => mret plan
  end.

Definition publish_journal (plan : Plan) : TX unit :=
  _ ← tx_pub (λ _, {| pj_identity := tq_identity request; pj_entries := pl_journal plan;
                      pj_terminal := TPrepared; pj_failure_stage := SNone;
                      pj_mutation_started := false; pj_candidate_exact_verified := false |});
  record ← gets (λ w : TransactionWorld K1 K2 E, tw_pub w);
  retained ← match tc_publish caller with
             | None => mret (Ok false)
             | Some publish => tx_env (publish record)
             end;
  match retained with
  | Ok true => mret ()
  | _ =>
      _ ← publish_stage SJournalPublish;
      _ ← publish_terminal TPreconditionFailed;
      _ ← tx_result (set_terminal TPreconditionFailed);
      _ ← retain_result_journal;
      throw Returned
  end.

(** The fence after planning. *)
Definition confirm_fence : TX unit :=
  fence ← observe_fence;
  let refuse_planned terminal :=
    _ ← publish_stage SFence; _ ← publish_terminal terminal; refuse terminal in
  match fence with
  | FenceCurrent => mret ()
  | FenceUnavailable => refuse_planned TPreconditionFailed
  | FenceStale => refuse_planned TStaleBeforeMutation
  end.

Definition run_transaction : TX unit :=
  _ ← admit_fence;
  _ ← acquire_lease;
  plan ← make_plan;
  _ ← publish_journal plan;
  _ ← confirm_fence;
  routes ← apply_routes (pl_rules plan) [] (pl_routes plan);
  rules ← apply_rules routes [] (pl_rules plan);
  _ ← verify_candidate (pl_candidate_verify_journal plan) routes rules;
  _ ← mark_unused_rollbacks_skipped routes rules;
  p ← cleanup plan;
  _ ← verify_committed plan p;
  terminal ← gets (λ w : TransactionWorld K1 K2 E, tr_terminal (tw_result w));
  _ ← publish_terminal terminal;
  retain_result_journal.

(** The world the transaction leaves: the backends, the caller's environment, the
    published record and the result. *)
Definition execute_runtime_routing_transaction (routes : K1) (rules : K2) (env : E)
    : TransactionWorld K1 K2 E :=
  (run_transaction {| tw_routes := routes; tw_rules := rules; tw_env := env;
                      tw_pub := blank_journal; tw_result := initial_result |}).1.
End Execution.
