(* ===== verification/TransactionKernel.v ===== *)
(** * The exact routing transaction: what it asks of the kernel

    The contract of the transaction's backends (class [RouteSlotLaws] beside the
    contracts of the route table and the rule manager), the two readings of a
    kernel slot compared, and the effect of each primitive on the live routes and
    rules: which slot or identity it may change, and what its outcome proves. *)

From Stdlib Require Import ZArith Lia Ascii String.
From stdpp Require Import base gmap strings list.
From S2P Require Import Prelude ConfigTypes RoutingPlan KernelRoutes ListParser StateError.
From S2P Require Import RouteTable RouteTableSafety RouteTableConverge.
From S2P Require Import PolicyRules PolicyRulesSafety TransactionPlan Transaction.
Open Scope Z_scope.

(** ** The contract *)

(** A slot that names one place of the kernel: a default route with a concrete
    family and an explicit table. *)
Definition explicit_slot (spec : RouteSpec) : Prop :=
  rt_destination spec = "default"%string ∧ rt_table spec ≠ 0
  ∧ (rt_family spec = AF_INET ∨ rt_family spec = AF_INET6).

(** A specification the planner accepts; its metric is an unsigned field. *)
Definition candidate_shape `{Inet} (spec : RouteSpec) : Prop :=
  check_candidate spec = None ∧ 0 ≤ rt_metric spec.

Definition same_routes {K} `{RouteNetlink K} (k k' : K) : Prop :=
  ∀ d, d ∈ nl_live k ↔ d ∈ nl_live k'.
Definition same_rules {K} `{RuleNetlink K} (k k' : K) : Prop :=
  ∀ d, d ∈ rl_live k ↔ d ∈ rl_live k'.

(** rtnetlink with [NLM_F_EXCL] or [NLM_F_REPLACE] for an explicit slot: routes of
    other slots are not concerned, "already present" means that nothing was
    written, and a write that is reported as failed either did nothing or did all
    of its work. *)
Class RouteSlotLaws (K : Type) `{RouteNetlinkExactLaws K} `{Inet} : Prop := {
  law_add_slot spec k d :
    explicit_slot spec → exact_route_same_slot spec d = false →
    d ∈ nl_live (nl_add_route spec k).1 → d ∈ nl_live k;
  law_add_present spec k :
    (nl_add_route spec k).2 = Ok AddAlreadyPresent → same_routes (nl_add_route spec k).1 k;
  law_add_atomic spec k :
    candidate_shape spec →
    same_routes (nl_add_route spec k).1 k
    ∨ ∃ d, d ∈ nl_live (nl_add_route spec k).1 ∧ exact_route_matches_live spec d = true;
  law_replace_slot spec k d :
    explicit_slot spec → exact_route_same_slot spec d = false →
    d ∈ nl_live (nl_replace_route spec k).1 ↔ d ∈ nl_live k;
  law_replace_atomic spec k :
    candidate_shape spec →
    same_routes (nl_replace_route spec k).1 k
    ∨ ∃ d, d ∈ nl_live (nl_replace_route spec k).1 ∧ exact_route_matches_live spec d = true;
}.

(** [RTM_NEWRULE] with [NLM_F_EXCL] that reports an existing rule wrote nothing. *)
Class RulePresentLaws (K : Type) `{RuleNetlinkLaws K} : Prop := {
  law_rule_add_present spec f k :
    (rl_add_rule_for_family spec f k).2 = Ok RuleAlreadyPresent →
    same_rules (rl_add_rule_for_family spec f k).1 k;
}.

(** ** Slots *)

Lemma same_slot_eq spec d :
  exact_route_same_slot spec d = true ↔
  rt_destination spec = dr_destination d ∧ rt_table spec = dr_table d
  ∧ rt_family spec = dr_family d
  ∧ exact_route_kernel_metric (rt_metric spec) (rt_family spec)
    = exact_route_kernel_metric (dr_metric d) (dr_family d).
Proof.
  unfold exact_route_same_slot. rewrite !andb_true_iff, String.eqb_eq, !Z.eqb_eq. tauto.
Qed.

Lemma exact_matches_eq spec d :
  exact_route_matches_live spec d = true ↔
  dr_exact_identity_representable d = true ∧ exact_route_same_slot spec d = true
  ∧ rt_interface spec = dr_interface d ∧ rt_gateway spec = dr_gateway d
  ∧ rt_blackhole spec = dr_blackhole d ∧ rt_unreachable spec = dr_unreachable d
  ∧ rt_protocol spec = dr_protocol d.
Proof.
  unfold exact_route_matches_live.
  rewrite !andb_true_iff, !opt_eqb_eq, !Bool.eqb_true_iff, Z.eqb_eq. tauto.
Qed.

Lemma same_slot_from_live d : exact_route_same_slot (route_spec_from_live d) d = true.
Proof. by apply same_slot_eq. Qed.

(** Slots are classes: a route found in a slot spells the same slot. *)
Lemma same_slot_transfer spec c d :
  exact_route_same_slot spec c = true →
  exact_route_same_slot (route_spec_from_live c) d = exact_route_same_slot spec d.
Proof.
  intros (H1 & H2 & H3 & H4)%same_slot_eq. unfold exact_route_same_slot. simpl.
  by rewrite <- H1, <- H2, <- H3, H3, <- H4, H3.
Qed.

Lemma explicit_from_live spec c :
  explicit_slot spec → exact_route_same_slot spec c = true → explicit_slot (route_spec_from_live c).
Proof.
  intros (Hd & Ht & Hf) (H1 & H2 & H3 & _)%same_slot_eq. unfold explicit_slot. simpl.
  by rewrite <- H1, <- H2, <- H3.
Qed.

Lemma explicit_family spec : explicit_slot spec → rt_family spec ≠ 0.
Proof. by intros (_ & _ & [-> | ->]). Qed.

Lemma concrete_family spec : rt_family spec ≠ 0 → route_family spec = rt_family spec.
Proof. intros Hf. unfold route_family. by destruct (Z.eqb_spec (rt_family spec) 0). Qed.

(** The readings of netlink.cpp and of the transaction agree on live routes. *)
Lemma slots_agree spec d :
  rt_family spec ≠ 0 → (dr_family d = AF_INET6 → dr_metric d ≠ 0) →
  route_occupies_same_slot spec d = exact_route_same_slot spec d.
Proof.
  intros Hf H6. apply eq_true_iff_eq. rewrite occupies_eq, same_slot_eq, metric_matches_eq.
  unfold exact_route_kernel_metric, AF_INET, AF_INET6 in *.
  destruct (Z.eqb_spec (rt_family spec) 10), (Z.eqb_spec (dr_family d) 10),
    (Z.eqb_spec (rt_metric spec) 0), (Z.eqb_spec (dr_metric d) 0); simpl; split; intros Hs;
    destruct Hs as (? & ? & ? & ?); repeat (split; [assumption || lia|]); lia.
Qed.

(** ** Exact states *)

Lemma elem_of_filter {A} (p : A → bool) l x : x ∈ List.filter p l ↔ x ∈ l ∧ p x = true.
Proof. by rewrite !list_elem_of_In, filter_In. Qed.

Lemma slot_state_empty n b : slot_state_of n b = SlotEmpty ↔ n = 0%nat.
Proof. destruct n as [|[|n]], b; simpl; split; congruence. Qed.

Lemma slot_state_single n b : slot_state_of n b = SlotExactSingle ↔ n = 1%nat ∧ b = true.
Proof. destruct n as [|[|n]], b; simpl; split; intuition congruence. Qed.

Lemma filter_nil {A} (p : A → bool) l :
  length (List.filter p l) = 0%nat ↔ ∀ x, x ∈ l → p x = false.
Proof.
  split.
  - intros Hl x Hx. apply not_true_iff_false. intros Hp.
    assert (x ∈ List.filter p l) as Hin by by apply elem_of_filter.
    apply nil_length_inv in Hl. rewrite Hl in Hin. by apply elem_of_nil in Hin.
  - intros Hp. destruct (List.filter p l) as [|x r] eqn:Hf; [done|].
    assert (x ∈ List.filter p l) as [Hx Hpx]%elem_of_filter by (rewrite Hf; by left).
    by rewrite Hp in Hpx.
Qed.

Lemma filter_single {A} (p : A → bool) l :
  length (List.filter p l) = 1%nat →
  ∃ x, List.filter p l = [x] ∧ x ∈ l ∧ p x = true ∧ ∀ y, y ∈ l → p y = true → y = x.
Proof.
  intros Hl. destruct (List.filter p l) as [|x [|z r]] eqn:Hf; [done| |done]. exists x.
  assert (∀ y, y ∈ List.filter p l ↔ y = x) as Hin
    by (intros y; rewrite Hf; apply list_elem_of_singleton).
  split; [done|]. setoid_rewrite elem_of_filter in Hin. pose proof (proj2 (Hin x) eq_refl) as [? ?].
  split; [done|]. split; [done|]. intros y Hy Hpy. by apply Hin.
Qed.

Lemma exact_empty spec l :
  exact_slot_state spec l = SlotEmpty ↔ ∀ d, d ∈ l → exact_route_same_slot spec d = false.
Proof. unfold exact_slot_state. by rewrite slot_state_empty, filter_nil. Qed.

Lemma exact_single spec l :
  exact_slot_state spec l = SlotExactSingle →
  ∃ d, d ∈ l ∧ exact_route_matches_live spec d = true
       ∧ ∀ x, x ∈ l → exact_route_same_slot spec x = true → x = d.
Proof.
  unfold exact_slot_state. intros [(d & -> & Hd & Hs & Hu)%filter_single Hex]%slot_state_single.
  exists d. simpl in Hex. rewrite orb_false_r in Hex. eauto.
Qed.

Lemma rule_empty spec l :
  exact_rule_state spec l = SlotEmpty ↔ ∀ d, d ∈ l → rule_occupies_same_identity spec d = false.
Proof. unfold exact_rule_state. by rewrite slot_state_empty, filter_nil. Qed.

Lemma rule_single spec l :
  exact_rule_state spec l = SlotExactSingle →
  ∃ d, d ∈ l ∧ du_exact_identity_representable d = true ∧ rule_matches_live spec d = true
       ∧ ∀ x, x ∈ l → rule_occupies_same_identity spec x = true → x = d.
Proof.
  unfold exact_rule_state. intros [(d & -> & Hd & Hs & Hu)%filter_single Hex]%slot_state_single.
  exists d. simpl in Hex. rewrite orb_false_r, andb_true_iff in Hex. naive_solver.
Qed.

Lemma is_empty_iff s : is_slot_empty s = true ↔ s = SlotEmpty.
Proof. by destruct s. Qed.
Lemma is_single_iff s : is_exact_single s = true ↔ s = SlotExactSingle.
Proof. by destruct s. Qed.

Lemma route_present_iff spec l :
  route_present spec l = true ↔ ∃ d, d ∈ l ∧ exact_route_matches_live spec d = true.
Proof. unfold route_present. rewrite existsb_exists. by setoid_rewrite list_elem_of_In. Qed.

(** The identity of a rule is what [rule_matches_live] compares. *)
Lemma identity_matches spec d : rule_occupies_same_identity spec d = rule_matches_live spec d.
Proof.
  unfold rule_occupies_same_identity, rule_matches_live.
  repeat match goal with |- context [Z.eqb ?a ?b] => destruct (Z.eqb a b) end; done.
Qed.

(** ** The route primitives *)

Section Routes.
Context {K : Type} `{HS : RouteSlotLaws K}.

(** The kernel agrees with [k] outside the slot of [spec]. *)
Definition same_outside (spec : RouteSpec) (k k' : K) : Prop :=
  ∀ d, exact_route_same_slot spec d = false → d ∈ nl_live k ↔ d ∈ nl_live k'.

Definition image_live (spec : RouteSpec) (k : K) : Prop :=
  ∃ d, d ∈ nl_live k ∧ exact_route_matches_live spec d = true.

Lemma same_routes_outside spec (k k' : K) : same_routes k k' → same_outside spec k k'.
Proof. intros Hk d _. apply Hk. Qed.

Lemma same_routes_trans (k1 k2 k3 : K) : same_routes k1 k2 → same_routes k2 k3 → same_routes k1 k3.
Proof. intros H12 H23 d. by rewrite (H12 d). Qed.

Lemma image_same spec (k k' : K) : same_routes k k' → image_live spec k' → image_live spec k.
Proof. intros Hk (d & Hd & Hm). exists d. by rewrite (Hk d). Qed.

Lemma live_slot spec (k : K) d :
  rt_family spec ≠ 0 → d ∈ nl_live k →
  route_occupies_same_slot spec d = exact_route_same_slot spec d.
Proof. intros He Hd. apply slots_agree; [done|]. by apply (law_ipv6_metric k). Qed.

Lemma kernel_dump f w :
  wp (dump_routes f)
    (λ l w', same_routes w'.2 w.2 ∧ ∀ d, d ∈ l ↔ d ∈ nl_live w.2 ∧ (f = 0 ∨ dr_family d = f))
    (λ _ w', same_routes w'.2 w.2) w.
Proof.
  unfold wp, dump_routes, lift. pose proof (law_dump_keeps f w.2) as Hkeep.
  pose proof (law_dump_exact f w.2) as Hexact. destruct (nl_dump_routes f w.2) as [k [l|e]]; simpl in *.
  - split; [exact Hkeep|]. intros d. by apply Hexact.
  - exact Hkeep.
Qed.

Lemma kernel_add spec w :
  explicit_slot spec → candidate_shape spec →
  wp (add_route spec)
    (λ r w', same_outside spec w'.2 w.2 ∧ (r = AddAlreadyPresent → same_routes w'.2 w.2))
    (λ _ w', same_outside spec w'.2 w.2 ∧ (same_routes w'.2 w.2 ∨ image_live spec w'.2)) w.
Proof.
  intros He Hc. unfold wp, add_route, lift.
  assert (same_outside spec (nl_add_route spec w.2).1 w.2) as Hout.
  { intros d Hd. split; [by apply law_add_slot | apply law_add_keeps]. }
  pose proof (law_add_atomic spec w.2 Hc) as Hat. pose proof (law_add_present spec w.2) as Hp.
  destruct (nl_add_route spec w.2) as [k [r|e]]; simpl in *; [|done].
  split; [done|]. intros ->. by apply Hp.
Qed.

Lemma kernel_replace spec w :
  explicit_slot spec →
  wp (replace_route spec)
    (λ _ w', same_outside spec w'.2 w.2
             ∧ (candidate_shape spec → same_routes w'.2 w.2 ∨ image_live spec w'.2))
    (λ _ w', same_outside spec w'.2 w.2
             ∧ (candidate_shape spec → same_routes w'.2 w.2 ∨ image_live spec w'.2)) w.
Proof.
  intros He. unfold wp, replace_route, lift.
  pose proof (law_replace_slot spec w.2) as Hout. pose proof (law_replace_atomic spec w.2) as Hat.
  destruct (nl_replace_route spec w.2) as [k [r|e]]; simpl in *.
  all: split; [intros d Hd; by apply Hout | exact Hat].
Qed.

(** The replacement concerns the shared slot; refused it writes nothing, and
    reported as failed it wrote all or nothing. *)
Lemma kernel_replace_exact expected replacement w :
  explicit_slot replacement → rt_family expected ≠ 0 →
  wp (replace_route_if_exact expected replacement)
    (λ r w', same_outside replacement w'.2 w.2
             ∧ (r = ReplacePreconditionMismatch → same_routes w'.2 w.2))
    (λ _ w', same_outside replacement w'.2 w.2
             ∧ (candidate_shape replacement → same_routes w'.2 w.2 ∨ image_live replacement w'.2)) w.
Proof.
  intros He Hf. unfold replace_route_if_exact. destruct (_ || _); [by apply wp_ret|].
  apply wp_bind. eapply wp_mono; [apply kernel_dump| |].
  2:{ intros e w1 Hw1. split; [by apply same_routes_outside | by left]. }
  intros live w1 [Hs1 _].
  assert (same_outside replacement w1.2 w.2) as Ho1 by by apply same_routes_outside.
  destruct (scan_slot expected live) as [n o]. destruct n as [|[|n]], o; try by apply wp_ret.
  apply wp_bind. eapply wp_mono; [by apply kernel_replace| |].
  2:{ intros e w2 [Ho2 Hat]. split; [intros x Hx; by rewrite (Ho2 x), (Ho1 x)|].
      intros Hc. destruct (Hat Hc); [left; by eapply same_routes_trans | by right]. }
  intros u w2 [Ho2 Hat].
  assert (same_outside replacement w2.2 w.2) as Ho by (intros x Hx; by rewrite (Ho2 x), (Ho1 x)).
  assert (∀ k, same_routes k w2.2 → candidate_shape replacement →
               same_routes k w.2 ∨ image_live replacement k) as Hfin.
  { intros k Hk Hc. destruct (Hat Hc) as [Hs|Hi]; [left | right; by eapply image_same].
    eapply same_routes_trans; [exact Hk|]. by eapply same_routes_trans. }
  apply wp_bind. eapply wp_mono; [apply kernel_dump| |].
  2:{ intros e w3 Hw3. split; [intros d' Hd; by rewrite (Hw3 d'), (Ho d') | by apply Hfin]. }
  intros after w3 [Hs3 _].
  assert (same_outside replacement w3.2 w.2) as Ho3 by (intros d' Hd; by rewrite (Hs3 d'), (Ho d')).
  destruct (scan_replacement replacement after) as [[|[|n]] []]; simpl;
    first [by apply wp_ret | by apply wp_throw; auto].
Qed.

(** The exact delete removes at most the route it was shown and creates nothing. *)
Lemma kernel_delete_exact expected w :
  rt_family expected ≠ 0 →
  let Q := λ w' : World K,
    (∀ d, route_matches_live expected d = false → d ∈ nl_live w.2 → d ∈ nl_live w'.2)
    ∧ ∀ d, d ∈ nl_live w'.2 → d ∈ nl_live w.2 in
  wp (delete_route_if_exact expected) (λ _, Q) (λ _, Q) w.
Proof.
  intros He Q. assert (∀ w1 w2 : World K, Q w1 → same_routes w2.2 w1.2 → Q w2) as Hmove.
  { intros w1 w2 [Hq1 Hq2] Hs. split; intros d; rewrite (Hs d); [apply Hq1 | apply Hq2]. }
  assert (∀ w' : World K, same_routes w'.2 w.2 → Q w') as Hsame.
  { intros w' Hw'. by apply (Hmove w). }
  unfold delete_route_if_exact. rewrite concrete_family by done.
  apply wp_bind. eapply wp_mono; [apply kernel_dump| |]; [|by intros e w1 Hw1; apply Hsame].
  intros live w1 [Hs1 Hlive]. pose proof (Hsame w1 Hs1) as HQ1.
  destruct (scan_slot expected live) as [n o] eqn:Hscan.
  destruct n as [|[|n]], o as [c|]; try by apply wp_ret.
  pose proof (scan_slot_match _ _ _ _ Hscan) as [Hm Hc]. apply scan_slot_count in Hscan.
  symmetry in Hscan. apply filter_single in Hscan as (x & _ & Hx & Hox & Hu).
  assert (c = x) as -> by (apply Hu; [done | by apply matches_occupies]).
  apply Hlive in Hc as [Hc _].
  assert (∀ w' : World K, w'.2 = (nl_delete_route (route_spec_from_live x) w1.2).1 → Q w') as HQ.
  { intros w' Hw'. unfold Q. rewrite Hw'. split.
    - intros d Hd Hin. apply law_delete_exact; [by rewrite (Hs1 x)| |by rewrite (Hs1 d)|congruence].
      intros y Hy Hoy. rewrite (Hs1 y) in Hy.
      assert (route_occupies_same_slot expected y = true) as Hy'
        by by apply (occupies_transfer expected x y); [apply (law_live_family w.2)| |].
      apply Hu; [|done]. apply Hlive. split; [done|]. right. rewrite (live_slot _ w.2) in Hy' by done.
      by apply same_slot_eq in Hy' as (_ & _ & -> & _).
    - intros d Hin%law_delete_new. by rewrite <- (Hs1 d). }
  apply wp_bind. unfold wp at 1, delete_route, lift.
  destruct (nl_delete_route _ w1.2) as [k [u|e]] eqn:Hdel; [|by apply HQ].
  apply wp_bind. eapply wp_mono; [apply kernel_dump| |].
  - intros after w3 [Hs3 _]. pose proof (Hmove (w1.1, k) w3 (HQ (w1.1, k) eq_refl) Hs3) as HQ3.
    destruct (existsb _ _); [by apply wp_throw | by apply wp_ret].
  - intros e w3 Hs3. exact (Hmove (w1.1, k) w3 (HQ (w1.1, k) eq_refl) Hs3).
Qed.

(** In terms of slots. *)
Lemma kernel_delete_slot expected w :
  rt_family expected ≠ 0 →
  wp (delete_route_if_exact expected) (λ _ w', same_outside expected w'.2 w.2)
    (λ _ w', same_outside expected w'.2 w.2) w.
Proof.
  intros Hf. assert (∀ w' : World K,
    (∀ d, route_matches_live expected d = false → d ∈ nl_live w.2 → d ∈ nl_live w'.2)
    ∧ (∀ d, d ∈ nl_live w'.2 → d ∈ nl_live w.2) → same_outside expected w'.2 w.2) as Hout.
  { intros w' [Hkeep Hnew] d Hd. split; [apply Hnew|]. intros Hin. apply Hkeep; [|done].
    apply not_true_iff_false. intros Hm%matches_occupies. rewrite (live_slot _ w.2) in Hm by done.
    congruence. }
  eapply wp_mono; [exact (kernel_delete_exact expected w Hf)| |]; intros ? w' Hw'; by apply Hout.
Qed.

(** ** Generated routes *)

(** The specification of a route in the program's tables and protocol. *)
Definition generated_spec (spec : RouteSpec) : Prop :=
  is_generated_route_candidate (dumped_route_from_spec spec) = true.

Lemma generated_in_slot spec d :
  generated_spec spec → exact_route_same_slot spec d = true → dr_protocol d = rt_protocol spec →
  is_generated_route_candidate d = true.
Proof.
  unfold generated_spec, is_generated_route_candidate.
  intros Hg (_ & Ht & _ & _)%same_slot_eq Hp. simpl in Hg. by rewrite Hp, <- Ht.
Qed.

Lemma generated_matches spec d :
  generated_spec spec → route_matches_live spec d = true → is_generated_route_candidate d = true.
Proof.
  unfold generated_spec, is_generated_route_candidate. intros Hg Hm. apply matches_eq in Hm. simpl in Hg.
  destruct Hm as (_ & <- & _ & _ & _ & _ & _ & _ & <-). done.
Qed.

Lemma not_generated spec d :
  is_generated_route_candidate d = false → generated_spec spec →
  exact_route_same_slot spec d = true → dr_protocol d = rt_protocol spec → False.
Proof. intros Hd Hg Hs Hp. pose proof (generated_in_slot spec d Hg Hs Hp). congruence. Qed.

(** The kernel differs from [k] in generated routes of the slot only. *)
Definition confined_to (spec : RouteSpec) (k k' : K) : Prop :=
  same_outside spec k k'
  ∧ ∀ d, is_generated_route_candidate d = false → d ∈ nl_live k ↔ d ∈ nl_live k'.

Lemma confined_same spec (k k' : K) : same_routes k k' → confined_to spec k k'.
Proof. intros Hk. split; [by apply same_routes_outside | intros d _; apply Hk]. Qed.

Lemma confined_add spec w :
  explicit_slot spec → generated_spec spec →
  wp (add_route spec) (λ _ w', confined_to spec w'.2 w.2) (λ _ w', confined_to spec w'.2 w.2) w.
Proof.
  intros He Hg. assert (confined_to spec (nl_add_route spec w.2).1 w.2) as Hc.
  { split.
    - intros d Hd. split; [by apply law_add_slot | apply law_add_keeps].
    - intros d Hd. split; [|apply law_add_keeps]. intros Hin.
      destruct (exact_route_same_slot spec d) eqn:Hs; [|by eapply law_add_slot].
      apply law_add_new in Hin as [?|Hp]; [done|]. exfalso. by eapply not_generated. }
  unfold wp, add_route, lift. destruct (nl_add_route spec w.2) as [k [r|e]]; exact Hc.
Qed.

Lemma confined_replace_exact expected replacement w :
  explicit_slot replacement → rt_family expected ≠ 0 → generated_spec expected →
  generated_spec replacement → (∀ d, exact_route_same_slot expected d = exact_route_same_slot replacement d) →
  wp (replace_route_if_exact expected replacement) (λ _ w', confined_to replacement w'.2 w.2)
    (λ _ w', confined_to replacement w'.2 w.2) w.
Proof.
  intros He Hf Hge Hgr Hslot. unfold replace_route_if_exact.
  destruct (_ || _); [by apply wp_ret, confined_same|]. rewrite (concrete_family expected Hf).
  apply wp_bind. eapply wp_mono; [apply kernel_dump| |by intros e w1 Hw1; apply confined_same].
  intros live w1 [Hs1 Hlive]. pose proof (confined_same replacement _ _ Hs1) as HQ1.
  destruct (scan_slot expected live) as [n o] eqn:Hscan.
  destruct n as [|[|n]], o as [c|]; try by apply wp_ret.
  pose proof (scan_slot_match _ _ _ _ Hscan) as [Hm Hc]. apply scan_slot_count in Hscan.
  symmetry in Hscan. apply filter_single in Hscan as (x & _ & Hx & Hox & Hu).
  assert (∀ d, d ∈ nl_live w.2 → exact_route_same_slot replacement d = true →
               is_generated_route_candidate d = true) as Hin_slot.
  { intros d Hd Hsd. rewrite <- Hslot in Hsd. apply (generated_matches expected); [done|].
    assert (route_occupies_same_slot expected d = true) as Hod by by rewrite (live_slot _ w.2).
    assert (d ∈ live) as Hdl.
    { apply Hlive. split; [done|]. right. by apply same_slot_eq in Hsd as (_ & _ & -> & _). }
    rewrite (Hu d Hdl Hod), <- (Hu c Hc); [done|]. by apply matches_occupies. }
  assert (∀ k, same_routes k (nl_replace_route replacement w1.2).1 → confined_to replacement k w.2) as HQ.
  { intros k Hk. split; intros d Hd; rewrite (Hk d).
    - rewrite law_replace_slot by done. apply Hs1.
    - destruct (exact_route_same_slot replacement d) eqn:Hsd.
      2:{ rewrite law_replace_slot by done. apply Hs1. }
      split; intros Hin; exfalso.
      + apply law_replace_new in Hin as [Hin|Hp]; [|by eapply not_generated].
        rewrite (Hs1 d) in Hin. specialize (Hin_slot d Hin Hsd). congruence.
      + specialize (Hin_slot d Hin Hsd). congruence. }
  apply wp_bind. unfold wp at 1, replace_route, lift.
  destruct (nl_replace_route replacement w1.2) as [k [u|e]]; [|by apply HQ].
  apply wp_bind. eapply wp_mono; [apply kernel_dump| |by intros e w3 Hs3; apply HQ].
  intros after w3 [Hs3 _]. specialize (HQ w3.2 Hs3).
  destruct (scan_replacement replacement after) as [[|[|n]] []];
    first [by apply wp_ret | by apply wp_throw].
Qed.
End Routes.

(** ** The rule primitives *)

Section Rules.
Context {K : Type} `{HP : RulePresentLaws K}.

Definition same_identities_outside (spec : RuleSpec) (k k' : K) : Prop :=
  ∀ d, rule_occupies_same_identity spec d = false → d ∈ rl_live k ↔ d ∈ rl_live k'.

Lemma with_family_self spec : with_family (ru_family spec) spec = spec.
Proof. by destruct spec. Qed.

Lemma kernel_rule_dump f w :
  wp (dump_policy_rules f)
    (λ l w', same_rules w'.2 w.2 ∧ ∀ d, d ∈ l ↔ d ∈ rl_live w.2 ∧ (f = 0 ∨ du_family d = f))
    (λ _ w', same_rules w'.2 w.2) w.
Proof.
  unfold wp, dump_policy_rules, pm_lift. pose proof (law_rule_dump_keeps f w.2) as Hkeep.
  pose proof (law_rule_dump_exact f w.2) as Hexact.
  destruct (rl_dump_policy_rules f w.2) as [k [l|e]]; simpl in *; [|exact Hkeep].
  split; [exact Hkeep|]. intros d. by apply Hexact.
Qed.

Lemma kernel_rule_add spec w :
  wp (add_rule_for_family spec (ru_family spec))
    (λ r w', same_identities_outside spec w'.2 w.2 ∧ (r = RuleAlreadyPresent → same_rules w'.2 w.2))
    (λ _ w', same_identities_outside spec w'.2 w.2) w.
Proof.
  unfold wp, add_rule_for_family, pm_lift.
  assert (same_identities_outside spec (rl_add_rule_for_family spec (ru_family spec) w.2).1 w.2) as Ho.
  { intros d Hd. split; [|apply law_rule_add_keeps].
    intros [?|Hm]%law_rule_add_new; [done|]. rewrite identity_matches in Hd.
    rewrite with_family_self in Hm. congruence. }
  pose proof (law_rule_add_present spec (ru_family spec) w.2) as Hp.
  destruct (rl_add_rule_for_family _ _ w.2) as [k [r|e]]; simpl in *; [|done].
  split; [done|]. intros ->. by apply Hp.
Qed.

Lemma kernel_rule_delete_exact spec w :
  explicit_rule spec →
  let Q := λ w' : RuleWorld K, same_identities_outside spec w'.2 w.2
                    ∧ ∀ d, d ∈ rl_live w'.2 → d ∈ rl_live w.2 in
  wp (delete_rule_if_exact spec (ru_family spec)) (λ _, Q) (λ _, Q) w.
Proof.
  intros He Q. unfold delete_rule_if_exact.
  rewrite with_family_self.
  assert (∀ w' : RuleWorld K, same_rules w'.2 w.2 → Q w') as Hsame.
  { intros w' Hw'. split; [intros d _; apply Hw' | intros d; apply Hw']. }
  assert (∀ w1 w2 : RuleWorld K, Q w1 → same_rules w2.2 w1.2 → Q w2) as Hmove.
  { intros w1 w2 [H1 H2] Hw. split; [intros d Hd; by rewrite (Hw d), (H1 d)|].
    intros d. rewrite (Hw d). apply H2. }
  destruct (_ && _); [by apply wp_ret, Hsame|].
  apply wp_bind. eapply wp_mono; [apply kernel_rule_dump| |]; [|by intros e w1 Hw1; apply Hsame].
  intros live w1 [Hs1 Hlive]. pose proof (Hsame w1 Hs1) as HQ1.
  destruct (scan_identity spec live) as [[|[|n]] []]; try by apply wp_ret.
  assert (∀ w', w'.2 = (rl_delete_rule_for_family spec (ru_family spec) w1.2).1 → Q w') as HQ.
  { intros w' Hw'. unfold Q. rewrite Hw'. split.
    - intros d Hd. rewrite <- (Hs1 d). split; [apply law_rule_delete_new|]. intros Hin.
      apply law_rule_delete_keeps; [done|done|]. rewrite identity_matches in Hd.
      by rewrite with_family_self.
    - intros d Hin%law_rule_delete_new. by rewrite <- (Hs1 d). }
  apply wp_bind. unfold wp at 1, delete_rule_for_family, pm_lift.
  destruct (rl_delete_rule_for_family _ _ w1.2) as [k [u|e]]; [|by apply HQ].
  apply wp_bind. eapply wp_mono; [apply kernel_rule_dump| |].
  - intros after w3 [Hs3 _]. assert (Q w3) by (eapply Hmove; [by apply (HQ (w1.1, k))|exact Hs3]).
    destruct (existsb _ _); [by apply wp_throw | by apply wp_ret].
  - intros e w3 Hs3. eapply Hmove; [by apply (HQ (w1.1, k))|exact Hs3].
Qed.
End Rules.
