(* ===== verification/TransactionPlanFacts.v ===== *)
(** * The exact routing transaction: what a plan guarantees

    Every mutation and every cleanup of a plan accepted by [build_plan], related
    to the request and to the inventory it was planned from: a created route or
    rule had an empty slot or identity, a replaced route was the only route of its
    slot and is its own preimage, and everything to be deleted is generated or
    owned, explicit, and not desired. *)

From Stdlib Require Import ZArith Lia Ascii String.
From stdpp Require Import base gmap strings list.
From S2P Require Import Prelude ConfigTypes RoutingPlan KernelRoutes ListParser StateError.
From S2P Require Import RouteTable RouteTableSafety RouteTableConverge.
From S2P Require Import PolicyRules PolicyRulesSafety TransactionPlan Transaction TransactionKernel.
Open Scope Z_scope.

Definition route_receipted (m : PlannedRouteMutation) : bool :=
  pmr_created_receipt m || pmr_replacement_receipt m.

(** What a planned route mutation promises of the inventory [S]. *)
Record planned_route `{Inet} (request : TransactionRequest) (S : DumpedRoute → Prop)
    (m : PlannedRouteMutation) : Prop := {
  planned_desired : pmr_candidate m ∈ tq_desired_routes request;
  planned_slot : explicit_slot (pmr_candidate m);
  planned_shape : candidate_shape (pmr_candidate m);
  planned_managed : managed (pmr_candidate m);
  planned_preimage : pmr_replace m = true → ∃ p,
    pmr_preimages m = [route_spec_from_live p] ∧ dr_exact_identity_representable p = true
    ∧ is_generated_route_candidate p = true ∧ exact_route_same_slot (pmr_candidate m) p = true
    ∧ ∀ d, exact_route_same_slot (pmr_candidate m) d = true → S d ↔ d = p;
  planned_empty : pmr_replace m = false →
    ∀ d, exact_route_same_slot (pmr_candidate m) d = true → ¬ S d;
  planned_no_preimage : pmr_replace m = false → pmr_preimages m = [];
  planned_created : pmr_created_receipt m = true → pmr_replace m = false;
  planned_replaced : pmr_replacement_receipt m = true → pmr_replace m = true;
}.

Record planned_rule (request : TransactionRequest) (S : DumpedRule → Prop)
    (m : PlannedRuleMutation) : Prop := {
  planned_rule_desired : pmu_candidate m ∈ concrete_rules (tq_desired_rules request);
  planned_rule_explicit : explicit_rule (pmu_candidate m);
  planned_rule_empty :
    ∀ d, rule_occupies_same_identity (pmu_candidate m) d = true → ¬ S d;
}.

Record stale_rule_planned (request : TransactionRequest) (r : RuleSpec) : Prop := {
  stale_rule_explicit : explicit_rule r;
  stale_rule_not_desired : r ∉ concrete_rules (tq_desired_rules request);
  stale_rule_origin : r ∈ concrete_rules (tq_prior_owned_rules request)
    ∨ (tq_allow_recovery_rule_heuristic request = true ∧ ru_priority r = ru_table r);
}.

(** ** Checks *)

Lemma check_each_none {A} (check : A → option PlanError) l :
  check_each check l = None → ∀ x, x ∈ l → check x = None.
Proof.
  induction l as [|y l IH]; simpl; [by intros _ x Hx%elem_of_nil|].
  destruct (check y) eqn:Hy; [done|]. intros Hl x [->|Hx]%elem_of_cons; auto.
Qed.

Lemma unless_none b e : unless b e = None ↔ b = true.
Proof. by destruct b. Qed.

Lemma first_error_cons {A} (c : A → option PlanError) cs x :
  first_error (c :: cs) x = None ↔ c x = None ∧ first_error cs x = None.
Proof. simpl. destruct (c x); naive_solver. Qed.

Lemma generated_facts d :
  is_generated_route_candidate d = true →
  dr_protocol d = KEEN_PBR_GENERATED_ROUTE_PROTOCOL ∧ dr_table d ≠ 0.
Proof.
  unfold is_generated_route_candidate. rewrite !andb_true_iff, negb_true_iff, Z.eqb_eq, Z.eqb_neq. tauto.
Qed.

Lemma check_candidate_facts `{Inet} c : check_candidate c = None → explicit_slot c ∧ managed c.
Proof.
  unfold check_candidate. rewrite !first_error_cons, !unless_none, orb_true_iff, String.eqb_eq, !Z.eqb_eq.
  intros (Hf & Hd & _ & _ & _ & _ & _ & Hg & _). apply generated_facts in Hg as [Hp Ht]. done.
Qed.

(** ** Routes *)

Lemma collisions_facts c l collisions :
  collect_collisions c l = Ok collisions →
  (collisions = [] ∧ ∀ d, d ∈ l → exact_route_same_slot c d = false)
  ∨ ∃ p, collisions = [route_spec_from_live p] ∧ dr_exact_identity_representable p = true
         ∧ is_generated_route_candidate p = true ∧ exact_route_same_slot c p = true
         ∧ ∀ d, exact_route_same_slot c d = true → d ∈ l ↔ d = p.
Proof.
  unfold collect_collisions. destruct (forallb _ _) eqn:Hall; [|done].
  destruct (1 <? _)%nat eqn:Hlt; [done|]. intros [= <-]. apply Nat.ltb_ge in Hlt.
  destruct (Nat.eq_dec (length (List.filter (exact_route_same_slot c) l)) 0%nat) as [H0|H0].
  - left. rewrite (nil_length_inv _ H0). split; [done|]. by apply filter_nil.
  - right. destruct (filter_single (exact_route_same_slot c) l) as (p & Hp & Hin & Hs & Hu); [lia|].
    rewrite Hp in Hall |- *. simpl in Hall. rewrite !andb_true_iff in Hall. exists p.
    split; [done|]. split; [tauto|]. split; [tauto|]. split; [done|].
    intros d Hd. split; [intros; by apply Hu | by intros ->].
Qed.

Section Facts.
Context `{Inet} (request : TransactionRequest).

Lemma planned_mutation l c collisions journal :
  c ∈ tq_desired_routes request → candidate_shape c → collect_collisions c l = Ok collisions →
  let m := (plan_route_mutation c collisions journal).1 in
  planned_route request (.∈ l) m ∧ route_receipted m = false.
Proof.
  intros Hin Hc Hcol m. destruct (check_candidate_facts c (proj1 Hc)) as [Hs Hm].
  split; [|done]. destruct (collisions_facts _ _ _ Hcol) as [[-> Hempty]|(p & -> & Hp)];
    split; simpl; try done.
  - intros _ d Hd Hl. by rewrite Hempty in Hd.
  - intros _. exists p. tauto.
Qed.

(** Induction over the accepted candidates. *)
Lemma plan_routes_ind (P : list PlannedRouteMutation → list JournalEntry → Prop)
    l earlier rest mutations journal mutations' journal' :
  plan_candidate_routes l earlier rest mutations journal = Ok (mutations', journal') →
  P mutations journal →
  (∀ c collisions ms j, c ∈ rest → check_candidate c = None → collect_collisions c l = Ok collisions →
     P ms j → P (ms ++ [(plan_route_mutation c collisions j).1]) (plan_route_mutation c collisions j).2) →
  P mutations' journal'.
Proof.
  revert earlier mutations journal.
  induction rest as [|c rest IH]; intros earlier mutations journal Hplan HP Hstep; simpl in Hplan.
  { by injection Hplan as <- <-. }
  assert (∀ e ms j, plan_candidate_routes l e rest ms j = Ok (mutations', journal') →
            P ms j → P mutations' journal') as Hnext.
  { intros e ms j Hms Hj. eapply IH; [exact Hms|done|]. intros c' col ms' j' Hc'. apply Hstep. by right. }
  destruct (check_candidate c) eqn:Hc; [done|]. destruct (check_earlier c earlier) as [dup|e]; [|done].
  simpl in Hplan. destruct dup; [by eapply Hnext|].
  assert (∀ b : bool, (if b then Throw RouteNotOnlyImage
     else match collect_collisions c l with
          | Ok collisions => let '(m, j) := plan_route_mutation c collisions journal in
               plan_candidate_routes l (earlier ++ [c]) rest (mutations ++ [m]) j
          | Throw e => Throw e
          end) = Ok (mutations', journal') → P mutations' journal') as Hgo.
  { intros []; [done|]. destruct (collect_collisions c l) as [col|e] eqn:Hcol; [|done].
    pose proof (Hstep c col mutations journal ltac:(by left) Hc Hcol HP) as Hm.
    destruct (plan_route_mutation c col journal) as [m j]. intros Hok. by eapply Hnext. }
  destruct (exact_slot_state c l) eqn:Hs; [|by eapply Hnext|];
    exact (Hgo (negb (is_slot_empty (exact_slot_state c l)) && route_present c l)
             ltac:(by rewrite Hs)).
Qed.

Lemma plan_routes_facts l earlier rest journal mutations' journal' :
  plan_candidate_routes l earlier rest [] journal = Ok (mutations', journal') →
  (∀ c, c ∈ rest → c ∈ tq_desired_routes request ∧ 0 ≤ rt_metric c) →
  Forall (λ m, planned_route request (.∈ l) m ∧ route_receipted m = false) mutations'.
Proof.
  intros Hplan Hrest. eapply (plan_routes_ind (λ ms _, Forall _ ms)); [exact Hplan|done|].
  intros c col ms j Hc Hcheck Hcol Hms. destruct (Hrest c Hc) as [Hin Hm].
  apply Forall_app. split; [done|]. apply Forall_singleton. by apply planned_mutation.
Qed.

(** ** Rules *)

Lemma plan_rules_ind (P : list PlannedRuleMutation → list JournalEntry → Prop)
    lr l rest mutations journal mutations' journal' :
  plan_candidate_rules request lr l rest mutations journal = Ok (mutations', journal') →
  P mutations journal →
  (∀ c ms j, c ∈ rest → P ms j → P ms (j ++ [observed_rule_entry c])) →
  (∀ c ms j, c ∈ rest → exact_rule_state c l = SlotEmpty → P ms j →
     P (ms ++ [{| pmu_candidate := c; pmu_forward_journal := length j;
                  pmu_rollback_journal := S (length j); pmu_created_receipt := false |}])
       (j ++ [rule_entry JAddCandidateRule c; rule_entry JRollbackCreatedRule c])) →
  P mutations' journal'.
Proof.
  revert mutations journal.
  induction rest as [|c rest IH]; intros mutations journal Hplan HP Hobs Hadd; simpl in Hplan.
  { by injection Hplan as <- <-. }
  assert (∀ ms j, plan_candidate_rules request lr l rest ms j = Ok (mutations', journal') →
            P ms j → P mutations' journal') as Hnext.
  { intros ms j Hms Hj. eapply IH; [exact Hms|done| |].
    - intros c' ms' j' Hc'. apply Hobs. by right.
    - intros c' ms' j' Hc'. apply Hadd. by right. }
  destruct (exact_rule_state c l) eqn:Hstate; [| |done].
  - eapply Hnext; [exact Hplan|]. apply Hadd; [by left|done|done].
  - eapply Hnext; [exact Hplan|]. destruct (recovered_anchor _ _ _); [|done]. apply Hobs; [by left|done].
Qed.

Lemma plan_rules_facts lr l rest journal mutations' journal' :
  plan_candidate_rules request lr l rest [] journal = Ok (mutations', journal') →
  (∀ c, c ∈ rest → c ∈ concrete_rules (tq_desired_rules request) ∧ explicit_rule c) →
  Forall (λ m, planned_rule request (.∈ l) m ∧ pmu_created_receipt m = false) mutations'.
Proof.
  intros Hplan Hrest. eapply (plan_rules_ind (λ ms _, Forall _ ms)); [exact Hplan|done|done|].
  intros c ms j Hc Hstate Hms. destruct (Hrest c Hc) as [Hcin Hce].
  apply Forall_app. split; [done|]. apply Forall_singleton. split; [|done]. split; simpl; [done|done|].
  intros d Hd Hl. pose proof (proj1 (rule_empty c l) Hstate d Hl). congruence.
Qed.

Lemma push_rule_once_elem l r x : x ∈ push_rule_once l r ↔ x ∈ l ∨ x = r.
Proof.
  unfold push_rule_once. destruct (existsb _ _) eqn:Hex.
  - apply existsb_exists in Hex as (c & Hc & ->%rules_equal_eq). apply list_elem_of_In in Hc.
    naive_solver.
  - rewrite elem_of_app, list_elem_of_singleton. done.
Qed.

Lemma concrete_rules_elem rules x :
  x ∈ concrete_rules rules ↔ ∃ r f, r ∈ rules ∧ f ∈ families_of r ∧ x = with_family f r.
Proof.
  unfold concrete_rules.
  assert (∀ l acc, x ∈ fold_left (λ concrete logical,
      if ru_family logical =? 0
      then fold_left (λ l family, push_rule_once l (with_family family logical))
             [AF_INET; AF_INET6] concrete
      else push_rule_once concrete logical) l acc
    ↔ x ∈ acc ∨ ∃ r f, r ∈ l ∧ f ∈ families_of r ∧ x = with_family f r) as Hgen.
  { induction l as [|r l IH]; intros acc; simpl.
    { split; [by left|]. intros [?|(? & ? & ?%elem_of_nil & _)]; done. }
    rewrite IH. clear IH. setoid_rewrite elem_of_cons. unfold families_of at 1.
    assert ((x ∈ (if ru_family r =? 0
         then push_rule_once (push_rule_once acc (with_family AF_INET r)) (with_family AF_INET6 r)
         else push_rule_once acc r))
       ↔ x ∈ acc ∨ ∃ f, f ∈ families_of r ∧ x = with_family f r) as Hstep.
    { unfold families_of. destruct (Z.eqb_spec (ru_family r) 0); simpl.
      - rewrite !push_rule_once_elem. setoid_rewrite elem_of_cons.
        setoid_rewrite list_elem_of_singleton. naive_solver.
      - rewrite push_rule_once_elem. setoid_rewrite list_elem_of_singleton.
        split; [intros [?| ->]; [by left|right; exists (ru_family r); by rewrite with_family_self]|].
        intros [?|(f & -> & ->)]; [by left|]. rewrite with_family_self. by right. }
    rewrite Hstep. clear Hstep. naive_solver. }
  rewrite (Hgen rules []). split; [|by right]. intros [?%elem_of_nil|?]; done.
Qed.

Lemma concrete_explicit rules r :
  (∀ x, x ∈ rules → explicit_identity x = true) → r ∈ concrete_rules rules → explicit_rule r.
Proof.
  intros Hall (x & f & Hx & _ & ->)%concrete_rules_elem. specialize (Hall x Hx).
  unfold explicit_identity in Hall. rewrite negb_true_iff, !orb_false_iff, !Z.eqb_neq in Hall.
  unfold explicit_rule. simpl. tauto.
Qed.

Lemma check_rules_facts :
  check_rules request = None →
  (∀ r, r ∈ tq_desired_rules request → explicit_identity r = true ∧ known_rule_family r = true)
  ∧ (∀ r, r ∈ tq_prior_owned_rules request → explicit_identity r = true ∧ known_rule_family r = true).
Proof.
  unfold check_rules. destruct (check_each check_authority _); [done|].
  destruct (check_each _ (tq_desired_rules request)) eqn:H1; [done|].
  destruct (check_each _ (tq_prior_owned_rules request)) eqn:H2; [done|]. intros _.
  split; intros r Hr; [pose proof (check_each_none _ _ H1 r Hr) as Hc
                      |pose proof (check_each_none _ _ H2 r Hr) as Hc];
    rewrite !first_error_cons, !unless_none in Hc; tauto.
Qed.

Lemma orphan_facts live tables r :
  (∀ x, x ∈ tq_desired_rules request → explicit_identity x = true) → (∀ t, t ∈ tables → t ≠ 0) →
  tq_allow_recovery_rule_heuristic request = true →
  r ∈ find_orphaned_generated_rules (tq_desired_rules request) live tables →
  stale_rule_planned request r.
Proof.
  intros Hdes Htab Hallow. unfold find_orphaned_generated_rules.
  intros (d & -> & Hd)%list_elem_of_fmap. apply elem_of_filter in Hd as [_ Hb].
  rewrite !andb_true_iff, !negb_true_iff, !orb_false_iff, !negb_false_iff, bool_decide_eq_true, Z.eqb_eq in Hb.
  destruct Hb as [[[[[_ _] Hprio] Htable] Hmark] Hnot]. split.
  - apply existsb_exists in Hmark as (x & Hx%list_elem_of_In & Hm). specialize (Hdes x Hx).
    unfold explicit_identity in Hdes. rewrite negb_true_iff, !orb_false_iff, !Z.eqb_neq in Hdes.
    rewrite andb_true_iff, !Z.eqb_eq in Hm. destruct Hm as [Hm1 Hm2]. specialize (Htab _ Htable).
    unfold explicit_rule. simpl. rewrite Hprio, <- Hm1, <- Hm2. tauto.
  - intros (x & f & Hx & Hf & Heq)%concrete_rules_elem. apply not_true_iff_false in Hnot. apply Hnot.
    apply existsb_exists. exists x. split; [by apply list_elem_of_In|].
    assert (f = du_family d) as -> by by injection Heq.
    rewrite andb_true_iff, orb_true_iff, !Z.eqb_eq. split.
    + unfold families_of in Hf. destruct (Z.eqb_spec (ru_family x) 0); [by left|].
      apply list_elem_of_singleton in Hf. by right.
    + rewrite <- Heq. unfold rule_matches_live. simpl. by rewrite !Z.eqb_refl.
  - by right.
Qed.

Lemma stale_rules_elem live tables r :
  r ∈ plan_stale_rules request live tables →
  (tq_allow_recovery_rule_heuristic request = true
   ∧ r ∈ find_orphaned_generated_rules (tq_desired_rules request) live tables)
  ∨ (r ∈ concrete_rules (tq_prior_owned_rules request) ∧ r ∉ concrete_rules (tq_desired_rules request)).
Proof.
  unfold plan_stale_rules. set (desired := concrete_rules (tq_desired_rules request)).
  set (base := if tq_allow_recovery_rule_heuristic request then _ else _).
  assert (∀ l acc, r ∈ fold_left (λ stale prior,
      if negb (rule_present prior live) then stale
      else if negb (existsb (λ d, rules_equal d prior) desired)
              && negb (existsb (λ s, rules_equal s prior) stale)
      then stale ++ [prior] else stale) l acc →
    r ∈ acc ∨ (r ∈ l ∧ r ∉ desired)) as Hgen.
  { induction l as [|prior l IH]; intros acc; simpl; [by left|].
    intros [Hacc|[Hl Hd]]%IH; [|right; split; [by right|done]]. clear IH.
    destruct (negb (rule_present prior live)); [by left|].
    destruct (negb (existsb _ desired) && _) eqn:Hb; [|by left].
    apply elem_of_app in Hacc as [?| ->%list_elem_of_singleton]; [by left|]. right. split; [by left|].
    intros Hd. apply andb_true_iff in Hb as [Hb _]. apply negb_true_iff, not_true_iff_false in Hb.
    apply Hb, existsb_exists. exists prior. split; [by apply list_elem_of_In | by apply rules_equal_eq]. }
  intros [Hb|?]%Hgen; [left|by right]. unfold base in Hb.
  destruct (tq_allow_recovery_rule_heuristic request); [done|]. by apply elem_of_nil in Hb.
Qed.

(** A live rule of the prior ledger that is no longer desired is planned stale. *)
Lemma stale_rules_complete live tables prior :
  prior ∈ concrete_rules (tq_prior_owned_rules request) →
  prior ∉ concrete_rules (tq_desired_rules request) → rule_present prior live = true →
  prior ∈ plan_stale_rules request live tables.
Proof.
  unfold plan_stale_rules. set (desired := concrete_rules (tq_desired_rules request)).
  generalize (if tq_allow_recovery_rule_heuristic request
    then find_orphaned_generated_rules (tq_desired_rules request) live tables else []).
  intros base Hin Hnd Hp. revert base Hin.
  set (step := λ (stale : list RuleSpec) (p : RuleSpec), _).
  assert (∀ l acc, prior ∈ acc → prior ∈ fold_left step l acc) as Hkeep.
  { induction l as [|x l IH]; intros acc Ha; simpl; [done|]. apply IH. unfold step.
    destruct (negb _); [done|]. destruct (_ && _); [|done]. apply elem_of_app. by left. }
  induction (concrete_rules (tq_prior_owned_rules request)) as [|x l IH]; intros base Hin; simpl.
  { by apply elem_of_nil in Hin. }
  apply elem_of_cons in Hin as [<-|Hin]; [|by apply IH]. apply Hkeep. unfold step. rewrite Hp. simpl.
  assert (existsb (λ d, rules_equal d prior) desired = false) as ->.
  { apply not_true_iff_false. intros (d & Hd & ->%rules_equal_eq)%existsb_exists.
    by apply Hnd, list_elem_of_In. }
  simpl. destruct (existsb _ base) eqn:Hex; simpl.
  - apply existsb_exists in Hex as (d & Hd & ->%rules_equal_eq). by apply list_elem_of_In.
  - apply elem_of_app. right. by left.
Qed.

Lemma stale_routes_elem live s :
  s ∈ plan_stale_routes request live ↔
  ∃ d, s = route_spec_from_live d ∧ d ∈ live ∧ is_generated_route_candidate d = true
       ∧ (∀ c, c ∈ tq_desired_routes request → exact_route_same_slot c d = false).
Proof.
  unfold plan_stale_routes. rewrite list_elem_of_fmap. setoid_rewrite elem_of_filter.
  assert (∀ (p : RouteSpec → bool), existsb p (tq_desired_routes request) = false ↔
            ∀ c, c ∈ tq_desired_routes request → p c = false) as Hnone.
  { intros p. rewrite <- not_true_iff_false, existsb_exists. setoid_rewrite <- list_elem_of_In.
    split.
    - intros Hn c Hc. apply not_true_iff_false. naive_solver.
    - intros Hp (c & Hc & Ht). by rewrite Hp in Ht. }
  split.
  - intros (d & -> & Hd & Hb). rewrite !andb_true_iff, !negb_true_iff in Hb.
    destruct Hb as [[Hg _] Hs]. exists d. by rewrite <- Hnone.
  - intros (d & -> & Hd & Hg & Hs). exists d. rewrite !andb_true_iff, !negb_true_iff, !Hnone.
    split_and!; try done.
    intros c Hc. apply not_true_iff_false. rewrite exact_matches_eq. rewrite Hs by done. naive_solver.
Qed.

(** ** The plan *)

Record plan_facts (lr : list DumpedRoute) (lu : list DumpedRule) (plan : Plan) : Prop := {
  facts_routes : Forall (λ m, planned_route request (.∈ lr) m ∧ route_receipted m = false) (pl_routes plan);
  facts_rules : Forall (λ m, planned_rule request (.∈ lu) m ∧ pmu_created_receipt m = false) (pl_rules plan);
  facts_stale_rules : ∀ c, c ∈ pl_stale_rules plan → stale_rule_planned request (pcu_stale c);
  facts_stale_complete : ∀ prior,
    prior ∈ concrete_rules (tq_prior_owned_rules request) →
    prior ∉ concrete_rules (tq_desired_rules request) → rule_present prior lu = true →
    ∃ c, c ∈ pl_stale_rules plan ∧ pcu_stale c = prior;
  facts_stale_routes : ∀ c, c ∈ pl_stale_routes plan → pcr_stale c ∈ plan_stale_routes request lr;
  facts_stale_routes_complete : ∀ s, s ∈ plan_stale_routes request lr →
    ∃ c, c ∈ pl_stale_routes plan ∧ pcr_stale c = s;
}.

Lemma zip_seq_elem {A B} (f : A → nat → B) (g : B → A) l start :
  (∀ a i, g (f a i) = a) →
  (∀ b, b ∈ zip_with f l (seq start (length l)) → g b ∈ l)
  ∧ ∀ a, a ∈ l → ∃ b, b ∈ zip_with f l (seq start (length l)) ∧ g b = a.
Proof.
  intros Hg. revert start. induction l as [|x l IH]; intros start; simpl.
  - split; intros ? ?%elem_of_nil; done.
  - destruct (IH (S start)) as [IH1 IH2]. split.
    + intros b [->|Hb]%elem_of_cons; [rewrite Hg; by left | right; by apply IH1].
    + intros a [->|Ha]%elem_of_cons; [exists (f x start); split; [by left|done]|].
      destruct (IH2 a Ha) as (b & Hb & <-). exists b. split; [by right|done].
Qed.

Lemma build_plan_facts lr lu plan :
  build_plan request lr lu = Ok plan → (∀ c, c ∈ tq_desired_routes request → 0 ≤ rt_metric c) →
  plan_facts lr lu plan.
Proof.
  unfold build_plan. intros Hb Hmetric. destruct (check_rules request) eqn:Hcheck; [done|].
  destruct (check_rules_facts Hcheck) as [Hdes Hprior].
  assert (∀ x, x ∈ tq_desired_rules request → explicit_identity x = true) as Hdes'
    by (intros x Hx; by apply Hdes).
  apply rbind_ok in Hb as ((muts & j1) & Hr & Hb).
  apply rbind_ok in Hb as ((rmuts & j2) & Hu & Hb). injection Hb as <-.
  set (tables := list_to_set _ : gset Z) in *.
  assert (∀ t, t ∈ tables → t ≠ 0) as Htab.
  { intros t (d & -> & Hd)%elem_of_list_to_set%list_elem_of_fmap.
    apply elem_of_filter in Hd as [_ [_ Hg]%andb_true_iff]. by apply generated_facts in Hg as [_ ?]. }
  split; simpl.
  - eapply plan_routes_facts; [exact Hr|]. intros c Hc. split; [done|by apply Hmetric].
  - eapply plan_rules_facts; [exact Hu|]. intros c Hc. split; [done|].
    by eapply concrete_explicit.
  - intros c Hc. apply (zip_seq_elem _ pcu_stale) in Hc; [|done].
    apply stale_rules_elem in Hc as [[Ha Ho]|[Hp Hd]]; [by eapply orphan_facts|].
    split; [|done|by left]. eapply concrete_explicit; [|exact Hp]. intros x Hx. by apply Hprior.
  - intros prior H1 H2 H3. apply (zip_seq_elem _ pcu_stale); [done|]. by apply stale_rules_complete.
  - intros c Hc. by apply (zip_seq_elem _ pcr_stale) in Hc.
  - intros s Hs. by apply (zip_seq_elem _ pcr_stale).
Qed.
End Facts.

(** ** The journal of a plan *)

(** What an entry says will be done. *)
Definition payload (e : JournalEntry) : JournalOperation * option RouteSpec * option RuleSpec :=
  (je_operation e, je_route e, je_rule e).

(** The entry at [i] announces [op] with its operand. *)
Definition announces (j : list JournalEntry) (i : nat) (op : JournalOperation)
    (route : option RouteSpec) (rule : option RuleSpec) : Prop :=
  payload <$> j !! i = Some (op, route, rule).

Record route_indexed (j : list JournalEntry) (m : PlannedRouteMutation) : Prop := {
  indexed_forward : announces j (pmr_forward_journal m)
    (if pmr_replace m then JReplaceCandidateRoute else JAddCandidateRoute)
    (Some (pmr_candidate m)) None;
  indexed_rollback : if pmr_replace m
    then Forall2 (λ i p, announces j i JRestoreReplacedRoute (Some p) None)
           (pmr_rollback_journals m) (pmr_preimages m)
    else ∃ i, pmr_rollback_journals m = [i]
              ∧ announces j i JRollbackCreatedRoute (Some (pmr_candidate m)) None;
}.

Record rule_indexed (j : list JournalEntry) (m : PlannedRuleMutation) : Prop := {
  indexed_rule_forward :
    announces j (pmu_forward_journal m) JAddCandidateRule None (Some (pmu_candidate m));
  indexed_rule_rollback :
    announces j (pmu_rollback_journal m) JRollbackCreatedRule None (Some (pmu_candidate m));
}.

Lemma announces_app j j' i op route rule : announces j i op route rule → announces (j ++ j') i op route rule.
Proof.
  unfold announces. intros Hj. destruct (j !! i) as [e|] eqn:Hi; [|done].
  by rewrite lookup_app_l by (by eapply lookup_lt_Some); rewrite Hi.
Qed.

Lemma announces_last j e l : announces (j ++ e :: l) (length j) (je_operation e) (je_route e) (je_rule e).
Proof. unfold announces. by rewrite list_lookup_middle. Qed.

Lemma route_indexed_app j j' m : route_indexed j m → route_indexed (j ++ j') m.
Proof.
  intros [Hf Hr]. split; [by apply announces_app|]. destruct (pmr_replace m).
  - eapply Forall2_impl; [exact Hr|]. intros i p. apply announces_app.
  - destruct Hr as (i & -> & Hi). exists i. split; [done|]. by apply announces_app.
Qed.

Lemma rule_indexed_app j j' m : rule_indexed j m → rule_indexed (j ++ j') m.
Proof. intros [Hf Hr]. split; by apply announces_app. Qed.

Lemma announces_block (f : RouteSpec → JournalEntry) op (Hf : ∀ p, payload (f p) = (op, Some p, None))
    l j j' :
  Forall2 (λ i p, announces (j ++ (f <$> l) ++ j') i op (Some p) None) (seq (length j) (length l)) l.
Proof.
  revert j. induction l as [|p l IH]; intros j; simpl; constructor.
  - unfold announces. rewrite list_lookup_middle by done. simpl. by rewrite Hf.
  - specialize (IH (j ++ [f p])). rewrite length_app in IH. simpl in IH.
    rewrite Nat.add_1_r, <- (assoc_L (++)) in IH. exact IH.
Qed.

Lemma route_mutation_indexed c collisions journal :
  let '(m, j) := plan_route_mutation c collisions journal in
  route_indexed j m ∧ ∃ l, j = journal ++ l.
Proof.
  unfold plan_route_mutation. split; [|by eexists]. split; simpl.
  - apply announces_last.
  - destruct (negb (bool_decide (collisions = []))) eqn:Hrep; simpl.
    + pose proof (announces_block (route_entry JRestoreReplacedRoute) JRestoreReplacedRoute
        (λ p, eq_refl) collisions (journal ++ [route_entry JReplaceCandidateRoute c]) []) as Hb.
      rewrite length_app in Hb. simpl in Hb. rewrite Nat.add_1_r, app_nil_r, <- (assoc_L (++)) in Hb.
      exact Hb.
    + exists (S (length journal)). split; [done|].
      pose proof (announces_last (journal ++ [route_entry JAddCandidateRoute c])
        (route_entry JRollbackCreatedRoute c) []) as Hl.
      rewrite length_app in Hl. simpl in Hl. rewrite Nat.add_1_r, <- (assoc_L (++)) in Hl. exact Hl.
Qed.

Lemma routes_indexed `{Inet} l earlier rest mutations' journal' :
  plan_candidate_routes l earlier rest [] [] = Ok (mutations', journal') →
  Forall (route_indexed journal') mutations'.
Proof.
  intros Hplan. apply (plan_routes_ind (λ ms j, Forall (route_indexed j) ms) _ _ _ _ _ _ _ Hplan);
    [done|].
  intros c col ms j _ _ _ Hms. pose proof (route_mutation_indexed c col j) as Hm.
  destruct (plan_route_mutation c col j) as [m j']. destruct Hm as [Hm (ext & ->)]. simpl.
  apply Forall_app. split; [|by apply Forall_singleton].
  eapply Forall_impl; [exact Hms|]. intros x. apply route_indexed_app.
Qed.

Lemma rules_indexed request lr l rest journal mutations' journal' :
  plan_candidate_rules request lr l rest [] journal = Ok (mutations', journal') →
  Forall (rule_indexed journal') mutations' ∧ ∃ ext, journal' = journal ++ ext.
Proof.
  intros Hplan. apply (plan_rules_ind request (λ ms j, Forall (rule_indexed j) ms ∧ ∃ ext, j = journal ++ ext)
    _ _ _ _ _ _ _ Hplan).
  - split; [done|]. exists []. by rewrite app_nil_r.
  - intros c ms j _ [Hms (ext & ->)]. split; [|exists (ext ++ [observed_rule_entry c]); by rewrite (assoc_L (++))].
    eapply Forall_impl; [exact Hms|]. intros x. apply rule_indexed_app.
  - intros c ms j _ _ [Hms Hext]. split.
    + apply Forall_app. split.
      * eapply Forall_impl; [exact Hms|]. intros x. apply rule_indexed_app.
      * apply Forall_singleton. split; simpl; [apply announces_last|].
        pose proof (announces_last (j ++ [rule_entry JAddCandidateRule c])
          (rule_entry JRollbackCreatedRule c) []) as Hl.
        rewrite length_app in Hl. simpl in Hl. rewrite Nat.add_1_r, <- (assoc_L (++)) in Hl. exact Hl.
    + destruct Hext as (ext & ->). eexists. by rewrite <- (assoc_L (++)).
Qed.

(** The entries of a cleanup list, at the indices the list was zipped with. *)
Lemma cleanup_indexed {A B} (f : A → JournalEntry) (mk : A → nat → B) (stale : B → A) (index : B → nat)
    (Hmk : ∀ a i, stale (mk a i) = a ∧ index (mk a i) = i) l j j' :
  ∀ c, c ∈ zip_with mk l (seq (length j) (length l)) →
       payload <$> (j ++ (f <$> l) ++ j') !! index c = Some (payload (f (stale c))).
Proof.
  revert j. induction l as [|a l IH]; intros j c; simpl; [by intros ?%elem_of_nil|].
  intros [->|Hc]%elem_of_cons.
  - destruct (Hmk a (length j)) as [-> ->]. by rewrite list_lookup_middle.
  - specialize (IH (j ++ [f a]) c). rewrite length_app in IH. simpl in IH.
    rewrite Nat.add_1_r, <- (assoc_L (++)) in IH. by apply IH.
Qed.

(** The indices of the plan are those of its journal. *)
Record plan_indexed (plan : Plan) : Prop := {
  indexed_routes : Forall (route_indexed (pl_journal plan)) (pl_routes plan);
  indexed_rules : Forall (rule_indexed (pl_journal plan)) (pl_rules plan);
  indexed_verify : announces (pl_journal plan) (pl_candidate_verify_journal plan) JVerifyCandidate None None;
  indexed_stale_rules : ∀ c, c ∈ pl_stale_rules plan →
    announces (pl_journal plan) (pcu_journal c) JDeleteStaleRule None (Some (pcu_stale c));
  indexed_absence :
    announces (pl_journal plan) (pl_stale_absence_journal plan) JVerifyStaleRuleAbsence None None;
  indexed_stale_routes : ∀ c, c ∈ pl_stale_routes plan →
    announces (pl_journal plan) (pcr_journal c) JDeleteObsoleteRoute (Some (pcr_stale c)) None;
  indexed_committed :
    announces (pl_journal plan) (pl_committed_verify_journal plan) JVerifyCommittedState None None;
}.

(** C21. The journal of an accepted plan is well formed: every index the executor writes
    through lies inside the journal, at the entry that announces exactly that
    operation with its route or rule (forward and rollback entries of the routes and
    rules, verification markers, cleanup entries), so no write to the journal can
    miss and none can hit the entry of another operation. *)
Theorem plan_journal_wellformed `{Inet} (request : TransactionRequest) (lr : list DumpedRoute)
    (lu : list DumpedRule) (plan : Plan) (Hplan : build_plan request lr lu = Ok plan) :
  plan_indexed plan.
Proof.
  revert Hplan. unfold build_plan. destruct (check_rules request); [done|]. intros Hb.
  apply rbind_ok in Hb as ((muts & j1) & Hr & Hb).
  apply rbind_ok in Hb as ((rmuts & j2) & Hu & Hb). injection Hb as <-.
  apply routes_indexed in Hr. apply rules_indexed in Hu as [Hu (ext & ->)].
  set (stale := plan_stale_rules _ _ _). set (obsolete := plan_stale_routes _ _).
  set (j3 := (j1 ++ ext) ++ [marker_entry JVerifyCandidate]).
  set (j4 := j3 ++ (rule_entry JDeleteStaleRule <$> stale)).
  set (j5 := j4 ++ [marker_entry JVerifyStaleRuleAbsence]).
  set (j6 := j5 ++ (route_entry JDeleteObsoleteRoute <$> obsolete)).
  split; simpl.
  - eapply Forall_impl; [exact Hr|]. intros m Hm. unfold j6, j5, j4, j3. rewrite <- !(assoc_L (++)).
    by apply route_indexed_app.
  - eapply Forall_impl; [exact Hu|]. intros m Hm. unfold j6, j5, j4, j3.
    by do 5 apply rule_indexed_app.
  - do 4 apply announces_app. apply announces_last.
  - intros c Hc. do 3 apply announces_app. unfold j4.
    pose proof (cleanup_indexed (rule_entry JDeleteStaleRule)
      (λ s i, {| pcu_stale := s; pcu_journal := i |}) pcu_stale pcu_journal
      (λ a i, conj eq_refl eq_refl) stale j3 [] c Hc) as Hi. by rewrite app_nil_r in Hi.
  - do 2 apply announces_app. apply announces_last.
  - intros c Hc. apply announces_app.
    pose proof (cleanup_indexed (route_entry JDeleteObsoleteRoute)
      (λ s i, {| pcr_stale := s; pcr_journal := i |}) pcr_stale pcr_journal
      (λ a i, conj eq_refl eq_refl) obsolete j5 [] c Hc) as Hi. by rewrite app_nil_r in Hi.
  - apply announces_last.
Qed.
