(* ===== verification/TransactionRollback.v ===== *)
(** * The exact routing transaction: rollback

    A transaction that reports [TCandidateRolledBack], [TStaleBeforeMutation] or
    [TPreconditionFailed] leaves the kernel's routes and rules exactly as it found
    them, whichever calls failed on the way. The invariant: outside the slots and
    identities for which a receipt is held, the kernel is as it was. *)

From Stdlib Require Import ZArith Lia Ascii String.
From stdpp Require Import base gmap strings list.
From S2P Require Import Prelude ConfigTypes RoutingPlan KernelRoutes ListParser StateError.
From S2P Require Import RouteTable RouteTableSafety RouteTableConverge.
From S2P Require Import PolicyRules PolicyRulesSafety TransactionPlan Transaction.
From S2P Require Import TransactionKernel TransactionPlanFacts.
Open Scope Z_scope.

(** ** Symbolic execution *)

Section Steps.
Context {K1 K2 E : Type} `{RouteNetlink K1} `{RuleNetlink K2} `{Inet}.
Context (caller : TransactionCaller E) (request : TransactionRequest).

Definition set_tw_routes (k : K1) (w : TransactionWorld K1 K2 E) : TransactionWorld K1 K2 E :=
  {| tw_routes := k; tw_rules := tw_rules w; tw_env := tw_env w; tw_pub := tw_pub w;
     tw_result := tw_result w |}.
Definition set_tw_rules (k : K2) (w : TransactionWorld K1 K2 E) : TransactionWorld K1 K2 E :=
  {| tw_routes := tw_routes w; tw_rules := k; tw_env := tw_env w; tw_pub := tw_pub w;
     tw_result := tw_result w |}.

Lemma wp_tx_routes {A} (m : RT K1 A) Q X (w : TransactionWorld K1 K2 E) :
  wp m (λ a w', Q a (set_tw_routes w'.2 w)) (λ e w', X (RouteThrew e) (set_tw_routes w'.2 w))
    (unused_table, tw_routes w) → wp (tx_routes m) Q X w.
Proof. unfold wp, tx_routes. by destruct (m (unused_table, tw_routes w)) as [[s k] [a|e]]. Qed.

Lemma wp_tx_rules {A} (m : PM K2 A) Q X (w : TransactionWorld K1 K2 E) :
  wp m (λ a w', Q a (set_tw_rules w'.2 w)) (λ e w', X (RuleThrew e) (set_tw_rules w'.2 w))
    (unused_rules, tw_rules w) → wp (tx_rules m) Q X w.
Proof. unfold wp, tx_rules. by destruct (m (unused_rules, tw_rules w)) as [[s k] [a|e]]. Qed.

Lemma wp_catch_all {A} (m : TX (K1 := K1) (K2 := K2) (E := E) A) h Q X w :
  wp m Q (λ e w', match e with Returned => X Returned w' | _ => wp (h e) Q X w' end) w →
  wp (catch_all m h) Q X w.
Proof.
  intros Hm. apply wp_catch. eapply wp_mono; [exact Hm|done|]. intros [e|e|] w'; simpl; auto.
Qed.

(** The kernels and the mark of the first mutation. *)
Definition view (w : TransactionWorld K1 K2 E) : K1 * K2 * bool :=
  (tw_routes w, tw_rules w, tr_mutation_started (tw_result w)).

(** Book-keeping: writes to the journal and to the result only. *)
Definition quiet {A} (m : TX (K1 := K1) (K2 := K2) (E := E) A) : Prop :=
  ∀ w, ∃ a, (m w).2 = Ok a ∧ view (m w).1 = view w.

Lemma wp_quiet {A} (m : TX (K1 := K1) (K2 := K2) (E := E) A) Q X w :
  quiet m → (∀ a w', view w' = view w → Q a w') → wp m Q X w.
Proof.
  intros Hm HQ. destruct (Hm w) as (a & Ha & Hv). unfold wp.
  destruct (m w) as [w' r]. simpl in *. subst r. by apply HQ.
Qed.

Lemma quiet_ret {A} (a : A) : quiet (mret a).
Proof. intros w. by exists a. Qed.

Lemma quiet_bind {A B} (m : TX A) (k : A → TX B) : quiet m → (∀ a, quiet (k a)) → quiet (mbind k m).
Proof.
  intros Hm Hk w. destruct (Hm w) as (a & Ha & Hv). unfold mbind, se_bind.
  destruct (m w) as [w' r]. simpl in *. subst r. destruct (Hk a w') as (b & Hb & Hv').
  exists b. by rewrite Hv'.
Qed.

Lemma quiet_mfor {A} (f : A → TX unit) l : (∀ x, quiet (f x)) → quiet (mfor f l).
Proof.
  intros Hf. unfold mfor. generalize (tt). induction l as [|x l IH]; intros u; [apply quiet_ret|].
  simpl. apply quiet_bind; auto.
Qed.

Lemma quiet_pub f : quiet (tx_pub f).
Proof. intros w. by exists tt. Qed.

Lemma quiet_set_entry_state i s : quiet (set_entry_state i s).
Proof. apply quiet_pub. Qed.
Lemma quiet_set_entry_receipt i r : quiet (set_entry_receipt i r).
Proof. apply quiet_pub. Qed.
Lemma quiet_entries_state l s : quiet (set_entries_state l s).
Proof. apply quiet_mfor. intros i. apply quiet_pub. Qed.
Lemma quiet_entries_receipt l r : quiet (set_entries_receipt l r).
Proof. apply quiet_mfor. intros i. apply quiet_pub. Qed.

Lemma quiet_mark m r s : quiet (mark_rollback m r s).
Proof. apply quiet_bind; [apply quiet_entries_receipt|]. intros _. apply quiet_entries_state. Qed.

Lemma quiet_result f : (∀ r, tr_mutation_started (f r) = tr_mutation_started r) → quiet (tx_result f).
Proof. intros Hf w. exists tt. unfold view. simpl. by rewrite Hf. Qed.

Lemma quiet_fence : quiet (observe_fence caller request).
Proof.
  unfold observe_fence. destruct (tc_fence caller) as [probe|]; [|apply quiet_ret].
  intros w. unfold mbind, se_bind, tx_env. destruct (probe (tw_env w)) as [env [c|e]]; simpl; eauto.
Qed.
End Steps.

Create HintDb quiet discriminated.
#[export] Hint Resolve quiet_ret quiet_pub quiet_set_entry_state quiet_set_entry_receipt
  quiet_entries_state quiet_entries_receipt quiet_mark quiet_result quiet_fence : quiet.

(** One book-keeping step: [w'] is the world after it and [Hv] its view. *)
Tactic Notation "book" ident(w') ident(Hv) :=
  first [apply wp_bind|idtac];
  apply wp_quiet; [by auto with quiet | intros ? w' Hv].

(** ** The invariant *)

Section Rollback.
Context {K1 K2 E : Type} `{HS : RouteSlotLaws K1} `{HP : RulePresentLaws K2}.
Context (caller : TransactionCaller E) (request : TransactionRequest) (r0 : K1) (u0 : K2).

Implicit Types w : TransactionWorld K1 K2 E.

Definition routes_settled (l : list PlannedRouteMutation) (k : K1) : Prop :=
  ∀ d, (∀ m, m ∈ l → route_receipted m = true → exact_route_same_slot (pmr_candidate m) d = false) →
       d ∈ nl_live k ↔ d ∈ nl_live r0.

Definition rules_settled (l : list PlannedRuleMutation) (k : K2) : Prop :=
  ∀ d, (∀ m, m ∈ l → pmu_created_receipt m = true →
             rule_occupies_same_identity (pmu_candidate m) d = false) →
       d ∈ rl_live k ↔ d ∈ rl_live u0.

Definition planned_routes : list PlannedRouteMutation → Prop :=
  Forall (planned_route request (.∈ nl_live r0)).
Definition planned_rules : list PlannedRuleMutation → Prop :=
  Forall (planned_rule request (.∈ rl_live u0)).

Record pending (routes : list PlannedRouteMutation) (rules : list PlannedRuleMutation)
    (v : K1 * K2 * bool) : Prop := {
  pend_planned_routes : planned_routes routes;
  pend_planned_rules : planned_rules rules;
  pend_routes : routes_settled routes v.1.1;
  pend_rules : rules_settled rules v.1.2;
  pend_started : v.2 = false →
    Forall (λ m, route_receipted m = false) routes
    ∧ Forall (λ m, pmu_created_receipt m = false) rules;
}.

Definition untouched (v : K1 * K2 * bool) : Prop := same_routes v.1.1 r0 ∧ same_rules v.1.2 u0.

Lemma routes_settled_same l k k' : routes_settled l k → same_routes k' k → routes_settled l k'.
Proof. intros Hl Hk d Hd. rewrite (Hk d). by apply Hl. Qed.

Lemma routes_settled_outside l m k k' :
  routes_settled l k → same_outside (pmr_candidate m) k' k → m ∈ l → route_receipted m = true →
  routes_settled l k'.
Proof. intros Hl Hk Hm Hr d Hd. rewrite (Hk d) by by apply Hd. by apply Hl. Qed.

Lemma rules_settled_same l k k' : rules_settled l k → same_rules k' k → rules_settled l k'.
Proof. intros Hl Hk d Hd. rewrite (Hk d). by apply Hl. Qed.

Lemma rules_settled_outside l m k k' :
  rules_settled l k → same_identities_outside (pmu_candidate m) k' k → m ∈ l →
  pmu_created_receipt m = true → rules_settled l k'.
Proof. intros Hl Hk Hm Hr d Hd. rewrite (Hk d) by by apply Hd. by apply Hl. Qed.

Lemma routes_settled_none l k :
  routes_settled l k → Forall (λ m, route_receipted m = false) l → same_routes k r0.
Proof.
  intros Hl Hnone d. apply Hl. intros m Hm Hr. rewrite Forall_forall in Hnone.
  specialize (Hnone m Hm). congruence.
Qed.

(** A mutation whose slot is as it was at the start needs no receipt. *)
Lemma routes_settled_drop m l k :
  routes_settled (m :: l) k →
  (∀ d, exact_route_same_slot (pmr_candidate m) d = true → d ∈ nl_live k ↔ d ∈ nl_live r0) →
  routes_settled l k.
Proof.
  intros Hl Hslot d Hd. destruct (exact_route_same_slot (pmr_candidate m) d) eqn:Hs; [by apply Hslot|].
  apply Hl. intros x [->|Hx]%elem_of_cons; [done | by apply Hd].
Qed.

(** All receipted identities observed empty: the rules are as they were. *)
Lemma rules_settled_empty l k :
  planned_rules l → rules_settled l k →
  (∀ m d, m ∈ l → pmu_created_receipt m = true → d ∈ rl_live k →
          rule_occupies_same_identity (pmu_candidate m) d = false) →
  same_rules k u0.
Proof.
  intros Hpl Hl Hempty d.
  destruct (existsb (λ m, pmu_created_receipt m && rule_occupies_same_identity (pmu_candidate m) d) l)
    eqn:Hex.
  - apply existsb_exists in Hex as (m & Hm & [Hr Hi]%andb_true_iff). apply list_elem_of_In in Hm.
    split; intros Hd.
    + specialize (Hempty m d Hm Hr Hd). congruence.
    + exfalso. unfold planned_rules in Hpl. rewrite Forall_forall in Hpl.
      by apply (planned_rule_empty _ _ _ (Hpl m Hm) d Hi).
  - apply Hl. intros m Hm Hr. apply not_true_iff_false. intros Hi.
    apply not_true_iff_false in Hex. apply Hex, existsb_exists. exists m.
    by rewrite <- list_elem_of_In, Hr, Hi.
Qed.

(** ** The dumps inside the transaction *)

Lemma tx_dump f Q (X : TransactionError → TransactionWorld K1 K2 E → Prop) w :
  (∀ l k, same_routes k (tw_routes w) →
          (∀ d, d ∈ l ↔ d ∈ nl_live k ∧ (f = 0 ∨ dr_family d = f)) → Q l (set_tw_routes k w)) →
  (∀ e k, same_routes k (tw_routes w) → X (RouteThrew e) (set_tw_routes k w)) →
  wp (tx_routes (dump_routes f)) Q X w.
Proof.
  intros HQ HX. apply wp_tx_routes. eapply wp_mono; [apply kernel_dump| |].
  - intros l w' [Hs Hl]. apply HQ; [done|]. intros d. rewrite Hl, (Hs d). done.
  - intros e w' Hs. by apply HX.
Qed.

Lemma tx_rule_dump f Q (X : TransactionError → TransactionWorld K1 K2 E → Prop) w :
  (∀ l k, same_rules k (tw_rules w) →
          (∀ d, d ∈ l ↔ d ∈ rl_live k ∧ (f = 0 ∨ du_family d = f)) → Q l (set_tw_rules k w)) →
  (∀ e k, same_rules k (tw_rules w) → X (RuleThrew e) (set_tw_rules k w)) →
  wp (tx_rules (dump_policy_rules f)) Q X w.
Proof.
  intros HQ HX. apply wp_tx_rules. eapply wp_mono; [apply kernel_rule_dump| |].
  - intros l w' [Hs Hl]. apply HQ; [done|]. intros d. rewrite Hl, (Hs d). done.
  - intros e w' Hs. by apply HX.
Qed.

(** A dump of the candidate's family sees its whole slot. *)
Lemma dump_slot_empty spec l (k : K1) :
  (∀ d, d ∈ l ↔ d ∈ nl_live k ∧ (rt_family spec = 0 ∨ dr_family d = rt_family spec)) →
  exact_slot_state spec l = SlotEmpty →
  ∀ d, exact_route_same_slot spec d = true → d ∉ nl_live k.
Proof.
  intros Hl Hs d Hd Hk. rewrite exact_empty in Hs. rewrite Hs in Hd; [done|].
  apply Hl. split; [done|]. right. by apply same_slot_eq in Hd as (_ & _ & -> & _).
Qed.

Lemma dump_rule_empty spec l (k : K2) f :
  (∀ d, d ∈ l ↔ d ∈ rl_live k ∧ (f = 0 ∨ du_family d = f)) → f = 0 ∨ f = ru_family spec →
  exact_rule_state spec l = SlotEmpty →
  ∀ d, d ∈ rl_live k → rule_occupies_same_identity spec d = false.
Proof.
  intros Hl Hf Hs d Hk. apply not_true_iff_false. intros Hd. rewrite rule_empty in Hs.
  rewrite Hs in Hd; [done|]. apply Hl. split; [done|].
  unfold rule_occupies_same_identity in Hd. rewrite !andb_true_iff, !Z.eqb_eq in Hd.
  destruct Hf as [->|Hf]; [by left|right; lia].
Qed.

Lemma slot_matches_preimage c p l :
  slot_matches_preimages c [route_spec_from_live p] l = true →
  dr_exact_identity_representable p = true →
  p ∈ l ∧ ∀ d, d ∈ l → exact_route_same_slot c d = true → d = p.
Proof.
  unfold slot_matches_preimages. rewrite !andb_true_iff, Nat.eqb_eq. simpl.
  intros [[Hrep Hlen] Hex] Hp.
  destruct (filter_single _ _ Hlen) as (x & Hf & Hx & Hs & Hu). rewrite Hf in Hex, Hrep. simpl in *.
  rewrite !andb_true_r, ?orb_false_r in *.
  assert (x = p) as ->; [|done].
  unfold route_specs_equal in Hex.
  rewrite !andb_true_iff, String.eqb_eq, !opt_eqb_eq, !Bool.eqb_true_iff, !Z.eqb_eq in Hex.
  destruct x, p. simpl in *. naive_solver.
Qed.

(** ** Rolling back rules *)

Lemma rollback_rule_settled routes rules stage m w :
  m ∈ rules → planned_rules rules → pending routes rules (view w) →
  wp (rollback_rule stage m) (λ _ w', pending routes rules (view w')) (λ _ _, False) w.
Proof.
  intros Hm Hpl Hp. unfold rollback_rule. destruct (pmu_created_receipt m) eqn:Hr; simpl.
  2:{ book w1 Hv1. apply wp_ret. by rewrite Hv1. }
  assert (∀ k, same_identities_outside (pmu_candidate m) k (tw_rules w) →
               pending routes rules (view (set_tw_rules k w))) as Hk.
  { intros k Hk. destruct Hp as [? ? ? Hu ?]. split; try done. simpl in *. by eapply rules_settled_outside. }
  assert (explicit_rule (pmu_candidate m)) as He.
  { unfold planned_rules in Hpl. rewrite Forall_forall in Hpl.
    exact (planned_rule_explicit _ _ _ (Hpl m Hm)). }
  apply wp_catch_all, wp_bind, wp_tx_rules.
  eapply wp_mono; [exact (kernel_rule_delete_exact (pmu_candidate m) (unused_rules, tw_rules w) He)| |].
  - intros receipt w1 [Hout _]. specialize (Hk _ Hout).
    destruct receipt; (book w2 Hv2; book w3 Hv3; apply wp_ret; by rewrite Hv3, Hv2).
  - intros e w1 [Hout _]. specialize (Hk _ Hout). book w2 Hv2. book w3 Hv3. apply wp_ret.
    by rewrite Hv3, Hv2.
Qed.

Lemma rollback_rules_settled routes rules l stage w :
  (∀ m, m ∈ l → m ∈ rules) → planned_rules rules → pending routes rules (view w) →
  wp (mfold rollback_rule stage l) (λ _ w', pending routes rules (view w')) (λ _ _, False) w.
Proof.
  intros Hl Hpl Hp.
  eapply wp_mono; [apply (wp_mfold rollback_rule (λ _ l' w', (∀ m, m ∈ l' → m ∈ rules)
                                   ∧ pending routes rules (view w')) (λ _ _, False))| |done];
    [done| |by intros b w' [_ Hw']].
  intros b m l' w' [Hl' Hp']. eapply wp_mono; [by apply rollback_rule_settled; [apply Hl'; left| |]| |done].
  intros b' w1 Hw1. split; [|done]. intros x Hx. apply Hl'. by right.
Qed.

Lemma verify_absent_settled routes rules w :
  pending routes rules (view w) →
  wp (catch_all (verify_created_rules_absent rules) (λ _, mret false))
    (λ absent w', pending routes rules (view w') ∧ (absent = true → same_rules (tw_rules w') u0))
    (λ _ _, False) w.
Proof.
  intros Hp. apply wp_catch_all, wp_bind.
  assert (∀ k, same_rules k (tw_rules w) → pending routes rules (view (set_tw_rules k w))) as Hk.
  { intros k Hk. destruct Hp as [? ? ? Hu ?]. split; try done. by eapply rules_settled_same. }
  apply tx_rule_dump; [|intros e k Hs; apply wp_ret; split; [by apply Hk|done]].
  intros l k Hs Hl. apply wp_ret. split; [by apply Hk|]. intros Hnone.
  specialize (Hk k Hs). apply (rules_settled_empty rules); [apply Hk|apply Hk|]. simpl.
  intros m d Hm Hr Hd. eapply dump_rule_empty; [exact Hl|by left| |done].
  apply is_empty_iff, not_false_iff_true. intros He. apply negb_true_iff, not_true_iff_false in Hnone.
  apply Hnone, existsb_exists. exists m. rewrite <- list_elem_of_In, Hr, He. done.
Qed.

(** ** Rolling back routes *)

(** What one route's rollback establishes when it lets the loop go on. *)
Definition route_restored (l : list PlannedRouteMutation) (u : K2) (go : bool)
    (w : TransactionWorld K1 K2 E) : Prop :=
  go = true → routes_settled l (tw_routes w) ∧ tw_rules w = u.

Lemma route_restored_stop l u w : route_restored l u false w.
Proof. done. Qed.

Lemma restored_view l u go w w' : view w' = view w → route_restored l u go w → route_restored l u go w'.
Proof. unfold view, route_restored. by intros [= -> -> _]. Qed.

Lemma rollback_created_restored m l w :
  planned_route request (.∈ nl_live r0) m → pmr_created_receipt m = true →
  routes_settled (m :: l) (tw_routes w) →
  wp (rollback_created_route m) (route_restored l (tw_rules w)) (λ _ _, False) w.
Proof.
  intros Hpl Hc Hset. unfold rollback_created_route.
  assert (∀ k : K1, same_outside (pmr_candidate m) k (tw_routes w) →
    (∀ d, exact_route_same_slot (pmr_candidate m) d = true → d ∉ nl_live k) →
    routes_settled l k) as Hdone.
  { intros k Hout Hempty. apply (routes_settled_drop m).
    - eapply routes_settled_outside; [exact Hset|done|by left|]. unfold route_receipted. by rewrite Hc.
    - intros d Hd. specialize (Hempty d Hd).
      pose proof (planned_empty _ _ _ Hpl (planned_created _ _ _ Hpl Hc) d Hd). done. }
  assert (rt_family (pmr_candidate m) ≠ 0) as Hf by by eapply explicit_family, planned_slot.
  assert (∀ receipt state X w', wp (_ ← mark_rollback m receipt state; mret false)
            (route_restored l (tw_rules w)) X w') as Hstop.
  { intros receipt state X w'. book w1 Hv1. apply wp_ret, route_restored_stop. }
  apply wp_catch_all, wp_bind. apply tx_dump; [|intros e k _; apply Hstop].
  intros before k1 Hs1 Hl1. pose proof (same_routes_outside (pmr_candidate m) _ _ Hs1) as Ho1.
  destruct (exact_slot_state _ before) eqn:Hstate; [| |apply Hstop].
  - book w2 Hv2. apply wp_ret. eapply restored_view; [exact Hv2|]. intros _. split; [|done].
    apply Hdone; [done|]. by eapply dump_slot_empty.
  - apply wp_bind, wp_tx_routes.
    eapply wp_mono; [by apply kernel_delete_slot| |by intros e w2 _; apply Hstop].
    intros receipt w2 Ho2. simpl in Ho2.
    assert (same_outside (pmr_candidate m) w2.2 (tw_routes w)) as Ho.
    { intros d Hd. by rewrite (Ho2 d), (Ho1 d). }
    destruct receipt; [| |apply Hstop].
    all: book w3 Hv3; apply wp_bind; injection Hv3 as Hr3 Hu3 _.
    all: apply tx_dump; [|intros e k _; apply Hstop]; intros live k4 Hs4 Hl4; rewrite Hr3 in Hs4.
    all: destruct (is_slot_empty _) eqn:He; [|book w5 Hv5; apply wp_ret, route_restored_stop].
    all: book w5 Hv5; apply wp_ret; eapply restored_view; [exact Hv5|]; intros _; simpl; split; [|done].
    all: apply is_empty_iff in He; apply Hdone; [|by eapply dump_slot_empty].
    all: intros d Hd; rewrite (Hs4 d); by apply Ho.
Qed.

Lemma rollback_replaced_restored m l w :
  planned_route request (.∈ nl_live r0) m → pmr_replacement_receipt m = true →
  routes_settled (m :: l) (tw_routes w) →
  wp (rollback_replaced_route m) (route_restored l (tw_rules w)) (λ _ _, False) w.
Proof.
  intros Hpl Hc Hset. unfold rollback_replaced_route.
  destruct (planned_preimage _ _ _ Hpl (planned_replaced _ _ _ Hpl Hc)) as (p & Hpre & Hrep & Hg & Hslot & Hp).
  rewrite Hpre. simpl.
  pose proof (planned_slot _ _ _ Hpl) as Hexp.
  assert (explicit_slot (route_spec_from_live p)) as Hexp' by by eapply explicit_from_live.
  assert (∀ (k : K1) live, same_outside (pmr_candidate m) k (tw_routes w) →
    (∀ d, d ∈ live ↔ d ∈ nl_live k ∧ (rt_family (pmr_candidate m) = 0
                                      ∨ dr_family d = rt_family (pmr_candidate m))) →
    slot_matches_preimages (pmr_candidate m) [route_spec_from_live p] live = true →
    routes_settled l k) as Hdone.
  { intros k live Hout Hlive Hm. destruct (slot_matches_preimage _ _ _ Hm Hrep) as [Hin Hu].
    apply (routes_settled_drop m).
    - eapply routes_settled_outside; [exact Hset|done|by left|]. unfold route_receipted.
      by rewrite Hc, orb_true_r.
    - intros d Hd. rewrite (Hp d Hd). split; [|intros ->; by apply Hlive].
      intros Hk. apply Hu; [|done]. apply Hlive. split; [done|]. right.
      by apply same_slot_eq in Hd as (_ & _ & -> & _). }
  assert (∀ receipt state X w', wp (_ ← mark_rollback m receipt state; mret false)
            (route_restored l (tw_rules w)) X w') as Hstop.
  { intros receipt state X w'. book w1 Hv1. apply wp_ret, route_restored_stop. }
  apply wp_catch_all, wp_bind. apply tx_dump; [|intros e k _; apply Hstop].
  intros before k1 Hs1 Hl1. pose proof (same_routes_outside (pmr_candidate m) _ _ Hs1) as Ho1.
  destruct (slot_matches_preimages _ _ before) eqn:Hbefore.
  { book w2 Hv2. apply wp_ret. eapply restored_view; [exact Hv2|]. intros _. split; [|done].
    by eapply Hdone. }
  destruct (negb _); [apply Hstop|].
  apply wp_bind, wp_tx_routes.
  eapply wp_mono; [apply kernel_replace_exact; [done|by eapply explicit_family]
                  | |by intros e w2 _; apply Hstop].
  intros receipt w2 [Ho2 _]. simpl in Ho2.
  assert (same_outside (pmr_candidate m) w2.2 (tw_routes w)) as Ho.
  { intros d Hd. rewrite (Ho2 d), (Ho1 d); [done|done|].
    by rewrite (same_slot_transfer (pmr_candidate m)). }
  destruct receipt; [|apply Hstop].
  book w3 Hv3. injection Hv3 as Hr3 Hu3 _. apply wp_bind, wp_ret, wp_bind.
  apply tx_dump; [|intros e k _; apply Hstop]. intros live k4 Hs4 Hl4. rewrite Hr3 in Hs4.
  destruct (slot_matches_preimages _ _ live) eqn:Hlive; [|book w5 Hv5; apply wp_ret, route_restored_stop].
  book w5 Hv5. apply wp_ret. eapply restored_view; [exact Hv5|]. intros _. simpl. split; [|done].
  eapply Hdone; [|done|done]. intros d Hd. rewrite (Hs4 d). by apply Ho.
Qed.

Lemma rollback_routes_restored l w :
  planned_routes l → routes_settled l (tw_routes w) →
  wp (rollback_routes l)
    (λ ok w', ok = true → same_routes (tw_routes w') r0 ∧ tw_rules w' = tw_rules w) (λ _ _, False) w.
Proof.
  revert w. induction l as [|m l IH]; intros w Hpl Hset.
  { apply wp_ret. intros _. split; [|done]. intros d. apply Hset. by intros m Hm%elem_of_nil. }
  apply Forall_cons in Hpl as [Hm Hpl]. simpl. apply wp_bind.
  apply (wp_mono _ (route_restored l (tw_rules w)) _ (λ _ _, False)); [| |done].
  - destruct (pmr_created_receipt m) eqn:Hc; [by apply rollback_created_restored|].
    destruct (pmr_replacement_receipt m) eqn:Hr; [by apply rollback_replaced_restored|].
    book w1 Hv1. apply wp_ret. eapply restored_view; [exact Hv1|]. intros _. split; [|done].
    intros d Hd. apply Hset. intros x [->|Hx]%elem_of_cons; [|by apply Hd].
    unfold route_receipted. by rewrite Hc, Hr.
  - intros [] w1 Hw1; [|by apply wp_ret]. destruct (Hw1 eq_refl) as [Hset1 <-]. by apply IH.
Qed.

Lemma rollback_candidate_restored routes rules stage w :
  pending routes rules (view w) →
  wp (rollback_candidate routes rules stage) (λ '(ok, _) w', ok = true → untouched (view w'))
    (λ _ _, False) w.
Proof.
  intros Hp. unfold rollback_candidate. apply wp_bind.
  eapply wp_mono; [apply (rollback_rules_settled routes rules (rev rules)); [|apply Hp|done]| |done].
  { intros m. by rewrite !list_elem_of_In, <- in_rev. }
  clear w Hp. intros stage' w Hp. apply wp_bind.
  eapply wp_mono; [by apply (verify_absent_settled routes)| |done].
  clear w Hp. intros absent w [Hp Habs]. destruct absent; simpl; [|by apply wp_ret].
  specialize (Habs eq_refl). apply wp_bind.
  eapply wp_mono; [apply (rollback_routes_restored (rev routes))| |done].
  - apply Forall_rev, Hp.
  - intros d Hd. apply (pend_routes _ _ _ Hp). intros m Hm. apply Hd.
    by rewrite list_elem_of_In, <- in_rev, <- list_elem_of_In.
  - intros [] w' Hw'; apply wp_ret; [|done]. intros _. destruct (Hw' eq_refl) as [Hr Hu].
    split; [done|]. simpl. by rewrite Hu.
Qed.
End Rollback.
