(* ===== verification/TransactionAbort.v ===== *)
(** * The exact routing transaction: aborted transactions change nothing

    The forward path of the transaction under the invariant of
    [TransactionRollback], and the guarantee for every way a transaction can be
    refused, overtaken or rolled back. *)

From Stdlib Require Import ZArith Lia Ascii String.
From stdpp Require Import base gmap strings list.
From S2P Require Import Prelude ConfigTypes RoutingPlan KernelRoutes ListParser StateError.
From S2P Require Import RouteTable RouteTableSafety RouteTableConverge.
From S2P Require Import PolicyRules PolicyRulesSafety TransactionPlan Transaction.
From S2P Require Import TransactionKernel TransactionPlanFacts TransactionRollback.
Open Scope Z_scope.

(** The terminals that promise an unchanged kernel. *)
Definition aborted (t : TransactionTerminal) : bool :=
  match t with
  | TStaleBeforeMutation | TCandidateRolledBack | TPreconditionFailed => true
  | _ => false
  end.

Section Abort.
Context {K1 K2 E : Type} `{HS : RouteSlotLaws K1} `{HP : RulePresentLaws K2}.
Context (caller : TransactionCaller E) (request : TransactionRequest) (r0 : K1) (u0 : K2).

Implicit Types w : TransactionWorld K1 K2 E.

Definition outcome (w : TransactionWorld K1 K2 E) : Prop :=
  aborted (tr_terminal (tw_result w)) = true → untouched r0 u0 (view w).

Definition returns (e : TransactionError) (w : TransactionWorld K1 K2 E) : Prop :=
  e = Returned ∧ outcome w.

Lemma same_routes_refl (k : K1) : same_routes k k.
Proof. done. Qed.

Lemma pending_dump routes rules w k :
  pending request r0 u0 routes rules (view w) → same_routes k (tw_routes w) →
  pending request r0 u0 routes rules (view (set_tw_routes k w)).
Proof. intros [? ? Hr ? ?] Hk. split; try done. by eapply routes_settled_same. Qed.

Lemma pending_rule_dump routes rules w k :
  pending request r0 u0 routes rules (view w) → same_rules k (tw_rules w) →
  pending request r0 u0 routes rules (view (set_tw_rules k w)).
Proof. intros [? ? ? Hu ?] Hk. split; try done. by eapply rules_settled_same. Qed.

Lemma pending_unstarted routes rules v : pending request r0 u0 routes rules v → v.2 = false → untouched r0 u0 v.
Proof.
  intros Hp Hv. destruct (pend_started _ _ _ _ _ _ Hp Hv) as [Hr Hu]. split.
  - eapply routes_settled_none; [apply Hp|done].
  - intros d. apply (pend_rules _ _ _ _ _ _ Hp). intros m Hm. rewrite Forall_forall in Hu.
    rewrite (Hu m Hm). done.
Qed.

Lemma untouched_dumps w k k' :
  untouched r0 u0 (view w) → same_routes k (tw_routes w) → same_rules k' (tw_rules w) →
  untouched r0 u0 (view (set_tw_rules k' (set_tw_routes k w))).
Proof.
  intros [Hr Hu] Hk Hk'. split; simpl; intros d.
  - rewrite (Hk d). apply Hr.
  - rewrite (Hk' d). apply Hu.
Qed.

(** ** Failing *)

Lemma finish_outcome {A} terminal stage (Q : A → TransactionWorld K1 K2 E → Prop) w :
  (aborted terminal = true → untouched r0 u0 (view w)) →
  wp (_ ← tx_result (set_terminal terminal); _ ← publish_stage stage; _ ← publish_terminal terminal;
      _ ← retain_result_journal; throw Returned) Q returns w.
Proof. intros Hw. split; [done|]. exact Hw. Qed.

Lemma fail_terminal_outcome routes rules stage ambiguous w :
  (ambiguous = false → pending request r0 u0 routes rules (view w)) →
  wp (fail_terminal request routes rules stage ambiguous)
    (λ '(t, _) w', aborted t = true → untouched r0 u0 (view w')) (λ _ _, False) w.
Proof.
  intros Hp. unfold fail_terminal. destruct ambiguous; [by apply wp_ret|]. specialize (Hp eq_refl).
  apply wp_bind. eapply wp_mono; [by apply (rollback_candidate_restored request r0 u0)| |done].
  clear w Hp. intros [[] stage'] w Hw; simpl; [|by apply wp_ret]. specialize (Hw eq_refl).
  destruct (tq_require_prior_preimage_proof request); simpl; [|by apply wp_ret].
  apply wp_bind.
  apply (wp_mono _ (λ (_ : bool) w', untouched r0 u0 (view w')) _ (λ _ _, False)); [| |done];
    [|intros [] w' Hw'; by apply wp_ret].
  assert (∀ k k' (b : bool) f X, (∀ r, tr_mutation_started (f r) = tr_mutation_started r) →
    same_routes k (tw_routes w) → same_rules k' (tw_rules w) →
    wp (_ ← tx_result f; mret b) (λ (_ : bool) w', untouched r0 u0 (view w')) X
      (set_tw_rules k' (set_tw_routes k w))) as Hend.
  { intros k k' b f X Hf Hk Hk'. book w' Hv. apply wp_ret. rewrite Hv. by apply untouched_dumps. }
  apply wp_catch_all, wp_bind. apply tx_dump.
  - intros l k Hk Hl. apply wp_bind. apply tx_rule_dump; intros; by apply Hend.
  - intros e k Hk. by apply (Hend k (tw_rules w)).
Qed.

Lemma fail_candidate_outcome {A} routes rules stage ambiguous
    (Q : A → TransactionWorld K1 K2 E → Prop) w :
  (ambiguous = false → pending request r0 u0 routes rules (view w)) →
  wp (fail_candidate request routes rules stage ambiguous) Q returns w.
Proof.
  intros Hp. unfold fail_candidate. apply wp_bind.
  eapply wp_mono; [by apply fail_terminal_outcome| |done]. intros [t s] w' Hw'.
  by apply finish_outcome.
Qed.

Lemma fail_fence_outcome {A} routes rules entry (Q : A → TransactionWorld K1 K2 E → Prop) w :
  pending request r0 u0 routes rules (view w) →
  wp (fail_forward_fence request routes rules entry) Q returns w.
Proof.
  intros Hp. unfold fail_forward_fence. apply wp_bind, wp_gets. book w1 Hv1.
  apply wp_bind, wp_gets. destruct (tr_mutation_started (tw_result w1)) eqn:Hs.
  - apply fail_candidate_outcome. intros _. by rewrite Hv1.
  - apply finish_outcome. intros _. rewrite <- Hv1 in Hp. by eapply pending_unstarted.
Qed.

(** A [return] is not caught. *)
Lemma wp_returns {A} (m : TX A) (Q : A → TransactionWorld K1 K2 E → Prop)
    (P : TransactionError → TransactionWorld K1 K2 E → Prop) w :
  wp m Q returns w →
  wp m Q (λ e w', match e with Returned => returns Returned w' | _ => P e w' end) w.
Proof. intros Hm. eapply wp_mono; [exact Hm|done|]. by intros e w' [-> Hw']. Qed.

(** ** Candidate routes *)

Lemma pending_entered routes rules w k :
  pending request r0 u0 routes rules (view w) → same_routes k (tw_routes w) →
  pending request r0 u0 routes rules (k, tw_rules w, true).
Proof. intros [? ? Hr ? ?] Hk. split; try done. by eapply routes_settled_same. Qed.

Lemma enter_view Q (X : TransactionError → TransactionWorld K1 K2 E → Prop) w :
  (∀ w', view w' = (tw_routes w, tw_rules w, true) → Q () w') → wp enter_mutation Q X w.
Proof. intros HQ. by apply HQ. Qed.

Lemma planned_receipts m created replaced :
  planned_route request (.∈ nl_live r0) m →
  (created = true → pmr_replace m = false) → (replaced = true → pmr_replace m = true) →
  planned_route request (.∈ nl_live r0) (with_route_receipts m created replaced).
Proof. intros [] ? ?. by split. Qed.

(** A receipt for [m] accounts for any change of its slot. *)
Lemma pending_receipt done m rest rules w k created replaced :
  pending request r0 u0 (done ++ m :: rest) rules (view w) →
  same_outside (pmr_candidate m) k (tw_routes w) ∧ route_receipted m = false →
  (created = true → pmr_replace m = false) → (replaced = true → pmr_replace m = true) →
  (created || replaced = false → same_routes k (tw_routes w)) →
  pending request r0 u0 (done ++ with_route_receipts m created replaced :: rest) rules
    (k, tw_rules w, true).
Proof.
  intros [Hpr Hpu Hr Hu _] [Hk Hm] Hc Hrep Hnone. unfold planned_routes in Hpr.
  rewrite Forall_app, Forall_cons in Hpr. destruct Hpr as (Hd & Hpm & Hrest).
  split; simpl in *; try done.
  - unfold planned_routes. rewrite Forall_app, Forall_cons. split_and!; [done| |done].
    by apply planned_receipts.
  - intros d Hin. assert (∀ x, x ∈ done ++ m :: rest → route_receipted x = true →
        exact_route_same_slot (pmr_candidate x) d = false) as Hall.
    { intros x [Hx|[->|Hx]%elem_of_cons]%elem_of_app Hrx.
      - apply Hin; [apply elem_of_app; by left|done].
      - congruence.
      - apply Hin; [apply elem_of_app; right; by right|done]. }
    destruct (created || replaced) eqn:Hany; [|rewrite (Hnone eq_refl d); by apply Hr].
    rewrite (Hk d); [by apply Hr|].
    apply (Hin (with_route_receipts m created replaced)); [apply elem_of_app; right; by left|done].
Qed.

(** What holds when an exception leaves the [try] block of one route. *)
Definition route_threw (done rest : list PlannedRouteMutation) (rules : list PlannedRuleMutation)
    (m : PlannedRouteMutation) (e : TransactionError) (w : TransactionWorld K1 K2 E) : Prop :=
  match e with
  | Returned => outcome w
  | _ => pending request r0 u0 (done ++ m :: rest) rules (view w)
         ∨ image_live (pmr_candidate m) (tw_routes w)
  end.

Lemma returns_threw done rest rules m e w : returns e w → route_threw done rest rules m e w.
Proof. by intros [-> Hw]. Qed.

Lemma pending_head done m rest rules v :
  pending request r0 u0 (done ++ m :: rest) rules v → planned_route request (.∈ nl_live r0) m.
Proof.
  intros Hp. pose proof (pend_planned_routes _ _ _ _ _ _ Hp) as Hf. unfold planned_routes in Hf.
  rewrite Forall_app, Forall_cons in Hf. tauto.
Qed.

Lemma apply_route_pending done m rest rules w :
  pending request r0 u0 (done ++ m :: rest) rules (view w) → route_receipted m = false →
  wp (apply_route caller request (λ x, done ++ x :: rest) rules m)
    (λ m' w', pending request r0 u0 (done ++ m' :: rest) rules (view w'))
    (route_threw done rest rules m) w.
Proof.
  intros Hp Hfresh. pose proof (pending_head _ _ _ _ _ Hp) as Hpm. pose proof Hfresh as Hfr.
  unfold route_receipted in Hfr. apply orb_false_iff in Hfr as [Hnc Hnr].
  assert (∀ stage w', pending request r0 u0 (done ++ m :: rest) rules (view w') →
    wp (fail_candidate request (done ++ m :: rest) rules stage false)
      (λ m' w'', pending request r0 u0 (done ++ m' :: rest) rules (view w''))
      (route_threw done rest rules m) w') as Hfail.
  { intros stage w' Hw'. eapply (wp_mono _ (λ _ _, False)); [by apply fail_candidate_outcome|done|].
    intros e w''. apply returns_threw. }
  assert (∀ entry w', pending request r0 u0 (done ++ m :: rest) rules (view w') →
    wp (fail_forward_fence request (done ++ m :: rest) rules entry)
      (λ m' w'', pending request r0 u0 (done ++ m' :: rest) rules (view w''))
      (route_threw done rest rules m) w') as Hfence.
  { intros entry w' Hw'. eapply (wp_mono _ (λ _ _, False)); [by apply fail_fence_outcome|done|].
    intros e w''. apply returns_threw. }
  unfold apply_route. destruct (pmr_replace m) eqn:Hrep.
  - apply wp_bind. apply tx_dump; [|intros e k Hk; left; by apply pending_dump].
    intros slot k Hk _. pose proof (pending_dump _ _ _ _ Hp Hk) as Hp1.
    destruct (slot_matches_preimages _ _ _); simpl.
    2:{ book w1 Hv1. book w2 Hv2. apply Hfail. by rewrite Hv2, Hv1. }
    destruct (planned_preimage _ _ _ Hpm Hrep) as (p & Hpre & Hrp & _ & Hslot & _).
    rewrite Hpre. simpl. book w1 Hv1. rewrite <- Hv1 in Hp1. clear Hv1.
    destruct a; [|by apply Hfence..].
    apply wp_bind, enter_view. intros w2 Hv2. injection Hv2 as Hr2 Hu2 Hs2.
    apply wp_bind, wp_tx_routes. rewrite Hr2.
    eapply wp_mono; [apply kernel_replace_exact; [by eapply planned_slot|]| |].
    { simpl. apply same_slot_eq in Hslot as (_ & _ & <- & _).
      by eapply explicit_family, planned_slot. }
    + intros receipt w3 [Hout Hsame]. simpl in *. destruct receipt.
      * book w4 Hv4. book w5 Hv5. apply wp_ret. rewrite Hv5, Hv4. unfold view. simpl.
        rewrite Hs2, Hu2. by eapply pending_receipt; [exact Hp1| |congruence|done|rewrite orb_true_r].
      * book w4 Hv4. book w5 Hv5. apply Hfail. rewrite Hv5, Hv4. unfold view. simpl.
        rewrite Hs2, Hu2.
        eapply pending_entered; [exact Hp1 | by apply Hsame].
    + intros e w3 [Hout Hat]. simpl in *. destruct (Hat (planned_shape _ _ _ Hpm)) as [Hs|Hi];
        [left|by right]. unfold view. simpl. rewrite Hs2, Hu2. by eapply pending_entered.
  - book w1 Hv1. rewrite <- Hv1 in Hp. clear Hv1. destruct a; [|by apply Hfence..].
    apply wp_bind, enter_view. intros w2 Hv2. injection Hv2 as Hr2 Hu2 Hs2.
    apply wp_bind, wp_tx_routes. rewrite Hr2.
    eapply wp_mono; [apply kernel_add; [by eapply planned_slot|by eapply planned_shape]| |].
    + intros receipt w3 [Hout Hsame]. simpl in *. book w4 Hv4. book w5 Hv5. apply wp_ret.
      rewrite Hv5, Hv4. unfold view. simpl. rewrite Hs2, Hu2.
      eapply pending_receipt; [exact Hp|done|by intros _|by rewrite Hnr|].
      rewrite Hnr, orb_false_r. intros Hb. apply Hsame. by destruct receipt.
    + intros e w3 [Hout [Hs|Hi]]; simpl in *; [left|by right]. unfold view. simpl.
      rewrite Hs2, Hu2. by eapply pending_entered.
Qed.

Lemma route_failed_outcome {A} done rest rules m e (Q : A → TransactionWorld K1 K2 E → Prop) w :
  e ≠ Returned → route_threw done rest rules m e w →
  wp (route_failed request (done ++ m :: rest) rules m e) Q returns w.
Proof.
  intros He Hw. unfold route_failed.
  assert (pending request r0 u0 (done ++ m :: rest) rules (view w)
          ∨ image_live (pmr_candidate m) (tw_routes w)) as Hcase by by destruct e.
  apply wp_bind. apply (wp_mono _ (λ _ w', view w' = view w) _ returns); [| |done].
  { by destruct e as [[]| |]. }
  intros u w1 Hv1. book w2 Hv2. book w3 Hv3. rewrite Hv2, Hv1 in Hv3.
  apply wp_bind. apply wp_catch_all, wp_bind. injection Hv3 as Hr3 Hu3 Hs3. apply tx_dump.
  - intros live k Hk Hl. destruct (route_present _ live) eqn:Hpres.
    { apply wp_ret. by apply fail_candidate_outcome. }
    rewrite Hr3 in Hk. book w4 Hv4. book w5 Hv5. apply (wp_mono _ (λ _ _, False) _ returns); [|done|].
    + apply fail_candidate_outcome. intros _. rewrite Hv5, Hv4. destruct Hcase as [Hp|(d & Hd & Hm)].
      * unfold view. simpl. rewrite Hu3, Hs3. by apply (pending_dump _ _ w k).
      * exfalso. apply not_true_iff_false in Hpres. apply Hpres, route_present_iff. exists d.
        split; [|done]. apply Hl. split; [by apply Hk|]. right.
        apply exact_matches_eq in Hm as (_ & (_ & _ & -> & _)%same_slot_eq & _). done.
    + intros e' w' [-> Hw']. done.
  - intros e' k _. apply wp_ret. by apply fail_candidate_outcome.
Qed.

Lemma apply_routes_pending rules done rest w :
  pending request r0 u0 (done ++ rest) rules (view w) →
  Forall (λ m, route_receipted m = false) rest →
  wp (apply_routes caller request rules done rest)
    (λ l w', pending request r0 u0 l rules (view w')) returns w.
Proof.
  revert done w. induction rest as [|m rest IH]; intros done w Hp Hf; simpl.
  { apply wp_ret. by rewrite app_nil_r in Hp. }
  apply Forall_cons in Hf as [Hm Hf]. apply wp_bind, wp_catch_all.
  eapply wp_mono; [by apply apply_route_pending| |].
  - intros m' w' Hw'. apply IH; [|done]. by rewrite <- (assoc_L (++)).
  - intros [e|e|] w' Hw'; [by apply route_failed_outcome..|by split].
Qed.

(** ** Candidate rules *)

Lemma pending_rule_head routes done m rest v :
  pending request r0 u0 routes (done ++ m :: rest) v → planned_rule request (.∈ rl_live u0) m.
Proof.
  intros Hp. pose proof (pend_planned_rules _ _ _ _ _ _ Hp) as Hf. unfold planned_rules in Hf.
  rewrite Forall_app, Forall_cons in Hf. tauto.
Qed.

(** As [pending_receipt], for a rule. *)
Lemma pending_rule_receipt routes done m rest w k created :
  pending request r0 u0 routes (done ++ m :: rest) (view w) → pmu_created_receipt m = false →
  same_identities_outside (pmu_candidate m) k (tw_rules w) →
  (created = false → same_rules k (tw_rules w)) →
  pending request r0 u0 routes (done ++ with_rule_receipt m created :: rest)
    (tw_routes w, k, true).
Proof.
  intros [Hpr Hpu Hr Hu _] Hm Hk Hnone. unfold planned_rules in Hpu.
  rewrite Forall_app, Forall_cons in Hpu. destruct Hpu as (Hd & [] & Hrest).
  split; simpl in *; try done.
  - unfold planned_rules. rewrite Forall_app, Forall_cons. split_and!; [done|by split|done].
  - intros d Hin. assert (∀ x, x ∈ done ++ m :: rest → pmu_created_receipt x = true →
        rule_occupies_same_identity (pmu_candidate x) d = false) as Hall.
    { intros x [Hx|[->|Hx]%elem_of_cons]%elem_of_app Hrx.
      - apply Hin; [apply elem_of_app; by left|done].
      - congruence.
      - apply Hin; [apply elem_of_app; right; by right|done]. }
    destruct created; [|rewrite (Hnone eq_refl d); by apply Hu].
    rewrite (Hk d); [by apply Hu|].
    apply (Hin (with_rule_receipt m true)); [apply elem_of_app; right; by left|done].
Qed.

(** A promoted rule whose identity is observed empty needs no receipt. *)
Lemma pending_demote routes done m rest v :
  pending request r0 u0 routes (done ++ with_rule_receipt m true :: rest) v →
  (∀ d, d ∈ rl_live v.1.2 → rule_occupies_same_identity (pmu_candidate m) d = false) →
  pending request r0 u0 routes (done ++ m :: rest) v.
Proof.
  intros [Hpr Hpu Hr Hu Hs] Hempty. unfold planned_rules in Hpu.
  rewrite Forall_app, Forall_cons in Hpu. destruct Hpu as (Hd & [] & Hrest). simpl in *.
  split; try done.
  - unfold planned_rules. rewrite Forall_app, Forall_cons. split_and!; [done|by split|done].
  - intros d Hin. destruct (rule_occupies_same_identity (pmu_candidate m) d) eqn:Hi.
    + split; [|by intros ?%planned_rule_empty]. intros Hd'. by rewrite Hempty in Hi.
    + apply Hu. intros x [Hx|[->|Hx]%elem_of_cons]%elem_of_app Hrx; [|done|].
      * apply Hin; [apply elem_of_app; by left|done].
      * apply Hin; [apply elem_of_app; right; by right|done].
  - intros Hv. destruct (Hs Hv) as [_ Hall]. rewrite Forall_app, Forall_cons in Hall.
    by destruct Hall as (_ & ? & _).
Qed.

Lemma check_rule_pending routes done m rest w :
  pending request r0 u0 routes (done ++ m :: rest) (view w) →
  wp (check_candidate_rule caller request routes (done ++ m :: rest) m)
    (λ due w', pending request r0 u0 routes (done ++ m :: rest) (view w')
               ∧ (due = true → tr_mutation_started (tw_result w') = true))
    (λ e w', match e with
             | Returned => outcome w'
             | _ => pending request r0 u0 routes (done ++ m :: rest) (view w')
             end) w.
Proof.
  intros Hp. unfold check_candidate_rule.
  assert (∀ e w', returns e w' → match e with
             | Returned => outcome w'
             | _ => pending request r0 u0 routes (done ++ m :: rest) (view w')
             end) as Hret by by intros e w' [-> Hw'].
  apply wp_bind. apply tx_dump; [|intros e k Hk; by apply pending_dump].
  intros current k Hk _. pose proof (pending_dump _ _ _ _ Hp Hk) as Hp1. clear Hp.
  generalize dependent (set_tw_routes k w). clear w Hk. intros w Hp.
  destruct (negb _).
  { book w1 Hv1. eapply (wp_mono _ (λ _ _, False)); [apply fail_candidate_outcome|done|exact Hret].
    intros _. by rewrite Hv1. }
  apply wp_bind. apply tx_rule_dump; [|intros e k' Hk; by apply pending_rule_dump].
  intros live k' Hk Hl. pose proof (pending_rule_dump _ _ _ _ Hp Hk) as Hp1. clear Hp.
  generalize dependent (set_tw_rules k' w). clear w Hk. intros w Hp.
  destruct (exact_rule_state _ live).
  - book w1 Hv1. rewrite <- Hv1 in Hp. clear Hv1. destruct a.
    + apply wp_bind, enter_view. intros w2 Hv2. apply wp_ret. rewrite Hv2.
      injection Hv2 as Hr2 Hu2 Hs2. split; [|done]. by eapply pending_entered.
    + eapply (wp_mono _ (λ _ _, False)); [by apply fail_fence_outcome|done|exact Hret].
    + eapply (wp_mono _ (λ _ _, False)); [by apply fail_fence_outcome|done|exact Hret].
  - book w1 Hv1. book w2 Hv2. apply wp_ret. by rewrite Hv2, Hv1.
  - book w1 Hv1. eapply (wp_mono _ (λ _ _, False)); [apply fail_candidate_outcome|done|exact Hret].
    intros _. by rewrite Hv1.
Qed.

Lemma rule_failed_outcome {A} routes done m rest (add_started : bool)
    (Q : A → TransactionWorld K1 K2 E → Prop) w :
  pending request r0 u0 routes
    (done ++ (if add_started then with_rule_receipt m true else m) :: rest) (view w) →
  wp (rule_failed request routes (λ x, done ++ x :: rest) m add_started) Q returns w.
Proof.
  intros Hp. unfold rule_failed. book w1 Hv1. book w2 Hv2. rewrite <- Hv1, <- Hv2 in Hp.
  apply wp_bind. apply wp_catch_all, wp_bind. apply tx_rule_dump.
  2:{ intros e k _. apply wp_ret. by apply fail_candidate_outcome. }
  intros live k Hk Hl. pose proof (pending_rule_dump _ _ _ _ Hp Hk) as Hp1. clear Hp.
  destruct (exact_rule_state _ live) eqn:Hstate.
  - assert (pending request r0 u0 routes (done ++ m :: rest) (view (set_tw_rules k w2))) as Hp2.
    { destruct add_started; [|done]. apply pending_demote; [done|]. simpl.
      eapply dump_rule_empty; [exact Hl|by right|done]. }
    book w3 Hv3. book w4 Hv4. apply wp_returns, fail_candidate_outcome. by rewrite Hv4, Hv3.
  - destruct add_started; [|apply wp_ret; by apply fail_candidate_outcome].
    book w3 Hv3. book w4 Hv4. apply wp_returns, fail_candidate_outcome. by rewrite Hv4, Hv3.
  - apply wp_ret. by apply fail_candidate_outcome.
Qed.

Lemma apply_rules_pending routes done rest w :
  pending request r0 u0 routes (done ++ rest) (view w) →
  Forall (λ m, pmu_created_receipt m = false) rest →
  wp (apply_rules caller request routes done rest)
    (λ l w', pending request r0 u0 routes l (view w')) returns w.
Proof.
  revert done w. induction rest as [|m rest IH]; intros done w Hp Hf; simpl.
  { apply wp_ret. by rewrite app_nil_r in Hp. }
  apply Forall_cons in Hf as [Hm Hf]. apply wp_bind.
  apply (wp_mono _ (λ m' w', pending request r0 u0 routes (done ++ m' :: rest) (view w')) _ returns);
    [|intros m' w' Hw'; apply IH; [by rewrite <- (assoc_L (++))|done]|done].
  unfold apply_rule. apply wp_bind, wp_catch_all.
  eapply wp_mono; [by apply check_rule_pending| |].
  2:{ intros [e|e|] w' Hw'; [by apply rule_failed_outcome..|by split]. }
  clear w Hp. intros [] w [Hp Hs]; [|by apply wp_ret]. specialize (Hs eq_refl).
  apply wp_catch_all, wp_bind, wp_tx_rules.
  eapply wp_mono; [exact (kernel_rule_add (pmu_candidate m) (unused_rules, tw_rules w))| |].
  - intros receipt w1 [Hout Hsame]. simpl in *. book w2 Hv2. book w3 Hv3. apply wp_ret.
    rewrite Hv3, Hv2. unfold view. simpl. rewrite Hs.
    eapply pending_rule_receipt; [exact Hp|done|done|]. intros Hb. apply Hsame. by destruct receipt.
  - intros e w1 Hout. simpl in *. apply rule_failed_outcome. unfold view. simpl. rewrite Hs.
    by eapply pending_rule_receipt.
Qed.

Lemma verify_candidate_outcome entry routes rules w :
  pending request r0 u0 routes rules (view w) →
  wp (verify_candidate caller request entry routes rules) (λ _ _, True) returns w.
Proof.
  intros Hp. unfold verify_candidate.
  apply wp_catch_all, wp_bind. apply tx_dump.
  2:{ intros e k _. book w1 Hv1. by apply fail_candidate_outcome. }
  intros lr k Hk _. pose proof (pending_dump _ _ _ _ Hp Hk) as Hp1. clear Hp.
  generalize dependent (set_tw_routes k w). clear w Hk. intros w Hp.
  apply wp_bind. apply tx_rule_dump.
  2:{ intros e k' _. book w1 Hv1. by apply fail_candidate_outcome. }
  intros lu k' Hk _. pose proof (pending_rule_dump _ _ _ _ Hp Hk) as Hp1. clear Hp.
  generalize dependent (set_tw_rules k' w). clear w Hk. intros w Hp.
  destruct (negb _).
  { book w1 Hv1. apply wp_returns, fail_candidate_outcome. intros _. by rewrite Hv1. }
  book w1 Hv1. rewrite <- Hv1 in Hp. clear Hv1. destruct a; [done|..].
  all: by apply wp_returns, fail_fence_outcome.
Qed.

(** ** Cleanup always comes to an end *)

Definition total {A} (m : TX (K1 := K1) (K2 := K2) (E := E) A) : Prop :=
  ∀ w, wp m (λ _ _, True) (λ _ _, False) w.
Definition no_return {A} (m : TX (K1 := K1) (K2 := K2) (E := E) A) : Prop :=
  ∀ w, wp m (λ _ _, True) (λ e _, e ≠ Returned) w.

Lemma quiet_total {A} (m : TX A) : quiet m → total m.
Proof. intros Hm w. by apply wp_quiet. Qed.

Lemma total_no_return {A} (m : TX A) : total m → no_return m.
Proof. intros Hm w. by eapply wp_mono; [apply Hm| |]. Qed.

Lemma total_bind {A B} (m : TX A) (k : A → TX B) : total m → (∀ a, total (k a)) → total (mbind k m).
Proof. intros Hm Hk w. apply wp_bind. eapply wp_mono; [apply Hm| |done]. intros a w' _. apply Hk. Qed.

Lemma no_return_bind {A B} (m : TX A) (k : A → TX B) :
  no_return m → (∀ a, no_return (k a)) → no_return (mbind k m).
Proof. intros Hm Hk w. apply wp_bind. eapply wp_mono; [apply Hm| |done]. intros a w' _. apply Hk. Qed.

Lemma total_catch {A} (m : TX A) h : no_return m → (∀ e, total (h e)) → total (catch_all m h).
Proof.
  intros Hm Hh w. apply wp_catch_all. eapply wp_mono; [apply Hm|done|].
  intros [e|e|] w' He; [apply Hh..|done].
Qed.

Lemma no_return_routes {A} (m : RT K1 A) : no_return (tx_routes m).
Proof. intros w. apply wp_tx_routes. unfold wp. by destruct (m _) as [w' []]. Qed.

Lemma no_return_rules {A} (m : PM K2 A) : no_return (tx_rules m).
Proof. intros w. apply wp_tx_rules. unfold wp. by destruct (m _) as [w' []]. Qed.

Lemma total_enter : total enter_mutation.
Proof. intros w. by apply enter_view. Qed.

Lemma total_mfold {A B} (f : B → A → TX B) b l : (∀ b x, total (f b x)) → total (mfold f b l).
Proof.
  intros Hf. revert b. induction l as [|x l IH]; intros b; [by apply quiet_total, quiet_ret|].
  simpl. by apply total_bind.
Qed.

Lemma no_return_mfold {A B} (f : B → A → TX B) b l :
  (∀ b x, no_return (f b x)) → no_return (mfold f b l).
Proof.
  intros Hf. revert b. induction l as [|x l IH]; intros b; [by apply total_no_return, quiet_total, quiet_ret|].
  simpl. by apply no_return_bind.
Qed.
End Abort.

Create HintDb total discriminated.
#[export] Hint Resolve quiet_total total_no_return no_return_routes no_return_rules total_enter : total.
#[export] Hint Resolve quiet_ret quiet_pub quiet_set_entry_state quiet_set_entry_receipt
  quiet_entries_state quiet_entries_receipt quiet_mark quiet_result quiet_fence : total.

(** Follows the structure of a computation whose exceptions are all handled. *)
Ltac totality :=
  repeat match goal with
  | |- no_return _ => solve [eauto 3 with total]
  | |- total _ => solve [eauto 3 with total]
  | |- no_return (mbind _ _) => apply no_return_bind
  | |- total (mbind _ _) => apply total_bind
  | |- total (catch_all _ _) => apply total_catch
  | |- total (mfold _ _ _) => apply total_mfold
  | |- total (mfor _ _) => apply total_mfold
  | |- no_return (mfold _ _ _) => apply no_return_mfold
  | |- no_return (mfor _ _) => apply no_return_mfold
  | |- no_return (if ?b then _ else _) => destruct b
  | |- no_return (match ?x with _ => _ end) => destruct x
  | |- total (if ?b then _ else _) => destruct b
  | |- total (match ?x with _ => _ end) => destruct x
  | |- ∀ _, _ => intro
  end.

Section Guarantee.
Context {K1 K2 E : Type} `{HS : RouteSlotLaws K1} `{HP : RulePresentLaws K2}.
Context (caller : TransactionCaller E) (request : TransactionRequest).

Implicit Types w : TransactionWorld K1 K2 E.

Lemma total_cleanup_rule p c : total (cleanup_rule caller request p c : TX (K1 := K1) (K2 := K2) _).
Proof. unfold cleanup_rule. totality. Qed.

Lemma total_cleanup_route p c : total (cleanup_route caller request p c : TX (K1 := K1) (K2 := K2) _).
Proof. unfold cleanup_route. totality. Qed.

Lemma total_prove_absence entry stale :
  total (prove_stale_absence entry stale : TX (K1 := K1) (K2 := K2) (E := E) _).
Proof. unfold prove_stale_absence. totality. Qed.
#[local] Hint Resolve total_cleanup_rule total_cleanup_route total_prove_absence : total.

Lemma total_cleanup plan : total (cleanup caller request plan : TX (K1 := K1) (K2 := K2) _).
Proof. unfold cleanup. totality. Qed.

Lemma total_mark_skipped routes rules :
  total (mark_unused_rollbacks_skipped routes rules : TX (K1 := K1) (K2 := K2) (E := E) _).
Proof. unfold mark_unused_rollbacks_skipped. totality. Qed.

(** The committed verification ends in a terminal that is not an abort. *)
Lemma verify_committed_terminal plan p w :
  wp (verify_committed caller request plan p)
    (λ _ w', aborted (tr_terminal (tw_result w')) = false) (λ _ _, False) w.
Proof.
  unfold verify_committed. apply wp_catch_all, wp_bind.
  eapply wp_mono; [apply no_return_routes| |by intros [] w' Hw'].
  intros lr w1 _. apply wp_bind. eapply wp_mono; [apply no_return_rules| |by intros [] w' Hw'].
  intros lu w2 _. book w3 Hv3. destruct (negb _); [done|]. simpl.
  destruct (_ || _); by apply wp_bind.
Qed.

(** ** The prologue *)

Section Prologue.
Context (r0 : K1) (u0 : K2).

Lemma refuse_outcome {A} terminal (Q : A → TransactionWorld K1 K2 E → Prop) w :
  untouched r0 u0 (view w) → wp (refuse terminal) Q (returns r0 u0) w.
Proof. intros Hw. split; [done|]. by intros _. Qed.

Lemma view_untouched w b : view w = (r0, u0, b) → untouched r0 u0 (view w).
Proof. by intros ->. Qed.

Lemma admit_fence_outcome w :
  view w = (r0, u0, false) →
  wp (admit_fence caller request) (λ _ w', view w' = (r0, u0, false)) (returns r0 u0) w.
Proof.
  intros Hv. assert (∀ t w', view w' = (r0, u0, false) →
    wp (refuse t : TX unit) (λ _ w', view w' = (r0, u0, false)) (returns r0 u0) w') as Hrefuse.
  { intros t w' Hw'. apply refuse_outcome. by rewrite Hw'. }
  unfold admit_fence. destruct (tc_fence caller) as [probe|]; [|by apply Hrefuse].
  apply wp_bind. unfold wp at 1, tx_env. destruct (probe (tw_env w)) as [env [c|e]]; [|by apply Hrefuse].
  apply wp_bind, wp_quiet; [by auto with quiet|]. intros u w' Hw'.
  assert (view w' = (r0, u0, false)) as Hv' by (rewrite Hw'; exact Hv).
  destruct (stale_reason _ _); [by apply wp_ret|by apply Hrefuse..].
Qed.

Lemma acquire_lease_outcome w :
  view w = (r0, u0, false) →
  wp (acquire_lease caller) (λ _ w', view w' = (r0, u0, false)) (returns r0 u0) w.
Proof.
  intros Hv. unfold acquire_lease. apply wp_bind, wp_gets, wp_bind, wp_gets.
  destruct (_ || _); [apply refuse_outcome; by rewrite Hv|].
  apply wp_bind. unfold wp at 1, tx_env. destruct (tc_acquire_lease caller (tw_env w)) as [env [[]|e]].
  - apply wp_ret. exact Hv.
  - apply refuse_outcome, (view_untouched _ false). exact Hv.
  - apply refuse_outcome, (view_untouched _ false). exact Hv.
Qed.

Lemma planned_route_iff (S S' : DumpedRoute → Prop) m :
  (∀ d, S d ↔ S' d) → planned_route request S m → planned_route request S' m.
Proof.
  intros HSS [? ? ? ? Hpre Hempty ? ? ?]. split; try done.
  - intros Hr. destruct (Hpre Hr) as (p & ? & ? & ? & ? & Hp). exists p. split_and!; try done.
    intros d Hd. rewrite <- HSS. by apply Hp.
  - intros Hr d Hd. rewrite <- HSS. by apply Hempty.
Qed.

Lemma planned_rule_iff (S S' : DumpedRule → Prop) m :
  (∀ d, S d ↔ S' d) → planned_rule request S m → planned_rule request S' m.
Proof. intros HSS [? ? Hempty]. split; try done. intros d Hd. rewrite <- HSS. by apply Hempty. Qed.

(** The plan as it enters the forward path. *)
Definition plan_ready (plan : Plan) (v : K1 * K2 * bool) : Prop :=
  pending request r0 u0 (pl_routes plan) (pl_rules plan) v ∧ v.2 = false
  ∧ Forall (λ m, route_receipted m = false) (pl_routes plan)
  ∧ Forall (λ m, pmu_created_receipt m = false) (pl_rules plan).

Lemma plan_ready_intro lr lu plan v :
  plan_facts request lr lu plan → untouched r0 u0 v → v.2 = false →
  (∀ d, d ∈ lr ↔ d ∈ nl_live r0) → (∀ d, d ∈ lu ↔ d ∈ rl_live u0) → plan_ready plan v.
Proof.
  intros Hf [Hr Hu] Hv Hlr Hlu. pose proof (facts_routes _ _ _ _ Hf) as Hroutes.
  pose proof (facts_rules _ _ _ _ Hf) as Hrules. rewrite Forall_forall in Hroutes. rewrite Forall_forall in Hrules.
  assert (Forall (λ m, route_receipted m = false) (pl_routes plan)) as Hfr.
  { apply Forall_forall. intros m Hm. by apply Hroutes. }
  assert (Forall (λ m, pmu_created_receipt m = false) (pl_rules plan)) as Hfu.
  { apply Forall_forall. intros m Hm. by apply Hrules. }
  split_and!; try done. split; try done.
  - apply Forall_forall. intros m Hm. apply (planned_route_iff (.∈ lr)); [done|]. by apply Hroutes.
  - apply Forall_forall. intros m Hm. apply (planned_rule_iff (.∈ lu)); [done|]. by apply Hrules.
  - intros d _. apply Hr.
  - intros d _. apply Hu.
Qed.

(** The inventory a plan was made from is the initial one. *)
Definition planned_from_initial (plan : Plan) : Prop :=
  ∃ lr lu, build_plan request lr lu = Ok plan
           ∧ (∀ d, d ∈ lr ↔ d ∈ nl_live r0) ∧ (∀ d, d ∈ lu ↔ d ∈ rl_live u0).

Lemma make_plan_outcome w :
  (∀ c, c ∈ tq_desired_routes request → 0 ≤ rt_metric c) → view w = (r0, u0, false) →
  wp (make_plan request) (λ plan w', plan_ready plan (view w') ∧ planned_from_initial plan)
    (returns r0 u0) w.
Proof.
  intros Hmetric Hv. injection Hv as Hr Hu Hs. unfold make_plan. apply wp_bind.
  apply (wp_mono _ (λ '(lr, lu) w', untouched r0 u0 (view w') ∧ (view w').2 = false
     ∧ (∀ d, d ∈ lr ↔ d ∈ nl_live r0) ∧ (∀ d, d ∈ lu ↔ d ∈ rl_live u0)) _ (returns r0 u0)); [| |done].
  - apply wp_catch_all, wp_bind. apply tx_dump.
    + intros lr k Hk Hlr. rewrite Hr in Hk. apply wp_bind. apply tx_rule_dump.
      * simpl. rewrite Hu. intros lu k' Hk' Hlu. apply wp_ret. split_and!; [by split|done| |].
        -- intros d. rewrite Hlr, (Hk d). naive_solver.
        -- intros d. rewrite Hlu, (Hk' d). naive_solver.
      * simpl. rewrite Hu. intros e k' Hk'. apply refuse_outcome. by split.
    + rewrite Hr. intros e k Hk. apply refuse_outcome. split; [done|]. intros d. simpl. by rewrite Hu.
  - intros [lr lu] w1 (Hun & Hs1 & Hlr & Hlu).
    apply wp_bind. apply (wp_mono _ (λ _ w', view w' = view w1) _ (returns r0 u0)); [| |done].
    { by destruct (tq_require_prior_preimage_proof request). }
    intros u w2 Hv2. destruct (build_plan request lr lu) as [plan|e] eqn:Hplan.
    + apply wp_ret. rewrite Hv2. split; [|by exists lr, lu].
      by eapply plan_ready_intro; [apply build_plan_facts| | | |].
    + apply refuse_outcome. by rewrite Hv2.
Qed.

Lemma ready_untouched plan v : plan_ready plan v → untouched r0 u0 v.
Proof. intros (Hp & Hv & _). by eapply pending_unstarted. Qed.

Lemma publish_journal_outcome plan w :
  plan_ready plan (view w) →
  wp (publish_journal caller request plan) (λ _ w', plan_ready plan (view w')) (returns r0 u0) w.
Proof.
  intros Hp. unfold publish_journal. book w1 Hv1. rewrite <- Hv1 in Hp. clear Hv1.
  apply wp_bind, wp_gets, wp_bind.
  apply (wp_mono _ (λ _ w', view w' = view w1) _ (returns r0 u0)); [| |done].
  { destruct (tc_publish caller) as [publish|]; [|done]. unfold wp, tx_env.
    by destruct (publish _ _). }
  intros retained w2 Hv2. rewrite <- Hv2 in Hp.
  assert (wp (_ ← publish_stage SJournalPublish; _ ← publish_terminal TPreconditionFailed;
              _ ← tx_result (set_terminal TPreconditionFailed); _ ← retain_result_journal;
              throw Returned : TX unit)
            (λ _ w', plan_ready plan (view w')) (returns r0 u0) w2) as Hfail.
  { split; [done|]. intros _. exact (ready_untouched _ _ Hp). }
  destruct retained as [[]|e]; [by apply wp_ret|done|done].
Qed.

Lemma confirm_fence_outcome plan w :
  plan_ready plan (view w) →
  wp (confirm_fence caller request) (λ _ w', plan_ready plan (view w')) (returns r0 u0) w.
Proof.
  intros Hp. unfold confirm_fence. book w1 Hv1. rewrite <- Hv1 in Hp. destruct a; [by apply wp_ret|..].
  all: split; [done|]; intros _; exact (ready_untouched _ _ Hp).
Qed.
End Prologue.
End Guarantee.

(** The whole run, at each of its exits. *)
Lemma run_transaction_outcome {K1 K2 E : Type} `{HS : RouteSlotLaws K1} `{HP : RulePresentLaws K2}
    (caller : TransactionCaller E) (request : TransactionRequest) (r0 : K1) (u0 : K2) (env : E) :
  (∀ c, c ∈ tq_desired_routes request → 0 ≤ rt_metric c) →
  wp (run_transaction caller request) (λ _, outcome r0 u0) (returns r0 u0)
    {| tw_routes := r0; tw_rules := u0; tw_env := env; tw_pub := blank_journal request;
       tw_result := initial_result |}.
Proof.
  intros Hmetric. set (w0 := {| tw_routes := r0 |}).
  unfold run_transaction. apply wp_bind.
  eapply wp_mono; [by apply admit_fence_outcome| |done]. intros x1 w1 Hw1. apply wp_bind.
  eapply wp_mono; [exact (acquire_lease_outcome caller r0 u0 w1 Hw1)| |done]. intros x2 w2 Hw2. apply wp_bind.
  eapply wp_mono; [exact (make_plan_outcome request r0 u0 w2 Hmetric Hw2)| |done]. intros plan w3 [Hw3 _]. apply wp_bind.
  eapply wp_mono; [exact (publish_journal_outcome caller request r0 u0 plan w3 Hw3)| |done]. intros x3 w4 Hw4. apply wp_bind.
  eapply wp_mono; [exact (confirm_fence_outcome caller request r0 u0 plan w4 Hw4)| |done].
  intros x4 w5 (Hp & _ & Hr & Hu). apply wp_bind.
  eapply wp_mono; [exact (apply_routes_pending caller request r0 u0 _ [] _ w5 Hp Hr)| |done]. intros routes w6 Hp6. apply wp_bind.
  eapply wp_mono; [exact (apply_rules_pending caller request r0 u0 _ [] _ w6 Hp6 Hu)| |done]. intros rules w7 Hp7. apply wp_bind.
  eapply wp_mono; [exact (verify_candidate_outcome caller request r0 u0 _ _ _ w7 Hp7)| |done]. intros x5 w8 _. apply wp_bind.
  eapply wp_mono; [apply total_mark_skipped| |done]. intros x6 w9 _. apply wp_bind.
  eapply wp_mono; [apply total_cleanup| |done]. intros p w10 _. apply wp_bind.
  eapply wp_mono; [apply verify_committed_terminal| |done]. intros x7 w11 Hw11.
  intros Habort. simpl in Habort. congruence.
Qed.

Lemma execute_aborted {K1 K2 E : Type} `{HS : RouteSlotLaws K1} `{HP : RulePresentLaws K2}
    (caller : TransactionCaller E) (request : TransactionRequest) (r0 : K1) (u0 : K2) (env : E) :
  (∀ c, c ∈ tq_desired_routes request → 0 ≤ rt_metric c) →
  outcome r0 u0 (execute_runtime_routing_transaction caller request r0 u0 env).
Proof.
  intros Hmetric. pose proof (run_transaction_outcome caller request r0 u0 env Hmetric) as Hwp.
  unfold execute_runtime_routing_transaction, wp, returns in *.
  destruct (run_transaction caller request _) as [w [u|e]]; [exact Hwp | exact (proj2 Hwp)].
Qed.

(** C1. A transaction that ends in [TStaleBeforeMutation], [TCandidateRolledBack] or
    [TPreconditionFailed] leaves the kernel with exactly the routes and the policy
    rules it found: for every request, every plan, every fence probe and journal
    publisher, and every pattern of failing, refused and unreported netlink calls
    (interface loss and exceptions with lost receipts included), as long as other
    processes leave the planned slots alone. *)
Theorem aborted_transaction_restores {K1 K2 E : Type} `{HS : RouteSlotLaws K1}
    `{HP : RulePresentLaws K2} (caller : TransactionCaller E) (request : TransactionRequest)
    (r0 : K1) (u0 : K2) (env : E)
    (Hmetric : ∀ c, c ∈ tq_desired_routes request → 0 ≤ rt_metric c)
    (Habort : aborted (tr_terminal (tw_result
       (execute_runtime_routing_transaction caller request r0 u0 env))) = true) :
  let w := execute_runtime_routing_transaction caller request r0 u0 env in
  same_routes (tw_routes w) r0 ∧ same_rules (tw_rules w) u0.
Proof. exact (execute_aborted caller request r0 u0 env Hmetric Habort). Qed.
