(* ===== verification/TransactionOwned.v ===== *)
(** * The exact routing transaction: what it may touch

    The ownership invariant: a transaction changes only generated routes and the
    rules it desires or retires. Every operation of the transaction preserves it. *)

From Stdlib Require Import ZArith Lia Ascii String.
From stdpp Require Import base gmap strings list.
From S2P Require Import Prelude ConfigTypes RoutingPlan KernelRoutes ListParser StateError.
From S2P Require Import RouteTable RouteTableSafety RouteTableConverge.
From S2P Require Import PolicyRules PolicyRulesSafety TransactionPlan Transaction.
From S2P Require Import TransactionKernel TransactionPlanFacts TransactionRollback TransactionAbort.
Open Scope Z_scope.

Section Commit.
Context {K1 K2 E : Type} `{HS : RouteSlotLaws K1} `{HP : RulePresentLaws K2}.
Context (caller : TransactionCaller E) (request : TransactionRequest) (r0 : K1) (u0 : K2).
Context (stale_rules : list RuleSpec).

Implicit Types w : TransactionWorld K1 K2 E.

(** Only generated routes change, only slots of desired routes gain routes; only
    desired and stale rules change, only desired rules are created; and nothing
    was committed yet. *)
Record confined (w : TransactionWorld K1 K2 E) : Prop := {
  conf_routes : ∀ d, is_generated_route_candidate d = false →
    d ∈ nl_live (tw_routes w) ↔ d ∈ nl_live r0;
  conf_new_routes : ∀ d, d ∈ nl_live (tw_routes w) → d ∈ nl_live r0
    ∨ ∃ c, c ∈ tq_desired_routes request ∧ exact_route_same_slot c d = true;
  conf_rules : ∀ d,
    (∀ r, r ∈ concrete_rules (tq_desired_rules request) → rule_occupies_same_identity r d = false) →
    (∀ r, r ∈ stale_rules → rule_occupies_same_identity r d = false) →
    d ∈ rl_live (tw_rules w) ↔ d ∈ rl_live u0;
  conf_new_rules : ∀ d, d ∈ rl_live (tw_rules w) → d ∈ rl_live u0
    ∨ ∃ r, r ∈ concrete_rules (tq_desired_rules request) ∧ rule_occupies_same_identity r d = true;
  conf_terminal : tr_terminal (tw_result w) ≠ TCandidateCommitted;
}.

(** A route specification the transaction may write or remove. *)
Definition own_slot (spec : RouteSpec) : Prop :=
  explicit_slot spec ∧ generated_spec spec
  ∧ ∃ c, c ∈ tq_desired_routes request ∧ ∀ d, exact_route_same_slot spec d = exact_route_same_slot c d.

Definition own_mutation (m : PlannedRouteMutation) : Prop :=
  own_slot (pmr_candidate m)
  ∧ ∀ p, p ∈ pmr_preimages m →
      own_slot p ∧ ∀ d, exact_route_same_slot p d = exact_route_same_slot (pmr_candidate m) d.

Definition own_rule_mutation (m : PlannedRuleMutation) : Prop :=
  pmu_candidate m ∈ concrete_rules (tq_desired_rules request) ∧ explicit_rule (pmu_candidate m).

(** ** Primitives *)

Lemma confined_kernels w w' :
  confined w → same_routes (tw_routes w') (tw_routes w) → same_rules (tw_rules w') (tw_rules w) →
  tr_terminal (tw_result w') ≠ TCandidateCommitted → confined w'.
Proof.
  intros [H1' H2' H3' H4' _] Hr Hu Ht. split; [| | | |done].
  - intros d Hd. rewrite (Hr d). by apply H1'.
  - intros d. rewrite (Hr d). apply H2'.
  - intros d Hd Hs. rewrite (Hu d). by apply H3'.
  - intros d. rewrite (Hu d). apply H4'.
Qed.

Lemma confined_dump f : preserves confined (tx_routes (dump_routes f)).
Proof.
  apply preserves_wp. intros w Hw. apply tx_dump; intros ? k Hk.
  - intros _. by apply (confined_kernels w); [| | |apply Hw].
  - by apply (confined_kernels w); [| | |apply Hw].
Qed.

Lemma confined_rule_dump f : preserves confined (tx_rules (dump_policy_rules f)).
Proof.
  apply preserves_wp. intros w Hw. apply tx_rule_dump; intros ? k Hk.
  - intros _. by apply (confined_kernels w); [| | |apply Hw].
  - by apply (confined_kernels w); [| | |apply Hw].
Qed.

Lemma confined_pub f : preserves confined (tx_pub f).
Proof. intros w Hw. by apply (confined_kernels w); [| | |apply Hw]. Qed.

Lemma confined_result f :
  (∀ r, tr_terminal r ≠ TCandidateCommitted → tr_terminal (f r) ≠ TCandidateCommitted) →
  preserves confined (tx_result f).
Proof. intros Hf w Hw. apply (confined_kernels w); [done|done|done|]. apply Hf, Hw. Qed.

Lemma confined_env {A} (op : E → E * A) : preserves confined (tx_env op).
Proof.
  intros w Hw. unfold tx_env. destruct (op (tw_env w)). by apply (confined_kernels w); [| | |apply Hw].
Qed.

(** A write confined to an own slot. *)
Lemma confined_slot spec w k :
  own_slot spec → confined w → confined_to spec k (tw_routes w) → confined (set_tw_routes k w).
Proof.
  intros (_ & _ & c & Hc & Hslot) [H1' H2' H3' H4' Ht] [Hout Hgen]. split; try done; simpl.
  - intros d Hd. rewrite Hgen by done. by apply H1'.
  - intros d Hd. destruct (exact_route_same_slot spec d) eqn:Hs.
    + right. exists c. by rewrite <- Hslot.
    + apply H2'. by apply (Hout d Hs).
Qed.

Lemma confined_add_route spec : own_slot spec → preserves confined (tx_routes (add_route spec)).
Proof.
  intros Ho. apply preserves_wp. intros w Hw. apply wp_tx_routes.
  eapply wp_mono; [apply confined_add; apply Ho| |]; intros ? w' Hw'; by eapply confined_slot.
Qed.

Lemma confined_replace_route expected replacement :
  own_slot expected → own_slot replacement →
  (∀ d, exact_route_same_slot expected d = exact_route_same_slot replacement d) →
  preserves confined (tx_routes (replace_route_if_exact expected replacement)).
Proof.
  intros He Ho Hs. apply preserves_wp. intros w Hw. apply wp_tx_routes.
  eapply wp_mono; [apply confined_replace_exact| |]; try intros ? w' Hw'; try by eapply confined_slot.
  - apply Ho.
  - apply explicit_family, He.
  - apply He.
  - apply Ho.
  - exact Hs.
Qed.

(** An exact delete of a generated route, wherever it is. *)
Lemma confined_delete_route expected :
  rt_family expected ≠ 0 → generated_spec expected →
  preserves confined (tx_routes (delete_route_if_exact expected)).
Proof.
  intros Hf Hg. apply preserves_wp. intros w [H1' H2' H3' H4' Ht]. apply wp_tx_routes.
  assert (∀ k : K1, (∀ d, route_matches_live expected d = false →
      d ∈ nl_live (tw_routes w) → d ∈ nl_live k) →
    (∀ d, d ∈ nl_live k → d ∈ nl_live (tw_routes w)) → confined (set_tw_routes k w)) as Hk.
  { intros k Hkeep Hnew. split; try done; simpl.
    - intros d Hd. rewrite <- H1' by done. split; [apply Hnew|]. apply Hkeep.
      apply not_true_iff_false. intros Hm. rewrite (generated_matches expected) in Hd; done.
    - intros d Hd. apply H2', Hnew, Hd. }
  eapply wp_mono; [exact (kernel_delete_exact expected (unused_table, tw_routes w) Hf)| |];
    intros ? w' [Hkeep Hnew]; by apply Hk.
Qed.

Lemma confined_add_rule m :
  own_rule_mutation m →
  preserves confined (tx_rules (add_rule_for_family (pmu_candidate m) (ru_family (pmu_candidate m)))).
Proof.
  intros [Hin He]. apply preserves_wp. intros w [H1' H2' H3' H4' Ht]. apply wp_tx_rules.
  assert (∀ k, same_identities_outside (pmu_candidate m) k (tw_rules w) →
               confined (set_tw_rules k w)) as Hk.
  { intros k Hk. split; try done; simpl.
    - intros d Hd Hs. rewrite (Hk d) by by apply Hd. by apply H3'.
    - intros d Hd. destruct (rule_occupies_same_identity (pmu_candidate m) d) eqn:Hi; [by right; eauto|].
      apply H4'. by rewrite <- (Hk d). }
  eapply wp_mono; [exact (kernel_rule_add (pmu_candidate m) (unused_rules, tw_rules w))| |].
  - intros r w' [Hout _]. by apply Hk.
  - intros e w' Hout. by apply Hk.
Qed.

Lemma confined_delete_rule r :
  explicit_rule r → r ∈ concrete_rules (tq_desired_rules request) ∨ r ∈ stale_rules →
  preserves confined (tx_rules (delete_rule_if_exact r (ru_family r))).
Proof.
  intros He Hin. apply preserves_wp. intros w [H1' H2' H3' H4' Ht]. apply wp_tx_rules.
  eapply wp_mono; [exact (kernel_rule_delete_exact r (unused_rules, tw_rules w) He)| |];
    intros ? w' [Hout Hnew]; simpl in *.
  all: split; try done; simpl; [intros d Hd Hs|intros d Hd; by apply H4', Hnew].
  all: assert (rule_occupies_same_identity r d = false) as Hi by (destruct Hin; auto).
  all: rewrite (Hout d Hi); by apply H3'.
Qed.

(** ** Composition *)

Lemma confined_catch {A} (m : TX A) h :
  preserves confined m → (∀ e, preserves confined (h e)) → preserves confined (catch_all m h).
Proof. intros Hm Hh. apply preserves_catch; [done|]. intros [e|e|]; [apply Hh..|apply preserves_throw]. Qed.

Lemma confined_terminal t : t ≠ TCandidateCommitted → preserves confined (tx_result (set_terminal t)).
Proof. intros Ht. by apply confined_result. Qed.

Lemma confined_retain : preserves confined retain_result_journal.
Proof. intros w Hw. by apply (confined_kernels w); [| | |apply Hw]. Qed.

Lemma confined_enter : preserves confined enter_mutation.
Proof. intros w Hw. by apply (confined_kernels w); [| | |apply Hw]. Qed.

Lemma confined_entry_state i s : preserves confined (set_entry_state i s).
Proof. apply confined_pub. Qed.
Lemma confined_entry_receipt i r : preserves confined (set_entry_receipt i r).
Proof. apply confined_pub. Qed.
#[local] Hint Resolve confined_dump confined_rule_dump confined_pub confined_env confined_add_route
  confined_retain confined_enter confined_entry_state confined_entry_receipt : preserves.

Lemma confined_entries_state l s : preserves confined (set_entries_state l s).
Proof. unfold set_entries_state. preserve. Qed.
Lemma confined_entries_receipt l r : preserves confined (set_entries_receipt l r).
Proof. unfold set_entries_receipt. preserve. Qed.
#[local] Hint Resolve confined_entries_state confined_entries_receipt : preserves.

Lemma confined_mark m r s : preserves confined (mark_rollback m r s).
Proof. unfold mark_rollback. preserve. Qed.

Lemma confined_fence : preserves confined (observe_fence caller request).
Proof.
  unfold observe_fence. destruct (tc_fence caller); [|apply preserves_ret].
  apply preserves_bind; [apply confined_env|]. intros [c|e].
  all: apply preserves_bind; [by apply confined_result|]; intros; apply preserves_ret.
Qed.

Lemma confined_publish_stage s : preserves confined (publish_stage s).
Proof. apply confined_pub. Qed.
Lemma confined_publish_terminal t : preserves confined (publish_terminal t).
Proof. apply confined_pub. Qed.
#[local] Hint Resolve confined_mark confined_fence confined_publish_stage confined_publish_terminal
  confined_catch : preserves.

Ltac confine :=
  repeat match goal with
  | |- preserves confined (catch_all _ _) => apply confined_catch
  | |- preserves confined (tx_result (set_terminal _)) => by apply confined_terminal
  | |- preserves confined (tx_result _) => by apply confined_result
  | |- _ => progress preserve
  end.

Lemma own_candidate_facts m :
  own_mutation m → rt_family (pmr_candidate m) ≠ 0 ∧ generated_spec (pmr_candidate m).
Proof. intros [(Hs & Hg & _) _]. split; [by apply explicit_family|done]. Qed.

(** The front of the preimages, or the candidate when there is none. *)
Lemma own_front m :
  own_mutation m → own_slot (hd (pmr_candidate m) (pmr_preimages m))
  ∧ ∀ d, exact_route_same_slot (hd (pmr_candidate m) (pmr_preimages m)) d
         = exact_route_same_slot (pmr_candidate m) d.
Proof.
  intros [Hc Hp]. destruct (pmr_preimages m) as [|p l]; simpl; [done|]. apply Hp. by left.
Qed.

Lemma confined_rollback_rule stage m :
  own_rule_mutation m → preserves confined (rollback_rule stage m).
Proof.
  intros [Hin He]. unfold rollback_rule.
  assert (preserves confined (tx_rules (delete_rule_if_exact (pmu_candidate m)
            (ru_family (pmu_candidate m))))) by (apply confined_delete_rule; auto).
  confine.
Qed.

Lemma confined_rollback_created m : own_mutation m → preserves confined (rollback_created_route m).
Proof.
  intros Hm. unfold rollback_created_route. destruct (own_candidate_facts m Hm) as [Hf Hg].
  pose proof (confined_delete_route _ Hf Hg). confine.
Qed.

Lemma confined_rollback_replaced m : own_mutation m → preserves confined (rollback_replaced_route m).
Proof.
  intros Hm. unfold rollback_replaced_route. destruct (own_front m Hm) as [Ho Hs].
  assert (preserves confined (tx_routes (replace_route_if_exact (pmr_candidate m)
            (hd (pmr_candidate m) (pmr_preimages m))))) as Hrep.
  { exact (confined_replace_route _ _ (proj1 Hm) Ho (λ d, eq_sym (Hs d))). }
  assert (∀ p, p ∈ tl (pmr_preimages m) → own_slot p) as Htl.
  { intros p Hp. apply (proj2 Hm). destruct (pmr_preimages m); [by apply elem_of_nil in Hp|by right]. }
  confine.
Qed.

Lemma confined_rollback_routes l : Forall own_mutation l → preserves confined (rollback_routes l).
Proof.
  induction 1 as [|m l Hm _ IH]; simpl; [apply preserves_ret|].
  pose proof (confined_rollback_created m Hm). pose proof (confined_rollback_replaced m Hm). confine.
Qed.

Lemma confined_rollback routes rules stage :
  Forall own_mutation routes → Forall own_rule_mutation rules →
  preserves confined (rollback_candidate routes rules stage).
Proof.
  intros Hr Hu. unfold rollback_candidate, verify_created_rules_absent.
  assert (preserves confined (rollback_routes (rev routes)))
    by by apply confined_rollback_routes, Forall_rev.
  assert (preserves confined (mfold rollback_rule stage (rev rules))).
  { apply preserves_mfold. intros b m Hm. apply confined_rollback_rule.
    rewrite Forall_forall in Hu. apply Hu. by rewrite list_elem_of_In, in_rev, <- list_elem_of_In. }
  confine.
Qed.

Section Failing.
Context (routes : list PlannedRouteMutation) (rules : list PlannedRuleMutation).
Context (Hroutes : Forall own_mutation routes) (Hrules : Forall own_rule_mutation rules).

(** [fail_candidate] never reports a commit. *)
Lemma fail_terminal_uncommitted stage ambiguous w :
  wp (fail_terminal request routes rules stage ambiguous)
    (λ '(t, _) (_ : TransactionWorld K1 K2 E), t ≠ TCandidateCommitted) (λ _ _, True) w.
Proof.
  unfold fail_terminal. destruct ambiguous; [done|]. apply wp_bind_any. intros [[] s] w1; simpl; [|done].
  destruct (negb _); [done|]. apply wp_bind_any. by intros [] w2.
Qed.

Lemma confined_fail_terminal stage ambiguous :
  preserves confined (fail_terminal request routes rules stage ambiguous).
Proof.
  unfold fail_terminal. pose proof (λ s, confined_rollback routes rules s Hroutes Hrules). confine.
Qed.

Lemma confined_fail {A} stage ambiguous :
  preserves confined (fail_candidate request routes rules stage ambiguous : TX A).
Proof.
  unfold fail_candidate.
  apply (preserves_bind_fact confined (λ p, p.1 ≠ TCandidateCommitted)).
  - apply confined_fail_terminal.
  - intros w w' [t s] _ Heq. pose proof (fail_terminal_uncommitted stage ambiguous w) as Hwp.
    unfold wp in Hwp. by rewrite Heq in Hwp.
  - intros [t s] Ht. simpl in Ht. confine.
Qed.

Lemma confined_fail_fence {A} entry :
  preserves confined (fail_forward_fence request routes rules entry : TX A).
Proof.
  unfold fail_forward_fence. apply preserves_bind; [apply preserves_gets|]. intros reason.
  apply preserves_bind; [apply confined_pub|]. intros _.
  apply preserves_bind; [apply preserves_gets|]. intros [].
  - apply confined_fail.
  - pose proof (confined_terminal (match reason with RNone => TPreconditionFailed
      | _ => TStaleBeforeMutation end) ltac:(by destruct reason)). confine.
Qed.
End Failing.

Lemma own_receipts m created replaced :
  own_mutation m → own_mutation (with_route_receipts m created replaced).
Proof. done. Qed.

Lemma own_rule_receipt m created : own_rule_mutation m → own_rule_mutation (with_rule_receipt m created).
Proof. done. Qed.

(** Failing does not return. *)
Lemma fail_never {A} routes rules stage ambiguous (Q : A → TransactionWorld K1 K2 E → Prop) w :
  wp (fail_candidate request routes rules stage ambiguous) Q (λ _ _, True) w.
Proof. apply wp_bind_any. intros [t s] w1. by do 4 (apply wp_bind_any; intros ? ?). Qed.

Lemma fence_never {A} routes rules entry (Q : A → TransactionWorld K1 K2 E → Prop) w :
  wp (fail_forward_fence request routes rules entry) Q (λ _ _, True) w.
Proof.
  do 3 (apply wp_bind_any; intros ? ?). destruct a1; [apply fail_never|].
  by do 4 (apply wp_bind_any; intros ? ?).
Qed.

(** The mutation a step returns is the given one with a receipt. *)
Lemma apply_route_own plan rules m w :
  own_mutation m →
  wp (apply_route caller request plan rules m) (λ m' _, own_mutation m') (λ _ _, True) w.
Proof.
  intros Hm. unfold apply_route. destruct (pmr_replace m).
  - apply wp_bind_any. intros slot w1. destruct (negb _).
    { do 2 (apply wp_bind_any; intros ? ?). apply fail_never. }
    apply wp_bind_any. intros fence w2. destruct fence; [|apply fence_never..].
    do 2 (apply wp_bind_any; intros ? ?). destruct a0; do 2 (apply wp_bind_any; intros ? ?).
    + done.
    + apply fail_never.
  - apply wp_bind_any. intros fence w2. destruct fence; [|apply fence_never..].
    by do 4 (apply wp_bind_any; intros ? ?).
Qed.

Lemma route_failed_never {A} routes rules m e (Q : A → TransactionWorld K1 K2 E → Prop) w :
  wp (route_failed request routes rules m e) Q (λ _ _, True) w.
Proof. do 4 (apply wp_bind_any; intros ? ?). apply fail_never. Qed.

Lemma rule_failed_never {A} routes plan m started (Q : A → TransactionWorld K1 K2 E → Prop) w :
  wp (rule_failed request routes plan m started) Q (λ _ _, True) w.
Proof. do 3 (apply wp_bind_any; intros ? ?). apply fail_never. Qed.

Lemma wp_catch_never {A} (m : TX A) h (Q : A → TransactionWorld K1 K2 E → Prop) w :
  wp m Q (λ _ _, True) w → (∀ e w', wp (h e) Q (λ _ _, True) w') →
  wp (catch_all m h) Q (λ _ _, True) w.
Proof.
  intros Hm Hh. apply wp_catch_all. eapply wp_mono; [exact Hm|done|]. by intros [e|e|] w' _; [apply Hh..|].
Qed.

Lemma apply_rule_own routes plan m w :
  own_rule_mutation m →
  wp (apply_rule caller request routes plan m) (λ m' _, own_rule_mutation m') (λ _ _, True) w.
Proof.
  intros Hm. apply wp_bind_any. intros [] w1; [|done].
  apply wp_catch_never; [|intros; apply rule_failed_never].
  by do 3 (apply wp_bind_any; intros ? ?).
Qed.

(** From a fact about normal returns to the premise of [preserves_bind_fact]. *)
Lemma returned_fact {A} (R : A → Prop) (m : TX (K1 := K1) (K2 := K2) (E := E) A) w w' a :
  wp m (λ a' _, R a') (λ _ _, True) w → m w = (w', Ok a) → R a.
Proof. unfold wp. intros Hm Heq. by rewrite Heq in Hm. Qed.

(** ** The forward path *)

Lemma confined_apply_route plan rules m :
  Forall own_mutation (plan m) → Forall own_rule_mutation rules → own_mutation m →
  preserves confined (apply_route caller request plan rules m).
Proof.
  intros Hp Hu Hm. unfold apply_route.
  pose proof (λ A s b, confined_fail (A := A) (plan m) rules Hp Hu s b) as Hfail.
  pose proof (λ A e, confined_fail_fence (A := A) (plan m) rules Hp Hu e) as Hfence.
  destruct (own_front m Hm) as [Ho Hs].
  pose proof (confined_add_route (pmr_candidate m) (proj1 Hm)) as Hadd.
  assert (preserves confined (tx_routes (replace_route_if_exact
            (hd (pmr_candidate m) (pmr_preimages m)) (pmr_candidate m)))).
  { exact (confined_replace_route _ _ Ho (proj1 Hm) Hs). }
  confine.
Qed.

Lemma confined_route_failed {A} routes rules m e :
  Forall own_mutation routes → Forall own_rule_mutation rules →
  preserves confined (route_failed request routes rules m e : TX A).
Proof.
  intros Hr Hu. unfold route_failed.
  pose proof (λ A s b, confined_fail (A := A) routes rules Hr Hu s b) as Hfail. confine.
Qed.

Lemma confined_apply_routes rules done rest :
  Forall own_mutation (done ++ rest) → Forall own_rule_mutation rules →
  preserves confined (apply_routes caller request rules done rest)
  ∧ ∀ w, wp (apply_routes caller request rules done rest)
           (λ l (_ : TransactionWorld K1 K2 E), Forall own_mutation l) (λ _ _, True) w.
Proof.
  revert done. induction rest as [|m rest IH]; intros done Hl Hu; simpl.
  { rewrite app_nil_r in Hl. split; [apply preserves_ret|done]. }
  pose proof Hl as Hl'. rewrite Forall_app, Forall_cons in Hl'. destruct Hl' as (Hd & Hm & Hrest).
  assert (∀ m', own_mutation m' → Forall own_mutation ((done ++ [m']) ++ rest)) as Hnext.
  { intros m' Hm'. rewrite !Forall_app, Forall_singleton. done. }
  assert (∀ w, wp (catch_all (apply_route caller request (λ x, done ++ x :: rest) rules m)
      (route_failed request (done ++ m :: rest) rules m))
      (λ m' (_ : TransactionWorld K1 K2 E), own_mutation m') (λ _ _, True) w) as Hown.
  { intros w. apply wp_catch_never; [by apply apply_route_own|]. intros; apply route_failed_never. }
  split.
  - apply (preserves_bind_fact confined own_mutation).
    + apply confined_catch; [by apply confined_apply_route|]. intros e. by apply confined_route_failed.
    + intros w w' m' _ Heq. by eapply returned_fact.
    + intros m' Hm'. by apply IH; [apply Hnext|].
  - intros w. apply wp_bind. eapply wp_mono; [apply Hown| |done]. intros m' w' Hm'.
    apply IH; [by apply Hnext|done].
Qed.

Lemma confined_apply_rule routes plan m :
  Forall own_mutation routes → (∀ x, own_rule_mutation x → Forall own_rule_mutation (plan x)) →
  own_rule_mutation m → preserves confined (apply_rule caller request routes plan m).
Proof.
  intros Hr Hp Hm. unfold apply_rule, check_candidate_rule, add_candidate_rule, rule_failed.
  pose proof (λ A s b, confined_fail (A := A) routes (plan m) Hr (Hp m Hm) s b) as Hfail.
  pose proof (λ A s b, confined_fail (A := A) routes (plan (with_rule_receipt m true)) Hr
                (Hp _ (own_rule_receipt m true Hm)) s b) as Hfail'.
  pose proof (λ A e, confined_fail_fence (A := A) routes (plan m) Hr (Hp m Hm) e) as Hfence.
  pose proof (confined_add_rule m Hm) as Hadd. confine.
Qed.

Lemma confined_apply_rules routes done rest :
  Forall own_mutation routes → Forall own_rule_mutation (done ++ rest) →
  preserves confined (apply_rules caller request routes done rest)
  ∧ ∀ w, wp (apply_rules caller request routes done rest)
           (λ l (_ : TransactionWorld K1 K2 E), Forall own_rule_mutation l) (λ _ _, True) w.
Proof.
  revert done. induction rest as [|m rest IH]; intros done Hr Hl; simpl.
  { rewrite app_nil_r in Hl. split; [apply preserves_ret|done]. }
  pose proof Hl as Hl'. rewrite Forall_app, Forall_cons in Hl'. destruct Hl' as (Hd & Hm & Hrest).
  assert (∀ m', own_rule_mutation m' → Forall own_rule_mutation ((done ++ [m']) ++ rest)) as Hnext.
  { intros m' Hm'. rewrite !Forall_app, Forall_singleton. done. }
  split.
  - apply (preserves_bind_fact confined own_rule_mutation).
    + apply confined_apply_rule; [done| |done]. intros x Hx. rewrite Forall_app, Forall_cons. done.
    + intros w w' m' _ Heq. eapply returned_fact; [by apply apply_rule_own|exact Heq].
    + intros m' Hm'. by apply IH; [|apply Hnext].
  - intros w. apply wp_bind. eapply wp_mono; [by apply apply_rule_own| |done]. intros m' w' Hm'.
    apply IH; [done|by apply Hnext].
Qed.

Lemma confined_verify_candidate entry routes rules :
  Forall own_mutation routes → Forall own_rule_mutation rules →
  preserves confined (verify_candidate caller request entry routes rules).
Proof.
  intros Hr Hu. unfold verify_candidate, publish_exact_verified.
  pose proof (λ A s b, confined_fail (A := A) routes rules Hr Hu s b) as Hfail.
  pose proof (λ A e, confined_fail_fence (A := A) routes rules Hr Hu e) as Hfence. confine.
Qed.

(** ** Cleanup *)

Definition own_stale (plan : Plan) : Prop :=
  (∀ c, c ∈ pl_stale_rules plan → explicit_rule (pcu_stale c) ∧ pcu_stale c ∈ stale_rules)
  ∧ ∀ c, c ∈ pl_stale_routes plan → rt_family (pcr_stale c) ≠ 0 ∧ generated_spec (pcr_stale c).

Lemma confined_cleanup_rule p c :
  explicit_rule (pcu_stale c) → pcu_stale c ∈ stale_rules →
  preserves confined (cleanup_rule caller request p c).
Proof.
  intros He Hin. unfold cleanup_rule.
  pose proof (confined_delete_rule (pcu_stale c) He (or_intror Hin)). confine.
Qed.

Lemma confined_cleanup_route p c :
  rt_family (pcr_stale c) ≠ 0 → generated_spec (pcr_stale c) →
  preserves confined (cleanup_route caller request p c).
Proof.
  intros Hf Hg. unfold cleanup_route. pose proof (confined_delete_route _ Hf Hg). confine.
Qed.

Lemma confined_cleanup plan : own_stale plan → preserves confined (cleanup caller request plan).
Proof.
  intros [Hu Hr]. unfold cleanup, prove_stale_absence.
  apply preserves_bind.
  { apply preserves_mfold. intros b c Hc. apply confined_cleanup_rule; by apply Hu. }
  intros p. apply preserves_bind; [confine|]. intros proven. destruct (negb proven); [confine|].
  apply preserves_mfold. intros b c Hc. apply confined_cleanup_route; by apply Hr.
Qed.

Lemma confined_mark_skipped routes rules :
  preserves confined (mark_unused_rollbacks_skipped routes rules).
Proof. unfold mark_unused_rollbacks_skipped. confine. Qed.

(** ** The prologue *)

Lemma confined_refuse {A} terminal :
  terminal ≠ TCandidateCommitted → preserves confined (refuse terminal : TX A).
Proof.
  intros Ht. apply preserves_bind; [by apply confined_terminal|]. intros _. apply preserves_throw.
Qed.

Lemma confined_admit : preserves confined (admit_fence caller request).
Proof.
  unfold admit_fence. pose proof (λ t, confined_refuse (A := unit) t) as Hrefuse.
  confine; by apply Hrefuse.
Qed.

Lemma confined_lease : preserves confined (acquire_lease caller).
Proof.
  unfold acquire_lease. pose proof (λ t, confined_refuse (A := unit) t) as Hrefuse.
  confine; by apply Hrefuse.
Qed.

Lemma confined_make_plan : preserves confined (make_plan request).
Proof. unfold make_plan. confine; by apply confined_refuse. Qed.

Lemma confined_publish plan : preserves confined (publish_journal caller request plan).
Proof. unfold publish_journal. confine. Qed.

Lemma confined_confirm : preserves confined (confirm_fence caller request).
Proof. unfold confirm_fence. confine; by apply confined_refuse. Qed.
End Commit.

