(* ===== verification/TransactionCommit.v ===== *)
(** * The exact routing transaction: ownership and commit

    Whatever a transaction does and however it ends, it touches only generated
    routes and the rules it desires or owns; and a transaction that reports
    [TCandidateCommitted] leaves the desired state exactly, with nothing generated
    beside it. *)

From Stdlib Require Import ZArith Lia Ascii String.
From stdpp Require Import base gmap strings list.
From S2P Require Import Prelude ConfigTypes RoutingPlan KernelRoutes ListParser StateError.
From S2P Require Import RouteTable RouteTableSafety RouteTableConverge.
From S2P Require Import PolicyRules PolicyRulesSafety TransactionPlan Transaction.
From S2P Require Import TransactionKernel TransactionPlanFacts TransactionRollback TransactionAbort.
From S2P Require Import TransactionOwned.
Open Scope Z_scope.

(** ** From the plan *)

Section Plan.
Context {K1 K2 E : Type} `{HS : RouteSlotLaws K1} `{HP : RulePresentLaws K2}.
Context (caller : TransactionCaller E) (request : TransactionRequest) (r0 : K1) (u0 : K2).

Implicit Types w : TransactionWorld K1 K2 E.

Lemma shape_generated c : candidate_shape c → generated_spec c.
Proof.
  intros [Hc _]. unfold check_candidate in Hc. rewrite !first_error_cons, !unless_none in Hc.
  by destruct Hc as (_ & _ & _ & _ & _ & _ & _ & Hg & _).
Qed.

Lemma planned_own S m : planned_route request S m → own_mutation request m.
Proof.
  intros Hm. pose proof (planned_slot _ _ _ Hm) as Hs.
  assert (own_slot request (pmr_candidate m)) as Ho.
  { split; [done|]. split; [by eapply shape_generated, planned_shape|].
    exists (pmr_candidate m). split; [by eapply planned_desired|done]. }
  split; [done|]. intros q Hq. destruct (pmr_replace m) eqn:Hrep.
  2:{ rewrite (planned_no_preimage _ _ _ Hm Hrep) in Hq. by apply elem_of_nil in Hq. }
  destruct (planned_preimage _ _ _ Hm Hrep) as (p & Hpre & _ & Hg & Hslot & _).
  rewrite Hpre in Hq. apply list_elem_of_singleton in Hq as ->.
  assert (∀ d, exact_route_same_slot (route_spec_from_live p) d
               = exact_route_same_slot (pmr_candidate m) d) as Heq by by intros; apply same_slot_transfer.
  split; [|done]. split; [by eapply explicit_from_live|]. split; [exact Hg|].
  exists (pmr_candidate m). split; [by eapply planned_desired|done].
Qed.

(** What a plan made from the initial inventory allows the transaction to touch. *)
Lemma plan_owned plan :
  (∀ c, c ∈ tq_desired_routes request → 0 ≤ rt_metric c) → planned_from_initial request r0 u0 plan →
  Forall (own_mutation request) (pl_routes plan) ∧ Forall (own_rule_mutation request) (pl_rules plan)
  ∧ own_stale (pcu_stale <$> pl_stale_rules plan) plan.
Proof.
  intros Hmetric (lr & lu & Hplan & Hlr & Hlu). pose proof (build_plan_facts _ _ _ _ Hplan Hmetric) as Hf.
  split_and!.
  - eapply Forall_impl; [apply Hf|]. intros m [Hm _]. by eapply planned_own.
  - eapply Forall_impl; [apply Hf|]. intros m [Hm _]. by destruct Hm.
  - split.
    + intros c Hc. split; [|by apply list_elem_of_fmap_2].
      by eapply stale_rule_explicit, facts_stale_rules.
    + intros c Hc. apply (facts_stale_routes _ _ _ _ Hf), stale_routes_elem in Hc as (d & -> & Hd & Hg & _).
      split; [|exact Hg]. apply (law_live_family r0). by apply Hlr.
Qed.

(** ** The committed state *)

Lemma wp_preserve {A} (I : TransactionWorld K1 K2 E → Prop) (m : TX A) Q X w :
  preserves I m → I w → wp m Q X w →
  wp m (λ a w', Q a w' ∧ I w') (λ e w', X e w' ∧ I w') w.
Proof. intros Hp Hw Hm. apply wp_and; [done|]. by apply preserves_wp. Qed.

Definition complete (w : TransactionWorld K1 K2 E) (lr : list DumpedRoute) (lu : list DumpedRule)
    : Prop :=
  (∀ d, d ∈ lr ↔ d ∈ nl_live (tw_routes w)) ∧ (∀ d, d ∈ lu ↔ d ∈ rl_live (tw_rules w)).

(** What the committed verification observed when it reports a commit. *)
Definition verified (plan : Plan) (w : TransactionWorld K1 K2 E) : Prop :=
  ∃ lr lu, complete w lr lu ∧ all_desired_exact request lr lu = true
           ∧ cleanup_remains request plan lr lu = false.

(** The kernels are those of a confined world. *)
Definition confined_state (stale : list RuleSpec) (w : TransactionWorld K1 K2 E) : Prop :=
  ∃ w1, confined request r0 u0 stale w1 ∧ tw_routes w = tw_routes w1 ∧ tw_rules w = tw_rules w1.

Lemma confined_here stale w : confined request r0 u0 stale w → confined_state stale w.
Proof. intros Hw. by exists w. Qed.

Lemma verify_committed_spec stale plan p w :
  confined request r0 u0 stale w →
  wp (verify_committed caller request plan p)
    (λ _ w', confined_state stale w'
             ∧ (tr_terminal (tw_result w') = TCandidateCommitted → verified plan w'))
    (λ _ _, False) w.
Proof.
  intros Hw. unfold verify_committed.
  assert (∀ t w1 w2, confined request r0 u0 stale w1 → view w2 = view w1 → t ≠ TCandidateCommitted →
    tr_terminal (tw_result w2) = t →
    confined_state stale w2 ∧ (tr_terminal (tw_result w2) = TCandidateCommitted → verified plan w2)) as Hno.
  { intros t w1 w2 Hw1 Hv Ht <-. injection Hv as Hr Hu _. split; [by exists w1|done]. }
  apply wp_catch_all, wp_bind. apply tx_dump.
  2:{ intros e k Hk. apply (Hno TCommittedCleanupPending (set_tw_routes k w)); try done.
      by apply (confined_kernels _ _ _ _ w); [| | |apply Hw]. }
  intros lr k Hk Hlr.
  assert (confined request r0 u0 stale (set_tw_routes k w)) as Hw1
    by by apply (confined_kernels _ _ _ _ w); [| | |apply Hw].
  apply wp_bind. apply tx_rule_dump.
  2:{ intros e k' Hk'. apply (Hno TCommittedCleanupPending (set_tw_rules k' (set_tw_routes k w)));
      try done. by apply (confined_kernels _ _ _ _ (set_tw_routes k w)); [| | |apply Hw]. }
  intros lu k' Hk' Hlu. set (w2 := set_tw_rules k' (set_tw_routes k w)).
  assert (confined request r0 u0 stale w2) as Hw2
    by by apply (confined_kernels _ _ _ _ (set_tw_routes k w)); [| | |apply Hw].
  book w3 Hv3. destruct (negb _) eqn:Hexact; [by apply (Hno TPartialUnknown w2)|].
  apply negb_false_iff in Hexact. simpl.
  set (q := match a with FenceCurrent => p | _ => cleanup_failed SFence p end).
  destruct (cp_pending q || cleanup_remains request plan lr lu) eqn:Hpend;
    [by apply (Hno TCommittedCleanupPending w2)|].
  apply orb_false_iff in Hpend as [_ Hrem]. injection Hv3 as Hr3 Hu3 _. split.
  - by exists w2.
  - intros _. exists lr, lu. split; [|done]. split; simpl.
    + intros d. rewrite Hlr, Hr3. naive_solver.
    + intros d. rewrite Hlu, Hu3. naive_solver.
Qed.

(** ** The whole transaction *)

Lemma confined_widen stale w : confined request r0 u0 [] w → confined request r0 u0 stale w.
Proof.
  intros [H1' H2' H3' H4' Ht]. split; try done. intros d Hd _. apply H3'; [done|].
  by intros r ?%elem_of_nil.
Qed.

Lemma confined_start env :
  confined request r0 u0 [] (E := E)
    {| tw_routes := r0; tw_rules := u0; tw_env := env; tw_pub := blank_journal request;
       tw_result := initial_result |}.
Proof. split; simpl; naive_solver. Qed.

(** Everything the transaction ends with, normally or by an early return. *)
Definition final (w : TransactionWorld K1 K2 E) : Prop :=
  (confined request r0 u0 [] w)
  ∨ ∃ plan, planned_from_initial request r0 u0 plan
            ∧ confined_state (pcu_stale <$> pl_stale_rules plan) w
            ∧ (tr_terminal (tw_result w) = TCandidateCommitted → verified plan w).

Lemma final_plan plan w :
  planned_from_initial request r0 u0 plan →
  confined request r0 u0 (pcu_stale <$> pl_stale_rules plan) w → final w.
Proof.
  intros Hp Hw. right. exists plan. split; [done|]. split; [by apply confined_here|].
  intros Ht. by destruct (conf_terminal _ _ _ _ _ Hw).
Qed.

Lemma wp_confined {A} stale (m : TX A) (Q : A → TransactionWorld K1 K2 E → Prop)
    (X : TransactionError → TransactionWorld K1 K2 E → Prop) w :
  preserves (confined request r0 u0 stale) m → confined request r0 u0 stale w →
  (∀ a w', confined request r0 u0 stale w' → Q a w') →
  (∀ e w', confined request r0 u0 stale w' → X e w') → wp m Q X w.
Proof. intros Hm Hw HQ HX. eapply wp_mono; [by apply (proj1 (preserves_wp _ _) Hm w)|done|done]. Qed.

(** From the planned transaction on. *)
Lemma forward_final plan w :
  (∀ c, c ∈ tq_desired_routes request → 0 ≤ rt_metric c) →
  planned_from_initial request r0 u0 plan →
  confined request r0 u0 (pcu_stale <$> pl_stale_rules plan) w →
  wp (routes ← apply_routes caller request (pl_rules plan) [] (pl_routes plan);
      rules ← apply_rules caller request routes [] (pl_rules plan);
      _ ← verify_candidate caller request (pl_candidate_verify_journal plan) routes rules;
      _ ← mark_unused_rollbacks_skipped routes rules;
      p ← cleanup caller request plan;
      _ ← verify_committed caller request plan p;
      terminal ← gets (λ w : TransactionWorld K1 K2 E, tr_terminal (tw_result w));
      _ ← publish_terminal terminal;
      retain_result_journal) (λ _, final) (λ _, final) w.
Proof.
  intros Hmetric Hplan Hw. destruct (plan_owned plan Hmetric Hplan) as (Hr & Hu & Hstale).
  pose proof (λ w', final_plan plan w' Hplan) as Hfin.
  set (stale := pcu_stale <$> pl_stale_rules plan) in *.
  destruct (confined_apply_routes caller request r0 u0 stale (pl_rules plan) [] (pl_routes plan) Hr Hu)
    as [Hpr Howr].
  apply wp_bind. eapply wp_mono; [exact (wp_preserve _ _ _ _ w Hpr Hw (Howr w))
                                 | |intros e w' [_ Hw']; by apply Hfin].
  intros routes w1 [Hor Hw1].
  destruct (confined_apply_rules caller request r0 u0 stale routes [] (pl_rules plan) Hor Hu) as [Hpu Howu].
  apply wp_bind. eapply wp_mono; [exact (wp_preserve _ _ _ _ w1 Hpu Hw1 (Howu w1))
                                 | |intros e w' [_ Hw']; by apply Hfin].
  intros rules w2 [Hou Hw2]. apply wp_bind.
  apply (wp_confined stale); [by apply confined_verify_candidate|done| |auto]. intros x3 w3 Hw3.
  apply wp_bind. apply (wp_confined stale); [apply confined_mark_skipped|done| |auto]. intros x4 w4 Hw4.
  apply wp_bind. apply (wp_confined stale); [by apply confined_cleanup|done| |auto]. intros p w5 Hw5.
  apply wp_bind. eapply wp_mono; [exact (verify_committed_spec stale plan p w5 Hw5)| |done].
  intros x6 w6 [Hc Hv]. right. by exists plan.
Qed.

Lemma run_final env :
  (∀ c, c ∈ tq_desired_routes request → 0 ≤ rt_metric c) →
  wp (run_transaction caller request) (λ _, final) (λ _, final)
    {| tw_routes := r0; tw_rules := u0; tw_env := env; tw_pub := blank_journal request;
       tw_result := initial_result |}.
Proof.
  intros Hmetric. pose proof (confined_start env) as Hw0. set (w0 := {| tw_routes := r0 |}) in *.
  unfold run_transaction. apply wp_bind.
  eapply wp_mono; [exact (wp_preserve _ _ _ _ w0 (confined_admit caller request r0 u0 []) Hw0
                     (admit_fence_outcome caller request r0 u0 w0 eq_refl))
                  | |by intros e w [_ Hw]; left].
  intros x1 w1 [Hv1 Hw1]. apply wp_bind.
  eapply wp_mono; [exact (wp_preserve _ _ _ _ w1 (confined_lease caller request r0 u0 []) Hw1
                     (acquire_lease_outcome caller r0 u0 w1 Hv1))
                  | |by intros e w [_ Hw]; left].
  intros x2 w2 [Hv2 Hw2]. apply wp_bind.
  eapply wp_mono; [exact (wp_preserve _ _ _ _ w2 (confined_make_plan request r0 u0 []) Hw2
                     (make_plan_outcome request r0 u0 w2 Hmetric Hv2))
                  | |by intros e w [_ Hw]; left].
  intros plan w3 [[_ Hplan] Hw3]. apply wp_bind.
  apply (wp_confined []); [apply confined_publish|done| |by left]. intros x4 w4 Hw4. apply wp_bind.
  apply (wp_confined []); [apply confined_confirm|done| |by left]. intros x5 w5 Hw5.
  apply (confined_widen (pcu_stale <$> pl_stale_rules plan)) in Hw5.
  exact (forward_final plan w5 Hmetric Hplan Hw5).
Qed.
End Plan.

Lemma execute_final {K1 K2 E : Type} `{HS : RouteSlotLaws K1} `{HP : RulePresentLaws K2}
    (caller : TransactionCaller E) (request : TransactionRequest) (r0 : K1) (u0 : K2) (env : E) :
  (∀ c, c ∈ tq_desired_routes request → 0 ≤ rt_metric c) →
  final request r0 u0 (execute_runtime_routing_transaction caller request r0 u0 env).
Proof.
  intros Hmetric. pose proof (run_final caller request r0 u0 env Hmetric) as Hrun.
  unfold execute_runtime_routing_transaction. unfold wp in Hrun.
  by destruct (run_transaction caller request _) as [w' [u|e]].
Qed.

Lemma execute_confined {K1 K2 E : Type} `{HS : RouteSlotLaws K1}
    `{HP : RulePresentLaws K2} (caller : TransactionCaller E) (request : TransactionRequest)
    (r0 : K1) (u0 : K2) (env : E)
    (Hmetric : ∀ c, c ∈ tq_desired_routes request → 0 ≤ rt_metric c) :
  let w := execute_runtime_routing_transaction caller request r0 u0 env in
  (∀ d, is_generated_route_candidate d = false → d ∈ nl_live (tw_routes w) ↔ d ∈ nl_live r0)
  ∧ ∀ d, (∀ r, r ∈ concrete_rules (tq_desired_rules request) →
               rule_occupies_same_identity r d = false) →
         (∀ r, r ∈ concrete_rules (tq_prior_owned_rules request) →
               rule_occupies_same_identity r d = false) →
         tq_allow_recovery_rule_heuristic request = false ∨ du_priority d ≠ du_table d →
         d ∈ rl_live (tw_rules w) ↔ d ∈ rl_live u0.
Proof.
  intros w. pose proof (execute_final caller request r0 u0 env Hmetric) as Hfin. fold w in Hfin.
  destruct Hfin as [Hw|(plan & Hplan & (w1 & Hw1 & -> & ->) & _)].
  { split; [apply Hw|]. intros d Hd _ _. apply Hw; [done|]. by intros r ?%elem_of_nil. }
  split; [apply Hw1|]. intros d Hd Hprior Hheur. apply Hw1; [done|].
  intros r (c & -> & Hc)%list_elem_of_fmap. destruct Hplan as (lr & lu & Hplan & _ & _).
  pose proof (facts_stale_rules _ _ _ _ (build_plan_facts _ _ _ _ Hplan Hmetric) c Hc) as Hs.
  destruct (stale_rule_origin _ _ Hs) as [Ho|[Ha Hp]]; [by apply Hprior|].
  apply not_true_iff_false. unfold rule_occupies_same_identity. rewrite !andb_true_iff, !Z.eqb_eq.
  intros Heq. destruct Hheur as [Hh|Hh]; [congruence|]. apply Hh. lia.
Qed.


(** The state a commit promises. *)
Record committed_state {K1 K2 : Type} `{RouteNetlink K1} `{RuleNetlink K2}
    (request : TransactionRequest) (k1 : K1) (k2 : K2) : Prop := {
  committed_routes : ∀ c, c ∈ tq_desired_routes request →
    ∃ d, d ∈ nl_live k1 ∧ exact_route_matches_live c d = true
         ∧ ∀ x, x ∈ nl_live k1 → exact_route_same_slot c x = true → x = d;
  committed_nothing_else : ∀ d, d ∈ nl_live k1 → is_generated_route_candidate d = true →
    ∃ c, c ∈ tq_desired_routes request ∧ exact_route_matches_live c d = true;
  committed_rules : ∀ r, r ∈ concrete_rules (tq_desired_rules request) →
    ∃ d, d ∈ rl_live k2 ∧ du_exact_identity_representable d = true ∧ rule_matches_live r d = true
         ∧ ∀ x, x ∈ rl_live k2 → rule_occupies_same_identity r x = true → x = d;
  committed_anchors : ∀ r, r ∈ concrete_rules (tq_desired_rules request) →
    external_table_authorized r (tq_authorized_external_tables request) = true
    ∨ ∃ d, d ∈ nl_live k1 ∧ dr_table d = ru_table r ∧ dr_family d = ru_family r;
  committed_prior_gone : ∀ r d, r ∈ concrete_rules (tq_prior_owned_rules request) →
    r ∉ concrete_rules (tq_desired_rules request) →
    d ∈ rl_live k2 → rule_occupies_same_identity r d = true →
    du_exact_identity_representable d = false;
}.

Section Committed.
Context {K1 K2 E : Type} `{HS : RouteSlotLaws K1} `{HP : RulePresentLaws K2}.
Context (request : TransactionRequest) (r0 : K1) (u0 : K2) (plan : Plan).
Context (w : TransactionWorld K1 K2 E) (lr : list DumpedRoute) (lu : list DumpedRule).
Context (Hmetric : ∀ c, c ∈ tq_desired_routes request → 0 ≤ rt_metric c).
Context (Hplan : planned_from_initial request r0 u0 plan).
Context (Hconf : confined_state request r0 u0 (pcu_stale <$> pl_stale_rules plan) w).
Context (Hcomplete : complete w lr lu) (Hexact : all_desired_exact request lr lu = true).
Context (Hremains : cleanup_remains request plan lr lu = false).

Lemma final_routes c :
  c ∈ tq_desired_routes request →
  ∃ d, d ∈ nl_live (tw_routes w) ∧ exact_route_matches_live c d = true
       ∧ ∀ x, x ∈ nl_live (tw_routes w) → exact_route_same_slot c x = true → x = d.
Proof using Hcomplete Hexact.
  intros Hc. unfold all_desired_exact in Hexact. rewrite !andb_true_iff, !forallb_forall in Hexact.
  destruct Hexact as [[Hr _] _]. apply list_elem_of_In, Hr, is_single_iff, exact_single in Hc.
  destruct Hc as (d & Hd & Hm & Hu). destruct Hcomplete as [Hlr _]. exists d.
  split; [by apply Hlr|]. split; [done|]. intros x Hx. apply Hu. by apply Hlr.
Qed.

Lemma final_rules r :
  r ∈ concrete_rules (tq_desired_rules request) →
  ∃ d, d ∈ rl_live (tw_rules w) ∧ du_exact_identity_representable d = true ∧ rule_matches_live r d = true
       ∧ ∀ x, x ∈ rl_live (tw_rules w) → rule_occupies_same_identity r x = true → x = d.
Proof using Hcomplete Hexact.
  intros Hr. unfold all_desired_exact in Hexact. rewrite !andb_true_iff, !forallb_forall in Hexact.
  destruct Hexact as [_ Hu]. apply list_elem_of_In, Hu, is_single_iff, rule_single in Hr.
  destruct Hr as (d & Hd & Hrep & Hm & Huniq). destruct Hcomplete as [_ Hlu]. exists d.
  split; [by apply Hlu|]. split; [done|]. split; [done|]. intros x Hx. apply Huniq. by apply Hlu.
Qed.

Lemma final_anchors r :
  r ∈ concrete_rules (tq_desired_rules request) →
  external_table_authorized r (tq_authorized_external_tables request) = true
  ∨ ∃ d, d ∈ nl_live (tw_routes w) ∧ dr_table d = ru_table r ∧ dr_family d = ru_family r.
Proof using Hcomplete Hexact.
  intros Hr. unfold all_desired_exact, all_rule_dependencies_present in Hexact.
  rewrite !andb_true_iff, !forallb_forall in Hexact. destruct Hexact as [[_ Hdep] _].
  apply list_elem_of_In, Hdep in Hr. unfold rule_dependency_present in Hr.
  destruct (desired_managed_anchor _ _); [right|by left].
  apply existsb_exists in Hr as (c & _ & Hc). rewrite !andb_true_iff, !Z.eqb_eq, is_single_iff in Hc.
  destruct Hc as [[Ht Hf] (d & Hd & Hm & _)%exact_single]. exists d. destruct Hcomplete as [Hlr _].
  split; [by apply Hlr|]. apply exact_matches_eq in Hm as (_ & (_ & <- & <- & _)%same_slot_eq & _).
  done.
Qed.

(** Nothing of the planned cleanup is left. *)
Lemma stale_routes_gone s d :
  (∃ c, c ∈ pl_stale_routes plan ∧ pcr_stale c = s) → d ∈ nl_live (tw_routes w) →
  exact_route_same_slot s d = false.
Proof using Hcomplete Hremains.
  intros (c & Hc & <-) Hd. unfold cleanup_remains in Hremains. rewrite !orb_false_iff in Hremains.
  destruct Hremains as [[Hr _] _].
  assert (exact_slot_state (pcr_stale c) lr = SlotEmpty) as He.
  { apply is_empty_iff, not_false_iff_true. intros Hf. apply not_true_iff_false in Hr.
    apply Hr, existsb_exists. exists c. rewrite <- list_elem_of_In, Hf. done. }
  rewrite exact_empty in He. apply He. by apply Hcomplete.
Qed.

Lemma stale_rules_gone r d :
  (∃ c, c ∈ pl_stale_rules plan ∧ pcu_stale c = r) → d ∈ rl_live (tw_rules w) →
  rule_occupies_same_identity r d = false.
Proof using Hcomplete Hremains.
  intros (c & Hc & <-) Hd. unfold cleanup_remains in Hremains. rewrite !orb_false_iff in Hremains.
  destruct Hremains as [[_ Hr] _].
  assert (exact_rule_state (pcu_stale c) lu = SlotEmpty) as He.
  { apply is_empty_iff, not_false_iff_true. intros Hf. apply not_true_iff_false in Hr.
    apply Hr, existsb_exists. exists c. rewrite <- list_elem_of_In, Hf. done. }
  rewrite rule_empty in He. apply He. by apply Hcomplete.
Qed.

Lemma final_nothing_else d :
  d ∈ nl_live (tw_routes w) → is_generated_route_candidate d = true →
  ∃ c, c ∈ tq_desired_routes request ∧ exact_route_matches_live c d = true.
Proof using Hcomplete Hexact Hremains Hplan Hconf Hmetric.
  intros Hd Hg.
  destruct (existsb (λ c, exact_route_same_slot c d) (tq_desired_routes request)) eqn:Hex.
  - apply existsb_exists in Hex as (c & Hc%list_elem_of_In & Hs).
    destruct (final_routes c Hc) as (x & _ & Hm & Hu). exists c. split; [done|]. by rewrite (Hu d).
  - exfalso. assert (∀ c, c ∈ tq_desired_routes request → exact_route_same_slot c d = false) as Hno.
    { intros c Hc. apply not_true_iff_false. intros Hs. apply not_true_iff_false in Hex.
      apply Hex, existsb_exists. exists c. by rewrite <- list_elem_of_In. }
    destruct Hplan as (lr0 & lu0 & Hb & Hlr0 & _).
    pose proof (build_plan_facts _ _ _ _ Hb Hmetric) as Hf.
    destruct Hconf as (w1 & Hw1 & Hr1 & _). rewrite Hr1 in Hd.
    destruct (conf_new_routes _ _ _ _ _ Hw1 d Hd) as [Hin|(c & Hc & Hs)];
      [|by rewrite Hno in Hs].
    rewrite <- Hr1 in Hd. pose proof (same_slot_from_live d) as Hself.
    rewrite (stale_routes_gone (route_spec_from_live d) d) in Hself; [done| |done].
    apply (facts_stale_routes_complete _ _ _ _ Hf), stale_routes_elem. exists d.
    split; [done|]. split; [by apply Hlr0|done].
Qed.

Lemma identity_inj r r' d :
  rule_occupies_same_identity r d = true → rule_occupies_same_identity r' d = true → r = r'.
Proof.
  unfold rule_occupies_same_identity. rewrite !andb_true_iff, !Z.eqb_eq.
  destruct r, r'. simpl. intros [[[[-> ->] ->] ->] ->] [[[[-> ->] ->] ->] ->]. done.
Qed.

Lemma final_prior_gone r d :
  r ∈ concrete_rules (tq_prior_owned_rules request) → r ∉ concrete_rules (tq_desired_rules request) →
  d ∈ rl_live (tw_rules w) → rule_occupies_same_identity r d = true →
  du_exact_identity_representable d = false.
Proof using Hcomplete Hremains Hplan Hconf Hmetric.
  intros Hr Hnd Hd Hi. apply not_true_iff_false. intros Hrep.
  destruct Hplan as (lr0 & lu0 & Hb & _ & Hlu0).
  pose proof (build_plan_facts _ _ _ _ Hb Hmetric) as Hf.
  destruct (rule_present r lu0) eqn:Hp.
  { rewrite (stale_rules_gone r d) in Hi; [done| |done]. by apply (facts_stale_complete _ _ _ _ Hf). }
  destruct Hconf as (w1 & Hw1 & _ & Hu1). rewrite Hu1 in Hd.
  destruct (conf_new_rules _ _ _ _ _ Hw1 d Hd) as [Hin|(r' & Hr' & Hi')].
  - apply not_true_iff_false in Hp. apply Hp, existsb_exists. exists d.
    rewrite <- list_elem_of_In, Hrep, <- identity_matches, Hi. split; [by apply Hlu0|done].
  - by rewrite (identity_inj r r' d) in Hnd.
Qed.
End Committed.

Lemma execute_committed {K1 K2 E : Type} `{HS : RouteSlotLaws K1} `{HP : RulePresentLaws K2}
    (caller : TransactionCaller E) (request : TransactionRequest) (r0 : K1) (u0 : K2) (env : E) :
  (∀ c, c ∈ tq_desired_routes request → 0 ≤ rt_metric c) →
  let w := execute_runtime_routing_transaction caller request r0 u0 env in
  tr_terminal (tw_result w) = TCandidateCommitted →
  committed_state request (tw_routes w) (tw_rules w).
Proof.
  intros Hmetric w Hcommit.
  pose proof (execute_final caller request r0 u0 env Hmetric) as Hfin. fold w in Hfin.
  destruct Hfin as [Hw|(plan & Hplan & Hconf & Hver)].
  { by destruct (conf_terminal _ _ _ _ _ Hw). }
  destruct (Hver Hcommit) as (lr & lu & Hcomplete & Hexact & Hrem). split.
  - exact (final_routes request w lr lu Hcomplete Hexact).
  - exact (final_nothing_else request r0 u0 plan w lr lu Hmetric Hplan Hconf Hcomplete Hexact Hrem).
  - exact (final_rules request w lr lu Hcomplete Hexact).
  - exact (final_anchors request w lr lu Hcomplete Hexact).
  - exact (final_prior_gone request r0 u0 plan w lr lu Hmetric Hplan Hconf Hcomplete Hrem).
Qed.

(** C2. A transaction that reports [TCandidateCommitted] leaves the desired state
    exactly: every desired route is the only route of its slot and its exact image,
    every generated route that is live is desired, every desired rule is the only
    rule of its identity and its table is authorised or holds a route of its
    family, and no rule of the prior ledger that is not desired is left. *)
Theorem committed_transaction_exact {K1 K2 E : Type} `{HS : RouteSlotLaws K1}
    `{HP : RulePresentLaws K2} (caller : TransactionCaller E) (request : TransactionRequest)
    (r0 : K1) (u0 : K2) (env : E)
    (Hmetric : ∀ c, c ∈ tq_desired_routes request → 0 ≤ rt_metric c)
    (Hcommit : tr_terminal (tw_result
       (execute_runtime_routing_transaction caller request r0 u0 env)) = TCandidateCommitted) :
  let w := execute_runtime_routing_transaction caller request r0 u0 env in
  committed_state request (tw_routes w) (tw_rules w).
Proof. exact (execute_committed caller request r0 u0 env Hmetric Hcommit). Qed.
