(* ===== verification/TransactionJournal.v ===== *)
(** * The exact routing transaction: the published journal

    The journal published before the first write is the plan's: execution changes
    states and receipts of its entries, never their operations and operands, and
    the published record ends with the terminal and the flags of the result. *)

From Stdlib Require Import ZArith Lia Ascii String.
From stdpp Require Import base gmap strings list.
From S2P Require Import Prelude ConfigTypes RoutingPlan KernelRoutes ListParser StateError.
From S2P Require Import RouteTable PolicyRules TransactionPlan Transaction TransactionRollback.
From S2P Require Import TransactionPlanFacts TransactionAbort.
Open Scope Z_scope.

Section Journal.
Context {K1 K2 E : Type} `{RouteNetlink K1} `{RuleNetlink K2} `{Inet}.
Context (caller : TransactionCaller E) (request : TransactionRequest) (plan : Plan).

Implicit Types w : TransactionWorld K1 K2 E.

(** The record agrees with the result while the transaction runs. *)
Definition agrees (w : TransactionWorld K1 K2 E) : Prop :=
  payload <$> pj_entries (tw_pub w) = payload <$> pl_journal plan
  ∧ pj_mutation_started (tw_pub w) = tr_mutation_started (tw_result w)
  ∧ pj_candidate_exact_verified (tw_pub w) = tr_candidate_exact_verified (tw_result w).

(** The record a caller reads when the transaction has returned. *)
Definition concluded (w : TransactionWorld K1 K2 E) : Prop :=
  agrees w ∧ pj_terminal (tw_pub w) = tr_terminal (tw_result w)
  ∧ entries_stable_after (tr_terminal (tw_result w)) = true.

Definition ends (e : TransactionError) (w : TransactionWorld K1 K2 E) : Prop :=
  e = Returned ∧ concluded w.

Lemma payload_alter (f : JournalEntry → JournalEntry) (i : nat) (l : list JournalEntry) :
  (∀ e, payload (f e) = payload e) → payload <$> alter f i l = payload <$> l.
Proof.
  intros Hf. revert i. induction l as [|e l IH]; intros [|i]; [done|done| |].
  - change (payload (f e) :: (payload <$> l) = payload e :: (payload <$> l)). by rewrite Hf.
  - change (payload e :: (payload <$> alter f i l) = payload e :: (payload <$> l)). by rewrite IH.
Qed.

Lemma agrees_state i s : preserves agrees (set_entry_state i s).
Proof. intros w (Hp & Hm & Hc). split; [|done]. simpl. by rewrite payload_alter. Qed.

Lemma agrees_receipt i r : preserves agrees (set_entry_receipt i r).
Proof. intros w (Hp & Hm & Hc). split; [|done]. simpl. by rewrite payload_alter. Qed.

Lemma agrees_stage s : preserves agrees (publish_stage s).
Proof. by intros w Hw. Qed.
Lemma agrees_published t : preserves agrees (publish_terminal t).
Proof. by intros w Hw. Qed.
Lemma agrees_enter : preserves agrees enter_mutation.
Proof. by intros w (Hp & _ & Hc). Qed.
Lemma agrees_retain : preserves agrees retain_result_journal.
Proof. by intros w Hw. Qed.

(** Writes to the result that leave both flags. *)
Lemma agrees_result f :
  (∀ r, tr_mutation_started (f r) = tr_mutation_started r
        ∧ tr_candidate_exact_verified (f r) = tr_candidate_exact_verified r) →
  preserves agrees (tx_result f).
Proof.
  intros Hf w (Hp & Hm & Hc). destruct (Hf (tw_result w)) as [H1' H2'].
  split; [done|]. simpl. by rewrite H1', H2'.
Qed.

Lemma agrees_routes {A} (m : RT K1 A) : preserves agrees (tx_routes m).
Proof. intros w Hw. unfold tx_routes. by destruct (m _) as [[s k] [a|e]]. Qed.
Lemma agrees_rules {A} (m : PM K2 A) : preserves agrees (tx_rules m).
Proof. intros w Hw. unfold tx_rules. by destruct (m _) as [[s k] [a|e]]. Qed.
Lemma agrees_env {A} (op : E → E * A) : preserves agrees (tx_env op).
Proof. intros w Hw. unfold tx_env. by destruct (op _). Qed.

Lemma agrees_catch {A} (m : TX A) h :
  preserves agrees m → (∀ e, preserves agrees (h e)) → preserves agrees (catch_all m h).
Proof. intros Hm Hh. apply preserves_catch; [done|]. intros [e|e|]; [apply Hh..|apply preserves_throw]. Qed.
#[local] Hint Resolve agrees_state agrees_receipt agrees_stage agrees_published agrees_enter
  agrees_retain agrees_routes agrees_rules agrees_env : preserves.

Ltac agree :=
  repeat match goal with
  | |- preserves agrees (catch_all _ _) => apply agrees_catch
  | |- preserves agrees (tx_result _) => by apply agrees_result
  | |- _ => progress preserve
  end.

Lemma agrees_entries_state l s : preserves agrees (set_entries_state l s).
Proof. unfold set_entries_state. agree. Qed.
Lemma agrees_entries_receipt l r : preserves agrees (set_entries_receipt l r).
Proof. unfold set_entries_receipt. agree. Qed.
#[local] Hint Resolve agrees_entries_state agrees_entries_receipt : preserves.

Lemma agrees_mark m r s : preserves agrees (mark_rollback m r s).
Proof. unfold mark_rollback. agree. Qed.
Lemma agrees_fence : preserves agrees (observe_fence caller request).
Proof. unfold observe_fence. agree. Qed.
#[local] Hint Resolve agrees_mark agrees_fence : preserves.

Lemma agrees_rollback_rule stage m : preserves agrees (rollback_rule stage m).
Proof. unfold rollback_rule. agree. Qed.
Lemma agrees_rollback_created m : preserves agrees (rollback_created_route m).
Proof. unfold rollback_created_route. agree. Qed.
Lemma agrees_rollback_replaced m : preserves agrees (rollback_replaced_route m).
Proof. unfold rollback_replaced_route. agree. Qed.
#[local] Hint Resolve agrees_rollback_rule agrees_rollback_created agrees_rollback_replaced : preserves.

Lemma agrees_rollback_routes l : preserves agrees (rollback_routes l).
Proof. induction l; simpl; agree. Qed.
#[local] Hint Resolve agrees_rollback_routes : preserves.

Lemma agrees_rollback routes rules stage : preserves agrees (rollback_candidate routes rules stage).
Proof. unfold rollback_candidate, verify_created_rules_absent. agree. Qed.
#[local] Hint Resolve agrees_rollback : preserves.

(** ** Exits *)

Lemma total_rollback_rule stage m : total (rollback_rule stage m : TX (K1 := K1) (K2 := K2) (E := E) _).
Proof. unfold rollback_rule. totality. Qed.
Lemma total_rollback_created m : total (rollback_created_route m : TX (K1 := K1) (K2 := K2) (E := E) _).
Proof. unfold rollback_created_route. totality. Qed.
Lemma total_rollback_replaced m :
  total (rollback_replaced_route m : TX (K1 := K1) (K2 := K2) (E := E) _).
Proof. unfold rollback_replaced_route. totality. Qed.
#[local] Hint Resolve total_rollback_rule total_rollback_created total_rollback_replaced : total.
Lemma total_rollback_routes l : total (rollback_routes l : TX (K1 := K1) (K2 := K2) (E := E) _).
Proof. induction l; simpl; totality. Qed.
#[local] Hint Resolve total_rollback_routes : total.
Lemma total_rollback routes rules stage :
  total (rollback_candidate routes rules stage : TX (K1 := K1) (K2 := K2) (E := E) _).
Proof. unfold rollback_candidate, verify_created_rules_absent. totality. Qed.
#[local] Hint Resolve total_rollback : total.

Lemma fail_terminal_ends routes rules stage ambiguous w :
  agrees w →
  wp (fail_terminal request routes rules stage ambiguous)
    (λ '(t, _) w', entries_stable_after t = true ∧ agrees w') (λ _ _, False) w.
Proof.
  intros Hw.
  assert (preserves agrees (fail_terminal request routes rules stage ambiguous)) as Hp
    by (unfold fail_terminal; agree).
  assert (total (fail_terminal request routes rules stage ambiguous : TX (K1 := K1) (K2 := K2) (E := E) _))
    as Ht by (unfold fail_terminal; totality).
  assert (wp (fail_terminal request routes rules stage ambiguous)
     (λ '(t, _) (_ : TransactionWorld K1 K2 E), entries_stable_after t = true) (λ e _, True) w) as Hf.
  { unfold fail_terminal. destruct ambiguous; [done|]. apply wp_bind_any. intros [[] s] w1; simpl; [|done].
    destruct (negb _); [done|]. apply wp_bind_any. by intros [] w2. }
  pose proof (wp_and _ _ _ _ _ _ Hf (wp_and _ _ _ _ _ _ (Ht w) (proj1 (preserves_wp _ _) Hp w Hw))) as Hall.
  eapply wp_mono; [exact Hall| |]; [intros [t s] w' (? & _ & ?) | intros e w' (_ & [] & _)]; done.
Qed.

Lemma finish_ends {A} t stage (Q : A → TransactionWorld K1 K2 E → Prop) w :
  agrees w → entries_stable_after t = true →
  wp (_ ← tx_result (set_terminal t); _ ← publish_stage stage; _ ← publish_terminal t;
      _ ← retain_result_journal; throw Returned) Q ends w.
Proof. intros Hw Ht. split; [done|]. split; [exact Hw|]. done. Qed.

Lemma fail_candidate_ends {A} routes rules stage ambiguous
    (Q : A → TransactionWorld K1 K2 E → Prop) w :
  agrees w → wp (fail_candidate request routes rules stage ambiguous) Q ends w.
Proof.
  intros Hw. apply wp_bind. eapply wp_mono; [by apply fail_terminal_ends| |done].
  intros [t s] w' [Ht Hw']. by apply finish_ends.
Qed.

Lemma fail_fence_ends {A} routes rules entry (Q : A → TransactionWorld K1 K2 E → Prop) w :
  agrees w → wp (fail_forward_fence request routes rules entry) Q ends w.
Proof.
  intros Hw. apply wp_bind, wp_gets, wp_bind, wp_modify. set (w1 := {| tw_routes := tw_routes w |}).
  assert (agrees w1) as Hw1 by exact (agrees_state entry _ w Hw).
  apply wp_bind, wp_gets. destruct (tr_mutation_started _).
  - by apply fail_candidate_ends.
  - apply finish_ends; [done|]. by destruct (tr_stale_reason _).
Qed.

(** Inside a [try] block: an exception leaves an agreeing record, a [return] a
    concluded one. *)
Definition leaves (e : TransactionError) (w : TransactionWorld K1 K2 E) : Prop :=
  match e with Returned => concluded w | _ => agrees w end.

Definition carries {A} (m : TX (K1 := K1) (K2 := K2) (E := E) A) : Prop :=
  ∀ w, agrees w → wp m (λ _, agrees) leaves w.

Lemma ends_leaves e w : ends e w → leaves e w.
Proof. by intros [-> Hw]. Qed.

(** Outside a [try] block: only a [return] leaves. *)
Definition strict {A} (m : TX (K1 := K1) (K2 := K2) (E := E) A) : Prop :=
  ∀ w, agrees w → wp m (λ _, agrees) ends w.

Lemma strict_carries {A} (m : TX A) : strict m → carries m.
Proof. intros Hm w Hw. eapply wp_mono; [by apply Hm|done|apply ends_leaves]. Qed.

Lemma strict_fail {A} routes rules stage ambiguous :
  strict (fail_candidate request routes rules stage ambiguous : TX A).
Proof. intros w Hw. by apply fail_candidate_ends. Qed.

Lemma strict_fail_fence {A} routes rules entry :
  strict (fail_forward_fence request routes rules entry : TX A).
Proof. intros w Hw. by apply fail_fence_ends. Qed.

Lemma strict_ret {A} (a : A) : strict (mret a).
Proof. by intros w Hw. Qed.

Lemma strict_bind {A B} (m : TX A) (k : A → TX B) : strict m → (∀ a, strict (k a)) → strict (mbind k m).
Proof. intros Hm Hk w Hw. apply wp_bind. eapply wp_mono; [by apply Hm| |done]. intros a w'. apply Hk. Qed.

Lemma strict_catch {A} (m : TX A) h : carries m → (∀ e, strict (h e)) → strict (catch_all m h).
Proof.
  intros Hm Hh w Hw. apply wp_catch_all. eapply wp_mono; [by apply Hm|done|].
  intros [e|e|] w' Hw'; [by apply Hh..|done].
Qed.

Lemma strict_total {A} (m : TX A) : preserves agrees m → total m → strict m.
Proof.
  intros Hp Ht w Hw. pose proof (wp_and _ _ _ _ _ _ (proj1 (preserves_wp _ _) Hp w Hw) (Ht w)) as Hall.
  eapply wp_mono; [exact Hall| |]; [by intros a w' [? _] | by intros e w' [_ []]].
Qed.

Lemma strict_quiet {A} (m : TX A) : preserves agrees m → quiet m → strict m.
Proof. intros Hp Hq. by apply strict_total, quiet_total. Qed.

Lemma carries_bind {A B} (m : TX A) (k : A → TX B) : carries m → (∀ a, carries (k a)) → carries (mbind k m).
Proof. intros Hm Hk w Hw. apply wp_bind. eapply wp_mono; [by apply Hm| |done]. intros a w'. apply Hk. Qed.

Lemma carries_no_return {A} (m : TX A) : preserves agrees m → no_return m → carries m.
Proof.
  intros Hp Ht w Hw. pose proof (wp_and _ _ _ _ _ _ (proj1 (preserves_wp _ _) Hp w Hw) (Ht w)) as Hall.
  eapply wp_mono; [exact Hall| |]; [by intros a w' [? _] | by intros [] w' [? ?]].
Qed.

Lemma carries_routes {A} (m : RT K1 A) : carries (tx_routes m).
Proof. apply carries_no_return; [apply agrees_routes|apply no_return_routes]. Qed.
Lemma carries_rules {A} (m : PM K2 A) : carries (tx_rules m).
Proof. apply carries_no_return; [apply agrees_rules|apply no_return_rules]. Qed.
Lemma strict_enter : strict enter_mutation.
Proof. apply strict_total; [apply agrees_enter|apply total_enter]. Qed.
Lemma strict_fence : strict (observe_fence caller request).
Proof. apply strict_quiet; [apply agrees_fence|apply quiet_fence]. Qed.
Lemma strict_state i s : strict (set_entry_state i s).
Proof. apply strict_quiet; [apply agrees_state|apply quiet_set_entry_state]. Qed.
Lemma strict_receipt i r : strict (set_entry_receipt i r).
Proof. apply strict_quiet; [apply agrees_receipt|apply quiet_set_entry_receipt]. Qed.
Lemma strict_unavailable : strict (tx_result set_interface_unavailable).
Proof. apply strict_quiet; [by apply agrees_result|by apply quiet_result]. Qed.
Lemma strict_verified : strict (_ ← tx_result set_exact_verified; publish_exact_verified).
Proof. by intros w (Hp & Hm & _). Qed.

Create HintDb strict discriminated.
#[local] Hint Resolve strict_ret carries_routes carries_rules strict_enter strict_fence
  strict_state strict_receipt strict_unavailable strict_verified strict_fail
  strict_fail_fence strict_carries : strict.

Ltac carry :=
  repeat match goal with
  | |- carries _ => solve [eauto 3 with strict]
  | |- strict _ => solve [eauto 2 with strict]
  | |- carries (mbind _ _) => apply carries_bind
  | |- strict (mbind _ _) => apply strict_bind
  | |- strict (catch_all _ _) => apply strict_catch
  | |- carries (if ?b then _ else _) => destruct b
  | |- carries (match ?x with _ => _ end) => destruct x
  | |- strict (if ?b then _ else _) => destruct b
  | |- strict (match ?x with _ => _ end) => destruct x
  | |- ∀ _, _ => intro
  end.

Lemma strict_apply_routes rules done rest : strict (apply_routes caller request rules done rest).
Proof.
  revert done. induction rest as [|m rest IH]; intros done; simpl; [apply strict_ret|].
  apply strict_bind; [|intros m'; apply IH]. unfold apply_route, route_failed. carry.
Qed.

Lemma strict_apply_rules routes done rest : strict (apply_rules caller request routes done rest).
Proof.
  revert done. induction rest as [|m rest IH]; intros done; simpl; [apply strict_ret|].
  apply strict_bind; [|intros m'; apply IH].
  unfold apply_rule, check_candidate_rule, add_candidate_rule, rule_failed. carry.
Qed.

Lemma strict_verify entry routes rules : strict (verify_candidate caller request entry routes rules).
Proof. unfold verify_candidate. carry. Qed.

Lemma strict_skipped routes rules : strict (mark_unused_rollbacks_skipped routes rules).
Proof.
  apply strict_total; unfold mark_unused_rollbacks_skipped; [agree|totality].
Qed.

Lemma strict_cleanup : strict (cleanup caller request plan).
Proof.
  apply strict_total; unfold cleanup, cleanup_rule, prove_stale_absence, cleanup_route; [agree|totality].
Qed.

(** The committed verification ends with a entries_stable_after terminal in the result. *)
Lemma verify_committed_ends p w :
  agrees w →
  wp (verify_committed caller request plan p)
    (λ _ w', agrees w' ∧ entries_stable_after (tr_terminal (tw_result w')) = true) ends w.
Proof.
  intros Hw. apply wp_catch_all, wp_bind. eapply wp_mono; [by apply carries_routes| |].
  2:{ intros [e|e|] w1 Hw1; [split; [exact (agrees_state _ JUnknown w1 Hw1)|done]..|done]. }
  intros lr w1 Hw1. apply wp_bind. eapply wp_mono; [by apply carries_rules| |].
  2:{ intros [e|e|] w2 Hw2; [split; [exact (agrees_state _ JUnknown w2 Hw2)|done]..|done]. }
  intros lu w2 Hw2. apply wp_bind. eapply wp_mono; [by apply strict_fence| |by intros e w3 [-> Hw3]].
  intros fence w3 Hw3. destruct (negb _).
  - split; [exact (agrees_state _ JFailed w3 Hw3)|done].
  - split; [exact (agrees_state _ JVerified w3 Hw3)|]. simpl. by destruct (_ || _).
Qed.

(** From the published plan on. *)
Lemma planned_concludes w :
  agrees w →
  wp (_ ← confirm_fence caller request;
      routes ← apply_routes caller request (pl_rules plan) [] (pl_routes plan);
      rules ← apply_rules caller request routes [] (pl_rules plan);
      _ ← verify_candidate caller request (pl_candidate_verify_journal plan) routes rules;
      _ ← mark_unused_rollbacks_skipped routes rules;
      p ← cleanup caller request plan;
      _ ← verify_committed caller request plan p;
      terminal ← gets (λ w : TransactionWorld K1 K2 E, tr_terminal (tw_result w));
      _ ← publish_terminal terminal;
      retain_result_journal) (λ _, concluded) ends w.
Proof.
  intros Hw. apply wp_bind.
  apply (wp_mono _ (λ _, agrees) _ ends); [| |done].
  { apply wp_bind. eapply wp_mono; [by apply strict_fence| |done]. by intros [] w1 Hw1. }
  intros x1 w1 Hw1. apply wp_bind. eapply wp_mono; [by apply strict_apply_routes| |done].
  intros routes w2 Hw2. apply wp_bind. eapply wp_mono; [by apply strict_apply_rules| |done].
  intros rules w3 Hw3. apply wp_bind. eapply wp_mono; [by apply strict_verify| |done].
  intros x4 w4 Hw4. apply wp_bind. eapply wp_mono; [by apply strict_skipped| |done].
  intros x5 w5 Hw5. apply wp_bind. eapply wp_mono; [by apply strict_cleanup| |done].
  intros p w6 Hw6. apply wp_bind. eapply wp_mono; [by apply verify_committed_ends| |done].
  intros x7 w7 [Hw7 Ht]. split; [exact Hw7|]. done.
Qed.
End Journal.

Section Record.
Context {K1 K2 E : Type} `{RouteNetlink K1} `{RuleNetlink K2} `{Inet}.
Context (caller : TransactionCaller E) (request : TransactionRequest).

Implicit Types w : TransactionWorld K1 K2 E.

(** Before a plan exists nothing was published and nothing was written. *)
Definition unpublished (w : TransactionWorld K1 K2 E) : Prop :=
  tw_pub w = blank_journal request ∧ tr_mutation_started (tw_result w) = false
  ∧ tr_candidate_exact_verified (tw_result w) = false.

Definition refused (e : TransactionError) (w : TransactionWorld K1 K2 E) : Prop :=
  e = Returned ∧ unpublished w ∧ entries_stable_after (tr_terminal (tw_result w)) = true.

Lemma refuse_refused {A} t (Q : A → TransactionWorld K1 K2 E → Prop) w :
  unpublished w → entries_stable_after t = true → wp (refuse t) Q refused w.
Proof. done. Qed.

Lemma admit_unpublished w :
  unpublished w → wp (admit_fence caller request) (λ _, unpublished) refused w.
Proof.
  intros Hw. unfold admit_fence. destruct (tc_fence caller) as [probe|]; [|by apply refuse_refused].
  apply wp_bind. unfold wp at 1, tx_env. destruct (probe (tw_env w)) as [env [c|e]];
    [|by apply refuse_refused]. apply wp_bind, wp_modify.
  by destruct (stale_reason _ _); [apply wp_ret|apply refuse_refused..].
Qed.

Lemma lease_unpublished w : unpublished w → wp (acquire_lease caller) (λ _, unpublished) refused w.
Proof.
  intros Hw. unfold acquire_lease. apply wp_bind, wp_gets, wp_bind, wp_gets.
  destruct (_ || _); [by apply refuse_refused|]. apply wp_bind. unfold wp at 1, tx_env.
  destruct (tc_acquire_lease caller (tw_env w)) as [env [[]|e]];
    [by apply wp_ret|by apply refuse_refused..].
Qed.

Lemma make_plan_unpublished w :
  unpublished w →
  wp (make_plan request) (λ plan w', unpublished w' ∧ ∃ lr lu, build_plan request lr lu = Ok plan)
    refused w.
Proof.
  intros Hw. unfold make_plan. apply wp_bind.
  apply (wp_mono _ (λ _, unpublished) _ refused); [| |done].
  { apply wp_catch_all, wp_bind, wp_tx_routes. unfold wp at 1.
    destruct (dump_routes 0 _) as [k [lr|e]]; [|by apply refuse_refused].
    apply wp_bind, wp_tx_rules. unfold wp at 1.
    destruct (dump_policy_rules 0 _) as [k' [lu|e]]; [|by apply refuse_refused]. by apply wp_ret. }
  intros [lr lu] w1 Hw1. apply wp_bind.
  apply (wp_mono _ (λ _, unpublished) _ refused); [by destruct (tq_require_prior_preimage_proof request)| |done].
  intros x w2 Hw2. destruct (build_plan request lr lu) as [plan|e] eqn:Hp; [|by apply refuse_refused].
  apply wp_ret. split; [done|]. by exists lr, lu.
Qed.

Lemma publish_agrees plan w :
  unpublished w → wp (publish_journal caller request plan) (λ _, agrees plan) (ends plan) w.
Proof.
  intros (_ & Hm & Hc). apply wp_bind, wp_modify. set (w1 := {| tw_routes := tw_routes w |}).
  assert (agrees plan w1) as Hw1 by (split; [done|]; by simpl; rewrite Hm, Hc).
  apply wp_bind, wp_gets, wp_bind.
  apply (wp_mono _ (λ _, agrees plan) _ (ends plan)); [| |done].
  { destruct (tc_publish caller) as [publish|]; [|done]. unfold wp, tx_env. by destruct (publish _ _). }
  by intros [[]|e] w2 Hw2.
Qed.
End Record.

Lemma execute_recorded {K1 K2 E : Type} `{RouteNetlink K1} `{RuleNetlink K2} `{Inet}
    (caller : TransactionCaller E) (request : TransactionRequest) (r : K1) (u : K2) (env : E) :
  let w := execute_runtime_routing_transaction caller request r u env in
  (tw_pub w = blank_journal request ∧ tr_mutation_started (tw_result w) = false
   ∧ entries_stable_after (tr_terminal (tw_result w)) = true)
  ∨ ∃ lr lu plan, build_plan request lr lu = Ok plan ∧ concluded plan w.
Proof.
  intros w.
  assert (wp (run_transaction caller request)
     (λ _ w', ∃ lr lu plan, build_plan request lr lu = Ok plan ∧ concluded plan w')
     (λ e w', refused request e w'
              ∨ ∃ lr lu plan, build_plan request lr lu = Ok plan ∧ concluded plan w')
     {| tw_routes := r; tw_rules := u; tw_env := env; tw_pub := blank_journal request;
        tw_result := initial_result |}) as Hrun.
  2:{ unfold w, execute_runtime_routing_transaction. unfold wp in Hrun.
      destruct (run_transaction caller request _) as [w' [x|e]]; [by right|].
      destruct Hrun as [(_ & (? & ? & _) & ?)|?]; [by left|by right]. }
  clear w. apply wp_bind. eapply wp_mono; [by apply admit_unpublished| |by left].
  intros x1 w1 Hw1. apply wp_bind. eapply wp_mono; [exact (lease_unpublished caller request w1 Hw1)| |by left].
  intros x2 w2 Hw2. apply wp_bind. eapply wp_mono; [exact (make_plan_unpublished request w2 Hw2)| |by left].
  intros plan w3 [Hw3 (lr & lu & Hplan)].
  assert (∀ e (w' : TransactionWorld K1 K2 E), ends plan e w' → refused request e w'
     ∨ ∃ lr lu plan, build_plan request lr lu = Ok plan ∧ concluded plan w') as Hend.
  { intros e w' [_ Hw']. right. by exists lr, lu, plan. }
  apply wp_bind. eapply wp_mono; [exact (publish_agrees caller request plan w3 Hw3)| |exact Hend].
  intros x4 w4 Hw4. eapply wp_mono; [exact (planned_concludes caller request plan w4 Hw4)| |exact Hend].
  intros x5 w5 Hw5. by exists lr, lu, plan.
Qed.

(** The terminal of a finished transaction is a final one. *)
Lemma execute_terminal {K1 K2 E : Type} `{RouteNetlink K1} `{RuleNetlink K2} `{Inet}
    (caller : TransactionCaller E) (request : TransactionRequest) (r : K1) (u : K2) (env : E) :
  entries_stable_after (tr_terminal (tw_result
    (execute_runtime_routing_transaction caller request r u env))) = true.
Proof.
  by destruct (execute_recorded caller request r u env) as [(_ & _ & ?)|(? & ? & ? & _ & _ & _ & ?)].
Qed.

(** C22. The record a transaction publishes before its first write stays true: when the
    transaction has returned, either nothing was published and nothing written, or
    the published entries are those of the plan, operation by operation with their
    operands (only states and receipts changed), and the published terminal,
    mutation mark and verification mark are those of the result, the terminal being
    a final one. This holds for any kernel behaviour. *)
Theorem published_record_faithful {K1 K2 E : Type} `{RouteNetlink K1} `{RuleNetlink K2} `{Inet}
    (caller : TransactionCaller E) (request : TransactionRequest) (r : K1) (u : K2) (env : E) :
  let w := execute_runtime_routing_transaction caller request r u env in
  (tw_pub w = blank_journal request ∧ tr_mutation_started (tw_result w) = false
   ∧ entries_stable_after (tr_terminal (tw_result w)) = true)
  ∨ ∃ lr lu plan, build_plan request lr lu = Ok plan ∧ concluded plan w.
Proof. apply execute_recorded. Qed.
