(* ===== verification/TransactionModel.v ===== *)
(** * The exact routing transaction on concrete kernels

    The kernels of [RouteTableModel] and [PolicyRulesConverge] satisfy the laws the
    transaction relies on; transactions that commit, that are rolled back after a
    failing call, and that are overtaken run on them. *)

From Stdlib Require Import ZArith Lia Ascii String.
From stdpp Require Import base gmap strings list.
From S2P Require Import Prelude ConfigTypes RoutingPlan ListParser InetModel KernelRoutes StateError RouteTable.
From S2P Require Import RouteTableSafety RouteTableConverge RouteTableModel PolicyRules PolicyRulesSafety PolicyRulesConverge TransactionPlan Transaction.
From S2P Require Import TransactionKernel TransactionPlanFacts TransactionRollback TransactionAbort TransactionOwned TransactionCommit.
Open Scope Z_scope.

(** ** The laws *)

Lemma explicit_table_of spec : explicit_slot spec → table_of spec = rt_table spec.
Proof. intros (_ & Ht & _). unfold table_of. by destruct (Z.eqb_spec (rt_table spec) 0). Qed.

Lemma in_slot_same spec d :
  explicit_slot spec → in_slot spec d = true → exact_route_same_slot spec d = true.
Proof.
  intros He. unfold in_slot. rewrite !andb_true_iff, String.eqb_eq, !Z.eqb_eq.
  rewrite explicit_table_of by done. unfold metric_of.
  rewrite concrete_family by by apply explicit_family.
  intros [[[Hd Ht] Hf] Hm]. apply same_slot_eq. split_and!; try done.
  rewrite <- Hf, <- Hm. unfold exact_route_kernel_metric, AF_INET6.
  destruct (Z.eqb_spec (rt_family spec) 10), (Z.eqb_spec (rt_metric spec) 0); simpl; try done.
  all: by destruct (Z.eqb_spec (rt_metric spec) 0).
Qed.

Lemma realise_slot spec : explicit_slot spec → exact_route_same_slot spec (realise spec) = true.
Proof.
  intros He. apply in_slot_same; [done|]. unfold in_slot, realise. simpl.
  by rewrite String.eqb_refl, !Z.eqb_refl.
Qed.

(** A planned candidate is realised as written. *)
Lemma shape_realised `{Inet} spec :
  candidate_shape spec →
  reported (realise spec) = true ∧ exact_route_matches_live spec (realise spec) = true.
Proof.
  intros [Hc Hm]. pose proof (check_candidate_facts spec Hc) as [He _].
  pose proof (realise_slot spec He) as Hslot. pose proof He as (_ & Ht & Hf).
  unfold check_candidate in Hc. rewrite !first_error_cons, !unless_none in Hc.
  destruct Hc as (_ & _ & Hbu & Hnh & _). apply negb_true_iff in Hbu, Hnh.
  assert (rt_blackhole spec || rt_unreachable spec = true →
          rt_interface spec = None ∧ rt_gateway spec = None) as Hnone.
  { intros Hs. rewrite Hs in Hnh. simpl in Hnh. apply orb_false_iff in Hnh as [H1' H2'].
    apply bool_decide_eq_false in H1', H2'. by rewrite !eq_None_not_Some. }
  split.
  - unfold reported, realise, metric_of. simpl. rewrite concrete_family by by apply explicit_family.
    rewrite explicit_table_of by done. unfold AF_INET, AF_INET6 in *.
    rewrite !andb_true_iff, !negb_true_iff, andb_false_iff, !Z.eqb_neq, Z.leb_le.
    destruct (Z.eqb_spec (rt_family spec) 10), (Z.eqb_spec (rt_metric spec) 0),
      (rt_blackhole spec), (rt_unreachable spec); simpl in *;
      repeat split; try done; try lia; try (left; lia); try (right; lia).
  - apply exact_matches_eq. split; [done|]. split; [done|]. unfold realise. simpl.
    destruct (rt_blackhole spec), (rt_unreachable spec); simpl in *; naive_solver.
Qed.

#[export] Instance list_kernel_slots `{Inet} : RouteSlotLaws ListKernel.
Proof.
  split; simpl.
  - intros spec k d He Hs. rewrite !elem_of_lk_live. unfold lk_add, scripted.
    destruct (hd false _); [done|]. destruct (link_missing _ _); [done|]. destruct (existsb _ _); [done|].
    simpl. intros [[?| ->%list_elem_of_singleton]%elem_of_app Hr]; [done|].
    by rewrite realise_slot in Hs.
  - intros spec k. unfold lk_add, scripted. destruct (hd false _); [done|].
    destruct (link_missing _ _); [done|]. by destruct (existsb _ _).
  - intros spec k Hc. destruct (shape_realised spec Hc) as [Hrep Hm]. unfold lk_add, scripted.
    destruct (hd false _); [by left|]. destruct (link_missing _ _); [by left|].
    destruct (existsb _ _); [by left|]. right. exists (realise spec). simpl. split; [|done].
    apply elem_of_lk_live. simpl. set_solver.
  - intros spec k d He Hs. rewrite !elem_of_lk_live. unfold lk_replace, scripted.
    destruct (hd false _); [done|]. destruct (link_missing _ _); [done|]. simpl.
    rewrite elem_of_app, elem_of_filter_bool, list_elem_of_singleton, negb_true_iff.
    assert (in_slot spec d = false) as ->
      by (apply not_true_iff_false; intros Hi%in_slot_same; [congruence|done]).
    assert (d ≠ realise spec) by (intros ->; by rewrite realise_slot in Hs). naive_solver.
  - intros spec k Hc. destruct (shape_realised spec Hc) as [Hrep Hm]. unfold lk_replace, scripted.
    destruct (hd false _); [by left|]. destruct (link_missing _ _); [by left|].
    right. exists (realise spec). simpl. split; [|done].
    apply elem_of_lk_live. simpl. set_solver.
Qed.

#[export] Instance rule_kernel_present : RulePresentLaws RuleKernel.
Proof.
  split. intros spec f k. simpl. unfold rk_add, faulty. destruct (hd false _); [done|].
  by destruct (existsb _ _).
Qed.

(** ** Scenarios *)

(** The tunnel of table 150 changes; table 151 and its rule are retired. *)
Definition sample_request : TransactionRequest :=
  {| tq_identity := {| ti_operation_serial := 7; ti_runtime_generation := 2; ti_intent_serial := 3;
                       ti_base_inventory_revision := 4; ti_route_epoch := 5 |};
     tq_desired_routes := [via 150 "nwg1" AF_INET 0; via 150 "nwg1" AF_INET6 0;
                           unreachable_route 150 AF_INET 100];
     tq_desired_rules := [rule_a];
     tq_prior_routes := []; tq_prior_rules := []; tq_require_prior_preimage_proof := false;
     tq_prior_owned_rules := [rule_b]; tq_authorized_external_tables := [];
     tq_allow_recovery_rule_heuristic := false |}.

Definition current_fence_at (epoch : Z) : CurrentFence :=
  {| cf_last_operation_serial := 6; cf_runtime_generation := 2; cf_intent_serial := 3;
     cf_inventory_revision := 4; cf_route_epoch := epoch |}.

(** The environment counts the readings of the fence; the route epoch moves on
    after [overtaken] of them. *)
Definition sample_caller (overtaken : nat) : TransactionCaller nat :=
  {| tc_fence := Some (λ n, (S n, Ok (current_fence_at (if (n <? overtaken)%nat then 5 else 6))));
     tc_publish := Some (λ _ n, (n, Ok true));
     tc_same_backend := true;
     tc_acquire_lease := λ n, (n, Ok true) |}.

Definition sample_rules (faults : list bool) : RuleKernel :=
  rule_kernel_with [realise_rule rule_b AF_INET; realise_rule rule_b AF_INET6] faults.

(** The kernel refuses the second family of the candidate rule. *)
Definition failing_rules : RuleKernel := sample_rules [false; false; false; false; true].

Lemma sample_metrics c : c ∈ tq_desired_routes sample_request → 0 ≤ rt_metric c.
Proof. revert c. apply Forall_forall. by repeat constructor. Qed.

(** The first rule and three routes were written when the call fails; all of it is
    taken back. *)
Lemma aborted_transaction_restores_witness :
  let w := execute_runtime_routing_transaction (sample_caller 100) sample_request
             (router []) failing_rules 0%nat in
  tr_terminal (tw_result w) = TCandidateRolledBack ∧ tr_mutation_started (tw_result w) = true
  ∧ same_routes (tw_routes w) (router []) ∧ same_rules (tw_rules w) failing_rules.
Proof.
  split; [vm_compute; reflexivity|]. split; [vm_compute; reflexivity|].
  apply (aborted_transaction_restores (sample_caller 100) sample_request (router []) failing_rules 0%nat).
  - exact sample_metrics.
  - vm_compute. reflexivity.
Defined.


Lemma committed_transaction_exact_witness :
  let w := execute_runtime_routing_transaction (sample_caller 100) sample_request
             (router []) (sample_rules []) 0%nat in
  tr_terminal (tw_result w) = TCandidateCommitted
  ∧ committed_state sample_request (tw_routes w) (tw_rules w).
Proof.
  split; [vm_compute; reflexivity|].
  apply (committed_transaction_exact (sample_caller 100) sample_request (router [])
    (sample_rules []) 0%nat).
  - exact sample_metrics.
  - vm_compute. reflexivity.
Defined.

(** An epoch that moves on while the routes are written: the transaction is rolled
    back at the fence. *)
Example overtaken_transaction_rolls_back :
  let w := execute_runtime_routing_transaction (sample_caller 4) sample_request
             (router []) (sample_rules []) 0%nat in
  (tr_terminal (tw_result w), tr_stale_reason (tw_result w), pj_failure_stage (tw_pub w))
  = (TCandidateRolledBack, RRouteEpochChanged, SFence).
Proof. vm_compute. reflexivity. Qed.

Definition sample_plan : result PlanError Plan :=
  build_plan sample_request (lk_live (router [])) (rk_rules (sample_rules [])).

Lemma plan_journal_wellformed_witness :
  match sample_plan with
  | Ok plan => length (pl_routes plan) = 3%nat ∧ length (pl_stale_rules plan) = 2%nat ∧ plan_indexed plan
  | Throw _ => False
  end.
Proof.
  destruct sample_plan as [plan|e] eqn:Hplan.
  - split; [|split].
    + revert Hplan. vm_compute. by intros [= <-].
    + revert Hplan. vm_compute. by intros [= <-].
    + apply (plan_journal_wellformed sample_request (lk_live (router [])) (rk_rules (sample_rules []))).
      exact Hplan.
  - revert Hplan. vm_compute. discriminate.
Defined.
