(* ===== verification/OperationOwner.v ===== *)
(** * The routing operation owner

    src/src/routing/runtime_routing_operation_owner.cpp and the classifications of
    its header: the object that holds the ledgers of the route table and the rule
    manager, numbers the operations on them, runs compatibility reconciliations
    and exact transactions, and publishes an immutable inventory after each. All
    operations run under one mutex. The inventory factory, the fence probes and
    the writer lease are parameters over the caller's environment; diagnostic
    texts are not modelled. *)

From Stdlib Require Import ZArith Lia Ascii String.
From stdpp Require Import base gmap strings list.
From S2P Require Import Prelude ConfigTypes RoutingPlan KernelRoutes ListParser StateError.
From S2P Require Import RouteTable PolicyRules RoutingState TransactionPlan Transaction.
Open Scope Z_scope.

(** ** Data *)

(** [enum class RuntimeRoutingMutationPhase] *)
Inductive MutationPhase :=
| PhPrepared | PhObservingPriorRoutes | PhAddingRoutes | PhAddingRules | PhCommittingReplacements
| PhRemovingOrphanedRules | PhRemovingObsoleteRules | PhRemovingObsoleteRoutes
| PhAdoptingCommittedInventory | PhComplete | PhFailed | PhCleared.

(** [enum class RuntimeRoutingOperationOutcome] *)
Inductive OperationOutcome :=
| OIdle | OCompatibilityConverged | OCompatibilityCleanupPending | OExactCandidateCommitted
| OExactCandidateRolledBack | OExactCommittedCleanupPending | OExactPartialUnknown
| OExactStaleBeforeMutation | OExactPreconditionFailed | ORejectedInvalidIdentity
| ORejectedReplay | ORejectedStaleInventory | ORouteUnavailable | OPartialFailure | OCleared.

(** [struct RuntimeRoutingOperationIdentity] *)
Record OperationIdentity := {
  oi_operation_serial : Z;
  oi_runtime_generation : Z;
  oi_intent_serial : Z;
  oi_base_inventory_revision : Z;
  oi_route_epoch : Z;
}.

(** [struct RuntimeRoutingMutationJournal] *)
Record MutationJournal := {
  mj_identity : OperationIdentity;
  mj_phase : MutationPhase;
  mj_mutation_boundary_entered : bool;
  mj_outcome : OperationOutcome;
}.

(** The four [highest_consumed_*] fields of the owner and of a snapshot. *)
Record ConsumedMarks := {
  cm_operation_serial : Z;
  cm_runtime_generation : Z;
  cm_intent_serial : Z;
  cm_route_epoch : Z;
}.

(** [struct RuntimeRoutingInventorySnapshot] *)
Record InventorySnapshot := {
  sn_revision : Z;
  sn_consumed : ConsumedMarks;
  sn_last_identity : option OperationIdentity;
  sn_phase : MutationPhase;
  sn_outcome : OperationOutcome;
  sn_inventory_complete : bool;
  sn_kernel_state_known : bool;
  sn_routes : list RouteSpec;
  sn_rules : list RuleSpec;
}.

Definition no_marks : ConsumedMarks :=
  {| cm_operation_serial := 0; cm_runtime_generation := 0; cm_intent_serial := 0;
     cm_route_epoch := 0 |}.

(** A default-constructed snapshot. *)
Definition initial_snapshot : InventorySnapshot :=
  {| sn_revision := 1; sn_consumed := no_marks; sn_last_identity := None; sn_phase := PhPrepared;
     sn_outcome := OIdle; sn_inventory_complete := true; sn_kernel_state_known := true;
     sn_routes := []; sn_rules := [] |}.

Definition with_marks (m : ConsumedMarks) (s : InventorySnapshot) : InventorySnapshot :=
  {| sn_revision := sn_revision s; sn_consumed := m; sn_last_identity := sn_last_identity s;
     sn_phase := sn_phase s; sn_outcome := sn_outcome s;
     sn_inventory_complete := sn_inventory_complete s;
     sn_kernel_state_known := sn_kernel_state_known s;
     sn_routes := sn_routes s; sn_rules := sn_rules s |}.

Definition with_known (known : bool) (s : InventorySnapshot) : InventorySnapshot :=
  {| sn_revision := sn_revision s; sn_consumed := sn_consumed s;
     sn_last_identity := sn_last_identity s; sn_phase := sn_phase s; sn_outcome := sn_outcome s;
     sn_inventory_complete := sn_inventory_complete s; sn_kernel_state_known := known;
     sn_routes := sn_routes s; sn_rules := sn_rules s |}.

(** [enum class RuntimeRoutingInventoryAuthority] and its classifier; an empty
    pointer is [None]. *)
Inductive InventoryAuthority :=
| Authoritative | InventoryMissing | InventoryIncomplete | KernelStateUnknown.

Definition classify_runtime_routing_inventory (inventory : option InventorySnapshot)
    : InventoryAuthority :=
  match inventory with
  | None => InventoryMissing
  | Some s =>
      if negb (sn_inventory_complete s) then InventoryIncomplete
      else if negb (sn_kernel_state_known s) then KernelStateUnknown
      else Authoritative
  end.

Definition is_authoritative (s : InventorySnapshot) : bool :=
  match classify_runtime_routing_inventory (Some s) with Authoritative => true | _ => false end.

(** ** The drift check *)

(** [enum class RuntimeRoutingInventoryLiveState] *)
Inductive InventoryLiveState := LiveHealthy | LiveMissing | LiveInconclusive.

(** One loop over expected objects: [None] is the early return. *)
Fixpoint drift {A} (counts : A → nat * nat) (expected : list A) (saw_missing : bool) : option bool :=
  match expected with
  | [] => Some saw_missing
  | x :: expected =>
      match counts x with
      | (0%nat, _) => drift counts expected true
      | (1%nat, 1%nat) => drift counts expected saw_missing
      | _ => None
      end
  end.

Definition route_counts (live_routes : list DumpedRoute) (expected : RouteSpec) : nat * nat :=
  let slot := List.filter (route_occupies_same_slot expected) live_routes in
  (length slot,
   length (List.filter (λ c, dr_exact_identity_representable c && route_matches_live expected c) slot)).

Definition rule_counts (live_rules : list DumpedRule) (expected : RuleSpec) : nat * nat :=
  let same := List.filter (rule_matches_live expected) live_rules in
  (length same, length (List.filter du_exact_identity_representable same)).

Definition classify_runtime_routing_inventory_live_state (inventory : InventorySnapshot)
    (live_routes : list DumpedRoute) (live_rules : list DumpedRule) : InventoryLiveState :=
  let concrete := sn_rules inventory ≫= λ logical,
    (λ family, with_family family logical) <$> families_of logical in
  match drift (route_counts live_routes) (sn_routes inventory) false with
  | None => LiveInconclusive
  | Some missing =>
      match drift (rule_counts live_rules) concrete missing with
      | None => LiveInconclusive
      | Some true => LiveMissing
      | Some false => LiveHealthy
      end
  end.

(** ** Requests and results *)

(** [struct RuntimeRoutingOperationRequest] *)
Record OperationRequest := {
  rq_identity : OperationIdentity;
  rq_desired_routes : list RouteSpec;
  rq_desired_rules : list RuleSpec;
  rq_authorized_external_tables : list ExternalTableAuthority;
  rq_mode : RouteReconcileMode;
}.

(** [struct RuntimeRoutingOperationResult] *)
Record OperationResult := {
  or_identity : OperationIdentity;
  or_outcome : OperationOutcome;
  or_journal : option MutationJournal;
  or_exact_journal : option PublishedJournal;
  or_inventory : option InventorySnapshot;
  or_exact_failure_stage : FailureStage;
  or_route_interface_unavailable : bool;
}.

(** [compatibility_converged] *)
Definition compatibility_converged (r : OperationResult) : bool :=
  match or_outcome r with OCompatibilityConverged => true | _ => false end.

(** ** Helpers *)

Definition identity_is_valid (i : OperationIdentity) : bool :=
  negb (oi_operation_serial i =? 0) && negb (oi_runtime_generation i =? 0)
  && negb (oi_intent_serial i =? 0) && negb (oi_base_inventory_revision i =? 0)
  && negb (oi_route_epoch i =? 0).

Definition transaction_identity (i : OperationIdentity) : TransactionIdentity :=
  {| ti_operation_serial := oi_operation_serial i; ti_runtime_generation := oi_runtime_generation i;
     ti_intent_serial := oi_intent_serial i;
     ti_base_inventory_revision := oi_base_inventory_revision i;
     ti_route_epoch := oi_route_epoch i |}.

Definition exact_operation_outcome (t : TransactionTerminal) : OperationOutcome :=
  match t with
  | TCandidateCommitted => OExactCandidateCommitted
  | TCandidateRolledBack => OExactCandidateRolledBack
  | TCommittedCleanupPending => OExactCommittedCleanupPending
  | TPartialUnknown => OExactPartialUnknown
  | TStaleBeforeMutation => OExactStaleBeforeMutation
  | TPrepared | TRunning | TPreconditionFailed => OExactPreconditionFailed
  end.

Definition exact_rules_equal (left right : RuleSpec) : bool :=
  (ru_fwmark left =? ru_fwmark right) && (ru_fwmask left =? ru_fwmask right)
  && (ru_table left =? ru_table right) && (ru_priority left =? ru_priority right)
  && (ru_family left =? ru_family right).

Definition logical_rule_covers (logical concrete : RuleSpec) : bool :=
  (ru_fwmark logical =? ru_fwmark concrete) && (ru_fwmask logical =? ru_fwmask concrete)
  && (ru_table logical =? ru_table concrete) && (ru_priority logical =? ru_priority concrete)
  && ((ru_family logical =? 0) || (ru_family logical =? ru_family concrete)).

Definition append_unique_rule (target : list RuleSpec) (rule : RuleSpec) : list RuleSpec :=
  if existsb (λ candidate, exact_rules_equal candidate rule) target then target
  else target ++ [rule].

(** The comparison is the one of [route_specs_equal], field by field. *)
Definition append_unique_route (target : list RouteSpec) (route : RouteSpec) : list RouteSpec :=
  if existsb (λ candidate, route_specs_equal candidate route) target then target
  else target ++ [route].

(** ** The owner *)

(** The members that are neither ledgers nor kernel: [pending_interface_up_] is a
    set whose elements are notified in any order (the notifications commute). *)
Record OwnerFields := {
  of_inventory_revision : Z;
  of_consumed : ConsumedMarks;
  of_published : InventorySnapshot;
  of_active_journal : option MutationJournal;
  of_active_exact_journal : option PublishedJournal;
  of_pending_interface_up : gset string;
}.

Record OwnerWorld (K1 K2 E : Type) := {
  ow_fields : OwnerFields;
  ow_routing : RoutingWorld K1 K2;
  ow_env : E;
}.
Arguments ow_fields {K1 K2 E}. Arguments ow_routing {K1 K2 E}. Arguments ow_env {K1 K2 E}.

(** [std::bad_alloc] of the snapshot factory, the managers' exceptions, and an
    exception of the caller's compatibility fence. *)
Inductive OwnerError := BadAlloc | RoutingThrew (e : RoutingError) | FenceThrew.

(** The parameters of the environment: the snapshot factory (false: it returns no
    object or throws) and the backend's writer lease. *)
Record OwnerContext (E : Type) := {
  oc_inventory_factory : E → E * bool;
  oc_acquire_lease : E → E * result unit bool;
}.
Arguments oc_inventory_factory {E}. Arguments oc_acquire_lease {E}.

Section Owner.
Context {K1 K2 E : Type} `{RouteNetlink K1} `{RuleNetlink K2} `{Inet}.
Context (cx : OwnerContext E).

Definition OW (A : Type) : Type := SE (OwnerWorld K1 K2 E) OwnerError A.

Definition ow_update (f : OwnerFields → OwnerFields) : OW unit := modify (λ w,
  {| ow_fields := f (ow_fields w); ow_routing := ow_routing w; ow_env := ow_env w |}).
Definition ow_field {A} (f : OwnerFields → A) : OW A := gets (λ w : OwnerWorld K1 K2 E, f (ow_fields w)).
Definition ow_run {A} (m : RS K1 K2 A) : OW A := λ w,
  let '(rw, r) := m (ow_routing w) in
  ({| ow_fields := ow_fields w; ow_routing := rw; ow_env := ow_env w |}, map_error RoutingThrew r).
Definition ow_call {A} (op : E → E * A) : OW A := λ w,
  let '(e, a) := op (ow_env w) in
  ({| ow_fields := ow_fields w; ow_routing := ow_routing w; ow_env := e |}, Ok a).

Definition get_routes : OW (list RouteSpec) := ow_run (on_routes (field routes_)).
Definition get_rules : OW (list RuleSpec) := ow_run (on_rules (pm_field pm_rules)).

Definition set_pending_interfaces (p : gset string) (f : OwnerFields) : OwnerFields :=
  {| of_inventory_revision := of_inventory_revision f; of_consumed := of_consumed f;
     of_published := of_published f; of_active_journal := of_active_journal f;
     of_active_exact_journal := of_active_exact_journal f; of_pending_interface_up := p |}.
Definition set_active_journal (j : option MutationJournal) (f : OwnerFields) : OwnerFields :=
  {| of_inventory_revision := of_inventory_revision f; of_consumed := of_consumed f;
     of_published := of_published f; of_active_journal := j;
     of_active_exact_journal := of_active_exact_journal f;
     of_pending_interface_up := of_pending_interface_up f |}.
Definition set_exact_journal (j : option PublishedJournal) (f : OwnerFields) : OwnerFields :=
  {| of_inventory_revision := of_inventory_revision f; of_consumed := of_consumed f;
     of_published := of_published f; of_active_journal := of_active_journal f;
     of_active_exact_journal := j; of_pending_interface_up := of_pending_interface_up f |}.
Definition set_published (revision : Z) (m : ConsumedMarks) (s : InventorySnapshot)
    (f : OwnerFields) : OwnerFields :=
  {| of_inventory_revision := revision; of_consumed := m;
     of_published := s; of_active_journal := of_active_journal f;
     of_active_exact_journal := of_active_exact_journal f;
     of_pending_interface_up := of_pending_interface_up f |}.

(** The constructor's fields; the ledgers start empty. *)
Definition initial_fields : OwnerFields :=
  {| of_inventory_revision := 1; of_consumed := no_marks; of_published := initial_snapshot;
     of_active_journal := None; of_active_exact_journal := None; of_pending_interface_up := ∅ |}.

(** The constructor refuses two different backends and a failing factory. *)
Definition make_owner (same_backend : bool) (k1 : K1) (k2 : K2) (e : E)
    : result unit (OwnerWorld K1 K2 E) :=
  if negb same_backend then Throw ()
  else
    match oc_inventory_factory cx e with
    | (_, false) => Throw ()
    | (e', true) =>
        Ok {| ow_fields := initial_fields;
              ow_routing := ((unused_table, k1), (unused_rules, k2)); ow_env := e' |}
    end.

(** ** Publication *)

Definition allocate_inventory_snapshot : OW unit :=
  allocated ← ow_call (oc_inventory_factory cx);
  if allocated : bool then mret () else throw BadAlloc.

Definition prepare_inventory_publication_locked (routes : list RouteSpec) (rules : list RuleSpec)
    (identity : option OperationIdentity) (inventory_complete kernel_state_known : bool)
    : OW InventorySnapshot :=
  _ ← allocate_inventory_snapshot;
  revision ← ow_field of_inventory_revision;
  consumed ← ow_field of_consumed;
  mret {| sn_revision := u64 (revision + 1); sn_consumed := consumed; sn_last_identity := identity;
          sn_phase := PhPrepared; sn_outcome := OIdle; sn_inventory_complete := inventory_complete;
          sn_kernel_state_known := kernel_state_known; sn_routes := routes; sn_rules := rules |}.

Definition commit_prepared_inventory_locked (prepared : InventorySnapshot) (phase : MutationPhase)
    (outcome : OperationOutcome) (advance_revision : bool) : OW InventorySnapshot :=
  revision ← ow_field of_inventory_revision;
  marks ← ow_field of_consumed;
  let revision := if advance_revision then u64 (revision + 1) else revision in
  let s := {| sn_revision := revision; sn_consumed := sn_consumed prepared;
              sn_last_identity := sn_last_identity prepared; sn_phase := phase;
              sn_outcome := outcome; sn_inventory_complete := sn_inventory_complete prepared;
              sn_kernel_state_known := sn_kernel_state_known prepared;
              sn_routes := sn_routes prepared; sn_rules := sn_rules prepared |} in
  _ ← ow_update (set_published revision marks s);
  mret s.

Definition publish_actual_inventory_or_fallback_locked (fallback : InventorySnapshot)
    (identity : option OperationIdentity) (phase : MutationPhase) (outcome : OperationOutcome)
    (kernel_state_known advance_revision : bool) : OW InventorySnapshot :=
  catch
    (routes ← get_routes;
     rules ← get_rules;
     actual ← prepare_inventory_publication_locked routes rules identity true kernel_state_known;
     commit_prepared_inventory_locked actual phase outcome advance_revision)
    (λ _, commit_prepared_inventory_locked (with_known kernel_state_known fallback) phase outcome
            advance_revision).

(** ** Interface notifications *)

Definition consume_pending_interface_notifications_locked : OW unit :=
  pending ← ow_field of_pending_interface_up;
  _ ← ow_update (set_pending_interfaces ∅);
  mfor (λ name, ow_run (on_routes (RouteTable.notify_interface_up name))) (elements pending).

Definition discard_pending_interface_notifications_locked : OW unit :=
  ow_update (set_pending_interfaces ∅).

(** [locked] is the result of [try_to_lock]. *)
Definition owner_notify_interface_up (locked : bool) (interface_name : string) : OW unit :=
  if empty_str interface_name then mret ()
  else if locked then
    _ ← consume_pending_interface_notifications_locked;
    ow_run (on_routes (RouteTable.notify_interface_up interface_name))
  else
    pending ← ow_field of_pending_interface_up;
    ow_update (set_pending_interfaces (pending ∪ {[interface_name]})).

(** ** Compatibility operations *)

Definition clear_ledgers_locked : OW bool :=
  protected_tables ← ow_run (on_rules pm_clear);
  tracked ← get_routes;
  live_dependency_tables ← ow_run (on_rules (protect_route_tables_with_live_rules tracked ∅ []));
  let protected_tables := protected_tables ∪ live_dependency_tables in
  uncertain_route_tables ← ow_run (on_routes (RouteTable.clear protected_tables));
  mret (bool_decide (protected_tables = ∅) && bool_decide (uncertain_route_tables = ∅)).

(** From [finalize_pending_replacements] to the adoption, the same in the three
    compatibility operations; [note] records the phase in the journal of
    [reconcile] and does nothing in the others. Returns [kernel_state_known]. *)
Definition retire_and_adopt (note : MutationPhase → OW unit) (desired_routes_live : bool)
    (prior_generated_route_tables : gset Z) (desired_routes : list RouteSpec)
    (desired_rules : list RuleSpec) : OW bool :=
  _ ← note PhCommittingReplacements;
  _ ← ow_run (on_routes finalize_pending_replacements);
  _ ← note PhRemovingOrphanedRules;
  orphan_tables ← ow_run (on_rules (remove_orphaned_generated desired_rules
                                      prior_generated_route_tables));
  _ ← note PhRemovingObsoleteRules;
  retained_rule_tables ← ow_run (on_rules (pm_remove_obsolete desired_rules));
  let rule_cleanup_known := bool_decide (orphan_tables ∪ retained_rule_tables = ∅) in
  tracked ← get_routes;
  live_dependency_tables ← ow_run (on_rules (protect_route_tables_with_live_rules tracked
                                               prior_generated_route_tables desired_rules));
  _ ← note PhRemovingObsoleteRoutes;
  uncertain_route_tables ← ow_run (on_routes (remove_obsolete desired_routes
    (orphan_tables ∪ retained_rule_tables ∪ live_dependency_tables)));
  let kernel_state_known := desired_routes_live && rule_cleanup_known
                            && bool_decide (uncertain_route_tables = ∅) in
  _ ← note PhAdoptingCommittedInventory;
  _ ← ow_run (on_routes (adopt_live_generated_desired desired_routes));
  _ ← catch
        (live_tables ← ow_run (on_routes live_generated_route_tables);
         ow_run (on_rules (pm_adopt_live_generated_desired desired_rules live_tables)))
        (λ _, mret ());
  mret kernel_state_known.

Definition no_note (_ : MutationPhase) : OW unit := mret ().

Definition convergence_outcome (kernel_state_known : bool) : OperationOutcome :=
  if kernel_state_known then OCompatibilityConverged else OCompatibilityCleanupPending.

(** The handlers after the mutation boundary: publish the failure, rethrow. *)
Definition publish_failure {A} (fallback : InventorySnapshot) (e : OwnerError) : OW A :=
  _ ← publish_actual_inventory_or_fallback_locked fallback None PhFailed OPartialFailure false true;
  throw e.

Definition populate_initial_generation (desired_routes : list RouteSpec)
    (desired_rules : list RuleSpec) : OW InventorySnapshot :=
  _ ← consume_pending_interface_notifications_locked;
  routes ← get_routes;
  rules ← get_rules;
  fallback ← prepare_inventory_publication_locked routes rules None false true;
  prior_generated_route_tables ← ow_run (on_routes live_generated_route_tables);
  catch
    (desired_routes_live ← catch
       (complete ← ow_run (on_routes (add_missing desired_routes Strict));
        _ ← ow_run (on_rules (pm_add_missing desired_rules));
        mret complete)
       (λ e, _ ← clear_ledgers_locked; throw e);
     kernel_state_known ← retire_and_adopt no_note desired_routes_live
                            prior_generated_route_tables desired_routes desired_rules;
     publish_actual_inventory_or_fallback_locked fallback None PhComplete
       (convergence_outcome kernel_state_known) kernel_state_known true)
    (publish_failure fallback).

(** The additions of a reconciliation: replaced routes are restored when the rules
    fail. *)
Definition add_generation (note : MutationPhase → OW unit) (desired_routes : list RouteSpec)
    (desired_rules : list RuleSpec) (mode : RouteReconcileMode) : OW bool :=
  desired_routes_live ← ow_run (on_routes (add_missing desired_routes mode));
  _ ← note PhAddingRules;
  _ ← catch (ow_run (on_rules (pm_add_missing desired_rules)))
        (λ e, _ ← ow_run (on_routes rollback_pending_replacements); throw e);
  mret desired_routes_live.

Definition reconcile_compatibility_generation (desired_routes : list RouteSpec)
    (desired_rules : list RuleSpec) (mode : RouteReconcileMode)
    (current_fence : option (E → E * result unit bool)) : OW (option InventorySnapshot) :=
  _ ← consume_pending_interface_notifications_locked;
  routes ← get_routes;
  rules ← get_rules;
  fallback ← prepare_inventory_publication_locked routes rules None false true;
  fence ← match current_fence with None => mret (Ok true) | Some probe => ow_call probe end;
  match fence with
  | Throw _ => throw FenceThrew
  | Ok false => mret None
  | Ok true =>
      prior_generated_route_tables ← ow_run (on_routes live_generated_route_tables);
      catch
        (desired_routes_live ← add_generation no_note desired_routes desired_rules mode;
         kernel_state_known ← retire_and_adopt no_note desired_routes_live
                                prior_generated_route_tables desired_routes desired_rules;
         inventory ← publish_actual_inventory_or_fallback_locked fallback None PhComplete
                       (convergence_outcome kernel_state_known) kernel_state_known true;
         mret (Some inventory))
        (publish_failure fallback)
  end.

(** ** Numbered operations *)

(** The checks both numbered operations start with. *)
Definition identity_rejection (consumed : ConsumedMarks) (i : OperationIdentity)
    : option OperationOutcome :=
  if negb (identity_is_valid i) then Some ORejectedInvalidIdentity
  else if (oi_operation_serial i <=? cm_operation_serial consumed)
          || (oi_intent_serial i <=? cm_intent_serial consumed)
          || (oi_runtime_generation i <? cm_runtime_generation consumed)
          || (oi_route_epoch i <? cm_route_epoch consumed)
  then Some ORejectedReplay
  else None.

Definition rejected_result (request : OperationRequest) (outcome : OperationOutcome)
    : OW OperationResult :=
  inventory ← ow_field of_published;
  mret {| or_identity := rq_identity request; or_outcome := outcome; or_journal := None;
          or_exact_journal := None; or_inventory := Some inventory;
          or_exact_failure_stage := SNone; or_route_interface_unavailable := false |}.

Definition consumed_marks (i : OperationIdentity) (m : ConsumedMarks) : ConsumedMarks :=
  {| cm_operation_serial := oi_operation_serial i;
     cm_runtime_generation := Z.max (cm_runtime_generation m) (oi_runtime_generation i);
     cm_intent_serial := oi_intent_serial i;
     cm_route_epoch := Z.max (cm_route_epoch m) (oi_route_epoch i) |}.

(** Consumes the identity and publishes the marks on a copy of the inventory. *)
Definition consume_identity (i : OperationIdentity) : OW unit :=
  ow_update (λ f,
    let m := consumed_marks i (of_consumed f) in
    set_published (of_inventory_revision f) m (with_marks m (of_published f)) f).

Definition update_journal (g : MutationJournal → MutationJournal) : OW unit :=
  ow_update (λ f, set_active_journal (g <$> of_active_journal f) f).
Definition note_phase (phase : MutationPhase) : OW unit := update_journal (λ j,
  {| mj_identity := mj_identity j; mj_phase := phase;
     mj_mutation_boundary_entered := mj_mutation_boundary_entered j; mj_outcome := mj_outcome j |}).
Definition note_boundary : OW unit := update_journal (λ j,
  {| mj_identity := mj_identity j; mj_phase := mj_phase j; mj_mutation_boundary_entered := true;
     mj_outcome := mj_outcome j |}).
Definition note_outcome (outcome : OperationOutcome) : OW unit := update_journal (λ j,
  {| mj_identity := mj_identity j; mj_phase := mj_phase j;
     mj_mutation_boundary_entered := mj_mutation_boundary_entered j; mj_outcome := outcome |}).

Definition failure_outcome (e : OwnerError) : OperationOutcome :=
  match e with
  | RoutingThrew (RouteFailed RouteInterfaceUnavailableError) => ORouteUnavailable
  | _ => OPartialFailure
  end.

Definition operation_result (request : OperationRequest) (outcome : OperationOutcome)
    (inventory : InventorySnapshot) : OW OperationResult :=
  journal ← ow_field of_active_journal;
  mret {| or_identity := rq_identity request; or_outcome := outcome; or_journal := journal;
          or_exact_journal := None; or_inventory := Some inventory;
          or_exact_failure_stage := SNone; or_route_interface_unavailable := false |}.

(** The [try] block of [reconcile]. *)
Definition run_compatibility (request : OperationRequest) (fallback : InventorySnapshot)
    : OW OperationResult :=
  _ ← note_phase PhObservingPriorRoutes;
  prior_generated_route_tables ← ow_run (on_routes live_generated_route_tables);
  _ ← note_phase PhAddingRoutes;
  _ ← note_boundary;
  desired_routes_live ← add_generation note_phase (rq_desired_routes request)
                          (rq_desired_rules request) (rq_mode request);
  kernel_state_known ← retire_and_adopt note_phase desired_routes_live
    prior_generated_route_tables (rq_desired_routes request) (rq_desired_rules request);
  _ ← note_phase PhComplete;
  let outcome := convergence_outcome kernel_state_known in
  _ ← note_outcome outcome;
  inventory ← publish_actual_inventory_or_fallback_locked fallback (Some (rq_identity request))
                PhComplete outcome kernel_state_known true;
  operation_result request outcome inventory.

(** The handlers of [reconcile] and the code after them. *)
Definition fail_compatibility (request : OperationRequest) (fallback : InventorySnapshot)
    (e : OwnerError) : OW OperationResult :=
  let outcome := failure_outcome e in
  _ ← note_phase PhFailed;
  _ ← note_outcome outcome;
  journal ← ow_field of_active_journal;
  if match journal with Some j => mj_mutation_boundary_entered j | None => false end
  then
    inventory ← publish_actual_inventory_or_fallback_locked fallback (Some (rq_identity request))
                  PhFailed outcome false true;
    operation_result request outcome inventory
  else
    inventory ← ow_field of_published;
    operation_result request outcome inventory.

(** [RuntimeRoutingOperationOwner::reconcile] *)
Definition owner_reconcile (request : OperationRequest) : OW OperationResult :=
  let i := rq_identity request in
  _ ← consume_pending_interface_notifications_locked;
  consumed ← ow_field of_consumed;
  match identity_rejection consumed i with
  | Some outcome => rejected_result request outcome
  | None =>
      _ ← allocate_inventory_snapshot;
      revision ← ow_field of_inventory_revision;
      if negb (oi_base_inventory_revision i =? revision) then
        _ ← consume_identity i;
        rejected_result request ORejectedStaleInventory
      else
        routes ← get_routes;
        rules ← get_rules;
        fallback ← prepare_inventory_publication_locked routes rules (Some i) false true;
        _ ← consume_identity i;
        marks ← ow_field of_consumed;
        let fallback := with_marks marks fallback in
        _ ← ow_update (set_active_journal (Some
              {| mj_identity := i; mj_phase := PhPrepared; mj_mutation_boundary_entered := false;
                 mj_outcome := OPartialFailure |}));
        catch (run_compatibility request fallback) (fail_compatibility request fallback)
  end.

(** ** Exact operations *)

(** [exact_request] of [reconcile_exact]. *)
Definition exact_request_of (request : OperationRequest) (current : InventorySnapshot)
    (prior_owned_rules : list RuleSpec) : TransactionRequest :=
  let authoritative := is_authoritative current in
  {| tq_identity := transaction_identity (rq_identity request);
     tq_desired_routes := rq_desired_routes request;
     tq_desired_rules := rq_desired_rules request;
     tq_prior_routes := if authoritative then sn_routes current else [];
     tq_prior_rules := if authoritative then sn_rules current else [];
     tq_require_prior_preimage_proof := authoritative;
     tq_prior_owned_rules := prior_owned_rules;
     tq_authorized_external_tables := rq_authorized_external_tables request;
     tq_allow_recovery_rule_heuristic := negb authoritative |}.

Definition generated_only (routes : list RouteSpec) : list RouteSpec :=
  List.filter (λ r, rt_protocol r =? KEEN_PBR_GENERATED_ROUTE_PROTOCOL) routes.

(** The owned rules a commit retains. *)
Definition retained_owned_rules (prior_owned desired : list RuleSpec) : list RuleSpec :=
  fold_left (λ l owned,
    if existsb (λ d, logical_rule_covers d owned) desired then append_unique_rule l owned else l)
    prior_owned [].

(** The loop over the stable entries: recovered rules, and rules the candidate
    created. [known] are the rules of the manager. *)
Definition is_recovered_entry (current : InventorySnapshot) (known : list RuleSpec)
    (terminal : TransactionTerminal) (e : JournalEntry) : bool :=
  (match sn_outcome current with OIdle => true | _ => false end
   || (negb (is_authoritative current)
       && match je_rule e with
          | Some rule => negb (existsb (λ k, logical_rule_covers k rule) known)
          | None => false
          end))
  && match terminal with TCandidateCommitted => true | _ => false end
  && match je_operation e with JAddCandidateRule => true | _ => false end
  && match je_state e with JVerified => true | _ => false end
  && match je_receipt e with JAlreadyPresent => true | _ => false end.

Definition is_created_entry (e : JournalEntry) : bool :=
  match je_operation e, je_state e, je_receipt e with
  | JAddCandidateRule, JCompleted, JCreated => true
  | _, _, _ => false
  end.

Definition append_entry_rule (l : list RuleSpec) (e : JournalEntry) : list RuleSpec :=
  match je_rule e with Some rule => append_unique_rule l rule | None => l end.

Definition recovered_rules (current : InventorySnapshot) (known : list RuleSpec)
    (terminal : TransactionTerminal) (entries : list JournalEntry) (owned : list RuleSpec)
    : list RuleSpec :=
  fold_left append_entry_rule (List.filter (is_recovered_entry current known terminal) entries) owned.

Definition created_rules (entries : list JournalEntry) : list RuleSpec :=
  fold_left append_entry_rule (List.filter is_created_entry entries) [].

(** The transaction's caller: the fence probe of the operation, the owner's journal
    slot as publisher, one combined backend. The environment carries the record the
    publisher was given. *)
Definition exact_caller (current_fence : option (E → E * result unit CurrentFence))
    : TransactionCaller (E * option PublishedJournal) :=
  {| tc_fence := (λ probe '(e, p), let '(e', r) := probe e in ((e', p), r)) <$> current_fence;
     tc_publish := Some (λ journal '(e, _), ((e, Some journal), Ok true));
     tc_same_backend := true;
     tc_acquire_lease := λ '(e, p), let '(e', r) := oc_acquire_lease cx e in ((e', p), r) |}.

(** Runs the transaction on the owner's backends. The slot holds the shared record,
    so it shows what the transaction wrote to it last. Returns the transaction's
    result and the record, if one was published. *)
Definition run_exact (exact_request : TransactionRequest)
    (current_fence : option (E → E * result unit CurrentFence))
    : OW (TransactionResult * option PublishedJournal) := λ w,
  let '((table, k1), (manager, k2)) := ow_routing w in
  let t := execute_runtime_routing_transaction (exact_caller current_fence) exact_request
             k1 k2 (ow_env w, None) in
  let record := (λ _ : PublishedJournal, tw_pub t) <$> (tw_env t).2 in
  ({| ow_fields := match record with
                   | Some _ => set_exact_journal record (ow_fields w)
                   | None => ow_fields w
                   end;
      ow_routing := ((table, tw_routes t), (manager, tw_rules t));
      ow_env := (tw_env t).1 |},
   Ok (tw_result t, record)).

Definition adopt_exact (routes owned_routes : list RouteSpec) (rules owned_rules : list RuleSpec)
    : OW unit :=
  _ ← ow_run (on_routes (adopt_exact_state routes owned_routes));
  ow_run (on_rules (pm_adopt_exact_state rules owned_rules)).

(** The switch over the terminal: outcome and published inventory. *)
Definition settle_exact (request : OperationRequest) (current : InventorySnapshot)
    (committed rolled_back unknown : InventorySnapshot) (owned_routes : list RouteSpec)
    (prior_owned : list RuleSpec) (known : list RuleSpec) (t : TransactionResult)
    (record : option PublishedJournal) : OW (OperationOutcome * InventorySnapshot) :=
  let desired_routes := rq_desired_routes request in
  let desired_rules := rq_desired_rules request in
  let entries := match record with Some j => pj_entries j | None => tr_journal t end in
  let outcome := exact_operation_outcome (tr_terminal t) in
  let created := created_rules entries in
  match tr_terminal t with
  | TCandidateCommitted =>
      let owned := recovered_rules current known (tr_terminal t) entries
                     (retained_owned_rules prior_owned desired_rules) in
      _ ← adopt_exact desired_routes (generated_only desired_routes)
            desired_rules (fold_left append_unique_rule created owned);
      s ← commit_prepared_inventory_locked committed PhComplete outcome true;
      mret (outcome, s)
  | TCandidateRolledBack =>
      s ← commit_prepared_inventory_locked rolled_back PhFailed outcome true;
      mret (outcome, s)
  | TCommittedCleanupPending | TPartialUnknown =>
      _ ← adopt_exact (fold_left append_unique_route desired_routes (sn_routes current))
            (fold_left append_unique_route (generated_only desired_routes) owned_routes)
            (fold_left append_unique_rule desired_rules (sn_rules current))
            (fold_left append_unique_rule created prior_owned);
      s ← commit_prepared_inventory_locked unknown PhFailed outcome (tr_mutation_started t);
      mret (outcome, s)
  | TStaleBeforeMutation | TPreconditionFailed =>
      if is_authoritative current && tr_prior_preimage_observed t && negb (tr_prior_preimage_exact t)
      then
        s ← commit_prepared_inventory_locked unknown PhFailed outcome false;
        mret (outcome, s)
      else
        s ← ow_field of_published;
        mret (outcome, s)
  | TPrepared | TRunning =>
      s ← commit_prepared_inventory_locked unknown PhFailed OExactPartialUnknown
            (tr_mutation_started t);
      mret (OExactPartialUnknown, s)
  end.

(** The part of [reconcile_exact] behind a matching base revision. *)
Definition perform_exact (request : OperationRequest)
    (current_fence : option (E → E * result unit CurrentFence)) (current : InventorySnapshot)
    : OW OperationResult :=
  let i := rq_identity request in
  prior_owned ← ow_run (on_rules (pm_field pm_owned_rules));
  owned_routes ← ow_run (on_routes (field owned_routes_));
  committed ← prepare_inventory_publication_locked (rq_desired_routes request)
                (rq_desired_rules request) (Some i) true true;
  rolled_back ← prepare_inventory_publication_locked (sn_routes current) (sn_rules current) (Some i)
                  (sn_inventory_complete current) (sn_kernel_state_known current);
  unknown ← prepare_inventory_publication_locked (sn_routes current) (sn_rules current) (Some i)
              false false;
  _ ← consume_identity i;
  marks ← ow_field of_consumed;
  '(t, record) ← run_exact (exact_request_of request current prior_owned) current_fence;
  known ← get_rules;
  '(outcome, s) ← settle_exact request current (with_marks marks committed)
                    (with_marks marks rolled_back) (with_marks marks unknown) owned_routes
                    prior_owned known t record;
  mret {| or_identity := i; or_outcome := outcome; or_journal := None; or_exact_journal := record;
          or_inventory := Some s;
          or_exact_failure_stage := match record with Some j => pj_failure_stage j | None => SNone end;
          or_route_interface_unavailable := tr_route_interface_unavailable t |}.

Definition reconcile_exact (request : OperationRequest)
    (current_fence : option (E → E * result unit CurrentFence)) : OW OperationResult :=
  let i := rq_identity request in
  _ ← consume_pending_interface_notifications_locked;
  consumed ← ow_field of_consumed;
  match identity_rejection consumed i with
  | Some outcome => rejected_result request outcome
  | None =>
      current ← ow_field of_published;
      _ ← allocate_inventory_snapshot;
      revision ← ow_field of_inventory_revision;
      if (oi_base_inventory_revision i =? revision)
         && (oi_base_inventory_revision i =? sn_revision current)
      then perform_exact request current_fence current
      else
        _ ← consume_identity i;
        rejected_result request ORejectedStaleInventory
  end.

(** ** Shutdown *)

Definition owner_clear : OW InventorySnapshot :=
  routes ← get_routes;
  rules ← get_rules;
  fallback ← prepare_inventory_publication_locked routes rules None false true;
  catch
    (kernel_state_known ← clear_ledgers_locked;
     _ ← discard_pending_interface_notifications_locked;
     _ ← ow_update (λ f, set_exact_journal None (set_active_journal None f));
     publish_actual_inventory_or_fallback_locked fallback None
       (if kernel_state_known : bool then PhCleared else PhFailed)
       (if kernel_state_known : bool then OCleared else OPartialFailure) kernel_state_known true)
    (publish_failure fallback).

(** The destructor. *)
Definition destroy_owner : OW unit :=
  _ ← catch (_ ← clear_ledgers_locked; mret ()) (λ _, mret ());
  _ ← discard_pending_interface_notifications_locked;
  ow_update (λ f, set_exact_journal None (set_active_journal None f)).
End Owner.

Arguments OW K1 K2 E A : clear implicits.
