(* ===== verification/OperationOwnerHistory.v ===== *)
(** * What the operation owner publishes and consumes

    The history of an owner as a step relation over its operations, each of them
    atomic under the mutex, with other writers of the kernel in between. Through
    all of it the published inventory carries the owner's revision and consumed
    marks and, when it claims to be complete, lists the ledgers; and an identity
    that was consumed once is never run again. *)

From Stdlib Require Import ZArith Lia Ascii String.
From stdpp Require Import base gmap strings list relations.
From S2P Require Import Prelude ConfigTypes RoutingPlan KernelRoutes ListParser StateError.
From S2P Require Import RouteTable PolicyRules RoutingState TransactionPlan Transaction OperationOwner.
Open Scope Z_scope.

Definition ledger_routes {K1 K2 E} (w : OwnerWorld K1 K2 E) : list RouteSpec :=
  routes_ (ow_routing w).1.1.
Definition ledger_rules {K1 K2 E} (w : OwnerWorld K1 K2 E) : list RuleSpec :=
  pm_rules (ow_routing w).2.1.
Definition published {K1 K2 E} (w : OwnerWorld K1 K2 E) : InventorySnapshot :=
  of_published (ow_fields w).
Definition consumed {K1 K2 E} (w : OwnerWorld K1 K2 E) : ConsumedMarks := of_consumed (ow_fields w).
Definition revision {K1 K2 E} (w : OwnerWorld K1 K2 E) : Z := of_inventory_revision (ow_fields w).

(** The published inventory is current, and what it calls complete is the ledger. *)
Record owner_inv {K1 K2 E} (w : OwnerWorld K1 K2 E) : Prop := {
  inv_revision : sn_revision (published w) = revision w;
  inv_marks : sn_consumed (published w) = consumed w;
  inv_mirror : sn_inventory_complete (published w) = true →
    sn_routes (published w) = ledger_routes w ∧ sn_rules (published w) = ledger_rules w;
}.

Definition marks_le (m m' : ConsumedMarks) : Prop :=
  cm_operation_serial m ≤ cm_operation_serial m' ∧ cm_runtime_generation m ≤ cm_runtime_generation m'
  ∧ cm_intent_serial m ≤ cm_intent_serial m' ∧ cm_route_epoch m ≤ cm_route_epoch m'.

#[export] Instance marks_le_preorder : PreOrder marks_le.
Proof. split; unfold marks_le; [intros m|intros m1 m2 m3]; lia. Qed.

Lemma consumed_marks_le i m : identity_rejection m i = None → marks_le m (consumed_marks i m).
Proof.
  unfold identity_rejection. destruct (negb _); [done|]. destruct (_ || _) eqn:Hr; [done|].
  intros _. bool_to_prop. unfold marks_le, consumed_marks. simpl. lia.
Qed.

(** Notifications commute, so the order in which a set of them is delivered does not
    matter. *)
Lemma notify_comm {K} `{RouteNetlink K} a b (w : World K) :
  (RouteTable.notify_interface_up b (RouteTable.notify_interface_up a w).1).1
  = (RouteTable.notify_interface_up a (RouteTable.notify_interface_up b w).1).1.
Proof.
  destruct w as [t k]. unfold RouteTable.notify_interface_up.
  destruct (empty_str a), (empty_str b); try done. simpl. unfold set_records. simpl.
  rewrite <- !list_fmap_compose. do 2 f_equal. apply list_fmap_ext. intros i record _. simpl.
  repeat (case_match; simpl in *); congruence.
Qed.

(** ** Steps *)

(** The two numbered operations. *)
Inductive NumberedOperation (E : Type) :=
| RunCompatibility
| RunExact (current_fence : option (E → E * result unit CurrentFence)).
Arguments RunCompatibility {E}. Arguments RunExact {E} current_fence.

Section History.
Context {K1 K2 E : Type} `{RouteNetlink K1} `{RuleNetlink K2} `{Inet}.
Context (cx : OwnerContext E).

Definition run_numbered (op : NumberedOperation E) (request : OperationRequest)
    : OW K1 K2 E OperationResult :=
  match op with
  | RunCompatibility => owner_reconcile cx request
  | RunExact current_fence => reconcile_exact cx request current_fence
  end.

Inductive owner_step (w : OwnerWorld K1 K2 E) : OwnerWorld K1 K2 E → Prop :=
| step_numbered op request : owner_step w (run_numbered op request w).1
| step_populate routes rules : owner_step w (populate_initial_generation cx routes rules w).1
| step_compatibility routes rules mode fence :
    owner_step w (reconcile_compatibility_generation cx routes rules mode fence w).1
| step_notify locked name : owner_step w (owner_notify_interface_up locked name w).1
| step_clear : owner_step w (owner_clear cx w).1
| step_others k1 k2 e :
    owner_step w {| ow_fields := ow_fields w;
                    ow_routing := (((ow_routing w).1.1, k1), ((ow_routing w).2.1, k2)); ow_env := e |}.

Definition reachable (w : OwnerWorld K1 K2 E) : Prop :=
  ∃ k1 k2 e w0, make_owner cx true k1 k2 e = Ok w0 ∧ rtc owner_step w0 w.

(** ** What operations leave alone *)

Definition core (w : OwnerWorld K1 K2 E) : Z * ConsumedMarks * InventorySnapshot :=
  (revision w, consumed w, published w).
Definition core_is c (w : OwnerWorld K1 K2 E) : Prop := core w = c.

(** Core and ledgers. *)
Definition calm c (l : list RouteSpec * list RuleSpec) (w : OwnerWorld K1 K2 E) : Prop :=
  core w = c ∧ (ledger_routes w, ledger_rules w) = l.

Lemma run_keeps c {A} (m : RS K1 K2 A) : preserves (core_is c) (ow_run m).
Proof. intros w Hw. unfold ow_run. by destruct (m (ow_routing w)) as [rw r]. Qed.

Lemma run_calm c l {A} (m : RS K1 K2 A) :
  (∀ w, (routes_ (m w).1.1.1, pm_rules (m w).1.2.1) = (routes_ w.1.1, pm_rules w.2.1)) →
  preserves (calm c l) (ow_run m).
Proof.
  intros Hm w [Hc Hl]. specialize (Hm (ow_routing w)). unfold ow_run.
  destruct (m (ow_routing w)) as [rw r]. split; [done|]. rewrite <- Hl. exact Hm.
Qed.

Lemma call_keeps c {A} (op : E → E * A) : preserves (core_is c) (ow_call op : OW K1 K2 E A).
Proof. intros w Hw. unfold ow_call. by destruct (op (ow_env w)). Qed.

Lemma call_calm c l {A} (op : E → E * A) : preserves (calm c l) (ow_call op : OW K1 K2 E A).
Proof. intros w Hw. unfold ow_call. by destruct (op (ow_env w)). Qed.

Lemma calm_core c l {A} (m : OW K1 K2 E A) :
  preserves (calm c l) m → ∀ w, calm c l w → wp m (λ _, calm c l) (λ _, calm c l) w.
Proof. intros Hm. by apply preserves_wp. Qed.

#[local] Hint Resolve run_keeps call_keeps call_calm : preserves.

Lemma journal_keeps c g : preserves (core_is c) (update_journal g : OW K1 K2 E unit).
Proof. by apply preserves_modify. Qed.
Lemma journal_calm c l g : preserves (calm c l) (update_journal g : OW K1 K2 E unit).
Proof. by apply preserves_modify. Qed.
Lemma discard_keeps c : preserves (core_is c) (discard_pending_interface_notifications_locked : OW K1 K2 E unit).
Proof. by apply preserves_modify. Qed.
Lemma reset_keeps c :
  preserves (core_is c)
    (ow_update (λ f, set_exact_journal None (set_active_journal None f)) : OW K1 K2 E unit).
Proof. by apply preserves_modify. Qed.
#[local] Hint Resolve journal_keeps journal_calm discard_keeps reset_keeps : preserves.

Lemma get_routes_calm c l : preserves (calm c l) (get_routes : OW K1 K2 E _).
Proof. by apply run_calm. Qed.
Lemma get_rules_calm c l : preserves (calm c l) (get_rules : OW K1 K2 E _).
Proof. by apply run_calm. Qed.
Lemma field_calm c l {A} (f : OwnerFields → A) : preserves (calm c l) (ow_field f : OW K1 K2 E A).
Proof. apply preserves_gets. Qed.

Lemma notify_calm c l name :
  preserves (calm c l) (ow_run (on_routes (RouteTable.notify_interface_up name)) : OW K1 K2 E unit).
Proof.
  apply run_calm. intros [[t k1] [p k2]]. unfold on_routes, RouteTable.notify_interface_up. simpl.
  by destruct (empty_str name).
Qed.

Lemma live_tables_calm c l :
  preserves (calm c l) (ow_run (on_routes live_generated_route_tables) : OW K1 K2 E (gset Z)).
Proof.
  apply run_calm. intros [[t k1] [p k2]]. unfold on_routes, live_generated_route_tables. simpl.
  unfold mbind, se_bind, field, gets, dump_routes, lift. simpl. destruct (dry_run_ t); [done|].
  by destruct (nl_dump_routes 0 _) as [k' [d|e]].
Qed.
#[local] Hint Resolve get_routes_calm get_rules_calm field_calm notify_calm live_tables_calm : preserves.

Lemma consume_calm c l :
  preserves (calm c l) (consume_pending_interface_notifications_locked : OW K1 K2 E unit).
Proof.
  unfold consume_pending_interface_notifications_locked. apply preserves_bind; [apply field_calm|].
  intros pending. apply preserves_bind; [by apply preserves_modify|]. intros _. preserve.
Qed.

Lemma owner_notify_calm c l locked name :
  preserves (calm c l) (owner_notify_interface_up locked name : OW K1 K2 E unit).
Proof.
  unfold owner_notify_interface_up. pose proof (consume_calm c l). destruct (empty_str name); [preserve|].
  destruct locked; preserve.
Qed.

Lemma allocate_calm c l : preserves (calm c l) (allocate_inventory_snapshot cx : OW K1 K2 E unit).
Proof. unfold allocate_inventory_snapshot. preserve. Qed.

Lemma clear_ledgers_keeps c : preserves (core_is c) (clear_ledgers_locked : OW K1 K2 E bool).
Proof. unfold clear_ledgers_locked, get_routes. preserve. Qed.

Lemma retire_keeps c note live prior routes rules :
  (∀ phase, preserves (core_is c) (note phase)) →
  preserves (core_is c) (retire_and_adopt note live prior routes rules : OW K1 K2 E bool).
Proof. intros Hn. unfold retire_and_adopt, get_routes. preserve. Qed.

Lemma add_generation_keeps c note routes rules mode :
  (∀ phase, preserves (core_is c) (note phase)) →
  preserves (core_is c) (add_generation note routes rules mode : OW K1 K2 E bool).
Proof. intros Hn. unfold add_generation. preserve. Qed.

(** ** Publication *)

(** What an operation guarantees of the world it leaves, the marks having been [m]
    when it started. *)
Definition advanced (m : ConsumedMarks) (w : OwnerWorld K1 K2 E) : Prop :=
  owner_inv w ∧ marks_le m (consumed w).

Lemma calm_advanced c l m w w' :
  owner_inv w → marks_le m (consumed w) → calm c l w → calm c l w' → advanced m w'.
Proof.
  unfold calm, core. intros [Hr Hm Hi] Hle [<- <-] [[= Hr' Hm' Hp'] [= Hlr Hlu]].
  split; [split|by rewrite Hm']; [by rewrite Hr', Hp'|by rewrite Hm', Hp'|by rewrite Hp', Hlr, Hlu].
Qed.

Lemma wp_get_routes Q X (w : OwnerWorld K1 K2 E) : Q (ledger_routes w) w → wp get_routes Q X w.
Proof. by destruct w as [f [[t k1] [p k2]] e]. Qed.
Lemma wp_get_rules Q X (w : OwnerWorld K1 K2 E) : Q (ledger_rules w) w → wp get_rules Q X w.
Proof. by destruct w as [f [[t k1] [p k2]] e]. Qed.

Lemma prepare_spec routes rules identity complete known c l w :
  calm c l w →
  wp (prepare_inventory_publication_locked cx routes rules identity complete known)
    (λ s w', calm c l w' ∧ sn_consumed s = consumed w' ∧ sn_inventory_complete s = complete
             ∧ sn_kernel_state_known s = known ∧ sn_routes s = routes ∧ sn_rules s = rules
             ∧ sn_last_identity s = identity)
    (λ _, calm c l) w.
Proof.
  intros Hw. unfold prepare_inventory_publication_locked. apply wp_bind.
  eapply wp_mono; [exact (calm_core c l _ (allocate_calm c l) w Hw)| |done].
  by intros x w1 Hw1.
Qed.

Lemma commit_spec prepared phase outcome advance (w : OwnerWorld K1 K2 E) :
  wp (commit_prepared_inventory_locked prepared phase outcome advance)
    (λ s w', published w' = s ∧ sn_revision s = revision w' ∧ consumed w' = consumed w
             ∧ revision w' = (if advance then u64 (revision w + 1) else revision w)
             ∧ sn_consumed s = sn_consumed prepared
             ∧ sn_inventory_complete s = sn_inventory_complete prepared
             ∧ sn_kernel_state_known s = sn_kernel_state_known prepared
             ∧ sn_routes s = sn_routes prepared ∧ sn_rules s = sn_rules prepared
             ∧ sn_last_identity s = sn_last_identity prepared
             ∧ ow_routing w' = ow_routing w)
    (λ _ _, False) w.
Proof. done. Qed.

(** The prepared snapshot describes the ledgers, or does not claim to. *)
Definition honest (s : InventorySnapshot) (w : OwnerWorld K1 K2 E) : Prop :=
  sn_consumed s = consumed w
  ∧ (sn_inventory_complete s = true → sn_routes s = ledger_routes w ∧ sn_rules s = ledger_rules w).

Lemma commit_advances prepared phase outcome advance m (w : OwnerWorld K1 K2 E) :
  honest prepared w → marks_le m (consumed w) →
  wp (commit_prepared_inventory_locked prepared phase outcome advance)
    (λ s w', advanced m w' ∧ published w' = s) (λ _ _, False) w.
Proof.
  intros [Hc Hh] Hm. eapply wp_mono; [apply commit_spec| |done].
  intros s w' (<- & Hr & Hc' & _ & Hs & Hcomplete & _ & Hlr & Hlu & _ & Hw').
  split; [|done]. split; [|by rewrite Hc']. split; [done|congruence|].
  unfold ledger_routes, ledger_rules. rewrite Hw', Hlr, Hlu, Hcomplete. exact Hh.
Qed.

(** The conservative fallback of an operation: never complete. *)
Definition is_fallback (fallback : InventorySnapshot) (m : ConsumedMarks) : Prop :=
  sn_consumed fallback = m ∧ sn_inventory_complete fallback = false.

Lemma publish_advances fallback identity phase outcome known advance m (w : OwnerWorld K1 K2 E) :
  is_fallback fallback (consumed w) → marks_le m (consumed w) →
  wp (publish_actual_inventory_or_fallback_locked cx fallback identity phase outcome known advance)
    (λ s w', advanced m w' ∧ published w' = s) (λ _ _, False) w.
Proof.
  intros [Hf Hi] Hm. unfold publish_actual_inventory_or_fallback_locked. apply wp_catch.
  set (c := core w). set (l := (ledger_routes w, ledger_rules w)).
  assert (calm c l w) as Hw by done.
  assert (∀ w', calm c l w' → consumed w' = consumed w) as Hcs by (intros w' [[= _ Hc _] _]; done).
  apply wp_bind, wp_get_routes, wp_bind, wp_get_rules, wp_bind.
  eapply wp_mono; [exact (prepare_spec _ _ _ _ _ c l w Hw)| |].
  - intros s w1 (Hw1 & Hs & _ & _ & Hr & Hu & _).
    eapply wp_mono; [apply (commit_advances _ _ _ _ m)| |].
    + split; [done|]. rewrite Hr, Hu. by destruct Hw1 as [_ [= -> ->]].
    + by rewrite (Hcs w1).
    + done.
    + done.
  - intros e w1 Hw1. apply commit_advances; [|by rewrite (Hcs w1)].
    split; simpl; [by rewrite Hf, (Hcs w1)|congruence].
Qed.

Lemma publish_failure_advances {A} fallback e m w :
  is_fallback fallback (consumed w) → marks_le m (consumed w) →
  wp (publish_failure cx fallback e : OW K1 K2 E A) (λ _ _, False) (λ _, advanced m) w.
Proof.
  intros Hf Hm. unfold publish_failure. apply wp_bind.
  eapply wp_mono; [by apply (publish_advances _ _ _ _ _ _ m)| |done]. by intros s w' [Hw' _].
Qed.

(** ** The operations *)

(** From the start of the operation to its first kernel write: notifications and a
    prepared fallback. *)
Lemma wp_opening {B} identity (k : InventorySnapshot → OW K1 K2 E B) Q X c l w :
  calm c l w →
  (∀ w', calm c l w' → X BadAlloc w') →
  (∀ fallback w', calm c l w' → is_fallback fallback c.1.2 → wp (k fallback) Q X w') →
  wp (routes ← get_routes; rules ← get_rules;
      fallback ← prepare_inventory_publication_locked cx routes rules identity false true;
      k fallback) Q X w.
Proof.
  intros Hw HX Hk. apply wp_bind, wp_get_routes, wp_bind, wp_get_rules, wp_bind.
  unfold prepare_inventory_publication_locked, allocate_inventory_snapshot.
  apply wp_bind, wp_bind. unfold wp at 1, ow_call. destruct (oc_inventory_factory cx (ow_env w)) as [e []].
  - apply Hk; [done|]. split; [|done]. simpl. by destruct Hw as [<- _].
  - by apply HX.
Qed.

(** A computation under the mutation boundary, its publication and its handler. *)
Lemma wp_guarded {A} (body : OW K1 K2 E A) (fallback : InventorySnapshot) m c w :
  core_is c w → is_fallback fallback c.1.2 → marks_le m c.1.2 →
  wp body (λ _, advanced m) (λ _, core_is c) w →
  wp (catch body (publish_failure cx fallback)) (λ _, advanced m) (λ _, advanced m) w.
Proof.
  intros Hw Hf Hm Hb. apply wp_catch. eapply wp_mono; [exact Hb|done|].
  intros e w' Hw'. assert (consumed w' = c.1.2) as Hc by by rewrite <- Hw'.
  eapply wp_mono; [by apply (publish_failure_advances _ _ m); rewrite Hc|done|done].
Qed.

Lemma wp_core {A B} (m : OW K1 K2 E A) (k : A → OW K1 K2 E B) Q c w :
  preserves (core_is c) m → core_is c w → (∀ a w', core_is c w' → wp (k a) Q (λ _, core_is c) w') →
  wp (mbind k m) Q (λ _, core_is c) w.
Proof.
  intros Hm Hw Hk. apply wp_bind. eapply wp_mono; [by apply preserves_wp| |done]. exact Hk.
Qed.

Lemma wp_calm {A B} (m : OW K1 K2 E A) (k : A → OW K1 K2 E B) Q X c l w :
  preserves (calm c l) m → calm c l w → (∀ e w', calm c l w' → X e w') →
  (∀ a w', calm c l w' → wp (k a) Q X w') → wp (mbind k m) Q X w.
Proof.
  intros Hm Hw HX Hk. apply wp_bind. eapply wp_mono; [by apply (preserves_wp (calm c l))| |]; eauto.
Qed.

Lemma publish_core fallback identity phase outcome known advance m c (w : OwnerWorld K1 K2 E) :
  core_is c w → is_fallback fallback c.1.2 → marks_le m c.1.2 →
  wp (publish_actual_inventory_or_fallback_locked cx fallback identity phase outcome known advance)
    (λ _, advanced m) (λ _, core_is c) w.
Proof.
  intros Hw Hf Hm. assert (consumed w = c.1.2) as Hc by by rewrite <- Hw.
  eapply wp_mono; [by apply (publish_advances _ _ _ _ _ _ m); rewrite Hc| |done]. by intros s w' [].
Qed.

(** Calm worlds are advanced ones. *)
Definition at_start (w : OwnerWorld K1 K2 E) c l : Prop :=
  calm c l w ∧ ∀ w', calm c l w' → advanced (consumed w) w'.

Lemma start w : owner_inv w → ∃ c l, at_start w c l ∧ c.1.2 = consumed w.
Proof.
  intros Hw. exists (core w), (ledger_routes w, ledger_rules w). split; [|done]. split; [done|].
  intros w'. by apply (calm_advanced _ _ _ w).
Qed.

Definition guarantees {A} (op : OW K1 K2 E A) : Prop :=
  ∀ w, owner_inv w → wp op (λ _, advanced (consumed w)) (λ _, advanced (consumed w)) w.

Lemma populate_guarantees routes rules : guarantees (populate_initial_generation cx routes rules).
Proof.
  intros w Hinv. destruct (start w Hinv) as (c & l & [Hw Hadv] & Hm).
  unfold populate_initial_generation. eapply wp_calm; [apply consume_calm|done|auto|].
  intros _ w1 Hw1. eapply wp_opening; [done|auto|]. intros fallback w2 Hw2 Hf.
  eapply wp_calm; [apply live_tables_calm|done|auto|]. intros prior w3 Hw3.
  assert (marks_le (consumed w) c.1.2) as Hle by by rewrite Hm.
  eapply wp_guarded; [by destruct Hw3|done|done|].
  eapply wp_core; [|by destruct Hw3|].
  { pose proof (clear_ledgers_keeps c). pose proof (@run_keeps). preserve. }
  intros live w4 Hw4. eapply wp_core; [apply retire_keeps; intros; apply preserves_ret|done|].
  intros known w5 Hw5. by apply publish_core.
Qed.

Lemma compatibility_guarantees routes rules mode fence :
  guarantees (reconcile_compatibility_generation cx routes rules mode fence).
Proof.
  intros w Hinv. destruct (start w Hinv) as (c & l & [Hw Hadv] & Hm).
  unfold reconcile_compatibility_generation. eapply wp_calm; [apply consume_calm|done|auto|].
  intros _ w1 Hw1. eapply wp_opening; [done|auto|]. intros fallback w2 Hw2 Hf.
  eapply wp_calm; [|done|auto|].
  { destruct fence; [apply call_calm|apply preserves_ret]. }
  intros f w3 Hw3. destruct f as [[]|]; [|by apply Hadv|by apply Hadv].
  eapply wp_calm; [apply live_tables_calm|done|auto|]. intros prior w4 Hw4.
  assert (marks_le (consumed w) c.1.2) as Hle by by rewrite Hm.
  eapply wp_guarded; [by destruct Hw4|done|done|].
  eapply wp_core; [apply add_generation_keeps; intros; apply preserves_ret|by destruct Hw4|].
  intros live w5 Hw5. eapply wp_core; [apply retire_keeps; intros; apply preserves_ret|done|].
  intros known w6 Hw6. apply wp_bind. eapply wp_mono; [by apply publish_core| |done]. done.
Qed.

Lemma clear_guarantees : guarantees (owner_clear cx).
Proof.
  intros w Hinv. destruct (start w Hinv) as (c & l & [Hw Hadv] & Hm). unfold owner_clear.
  eapply wp_opening; [done|auto|]. intros fallback w2 Hw2 Hf.
  assert (marks_le (consumed w) c.1.2) as Hle by by rewrite Hm.
  eapply wp_guarded; [by destruct Hw2|done|done|].
  eapply wp_core; [apply clear_ledgers_keeps|by destruct Hw2|]. intros known w3 Hw3.
  eapply wp_core; [apply discard_keeps|done|]. intros _ w4 Hw4.
  eapply wp_core; [apply reset_keeps|done|]. intros _ w5 Hw5. by apply publish_core.
Qed.

Lemma notify_guarantees locked name : guarantees (owner_notify_interface_up locked name).
Proof.
  intros w Hinv. destruct (start w Hinv) as (c & l & [Hw Hadv] & Hm).
  eapply wp_mono; [exact (calm_core c l _ (owner_notify_calm c l locked name) w Hw)| |]; auto.
Qed.

(** ** Numbered operations *)

(** Consuming an accepted identity moves the marks, and only them. *)
Lemma consume_spec i w :
  owner_inv w → identity_rejection (consumed w) i = None →
  wp (consume_identity i)
    (λ _ w', advanced (consumed w) w' ∧ consumed w' = consumed_marks i (consumed w)
             ∧ revision w' = revision w ∧ published w' = with_marks (consumed w') (published w)
             ∧ ow_routing w' = ow_routing w)
    (λ _ _, False) w.
Proof.
  intros [Hr Hm Hi] Hrej. unfold wp. simpl. split; [|done].
  split; [split; simpl; try done|by apply consumed_marks_le].
Qed.

(** Both numbered operations behind the notifications: a rejection changes
    nothing, a failing allocation neither. *)
Lemma rejected_calm request outcome c l w :
  calm c l w →
  wp (rejected_result request outcome)
    (λ r w', calm c l w' ∧ or_outcome r = outcome ∧ or_inventory r = Some (published w'))
    (λ _ _, False) (w : OwnerWorld K1 K2 E).
Proof. done. Qed.

Definition boundary_entered (w : OwnerWorld K1 K2 E) : bool :=
  match of_active_journal (ow_fields w) with
  | Some j => mj_mutation_boundary_entered j
  | None => false
  end.

(** Behind the boundary mark. *)
Definition marked c (w : OwnerWorld K1 K2 E) : Prop := core_is c w ∧ boundary_entered w = true.

Lemma run_marked c {A} (m : RS K1 K2 A) : preserves (marked c) (ow_run m).
Proof. intros w Hw. unfold ow_run. by destruct (m (ow_routing w)) as [rw r]. Qed.

Lemma phase_marked c phase : preserves (marked c) (note_phase phase : OW K1 K2 E unit).
Proof.
  apply preserves_modify. intros w [Hc Hb]. split; [done|]. revert Hb. unfold boundary_entered. simpl.
  by destruct (of_active_journal (ow_fields w)).
Qed.

Lemma outcome_marked c outcome : preserves (marked c) (note_outcome outcome : OW K1 K2 E unit).
Proof.
  apply preserves_modify. intros w [Hc Hb]. split; [done|]. revert Hb. unfold boundary_entered. simpl.
  by destruct (of_active_journal (ow_fields w)).
Qed.
#[local] Hint Resolve run_marked phase_marked outcome_marked : preserves.

Lemma retire_marked c live prior routes rules :
  preserves (marked c) (retire_and_adopt note_phase live prior routes rules : OW K1 K2 E bool).
Proof. unfold retire_and_adopt, get_routes. preserve. Qed.

Lemma add_generation_marked c routes rules mode :
  preserves (marked c) (add_generation note_phase routes rules mode : OW K1 K2 E bool).
Proof. unfold add_generation. preserve. Qed.

(** How the [try] block of [reconcile] is left through an exception: before the
    boundary with the ledgers as they were, or behind it. *)
Definition interrupted c l (w : OwnerWorld K1 K2 E) : Prop :=
  core_is c w ∧ (boundary_entered w = false → calm c l w).

Lemma wp_marked {A B} (m : OW K1 K2 E A) (k : A → OW K1 K2 E B) Q c l w :
  preserves (marked c) m → marked c w →
  (∀ a w', marked c w' → wp (k a) Q (λ _, interrupted c l) w') →
  wp (mbind k m) Q (λ _, interrupted c l) w.
Proof.
  intros Hm Hw Hk. apply wp_bind. eapply wp_mono; [by apply (preserves_wp (marked c))|exact Hk|].
  intros e w' [Hc Hb]. split; [done|congruence].
Qed.

Lemma run_compatibility_guarantees request fallback m c l w :
  calm c l w → is_fallback fallback c.1.2 → marks_le m c.1.2 →
  is_Some (of_active_journal (ow_fields w)) →
  wp (run_compatibility cx request fallback) (λ _, advanced m) (λ _, interrupted c l) w.
Proof.
  intros Hw Hf Hm [j Hj]. unfold run_compatibility. apply wp_bind, wp_modify, wp_bind.
  set (w1 := Build_OwnerWorld _ _ _ _ _ _).
  assert (calm c l w1 ∧ is_Some (of_active_journal (ow_fields w1))) as [Hw1 Hj1].
  { split; [done|]. simpl. by rewrite Hj. }
  clearbody w1. unfold wp at 1, ow_run.
  pose proof (live_tables_calm c l w1 Hw1) as Hw2. unfold ow_run in Hw2.
  destruct (on_routes live_generated_route_tables (ow_routing w1)) as [rw [prior|e]]; simpl in *.
  2:{ split; [by destruct Hw2|done]. }
  apply wp_bind, wp_modify, wp_bind, wp_modify.
  set (w2 := Build_OwnerWorld _ _ _ _ _ _).
  assert (marked c w2) as Hw3.
  { split; [by destruct Hw2|]. unfold boundary_entered. simpl. by destruct Hj1 as [j1 ->]. }
  clearbody w2. eapply wp_marked; [apply add_generation_marked|done|]. intros live w3 Hw4.
  eapply wp_marked; [apply retire_marked|done|]. intros known w4 Hw5.
  eapply wp_marked; [apply phase_marked|done|]. intros _ w5 Hw6.
  eapply wp_marked; [apply outcome_marked|done|]. intros _ w6 [Hc6 _]. apply wp_bind.
  eapply wp_mono; [apply (publish_advances _ _ _ _ _ _ m)| |done].
  - by rewrite <- Hc6 in Hf.
  - by rewrite <- Hc6 in Hm.
  - by intros s w7 [Hw7 _].
Qed.

Lemma fail_compatibility_guarantees request fallback e m c l w :
  interrupted c l w → is_fallback fallback c.1.2 → marks_le m c.1.2 →
  (∀ w', calm c l w' → advanced m w') →
  wp (fail_compatibility cx request fallback e) (λ _, advanced m) (λ _ _, False) w.
Proof.
  intros Hw Hf Hm Hadv. unfold fail_compatibility. apply wp_bind, wp_modify, wp_bind, wp_modify.
  set (w1 := Build_OwnerWorld _ _ _ _ _ _).
  assert (interrupted c l w1) as [Hc1 Hl1].
  { destruct Hw as [Hc Hl]. split; [done|]. revert Hl. unfold boundary_entered. simpl.
    by destruct (of_active_journal (ow_fields w)). }
  clearbody w1. apply wp_bind, wp_gets. fold (boundary_entered w1).
  destruct (boundary_entered w1).
  - apply wp_bind. eapply wp_mono; [apply (publish_advances _ _ _ _ _ _ m)| |done].
    + by rewrite <- Hc1 in Hf.
    + by rewrite <- Hc1 in Hm.
    + by intros s w7 [Hw7 _].
  - apply Hadv. by apply Hl1.
Qed.

Lemma reconcile_guarantees request : guarantees (owner_reconcile cx request).
Proof.
  intros w Hinv. destruct (start w Hinv) as (c & l & [Hw Hadv] & Hm).
  unfold owner_reconcile. eapply wp_calm; [apply consume_calm|done|auto|].
  intros _ w1 Hw1. apply wp_bind, wp_gets. destruct (identity_rejection _ _) eqn:Hrej; [by apply Hadv|].
  eapply wp_calm; [apply allocate_calm|done|auto|]. intros _ w2 Hw2.
  assert (consumed w1 = consumed w2) as Hcs.
  { destruct Hw1 as [H1' _], Hw2 as [H2' _]. unfold core in *. congruence. }
  apply wp_bind, wp_gets. destruct (negb _).
  - apply wp_bind. destruct (Hadv w2 Hw2) as [Hi2 Hle2].
    eapply wp_mono; [apply consume_spec; [done|by rewrite <- Hcs]| |done].
    intros _ w3 ([Hw3 Hle3] & _). split; [done|]. by etrans.
  - eapply wp_opening; [done|auto|]. intros fallback w3 Hw3 Hf. apply wp_bind.
    destruct (Hadv w3 Hw3) as [Hi3 Hle3].
    assert (consumed w1 = consumed w3) as Hcs3.
    { destruct Hw1 as [H1' _], Hw3 as [H2' _]. unfold core in *. congruence. }
    eapply wp_mono; [apply consume_spec; [done|by rewrite <- Hcs3]| |done].
    intros _ w4 ([Hi4 Hle4] & _). assert (marks_le (consumed w) (consumed w4)) as Hle by by etrans.
    apply wp_bind, wp_gets, wp_bind, wp_modify. set (w5 := Build_OwnerWorld _ _ _ _ _ _).
    set (c5 := core w5). set (l5 := (ledger_routes w5, ledger_rules w5)).
    assert (∀ w', calm c5 l5 w' → advanced (consumed w) w') as Hadv5.
    { assert (owner_inv w5) by (by destruct Hi4; split). intros w'. by apply (calm_advanced _ _ _ w5). }
    assert (is_fallback (with_marks (of_consumed (ow_fields w4)) fallback) c5.1.2) as Hf5.
    { by destruct Hf. }
    apply wp_catch. eapply wp_mono; [by apply (run_compatibility_guarantees _ _ (consumed w) c5 l5)|done|].
    intros e w6 Hw6.
    eapply wp_mono; [by apply (fail_compatibility_guarantees _ _ _ (consumed w) c5 l5)|done|done].
Qed.
End History.
