(* ===== verification/OperationOwnerExact.v ===== *)
(** * The contract of an exact operation

    [reconcile_exact] composed with the transaction it runs: for each outcome it
    can report, what became of the kernel, of the ledgers and of the published
    inventory. An inventory that is published as authoritative stays the exact
    image of the kernel through any number of exact operations. *)

From Stdlib Require Import ZArith Lia Ascii String.
From stdpp Require Import base gmap strings list relations.
From S2P Require Import Prelude ConfigTypes RoutingPlan ListParser KernelRoutes StateError RouteTable RouteTableSafety.
From S2P Require Import RouteTableConverge PolicyRules PolicyRulesSafety RoutingState TransactionPlan Transaction TransactionKernel TransactionPlanFacts.
From S2P Require Import TransactionRollback TransactionAbort TransactionOwned TransactionCommit TransactionJournal OperationOwner OperationOwnerHistory.
Open Scope Z_scope.

(** ** Conservative ledgers *)

Lemma route_specs_equal_eq a b : route_specs_equal a b = true ↔ a = b.
Proof. apply routes_equal_eq. Qed.

Lemma exact_rules_equal_eq a b : exact_rules_equal a b = true ↔ a = b.
Proof. exact (rules_equal_eq a b). Qed.

Lemma append_unique_elem {A} (eqb : A → A → bool) (Heq : ∀ a b, eqb a b = true ↔ a = b)
    (l : list A) (x y : A) :
  y ∈ (if existsb (λ c, eqb c x) l then l else l ++ [x]) ↔ y ∈ l ∨ y = x.
Proof.
  destruct (existsb _ _) eqn:Hex; [|rewrite elem_of_app, list_elem_of_singleton; done].
  apply existsb_exists in Hex as (c & Hc & ->%Heq). apply list_elem_of_In in Hc. naive_solver.
Qed.

Lemma fold_append_elem {A} (f : list A → A → list A) (Hf : ∀ l x y, y ∈ f l x ↔ y ∈ l ∨ y = x)
    (xs l : list A) (y : A) :
  y ∈ fold_left f xs l ↔ y ∈ l ∨ y ∈ xs.
Proof.
  revert l. induction xs as [|x xs IH]; intros l; simpl; [set_solver|].
  rewrite IH, Hf. set_solver.
Qed.

Lemma append_routes_elem xs l r : r ∈ fold_left append_unique_route xs l ↔ r ∈ l ∨ r ∈ xs.
Proof. apply fold_append_elem. intros. by apply append_unique_elem, route_specs_equal_eq. Qed.

Lemma append_rules_elem xs l r : r ∈ fold_left append_unique_rule xs l ↔ r ∈ l ∨ r ∈ xs.
Proof. apply fold_append_elem. intros. by apply append_unique_elem, exact_rules_equal_eq. Qed.

(** ** Operations that only touch the environment *)

Definition route_kernel {K1 K2 E} (w : OwnerWorld K1 K2 E) : K1 := (ow_routing w).1.2.
Definition rule_kernel {K1 K2 E} (w : OwnerWorld K1 K2 E) : K2 := (ow_routing w).2.2.
Definition owned_rules {K1 K2 E} (w : OwnerWorld K1 K2 E) : list RuleSpec :=
  pm_owned_rules (ow_routing w).2.1.
Definition owned_routes {K1 K2 E} (w : OwnerWorld K1 K2 E) : list RouteSpec :=
  owned_routes_ (ow_routing w).1.1.

Section Contract.
Context {K1 K2 E : Type} `{RouteNetlink K1} `{RuleNetlink K2} `{Inet}.
Context (cx : OwnerContext E).
Implicit Types w : OwnerWorld K1 K2 E.

(** Everything an operation reports about, kernels included. *)
Definition frozen w :=
  (core w, ledger_routes w, owned_routes w, route_kernel w, (ow_routing w).2).
Definition still x w : Prop := frozen w = x.

Lemma notify_still x name :
  preserves (still x) (ow_run (on_routes (RouteTable.notify_interface_up name)) : OW K1 K2 E unit).
Proof.
  intros [f [[t k1] [p k2]] e] Hw. unfold ow_run, on_routes, RouteTable.notify_interface_up. simpl.
  by destruct (empty_str name).
Qed.

Lemma consume_still x :
  preserves (still x) (consume_pending_interface_notifications_locked : OW K1 K2 E unit).
Proof.
  unfold consume_pending_interface_notifications_locked. apply preserves_bind; [apply preserves_gets|].
  intros pending. apply preserves_bind; [by apply preserves_modify|]. intros u.
  apply preserves_mfor. intros name _. apply notify_still.
Qed.

Lemma allocate_still x : preserves (still x) (allocate_inventory_snapshot cx : OW K1 K2 E unit).
Proof.
  unfold allocate_inventory_snapshot. apply preserves_bind.
  - intros w Hw. unfold ow_call. by destruct (oc_inventory_factory cx (ow_env w)).
  - intros []; [apply preserves_ret|apply preserves_throw].
Qed.

Lemma prepare_still routes rules identity complete known x w :
  still x w →
  wp (prepare_inventory_publication_locked cx routes rules identity complete known)
    (λ s w', still x w' ∧ sn_inventory_complete s = complete ∧ sn_kernel_state_known s = known
             ∧ sn_routes s = routes ∧ sn_rules s = rules ∧ sn_last_identity s = identity)
    (λ _, still x) w.
Proof.
  intros Hw. unfold prepare_inventory_publication_locked. apply wp_bind.
  eapply wp_mono; [by apply (preserves_wp (still x)); [apply allocate_still|]| |done].
  by intros u w1 Hw1.
Qed.

Lemma wp_still {A B} (m : OW K1 K2 E A) (k : A → OW K1 K2 E B) Q X x w :
  preserves (still x) m → still x w → (∀ e w', still x w' → X e w') →
  (∀ a w', still x w' → wp (k a) Q X w') → wp (mbind k m) Q X w.
Proof.
  intros Hm Hw HX Hk. apply wp_bind. eapply wp_mono; [by apply (preserves_wp (still x))| |]; eauto.
Qed.

(** ** Settling a transaction *)

(** The inventory of a commit, a rollback and an unknown end, as they are prepared. *)
Record prepared_for (request : OperationRequest) (current committed rolled_back unknown
    : InventorySnapshot) (m : ConsumedMarks) : Prop := {
  pf_marks : sn_consumed committed = m ∧ sn_consumed rolled_back = m ∧ sn_consumed unknown = m;
  pf_committed : sn_inventory_complete committed = true ∧ sn_kernel_state_known committed = true
    ∧ sn_routes committed = rq_desired_routes request
    ∧ sn_rules committed = rq_desired_rules request;
  pf_rolled_back : sn_inventory_complete rolled_back = sn_inventory_complete current
    ∧ sn_kernel_state_known rolled_back = sn_kernel_state_known current
    ∧ sn_routes rolled_back = sn_routes current ∧ sn_rules rolled_back = sn_rules current;
  pf_unknown : sn_inventory_complete unknown = false ∧ sn_routes unknown = sn_routes current
    ∧ sn_rules unknown = sn_rules current;
}.

(** Same lists as [s]. *)
Definition same_content (s s' : InventorySnapshot) : Prop :=
  sn_routes s' = sn_routes s ∧ sn_rules s' = sn_rules s.

Definition same_ledgers w w' : Prop :=
  ledger_routes w' = ledger_routes w ∧ owned_routes w' = owned_routes w
  ∧ (ow_routing w').2.1 = (ow_routing w).2.1.

(** The ledgers and the inventory after each outcome of an exact operation; [w] is
    the world at its start. *)
Definition inventory_contract (request : OperationRequest) w (o : OperationOutcome) w' : Prop :=
  let s := published w in
  let s' := published w' in
  match o with
  | OExactCandidateCommitted =>
      is_authoritative s' = true ∧ sn_routes s' = rq_desired_routes request
      ∧ sn_rules s' = rq_desired_rules request ∧ revision w' = u64 (revision w + 1)
  | OExactCandidateRolledBack =>
      same_ledgers w w' ∧ same_content s s' ∧ is_authoritative s' = is_authoritative s
      ∧ revision w' = u64 (revision w + 1)
  | OExactCommittedCleanupPending | OExactPartialUnknown =>
      is_authoritative s' = false
      ∧ (∀ r, r ∈ sn_routes s ∨ r ∈ rq_desired_routes request → r ∈ ledger_routes w')
      ∧ (∀ r, r ∈ sn_rules s ∨ r ∈ rq_desired_rules request → r ∈ ledger_rules w')
      ∧ (∀ r, r ∈ owned_routes w → r ∈ owned_routes w')
      ∧ (∀ r, r ∈ owned_rules w → r ∈ owned_rules w')
  | OExactStaleBeforeMutation | OExactPreconditionFailed =>
      same_ledgers w w' ∧ same_content s s' ∧ revision w' = revision w
      ∧ (is_authoritative s' = true → is_authoritative s = true)
  | ORejectedInvalidIdentity | ORejectedReplay | ORejectedStaleInventory =>
      same_ledgers w w' ∧ same_content s s' ∧ revision w' = revision w
      ∧ is_authoritative s' = is_authoritative s
  | _ => False
  end.

Lemma authoritative_eq s :
  is_authoritative s = sn_inventory_complete s && sn_kernel_state_known s.
Proof.
  unfold is_authoritative, classify_runtime_routing_inventory.
  by destruct (sn_inventory_complete s), (sn_kernel_state_known s).
Qed.

(** A publication that changes neither ledgers nor kernel. *)
Lemma commit_keeps prepared phase outcome advance m w :
  honest prepared w → marks_le m (consumed w) →
  wp (commit_prepared_inventory_locked prepared phase outcome advance)
    (λ s w', advanced m w' ∧ published w' = s ∧ ow_routing w' = ow_routing w
             ∧ revision w' = (if advance then u64 (revision w + 1) else revision w)
             ∧ sn_inventory_complete s = sn_inventory_complete prepared
             ∧ sn_kernel_state_known s = sn_kernel_state_known prepared
             ∧ sn_routes s = sn_routes prepared ∧ sn_rules s = sn_rules prepared)
    (λ _ _, False) w.
Proof.
  intros Hh Hm.
  pose proof (wp_and _ _ _ _ _ _ (commit_advances prepared phase outcome advance m w Hh Hm)
                (commit_spec prepared phase outcome advance w)) as Hc.
  eapply wp_mono; [exact Hc| |by intros e w' [[] _]].
  by intros s w' ((Ha & Hp) & _ & _ & _ & Hr & _ & Hcomp & Hk & Hlr & Hlu & _ & Hw').
Qed.

(** The world behind [adopt_exact]: new ledgers, nothing else. *)
Lemma adopt_exact_spec routes oroutes rules orules w :
  wp (adopt_exact routes oroutes rules orules)
    (λ _ w', core w' = core w ∧ ledger_routes w' = routes ∧ owned_routes w' = oroutes
             ∧ ledger_rules w' = rules ∧ owned_rules w' = orules
             ∧ route_kernel w' = route_kernel w ∧ rule_kernel w' = rule_kernel w)
    (λ _ _, False) w.
Proof. by destruct w as [f [[t k1] [p k2]] e]. Qed.

Section Settle.
Context (request : OperationRequest) (current committed rolled_back unknown : InventorySnapshot).
Context (w : OwnerWorld K1 K2 E).
Context (Hinv : owner_inv w) (Hcurrent : published w = with_marks (consumed w) current).
Context (Hprep : prepared_for request current committed rolled_back unknown (consumed w)).

(** What is left to show of each branch. *)
Definition settled (o : OperationOutcome) (s : InventorySnapshot) (w' : OwnerWorld K1 K2 E) : Prop :=
  advanced (consumed w) w' ∧ published w' = s ∧ inventory_contract request w o w'
  ∧ route_kernel w' = route_kernel w ∧ rule_kernel w' = rule_kernel w.

Lemma honest_rolled_back : honest rolled_back w.
Proof.
  destruct Hprep as [(_ & Hm & _) _ (Hc & _ & Hr & Hu) _], Hinv as [_ _ Hmirror]. split; [done|].
  rewrite Hc, Hr, Hu. by rewrite Hcurrent in Hmirror.
Qed.

Lemma honest_unknown w' : consumed w' = consumed w → honest unknown w'.
Proof.
  destruct Hprep as [(_ & _ & Hm) _ _ (Hc & _)]. intros Heq. split; [congruence|]. by rewrite Hc.
Qed.

Lemma settle_committed oroutes orules phase :
  wp (_ ← adopt_exact (rq_desired_routes request) oroutes (rq_desired_rules request) orules;
      s ← commit_prepared_inventory_locked committed phase OExactCandidateCommitted true;
      mret (OExactCandidateCommitted, s))
    (λ '(o, s) w', o = OExactCandidateCommitted ∧ settled o s w') (λ _ _, False) w.
Proof.
  destruct Hprep as [(Hm & _ & _) (Hc & Hk & Hr & Hu) _ _]. apply wp_bind.
  eapply wp_mono; [apply adopt_exact_spec| |done].
  intros u w1 ([= Hrev Hcons Hpub] & Hlr & _ & Hlu & _ & Hk1 & Hk2). apply wp_bind.
  eapply wp_mono; [apply (commit_keeps _ _ _ _ (consumed w))| |done].
  - split; [congruence|]. by rewrite Hr, Hu, Hlr, Hlu.
  - by rewrite Hcons.
  - intros s w2 (Ha & Hp & Hrt & Hrv & Hc' & Hk' & Hr' & Hu'). split; [done|]. split; [done|].
    split; [done|]. unfold route_kernel, rule_kernel in *. rewrite Hrt. split; [|done].
    simpl. rewrite Hp, authoritative_eq, Hc', Hk', Hc, Hk, Hr', Hu', Hrv. unfold revision in *.
    by rewrite Hrev.
Qed.

Lemma settle_rolled_back phase :
  wp (s ← commit_prepared_inventory_locked rolled_back phase OExactCandidateRolledBack true;
      mret (OExactCandidateRolledBack, s))
    (λ '(o, s) w', o = OExactCandidateRolledBack ∧ settled o s w') (λ _ _, False) w.
Proof.
  apply wp_bind. eapply wp_mono; [apply (commit_keeps _ _ _ _ (consumed w)); [apply honest_rolled_back|done]| |done].
  intros s w2 (Ha & Hp & Hrt & Hrv & Hc & Hk & Hr & Hu). split; [done|]. split; [done|]. split; [done|].
  destruct Hprep as [_ _ (Hc' & Hk' & Hr' & Hu') _].
  unfold route_kernel, rule_kernel. rewrite Hrt. split; [|done]. simpl.
  unfold same_ledgers, ledger_routes, owned_routes, same_content. rewrite Hrt, Hp, Hrv, Hcurrent.
  rewrite !authoritative_eq. simpl. by rewrite Hc, Hk, Hr, Hu, Hc', Hk', Hr', Hu'.
Qed.

(** The published inventory is marked unknown, the ledgers having been changed or
    not. *)
Lemma commit_unknown phase outcome advance w1 :
  consumed w1 = consumed w → revision w1 = revision w →
  wp (commit_prepared_inventory_locked unknown phase outcome advance)
    (λ s w', advanced (consumed w) w' ∧ published w' = s ∧ ow_routing w' = ow_routing w1
             ∧ revision w' = (if advance then u64 (revision w + 1) else revision w)
             ∧ is_authoritative s = false ∧ same_content (published w) s) (λ _ _, False) w1.
Proof.
  intros Hc Hrv. destruct Hprep as [_ _ _ (Hn & Hr & Hu)].
  eapply wp_mono; [apply (commit_keeps _ _ _ _ (consumed w)); [by apply honest_unknown|by rewrite Hc]| |done].
  intros s w2 (Ha & Hp & Hrt & Hrv' & Hcomp & _ & Hr' & Hu').
  rewrite authoritative_eq, Hcomp, Hn. rewrite Hrv in Hrv'. split_and!; try done.
  unfold same_content. rewrite Hcurrent. simpl. by rewrite Hr', Hu', Hr, Hu.
Qed.

Lemma settle_unknown o created phase advance :
  o = OExactCommittedCleanupPending ∨ o = OExactPartialUnknown →
  wp (_ ← adopt_exact (fold_left append_unique_route (rq_desired_routes request) (sn_routes current))
            (fold_left append_unique_route (generated_only (rq_desired_routes request)) (owned_routes w))
            (fold_left append_unique_rule (rq_desired_rules request) (sn_rules current))
            (fold_left append_unique_rule created (owned_rules w));
      s ← commit_prepared_inventory_locked unknown phase o advance;
      mret (o, s))
    (λ '(o', s) w', o' = o ∧ settled o' s w') (λ _ _, False) w.
Proof.
  intros Ho. apply wp_bind. eapply wp_mono; [apply adopt_exact_spec| |done].
  intros u w1 ([= Hrev Hcons Hpub] & Hlr & Hor & Hlu & Hou & Hk1 & Hk2). apply wp_bind.
  eapply wp_mono; [by apply (commit_unknown phase o advance w1)| |done].
  intros s w2 (Ha & Hp & Hrt & _ & Hauth & _). split; [done|]. split; [done|]. split; [done|].
  unfold route_kernel, rule_kernel in *. rewrite Hrt. split; [|done].
  assert (is_authoritative s = false
    ∧ (∀ r, r ∈ sn_routes (published w) ∨ r ∈ rq_desired_routes request → r ∈ ledger_routes w2)
    ∧ (∀ r, r ∈ sn_rules (published w) ∨ r ∈ rq_desired_rules request → r ∈ ledger_rules w2)
    ∧ (∀ r, r ∈ owned_routes w → r ∈ owned_routes w2)
    ∧ (∀ r, r ∈ owned_rules w → r ∈ owned_rules w2)) as Hall.
  { unfold ledger_routes, owned_routes, ledger_rules, owned_rules in *. rewrite Hrt, Hlr, Hor, Hlu, Hou, Hcurrent.
    setoid_rewrite append_routes_elem. setoid_rewrite append_rules_elem. naive_solver. }
  rewrite <- Hp in Hall. by destruct Ho as [-> | ->].
Qed.

Lemma settle_refused (b : bool) o phase :
  o = OExactStaleBeforeMutation ∨ o = OExactPreconditionFailed →
  wp (if b then s ← commit_prepared_inventory_locked unknown phase o false; mret (o, s)
      else s ← ow_field of_published; mret (o, s))
    (λ '(o', s) w', o' = o ∧ settled o' s w') (λ _ _, False) w.
Proof.
  intros Ho. destruct b; apply wp_bind.
  - eapply wp_mono; [by apply (commit_unknown phase o false w)| |done].
    intros s w2 (Ha & Hp & Hrt & Hrv & Hauth & Hsame). split; [done|]. split; [done|]. split; [done|].
    unfold route_kernel, rule_kernel. rewrite Hrt. split; [|done].
    assert (same_ledgers w w2) by by unfold same_ledgers, ledger_routes, owned_routes; rewrite Hrt.
    unfold inventory_contract. rewrite Hp, Hauth. by destruct Ho as [-> | ->].
  - apply wp_gets. split; [done|]. split; [by split|]. by destruct Ho as [-> | ->].
Qed.

Lemma settle_spec known t record :
  entries_stable_after (tr_terminal t) = true →
  wp (settle_exact request current committed rolled_back unknown (owned_routes w) (owned_rules w)
        known t record)
    (λ '(o, s) w', o = exact_operation_outcome (tr_terminal t) ∧ settled o s w') (λ _ _, False) w.
Proof.
  unfold settle_exact. destruct (tr_terminal t); intros Ht; try discriminate Ht; cbn [exact_operation_outcome].
  - apply settle_refused. by left.
  - apply settle_rolled_back.
  - apply settle_committed.
  - apply settle_unknown. by left.
  - apply settle_unknown. by right.
  - apply settle_refused. by right.
Qed.
End Settle.

(** ** The operation *)

(** The kernels are those the operation found and it was rejected, or those a
    transaction left whose terminal is reported. *)
Definition exact_kernel (request : OperationRequest) w (o : OperationOutcome) w' : Prop :=
  ((route_kernel w', rule_kernel w') = (route_kernel w, rule_kernel w)
   ∧ (o = ORejectedInvalidIdentity ∨ o = ORejectedReplay ∨ o = ORejectedStaleInventory))
  ∨ ∃ (caller : TransactionCaller (E * option PublishedJournal)) env,
      let t := execute_runtime_routing_transaction caller
                 (exact_request_of request (published w) (owned_rules w))
                 (route_kernel w) (rule_kernel w) env in
      (route_kernel w', rule_kernel w') = (tw_routes t, tw_rules t)
      ∧ o = exact_operation_outcome (tr_terminal (tw_result t)).

(** What [reconcile_exact] promises; an allocation failure leaves everything as it
    was, the identity included. *)
Definition exact_post (request : OperationRequest) w (r : OperationResult) w' : Prop :=
  or_inventory r = Some (published w') ∧ advanced (consumed w) w'
  ∧ inventory_contract request w (or_outcome r) w' ∧ exact_kernel request w (or_outcome r) w'.

Lemma still_ledgers w w' : still (frozen w) w' → same_ledgers w w'.
Proof. intros [= _ _ _ Hlr Hor _ Hmgr]. unfold same_ledgers. by rewrite Hlr, Hor, Hmgr. Qed.

Lemma still_inv w w' : owner_inv w → still (frozen w) w' → advanced (consumed w) w'.
Proof.
  intros Hw [= Hrev Hcons Hpub Hlr Hor Hk Hmgr]. apply (calm_advanced (core w) (ledger_routes w, ledger_rules w) _ w);
    [done..|]. split; [by unfold core; rewrite Hrev, Hcons, Hpub|]. unfold ledger_rules. by rewrite Hlr, Hmgr.
Qed.

Lemma rejection_outcome m i o :
  identity_rejection m i = Some o → o = ORejectedInvalidIdentity ∨ o = ORejectedReplay.
Proof.
  unfold identity_rejection. destruct (negb _); [intros [= <-]; by left|].
  destruct (_ || _); [intros [= <-]; by right|done].
Qed.

Lemma rejected_post request o w w' :
  o = ORejectedInvalidIdentity ∨ o = ORejectedReplay → owner_inv w → still (frozen w) w' →
  wp (rejected_result request o) (exact_post request w) (λ _ _, False) w'.
Proof.
  intros Ho Hw Hs. pose proof (still_inv w w' Hw Hs) as Ha. pose proof (still_ledgers w w' Hs) as Hl.
  apply wp_bind, wp_gets, wp_ret. split; [done|]. split; [done|].
  unfold still, frozen, core, route_kernel in Hs. injection Hs as Hrev _ Hpub _ _ Hk Hmgr.
  assert (exact_kernel request w o w').
  { left. unfold route_kernel, rule_kernel. rewrite Hk, Hmgr. naive_solver. }
  assert (same_content (published w) (published w')) by by rewrite Hpub.
  split; [|done]. simpl. by destruct Ho as [-> | ->]; simpl; rewrite Hpub, Hrev.
Qed.

(** Consuming the identity and running the transaction is not visible to the
    inventory's contract. *)
Lemma inventory_contract_from request w w1 o w' :
  same_ledgers w w1 → same_content (published w) (published w1) →
  is_authoritative (published w1) = is_authoritative (published w) → revision w1 = revision w →
  inventory_contract request w1 o w' → inventory_contract request w o w'.
Proof.
  intros (Hlr & Hor & Hmgr) [Hr Hu] Ha Hrev. unfold inventory_contract, same_ledgers, same_content, owned_rules.
  rewrite Hlr, Hor, Hmgr, Hr, Hu, Ha, Hrev. done.
Qed.

Lemma wp_owned_rules Q X w :
  Q (owned_rules w) w → wp (ow_run (on_rules (pm_field pm_owned_rules))) Q X w.
Proof. by destruct w as [f [[t k1] [p k2]] e]. Qed.
Lemma wp_owned_routes Q X w :
  Q (owned_routes w) w → wp (ow_run (on_routes (field owned_routes_))) Q X w.
Proof. by destruct w as [f [[t k1] [p k2]] e]. Qed.

(** The transaction inside the owner. *)
Lemma run_exact_spec request fence w w1 :
  route_kernel w1 = route_kernel w → rule_kernel w1 = rule_kernel w →
  wp (run_exact cx (exact_request_of request (published w) (owned_rules w)) fence)
    (λ '(t, record) w2, core w2 = core w1 ∧ same_ledgers w1 w2
       ∧ entries_stable_after (tr_terminal t) = true
       ∧ ∀ w', route_kernel w' = route_kernel w2 → rule_kernel w' = rule_kernel w2 →
               exact_kernel request w (exact_operation_outcome (tr_terminal t)) w')
    (λ _ _, False) w1.
Proof.
  intros Hr1 Hu1. unfold wp, run_exact.
  pose proof (execute_terminal (exact_caller cx fence)
    (exact_request_of request (published w) (owned_rules w)) (route_kernel w) (rule_kernel w)
    (ow_env w1, None)) as Ht.
  unfold exact_kernel. revert Ht. rewrite <- Hr1, <- Hu1. destruct w1 as [f1 [[tb k1] [mg k2]] e1]. simpl.
  set (t := execute_runtime_routing_transaction _ _ _ _ _). intros Ht.
  split; [by destruct ((tw_env t).2)|]. split; [done|]. split; [done|].
  intros w' Hr Hu. right. exists (exact_caller cx fence), (e1, None). rewrite Hr, Hu. done.
Qed.

(** From the consumed identity on; [w1] is the world behind [consume_identity]. *)
Lemma transact_post request fence committed rolled_back unknown w w1 :
  owner_inv w1 → marks_le (consumed w) (consumed w1) → revision w1 = revision w →
  published w1 = with_marks (consumed w1) (published w) → same_ledgers w w1 →
  route_kernel w1 = route_kernel w → rule_kernel w1 = rule_kernel w →
  prepared_for request (published w) committed rolled_back unknown (consumed w1) →
  wp ('(t, record) ← run_exact cx (exact_request_of request (published w) (owned_rules w)) fence;
      known ← get_rules;
      '(o, s) ← settle_exact request (published w) committed rolled_back unknown
                  (owned_routes w) (owned_rules w) known t record;
      mret {| or_identity := rq_identity request; or_outcome := o; or_journal := None;
              or_exact_journal := record; or_inventory := Some s;
              or_exact_failure_stage := match record with Some j => pj_failure_stage j | None => SNone end;
              or_route_interface_unavailable := tr_route_interface_unavailable t |})
    (exact_post request w) (λ _ _, False) w1.
Proof.
  intros Hinv Hle Hrev Hpub Hsame Hk1 Hk2 Hprep. apply wp_bind.
  eapply wp_mono; [by apply run_exact_spec| |done].
  intros [t record] w2 ([= Hrev2 Hcons2 Hpub2] & Hsame2 & Hterm & Hkernel).
  apply wp_bind, wp_get_rules, wp_bind.
  assert (same_ledgers w w2) as Hled.
  { destruct Hsame2 as (H1' & H2' & H3'). unfold same_ledgers. by rewrite H1', H2', H3'. }
  assert (owner_inv w2) as Hinv2.
  { apply (calm_advanced (core w1) (ledger_routes w1, ledger_rules w1) (consumed w1) w1); [done..|].
    split; [by unfold core; rewrite Hrev2, Hcons2, Hpub2|]. destruct Hsame2 as (-> & _ & Hm).
    unfold ledger_rules. by rewrite Hm. }
  assert (owned_rules w = owned_rules w2) as Hor by (unfold owned_rules; by destruct Hled as (_ & _ & ->)).
  assert (owned_routes w = owned_routes w2) as Hot by by destruct Hled as (_ & -> & _).
  rewrite Hor, Hot. rewrite <- Hcons2 in Hprep, Hpub.
  eapply wp_mono; [apply (settle_spec request (published w) committed rolled_back unknown w2);
    [done|by rewrite Hpub2|done|done]| |done].
  intros [o s] w3 (Ho & [Hinv3 Hle3] & Hp & Hcontract & Hr3 & Hu3). apply wp_ret.
  split; [by simpl; rewrite Hp|]. split; [split; [done|by rewrite Hcons2 in Hle3; etrans]|]. simpl.
  split; [|rewrite Ho; by apply Hkernel].
  apply (inventory_contract_from request w w2); [done| | |congruence|done]; by rewrite Hpub2, Hpub.
Qed.

Lemma perform_exact_post request fence w w1 :
  owner_inv w → still (frozen w) w1 →
  identity_rejection (consumed w) (rq_identity request) = None →
  wp (perform_exact cx request fence (published w)) (exact_post request w)
    (λ _, still (frozen w)) w1.
Proof.
  intros Hinv Hw1 Hrej. unfold perform_exact.
  apply wp_bind, wp_owned_rules, wp_bind, wp_owned_routes, wp_bind.
  eapply wp_mono; [by apply prepare_still| |done]. intros committed w2 (Hw2 & Hc). apply wp_bind.
  eapply wp_mono; [by apply prepare_still| |done]. intros rolled_back w3 (Hw3 & Hrb). apply wp_bind.
  eapply wp_mono; [by apply prepare_still| |done]. intros unknown w4 (Hw4 & Hun). apply wp_bind.
  assert (owned_rules w1 = owned_rules w ∧ owned_routes w1 = owned_routes w) as [-> ->].
  { unfold owned_rules. by injection Hw1 as _ _ _ _ -> _ ->. }
  destruct (still_inv w w4 Hinv Hw4) as [Hinv4 Hle4].
  pose proof (still_ledgers w w4 Hw4) as Hled4.
  injection Hw4 as Hrev4 Hcons4 Hpub4 Hlr4 Hor4 Hk4 Hmgr4.
  eapply wp_mono; [apply consume_spec; [done|by rewrite Hcons4]| |done].
  intros u w5 ([Hinv5 Hle5] & _ & Hrev5 & Hpub5 & Hrt5). apply wp_bind, wp_gets.
  fold (consumed w5). eapply wp_mono; [apply transact_post|done|done].
  - done.
  - by etrans.
  - congruence.
  - by rewrite Hpub5, Hpub4.
  - destruct Hled4 as (Hl1 & Hl2 & Hl3). unfold same_ledgers, ledger_routes, owned_routes in *. by rewrite Hrt5.
  - unfold route_kernel in *. by rewrite Hrt5.
  - unfold rule_kernel. by rewrite Hrt5, Hmgr4.
  - destruct Hc as (? & ? & ? & ? & _), Hrb as (? & ? & ? & ? & _), Hun as (? & _ & ? & ? & _). by split.
Qed.

Lemma reconcile_exact_post request fence w :
  owner_inv w →
  wp (reconcile_exact cx request fence) (exact_post request w) (λ _, still (frozen w)) w.
Proof.
  intros Hinv. unfold reconcile_exact.
  eapply wp_still; [apply consume_still|done|done|]. intros u w1 Hw1.
  pose proof Hw1 as Hf1. injection Hf1 as _ Hcons1 Hpub1 _ _ _ _.
  apply wp_bind, wp_gets. fold (consumed w1). rewrite Hcons1.
  destruct (identity_rejection _ _) as [o|] eqn:Hrej.
  { eapply wp_mono; [apply (rejected_post request o w w1); [by eapply rejection_outcome|done..]|done|done]. }
  apply wp_bind, wp_gets. fold (published w1). rewrite Hpub1.
  eapply wp_still; [apply allocate_still|done|done|]. intros u2 w2 Hw2.
  apply wp_bind, wp_gets. destruct (_ && _); [by apply perform_exact_post|]. apply wp_bind.
  destruct (still_inv w w2 Hinv Hw2) as [Hinv2 Hle2]. pose proof (still_ledgers w w2 Hw2) as Hled.
  injection Hw2 as Hrev2 Hcons2 Hpub2 Hlr2 Hor2 Hk2 Hmgr2.
  eapply wp_mono; [apply consume_spec; [done|by rewrite Hcons2]| |done].
  intros u3 w3 ([Hinv3 Hle3] & _ & Hrev3 & Hpub3 & Hrt3). apply wp_bind, wp_gets, wp_ret.
  split; [done|]. split; [split; [done|by etrans]|]. simpl.
  unfold same_ledgers, ledger_routes, owned_routes, route_kernel, rule_kernel in *.
  rewrite Hrt3, Hpub3, Hpub2, Hrev3, Hrev2. destruct Hled as (-> & -> & _).
  split; [by rewrite Hmgr2|]. left. unfold route_kernel, rule_kernel. rewrite Hrt3, Hk2, Hmgr2. naive_solver.
Qed.

Lemma exact_guarantees request fence : guarantees (reconcile_exact cx request fence).
Proof.
  intros w Hw. eapply wp_mono; [by apply reconcile_exact_post| |].
  - by intros r w' (_ & Ha & _).
  - intros e w' Hs. by apply still_inv.
Qed.

(** ** Reachable owners *)

Lemma guarantees_step {A} (op : OW K1 K2 E A) w :
  guarantees op → owner_inv w → advanced (consumed w) (op w).1.
Proof. intros Hop Hw. specialize (Hop w Hw). unfold wp in Hop. by destruct (op w) as [w' [a|e]]. Qed.

Lemma step_advances w w' : owner_step cx w w' → owner_inv w → advanced (consumed w) w'.
Proof.
  intros [op request|routes rules|routes rules mode fence|locked name| |k1 k2 e] Hw.
  - destruct op; apply guarantees_step; [apply reconcile_guarantees|done|apply exact_guarantees|done].
  - apply guarantees_step; [apply populate_guarantees|done].
  - apply guarantees_step; [apply compatibility_guarantees|done].
  - apply guarantees_step; [apply notify_guarantees|done].
  - apply guarantees_step; [apply clear_guarantees|done].
  - destruct Hw as [Hr Hm Hi]. split; [by split|done].
Qed.

Lemma steps_advance w w' : rtc (owner_step cx) w w' → owner_inv w → advanced (consumed w) w'.
Proof.
  induction 1 as [w|w w1 w2 Hstep _ IH]; intros Hw; [done|].
  destruct (step_advances _ _ Hstep Hw) as [Hw1 Hle1]. destruct (IH Hw1) as [Hw2 Hle2].
  split; [done|]. by etrans.
Qed.

Lemma made_inv k1 k2 e w : make_owner cx true k1 k2 e = Ok w → owner_inv w.
Proof. unfold make_owner. simpl. destruct (oc_inventory_factory cx e) as [e' []]; [|done]. by intros [= <-]. Qed.

Lemma reachable_inv w : reachable cx w → owner_inv w.
Proof. intros (k1 & k2 & e & w0 & Hmade & Hsteps). eapply steps_advance; [done|by eapply made_inv]. Qed.
End Contract.

(** * Operation identities are used once

    A numbered operation that is not rejected for its identity has consumed it: the
    marks it leaves are those of the identity, and no later operation lowers them.
    A request behind the marks is rejected before anything happens. *)

Section Serials.
Context {K1 K2 E : Type} `{RouteNetlink K1} `{RuleNetlink K2} `{Inet}.
Context (cx : OwnerContext E).
Implicit Types w : OwnerWorld K1 K2 E.

(** ** Marks change only where an identity is consumed *)

Definition marks_are m w : Prop := consumed w = m.

Lemma marks_run m {A} (c : RS K1 K2 A) : preserves (marks_are m) (ow_run c).
Proof. intros w Hw. unfold ow_run. by destruct (c (ow_routing w)). Qed.
Lemma marks_call m {A} (op : E → E * A) : preserves (marks_are m) (ow_call op : OW K1 K2 E A).
Proof. intros w Hw. unfold ow_call. by destruct (op (ow_env w)). Qed.
Lemma marks_journal m g : preserves (marks_are m) (update_journal g : OW K1 K2 E unit).
Proof. by apply preserves_modify. Qed.
Lemma marks_field m {A} (f : OwnerFields → A) : preserves (marks_are m) (ow_field f : OW K1 K2 E A).
Proof. apply preserves_gets. Qed.
Lemma marks_commit m prepared phase outcome advance :
  preserves (marks_are m)
    (commit_prepared_inventory_locked prepared phase outcome advance : OW K1 K2 E _).
Proof. by intros w Hw. Qed.
Lemma marks_exact m request fence : preserves (marks_are m) (run_exact cx request fence : OW K1 K2 E _).
Proof.
  intros [f [[t k1] [p k2]] e] Hw. unfold run_exact. simpl.
  by destruct (tw_env (execute_runtime_routing_transaction _ _ _ _ _)).2.
Qed.
#[local] Hint Resolve marks_run marks_call marks_journal marks_field marks_commit marks_exact : preserves.

Lemma marks_prepare m routes rules identity complete known :
  preserves (marks_are m)
    (prepare_inventory_publication_locked cx routes rules identity complete known : OW K1 K2 E _).
Proof. unfold prepare_inventory_publication_locked, allocate_inventory_snapshot. preserve. Qed.
#[local] Hint Resolve marks_prepare : preserves.

Lemma marks_publish m fallback identity phase outcome known advance :
  preserves (marks_are m)
    (publish_actual_inventory_or_fallback_locked cx fallback identity phase outcome known advance
     : OW K1 K2 E _).
Proof. unfold publish_actual_inventory_or_fallback_locked, get_routes, get_rules. preserve. Qed.
#[local] Hint Resolve marks_publish : preserves.

Lemma marks_note m phase : preserves (marks_are m) (note_phase phase : OW K1 K2 E unit).
Proof. apply marks_journal. Qed.
#[local] Hint Resolve marks_note : preserves.

Lemma marks_retire m live prior routes rules :
  preserves (marks_are m) (retire_and_adopt note_phase live prior routes rules : OW K1 K2 E bool).
Proof. unfold retire_and_adopt, get_routes. preserve. Qed.
Lemma marks_add m routes rules mode :
  preserves (marks_are m) (add_generation note_phase routes rules mode : OW K1 K2 E bool).
Proof. unfold add_generation. preserve. Qed.
#[local] Hint Resolve marks_retire marks_add : preserves.

Lemma marks_compatibility m request fallback :
  preserves (marks_are m) (run_compatibility cx request fallback : OW K1 K2 E _).
Proof. unfold run_compatibility, note_boundary, note_outcome, operation_result. preserve. Qed.
Lemma marks_failure m request fallback e :
  preserves (marks_are m) (fail_compatibility cx request fallback e : OW K1 K2 E _).
Proof. unfold fail_compatibility, note_outcome, operation_result. preserve. Qed.
Lemma marks_settle m request current c1 c2 c3 l1 l2 l3 t record :
  preserves (marks_are m)
    (settle_exact request current c1 c2 c3 l1 l2 l3 t record : OW K1 K2 E _).
Proof. unfold settle_exact, adopt_exact. preserve. Qed.
Lemma marks_rejected m request o : preserves (marks_are m) (rejected_result request o : OW K1 K2 E _).
Proof. unfold rejected_result. preserve. Qed.
#[local] Hint Resolve marks_compatibility marks_failure marks_settle marks_rejected : preserves.

(** ** Consumption *)

(** Returning with another outcome than a rejection of the identity means that the
    identity is consumed. *)
Definition consumes (i : OperationIdentity) (r : OperationResult) w : Prop :=
  or_outcome r ∉ [ORejectedInvalidIdentity; ORejectedReplay] →
  oi_operation_serial i ≤ cm_operation_serial (consumed w)
  ∧ oi_intent_serial i ≤ cm_intent_serial (consumed w).

Lemma consume_then {A} i (k : unit → OW K1 K2 E A) (Q : A → OwnerWorld K1 K2 E → Prop) w :
  (∀ m u, preserves (marks_are m) (k u)) →
  (∀ a w', oi_operation_serial i ≤ cm_operation_serial (consumed w')
           ∧ oi_intent_serial i ≤ cm_intent_serial (consumed w') → Q a w') →
  wp (mbind k (consume_identity i)) Q (λ _ _, True) w.
Proof.
  intros Hk HQ. apply wp_bind, wp_modify. set (w1 := Build_OwnerWorld _ _ _ _ _ _).
  eapply wp_frame; [apply (Hk (consumed w1))|done|].
  intros a w' Hw'. apply HQ. unfold marks_are in Hw'. rewrite Hw'. simpl. lia.
Qed.

Lemma rejected_consumes request m i o w :
  identity_rejection m i = Some o →
  wp (rejected_result request o) (consumes i) (λ _ _, True) w.
Proof.
  intros Hrej. apply rejection_outcome in Hrej. apply wp_bind, wp_gets, wp_ret. intros Hn. exfalso.
  apply Hn. simpl. destruct Hrej as [-> | ->]; set_solver.
Qed.

Lemma reconcile_consumes request w :
  wp (owner_reconcile cx request) (consumes (rq_identity request)) (λ _ _, True) w.
Proof.
  unfold owner_reconcile. apply wp_bind_any. intros u w1. apply wp_bind, wp_gets.
  destruct (identity_rejection _ _) eqn:Hrej; [by eapply rejected_consumes|].
  apply wp_bind_any. intros u2 w2. apply wp_bind, wp_gets. destruct (negb _).
  - apply consume_then; [intros; preserve|]. by intros r w9 Hr _.
  - do 3 (apply wp_bind_any; intros ? ?).
    apply consume_then; [intros; preserve; by apply preserves_modify|]. by intros r w9 Hr _.
Qed.

Lemma exact_consumes request fence w :
  wp (reconcile_exact cx request fence) (consumes (rq_identity request)) (λ _ _, True) w.
Proof.
  unfold reconcile_exact. apply wp_bind_any. intros u w1. apply wp_bind, wp_gets.
  destruct (identity_rejection _ _) eqn:Hrej; [by eapply rejected_consumes|].
  apply wp_bind, wp_gets, wp_bind_any. intros u2 w2. apply wp_bind, wp_gets. destruct (_ && _).
  - unfold perform_exact. do 5 (apply wp_bind_any; intros ? ?).
    apply consume_then; [intros; unfold get_rules; preserve|]. by intros r w9 Hr _.
  - apply consume_then; [intros; preserve|]. by intros r w9 Hr _.
Qed.

(** ** Rejection *)

Lemma consume_total x w :
  still x w →
  wp (consume_pending_interface_notifications_locked) (λ _, still x) (λ _ _, False) w.
Proof.
  intros Hw. apply wp_bind, wp_gets, wp_bind, wp_modify.
  apply (wp_mfor _ (λ _, still x)); [done|]. intros name l w' Hw'.
  pose proof (notify_still x name w' Hw') as Hn. revert Hn. unfold wp, ow_run, on_routes, RouteTable.notify_interface_up.
  by destruct (empty_str name).
Qed.

Lemma numbered_rejected op request w :
  is_Some (identity_rejection (consumed w) (rq_identity request)) →
  wp (run_numbered cx op request)
    (λ r w', or_outcome r ∈ [ORejectedInvalidIdentity; ORejectedReplay] ∧ frozen w' = frozen w)
    (λ _ _, False) w.
Proof.
  intros [o Ho]. destruct op as [|fence]; apply wp_bind;
    (eapply wp_mono; [by apply (consume_total (frozen w))| |done]);
    intros u w1 Hw1; pose proof Hw1 as Hf; injection Hf as _ Hc _ _ _ _ _;
    apply wp_bind, wp_gets; fold (consumed w1); rewrite Hc, Ho; apply wp_bind, wp_gets, wp_ret; simpl;
    (split; [|exact Hw1]); apply rejection_outcome in Ho as [-> | ->]; set_solver.
Qed.

Lemma spent_rejected m i :
  oi_operation_serial i ≤ cm_operation_serial m ∨ oi_intent_serial i ≤ cm_intent_serial m →
  is_Some (identity_rejection m i).
Proof.
  intros Hle. unfold identity_rejection. destruct (negb _); [done|].
  destruct (_ || _) eqn:Hr; [done|]. bool_to_prop. lia.
Qed.
End Serials.
