(* ===== verification/OperationOwnerClaims.v ===== *)
(** * The operation owner: what its callers rely on

    The invariant of the published inventory, single use of operation identities,
    the contract of exact operations, and the health of authoritative inventories. *)

From Stdlib Require Import ZArith Lia Ascii String.
From stdpp Require Import base gmap strings list relations.
From S2P Require Import Prelude ConfigTypes RoutingPlan ListParser InetModel KernelRoutes StateError RouteTable.
From S2P Require Import RouteTableSafety RouteTableConverge RouteTableModel PolicyRules PolicyRulesSafety PolicyRulesConverge RoutingState TransactionPlan.
From S2P Require Import Transaction TransactionKernel TransactionPlanFacts TransactionAbort TransactionCommit TransactionJournal TransactionModel OperationOwner.
From S2P Require Import OperationOwnerHistory OperationOwnerExact.

Open Scope Z_scope.

(** The metrics of a request are unsigned fields of the source. *)
Definition unsigned_metrics (request : OperationRequest) : Prop :=
  ∀ c, c ∈ rq_desired_routes request → 0 ≤ rt_metric c.

(** ** The kernel after an exact operation *)

Section Kernel.
Context {K1 K2 E : Type} `{HS : RouteSlotLaws K1} `{HP : RulePresentLaws K2}.
Context (cx : OwnerContext E).
Implicit Types w : OwnerWorld K1 K2 E.

(** The kernel after each outcome. *)
Definition kernel_contract (request : OperationRequest) w (o : OperationOutcome) w' : Prop :=
  match o with
  | OExactCandidateCommitted =>
      committed_state (exact_request_of request (published w) (owned_rules w))
        (route_kernel w') (rule_kernel w')
  | OExactCommittedCleanupPending | OExactPartialUnknown =>
      ∀ d, is_generated_route_candidate d = false →
           d ∈ nl_live (route_kernel w') ↔ d ∈ nl_live (route_kernel w)
  | _ => same_routes (route_kernel w') (route_kernel w) ∧ same_rules (rule_kernel w') (rule_kernel w)
  end.

Lemma execute_kernel_contract (caller : TransactionCaller (E * option PublishedJournal)) request w env :
  unsigned_metrics request →
  let t := execute_runtime_routing_transaction caller
             (exact_request_of request (published w) (owned_rules w))
             (route_kernel w) (rule_kernel w) env in
  ∀ w', route_kernel w' = tw_routes t → rule_kernel w' = tw_rules t →
  kernel_contract request w (exact_operation_outcome (tr_terminal (tw_result t))) w'.
Proof.
  intros Hmetric t w' Hr Hu.
  set (q := exact_request_of request (published w) (owned_rules w)) in *.
  assert (∀ c, c ∈ tq_desired_routes q → 0 ≤ rt_metric c) as Hq by exact Hmetric.
  pose proof (execute_aborted caller q (route_kernel w) (rule_kernel w) env Hq) as Habort.
  pose proof (execute_committed caller q (route_kernel w) (rule_kernel w) env Hq) as Hcommit.
  pose proof (execute_terminal caller q (route_kernel w) (rule_kernel w) env) as Hterm.
  pose proof (proj1 (execute_confined caller q (route_kernel w) (rule_kernel w) env Hq)) as Hconf.
  fold t in Habort, Hcommit, Hterm, Hconf. unfold kernel_contract. rewrite Hr, Hu.
  cbv zeta in Hcommit. unfold outcome in Habort. destruct (tr_terminal (tw_result t)); simpl; try done; try (exact (Habort eq_refl)).
  exact (Hcommit eq_refl).
Qed.

Lemma exact_kernel_contract request w o w' :
  unsigned_metrics request → exact_kernel request w o w' → kernel_contract request w o w'.
Proof.
  intros Hmetric [[Heq Ho]|(caller & env & Heq & ->)].
  - injection Heq as Hr Hu. unfold kernel_contract. rewrite Hr, Hu. by destruct Ho as [->|[->| ->]].
  - injection Heq as Hr Hu. by apply (execute_kernel_contract caller).
Qed.

(** ** Live inventories *)

(** The snapshot is the image of the kernel: each of its routes and rules is the
    sole occupant of its slot, and every generated route is one of them. *)
Record inventory_live (s : InventorySnapshot) (k1 : K1) (k2 : K2) : Prop := {
  live_routes : ∀ c, c ∈ sn_routes s →
    ∃ d, d ∈ nl_live k1 ∧ exact_route_matches_live c d = true
         ∧ ∀ x, x ∈ nl_live k1 → exact_route_same_slot c x = true → x = d;
  live_nothing_else : ∀ d, d ∈ nl_live k1 → is_generated_route_candidate d = true →
    ∃ c, c ∈ sn_routes s ∧ exact_route_matches_live c d = true;
  live_rules : ∀ r, r ∈ concrete_rules (sn_rules s) →
    ∃ d, d ∈ rl_live k2 ∧ du_exact_identity_representable d = true ∧ rule_matches_live r d = true
         ∧ ∀ x, x ∈ rl_live k2 → rule_occupies_same_identity r x = true → x = d;
}.

Lemma inventory_live_same s s' k1 k1' k2 k2' :
  same_content s s' → same_routes k1' k1 → same_rules k2' k2 →
  inventory_live s k1 k2 → inventory_live s' k1' k2'.
Proof.
  intros [Hr Hu] H1' H2' [L1 L2 L3]. unfold same_routes, same_rules in *. split; rewrite ?Hr, ?Hu.
  - intros c Hc. destruct (L1 c Hc) as (d & Hd & Hm & Hx). exists d. rewrite H1'. split; [done|].
    split; [done|]. intros x. rewrite H1'. apply Hx.
  - intros d. rewrite H1'. apply L2.
  - intros r Hc. destruct (L3 r Hc) as (d & Hd & Hrep & Hm & Hx). exists d. rewrite H2'. split; [done|].
    split; [done|]. split; [done|]. intros x. rewrite H2'. apply Hx.
Qed.

Definition authority_live w : Prop :=
  is_authoritative (published w) = true → inventory_live (published w) (route_kernel w) (rule_kernel w).

Lemma contract_live request w o w' :
  inventory_contract request w o w' → kernel_contract request w o w' →
  authority_live w → authority_live w'.
Proof.
  unfold authority_live, inventory_contract, kernel_contract. intros Hinv Hker Hlive Hauth.
  destruct o; simpl in *; try done.
  - destruct Hinv as (_ & Hr & Hu & _), Hker as [C1 C2 C3 _ _]. split; by rewrite ?Hr, ?Hu.
  - destruct Hinv as (_ & Hsame & Ha & _), Hker as [Hr Hu]. rewrite Ha in Hauth.
    eapply inventory_live_same; eauto.
  - destruct Hinv as [Ha _]. congruence.
  - destruct Hinv as [Ha _]. congruence.
  - destruct Hinv as (_ & Hsame & _ & Ha), Hker as [Hr Hu]. eapply inventory_live_same; eauto.
  - destruct Hinv as (_ & Hsame & _ & Ha), Hker as [Hr Hu]. eapply inventory_live_same; eauto.
  - destruct Hinv as (_ & Hsame & _ & Ha), Hker as [Hr Hu]. rewrite Ha in Hauth. eapply inventory_live_same; eauto.
  - destruct Hinv as (_ & Hsame & _ & Ha), Hker as [Hr Hu]. rewrite Ha in Hauth. eapply inventory_live_same; eauto.
  - destruct Hinv as (_ & Hsame & _ & Ha), Hker as [Hr Hu]. rewrite Ha in Hauth. eapply inventory_live_same; eauto.
Qed.

(** ** Exact operations only *)

(** No compatibility operation and no other writer: exact operations and interface
    notifications. *)
Inductive exact_step w : OwnerWorld K1 K2 E → Prop :=
| exact_step_reconcile request fence :
    unsigned_metrics request → exact_step w (reconcile_exact cx request fence w).1
| exact_step_notify locked name : exact_step w (owner_notify_interface_up locked name w).1.

Lemma notify_owner_still x locked name :
  preserves (still x) (owner_notify_interface_up locked name : OW K1 K2 E unit).
Proof.
  unfold owner_notify_interface_up. destruct (empty_str name); [apply preserves_ret|]. destruct locked.
  - apply preserves_bind; [apply consume_still|]. intros u. apply notify_still.
  - apply preserves_bind; [apply preserves_gets|]. intros pending. by apply preserves_modify.
Qed.

Lemma still_live w w' : still (frozen w) w' → authority_live w → authority_live w'.
Proof.
  intros [= _ _ Hp _ _ Hk Hm]. unfold authority_live, rule_kernel. by rewrite Hp, Hk, Hm.
Qed.

Lemma exact_step_live w w' :
  exact_step w w' → owner_inv w → authority_live w → owner_inv w' ∧ authority_live w'.
Proof.
  intros [request fence Hmetric|locked name] Hinv Hlive.
  - pose proof (reconcile_exact_post cx request fence w Hinv) as Hpost. unfold wp in Hpost.
    destruct (reconcile_exact cx request fence w) as [w1 [r|e]].
    + destruct Hpost as (_ & [Hinv1 _] & Hc & Hk%exact_kernel_contract); [|done]. split; [done|].
      by apply (contract_live request w (or_outcome r)).
    + split; [apply (still_inv w w1 Hinv Hpost)|by apply (still_live w)].
  - pose proof (notify_owner_still (frozen w) locked name w eq_refl) as Hs.
    split; [apply (still_inv w _ Hinv Hs)|by apply (still_live w)].
Qed.

Lemma exact_steps_live w w' :
  rtc exact_step w w' → owner_inv w → authority_live w → authority_live w'.
Proof.
  induction 1 as [w|w w1 w2 Hstep _ IH]; intros Hinv Hlive; [done|].
  destruct (exact_step_live w w1 Hstep Hinv Hlive). auto.
Qed.

(** ** The drift check *)

Lemma filter_sole {A} (p : A → bool) (l : list A) (d : A) :
  NoDup l → d ∈ l → p d = true → (∀ x, x ∈ l → p x = true → x = d) → List.filter p l = [d].
Proof.
  intros Hnd Hd Hp Hu. induction Hnd as [|x l Hx Hnd IH]; [by apply elem_of_nil in Hd|]. simpl.
  assert (∀ y, y ∈ l → p y = true → y = d) as Hu' by (intros y Hy; apply Hu; by right).
  apply elem_of_cons in Hd as [->|Hd].
  - rewrite Hp. f_equal. destruct (List.filter p l) as [|y l'] eqn:Hf; [done|]. exfalso.
    assert (In y (List.filter p l)) as [Hin Hpy]%filter_In by (rewrite Hf; by left).
    apply list_elem_of_In in Hin. by rewrite (Hu' y Hin Hpy) in Hin.
  - rewrite IH by done. destruct (p x) eqn:Hpx; [|done].
    by rewrite (Hu x (list_elem_of_here _ _) Hpx) in Hx.
Qed.

Lemma drift_healthy {A} (counts : A → nat * nat) (l : list A) :
  (∀ x, x ∈ l → counts x = (1, 1)%nat) → drift counts l false = Some false.
Proof.
  induction l as [|x l IH]; intros Hall; simpl; [done|].
  rewrite (Hall x) by by left. apply IH. intros y Hy. apply Hall. by right.
Qed.

(** A dump of the kernel: all of its objects, each once. *)
Definition dump_of {A} (live dump : list A) : Prop := NoDup dump ∧ ∀ d, d ∈ dump ↔ d ∈ live.

Lemma live_healthy s (k1 : K1) (k2 : K2) lr lu :
  inventory_live s k1 k2 → dump_of (nl_live k1) lr → dump_of (rl_live k2) lu →
  classify_runtime_routing_inventory_live_state s lr lu = LiveHealthy.
Proof.
  intros [L1 _ L3] [Hnd1 Hlr] [Hnd2 Hlu]. unfold classify_runtime_routing_inventory_live_state.
  rewrite drift_healthy; [rewrite drift_healthy; [done|]|].
  - intros r (logical & Hr & Hl)%list_elem_of_bind.
    apply list_elem_of_fmap in Hr as (f & -> & Hf).
    destruct (L3 (with_family f logical)) as (d & Hd & Hrep & Hm & Hx).
    { apply concrete_rules_elem. by exists logical, f. }
    unfold rule_counts. rewrite (filter_sole _ lu d); [simpl; by rewrite Hrep|done|by apply Hlu|done|].
    intros x Hin Hmx. apply Hx; [by apply Hlu|]. by rewrite identity_matches.
  - intros c Hc. destruct (L1 c Hc) as (d & Hd & Hm & Hx).
    pose proof (proj1 (exact_matches_eq c d) Hm) as (Hrep & Hslot & Hi & Hg & Hb & Hun & Hp).
    assert (rt_family c ≠ 0) as Hf.
    { apply same_slot_eq in Hslot as (_ & _ & -> & _). by apply (law_live_family k1). }
    assert (∀ x, x ∈ nl_live k1 → route_occupies_same_slot c x = exact_route_same_slot c x) as Hag.
    { intros x Hin. apply slots_agree; [done|]. by apply (law_ipv6_metric k1). }
    unfold route_counts. rewrite (filter_sole _ lr d);
      [|done|by apply Hlr|by rewrite Hag|intros x Hin; rewrite Hag by (by apply Hlr); apply Hx; by apply Hlr].
    simpl. rewrite Hrep. enough (route_matches_live c d = true) as -> by done.
    rewrite <- (Hag d Hd) in Hslot. unfold route_occupies_same_slot in Hslot. unfold route_matches_live.
    rewrite !andb_true_iff in Hslot. destruct Hslot as [[[-> ->] ->] ->].
    rewrite Hi, Hg, Hb, Hun, Hp, Z.eqb_refl, !Bool.eqb_reflx, !(proj2 (opt_eqb_eq _ _) eq_refl). done.
Qed.
End Kernel.

(** ** Theorems *)

(** C7. Whatever sequence of operations an owner has run, on any kernel, with failing
    calls, failing allocations and other writers in between: the published
    inventory carries the owner's revision and its consumed marks, and an inventory
    that claims to be complete lists exactly the routes and the rules of the
    ledgers. *)
Theorem published_inventory_current {K1 K2 E : Type} `{RouteNetlink K1} `{RuleNetlink K2} `{Inet}
    (cx : OwnerContext E) (w : OwnerWorld K1 K2 E) (Hreach : reachable cx w) :
  let s := published w in
  sn_revision s = revision w ∧ sn_consumed s = consumed w
  ∧ (sn_inventory_complete s = true → sn_routes s = ledger_routes w ∧ sn_rules s = ledger_rules w).
Proof. by destruct (reachable_inv cx w Hreach). Qed.

(** C11. An operation identity is good for one operation: once a numbered operation
    returned with anything but a rejection of its identity, every later request
    with the same or an older operation serial or intent serial is rejected,
    whatever happened in between, and the rejection leaves the kernel, the ledgers
    and the published inventory as they are. *)
Theorem consumed_identity_never_repeats {K1 K2 E : Type} `{RouteNetlink K1} `{RuleNetlink K2}
    `{Inet} (cx : OwnerContext E) (op op' : NumberedOperation E) (request later : OperationRequest)
    (w w1 w2 : OwnerWorld K1 K2 E) (r : OperationResult)
    (Hreach : reachable cx w) (Hrun : run_numbered cx op request w = (w1, Ok r))
    (Haccepted : or_outcome r ∉ [ORejectedInvalidIdentity; ORejectedReplay])
    (Hsteps : rtc (owner_step cx) w1 w2)
    (Hold : oi_operation_serial (rq_identity later) ≤ oi_operation_serial (rq_identity request)
            ∨ oi_intent_serial (rq_identity later) ≤ oi_intent_serial (rq_identity request)) :
  ∃ w3 r', run_numbered cx op' later w2 = (w3, Ok r')
           ∧ or_outcome r' ∈ [ORejectedInvalidIdentity; ORejectedReplay] ∧ frozen w3 = frozen w2.
Proof.
  assert (consumes (rq_identity request) r w1) as Hc.
  { pose proof (reconcile_consumes cx request w) as H1'.
    pose proof (λ f, exact_consumes cx request f w) as H2'. unfold wp in H1', H2'.
    destruct op as [|fence]; simpl in Hrun; [|specialize (H2' fence)]; by rewrite Hrun in *. }
  assert (advanced (consumed w1) w2) as [_ (Hop & _ & Hint & _)].
  { eapply steps_advance; [exact Hsteps|]. pose proof (step_advances cx _ _ (step_numbered cx w op request)
      (reachable_inv cx w Hreach)) as [Hi _]. by rewrite Hrun in Hi. }
  destruct (Hc Haccepted) as [Hs Hi].
  pose proof (numbered_rejected cx op' later w2) as Hrej. unfold wp in Hrej.
  destruct (run_numbered cx op' later w2) as [w3 [r'|e]].
  - exists w3, r'. split; [done|]. apply Hrej, spent_rejected. lia.
  - exfalso. apply Hrej, spent_rejected. lia.
Qed.

(** C3. The contract of an exact operation, outcome by outcome. Committed: the kernel
    holds the desired state exactly and the published inventory is authoritative,
    lists it, and has the next revision. Rolled back: kernel and ledgers are as
    before, the prior inventory is published again with its authority under the
    next revision. Stale, refused or rejected: kernel, ledgers, contents and
    revision are as before, and no authority is gained. Cleanup pending or unknown:
    the inventory is not authoritative, foreign routes are as before, and the
    ledgers hold everything the prior inventory and the request name, so that
    nothing the owner may have installed is forgotten. When no snapshot can be
    allocated, nothing has changed. *)
Theorem exact_operation_contract {K1 K2 E : Type} `{HS : RouteSlotLaws K1} `{HP : RulePresentLaws K2}
    (cx : OwnerContext E) (request : OperationRequest)
    (fence : option (E → E * result unit CurrentFence)) (w : OwnerWorld K1 K2 E)
    (Hreach : reachable cx w) (Hmetric : unsigned_metrics request) :
  match reconcile_exact cx request fence w with
  | (w', Ok r) => or_inventory r = Some (published w')
                  ∧ inventory_contract request w (or_outcome r) w'
                  ∧ kernel_contract request w (or_outcome r) w'
  | (w', Throw _) => frozen w' = frozen w
  end.
Proof.
  pose proof (reconcile_exact_post cx request fence w (reachable_inv cx w Hreach)) as Hpost.
  unfold wp in Hpost. destruct (reconcile_exact cx request fence w) as [w' [r|e]]; [|done].
  destruct Hpost as (Hi & _ & Hc & Hk). split; [done|]. split; [done|]. by apply exact_kernel_contract.
Qed.

(** C10. An authoritative inventory is the kernel's image, and stays it: through any
    sequence of exact operations and interface notifications, however they end,
    whenever the published inventory is authoritative its routes and rules are the
    sole occupants of their slots and no other generated route is live; the drift
    check against a dump of the kernel finds it healthy. *)
Theorem authoritative_inventory_healthy {K1 K2 E : Type} `{HS : RouteSlotLaws K1}
    `{HP : RulePresentLaws K2} (cx : OwnerContext E) (w w' : OwnerWorld K1 K2 E)
    (Hreach : reachable cx w) (Hlive : authority_live w) (Hsteps : rtc (exact_step cx) w w')
    (Hauth : is_authoritative (published w') = true) :
  inventory_live (published w') (route_kernel w') (rule_kernel w')
  ∧ ∀ lr lu, dump_of (nl_live (route_kernel w')) lr → dump_of (rl_live (rule_kernel w')) lu →
      classify_runtime_routing_inventory_live_state (published w') lr lu = LiveHealthy.
Proof.
  pose proof (exact_steps_live cx w w' Hsteps (reachable_inv cx w Hreach) Hlive Hauth) as Hl.
  split; [done|]. intros lr lu. by apply live_healthy.
Qed.

(** ** A run *)

(** The environment counts snapshot allocations; the factory fails where [broken]
    says so. *)
Definition sample_context (broken : nat → bool) : OwnerContext nat :=
  {| oc_inventory_factory := λ n, (S n, negb (broken n)); oc_acquire_lease := λ n, (n, Ok true) |}.
Definition never (_ : nat) : bool := false.

(** A router with foreign routes only. *)
Definition fresh_router (faults : list bool) : ListKernel :=
  {| lk_routes := [main_default; static_route]; lk_faults := faults;
     lk_up := ["eth0"; "nwg0"; "nwg1"]%string; lk_clock := 0 |}.

Definition sample_owner (faults : list bool) : OwnerWorld ListKernel RuleKernel nat :=
  {| ow_fields := initial_fields;
     ow_routing := ((unused_table, fresh_router faults), (unused_rules, rule_kernel_with [] []));
     ow_env := 1%nat |}.

Lemma sample_reachable faults : reachable (sample_context never) (sample_owner faults).
Proof. exists (fresh_router faults), (rule_kernel_with [] []), 0%nat, (sample_owner faults). by split. Defined.

Lemma sample_live : authority_live (sample_owner []).
Proof.
  intros _. split; simpl.
  - by intros c ?%elem_of_nil.
  - apply (proj1 (Forall_forall (λ d, is_generated_route_candidate d = true → _) _)).
    by repeat constructor.
  - by intros c ?%elem_of_nil.
Qed.

Definition sample_operation (serial base : Z) (interface : string) : OperationRequest :=
  {| rq_identity := {| oi_operation_serial := serial; oi_runtime_generation := 1;
                       oi_intent_serial := serial; oi_base_inventory_revision := base;
                       oi_route_epoch := 1 |};
     rq_desired_routes := [via 150 interface AF_INET 0; unreachable_route 150 AF_INET 100;
                           via 150 interface AF_INET6 0];
     rq_desired_rules := [rule_a]; rq_authorized_external_tables := []; rq_mode := Strict |}.

Definition sample_fence (serial base : Z) : option (nat → nat * result unit CurrentFence) :=
  Some (λ n, (n, Ok {| cf_last_operation_serial := serial - 1; cf_runtime_generation := 1;
                       cf_intent_serial := serial; cf_inventory_revision := base;
                       cf_route_epoch := 1 |})).

Lemma sample_unsigned serial base interface : unsigned_metrics (sample_operation serial base interface).
Proof. intros c Hc. revert c Hc. apply Forall_forall. by repeat constructor. Qed.

(** Two generations: the first is committed, the second moves the tunnel. *)
Definition after_first : OwnerWorld ListKernel RuleKernel nat :=
  (reconcile_exact (sample_context never) (sample_operation 1 1 "nwg0") (sample_fence 1 1)
     (sample_owner [])).1.
Definition after_second : OwnerWorld ListKernel RuleKernel nat :=
  (reconcile_exact (sample_context never) (sample_operation 2 2 "nwg1") (sample_fence 2 2)
     after_first).1.

Definition outcome_of {W} (x : W * result OwnerError OperationResult) : OperationOutcome :=
  match x.2 with Ok r => or_outcome r | Throw _ => OIdle end.

(** A reconciliation that converged but could not allocate its inventory publishes
    the prior lists, marked incomplete, under the next revision. *)
Example unallocated_inventory_is_incomplete :
  let x := owner_reconcile (sample_context (λ n, (n =? 3)%nat)) (sample_operation 1 1 "nwg0")
             (sample_owner []) in
  let s := published x.1 in
  (outcome_of x, sn_revision s, classify_runtime_routing_inventory (Some s), sn_routes s)
  = (OCompatibilityConverged, 2, InventoryIncomplete, [])
  ∧ length (ledger_routes x.1) = 3%nat.
Proof. vm_compute. split; reflexivity. Qed.

Lemma committed_not_rejected : OExactCandidateCommitted ∉ [ORejectedInvalidIdentity; ORejectedReplay].
Proof. by intros [?|[?|?%elem_of_nil]%elem_of_cons]%elem_of_cons. Qed.

Lemma published_inventory_current_witness :
  sn_inventory_complete (published after_first) = true ∧ sn_revision (published after_first) = 2
  ∧ sn_routes (published after_first) = ledger_routes after_first.
Proof.
  assert (sn_inventory_complete (published after_first) = true) as Hc by (vm_compute; reflexivity).
  split; [exact Hc|]. split; [vm_compute; reflexivity|].
  apply (published_inventory_current (sample_context never) after_first); [|exact Hc].
  destruct (sample_reachable []) as (k1 & k2 & e & w0 & Hm & Hs).
  exists k1, k2, e, w0. split; [exact Hm|]. eapply rtc_r; [exact Hs|].
  exact (step_numbered (sample_context never) (sample_owner []) (RunExact (sample_fence 1 1))
           (sample_operation 1 1 "nwg0")).
Defined.

(** The compatibility path does not accept what the exact path has consumed. *)
Lemma consumed_identity_never_repeats_witness :
  ∃ w3 r', owner_reconcile (sample_context never) (sample_operation 1 2 "nwg1") after_first = (w3, Ok r')
           ∧ or_outcome r' ∈ [ORejectedInvalidIdentity; ORejectedReplay]
           ∧ frozen w3 = frozen after_first.
Proof.
  destruct (reconcile_exact (sample_context never) (sample_operation 1 1 "nwg0") (sample_fence 1 1)
              (sample_owner [])) as [w1 [r|e]] eqn:Hrun.
  - assert (or_outcome r = OExactCandidateCommitted) as Ho.
    { assert (outcome_of (reconcile_exact (sample_context never) (sample_operation 1 1 "nwg0")
                (sample_fence 1 1) (sample_owner [])) = OExactCandidateCommitted) as Ho
        by (vm_compute; reflexivity). by rewrite Hrun in Ho. }
    assert (w1 = after_first) as -> by (unfold after_first; by rewrite Hrun).
    apply (consumed_identity_never_repeats (sample_context never) (RunExact (sample_fence 1 1))
      RunCompatibility (sample_operation 1 1 "nwg0") (sample_operation 1 2 "nwg1") (sample_owner [])
      after_first after_first r (sample_reachable []) Hrun).
    + rewrite Ho. exact committed_not_rejected.
    + apply rtc_refl.
    + left. simpl. lia.
  - exfalso. revert Hrun. vm_compute. discriminate.
Defined.

(** The kernel refuses the second route: everything is taken back. *)
Lemma exact_operation_contract_witness :
  let w := sample_owner [false; false; false; true] in
  let x := reconcile_exact (sample_context never) (sample_operation 1 1 "nwg0") (sample_fence 1 1) w in
  outcome_of x = OExactCandidateRolledBack
  ∧ same_routes (route_kernel x.1) (route_kernel w) ∧ is_authoritative (published x.1) = true.
Proof.
  intros w x. assert (outcome_of x = OExactCandidateRolledBack) as Ho by (vm_compute; reflexivity).
  split; [exact Ho|].
  pose proof (exact_operation_contract (sample_context never) (sample_operation 1 1 "nwg0")
    (sample_fence 1 1) w (sample_reachable _) (sample_unsigned _ _ _)) as Hc.
  fold x in Hc. destruct x as [w' [r|e]]; [|discriminate Ho]. unfold outcome_of in Ho. simpl in Ho.
  rewrite Ho in Hc. destruct Hc as (_ & (_ & _ & Ha & _) & Hr & _). split; [exact Hr|]. exact Ha.
Defined.

Lemma authoritative_inventory_healthy_witness :
  is_authoritative (published after_second) = true ∧ sn_revision (published after_second) = 3
  ∧ classify_runtime_routing_inventory_live_state (published after_second)
      (nl_live (route_kernel after_second)) (rl_live (rule_kernel after_second)) = LiveHealthy.
Proof.
  assert (is_authoritative (published after_second) = true) as Ha by (vm_compute; reflexivity).
  split; [exact Ha|]. split; [vm_compute; reflexivity|].
  apply (authoritative_inventory_healthy (sample_context never) (sample_owner []) after_second
    (sample_reachable [])); [| |exact Ha| |].
  - exact sample_live.
  - eapply rtc_l; [|apply rtc_once].
    + exact (exact_step_reconcile (sample_context never) (sample_owner [])
               (sample_operation 1 1 "nwg0") (sample_fence 1 1) (sample_unsigned _ _ _)).
    + exact (exact_step_reconcile (sample_context never) after_first
               (sample_operation 2 2 "nwg1") (sample_fence 2 2) (sample_unsigned _ _ _)).
  - split; [apply (bool_decide_unpack _); vm_compute; exact I|]. intros d. reflexivity.
  - split; [apply (bool_decide_unpack _); vm_compute; exact I|]. intros d. reflexivity.
Defined.
