(* ===== verification/RtnetlinkCodec.v ===== *)
(** * Decoding rtnetlink dumps

    src/src/routing/raw_rtnetlink_codec.cpp and the receive loops
    [dump_raw_routes] and [dump_raw_rules] of src/src/routing/netlink.cpp: how the
    bytes of a dump become the [DumpedRoute]s and [DumpedRule]s that the route
    table, the rule manager and the transactions work on. A pointer is the suffix of
    the receive buffer it points to; a copy past the end of the buffer is the fault
    [OutOfBounds]. The byte order of the machine is a parameter. *)

From Stdlib Require Import ZArith Lia Ascii String.
From stdpp Require Import base gmap strings list.
From S2P Require Import Prelude ConfigTypes RoutingPlan KernelRoutes ListParser StateError.
From S2P Require Import RouteTable PolicyRules.
Open Scope Z_scope.

(** ** Memory *)

(** What the model can get wrong and the code must not: a read outside the buffer,
    a loop that does not end. *)
Inductive CodecFault := OutOfBounds | OutOfFuel.

Inductive ByteOrder := LittleEndian | BigEndian.

(** [memcpy] of [n] bytes from a pointer. *)
Definition fetch (n : nat) (p : list Z) : result CodecFault (list Z) :=
  if (n <=? length p)%nat then Ok (take n p) else Throw OutOfBounds.

Fixpoint le_value (bs : list Z) : Z :=
  match bs with [] => 0 | b :: bs => b + 256 * le_value bs end.

(** The unsigned value of bytes in memory order. *)
Definition number (order : ByteOrder) (bs : list Z) : Z :=
  match order with LittleEndian => le_value bs | BigEndian => le_value (rev bs) end.

(** A field of a structure that was copied. *)
Definition at_offset (order : ByteOrder) (offset width : nat) (bs : list Z) : Z :=
  number order (take width (drop offset bs)).

(** [int] from its 32 bits. *)
Definition int32 (z : Z) : Z := if z <? 2 ^ 31 then z else z - 2 ^ 32.

(** [RTA_ALIGN] and [NLMSG_ALIGN], on 32-bit unsigned integers. *)
Definition align4 (len : Z) : Z := Z.land (u32 (len + 3)) (u32_max - 3).

(** ** Linux constants *)

Definition RTN_UNICAST : Z := 1.
Definition RTN_BLACKHOLE : Z := 6.
Definition RTN_UNREACHABLE : Z := 7.
Definition RTA_DST : Z := 1.
Definition RTA_OIF : Z := 4.
Definition RTA_GATEWAY : Z := 5.
Definition RTA_PRIORITY : Z := 6.
Definition RTA_MULTIPATH : Z := 9.
Definition RTA_CACHEINFO : Z := 12.
Definition RTA_TABLE : Z := 15.
Definition kRouteAttributePreference : Z := 20.
Definition FRA_PRIORITY : Z := 6.
Definition FRA_FWMARK : Z := 10.
Definition kRuleAttributeSuppressIfgroup : Z := 13.
Definition kRuleAttributeSuppressPrefix : Z := 14.
Definition FRA_TABLE : Z := 15.
Definition FRA_FWMASK : Z := 16.
Definition kRuleAttributeProtocol : Z := 21.
Definition FR_ACT_TO_TBL : Z := 1.
Definition NLMSG_NOOP : Z := 1.
Definition NLMSG_ERROR : Z := 2.
Definition NLMSG_DONE : Z := 3.
Definition NLMSG_OVERRUN : Z := 4.
Definition RTM_NEWROUTE : Z := 24.
Definition RTM_NEWRULE : Z := 32.
Definition kDumpInterruptedFlag : Z := 16.
Definition kNetlinkAttributeTypeMask : Z := 0x3fff.
Definition ENOBUFS : Z := 105.

(** ** Attributes *)

(** [struct AttributeView] *)
Record AttributeView := {
  av_type : Z;
  av_has_type_flags : bool;
  av_payload : list Z;
  av_payload_size : Z;
}.

Section Codec.
Context `{Inet}.
Context (order : ByteOrder).

(** The loop of [visit_attributes] from the pointer [bytes + offset], [remaining]
    being [size - offset]. The visitor's captured variables are its state; [None]
    is [false]. *)
Fixpoint visit_loop {St} (visitor : St → AttributeView → result CodecFault (option St))
    (fuel : nat) (p : list Z) (remaining : Z) (s : St) : result CodecFault (option St) :=
  if remaining <=? 0 then Ok (Some s)
  else
    match fuel with
    | O => Throw OutOfFuel
    | S fuel =>
        if remaining <? 4 then Ok None
        else
          let! header := fetch 4 p in
          let rta_len := at_offset order 0 2 header in
          let rta_type := at_offset order 2 2 header in
          if (rta_len <? 4) || (remaining <? rta_len) then Ok None
          else
            let! visited := visitor s
              {| av_type := Z.land rta_type kNetlinkAttributeTypeMask;
                 av_has_type_flags := negb (Z.land rta_type (u32_max - kNetlinkAttributeTypeMask) =? 0);
                 av_payload := drop 4 p; av_payload_size := rta_len - 4 |} in
            match visited with
            | None => Ok None
            | Some s =>
                let aligned := align4 rta_len in
                if remaining <? aligned
                then if negb (rta_len =? remaining) then Ok None else Ok (Some s)
                else visit_loop visitor fuel (drop (Z.to_nat aligned) p) (remaining - aligned) s
            end
    end.

Definition visit_attributes {St} (visitor : St → AttributeView → result CodecFault (option St))
    (p : list Z) (size : Z) (s : St) : result CodecFault (option St) :=
  visit_loop visitor (Z.to_nat size) p size s.

(** [read_scalar] for an unsigned integer of [n] bytes. *)
Definition read_scalar (n : nat) (a : AttributeView) : result CodecFault (option Z) :=
  if negb (av_payload_size a =? Z.of_nat n) then Ok None
  else let! bs := fetch n (av_payload a) in Ok (Some (number order bs)).

Definition address_string (family : Z) (a : AttributeView) : result CodecFault (option string) :=
  if family =? AF_INET then
    if negb (av_payload_size a =? 4) then Ok None
    else let! bs := fetch 4 (av_payload a) in Ok (inet_ntop AF_INET bs)
  else if family =? AF_INET6 then
    if negb (av_payload_size a =? 16) then Ok None
    else let! bs := fetch 16 (av_payload a) in Ok (inet_ntop AF_INET6 bs)
  else Ok None.

(** [struct RawRtnetlinkDumpOptions]; a null table, and null names inside one, are
    [None]. *)
Record DumpOptions := {
  do_sequence : Z;
  do_port_id : Z;
  do_interface_names : option (list (Z * option string));
}.

(** [interface_name]: the name and whether it is unambiguous. *)
Definition interface_name (index : Z) (options : DumpOptions) : option string * bool :=
  match do_interface_names options with
  | None => (None, false)
  | Some names =>
      if index =? 0 then (None, false)
      else
        let '(found, unambiguous) := fold_left (λ '(found, unambiguous) '(i, name),
          if negb (i =? index) then (found, unambiguous)
          else match name, found with
               | Some n, None => if empty_str n then (found, false) else (Some n, unambiguous)
               | _, _ => (found, false)
               end) names (None, true) in
        (found, match found with None => false | Some _ => unambiguous end)
  end.

(** ** Routes *)

(** [struct rtmsg] *)
Record RtMsg := {
  rtm_family : Z; rtm_dst_len : Z; rtm_src_len : Z; rtm_tos : Z; rtm_table : Z;
  rtm_protocol : Z; rtm_scope : Z; rtm_type : Z; rtm_flags : Z;
}.

Definition rtmsg_of (bs : list Z) : RtMsg :=
  {| rtm_family := at_offset order 0 1 bs; rtm_dst_len := at_offset order 1 1 bs;
     rtm_src_len := at_offset order 2 1 bs; rtm_tos := at_offset order 3 1 bs;
     rtm_table := at_offset order 4 1 bs; rtm_protocol := at_offset order 5 1 bs;
     rtm_scope := at_offset order 6 1 bs; rtm_type := at_offset order 7 1 bs;
     rtm_flags := at_offset order 8 4 bs |}.

(** The variables the visitor of [decode_route] assigns. The [saw_*] flags are the
    set of the attribute types whose flag is set. *)
Record RouteScan := {
  rs_destination : string;
  rs_interface : option string;
  rs_gateway : option string;
  rs_metric : Z;
  rs_exact : bool;
  rs_saw : gset Z;
  rs_table_attribute : Z;
}.

(** [saw_x = true], and the exactness if it was not set before and [ok]. *)
Definition rs_once (t : Z) (ok : bool) (s : RouteScan) : RouteScan :=
  {| rs_destination := rs_destination s; rs_interface := rs_interface s;
     rs_gateway := rs_gateway s; rs_metric := rs_metric s;
     rs_exact := rs_exact s && negb (bool_decide (t ∈ rs_saw s)) && ok;
     rs_saw := {[t]} ∪ rs_saw s; rs_table_attribute := rs_table_attribute s |}.
Definition rs_inexact (s : RouteScan) : RouteScan :=
  {| rs_destination := rs_destination s; rs_interface := rs_interface s;
     rs_gateway := rs_gateway s; rs_metric := rs_metric s; rs_exact := false;
     rs_saw := rs_saw s; rs_table_attribute := rs_table_attribute s |}.
Definition rs_set (destination : string) (interface gateway : option string) (metric table : Z)
    (s : RouteScan) : RouteScan :=
  {| rs_destination := destination; rs_interface := interface; rs_gateway := gateway;
     rs_metric := metric; rs_exact := rs_exact s; rs_saw := rs_saw s;
     rs_table_attribute := table |}.

(** [map] under a value that may be missing. *)
Definition on_some {A B} (x : result CodecFault (option A)) (f : A → B)
    : result CodecFault (option B) :=
  let! v := x in Ok (f <$> v).

Definition route_visitor (m : RtMsg) (options : DumpOptions) (s0 : RouteScan) (a : AttributeView)
    : result CodecFault (option RouteScan) :=
  let s := if av_has_type_flags a then rs_inexact s0 else s0 in
  let t := av_type a in
  if t =? RTA_DST then
    on_some (address_string (rtm_family m) a) (λ address,
      rs_set (if rtm_dst_len m =? 0 then "default"
              else address +:+ String "/" (to_string (rtm_dst_len m)))
        (rs_interface s) (rs_gateway s) (rs_metric s) (rs_table_attribute s) (rs_once t true s))
  else if t =? RTA_TABLE then
    on_some (read_scalar 4 a) (λ value,
      rs_set (rs_destination s) (rs_interface s) (rs_gateway s) (rs_metric s) value (rs_once t true s))
  else if t =? RTA_OIF then
    on_some (read_scalar 4 a) (λ value,
      let '(name, unambiguous) := interface_name value options in
      rs_set (rs_destination s) name (rs_gateway s) (rs_metric s) (rs_table_attribute s)
        (rs_once t unambiguous s))
  else if t =? RTA_GATEWAY then
    on_some (address_string (rtm_family m) a) (λ gateway,
      rs_set (rs_destination s) (rs_interface s) (Some gateway) (rs_metric s)
        (rs_table_attribute s) (rs_once t true s))
  else if t =? RTA_PRIORITY then
    on_some (read_scalar 4 a) (λ value,
      rs_set (rs_destination s) (rs_interface s) (rs_gateway s) value (rs_table_attribute s)
        (rs_once t true s))
  else if t =? RTA_MULTIPATH then Ok (Some (rs_once t false s))
  else if t =? RTA_CACHEINFO then Ok (Some (rs_once t (av_payload_size a =? 32) s))
  else if t =? kRouteAttributePreference then
    on_some (read_scalar 1 a) (λ preference, rs_once t (preference =? 0) s)
  else Ok (Some (rs_inexact s)).

Definition is_ip_family (family : Z) : bool := (family =? AF_INET) || (family =? AF_INET6).

(** The fields before the attributes. *)
Definition route_scan_start (m : RtMsg) : RouteScan :=
  {| rs_destination := if rtm_dst_len m =? 0 then "default" else EmptyString;
     rs_interface := None; rs_gateway := None; rs_metric := 0;
     rs_exact := is_ip_family (rtm_family m)
       && ((rtm_type m =? RTN_UNICAST) || (rtm_type m =? RTN_BLACKHOLE)
           || (rtm_type m =? RTN_UNREACHABLE))
       && (rtm_src_len m =? 0) && (rtm_tos m =? 0) && (rtm_scope m =? 0) && (rtm_flags m =? 0);
     rs_saw := ∅; rs_table_attribute := 0 |}.

(** The checks behind the attributes. *)
Definition route_of_scan (m : RtMsg) (s : RouteScan) : DumpedRoute :=
  let saw t := bool_decide (t ∈ rs_saw s) in
  let blackhole := rtm_type m =? RTN_BLACKHOLE in
  let unreachable := rtm_type m =? RTN_UNREACHABLE in
  let table_exact :=
    if saw RTA_TABLE then (rtm_table m =? 0) || (rtm_table m =? rs_table_attribute s)
    else negb (rtm_table m =? 0) in
  let destination_exact := (rtm_dst_len m =? 0) || saw RTA_DST in
  let nexthop_exact :=
    negb ((rtm_type m =? RTN_UNICAST)
          && (saw RTA_MULTIPATH || (negb (saw RTA_OIF) && negb (saw RTA_GATEWAY)))) in
  let kernel_loopback :=
    (blackhole || unreachable) && (rtm_family m =? AF_INET6)
    && opt_eqb (rs_interface s) (Some "lo"%string)
    && negb (saw RTA_GATEWAY) && negb (saw RTA_MULTIPATH) in
  let reject_exact :=
    negb ((blackhole || unreachable)
          && ((saw RTA_OIF && negb kernel_loopback) || saw RTA_GATEWAY || saw RTA_MULTIPATH)) in
  {| dr_destination := rs_destination s;
     dr_table := if saw RTA_TABLE then rs_table_attribute s else rtm_table m;
     dr_interface := if kernel_loopback then None else rs_interface s;
     dr_gateway := rs_gateway s; dr_blackhole := blackhole; dr_unreachable := unreachable;
     dr_family := rtm_family m; dr_metric := rs_metric s; dr_protocol := rtm_protocol m;
     dr_exact_identity_representable :=
       rs_exact s && table_exact && destination_exact && nexthop_exact && reject_exact |}.

Definition decode_route (options : DumpOptions) (payload : list Z) (payload_size : Z)
    : result CodecFault (option DumpedRoute) :=
  if payload_size <? 12 then Ok None
  else
    let! header := fetch 12 payload in
    let m := rtmsg_of header in
    if ((rtm_family m =? AF_INET) && (32 <? rtm_dst_len m))
       || ((rtm_family m =? AF_INET6) && (128 <? rtm_dst_len m)) then Ok None
    else
      on_some (visit_attributes (route_visitor m options) (drop 12 payload) (payload_size - 12)
                 (route_scan_start m)) (route_of_scan m).

(** ** Rules *)

(** [struct fib_rule_hdr] *)
Record FibRuleHdr := {
  fr_family : Z; fr_dst_len : Z; fr_src_len : Z; fr_tos : Z; fr_table : Z;
  fr_res1 : Z; fr_res2 : Z; fr_action : Z; fr_flags : Z;
}.

Definition fib_rule_hdr_of (bs : list Z) : FibRuleHdr :=
  {| fr_family := at_offset order 0 1 bs; fr_dst_len := at_offset order 1 1 bs;
     fr_src_len := at_offset order 2 1 bs; fr_tos := at_offset order 3 1 bs;
     fr_table := at_offset order 4 1 bs; fr_res1 := at_offset order 5 1 bs;
     fr_res2 := at_offset order 6 1 bs; fr_action := at_offset order 7 1 bs;
     fr_flags := at_offset order 8 4 bs |}.

Record RuleScan := {
  us_priority : Z;
  us_fwmark : Z;
  us_fwmask : Z;
  us_exact : bool;
  us_saw : gset Z;
  us_table_attribute : Z;
}.

Definition us_once (t : Z) (ok : bool) (s : RuleScan) : RuleScan :=
  {| us_priority := us_priority s; us_fwmark := us_fwmark s; us_fwmask := us_fwmask s;
     us_exact := us_exact s && negb (bool_decide (t ∈ us_saw s)) && ok;
     us_saw := {[t]} ∪ us_saw s; us_table_attribute := us_table_attribute s |}.
Definition us_inexact (s : RuleScan) : RuleScan :=
  {| us_priority := us_priority s; us_fwmark := us_fwmark s; us_fwmask := us_fwmask s;
     us_exact := false; us_saw := us_saw s; us_table_attribute := us_table_attribute s |}.
Definition us_set (priority fwmark fwmask table : Z) (s : RuleScan) : RuleScan :=
  {| us_priority := priority; us_fwmark := fwmark; us_fwmask := fwmask; us_exact := us_exact s;
     us_saw := us_saw s; us_table_attribute := table |}.

Definition rule_visitor (s0 : RuleScan) (a : AttributeView) : result CodecFault (option RuleScan) :=
  let s := if av_has_type_flags a then us_inexact s0 else s0 in
  let t := av_type a in
  if t =? FRA_PRIORITY then
    on_some (read_scalar 4 a) (λ value,
      us_set value (us_fwmark s) (us_fwmask s) (us_table_attribute s) (us_once t true s))
  else if t =? FRA_FWMARK then
    on_some (read_scalar 4 a) (λ value,
      us_set (us_priority s) value (us_fwmask s) (us_table_attribute s) (us_once t true s))
  else if t =? FRA_FWMASK then
    on_some (read_scalar 4 a) (λ value,
      us_set (us_priority s) (us_fwmark s) value (us_table_attribute s) (us_once t true s))
  else if t =? FRA_TABLE then
    on_some (read_scalar 4 a) (λ value,
      us_set (us_priority s) (us_fwmark s) (us_fwmask s) value (us_once t true s))
  else if (t =? kRuleAttributeSuppressIfgroup) || (t =? kRuleAttributeSuppressPrefix) then
    on_some (read_scalar 4 a) (λ value, us_once t (value =? u32_max) s)
  else if t =? kRuleAttributeProtocol then
    on_some (read_scalar 1 a) (λ value, us_once t (value =? 0) s)
  else Ok (Some (us_inexact s)).

Definition rule_scan_start (m : FibRuleHdr) : RuleScan :=
  {| us_priority := 0; us_fwmark := 0; us_fwmask := 0;
     us_exact := is_ip_family (fr_family m) && (fr_dst_len m =? 0) && (fr_src_len m =? 0)
       && (fr_tos m =? 0) && (fr_res1 m =? 0) && (fr_res2 m =? 0)
       && (fr_action m =? FR_ACT_TO_TBL) && (fr_flags m =? 0);
     us_saw := ∅; us_table_attribute := 0 |}.

Definition rule_of_scan (m : FibRuleHdr) (s : RuleScan) : DumpedRule :=
  let saw t := bool_decide (t ∈ us_saw s) in
  let table_exact :=
    if saw FRA_TABLE then (fr_table m =? 0) || (fr_table m =? us_table_attribute s)
    else negb (fr_table m =? 0) in
  {| du_priority := us_priority s; du_fwmark := us_fwmark s;
     du_fwmask := if saw FRA_FWMASK then us_fwmask s else if saw FRA_FWMARK then u32_max else 0;
     du_table := if saw FRA_TABLE then us_table_attribute s else fr_table m;
     du_family := fr_family m;
     du_exact_identity_representable := us_exact s && table_exact |}.

Definition decode_rule (payload : list Z) (payload_size : Z) : result CodecFault (option DumpedRule) :=
  if payload_size <? 12 then Ok None
  else
    let! header := fetch 12 payload in
    let m := fib_rule_hdr_of header in
    on_some (visit_attributes rule_visitor (drop 12 payload) (payload_size - 12)
               (rule_scan_start m)) (rule_of_scan m).

(** ** Blocks *)

(** [enum class RawRtnetlinkDumpState] *)
Inductive DumpState :=
| DumpMore | DumpDone | DumpKernelError | DumpMalformed | DumpSequenceMismatch
| DumpPortIdMismatch | DumpUnexpectedMessage | DumpInterrupted.

(** [struct RawRtnetlinkRouteDumpBlock] and [struct RawRtnetlinkRuleDumpBlock] *)
Record DumpBlock (A : Type) := {
  db_state : DumpState;
  db_kernel_error : Z;
  db_objects : list A;
}.
Arguments db_state {A}. Arguments db_kernel_error {A}. Arguments db_objects {A}.

(** The returns behind [clear(result)]. *)
Definition failed_block {A} (state : DumpState) (kernel_error : Z) : DumpBlock A :=
  {| db_state := state; db_kernel_error := kernel_error; db_objects := [] |}.

Section Block.
Context {A : Type} (options : DumpOptions) (expected_type : Z).
(** [decode] and [append] of the source: [None] is a malformed message, [Some None] a
    message without an object. *)
Context (decode : list Z → Z → result CodecFault (option (option A))).

(** The loop of [parse_dump_block] from [input + offset]. *)
Fixpoint block_loop (fuel : nat) (p : list Z) (remaining : Z) (objects : list A)
    : result CodecFault (DumpBlock A) :=
  if remaining <=? 0
  then Ok {| db_state := DumpMore; db_kernel_error := 0; db_objects := objects |}
  else
    match fuel with
    | O => Throw OutOfFuel
    | S fuel =>
        if remaining <? 16 then Ok (failed_block DumpMalformed 0)
        else
          let! header := fetch 16 p in
          let nlmsg_len := at_offset order 0 4 header in
          let nlmsg_type := at_offset order 4 2 header in
          if (nlmsg_len <? 16) || (remaining <? nlmsg_len)
          then Ok (failed_block DumpMalformed 0)
          else if negb (at_offset order 8 4 header =? do_sequence options)
          then Ok (failed_block DumpSequenceMismatch 0)
          else if negb (at_offset order 12 4 header =? do_port_id options)
          then Ok (failed_block DumpPortIdMismatch 0)
          else if negb (Z.land (at_offset order 6 2 header) kDumpInterruptedFlag =? 0)
          then Ok (failed_block DumpInterrupted 0)
          else
            let payload := drop 16 p in
            let payload_size := nlmsg_len - 16 in
            let aligned := align4 nlmsg_len in
            let step :=
              if aligned <=? remaining then Some aligned
              else if nlmsg_len =? remaining then Some remaining else None in
            match step with
            | None => Ok (failed_block DumpMalformed 0)
            | Some step =>
                let continue objects :=
                  block_loop fuel (drop (Z.to_nat step) p) (remaining - step) objects in
                if nlmsg_type =? NLMSG_ERROR then
                  if payload_size <? 20 then Ok (failed_block DumpMalformed 0)
                  else
                    let! error := fetch 20 payload in
                    let error := int32 (at_offset order 0 4 error) in
                    if negb (error =? 0) then Ok (failed_block DumpKernelError error)
                    else continue objects
                else if nlmsg_type =? NLMSG_DONE then
                  if negb (payload_size =? 0) && negb (payload_size =? 4)
                  then Ok (failed_block DumpMalformed 0)
                  else
                    let! error :=
                      (if payload_size =? 4
                       then let! bs := fetch 4 payload in Ok (int32 (number order bs))
                       else Ok 0) in
                    if negb (error =? 0) then Ok (failed_block DumpKernelError error)
                    else if negb (remaining - step =? 0) then Ok (failed_block DumpMalformed 0)
                    else Ok {| db_state := DumpDone; db_kernel_error := 0; db_objects := objects |}
                else if nlmsg_type =? NLMSG_OVERRUN then Ok (failed_block DumpKernelError (- ENOBUFS))
                else if negb (nlmsg_type =? NLMSG_NOOP) then
                  if negb (nlmsg_type =? expected_type)
                  then Ok (failed_block DumpUnexpectedMessage 0)
                  else
                    let! decoded := decode payload payload_size in
                    match decoded with
                    | None => Ok (failed_block DumpMalformed 0)
                    | Some object => continue (objects ++ option_list object)
                    end
                else continue objects
            end
    end.

(** A null pointer is [None]. *)
Definition parse_dump_block (bytes : option (list Z)) (size : Z) : result CodecFault (DumpBlock A) :=
  match bytes with
  | None => Ok (failed_block DumpMalformed 0)
  | Some p =>
      if size <? 16 then Ok (failed_block DumpMalformed 0)
      else block_loop (Z.to_nat size) p size []
  end.
End Block.

(** The [decode] of the route dump: multicast inventories are only checked for their
    framing. *)
Definition decode_route_message (options : DumpOptions) (payload : list Z) (payload_size : Z)
    : result CodecFault (option (option DumpedRoute)) :=
  if payload_size <? 12 then Ok None
  else
    let! header := fetch 12 payload in
    if negb (is_ip_family (rtm_family (rtmsg_of header))) then
      on_some (visit_attributes (λ (_ : unit) _, Ok (Some ())) (drop 12 payload)
                 (payload_size - 12) ()) (λ _, None)
    else on_some (decode_route options payload payload_size) Some.

Definition parse_raw_rtnetlink_route_dump_block (bytes : option (list Z)) (size : Z)
    (options : DumpOptions) : result CodecFault (DumpBlock DumpedRoute) :=
  parse_dump_block options RTM_NEWROUTE (decode_route_message options) bytes size.

Definition parse_raw_rtnetlink_rule_dump_block (bytes : option (list Z)) (size : Z)
    (options : DumpOptions) : result CodecFault (DumpBlock DumpedRule) :=
  parse_dump_block options RTM_NEWRULE (λ p n, on_some (decode_rule p n) Some) bytes size.

(** ** The receive loops *)

(** What [recvmsg] on the dump socket does: it is interrupted, it fails, or it
    delivers a datagram with its truncation flag, the validity of the sender's
    address and the sender's port. *)
Inductive Received :=
| RecvInterrupted
| RecvFailed
| RecvDatagram (truncated name_valid : bool) (sender_pid : Z) (bytes : list Z).

Inductive DumpError := DumpDidNotComplete | DumpFailed (state : DumpState) (kernel_error : Z)
                     | DumpTimedOut | DumpTimeoutNotSet | DumpExceedsRowLimit | DumpFault (f : CodecFault).

(** One pass of the loop behind [recvmsg]: the block that was received. *)
Definition receive_block {A} (parse : list Z → result CodecFault (DumpBlock A))
    (truncated name_valid : bool) (sender_pid : Z) (bytes : list Z)
    : result DumpError (DumpBlock A) :=
  if (length bytes =? 0)%nat || truncated || negb name_valid || negb (sender_pid =? 0)
  then Throw DumpDidNotComplete
  else
    match parse bytes with
    | Throw f => Throw (DumpFault f)
    | Ok block =>
        match db_state block with
        | DumpMore | DumpDone => Ok block
        | state => Throw (DumpFailed state (db_kernel_error block))
        end
    end.

Definition is_done (state : DumpState) : bool := match state with DumpDone => true | _ => false end.

(** [dump_raw_routes] behind the request; [None]: still waiting for the kernel. *)
Fixpoint dump_raw_routes (options : DumpOptions) (received : list Received)
    (dumped : list DumpedRoute) : option (result DumpError (list DumpedRoute)) :=
  match received with
  | [] => None
  | RecvInterrupted :: received => dump_raw_routes options received dumped
  | RecvFailed :: _ => Some (Throw DumpDidNotComplete)
  | RecvDatagram truncated name_valid sender bytes :: received =>
      match receive_block (λ b, parse_raw_rtnetlink_route_dump_block (Some b)
                                  (Z.of_nat (length b)) options) truncated name_valid sender bytes with
      | Throw e => Some (Throw e)
      | Ok block =>
          let dumped := dumped ++ db_objects block in
          if is_done (db_state block) then Some (Ok dumped)
          else dump_raw_routes options received dumped
      end
  end.

(** One pass of [dump_raw_rules] with limits: the microseconds left before the call,
    whether the timeout could be set, what was received, whether the deadline had
    passed by then. *)
Record LimitedReceive := {
  lr_remaining : Z;
  lr_timeout_set : bool;
  lr_received : Received;
  lr_expired : bool;
}.

(** [dump_raw_rules]; [maximum_rules] is [None] without limits. *)
Fixpoint dump_raw_rules (options : DumpOptions) (maximum_rules : option nat)
    (passes : list LimitedReceive) (dumped : list DumpedRule)
    : option (result DumpError (list DumpedRule)) :=
  match passes with
  | [] => None
  | pass :: passes =>
      let limited := bool_decide (is_Some maximum_rules) in
      if limited && (lr_remaining pass <=? 0) then Some (Throw DumpTimedOut)
      else if limited && negb (lr_timeout_set pass) then Some (Throw DumpTimeoutNotSet)
      else
        match lr_received pass with
        | RecvInterrupted => dump_raw_rules options maximum_rules passes dumped
        | RecvFailed => Some (Throw DumpDidNotComplete)
        | RecvDatagram truncated name_valid sender bytes =>
            match receive_block (λ b, parse_raw_rtnetlink_rule_dump_block (Some b)
                    (Z.of_nat (length b)) options) truncated name_valid sender bytes with
            | Throw e => Some (Throw e)
            | Ok block =>
                if limited && lr_expired pass then Some (Throw DumpTimedOut)
                else if match maximum_rules with
                        | Some maximum => (maximum - length dumped <? length (db_objects block))%nat
                        | None => false
                        end
                then Some (Throw DumpExceedsRowLimit)
                else
                  let dumped := dumped ++ db_objects block in
                  if is_done (db_state block) then Some (Ok dumped)
                  else dump_raw_rules options maximum_rules passes dumped
            end
        end
  end.
End Codec.

Arguments db_state {A}. Arguments db_kernel_error {A}. Arguments db_objects {A}.
