(* ===== verification/RtnetlinkFraming.v ===== *)
(** * Framing of rtnetlink dumps

    Every copy the decoder makes lies inside the receive buffer and every loop ends;
    a block that is not complete and consistent carries no objects; dumps are
    built from complete blocks of the kernel only. *)

From Stdlib Require Import ZArith Lia Ascii String.
From stdpp Require Import base gmap strings list.
From S2P Require Import Prelude ConfigTypes RoutingPlan KernelRoutes ListParser StateError.
From S2P Require Import RouteTable PolicyRules RtnetlinkCodec.
Open Scope Z_scope.

(** ** Bytes and numbers *)

Lemma le_value_bounds bs : Forall is_byte bs → 0 ≤ le_value bs < 256 ^ Z.of_nat (length bs).
Proof.
  induction 1 as [|b bs Hb _ IH]; simpl; [lia|].
  rewrite Nat2Z.inj_succ, Z.pow_succ_r by lia. unfold is_byte in Hb. lia.
Qed.

Lemma number_bounds order bs : Forall is_byte bs → 0 ≤ number order bs < 256 ^ Z.of_nat (length bs).
Proof.
  intros Hb. destruct order; simpl; [by apply le_value_bounds|].
  rewrite <- length_rev. apply le_value_bounds. apply List.Forall_rev. exact Hb.
Qed.

Lemma at_offset_bounds order offset width bs :
  Forall is_byte bs → 0 ≤ at_offset order offset width bs < 256 ^ Z.of_nat width.
Proof.
  intros Hb. unfold at_offset.
  assert (Forall is_byte (take width (drop offset bs))) as Hs by by apply Forall_take, Forall_drop.
  pose proof (number_bounds order _ Hs) as Hn.
  assert (256 ^ Z.of_nat (length (take width (drop offset bs))) ≤ 256 ^ Z.of_nat width).
  { apply Z.pow_le_mono_r; [lia|]. rewrite length_take. lia. }
  lia.
Qed.

Lemma fetch_in_bounds n p : (n ≤ length p)%nat → fetch n p = Ok (take n p).
Proof. intros Hn. unfold fetch. by destruct (Nat.leb_spec n (length p)); [|lia]. Qed.

(** Rounding up to a multiple of four. *)
Lemma align4_spec len : 0 ≤ len < 2 ^ 32 - 3 → align4 len = 4 * ((len + 3) / 4).
Proof.
  intros Hl. unfold align4, u32, wrap, u32_max. rewrite Z.mod_small by lia.
  change (4294967295 - 3) with (Z.shiftl (Z.ones 30) 2).
  pose proof (Z.div_mod (len + 3) 4 ltac:(lia)) as Heq.
  set (q := (len + 3) / 4) in *. set (r := (len + 3) mod 4) in *.
  assert (0 ≤ r < 4) as Hr by by apply Z.mod_pos_bound.
  assert (0 ≤ q < 2 ^ 30) as Hq.
  { unfold q. split; [apply Z.div_pos; lia|]. apply Z.div_lt_upper_bound; lia. }
  clearbody q r. rewrite Heq. apply Z.bits_inj'. intros i Hi. rewrite Z.land_spec, Z.shiftl_spec by done.
  replace (4 * q) with (q * 2 ^ 2) by lia.
  destruct (Z.ltb_spec i 2) as [Hi2|Hi2].
  - rewrite (Z.testbit_neg_r _ (i - 2)) by lia. rewrite andb_false_r.
    by rewrite Z.mul_pow2_bits_low.
  - rewrite Z.mul_pow2_bits by lia.
    replace (q * 2 ^ 2 + r) with (r + q * 2 ^ 2) by lia.
    rewrite <- (Z.sub_add 2 i) at 1. rewrite <- Z.shiftr_spec by lia. rewrite Z.shiftr_div_pow2 by lia.
    rewrite Z.div_add by lia. rewrite Z.div_small by (simpl; lia). rewrite Z.add_0_l.
    destruct (Z.ltb_spec (i - 2) 30) as [Hs|Hs].
    + rewrite Z.ones_spec_low by lia. apply andb_true_r.
    + rewrite Z.ones_spec_high by lia. rewrite andb_false_r. symmetry.
      apply Z.bits_above_log2; [lia|]. destruct (Z.eq_dec q 0) as [->|Hn]; [simpl; lia|].
      apply Z.log2_lt_pow2; [lia|]. assert (2 ^ 30 ≤ 2 ^ (i - 2)) by (apply Z.pow_le_mono_r; lia). lia.
Qed.

Lemma align4_bounds len : 0 ≤ len < 2 ^ 32 - 3 → len ≤ align4 len < len + 4.
Proof.
  intros Hl. rewrite align4_spec by done.
  pose proof (Z.div_mod (len + 3) 4 ltac:(lia)). pose proof (Z.mod_pos_bound (len + 3) 4 ltac:(lia)). lia.
Qed.

(** ** Loops stay inside the buffer *)

(** A pointer to [size] readable bytes. *)
Definition readable (p : list Z) (size : Z) : Prop :=
  0 ≤ size ≤ Z.of_nat (length p) ∧ Forall is_byte p.

Lemma readable_fetch p size (n : nat) : readable p size → Z.of_nat n ≤ size → fetch n p = Ok (take n p).
Proof. intros [Hs _] Hn. apply fetch_in_bounds. lia. Qed.

Lemma readable_header order p size (n offset width : nat) :
  readable p size → 0 ≤ at_offset order offset width (take n p) < 256 ^ Z.of_nat width.
Proof. intros [_ Hb]. apply at_offset_bounds. by apply Forall_take. Qed.

Lemma readable_drop p size (n : nat) size' :
  readable p size → 0 ≤ size' ≤ size - Z.of_nat n → readable (drop n p) size'.
Proof. intros [Hs Hb] Hs'. split; [rewrite length_drop; lia|by apply Forall_drop]. Qed.

Section Framing.
Context `{Inet} (order : ByteOrder).

Definition attribute_readable (a : AttributeView) : Prop := readable (av_payload a) (av_payload_size a).

Definition safe_visitor {St} (visitor : St → AttributeView → result CodecFault (option St)) : Prop :=
  ∀ s a, attribute_readable a → is_ok (visitor s a) = true.

Lemma visit_loop_safe {St} (visitor : St → AttributeView → result CodecFault (option St)) fuel p remaining s :
  safe_visitor visitor → readable p remaining → remaining ≤ Z.of_nat fuel →
  is_ok (visit_loop order visitor fuel p remaining s) = true.
Proof.
  intros Hv. revert p remaining s. induction fuel as [|fuel IH]; intros p remaining s Hp Hf; simpl.
  { destruct (Z.leb_spec remaining 0); [done|lia]. }
  destruct (Z.leb_spec remaining 0); [done|]. destruct (Z.ltb_spec remaining 4); [done|].
  rewrite (readable_fetch p remaining 4) by (done || lia). cbn [rbind].
  pose proof (readable_header order p remaining 4 0 2 Hp) as Hl. change (256 ^ Z.of_nat 2) with 65536 in Hl.
  set (len := at_offset order 0 2 (take 4 p)) in *. destruct (_ || _) eqn:Hc; [done|]. bool_to_prop.
  set (a := {| av_type := _ |}). assert (attribute_readable a) as Ha.
  { unfold attribute_readable, a. simpl. apply (readable_drop p remaining); [done|lia]. }
  specialize (Hv s a Ha). destruct (visitor s a) as [[s'|]|f]; [|done|done]. cbn [rbind].
  pose proof (align4_bounds len ltac:(lia)) as Hal. destruct (Z.ltb_spec remaining (align4 len)).
  - by case_match.
  - apply IH; [apply (readable_drop p remaining); [done|lia]|lia].
Qed.

Lemma visit_safe {St} (visitor : St → AttributeView → result CodecFault (option St)) p size s :
  safe_visitor visitor → readable p size → is_ok (visit_attributes order visitor p size s) = true.
Proof. intros Hv Hp. apply visit_loop_safe; [done|done|]. destruct Hp. lia. Qed.

Lemma read_scalar_safe n a : attribute_readable a → is_ok (read_scalar order n a) = true.
Proof.
  intros Ha. unfold read_scalar. destruct (negb _) eqn:Hs; [done|]. bool_to_prop.
  by rewrite (readable_fetch _ _ n Ha) by lia.
Qed.

Lemma address_safe family a : attribute_readable a → is_ok (address_string family a) = true.
Proof.
  intros Ha. unfold address_string.
  destruct (_ =? AF_INET); [|destruct (_ =? AF_INET6); [|done]]; destruct (negb _) eqn:Hs; try done;
    bool_to_prop; rewrite (readable_fetch _ _ _ Ha) by lia; done.
Qed.

Lemma on_some_safe {A B} (x : result CodecFault (option A)) (f : A → B) :
  is_ok x = true → is_ok (on_some x f) = true.
Proof. by destruct x. Qed.

Lemma route_visitor_safe m options : safe_visitor (route_visitor order m options).
Proof.
  intros s a Ha. unfold route_visitor.
  repeat (case_match; [by first [done|apply on_some_safe; first [by apply address_safe|by apply read_scalar_safe]]|]).
  done.
Qed.

Lemma rule_visitor_safe : safe_visitor (rule_visitor order).
Proof.
  intros s a Ha. unfold rule_visitor.
  repeat (case_match; [by apply on_some_safe, read_scalar_safe|]). done.
Qed.

Lemma decode_route_safe options payload size :
  readable payload size → is_ok (decode_route order options payload size) = true.
Proof.
  intros Hp. unfold decode_route. destruct (Z.ltb_spec size 12); [done|].
  rewrite (readable_fetch payload size 12) by (done || lia). cbn [rbind]. destruct (_ || _); [done|].
  apply on_some_safe, visit_safe; [apply route_visitor_safe|]. apply (readable_drop payload size); [done|lia].
Qed.

Lemma decode_rule_safe payload size :
  readable payload size → is_ok (decode_rule order payload size) = true.
Proof.
  intros Hp. unfold decode_rule. destruct (Z.ltb_spec size 12); [done|].
  rewrite (readable_fetch payload size 12) by (done || lia). cbn [rbind].
  apply on_some_safe, visit_safe; [apply rule_visitor_safe|]. apply (readable_drop payload size); [done|lia].
Qed.

Lemma decode_message_safe options payload size :
  readable payload size → is_ok (decode_route_message order options payload size) = true.
Proof.
  intros Hp. unfold decode_route_message. destruct (Z.ltb_spec size 12); [done|].
  rewrite (readable_fetch payload size 12) by (done || lia). cbn [rbind]. destruct (negb _).
  - apply on_some_safe, visit_safe; [by intros s a _|]. apply (readable_drop payload size); [done|lia].
  - apply on_some_safe. by apply decode_route_safe.
Qed.

(** ** Blocks *)

(** A block that is to be believed, or one without objects. *)
Definition fail_closed {A} (b : DumpBlock A) : Prop :=
  db_state b = DumpMore ∨ db_state b = DumpDone ∨ db_objects b = [].

Definition closed_result {A} (x : result CodecFault (DumpBlock A)) : Prop :=
  ∃ b, x = Ok b ∧ fail_closed b.

Lemma closed_failed {A} state error : closed_result (Ok (failed_block (A := A) state error)).
Proof. eexists. split; [done|]. by right; right. Qed.

(** The outermost test of the goal. *)
Ltac branch := match goal with |- closed_result (if ?b then _ else _) => destruct b end.

Lemma block_loop_closed {A} options expected_type (decode : list Z → Z → result CodecFault (option (option A)))
    fuel p remaining objects :
  (∀ payload size, readable payload size → is_ok (decode payload size) = true) →
  readable p remaining → remaining ≤ Z.of_nat fuel → remaining < 2 ^ 32 - 3 →
  closed_result (block_loop order options expected_type decode fuel p remaining objects).
Proof.
  intros Hd. revert p remaining objects. induction fuel as [|fuel IH]; intros p remaining objects Hp Hf Hb; simpl.
  { destruct (Z.leb_spec remaining 0); [|lia]. eexists. split; [done|]. by left. }
  destruct (Z.leb_spec remaining 0). { eexists. split; [done|]. by left. }
  destruct (Z.ltb_spec remaining 16); [apply closed_failed|].
  rewrite (readable_fetch p remaining 16) by (done || lia). cbn [rbind].
  pose proof (readable_header order p remaining 16 0 4 Hp) as Hl. change (256 ^ Z.of_nat 4) with 4294967296 in Hl.
  set (len := at_offset order 0 4 (take 16 p)) in *. destruct (_ || _) eqn:Hc; [apply closed_failed|]. bool_to_prop.
  do 3 (branch; [apply closed_failed|]).
  assert (readable (drop 16 p) (len - 16)) as Hpay by (apply (readable_drop p remaining); [done|lia]).
  pose proof (align4_bounds len ltac:(lia)) as Hal.
  destruct (if align4 len <=? remaining then _ else _) as [step|] eqn:Hstep; [|apply closed_failed].
  assert (16 ≤ step ≤ remaining) as Hs.
  { revert Hstep. destruct (Z.leb_spec (align4 len) remaining); [intros [= <-]; lia|].
    destruct (len =? remaining); [intros [= ->]; lia|done]. }
  assert (∀ objects, closed_result (block_loop order options expected_type decode fuel
    (drop (Z.to_nat step) p) (remaining - step) objects)) as Hnext.
  { intros objects'. apply IH; [apply (readable_drop p remaining); [done|lia]|lia|lia]. }
  destruct (_ =? NLMSG_ERROR).
  { destruct (Z.ltb_spec (len - 16) 20); [apply closed_failed|].
    rewrite (readable_fetch _ _ 20 Hpay) by lia. cbn [rbind]. branch; [apply closed_failed|apply Hnext]. }
  destruct (_ =? NLMSG_DONE).
  { branch; [apply closed_failed|].
    destruct (Z.eqb_spec (len - 16) 4).
    - rewrite (readable_fetch _ _ 4 Hpay) by lia. cbn [rbind]. branch; [apply closed_failed|].
      branch; [apply closed_failed|]. eexists. split; [done|]. by right; left.
    - cbn [rbind]. branch; [apply closed_failed|]. branch; [apply closed_failed|].
      eexists. split; [done|]. by right; left. }
  destruct (_ =? NLMSG_OVERRUN); [apply closed_failed|].
  destruct (negb (_ =? NLMSG_NOOP)); [|apply Hnext]. destruct (negb _); [apply closed_failed|].
  specialize (Hd _ _ Hpay). destruct (decode _ _) as [[object|]|f]; [|apply closed_failed|done].
  apply Hnext.
Qed.

Lemma parse_block_closed {A} options expected_type (decode : list Z → Z → result CodecFault (option (option A)))
    p :
  (∀ payload size, readable payload size → is_ok (decode payload size) = true) →
  Forall is_byte p → Z.of_nat (length p) < 2 ^ 32 - 3 →
  closed_result (parse_dump_block order options expected_type decode (Some p) (Z.of_nat (length p))).
Proof.
  intros Hd Hb Hl. unfold parse_dump_block. destruct (_ <? 16); [apply closed_failed|].
  apply block_loop_closed; [done| |lia|done]. split; [lia|done].
Qed.
End Framing.
