(* ===== verification/RtnetlinkWire.v ===== *)
(** * The wire format of rtnetlink dumps

    How Linux writes a dump: attributes and messages with their padding, in the
    byte order of the machine. Reading such bytes with the decoder of
    [RtnetlinkCodec] visits the attributes and messages that were written. *)

From Stdlib Require Import ZArith Lia Ascii String.
From stdpp Require Import base gmap strings list.
From S2P Require Import Prelude ConfigTypes RoutingPlan KernelRoutes ListParser StateError.
From S2P Require Import RouteTable PolicyRules RtnetlinkCodec RtnetlinkFraming.
Open Scope Z_scope.

(** ** Numbers *)

Fixpoint le_bytes (n : nat) (z : Z) : list Z :=
  match n with O => [] | S n => z mod 256 :: le_bytes n (z / 256) end.

Definition bytes_of (order : ByteOrder) (n : nat) (z : Z) : list Z :=
  match order with LittleEndian => le_bytes n z | BigEndian => rev (le_bytes n z) end.

Lemma le_bytes_length n z : length (le_bytes n z) = n.
Proof. revert z. induction n as [|n IH]; intros z; simpl; [done|]. by rewrite IH. Qed.

Lemma le_bytes_bytes n z : Forall is_byte (le_bytes n z).
Proof.
  revert z. induction n as [|n IH]; intros z; simpl; [by apply List.Forall_nil|].
  apply List.Forall_cons; [|apply IH]. apply Z.mod_pos_bound. lia.
Qed.

Lemma le_value_bytes n z : 0 ≤ z < 256 ^ Z.of_nat n → le_value (le_bytes n z) = z.
Proof.
  revert z. induction n as [|n IH]; intros z Hz; simpl le_bytes; simpl le_value; [simpl in Hz; lia|].
  rewrite Nat2Z.inj_succ, Z.pow_succ_r in Hz by lia. rewrite IH.
  - pose proof (Z.div_mod z 256 ltac:(lia)). lia.
  - split; [apply Z.div_pos; lia|]. apply Z.div_lt_upper_bound; lia.
Qed.

Section Wire.
Context `{Inet} (order : ByteOrder).

Lemma bytes_of_length n z : length (bytes_of order n z) = n.
Proof. destruct order; simpl; rewrite ?length_rev; apply le_bytes_length. Qed.

Lemma bytes_of_bytes n z : Forall is_byte (bytes_of order n z).
Proof. destruct order; simpl; [|apply List.Forall_rev]; apply le_bytes_bytes. Qed.

Lemma number_bytes_of n z : 0 ≤ z < 256 ^ Z.of_nat n → number order (bytes_of order n z) = z.
Proof. intros Hz. destruct order; simpl; rewrite ?rev_involutive; by apply le_value_bytes. Qed.

(** A field between what precedes it and what follows. *)
Lemma at_offset_app (offset width : nat) (a b c : list Z) :
  length a = offset → length b = width → at_offset order offset width (a ++ b ++ c) = number order b.
Proof. intros <- <-. unfold at_offset. by rewrite drop_app_length, take_app_length. Qed.

Lemma at_offset_field (offset width : nat) (a c : list Z) z :
  length a = offset → 0 ≤ z < 256 ^ Z.of_nat width →
  at_offset order offset width (a ++ bytes_of order width z ++ c) = z.
Proof. intros Ha Hz. rewrite at_offset_app by (done || apply bytes_of_length). by apply number_bytes_of. Qed.

(** ** Attributes *)

Definition pad (bs : list Z) : list Z :=
  bs ++ repeat 0 (Z.to_nat (align4 (Z.of_nat (length bs))) - length bs).

Lemma pad_length bs :
  Z.of_nat (length bs) < 2 ^ 32 - 3 → Z.of_nat (length (pad bs)) = align4 (Z.of_nat (length bs)).
Proof.
  intros Hl. pose proof (align4_bounds (Z.of_nat (length bs)) ltac:(lia)).
  unfold pad. rewrite length_app, repeat_length. lia.
Qed.

Lemma pad_bytes bs : Forall is_byte bs → Forall is_byte (pad bs).
Proof.
  intros Hb. apply Forall_app. split; [done|]. apply Forall_forall. intros x Hx.
  apply list_elem_of_In, repeat_spec in Hx as ->. unfold is_byte. lia.
Qed.

Definition Attribute : Type := Z * list Z.

Definition attribute_bytes (a : Attribute) : list Z :=
  pad (bytes_of order 2 (4 + Z.of_nat (length a.2)) ++ bytes_of order 2 a.1 ++ a.2).

Definition attribute_ok (a : Attribute) : Prop :=
  0 ≤ a.1 < 2 ^ 14 ∧ 4 + Z.of_nat (length a.2) < 65536 ∧ Forall is_byte a.2.

(** The visitor takes the attribute, whatever lies behind its payload. *)
Definition handles {St} (visitor : St → AttributeView → result CodecFault (option St))
    (s : St) (a : Attribute) (s' : St) : Prop :=
  ∀ junk, visitor s {| av_type := a.1; av_has_type_flags := false; av_payload := a.2 ++ junk;
                       av_payload_size := Z.of_nat (length a.2) |} = Ok (Some s').

Inductive handles_all {St} (visitor : St → AttributeView → result CodecFault (option St))
    : St → list Attribute → St → Prop :=
| handles_nil s : handles_all visitor s [] s
| handles_cons s a s1 l s2 :
    handles visitor s a s1 → handles_all visitor s1 l s2 → handles_all visitor s (a :: l) s2.

Definition attributes_bytes (l : list Attribute) : list Z := concat (attribute_bytes <$> l).

Lemma attribute_type_plain t : 0 ≤ t < 2 ^ 14 →
  Z.land t kNetlinkAttributeTypeMask = t ∧ Z.land t (u32_max - kNetlinkAttributeTypeMask) = 0.
Proof.
  intros Ht. unfold kNetlinkAttributeTypeMask, u32_max.
  change 0x3fff with (Z.ones 14). rewrite Z.land_ones by lia. split; [by apply Z.mod_small|].
  change (4294967295 - Z.ones 14) with (Z.shiftl (Z.ones 18) 14).
  apply Z.bits_inj'. intros i Hi. rewrite Z.land_spec, Z.bits_0, Z.shiftl_spec by done.
  destruct (Z.ltb_spec i 14) as [Hl|Hl].
  - rewrite (Z.testbit_neg_r _ (i - 14)) by lia. apply andb_false_r.
  - rewrite andb_false_iff. left. destruct (Z.eq_dec t 0) as [->|Hn]; [apply Z.bits_0|].
    apply Z.bits_above_log2; [lia|]. apply Z.log2_lt_pow2; [lia|].
    assert (2 ^ 14 ≤ 2 ^ i) by (apply Z.pow_le_mono_r; lia). lia.
Qed.

Lemma attribute_bytes_length a :
  attribute_ok a →
  Z.of_nat (length (attribute_bytes a)) = align4 (4 + Z.of_nat (length a.2)).
Proof.
  intros (_ & Hl & _). unfold attribute_bytes. rewrite pad_length; rewrite !length_app, !bytes_of_length; [f_equal; lia|lia].
Qed.

(** The parts of a written attribute, with what follows it. *)
Lemma attribute_split a rest :
  attribute_bytes a ++ rest
  = (bytes_of order 2 (4 + Z.of_nat (length a.2)) ++ bytes_of order 2 a.1)
    ++ a.2 ++ drop (4 + length a.2) (attribute_bytes a) ++ rest.
Proof.
  unfold attribute_bytes, pad.
  set (h := bytes_of order 2 (4 + _)). set (t := bytes_of order 2 a.1).
  rewrite (drop_app_length' (h ++ t ++ a.2)).
  - by rewrite <- !app_assoc.
  - unfold h, t. rewrite !length_app, !bytes_of_length. lia.
Qed.

Lemma visit_loop_written {St} (visitor : St → AttributeView → result CodecFault (option St)) l :
  Forall attribute_ok l → ∀ fuel rest s s', handles_all visitor s l s' →
  (length (attributes_bytes l) ≤ fuel)%nat →
  visit_loop order visitor fuel (attributes_bytes l ++ rest)
    (Z.of_nat (length (attributes_bytes l))) s = Ok (Some s').
Proof.
  induction 1 as [|a l Ha Hl IH]; intros fuel rest s s' Hh Hf; inversion Hh as [|? ? s1 ? ? H1 H2]; subst.
  { by destruct fuel. }
  change (attributes_bytes (a :: l)) with (attribute_bytes a ++ attributes_bytes l) in *.
  pose proof (attribute_bytes_length a Ha) as Hlen. destruct Ha as (Ht & Hsize & Hb).
  set (n := 4 + Z.of_nat (length a.2)) in *. pose proof (align4_bounds n ltac:(lia)) as Hal.
  rewrite length_app in *. set (tail := length (attributes_bytes l)) in *.
  destruct fuel as [|fuel]; [lia|]. cbn [visit_loop].
  destruct (Z.leb_spec (Z.of_nat (length (attribute_bytes a) + tail)) 0); [lia|].
  destruct (Z.ltb_spec (Z.of_nat (length (attribute_bytes a) + tail)) 4); [lia|].
  rewrite <- app_assoc, attribute_split. fold n.
  set (head := bytes_of order 2 n ++ bytes_of order 2 a.1).
  assert (length head = 4%nat) as Hhead by (unfold head; by rewrite length_app, !bytes_of_length).
  set (junk := drop (4 + length a.2) (attribute_bytes a) ++ attributes_bytes l ++ rest).
  rewrite fetch_in_bounds by (rewrite length_app; lia). rewrite take_app_length' by done. cbn [rbind].
  assert (at_offset order 0 2 head = n) as ->.
  { apply (at_offset_field 0 2 [] (bytes_of order 2 a.1)); [done|]. simpl. lia. }
  assert (at_offset order 2 2 head = a.1) as ->.
  { unfold head. rewrite <- (app_nil_r (bytes_of order 2 a.1)).
    apply at_offset_field; [apply bytes_of_length|]. simpl. lia. }
  destruct (Z.ltb_spec n 4); [lia|].
  destruct (Z.ltb_spec (Z.of_nat (length (attribute_bytes a) + tail)) n); [lia|]. cbn [orb].
  destruct (attribute_type_plain a.1 Ht) as [-> ->]. cbn [negb Z.eqb].
  rewrite drop_app_length' by done. replace (n - 4) with (Z.of_nat (length a.2)) by lia.
  rewrite H1. cbn [rbind].
  destruct (Z.ltb_spec (Z.of_nat (length (attribute_bytes a) + tail)) (align4 n)); [lia|].
  assert (drop (Z.to_nat (align4 n)) (head ++ a.2 ++ junk) = attributes_bytes l ++ rest) as ->.
  { unfold head, n, junk. rewrite <- attribute_split. apply drop_app_length'. unfold n in Hlen. lia. }
  replace (Z.of_nat (length (attribute_bytes a) + tail) - align4 n) with (Z.of_nat tail) by lia.
  apply IH; [done|]. unfold tail. lia.
Qed.

Lemma visit_written {St} (visitor : St → AttributeView → result CodecFault (option St)) l rest s s' :
  Forall attribute_ok l → handles_all visitor s l s' →
  visit_attributes order visitor (attributes_bytes l ++ rest)
    (Z.of_nat (length (attributes_bytes l))) s = Ok (Some s').
Proof. intros Hl Hh. apply visit_loop_written; [done|done|]. lia. Qed.

(** ** Messages *)

(** A message of a dump: type and payload; [NLM_F_MULTI] is set. *)
Definition NLM_F_MULTI : Z := 2.

Definition message_bytes (options : DumpOptions) (m : Z * list Z) : list Z :=
  pad (bytes_of order 4 (16 + Z.of_nat (length m.2)) ++ bytes_of order 2 m.1
       ++ bytes_of order 2 NLM_F_MULTI ++ bytes_of order 4 (do_sequence options)
       ++ bytes_of order 4 (do_port_id options) ++ m.2).

Definition options_ok (options : DumpOptions) : Prop :=
  0 ≤ do_sequence options < 2 ^ 32 ∧ 0 ≤ do_port_id options < 2 ^ 32.

(** The kernel's messages for the objects [x], and the terminating message. *)
Definition done_message : Z * list Z := (NLMSG_DONE, bytes_of order 4 0).

(** A message that the decoder turns into the object [x], whatever lies behind it. *)
Definition decodes {A} (decode : list Z → Z → result CodecFault (option (option A)))
    (payload : list Z) (x : A) : Prop :=
  ∀ junk, decode (payload ++ junk) (Z.of_nat (length payload)) = Ok (Some (Some x)).

Definition message_ok (m : Z * list Z) : Prop :=
  0 ≤ m.1 < 65536 ∧ 16 + Z.of_nat (length m.2) < 2 ^ 32 - 3.

Definition message_header (options : DumpOptions) (m : Z * list Z) : list Z :=
  bytes_of order 4 (16 + Z.of_nat (length m.2)) ++ bytes_of order 2 m.1
  ++ bytes_of order 2 NLM_F_MULTI ++ bytes_of order 4 (do_sequence options)
  ++ bytes_of order 4 (do_port_id options).

Lemma message_header_length options m : length (message_header options m) = 16%nat.
Proof. unfold message_header. by rewrite !length_app, !bytes_of_length. Qed.

Lemma message_length options m :
  message_ok m → Z.of_nat (length (message_bytes options m)) = align4 (16 + Z.of_nat (length m.2)).
Proof.
  intros (_ & Hl). unfold message_bytes.
  rewrite pad_length; rewrite !length_app, !bytes_of_length; [f_equal; lia|lia].
Qed.

Lemma message_split options m rest :
  message_bytes options m ++ rest
  = message_header options m ++ m.2 ++ drop (16 + length m.2) (message_bytes options m) ++ rest.
Proof.
  unfold message_bytes, message_header, pad. set (h := bytes_of order 4 (16 + _)).
  set (t := bytes_of order 2 m.1). set (f := bytes_of order 2 NLM_F_MULTI).
  set (q := bytes_of order 4 (do_sequence options)). set (o := bytes_of order 4 (do_port_id options)).
  rewrite (drop_app_length' (h ++ t ++ f ++ q ++ o ++ m.2)).
  - by rewrite <- !app_assoc.
  - unfold h, t, f, q, o. rewrite !length_app, !bytes_of_length. lia.
Qed.

Lemma message_fields options m :
  options_ok options → message_ok m →
  let h := message_header options m in
  at_offset order 0 4 h = 16 + Z.of_nat (length m.2) ∧ at_offset order 4 2 h = m.1
  ∧ at_offset order 6 2 h = NLM_F_MULTI ∧ at_offset order 8 4 h = do_sequence options
  ∧ at_offset order 12 4 h = do_port_id options.
Proof.
  intros [Hq Ho] (Ht & Hl). unfold message_header.
  set (l := bytes_of order 4 (16 + _)). set (t := bytes_of order 2 m.1).
  set (f := bytes_of order 2 NLM_F_MULTI). set (q := bytes_of order 4 (do_sequence options)).
  set (o := bytes_of order 4 (do_port_id options)).
  assert (length l = 4 ∧ length t = 2 ∧ length f = 2 ∧ length q = 4)%nat as (Hl4 & Ht2 & Hf2 & Hq4).
  { unfold l, t, f, q. by rewrite !bytes_of_length. }
  split_and!.
  - apply (at_offset_field 0 4 [] _); [done|]. simpl. lia.
  - apply (at_offset_field 4 2 l _); [done|]. simpl. lia.
  - rewrite (app_assoc l t). apply (at_offset_field 6 2 (l ++ t) _); [rewrite length_app; lia|].
    unfold NLM_F_MULTI. simpl. lia.
  - rewrite (app_assoc l t), (app_assoc (l ++ t) f).
    apply (at_offset_field 8 4 ((l ++ t) ++ f) _); [rewrite !length_app; lia|]. simpl. lia.
  - rewrite (app_assoc l t), (app_assoc (l ++ t) f), (app_assoc ((l ++ t) ++ f) q).
    rewrite <- (app_nil_r o).
    apply (at_offset_field 12 4 (((l ++ t) ++ f) ++ q) _); [rewrite !length_app; lia|]. simpl. lia.
Qed.

Section Blocks.
Context {A : Type} (options : DumpOptions) (expected : Z).
Context (decode : list Z → Z → result CodecFault (option (option A))).
Context (Hoptions : options_ok options) (Hexpected : 4 < expected < 65536).

Definition messages_bytes (payloads : list (list Z)) : list Z :=
  concat ((λ payload, message_bytes options (expected, payload)) <$> payloads).

Definition payload_ok (payload : list Z) : Prop := message_ok (expected, payload).

(** What the loop sees when it reads a message; [n] is the message's length. *)
Lemma block_step fuel m rest more objects :
  message_ok m →
  let n := length (message_bytes options m) in
  let p := message_bytes options m ++ rest in
  let size := Z.of_nat (length m.2) in
  block_loop order options expected decode (S fuel) p (Z.of_nat (n + more)) objects =
  let payload := m.2 ++ drop (16 + length m.2) (message_bytes options m) ++ rest in
  let continue objects := block_loop order options expected decode fuel rest (Z.of_nat more) objects in
  if m.1 =? NLMSG_ERROR then
    if size <? 20 then Ok (failed_block DumpMalformed 0)
    else
      let! error := fetch 20 payload in
      let error := int32 (at_offset order 0 4 error) in
      if negb (error =? 0) then Ok (failed_block DumpKernelError error) else continue objects
  else if m.1 =? NLMSG_DONE then
    if negb (size =? 0) && negb (size =? 4) then Ok (failed_block DumpMalformed 0)
    else
      let! error := (if size =? 4 then let! bs := fetch 4 payload in Ok (int32 (number order bs)) else Ok 0) in
      if negb (error =? 0) then Ok (failed_block DumpKernelError error)
      else if negb (Z.of_nat more =? 0) then Ok (failed_block DumpMalformed 0)
      else Ok {| db_state := DumpDone; db_kernel_error := 0; db_objects := objects |}
  else if m.1 =? NLMSG_OVERRUN then Ok (failed_block DumpKernelError (- ENOBUFS))
  else if negb (m.1 =? NLMSG_NOOP) then
    if negb (m.1 =? expected) then Ok (failed_block DumpUnexpectedMessage 0)
    else
      let! decoded := decode payload size in
      match decoded with
      | None => Ok (failed_block DumpMalformed 0)
      | Some object => continue (objects ++ option_list object)
      end
  else continue objects.
Proof.
  intros Hm n p size. pose proof (message_length options m Hm) as Hlen. fold n in Hlen.
  destruct (message_fields options m Hoptions Hm) as (F1 & F2 & F3 & F4 & F5).
  pose proof (message_header_length options m) as Hh. pose proof Hm as (_ & Hsize).
  set (len := 16 + Z.of_nat (length m.2)) in *. pose proof (align4_bounds len ltac:(lia)) as Hal.
  cbn [block_loop]. destruct (Z.leb_spec (Z.of_nat (n + more)) 0); [lia|].
  destruct (Z.ltb_spec (Z.of_nat (n + more)) 16); [lia|].
  unfold p. rewrite message_split. rewrite fetch_in_bounds by (rewrite length_app; lia).
  rewrite take_app_length' by done. cbn [rbind]. rewrite F1, F2, F3, F4, F5.
  destruct (Z.ltb_spec len 16); [lia|]. destruct (Z.ltb_spec (Z.of_nat (n + more)) len); [lia|].
  rewrite !Z.eqb_refl. cbn [orb negb]. change (Z.land NLM_F_MULTI kDumpInterruptedFlag =? 0) with true.
  cbn [negb]. rewrite drop_app_length' by done. replace (len - 16) with size by (unfold len, size; lia).
  destruct (Z.leb_spec (align4 len) (Z.of_nat (n + more))); [|lia].
  assert (drop (Z.to_nat (align4 len)) (message_header options m ++ m.2
     ++ drop (16 + length m.2) (message_bytes options m) ++ rest) = rest) as ->.
  { rewrite <- message_split. apply drop_app_length'. fold n. lia. }
  replace (Z.of_nat (n + more) - align4 len) with (Z.of_nat more) by lia. done.
Qed.

Lemma done_message_ok : message_ok (done_message).
Proof.
  unfold message_ok, done_message, NLMSG_DONE. simpl. rewrite bytes_of_length.
  split; lia.
Qed.

(** The bytes of one datagram, closed by the terminating message or not. *)
Definition datagram (closing : bool) (payloads : list (list Z)) : list Z :=
  messages_bytes payloads ++ if closing then message_bytes options done_message else [].

Lemma message_bytes_nonempty m : message_ok m → (16 ≤ length (message_bytes options m))%nat.
Proof.
  intros Hm. pose proof (message_length options m Hm). pose proof Hm as (_ & Hl).
  pose proof (align4_bounds (16 + Z.of_nat (length m.2)) ltac:(lia)). lia.
Qed.

Lemma block_loop_written closing payloads xs :
  Forall payload_ok payloads → Forall2 (decodes decode) payloads xs →
  ∀ fuel objects, (length (datagram closing payloads) ≤ fuel)%nat →
  block_loop order options expected decode fuel (datagram closing payloads)
    (Z.of_nat (length (datagram closing payloads))) objects
  = Ok {| db_state := if closing then DumpDone else DumpMore; db_kernel_error := 0;
          db_objects := objects ++ xs |}.
Proof.
  intros Hok Hdec. revert Hok. induction Hdec as [|payload x payloads xs Hx _ IH]; intros Hok fuel objects Hf.
  - unfold datagram in *. simpl in *. rewrite app_nil_r. destruct closing; [|by destruct fuel].
    pose proof (message_bytes_nonempty _ done_message_ok). destruct fuel as [|fuel]; [lia|].
    pose proof (block_step fuel done_message [] 0 objects done_message_ok) as Hs. cbv zeta in Hs.
    rewrite app_nil_r, Nat.add_0_r in Hs. rewrite Hs. clear Hs.
    unfold done_message. cbn [fst snd]. rewrite bytes_of_length. cbn [Z.of_nat Pos.of_succ_nat].
    simpl (NLMSG_DONE =? _). cbv iota. simpl (4 =? _). cbn [andb negb].
    rewrite fetch_in_bounds by (rewrite length_app, bytes_of_length; lia).
    rewrite take_app_length' by (by rewrite bytes_of_length). cbn [rbind].
    by rewrite number_bytes_of by (simpl; lia).
  - inversion Hok as [|? ? Hp Hok']; subst.
    change (datagram closing (payload :: payloads)) with
      ((message_bytes options (expected, payload) ++ messages_bytes payloads)
       ++ if closing then message_bytes options done_message else []) in *.
    rewrite <- app_assoc in *. fold (datagram closing payloads) in *. rewrite length_app in *.
    pose proof (message_bytes_nonempty _ Hp). destruct fuel as [|fuel]; [lia|].
    rewrite (block_step fuel (expected, payload)) by done. cbv zeta. cbn [fst snd].
    destruct (Z.eqb_spec expected NLMSG_ERROR); [unfold NLMSG_ERROR in *; lia|].
    destruct (Z.eqb_spec expected NLMSG_DONE); [unfold NLMSG_DONE in *; lia|].
    destruct (Z.eqb_spec expected NLMSG_OVERRUN); [unfold NLMSG_OVERRUN in *; lia|].
    destruct (Z.eqb_spec expected NLMSG_NOOP); [unfold NLMSG_NOOP in *; lia|].
    rewrite Z.eqb_refl. cbn [negb]. rewrite Hx. cbn [rbind option_list].
    rewrite IH by (done || lia). by rewrite <- app_assoc.
Qed.

Lemma parse_written closing payloads xs :
  Forall payload_ok payloads → Forall2 (decodes decode) payloads xs →
  datagram closing payloads ≠ [] →
  parse_dump_block order options expected decode (Some (datagram closing payloads))
    (Z.of_nat (length (datagram closing payloads)))
  = Ok {| db_state := if closing then DumpDone else DumpMore; db_kernel_error := 0; db_objects := xs |}.
Proof.
  intros Hok Hdec Hne. unfold parse_dump_block.
  assert (16 ≤ length (datagram closing payloads))%nat as Hl.
  { unfold datagram in *. rewrite length_app. destruct payloads as [|payload payloads].
    - simpl in *. destruct closing; [|done]. apply message_bytes_nonempty, done_message_ok.
    - apply Forall_cons in Hok as [Hp _]. unfold messages_bytes. simpl. rewrite length_app.
      pose proof (message_bytes_nonempty _ Hp). lia. }
  destruct (Z.ltb_spec (Z.of_nat (length (datagram closing payloads))) 16); [lia|].
  by rewrite (block_loop_written closing payloads xs) by (done || lia).
Qed.
End Blocks.
End Wire.
