(* ===== verification/RtnetlinkRoutes.v ===== *)
(** * Routes on the wire

    A route as Linux reports it, its attributes in any order, and the
    [DumpedRoute] that [decode_route] makes of it; before that, the messages of
    rules and the parts both share. *)

From Stdlib Require Import ZArith Lia Ascii String Btauto.
From stdpp Require Import base gmap strings list.
From S2P Require Import Prelude ConfigTypes RoutingPlan ListParser KernelRoutes StateError RouteTable PolicyRules.
From S2P Require Import RtnetlinkCodec RtnetlinkFraming RtnetlinkWire.
Open Scope Z_scope.

(** * Routes and rules on the wire

    A route and a rule as Linux reports them: the fixed header and the attributes of
    the object, in any order. Decoding gives the [DumpedRoute] or the [DumpedRule]
    of the object, and its identity is exact for the shapes a [RouteSpec] or a
    [RuleSpec] can express. *)

(** ** Reading attributes in any order *)

Section Orderless.
Context {St : Type} (visitor : St → AttributeView → result CodecFault (option St)).
Context (ok : Attribute → Prop) (apply : Attribute → St → St).
Context (Hhandles : ∀ a s, ok a → handles visitor s a (apply a s)).
Context (Hcommute : ∀ a b s, a.1 ≠ b.1 → apply a (apply b s) = apply b (apply a s)).

Lemma handles_foldl l s : Forall ok l → handles_all visitor s l (fold_left (λ s a, apply a s) l s).
Proof.
  intros Hl. revert s. induction Hl as [|a l Ha _ IH]; intros s; simpl; [constructor|].
  econstructor; [by apply Hhandles|apply IH].
Qed.

Lemma foldl_orderless l l' s :
  NoDup (fst <$> l) → l ≡ₚ l' → fold_left (λ s a, apply a s) l s = fold_left (λ s a, apply a s) l' s.
Proof.
  intros Hnd Hp. rewrite <- !fold_left_rev_right.
  apply (foldr_permutation eq); try apply _; [|by rewrite <- !Permutation_rev].
  intros j1 a1 j2 a2 s' Hj H1 H2. apply Hcommute. intros Heq. apply Hj.
  assert (NoDup (fst <$> rev l)) as Hnd' by (by rewrite <- Permutation_rev).
  apply (NoDup_lookup _ j1 j2 a1.1 Hnd').
  - exact (eq_trans (list_lookup_fmap fst _ _) (f_equal (fmap fst) H1)).
  - rewrite Heq. exact (eq_trans (list_lookup_fmap fst _ _) (f_equal (fmap fst) H2)).
Qed.

Lemma handles_orderless l l' s :
  NoDup (fst <$> l) → l ≡ₚ l' → Forall ok l →
  handles_all visitor s l' (fold_left (λ s a, apply a s) l s).
Proof.
  intros Hnd Hp Hl. rewrite (foldl_orderless l l' s Hnd Hp). apply handles_foldl. by rewrite <- Hp.
Qed.
End Orderless.

(** Compares attribute types. *)
Ltac eval_types :=
  repeat match goal with
  | H : context [?a =? ?b] |- _ =>
      is_const a; is_const b; let v := eval vm_compute in (a =? b) in
      change (a =? b) with v in H
  | |- context [?a =? ?b] =>
      is_const a; is_const b; let v := eval vm_compute in (a =? b) in
      change (a =? b) with v
  end; cbv iota in *; cbn [orb] in *.

(** Evaluates the membership tests in sets of attribute types. *)
Ltac eval_saw :=
  repeat match goal with
  | |- context [bool_decide ?P] =>
      let v := eval vm_compute in (bool_decide P) in
      lazymatch v with true => idtac | false => idtac end;
      change (bool_decide P) with v
  end.

Section Objects.
Context `{Inet} (order : ByteOrder).

Lemma read_scalar_written n t z junk :
  0 ≤ z < 256 ^ Z.of_nat n →
  read_scalar order n {| av_type := t; av_has_type_flags := false;
    av_payload := bytes_of order n z ++ junk;
    av_payload_size := Z.of_nat (length (bytes_of order n z)) |} = Ok (Some z).
Proof.
  intros Hz. unfold read_scalar. simpl. rewrite bytes_of_length, Z.eqb_refl. cbn [negb].
  rewrite fetch_in_bounds by (rewrite length_app, bytes_of_length; lia). cbn [rbind].
  rewrite take_app_length' by (by rewrite bytes_of_length). by rewrite number_bytes_of.
Qed.

Lemma address_written family t bytes text junk :
  is_family family → is_addr family bytes → inet_ntop family bytes = Some text →
  address_string family {| av_type := t; av_has_type_flags := false; av_payload := bytes ++ junk;
    av_payload_size := Z.of_nat (length bytes) |} = Ok (Some text).
Proof.
  intros Hf [Hl _] Ht. unfold address_string. simpl. unfold addr_len in Hl.
  destruct Hf as [-> | ->]; simpl in *; rewrite Hl; simpl;
    rewrite fetch_in_bounds by (rewrite length_app; lia); cbn [rbind];
    rewrite take_app_length' by done; by rewrite Ht.
Qed.

(** ** Rules *)

(** A rule without address selectors. *)
Record WireRule := {
  wu_family : Z;
  wu_header_table : Z;
  wu_action : Z;
  wu_flags : Z;
  wu_table : Z;
  wu_priority : Z;
  wu_fwmark : option Z;
  wu_fwmask : option Z;
  wu_suppress_ifgroup : option Z;
  wu_suppress_prefix : option Z;
  wu_protocol : option Z;
}.

Definition scalar (width : nat) (t : Z) (z : option Z) : list Attribute :=
  match z with Some z => [(t, bytes_of order width z)] | None => [] end.

Definition rule_attributes (u : WireRule) : list Attribute :=
  scalar 4 FRA_TABLE (Some (wu_table u)) ++ scalar 4 FRA_PRIORITY (Some (wu_priority u))
  ++ scalar 4 FRA_FWMARK (wu_fwmark u) ++ scalar 4 FRA_FWMASK (wu_fwmask u)
  ++ scalar 4 kRuleAttributeSuppressIfgroup (wu_suppress_ifgroup u)
  ++ scalar 4 kRuleAttributeSuppressPrefix (wu_suppress_prefix u)
  ++ scalar 1 kRuleAttributeProtocol (wu_protocol u).

Definition rule_header (u : WireRule) : list Z :=
  [wu_family u; 0; 0; 0; wu_header_table u; 0; 0; wu_action u] ++ bytes_of order 4 (wu_flags u).

Definition u32_ok (z : Z) : Prop := 0 ≤ z < 2 ^ 32.
Definition opt_ok (P : Z → Prop) (z : option Z) : Prop := match z with Some z => P z | None => True end.

Definition rule_ok (u : WireRule) : Prop :=
  is_family (wu_family u) ∧ is_byte (wu_header_table u) ∧ is_byte (wu_action u) ∧ u32_ok (wu_flags u)
  ∧ u32_ok (wu_table u) ∧ u32_ok (wu_priority u)
  ∧ opt_ok u32_ok (wu_fwmark u) ∧ opt_ok u32_ok (wu_fwmask u)
  ∧ opt_ok u32_ok (wu_suppress_ifgroup u) ∧ opt_ok u32_ok (wu_suppress_prefix u)
  ∧ opt_ok is_byte (wu_protocol u).

(** An attribute that must have its default if it is there. *)
Definition default_or (d : Z) (z : option Z) : bool := match z with Some z => z =? d | None => true end.

(** The rule the daemon sees. *)
Definition dumped_rule (u : WireRule) : DumpedRule :=
  {| du_priority := wu_priority u; du_fwmark := default 0 (wu_fwmark u);
     du_fwmask := match wu_fwmask u, wu_fwmark u with
                  | Some mask, _ => mask
                  | None, Some _ => u32_max
                  | None, None => 0
                  end;
     du_table := wu_table u; du_family := wu_family u;
     du_exact_identity_representable :=
       (wu_action u =? FR_ACT_TO_TBL) && (wu_flags u =? 0)
       && ((wu_header_table u =? 0) || (wu_header_table u =? wu_table u))
       && default_or u32_max (wu_suppress_ifgroup u) && default_or u32_max (wu_suppress_prefix u)
       && default_or 0 (wu_protocol u) |}.

(** Whether the value of a rule's attribute is one that a [RuleSpec] can express. *)
Definition rule_value_ok (t value : Z) : bool :=
  if (t =? kRuleAttributeSuppressIfgroup) || (t =? kRuleAttributeSuppressPrefix) then value =? u32_max
  else if t =? kRuleAttributeProtocol then value =? 0
  else true.

(** What [rule_visitor] does with an attribute of a rule. *)
Definition rule_apply (a : Attribute) (s : RuleScan) : RuleScan :=
  let value := number order a.2 in
  {| us_priority := if a.1 =? FRA_PRIORITY then value else us_priority s;
     us_fwmark := if a.1 =? FRA_FWMARK then value else us_fwmark s;
     us_fwmask := if a.1 =? FRA_FWMASK then value else us_fwmask s;
     us_exact := us_exact s && negb (bool_decide (a.1 ∈ us_saw s)) && rule_value_ok a.1 value;
     us_saw := {[a.1]} ∪ us_saw s;
     us_table_attribute := if a.1 =? FRA_TABLE then value else us_table_attribute s |}.

Definition rule_width (t : Z) : nat := if t =? kRuleAttributeProtocol then 1 else 4.

Definition rule_attribute_ok (a : Attribute) : Prop :=
  a.1 ∈ [FRA_TABLE; FRA_PRIORITY; FRA_FWMARK; FRA_FWMASK; kRuleAttributeSuppressIfgroup;
         kRuleAttributeSuppressPrefix; kRuleAttributeProtocol]
  ∧ length a.2 = rule_width a.1 ∧ Forall is_byte a.2.

Lemma read_scalar_any n a s :
  length (a.2 : list Z) = n →
  read_scalar order n {| av_type := a.1; av_has_type_flags := false; av_payload := a.2 ++ s;
    av_payload_size := Z.of_nat (length a.2) |} = Ok (Some (number order a.2)).
Proof.
  intros <-. unfold read_scalar. simpl. rewrite Z.eqb_refl. cbn [negb].
  rewrite fetch_in_bounds by (rewrite length_app; lia). cbn [rbind].
  by rewrite take_app_length' by done.
Qed.

Lemma rule_handles a s : rule_attribute_ok a → handles (rule_visitor order) s a (rule_apply a s).
Proof.
  intros (Ht & Hl & _) junk. destruct a as [t bytes].
  pose proof (read_scalar_any (rule_width t) (t, bytes) junk Hl) as Hread.
  unfold rule_visitor, rule_apply, rule_value_ok, rule_width in *. cbn [fst snd av_type av_has_type_flags] in *.
  rewrite !elem_of_cons, elem_of_nil in Ht.
  destruct Ht as [->|[->|[->|[->|[->|[->|[->|[]]]]]]]]; eval_types; by rewrite Hread.
Qed.

Lemma pick_commutes {A} (t t' k : Z) (x y z : A) :
  t ≠ t' →
  (if t =? k then x else if t' =? k then y else z) = (if t' =? k then y else if t =? k then x else z).
Proof. intros Hne. destruct (Z.eqb_spec t k), (Z.eqb_spec t' k); congruence. Qed.

Lemma once_other (t t' : Z) (saw : gset Z) :
  t ≠ t' → bool_decide (t ∈ {[t']} ∪ saw) = bool_decide (t ∈ saw).
Proof. intros Hne. apply bool_decide_ext. set_solver. Qed.

Lemma rule_commutes a b s :
  a.1 ≠ b.1 → rule_apply a (rule_apply b s) = rule_apply b (rule_apply a s).
Proof.
  intros Hne. destruct a as [t v], b as [t' v']. cbn [fst] in Hne. unfold rule_apply. cbn [fst snd].
  cbn [us_priority us_fwmark us_fwmask us_exact us_saw us_table_attribute].
  rewrite !(once_other t t'), !(once_other t' t) by done.
  f_equal; try (by apply pick_commutes); [btauto|set_solver].
Qed.

(** ** The decoded rule *)

Lemma rule_attributes_ok u : rule_ok u → Forall rule_attribute_ok (rule_attributes u).
Proof.
  intros _. unfold rule_attributes.
  assert (∀ width t z, t ∈ [FRA_TABLE; FRA_PRIORITY; FRA_FWMARK; FRA_FWMASK; kRuleAttributeSuppressIfgroup;
         kRuleAttributeSuppressPrefix; kRuleAttributeProtocol] → width = rule_width t →
         Forall rule_attribute_ok (scalar width t z)) as Hs.
  { intros width t [z|] Ht Hw; [|by apply List.Forall_nil]. apply List.Forall_cons; [|by apply List.Forall_nil].
    split; [done|]. cbn [fst snd]. split; [by rewrite bytes_of_length|apply bytes_of_bytes]. }
  rewrite !Forall_app. split_and!; apply Hs; (done || set_solver).
Qed.

Lemma scalar_types width t z : fst <$> scalar width t z = match z with Some _ => [t] | None => [] end.
Proof. by destruct z. Qed.

Lemma rule_attributes_types u : NoDup (fst <$> rule_attributes u).
Proof.
  unfold rule_attributes. rewrite !fmap_app, !scalar_types.
  destruct (wu_fwmark u), (wu_fwmask u), (wu_suppress_ifgroup u), (wu_suppress_prefix u), (wu_protocol u);
    by apply (bool_decide_unpack _); vm_compute.
Qed.

Lemma rule_attribute_wire a : rule_attribute_ok a → attribute_ok a.
Proof.
  intros (Ht & Hl & Hb). split; [|split; [unfold rule_width in Hl; case_match; lia|done]].
  rewrite !elem_of_cons, elem_of_nil in Ht.
  by destruct Ht as [->|[->|[->|[->|[->|[->|[->|[]]]]]]]].
Qed.

(** The fields of a header of eight bytes and a 32-bit word. *)
Lemma byte_field (offset : nat) b l :
  l !! offset = Some b → at_offset order offset 1 l = b.
Proof.
  intros Hb. unfold at_offset. rewrite (drop_S _ _ _ Hb). simpl. destruct order; simpl; lia.
Qed.

Lemma last_field bytes z :
  u32_ok z → at_offset order (length bytes) 4 (bytes ++ bytes_of order 4 z) = z.
Proof.
  intros Hz. rewrite <- (app_nil_r (bytes_of order 4 z)). by apply at_offset_field.
Qed.

Lemma rule_header_fields u :
  rule_ok u →
  fib_rule_hdr_of order (rule_header u)
  = {| fr_family := wu_family u; fr_dst_len := 0; fr_src_len := 0; fr_tos := 0;
       fr_table := wu_header_table u; fr_res1 := 0; fr_res2 := 0; fr_action := wu_action u;
       fr_flags := wu_flags u |}.
Proof.
  intros (_ & _ & _ & Hg & _). unfold fib_rule_hdr_of. f_equal; try by apply byte_field.
  apply (last_field [wu_family u; 0; 0; 0; wu_header_table u; 0; 0; wu_action u]). exact Hg.
Qed.

Lemma rule_apply_record t v p m k e saw tab :
  rule_apply (t, v) {| us_priority := p; us_fwmark := m; us_fwmask := k; us_exact := e; us_saw := saw;
                       us_table_attribute := tab |}
  = let value := number order v in
    {| us_priority := if t =? FRA_PRIORITY then value else p;
       us_fwmark := if t =? FRA_FWMARK then value else m;
       us_fwmask := if t =? FRA_FWMASK then value else k;
       us_exact := e && negb (bool_decide (t ∈ saw)) && rule_value_ok t value;
       us_saw := {[t]} ∪ saw;
       us_table_attribute := if t =? FRA_TABLE then value else tab |}.
Proof. done. Qed.

Ltac run_rule :=
  repeat (rewrite rule_apply_record; cbv zeta; unfold rule_value_ok;
          rewrite number_bytes_of by (simpl; lia); eval_saw; eval_types).

Lemma rule_scan_written u :
  rule_ok u → let m := fib_rule_hdr_of order (rule_header u) in
  rule_of_scan m (fold_left (λ s a, rule_apply a s) (rule_attributes u) (rule_scan_start m)) = dumped_rule u.
Proof.
  intros Hu m. pose proof Hu as (Hf & Hh & Ha & Hg & Ht & Hp & Hm & Hk & Hi & Hx & Ho).
  unfold m. rewrite rule_header_fields by done. unfold rule_scan_start.
  cbn [fr_family fr_dst_len fr_src_len fr_tos fr_res1 fr_res2 fr_action fr_flags fr_table].
  assert (is_ip_family (wu_family u) = true) as -> by (by destruct Hf as [-> | ->]).
  unfold rule_attributes, scalar, dumped_rule.
  destruct (wu_fwmark u), (wu_fwmask u), (wu_suppress_ifgroup u), (wu_suppress_prefix u), (wu_protocol u);
    cbn [app fold_left]; unfold opt_ok, u32_ok, is_byte in *; run_rule; unfold rule_of_scan;
    cbn [us_priority us_fwmark us_fwmask us_exact us_saw us_table_attribute fr_family fr_table];
    eval_saw; cbv zeta beta iota; unfold default_or; f_equal; rewrite ?Z.eqb_refl; btauto.
Qed.

Lemma rule_decodes u attributes :
  rule_ok u → attributes ≡ₚ rule_attributes u →
  decodes (λ p n, on_some (decode_rule order p n) Some)
    (rule_header u ++ attributes_bytes order attributes) (dumped_rule u).
Proof.
  intros Hu Hp junk. unfold decode_rule. rewrite <- app_assoc.
  assert (length (rule_header u) = 12%nat) as Hl by (unfold rule_header; by rewrite length_app, bytes_of_length).
  rewrite length_app, Hl. destruct (Z.ltb_spec (Z.of_nat (12 + length (attributes_bytes order attributes))) 12); [lia|].
  rewrite fetch_in_bounds by (rewrite length_app; lia). rewrite take_app_length', drop_app_length' by done.
  cbn [rbind]. pose proof (rule_attributes_ok u Hu) as Hok.
  replace (Z.of_nat _ - 12) with (Z.of_nat (length (attributes_bytes order attributes))) by lia.
  rewrite (visit_written order _ attributes junk _
    (fold_left (λ s a, rule_apply a s) (rule_attributes u) (rule_scan_start (fib_rule_hdr_of order (rule_header u))))).
  - unfold on_some. cbn [rbind fmap option_fmap option_map]. by rewrite rule_scan_written.
  - rewrite Hp. eapply Forall_impl; [exact Hok|]. apply rule_attribute_wire.
  - eapply (handles_orderless _ rule_attribute_ok); [intros; by apply rule_handles|intros; by apply rule_commutes| | |done].
    + apply rule_attributes_types.
    + done.
Qed.
End Objects.

(** A route with at most one next hop and without a source selector. *)
Record WireRoute := {
  wr_family : Z;
  wr_header_table : Z;
  wr_table : Z;
  wr_tos : Z;
  wr_protocol : Z;
  wr_scope : Z;
  wr_type : Z;
  wr_flags : Z;
  wr_destination : option (Z * list Z);
  wr_oif : option Z;
  wr_gateway : option (list Z);
  wr_metric : option Z;
  wr_cacheinfo : option (list Z);
  wr_preference : option Z;
}.

Section Routes.
Context `{Inet} (order : ByteOrder) (options : DumpOptions).

Definition blob (t : Z) (bytes : option (list Z)) : list Attribute :=
  match bytes with Some bytes => [(t, bytes)] | None => [] end.

Definition wr_dst_len (w : WireRoute) : Z := from_option fst 0 (wr_destination w).

Definition route_attributes (w : WireRoute) : list Attribute :=
  scalar order 4 RTA_TABLE (Some (wr_table w)) ++ blob RTA_DST (snd <$> wr_destination w)
  ++ scalar order 4 RTA_PRIORITY (wr_metric w) ++ blob RTA_GATEWAY (wr_gateway w)
  ++ scalar order 4 RTA_OIF (wr_oif w) ++ blob RTA_CACHEINFO (wr_cacheinfo w)
  ++ scalar order 1 kRouteAttributePreference (wr_preference w).

Definition route_header (w : WireRoute) : list Z :=
  [wr_family w; wr_dst_len w; 0; wr_tos w; wr_header_table w; wr_protocol w; wr_scope w; wr_type w]
  ++ bytes_of order 4 (wr_flags w).

Definition route_ok (w : WireRoute) : Prop :=
  is_family (wr_family w) ∧ is_byte (wr_header_table w) ∧ u32_ok (wr_table w)
  ∧ (is_byte (wr_tos w) ∧ is_byte (wr_protocol w) ∧ is_byte (wr_scope w) ∧ is_byte (wr_type w))
  ∧ u32_ok (wr_flags w)
  ∧ match wr_destination w with
    | Some (prefix, bytes) =>
        0 < prefix ≤ 8 * Z.of_nat (addr_len (wr_family w)) ∧ is_addr (wr_family w) bytes
    | None => True
    end
  ∧ opt_ok u32_ok (wr_oif w)
  ∧ match wr_gateway w with Some bytes => is_addr (wr_family w) bytes | None => True end
  ∧ opt_ok u32_ok (wr_metric w)
  ∧ match wr_cacheinfo w with
    | Some bytes => length bytes = 32%nat ∧ Forall is_byte bytes
    | None => True
    end
  ∧ opt_ok is_byte (wr_preference w).

(** The presentation of an address. *)
Definition address_text (family : Z) (bytes : list Z) : string :=
  default EmptyString (inet_ntop family bytes).

Definition prefix_text (family prefix : Z) (bytes : list Z) : string :=
  address_text family bytes +:+ String "/" (to_string prefix).

(** The route the daemon sees. *)
Definition dumped_route (w : WireRoute) : DumpedRoute :=
  let blackhole := wr_type w =? RTN_BLACKHOLE in
  let unreachable := wr_type w =? RTN_UNREACHABLE in
  let unicast := wr_type w =? RTN_UNICAST in
  let name := match wr_oif w with Some i => (interface_name i options).1 | None => None end in
  let unambiguous := match wr_oif w with Some i => (interface_name i options).2 | None => true end in
  let has_oif := bool_decide (is_Some (wr_oif w)) in
  let has_gateway := bool_decide (is_Some (wr_gateway w)) in
  let loopback := (blackhole || unreachable) && (wr_family w =? AF_INET6)
    && opt_eqb name (Some "lo"%string) && negb has_gateway in
  {| dr_destination := match wr_destination w with
                       | Some (prefix, bytes) => prefix_text (wr_family w) prefix bytes
                       | None => "default"
                       end;
     dr_table := wr_table w;
     dr_interface := if loopback then None else name;
     dr_gateway := address_text (wr_family w) <$> wr_gateway w;
     dr_blackhole := blackhole; dr_unreachable := unreachable;
     dr_family := wr_family w; dr_metric := default 0 (wr_metric w); dr_protocol := wr_protocol w;
     dr_exact_identity_representable :=
       (unicast || blackhole || unreachable)
       && (wr_tos w =? 0) && (wr_scope w =? 0) && (wr_flags w =? 0)
       && ((wr_header_table w =? 0) || (wr_header_table w =? wr_table w))
       && unambiguous && default_or 0 (wr_preference w)
       && (if unicast then has_oif || has_gateway else true)
       && (if blackhole || unreachable then negb has_gateway && (negb has_oif || loopback) else true) |}.

(** ** The visitor *)

Section Visitor.
Context (m : RtMsg).

(** Whether an attribute's value is one that a [RouteSpec] can express. *)
Definition route_value_ok (t : Z) (bytes : list Z) : bool :=
  if t =? RTA_OIF then (interface_name (number order bytes) options).2
  else if t =? RTA_CACHEINFO then Z.of_nat (length bytes) =? 32
  else if t =? kRouteAttributePreference then number order bytes =? 0
  else true.

(** What [route_visitor] does with an attribute of a route. *)
Definition route_apply (a : Attribute) (s : RouteScan) : RouteScan :=
  {| rs_destination := if a.1 =? RTA_DST then
       if rtm_dst_len m =? 0 then "default" else prefix_text (rtm_family m) (rtm_dst_len m) a.2
       else rs_destination s;
     rs_interface := if a.1 =? RTA_OIF then (interface_name (number order a.2) options).1 else rs_interface s;
     rs_gateway := if a.1 =? RTA_GATEWAY then Some (address_text (rtm_family m) a.2) else rs_gateway s;
     rs_metric := if a.1 =? RTA_PRIORITY then number order a.2 else rs_metric s;
     rs_exact := rs_exact s && negb (bool_decide (a.1 ∈ rs_saw s)) && route_value_ok a.1 a.2;
     rs_saw := {[a.1]} ∪ rs_saw s;
     rs_table_attribute := if a.1 =? RTA_TABLE then number order a.2 else rs_table_attribute s |}.

Definition route_types : list Z :=
  [RTA_DST; RTA_GATEWAY; RTA_TABLE; RTA_PRIORITY; RTA_OIF; RTA_CACHEINFO; kRouteAttributePreference].

Definition route_width (t : Z) : nat :=
  if (t =? RTA_DST) || (t =? RTA_GATEWAY) then addr_len (rtm_family m)
  else if t =? RTA_CACHEINFO then 32 else if t =? kRouteAttributePreference then 1 else 4.

Definition route_attribute_ok (a : Attribute) : Prop :=
  a.1 ∈ route_types ∧ length a.2 = route_width a.1 ∧ Forall is_byte a.2.

Lemma route_handles `{!InetLaws H} a s :
  is_family (rtm_family m) → route_attribute_ok a →
  handles (route_visitor order m options) s a (route_apply a s).
Proof.
  intros Hm (Ht & Hl & Hb) junk. destruct a as [t bytes].
  pose proof (read_scalar_any order (route_width t) (t, bytes) junk Hl) as Hread.
  assert (t = RTA_DST ∨ t = RTA_GATEWAY → address_string (rtm_family m) {| av_type := t;
    av_has_type_flags := false; av_payload := bytes ++ junk; av_payload_size := Z.of_nat (length bytes) |}
    = Ok (Some (address_text (rtm_family m) bytes))) as Haddress.
  { intros Hor. assert (is_addr (rtm_family m) bytes) as Ha.
    { split; [|done]. unfold route_width in Hl. destruct Hor as [-> | ->]; exact Hl. }
    destruct (ntop_total _ _ Hm Ha) as [text Htext]. rewrite (address_written _ _ _ text) by done.
    unfold address_text. by rewrite Htext. }
  unfold route_visitor, route_apply, route_value_ok, route_width, route_types in *.
  cbn [fst snd av_type av_has_type_flags av_payload_size] in *.
  rewrite !elem_of_cons, elem_of_nil in Ht.
  destruct Ht as [->|[->|[->|[->|[->|[->|[->|[]]]]]]]]; eval_types;
    rewrite ?Haddress by auto; rewrite ?Hread; try done.
  unfold on_some. cbn [rbind]. cbn. destruct (interface_name _ _). done.
Qed.

Lemma route_commutes a b s :
  a.1 ≠ b.1 → route_apply a (route_apply b s) = route_apply b (route_apply a s).
Proof.
  intros Hne. destruct a as [t v], b as [t' v']. cbn [fst] in Hne. unfold route_apply. cbn [fst snd].
  cbn [rs_destination rs_interface rs_gateway rs_metric rs_exact rs_saw rs_table_attribute].
  rewrite !(once_other t t'), !(once_other t' t) by done.
  f_equal; try (by apply pick_commutes); [btauto|set_solver].
Qed.

Lemma route_attribute_wire a : route_attribute_ok a → attribute_ok a.
Proof.
  intros (Ht & Hl & Hb). split; [|split; [|done]].
  - unfold route_types in Ht. rewrite !elem_of_cons, elem_of_nil in Ht.
    by destruct Ht as [->|[->|[->|[->|[->|[->|[->|[]]]]]]]].
  - unfold route_width, addr_len in Hl. repeat case_match; lia.
Qed.

(** *** Reading a list of attributes, field by field *)

Definition pick {A} (k : Z) (f : list Z → A) (l : list Attribute) (x : A) : A :=
  fold_left (λ x a, if a.1 =? k then f a.2 else x) l x.

Definition has (k : Z) (l : list Attribute) : bool := existsb (λ a, a.1 =? k) l.

Definition route_read (l : list Attribute) (s : RouteScan) : RouteScan :=
  fold_left (λ s a, route_apply a s) l s.

Lemma read_field {A} (field : RouteScan → A) k (f : list Z → A) l s :
  (∀ a s, field (route_apply a s) = if a.1 =? k then f a.2 else field s) →
  field (route_read l s) = pick k f l (field s).
Proof.
  intros Hf. revert s. induction l as [|a l IH]; intros s; simpl; [done|].
  unfold route_read, pick in *. cbn [fold_left]. rewrite IH. by rewrite Hf.
Qed.

Lemma read_saw k l s :
  bool_decide (k ∈ rs_saw (route_read l s)) = has k l || bool_decide (k ∈ rs_saw s).
Proof.
  revert s. induction l as [|a l IH]; intros s; simpl; [done|].
  unfold route_read in *. cbn [fold_left]. rewrite IH. cbn [route_apply rs_saw].
  destruct (Z.eqb_spec a.1 k) as [->|Hne]; cbn [orb].
  - rewrite bool_decide_eq_true_2 by set_solver. apply orb_true_r.
  - by rewrite once_other by done.
Qed.

Lemma read_exact l s :
  NoDup (fst <$> l) → Forall (λ a, a.1 ∉ rs_saw s) l →
  rs_exact (route_read l s) = rs_exact s && forallb (λ a, route_value_ok a.1 a.2) l.
Proof.
  revert s. induction l as [|a l IH]; intros s Hnd Hs; simpl; [by rewrite andb_true_r|].
  apply NoDup_cons in Hnd as [Ha Hnd]. apply Forall_cons in Hs as [Has Hs].
  unfold route_read in *. cbn [fold_left]. rewrite IH; [|done|].
  - cbn [route_apply rs_exact]. rewrite bool_decide_eq_false_2 by done. btauto.
  - rewrite Forall_forall in Hs |- *. intros b Hb. cbn [route_apply rs_saw].
    specialize (Hs b Hb). assert (b.1 ≠ a.1); [|set_solver].
    intros Heq. apply Ha. rewrite <- Heq. by apply list_elem_of_fmap_2.
Qed.
End Visitor.

(** ** The decoded route *)

Lemma route_header_fields w :
  route_ok w →
  rtmsg_of order (route_header w)
  = {| rtm_family := wr_family w; rtm_dst_len := wr_dst_len w; rtm_src_len := 0; rtm_tos := wr_tos w;
       rtm_table := wr_header_table w; rtm_protocol := wr_protocol w; rtm_scope := wr_scope w;
       rtm_type := wr_type w; rtm_flags := wr_flags w |}.
Proof.
  intros (_ & _ & _ & _ & Hg & _). unfold rtmsg_of. f_equal; try by apply byte_field.
  apply (last_field order [wr_family w; wr_dst_len w; 0; wr_tos w; wr_header_table w; wr_protocol w;
                           wr_scope w; wr_type w]). exact Hg.
Qed.

Lemma route_attributes_ok w m :
  route_ok w → rtm_family m = wr_family w → Forall (route_attribute_ok m) (route_attributes w).
Proof.
  intros (_ & _ & _ & _ & _ & Hd & _ & Hg & _ & Hc & _) Hm. unfold route_attributes.
  assert (∀ width t z, t ∈ route_types → width = route_width m t →
         Forall (route_attribute_ok m) (scalar order width t z)) as Hs.
  { intros width t [z|] Ht Hw; [|by apply List.Forall_nil]. apply List.Forall_cons; [|by apply List.Forall_nil].
    split; [done|]. cbn [fst snd]. split; [by rewrite bytes_of_length|apply bytes_of_bytes]. }
  assert (∀ t bytes, t ∈ route_types →
         match bytes with Some bytes => length bytes = route_width m t ∧ Forall is_byte bytes | None => True end →
         Forall (route_attribute_ok m) (blob t bytes)) as Hb.
  { intros t [bytes|] Ht Hok; [|by apply List.Forall_nil]. apply List.Forall_cons; [|by apply List.Forall_nil].
    by split. }
  rewrite !Forall_app. unfold route_types, route_width in *. rewrite Hm in *.
  split_and!; try (apply Hs; (done || set_solver)); apply Hb; try set_solver.
  - destruct (wr_destination w) as [[prefix bytes]|]; [|done]. apply Hd.
Qed.

Lemma blob_types t bytes : fst <$> blob t bytes = match bytes with Some _ => [t] | None => [] end.
Proof. by destruct bytes. Qed.

Lemma route_attributes_types w : NoDup (fst <$> route_attributes w).
Proof.
  unfold route_attributes. rewrite !fmap_app, !scalar_types, !blob_types.
  destruct (wr_destination w), (wr_metric w), (wr_gateway w), (wr_oif w), (wr_cacheinfo w), (wr_preference w);
    by apply (bool_decide_unpack _); vm_compute.
Qed.

Lemma route_prefix_bounds w :
  route_ok w →
  ((wr_family w =? AF_INET) && (32 <? wr_dst_len w)
   || (wr_family w =? AF_INET6) && (128 <? wr_dst_len w)) = false.
Proof.
  intros (Hf & _ & _ & _ & _ & Hd & _). unfold wr_dst_len.
  destruct (wr_destination w) as [[prefix bytes]|]; destruct Hf as [E | E]; rewrite E in *; try done;
    destruct Hd as [Hd _]; cbn [from_option fst]; rewrite Z.eqb_refl; cbn [andb].
  - change (AF_INET =? AF_INET6) with false. rewrite orb_false_r. apply Z.ltb_ge. apply Hd.
  - change (AF_INET6 =? AF_INET) with false. apply Z.ltb_ge. apply Hd.
Qed.

Lemma pick_app {A} k (f : list Z → A) l l' x : pick k f (l ++ l') x = pick k f l' (pick k f l x).
Proof. apply fold_left_app. Qed.
Lemma pick_scalar {A} k (f : list Z → A) n t z x :
  pick k f (scalar order n t z) x
  = if t =? k then match z with Some z => f (bytes_of order n z) | None => x end else x.
Proof. destruct z; simpl; [done|by case_match]. Qed.
Lemma pick_blob {A} k (f : list Z → A) t z x :
  pick k f (blob t z) x = if t =? k then match z with Some z => f z | None => x end else x.
Proof. destruct z; simpl; [done|by case_match]. Qed.

Lemma has_app k l l' : has k (l ++ l') = has k l || has k l'.
Proof. apply existsb_app. Qed.
Lemma has_scalar k n t z : has k (scalar order n t z) = (t =? k) && bool_decide (is_Some z).
Proof. destruct z; simpl; rewrite ?orb_false_r, ?andb_true_r, ?andb_false_r; done. Qed.
Lemma has_blob k t z : has k (blob t z) = (t =? k) && bool_decide (is_Some z).
Proof. destruct z; simpl; rewrite ?orb_false_r, ?andb_true_r, ?andb_false_r; done. Qed.

Ltac eval_pick :=
  unfold route_attributes; rewrite ?pick_app, ?pick_scalar, ?pick_blob, ?has_app, ?has_scalar, ?has_blob;
  eval_types; cbn [andb orb].

Section Scan.
Context (m : RtMsg) (w : WireRoute) (Hw : route_ok w).

Lemma scan_table s : rs_table_attribute (route_read m (route_attributes w) s) = wr_table w.
Proof using Hw.
  rewrite (read_field m _ RTA_TABLE (number order)) by done. eval_pick.
  apply number_bytes_of. destruct Hw as (_ & _ & Ht & _). exact Ht.
Qed.

Lemma scan_metric s :
  rs_metric s = 0 → rs_metric (route_read m (route_attributes w) s) = default 0 (wr_metric w).
Proof using Hw.
  intros Hs. rewrite (read_field m _ RTA_PRIORITY (number order)) by done. eval_pick. rewrite Hs.
  destruct Hw as (_ & _ & _ & _ & _ & _ & _ & _ & Hx & _). destruct (wr_metric w); [|done].
  by apply number_bytes_of.
Qed.

Lemma scan_interface s :
  rs_interface s = None →
  rs_interface (route_read m (route_attributes w) s)
  = match wr_oif w with Some i => (interface_name i options).1 | None => None end.
Proof using Hw.
  intros Hs. rewrite (read_field m _ RTA_OIF (λ v, (interface_name (number order v) options).1)) by done.
  eval_pick. rewrite Hs. destruct Hw as (_ & _ & _ & _ & _ & _ & Ho & _). destruct (wr_oif w); [|done].
  by rewrite number_bytes_of.
Qed.

Lemma scan_gateway s :
  rs_gateway s = None → rtm_family m = wr_family w →
  rs_gateway (route_read m (route_attributes w) s) = address_text (wr_family w) <$> wr_gateway w.
Proof.
  intros Hs Hm. rewrite (read_field m _ RTA_GATEWAY (λ v, Some (address_text (rtm_family m) v))) by done.
  eval_pick. rewrite Hs, Hm. by destruct (wr_gateway w).
Qed.

Lemma scan_destination s :
  rs_destination s = (if wr_dst_len w =? 0 then "default"%string else EmptyString) →
  rtm_family m = wr_family w → rtm_dst_len m = wr_dst_len w →
  rs_destination (route_read m (route_attributes w) s)
  = match wr_destination w with
    | Some (prefix, bytes) => prefix_text (wr_family w) prefix bytes
    | None => "default"%string
    end.
Proof using Hw.
  intros Hs Hf Hd. rewrite (read_field m _ RTA_DST (λ v, if rtm_dst_len m =? 0 then "default"%string else
    prefix_text (rtm_family m) (rtm_dst_len m) v)) by done.
  eval_pick. rewrite Hs, Hf, Hd. destruct Hw as (_ & _ & _ & _ & _ & Hx & _). unfold wr_dst_len.
  destruct (wr_destination w) as [[prefix bytes]|]; [|done]. cbn [fmap option_fmap option_map snd from_option fst].
  by destruct (Z.eqb_spec prefix 0); [lia|].
Qed.

Lemma scan_exact s :
  rs_saw s = ∅ →
  rs_exact (route_read m (route_attributes w) s)
  = rs_exact s && match wr_oif w with Some i => (interface_name i options).2 | None => true end
    && default_or 0 (wr_preference w).
Proof using Hw.
  intros Hs. rewrite read_exact; [|apply route_attributes_types|].
  2: { apply Forall_forall. intros a _. rewrite Hs. set_solver. }
  destruct Hw as (_ & _ & _ & _ & _ & _ & Ho & _ & _ & Hc & Hp).
  rewrite <- andb_assoc. f_equal. unfold route_attributes. rewrite !forallb_app.
  assert (∀ n t z, forallb (λ a : Attribute, route_value_ok a.1 a.2) (scalar order n t z)
    = match z with Some z => route_value_ok t (bytes_of order n z) | None => true end) as Es.
  { intros n t [z|]; simpl; [apply andb_true_r|done]. }
  assert (∀ t z, forallb (λ a : Attribute, route_value_ok a.1 a.2) (blob t z)
    = match z with Some z => route_value_ok t z | None => true end) as Eb.
  { intros t [z|]; simpl; [apply andb_true_r|done]. }
  rewrite !Es, !Eb. unfold route_value_ok. eval_types.
  assert (∀ A (o : option A), match o with Some _ => true | None => true end = true) as Et by (by intros A []).
  rewrite !Et. cbn [andb].
  assert (match wr_cacheinfo w with Some z => Z.of_nat (length z) =? 32 | None => true end = true) as ->.
  { destruct (wr_cacheinfo w); [|done]. by destruct Hc as [-> _]. }
  rewrite andb_true_l. f_equal.
  - destruct (wr_oif w); [|done]. by rewrite number_bytes_of.
  - destruct (wr_preference w); [|done]. by rewrite number_bytes_of.
Qed.
End Scan.

Lemma route_scan_written w :
  route_ok w → let m := rtmsg_of order (route_header w) in
  route_of_scan m (route_read m (route_attributes w) (route_scan_start m)) = dumped_route w.
Proof.
  intros Hw m. pose proof Hw as (Hf & _ & _ & _ & _ & Hd & _).
  unfold m. rewrite route_header_fields by done. set (m' := {| rtm_family := _ |}). set (s := route_scan_start m').
  unfold route_of_scan. cbv zeta beta. rewrite !read_saw.
  rewrite (scan_table m' w Hw), (scan_metric m' w Hw s eq_refl), (scan_interface m' w Hw s eq_refl),
    (scan_gateway m' w s eq_refl eq_refl), (scan_destination m' w Hw s eq_refl eq_refl eq_refl),
    (scan_exact m' w Hw s eq_refl).
  unfold dumped_route.
  assert (∀ k (D : Decision (k ∈ rs_saw s)), bool_decide (k ∈ rs_saw s) = false) as Hempty.
  { intros k D. apply bool_decide_eq_false_2. set_solver. }
  rewrite !Hempty. eval_pick. rewrite ?orb_false_r.
  assert ((wr_dst_len w =? 0) || bool_decide (is_Some (snd <$> wr_destination w)) = true) as Hdst.
  { unfold wr_dst_len. destruct (wr_destination w); [|done]. apply orb_true_r. }
  cbn [s m' rtm_family rtm_dst_len rtm_src_len rtm_tos rtm_table rtm_protocol rtm_scope rtm_type rtm_flags
       route_scan_start rs_exact].
  rewrite Hdst. assert (is_ip_family (wr_family w) = true) as -> by (by destruct Hf as [-> | ->]).
  rewrite bool_decide_eq_true_2 by done. rewrite ?Z.eqb_refl.
  f_equal; [by rewrite andb_true_r|].
  destruct (wr_type w =? RTN_BLACKHOLE), (wr_type w =? RTN_UNREACHABLE), (wr_type w =? RTN_UNICAST);
    cbn [orb andb negb]; btauto.
Qed.

Lemma route_decodes `{!InetLaws H} w attributes :
  route_ok w → attributes ≡ₚ route_attributes w →
  decodes (decode_route_message order options)
    (route_header w ++ attributes_bytes order attributes) (dumped_route w).
Proof.
  intros Hw Hp junk. pose proof Hw as (Hf & _). unfold decode_route_message, decode_route. rewrite <- app_assoc.
  assert (length (route_header w) = 12%nat) as Hl by (unfold route_header; by rewrite length_app, bytes_of_length).
  rewrite length_app, Hl. destruct (Z.ltb_spec (Z.of_nat (12 + length (attributes_bytes order attributes))) 12); [lia|].
  rewrite fetch_in_bounds by (rewrite length_app; lia). rewrite take_app_length', drop_app_length' by done.
  cbn [rbind]. pose proof (route_header_fields w Hw) as Hh. set (m := rtmsg_of order (route_header w)) in *.
  assert (rtm_family m = wr_family w) as Em by (by rewrite Hh).
  assert (rtm_dst_len m = wr_dst_len w) as Ed by (by rewrite Hh).
  rewrite Em, Ed, route_prefix_bounds by done.
  assert (is_ip_family (wr_family w) = true) as -> by (by destruct Hf as [-> | ->]). cbn [negb].
  replace (Z.of_nat _ - 12) with (Z.of_nat (length (attributes_bytes order attributes))) by lia.
  pose proof (route_attributes_ok w m Hw Em) as Hok.
  rewrite (visit_written order _ attributes junk _ (route_read m (route_attributes w) (route_scan_start m))).
  - unfold on_some. cbn [rbind fmap option_fmap option_map]. unfold m. by rewrite route_scan_written.
  - rewrite Hp. eapply Forall_impl; [exact Hok|]. apply route_attribute_wire.
  - eapply (handles_orderless _ (route_attribute_ok m)).
    + intros a s Ha.
      apply (route_handles m); [by rewrite Em|done].
    + intros a b s. apply route_commutes.
    + apply route_attributes_types.
    + done.
    + done.
Qed.
End Routes.
