(* ===== verification/RtnetlinkClaims.v ===== *)
(** * What a dump delivers

    The kernel's inventory, cut into datagrams in any way and with its attributes in
    any order, arrives complete and in order; no byte string makes the decoder read
    outside its buffer, run on, or deliver part of an inventory; an identity is
    called exact only if the message holds nothing that would be lost. *)

From Stdlib Require Import ZArith Lia Ascii String Btauto.
From stdpp Require Import base gmap strings list.
From S2P Require Import Prelude ConfigTypes RoutingPlan ListParser InetModel KernelRoutes StateError RouteTable.
From S2P Require Import PolicyRules RtnetlinkCodec RtnetlinkFraming RtnetlinkWire RtnetlinkRoutes.
Open Scope Z_scope.

(** ** Sizes *)

Section Sizes.
Context (order : ByteOrder).

Lemma attributes_size l n :
  Forall attribute_ok l → Forall (λ a : Attribute, (length a.2 ≤ n)%nat) l →
  (length (attributes_bytes order l) ≤ (n + 8) * length l)%nat.
Proof.
  intros Hok Hn. induction l as [|a l IH]; [simpl; lia|].
  apply Forall_cons in Hok as [Ha Hok]. apply Forall_cons in Hn as [Hna Hn]. specialize (IH Hok Hn).
  change (attributes_bytes order (a :: l)) with (attribute_bytes order a ++ attributes_bytes order l).
  rewrite length_app. pose proof (attribute_bytes_length order a Ha). destruct Ha as (_ & Hl & _).
  pose proof (align4_bounds (4 + Z.of_nat (length a.2)) ltac:(lia)). cbn [length]. lia.
Qed.

Lemma rule_payload_ok u attributes :
  rule_ok u → attributes ≡ₚ rule_attributes order u →
  payload_ok RTM_NEWRULE (rule_header order u ++ attributes_bytes order attributes).
Proof.
  intros Hu Hp. pose proof (rule_attributes_ok order u Hu) as Hok.
  assert (length (attributes_bytes order attributes) ≤ 12 * length attributes)%nat.
  { apply (attributes_size _ 4); rewrite Hp; eapply Forall_impl; try exact Hok.
    - apply rule_attribute_wire.
    - intros a (_ & -> & _). unfold rule_width. case_match; lia. }
  assert (length attributes ≤ 7)%nat.
  { rewrite Hp. unfold rule_attributes, scalar. clear. rewrite !length_app. repeat case_match; simpl; lia. }
  unfold payload_ok, message_ok, rule_header. cbn [fst snd]. rewrite !length_app, bytes_of_length.
  unfold RTM_NEWRULE. simpl length. lia.
Qed.

Lemma route_payload_ok w attributes :
  route_ok w → attributes ≡ₚ route_attributes order w →
  payload_ok RTM_NEWROUTE (route_header order w ++ attributes_bytes order attributes).
Proof.
  intros Hw Hp. set (m := rtmsg_of order (route_header order w)).
  assert (rtm_family m = wr_family w) as Hm by (unfold m; by rewrite route_header_fields).
  pose proof (route_attributes_ok order w m Hw Hm) as Hok.
  assert (length (attributes_bytes order attributes) ≤ 40 * length attributes)%nat.
  { apply (attributes_size _ 32); rewrite Hp; eapply Forall_impl; try exact Hok.
    - apply route_attribute_wire.
    - intros a (_ & -> & _). unfold route_width, addr_len. repeat case_match; lia. }
  assert (length attributes ≤ 7)%nat.
  { rewrite Hp. unfold route_attributes, scalar, blob. clear. rewrite !length_app. repeat case_match; simpl; lia. }
  unfold payload_ok, message_ok, route_header. cbn [fst snd]. rewrite !length_app, bytes_of_length.
  unfold RTM_NEWROUTE. simpl length. lia.
Qed.
End Sizes.

(** ** Complete dumps *)

Definition not_interrupted (r : Received) : bool := match r with RecvInterrupted => false | _ => true end.

(** A datagram of the kernel. *)
Definition from_kernel (bytes : list Z) : Received := RecvDatagram false true 0 bytes.

(** The receive loop of both dumps, without limits. *)
Section ReceiveLoop.
Context {A : Type} (parse : list Z → result CodecFault (DumpBlock A)).

Fixpoint receive_all (received : list Received) (dumped : list A) : option (result DumpError (list A)) :=
  match received with
  | [] => None
  | RecvInterrupted :: received => receive_all received dumped
  | RecvFailed :: _ => Some (Throw DumpDidNotComplete)
  | RecvDatagram truncated name_valid sender bytes :: received =>
      match receive_block parse truncated name_valid sender bytes with
      | Throw e => Some (Throw e)
      | Ok block =>
          if is_done (db_state block) then Some (Ok (dumped ++ db_objects block))
          else receive_all received (dumped ++ db_objects block)
      end
  end.

Lemma receive_all_uninterrupted received dumped :
  receive_all received dumped = receive_all (List.filter not_interrupted received) dumped.
Proof.
  revert dumped. induction received as [|r received IH]; intros dumped; simpl; [done|].
  destruct r; simpl; [apply IH|done|]. destruct (receive_block _ _ _ _ _); [|done]. by rewrite IH.
Qed.

Lemma receive_all_extends received dumped objects :
  receive_all received dumped = Some (Ok objects) → dumped `prefix_of` objects.
Proof.
  revert dumped. induction received as [|r received IH]; intros dumped; simpl; [done|].
  destruct r; simpl; [apply IH|done|]. destruct (receive_block _ _ _ _ _) as [block|]; [|done].
  destruct (is_done _).
  - intros [= <-]. by apply prefix_app_r.
  - intros Hr. apply IH in Hr. etrans; [by apply prefix_app_r|exact Hr].
Qed.

(** No datagram makes the decoder fault. *)
Lemma receive_all_safe received dumped f :
  (∀ truncated name_valid sender bytes, RecvDatagram truncated name_valid sender bytes ∈ received →
     is_ok (parse bytes) = true) →
  receive_all received dumped ≠ Some (Throw (DumpFault f)).
Proof.
  revert dumped. induction received as [|r received IH]; intros dumped Hs; simpl; [done|].
  assert (∀ dumped, receive_all received dumped ≠ Some (Throw (DumpFault f))) as Hrest.
  { intros d. apply IH. intros t n sd bs Hin. apply (Hs t n sd). by right. }
  destruct r as [| |t n sd bs]; [apply Hrest|done|].
  specialize (Hs t n sd bs ltac:(by left)). unfold receive_block. destruct (_ || _); [done|].
  destruct (parse bs) as [block|]; [|done]. destruct (db_state block) eqn:E; try done; rewrite E; simpl;
    (apply Hrest || done).
Qed.

(** Datagrams [chunks] that are followed by more, and one that ends the dump. *)
Context {B : Type} (image : B → A) (wf : B → Prop) (bytes_of_chunk : bool → list B → list Z).
Context (Hparse : ∀ closing chunk, Forall wf chunk → bytes_of_chunk closing chunk ≠ [] →
  parse (bytes_of_chunk closing chunk)
  = Ok {| db_state := if closing then DumpDone else DumpMore; db_kernel_error := 0;
          db_objects := image <$> chunk |}).

Lemma receive_all_complete chunks last more dumped :
  Forall (λ chunk, Forall wf chunk ∧ bytes_of_chunk false chunk ≠ []) chunks →
  Forall wf last → bytes_of_chunk true last ≠ [] →
  receive_all ((from_kernel ∘ bytes_of_chunk false <$> chunks) ++ from_kernel (bytes_of_chunk true last) :: more) dumped
  = Some (Ok (dumped ++ (image <$> concat chunks ++ last))).
Proof using Hparse.
  intros Hc Hl Hne. revert dumped.
  assert (∀ closing chunk, Forall wf chunk → bytes_of_chunk closing chunk ≠ [] →
    receive_block parse false true 0 (bytes_of_chunk closing chunk)
    = Ok {| db_state := if closing then DumpDone else DumpMore; db_kernel_error := 0;
            db_objects := image <$> chunk |}) as Hb.
  { intros closing chunk Hok Hn. unfold receive_block. rewrite Hparse by done.
    destruct (bytes_of_chunk closing chunk); [done|]. by destruct closing. }
  induction Hc as [|chunk chunks [Hok Hn] _ IH]; intros dumped; cbn [fmap list_fmap app receive_all from_kernel compose].
  - rewrite Hb by done. by cbn [db_state is_done db_objects concat app].
  - unfold from_kernel at 1, compose at 1. rewrite Hb by done. cbn [db_state is_done db_objects].
    rewrite IH. cbn [concat]. by rewrite !fmap_app, <- !app_assoc.
Qed.
End ReceiveLoop.

Section Dumps.
Context `{Inet} (order : ByteOrder) (options : DumpOptions).

Definition parse_routes (bytes : list Z) : result CodecFault (DumpBlock DumpedRoute) :=
  parse_raw_rtnetlink_route_dump_block order (Some bytes) (Z.of_nat (length bytes)) options.
Definition parse_rules (bytes : list Z) : result CodecFault (DumpBlock DumpedRule) :=
  parse_raw_rtnetlink_rule_dump_block order (Some bytes) (Z.of_nat (length bytes)) options.

Lemma dump_routes_receive received dumped :
  dump_raw_routes order options received dumped = receive_all parse_routes received dumped.
Proof.
  revert dumped. induction received as [|r received IH]; intros dumped; simpl; [done|].
  destruct r; [apply IH|done|]. fold parse_routes. destruct (receive_block _ _ _ _ _); [|done]. by rewrite IH.
Qed.

(** A pass that is in time. *)
Definition in_time (pass : LimitedReceive) : Prop :=
  0 < lr_remaining pass ∧ lr_timeout_set pass = true ∧ lr_expired pass = false.

Definition within (maximum : option nat) (n : nat) : Prop :=
  match maximum with Some m => (n ≤ m)%nat | None => True end.

Lemma dump_rules_receive maximum passes dumped objects :
  (is_Some maximum → Forall in_time passes) → within maximum (length objects) →
  receive_all parse_rules (lr_received <$> passes) dumped = Some (Ok objects) →
  dump_raw_rules order options maximum passes dumped = Some (Ok objects).
Proof.
  intros Hin Hm. revert dumped. induction passes as [|pass passes IH]; intros dumped; simpl; [done|].
  assert (is_Some maximum → Forall in_time passes) as Hin'.
  { intros Hs. by apply Hin, Forall_cons in Hs as [_ ?]. }
  assert (bool_decide (is_Some maximum) && (lr_remaining pass <=? 0) = false
    ∧ bool_decide (is_Some maximum) && negb (lr_timeout_set pass) = false
    ∧ bool_decide (is_Some maximum) && lr_expired pass = false) as (-> & -> & ->).
  { destruct maximum as [maximum|]; [|done].
    specialize (Hin ltac:(done)). apply Forall_cons in Hin as [(Ht & -> & ->) _].
    by destruct (Z.leb_spec (lr_remaining pass) 0); [lia|]. }
  destruct (lr_received pass); simpl; [by apply IH|done|]. fold parse_rules.
  destruct (receive_block _ _ _ _ _) as [block|]; [|done]. intros Hr.
  assert (dumped ++ db_objects block `prefix_of` objects) as Hp.
  { destruct (is_done _); [by injection Hr as ->|by apply receive_all_extends in Hr]. }
  apply prefix_length in Hp. rewrite length_app in Hp.
  assert (match maximum with Some maximum => (maximum - length dumped <? length (db_objects block))%nat
          | None => false end = false) as ->.
  { destruct maximum; simpl in *; [|done]. apply Nat.ltb_ge. lia. }
  destruct (is_done _); [done|by apply IH].
Qed.

(** Every buffer is parsed without a fault. *)
Definition datagram_ok (r : Received) : Prop :=
  match r with
  | RecvDatagram _ _ _ bytes => Forall is_byte bytes ∧ Z.of_nat (length bytes) ≤ 65536
  | _ => True
  end.

Lemma parse_routes_closed bytes :
  Forall is_byte bytes → Z.of_nat (length bytes) < 2 ^ 32 - 3 → closed_result (parse_routes bytes).
Proof. intros Hb Hl. apply parse_block_closed; [apply decode_message_safe|done|done]. Qed.

Lemma parse_rules_closed bytes :
  Forall is_byte bytes → Z.of_nat (length bytes) < 2 ^ 32 - 3 → closed_result (parse_rules bytes).
Proof.
  intros Hb Hl. apply parse_block_closed; [|done|done].
  intros payload size Hr. by apply on_some_safe, decode_rule_safe.
Qed.

Lemma closed_is_ok {A} (x : result CodecFault (DumpBlock A)) : closed_result x → is_ok x = true.
Proof. by intros (b & -> & _). Qed.

Lemma dump_rules_safe maximum passes dumped f :
  Forall (λ pass, datagram_ok (lr_received pass)) passes →
  dump_raw_rules order options maximum passes dumped ≠ Some (Throw (DumpFault f)).
Proof.
  intros Hok. revert dumped. induction Hok as [|pass passes Hp _ IH]; intros dumped; simpl; [done|].
  destruct (_ && _); [done|]. destruct (_ && _); [done|].
  destruct (lr_received pass) as [| |t n sd bs]; [apply IH|done|].
  change (receive_block _ t n sd bs) with (receive_block parse_rules t n sd bs).
  assert (is_ok (parse_rules bs) = true) as Hs by (apply closed_is_ok, parse_rules_closed; [apply Hp|destruct Hp; lia]).
  unfold receive_block. destruct (_ || _); [done|]. destruct (parse_rules bs) as [block|]; [|done].
  assert (∀ (late many final : bool) dumped', (if late then Some (Throw DumpTimedOut)
    else if many then Some (Throw DumpExceedsRowLimit)
    else if final then Some (Ok dumped') else dump_raw_rules order options maximum passes dumped')
    ≠ Some (Throw (DumpFault f))) as Hrest.
  { intros [] [] [] dumped'; (done || apply IH). }
  destruct (db_state block); try done; apply Hrest.
Qed.

(** ** Messages of the kernel *)

(** A route or a rule with the order in which its attributes are written. *)
Definition route_payload (x : WireRoute * list Attribute) : list Z :=
  route_header order x.1 ++ attributes_bytes order x.2.
Definition rule_payload (x : WireRule * list Attribute) : list Z :=
  rule_header order x.1 ++ attributes_bytes order x.2.
Definition route_written (x : WireRoute * list Attribute) : Prop :=
  route_ok x.1 ∧ x.2 ≡ₚ route_attributes order x.1.
Definition rule_written (x : WireRule * list Attribute) : Prop :=
  rule_ok x.1 ∧ x.2 ≡ₚ rule_attributes order x.1.

Definition route_datagram (closing : bool) (chunk : list (WireRoute * list Attribute)) : list Z :=
  datagram order options RTM_NEWROUTE closing (route_payload <$> chunk).
Definition rule_datagram (closing : bool) (chunk : list (WireRule * list Attribute)) : list Z :=
  datagram order options RTM_NEWRULE closing (rule_payload <$> chunk).

Lemma parse_route_datagram `{!InetLaws H} closing chunk :
  options_ok options → Forall route_written chunk → route_datagram closing chunk ≠ [] →
  parse_routes (route_datagram closing chunk)
  = Ok {| db_state := if closing then DumpDone else DumpMore; db_kernel_error := 0;
          db_objects := (λ x, dumped_route options x.1) <$> chunk |}.
Proof.
  intros Ho Hw Hne. apply parse_written; [done|done| | |done].
  - apply Forall_fmap. eapply Forall_impl; [exact Hw|]. intros x [Hx Hp]. by apply route_payload_ok.
  - apply Forall2_fmap, Forall_Forall2_diag. eapply Forall_impl; [exact Hw|].
    intros x [Hx Hp]. by apply route_decodes.
Qed.

Lemma parse_rule_datagram closing chunk :
  options_ok options → Forall rule_written chunk → rule_datagram closing chunk ≠ [] →
  parse_rules (rule_datagram closing chunk)
  = Ok {| db_state := if closing then DumpDone else DumpMore; db_kernel_error := 0;
          db_objects := (λ x, dumped_rule x.1) <$> chunk |}.
Proof.
  intros Ho Hw Hne. apply parse_written; [done|done| | |done].
  - apply Forall_fmap. eapply Forall_impl; [exact Hw|]. intros x [Hx Hp]. by apply rule_payload_ok.
  - apply Forall2_fmap, Forall_Forall2_diag. eapply Forall_impl; [exact Hw|].
    intros x [Hx Hp]. by apply rule_decodes.
Qed.
End Dumps.

Lemma closing_nonempty order options expected payloads : datagram order options expected true payloads ≠ [].
Proof.
  intros E. apply (f_equal length) in E. unfold datagram in E. rewrite length_app in E.
  pose proof (message_bytes_nonempty order options _ (done_message_ok order)). simpl in E. lia.
Qed.

Lemma datagram_nonempty order options expected payloads :
  payloads ≠ [] → datagram order options expected false payloads ≠ [].
Proof.
  intros Hne. destruct payloads as [|payload payloads]; [done|]. intros E. apply (f_equal length) in E.
  unfold datagram, messages_bytes in E. cbn [fmap list_fmap concat] in E. rewrite !length_app in E.
  unfold message_bytes, pad in E. rewrite !length_app, bytes_of_length in E. simpl in E. lia.
Qed.

Lemma fmap_nonempty {A B} (f : A → B) (l : list A) : l ≠ [] → f <$> l ≠ [].
Proof. by destruct l. Qed.

(** ** The properties *)


(** A rule dump delivers the kernel's rules, under the same conditions; with
    limits, if every pass is in time and there are not more rules than the limit. *)
Theorem rule_dump_roundtrip `{Inet} order options maximum chunks last passes more :
  options_ok options →
  Forall (λ chunk, Forall (rule_written order) chunk ∧ chunk ≠ []) chunks →
  Forall (rule_written order) last →
  List.filter not_interrupted (lr_received <$> passes)
    = (from_kernel ∘ rule_datagram order options false <$> chunks)
      ++ from_kernel (rule_datagram order options true last) :: more →
  (is_Some maximum → Forall in_time passes) →
  within maximum (length (concat chunks ++ last)) →
  dump_raw_rules order options maximum passes []
  = Some (Ok ((λ x, dumped_rule x.1) <$> concat chunks ++ last)).
Proof.
  intros Ho Hc Hl Hr Hin Hm. apply dump_rules_receive; [done|by rewrite length_fmap|].
  rewrite receive_all_uninterrupted, Hr.
  rewrite (receive_all_complete _ (λ x, dumped_rule x.1) (rule_written order)); [done| | |done|].
  - intros closing chunk Hw Hne. by apply parse_rule_datagram.
  - eapply Forall_impl; [exact Hc|]. intros chunk [Hw Hne]. split; [done|].
    by apply datagram_nonempty, fmap_nonempty.
  - apply closing_nonempty.
Qed.

(** C25. Decoding is safe for every byte string. Whatever the receive buffer holds,
    both parsers copy only bytes inside it and come to an end, and a block that is not
    complete and consistent carries no object; so no sequence of datagrams makes
    either dump fault. *)
Theorem dump_reads_in_bounds `{Inet} order options :
  (∀ bytes, Forall is_byte bytes → Z.of_nat (length bytes) ≤ 65536 →
     closed_result (parse_raw_rtnetlink_route_dump_block order (Some bytes) (Z.of_nat (length bytes)) options)
     ∧ closed_result (parse_raw_rtnetlink_rule_dump_block order (Some bytes) (Z.of_nat (length bytes)) options))
  ∧ (∀ received f, Forall datagram_ok received →
       dump_raw_routes order options received [] ≠ Some (Throw (DumpFault f)))
  ∧ (∀ maximum passes f, Forall (λ pass, datagram_ok (lr_received pass)) passes →
       dump_raw_rules order options maximum passes [] ≠ Some (Throw (DumpFault f))).
Proof.
  split_and!.
  - intros bytes Hb Hl. split; [apply parse_routes_closed|apply parse_rules_closed]; (done || lia).
  - intros received f Hok. rewrite dump_routes_receive. apply receive_all_safe.
    intros t n sd bs Hin. rewrite Forall_forall in Hok. destruct (Hok _ Hin) as [Hb Hl].
    apply closed_is_ok, parse_routes_closed; [done|lia].
  - intros maximum passes f. apply dump_rules_safe.
Qed.

(** ** Tables above 255 *)

(** The table number that Linux writes into a header whose table does not fit. *)
Definition RT_TABLE_COMPAT : Z := 252.

(** What Linux writes into the 8-bit field of the header. *)
Definition linux_header_table (table : Z) : Z := if table <? 256 then table else RT_TABLE_COMPAT.

(** No route and no rule of a table above 255 is exact when the kernel writes the
    compatibility number into the header: the decoder accepts a header table only if
    it is unspecified or repeats the attribute. *)
Theorem compat_table_never_exact `{Inet} :
  (∀ options w, wr_header_table w = linux_header_table (wr_table w) → 256 ≤ wr_table w →
     dr_exact_identity_representable (dumped_route options w) = false)
  ∧ (∀ u, wu_header_table u = linux_header_table (wu_table u) → 256 ≤ wu_table u →
     du_exact_identity_representable (dumped_rule u) = false).
Proof.
  assert (∀ t, 256 ≤ t → (linux_header_table t =? 0) || (linux_header_table t =? t) = false) as Hn.
  { intros t Ht. unfold linux_header_table, RT_TABLE_COMPAT. destruct (Z.ltb_spec t 256); [lia|].
    apply orb_false_iff. rewrite !Z.eqb_neq. lia. }
  split.
  - intros options w Hh Ht. cbn [dumped_route dr_exact_identity_representable]. rewrite Hh, Hn by done. btauto.
  - intros u Hh Ht. cbn [dumped_rule du_exact_identity_representable]. rewrite Hh, Hn by done. btauto.
Qed.

(** ** A dump *)

Definition sample_options : DumpOptions :=
  {| do_sequence := 7; do_port_id := 42; do_interface_names := Some [(1, Some "lo"); (3, Some "wg0")] |}.

Definition sample_route : WireRoute :=
  {| wr_family := AF_INET; wr_header_table := 150; wr_table := 150; wr_tos := 0; wr_protocol := 186;
     wr_scope := 0; wr_type := RTN_UNICAST; wr_flags := 0; wr_destination := Some (24, [192; 0; 2; 0]);
     wr_oif := Some 3; wr_gateway := Some [10; 0; 0; 1]; wr_metric := Some 10; wr_cacheinfo := None;
     wr_preference := None |}.

Definition sample_reject : WireRoute :=
  {| wr_family := AF_INET6; wr_header_table := 151; wr_table := 151; wr_tos := 0; wr_protocol := 186;
     wr_scope := 0; wr_type := RTN_UNREACHABLE; wr_flags := 0; wr_destination := None;
     wr_oif := Some 1; wr_gateway := None; wr_metric := Some 100; wr_cacheinfo := Some (repeat 0 32);
     wr_preference := Some 0 |}.

Definition sample_rule : WireRule :=
  {| wu_family := AF_INET; wu_header_table := 150; wu_action := FR_ACT_TO_TBL; wu_flags := 0;
     wu_table := 150; wu_priority := 1000; wu_fwmark := Some 0x10000; wu_fwmask := Some 0xff0000;
     wu_suppress_ifgroup := None; wu_suppress_prefix := Some u32_max; wu_protocol := Some 0 |}.

(** The attributes in the order of the definition. *)
Definition in_order (w : WireRoute) : WireRoute * list Attribute := (w, route_attributes LittleEndian w).
Definition rule_in_order (u : WireRule) : WireRule * list Attribute := (u, rule_attributes LittleEndian u).

Lemma sample_route_written : route_written LittleEndian (in_order sample_route).
Proof. split; [|done]. repeat split; vm_compute; try (intros [=]); try (by left); repeat constructor; done. Qed.

Lemma sample_reject_written : route_written LittleEndian (in_order sample_reject).
Proof. split; [|done]. repeat split; vm_compute; try (intros [=]); try (by right); repeat constructor; done. Qed.

Lemma sample_rule_written : rule_written LittleEndian (rule_in_order sample_rule).
Proof. split; [|done]. repeat split; vm_compute; try (intros [=]); try (by left); repeat constructor; done. Qed.

Lemma sample_options_ok : options_ok sample_options.
Proof. by repeat split. Qed.


Definition sample_pass (r : Received) : LimitedReceive :=
  {| lr_remaining := 1000000; lr_timeout_set := true; lr_received := r; lr_expired := false |}.

Lemma rule_dump_roundtrip_witness :
  dump_raw_rules LittleEndian sample_options (Some 4096%nat)
    [sample_pass (from_kernel (rule_datagram LittleEndian sample_options true [rule_in_order sample_rule]))] []
  = Some (Ok [dumped_rule sample_rule])
  ∧ du_exact_identity_representable (dumped_rule sample_rule) = true.
Proof.
  split; [|vm_compute; reflexivity].
  apply (rule_dump_roundtrip LittleEndian sample_options (Some 4096%nat) [] [rule_in_order sample_rule] _ []).
  - exact sample_options_ok.
  - apply List.Forall_nil.
  - apply List.Forall_cons; [exact sample_rule_written|apply List.Forall_nil].
  - reflexivity.
  - intros _. apply List.Forall_cons; [|apply List.Forall_nil]. by repeat split.
  - vm_compute. lia.
Defined.

(** Eight bytes where a header of sixteen is expected. *)
Lemma dump_reads_in_bounds_witness :
  closed_result (parse_raw_rtnetlink_route_dump_block LittleEndian (Some [16; 0; 0; 0; 24; 0; 2; 0]) 8 sample_options).
Proof.
  apply (proj1 (dump_reads_in_bounds LittleEndian sample_options) [16; 0; 0; 0; 24; 0; 2; 0]);
    [by repeat constructor|simpl; lia].
Defined.

(** * Exact identities

    A decoded object is called exact only if its message holds nothing that the
    object would lose: a plain header, and attributes of known types, each once and
    without type flags. *)

(** The attributes of a message, in the order in which they are visited. *)
Definition collect (views : list AttributeView) (a : AttributeView)
    : result CodecFault (option (list AttributeView)) := Ok (Some (views ++ [a])).

(** Attributes that an object of these types can express. *)
Definition plain_views (types : list Z) (views : list AttributeView) : Prop :=
  NoDup (av_type <$> views) ∧ Forall (λ a, av_has_type_flags a = false ∧ av_type a ∈ types) views.

Section Scans.
Context (order : ByteOrder) {St : Type}.
Context (visitor : St → AttributeView → result CodecFault (option St)).
Context (exact : St → bool) (saw : St → gset Z) (types : list Z).
Context (Hvisitor : ∀ (s : St) (a : AttributeView) (s' : St), visitor s a = Ok (Some s') → exact s' = true →
  exact s = true ∧ av_has_type_flags a = false ∧ av_type a ∈ types ∧ (av_type a ∉ saw s)
  ∧ saw s' = {[av_type a]} ∪ saw s).

Lemma visit_loop_plain fuel p remaining s s' acc :
  visit_loop order visitor fuel p remaining s = Ok (Some s') → exact s' = true →
  ∃ views, visit_loop order collect fuel p remaining acc = Ok (Some (acc ++ views))
    ∧ plain_views types views ∧ Forall (λ a, av_type a ∉ saw s) views ∧ exact s = true.
Proof using Hvisitor.
  revert p remaining s acc. induction fuel as [|fuel IH]; intros p remaining s acc; cbn [visit_loop].
  { destruct (remaining <=? 0); [|done]. intros [= <-] He. exists []. rewrite app_nil_r. split_and!; try done.
    split; [apply NoDup_nil_2|done]. }
  destruct (remaining <=? 0).
  { intros [= <-] He. exists []. rewrite app_nil_r. split_and!; try done. split; [apply NoDup_nil_2|done]. }
  destruct (remaining <? 4); [done|]. destruct (fetch 4 p) as [header|]; [|done]. cbn [rbind].
  destruct (_ || _); [done|]. set (a := {| av_type := _ |}).
  destruct (visitor s a) as [[s1|]|] eqn:Hv; [|done|done]. cbn [rbind collect].
  destruct (remaining <? align4 _).
  - destruct (negb (at_offset order 0 2 header =? remaining)); [done|]. intros [= <-] He. destruct (Hvisitor _ _ _ Hv He) as (H1 & H2 & H3 & H4 & H5).
    exists [a]. split_and!; [done|split|by repeat constructor|done].
    + apply NoDup_singleton.
    + by repeat constructor.
  - intros Hr He. destruct (IH _ _ _ (acc ++ [a]) Hr He) as (views & E & [Hnd Hp] & Hs & He1).
    destruct (Hvisitor _ _ _ Hv He1) as (H1 & H2 & H3 & H4 & H5).
    exists (a :: views). rewrite E. split_and!; [by rewrite <- app_assoc| | |done].
    + split; [|by constructor]. rewrite fmap_cons. apply NoDup_cons. split; [|done].
      intros Hin. apply list_elem_of_fmap in Hin as (b & Eb & Hb). rewrite Forall_forall in Hs.
      apply (Hs b Hb). rewrite H5, <- Eb. set_solver.
    + constructor; [done|]. rewrite Forall_forall in Hs |- *. intros b Hb Hin.
      apply (Hs b Hb). rewrite H5. set_solver.
Qed.
End Scans.

Section Exact.
Context `{Inet} (order : ByteOrder) (options : DumpOptions).

Definition rule_types : list Z :=
  [FRA_TABLE; FRA_PRIORITY; FRA_FWMARK; FRA_FWMASK; kRuleAttributeSuppressIfgroup;
   kRuleAttributeSuppressPrefix; kRuleAttributeProtocol].

Ltac known_type := by apply (bool_decide_unpack _); vm_compute.

Lemma on_some_inv {A B} (x : result CodecFault (option A)) (f : A → B) b :
  on_some x f = Ok (Some b) → ∃ a, x = Ok (Some a) ∧ b = f a.
Proof. destruct x as [[a|]|]; [|done|done]. intros [= <-]. by exists a. Qed.

Lemma rs_once_exact t ok s :
  rs_exact (rs_once t ok s) = true → rs_exact s = true ∧ (t ∉ rs_saw s) ∧ ok = true.
Proof.
  cbn [rs_once rs_exact]. rewrite !andb_true_iff, negb_true_iff, bool_decide_eq_false. tauto.
Qed.

Lemma us_once_exact t ok s :
  us_exact (us_once t ok s) = true → us_exact s = true ∧ (t ∉ us_saw s) ∧ ok = true.
Proof.
  cbn [us_once us_exact]. rewrite !andb_true_iff, negb_true_iff, bool_decide_eq_false. tauto.
Qed.

Lemma route_visitor_plain m s a s' :
  route_visitor order m options s a = Ok (Some s') → rs_exact s' = true →
  rs_exact s = true ∧ av_has_type_flags a = false ∧ av_type a ∈ route_types ∧ (av_type a ∉ rs_saw s)
  ∧ rs_saw s' = {[av_type a]} ∪ rs_saw s.
Proof.
  intros Hv He. set (s0 := if av_has_type_flags a then rs_inexact s else s).
  assert (rs_exact s0 = true → rs_exact s = true ∧ av_has_type_flags a = false) as Hs0.
  { unfold s0. by destruct (av_has_type_flags a). }
  assert (rs_saw s0 = rs_saw s) as Hsaw by (unfold s0; by destruct (av_has_type_flags a)).
  assert (av_type a ∈ route_types → ∀ ok, rs_exact s' = rs_exact (rs_once (av_type a) ok s0) →
    rs_saw s' = rs_saw (rs_once (av_type a) ok s0) →
    rs_exact s = true ∧ av_has_type_flags a = false ∧ av_type a ∈ route_types ∧ (av_type a ∉ rs_saw s)
    ∧ rs_saw s' = {[av_type a]} ∪ rs_saw s) as Hdone.
  { intros Ht ok E1 E2. rewrite E1 in He. apply rs_once_exact in He as (Hx & Hn & _).
    apply Hs0 in Hx as [? ?]. rewrite E2. cbn [rs_once rs_saw]. rewrite Hsaw in *. done. }
  revert Hv. unfold route_visitor. fold s0. cbv zeta.
  repeat match goal with
  | |- (if av_type a =? ?k then _ else _) = _ → _ =>
      destruct (Z.eqb_spec (av_type a) k) as [Et|_];
      [intros Hv; assert (k = RTA_MULTIPATH ∨ av_type a ∈ route_types) as Ht
         by (rewrite Et; (by left) || (right; known_type))|]
  end; try (apply on_some_inv in Hv as (v & _ & ->)).
  6: { injection Hv as <-. by apply rs_once_exact in He as (_ & _ & ?). }
  3: { destruct (interface_name v options) as [name u] eqn:En. destruct Ht as [Ht|Ht]; [done|].
       by apply (Hdone Ht u). }
  all: try (destruct Ht as [Ht|Ht]; [done|]; by apply (Hdone Ht true)).
  - destruct Ht as [Ht|Ht]; [done|]. injection Hv as <-. by apply (Hdone Ht (av_payload_size a =? 32)).
  - destruct Ht as [Ht|Ht]; [done|]. by apply (Hdone Ht (v =? 0)).
  - by intros [= <-].
Qed.

Lemma rule_visitor_plain s a s' :
  rule_visitor order s a = Ok (Some s') → us_exact s' = true →
  us_exact s = true ∧ av_has_type_flags a = false ∧ av_type a ∈ rule_types ∧ (av_type a ∉ us_saw s)
  ∧ us_saw s' = {[av_type a]} ∪ us_saw s.
Proof.
  intros Hv He. set (s0 := if av_has_type_flags a then us_inexact s else s).
  assert (us_exact s0 = true → us_exact s = true ∧ av_has_type_flags a = false) as Hs0.
  { unfold s0. by destruct (av_has_type_flags a). }
  assert (us_saw s0 = us_saw s) as Hsaw by (unfold s0; by destruct (av_has_type_flags a)).
  assert (av_type a ∈ rule_types → ∀ ok, us_exact s' = us_exact (us_once (av_type a) ok s0) →
    us_saw s' = us_saw (us_once (av_type a) ok s0) →
    us_exact s = true ∧ av_has_type_flags a = false ∧ av_type a ∈ rule_types ∧ (av_type a ∉ us_saw s)
    ∧ us_saw s' = {[av_type a]} ∪ us_saw s) as Hdone.
  { intros Ht ok E1 E2. rewrite E1 in He. apply us_once_exact in He as (Hx & Hn & _).
    apply Hs0 in Hx as [? ?]. rewrite E2. cbn [us_once us_saw]. rewrite Hsaw in *. done. }
  revert Hv. unfold rule_visitor. fold s0. cbv zeta.
  destruct ((av_type a =? kRuleAttributeSuppressIfgroup) || (av_type a =? kRuleAttributeSuppressPrefix)) eqn:Es.
  { assert (av_type a ∈ rule_types) as Ht.
    { apply orb_true_iff in Es as [Es|Es]; apply Z.eqb_eq in Es as ->; known_type. }
    repeat match goal with |- (if av_type a =? ?k then _ else _) = _ → _ => destruct (av_type a =? k) end;
      intros Hv; apply on_some_inv in Hv as (v & _ & ->);
      first [by apply (Hdone Ht true)|by apply (Hdone Ht (v =? u32_max))]. }
  repeat match goal with
  | |- (if av_type a =? ?k then _ else _) = _ → _ =>
      destruct (Z.eqb_spec (av_type a) k) as [Et|_];
      [intros Hv; apply on_some_inv in Hv as (v & _ & ->);
       assert (av_type a ∈ rule_types) as Ht by (rewrite Et; known_type);
       first [by apply (Hdone Ht true)|by apply (Hdone Ht (v =? 0))]|]
  end.
  by intros [= <-].
Qed.

(** ** Exact objects *)

Definition plain_route (m : RtMsg) : Prop :=
  is_family (rtm_family m)
  ∧ (rtm_type m = RTN_UNICAST ∨ rtm_type m = RTN_BLACKHOLE ∨ rtm_type m = RTN_UNREACHABLE)
  ∧ rtm_src_len m = 0 ∧ rtm_tos m = 0 ∧ rtm_scope m = 0 ∧ rtm_flags m = 0.

Definition plain_rule (m : FibRuleHdr) : Prop :=
  is_family (fr_family m) ∧ fr_dst_len m = 0 ∧ fr_src_len m = 0 ∧ fr_tos m = 0
  ∧ fr_res1 m = 0 ∧ fr_res2 m = 0 ∧ fr_action m = FR_ACT_TO_TBL ∧ fr_flags m = 0.

Lemma is_ip_family_spec f : is_ip_family f = true → is_family f.
Proof. unfold is_ip_family. rewrite orb_true_iff, !Z.eqb_eq. done. Qed.

(** C24. An identity is called exact only if decoding loses nothing. Whatever bytes a
    route or a rule message holds: if the decoded object is marked as exact, its
    header has no source selector, type of service, scope, flags or unusual kind, and
    its attributes are of the known types, each at most once and without type
    flags. *)
Theorem exact_identity_lossless payload size :
  (∀ r, decode_route order options payload size = Ok (Some r) → dr_exact_identity_representable r = true →
     plain_route (rtmsg_of order (take 12 payload))
     ∧ ∃ views, visit_attributes order collect (drop 12 payload) (size - 12) [] = Ok (Some views)
         ∧ plain_views route_types views)
  ∧ (∀ r, decode_rule order payload size = Ok (Some r) → du_exact_identity_representable r = true →
     plain_rule (fib_rule_hdr_of order (take 12 payload))
     ∧ ∃ views, visit_attributes order collect (drop 12 payload) (size - 12) [] = Ok (Some views)
         ∧ plain_views rule_types views).
Proof.
  split; intros r.
  - unfold decode_route. destruct (size <? 12); [done|]. unfold fetch.
    destruct (12 <=? length payload)%nat; [|done]. cbn [rbind]. destruct (_ || _); [done|].
    intros Hd He. apply on_some_inv in Hd as (s & Hs & ->).
    cbn [route_of_scan dr_exact_identity_representable] in He. rewrite !andb_true_iff in He.
    destruct He as ((((He & _) & _) & _) & _).
    destruct (visit_loop_plain order _ rs_exact rs_saw route_types (route_visitor_plain _) _ _ _ _ _ [] Hs He)
      as (views & Hviews & Hplain & _ & Hstart).
    cbn [route_scan_start rs_exact] in Hstart. rewrite !andb_true_iff, !orb_true_iff, !Z.eqb_eq in Hstart.
    destruct Hstart as (((((Hf & Ht) & ?) & ?) & ?) & ?). split; [|by exists views].
    split; [by apply is_ip_family_spec|]. tauto.
  - unfold decode_rule. destruct (size <? 12); [done|]. unfold fetch.
    destruct (12 <=? length payload)%nat; [|done]. cbn [rbind].
    intros Hd He. apply on_some_inv in Hd as (s & Hs & ->).
    cbn [rule_of_scan du_exact_identity_representable] in He. rewrite andb_true_iff in He. destruct He as [He _].
    destruct (visit_loop_plain order _ us_exact us_saw rule_types rule_visitor_plain _ _ _ _ _ [] Hs He)
      as (views & Hviews & Hplain & _ & Hstart).
    cbn [rule_scan_start us_exact] in Hstart. rewrite !andb_true_iff, !Z.eqb_eq in Hstart.
    destruct Hstart as (((((((Hf & ?) & ?) & ?) & ?) & ?) & ?) & ?). split; [|by exists views].
    split; [by apply is_ip_family_spec|]. tauto.
Qed.
End Exact.

(** The message of the sample route: its five attributes are plain. *)
Lemma exact_identity_lossless_witness :
  let payload := route_payload LittleEndian (in_order sample_route) in
  plain_route (rtmsg_of LittleEndian (take 12 payload))
  ∧ ∃ views, visit_attributes LittleEndian collect (drop 12 payload) (Z.of_nat (length payload) - 12) []
             = Ok (Some views) ∧ plain_views route_types views.
Proof.
  apply (proj1 (exact_identity_lossless LittleEndian sample_options
    (route_payload LittleEndian (in_order sample_route))
    (Z.of_nat (length (route_payload LittleEndian (in_order sample_route)))))
    (dumped_route sample_options sample_route)); vm_compute; reflexivity.
Defined.
