(* ===== verification/DependencyAnalysis.v ===== *)
(** * Dependency analysis

    src/src/config/dependency_analysis.cpp: which parts of a configuration a deletion
    reaches. The requested targets are checked, urltest groups that lose their last
    member are added until nothing changes, and every place that names a removed list,
    outbound or DNS server is reported. *)

From Stdlib Require Import ZArith Lia Ascii String.
From stdpp Require Import base gmap strings list.
From S2P Require Import Prelude ConfigTypes.
Open Scope Z_scope.

(** ** Data *)

(** [enum class DependencyEntityKind] *)
Inductive DependencyEntityKind := KList | KOutbound | KDnsServer.

(** [enum class DependencyRelation] *)
Inductive DependencyRelation :=
| UsesList | RoutesTo | DetoursVia | ContainsMember | UsesDnsServer | FallbackTo.

(** [enum class DependencyConsequence] *)
Inductive DependencyConsequence := CModify | CDelete | CDisconnect.

(** [enum class DependencyDependentKind] *)
Inductive DependencyDependentKind :=
| DRoutingRule | DDnsRule | DDnsServer | DOutboundGroup | DList | DListRefresh | DDnsFallback.

#[export] Instance DependencyEntityKind_eq_dec : EqDecision DependencyEntityKind.
Proof. solve_decision. Defined.
#[export] Instance DependencyRelation_eq_dec : EqDecision DependencyRelation.
Proof. solve_decision. Defined.
#[export] Instance DependencyDependentKind_eq_dec : EqDecision DependencyDependentKind.
Proof. solve_decision. Defined.

(** [struct DependencyTarget] *)
Record DependencyTarget := {
  dt_kind : DependencyEntityKind;
  dt_id : string;
  dt_cascaded : bool;
}.

(** [struct DependencyReference] *)
Record DependencyReference := {
  de_target : DependencyTarget;
  de_dependent_kind : DependencyDependentKind;
  de_dependent_id : string;
  de_relation : DependencyRelation;
  de_consequence : DependencyConsequence;
  de_path : string;
  de_href : string;
}.

(** [struct DependencyAnalysis] *)
Record Analysis := {
  an_targets : list DependencyTarget;
  an_references : list DependencyReference;
  an_safe_to_delete : bool;
}.

(** The three [std::invalid_argument]s; the last one is the model's own. *)
Inductive DependencyError :=
| NoTarget | EmptyTargetId | UnknownTarget (id : string) | CascadeOutOfFuel.

(** ** Parts of a configuration *)

Definition config_outbounds (cfg : Config) : list Outbound := default [] (cfg_outbounds cfg).
Definition config_route_rules (cfg : Config) : list RouteRule := default [] (cfg_route cfg ≫= rc_rules).
Definition config_dns_rules (cfg : Config) : list DnsRule := default [] (cfg_dns cfg ≫= dn_rules).
Definition config_dns_servers (cfg : Config) : list DnsServer := default [] (cfg_dns cfg ≫= dn_servers).
Definition config_dns_fallback (cfg : Config) : list string := default [] (cfg_dns cfg ≫= dn_fallback).
Definition outbound_groups (ob : Outbound) : list OutboundGroup := default [] (ob_outbound_groups ob).

(** A [std::map] in the order of its keys. *)
Definition ordered_entries {A} (m : gmap string A) : list (string * A) :=
  stable_sort (λ a b, string_ltb a.1 b.1) (map_to_list m).

Definition config_lists (cfg : Config) : list (string * ListConfig) :=
  from_option ordered_entries [] (cfg_lists cfg).

Definition is_urltest (ob : Outbound) : bool := bool_decide (ob_type ob = URLTEST).

(** [target_exists] *)
Definition target_exists (cfg : Config) (kind : DependencyEntityKind) (id : string) : bool :=
  match kind with
  | KList => bool_decide (is_Some (cfg_lists cfg ≫= lookup id))
  | KOutbound => existsb (λ ob, String.eqb (ob_tag ob) id) (config_outbounds cfg)
  | KDnsServer => existsb (λ server, String.eqb (dns_tag server) id) (config_dns_servers cfg)
  end.

(** [remaining_members] *)
Definition remaining_members (group : OutboundGroup) (removed : gset string) : list string :=
  List.filter (λ tag, negb (bool_decide (tag ∈ removed))) (og_outbounds group).

(** ** Targets *)

Definition same_target (kind : DependencyEntityKind) (id : string) (t : DependencyTarget) : bool :=
  bool_decide (dt_kind t = kind) && String.eqb (dt_id t) id.

(** The targets and the removed objects; [seen_targets] is the set of the targets'
    kinds and ids. *)
Record TargetScan := {
  ts_targets : list DependencyTarget;
  ts_lists : gset string;
  ts_outbounds : gset string;
  ts_dns_servers : gset string;
}.

Definition seen_target (kind : DependencyEntityKind) (id : string) (s : TargetScan) : bool :=
  existsb (same_target kind id) (ts_targets s).

Definition push_target (t : DependencyTarget) (s : TargetScan) : TargetScan :=
  {| ts_targets := ts_targets s ++ [t];
     ts_lists := match dt_kind t with KList => {[dt_id t]} ∪ ts_lists s | _ => ts_lists s end;
     ts_outbounds := match dt_kind t with KOutbound => {[dt_id t]} ∪ ts_outbounds s | _ => ts_outbounds s end;
     ts_dns_servers := match dt_kind t with KDnsServer => {[dt_id t]} ∪ ts_dns_servers s | _ => ts_dns_servers s end |}.

(** The body of the loop over the requested targets. *)
Definition request_target (cfg : Config) (s : TargetScan) (requested : DependencyTarget)
    : result DependencyError TargetScan :=
  let kind := dt_kind requested in let id := dt_id requested in
  if empty_str id then Throw EmptyTargetId
  else if negb (target_exists cfg kind id) then Throw (UnknownTarget id)
  else if seen_target kind id s then Ok s
  else Ok (push_target {| dt_kind := kind; dt_id := id; dt_cascaded := false |} s).

Definition request_targets (cfg : Config) (requested : list DependencyTarget)
    : result DependencyError TargetScan :=
  match requested with
  | [] => Throw NoTarget
  | _ => rfold (request_target cfg)
           {| ts_targets := []; ts_lists := ∅; ts_outbounds := ∅; ts_dns_servers := ∅ |} requested
  end.

(** ** The cascade *)

(** Whether a urltest outbound keeps a group with a member. *)
Definition has_remaining_group (ob : Outbound) (removed : gset string) : bool :=
  existsb (λ group, match remaining_members group removed with [] => false | _ => true end)
    (outbound_groups ob).

(** One outbound in a pass of the cascade; the flag is [changed]. *)
Definition cascade_step (s : TargetScan * bool) (ob : Outbound) : TargetScan * bool :=
  let '(scan, changed) := s in
  if negb (is_urltest ob) || bool_decide (ob_tag ob ∈ ts_outbounds scan) then (scan, changed)
  else if has_remaining_group ob (ts_outbounds scan) then (scan, changed)
  else
    ({| ts_targets := if seen_target KOutbound (ob_tag ob) scan then ts_targets scan
          else ts_targets scan ++ [{| dt_kind := KOutbound; dt_id := ob_tag ob; dt_cascaded := true |}];
        ts_lists := ts_lists scan; ts_outbounds := {[ob_tag ob]} ∪ ts_outbounds scan;
        ts_dns_servers := ts_dns_servers scan |}, true).

Definition cascade_pass (outbounds : list Outbound) (scan : TargetScan) : TargetScan * bool :=
  fold_left cascade_step outbounds (scan, false).

(** The loop [while (changed)]. *)
Fixpoint cascade_loop (fuel : nat) (outbounds : list Outbound) (scan : TargetScan)
    : result DependencyError TargetScan :=
  match fuel with
  | O => Throw CascadeOutOfFuel
  | S fuel =>
      let '(scan, changed) := cascade_pass outbounds scan in
      if changed then cascade_loop fuel outbounds scan else Ok scan
  end.

(** ** References *)

Definition same_key (a b : DependencyReference) : bool :=
  same_target (dt_kind (de_target a)) (dt_id (de_target a)) (de_target b)
  && bool_decide (de_dependent_kind a = de_dependent_kind b)
  && String.eqb (de_dependent_id a) (de_dependent_id b)
  && bool_decide (de_relation a = de_relation b).

(** [add_reference]; [seen] is the set of the keys of the references. *)
Definition add_reference (references : list DependencyReference) (reference : DependencyReference)
    : list DependencyReference :=
  if existsb (same_key reference) references then references else references ++ [reference].

Definition named (kind : DependencyEntityKind) (id : string) : DependencyTarget :=
  {| dt_kind := kind; dt_id := id; dt_cascaded := false |}.

Definition mark_rule_deleted (kind : DependencyDependentKind) (id : string) (r : DependencyReference)
    : DependencyReference :=
  if bool_decide (de_dependent_kind r = kind) && String.eqb (de_dependent_id r) id
     && bool_decide (de_relation r = UsesList)
  then {| de_target := de_target r; de_dependent_kind := de_dependent_kind r;
          de_dependent_id := de_dependent_id r; de_relation := de_relation r;
          de_consequence := CDelete; de_path := de_path r; de_href := de_href r |}
  else r.

(** The references of a loop: each element may add one. *)
Definition add_each {A} (reference : A → option DependencyReference) (l : list A)
    (references : list DependencyReference) : list DependencyReference :=
  fold_left (λ references x, match reference x with Some r => add_reference references r | None => references end)
    l references.

Definition indexed {A} (l : list A) : list (string * A) := imap (λ i x, (to_string (Z.of_nat i), x)) l.

Definition is_removed (removed : gset string) (id : string) : bool := bool_decide (id ∈ removed).

(** The references of a rule to removed lists. *)
Definition list_reference (kind : DependencyDependentKind) (id path href : string) (removed : gset string)
    (name : string) : option DependencyReference :=
  if is_removed removed name
  then Some {| de_target := named KList name; de_dependent_kind := kind; de_dependent_id := id;
               de_relation := UsesList; de_consequence := CModify; de_path := path; de_href := href |}
  else None.

Definition removed_count (removed : gset string) (l : list string) : nat :=
  length (List.filter (is_removed removed) l).

(** The list references of a rule; the rule goes if they were all it matched on. *)
Definition rule_list_references (kind : DependencyDependentKind) (id path href : string)
    (removed : gset string) (lists : list string) (only_lists : bool)
    (references : list DependencyReference) : list DependencyReference :=
  let references := add_each (list_reference kind id path href removed) lists references in
  let count := removed_count removed lists in
  if (0 <? count)%nat && (count =? length lists)%nat && only_lists
  then mark_rule_deleted kind id <$> references else references.

Definition add_optional (references : list DependencyReference) (reference : option DependencyReference)
    : list DependencyReference :=
  match reference with Some r => add_reference references r | None => references end.

Definition rule_path (section id field : string) : string :=
  String.append section (String.append id field).

Definition rule_outbound_reference (s : TargetScan) (id : string) (rule : RouteRule)
    : option DependencyReference :=
  if is_removed (ts_outbounds s) (rr_outbound rule)
  then Some {| de_target := named KOutbound (rr_outbound rule); de_dependent_kind := DRoutingRule;
               de_dependent_id := id; de_relation := RoutesTo; de_consequence := CDelete;
               de_path := rule_path "route.rules[" id "].outbound";
               de_href := rule_path "/routing-rules/" id "/edit" |}
  else None.

Definition rule_fallback_reference (s : TargetScan) (id : string) (rule : RouteRule)
    : option DependencyReference :=
  match rr_failure_policy rule, rr_fallback_outbound rule with
  | Some FALLBACK, Some fallback =>
      if is_removed (ts_outbounds s) fallback
      then Some {| de_target := named KOutbound fallback; de_dependent_kind := DRoutingRule;
                   de_dependent_id := id; de_relation := FallbackTo; de_consequence := CModify;
                   de_path := rule_path "route.rules[" id "].fallback_outbound";
                   de_href := rule_path "/routing-rules/" id "/edit" |}
      else None
  | _, _ => None
  end.

Definition route_rule_references (s : TargetScan) (references : list DependencyReference)
    (entry : string * RouteRule) : list DependencyReference :=
  let '(id, rule) := entry in
  let references := rule_list_references DRoutingRule id (rule_path "route.rules[" id "].list")
    (rule_path "/routing-rules/" id "/edit") (ts_lists s) (route_rule_lists rule)
    (negb (route_rule_has_non_list_match_condition rule)) references in
  let references := add_optional references (rule_outbound_reference s id rule) in
  add_optional references (rule_fallback_reference s id rule).

Definition rule_server_reference (s : TargetScan) (id : string) (rule : DnsRule)
    : option DependencyReference :=
  if is_removed (ts_dns_servers s) (dnr_server rule)
  then Some {| de_target := named KDnsServer (dnr_server rule); de_dependent_kind := DDnsRule;
               de_dependent_id := id; de_relation := UsesDnsServer; de_consequence := CDelete;
               de_path := rule_path "dns.rules[" id "].server";
               de_href := rule_path "/dns-rules/" id "/edit" |}
  else None.

Definition dns_rule_references (s : TargetScan) (references : list DependencyReference)
    (entry : string * DnsRule) : list DependencyReference :=
  let '(id, rule) := entry in
  let references := rule_list_references DDnsRule id (rule_path "dns.rules[" id "].list")
    (rule_path "/dns-rules/" id "/edit") (ts_lists s) (dnr_list rule) true references in
  add_optional references (rule_server_reference s id rule).

(** A reference of a detour. *)
Definition detour_reference (kind : DependencyDependentKind) (id : string) (consequence : DependencyConsequence)
    (path href : string) (removed : gset string) (detour : string) : option DependencyReference :=
  if is_removed removed detour
  then Some {| de_target := named KOutbound detour; de_dependent_kind := kind; de_dependent_id := id;
               de_relation := DetoursVia; de_consequence := consequence; de_path := path; de_href := href |}
  else None.

Definition dns_server_reference (s : TargetScan) (server : DnsServer) : option DependencyReference :=
  dns_detour server ≫= detour_reference DDnsServer (dns_tag server) CDisconnect
    (String.append "dns.servers[" (String.append (dns_tag server) "].detour"))
    (String.append "/dns-servers/" (String.append (dns_tag server) "/edit")) (ts_outbounds s).

Definition dns_fallback_reference (s : TargetScan) (tag : string) : option DependencyReference :=
  if is_removed (ts_dns_servers s) tag
  then Some {| de_target := named KDnsServer tag; de_dependent_kind := DDnsFallback; de_dependent_id := tag;
               de_relation := FallbackTo; de_consequence := CModify; de_path := "dns.fallback";
               de_href := "/dns-servers" |}
  else None.

(** A primary detour and its fallbacks. *)
Definition chain_references (kind : DependencyDependentKind) (id path href : string) (removed : gset string)
    (detour : option string) (fallbacks : option (list string)) (references : list DependencyReference)
    : list DependencyReference :=
  let references := add_each (detour_reference kind id CDisconnect (String.append path "detour") href removed)
                      (option_list detour) references in
  add_each (λ entry, detour_reference kind id CModify
              (String.append path (String.append "fallback_detours[" (String.append entry.1 "]"))) href
              removed entry.2) (indexed (default [] fallbacks)) references.

Definition list_refresh_references (s : TargetScan) (refresh : option ListRefreshConfig)
    (references : list DependencyReference) : list DependencyReference :=
  match refresh with
  | Some refresh => chain_references DListRefresh "global" "list_refresh." "/general?tab=general"
                      (ts_outbounds s) (lr_detour refresh) (lr_fallback_detours refresh) references
  | None => references
  end.

Definition list_references (s : TargetScan) (references : list DependencyReference)
    (entry : string * ListConfig) : list DependencyReference :=
  let '(name, list) := entry in
  chain_references DList name (String.append "lists." (String.append name "."))
    (String.append "/lists/" (String.append name "/edit"))
    (ts_outbounds s) (lc_detour list) (lc_fallback_detours list) references.

(** The first target with this id, if it is one of the outbounds that [cascaded]. *)
Definition find_target (cascaded : bool) (id : string) (targets : list DependencyTarget)
    : option DependencyTarget :=
  List.find (λ t, same_target KOutbound id t && Bool.eqb (dt_cascaded t) cascaded) targets.

(** The path of a group. *)
Definition group_path (ob : Outbound) (index : string) : string :=
  String.append "outbounds[" (String.append (ob_tag ob)
    (String.append "].outbound_groups[" (String.append index "]"))).
Definition group_href (ob : Outbound) : string :=
  String.append "/outbounds/" (String.append (ob_tag ob) "/edit").

(** The references of the members of all groups of an outbound. *)
Definition member_references (reference : string → string → option DependencyReference) (ob : Outbound)
    (references : list DependencyReference) : list DependencyReference :=
  fold_left (λ references '(index, group), add_each (reference index) (og_outbounds group) references)
    (indexed (outbound_groups ob)) references.

(** The requested members of a group that is removed with them. *)
Definition cascaded_member_reference (s : TargetScan) (ob : Outbound) (index member : string)
    : option DependencyReference :=
  match find_target false member (ts_targets s) with
  | Some target =>
      Some {| de_target := target; de_dependent_kind := DOutboundGroup; de_dependent_id := ob_tag ob;
              de_relation := ContainsMember; de_consequence := CDelete;
              de_path := group_path ob index; de_href := group_href ob |}
  | None => None
  end.

Definition cascaded_group_references (s : TargetScan) (references : list DependencyReference) (ob : Outbound)
    : list DependencyReference :=
  match find_target true (ob_tag ob) (ts_targets s) with
  | None => references
  | Some _ => member_references (cascaded_member_reference s ob) ob references
  end.

(** The removed members of a group that stays. *)
Definition surviving_member_reference (s : TargetScan) (ob : Outbound) (index member : string)
    : option DependencyReference :=
  if is_removed (ts_outbounds s) member
  then Some {| de_target := named KOutbound member; de_dependent_kind := DOutboundGroup;
               de_dependent_id := String.append (ob_tag ob) (String.append ":" index);
               de_relation := ContainsMember; de_consequence := CModify;
               de_path := group_path ob index; de_href := group_href ob |}
  else None.

Definition surviving_group_references (s : TargetScan) (references : list DependencyReference) (ob : Outbound)
    : list DependencyReference :=
  if negb (is_urltest ob) || is_removed (ts_outbounds s) (ob_tag ob) then references
  else member_references (surviving_member_reference s ob) ob references.

(** The loops of [analyze_dependencies] behind the cascade. *)
Definition collect_references (cfg : Config) (s : TargetScan) : list DependencyReference :=
  let references := fold_left (route_rule_references s) (indexed (config_route_rules cfg)) [] in
  let references := fold_left (dns_rule_references s) (indexed (config_dns_rules cfg)) references in
  let references := add_each (dns_server_reference s) (config_dns_servers cfg) references in
  let references := add_each (dns_fallback_reference s) (config_dns_fallback cfg) references in
  let references := list_refresh_references s (cfg_list_refresh cfg) references in
  let references := fold_left (list_references s) (config_lists cfg) references in
  let references := fold_left (cascaded_group_references s) (config_outbounds cfg) references in
  fold_left (surviving_group_references s) (config_outbounds cfg) references.

(** The flag of the first target with the kind and id. *)
Definition settle_cascaded (targets : list DependencyTarget) (r : DependencyReference) : DependencyReference :=
  match List.find (same_target (dt_kind (de_target r)) (dt_id (de_target r))) targets with
  | None => r
  | Some t =>
      {| de_target := {| dt_kind := dt_kind (de_target r); dt_id := dt_id (de_target r);
                         dt_cascaded := dt_cascaded t |};
         de_dependent_kind := de_dependent_kind r; de_dependent_id := de_dependent_id r;
         de_relation := de_relation r; de_consequence := de_consequence r;
         de_path := de_path r; de_href := de_href r |}
  end.

(** ** The analysis *)

Definition analyze_dependencies (cfg : Config) (requested : list DependencyTarget)
    : result DependencyError Analysis :=
  let! scan := request_targets cfg requested in
  let outbounds := config_outbounds cfg in
  let! scan := cascade_loop (S (length outbounds)) outbounds scan in
  let references := collect_references cfg scan in
  Ok {| an_targets := ts_targets scan;
        an_references := settle_cascaded (ts_targets scan) <$> references;
        an_safe_to_delete := match references with [] => true | _ => false end
          && negb (existsb dt_cascaded (ts_targets scan)) |}.
