(* ===== verification/DependencyClaims.v ===== *)
(** * The contract of the dependency analysis

    The analysis always ends; it refuses exactly the requests that name nothing; it
    removes the least set of outbounds closed under losing the last member, and it
    reports exactly the removed objects that something else names. *)

From Stdlib Require Import ZArith Lia Ascii String.
From stdpp Require Import base gmap strings list.
From S2P Require Import Prelude ConfigTypes DependencyAnalysis.
Open Scope Z_scope.

(** * What the dependency analysis finds

    The cascade ends and computes the least set of outbounds that is closed under losing
    the last member; a removed object is reported if and only if something names it. *)

(** ** The cascade *)

(** The outbounds that go: the requested ones, and the urltest outbounds all of whose
    members go. *)
Inductive Removed (outbounds : list Outbound) (requested : gset string) : string → Prop :=
| removed_requested tag : tag ∈ requested → Removed outbounds requested tag
| removed_emptied ob :
    ob ∈ outbounds → ob_type ob = URLTEST →
    (∀ group member, group ∈ outbound_groups ob → member ∈ og_outbounds group →
       Removed outbounds requested member) →
    Removed outbounds requested (ob_tag ob).

Section Cascade.
Context (outbounds : list Outbound).

Definition fires (s : TargetScan) (ob : Outbound) : bool :=
  is_urltest ob && negb (bool_decide (ob_tag ob ∈ ts_outbounds s))
  && negb (has_remaining_group ob (ts_outbounds s)).

Lemma has_remaining_spec ob removed :
  has_remaining_group ob removed = false ↔
  ∀ group member, group ∈ outbound_groups ob → member ∈ og_outbounds group → member ∈ removed.
Proof.
  unfold has_remaining_group. rewrite <- not_true_iff_false, existsb_exists. split.
  - intros Hn group member Hg Hm. apply dec_stable. intros Hr. apply Hn. exists group.
    split; [by apply list_elem_of_In|]. unfold remaining_members.
    assert (In member (List.filter (λ tag, negb (bool_decide (tag ∈ removed))) (og_outbounds group))) as Hin.
    { apply filter_In. split; [by apply list_elem_of_In|]. by rewrite bool_decide_eq_false_2. }
    by destruct (List.filter _ _).
  - intros Hall (group & Hg & Hr). unfold remaining_members in Hr.
    destruct (List.filter _ _) as [|member l] eqn:E; [done|].
    assert (In member (List.filter (λ tag, negb (bool_decide (tag ∈ removed))) (og_outbounds group))) as Hin
      by (rewrite E; by left).
    apply filter_In in Hin as [Hm Hn]. apply negb_true_iff, bool_decide_eq_false in Hn.
    apply Hn, (Hall group); by apply list_elem_of_In.
Qed.

Lemma fires_spec s ob :
  fires s ob = true →
  ob_type ob = URLTEST ∧ (ob_tag ob ∉ ts_outbounds s)
  ∧ ∀ group member, group ∈ outbound_groups ob → member ∈ og_outbounds group → member ∈ ts_outbounds s.
Proof.
  unfold fires. rewrite !andb_true_iff, !negb_true_iff, bool_decide_eq_false, has_remaining_spec.
  unfold is_urltest. rewrite bool_decide_eq_true. tauto.
Qed.

(** What the cascade has found so far, from the requested targets [start]. *)
Definition cascade_inv (start s : TargetScan) : Prop :=
  ∃ found : list string,
    ts_targets s = ts_targets start
      ++ ((λ tag, {| dt_kind := KOutbound; dt_id := tag; dt_cascaded := true |}) <$> found)
    ∧ ts_outbounds s = ts_outbounds start ∪ list_to_set found
    ∧ ts_lists s = ts_lists start ∧ ts_dns_servers s = ts_dns_servers start
    ∧ NoDup found ∧ (∀ tag, tag ∈ found → tag ∉ ts_outbounds start)
    ∧ ∀ tag, tag ∈ ts_outbounds s → Removed outbounds (ts_outbounds start) tag.

(** The ids of the outbounds among the targets are the removed outbounds. *)
Definition tracked (s : TargetScan) : Prop :=
  ∀ tag, seen_target KOutbound tag s = bool_decide (tag ∈ ts_outbounds s).

Lemma cascade_step_fires s changed ob :
  tracked s →
  cascade_step (s, changed) ob
  = if fires s ob then
      ({| ts_targets := ts_targets s ++ [{| dt_kind := KOutbound; dt_id := ob_tag ob; dt_cascaded := true |}];
          ts_lists := ts_lists s; ts_outbounds := {[ob_tag ob]} ∪ ts_outbounds s;
          ts_dns_servers := ts_dns_servers s |}, true)
    else (s, changed).
Proof.
  intros Ht. unfold cascade_step, fires. destruct (is_urltest ob); [|done]. cbn [negb orb andb].
  destruct (bool_decide (ob_tag ob ∈ ts_outbounds s)) eqn:Hin; [done|]. cbn [negb orb andb].
  destruct (has_remaining_group ob (ts_outbounds s)); [done|]. by rewrite Ht, Hin.
Qed.

Lemma tracked_push s tag :
  tracked s →
  tracked {| ts_targets := ts_targets s ++ [{| dt_kind := KOutbound; dt_id := tag; dt_cascaded := true |}];
             ts_lists := ts_lists s; ts_outbounds := {[tag]} ∪ ts_outbounds s;
             ts_dns_servers := ts_dns_servers s |}.
Proof.
  intros Ht tag'. unfold seen_target. cbn [ts_targets ts_outbounds]. rewrite existsb_app.
  fold (seen_target KOutbound tag' s). rewrite Ht. cbn [existsb]. unfold same_target. cbn [dt_kind dt_id].
  rewrite (bool_decide_eq_true_2 (KOutbound = KOutbound)) by done. cbn [andb]. rewrite orb_false_r.
  destruct (String.eqb_spec tag tag') as [->|Hne].
  - rewrite orb_true_r. symmetry. apply bool_decide_eq_true_2. set_solver.
  - rewrite orb_false_r. apply bool_decide_ext. set_solver.
Qed.

Lemma fires_inv start s ob :
  ob ∈ outbounds → cascade_inv start s → fires s ob = true →
  cascade_inv start
    {| ts_targets := ts_targets s ++ [{| dt_kind := KOutbound; dt_id := ob_tag ob; dt_cascaded := true |}];
       ts_lists := ts_lists s; ts_outbounds := {[ob_tag ob]} ∪ ts_outbounds s;
       ts_dns_servers := ts_dns_servers s |}.
Proof.
  intros Hob (found & Et & Eo & El & Ed & Hnd & Hnew & Hrem) Hf.
  apply fires_spec in Hf as (Hut & Hout & Hempty).
  exists (found ++ [ob_tag ob]). cbn [ts_targets ts_outbounds ts_lists ts_dns_servers]. split_and!.
  - by rewrite Et, fmap_app, app_assoc.
  - rewrite Eo, list_to_set_app_L. set_solver.
  - done.
  - done.
  - apply NoDup_app. split_and!; [done| |apply NoDup_singleton].
    intros tag Hin ->%list_elem_of_singleton. apply Hout. rewrite Eo. set_solver.
  - intros tag. rewrite elem_of_app, list_elem_of_singleton. intros [Hin | ->]; [by apply Hnew|].
    intros Hin. apply Hout. rewrite Eo. set_solver.
  - intros tag. rewrite elem_of_union, elem_of_singleton. intros [-> | Hin]; [|by apply Hrem].
    apply removed_emptied; [done..|]. intros group member Hg Hm. apply Hrem. by apply (Hempty group).
Qed.

(** How many outbounds are left. *)
Definition left_over (obs : list Outbound) (s : TargetScan) : nat :=
  length (List.filter (λ ob, negb (bool_decide (ob_tag ob ∈ ts_outbounds s))) obs).

Lemma left_over_le obs s s' :
  ts_outbounds s ⊆ ts_outbounds s' → (left_over obs s' ≤ left_over obs s)%nat.
Proof.
  intros Hs. unfold left_over. induction obs as [|ob obs IH]; simpl; [done|].
  destruct (decide (ob_tag ob ∈ ts_outbounds s)).
  - rewrite !bool_decide_eq_true_2 by set_solver. done.
  - rewrite (bool_decide_eq_false_2 (_ ∈ ts_outbounds s)) by done. simpl. destruct (negb _); simpl; lia.
Qed.

Lemma left_over_lt obs s s' ob :
  ts_outbounds s ⊆ ts_outbounds s' → ob ∈ obs → ob_tag ob ∉ ts_outbounds s →
  ob_tag ob ∈ ts_outbounds s' → (left_over obs s' < left_over obs s)%nat.
Proof.
  intros Hs Hin Hn Hy. induction obs as [|o obs IH]; [by apply elem_of_nil in Hin|].
  pose proof (left_over_le obs s s' Hs) as Hle. unfold left_over in *. simpl.
  apply elem_of_cons in Hin as [<- | Hin].
  - rewrite (bool_decide_eq_false_2 (_ ∈ ts_outbounds s)) by done.
    rewrite (bool_decide_eq_true_2 (_ ∈ ts_outbounds s')) by done. simpl. lia.
  - specialize (IH Hin). destruct (decide (ob_tag o ∈ ts_outbounds s)).
    + rewrite !bool_decide_eq_true_2 by set_solver. done.
    + rewrite (bool_decide_eq_false_2 (_ ∈ ts_outbounds s)) by done. simpl. destruct (negb _); simpl; lia.
Qed.

(** A pass: the invariant stays; without a change nothing can fire. *)
Lemma pass_spec start obs : (∀ ob, ob ∈ obs → ob ∈ outbounds) → ∀ s changed,
  cascade_inv start s → tracked s →
  let '(s', changed') := fold_left cascade_step obs (s, changed) in
  cascade_inv start s' ∧ tracked s' ∧ ts_outbounds s ⊆ ts_outbounds s'
  ∧ (changed' = false → changed = false ∧ s' = s ∧ ∀ ob, ob ∈ obs → fires s ob = false)
  ∧ (changed' = true → changed = true ∨ (left_over outbounds s' < left_over outbounds s)%nat).
Proof.
  induction obs as [|ob obs IH]; intros Hsub s changed Hinv Ht.
  { simpl. split_and!; try done. 1: intros ->; split_and!; [done..|]. 1: by intros ob ?%elem_of_nil.
    intros ->. by left. }
  cbn [fold_left]. rewrite cascade_step_fires by done.
  assert (∀ ob', ob' ∈ obs → ob' ∈ outbounds) as Hsub' by (intros; apply Hsub; by right).
  destruct (fires s ob) eqn:Hf.
  - set (s1 := {| ts_targets := _ |}).
    pose proof (fires_inv start s ob (Hsub ob (list_elem_of_here _ _)) Hinv Hf) as Hinv1. fold s1 in Hinv1.
    specialize (IH Hsub' s1 true Hinv1 (tracked_push s _ Ht)).
    destruct (fold_left cascade_step obs (s1, true)) as [s' changed'].
    destruct IH as (Hi & Htr & Hss & Hno & _). split_and!; try done.
    + unfold s1 in Hss. cbn [ts_outbounds] in Hss. set_solver.
    + intros ->. destruct (Hno eq_refl) as [? _]. done.
    + intros _. right. apply (left_over_lt _ _ _ ob).
      * unfold s1 in Hss. cbn [ts_outbounds] in Hss. set_solver.
      * apply Hsub. by left.
      * by apply fires_spec in Hf as (_ & ? & _).
      * unfold s1 in Hss. cbn [ts_outbounds] in Hss. set_solver.
  - specialize (IH Hsub' s changed Hinv Ht). destruct (fold_left cascade_step obs (s, changed)) as [s' changed'].
    destruct IH as (Hi & Htr & Hss & Hno & Hyes). split_and!; try done.
    intros ->. destruct (Hno eq_refl) as (-> & -> & Hall). split_and!; try done.
    intros ob' [-> | Hin]%elem_of_cons; [done|by apply Hall].
Qed.

Lemma cascade_loop_spec start fuel s :
  cascade_inv start s → tracked s → (left_over outbounds s < fuel)%nat →
  ∃ s', cascade_loop fuel outbounds s = Ok s' ∧ cascade_inv start s' ∧ tracked s'
    ∧ ∀ ob, ob ∈ outbounds → fires s' ob = false.
Proof.
  revert s. induction fuel as [|fuel IH]; intros s Hinv Ht Hf; [lia|].
  cbn [cascade_loop]. unfold cascade_pass.
  pose proof (pass_spec start outbounds (λ _ H, H) s false Hinv Ht) as Hp.
  destruct (fold_left cascade_step outbounds (s, false)) as [s1 [|]].
  - destruct Hp as (Hi & Htr & _ & _ & Hyes). destruct (Hyes eq_refl) as [?|Hlt]; [done|].
    apply IH; [done|done|lia].
  - destruct Hp as (Hi & Htr & _ & Hno & _). destruct (Hno eq_refl) as (_ & -> & Hall). by exists s.
Qed.

(** The fixed point is the closure. *)
Lemma fixpoint_closed start s :
  cascade_inv start s → (∀ ob, ob ∈ outbounds → fires s ob = false) →
  ∀ tag, Removed outbounds (ts_outbounds start) tag → tag ∈ ts_outbounds s.
Proof.
  intros (found & _ & Eo & _) Hno. fix IH 2. intros tag [tag' Hin|ob Hob Hut Hall].
  - rewrite Eo. set_solver.
  - specialize (Hno ob Hob). destruct (decide (ob_tag ob ∈ ts_outbounds s)) as [|Hn]; [done|exfalso].
    unfold fires in Hno. rewrite bool_decide_eq_false_2 in Hno by done.
    unfold is_urltest in Hno. rewrite bool_decide_eq_true_2 in Hno by done. cbn [andb negb] in Hno.
    apply negb_false_iff in Hno.
    assert (has_remaining_group ob (ts_outbounds s) = false) as E; [|by rewrite E in Hno].
    apply has_remaining_spec. intros group member Hg Hm. apply IH. by apply (Hall group).
Qed.
End Cascade.

(** ** The requested targets *)

Definition removed_of (kind : DependencyEntityKind) (s : TargetScan) : gset string :=
  match kind with KList => ts_lists s | KOutbound => ts_outbounds s | KDnsServer => ts_dns_servers s end.

Definition requested_ids (kind : DependencyEntityKind) (requested : list DependencyTarget) : gset string :=
  list_to_set (dt_id <$> List.filter (λ t, bool_decide (dt_kind t = kind)) requested).

Lemma elem_of_requested kind id requested :
  id ∈ requested_ids kind requested ↔ ∃ t, t ∈ requested ∧ dt_kind t = kind ∧ dt_id t = id.
Proof.
  unfold requested_ids. rewrite elem_of_list_to_set, list_elem_of_fmap. split.
  - intros (t & -> & Ht). apply list_elem_of_In, filter_In in Ht as [Ht Hk].
    exists t. split_and!; [by apply list_elem_of_In|by apply bool_decide_eq_true in Hk|done].
  - intros (t & Ht & Hk & <-). exists t. split; [done|].
    apply list_elem_of_In, filter_In. split; [by apply list_elem_of_In|by apply bool_decide_eq_true].
Qed.

(** The scan knows each target by its kind and id, and none of them is a consequence. *)
Definition plain_scan (s : TargetScan) : Prop :=
  (∀ kind tag, seen_target kind tag s = bool_decide (tag ∈ removed_of kind s))
  ∧ Forall (λ t, dt_cascaded t = false) (ts_targets s).

Lemma plain_push s kind tag :
  plain_scan s → plain_scan (push_target (named kind tag) s).
Proof.
  intros [Ht Hc]. split.
  - intros kind' tag'. unfold seen_target. cbn [push_target ts_targets]. rewrite existsb_app.
    fold (seen_target kind' tag' s). rewrite Ht. cbn [existsb]. unfold same_target. cbn [named dt_kind dt_id].
    rewrite orb_false_r.
    destruct kind, kind'; cbn [removed_of push_target named dt_kind dt_id ts_lists ts_outbounds ts_dns_servers];
      try (rewrite (bool_decide_eq_false_2 (_ = _)) by done; cbn [andb]; by rewrite orb_false_r);
      (rewrite (bool_decide_eq_true_2 (_ = _)) by done; cbn [andb];
       destruct (String.eqb_spec tag tag') as [->|Hne];
       [rewrite orb_true_r; symmetry; apply bool_decide_eq_true_2; set_solver
       |rewrite orb_false_r; apply bool_decide_ext; set_solver]).
  - cbn [push_target ts_targets]. apply Forall_app. split; [done|]. by repeat constructor.
Qed.

Definition valid_target (cfg : Config) (t : DependencyTarget) : Prop :=
  empty_str (dt_id t) = false ∧ target_exists cfg (dt_kind t) (dt_id t) = true.

Lemma removed_push kind kind' tag s :
  removed_of kind' (push_target (named kind tag) s)
  = if decide (kind = kind') then {[tag]} ∪ removed_of kind' s else removed_of kind' s.
Proof. by destruct kind, kind'. Qed.

Lemma request_step cfg s t :
  plain_scan s →
  match request_target cfg s t with
  | Ok s' => valid_target cfg t ∧ plain_scan s'
      ∧ ∀ kind, removed_of kind s' = removed_of kind s ∪ (if decide (dt_kind t = kind) then {[dt_id t]} else ∅)
  | Throw _ => ¬ valid_target cfg t
  end.
Proof.
  intros Hp. unfold request_target, valid_target.
  destruct (empty_str (dt_id t)) eqn:He; [intros [? ?]; congruence|].
  destruct (target_exists cfg (dt_kind t) (dt_id t)) eqn:Hx; cbn [negb]; [|intros [? ?]; congruence].
  destruct (seen_target (dt_kind t) (dt_id t) s) eqn:Hs.
  - split; [done|]. split; [done|]. intros kind. destruct Hp as [Ht _]. rewrite Ht in Hs.
    apply bool_decide_eq_true in Hs. destruct (decide _) as [<-|]; set_solver.
  - split; [done|]. split; [by apply plain_push|]. intros kind. fold (named (dt_kind t) (dt_id t)).
    rewrite removed_push. destruct (decide _); set_solver.
Qed.

Lemma request_fold cfg requested s :
  plain_scan s →
  match rfold (request_target cfg) s requested with
  | Ok s' => Forall (valid_target cfg) requested ∧ plain_scan s'
      ∧ ∀ kind, removed_of kind s' = removed_of kind s ∪ requested_ids kind requested
  | Throw _ => ¬ Forall (valid_target cfg) requested
  end.
Proof.
  revert s. induction requested as [|t requested IH]; intros s Hp; cbn [rfold].
  { split; [constructor|]. split; [done|]. intros kind. unfold requested_ids. simpl. set_solver. }
  pose proof (request_step cfg s t Hp) as Ht. destruct (request_target cfg s t) as [s1|e]; cbn [rbind].
  - destruct Ht as (Hv & Hp1 & Hr1). specialize (IH s1 Hp1).
    destruct (rfold (request_target cfg) s1 requested) as [s2|e].
    + destruct IH as (Hvs & Hp2 & Hr2). split; [by constructor|]. split; [done|].
      intros kind. rewrite Hr2, Hr1. apply leibniz_equiv. intros x.
      rewrite !elem_of_union, !elem_of_requested. destruct (decide (dt_kind t = kind)) as [<-|Hne].
      * rewrite elem_of_singleton. split; [|set_solver].
        intros [[Hx | ->]|Hx]; [by left|right; exists t; set_solver|right; set_solver].
      * split; [set_solver|]. intros [Hx|(t' & [-> | Hin]%elem_of_cons & Hk & Hid)]; [by left; left|done|].
        right. by exists t'.
    + intros Hall. apply IH. by apply Forall_cons in Hall as [_ ?].
  - intros Hall. apply Ht. by apply Forall_cons in Hall as [? _].
Qed.

Lemma request_targets_spec cfg requested :
  match request_targets cfg requested with
  | Ok s => requested ≠ [] ∧ Forall (valid_target cfg) requested ∧ plain_scan s
      ∧ ∀ kind, removed_of kind s = requested_ids kind requested
  | Throw _ => requested = [] ∨ ¬ Forall (valid_target cfg) requested
  end.
Proof.
  unfold request_targets. destruct requested as [|t requested]; [by left|].
  set (s0 := {| ts_targets := [] |}). assert (plain_scan s0) as Hp.
  { split; [|constructor]. intros kind tag. symmetry. apply bool_decide_eq_false_2. by destruct kind. }
  pose proof (request_fold cfg (t :: requested) s0 Hp) as Hr.
  destruct (rfold _ _ _); [|by right]. destruct Hr as (? & ? & Hk). do 3 (split; [done|]). intros kind. rewrite Hk. destruct kind; set_solver.
Qed.

(** ** References *)

Definition key_of (r : DependencyReference) : DependencyEntityKind * string :=
  (dt_kind (de_target r), dt_id (de_target r)).

(** [f] adds references to exactly the objects in [P]. *)
Definition adds (f : list DependencyReference → list DependencyReference)
    (P : DependencyEntityKind * string → Prop) : Prop :=
  ∀ references x, x ∈ key_of <$> f references ↔ x ∈ key_of <$> references ∨ P x.

Lemma adds_ext f P Q : (∀ x, P x ↔ Q x) → adds f P → adds f Q.
Proof. intros E Hf references x. specialize (Hf references x). specialize (E x). tauto. Qed.

Lemma adds_reference r : adds (λ references, add_reference references r) (λ x, x = key_of r).
Proof.
  intros references x. unfold add_reference. destruct (existsb (same_key r) references) eqn:E.
  - apply existsb_exists in E as (r' & Hin & Hk). unfold same_key, same_target in Hk.
    rewrite !andb_true_iff, bool_decide_eq_true, String.eqb_eq in Hk. destruct Hk as [[[[Hkind Hid] _] _] _].
    split; [by left|]. intros [Hx| ->]; [done|]. apply list_elem_of_fmap. exists r'.
    split; [|by apply list_elem_of_In]. unfold key_of. by rewrite Hkind, Hid.
  - rewrite fmap_app, elem_of_app. cbn [fmap list_fmap]. by rewrite list_elem_of_singleton.
Qed.

Lemma adds_nothing f : (∀ references, key_of <$> f references = key_of <$> references) → adds f (λ _, False).
Proof. intros Hf references x. rewrite Hf. tauto. Qed.

Lemma adds_compose f g P Q : adds f P → adds g Q → adds (λ references, g (f references)) (λ x, P x ∨ Q x).
Proof.
  intros Hf Hg references x. specialize (Hf references x). specialize (Hg (f references) x). tauto.
Qed.

Lemma adds_if (b : bool) f P :
  adds f P → adds (λ references, if b then f references else references) (λ x, b = true ∧ P x).
Proof. intros Hf references x. specialize (Hf references x). destruct b; naive_solver. Qed.

Lemma adds_fold {A} (f : list DependencyReference → A → list DependencyReference) P l :
  (∀ a, adds (λ references, f references a) (P a)) →
  adds (λ references, fold_left f l references) (λ x, ∃ a, a ∈ l ∧ P a x).
Proof.
  intros Hf. induction l as [|a l IH]; intros references x; cbn [fold_left].
  - split; [by left|]. intros [Hx|(a & Ha & _)]; [done|by apply elem_of_nil in Ha].
  - specialize (IH (f references a) x). specialize (Hf a references x). setoid_rewrite elem_of_cons. naive_solver.
Qed.

Lemma adds_each {A} (reference : A → option DependencyReference) l :
  adds (add_each reference l) (λ x, ∃ a r, a ∈ l ∧ reference a = Some r ∧ x = key_of r).
Proof.
  eapply adds_ext; [|apply (adds_fold _ (λ a x, ∃ r, reference a = Some r ∧ x = key_of r))].
  - intros x. naive_solver.
  - intros a. destruct (reference a) as [r|].
    + eapply adds_ext; [|apply adds_reference]. naive_solver.
    + eapply adds_ext; [|by apply adds_nothing]. naive_solver.
Qed.

Lemma mark_key kind id r : key_of (mark_rule_deleted kind id r) = key_of r.
Proof. unfold mark_rule_deleted. by case_match. Qed.

Lemma adds_mark (b : bool) kind id :
  adds (λ references, if b then mark_rule_deleted kind id <$> references else references) (λ _, False).
Proof.
  apply adds_nothing. intros references. destruct b; [|done]. rewrite <- list_fmap_compose.
  apply list_fmap_ext. intros i r _. apply mark_key.
Qed.

Lemma is_removed_true removed id : is_removed removed id = true ↔ id ∈ removed.
Proof. apply bool_decide_eq_true. Qed.

Lemma elem_of_indexed {A} (l : list A) (x : A) : (∃ i, (i, x) ∈ indexed l) ↔ x ∈ l.
Proof.
  unfold indexed. split.
  - intros (i & Hin). apply list_elem_of_lookup in Hin as (n & Hn).
    apply list_lookup_imap_Some in Hn as (y & Hy & [= _ ->]). by eapply list_elem_of_lookup_2.
  - intros (n & Hn)%list_elem_of_lookup. exists (to_string (Z.of_nat n)).
    apply list_elem_of_lookup. exists n. rewrite list_lookup_imap, Hn. done.
Qed.

Lemma adds_fold_indexed {A} (f : list DependencyReference → string * A → list DependencyReference) P l :
  (∀ i a, adds (λ references, f references (i, a)) (P a)) →
  adds (λ references, fold_left f (indexed l) references) (λ x, ∃ a, a ∈ l ∧ P a x).
Proof.
  intros Hf. eapply adds_ext; [|apply (adds_fold _ (λ entry, P entry.2)); intros [i a]; apply Hf].
  intros x. split.
  - intros ([i a] & Hin & HP). exists a. split; [apply elem_of_indexed; by exists i|done].
  - intros (a & Ha & HP). apply elem_of_indexed in Ha as (i & Hi). by exists (i, a).
Qed.

(** *** Who names an object *)

Definition active_fallback (rule : RouteRule) : option string :=
  match rr_failure_policy rule with Some FALLBACK => rr_fallback_outbound rule | _ => None end.

Definition rule_names_list (rule : RouteRule) (id : string) : Prop := id ∈ route_rule_lists rule.

Definition list_named (cfg : Config) (id : string) : Prop :=
  (∃ rule, rule ∈ config_route_rules cfg ∧ id ∈ route_rule_lists rule)
  ∨ (∃ rule, rule ∈ config_dns_rules cfg ∧ id ∈ dnr_list rule).

Definition server_named (cfg : Config) (tag : string) : Prop :=
  (∃ rule, rule ∈ config_dns_rules cfg ∧ dnr_server rule = tag) ∨ tag ∈ config_dns_fallback cfg.

(** A detour chain. *)
Definition chain (detour : option string) (fallbacks : option (list string)) : list string :=
  option_list detour ++ default [] fallbacks.

Definition outbound_named (cfg : Config) (tag : string) : Prop :=
  (∃ rule, rule ∈ config_route_rules cfg ∧ (rr_outbound rule = tag ∨ active_fallback rule = Some tag))
  ∨ (∃ server, server ∈ config_dns_servers cfg ∧ dns_detour server = Some tag)
  ∨ (∃ refresh, cfg_list_refresh cfg = Some refresh ∧ tag ∈ chain (lr_detour refresh) (lr_fallback_detours refresh))
  ∨ (∃ entry, entry ∈ config_lists cfg ∧ tag ∈ chain (lc_detour entry.2) (lc_fallback_detours entry.2)).

(** A member of a group of an outbound in [owner]. *)
Definition member_of (cfg : Config) (owner : Outbound → Prop) (tag : string) : Prop :=
  ∃ ob group, ob ∈ config_outbounds cfg ∧ owner ob ∧ group ∈ outbound_groups ob ∧ tag ∈ og_outbounds group.

Section Collect.
Context (s : TargetScan).

Lemma adds_lists kind id path href l :
  adds (add_each (list_reference kind id path href (ts_lists s)) l)
    (λ x, x.1 = KList ∧ x.2 ∈ ts_lists s ∧ x.2 ∈ l).
Proof.
  eapply adds_ext; [|apply adds_each]. intros x. unfold list_reference. split.
  - intros (name & r & Hin & Hr & ->). destruct (is_removed _ name) eqn:E; [|done].
    apply is_removed_true in E. injection Hr as <-. done.
  - intros (Hk & Hr & Hl). destruct x as [kind' name]. cbn [fst snd] in *. subst kind'.
    exists name. eexists. split; [done|]. rewrite (proj2 (is_removed_true _ _) Hr). done.
Qed.

Lemma adds_detours kind id consequence (paths : string → string) href (l : list (string * string)) :
  adds (add_each (λ entry, detour_reference kind id consequence (paths entry.1) href (ts_outbounds s) entry.2) l)
    (λ x, x.1 = KOutbound ∧ x.2 ∈ ts_outbounds s ∧ ∃ i, (i, x.2) ∈ l).
Proof.
  eapply adds_ext; [|apply adds_each]. intros x. unfold detour_reference. split.
  - intros ([i tag] & r & Hin & Hr & ->). cbn [fst snd] in *. destruct (is_removed _ tag) eqn:E; [|done].
    apply is_removed_true in E. injection Hr as <-. split_and!; [done|done|by exists i].
  - intros (Hk & Hr & i & Hi). destruct x as [kind' tag]. cbn [fst snd] in *. subst kind'.
    exists (i, tag). eexists. split; [done|]. cbn [fst snd]. rewrite (proj2 (is_removed_true _ _) Hr). done.
Qed.

Lemma adds_chain kind id path href detour fallbacks :
  adds (chain_references kind id path href (ts_outbounds s) detour fallbacks)
    (λ x, x.1 = KOutbound ∧ x.2 ∈ ts_outbounds s ∧ x.2 ∈ chain detour fallbacks).
Proof.
  intros references x. unfold chain_references. cbv zeta.
  pose proof (adds_each (detour_reference kind id CDisconnect (String.append path "detour") href (ts_outbounds s))
    (option_list detour) references x) as H1. set (refs1 := add_each _ (option_list detour) references) in *.
  pose proof (adds_detours kind id CModify (λ i, String.append path (String.append "fallback_detours["
    (String.append i "]"))) href (indexed (default [] fallbacks)) refs1 x) as H2. cbv beta in H1, H2.
  rewrite elem_of_indexed in H2. rewrite H2, H1. clear H1 H2. unfold chain, detour_reference.
  rewrite elem_of_app. split.
  - intros [[Hx|(tag & r & Hin & Hr & ->)]|(? & ? & ?)]; [by left| |by auto].
    destruct (is_removed _ tag) eqn:E; [|done]. apply is_removed_true in E. injection Hr as <-. by auto.
  - intros [Hx|(Hk & Hr & [Hin|Hin])]; [by auto| |by auto]. left. right.
    destruct x as [kind' tag]. cbn [fst snd] in *. subst kind'.
    exists tag. eexists. split; [done|]. rewrite (proj2 (is_removed_true _ _) Hr). done.
Qed.

Lemma adds_rule_lists kind id path href lists only :
  adds (rule_list_references kind id path href (ts_lists s) lists only)
    (λ x, x.1 = KList ∧ x.2 ∈ ts_lists s ∧ x.2 ∈ lists).
Proof.
  intros references x. unfold rule_list_references. cbv zeta.
  pose proof (adds_mark ((0 <? removed_count (ts_lists s) lists)%nat
    && (removed_count (ts_lists s) lists =? length lists)%nat && only) kind id
    (add_each (list_reference kind id path href (ts_lists s)) lists references) x) as H2. cbv beta in H2.
  rewrite H2, (adds_lists kind id path href lists references x). tauto.
Qed.

Lemma adds_optional o : adds (λ references, add_optional references o) (λ x, ∃ r, o = Some r ∧ x = key_of r).
Proof.
  intros references x. destruct o as [r|]; cbn [add_optional].
  - rewrite (adds_reference r references x). naive_solver.
  - naive_solver.
Qed.

Lemma adds_route_rule entry :
  adds (λ references, route_rule_references s references entry)
    (λ x, (x.1 = KList ∧ x.2 ∈ ts_lists s ∧ x.2 ∈ route_rule_lists entry.2)
          ∨ (x.1 = KOutbound ∧ x.2 ∈ ts_outbounds s
             ∧ (rr_outbound entry.2 = x.2 ∨ active_fallback entry.2 = Some x.2))).
Proof.
  destruct entry as [id rule]. intros references x. unfold route_rule_references. cbv zeta. cbn [snd].
  rewrite (adds_optional _ _ x), (adds_optional _ _ x), (adds_rule_lists _ _ _ _ _ _ _ x).
  unfold rule_outbound_reference, rule_fallback_reference, active_fallback, key_of.
  pose proof (is_removed_true (ts_outbounds s) (rr_outbound rule)) as H1.
  destruct x as [kind tag]. cbn [fst snd].
  destruct (is_removed (ts_outbounds s) (rr_outbound rule)); destruct (rr_failure_policy rule) as [[]|];
    try (destruct (rr_fallback_outbound rule) as [fallback|]; [|naive_solver];
         pose proof (is_removed_true (ts_outbounds s) fallback) as H2;
         destruct (is_removed (ts_outbounds s) fallback); naive_solver); naive_solver.
Qed.

Lemma adds_dns_rule entry :
  adds (λ references, dns_rule_references s references entry)
    (λ x, (x.1 = KList ∧ x.2 ∈ ts_lists s ∧ x.2 ∈ dnr_list entry.2)
          ∨ (x.1 = KDnsServer ∧ x.2 ∈ ts_dns_servers s ∧ dnr_server entry.2 = x.2)).
Proof.
  destruct entry as [id rule]. intros references x. unfold dns_rule_references. cbv zeta. cbn [snd].
  rewrite (adds_optional _ _ x), (adds_rule_lists _ _ _ _ _ _ _ x).
  unfold rule_server_reference, key_of.
  pose proof (is_removed_true (ts_dns_servers s) (dnr_server rule)) as H1.
  destruct x as [kind tag]. cbn [fst snd]. destruct (is_removed (ts_dns_servers s) (dnr_server rule)); naive_solver.
Qed.

Lemma adds_dns_servers servers :
  adds (add_each (dns_server_reference s) servers)
    (λ x, x.1 = KOutbound ∧ x.2 ∈ ts_outbounds s ∧ ∃ server, server ∈ servers ∧ dns_detour server = Some x.2).
Proof.
  eapply adds_ext; [|apply adds_each]. intros [kind tag]. cbn [fst snd].
  unfold dns_server_reference, detour_reference. split.
  - intros (server & r & Hin & Hr & Hx). destruct (dns_detour server) as [detour|] eqn:Ed; [|done].
    cbn in Hr. destruct (is_removed _ detour) eqn:E; [|done]. apply is_removed_true in E.
    injection Hr as <-. injection Hx as -> ->. split_and!; [done|done|by exists server].
  - intros (-> & Hr & server & Hin & Hd). exists server. eexists. split; [done|]. rewrite Hd. cbn.
    rewrite (proj2 (is_removed_true _ _) Hr). done.
Qed.

Lemma adds_dns_fallback tags :
  adds (add_each (dns_fallback_reference s) tags)
    (λ x, x.1 = KDnsServer ∧ x.2 ∈ ts_dns_servers s ∧ x.2 ∈ tags).
Proof.
  eapply adds_ext; [|apply adds_each]. intros [kind tag]. cbn [fst snd]. unfold dns_fallback_reference. split.
  - intros (t & r & Hin & Hr & Hx). destruct (is_removed _ t) eqn:E; [|done].
    apply is_removed_true in E. injection Hr as <-. by injection Hx as -> ->.
  - intros (-> & Hr & Hin). exists tag. eexists. split; [done|].
    rewrite (proj2 (is_removed_true _ _) Hr). done.
Qed.

Lemma adds_refresh refresh :
  adds (list_refresh_references s refresh)
    (λ x, x.1 = KOutbound ∧ x.2 ∈ ts_outbounds s
          ∧ ∃ r, refresh = Some r ∧ x.2 ∈ chain (lr_detour r) (lr_fallback_detours r)).
Proof.
  intros references x. destruct refresh as [r|]; cbn [list_refresh_references].
  - rewrite (adds_chain _ _ _ _ _ _ references x). naive_solver.
  - naive_solver.
Qed.

Lemma adds_list entry :
  adds (λ references, list_references s references entry)
    (λ x, x.1 = KOutbound ∧ x.2 ∈ ts_outbounds s ∧ x.2 ∈ chain (lc_detour entry.2) (lc_fallback_detours entry.2)).
Proof. destruct entry as [name l]. intros references x. apply adds_chain. Qed.

(** The members of all groups of an outbound. *)
Lemma adds_members (reference : string → string → option DependencyReference) ob P :
  (∀ index member r x, reference index member = Some r → x = key_of r → P x ∧ x = (KOutbound, member)) →
  (∀ index member, P (KOutbound, member) → is_Some (reference index member)) →
  adds (member_references reference ob)
    (λ x, P x ∧ x.1 = KOutbound ∧ ∃ group, group ∈ outbound_groups ob ∧ x.2 ∈ og_outbounds group).
Proof.
  intros Hs Hc. eapply adds_ext; [|apply (adds_fold _ (λ entry x, ∃ member r, member ∈ og_outbounds entry.2
    ∧ reference entry.1 member = Some r ∧ x = key_of r))].
  - intros x. split.
    + intros ([i group] & Hin & member & r & Hm & Hr & Hx). cbn [fst snd] in *.
      destruct (Hs i member r x Hr Hx) as [HP ->]. split_and!; [done|done|].
      exists group. split; [|done]. apply elem_of_indexed. by exists i.
    + intros (HP & Hk & group & Hg & Hm). apply elem_of_indexed in Hg as (i & Hi).
      destruct x as [kind member]. cbn [fst snd] in *. subst kind. destruct (Hc i member HP) as (r & Hr).
      exists (i, group). split; [done|]. exists member, r. split_and!; [done|done|].
      by destruct (Hs i member r _ Hr eq_refl) as [_ <-].
  - intros [i group]. apply adds_each.
Qed.

Lemma adds_cascaded ob :
  adds (λ references, cascaded_group_references s references ob)
    (λ x, is_Some (find_target true (ob_tag ob) (ts_targets s)) ∧ x.1 = KOutbound
          ∧ is_Some (find_target false x.2 (ts_targets s))
          ∧ ∃ group, group ∈ outbound_groups ob ∧ x.2 ∈ og_outbounds group).
Proof.
  intros references x. unfold cascaded_group_references.
  destruct (find_target true (ob_tag ob) (ts_targets s)) as [t|]; [|naive_solver].
  unshelve epose proof (adds_members (cascaded_member_reference s ob) ob
    (λ x, is_Some (find_target false x.2 (ts_targets s))) _ _ references x) as Ha; [..|naive_solver].
  - intros index member r y Hr ->. unfold cascaded_member_reference in Hr.
    destruct (find_target false member (ts_targets s)) as [t'|] eqn:E; [|done].
    injection Hr as <-. apply List.find_some in E as E'. destruct E' as [_ E'].
    apply andb_true_iff in E' as [Ht _]. unfold same_target in Ht.
    rewrite andb_true_iff, bool_decide_eq_true, String.eqb_eq in Ht. destruct Ht as [Hk Hi].
    unfold key_of. cbn. rewrite Hk, Hi. by rewrite E.
  - intros index member [t' Ht]. cbn [snd] in Ht. unfold cascaded_member_reference. rewrite Ht. done.
Qed.

Lemma adds_surviving ob :
  adds (λ references, surviving_group_references s references ob)
    (λ x, (ob_type ob = URLTEST ∧ (ob_tag ob ∉ ts_outbounds s)) ∧ x.1 = KOutbound ∧ x.2 ∈ ts_outbounds s
          ∧ ∃ group, group ∈ outbound_groups ob ∧ x.2 ∈ og_outbounds group).
Proof.
  intros references x. unfold surviving_group_references, is_urltest, is_removed at 1.
  destruct (decide (ob_type ob = URLTEST)) as [Ht|Ht];
    [rewrite (bool_decide_eq_true_2 (ob_type ob = URLTEST)) by done
    |rewrite (bool_decide_eq_false_2 (ob_type ob = URLTEST)) by done; cbn [negb orb]; naive_solver].
  destruct (decide (ob_tag ob ∈ ts_outbounds s)) as [Hr|Hr];
    [rewrite (bool_decide_eq_true_2 (_ ∈ _)) by done; cbn [negb orb]; naive_solver
    |rewrite (bool_decide_eq_false_2 (_ ∈ _)) by done; cbn [negb orb]].
  unshelve epose proof (adds_members (surviving_member_reference s ob) ob (λ x, x.2 ∈ ts_outbounds s)
    _ _ references x) as Ha; [..|naive_solver].
  - intros index member r y Hm ->. unfold surviving_member_reference in Hm.
    destruct (is_removed _ member) eqn:E; [|done]. apply is_removed_true in E. injection Hm as <-. done.
  - intros index member Hm. cbn [snd] in Hm. unfold surviving_member_reference.
    rewrite (proj2 (is_removed_true _ _) Hm). done.
Qed.
End Collect.

Section Report.
Context (cfg : Config).

Lemma collect_spec s x :
  x ∈ key_of <$> collect_references cfg s ↔
  match x.1 with
  | KList => x.2 ∈ ts_lists s ∧ list_named cfg x.2
  | KDnsServer => x.2 ∈ ts_dns_servers s ∧ server_named cfg x.2
  | KOutbound =>
      (x.2 ∈ ts_outbounds s
       ∧ (outbound_named cfg x.2
          ∨ member_of cfg (λ ob, ob_type ob = URLTEST ∧ (ob_tag ob ∉ ts_outbounds s)) x.2))
      ∨ (is_Some (find_target false x.2 (ts_targets s))
         ∧ member_of cfg (λ ob, is_Some (find_target true (ob_tag ob) (ts_targets s))) x.2)
  end.
Proof.
  unfold collect_references. cbv zeta.
  rewrite (adds_fold _ _ (config_outbounds cfg) (adds_surviving s) _ x).
  rewrite (adds_fold _ _ (config_outbounds cfg) (adds_cascaded s) _ x).
  rewrite (adds_fold _ _ (config_lists cfg) (adds_list s) _ x).
  rewrite (adds_refresh s (cfg_list_refresh cfg) _ x).
  rewrite (adds_dns_fallback s _ _ x), (adds_dns_servers s _ _ x).
  rewrite (adds_fold_indexed _ (λ rule x, (x.1 = KList ∧ x.2 ∈ ts_lists s ∧ x.2 ∈ dnr_list rule)
    ∨ (x.1 = KDnsServer ∧ x.2 ∈ ts_dns_servers s ∧ dnr_server rule = x.2)) (config_dns_rules cfg)
    (λ i rule, adds_dns_rule s (i, rule)) _ x).
  rewrite (adds_fold_indexed _ (λ rule x, (x.1 = KList ∧ x.2 ∈ ts_lists s ∧ x.2 ∈ route_rule_lists rule)
    ∨ (x.1 = KOutbound ∧ x.2 ∈ ts_outbounds s ∧ (rr_outbound rule = x.2 ∨ active_fallback rule = Some x.2)))
    (config_route_rules cfg) (λ i rule, adds_route_rule s (i, rule)) _ x).
  unfold list_named, server_named, outbound_named, member_of. destruct x as [kind id]. cbn [fst snd].
  cbn [fmap list_fmap]. rewrite elem_of_nil. destruct kind; naive_solver.
Qed.

(** ** The targets *)

Definition is_target (targets : list DependencyTarget) (kind : DependencyEntityKind) (id : string) : Prop :=
  ∃ t, t ∈ targets ∧ dt_kind t = kind ∧ dt_id t = id.

Lemma seen_is_target kind id s : seen_target kind id s = true ↔ is_target (ts_targets s) kind id.
Proof.
  unfold seen_target, is_target. rewrite existsb_exists. unfold same_target.
  setoid_rewrite andb_true_iff. setoid_rewrite bool_decide_eq_true. setoid_rewrite String.eqb_eq.
  setoid_rewrite <- list_elem_of_In. done.
Qed.

Lemma find_target_spec cascaded id targets :
  is_Some (find_target cascaded id targets)
  ↔ ∃ t, t ∈ targets ∧ dt_kind t = KOutbound ∧ dt_id t = id ∧ dt_cascaded t = cascaded.
Proof.
  unfold find_target. split.
  - intros (t & Ht). apply List.find_some in Ht as [Hin Ht]. unfold same_target in Ht.
    rewrite !andb_true_iff, bool_decide_eq_true, String.eqb_eq, Bool.eqb_true_iff in Ht.
    exists t. rewrite list_elem_of_In. tauto.
  - intros (t & Hin & Hk & Hi & Hc). destruct (List.find _ targets) as [t'|] eqn:E; [done|].
    apply (List.find_none _ _ E) in Hin || (apply list_elem_of_In in Hin; apply (List.find_none _ _ E) in Hin).
    unfold same_target in Hin. rewrite Hk, Hi, Hc, (bool_decide_eq_true_2 (KOutbound = KOutbound)) in Hin by done.
    by rewrite String.eqb_refl, Bool.eqb_reflx in Hin.
Qed.

(** What the two loops over targets leave behind. *)
Record AnalysisScan (requested : list DependencyTarget) (s : TargetScan) : Prop := {
  as_lists : ts_lists s = requested_ids KList requested;
  as_servers : ts_dns_servers s = requested_ids KDnsServer requested;
  as_removed tag : tag ∈ ts_outbounds s
    ↔ Removed (config_outbounds cfg) (requested_ids KOutbound requested) tag;
  as_targets kind id : is_target (ts_targets s) kind id ↔ id ∈ removed_of kind s;
  as_cascaded t : t ∈ ts_targets s →
    (dt_cascaded t = true ↔ dt_kind t = KOutbound ∧ (dt_id t ∉ requested_ids KOutbound requested));
}.

Lemma scan_found requested s0 s :
  plain_scan s0 → (∀ kind, removed_of kind s0 = requested_ids kind requested) →
  cascade_inv (config_outbounds cfg) s0 s → tracked s →
  (∀ ob, ob ∈ config_outbounds cfg → fires s ob = false) → AnalysisScan requested s.
Proof.
  intros [Hseen Hplain] Hids Hinv Htr Hno.
  pose proof (fixpoint_closed (config_outbounds cfg) s0 s Hinv Hno) as Hclosed.
  destruct Hinv as (found & Et & Eo & El & Ed & Hnd & Hnew & Hrem).
  pose proof (Hids KOutbound) as HO. cbn [removed_of] in HO.
  split.
  - rewrite El. apply (Hids KList).
  - rewrite Ed. apply (Hids KDnsServer).
  - intros tag. rewrite <- HO. split; [apply Hrem|apply Hclosed].
  - intros kind id. destruct (decide (kind = KOutbound)) as [-> | Hk].
    + rewrite <- seen_is_target, Htr. apply bool_decide_eq_true.
    + rewrite Et. unfold is_target. setoid_rewrite elem_of_app. transitivity (is_target (ts_targets s0) kind id).
      * split; [|intros (t & ? & ?); exists t; auto]. intros (t & [Ht|Ht] & Hkt & Hid); [by exists t|].
        apply list_elem_of_fmap in Ht as (tag & -> & _). by destruct Hk.
      * rewrite <- seen_is_target, Hseen, bool_decide_eq_true. destruct kind; cbn [removed_of]; by rewrite ?El, ?Ed.
  - intros t. rewrite Et, elem_of_app. intros [Ht|Ht].
    + rewrite Forall_forall in Hplain. rewrite (Hplain t Ht). split; [done|]. intros [Hk Hn]. exfalso. apply Hn.
      rewrite <- HO. apply (bool_decide_eq_true (dt_id t ∈ removed_of KOutbound s0)). rewrite <- Hseen, seen_is_target.
      by exists t.
    + apply list_elem_of_fmap in Ht as (tag & -> & Hin). cbn. rewrite <- HO.
      specialize (Hnew tag Hin). tauto.
Qed.

Lemma analyze_spec requested :
  match analyze_dependencies cfg requested with
  | Throw e => e ≠ CascadeOutOfFuel ∧ (requested = [] ∨ ¬ Forall (valid_target cfg) requested)
  | Ok a => requested ≠ [] ∧ Forall (valid_target cfg) requested
      ∧ ∃ s, AnalysisScan requested s ∧ an_targets a = ts_targets s
        ∧ an_references a = settle_cascaded (ts_targets s) <$> collect_references cfg s
        ∧ an_safe_to_delete a = match collect_references cfg s with [] => true | _ => false end
            && negb (existsb dt_cascaded (ts_targets s))
  end.
Proof.
  unfold analyze_dependencies. pose proof (request_targets_spec cfg requested) as Hreq.
  destruct (request_targets cfg requested) as [s0|e] eqn:Er; cbn [rbind].
  2: { split; [|done]. intros ->. unfold request_targets in Er. destruct requested as [|t requested]; [done|].
       revert Er. generalize {| ts_targets := []; ts_lists := ∅; ts_outbounds := ∅; ts_dns_servers := ∅ |} as s.
       generalize (t :: requested) as l. clear.
       induction l as [|t l IH]; intros s; cbn [rfold]; [done|]. unfold request_target at 1.
       destruct (empty_str _); [done|]. destruct (negb _); [done|].
       destruct (seen_target _ _ _); cbn [rbind]; apply IH. }
  destruct Hreq as (Hne & Hv & Hp & Hids).
  assert (cascade_inv (config_outbounds cfg) s0 s0) as Hinv.
  { exists []. cbn. rewrite app_nil_r. split_and!; try done; [set_solver|apply NoDup_nil_2|by intros ? ?%elem_of_nil|].
    intros tag Ht. by apply removed_requested. }
  assert (tracked s0) as Htr by (intros tag; apply Hp).
  destruct (cascade_loop_spec (config_outbounds cfg) s0 (S (length (config_outbounds cfg))) s0 Hinv Htr)
    as (s & -> & Hinv' & Htr' & Hno).
  { unfold left_over. apply Nat.lt_succ_r. apply List.filter_length_le. }
  cbn [rbind]. split; [done|]. split; [done|]. exists s. split; [by eapply scan_found|done].
Qed.
End Report.

(** ** The properties *)

(** C29. The cascade is the closure. An analysis fails only for a request that is empty
    or names an object that does not exist, and never runs on. Otherwise its
    targets are the requested lists and DNS servers and the least set of outbounds
    that contains the requested ones and every urltest outbound all of whose members
    are in it; exactly the outbounds that were not requested are marked as
    consequences. *)
Theorem dependency_cascade_closure cfg requested :
  match analyze_dependencies cfg requested with
  | Throw e => e ≠ CascadeOutOfFuel ∧ (requested = [] ∨ ¬ Forall (valid_target cfg) requested)
  | Ok a =>
      (requested ≠ [] ∧ Forall (valid_target cfg) requested)
      ∧ (∀ tag, is_target (an_targets a) KOutbound tag
           ↔ Removed (config_outbounds cfg) (requested_ids KOutbound requested) tag)
      ∧ (∀ kind id, kind ≠ KOutbound → is_target (an_targets a) kind id ↔ id ∈ requested_ids kind requested)
      ∧ ∀ t, t ∈ an_targets a →
          (dt_cascaded t = true ↔ dt_kind t = KOutbound ∧ (dt_id t ∉ requested_ids KOutbound requested))
  end.
Proof.
  pose proof (analyze_spec cfg requested) as Ha. destruct (analyze_dependencies cfg requested) as [a|e]; [|done].
  destruct Ha as (Hne & Hv & s & Hs & -> & _ & _). split; [done|]. split_and!.
  - intros tag. rewrite (as_targets _ _ _ Hs). apply (as_removed _ _ _ Hs).
  - intros kind id Hk. rewrite (as_targets _ _ _ Hs).
    destruct kind; cbn [removed_of]; [by rewrite (as_lists _ _ _ Hs)|done|by rewrite (as_servers _ _ _ Hs)].
  - apply (as_cascaded _ _ _ Hs).
Qed.

(** A removed object that something else names. *)
Definition affected (cfg : Config) (requested : list DependencyTarget) (kind : DependencyEntityKind)
    (id : string) : Prop :=
  let removed := Removed (config_outbounds cfg) (requested_ids KOutbound requested) in
  match kind with
  | KList => id ∈ requested_ids KList requested ∧ list_named cfg id
  | KDnsServer => id ∈ requested_ids KDnsServer requested ∧ server_named cfg id
  | KOutbound =>
      removed id
      ∧ (outbound_named cfg id
         ∨ member_of cfg (λ ob, ob_type ob = URLTEST ∧ ¬ removed (ob_tag ob)) id
         ∨ (id ∈ requested_ids KOutbound requested
            ∧ member_of cfg (λ ob, removed (ob_tag ob) ∧ (ob_tag ob ∉ requested_ids KOutbound requested)) id))
  end.

Lemma member_of_ext cfg (P Q : Outbound → Prop) id :
  (∀ ob, P ob ↔ Q ob) → member_of cfg P id ↔ member_of cfg Q id.
Proof. intros E. unfold member_of. by setoid_rewrite E. Qed.

Lemma settle_key targets r : key_of (settle_cascaded targets r) = key_of r.
Proof. unfold settle_cascaded. by case_match. Qed.

Lemma scan_find cfg requested s cascaded tag :
  AnalysisScan cfg requested s →
  is_Some (find_target cascaded tag (ts_targets s))
  ↔ tag ∈ ts_outbounds s ∧ (cascaded = true ↔ (tag ∉ requested_ids KOutbound requested)).
Proof.
  intros Hs. rewrite find_target_spec. change (ts_outbounds s) with (removed_of KOutbound s).
  rewrite <- (as_targets _ _ _ Hs KOutbound tag). unfold is_target. split.
  - intros (t & Ht & Hk & Hi & Hc). split; [by exists t|].
    pose proof (as_cascaded _ _ _ Hs t Ht) as E. rewrite Hc, Hk, Hi in E. tauto.
  - intros ((t & Ht & Hk & Hi) & Hc). exists t. split_and!; [done..|].
    pose proof (as_cascaded _ _ _ Hs t Ht) as E. rewrite Hk, Hi in E.
    destruct (dt_cascaded t), cascaded; try done; [symmetry|]; tauto.
Qed.

Lemma scan_affected cfg requested s kind id :
  AnalysisScan cfg requested s →
  (kind, id) ∈ key_of <$> collect_references cfg s ↔ affected cfg requested kind id.
Proof.
  intros Hs. rewrite collect_spec. cbn [fst snd]. unfold affected. cbv zeta.
  destruct kind; [by rewrite (as_lists _ _ _ Hs)| |by rewrite (as_servers _ _ _ Hs)].
  rewrite (scan_find cfg requested s false id Hs), (as_removed _ _ _ Hs).
  rewrite (member_of_ext cfg (λ ob, ob_type ob = URLTEST ∧ (ob_tag ob ∉ ts_outbounds s))
    (λ ob, ob_type ob = URLTEST ∧ ¬ Removed (config_outbounds cfg) (requested_ids KOutbound requested) (ob_tag ob)))
    by (intros ob; by rewrite (as_removed _ _ _ Hs)).
  rewrite (member_of_ext cfg (λ ob, is_Some (find_target true (ob_tag ob) (ts_targets s)))
    (λ ob, Removed (config_outbounds cfg) (requested_ids KOutbound requested) (ob_tag ob)
           ∧ (ob_tag ob ∉ requested_ids KOutbound requested))).
  - destruct (decide (id ∈ requested_ids KOutbound requested)); naive_solver.
  - intros ob. rewrite (scan_find cfg requested s true _ Hs), (as_removed _ _ _ Hs). tauto.
Qed.

(** The report is exact: an analysis reports a reference to an object if and only
    if the object is removed and something that stays, or a group that falls with its
    requested members, names it; a deletion is called safe if and only if there is
    no such object and nothing falls that was not requested. *)
Theorem dependency_report_exact cfg requested a :
  analyze_dependencies cfg requested = Ok a →
  (∀ kind id, (∃ r, r ∈ an_references a ∧ key_of r = (kind, id)) ↔ affected cfg requested kind id)
  ∧ (an_safe_to_delete a = true
     ↔ (∀ kind id, ¬ affected cfg requested kind id)
       ∧ ∀ tag, Removed (config_outbounds cfg) (requested_ids KOutbound requested) tag →
           tag ∈ requested_ids KOutbound requested).
Proof.
  intros Ha. pose proof (analyze_spec cfg requested) as Hspec. rewrite Ha in Hspec.
  destruct Hspec as (_ & _ & s & Hs & _ & Hr & Hsafe). split.
  - intros kind id. rewrite <- (scan_affected cfg requested s kind id Hs), Hr, list_elem_of_fmap. split.
    + intros (r & Hin & E). apply list_elem_of_fmap in Hin as (r' & -> & Hin). exists r'. rewrite settle_key in E. by split.
    + intros (r & E & Hin). exists (settle_cascaded (ts_targets s) r). split; [|by rewrite settle_key].
      apply list_elem_of_fmap. by exists r.
  - rewrite Hsafe, andb_true_iff, negb_true_iff, <- not_true_iff_false, existsb_exists.
    setoid_rewrite <- (λ k i, scan_affected cfg requested s k i Hs). split.
    + intros [Hnil Hc]. split.
      * intros kind id. destruct (collect_references cfg s); [|done]. by intros ?%elem_of_nil.
      * intros tag Ht. apply dec_stable. intros Hn. apply Hc. apply (as_removed _ _ _ Hs) in Ht.
        change (ts_outbounds s) with (removed_of KOutbound s) in Ht.
        apply (as_targets _ _ _ Hs) in Ht as (t & Hin & Hk & <-). exists t.
        split; [by apply list_elem_of_In|]. by apply (as_cascaded _ _ _ Hs).
    + intros [Hnone Hc]. split.
      * destruct (collect_references cfg s) as [|r l]; [done|]. destruct (Hnone (key_of r).1 (key_of r).2).
        left.
      * intros (t & Hin%list_elem_of_In & Ht). apply (as_cascaded _ _ _ Hs t Hin) in Ht as [Hk Hn]. apply Hn, Hc.
        apply (as_removed _ _ _ Hs). change (ts_outbounds s) with (removed_of KOutbound s).
        apply (as_targets _ _ _ Hs). by exists t.
Qed.

(** Both members of a group are deleted: the group falls with them. *)
Lemma dependency_report_exact_witness :
  ∃ a, analyze_dependencies (sample_config [vpn_a; vpn_b; auto_group]) [named KOutbound "vpn_a"; named KOutbound "vpn_b"] = Ok a
    ∧ (an_targets a = [named KOutbound "vpn_a"; named KOutbound "vpn_b";
                       {| dt_kind := KOutbound; dt_id := "auto"; dt_cascaded := true |}])
    ∧ an_safe_to_delete a = false
    ∧ affected (sample_config [vpn_a; vpn_b; auto_group]) [named KOutbound "vpn_a"; named KOutbound "vpn_b"]
        KOutbound "vpn_a".
Proof.
  eexists. split; [vm_compute; reflexivity|]. split; [reflexivity|]. split; [reflexivity|].
  refine (proj1 (proj1 (dependency_report_exact (sample_config [vpn_a; vpn_b; auto_group])
    [named KOutbound "vpn_a"; named KOutbound "vpn_b"] _ _) KOutbound "vpn_a"%string) _).
  - vm_compute. reflexivity.
  - eexists. split; [left|reflexivity].
Defined.
