(* ===== verification/ConfigDelete.v ===== *)
(** * Deletion of outbounds and lists

    src/src/config/outbound_delete.cpp and src/src/config/list_delete_planner.cpp: pure
    edits of a configuration that take an outbound or a list out of it together with
    everything that names it. *)

From Stdlib Require Import ZArith Lia Ascii String.
From stdpp Require Import base gmap strings list.
From S2P Require Import Prelude ConfigTypes DependencyAnalysis.
Open Scope Z_scope.

(** ** Record updates *)

Definition set_route_rules (rules : list RouteRule) (route : RouteConfig) : RouteConfig :=
  {| rc_inbound_interfaces := rc_inbound_interfaces route; rc_rules := Some rules |}.

Definition set_rule_list (l : option (list string)) (r : RouteRule) : RouteRule :=
  {| rr_dest_addr := rr_dest_addr r; rr_dest_port := rr_dest_port r; rr_dscp := rr_dscp r;
     rr_enabled := rr_enabled r; rr_failure_policy := rr_failure_policy r;
     rr_fallback_outbound := rr_fallback_outbound r; rr_list := l; rr_outbound := rr_outbound r;
     rr_proto := rr_proto r; rr_src_addr := rr_src_addr r; rr_src_port := rr_src_port r |}.

(** [failure_policy = BLOCK; fallback_outbound.reset()] *)
Definition drop_fallback (r : RouteRule) : RouteRule :=
  {| rr_dest_addr := rr_dest_addr r; rr_dest_port := rr_dest_port r; rr_dscp := rr_dscp r;
     rr_enabled := rr_enabled r; rr_failure_policy := Some BLOCK; rr_fallback_outbound := None;
     rr_list := rr_list r; rr_outbound := rr_outbound r;
     rr_proto := rr_proto r; rr_src_addr := rr_src_addr r; rr_src_port := rr_src_port r |}.

Definition set_groups (groups : list OutboundGroup) (ob : Outbound) : Outbound :=
  {| ob_circuit_breaker := ob_circuit_breaker ob; ob_conntrack_on_switch := ob_conntrack_on_switch ob;
     ob_gateway := ob_gateway ob; ob_gateway6 := ob_gateway6 ob; ob_interface := ob_interface ob;
     ob_outbound_groups := Some groups; ob_selection_mode := ob_selection_mode ob;
     ob_strict_enforcement := ob_strict_enforcement ob; ob_table := ob_table ob;
     ob_tag := ob_tag ob; ob_tolerance_ms := ob_tolerance_ms ob; ob_type := ob_type ob;
     ob_interval_ms := ob_interval_ms ob; ob_probe_timeout_ms := ob_probe_timeout_ms ob;
     ob_retry := ob_retry ob; ob_url := ob_url ob |}.

Definition set_list_detours (detour : option string) (fallbacks : option (list string))
    (mode : option RefreshDetourMode) (l : ListConfig) : ListConfig :=
  {| lc_detour := detour; lc_domains := lc_domains l; lc_fallback_detours := fallbacks;
     lc_refresh_detour_mode := mode; lc_ip_cidrs := lc_ip_cidrs l; lc_ttl_ms := lc_ttl_ms l |}.

Definition set_dns_servers (servers : list DnsServer) (dns : DnsConfig) : DnsConfig :=
  {| dn_fallback := dn_fallback dns; dn_rules := dn_rules dns; dn_servers := Some servers |}.
Definition set_dns_rules (rules : list DnsRule) (dns : DnsConfig) : DnsConfig :=
  {| dn_fallback := dn_fallback dns; dn_rules := Some rules; dn_servers := dn_servers dns |}.

Definition set_reconnect_lists (l : list string) (d : DaemonConfig) : DaemonConfig :=
  {| dc_reconnect_lists := Some l; dc_strict_enforcement := dc_strict_enforcement d;
     dc_skip_marked_packets := dc_skip_marked_packets d |}.

(** An edit of the elements of an optional vector inside an optional object. *)
Definition edit {A B} (field : A → option (list B)) (set : list B → A → A) (f : list B → list B)
    (o : option A) : option A :=
  match o with
  | Some a => match field a with Some l => Some (set (f l) a) | None => Some a end
  | None => None
  end.

(** ** Outbounds *)

Definition kept (deleted : gset string) (tag : string) : bool := negb (bool_decide (tag ∈ deleted)).

(** [remove_fallback_detours] *)
Definition remove_fallback_detours (fallbacks : option (list string)) (deleted : gset string)
    : option (list string) :=
  match fallbacks with
  | None => None
  | Some l =>
      let l' := List.filter (kept deleted) l in
      if negb (length l =? length l')%nat && match l' with [] => true | _ => false end then None
      else Some l'
  end.

(** The members that stay; groups without members are dropped. *)
Definition prune_groups (deleted : gset string) (groups : list OutboundGroup) : list OutboundGroup :=
  List.filter (λ group, match og_outbounds group with [] => false | _ => true end)
    ((λ group, {| og_outbounds := List.filter (kept deleted) (og_outbounds group);
                  og_weight := og_weight group |}) <$> groups).

Definition prune_outbound (deleted : gset string) (ob : Outbound) : Outbound :=
  if negb (is_urltest ob) then ob
  else match ob_outbound_groups ob with
       | None => ob
       | Some groups => set_groups (prune_groups deleted groups) ob
       end.

Definition prune_rule (deleted : gset string) (rule : RouteRule) : RouteRule :=
  match rr_failure_policy rule, rr_fallback_outbound rule with
  | Some FALLBACK, Some fallback => if kept deleted fallback then rule else drop_fallback rule
  | _, _ => rule
  end.

Definition prune_server (deleted : gset string) (server : DnsServer) : DnsServer :=
  match dns_detour server with
  | Some detour => if kept deleted detour then server else {| dns_detour := None; dns_tag := dns_tag server |}
  | None => server
  end.

(** Whether a primary detour is deleted. *)
Definition detour_deleted (deleted : gset string) (detour : option string) : bool :=
  match detour with Some detour => negb (kept deleted detour) | None => false end.

Definition prune_list (deleted : gset string) (l : ListConfig) : ListConfig :=
  if detour_deleted deleted (lc_detour l) then set_list_detours None None None l
  else set_list_detours (lc_detour l) (remove_fallback_detours (lc_fallback_detours l) deleted)
         (lc_refresh_detour_mode l) l.

Definition prune_refresh (deleted : gset string) (r : ListRefreshConfig) : ListRefreshConfig :=
  if detour_deleted deleted (lr_detour r) then {| lr_detour := None; lr_fallback_detours := None |}
  else {| lr_detour := lr_detour r;
          lr_fallback_detours := remove_fallback_detours (lr_fallback_detours r) deleted |}.

Definition prune_outbounds (deleted : gset string) (obs : list Outbound) : list Outbound :=
  prune_outbound deleted <$> List.filter (λ ob, kept deleted (ob_tag ob)) obs.

Definition prune_rules (deleted : gset string) (rules : list RouteRule) : list RouteRule :=
  prune_rule deleted <$> List.filter (λ rule, kept deleted (rr_outbound rule)) rules.

Definition prune_servers (deleted : gset string) (servers : list DnsServer) : list DnsServer :=
  prune_server deleted <$> servers.

Definition prune_lists (deleted : gset string) (lists : gmap string ListConfig) : gmap string ListConfig :=
  prune_list deleted <$> lists.

(** The edits of [remove_outbound_dependencies] for the deleted tags. *)
Definition prune_config (deleted : gset string) (cfg : Config) : Config :=
  {| cfg_daemon := cfg_daemon cfg;
     cfg_dns := edit dn_servers set_dns_servers (prune_servers deleted) (cfg_dns cfg);
     cfg_fwmark := cfg_fwmark cfg; cfg_iproute := cfg_iproute cfg;
     cfg_list_refresh := option_map (prune_refresh deleted) (cfg_list_refresh cfg);
     cfg_lists := option_map (prune_lists deleted) (cfg_lists cfg);
     cfg_outbounds := option_map (prune_outbounds deleted) (cfg_outbounds cfg);
     cfg_route := edit rc_rules set_route_rules (prune_rules deleted) (cfg_route cfg) |}.

(** The outbounds a deletion may be asked for. *)
Definition requested_outbounds (cfg : Config) (tags : gset string) : list DependencyTarget :=
  (λ ob, named KOutbound (ob_tag ob))
  <$> List.filter (λ ob, (bool_decide (ob_type ob = INTERFACE) || is_urltest ob)
                         && bool_decide (ob_tag ob ∈ tags)) (config_outbounds cfg).

(** The ids of the outbounds among the targets. *)
Definition outbound_targets (targets : list DependencyTarget) : gset string :=
  list_to_set (dt_id <$> List.filter (λ t, bool_decide (dt_kind t = KOutbound)) targets).

Definition remove_outbound_dependencies (cfg : Config) (tags : gset string)
    : result DependencyError Config :=
  match requested_outbounds cfg tags with
  | [] => Ok cfg
  | requested =>
      let! analysis := analyze_dependencies cfg requested in
      Ok (prune_config (outbound_targets (an_targets analysis)) cfg)
  end.

Definition on_interface (kernel_interface : string) (ob : Outbound) : bool :=
  bool_decide (ob_type ob = INTERFACE) && bool_decide (ob_interface ob = Some kernel_interface).

Definition interface_outbounds_are_unreferenced (cfg : Config) (kernel_interface : string)
    : result DependencyError bool :=
  if empty_str kernel_interface then Ok false
  else
    match (λ ob, named KOutbound (ob_tag ob)) <$> List.filter (on_interface kernel_interface) (config_outbounds cfg) with
    | [] => Ok true
    | targets =>
        let! analysis := analyze_dependencies cfg targets in
        Ok match an_references analysis with [] => true | _ => false end
    end.

(** [struct InterfaceOutboundDeletePlan] *)
Record InterfaceDeletePlan := {
  idp_config : Config;
  idp_tags : gset string;
  idp_used_by_group : bool;
}.

Definition plan_native_interface_outbound_delete (cfg : Config) (kernel_interface : string)
    : result DependencyError InterfaceDeletePlan :=
  let unchanged tags used := {| idp_config := cfg; idp_tags := tags; idp_used_by_group := used |} in
  if empty_str kernel_interface then Ok (unchanged ∅ false)
  else
    let tags := list_to_set (ob_tag <$> List.filter (on_interface kernel_interface) (config_outbounds cfg)) in
    if bool_decide (tags = ∅) then Ok (unchanged tags false)
    else if existsb (λ ob, is_urltest ob
              && existsb (λ group, existsb (λ tag, bool_decide (tag ∈ tags)) (og_outbounds group))
                   (outbound_groups ob)) (config_outbounds cfg)
    then Ok (unchanged tags true)
    else
      let! config := remove_outbound_dependencies cfg tags in
      Ok {| idp_config := config; idp_tags := tags; idp_used_by_group := false |}.

(** ** Lists *)

(** [struct ListDeleteTarget] *)
Record ListDeleteTarget := {
  ldt_list_id : string;
  ldt_replacement_list_id : option string;
}.

(** The [std::invalid_argument]s of [validate_targets]. *)
Inductive ListDeleteError :=
| LdNoTarget | LdNoLists | LdEmptyId | LdUnknown (id : string) | LdDuplicate (id : string)
| LdEmptyReplacement | LdSelf (id : string) | LdReplacementDeleted (id : string)
| LdReplacementUnknown (id : string).


Definition add_replacement (lists : gmap string ListConfig) (m : gmap string (option string)) (t : ListDeleteTarget)
    : result ListDeleteError (gmap string (option string)) :=
  let id := ldt_list_id t in
  if empty_str id then Throw LdEmptyId
  else match lists !! id with
       | None => Throw (LdUnknown id)
       | Some _ =>
           match m !! id with
           | Some _ => Throw (LdDuplicate id)
           | None => Ok (<[id := ldt_replacement_list_id t]> m)
           end
       end.

(** The checks of one replacement. *)
Definition check_replacement (lists : gmap string ListConfig) (m : gmap string (option string))
    (entry : string * option string) : result ListDeleteError () :=
  match entry.2 with
  | None => Ok ()
  | Some replacement =>
      if empty_str replacement then Throw LdEmptyReplacement
      else if String.eqb replacement entry.1 then Throw (LdSelf entry.1)
      else if bool_decide (is_Some (m !! replacement)) then Throw (LdReplacementDeleted replacement)
      else if bool_decide (is_Some (lists !! replacement)) then Ok ()
      else Throw (LdReplacementUnknown replacement)
  end.

Definition validate_targets (cfg : Config) (targets : list ListDeleteTarget)
    : result ListDeleteError (gmap string (option string)) :=
  match targets with
  | [] => Throw LdNoTarget
  | _ =>
      match cfg_lists cfg with
      | None => Throw LdNoLists
      | Some lists =>
          let! m := rfold (add_replacement lists) ∅ targets in
          let! _ := rmap (check_replacement lists m) (ordered_entries m) in
          Ok m
      end
  end.

(** The loop of [rewrite_list_references]: the references that are written and the
    number of rebound ones. *)
Fixpoint rewrite_loop (m : gmap string (option string)) (retained : gset string) (original : list string)
    (inserted : gset string) (rebound : nat) : list string * nat :=
  match original with
  | [] => ([], rebound)
  | id :: original =>
      match m !! id with
      | None => let '(l, n) := rewrite_loop m retained original inserted rebound in (id :: l, n)
      | Some None => rewrite_loop m retained original inserted rebound
      | Some (Some replacement) =>
          if bool_decide (replacement ∈ retained) || bool_decide (replacement ∈ inserted)
          then rewrite_loop m retained original inserted (S rebound)
          else let '(l, n) := rewrite_loop m retained original ({[replacement]} ∪ inserted) (S rebound) in
               (replacement :: l, n)
      end
  end.

Definition rewrite_list_references (m : gmap string (option string)) (original : list string) (rebound : nat)
    : list string * nat :=
  rewrite_loop m (list_to_set (List.filter (λ id, bool_decide (m !! id = None)) original)) original ∅ rebound.

(** [struct ListDeletePlanSummary] *)
Record PlanSummary := {
  ps_deleted_lists : list string;
  ps_rebound_references : nat;
  ps_removed_route_rules : nat;
  ps_updated_route_rules : nat;
  ps_removed_dns_rules : nat;
  ps_updated_dns_rules : nat;
}.

(** What happens to a rule. *)
Inductive RuleEdit {A} := RuleKept (a : A) | RuleUpdated (a : A) | RuleRemoved.
Arguments RuleEdit : clear implicits.

(** The body of the loop over the routing rules. *)
Definition rewrite_route_rule (m : gmap string (option string)) (rule : RouteRule) (rebound : nat)
    : RuleEdit RouteRule * nat :=
  match rr_list rule with
  | None => (RuleKept rule, rebound)
  | Some l =>
      let '(rewritten, rebound) := rewrite_list_references m l rebound in
      if bool_decide (rewritten = l) then (RuleKept rule, rebound)
      else match rewritten with
           | [] => if negb (route_rule_has_non_list_match_condition rule) then (RuleRemoved, rebound)
                   else (RuleUpdated (set_rule_list None rule), rebound)
           | _ => (RuleUpdated (set_rule_list (Some rewritten) rule), rebound)
           end
  end.

(** The body of the loop over the DNS rules. *)
Definition rewrite_dns_rule (m : gmap string (option string)) (rule : DnsRule) (rebound : nat)
    : RuleEdit DnsRule * nat :=
  let '(rewritten, rebound) := rewrite_list_references m (dnr_list rule) rebound in
  if bool_decide (rewritten = dnr_list rule) then (RuleKept rule, rebound)
  else match rewritten with
       | [] => (RuleRemoved, rebound)
       | _ => (RuleUpdated {| dnr_list := rewritten; dnr_server := dnr_server rule |}, rebound)
       end.

(** A loop over rules: what is kept, and the counters (rebound, removed, updated). *)
Fixpoint rewrite_rules {A} (rewrite : A → nat → RuleEdit A * nat) (rules : list A)
    (rebound removed updated : nat) : list A * (nat * nat * nat) :=
  match rules with
  | [] => ([], (rebound, removed, updated))
  | rule :: rules =>
      let '(e, rebound) := rewrite rule rebound in
      match e with
      | RuleKept rule => let '(l, n) := rewrite_rules rewrite rules rebound removed updated in (rule :: l, n)
      | RuleUpdated rule => let '(l, n) := rewrite_rules rewrite rules rebound removed (S updated) in (rule :: l, n)
      | RuleRemoved => rewrite_rules rewrite rules rebound (S removed) updated
      end
  end.

(** The three edits of [plan_list_delete] and their counters. *)
Definition rewrite_route (m : gmap string (option string)) (source : Config) : option RouteConfig * (nat * nat * nat) :=
  match cfg_route source ≫= rc_rules with
  | Some rules =>
      let '(l, n) := rewrite_rules (rewrite_route_rule m) rules 0 0 0 in
      (option_map (set_route_rules l) (cfg_route source), n)
  | None => (cfg_route source, (0, 0, 0))
  end%nat.

Definition rewrite_dns (m : gmap string (option string)) (source : Config) (rebound : nat)
    : option DnsConfig * (nat * nat * nat) :=
  match cfg_dns source ≫= dn_rules with
  | Some rules =>
      let '(l, n) := rewrite_rules (rewrite_dns_rule m) rules rebound 0 0 in
      (option_map (set_dns_rules l) (cfg_dns source), n)
  | None => (cfg_dns source, (rebound, 0, 0))
  end%nat.

Definition rewrite_daemon (m : gmap string (option string)) (source : Config) (rebound : nat)
    : option DaemonConfig * nat :=
  match cfg_daemon source ≫= dc_reconnect_lists with
  | Some l =>
      let '(l, n) := rewrite_list_references m l rebound in
      (option_map (set_reconnect_lists l) (cfg_daemon source), n)
  | None => (cfg_daemon source, rebound)
  end.

(** The lists that are left. *)
Definition erase_lists (m : gmap string (option string)) (lists : gmap string ListConfig) : gmap string ListConfig :=
  filter (λ entry, m !! entry.1 = None) lists.

(** [plan_list_delete] *)
Definition plan_list_delete (source : Config) (targets : list ListDeleteTarget)
    : result ListDeleteError (Config * PlanSummary) :=
  let! m := validate_targets source targets in
  let '(route, (rebound, removed_route, updated_route)) := rewrite_route m source in
  let '(dns, (rebound, removed_dns, updated_dns)) := rewrite_dns m source rebound in
  let '(daemon, rebound) := rewrite_daemon m source rebound in
  let lists := erase_lists m (default ∅ (cfg_lists source)) in
  Ok ({| cfg_daemon := daemon; cfg_dns := dns; cfg_fwmark := cfg_fwmark source;
         cfg_iproute := cfg_iproute source; cfg_list_refresh := cfg_list_refresh source;
         cfg_lists := if bool_decide (lists = ∅) then None else Some lists;
         cfg_outbounds := cfg_outbounds source; cfg_route := route |},
      {| ps_deleted_lists := ldt_list_id <$> targets; ps_rebound_references := rebound;
         ps_removed_route_rules := removed_route; ps_updated_route_rules := updated_route;
         ps_removed_dns_rules := removed_dns; ps_updated_dns_rules := updated_dns |}).
