(* ===== verification/ConfigDeleteClaims.v ===== *)
(** * What a deletion leaves behind

    An edited configuration names no deleted outbound or list, keeps every other
    reference as it was, and stays consistent if it was; no urltest group is left
    empty and no rule turns into a rule that matches everything. *)

From Stdlib Require Import ZArith Lia Ascii String.
From stdpp Require Import base gmap strings list.
From S2P Require Import Prelude ConfigTypes DependencyAnalysis DependencyClaims ConfigDelete.
Open Scope Z_scope.

(** * Facts about deletions *)

(** ** Pruning *)

Section Prune.
Context (deleted : gset string).

Lemma kept_true tag : kept deleted tag = true ↔ tag ∉ deleted.
Proof. unfold kept. by rewrite negb_true_iff, bool_decide_eq_false. Qed.

Lemma elem_of_kept {A} (f : A → string) l x :
  x ∈ List.filter (λ a, kept deleted (f a)) l ↔ x ∈ l ∧ (f x ∉ deleted).
Proof. by rewrite !list_elem_of_In, filter_In, kept_true. Qed.

Lemma elem_of_remove_fallbacks fallbacks tag :
  tag ∈ default [] (remove_fallback_detours fallbacks deleted) ↔ tag ∈ default [] fallbacks ∧ (tag ∉ deleted).
Proof.
  destruct fallbacks as [l|]; [|set_solver]. change (default [] (Some l)) with l.
  rewrite <- (elem_of_kept (λ x, x)). change (λ a : string, kept deleted ((λ x, x) a)) with (kept deleted).
  unfold remove_fallback_detours. cbv zeta. destruct (List.filter (kept deleted) l) as [|x l'].
  - by destruct (negb _ && true).
  - by rewrite andb_false_r.
Qed.

Lemma prune_chain detour fallbacks tag :
  (if detour_deleted deleted detour then False
   else tag ∈ chain detour (remove_fallback_detours fallbacks deleted))
  → tag ∈ chain detour fallbacks ∧ (tag ∉ deleted).
Proof.
  unfold chain, detour_deleted. destruct detour as [d|].
  - change (option_list (Some d)) with [d]. destruct (kept deleted d) eqn:E; cbn [negb]; [|done]. apply kept_true in E.
    rewrite !elem_of_app, elem_of_remove_fallbacks, list_elem_of_singleton. naive_solver.
  - change (option_list None) with (@nil string). rewrite !elem_of_app, elem_of_remove_fallbacks. set_solver.
Qed.

Lemma elem_of_prune_groups groups group :
  group ∈ prune_groups deleted groups →
  og_outbounds group ≠ [] ∧ ∃ old, old ∈ groups
    ∧ ∀ tag, tag ∈ og_outbounds group ↔ tag ∈ og_outbounds old ∧ (tag ∉ deleted).
Proof.
  unfold prune_groups. rewrite list_elem_of_In, filter_In, <- list_elem_of_In.
  intros [(old & -> & Hin)%list_elem_of_fmap Hne]. cbn [og_outbounds] in *. split; [by destruct (List.filter _ _)|].
  exists old. split; [done|]. intros tag. apply (elem_of_kept (λ x, x)).
Qed.

Lemma prune_groups_keeps groups old tag :
  old ∈ groups → tag ∈ og_outbounds old → tag ∉ deleted →
  ∃ group, group ∈ prune_groups deleted groups ∧ tag ∈ og_outbounds group.
Proof.
  intros Hin Ht Hd. set (new := {| og_outbounds := List.filter (kept deleted) (og_outbounds old); og_weight := og_weight old |}).
  assert (tag ∈ og_outbounds new) as Hn by (by apply (elem_of_kept (λ x, x))).
  exists new. split; [|done]. unfold prune_groups. rewrite list_elem_of_In, filter_In, <- list_elem_of_In.
  split; [apply list_elem_of_fmap; by exists old|]. destruct (og_outbounds new); [by apply elem_of_nil in Hn|done].
Qed.

(** *** The parts of a pruned configuration *)

Context (cfg : Config).

Lemma pruned_outbounds :
  config_outbounds (prune_config deleted cfg) = prune_outbounds deleted (config_outbounds cfg).
Proof. unfold config_outbounds, prune_config. cbn. by destruct (cfg_outbounds cfg). Qed.

Lemma pruned_rules :
  config_route_rules (prune_config deleted cfg) = prune_rules deleted (config_route_rules cfg).
Proof.
  unfold config_route_rules, prune_config. cbn. destruct (cfg_route cfg) as [route|]; [|done]. cbn.
  destruct (rc_rules route) eqn:E; cbn; [done|]. by rewrite E.
Qed.

Lemma pruned_servers :
  config_dns_servers (prune_config deleted cfg) = prune_servers deleted (config_dns_servers cfg).
Proof.
  unfold config_dns_servers, prune_config. cbn. destruct (cfg_dns cfg) as [dns|]; [|done]. cbn.
  destruct (dn_servers dns) eqn:E; cbn; [done|]. by rewrite E.
Qed.

Lemma pruned_lists entry :
  entry ∈ config_lists (prune_config deleted cfg) →
  ∃ old, (entry.1, old) ∈ config_lists cfg ∧ entry.2 = prune_list deleted old.
Proof.
  unfold config_lists, ordered_entries, prune_config. cbn. destruct (cfg_lists cfg) as [lists|]; cbn;
    [|by rewrite elem_of_nil]. rewrite !stable_sort_perm. destruct entry as [name l].
  intros Hin%elem_of_map_to_list. unfold prune_lists in Hin. rewrite lookup_fmap in Hin.
  destruct (lists !! name) as [old|] eqn:E; [|done]. injection Hin as <-. exists old.
  split; [|done]. rewrite stable_sort_perm. by apply elem_of_map_to_list.
Qed.

Lemma prune_outbound_fields ob : ob_tag (prune_outbound deleted ob) = ob_tag ob ∧ ob_type (prune_outbound deleted ob) = ob_type ob.
Proof. unfold prune_outbound. by repeat case_match. Qed.

Lemma pruned_tags :
  ob_tag <$> config_outbounds (prune_config deleted cfg)
  = List.filter (kept deleted) (ob_tag <$> config_outbounds cfg).
Proof.
  rewrite pruned_outbounds. unfold prune_outbounds. induction (config_outbounds cfg) as [|ob obs IH]; [done|].
  cbn. destruct (kept deleted (ob_tag ob)); cbn; rewrite IH; [|done]. by rewrite (proj1 (prune_outbound_fields ob)).
Qed.

Lemma pruned_groups ob group :
  group ∈ outbound_groups (prune_outbound deleted ob) → ob_type ob = URLTEST →
  og_outbounds group ≠ [] ∧ ∃ old, old ∈ outbound_groups ob
    ∧ ∀ tag, tag ∈ og_outbounds group ↔ tag ∈ og_outbounds old ∧ (tag ∉ deleted).
Proof.
  intros Hg Ht. unfold prune_outbound, is_urltest in Hg. rewrite (bool_decide_eq_true_2 _ Ht) in Hg. cbn in Hg.
  unfold outbound_groups in *. destruct (ob_outbound_groups ob) as [groups|] eqn:E; cbn in *.
  - by apply elem_of_prune_groups.
  - rewrite E in Hg. by apply elem_of_nil in Hg.
Qed.

(** Nothing that is left names a deleted outbound, and nothing new is named. *)
Lemma pruned_named tag :
  outbound_named (prune_config deleted cfg) tag → outbound_named cfg tag ∧ (tag ∉ deleted).
Proof.
  unfold outbound_named. rewrite pruned_rules, pruned_servers. intros [H|[H|[H|H]]].
  - destruct H as (rule & Hin & Hn). apply list_elem_of_fmap in Hin as (old & -> & Hin).
    apply (elem_of_kept rr_outbound) in Hin as [Hin Hk].
    assert ((rr_outbound old = tag ∨ active_fallback old = Some tag) ∧ (tag ∉ deleted)) as [Hold ?].
    { unfold prune_rule, active_fallback, kept in *. destruct Hn as [Hn|Hn].
      - repeat case_match; cbn in Hn; subst; auto.
      - destruct (rr_failure_policy old) as [[]|] eqn:Ep; cbn in Hn; rewrite ?Ep in Hn; try done.
        destruct (rr_fallback_outbound old) as [fb|] eqn:Ef; cbn in Hn; rewrite ?Ep, ?Ef in Hn; [|done].
        destruct (bool_decide (fb ∈ deleted)) eqn:Eb; cbn in Hn; rewrite ?Ep, ?Ef in Hn; [done|].
        apply bool_decide_eq_false in Eb. injection Hn as ->. auto. }
    split; [|done]. left. by exists old.
  - destruct H as (server & Hin & Hd). apply list_elem_of_fmap in Hin as (old & -> & Hin).
    unfold prune_server in Hd. destruct (dns_detour old) as [d|] eqn:Ed; [|by rewrite Ed in Hd].
    destruct (kept deleted d) eqn:Ek; [|done]. apply kept_true in Ek. rewrite Ed in Hd. injection Hd as ->.
    split; [|done]. right. left. by exists old.
  - destruct H as (r & Hr & Hc). cbn in Hr. destruct (cfg_list_refresh cfg) as [old|]; [|done].
    injection Hr as <-. unfold prune_refresh in Hc.
    destruct (prune_chain (lr_detour old) (lr_fallback_detours old) tag) as [Hold ?].
    { destruct (detour_deleted deleted (lr_detour old)); [by apply elem_of_nil in Hc|done]. }
    split; [|done]. right. right. left. by exists old.
  - destruct H as (entry & Hin & Hc). apply pruned_lists in Hin as (old & Hin & E). rewrite E in Hc.
    unfold prune_list in Hc. destruct (prune_chain (lc_detour old) (lc_fallback_detours old) tag) as [Hold ?].
    { destruct (detour_deleted deleted (lc_detour old)); [by apply elem_of_nil in Hc|done]. }
    split; [|done]. right. right. right. by exists (entry.1, old).
Qed.

Definition urltest (ob : Outbound) : Prop := ob_type ob = URLTEST.

Lemma pruned_member tag :
  member_of (prune_config deleted cfg) urltest tag → member_of cfg urltest tag ∧ (tag ∉ deleted).
Proof.
  intros (ob & group & Hob & Hu & Hg & Ht). rewrite pruned_outbounds in Hob.
  apply list_elem_of_fmap in Hob as (old & -> & Hob). apply (elem_of_kept ob_tag) in Hob as [Hob _].
  unfold urltest in Hu. rewrite (proj2 (prune_outbound_fields old)) in Hu.
  destruct (pruned_groups old group Hg Hu) as (_ & og & Hog & Hm).
  destruct (proj1 (Hm tag) Ht) as [Hold Hd]. split; [|done]. by exists old, og.
Qed.
End Prune.

(** ** The targets of a list deletion *)

Definition target_ids (targets : list ListDeleteTarget) : list string := ldt_list_id <$> targets.

Definition known_id (lists : gmap string ListConfig) (id : string) : Prop :=
  id ≠ EmptyString ∧ is_Some (lists !! id).

(** A request that can be planned: distinct existing lists, each replaced, if at all,
    by an existing list that stays. *)
Definition valid_deletion (cfg : Config) (targets : list ListDeleteTarget) : Prop :=
  targets ≠ [] ∧ ∃ lists, cfg_lists cfg = Some lists ∧ NoDup (target_ids targets)
    ∧ Forall (λ t, known_id lists (ldt_list_id t)
        ∧ match ldt_replacement_list_id t with
          | None => True
          | Some r => known_id lists r ∧ (r ∉ target_ids targets)
          end) targets.

Lemma add_replacements lists targets m :
  match rfold (add_replacement lists) m targets with
  | Ok m' => Forall (λ t, known_id lists (ldt_list_id t) ∧ m !! ldt_list_id t = None) targets
      ∧ NoDup (target_ids targets)
      ∧ ∀ id r, m' !! id = Some r ↔ m !! id = Some r ∨ ∃ t, t ∈ targets ∧ ldt_list_id t = id ∧ ldt_replacement_list_id t = r
  | Throw _ => ¬ (Forall (λ t, known_id lists (ldt_list_id t) ∧ m !! ldt_list_id t = None) targets
                  ∧ NoDup (target_ids targets))
  end.
Proof.
  revert m. induction targets as [|t targets IH]; intros m; cbn [rfold].
  { split_and!; [constructor|apply NoDup_nil_2|]. intros id r. split; [by left|].
    intros [?|(t & Ht & _)]; [done|by apply elem_of_nil in Ht]. }
  unfold add_replacement at 1. cbv zeta.
  destruct (empty_str (ldt_list_id t)) eqn:He.
  { apply empty_str_true in He. cbn [rbind]. rewrite Forall_cons. unfold known_id. tauto. }
  assert (ldt_list_id t ≠ EmptyString) as Hne by (intros E; apply empty_str_true in E; congruence).
  destruct (lists !! ldt_list_id t) as [l|] eqn:El; cbn [rbind].
  2: { rewrite Forall_cons. unfold known_id. rewrite El. intros [[[[_ [? ?]] _] _] _]. done. }
  destruct (m !! ldt_list_id t) as [r|] eqn:Em; cbn [rbind].
  { rewrite Forall_cons. intros [[[_ ?] _] _]. congruence. }
  specialize (IH (<[ldt_list_id t := ldt_replacement_list_id t]> m)).
  destruct (rfold _ _ targets) as [m'|e].
  - destruct IH as (Hall & Hnd & Hlook). rewrite Forall_forall in Hall. split_and!.
    + constructor; [done|]. apply Forall_forall. intros t' Ht'. destruct (Hall t' Ht') as [Hk Hl].
      split; [done|]. by apply lookup_insert_None in Hl as [? _].
    + unfold target_ids. rewrite fmap_cons. apply NoDup_cons. split; [|done].
      intros (t' & E & Ht')%list_elem_of_fmap. destruct (Hall t' Ht') as [_ Hl].
      apply lookup_insert_None in Hl as [_ ?]. done.
    + intros id r. rewrite Hlook. setoid_rewrite elem_of_cons. rewrite lookup_insert_Some. split.
      * intros [[[<- <-]|[? ?]]|(t' & ? & ?)]; [right; by eauto|by left|right; by eauto].
      * intros [?|(t' & [-> | ?] & ? & ?)]; [left; right; split; [congruence|done]|left; left; done|right; by eauto].
  - intros [Hall Hnd]. apply IH. unfold target_ids in Hnd. rewrite fmap_cons, NoDup_cons in Hnd.
    destruct Hnd as [Hnin Hnd]. apply Forall_cons in Hall as [_ Hall]. split; [|done].
    rewrite Forall_forall in Hall |- *. intros t' Ht'. destruct (Hall t' Ht') as [Hk Hl]. split; [done|].
    rewrite lookup_insert_ne; [done|]. intros E. apply Hnin. rewrite E. by apply list_elem_of_fmap_2.
Qed.

Lemma check_replacement_ok lists m entry :
  match check_replacement lists m entry with
  | Ok _ => ∀ r, entry.2 = Some r → known_id lists r ∧ r ≠ entry.1 ∧ m !! r = None
  | Throw _ => ∃ r, entry.2 = Some r ∧ ¬ (known_id lists r ∧ r ≠ entry.1 ∧ m !! r = None)
  end.
Proof.
  unfold check_replacement. destruct entry as [id [r|]]; cbn [fst snd]; [|done].
  destruct (empty_str r) eqn:He.
  { apply empty_str_true in He. exists r. split; [done|]. unfold known_id. tauto. }
  assert (r ≠ EmptyString) as Hne by (intros E; apply empty_str_true in E; congruence).
  destruct (String.eqb_spec r id) as [->|Hid]; [exists id; split; [done|tauto]|].
  destruct (decide (is_Some (m !! r))) as [Hm|Hm]; [rewrite bool_decide_eq_true_2 by done|rewrite bool_decide_eq_false_2 by done].
  { exists r. split; [done|]. intros (_ & _ & E). rewrite E in Hm. by destruct Hm. }
  apply eq_None_not_Some in Hm.
  destruct (decide (is_Some (lists !! r))) as [Hl|Hl]; [rewrite bool_decide_eq_true_2 by done|rewrite bool_decide_eq_false_2 by done].
  - intros r' [= <-]. done.
  - exists r. split; [done|]. unfold known_id. tauto.
Qed.

Lemma check_all_ok lists m entries :
  match rmap (check_replacement lists m) entries with
  | Ok _ => ∀ id r, (id, Some r) ∈ entries → known_id lists r ∧ r ≠ id ∧ m !! r = None
  | Throw _ => ∃ id r, (id, Some r) ∈ entries ∧ ¬ (known_id lists r ∧ r ≠ id ∧ m !! r = None)
  end.
Proof.
  induction entries as [|[id o] entries IH]; cbn [rmap]; [by intros ? ? ?%elem_of_nil|].
  pose proof (check_replacement_ok lists m (id, o)) as Hc. destruct (check_replacement lists m (id, o)); cbn [rbind].
  - destruct (rmap _ entries); cbn [rbind].
    + intros id' r [[= -> <-]|Hin]%elem_of_cons; [by apply Hc|by apply IH].
    + destruct IH as (id' & r & Hin & Hn). exists id', r. split; [by right|done].
  - destruct Hc as (r & E & Hn). cbn [snd] in E. subst o. exists id, r. split; [by left|done].
Qed.

(** The replacements a plan works with. *)
Record Replacements (cfg : Config) (targets : list ListDeleteTarget) (m : gmap string (option string)) : Prop := {
  rp_keys id : is_Some (m !! id) ↔ id ∈ target_ids targets;
  rp_values id r : m !! id = Some (Some r) → m !! r = None ∧ is_Some (default ∅ (cfg_lists cfg) !! r);
  rp_targets t : t ∈ targets → m !! ldt_list_id t = Some (ldt_replacement_list_id t);
}.

Lemma validate_targets_spec cfg targets :
  match validate_targets cfg targets with
  | Ok m => valid_deletion cfg targets ∧ Replacements cfg targets m
  | Throw _ => ¬ valid_deletion cfg targets
  end.
Proof.
  unfold validate_targets, valid_deletion. destruct targets as [|t0 l0]; [tauto|].
  set (targets := t0 :: l0) in *. assert (targets ≠ []) as Hne by done. clearbody targets.
  destruct (cfg_lists cfg) as [lists|] eqn:El; [|by intros (_ & lists & ? & _)].
  pose proof (add_replacements lists targets ∅) as Ha.
  destruct (rfold (add_replacement lists) ∅ targets) as [m|e]; cbn [rbind].
  2: { intros (_ & lists' & [= <-] & Hnd & Hall). apply Ha. split; [|done].
       eapply Forall_impl; [exact Hall|]. intros t [? _]. split; [done|apply lookup_empty]. }
  destruct Ha as (Hk & Hnd & Hlook). setoid_rewrite lookup_empty in Hlook.
  assert (∀ id, is_Some (m !! id) ↔ id ∈ target_ids targets) as Hkeys.
  { intros id. unfold target_ids. rewrite list_elem_of_fmap. split.
    - intros (r & [?|(t & ? & ? & ?)]%Hlook); [done|by exists t].
    - intros (t & -> & Ht). exists (ldt_replacement_list_id t). apply Hlook. right. by exists t. }
  assert (∀ t, t ∈ targets → m !! ldt_list_id t = Some (ldt_replacement_list_id t)) as Htargets.
  { intros t Ht. apply Hlook. right. by exists t. }
  pose proof (check_all_ok lists m (ordered_entries m)) as Hc.
  assert (∀ id o, (id, o) ∈ ordered_entries m ↔ m !! id = Some o) as Hent.
  { intros id o. unfold ordered_entries. rewrite stable_sort_perm. apply elem_of_map_to_list. }
  destruct (rmap _ (ordered_entries m)); cbn [rbind].
  - split.
    + split; [done|]. exists lists. split; [done|]. split; [done|]. rewrite Forall_forall in Hk |- *.
      intros t Ht. split; [by apply Hk|]. destruct (ldt_replacement_list_id t) as [r|] eqn:Er; [|done].
      destruct (Hc (ldt_list_id t) r) as (Hkn & _ & Hm); [apply Hent; by rewrite <- Er, Htargets|].
      split; [done|]. rewrite <- Hkeys, Hm. by intros [? ?].
    + split; [done| |done]. intros id r Hm. destruct (Hc id r) as ([_ Hl] & _ & Hn); [by apply Hent|]. by rewrite El.
  - intros (_ & lists' & [= <-] & _ & Hall). destruct Hc as (id & r & Hin & Hn). apply Hn.
    apply Hent in Hin. rewrite Forall_forall in Hall.
    apply Hlook in Hin as Hin'. destruct Hin' as [?|(t & Ht & <- & Er)]; [done|].
    destruct (Hall t Ht) as [_ Hr]. rewrite Er in Hr. destruct Hr as [Hkr Hnin]. split; [done|]. split.
    + intros ->. apply Hnin. by apply list_elem_of_fmap_2.
    + apply eq_None_not_Some. by rewrite Hkeys.
Qed.

(** ** Rewriting references *)

Section Rewrite.
Context (m : gmap string (option string)).

Definition retained_of (original : list string) : gset string :=
  list_to_set (List.filter (λ id, bool_decide (m !! id = None)) original).

Lemma elem_of_retained original id : id ∈ retained_of original ↔ id ∈ original ∧ m !! id = None.
Proof.
  unfold retained_of. by rewrite elem_of_list_to_set, list_elem_of_In, filter_In, bool_decide_eq_true, <- list_elem_of_In.
Qed.

Lemma elem_of_rewrite_loop retained original inserted rebound id :
  id ∈ (rewrite_loop m retained original inserted rebound).1 ↔
  (id ∈ original ∧ m !! id = None)
  ∨ ((id ∉ retained) ∧ (id ∉ inserted) ∧ ∃ old, old ∈ original ∧ m !! old = Some (Some id)).
Proof.
  revert inserted rebound. induction original as [|x original IH]; intros inserted rebound; cbn [rewrite_loop].
  { cbn. setoid_rewrite elem_of_nil. naive_solver. }
  setoid_rewrite elem_of_cons. destruct (m !! x) as [[r|]|] eqn:Ex.
  - destruct (decide (r ∈ retained)) as [Hr|Hr]; [rewrite (bool_decide_eq_true_2 _ Hr)|rewrite (bool_decide_eq_false_2 _ Hr)];
      cbn [orb]; [rewrite IH; naive_solver|].
    destruct (decide (r ∈ inserted)) as [Hi|Hi]; [rewrite (bool_decide_eq_true_2 _ Hi)|rewrite (bool_decide_eq_false_2 _ Hi)];
      [rewrite IH; naive_solver|].
    specialize (IH ({[r]} ∪ inserted) (S rebound)). destruct (rewrite_loop _ _ _ _ _) as [l n]. cbn [fst] in *.
    rewrite elem_of_cons, IH, elem_of_union, elem_of_singleton. destruct (decide (id = r)); naive_solver.
  - rewrite IH. naive_solver.
  - specialize (IH inserted rebound). destruct (rewrite_loop _ _ _ _ _) as [l n]. cbn [fst] in *.
    rewrite elem_of_cons, IH. naive_solver.
Qed.

Lemma rewrite_loop_nodup retained original inserted rebound :
  NoDup original → (∀ id, id ∈ original → m !! id = None → id ∈ retained) →
  NoDup (rewrite_loop m retained original inserted rebound).1.
Proof.
  intros Hnd. revert inserted rebound. induction Hnd as [|x original Hx _ IH]; intros inserted rebound Hr;
    cbn [rewrite_loop]; [apply NoDup_nil_2|].
  assert (∀ id, id ∈ original → m !! id = None → id ∈ retained) as Hr' by (intros; apply Hr; [by right|done]).
  destruct (m !! x) as [[r|]|] eqn:Ex; [|by apply IH|].
  - destruct (bool_decide (r ∈ retained) || bool_decide (r ∈ inserted)) eqn:Ei; [by apply IH|].
    apply orb_false_iff in Ei as [Er%bool_decide_eq_false Ei%bool_decide_eq_false].
    pose proof (elem_of_rewrite_loop retained original ({[r]} ∪ inserted) (S rebound) r) as Hin.
    specialize (IH ({[r]} ∪ inserted) (S rebound) Hr').
    destruct (rewrite_loop _ _ _ _ _) as [l n]. cbn [fst] in *. apply NoDup_cons. split; [|done].
    rewrite Hin. intros [[Ho Hm]|(_ & Hn & _)]; [by apply Er, Hr'|set_solver].
  - pose proof (elem_of_rewrite_loop retained original inserted rebound x) as Hin.
    specialize (IH inserted rebound Hr'). destruct (rewrite_loop _ _ _ _ _) as [l n]. cbn [fst] in *.
    apply NoDup_cons. split; [|done]. rewrite Hin. intros [[? _]|(Hn & _)]; [done|].
    apply Hn, Hr; [by left|done].
Qed.

Lemma elem_of_rewrite original rebound id :
  id ∈ (rewrite_list_references m original rebound).1 ↔
  (id ∈ original ∧ m !! id = None)
  ∨ ((id ∉ retained_of original) ∧ ∃ old, old ∈ original ∧ m !! old = Some (Some id)).
Proof. unfold rewrite_list_references. rewrite elem_of_rewrite_loop. unfold retained_of. set_solver. Qed.

Lemma rewrite_nodup original rebound :
  NoDup original → NoDup (rewrite_list_references m original rebound).1.
Proof.
  intros Hnd. apply rewrite_loop_nodup; [done|]. intros id Hin Hm. by apply elem_of_retained.
Qed.

(** How many references are rebound. *)
Definition rebound_in (l : list string) : nat :=
  length (List.filter (λ id, match m !! id with Some (Some _) => true | _ => false end) l).

Lemma rewrite_count original rebound :
  (rewrite_list_references m original rebound).2 = (rebound + rebound_in original)%nat.
Proof.
  unfold rewrite_list_references. generalize (list_to_set (C := gset string) (List.filter (λ id, bool_decide (m !! id = None)) original)) as retained.
  generalize (∅ : gset string) as inserted. revert rebound.
  induction original as [|x original IH]; intros rebound inserted retained; cbn [rewrite_loop]; [unfold rebound_in; cbn; lia|].
  unfold rebound_in in *. cbn [List.filter]. destruct (m !! x) as [[r|]|]; cbn [length].
  - destruct (_ || _); [rewrite IH; lia|].
    specialize (IH (S rebound) ({[r]} ∪ inserted) retained). destruct (rewrite_loop _ _ _ _ _). cbn [snd] in *. lia.
  - apply IH.
  - specialize (IH rebound inserted retained). destruct (rewrite_loop _ _ _ _ _). cbn [snd] in *. lia.
Qed.
End Rewrite.

(** *** Loops over rules *)

Lemma counters_eq {A} (l : A) (a b c a' b' c' : nat) :
  a = a' → b = b' → c = c' → (l, (a, b, c)) = (l, (a', b', c')).
Proof. by intros -> -> ->. Qed.

Section Rules.
Context {A : Type} (rewrite : A → nat → RuleEdit A * nat).

Definition edit_result (e : RuleEdit A) : option A :=
  match e with RuleKept a => Some a | RuleUpdated a => Some a | RuleRemoved => None end.

Definition is_updated (e : RuleEdit A) : bool := match e with RuleUpdated _ => true | _ => false end.

(** The edit of a rule does not depend on the counter. *)
Context (edit_of : A → RuleEdit A) (count_of : A → nat).
Context (Hrewrite : ∀ a n, rewrite a n = (edit_of a, (n + count_of a)%nat)).

Lemma rewrite_rules_spec rules rebound removed updated :
  let result := omap (λ a, edit_result (edit_of a)) rules in
  rewrite_rules rewrite rules rebound removed updated
  = (result, ((rebound + list_sum (count_of <$> rules))%nat,
              (removed + (length rules - length result))%nat,
              (updated + length (List.filter (λ a, is_updated (edit_of a)) rules))%nat)).
Proof using Hrewrite.
  revert rebound removed updated. induction rules as [|a rules IH]; intros rebound removed updated; cbn.
  { f_equal. f_equal; [f_equal|]; lia. }
  rewrite Hrewrite.
  assert (length (omap (λ a, edit_result (edit_of a)) rules) ≤ length rules)%nat as Hle.
  { clear. induction rules as [|a rules IH]; cbn; [lia|]. destruct (edit_result (edit_of a)); cbn; lia. }
  destruct (edit_of a); cbn [edit_result is_updated] in *; rewrite IH; apply counters_eq; cbn;
    unfold list_sum, omap in *; lia.
Qed.
End Rules.

Section Plan.
Context (m : gmap string (option string)).

Definition rewritten (l : list string) : list string := (rewrite_list_references m l 0).1.

Lemma rewrite_split l n : rewrite_list_references m l n = (rewritten l, (n + rebound_in m l)%nat).
Proof.
  assert (∀ retained original inserted k k', (rewrite_loop m retained original inserted k).1
    = (rewrite_loop m retained original inserted k').1) as Hi.
  { intros retained original. induction original as [|x original IH]; intros inserted k k'; cbn [rewrite_loop]; [done|].
    destruct (m !! x) as [[r|]|]; [|apply IH|].
    - destruct (_ || _); [apply IH|]. specialize (IH ({[r]} ∪ inserted) (S k) (S k')).
      destruct (rewrite_loop _ _ _ _ (S k)), (rewrite_loop _ _ _ _ (S k')). cbn in *. by rewrite IH.
    - specialize (IH inserted k k'). destruct (rewrite_loop _ _ _ _ k), (rewrite_loop _ _ _ _ k').
      cbn in *. by rewrite IH. }
  rewrite <- (rewrite_count m l n). unfold rewritten, rewrite_list_references.
  rewrite (Hi _ _ _ 0%nat n). by destruct (rewrite_loop _ _ _ _ n).
Qed.

Definition route_edit (rule : RouteRule) : RuleEdit RouteRule := (rewrite_route_rule m rule 0).1.
Definition dns_edit (rule : DnsRule) : RuleEdit DnsRule := (rewrite_dns_rule m rule 0).1.

Lemma rewrite_route_rule_split rule n :
  rewrite_route_rule m rule n
  = (route_edit rule, (n + from_option (rebound_in m) 0 (rr_list rule))%nat).
Proof.
  unfold route_edit, rewrite_route_rule. destruct (rr_list rule) as [l|]; cbn [from_option]; [|by rewrite Nat.add_0_r].
  rewrite !rewrite_split. by repeat case_match.
Qed.

Lemma rewrite_dns_rule_split rule n :
  rewrite_dns_rule m rule n = (dns_edit rule, (n + rebound_in m (dnr_list rule))%nat).
Proof. unfold dns_edit, rewrite_dns_rule. rewrite !rewrite_split. by repeat case_match. Qed.

Lemma route_edit_spec rule :
  match edit_result (route_edit rule) with
  | Some new => route_rule_lists new = rewritten (route_rule_lists rule)
      ∧ route_rule_has_non_list_match_condition new = route_rule_has_non_list_match_condition rule
      ∧ rr_outbound new = rr_outbound rule ∧ active_fallback new = active_fallback rule
  | None => rewritten (route_rule_lists rule) = [] ∧ route_rule_has_non_list_match_condition rule = false
      ∧ route_rule_lists rule ≠ []
  end
  ∧ (rewritten (route_rule_lists rule) = [] → route_rule_lists rule ≠ [] →
     route_rule_has_non_list_match_condition rule = false → edit_result (route_edit rule) = None).
Proof.
  unfold route_edit, rewrite_route_rule, route_rule_lists. destruct (rr_list rule) as [l|] eqn:El.
  2: { cbn. rewrite El. done. }
  rewrite rewrite_split. cbn [default from_option]. change (id l) with l. rename l into lists.
  destruct (decide (rewritten lists = lists)) as [E|E];
    [rewrite (bool_decide_eq_true_2 _ E)|rewrite (bool_decide_eq_false_2 _ E)]; cbn [fst edit_result].
  { rewrite El. cbn. rewrite E. split; [done|]. intros ->. done. }
  destruct (rewritten lists) as [|x l] eqn:Er.
  - destruct (route_rule_has_non_list_match_condition rule) eqn:Hn; cbn [negb fst edit_result].
    + split; [by split_and!|]. done.
    + split; [split_and!; [done|done|by intros ->]|done].
  - split; [by split_and!|done].
Qed.

Lemma dns_edit_spec rule :
  match edit_result (dns_edit rule) with
  | Some new => dnr_list new = rewritten (dnr_list rule) ∧ dnr_server new = dnr_server rule
  | None => rewritten (dnr_list rule) = [] ∧ dnr_list rule ≠ []
  end.
Proof.
  unfold dns_edit, rewrite_dns_rule. rewrite rewrite_split.
  destruct (decide (rewritten (dnr_list rule) = dnr_list rule)) as [E|E];
    [rewrite (bool_decide_eq_true_2 _ E)|rewrite (bool_decide_eq_false_2 _ E)]; cbn [fst edit_result]; [done|].
  destruct (rewritten (dnr_list rule)) as [|x l] eqn:Er; cbn [fst edit_result]; [|done].
  split; [done|]. intros Hn. apply E. by rewrite Hn.
Qed.

Definition new_route_rules (rules : list RouteRule) : list RouteRule := omap (λ r, edit_result (route_edit r)) rules.
Definition new_dns_rules (rules : list DnsRule) : list DnsRule := omap (λ r, edit_result (dns_edit r)) rules.

Lemma elem_of_new_route id rules :
  (∃ rule, rule ∈ new_route_rules rules ∧ id ∈ route_rule_lists rule)
  ↔ ∃ rule, rule ∈ rules ∧ id ∈ rewritten (route_rule_lists rule).
Proof.
  unfold new_route_rules. setoid_rewrite list_elem_of_omap. split.
  - intros (new & (rule & Hin & He) & Hid). exists rule. split; [done|].
    destruct (route_edit_spec rule) as [Hs _]. rewrite He in Hs. by rewrite (proj1 Hs) in Hid.
  - intros (rule & Hin & Hid). destruct (route_edit_spec rule) as [Hs _].
    destruct (edit_result (route_edit rule)) as [new|] eqn:He.
    + exists new. split; [by exists rule|]. by rewrite (proj1 Hs).
    + destruct Hs as [E _]. rewrite E in Hid. by apply elem_of_nil in Hid.
Qed.

Lemma elem_of_new_dns id rules :
  (∃ rule, rule ∈ new_dns_rules rules ∧ id ∈ dnr_list rule)
  ↔ ∃ rule, rule ∈ rules ∧ id ∈ rewritten (dnr_list rule).
Proof.
  unfold new_dns_rules. setoid_rewrite list_elem_of_omap. split.
  - intros (new & (rule & Hin & He) & Hid). exists rule. split; [done|].
    pose proof (dns_edit_spec rule) as Hs. rewrite He in Hs. by rewrite (proj1 Hs) in Hid.
  - intros (rule & Hin & Hid). pose proof (dns_edit_spec rule) as Hs.
    destruct (edit_result (dns_edit rule)) as [new|] eqn:He.
    + exists new. split; [by exists rule|]. by rewrite (proj1 Hs).
    + destruct Hs as [E _]. rewrite E in Hid. by apply elem_of_nil in Hid.
Qed.
End Plan.

(** ** Outbounds *)

(** Every outbound that is named exists. *)
Definition outbounds_resolved (cfg : Config) : Prop :=
  ∀ tag, outbound_named cfg tag ∨ member_of cfg urltest tag → tag ∈ ob_tag <$> config_outbounds cfg.

Lemma elem_of_outbound_targets targets tag :
  tag ∈ outbound_targets targets ↔ is_target targets KOutbound tag.
Proof. apply (elem_of_requested KOutbound). Qed.

Lemma requested_exist cfg tags t :
  t ∈ requested_outbounds cfg tags →
  dt_kind t = KOutbound ∧ ∃ ob, ob ∈ config_outbounds cfg ∧ ob_tag ob = dt_id t.
Proof.
  intros (ob & -> & Hin)%list_elem_of_fmap. apply list_elem_of_In, filter_In in Hin as [Hin _].
  split; [done|]. exists ob. split; [by apply list_elem_of_In|done].
Qed.

Lemma requested_invalid cfg targets :
  (∀ t, t ∈ targets → dt_kind t = KOutbound ∧ ∃ ob, ob ∈ config_outbounds cfg ∧ ob_tag ob = dt_id t) →
  ¬ Forall (valid_target cfg) targets → ∃ ob, ob ∈ config_outbounds cfg ∧ ob_tag ob = EmptyString.
Proof.
  intros Hex Hn. induction targets as [|t targets IH]; [by destruct Hn|].
  destruct (Hex t (list_elem_of_here _ _)) as (Hk & ob & Hob & Htag).
  destruct (empty_str (dt_id t)) eqn:He.
  - exists ob. split; [done|]. rewrite Htag. by destruct (dt_id t).
  - apply IH; [intros t' Ht'; apply Hex; by right|]. intros Hall. apply Hn. constructor; [|done].
    split; [done|]. rewrite Hk. cbn. apply existsb_exists. exists ob. split; [by apply list_elem_of_In|].
    by apply String.eqb_eq.
Qed.

(** A urltest outbound that is not removed keeps a member. *)
Lemma survivor_keeps_member cfg requested (deleted : gset string) ob :
  (∀ tag, tag ∈ deleted ↔ Removed (config_outbounds cfg) requested tag) →
  ob ∈ config_outbounds cfg → ob_type ob = URLTEST → ob_tag ob ∉ deleted →
  ∃ group tag, group ∈ outbound_groups ob ∧ tag ∈ og_outbounds group ∧ (tag ∉ deleted).
Proof.
  intros Hd Hob Hu Hn. destruct (has_remaining_group ob deleted) eqn:E.
  - unfold has_remaining_group in E. apply existsb_exists in E as (group & Hg & Hr). unfold remaining_members in Hr.
    destruct (List.filter _ _) as [|tag l] eqn:Ef; [done|].
    assert (In tag (List.filter (λ tag, negb (bool_decide (tag ∈ deleted))) (og_outbounds group))) as Hin
      by (rewrite Ef; by left).
    apply filter_In in Hin as [Ht Hb]. apply negb_true_iff, bool_decide_eq_false in Hb.
    exists group, tag. by rewrite !list_elem_of_In.
  - exfalso. apply Hn, Hd, removed_emptied; [done..|]. intros group member Hg Hm. apply Hd.
    rewrite has_remaining_spec in E. by apply (E group).
Qed.

Lemma prune_keeps_groups cfg requested (deleted : gset string) ob :
  (∀ tag, tag ∈ deleted ↔ Removed (config_outbounds cfg) requested tag) →
  ob ∈ config_outbounds (prune_config deleted cfg) → ob_type ob = URLTEST →
  outbound_groups ob ≠ [] ∧ Forall (λ group, og_outbounds group ≠ []) (outbound_groups ob).
Proof.
  intros Hd Hob Hu. rewrite pruned_outbounds in Hob. apply list_elem_of_fmap in Hob as (old & -> & Hob).
  apply (elem_of_kept deleted ob_tag) in Hob as [Hob Hk]. rewrite (proj2 (prune_outbound_fields deleted old)) in Hu.
  split.
  - destruct (survivor_keeps_member cfg requested deleted old Hd Hob Hu Hk) as (group & tag & Hg & Ht & Hn).
    unfold outbound_groups in Hg. destruct (ob_outbound_groups old) as [groups|] eqn:E; [|by apply elem_of_nil in Hg].
    destruct (prune_groups_keeps deleted groups group tag Hg Ht Hn) as (new & Hnew & _).
    unfold prune_outbound, is_urltest. rewrite (bool_decide_eq_true_2 _ Hu), E. cbn.
    by destruct (prune_groups deleted groups); [apply elem_of_nil in Hnew|].
  - apply Forall_forall. intros group Hg. by apply (pruned_groups deleted old group Hg Hu).
Qed.


(** ** Lists *)

Definition config_reconnect_lists (cfg : Config) : list string := default [] (cfg_daemon cfg ≫= dc_reconnect_lists).

(** A list is named by a routing rule, a DNS rule or the daemon's reconnect setting. *)
Definition list_used (cfg : Config) (id : string) : Prop := list_named cfg id ∨ id ∈ config_reconnect_lists cfg.

Definition lists_resolved (cfg : Config) : Prop :=
  ∀ id, list_used cfg id → is_Some (default ∅ (cfg_lists cfg) !! id).

(** A rule that does not match everything. *)
Definition selective (rule : RouteRule) : Prop :=
  route_rule_lists rule ≠ [] ∨ route_rule_has_non_list_match_condition rule = true.

Lemma length_omap_le {A B} (f : A → option B) l : (length (omap f l) ≤ length l)%nat.
Proof. induction l as [|a l IH]; cbn; [lia|]. destruct (f a); cbn; unfold omap in *; lia. Qed.

Section ListPlan.
Context (source : Config) (targets : list ListDeleteTarget) (m : gmap string (option string)).
Context (Hm : Replacements source targets m).

Lemma not_target id : m !! id = None ↔ id ∉ target_ids targets.
Proof using Hm. by rewrite <- (rp_keys _ _ _ Hm), <- eq_None_not_Some. Qed.

Lemma rebound_from old id :
  m !! old = Some (Some id) ↔ ∃ t, t ∈ targets ∧ ldt_list_id t = old ∧ ldt_replacement_list_id t = Some id.
Proof using Hm.
  split.
  - intros E. assert (old ∈ target_ids targets) as (t & -> & Ht)%list_elem_of_fmap by by apply (rp_keys _ _ _ Hm).
    exists t. split_and!; [done..|]. rewrite (rp_targets _ _ _ Hm t Ht) in E. by injection E.
  - intros (t & Ht & <- & <-). by apply (rp_targets _ _ _ Hm).
Qed.

(** The references after the rewriting. *)
Lemma elem_of_rewritten l id :
  id ∈ rewritten m l ↔
  (id ∈ l ∧ (id ∉ target_ids targets))
  ∨ ∃ t, t ∈ targets ∧ ldt_replacement_list_id t = Some id ∧ ldt_list_id t ∈ l.
Proof using Hm.
  unfold rewritten. rewrite elem_of_rewrite, not_target. split.
  - intros [?|(_ & old & Ho & (t & ? & <- & ?)%rebound_from)]; [by left|right; by eauto].
  - intros [?|(t & Ht & Hr & Hin)]; [by left|].
    destruct (decide (id ∈ retained_of m l)) as [[? ?%not_target]%elem_of_retained|Hn]; [by left|].
    right. split; [done|]. exists (ldt_list_id t). split; [done|]. apply rebound_from. by exists t.
Qed.

(** What a plan writes. *)
Lemma rewrite_route_spec :
  default [] ((rewrite_route m source).1 ≫= rc_rules)
  = new_route_rules m (config_route_rules source)
  ∧ ((rewrite_route m source).2.1.2 + length (new_route_rules m (config_route_rules source))
     = length (config_route_rules source))%nat.
Proof using Type.
  unfold rewrite_route, config_route_rules. destruct (cfg_route source) as [route|] eqn:Er; cbn [mbind option_bind]; [|done].
  destruct (rc_rules route) as [rules|] eqn:El; [|by cbn; rewrite El].
  rewrite (rewrite_rules_spec _ _ _ (rewrite_route_rule_split m)). cbn. unfold new_route_rules.
  pose proof (length_omap_le (λ r, edit_result (route_edit m r)) rules). split; [done|]. lia.
Qed.

Lemma rewrite_dns_spec rebound :
  default [] ((rewrite_dns m source rebound).1 ≫= dn_rules) = new_dns_rules m (config_dns_rules source)
  ∧ ((rewrite_dns m source rebound).2.1.2 + length (new_dns_rules m (config_dns_rules source))
     = length (config_dns_rules source))%nat
  ∧ ((rewrite_dns m source rebound).1 ≫= dn_servers) = (cfg_dns source ≫= dn_servers)
  ∧ ((rewrite_dns m source rebound).1 ≫= dn_fallback) = (cfg_dns source ≫= dn_fallback).
Proof using Type.
  unfold rewrite_dns, config_dns_rules. destruct (cfg_dns source) as [dns|] eqn:Er; cbn [mbind option_bind]; [|done].
  destruct (dn_rules dns) as [rules|] eqn:El; [|by cbn; rewrite El].
  rewrite (rewrite_rules_spec _ _ _ (rewrite_dns_rule_split m)). cbn. unfold new_dns_rules.
  pose proof (length_omap_le (λ r, edit_result (dns_edit m r)) rules). split_and!; [done| |done..]. lia.
Qed.

Lemma rewrite_daemon_spec rebound :
  default [] ((rewrite_daemon m source rebound).1 ≫= dc_reconnect_lists) = rewritten m (config_reconnect_lists source).
Proof using Type.
  unfold rewrite_daemon, config_reconnect_lists. destruct (cfg_daemon source) as [d|] eqn:Ed; cbn [mbind option_bind]; [|done].
  destruct (dc_reconnect_lists d) as [l|] eqn:El; [|by cbn; rewrite El].
  by rewrite rewrite_split.
Qed.
Lemma used_after res :
  config_route_rules res = new_route_rules m (config_route_rules source) →
  config_dns_rules res = new_dns_rules m (config_dns_rules source) →
  config_reconnect_lists res = rewritten m (config_reconnect_lists source) →
  ∀ id, list_used res id ↔
    (list_used source id ∧ (id ∉ target_ids targets))
    ∨ ∃ t, t ∈ targets ∧ ldt_replacement_list_id t = Some id ∧ list_used source (ldt_list_id t).
Proof using Hm.
  intros Er Ed Ec id. unfold list_used, list_named. rewrite Er, Ed, Ec, elem_of_new_route, elem_of_new_dns.
  setoid_rewrite elem_of_rewritten. naive_solver.
Qed.

Lemma rules_stay_selective :
  Forall selective (config_route_rules source) → Forall selective (new_route_rules m (config_route_rules source)).
Proof using Type.
  rewrite !Forall_forall. intros Hall new (rule & Hin & He)%list_elem_of_omap.
  destruct (route_edit_spec m rule) as [Hs Hdrop]. rewrite He in Hs. destruct Hs as (El & Ec & _).
  unfold selective. rewrite El, Ec. destruct (Hall rule Hin) as [Hl|Hc]; [|by right].
  destruct (route_rule_has_non_list_match_condition rule) eqn:Hn; [by right|left].
  intros E. rewrite (Hdrop E Hl eq_refl) in He. done.
Qed.

Lemma remaining_list id :
  erase_lists m (default ∅ (cfg_lists source)) !! id
  = if bool_decide (id ∈ target_ids targets) then None else default ∅ (cfg_lists source) !! id.
Proof using Hm.
  unfold erase_lists. case_bool_decide as Hin.
  - apply map_lookup_filter_None. right. intros l _ E. cbn [fst] in E. by apply not_target in E.
  - destruct (default ∅ (cfg_lists source) !! id) as [l|] eqn:El.
    + apply map_lookup_filter_Some. split; [done|]. by apply not_target.
    + apply map_lookup_filter_None. by left.
Qed.

Lemma replacement_stays t id :
  t ∈ targets → ldt_replacement_list_id t = Some id →
  (id ∉ target_ids targets) ∧ is_Some (default ∅ (cfg_lists source) !! id).
Proof using Hm.
  intros Ht Hr. destruct (rp_values _ _ _ Hm (ldt_list_id t) id) as [? ?]; [by rewrite (rp_targets _ _ _ Hm t Ht), Hr|].
  split; [by apply not_target|done].
Qed.
End ListPlan.


(** *** Examples *)

Definition delete_rule (outbound : string) (lists : list string) : RouteRule :=
  {| rr_dest_addr := None; rr_dest_port := None; rr_dscp := None; rr_enabled := None;
     rr_failure_policy := None; rr_fallback_outbound := None; rr_list := Some lists;
     rr_outbound := outbound; rr_proto := None; rr_src_addr := None; rr_src_port := None |}.

Definition delete_list : ListConfig :=
  {| lc_detour := Some "vpn_a"%string; lc_domains := None; lc_fallback_detours := Some ["vpn_b"%string];
     lc_refresh_detour_mode := None; lc_ip_cidrs := None; lc_ttl_ms := None |}.

Definition delete_config : Config :=
  {| cfg_daemon := None; cfg_dns := None; cfg_fwmark := None; cfg_iproute := None; cfg_list_refresh := None;
     cfg_lists := Some {["ads" := delete_list; "video" := delete_list; "work" := delete_list]}%string;
     cfg_outbounds := Some [vpn_a; vpn_b; auto_group];
     cfg_route := Some {| rc_inbound_interfaces := None;
       rc_rules := Some [delete_rule "auto" ["ads"]; delete_rule "vpn_a" ["video"; "work"]]%string |} |}.



(** A reference is compared as it is written: [config.cpp] resolves references after
    trimming them, so a padded name is accepted there and is left dangling here. *)
Example padded_reference_survives :
  match plan_list_delete
          {| cfg_daemon := None; cfg_dns := None; cfg_fwmark := None; cfg_iproute := None; cfg_list_refresh := None;
             cfg_lists := Some {["ads"%string := delete_list]}; cfg_outbounds := Some [vpn_a];
             cfg_route := Some {| rc_inbound_interfaces := None;
               rc_rules := Some [delete_rule "vpn_a" [" ads"]]%string |} |}
          [{| ldt_list_id := "ads"; ldt_replacement_list_id := None |}] with
  | Ok (res, _) => cfg_lists res = None ∧ route_rule_lists <$> config_route_rules res = [[" ads"%string]]
  | Throw _ => False
  end.
Proof. vm_compute. split; reflexivity. Qed.
