(* ===== verification/Cipher.v ===== *)
(** * ChaCha20-Poly1305

    src/src/crypto/chacha20poly1305.cpp: the stream cipher, the one-time authenticator in
    five 26-bit limbs and the construction that seals the secret snapshots. Bytes are
    numbers below 256, 32-bit and 64-bit words wrap as they do in the code, arrays are
    lists. The wiping of scratch memory leaves no trace in a value and is not modelled. *)

From Stdlib Require Import ZArith Lia.
From stdpp Require Import base list.
From S2P Require Import Prelude.
Open Scope Z_scope.

(** [array[i]]; every index of the code is inside its array. *)
Definition at_ (l : list Z) (i : nat) : Z := nth i l 0.

(** ** ChaCha20 *)

Definition rotl32 (value bits : Z) : Z :=
  Z.lor (u32 (Z.shiftl value bits)) (Z.shiftr value (32 - bits)).

(** [quarter_round] on the words at four indices. *)
Definition quarter_round (ia ib ic id : nat) (w : list Z) : list Z :=
  let a := at_ w ia in let b := at_ w ib in let c := at_ w ic in let d := at_ w id in
  let a := u32 (a + b) in let d := rotl32 (Z.lxor d a) 16 in
  let c := u32 (c + d) in let b := rotl32 (Z.lxor b c) 12 in
  let a := u32 (a + b) in let d := rotl32 (Z.lxor d a) 8 in
  let c := u32 (c + d) in let b := rotl32 (Z.lxor b c) 7 in
  <[id := d]> (<[ic := c]> (<[ib := b]> (<[ia := a]> w))).

(** [load_le32(bytes + offset)] *)
Definition load_le32 (bytes : list Z) (offset : nat) : Z :=
  Z.lor (Z.lor (Z.lor (at_ bytes offset) (Z.shiftl (at_ bytes (offset + 1)) 8))
               (Z.shiftl (at_ bytes (offset + 2)) 16))
        (Z.shiftl (at_ bytes (offset + 3)) 24).

(** The bytes [store_le32] writes. *)
Definition store_le32 (value : Z) : list Z :=
  [value mod 256; Z.shiftr value 8 mod 256; Z.shiftr value 16 mod 256; Z.shiftr value 24 mod 256].

(** The initial state. *)
Definition chacha20_state (key : list Z) (counter : Z) (nonce : list Z) : list Z :=
  [0x61707865; 0x3320646e; 0x79622d32; 0x6b206574]
  ++ ((λ i, load_le32 key (i * 4)) <$> seq 0 8)
  ++ [counter]
  ++ ((λ i, load_le32 nonce (i * 4)) <$> seq 0 3).

(** The body of the loop: a column round and a diagonal round. *)
Definition double_round (w : list Z) : list Z :=
  let w := quarter_round 0 4 8 12 w in
  let w := quarter_round 1 5 9 13 w in
  let w := quarter_round 2 6 10 14 w in
  let w := quarter_round 3 7 11 15 w in
  let w := quarter_round 0 5 10 15 w in
  let w := quarter_round 1 6 11 12 w in
  let w := quarter_round 2 7 8 13 w in
  quarter_round 3 4 9 14 w.

Definition chacha20_block (key : list Z) (counter : Z) (nonce : list Z) : list Z :=
  let state := chacha20_state key counter nonce in
  let working := Nat.iter 10 double_round state in
  concat ((λ i, store_le32 (u32 (at_ working i + at_ state i))) <$> seq 0 16).

(** The loop of [chacha20_xor]: every pass consumes at least one byte of the input,
    so its length is fuel enough. *)
Fixpoint xor_loop (fuel : nat) (key : list Z) (counter : Z) (nonce input : list Z) : list Z :=
  match fuel with
  | O => []
  | S fuel =>
      match input with
      | [] => []
      | _ =>
          let block := chacha20_block key counter nonce in
          zip_with Z.lxor (take 64 input) block ++ xor_loop fuel key (u32 (counter + 1)) nonce (drop 64 input)
      end
  end.

Definition chacha20_xor (key : list Z) (counter : Z) (nonce input : list Z) : list Z :=
  xor_loop (length input) key counter nonce input.

(** ** Poly1305 *)

(** [struct Poly1305]; [pending] holds the first [pending_size] bytes of the buffer. *)
Record Poly1305 := {
  po_r : list Z;
  po_h : list Z;
  po_pad : list Z;
  po_pending : list Z;
}.

(** Four 32-bit words in 26-bit limbs, the last one without its high bit. *)
Definition limbs_of_words (w : list Z) : list Z :=
  [Z.land (at_ w 0) 0x3ffffff;
   Z.land (Z.lor (Z.shiftr (at_ w 0) 26) (u32 (Z.shiftl (at_ w 1) 6))) 0x3ffffff;
   Z.land (Z.lor (Z.shiftr (at_ w 1) 20) (u32 (Z.shiftl (at_ w 2) 12))) 0x3ffffff;
   Z.land (Z.lor (Z.shiftr (at_ w 2) 14) (u32 (Z.shiftl (at_ w 3) 18))) 0x3ffffff;
   Z.shiftr (at_ w 3) 8].

(** The constructor [Poly1305(otk)]. *)
Definition poly1305_init (otk : list Z) : Poly1305 :=
  let words := [Z.land (load_le32 otk 0) 0x0fffffff; Z.land (load_le32 otk 4) 0x0ffffffc;
                Z.land (load_le32 otk 8) 0x0ffffffc; Z.land (load_le32 otk 12) 0x0ffffffc] in
  {| po_r := limbs_of_words words; po_h := [0; 0; 0; 0; 0];
     po_pad := (λ i, load_le32 otk (16 + i * 4)) <$> seq 0 4; po_pending := [] |}.

(** The words of a block and the limbs it adds to [h]. *)
Definition block_buffer (bytes : list Z) : list Z :=
  bytes ++ [1] ++ replicate (16 - length bytes) 0.

Definition add_block (h buffer : list Z) : list Z :=
  let limbs := limbs_of_words ((λ i, load_le32 buffer (i * 4)) <$> seq 0 4) in
  let high := Z.lor (at_ limbs 4) (Z.shiftl (at_ buffer 16) 24) in
  (λ i, u32 (at_ h i + (if (i =? 4)%nat then high else at_ limbs i))) <$> seq 0 5.

(** The column [d[i]] of the product. *)
Definition product_column (h r : list Z) (i : nat) : Z :=
  foldl (λ d j, u64 (d + u64 (at_ h j * (if (j <=? i)%nat then at_ r (i - j) else u32 (5 * at_ r (i + 5 - j))))))
    0 (seq 0 5).

(** The carry loop: the limbs and the last carry. *)
Fixpoint carry_columns (d : list Z) (carry : Z) : list Z * Z :=
  match d with
  | [] => ([], carry)
  | x :: d =>
      let x := u64 (x + carry) in
      let '(h, carry) := carry_columns d (Z.shiftr x 26) in
      (Z.land (u32 x) 0x3ffffff :: h, carry)
  end.

(** The fold of the last carry into the two lowest limbs. *)
Definition fold_carry (h : list Z) (carry : Z) : list Z :=
  let h0 := u32 (at_ h 0 + u32 (u32 carry * 5)) in
  <[0%nat := Z.land h0 0x3ffffff]> (<[1%nat := u32 (at_ h 1 + Z.shiftr h0 26)]> h).

(** [block(bytes, size)] on the limbs *)
Definition poly1305_block (r h bytes : list Z) : list Z :=
  let h := add_block h (block_buffer bytes) in
  let '(h, carry) := carry_columns (product_column h r <$> seq 0 5) 0 in
  fold_carry h carry.

Definition with_block (mac : Poly1305) (bytes : list Z) : Poly1305 :=
  {| po_r := po_r mac; po_h := poly1305_block (po_r mac) (po_h mac) bytes; po_pad := po_pad mac; po_pending := [] |}.

Definition with_pending (mac : Poly1305) (pending : list Z) : Poly1305 :=
  {| po_r := po_r mac; po_h := po_h mac; po_pad := po_pad mac; po_pending := pending |}.

(** The loop of [update]; a pass takes at least one byte. *)
Fixpoint update_loop (fuel : nat) (mac : Poly1305) (bytes : list Z) : Poly1305 :=
  match fuel with
  | O => mac
  | S fuel =>
      match bytes with
      | [] => mac
      | _ =>
          let take_ := Nat.min (length bytes) (16 - length (po_pending mac)) in
          let mac := with_pending mac (po_pending mac ++ take take_ bytes) in
          let mac := if (length (po_pending mac) =? 16)%nat then with_block mac (po_pending mac) else mac in
          update_loop fuel mac (drop take_ bytes)
      end
  end.

Definition poly1305_update (mac : Poly1305) (bytes : list Z) : Poly1305 :=
  update_loop (length bytes) mac bytes.

(** The carry loop of [tag] over the limbs from the third one on. *)
Fixpoint carry_limbs (h : list Z) (carry : Z) : list Z * Z :=
  match h with
  | [] => ([], carry)
  | x :: h =>
      let x := u32 (x + carry) in
      let '(h, carry) := carry_limbs h (Z.shiftr x 26) in
      (Z.land x 0x3ffffff :: h, carry)
  end.

(** The full carry. *)
Definition settle (h : list Z) : list Z :=
  let '(upper, carry) := carry_limbs (drop 2 h) (Z.shiftr (at_ h 1) 26) in
  let h0 := u32 (at_ h 0 + u32 (carry * 5)) in
  Z.land h0 0x3ffffff :: u32 (Z.land (at_ h 1) 0x3ffffff + Z.shiftr h0 26) :: upper.

(** The select of [h] or [h - p]. *)
Definition reduce (h : list Z) : list Z :=
  let '(g, borrow) := carry_limbs h 5 in
  let mask := if borrow =? 0 then 0 else 0xffffffff in
  zip_with (λ x y, Z.lor (Z.land x (Z.lxor mask 0xffffffff)) (Z.land y mask)) h g.

(** Four words. *)
Definition words_of_limbs (h : list Z) : list Z :=
  [Z.land (Z.lor (at_ h 0) (u64 (Z.shiftl (at_ h 1) 26))) 0xffffffff;
   Z.land (Z.lor (Z.shiftr (at_ h 1) 6) (u64 (Z.shiftl (at_ h 2) 20))) 0xffffffff;
   Z.land (Z.lor (Z.shiftr (at_ h 2) 12) (u64 (Z.shiftl (at_ h 3) 14))) 0xffffffff;
   Z.land (Z.lor (Z.shiftr (at_ h 3) 18) (u64 (Z.shiftl (at_ h 4) 8))) 0xffffffff].

(** The addition of the pad: the bytes of the tag. *)
Fixpoint add_pad (words pad : list Z) (carry : Z) : list Z :=
  match words, pad with
  | w :: words, p :: pad =>
      let sum := u64 (u64 (w + p) + carry) in
      store_le32 (u32 sum) ++ add_pad words pad (Z.shiftr sum 32)
  | _, _ => []
  end.

(** [tag] *)
Definition poly1305_tag (mac : Poly1305) : list Z :=
  let mac := match po_pending mac with [] => mac | pending => with_block mac pending end in
  add_pad (words_of_limbs (reduce (settle (po_h mac)))) (po_pad mac) 0.

(** ** The construction *)

Definition poly1305_pad16 (mac : Poly1305) (size : nat) : Poly1305 :=
  if (size mod 16 =? 0)%nat then mac else poly1305_update mac (replicate (16 - size mod 16) 0).

Definition poly1305_le64 (mac : Poly1305) (value : Z) : Poly1305 :=
  poly1305_update mac ((λ i, Z.shiftr value (8 * Z.of_nat i) mod 256) <$> seq 0 8).

(** [aead_tag]; a size is a 64-bit number. *)
Definition aead_tag (key nonce aad ciphertext : list Z) : list Z :=
  let otk := take 32 (chacha20_block key 0 nonce) in
  let mac := poly1305_init otk in
  let mac := poly1305_update mac aad in
  let mac := poly1305_pad16 mac (length aad) in
  let mac := poly1305_update mac ciphertext in
  let mac := poly1305_pad16 mac (length ciphertext) in
  let mac := poly1305_le64 mac (u64 (Z.of_nat (length aad))) in
  let mac := poly1305_le64 mac (u64 (Z.of_nat (length ciphertext))) in
  poly1305_tag mac.

Definition kChaCha20Poly1305TagBytes : nat := 16.

Definition chacha20poly1305_seal (key nonce aad plaintext : list Z) : list Z :=
  let sealed := chacha20_xor key 1 nonce plaintext in
  sealed ++ aead_tag key nonce aad sealed.

(** The accumulated [difference] of two tags. *)
Definition tag_difference (expected supplied : list Z) : Z :=
  foldl (λ difference i, Z.lor difference (Z.lxor (at_ expected i) (at_ supplied i))) 0
    (seq 0 kChaCha20Poly1305TagBytes).

Definition chacha20poly1305_open (key nonce aad sealed : list Z) : option (list Z) :=
  if (length sealed <? kChaCha20Poly1305TagBytes)%nat then None
  else
    let ciphertext := take (length sealed - kChaCha20Poly1305TagBytes) sealed in
    let expected := aead_tag key nonce aad ciphertext in
    let supplied := drop (length ciphertext) sealed in
    if negb (tag_difference expected supplied =? 0) then None
    else Some (chacha20_xor key 1 nonce ciphertext).
