(* ===== verification/CipherClaims.v ===== *)
(** * What the cipher computes

    The authenticator of [Cipher] is the polynomial of RFC 8439, section 2.5, however its input
    is split into updates; sealing is the construction of section 2.8, and opening
    accepts exactly what sealing produces. *)

From Stdlib Require Import ZArith Lia Ascii String.
From stdpp Require Import base list.
From S2P Require Import Prelude Cipher.
Open Scope Z_scope.

(** * Limb arithmetic of Poly1305

    The 26-bit limbs of [Cipher] compute in the integers modulo 2^130 - 5: no word
    overflows, every step has the value the mathematical operation has. *)

(** ** Numbers in a base *)

Fixpoint value_in (base : Z) (l : list Z) : Z :=
  match l with [] => 0 | x :: l => x + base * value_in base l end.

Definition limbs_value : list Z → Z := value_in (2 ^ 26).
Definition words_value : list Z → Z := value_in (2 ^ 32).

(** The number a string of bytes stands for, and its bytes. *)
Definition le_number : list Z → Z := value_in 256.

Fixpoint le_encode (n : nat) (z : Z) : list Z :=
  match n with O => [] | S n => z mod 256 :: le_encode n (z / 256) end.

Definition byte_ok (b : Z) : Prop := 0 ≤ b < 256.
Definition word_ok (w : Z) : Prop := 0 ≤ w < 2 ^ 32.
Definition limb_ok (x : Z) : Prop := 0 ≤ x < 2 ^ 26.

(** The prime. *)
Definition prime : Z := 2 ^ 130 - 5.
Definition congruent (a b : Z) : Prop := ∃ k, a = b + prime * k.

Lemma value_in_app base l l' : value_in base (l ++ l') = value_in base l + base ^ Z.of_nat (length l) * value_in base l'.
Proof.
  induction l as [|x l IH]; [cbn; lia|]. cbn [app value_in length]. rewrite IH, Nat2Z.inj_succ, Z.pow_succ_r by lia. ring.
Qed.

Lemma value_in_zeros base n : value_in base (replicate n 0) = 0.
Proof. induction n as [|n IH]; [done|]. cbn [replicate value_in]. rewrite IH. lia. Qed.

Lemma value_in_bound base l :
  0 < base → Forall (λ x, 0 ≤ x < base) l → 0 ≤ value_in base l < base ^ Z.of_nat (length l).
Proof.
  intros Hb. induction 1 as [|x l Hx _ IH]; [cbn; lia|]. cbn [value_in length].
  rewrite Nat2Z.inj_succ, Z.pow_succ_r by lia. nia.
Qed.

Lemma congruent_mod a b : congruent a b ↔ a mod prime = b mod prime.
Proof.
  unfold congruent. split.
  - intros (k & ->). rewrite Z.mul_comm. by rewrite Z.mod_add.
  - intros E. exists (a / prime - b / prime). pose proof (Z.div_mod a prime). pose proof (Z.div_mod b prime).
    unfold prime in *. lia.
Qed.

#[global] Instance congruent_equiv : Equivalence congruent.
Proof.
  split.
  - intros a. by apply congruent_mod.
  - intros a b E. by apply congruent_mod, eq_sym, congruent_mod.
  - intros a b c E1%congruent_mod E2%congruent_mod. apply congruent_mod. congruence.
Qed.

Lemma congruent_mul_r a b r : congruent a b → congruent (a * r) (b * r).
Proof. intros (k & ->). exists (k * r). ring. Qed.

Lemma congruent_add_r a b r : congruent a b → congruent (a + r) (b + r).
Proof. intros (k & ->). exists k. ring. Qed.

(** ** Bit operations as arithmetic *)

Lemma land_mask26 x : Z.land x 0x3ffffff = x mod 2 ^ 26.
Proof. change 0x3ffffff with (Z.ones 26). by apply Z.land_ones. Qed.

Lemma land_mask32 x : Z.land x 0xffffffff = x mod 2 ^ 32.
Proof. change 0xffffffff with (Z.ones 32). by apply Z.land_ones. Qed.

Lemma u64_id x : 0 ≤ x < 2 ^ 64 → u64 x = x.
Proof. intros. unfold u64, wrap. by apply Z.mod_small. Qed.

(** A number below 2^k or-ed with a multiple of 2^k. *)
Lemma lor_low a b k : 0 ≤ k → 0 ≤ a < 2 ^ k → Z.lor a (b * 2 ^ k) = a + b * 2 ^ k.
Proof. intros. rewrite Z.lor_comm, lor_disjoint by done. lia. Qed.

(** Neighbouring words in a limb: the shifted upper word may lose its high bits. *)
Lemma lor_shifted (wrap_ : Z → Z) w a b k :
  (∀ x, wrap_ x = x mod 2 ^ w) → 0 ≤ k ≤ w → 0 ≤ a < 2 ^ k →
  Z.lor a (wrap_ (Z.shiftl b k)) = a + 2 ^ k * (b mod 2 ^ (w - k)).
Proof.
  intros Hw Hk Ha. rewrite Hw, Z.shiftl_mul_pow2 by lia.
  replace (2 ^ w) with (2 ^ (w - k) * 2 ^ k) by (rewrite <- Z.pow_add_r by lia; f_equal; lia).
  rewrite Z.mul_mod_distr_r by (apply Z.pow_nonzero; lia). rewrite lor_low by lia. lia.
Qed.

Lemma lor_shifted32 a b k : 0 ≤ k ≤ 32 → 0 ≤ a < 2 ^ k → Z.lor a (u32 (Z.shiftl b k)) = a + 2 ^ k * (b mod 2 ^ (32 - k)).
Proof. intros. by apply (lor_shifted u32 32). Qed.

Lemma lor_shifted64 a b k : 0 ≤ k ≤ 64 → 0 ≤ a < 2 ^ k → Z.lor a (u64 (Z.shiftl b k)) = a + 2 ^ k * (b mod 2 ^ (64 - k)).
Proof. intros. by apply (lor_shifted u64 64). Qed.

(** ** Loading and storing *)

Lemma at_ok (P : Z → Prop) l i : P 0 → Forall P l → P (at_ l i).
Proof.
  intros H0 Hl. unfold at_. revert i. induction Hl as [|x l Hx Hl IH]; intros [|i]; cbn; [done..|apply IH].
Qed.

Lemma load_le32_value bytes o :
  Forall byte_ok bytes →
  load_le32 bytes o = at_ bytes o + 2 ^ 8 * at_ bytes (o + 1) + 2 ^ 16 * at_ bytes (o + 2) + 2 ^ 24 * at_ bytes (o + 3).
Proof.
  intros Hb. unfold load_le32. pose proof (λ i, at_ok byte_ok bytes i ltac:(unfold byte_ok; lia) Hb) as Hat.
  pose proof (Hat o). pose proof (Hat (o + 1)%nat). pose proof (Hat (o + 2)%nat). pose proof (Hat (o + 3)%nat).
  unfold byte_ok in *. rewrite !Z.shiftl_mul_pow2 by lia. rewrite (lor_low _ _ 8), (lor_low _ _ 16), (lor_low _ _ 24) by lia. lia.
Qed.

Lemma load_le32_ok bytes o : Forall byte_ok bytes → word_ok (load_le32 bytes o).
Proof.
  intros Hb. rewrite load_le32_value by done. pose proof (λ i, at_ok byte_ok bytes i ltac:(unfold byte_ok; lia) Hb) as Hat.
  pose proof (Hat o). pose proof (Hat (o + 1)%nat). pose proof (Hat (o + 2)%nat). pose proof (Hat (o + 3)%nat).
  unfold byte_ok, word_ok in *. lia.
Qed.

(** Sixteen bytes from an offset as four words. *)
Definition load_words (bytes : list Z) (o : nat) : list Z := (λ i, load_le32 bytes (o + i * 4)) <$> seq 0 4.

Lemma load_words_value bytes o :
  Forall byte_ok bytes → (o + 16 ≤ length bytes)%nat →
  words_value (load_words bytes o) = le_number (take 16 (drop o bytes)).
Proof.
  intros Hb Hl. assert (∀ i, (i < 16)%nat → at_ bytes (o + i) = at_ (take 16 (drop o bytes)) i) as Hat.
  { intros i Hi. unfold at_. rewrite !nth_lookup, lookup_take_lt, lookup_drop by done. done. }
  assert (length (take 16 (drop o bytes)) = 16%nat) as Hlen by (rewrite length_take, length_drop; lia).
  unfold load_words, words_value. cbn [seq fmap list_fmap value_in]. rewrite !load_le32_value by done.
  rewrite <- !Nat.add_assoc. cbn [Nat.mul Nat.add]. rewrite !Hat by lia. clear Hat.
  revert Hlen. generalize (take 16 (drop o bytes)) as l. intros l Hlen.
  do 17 (destruct l as [|? l]; [try discriminate Hlen|]); [|discriminate Hlen].
  unfold at_, le_number. cbn [nth value_in]. lia.
Qed.

Lemma load_words_ok bytes o : Forall byte_ok bytes → Forall word_ok (load_words bytes o).
Proof. intros Hb. unfold load_words. apply Forall_fmap, Forall_true. intros i. by apply load_le32_ok. Qed.

Lemma store_le32_encode z n : le_encode (4 + n) z = store_le32 (u32 z) ++ le_encode n (z / 2 ^ 32).
Proof.
  unfold store_le32. rewrite !Z.shiftr_div_pow2 by lia. cbn [Nat.add le_encode app]. unfold u32, wrap.
  rewrite !Z.div_div by lia. assert (∀ k, 0 ≤ k ≤ 24 → (z mod 2 ^ 32 / 2 ^ k) mod 256 = (z / 2 ^ k) mod 256) as Hm.
  { intros k Hk. pose proof (Z.div_mod z (2 ^ 32) ltac:(lia)) as E. rewrite E at 2.
    replace (2 ^ 32 * (z / 2 ^ 32)) with (z / 2 ^ 32 * 2 ^ (24 - k) * 256 * 2 ^ k).
    2: { transitivity (z / 2 ^ 32 * (2 ^ (24 - k) * 2 ^ k) * 256); [ring|]. rewrite <- Z.pow_add_r by lia.
         replace (24 - k + k) with 24 by lia. lia. }
    rewrite Z.div_add_l by (apply Z.pow_nonzero; lia). by rewrite Z.add_comm, Z.mod_add by lia. }
  pose proof (Hm 0 ltac:(lia)) as H0. pose proof (Hm 8 ltac:(lia)) as H8. pose proof (Hm 16 ltac:(lia)) as H16. pose proof (Hm 24 ltac:(lia)) as H24.
  rewrite H8, H16, H24. rewrite !Z.div_1_r in H0. by rewrite H0.
Qed.

(** ** Words and limbs *)

Ltac euclid := Z.to_euclidean_division_equations; lia.

Lemma limbs_of_words_spec w0 w1 w2 w3 :
  Forall word_ok [w0; w1; w2; w3] →
  ∃ l0 l1 l2 l3 l4, limbs_of_words [w0; w1; w2; w3] = [l0; l1; l2; l3; l4]
    ∧ Forall limb_ok [l0; l1; l2; l3] ∧ 0 ≤ l4 < 2 ^ 24
    ∧ limbs_value [l0; l1; l2; l3; l4] = words_value [w0; w1; w2; w3].
Proof.
  rewrite !Forall_cons. unfold word_ok. intros (H0 & H1 & H2 & H3 & _).
  unfold limbs_of_words, at_. cbn [nth]. rewrite !Z.shiftr_div_pow2 by lia. rewrite !land_mask26.
  rewrite (lor_shifted32 _ _ 6), (lor_shifted32 _ _ 12), (lor_shifted32 _ _ 18) by euclid.
  do 5 eexists. split; [reflexivity|]. rewrite !Forall_cons, Forall_nil. unfold limb_ok.
  split; [split_and!; try done; apply Z.mod_pos_bound; lia|]. split; [euclid|].
  unfold limbs_value, words_value. cbn [value_in]. euclid.
Qed.

Lemma words_of_limbs_spec h0 h1 h2 h3 h4 :
  Forall limb_ok [h0; h1; h2; h3; h4] →
  Forall word_ok (words_of_limbs [h0; h1; h2; h3; h4])
  ∧ words_value (words_of_limbs [h0; h1; h2; h3; h4]) = limbs_value [h0; h1; h2; h3; h4] mod 2 ^ 128.
Proof.
  rewrite !Forall_cons. unfold limb_ok. intros (H0 & H1 & H2 & H3 & H4 & _).
  unfold words_of_limbs, at_. cbn [nth]. rewrite !Z.shiftr_div_pow2 by lia. rewrite !land_mask32.
  rewrite (lor_shifted64 _ _ 26), (lor_shifted64 _ _ 20), (lor_shifted64 _ _ 14), (lor_shifted64 _ _ 8) by euclid.
  split.
  - rewrite !Forall_cons, Forall_nil. unfold word_ok. split_and!; try done; apply Z.mod_pos_bound; lia.
  - unfold limbs_value, words_value. cbn [value_in].
    rewrite (Z.mod_small h1), (Z.mod_small h2), (Z.mod_small h3), (Z.mod_small h4) by lia.
    apply Z.mod_unique with (q := h4 / 2 ^ 24); euclid.
Qed.

(** Masking word by word is masking the number. *)
Lemma land_split a m b n k :
  0 ≤ k → 0 ≤ a < 2 ^ k → 0 ≤ m < 2 ^ k →
  Z.land (a + 2 ^ k * b) (m + 2 ^ k * n) = Z.land a m + 2 ^ k * Z.land b n.
Proof.
  intros Hk Ha Hm. rewrite !(Z.mul_comm (2 ^ k)), <- !lor_low; [|try done..].
  2: { split; [apply Z.land_nonneg; lia|]. rewrite <- (Z.mod_small a (2 ^ k)), <- Z.land_ones by lia.
       rewrite <- Z.land_assoc, (Z.land_comm (Z.ones k)), Z.land_assoc, Z.land_ones by lia.
       apply Z.mod_pos_bound. lia. }
  apply Z.bits_inj'. intros i Hi. rewrite !Z.land_spec, !Z.lor_spec, !Z.land_spec.
  destruct (Z_lt_ge_dec i k).
  - by rewrite !Z.mul_pow2_bits_low, !orb_false_r by lia.
  - assert (∀ x, 0 ≤ x < 2 ^ k → Z.testbit x i = false) as Hhigh.
    { intros x Hx. destruct (decide (x = 0)) as [->|]; [apply Z.bits_0|].
      apply Z.bits_above_log2; [lia|]. assert (Z.log2 x < k) by (apply Z.log2_lt_pow2; lia). lia. }
    rewrite !Z.mul_pow2_bits by lia. by rewrite !Hhigh, Z.land_spec by done.
Qed.

(** The clamp of [r]. *)
Definition clamp (z : Z) : Z := Z.land z 0x0ffffffc0ffffffc0ffffffc0fffffff.

Lemma land_ok w m : word_ok w → 0 ≤ m → word_ok (Z.land w m).
Proof.
  unfold word_ok. intros Hw Hm. split; [apply Z.land_nonneg; lia|].
  rewrite <- (Z.mod_small w (2 ^ 32)), <- Z.land_ones by lia.
  rewrite <- Z.land_assoc, (Z.land_comm (Z.ones 32)), Z.land_assoc, Z.land_ones by lia.
  apply Z.mod_pos_bound. lia.
Qed.

Lemma clamp_words w0 w1 w2 w3 :
  Forall word_ok [w0; w1; w2; w3] →
  words_value [Z.land w0 0x0fffffff; Z.land w1 0x0ffffffc; Z.land w2 0x0ffffffc; Z.land w3 0x0ffffffc]
  = clamp (words_value [w0; w1; w2; w3]).
Proof.
  rewrite !Forall_cons. unfold word_ok. intros (H0 & H1 & H2 & H3 & _). unfold clamp, words_value. cbn [value_in].
  replace 0x0ffffffc0ffffffc0ffffffc0fffffff
    with (0x0fffffff + 2 ^ 32 * (0x0ffffffc + 2 ^ 32 * (0x0ffffffc + 2 ^ 32 * 0x0ffffffc))) by reflexivity.
  rewrite (land_split w0), (land_split w1), (land_split w2) by lia.
  by rewrite !Z.mul_0_r, !Z.add_0_r.
Qed.

(** ** A block *)

(** The bounds of the accumulator between two blocks. *)
Definition acc_ok (h : list Z) : Prop :=
  ∃ h0 h1 h2 h3 h4, h = [h0; h1; h2; h3; h4]
    ∧ limb_ok h0 ∧ 0 ≤ h1 < 2 ^ 26 + 2 ^ 6 ∧ Forall limb_ok [h2; h3; h4].

Definition r_ok (r : list Z) : Prop := ∃ r0 r1 r2 r3 r4, r = [r0; r1; r2; r3; r4] ∧ Forall limb_ok [r0; r1; r2; r3; r4].

Lemma buffer_ok bytes : Forall byte_ok bytes → Forall byte_ok (block_buffer bytes).
Proof.
  intros Hb. unfold block_buffer. rewrite !Forall_app, Forall_singleton. unfold byte_ok at 2 3.
  split_and!; [done|lia..|]. apply Forall_replicate. lia.
Qed.

Lemma buffer_value bytes : le_number (block_buffer bytes) = le_number (bytes ++ [1]).
Proof.
  unfold block_buffer, le_number. rewrite app_assoc, value_in_app, value_in_zeros. lia.
Qed.

Lemma block_value bytes :
  Forall byte_ok bytes → (length bytes ≤ 16)%nat →
  le_number (bytes ++ [1]) = words_value (load_words (block_buffer bytes) 0) + 2 ^ 128 * at_ (block_buffer bytes) 16
  ∧ 0 ≤ at_ (block_buffer bytes) 16 ≤ 1.
Proof.
  intros Hb Hl. assert (length (block_buffer bytes) = 17%nat) as Hlen.
  { unfold block_buffer. rewrite !length_app, length_replicate. cbn. lia. }
  rewrite load_words_value by (try apply buffer_ok; try done; lia). rewrite drop_0. split.
  - rewrite <- buffer_value. rewrite <- (take_drop 16 (block_buffer bytes)) at 1. unfold le_number.
    rewrite value_in_app, length_take, Hlen. change (256 ^ Z.of_nat (16 `min` 17)) with (2 ^ 128). f_equal. f_equal.
    destruct (drop 16 (block_buffer bytes)) as [|x [|y l]] eqn:E.
    + apply (f_equal length) in E. rewrite length_drop, Hlen in E. discriminate.
    + cbn [value_in]. unfold at_. rewrite nth_lookup. rewrite <- (Nat.add_0_r 16), <- lookup_drop, E. cbn. lia.
    + apply (f_equal length) in E. rewrite length_drop, Hlen in E. discriminate.
  - unfold at_. rewrite nth_lookup. unfold block_buffer. destruct (decide (length bytes = 16%nat)) as [E|E].
    + rewrite lookup_app_r by lia. rewrite E. cbn. lia.
    + rewrite lookup_app_r by lia. rewrite lookup_app_r by (cbn; lia). cbn [length].
      rewrite lookup_replicate_2 by lia. cbn. lia.
Qed.

(** The accumulator after the addition. *)
Definition sum_ok (h : list Z) : Prop :=
  ∃ h0 h1 h2 h3 h4, h = [h0; h1; h2; h3; h4]
    ∧ 0 ≤ h0 < 2 ^ 27 ∧ 0 ≤ h1 < 2 ^ 27 + 2 ^ 6 ∧ 0 ≤ h2 < 2 ^ 27 ∧ 0 ≤ h3 < 2 ^ 27 ∧ 0 ≤ h4 < 2 ^ 26 + 2 ^ 25.

Lemma add_block_spec h bytes :
  acc_ok h → Forall byte_ok bytes → (length bytes ≤ 16)%nat →
  sum_ok (add_block h (block_buffer bytes))
  ∧ limbs_value (add_block h (block_buffer bytes)) = limbs_value h + le_number (bytes ++ [1]).
Proof.
  intros (h0 & h1 & h2 & h3 & h4 & -> & Hh0 & Hh1 & Hh) Hb Hl.
  destruct (block_value bytes Hb Hl) as [Hval Hbit]. pose proof (load_words_ok _ 0 (buffer_ok bytes Hb)) as Hw.
  unfold add_block. change ((λ i, load_le32 (block_buffer bytes) (i * 4)) <$> seq 0 4)
    with (load_words (block_buffer bytes) 0).
  rewrite Hval. revert Hw Hbit. unfold load_words. cbn [seq fmap list_fmap]. generalize (at_ (block_buffer bytes) 16) as bit.
  intros bit Hw Hbit. destruct (limbs_of_words_spec _ _ _ _ Hw) as (l0 & l1 & l2 & l3 & l4 & -> & Hls & Hl4 & <-).
  rewrite !Forall_cons in Hh. rewrite !Forall_cons in Hls. destruct Hh as (? & ? & ? & _), Hls as (? & ? & ? & ? & _). unfold limb_ok in *.
  unfold at_. cbn [nth Nat.eqb]. rewrite Z.shiftl_mul_pow2, lor_low by lia.
  rewrite !u32_id by (unfold is_u32; lia). split.
  - do 5 eexists. split; [reflexivity|]. lia.
  - unfold limbs_value. cbn [value_in]. lia.
Qed.

Lemma foldl_same {A B} (f g : A → B → A) a l : (∀ x y, f x y = g x y) → foldl f a l = foldl g a l.
Proof. intros E. revert a. induction l as [|y l IH]; intros a; cbn; [done|]. by rewrite E. Qed.

(** The columns of the product. *)
Lemma sum_exact (f : nat → Z) :
  (∀ j, 0 ≤ f j < 2 ^ 58) → foldl (λ d j, u64 (d + u64 (f j))) 0 (seq 0 5) = f 0%nat + f 1%nat + f 2%nat + f 3%nat + f 4%nat.
Proof.
  intros Hf. pose proof (Hf 0%nat). pose proof (Hf 1%nat). pose proof (Hf 2%nat). pose proof (Hf 3%nat). pose proof (Hf 4%nat).
  cbn [seq foldl]. rewrite !(u64_id (f _)) by lia. rewrite (u64_id (0 + f 0%nat)) by lia.
  rewrite (u64_id (0 + f 0%nat + f 1%nat)) by lia. rewrite (u64_id (0 + f 0%nat + f 1%nat + f 2%nat)) by lia.
  rewrite (u64_id (0 + f 0%nat + f 1%nat + f 2%nat + f 3%nat)) by lia. rewrite u64_id by lia. lia.
Qed.

Lemma column_exact h r i :
  sum_ok h → r_ok r →
  product_column h r i =
    let f j := at_ h j * (if (j <=? i)%nat then at_ r (i - j) else 5 * at_ r (i + 5 - j)) in
    f 0%nat + f 1%nat + f 2%nat + f 3%nat + f 4%nat.
Proof.
  intros (h0 & h1 & h2 & h3 & h4 & Eh & Hh) (r0 & r1 & r2 & r3 & r4 & Er & Hr). cbv zeta.
  assert (∀ j, 0 ≤ at_ h j < 2 ^ 28) as Hah.
  { intros j. apply (at_ok (λ x, 0 ≤ x < 2 ^ 28)); [lia|]. rewrite Eh, !Forall_cons, Forall_nil. lia. }
  assert (∀ j, 0 ≤ at_ r j < 2 ^ 26) as Har.
  { intros j. apply (at_ok limb_ok); [unfold limb_ok; lia|by rewrite Er]. }
  unfold product_column. rewrite <- (sum_exact (λ j, at_ h j * (if (j <=? i)%nat then at_ r (i - j) else 5 * at_ r (i + 5 - j)))).
  - apply foldl_same. intros d j.
    destruct (j <=? i)%nat; [done|]. rewrite u32_id; [done|]. pose proof (Har (i + 5 - j)%nat). unfold is_u32. lia.
  - intros j. pose proof (Hah j). destruct (j <=? i)%nat; [pose proof (Har (i - j)%nat)|pose proof (Har (i + 5 - j)%nat)]; nia.
Qed.

(** Replaces products of variables by fresh variables. *)
Ltac atoms := repeat match goal with |- context [?x * ?y] => is_var x; is_var y; generalize dependent (x * y); intros end.

Definition column_ok (d : Z) : Prop := 0 ≤ d < 2 ^ 61.

Lemma columns_spec h r :
  sum_ok h → r_ok r →
  let d := product_column h r <$> seq 0 5 in
  Forall column_ok d
  ∧ congruent (limbs_value d) (limbs_value h * limbs_value r)
  ∧ limbs_value d < 2 ^ 130 * (4 * 2 ^ 27 + 2 ^ 26 + 2 ^ 25 + 2 ^ 10).
Proof.
  intros Hh Hr. cbv zeta. cbn [seq fmap list_fmap]. rewrite !column_exact by done.
  destruct Hh as (h0 & h1 & h2 & h3 & h4 & -> & Hh), Hr as (r0 & r1 & r2 & r3 & r4 & -> & Hr).
  rewrite !Forall_cons in Hr. unfold limb_ok in Hr. destruct Hr as (? & ? & ? & ? & ? & _).
  unfold at_. cbn [Nat.leb Nat.sub Nat.add nth]. cbv zeta.
  assert (∀ x y a b, 0 ≤ x < a → 0 ≤ y < b → 0 ≤ x * y ≤ a * b) as Hm by (intros; nia).
  assert (∀ r, 0 ≤ r < 2 ^ 26 → 0 ≤ h0 * r ≤ 2 ^ 27 * 2 ^ 26 ∧ 0 ≤ h1 * r ≤ (2 ^ 27 + 2 ^ 6) * 2 ^ 26
    ∧ 0 ≤ h2 * r ≤ 2 ^ 27 * 2 ^ 26 ∧ 0 ≤ h3 * r ≤ 2 ^ 27 * 2 ^ 26 ∧ 0 ≤ h4 * r ≤ (2 ^ 26 + 2 ^ 25) * 2 ^ 26) as Hp.
  { intros r Hr. do 4 (split; [apply Hm; lia|]). apply Hm; lia. }
  pose proof (Hp r0 ltac:(done)). pose proof (Hp r1 ltac:(done)). pose proof (Hp r2 ltac:(done)).
  pose proof (Hp r3 ltac:(done)). pose proof (Hp r4 ltac:(done)). clear Hp Hm.
  split; [|split].
  - rewrite !Forall_cons, Forall_nil. unfold column_ok. rewrite ?(Z.mul_assoc _ 5), ?(Z.mul_comm _ 5), <- ?(Z.mul_assoc 5).
    atoms. do 5 (split; [lia|]). exact I.
  - unfold limbs_value. cbn [value_in].
    exists (- (h1 * r4 + h2 * r3 + h3 * r2 + h4 * r1
      + 2 ^ 26 * (h2 * r4 + h3 * r3 + h4 * r2) + 2 ^ 52 * (h3 * r4 + h4 * r3) + 2 ^ 78 * (h4 * r4))).
    unfold prime. ring.
  - unfold limbs_value. cbn [value_in]. rewrite ?(Z.mul_assoc _ 5), ?(Z.mul_comm _ 5), <- ?(Z.mul_assoc 5). atoms. lia.
Qed.

(** Carrying keeps the value. *)
Lemma carry_columns_spec d carry :
  Forall column_ok d → 0 ≤ carry < 2 ^ 40 →
  length (carry_columns d carry).1 = length d
  ∧ Forall limb_ok (carry_columns d carry).1 ∧ 0 ≤ (carry_columns d carry).2 < 2 ^ 40
  ∧ limbs_value (carry_columns d carry).1 + 2 ^ (26 * Z.of_nat (length d)) * (carry_columns d carry).2
    = limbs_value d + carry.
Proof.
  intros Hd. revert carry. induction Hd as [|x d Hx _ IH]; intros carry Hc; cbn [carry_columns].
  { cbn. split_and!; try done; lia. }
  unfold column_ok in Hx. rewrite u64_id, Z.shiftr_div_pow2 by lia.
  destruct (IH ((x + carry) / 2 ^ 26)) as (Hlen & Hl & Hc' & E); [euclid|].
  destruct (carry_columns d _) as [h c]. cbn [fst snd] in *. split; [by cbn; rewrite Hlen|].
  rewrite land_mask26. unfold u32, wrap. split.
  { apply Forall_cons. split; [apply Z.mod_pos_bound; lia|done]. }
  split; [done|]. cbn [length]. rewrite Nat2Z.inj_succ, Z.mul_succ_r, Z.pow_add_r by lia.
  unfold limbs_value in *. cbn [value_in]. rewrite <- Z.mul_assoc, (Z.mul_comm (2 ^ 26) c), Z.mul_assoc.
  revert E. generalize (value_in (2 ^ 26) h) (value_in (2 ^ 26) d) (2 ^ (26 * Z.of_nat (length d)) * c).
  intros a b e E. euclid.
Qed.

Lemma fold_carry_spec h0 h1 h2 h3 h4 carry :
  Forall limb_ok [h0; h1; h2; h3; h4] → 0 ≤ carry < 5 * 2 ^ 27 →
  acc_ok (fold_carry [h0; h1; h2; h3; h4] carry)
  ∧ limbs_value (fold_carry [h0; h1; h2; h3; h4] carry) = limbs_value [h0; h1; h2; h3; h4] + 5 * carry.
Proof.
  rewrite !Forall_cons. unfold limb_ok. intros (H0 & H1 & H2 & H3 & H4 & _) Hc.
  unfold fold_carry, at_. cbn [nth insert list_insert].
  rewrite (u32_id carry), (u32_id (carry * 5)), (u32_id (h0 + carry * 5)) by (unfold is_u32; lia).
  rewrite Z.shiftr_div_pow2, land_mask26 by lia.
  rewrite u32_id by (unfold is_u32; euclid). split.
  - do 5 eexists. split; [reflexivity|]. rewrite !Forall_cons, Forall_nil. unfold limb_ok. split; [euclid|]. split; [euclid|]. lia.
  - unfold limbs_value. cbn [value_in]. euclid.
Qed.

Lemma length5 {A} (l : list A) : length l = 5%nat → ∃ a b c d e, l = [a; b; c; d; e].
Proof. intros Hl. do 6 (destruct l as [|? l]; [try discriminate Hl|]); [by repeat eexists|discriminate Hl]. Qed.

(** A block multiplies. *)
Lemma poly1305_block_spec r h bytes :
  r_ok r → acc_ok h → Forall byte_ok bytes → (length bytes ≤ 16)%nat →
  acc_ok (poly1305_block r h bytes)
  ∧ congruent (limbs_value (poly1305_block r h bytes))
              ((limbs_value h + le_number (bytes ++ [1])) * limbs_value r).
Proof.
  intros Hr Hh Hb Hl. destruct (add_block_spec h bytes Hh Hb Hl) as [Hs Hv].
  unfold poly1305_block. cbv zeta. destruct (columns_spec _ r Hs Hr) as (Hc & Hcong & Hbound).
  rewrite Hv in Hcong. clear Hv. revert Hc Hcong Hbound. cbv zeta.
  assert (length (product_column (add_block h (block_buffer bytes)) r <$> seq 0 5) = 5%nat) as Hlen by by rewrite length_fmap, length_seq.
  revert Hlen. generalize (product_column (add_block h (block_buffer bytes)) r <$> seq 0 5) as d. intros d Hlen Hc Hcong Hbound.
  destruct (carry_columns_spec d 0 Hc ltac:(lia)) as (Hl' & Hlimbs & Hcarry & E).
  destruct (carry_columns d 0) as [h' carry]. cbn [fst snd] in *. rewrite Hlen in *.
  destruct (length5 h' Hl') as (a & b & c & e & f & ->).
  assert (0 ≤ limbs_value [a; b; c; e; f]) by (apply (value_in_bound (2 ^ 26)); [lia|exact Hlimbs]).
  change (2 ^ (26 * Z.of_nat 5)) with (2 ^ 130) in E.
  destruct (fold_carry_spec a b c e f carry Hlimbs) as [Hok Hval]; [lia|]. split; [done|]. rewrite Hval.
  transitivity (limbs_value d); [|done]. exists (- carry). unfold prime. lia.
Qed.

(** ** The tag *)

Lemma carry_limbs_spec h carry :
  Forall limb_ok h → 0 ≤ carry < 8 →
  length (carry_limbs h carry).1 = length h
  ∧ Forall limb_ok (carry_limbs h carry).1 ∧ 0 ≤ (carry_limbs h carry).2 < 8
  ∧ (h ≠ [] → (carry_limbs h carry).2 ≤ 1)
  ∧ limbs_value (carry_limbs h carry).1 + 2 ^ (26 * Z.of_nat (length h)) * (carry_limbs h carry).2
    = limbs_value h + carry.
Proof.
  intros Hh. revert carry. induction Hh as [|x h Hx _ IH]; intros carry Hc; cbn [carry_limbs].
  { cbn. split_and!; try done; lia. }
  unfold limb_ok in Hx. rewrite u32_id, Z.shiftr_div_pow2 by (unfold is_u32; lia).
  destruct (IH ((x + carry) / 2 ^ 26)) as (Hlen & Hl & Hc' & Hone & E); [euclid|].
  assert ((carry_limbs h ((x + carry) / 2 ^ 26)).2 ≤ 1) as Hone'.
  { destruct h as [|y h]; [cbn; euclid|by apply Hone]. }
  destruct (carry_limbs h _) as [h' c]. cbn [fst snd] in *. split; [by cbn; rewrite Hlen|].
  rewrite land_mask26. split.
  { apply Forall_cons. split; [apply Z.mod_pos_bound; lia|done]. }
  split; [done|]. split; [done|]. cbn [length]. rewrite Nat2Z.inj_succ, Z.mul_succ_r, Z.pow_add_r by lia.
  unfold limbs_value in *. cbn [value_in]. rewrite <- Z.mul_assoc, (Z.mul_comm (2 ^ 26) c), Z.mul_assoc.
  revert E. generalize (value_in (2 ^ 26) h') (value_in (2 ^ 26) h) (2 ^ (26 * Z.of_nat (length h)) * c).
  intros a b e E. euclid.
Qed.

Lemma length3 {A} (l : list A) : length l = 3%nat → ∃ a b c, l = [a; b; c].
Proof. intros Hl. do 4 (destruct l as [|? l]; [try discriminate Hl|]); [by repeat eexists|discriminate Hl]. Qed.

(** After the full carry every limb fits; the lowest carry cannot overflow the second
    limb because a carry out of the top means that limb has just been cut. *)
Lemma settle_limbs_spec h :
  acc_ok h →
  (∃ a b c d e, settle h = [a; b; c; d; e] ∧ Forall limb_ok [a; b; c; d; e])
  ∧ congruent (limbs_value (settle h)) (limbs_value h).
Proof.
  intros (h0 & h1 & h2 & h3 & h4 & -> & Hh0 & Hh1 & Hh). unfold settle, at_. cbn [nth drop].
  rewrite Z.shiftr_div_pow2, land_mask26 by lia.
  destruct (carry_limbs_spec [h2; h3; h4] (h1 / 2 ^ 26) Hh) as (Hlen & Hl & Hc & Hone & E); [euclid|].
  assert (h1 < 2 ^ 26 → (carry_limbs [h2; h3; h4] (h1 / 2 ^ 26)).2 = 0) as Hzero.
  { intros Hs. rewrite (Z.div_small h1) by lia. clear -Hh. rewrite !Forall_cons in Hh. unfold limb_ok in Hh.
    destruct Hh as (? & ? & ? & _). cbn [carry_limbs snd].
    assert (∀ x k, k = 0 → 0 ≤ x < 2 ^ 26 → Z.shiftr (u32 (x + k)) 26 = 0) as Hsh.
    { intros x k -> Hx. rewrite Z.add_0_r, u32_id, Z.shiftr_div_pow2 by (unfold is_u32; lia). by apply Z.div_small. }
    apply Hsh; [apply Hsh; [by apply Hsh|done]|done]. }
  specialize (Hone ltac:(done)). destruct (carry_limbs [h2; h3; h4] (h1 / 2 ^ 26)) as [upper carry]. cbn [fst snd] in *.
  destruct (length3 upper Hlen) as (c & d & e & ->). unfold limb_ok in Hh0.
  rewrite (u32_id (carry * 5)), (u32_id (h0 + carry * 5)), Z.shiftr_div_pow2, !land_mask26 by (unfold is_u32; lia).
  change (2 ^ (26 * Z.of_nat (length [h2; h3; h4]))) with (2 ^ 78) in E.
  assert (h1 mod 2 ^ 26 + (h0 + carry * 5) / 2 ^ 26 < 2 ^ 26) as Hfit.
  { destruct (decide (h1 < 2 ^ 26)) as [Hs|Hs]; [rewrite (Hzero Hs); euclid|euclid]. }
  rewrite u32_id by (unfold is_u32; euclid). split.
  - do 5 eexists. split; [reflexivity|]. rewrite (Forall_cons _ _ (_ :: _)), (Forall_cons _ _ [_; _; _]). unfold limb_ok at 1 2.
    split; [euclid|]. split; [euclid|done].
  - exists (- carry). unfold prime, limbs_value in *. cbn [value_in] in *. euclid.
Qed.

(** The select takes the remainder. *)
Lemma reduce_spec a b c d e :
  Forall limb_ok [a; b; c; d; e] →
  ∃ a' b' c' d' e', reduce [a; b; c; d; e] = [a'; b'; c'; d'; e'] ∧ Forall limb_ok [a'; b'; c'; d'; e']
    ∧ limbs_value [a'; b'; c'; d'; e'] = limbs_value [a; b; c; d; e] mod prime.
Proof.
  intros Hh. unfold reduce. destruct (carry_limbs_spec [a; b; c; d; e] 5 Hh ltac:(lia)) as (Hlen & Hl & Hc & Hone & E).
  specialize (Hone ltac:(done)). destruct (carry_limbs [a; b; c; d; e] 5) as [g borrow]. cbn [fst snd] in *.
  destruct (length5 g Hlen) as (a' & b' & c' & d' & e' & ->).
  change (2 ^ (26 * Z.of_nat (length [a; b; c; d; e]))) with (2 ^ 130) in E.
  pose proof (value_in_bound (2 ^ 26) _ ltac:(lia) Hh) as Hvh. pose proof (value_in_bound (2 ^ 26) _ ltac:(lia) Hl) as Hvg.
  change ((2 ^ 26) ^ Z.of_nat (length [a; b; c; d; e])) with (2 ^ 130) in Hvh.
  change ((2 ^ 26) ^ Z.of_nat (length [a'; b'; c'; d'; e'])) with (2 ^ 130) in Hvg.
  fold (limbs_value [a; b; c; d; e]) in Hvh. fold (limbs_value [a'; b'; c'; d'; e']) in Hvg.
  assert (∀ x, limb_ok x → Z.land x 0xffffffff = x) as Hland.
  { intros x Hx. unfold limb_ok in Hx. rewrite land_mask32. apply Z.mod_small. lia. }
  destruct (Z.eqb_spec borrow 0) as [->|Hb].
  - exists a, b, c, d, e. split; [|split; [done|]].
    + cbn [zip_with]. rewrite !Z.land_0_r, !Z.lor_0_r. change (Z.lxor 0 0xffffffff) with 0xffffffff.
      rewrite !Forall_cons in Hh. destruct Hh as (? & ? & ? & ? & ? & _). by rewrite !Hland.
    + symmetry. apply Z.mod_small. unfold prime. lia.
  - exists a', b', c', d', e'. split; [|split; [done|]].
    + cbn [zip_with]. change (Z.lxor 0xffffffff 0xffffffff) with 0. rewrite !Z.land_0_r, !Z.lor_0_l.
      rewrite !Forall_cons in Hl. destruct Hl as (? & ? & ? & ? & ? & _). by rewrite !Hland.
    + apply Z.mod_unique with (q := 1); unfold prime; lia.
Qed.

Lemma add_pad_spec words pad carry :
  length words = length pad → Forall word_ok words → Forall word_ok pad → 0 ≤ carry < 2 ^ 32 →
  add_pad words pad carry = le_encode (4 * length words) (words_value words + words_value pad + carry).
Proof.
  revert pad carry. induction words as [|w words IH]; intros [|p pad] carry Hlen; try done.
  rewrite !Forall_cons. unfold word_ok at 1 3. intros [Hw Hws] [Hp Hps] Hc. injection Hlen as Hlen.
  cbn [add_pad length]. rewrite (u64_id (w + p)), u64_id, Z.shiftr_div_pow2 by lia.
  rewrite (IH pad) by (try done; euclid).
  replace (4 * S (length words))%nat with (4 + 4 * length words)%nat by lia. rewrite store_le32_encode.
  unfold words_value. cbn [value_in]. fold (words_value words) (words_value pad).
  generalize (words_value words) (words_value pad). intros a b. f_equal.
  - unfold u32, wrap. f_equal. replace (w + 2 ^ 32 * a + (p + 2 ^ 32 * b) + carry) with (w + p + carry + (a + b) * 2 ^ 32) by lia.
    by rewrite Z.mod_add.
  - f_equal. replace (w + 2 ^ 32 * a + (p + 2 ^ 32 * b) + carry) with (w + p + carry + (a + b) * 2 ^ 32) by lia.
    rewrite Z.div_add by lia. lia.
Qed.

(** ** The specification *)

(** A message in blocks of sixteen bytes, the last one possibly shorter. *)
Fixpoint blocks_loop (fuel : nat) (message : list Z) : list (list Z) :=
  match fuel, message with
  | S fuel, _ :: _ => take 16 message :: blocks_loop fuel (drop 16 message)
  | _, _ => []
  end.

Definition blocks16 (message : list Z) : list (list Z) := blocks_loop (length message) message.

(** One step of the polynomial: a block gets a final one bit. *)
Definition accumulate (r acc : Z) (block : list Z) : Z := (acc + le_number (block ++ [1])) * r mod prime.

(** Poly1305 of a message under a one-time key. *)
Definition poly1305_mac (otk message : list Z) : list Z :=
  let r := clamp (le_number (take 16 otk)) in
  let s := le_number (take 16 (drop 16 otk)) in
  le_encode 16 (foldl (accumulate r) 0 (blocks16 message) + s).

(** ** Blocks *)

Definition full (block : list Z) : Prop := length block = 16%nat.

Lemma blocks_loop_enough message fuel fuel' :
  (length message ≤ fuel)%nat → (length message ≤ fuel')%nat → blocks_loop fuel message = blocks_loop fuel' message.
Proof.
  revert message fuel'. induction fuel as [|fuel IH]; intros [|x l] [|fuel'] H1 H2; cbn [length] in *; try done; try lia.
  cbn [blocks_loop]. f_equal. apply IH; rewrite length_drop; cbn [length]; lia.
Qed.

Lemma blocks16_cons block message :
  full block → blocks16 (block ++ message) = block :: blocks16 message.
Proof.
  unfold full, blocks16. intros Hb. destruct block as [|x block]; [done|].
  change ((x :: block) ++ message) with (x :: (block ++ message)). cbn [length blocks_loop].
  change (x :: block ++ message) with ((x :: block) ++ message).
  rewrite take_app_length' by done. rewrite drop_app_length' by done. f_equal.
  apply blocks_loop_enough; [rewrite length_app; lia|done].
Qed.

Lemma blocks16_app blocks message :
  Forall full blocks → blocks16 (concat blocks ++ message) = blocks ++ blocks16 message.
Proof.
  induction 1 as [|block blocks Hb _ IH]; [done|]. cbn [concat]. rewrite <- app_assoc, blocks16_cons by done. by rewrite IH.
Qed.

Lemma blocks16_short message :
  (length message < 16)%nat → blocks16 message = match message with [] => [] | _ => [message] end.
Proof.
  intros Hl. destruct message as [|x l]; [done|]. unfold blocks16. cbn [length blocks_loop].
  rewrite take_ge, drop_ge by lia. by destruct (length l).
Qed.

(** ** The stream *)

Record absorbed (otk message : list Z) (mac : Poly1305) : Prop := {
  ab_r : r_ok (po_r mac) ∧ limbs_value (po_r mac) = clamp (le_number (take 16 otk));
  ab_pad : po_pad mac = load_words otk 16;
  ab_h : acc_ok (po_h mac);
  ab_stream : ∃ blocks, message = concat blocks ++ po_pending mac ∧ Forall full blocks
    ∧ congruent (limbs_value (po_h mac)) (foldl (accumulate (clamp (le_number (take 16 otk)))) 0 blocks);
  ab_pending : (length (po_pending mac) < 16)%nat;
  ab_bytes : Forall byte_ok message;
}.

Section Stream.
Context (otk : list Z) (Hotk : Forall byte_ok otk) (Hlen : length otk = 32%nat).

Lemma init_absorbed : absorbed otk [] (poly1305_init otk).
Proof using Hotk Hlen.
  pose proof (load_words_ok otk 0 Hotk) as Hw. pose proof (load_words_value otk 0 Hotk ltac:(lia)) as Hv.
  rewrite drop_0 in Hv. unfold load_words in Hw, Hv. cbn [seq fmap list_fmap Nat.mul Nat.add] in Hw, Hv.
  split.
  - pose proof (clamp_words _ _ _ _ Hw) as Hc. rewrite Hv in Hc.
    assert (Forall word_ok [Z.land (load_le32 otk 0) 0x0fffffff; Z.land (load_le32 otk 4) 0x0ffffffc;
                Z.land (load_le32 otk 8) 0x0ffffffc; Z.land (load_le32 otk 12) 0x0ffffffc]) as Hok.
    { rewrite !Forall_cons in Hw. destruct Hw as (? & ? & ? & ? & _).
      rewrite !Forall_cons, Forall_nil. do 4 (split; [apply land_ok; [done|lia]|]). done. }
    destruct (limbs_of_words_spec _ _ _ _ Hok) as (r0 & r1 & r2 & r3 & r4 & E & Hl & H4 & Hval).
    unfold poly1305_init. cbn [po_r]. rewrite E, Hval. split; [|done]. exists r0, r1, r2, r3, r4. split; [done|].
    rewrite !Forall_cons in Hl. destruct Hl as (? & ? & ? & ? & _). rewrite !Forall_cons, Forall_nil. unfold limb_ok in *.
    split_and!; try done; lia.
  - done.
  - exists 0, 0, 0, 0, 0. split; [done|]. rewrite !Forall_cons, Forall_nil. unfold limb_ok. lia.
  - exists []. split; [done|]. split; [constructor|]. by exists 0.
  - cbn. lia.
  - constructor.
Qed.

(** A full pending block is absorbed. *)
Lemma block_absorbed message mac :
  r_ok (po_r mac) ∧ limbs_value (po_r mac) = clamp (le_number (take 16 otk)) →
  po_pad mac = load_words otk 16 → acc_ok (po_h mac) → Forall byte_ok message →
  (∃ blocks, message = concat blocks ++ po_pending mac ∧ Forall full blocks
    ∧ congruent (limbs_value (po_h mac)) (foldl (accumulate (clamp (le_number (take 16 otk)))) 0 blocks)) →
  length (po_pending mac) = 16%nat → absorbed otk message (with_block mac (po_pending mac)).
Proof using Type.
  clear Hotk Hlen. intros [Hr Hrv] Hpad Hh Hb (blocks & -> & Hfull & Hc) Hl. apply Forall_app in Hb as Hb'. destruct Hb' as [_ Hp].
  destruct (poly1305_block_spec (po_r mac) (po_h mac) (po_pending mac) Hr Hh Hp ltac:(lia)) as [Hok Hcong].
  split; try done; [|cbn; lia]. exists (blocks ++ [po_pending mac]). cbn [po_pending po_h with_block].
  rewrite concat_app, foldl_app. cbn [concat foldl]. rewrite !app_nil_r. split; [done|]. split; [apply Forall_app; split; [done|by constructor]|].
  apply congruent_mod in Hcong. apply congruent_mod. rewrite Hcong. unfold accumulate at 1. rewrite Z.mod_mod by done. rewrite Hrv.
  apply congruent_mod, congruent_mul_r, congruent_add_r, Hc.
Qed.

Lemma update_absorbed fuel message mac bytes :
  absorbed otk message mac → Forall byte_ok bytes → (length bytes ≤ fuel)%nat →
  absorbed otk (message ++ bytes) (update_loop fuel mac bytes).
Proof using Type.
  clear Hotk Hlen. revert message mac bytes. induction fuel as [|fuel IH]; intros message mac bytes Ha Hb Hf; cbn [update_loop].
  { destruct bytes; [by rewrite app_nil_r|cbn in Hf; lia]. }
  destruct bytes as [|x l]; [by rewrite app_nil_r|]. set (bytes := x :: l) in *.
  assert (1 ≤ length bytes)%nat as Hne by (cbn; lia). clearbody bytes.
  destruct Ha as [Hr Hpad Hh (blocks & E & Hfull & Hc) Hp Hm].
  set (n := Nat.min (length bytes) (16 - length (po_pending mac))).
  assert (length (po_pending mac ++ take n bytes) = (length (po_pending mac) + n)%nat) as Hl.
  { rewrite length_app, length_take. lia. }
  rewrite <- (take_drop n bytes) in Hb. apply Forall_app in Hb as [Hb1 Hb2].
  rewrite <- (take_drop n bytes) at 1. rewrite app_assoc. apply IH; [|done|rewrite length_drop; lia].
  assert (Forall byte_ok (message ++ take n bytes)) as Hb by by apply Forall_app.
  assert (message ++ take n bytes = concat blocks ++ (po_pending mac ++ take n bytes)) as Es by by rewrite E, app_assoc.
  cbn [po_pending with_pending]. rewrite Hl. destruct (Nat.eqb_spec (length (po_pending mac) + n) 16) as [E16|E16].
  - apply (block_absorbed _ (with_pending mac (po_pending mac ++ take n bytes))); try done.
    + by exists blocks.
    + cbn [po_pending with_pending]. lia.
  - split; try done; [by exists blocks|]. cbn [po_pending with_pending]. lia.
Qed.

Lemma poly1305_update_absorbed message mac bytes :
  absorbed otk message mac → Forall byte_ok bytes → absorbed otk (message ++ bytes) (poly1305_update mac bytes).
Proof using Type. intros. by apply update_absorbed. Qed.

(** The number that is serialised. *)
Lemma final_number message mac :
  absorbed otk message mac →
  let mac' := match po_pending mac with [] => mac | pending => with_block mac pending end in
  acc_ok (po_h mac') ∧ po_pad mac' = load_words otk 16
  ∧ congruent (limbs_value (po_h mac')) (foldl (accumulate (clamp (le_number (take 16 otk)))) 0 (blocks16 message)).
Proof using Type.
  clear Hotk Hlen. intros [[Hr Hrv] Hpad Hh (blocks & -> & Hfull & Hc) Hp Hm]. cbv zeta. rewrite blocks16_app by done.
  rewrite blocks16_short by done. apply Forall_app in Hm as [_ Hb]. destruct (po_pending mac) as [|x l] eqn:E.
  { rewrite app_nil_r. done. }
  set (pending := x :: l) in *. clearbody pending. clear E.
  destruct (poly1305_block_spec (po_r mac) (po_h mac) pending Hr Hh Hb ltac:(lia)) as [Hok Hcong].
  split; [done|]. split; [done|]. cbn [po_h with_block]. rewrite foldl_app. cbn [foldl].
  apply congruent_mod in Hcong. apply congruent_mod. rewrite Hcong. unfold accumulate at 1. rewrite Z.mod_mod by done. rewrite Hrv.
  apply congruent_mod, congruent_mul_r, congruent_add_r, Hc.
Qed.
End Stream.

Lemma le_encode_add n z k : le_encode n (z + 256 ^ Z.of_nat n * k) = le_encode n z.
Proof.
  revert z. induction n as [|n IH]; intros z; [done|]. cbn [le_encode].
  rewrite Nat2Z.inj_succ, Z.pow_succ_r by lia.
  replace (z + 256 * 256 ^ Z.of_nat n * k) with (z + (256 ^ Z.of_nat n * k) * 256) by ring.
  rewrite Z.mod_add, Z.div_add by lia. by rewrite IH.
Qed.

Lemma accumulate_reduced r blocks : foldl (accumulate r) 0 blocks mod prime = foldl (accumulate r) 0 blocks.
Proof.
  destruct blocks as [|b blocks _] using rev_ind; [done|]. rewrite foldl_app. cbn [foldl].
  unfold accumulate at 1 3. by rewrite Z.mod_mod.
Qed.

Lemma poly1305_tag_spec otk message mac :
  Forall byte_ok otk → length otk = 32%nat → absorbed otk message mac →
  poly1305_tag mac = poly1305_mac otk message.
Proof.
  intros Hotk Hlen Ha. destruct (final_number otk message mac Ha) as (Hok & Hpad & Hc).
  unfold poly1305_tag, poly1305_mac. revert Hok Hpad Hc. cbv zeta.
  generalize (match po_pending mac with [] => mac | pending => with_block mac pending end) as mac'. intros mac' Hok Hpad Hc.
  destruct (settle_limbs_spec (po_h mac') Hok) as [(a & b & c & d & e & Es & Hs) Hcong]. rewrite Es in *.
  destruct (reduce_spec a b c d e Hs) as (a' & b' & c' & d' & e' & -> & Hr & Hval).
  destruct (words_of_limbs_spec a' b' c' d' e' Hr) as [Hw Hwv].
  assert (limbs_value [a'; b'; c'; d'; e'] = foldl (accumulate (clamp (le_number (take 16 otk)))) 0 (blocks16 message)) as Hnum.
  { rewrite Hval, <- accumulate_reduced. apply congruent_mod. by transitivity (limbs_value (po_h mac')). }
  rewrite Hpad, add_pad_spec; [|done|done|by apply load_words_ok|lia].
  rewrite Hwv, Hnum, load_words_value, Z.add_0_r by (try done; lia).
  change (4 * length (words_of_limbs [a'; b'; c'; d'; e']))%nat with 16%nat.
  set (x := foldl _ _ _). rewrite <- (le_encode_add 16 _ (x / 2 ^ 128)). f_equal. change (256 ^ Z.of_nat 16) with (2 ^ 128).
  pose proof (Z.div_mod x (2 ^ 128) ltac:(lia)). lia.
Qed.

(** ** The keystream *)

Lemma store_bytes z : Forall byte_ok (store_le32 z).
Proof. unfold store_le32. rewrite !Forall_cons, Forall_nil. do 4 (split; [apply Z.mod_pos_bound; lia|]). done. Qed.

Lemma chacha20_block_ok key counter nonce :
  length (chacha20_block key counter nonce) = 64%nat ∧ Forall byte_ok (chacha20_block key counter nonce).
Proof.
  unfold chacha20_block. cbv zeta. split; [reflexivity|].
  apply Forall_concat, Forall_fmap, Forall_true. intros i. apply store_bytes.
Qed.

#[local] Opaque chacha20_block.

(** The byte of the keystream at a position. *)
Definition keystream (key : list Z) (counter : Z) (nonce : list Z) (i : nat) : Z :=
  at_ (chacha20_block key (u32 (counter + Z.of_nat (i / 64))) nonce) (i mod 64).

Lemma keystream_next key counter nonce i :
  keystream key counter nonce (64 + i) = keystream key (u32 (counter + 1)) nonce i.
Proof.
  assert ((64 + i) mod 64 = i mod 64 ∧ (64 + i) / 64 = 1 + i / 64)%nat as [Em Ed].
  { rewrite (Nat.add_comm 64). split; [apply (Nat.Div0.mod_add i 1 64)|].
    rewrite (Nat.div_add i 1 64 ltac:(done) : (i + 64) / 64 = i / 64 + 1)%nat. apply Nat.add_comm. }
  assert (u32 (counter + Z.of_nat (1 + i / 64)) = u32 (u32 (counter + 1) + Z.of_nat (i / 64))) as Ec.
  { unfold u32, wrap. rewrite Z.add_mod_idemp_l by lia. f_equal. lia. }
  unfold keystream. by rewrite Em, Ed, Ec.
Qed.

Lemma xor_loop_lookup fuel key counter nonce input i :
  is_u32 counter → (length input ≤ fuel)%nat →
  xor_loop fuel key counter nonce input !! i = (λ x, Z.lxor x (keystream key counter nonce i)) <$> input !! i.
Proof.
  revert counter input i. induction fuel as [|fuel IH]; intros counter input i Hc Hf; cbn [xor_loop].
  { by destruct input; [|cbn in Hf; lia]. }
  destruct input as [|x l]; [done|]. set (input := x :: l) in *. assert (1 ≤ length input)%nat by (cbn; lia). clearbody input.
  destruct (chacha20_block_ok key counter nonce) as [Hb _].
  assert (length (zip_with Z.lxor (take 64 input) (chacha20_block key counter nonce)) = Nat.min 64 (length input)) as Hz.
  { rewrite length_zip_with, length_take, Hb. lia. }
  destruct (decide (i < 64)%nat) as [Hi|Hi].
  - destruct (decide (i < length input)%nat) as [Hin|Hin].
    + rewrite lookup_app_l by lia. rewrite lookup_zip_with, lookup_take_lt by done.
      destruct (lookup_lt_is_Some_2 input i Hin) as [b ->].
      destruct (lookup_lt_is_Some_2 (chacha20_block key counter nonce) i ltac:(lia)) as [k Hk]. cbn. rewrite Hk. cbn.
      unfold keystream. rewrite Nat.div_small, Nat.mod_small, Z.add_0_r, u32_id by done.
      unfold at_. by rewrite nth_lookup, Hk.
    + rewrite lookup_app_r by lia. rewrite IH; [|apply u32_range|rewrite length_drop; lia].
      rewrite lookup_drop, !lookup_ge_None_2 by lia. done.
  - rewrite lookup_app_r by lia. rewrite IH; [|apply u32_range|rewrite length_drop; lia]. rewrite lookup_drop.
    destruct (decide (64 ≤ length input)%nat) as [Hl|Hl].
    + replace (Nat.min 64 (length input)) with 64%nat in Hz by lia. rewrite Hz.
      replace (64 + (i - 64))%nat with i by lia. rewrite <- keystream_next. by replace (64 + (i - 64))%nat with i by lia.
    + rewrite !lookup_ge_None_2 by lia. done.
Qed.

Lemma chacha20_xor_lookup key counter nonce input i :
  is_u32 counter →
  chacha20_xor key counter nonce input !! i = (λ x, Z.lxor x (keystream key counter nonce i)) <$> input !! i.
Proof. intros. by apply xor_loop_lookup. Qed.

Lemma chacha20_xor_involutive key counter nonce input :
  is_u32 counter → chacha20_xor key counter nonce (chacha20_xor key counter nonce input) = input.
Proof.
  intros Hc. apply list_eq. intros i. rewrite !chacha20_xor_lookup by done. destruct (input !! i); [|done].
  cbn. by rewrite Z.lxor_assoc, Z.lxor_nilpotent, Z.lxor_0_r.
Qed.

Lemma chacha20_xor_bytes key counter nonce input :
  is_u32 counter → Forall byte_ok input → Forall byte_ok (chacha20_xor key counter nonce input).
Proof.
  intros Hc Hb. apply Forall_lookup_2. intros i x. rewrite chacha20_xor_lookup by done.
  destruct (input !! i) as [y|] eqn:E; [|done]. intros [= <-].
  pose proof (proj1 (Forall_lookup _ _) Hb _ _ E) as Hy. unfold keystream.
  pose proof (at_ok byte_ok _ (i mod 64) ltac:(unfold byte_ok; lia) (proj2 (chacha20_block_ok key (u32 (counter + Z.of_nat (i / 64))) nonce))) as Hk.
  revert Hy Hk. generalize (at_ (chacha20_block key (u32 (counter + Z.of_nat (i / 64))) nonce) (i mod 64)) as k.
  unfold byte_ok. intros k Hy Hk. split; [apply Z.lxor_nonneg; lia|].
  destruct (decide (Z.lxor y k = 0)) as [->|Hn]; [lia|].
  assert (0 ≤ Z.lxor y k) by (apply Z.lxor_nonneg; lia).
  apply (Z.log2_lt_pow2 _ 8); [lia|]. pose proof (Z.log2_lxor y k ltac:(lia) ltac:(lia)).
  assert (Z.log2 y < 8) by (destruct (decide (y = 0)) as [->|]; [done|apply Z.log2_lt_pow2; lia]).
  assert (Z.log2 k < 8) by (destruct (decide (k = 0)) as [->|]; [done|apply Z.log2_lt_pow2; lia]). lia.
Qed.

(** ** The construction *)

Definition zero_pad (size : nat) : list Z :=
  if (size mod 16 =? 0)%nat then [] else replicate (16 - size mod 16) 0.

(** What is authenticated. *)
Definition mac_data (aad ciphertext : list Z) : list Z :=
  aad ++ zero_pad (length aad) ++ ciphertext ++ zero_pad (length ciphertext)
  ++ le_encode 8 (Z.of_nat (length aad)) ++ le_encode 8 (Z.of_nat (length ciphertext)).

Lemma pad16_absorbed otk message mac size :
  absorbed otk message mac → absorbed otk (message ++ zero_pad size) (poly1305_pad16 mac size).
Proof.
  intros Ha. unfold zero_pad, poly1305_pad16. destruct (size mod 16 =? 0)%nat; [by rewrite app_nil_r|].
  apply poly1305_update_absorbed; [done|]. apply Forall_replicate. unfold byte_ok. lia.
Qed.

Lemma le_encode_bytes n z : Forall byte_ok (le_encode n z).
Proof. revert z. induction n as [|n IH]; intros z; constructor; [apply Z.mod_pos_bound; lia|apply IH]. Qed.

Lemma le_encode_shifts n z :
  le_encode n z = (λ i, Z.shiftr z (8 * Z.of_nat i) mod 256) <$> seq 0 n.
Proof.
  revert z. induction n as [|n IH]; intros z; [done|]. cbn [le_encode seq fmap list_fmap]. f_equal.
  rewrite IH, <- fmap_S_seq, <- list_fmap_compose. apply list_fmap_ext. intros _ i _. cbn [compose].
  unfold compose. rewrite !Z.shiftr_div_pow2 by lia. rewrite Nat2Z.inj_succ, Z.mul_succ_r, Z.pow_add_r, Z.div_div by lia.
  f_equal. f_equal. lia.
Qed.

Lemma le64_absorbed otk message mac size :
  absorbed otk message mac →
  absorbed otk (message ++ le_encode 8 size) (poly1305_le64 mac (u64 size)).
Proof.
  intros Ha. unfold poly1305_le64. rewrite <- le_encode_shifts.
  assert (le_encode 8 (u64 size) = le_encode 8 size) as ->.
  { rewrite <- (le_encode_add 8 (u64 size) (size / 2 ^ 64)). f_equal. unfold u64, wrap.
    change (256 ^ Z.of_nat 8) with (2 ^ 64). pose proof (Z.div_mod size (2 ^ 64) ltac:(lia)). lia. }
  apply poly1305_update_absorbed; [done|apply le_encode_bytes].
Qed.

Lemma aead_tag_spec key nonce aad ciphertext :
  Forall byte_ok aad → Forall byte_ok ciphertext →
  aead_tag key nonce aad ciphertext = poly1305_mac (take 32 (chacha20_block key 0 nonce)) (mac_data aad ciphertext).
Proof.
  intros Ha Hc. destruct (chacha20_block_ok key 0 nonce) as [Hl Hb]. unfold aead_tag. cbv zeta.
  assert (Forall byte_ok (take 32 (chacha20_block key 0 nonce))) as Hob by by apply Forall_take.
  assert (length (take 32 (chacha20_block key 0 nonce)) = 32%nat) as Hol by (rewrite length_take; lia).
  revert Hob Hol. generalize (take 32 (chacha20_block key 0 nonce)) as otk. intros otk Hob Hol.
  apply poly1305_tag_spec; [done..|]. unfold mac_data. rewrite <- (app_nil_l aad) at 1. rewrite !app_assoc.
  apply le64_absorbed, le64_absorbed, pad16_absorbed, poly1305_update_absorbed; [|done].
  apply pad16_absorbed, poly1305_update_absorbed; [|done]. by apply init_absorbed.
Qed.

Lemma aead_tag_length key nonce aad ciphertext : length (aead_tag key nonce aad ciphertext) = 16%nat.
Proof.
  unfold aead_tag. cbv zeta. set (mac := poly1305_init _).
  assert (length (po_pad mac) = 4%nat) as Hp by done. clearbody mac.
  assert (∀ fuel m bytes, po_pad (update_loop fuel m bytes) = po_pad m) as Hu.
  { induction fuel as [|fuel IH]; intros m bytes; [done|]. cbn [update_loop]. destruct bytes; [done|]. rewrite IH. by case_match. }
  assert (∀ m size, po_pad (poly1305_pad16 m size) = po_pad m) as H16.
  { intros m size. unfold poly1305_pad16, poly1305_update. case_match; [done|apply Hu]. }
  unfold poly1305_tag, poly1305_le64, poly1305_update. set (m := update_loop _ _ _).
  assert (length (po_pad (match po_pending m with [] => m | p => with_block m p end)) = 4%nat) as Hm.
  { assert (po_pad m = po_pad mac) as Em by (unfold m; by rewrite !Hu, H16, Hu, H16, Hu).
    destruct (po_pending m); cbn [po_pad with_block]; by rewrite Em. }
  revert Hm. generalize (match po_pending m with [] => m | p => with_block m p end) as m'. intros m' Hm.
  unfold words_of_limbs. destruct (po_pad m') as [|a [|b [|c [|d [|e l]]]]]; try discriminate Hm. reflexivity.
Qed.

Lemma tag_difference_zero expected supplied :
  length expected = 16%nat → length supplied = 16%nat →
  tag_difference expected supplied = 0 ↔ expected = supplied.
Proof.
  intros He Hs. unfold tag_difference.
  assert (∀ positions d, foldl (λ difference i, Z.lor difference (Z.lxor (at_ expected i) (at_ supplied i))) d positions = 0
    ↔ d = 0 ∧ ∀ i, i ∈ positions → at_ expected i = at_ supplied i) as Hf.
  { induction positions as [|i positions IH]; intros d; cbn [foldl].
    { split; [|by intros [-> _]]. intros ->. split; [done|]. by intros i ?%elem_of_nil. }
    rewrite IH, Z.lor_eq_0_iff, Z.lxor_eq_0_iff. setoid_rewrite elem_of_cons. naive_solver. }
  rewrite Hf. split; [|by intros ->]. intros [_ Hall]. apply list_eq. intros i.
  destruct (decide (i < 16)%nat) as [Hi|Hi]; [|by rewrite !lookup_ge_None_2 by lia].
  specialize (Hall i ltac:(apply elem_of_seq; unfold kChaCha20Poly1305TagBytes; lia)). unfold at_ in Hall. rewrite !nth_lookup in Hall.
  destruct (lookup_lt_is_Some_2 expected i ltac:(lia)) as [x Hx], (lookup_lt_is_Some_2 supplied i ltac:(lia)) as [y Hy].
  rewrite Hx, Hy in *. cbn in Hall. by rewrite Hall.
Qed.

(** C30. The authenticator is Poly1305. However a message is cut into updates, the tag of
    the limb arithmetic is the number the RFC defines: the clamped key part r, the
    blocks with their final bit, the sum modulo 2^130 - 5, plus s modulo 2^128; no
    32-bit or 64-bit word overflows on the way. *)
Theorem poly1305_streaming_exact otk chunks :
  Forall byte_ok otk → length otk = 32%nat → Forall (Forall byte_ok) chunks →
  poly1305_tag (foldl poly1305_update (poly1305_init otk) chunks) = poly1305_mac otk (concat chunks).
Proof.
  intros Hb Hl Hc. apply poly1305_tag_spec; [done..|]. rewrite <- (app_nil_l (concat chunks)).
  generalize (init_absorbed otk Hb Hl). generalize (poly1305_init otk) as mac. generalize (@nil Z) as message.
  induction Hc as [|chunk chunks Hchunk _ IH]; intros message mac Ha; cbn [foldl concat]; [by rewrite app_nil_r|].
  rewrite app_assoc. apply IH. by apply poly1305_update_absorbed.
Qed.

(** Sealing is the construction of RFC 8439: every byte is combined with its byte of
    the keystream that starts at block one, and the Poly1305 tag under the key of
    block zero of the padded data and both lengths follows. *)
Theorem aead_seal_exact key nonce aad plaintext :
  Forall byte_ok aad → Forall byte_ok plaintext →
  ∃ ciphertext,
    chacha20poly1305_seal key nonce aad plaintext
      = ciphertext ++ poly1305_mac (take 32 (chacha20_block key 0 nonce)) (mac_data aad ciphertext)
    ∧ ∀ i, ciphertext !! i = (λ x, Z.lxor x (keystream key 1 nonce i)) <$> plaintext !! i.
Proof.
  intros Ha Hp. exists (chacha20_xor key 1 nonce plaintext). split.
  - unfold chacha20poly1305_seal. cbv zeta. rewrite aead_tag_spec; [done..|].
    apply chacha20_xor_bytes; [unfold is_u32; lia|done].
  - intros i. apply chacha20_xor_lookup. unfold is_u32. lia.
Qed.

(** C31. Opening is the inverse of sealing and accepts nothing else: a sealed string opens
    to a plaintext if and only if it is what sealing that plaintext produces, so
    every other string, truncated or altered, is refused. *)
Theorem aead_open_iff_seal key nonce aad sealed plaintext :
  chacha20poly1305_open key nonce aad sealed = Some plaintext
  ↔ sealed = chacha20poly1305_seal key nonce aad plaintext.
Proof.
  assert (is_u32 1) as H1 by (unfold is_u32; lia).
  unfold chacha20poly1305_open, chacha20poly1305_seal, kChaCha20Poly1305TagBytes. cbv zeta. split.
  - destruct (Nat.ltb_spec (length sealed) 16) as [|Hl]; [done|].
    set (c := take (length sealed - 16) sealed). assert (length c = (length sealed - 16)%nat) as Hc by (unfold c; rewrite length_take; lia).
    destruct (Z.eqb_spec (tag_difference (aead_tag key nonce aad c) (drop (length c) sealed)) 0) as [E|E]; [|done].
    cbn [negb]. intros [= <-]. rewrite chacha20_xor_involutive by done.
    rewrite tag_difference_zero in E by (rewrite ?aead_tag_length, ?length_drop; lia). rewrite E, Hc. unfold c. by rewrite take_drop.
  - intros ->. set (c := chacha20_xor key 1 nonce plaintext). rewrite length_app, aead_tag_length.
    replace (length c + 16 - 16)%nat with (length c) by lia. rewrite take_app_length, drop_app_length.
    destruct (Nat.ltb_spec (length c + 16) 16); [lia|].
    rewrite (proj2 (tag_difference_zero _ _ (aead_tag_length key nonce aad c) (aead_tag_length key nonce aad c)) eq_refl).
    cbn [negb Z.eqb]. unfold c. by rewrite chacha20_xor_involutive.
Qed.

(** ** Vectors of RFC 8439 *)

Definition text (s : string) : list Z := code <$> String.list_ascii_of_string s.

Lemma text_bytes s : Forall byte_ok (text s).
Proof. apply Forall_fmap, Forall_true. intros c. apply code_range. Qed.

Lemma bytes_checked l : forallb (λ b, (0 <=? b) && (b <? 256)) l = true → Forall byte_ok l.
Proof.
  rewrite forallb_forall. intros Hl. apply Forall_forall. intros b Hb%list_elem_of_In%Hl. unfold byte_ok. lia.
Qed.

(** Section 2.5.2, in two updates. *)
Definition rfc_otk : list Z :=
  [0x85; 0xd6; 0xbe; 0x78; 0x57; 0x55; 0x6d; 0x33; 0x7f; 0x44; 0x52; 0xfe; 0x42; 0xd5; 0x06; 0xa8;
   0x01; 0x03; 0x80; 0x8a; 0xfb; 0x0d; 0xb2; 0xfd; 0x4a; 0xbf; 0xf6; 0xaf; 0x41; 0x49; 0xf5; 0x1b].

Lemma poly1305_streaming_exact_witness :
  poly1305_mac rfc_otk (concat [text "Cryptographic "; text "Forum Research Group"])
  = [0xa8; 0x06; 0x1d; 0xc1; 0x30; 0x51; 0x36; 0xc6; 0xc2; 0x2b; 0x8b; 0xaf; 0x0c; 0x01; 0x27; 0xa9].
Proof.
  rewrite <- (poly1305_streaming_exact rfc_otk [text "Cryptographic "; text "Forum Research Group"]).
  - vm_compute. reflexivity.
  - apply bytes_checked. vm_compute. reflexivity.
  - reflexivity.
  - constructor; [apply text_bytes|constructor; [apply text_bytes|constructor]].
Defined.

(** Section 2.8.2. *)
Definition rfc_key : list Z := Z.of_nat <$> seq 0x80 32.
Definition rfc_nonce : list Z := [0x07; 0; 0; 0; 0x40; 0x41; 0x42; 0x43; 0x44; 0x45; 0x46; 0x47].
Definition rfc_aad : list Z := [0x50; 0x51; 0x52; 0x53; 0xc0; 0xc1; 0xc2; 0xc3; 0xc4; 0xc5; 0xc6; 0xc7].
Definition rfc_plaintext : list Z :=
  text "Ladies and Gentlemen of the class of '99: If I could offer you only one tip for the future, sunscreen would be it.".

Example rfc_seal :
  let sealed := chacha20poly1305_seal rfc_key rfc_nonce rfc_aad rfc_plaintext in
  take 16 sealed = [0xd3; 0x1a; 0x8d; 0x34; 0x64; 0x8e; 0x60; 0xdb; 0x7b; 0x86; 0xaf; 0xbc; 0x53; 0xef; 0x7e; 0xc2]
  ∧ drop 114 sealed
    = [0x1a; 0xe1; 0x0b; 0x59; 0x4f; 0x09; 0xe2; 0x6a; 0x7e; 0x90; 0x2e; 0xcb; 0xd0; 0x60; 0x06; 0x91].
Proof. vm_compute. split; reflexivity. Qed.

Lemma aead_seal_exact_witness :
  ∃ ciphertext, chacha20poly1305_seal rfc_key rfc_nonce rfc_aad rfc_plaintext
    = ciphertext ++ poly1305_mac (take 32 (chacha20_block rfc_key 0 rfc_nonce)) (mac_data rfc_aad ciphertext).
Proof.
  destruct (aead_seal_exact rfc_key rfc_nonce rfc_aad rfc_plaintext) as (c & E & _).
  - apply bytes_checked. vm_compute. reflexivity.
  - apply text_bytes.
  - by exists c.
Defined.
