(* ===== verification/RuntimeAdmission.v ===== *)
(** * Admission of runtime mutations

    src/src/runtime/runtime_mutation_admission.hpp: the lease that serialises the writers of
    the runtime, its hand-over gates, the priority of waiting foreground writers, shutdown
    with one last cleanup, and the copyable handle that transfers a lease exactly once.
    Every operation runs under the mutex of its state, so an execution is a sequence
    of the operations below; a wait is two of them. *)

From Stdlib Require Import ZArith Lia Ascii String.
From stdpp Require Import base gmap strings list.
From S2P Require Import Prelude.
Open Scope Z_scope.

(** ** The state *)

(** [RuntimeMutationAdmission::Kind] *)
Inductive MutationKind := Foreground | Background.

#[global] Instance mutation_kind_eq_dec : EqDecision MutationKind.
Proof. solve_decision. Defined.

(** [RuntimeMutationAdmission::State] *)
Record AdmissionState := {
  as_next_token : Z;
  as_active_token : Z;
  as_active_label : string;
  as_active_kind : MutationKind;
  as_handoff_count : Z;
  as_handoff_token : Z;
  as_foreground_waiters : Z;
  as_accepting : bool;
  as_shutdown_cleanup_claimed : bool;
}.

Definition admission_init : AdmissionState :=
  {| as_next_token := 0; as_active_token := 0; as_active_label := ""; as_active_kind := Foreground;
     as_handoff_count := 0; as_handoff_token := 0; as_foreground_waiters := 0; as_accepting := true;
     as_shutdown_cleanup_claimed := false |}.

Definition set_active (next active : Z) (label : string) (kind : MutationKind) (s : AdmissionState) : AdmissionState :=
  {| as_next_token := next; as_active_token := active; as_active_label := label; as_active_kind := kind;
     as_handoff_count := as_handoff_count s; as_handoff_token := as_handoff_token s;
     as_foreground_waiters := as_foreground_waiters s; as_accepting := as_accepting s;
     as_shutdown_cleanup_claimed := as_shutdown_cleanup_claimed s |}.

Definition set_handoff (count token : Z) (label : string) (s : AdmissionState) : AdmissionState :=
  {| as_next_token := as_next_token s; as_active_token := as_active_token s; as_active_label := label;
     as_active_kind := as_active_kind s; as_handoff_count := count; as_handoff_token := token;
     as_foreground_waiters := as_foreground_waiters s; as_accepting := as_accepting s;
     as_shutdown_cleanup_claimed := as_shutdown_cleanup_claimed s |}.

Definition set_waiters (waiters : Z) (s : AdmissionState) : AdmissionState :=
  {| as_next_token := as_next_token s; as_active_token := as_active_token s; as_active_label := as_active_label s;
     as_active_kind := as_active_kind s; as_handoff_count := as_handoff_count s;
     as_handoff_token := as_handoff_token s; as_foreground_waiters := waiters; as_accepting := as_accepting s;
     as_shutdown_cleanup_claimed := as_shutdown_cleanup_claimed s |}.

Definition set_gate (accepting claimed : bool) (s : AdmissionState) : AdmissionState :=
  {| as_next_token := as_next_token s; as_active_token := as_active_token s; as_active_label := as_active_label s;
     as_active_kind := as_active_kind s; as_handoff_count := as_handoff_count s;
     as_handoff_token := as_handoff_token s; as_foreground_waiters := as_foreground_waiters s;
     as_accepting := accepting; as_shutdown_cleanup_claimed := claimed |}.

(** ** Operations *)

(** The next token; zero stands for no owner. *)
Definition next_token (token : Z) : Z :=
  let token := u64 (token + 1) in if token =? 0 then u64 (token + 1) else token.

Definition acquire_locked (label : string) (kind : MutationKind) (s : AdmissionState) : AdmissionState * Z :=
  let token := next_token (as_next_token s) in (set_active token token label kind s, token).

(** No lease and no gate. *)
Definition idle (s : AdmissionState) : bool := (as_active_token s =? 0) && (as_handoff_count s =? 0).

Definition try_acquire (label : string) (kind : MutationKind) (s : AdmissionState) : option (AdmissionState * Z) :=
  if negb (as_accepting s) || negb (as_active_token s =? 0) || negb (as_handoff_count s =? 0)
     || negb (as_foreground_waiters s =? 0)
  then None
  else Some (acquire_locked label kind s).

(** What the first half of [try_acquire_after_matching_for] does. *)
Inductive WaitEntry :=
| Refused
| Granted (s : AdmissionState) (token : Z)
| Waiting (s : AdmissionState) (predecessor : Z).

Definition enter_wait (label : string) (waitable : AdmissionState → bool) (s : AdmissionState) : WaitEntry :=
  if negb (as_accepting s) then Refused
  else if (as_active_token s =? 0) && (as_handoff_count s =? 0) then
    if negb (as_foreground_waiters s =? 0) then Refused
    else let '(s, token) := acquire_locked label Foreground s in Granted s token
  else if negb (waitable s) then Refused
  else
    let predecessor := if negb (as_active_token s =? 0) then as_active_token s else as_handoff_token s in
    Waiting (set_waiters (u64 (as_foreground_waiters s + 1)) s) predecessor.

(** The predicate of the wait. *)
Definition wait_ready (predecessor : Z) (s : AdmissionState) : bool :=
  negb (as_accepting s)
  || (negb (as_active_token s =? 0) && negb (as_active_token s =? predecessor))
  || ((as_active_token s =? 0) && (as_handoff_count s =? 0)).

(** What follows the wait, with the result of [wait_for]; the priority is given back
    at the end. *)
Definition leave_wait (label : string) (ready : bool) (s : AdmissionState) : AdmissionState * option Z :=
  let release s := set_waiters (u64 (as_foreground_waiters s - 1)) s in
  if negb ready then (release s, None)
  else if negb (as_accepting s) || negb (as_active_token s =? 0) || negb (as_handoff_count s =? 0)
  then (release s, None)
  else let '(s, token) := acquire_locked label Foreground s in (release s, Some token).

Definition waits_for_background (s : AdmissionState) : bool := bool_decide (as_active_kind s = Background).
Definition waits_for_labels (labels : list string) (s : AdmissionState) : bool :=
  existsb (String.eqb (as_active_label s)) labels.

Definition try_acquire_shutdown_cleanup (label : string) (s : AdmissionState) : option (AdmissionState * Z) :=
  if as_accepting s || negb (as_active_token s =? 0) || negb (as_handoff_count s =? 0)
     || as_shutdown_cleanup_claimed s
  then None
  else
    let token := u64 (as_next_token s + 1) in
    let token := if token =? 0 then 1 else token in
    Some (set_gate (as_accepting s) true (set_active token token label Foreground s), token).

(** A lease of this admission with a token; an empty lease has token zero. *)
Definition try_acquire_handoff_gate (lease : Z) (s : AdmissionState) : option AdmissionState :=
  if (lease =? 0) || negb (as_active_token s =? lease) then None
  else Some (set_handoff (u64 (as_handoff_count s + 1)) lease (as_active_label s) s).

Definition lease_release (token : Z) (s : AdmissionState) : AdmissionState :=
  if token =? 0 then s
  else if negb (as_active_token s =? token) then s
  else set_active (as_next_token s) 0
         (if as_handoff_count s =? 0 then EmptyString else as_active_label s) (as_active_kind s) s.

Definition gate_release (s : AdmissionState) : AdmissionState :=
  let count := if negb (as_handoff_count s =? 0) then as_handoff_count s - 1 else as_handoff_count s in
  if count =? 0 then
    set_handoff count 0 (if as_active_token s =? 0 then EmptyString else as_active_label s) s
  else set_handoff count (as_handoff_token s) (as_active_label s) s.

Definition shutdown (s : AdmissionState) : AdmissionState :=
  set_gate false (as_shutdown_cleanup_claimed s) s.

Definition owns (lease : Z) (s : AdmissionState) : bool := negb (lease =? 0) && (as_active_token s =? lease).

Definition active (s : AdmissionState) : option (Z * string) :=
  if as_active_token s =? 0 then None else Some (as_active_token s, as_active_label s).

(** The predicates of [wait_until_idle] and its result, and of [wait_for_idle_for]. *)
Definition wait_until_idle_ready (s : AdmissionState) : bool :=
  negb (as_accepting s)
  || ((as_active_token s =? 0) && (as_handoff_count s =? 0) && (as_foreground_waiters s =? 0)).
Definition wait_until_idle_result (s : AdmissionState) : bool :=
  as_accepting s && (as_active_token s =? 0) && (as_handoff_count s =? 0) && (as_foreground_waiters s =? 0).
Definition wait_for_idle (s : AdmissionState) : bool := (as_active_token s =? 0) && (as_handoff_count s =? 0).

(** ** Handing a lease over *)

(** [RuntimeMutationLeaseHandoffState] *)
Inductive LeaseHandoffState := HsEmpty | HsReady | HsTaken | HsInvalid.

(** [RuntimeMutationLeaseTakeStatus], with the lease of a successful take. *)
Inductive LeaseTake := TakeAcquired (lease : Z) | TakeEmpty | TakeAlreadyTaken | TakeInvalid.

(** [RuntimeMutationLeaseHandoff::SharedState]; a null pointer is [None]. *)
Record SharedLease := {
  sl_lease : option Z;
  sl_state : LeaseHandoffState;
}.

Definition lease_held (lease : option Z) : bool :=
  match lease with Some token => negb (token =? 0) | None => false end.

(** The constructor from a pointer. *)
Definition make_handoff (lease : option Z) : SharedLease :=
  {| sl_lease := lease; sl_state := if lease_held lease then HsReady else HsInvalid |}.

Definition handoff_state (h : option SharedLease) : LeaseHandoffState :=
  match h with None => HsEmpty | Some h => sl_state h end.

(** [take] of a handle with shared state. *)
Definition handoff_take (h : SharedLease) : SharedLease * LeaseTake :=
  match sl_state h with
  | HsEmpty => (h, TakeEmpty)
  | HsTaken => (h, TakeAlreadyTaken)
  | HsInvalid => (h, TakeInvalid)
  | HsReady =>
      match sl_lease h with
      | Some token =>
          if token =? 0 then ({| sl_lease := None; sl_state := HsInvalid |}, TakeInvalid)
          else ({| sl_lease := None; sl_state := HsTaken |}, TakeAcquired token)
      | None => ({| sl_lease := None; sl_state := HsInvalid |}, TakeInvalid)
      end
  end.
