(* ===== verification/RuntimeAdmissionClaims.v ===== *)
(** * Executions of the admission

    The objects that use the admission of [RuntimeAdmission] - leases, gates, waiting
    threads and hand-over handles - and the sequences of operations they make. At most
    one lease is live, nothing is granted past an open gate or a waiting foreground
    writer, after shutdown only one cleanup is granted, and a handle gives its lease
    away at most once. *)

From Stdlib Require Import ZArith Lia Ascii String.
From stdpp Require Import base gmap strings list.
From S2P Require Import Prelude RuntimeAdmission.
Open Scope Z_scope.

(** ** Executions *)

(** A thread inside [wait_for]. *)
Record Waiter := { wt_label : string; wt_predecessor : Z }.

(** [w_leases] are the tokens of the leases in use, [w_gates] the number of gates in use;
    handles are numbered, and a destroyed one is [None]. *)
Record World := {
  w_state : AdmissionState;
  w_leases : list Z;
  w_gates : nat;
  w_waiters : list Waiter;
  w_handoffs : list (option SharedLease);
}.

Definition world_init : World :=
  {| w_state := admission_init; w_leases := []; w_gates := 0; w_waiters := []; w_handoffs := [] |}.

Inductive Action :=
| TryAcquire (label : string) (kind : MutationKind)
| EnterWait (label : string) (waitable : AdmissionState → bool)
| LeaveWait (waiter : nat) (timed_out : bool)
| ShutdownCleanup (label : string)
| OpenGate (lease : Z)
| CloseGate
| ReleaseLease (lease : Z)
| Shutdown
| MakeHandoff (lease : option Z)
| TakeHandoff (handle : nat)
| DropHandoff (handle : nat).

Inductive Outcome := Silent | Denied | Lease (token : Z) | Took (take : LeaseTake).

(** Objects live in memory, which bounds their number. *)
Definition addressable (n : nat) : bool := Z.of_nat n <? 2 ^ 64 - 1.

Definition remove_one (x : Z) (l : list Z) : list Z :=
  match list_find (λ y, y = x) l with Some (i, _) => delete i l | None => l end.

Definition with_state (w : World) (s : AdmissionState) (leases : list Z) : World :=
  {| w_state := s; w_leases := leases; w_gates := w_gates w; w_waiters := w_waiters w; w_handoffs := w_handoffs w |}.

Definition granted (w : World) (r : option (AdmissionState * Z)) : World * Outcome :=
  match r with
  | Some (s, token) => (with_state w s (token :: w_leases w), Lease token)
  | None => (w, Denied)
  end.

(** One operation; [None] if no such operation is possible. *)
Definition perform (a : Action) (w : World) : option (World * Outcome) :=
  let s := w_state w in
  match a with
  | TryAcquire label kind => Some (granted w (try_acquire label kind s))
  | EnterWait label waitable =>
      if addressable (length (w_waiters w)) then
        match enter_wait label waitable s with
        | Refused => Some (w, Denied)
        | Granted s token => Some (granted w (Some (s, token)))
        | Waiting s predecessor =>
            Some ({| w_state := s; w_leases := w_leases w; w_gates := w_gates w;
                     w_waiters := w_waiters w ++ [{| wt_label := label; wt_predecessor := predecessor |}];
                     w_handoffs := w_handoffs w |}, Silent)
        end
      else None
  | LeaveWait i timed_out =>
      match w_waiters w !! i with
      | None => None
      | Some waiter =>
          let ready := wait_ready (wt_predecessor waiter) s in
          if ready || timed_out then
            let '(s, token) := leave_wait (wt_label waiter) ready s in
            Some ({| w_state := s;
                     w_leases := match token with Some token => token :: w_leases w | None => w_leases w end;
                     w_gates := w_gates w; w_waiters := delete i (w_waiters w); w_handoffs := w_handoffs w |},
                  match token with Some token => Lease token | None => Denied end)
          else None
      end
  | ShutdownCleanup label => Some (granted w (try_acquire_shutdown_cleanup label s))
  | OpenGate lease =>
      if addressable (w_gates w) && (bool_decide (lease ∈ w_leases w) || (lease =? 0)) then
        match try_acquire_handoff_gate lease s with
        | None => Some (w, Denied)
        | Some s => Some ({| w_state := s; w_leases := w_leases w; w_gates := S (w_gates w);
                             w_waiters := w_waiters w; w_handoffs := w_handoffs w |}, Silent)
        end
      else None
  | CloseGate =>
      match w_gates w with
      | O => None
      | S gates => Some ({| w_state := gate_release s; w_leases := w_leases w; w_gates := gates;
                            w_waiters := w_waiters w; w_handoffs := w_handoffs w |}, Silent)
      end
  | ReleaseLease lease =>
      if bool_decide (lease ∈ w_leases w)
      then Some (with_state w (lease_release lease s) (remove_one lease (w_leases w)), Silent)
      else None
  | Shutdown => Some (with_state w (shutdown s) (w_leases w), Silent)
  | MakeHandoff lease =>
      if match lease with Some token => bool_decide (token ∈ w_leases w) || (token =? 0) | None => true end then
        Some ({| w_state := s;
                 w_leases := match lease with Some token => remove_one token (w_leases w) | None => w_leases w end;
                 w_gates := w_gates w; w_waiters := w_waiters w;
                 w_handoffs := w_handoffs w ++ [Some (make_handoff lease)] |}, Silent)
      else None
  | TakeHandoff i =>
      match w_handoffs w !! i with
      | Some (Some h) =>
          let '(h, take) := handoff_take h in
          Some ({| w_state := s;
                   w_leases := match take with TakeAcquired token => token :: w_leases w | _ => w_leases w end;
                   w_gates := w_gates w; w_waiters := w_waiters w; w_handoffs := <[i := Some h]> (w_handoffs w) |},
                Took take)
      | _ => None
      end
  | DropHandoff i =>
      match w_handoffs w !! i with
      | Some (Some h) =>
          Some ({| w_state := lease_release (default 0 (sl_lease h)) s; w_leases := w_leases w;
                   w_gates := w_gates w; w_waiters := w_waiters w; w_handoffs := <[i := None]> (w_handoffs w) |},
                Silent)
      | _ => None
      end
  end.

(** A sequence of operations with their outcomes. *)
Inductive execution : World → list (Action * Outcome) → World → Prop :=
| exec_nil w : execution w [] w
| exec_cons w a o w' trace w'' :
    perform a w = Some (w', o) → execution w' trace w'' → execution w ((a, o) :: trace) w''.

Definition reachable (w : World) : Prop := ∃ trace, execution world_init trace w.

(** Every lease that exists, in use or waiting in a handle. *)
Definition handed_lease (h : option SharedLease) : option Z :=
  match h with
  | Some h => match sl_lease h with Some token => if token =? 0 then None else Some token | None => None end
  | None => None
  end.

Definition live (w : World) : list Z := w_leases w ++ omap handed_lease (w_handoffs w).

(** ** The invariant *)

Definition handoff_ok (h : SharedLease) : Prop :=
  match sl_state h with
  | HsEmpty => False
  | HsReady => ∃ token, sl_lease h = Some token ∧ token ≠ 0
  | HsTaken => sl_lease h = None
  | HsInvalid => sl_lease h = None ∨ sl_lease h = Some 0
  end.

Record world_ok (w : World) : Prop := {
  wo_live : live w = if as_active_token (w_state w) =? 0 then [] else [as_active_token (w_state w)];
  wo_next : 0 ≤ as_next_token (w_state w) < 2 ^ 64;
  wo_gates : as_handoff_count (w_state w) = Z.of_nat (w_gates w) ∧ Z.of_nat (w_gates w) < 2 ^ 64;
  wo_waiters : as_foreground_waiters (w_state w) = Z.of_nat (length (w_waiters w))
    ∧ Z.of_nat (length (w_waiters w)) < 2 ^ 64;
  wo_token : w_gates w = 0%nat ∧ as_handoff_token (w_state w) = 0
    ∨ w_gates w ≠ 0%nat ∧ as_handoff_token (w_state w) ≠ 0
      ∧ (as_active_token (w_state w) = 0 ∨ as_active_token (w_state w) = as_handoff_token (w_state w));
  wo_label : idle (w_state w) = true → as_active_label (w_state w) = EmptyString;
  wo_cleanup : as_shutdown_cleanup_claimed (w_state w) = true → as_accepting (w_state w) = false;
  wo_handoffs : Forall (λ h, match h with Some h => handoff_ok h | None => True end) (w_handoffs w);
}.

(** *** Lists of leases *)

Lemma omap_middle {A B} (f : A → option B) (l : list A) i x :
  l !! i = Some x → omap f l = omap f (take i l) ++ option_list (f x) ++ omap f (drop (S i) l).
Proof.
  intros Hi. rewrite <- (take_drop_middle l i x Hi) at 1. rewrite omap_app. f_equal. cbn. by destruct (f x).
Qed.

Lemma omap_insert {A B} (f : A → option B) (l : list A) i x y :
  l !! i = Some x →
  omap f (<[i := y]> l) = omap f (take i l) ++ option_list (f y) ++ omap f (drop (S i) l).
Proof.
  intros Hi. assert (i < length l)%nat as Hlt by by apply lookup_lt_Some in Hi.
  rewrite insert_take_drop, omap_app by done. f_equal. cbn. by destruct (f y).
Qed.

(** Replacing a handle that holds no lease by another one. *)
Lemma omap_insert_none {A B} (f : A → option B) (l : list A) i x y :
  l !! i = Some x → f x = None → f y = None → omap f (<[i := y]> l) = omap f l.
Proof. intros Hi Hx Hy. rewrite (omap_insert f l i x y Hi), (omap_middle f l i x Hi). by rewrite Hx, Hy. Qed.

(** Emptying the handle that holds the only lease. *)
Lemma omap_insert_only {A B} (f : A → option B) (l : list A) l0 i x y t a :
  l !! i = Some x → f x = Some t → f y = None → l0 ++ omap f l = [a] →
  t = a ∧ l0 = [] ∧ omap f l = [a] ∧ omap f (<[i := y]> l) = [].
Proof.
  intros Hi Hx Hy. rewrite (omap_insert f l i x y Hi), (omap_middle f l i x Hi), Hx, Hy. cbn [option_list app].
  destruct l0 as [|b [|c l0]].
  - destruct (omap f (take i l)) as [|b [|c l1]]; cbn; [|done|done].
    destruct (omap f (drop (S i) l)); [|done]. intros [= ->]. done.
  - cbn. intros [= _ E]. apply (f_equal length) in E. rewrite length_app in E. cbn in E. lia.
  - done.
Qed.

Lemma remove_only x l0 a : x ∈ l0 → (∃ l1, l0 ++ l1 = [a]) → x = a ∧ l0 = [a] ∧ remove_one x l0 = [].
Proof.
  intros Hx (l1 & E). destruct l0 as [|b [|c l0]]; [by apply elem_of_nil in Hx| |done].
  injection E as -> _. apply list_elem_of_singleton in Hx as ->. split_and!; [done..|].
  unfold remove_one. cbn. by rewrite decide_True by done.
Qed.

Lemma next_token_ok t : 0 ≤ t < 2 ^ 64 → 0 < next_token t < 2 ^ 64.
Proof.
  intros Ht. unfold next_token. cbv zeta. destruct (Z.eqb_spec (u64 (t + 1)) 0) as [E|E].
  - rewrite E. done.
  - unfold u64, wrap in *. pose proof (Z.mod_pos_bound (t + 1) (2 ^ 64) ltac:(lia)). lia.
Qed.

(** [try_acquire_shutdown_cleanup] computes the same token. *)
Lemma cleanup_token t : (let token := u64 (t + 1) in if token =? 0 then 1 else token) = next_token t.
Proof. unfold next_token. cbv zeta. by destruct (Z.eqb_spec (u64 (t + 1)) 0) as [->|]. Qed.

(** *** Granting *)

Lemma grant_ok w label kind s' :
  world_ok w → idle (w_state w) = true →
  s' = set_active (next_token (as_next_token (w_state w))) (next_token (as_next_token (w_state w))) label kind (w_state w) →
  world_ok (with_state w s' (next_token (as_next_token (w_state w)) :: w_leases w)).
Proof.
  intros [Hl Hn Hg Hw Ht Hlab Hc Hh] Hidle ->. pose proof (next_token_ok _ Hn) as Hnext.
  unfold idle in *. apply andb_true_iff in Hidle as [Ha%Z.eqb_eq Hgz%Z.eqb_eq].
  rewrite Ha in Hl. cbn [Z.eqb] in Hl. set (token := next_token _) in *.
  assert ((token =? 0) = false) as Etok by (apply Z.eqb_neq; lia).
  split; cbn [with_state set_active w_state w_leases w_gates w_waiters w_handoffs as_active_token as_next_token
    as_handoff_count as_foreground_waiters as_handoff_token as_active_label as_shutdown_cleanup_claimed as_accepting]; try done.
  - unfold live in *. cbn. rewrite Hl, Etok. done.
  - lia.
  - destruct Ht as [?|(Hne & _)]; [by left|lia].
  - unfold idle. cbn. by rewrite Etok.
Qed.

(** *** Releasing *)

(** The only lease is given back. *)
Lemma release_ok w w' a :
  world_ok w → live w = [a] → w_state w' = lease_release a (w_state w) → live w' = [] →
  w_gates w' = w_gates w → w_waiters w' = w_waiters w →
  Forall (λ h, match h with Some h => handoff_ok h | None => True end) (w_handoffs w') → world_ok w'.
Proof.
  intros [Hl Hn Hg Hw Ht Hlab Hc Hh] El Es El' Eg Ew Hh'. rewrite El in Hl.
  destruct (Z.eqb_spec (as_active_token (w_state w)) 0) as [|Ha]; [done|]. injection Hl as ->.
  unfold lease_release in Es. rewrite (proj2 (Z.eqb_neq _ _) Ha), Z.eqb_refl in Es. cbn [negb] in Es.
  split; rewrite ?Es, ?Eg, ?Ew; cbn [set_active as_active_token as_next_token as_handoff_count as_foreground_waiters
    as_handoff_token as_active_label as_shutdown_cleanup_claimed as_accepting]; try done.
  - destruct Ht as [?|(? & ? & _)]; [by left|right]. by split_and!; [..|left].
  - unfold idle. cbn [set_active as_active_token as_handoff_count]. intros ->%andb_true_iff%proj2. done.
Qed.

(** A wait ends without a lease, or a waiter starts. *)
Lemma waiters_ok w w' :
  world_ok w → w_state w' = set_waiters (Z.of_nat (length (w_waiters w'))) (w_state w) → w_leases w' = w_leases w →
  w_gates w' = w_gates w → w_handoffs w' = w_handoffs w → Z.of_nat (length (w_waiters w')) < 2 ^ 64 → world_ok w'.
Proof.
  intros [Hl Hn Hg Hw Ht Hlab Hc Hh] Es El Eg Eh Hlt.
  split; unfold live in *; rewrite ?Es, ?Eg, ?Eh, ?El; try done; by cbn.
Qed.

Lemma leave_count w i waiter :
  world_ok w → w_waiters w !! i = Some waiter →
  u64 (as_foreground_waiters (w_state w) - 1) = Z.of_nat (length (delete i (w_waiters w)))
  ∧ Z.of_nat (length (delete i (w_waiters w))) < 2 ^ 64.
Proof.
  intros Hok Hi. destruct (wo_waiters w Hok) as [-> Hlt]. apply lookup_lt_Some in Hi as Hlen.
  assert (length (w_waiters w) = S (length (delete i (w_waiters w)))) as E.
  { rewrite length_delete by (by eexists). lia. }
  rewrite E in *. split; [|lia]. rewrite Nat2Z.inj_succ. unfold u64, wrap. rewrite Z.mod_small; lia.
Qed.

(** *** Gates *)

Lemma open_gate_ok w lease s' :
  world_ok w → addressable (w_gates w) = true → try_acquire_handoff_gate lease (w_state w) = Some s' →
  world_ok {| w_state := s'; w_leases := w_leases w; w_gates := S (w_gates w); w_waiters := w_waiters w;
              w_handoffs := w_handoffs w |}.
Proof.
  intros [Hl Hn Hg Hw Ht Hlab Hc Hh] Had%Z.ltb_lt E. unfold try_acquire_handoff_gate in E.
  destruct (Z.eqb_spec lease 0) as [|Hlease]; [done|]. destruct (Z.eqb_spec (as_active_token (w_state w)) lease) as [Ea|]; [|done].
  cbn in E. injection E as <-. destruct Hg as [Hg _].
  split; cbn [set_handoff w_state w_leases w_gates w_waiters w_handoffs as_active_token as_next_token
    as_handoff_count as_foreground_waiters as_handoff_token as_active_label as_shutdown_cleanup_claimed as_accepting]; try done.
  - rewrite Hg, Nat2Z.inj_succ. unfold u64, wrap. rewrite Z.mod_small by lia. lia.
  - right. split_and!; [done..|by right].
  - unfold idle. cbn [set_handoff as_active_token as_handoff_count]. rewrite Ea. by destruct (Z.eqb_spec lease 0).
Qed.

Lemma close_gate_ok w gates :
  world_ok w → w_gates w = S gates →
  world_ok {| w_state := gate_release (w_state w); w_leases := w_leases w; w_gates := gates; w_waiters := w_waiters w;
              w_handoffs := w_handoffs w |}.
Proof.
  intros [Hl Hn Hg Hw Ht Hlab Hc Hh] E. destruct Hg as [Hg Hlt]. rewrite E in *. unfold gate_release. rewrite Hg.
  destruct (Z.eqb_spec (Z.of_nat (S gates)) 0) as [|_]; [lia|]. cbn [negb].
  replace (Z.of_nat (S gates) - 1) with (Z.of_nat gates) by lia. destruct Ht as [[? _]|(_ & Ht & Ha)]; [done|].
  destruct (Z.eqb_spec (Z.of_nat gates) 0) as [E0|E0];
    (split; cbn [set_handoff w_state w_leases w_gates w_waiters w_handoffs as_active_token as_next_token
      as_handoff_count as_foreground_waiters as_handoff_token as_active_label as_shutdown_cleanup_claimed as_accepting]; try done; try lia).
  - unfold idle. cbn [set_handoff as_active_token as_handoff_count as_active_label]. intros Hi%andb_true_iff%proj1. by rewrite Hi.
  - unfold idle. cbn [set_handoff as_active_token as_handoff_count as_active_label].
    intros Hi%andb_true_iff%proj2%Z.eqb_eq. lia.
Qed.

(** *** Every operation keeps the invariant *)

Lemma idle_of (s : AdmissionState) :
  negb (as_active_token s =? 0) = false → negb (as_handoff_count s =? 0) = false → idle s = true.
Proof. unfold idle. by intros ->%negb_false_iff ->%negb_false_iff. Qed.

(** What a grant requires. *)
Lemma try_acquire_some label kind s r :
  try_acquire label kind s = Some r →
  idle s = true ∧ as_accepting s = true ∧ as_foreground_waiters s = 0 ∧ r = acquire_locked label kind s.
Proof.
  unfold try_acquire. destruct (as_accepting s); cbn [negb orb]; [|done].
  destruct (negb (as_active_token s =? 0)) eqn:Ea; [done|]. destruct (negb (as_handoff_count s =? 0)) eqn:Eh; [done|].
  destruct (Z.eqb_spec (as_foreground_waiters s) 0); [|done]. cbn. intros [= <-]. split_and!; [by apply idle_of|done..].
Qed.

Lemma cleanup_some label s r :
  try_acquire_shutdown_cleanup label s = Some r →
  idle s = true ∧ as_accepting s = false ∧ as_shutdown_cleanup_claimed s = false
  ∧ r = (set_gate false true (acquire_locked label Foreground s).1, next_token (as_next_token s)).
Proof.
  unfold try_acquire_shutdown_cleanup. rewrite cleanup_token. destruct (as_accepting s) eqn:Eacc; cbn [orb]; [done|].
  destruct (negb (as_active_token s =? 0)) eqn:Ea; [done|]. destruct (negb (as_handoff_count s =? 0)) eqn:Eh; [done|].
  destruct (as_shutdown_cleanup_claimed s); [done|]. cbn. intros [= <-]. split_and!; [by apply idle_of|done..].
Qed.

Lemma enter_wait_cases label waitable s :
  match enter_wait label waitable s with
  | Refused => True
  | Granted s' token => idle s = true ∧ as_accepting s = true ∧ as_foreground_waiters s = 0
      ∧ (s', token) = acquire_locked label Foreground s
  | Waiting s' predecessor => idle s = false ∧ as_accepting s = true
      ∧ s' = set_waiters (u64 (as_foreground_waiters s + 1)) s
      ∧ predecessor = (if negb (as_active_token s =? 0) then as_active_token s else as_handoff_token s)
  end.
Proof.
  unfold enter_wait. destruct (as_accepting s); cbn [negb]; [|done]. fold (idle s). destruct (idle s) eqn:Ei.
  - by destruct (Z.eqb_spec (as_foreground_waiters s) 0).
  - by destruct (waitable s).
Qed.

Lemma leave_wait_cases label ready s :
  (leave_wait label ready s = (set_waiters (u64 (as_foreground_waiters s - 1)) s, None)
   ∧ (ready = false ∨ as_accepting s = false ∨ idle s = false))
  ∨ (ready = true ∧ idle s = true ∧ as_accepting s = true
     ∧ leave_wait label ready s
       = (set_waiters (u64 (as_foreground_waiters s - 1)) (acquire_locked label Foreground s).1,
          Some (next_token (as_next_token s)))).
Proof.
  unfold leave_wait, idle. destruct ready; cbn [negb]; [|by left; split; [|left]].
  destruct (as_accepting s); cbn [negb orb]; [|left; split; [done|right; by left]].
  destruct (as_active_token s =? 0); cbn [negb orb andb]; [|left; split; [done|right; by right]].
  destruct (as_handoff_count s =? 0); cbn [negb]; [|left; split; [done|right; by right]].
  by right.
Qed.

(** The shared states of the handles. *)
Lemma handoff_take_ok h :
  handoff_ok h →
  handoff_ok (handoff_take h).1
  ∧ handed_lease (Some (handoff_take h).1) = None
  ∧ match (handoff_take h).2 with
    | TakeAcquired token => handed_lease (Some h) = Some token ∧ sl_state (handoff_take h).1 = HsTaken
    | _ => handed_lease (Some h) = None
    end.
Proof.
  unfold handoff_ok, handoff_take, handed_lease. destruct h as [lease []]; cbn; [done| | |].
  - intros (token & -> & Hn). by rewrite (proj2 (Z.eqb_neq _ _) Hn).
  - by intros ->.
  - intros [-> | ->]; (split; [first [by left|by right]|done]).
Qed.

Lemma make_handoff_ok lease : handoff_ok (make_handoff lease).
Proof.
  unfold handoff_ok, make_handoff, lease_held. destruct lease as [token|]; cbn; [|by left].
  destruct (Z.eqb_spec token 0) as [->|]; cbn; [by right|by exists token].
Qed.

Lemma granted_ok w label kind r :
  world_ok w → idle (w_state w) = true → r = acquire_locked label kind (w_state w) →
  world_ok (granted w (Some r)).1.
Proof. intros Hok Hi ->. cbn. by eapply grant_ok. Qed.

(** Closing admission, or claiming the cleanup after that. *)
Lemma set_gate_ok w w' claimed :
  world_ok w → w' = with_state w (set_gate false claimed (w_state w)) (w_leases w) → world_ok w'.
Proof. intros [Hl Hn Hg Hw Ht Hlab Hc Hh] ->. split; by cbn. Qed.

Lemma leave_wait_ok w i waiter ready s' token :
  world_ok w → w_waiters w !! i = Some waiter →
  leave_wait (wt_label waiter) ready (w_state w) = (s', token) →
  world_ok {| w_state := s';
              w_leases := match token with Some token => token :: w_leases w | None => w_leases w end;
              w_gates := w_gates w; w_waiters := delete i (w_waiters w); w_handoffs := w_handoffs w |}.
Proof.
  intros Hok Hi E. destruct (leave_count w i waiter Hok Hi) as [Hcount Hlt].
  destruct (leave_wait_cases (wt_label waiter) ready (w_state w)) as [[E' _]|(_ & Hidle & _ & E')];
    rewrite E' in E; injection E as <- <-; rewrite Hcount.
  - by eapply waiters_ok.
  - eapply (waiters_ok (granted w (Some (acquire_locked (wt_label waiter) Foreground (w_state w)))).1); try done.
    by eapply granted_ok.
Qed.

Lemma make_ok w lease :
  world_ok w → match lease with Some token => bool_decide (token ∈ w_leases w) || (token =? 0) | None => true end = true →
  world_ok {| w_state := w_state w;
              w_leases := match lease with Some token => remove_one token (w_leases w) | None => w_leases w end;
              w_gates := w_gates w; w_waiters := w_waiters w;
              w_handoffs := w_handoffs w ++ [Some (make_handoff lease)] |}.
Proof.
  intros [Hl Hn Hg Hw Ht Hlab Hc Hh] Hcond.
  assert (live {| w_state := w_state w;
              w_leases := match lease with Some token => remove_one token (w_leases w) | None => w_leases w end;
              w_gates := w_gates w; w_waiters := w_waiters w;
              w_handoffs := w_handoffs w ++ [Some (make_handoff lease)] |} = live w) as El.
  { unfold live in *. cbn [w_leases w_handoffs]. rewrite omap_app. destruct lease as [token|]; cbn; [|by rewrite app_nil_r].
    destruct (Z.eqb_spec token 0) as [->|Hne].
    - rewrite app_nil_r. f_equal. unfold remove_one. destruct (list_find (λ y, y = 0) (w_leases w)) as [[j y]|] eqn:Ef; [|done].
      exfalso. apply list_find_Some in Ef as (Hj & -> & _). apply list_elem_of_lookup_2 in Hj.
      destruct (Z.eqb_spec (as_active_token (w_state w)) 0) as [_|Ha]; [by apply app_eq_nil in Hl as [E _]; rewrite E in Hj; apply elem_of_nil in Hj|].
      destruct (remove_only 0 (w_leases w) _ Hj (ex_intro _ _ Hl)) as [E _]. by rewrite <- E in Ha.
    - rewrite orb_false_r in Hcond. apply bool_decide_eq_true in Hcond.
      destruct (Z.eqb_spec (as_active_token (w_state w)) 0) as [_|Ha]; [by apply app_eq_nil in Hl as [E _]; rewrite E in Hcond; apply elem_of_nil in Hcond|].
      destruct (remove_only token (w_leases w) _ Hcond (ex_intro _ _ Hl)) as (-> & E & ->). rewrite E in Hl |- *.
      injection Hl as ->. done. }
  split; try done; [by rewrite El|]. apply Forall_app. split; [done|]. constructor; [apply make_handoff_ok|constructor].
Qed.

Lemma take_ok w i h :
  world_ok w → w_handoffs w !! i = Some (Some h) →
  let w' := {| w_state := w_state w;
               w_leases := match (handoff_take h).2 with TakeAcquired token => token :: w_leases w | _ => w_leases w end;
               w_gates := w_gates w; w_waiters := w_waiters w;
               w_handoffs := <[i := Some (handoff_take h).1]> (w_handoffs w) |} in
  world_ok w' ∧ live w' = live w.
Proof.
  intros [Hl Hn Hg Hw Ht Hlab Hc Hh] Hi w'. pose proof (proj1 (Forall_lookup _ _) Hh _ _ Hi) as Hok. cbn in Hok.
  destruct (handoff_take_ok h Hok) as (Hok' & Hnone & Hcase).
  assert (live w' = live w) as El.
  { unfold live in *. cbn [w' w_leases w_handoffs].
    destruct (handoff_take h).2 as [token| | |]; [|by rewrite (omap_insert_none _ _ _ _ _ Hi)..].
    destruct Hcase as [Hcase _]. destruct (Z.eqb_spec (as_active_token (w_state w)) 0) as [_|Ha].
    - exfalso. apply app_eq_nil in Hl as [_ Hl]. rewrite (omap_middle handed_lease _ _ _ Hi), Hcase in Hl.
      by apply app_eq_nil in Hl as [_ Hl].
    - destruct (omap_insert_only _ _ _ _ _ _ _ _ Hi Hcase Hnone Hl) as (-> & -> & E & ->). by rewrite E. }
  split; [|done]. split; try done; [by rewrite El|]. apply Forall_insert; done.
Qed.

Lemma drop_ok w i h :
  world_ok w → w_handoffs w !! i = Some (Some h) →
  world_ok {| w_state := lease_release (default 0 (sl_lease h)) (w_state w); w_leases := w_leases w;
              w_gates := w_gates w; w_waiters := w_waiters w; w_handoffs := <[i := None]> (w_handoffs w) |}.
Proof.
  intros Hok Hi. assert (Forall (λ h, match h with Some h => handoff_ok h | None => True end) (<[i := None]> (w_handoffs w))) as Hh'.
  { apply Forall_insert; [apply Hok|done]. }
  destruct (handed_lease (Some h)) as [token|] eqn:E.
  - assert (sl_lease h = Some token) as Es by (cbn in E; destruct (sl_lease h) as [t|]; [|done]; destruct (t =? 0); congruence).
    pose proof (wo_live w Hok) as Hl. rewrite Es. cbn [default from_option id].
    destruct (Z.eqb_spec (as_active_token (w_state w)) 0) as [_|Ha].
    + exfalso. unfold live in Hl. apply app_eq_nil in Hl as [_ Hl]. rewrite (omap_middle handed_lease _ _ _ Hi), E in Hl.
      by apply app_eq_nil in Hl as [_ Hl].
    + assert (handed_lease None = None) as Hn0 by done.
      destruct (omap_insert_only handed_lease _ _ _ _ _ _ _ Hi E Hn0 Hl) as (-> & El & _ & E').
      eapply (release_ok w); try done. unfold live. cbn [w_leases w_handoffs]. by rewrite El, E'.
  - assert (lease_release (default 0 (sl_lease h)) (w_state w) = w_state w) as ->.
    { cbn in E. destruct (sl_lease h) as [t|]; [|done]. cbn. unfold lease_release. by destruct (t =? 0). }
    destruct Hok. split; try done. unfold live in *. cbn [w_leases w_handoffs].
    by rewrite (omap_insert_none handed_lease _ _ _ _ Hi E).
Qed.

Lemma perform_ok a w w' o : world_ok w → perform a w = Some (w', o) → world_ok w'.
Proof.
  intros Hok. destruct a as [label kind|label waitable|i timed_out|label|lease| |lease| |lease|i|i]; cbn [perform].
  - destruct (try_acquire label kind (w_state w)) as [[s token]|] eqn:E; cbn [granted]; intros [= <- <-]; [|done].
    apply try_acquire_some in E as (Hi & _ & _ & E). change (world_ok (granted w (Some (s, token))).1). by eapply granted_ok.
  - destruct (addressable _) eqn:Had; [|done]. pose proof (enter_wait_cases label waitable (w_state w)) as Hc.
    destruct (enter_wait _ _ _) as [|s token|s p]; cbn [granted]; intros [= <- <-]; [done| |].
    + destruct Hc as (Hi & _ & _ & E). change (world_ok (granted w (Some (s, token))).1). by eapply granted_ok.
    + destruct Hc as (_ & _ & -> & _). apply Z.ltb_lt in Had. destruct (wo_waiters w Hok) as [Ew _].
      eapply (waiters_ok w); try done; cbn [w_waiters w_state]; rewrite length_app; cbn [length].
      * f_equal. rewrite Ew. unfold u64, wrap. rewrite Z.mod_small; lia.
      * lia.
  - destruct (w_waiters w !! i) as [waiter|] eqn:Ei; [|done]. destruct (_ || _); [|done].
    destruct (leave_wait _ _ _) as [s token] eqn:E. intros [= <- <-]. by eapply leave_wait_ok.
  - destruct (try_acquire_shutdown_cleanup label (w_state w)) as [[s token]|] eqn:E; cbn [granted]; intros [= <- <-]; [|done].
    apply cleanup_some in E as (Hi & _ & _ & [= -> ->]).
    eapply (set_gate_ok (granted w (Some (acquire_locked label Foreground (w_state w)))).1 _ true); [by eapply granted_ok|done].
  - destruct (_ && _) eqn:Ec; [|done]. apply andb_true_iff in Ec as [Had _].
    destruct (try_acquire_handoff_gate lease (w_state w)) as [s|] eqn:E; intros [= <- <-]; [|done]. by eapply open_gate_ok.
  - destruct (w_gates w) as [|gates] eqn:E; [done|]. intros [= <- <-]. by apply close_gate_ok.
  - destruct (bool_decide _) eqn:Ed; [|done]. apply bool_decide_eq_true in Ed. intros [= <- <-].
    pose proof (wo_live w Hok) as Hl. destruct (Z.eqb_spec (as_active_token (w_state w)) 0) as [_|Ha].
    { apply app_eq_nil in Hl as [E _]. rewrite E in Ed. by apply elem_of_nil in Ed. }
    destruct (remove_only lease (w_leases w) _ Ed (ex_intro _ _ Hl)) as (-> & El & Er).
    eapply (release_ok w); try done; [|apply Hok]. unfold live in *. cbn [with_state w_leases w_handoffs]. rewrite Er.
    rewrite El in Hl. by injection Hl.
  - intros [= <- <-]. by eapply set_gate_ok.
  - destruct (match lease with Some _ => _ | None => _ end) eqn:Ec; [|done]. intros [= <- <-]. by apply make_ok.
  - destruct (w_handoffs w !! i) as [[h|]|] eqn:Ei; [|done..]. pose proof (take_ok w i h Hok Ei) as Ht.
    destruct (handoff_take h) as [h' take]. intros [= <- <-]. apply Ht.
  - destruct (w_handoffs w !! i) as [[h|]|] eqn:Ei; [|done..]. intros [= <- <-]. by apply drop_ok.
Qed.

Lemma world_init_ok : world_ok world_init.
Proof. split; cbn; try done; lia. Qed.

Lemma execution_ok w trace w' : world_ok w → execution w trace w' → world_ok w'.
Proof. intros Hok. induction 1; [done|]. by eauto using perform_ok. Qed.

Lemma reachable_ok w : reachable w → world_ok w.
Proof. intros (trace & Ht). by eapply execution_ok, Ht; apply world_init_ok. Qed.

Lemma idle_live w : world_ok w → idle (w_state w) = true ↔ live w = [] ∧ w_gates w = 0%nat.
Proof.
  intros Hok. pose proof (wo_live w Hok) as Hl. destruct (wo_gates w Hok) as [Hg _]. unfold idle. rewrite Hg, Hl.
  destruct (as_active_token (w_state w) =? 0); cbn [andb]; [|naive_solver]. rewrite Z.eqb_eq. split; [intros; split; [done|lia]|lia].
Qed.

(** What a granting operation needs. *)
Lemma grant_cases a w w' t :
  world_ok w → perform a w = Some (w', Lease t) →
  idle (w_state w) = true ∧ t = next_token (as_next_token (w_state w)) ∧ live w' = t :: live w
  ∧ match a with
    | TryAcquire _ _ | EnterWait _ _ => as_accepting (w_state w) = true ∧ w_waiters w = []
    | LeaveWait _ _ => as_accepting (w_state w) = true
    | ShutdownCleanup _ => as_accepting (w_state w) = false ∧ as_shutdown_cleanup_claimed (w_state w) = false
        ∧ as_shutdown_cleanup_claimed (w_state w') = true
    | _ => False
    end.
Proof.
  intros Hok. assert (as_foreground_waiters (w_state w) = 0 → w_waiters w = []) as Hnone.
  { intros E. destruct (wo_waiters w Hok) as [Ew _]. destruct (w_waiters w); [done|]. cbn in Ew. lia. }
  destruct a as [label kind|label waitable|i timed_out|label|lease| |lease| |lease|i|i]; cbn [perform].
  - destruct (try_acquire label kind (w_state w)) as [r|] eqn:E; [|done].
    apply try_acquire_some in E as (Hi & Ha & Hw & ->). cbn. intros [= <- <-]. by split_and!; [..|apply Hnone].
  - destruct (addressable _); [|done]. pose proof (enter_wait_cases label waitable (w_state w)) as Hc.
    destruct (enter_wait _ _ _) as [|s token|s p]; [done| |done]. destruct Hc as (Hi & Ha & Hw & [= -> ->]). cbn.
    intros [= <- <-]. by split_and!; [..|apply Hnone].
  - destruct (w_waiters w !! i) as [waiter|]; [|done]. destruct (_ || _); [|done].
    destruct (leave_wait_cases (wt_label waiter) (wait_ready (wt_predecessor waiter) (w_state w)) (w_state w))
      as [[-> _]|(_ & Hi & Ha & ->)]; cbn; [done|]. intros [= <- <-]. by split_and!.
  - destruct (try_acquire_shutdown_cleanup label (w_state w)) as [r|] eqn:E; [|done].
    apply cleanup_some in E as (Hi & Ha & Hc & ->). cbn. intros [= <- <-]. by split_and!.
  - destruct (_ && _); [|done]. by destruct (try_acquire_handoff_gate lease (w_state w)).
  - by destruct (w_gates w).
  - by destruct (bool_decide _).
  - done.
  - by destruct (match lease with Some _ => _ | None => _ end).
  - destruct (w_handoffs w !! i) as [[h|]|]; [|done..]. by destruct (handoff_take h).
  - by destruct (w_handoffs w !! i) as [[h|]|].
Qed.

(** *** After shutdown *)

(** The two latches of the state. *)
Definition latches (s : AdmissionState) : bool * bool := (as_accepting s, as_shutdown_cleanup_claimed s).

Lemma latches_release token s : latches (lease_release token s) = latches s.
Proof. unfold lease_release. destruct (token =? 0); [done|]. by destruct (negb _). Qed.

Lemma latches_gate s : latches (gate_release s) = latches s.
Proof. unfold gate_release. cbv zeta. by destruct (_ =? 0). Qed.

(** Only [shutdown] closes admission and only a granted cleanup claims it. *)
Lemma perform_latches a w w' o :
  perform a w = Some (w', o) →
  latches (w_state w') =
    match a with
    | Shutdown => (false, as_shutdown_cleanup_claimed (w_state w))
    | ShutdownCleanup _ => match o with Lease _ => (false, true) | _ => latches (w_state w) end
    | _ => latches (w_state w)
    end.
Proof.
  destruct a as [label kind|label waitable|i timed_out|label|lease| |lease| |lease|i|i]; cbn [perform]; intros H.
  - destruct (try_acquire label kind (w_state w)) as [[s t]|] eqn:E; cbn [granted] in H; injection H as <- <-; [|done].
    by apply try_acquire_some in E as (_ & _ & _ & [= -> ->]).
  - destruct (addressable _); [|done]. pose proof (enter_wait_cases label waitable (w_state w)) as Hc.
    destruct (enter_wait _ _ _) as [|s token|s p]; cbn [granted] in H; injection H as <- <-; [done| |].
    + by destruct Hc as (_ & _ & _ & [= -> ->]).
    + by destruct Hc as (_ & _ & -> & _).
  - destruct (w_waiters w !! i) as [waiter|]; [|done]. destruct (_ || _); [|done].
    destruct (leave_wait_cases (wt_label waiter) (wait_ready (wt_predecessor waiter) (w_state w)) (w_state w))
      as [[E _]|(_ & _ & _ & E)]; rewrite E in H; by injection H as <- <-.
  - destruct (try_acquire_shutdown_cleanup label (w_state w)) as [[s t]|] eqn:E; cbn [granted] in H; injection H as <- <-; [|done].
    by apply cleanup_some in E as (_ & _ & _ & [= -> ->]).
  - destruct (_ && _); [|done]. destruct (try_acquire_handoff_gate lease (w_state w)) as [s|] eqn:E; injection H as <- <-; [|done].
    unfold try_acquire_handoff_gate in E. destruct (_ || _); [done|]. by injection E as <-.
  - destruct (w_gates w); [done|]. injection H as <- <-. apply latches_gate.
  - destruct (bool_decide _); [|done]. injection H as <- <-. apply latches_release.
  - by injection H as <- <-.
  - destruct (match lease with Some _ => _ | None => _ end); [|done]. by injection H as <- <-.
  - destruct (w_handoffs w !! i) as [[h|]|]; [|done..]. destruct (handoff_take h). by injection H as <- <-.
  - destruct (w_handoffs w !! i) as [[h|]|]; [|done..]. injection H as <- <-. apply latches_release.
Qed.

Lemma accepting_kept a w w' o : perform a w = Some (w', o) → as_accepting (w_state w) = false → as_accepting (w_state w') = false.
Proof. intros Hp%perform_latches Ha. unfold latches in Hp. repeat case_match; congruence. Qed.

Lemma claimed_kept a w w' o :
  perform a w = Some (w', o) → as_shutdown_cleanup_claimed (w_state w) = true → as_shutdown_cleanup_claimed (w_state w') = true.
Proof. intros Hp%perform_latches Ha. unfold latches in Hp. repeat case_match; congruence. Qed.

Definition grants (entry : Action * Outcome) : bool := match entry.2 with Lease _ => true | _ => false end.
Definition is_cleanup (entry : Action * Outcome) : bool := match entry.1 with ShutdownCleanup _ => true | _ => false end.

Lemma shutdown_grants w trace w' :
  world_ok w → as_accepting (w_state w) = false → execution w trace w' →
  as_accepting (w_state w') = false
  ∧ Forall (λ entry, grants entry = true → is_cleanup entry = true) trace
  ∧ (length (List.filter grants trace) ≤ (if as_shutdown_cleanup_claimed (w_state w) then 0 else 1))%nat.
Proof.
  intros Hok Ha Hex. induction Hex as [w|w a o w1 trace w2 Hp Hex IH]; [split_and!; [done|constructor|cbn; lia]|].
  pose proof (accepting_kept _ _ _ _ Hp Ha) as Ha1. destruct (IH (perform_ok _ _ _ _ Hok Hp) Ha1) as (Hacc & Hall & Hle).
  split; [done|]. cbn [List.filter]. destruct o as [| |t|take]; cbn [grants snd]; cycle 2.
  { destruct (grant_cases a w w1 t Hok Hp) as (_ & _ & _ & Hc).
    destruct a as [label kind|label waitable|i timed_out|label|lease| |lease| |lease|i|i]; try done;
      [destruct Hc; congruence|destruct Hc; congruence|congruence|].
    destruct Hc as (_ & Hcl & Hcl'). rewrite Hcl, Hcl' in *. split; [by constructor|]. cbn [length]. lia. }
  all: (split; [by constructor|]).
  all: destruct (as_shutdown_cleanup_claimed (w_state w)) eqn:Ec; [by rewrite (claimed_kept _ _ _ _ Hp Ec) in Hle|].
  all: destruct (as_shutdown_cleanup_claimed (w_state w1)); cbn in *; lia.
Qed.

(** *** Handles *)

(** A handle that cannot give a lease any more. *)
Definition spent (i : nat) (w : World) : Prop :=
  (i < length (w_handoffs w))%nat ∧ ∀ h, w_handoffs w !! i = Some (Some h) → sl_state h ≠ HsReady.

Definition acquires (i : nat) (entry : Action * Outcome) : bool :=
  match entry with (TakeHandoff j, Took (TakeAcquired _)) => (i =? j)%nat | _ => false end.

(** The handles after an operation. *)
Lemma perform_handoffs a w w' o :
  perform a w = Some (w', o) →
  w_handoffs w' = w_handoffs w
  ∨ (∃ lease, w_handoffs w' = w_handoffs w ++ [Some (make_handoff lease)])
  ∨ (∃ i h, w_handoffs w !! i = Some (Some h) ∧ w_handoffs w' = <[i := Some (handoff_take h).1]> (w_handoffs w))
  ∨ (∃ i, w_handoffs w' = <[i := None]> (w_handoffs w)).
Proof.
  destruct a as [label kind|label waitable|i timed_out|label|lease| |lease| |lease|i|i]; cbn [perform]; intros H.
  - left. destruct (try_acquire _ _ _) as [[s t]|]; by injection H as <- <-.
  - left. destruct (addressable _); [|done]. destruct (enter_wait _ _ _); by injection H as <- <-.
  - left. destruct (w_waiters w !! i); [|done]. destruct (_ || _); [|done]. destruct (leave_wait _ _ _). by injection H as <- <-.
  - left. destruct (try_acquire_shutdown_cleanup _ _) as [[s t]|]; by injection H as <- <-.
  - left. destruct (_ && _); [|done]. destruct (try_acquire_handoff_gate _ _); by injection H as <- <-.
  - left. destruct (w_gates w); [done|]. by injection H as <- <-.
  - left. destruct (bool_decide _); [|done]. by injection H as <- <-.
  - left. by injection H as <- <-.
  - right. left. exists lease. destruct (match lease with Some _ => _ | None => _ end); [|done]. by injection H as <- <-.
  - right. right. left. destruct (w_handoffs w !! i) as [[h|]|] eqn:E; [|done..]. exists i, h. split; [done|].
    destruct (handoff_take h) as [h' take]. by injection H as <- <-.
  - right. right. right. exists i. destruct (w_handoffs w !! i) as [[h|]|]; [|done..]. by injection H as <- <-.
Qed.

Lemma take_not_ready h : sl_state h ≠ HsReady → sl_state (handoff_take h).1 ≠ HsReady.
Proof. unfold handoff_take. by destruct (sl_state h) eqn:E; intros; cbn; rewrite ?E. Qed.

Lemma spent_kept i a w w' o : perform a w = Some (w', o) → spent i w → spent i w'.
Proof.
  intros Hp [Hlt Hs]. unfold spent. destruct (perform_handoffs a w w' o Hp) as [->|[(lease & ->)|[(j & h & Hj & ->)|(j & ->)]]].
  - done.
  - rewrite length_app. split; [lia|]. intros h. rewrite lookup_app_l by done. apply Hs.
  - rewrite length_insert. split; [done|]. intros h'. destruct (decide (i = j)) as [<-|Hn].
    + rewrite list_lookup_insert_eq by done. intros [= <-]. by apply take_not_ready, Hs.
    + rewrite list_lookup_insert_ne by done. apply Hs.
  - rewrite length_insert. split; [done|]. intros h'. destruct (decide (i = j)) as [<-|Hn].
    + by rewrite list_lookup_insert_eq by done.
    + rewrite list_lookup_insert_ne by done. apply Hs.
Qed.

Lemma acquires_spent i a w w' o :
  world_ok w → perform a w = Some (w', o) → acquires i (a, o) = true → ¬ spent i w ∧ spent i w'.
Proof.
  intros Hok Hp Ha. destruct a as [| | | | | | | | |j|]; try done. destruct o as [| | |[token| | |]]; try done.
  apply Nat.eqb_eq in Ha as <-. cbn [perform] in Hp. destruct (w_handoffs w !! i) as [[h|]|] eqn:Ei; [|done..].
  pose proof (proj1 (Forall_lookup _ _) (wo_handoffs w Hok) _ _ Ei) as Hh. destruct (handoff_take_ok h Hh) as (_ & _ & Hc).
  apply lookup_lt_Some in Ei as Hlt. assert (sl_state h ≠ HsReady → (handoff_take h).2 ≠ TakeAcquired token) as Hn.
  { unfold handoff_take. by destruct (sl_state h). }
  destruct (handoff_take h) as [h' take]. cbn [fst snd] in *. injection Hp as <- ->. destruct Hc as [_ Hc]. split.
  - intros [_ Hs]. by apply Hn; [apply Hs|].
  - split; cbn [w_handoffs]; [by rewrite length_insert|]. intros h2. rewrite list_lookup_insert_eq by done. intros [= <-]. by rewrite Hc.
Qed.

Lemma takes_bound i w trace w' :
  world_ok w → execution w trace w' →
  (length (List.filter (acquires i) trace) ≤ 1)%nat ∧ (spent i w → List.filter (acquires i) trace = []).
Proof.
  intros Hok Hex. induction Hex as [w|w a o w1 trace w2 Hp Hex IH]; [split; [cbn; lia|done]|].
  destruct (IH (perform_ok _ _ _ _ Hok Hp)) as [Hle Hnil]. cbn [List.filter]. destruct (acquires i (a, o)) eqn:Ha.
  - destruct (acquires_spent i a w w1 o Hok Hp Ha) as [Hn Hs]. rewrite (Hnil Hs). split; [cbn; lia|done].
  - split; [done|]. intros Hs. apply Hnil. by eapply spent_kept.
Qed.

(** ** The properties *)

(** C13. One owner. In every execution at most one lease exists, whether it is in use or
    waits in a hand-over handle; the admission recognises exactly this lease as the
    owner; it reports idle exactly if there is no lease and no open gate, and then no
    label of a former owner is left. *)
Theorem admission_exclusive w :
  reachable w →
  (length (live w) ≤ 1)%nat
  ∧ (∀ t, owns t (w_state w) = true ↔ t ∈ live w)
  ∧ (active (w_state w) = None ↔ live w = [])
  ∧ (wait_for_idle (w_state w) = true ↔ live w = [] ∧ w_gates w = 0%nat)
  ∧ (wait_for_idle (w_state w) = true → as_active_label (w_state w) = EmptyString).
Proof.
  intros Hok%reachable_ok. pose proof (idle_live w Hok) as Hidle. pose proof (wo_label w Hok) as Hlab.
  pose proof (wo_live w Hok) as Hl. fold (idle (w_state w)) in *. unfold owns, active.
  split; [rewrite Hl; by destruct (_ =? 0); cbn; lia|]. split; [|split; [|by split]].
  - intros t. rewrite Hl, andb_true_iff, negb_true_iff, Z.eqb_neq, Z.eqb_eq.
    destruct (Z.eqb_spec (as_active_token (w_state w)) 0) as [->|Hn].
    + rewrite elem_of_nil. split; [|done]. intros [? ?]. congruence.
    + rewrite list_elem_of_singleton. split; [by intros [_ ->]|]. by intros ->.
  - rewrite Hl. by destruct (_ =? 0).
Qed.

(** C14. Grants are fenced. Whenever an operation obtains a lease, no other lease exists,
    no gate of an earlier owner is open, and the new lease is the only one afterwards.
    Apart from the shutdown cleanup it happens only while admission is open, and only a
    writer that has waited is served while foreground writers wait: no newcomer, in
    particular no background one, overtakes them. *)
Theorem admission_grant_fenced w a w' t :
  reachable w → perform a w = Some (w', Lease t) →
  live w = [] ∧ w_gates w = 0%nat ∧ live w' = [t] ∧ t ≠ 0
  ∧ match a with
    | TryAcquire _ _ | EnterWait _ _ => as_accepting (w_state w) = true ∧ w_waiters w = []
    | LeaveWait _ _ => as_accepting (w_state w) = true
    | ShutdownCleanup _ => as_accepting (w_state w) = false
    | _ => False
    end.
Proof.
  intros Hok%reachable_ok Hp. destruct (grant_cases a w w' t Hok Hp) as (Hi & -> & El & Hc).
  apply (idle_live w Hok) in Hi as [E Hg]. rewrite E in El. pose proof (next_token_ok _ (wo_next w Hok)).
  split_and!; try done; [lia|]. by destruct a; naive_solver.
Qed.


(** Shutdown is terminal. Whatever is done after admission was closed, it stays
    closed, and the only lease ever granted is a single shutdown cleanup. *)
Theorem admission_shutdown_terminal w trace w' :
  reachable w → as_accepting (w_state w) = false → execution w trace w' →
  as_accepting (w_state w') = false
  ∧ Forall (λ entry, grants entry = true → is_cleanup entry = true) trace
  ∧ (length (List.filter grants trace) ≤ 1)%nat.
Proof.
  intros Hok%reachable_ok Ha Hex. destruct (shutdown_grants w trace w' Hok Ha Hex) as (? & ? & Hle). split_and!; [done..|].
  destruct (as_shutdown_cleanup_claimed _); lia.
Qed.

(** A lease is handed over at most once. In every execution each handle, however many
    copies of it exist, gives its lease to at most one taker, and a taker
    receives the one lease that exists. *)
Theorem lease_taken_once trace w :
  execution world_init trace w →
  (∀ i, (length (List.filter (acquires i) trace) ≤ 1)%nat)
  ∧ ∀ i w' t, perform (TakeHandoff i) w = Some (w', Took (TakeAcquired t)) → live w = [t] ∧ live w' = [t].
Proof.
  intros Hex. split; [intros i; by apply (takes_bound i world_init trace w world_init_ok)|].
  intros i w' t Hp. pose proof (execution_ok _ _ _ world_init_ok Hex) as Hok. cbn [perform] in Hp.
  destruct (w_handoffs w !! i) as [[h|]|] eqn:Ei; [|done..]. destruct (take_ok w i h Hok Ei) as [Hok' El].
  pose proof (proj1 (Forall_lookup _ _) (wo_handoffs w Hok) _ _ Ei) as Hh. destruct (handoff_take_ok h Hh) as (_ & _ & Hc).
  destruct (handoff_take h) as [h' take]. cbn [fst snd] in *. injection Hp as <- ->. destruct Hc as [Hc _].
  rewrite El. assert (live w = [t]) as E; [|by rewrite E]. pose proof (wo_live w Hok) as Hl.
  assert (t ∈ live w) as Hin.
  { unfold live. apply elem_of_app. right. apply list_elem_of_omap. exists (Some h). split; [by eapply list_elem_of_lookup_2|done]. }
  rewrite Hl in Hin |- *. destruct (_ =? 0); [by apply elem_of_nil in Hin|]. apply list_elem_of_singleton in Hin as ->. done.
Qed.

(** ** Examples *)

Fixpoint run (actions : list Action) (w : World) : option (list (Action * Outcome) * World) :=
  match actions with
  | [] => Some ([], w)
  | a :: actions =>
      match perform a w with
      | Some (w, o) => match run actions w with Some (trace, w) => Some ((a, o) :: trace, w) | None => None end
      | None => None
      end
  end.

Lemma run_execution actions w trace w' : run actions w = Some (trace, w') → execution w trace w'.
Proof.
  revert w trace. induction actions as [|a actions IH]; intros w trace; cbn [run]; [intros [= <- <-]; constructor|].
  destruct (perform a w) as [[w1 o]|] eqn:Hp; [|done]. destruct (run actions w1) as [[l w2]|] eqn:Hr; [|done].
  intros [= <- <-]. econstructor; [done|by apply IH].
Qed.

Definition final (actions : list Action) : World :=
  match run actions world_init with Some (_, w) => w | None => world_init end.

Lemma final_reachable actions : reachable (final actions).
Proof.
  unfold final. destruct (run actions world_init) as [[trace w]|] eqn:E; [exists trace; by apply run_execution in E|].
  exists []. constructor.
Qed.

(** A background owner hands over through a gate; a foreground writer waits. *)
Definition gated : list Action :=
  [TryAcquire "refresh" Background; OpenGate 1; EnterWait "api" waits_for_background; ReleaseLease 1].

Lemma admission_exclusive_witness :
  live (final [TryAcquire "refresh" Background]) = [1]
  ∧ (∀ t, owns t (w_state (final [TryAcquire "refresh" Background])) = true ↔ t ∈ live (final [TryAcquire "refresh" Background])).
Proof.
  split; [reflexivity|].
  apply (admission_exclusive (final [TryAcquire "refresh" Background])). apply final_reachable.
Defined.

Lemma admission_grant_fenced_witness :
  ∃ w', perform (LeaveWait 0 false) (final (gated ++ [CloseGate])) = Some (w', Lease 2) ∧ live w' = [2].
Proof.
  eexists. split; [reflexivity|].
  eapply (admission_grant_fenced (final (gated ++ [CloseGate])) (LeaveWait 0 false) _ 2); [apply final_reachable|reflexivity].
Defined.


Lemma admission_shutdown_terminal_witness :
  ∃ trace w', execution (final [Shutdown]) trace w'
    ∧ length trace = 3%nat ∧ (length (List.filter grants trace) ≤ 1)%nat.
Proof.
  assert (run [TryAcquire "api" Foreground; ShutdownCleanup "stop"; ShutdownCleanup "stop"] (final [Shutdown])
    = Some ([(TryAcquire "api" Foreground, Denied); (ShutdownCleanup "stop", Lease 1); (ShutdownCleanup "stop", Denied)],
            final [Shutdown; ShutdownCleanup "stop"])) as E by reflexivity.
  apply run_execution in E. do 2 eexists. split; [exact E|]. split; [reflexivity|].
  eapply (admission_shutdown_terminal _ _ _ (final_reachable [Shutdown])); [reflexivity|exact E].
Defined.

Lemma lease_taken_once_witness :
  ∃ trace w, execution world_init trace w
    ∧ (snd <$> trace = [Lease 1; Silent; Took (TakeAcquired 1); Took TakeAlreadyTaken])
    ∧ (length (List.filter (acquires 0) trace) ≤ 1)%nat.
Proof.
  assert (∃ trace w, run [TryAcquire "api" Foreground; MakeHandoff (Some 1); TakeHandoff 0; TakeHandoff 0] world_init = Some (trace, w)
    ∧ snd <$> trace = [Lease 1; Silent; Took (TakeAcquired 1); Took TakeAlreadyTaken]) as (trace & w & E & Ho).
  { do 2 eexists. split; reflexivity. }
  apply run_execution in E. exists trace, w. split; [exact E|]. split; [exact Ho|].
  apply (lease_taken_once trace w E).
Defined.
