(* ===== verification/IdleStall.v ===== *)
(** * Detection of stalled flows

    src/src/runtime/idle_stall_detector.hpp: the bounded state machine that decides which
    forwarded flows are stalled and may be deleted. It sees snapshots of the connection
    table with their time and the results of the deletions it asked for. Times and
    durations are nanoseconds of the steady clock; maps are [gmap]s. *)

From Stdlib Require Import ZArith Lia Ascii String.
From stdpp Require Import base gmap strings list.
From S2P Require Import Prelude.
Open Scope Z_scope.

(** ** Data *)

Inductive IdleStallAddressFamily := StallIpv4 | StallIpv6.
Inductive IdleStallProtocol := StallTcp | StallUdp.
Inductive IdleStallFlowReadiness := Ineligible | TcpEstablished | UdpAssured.
Inductive IdleStallRecoveryPolicy := PolicyStandard | PolicyWhatsapp.
Inductive IdleStallDecisionReason := IdleRequestWithoutReply | IdleFastnatRotation | IdleTcpResetRotation.

#[global] Instance stall_family_eq_dec : EqDecision IdleStallAddressFamily.
Proof. solve_decision. Defined.
#[global] Instance stall_protocol_eq_dec : EqDecision IdleStallProtocol.
Proof. solve_decision. Defined.
#[global] Instance stall_readiness_eq_dec : EqDecision IdleStallFlowReadiness.
Proof. solve_decision. Defined.
#[global] Instance stall_policy_eq_dec : EqDecision IdleStallRecoveryPolicy.
Proof. solve_decision. Defined.
#[global] Instance stall_reason_eq_dec : EqDecision IdleStallDecisionReason.
Proof. solve_decision. Defined.

Record IdleStallFlowKey := {
  fk_family : IdleStallAddressFamily;
  fk_protocol : IdleStallProtocol;
  fk_source : string;
  fk_destination : string;
  fk_source_port : Z;
  fk_destination_port : Z;
  fk_full_mark : Z;
}.

(** [SourceKey] *)
Record StallSource := { sk_family : IdleStallAddressFamily; sk_source : string }.

#[global] Instance flow_key_eq_dec : EqDecision IdleStallFlowKey.
Proof. solve_decision. Defined.
#[global] Instance stall_source_eq_dec : EqDecision StallSource.
Proof. solve_decision. Defined.

(** Keys of maps are told apart by their fields. *)
Definition family_bit (f : IdleStallAddressFamily) : bool := match f with StallIpv4 => false | StallIpv6 => true end.
Definition family_of_bit (b : bool) : IdleStallAddressFamily := if b then StallIpv6 else StallIpv4.
Definition protocol_bit (p : IdleStallProtocol) : bool := match p with StallTcp => false | StallUdp => true end.
Definition protocol_of_bit (b : bool) : IdleStallProtocol := if b then StallUdp else StallTcp.

#[global] Instance flow_key_countable : Countable IdleStallFlowKey.
Proof.
  apply (inj_countable'
    (λ k, (family_bit (fk_family k), protocol_bit (fk_protocol k), fk_source k, fk_destination k,
           fk_source_port k, fk_destination_port k, fk_full_mark k))
    (λ '(f, p, s, d, sp, dp, mk), {| fk_family := family_of_bit f; fk_protocol := protocol_of_bit p; fk_source := s;
       fk_destination := d; fk_source_port := sp; fk_destination_port := dp; fk_full_mark := mk |})).
  intros [[] [] s d sp dp mk]; done.
Defined.

#[global] Instance stall_source_countable : Countable StallSource.
Proof.
  apply (inj_countable' (λ k, (family_bit (sk_family k), sk_source k))
    (λ '(f, s), {| sk_family := family_of_bit f; sk_source := s |})).
  intros [[] s]; done.
Defined.

Record IdleStallFlowCounters := {
  fc_original_packets : Z;
  fc_original_bytes : Z;
  fc_reply_packets : Z;
  fc_reply_bytes : Z;
}.

Record IdleStallFlowSample := {
  fs_key : IdleStallFlowKey;
  fs_counters : IdleStallFlowCounters;
  fs_readiness : IdleStallFlowReadiness;
  fs_fastnat : bool;
  fs_recovery_policy : IdleStallRecoveryPolicy;
}.

Record IdleStallEpoch := { ep_runtime_generation : Z; ep_coverage_generation : Z }.

#[global] Instance stall_epoch_eq_dec : EqDecision IdleStallEpoch.
Proof. solve_decision. Defined.

Definition epoch_valid (e : IdleStallEpoch) : bool :=
  negb (ep_runtime_generation e =? 0) && negb (ep_coverage_generation e =? 0).

Record IdleStallScanStatus := {
  sc_snapshot_complete : bool;
  sc_counters_available : bool;
  sc_local_scope_complete : bool;
  sc_coverage_complete : bool;
}.

Definition trustworthy (s : IdleStallScanStatus) : bool :=
  sc_snapshot_complete s && sc_counters_available s && sc_local_scope_complete s && sc_coverage_complete s.

Record IdleStallScan := {
  sn_epoch : IdleStallEpoch;
  sn_owned_mark_mask : Z;
  sn_status : IdleStallScanStatus;
  sn_flows : list IdleStallFlowSample;
  sn_preventive_mark : option Z;
}.

Record IdleStallDeleteDecision := {
  dd_flow : IdleStallFlowKey;
  dd_reason : IdleStallDecisionReason;
  dd_epoch : IdleStallEpoch;
  dd_attempt_id : Z;
}.

Record IdleStallDetectorOptions := {
  op_idle_threshold : Z;
  op_confirmation_delay : Z;
  op_whatsapp_confirmation_delay : Z;
  op_rotate_idle_fastnat_tcp : bool;
  op_fastnat_idle_rotation_threshold : Z;
  op_active_media_hold : Z;
  op_source_cooldown : Z;
  op_global_rate_window : Z;
  op_tiny_keepalive_max_bytes : Z;
  op_preventive_max_packets : Z;
  op_preventive_max_bytes : Z;
  op_max_tracked_flows : nat;
  op_max_decisions_per_scan : nat;
  op_max_decisions_per_rate_window : nat;
}.

(** The defaults, in nanoseconds. *)
Definition secs (n : Z) : Z := n * 1000000000.

Definition default_options : IdleStallDetectorOptions :=
  {| op_idle_threshold := secs 30; op_confirmation_delay := secs 5;
     op_whatsapp_confirmation_delay := secs 1; op_rotate_idle_fastnat_tcp := true;
     op_fastnat_idle_rotation_threshold := secs 30; op_active_media_hold := secs 15;
     op_source_cooldown := secs 30; op_global_rate_window := secs 60;
     op_tiny_keepalive_max_bytes := 256; op_preventive_max_packets := 4; op_preventive_max_bytes := 512;
     op_max_tracked_flows := 256; op_max_decisions_per_scan := 2; op_max_decisions_per_rate_window := 8 |}.

(** [validate_options]: whether the constructor throws. *)
Definition validate_options (o : IdleStallDetectorOptions) : bool :=
  negb ((op_idle_threshold o <=? 0) || (op_confirmation_delay o <=? 0) || (op_whatsapp_confirmation_delay o <=? 0)
        || (op_confirmation_delay o <? op_whatsapp_confirmation_delay o)
        || (op_fastnat_idle_rotation_threshold o <=? 0) || (op_active_media_hold o <=? 0)
        || (op_source_cooldown o <=? 0) || (op_global_rate_window o <=? 0)
        || (op_preventive_max_packets o =? 0) || (op_preventive_max_bytes o =? 0)
        || (op_max_tracked_flows o =? 0)%nat || (op_max_decisions_per_scan o =? 0)%nat
        || (op_max_decisions_per_rate_window o =? 0)%nat).

Record FlowState := {
  st_counters : IdleStallFlowCounters;
  st_last_activity_at : Z;
  st_last_counter_change_at : Z;
  st_suspect_since : option Z;
  st_recovery_policy : IdleStallRecoveryPolicy;
}.

Record PendingAttempt := {
  pa_epoch : IdleStallEpoch;
  pa_reason : IdleStallDecisionReason;
  pa_attempt_id : Z;
}.

(** The members of [IdleStallDetector]. *)
Record Detector := {
  de_active_epoch : option IdleStallEpoch;
  de_active_mark : option Z;
  de_states : gmap IdleStallFlowKey FlowState;
  de_media_until : gmap StallSource Z;
  de_pending : gmap IdleStallFlowKey PendingAttempt;
  de_cooldown_until : gmap StallSource Z;
  de_decision_times : list Z;
  de_next_attempt_id : Z;
  de_fast_followup : bool;
}.

Definition detector_init : Detector :=
  {| de_active_epoch := None; de_active_mark := None; de_states := ∅; de_media_until := ∅; de_pending := ∅;
     de_cooldown_until := ∅; de_decision_times := []; de_next_attempt_id := 0; de_fast_followup := false |}.

(** ** Helpers *)

Definition source_key (key : IdleStallFlowKey) : StallSource :=
  {| sk_family := fk_family key; sk_source := fk_source key |}.

Definition valid_key (key : IdleStallFlowKey) : bool :=
  negb (empty_str (fk_source key)) && negb (empty_str (fk_destination key))
  && negb (fk_source_port key =? 0) && negb (fk_destination_port key =? 0).

(** [~mask] on 32 bits *)
Definition not32 (mask : Z) : Z := Z.lxor mask 0xffffffff.

Definition eligible_sample (sample : IdleStallFlowSample) (owned_mark_mask : Z) : bool :=
  let key := fs_key sample in
  let matches :=
    (bool_decide (fk_protocol key = StallTcp) && bool_decide (fs_readiness sample = TcpEstablished))
    || (bool_decide (fk_protocol key = StallUdp) && bool_decide (fs_readiness sample = UdpAssured)) in
  if negb matches then false
  else if fk_full_mark key =? 0 then true
  else negb (Z.land (fk_full_mark key) owned_mark_mask =? 0)
       && negb (negb (Z.land (fk_full_mark key) (not32 owned_mark_mask) =? 0)).

Definition counters_regressed (current previous : IdleStallFlowCounters) : bool :=
  (fc_original_packets current <? fc_original_packets previous)
  || (fc_original_bytes current <? fc_original_bytes previous)
  || (fc_reply_packets current <? fc_reply_packets previous)
  || (fc_reply_bytes current <? fc_reply_bytes previous).

Definition fresh_state (sample : IdleStallFlowSample) (now : Z) : FlowState :=
  {| st_counters := fs_counters sample; st_last_activity_at := now; st_last_counter_change_at := now;
     st_suspect_since := None; st_recovery_policy := fs_recovery_policy sample |}.

(** [operator<] of the flow keys: the fields from left to right. *)
Definition lex {A} (lt1 lt2 : A → A → bool) (a b : A) : bool := lt1 a b || (negb (lt1 b a) && lt2 a b).
Definition on {A B} (f : A → B) (lt : B → B → bool) (a b : A) : bool := lt (f a) (f b).
Definition bit_ltb (a b : bool) : bool := negb a && b.

Definition key_ltb : IdleStallFlowKey → IdleStallFlowKey → bool :=
  lex (on (λ k, family_bit (fk_family k)) bit_ltb)
    (lex (on (λ k, protocol_bit (fk_protocol k)) bit_ltb)
      (lex (on fk_source string_ltb) (lex (on fk_destination string_ltb)
        (lex (on fk_source_port Z.ltb) (lex (on fk_destination_port Z.ltb) (on fk_full_mark Z.ltb)))))).

(** ** Observation *)

Section Detector.
Context (options : IdleStallDetectorOptions).

Definition confirmation_delay_for (policy : IdleStallRecoveryPolicy) : Z :=
  match policy with
  | PolicyWhatsapp => op_whatsapp_confirmation_delay options
  | PolicyStandard => op_confirmation_delay options
  end.

Definition reset_observation_continuity (d : Detector) : Detector :=
  {| de_active_epoch := de_active_epoch d; de_active_mark := de_active_mark d; de_states := ∅; de_media_until := ∅;
     de_pending := ∅; de_cooldown_until := de_cooldown_until d; de_decision_times := de_decision_times d;
     de_next_attempt_id := de_next_attempt_id d; de_fast_followup := false |}.

Definition set_observed (epoch : option IdleStallEpoch) (mark : option Z) (d : Detector) : Detector :=
  {| de_active_epoch := epoch; de_active_mark := mark; de_states := de_states d; de_media_until := de_media_until d;
     de_pending := de_pending d; de_cooldown_until := de_cooldown_until d;
     de_decision_times := de_decision_times d; de_next_attempt_id := de_next_attempt_id d;
     de_fast_followup := de_fast_followup d |}.

Definition set_fast (fast : bool) (d : Detector) : Detector :=
  {| de_active_epoch := de_active_epoch d; de_active_mark := de_active_mark d; de_states := de_states d;
     de_media_until := de_media_until d; de_pending := de_pending d; de_cooldown_until := de_cooldown_until d;
     de_decision_times := de_decision_times d; de_next_attempt_id := de_next_attempt_id d;
     de_fast_followup := fast |}.

(** The loop over the front of [decision_times_]. *)
Fixpoint prune_times (now : Z) (times : list Z) : list Z :=
  match times with
  | [] => []
  | t :: times' => if op_global_rate_window options <=? now - t then prune_times now times' else times
  end.

Definition unexpired (now : Z) (m : gmap StallSource Z) : gmap StallSource Z := filter (λ e, now < e.2) m.

Definition prune_limits (now : Z) (d : Detector) : Detector :=
  {| de_active_epoch := de_active_epoch d; de_active_mark := de_active_mark d; de_states := de_states d;
     de_media_until := unexpired now (de_media_until d); de_pending := de_pending d;
     de_cooldown_until := unexpired now (de_cooldown_until d);
     de_decision_times := prune_times now (de_decision_times d);
     de_next_attempt_id := de_next_attempt_id d; de_fast_followup := de_fast_followup d |}.

Definition preventive_authority_valid (scan : IdleStallScan) : bool :=
  match sn_preventive_mark scan with
  | None => true
  | Some mark => negb (mark =? 0) && (Z.land mark (not32 (sn_owned_mark_mask scan)) =? 0)
  end.

(** Whether a scan is used at all. *)
Definition scan_rejected (scan : IdleStallScan) : bool :=
  negb (epoch_valid (sn_epoch scan)) || (sn_owned_mark_mask scan =? 0) || negb (preventive_authority_valid scan)
  || negb (trustworthy (sn_status scan)) || (op_max_tracked_flows options <? length (sn_flows scan))%nat.

Definition reject_scan (scan : IdleStallScan) (d : Detector) : Detector :=
  let d := reset_observation_continuity d in
  if epoch_valid (sn_epoch scan) then set_observed (Some (sn_epoch scan)) (sn_preventive_mark scan) d
  else set_observed None None d.

(** A new epoch or authority starts from a fresh baseline. *)
Definition enter_scan (scan : IdleStallScan) (d : Detector) : Detector :=
  if negb (bool_decide (de_active_epoch d = Some (sn_epoch scan)))
  then set_observed (Some (sn_epoch scan)) (sn_preventive_mark scan) (reset_observation_continuity d)
  else if negb (bool_decide (de_active_mark d = sn_preventive_mark scan))
  then set_observed (de_active_epoch d) (sn_preventive_mark scan) (reset_observation_continuity d)
  else d.

(** The keys are valid and each occurs once. *)
Fixpoint keys_distinct (seen : gset IdleStallFlowKey) (flows : list IdleStallFlowSample) : bool :=
  match flows with
  | [] => true
  | sample :: flows =>
      if negb (valid_key (fs_key sample)) || bool_decide (fs_key sample ∈ seen) then false
      else keys_distinct ({[fs_key sample]} ∪ seen) flows
  end.

(** [PreparedSample]; its state is the entry of the map at its key. *)
Record PreparedSample := {
  pr_sample : IdleStallFlowSample;
  pr_baseline : bool;
  pr_original_grew : bool;
  pr_reply_grew : bool;
  pr_original_progress : bool;
  pr_reply_progress : bool;
  pr_was_idle : bool;
  pr_unchanged_for_idle : bool;
}.

Definition baseline_sample (sample : IdleStallFlowSample) : PreparedSample :=
  {| pr_sample := sample; pr_baseline := true; pr_original_grew := false; pr_reply_grew := false;
     pr_original_progress := false; pr_reply_progress := false; pr_was_idle := false; pr_unchanged_for_idle := false |}.

Definition grown_sample (sample : IdleStallFlowSample) (state : FlowState) (now : Z) : PreparedSample :=
  let c := fs_counters sample in
  let p := st_counters state in
  {| pr_sample := sample; pr_baseline := false;
     pr_original_grew := (fc_original_packets p <? fc_original_packets c) || (fc_original_bytes p <? fc_original_bytes c);
     pr_reply_grew := (fc_reply_packets p <? fc_reply_packets c) || (fc_reply_bytes p <? fc_reply_bytes c);
     pr_original_progress := op_tiny_keepalive_max_bytes options <? u64 (fc_original_bytes c - fc_original_bytes p);
     pr_reply_progress := op_tiny_keepalive_max_bytes options <? u64 (fc_reply_bytes c - fc_reply_bytes p);
     pr_was_idle := op_idle_threshold options <=? now - st_last_activity_at state;
     pr_unchanged_for_idle := op_idle_threshold options <=? now - st_last_counter_change_at state |}.

(** What the prepare loop changes. *)
Record Flows := {
  fl_states : gmap IdleStallFlowKey FlowState;
  fl_pending : gmap IdleStallFlowKey PendingAttempt;
}.

(** A sample starts over: it is new, its counters went back or its policy changed. *)
Definition starts_over (state : option FlowState) (sample : IdleStallFlowSample) : bool :=
  match state with
  | None => true
  | Some state => counters_regressed (fs_counters sample) (st_counters state)
      || negb (bool_decide (st_recovery_policy state = fs_recovery_policy sample))
  end.

Definition prepare_one (mask now : Z) (acc : Flows * list PreparedSample) (sample : IdleStallFlowSample)
    : Flows * list PreparedSample :=
  let '(f, prepared) := acc in
  let key := fs_key sample in
  if negb (eligible_sample sample mask) then (f, prepared)
  else if starts_over (fl_states f !! key) sample then
    ({| fl_states := <[key := fresh_state sample now]> (fl_states f); fl_pending := delete key (fl_pending f) |},
     prepared ++ [baseline_sample sample])
  else
    (f, prepared ++ option_list ((λ state, grown_sample sample state now) <$> fl_states f !! key)).

Definition observed_keys (scan : IdleStallScan) : gset IdleStallFlowKey :=
  list_to_set (fs_key <$> List.filter (λ sample, eligible_sample sample (sn_owned_mark_mask scan)) (sn_flows scan)).

(** Flows that are gone are forgotten together with their attempts. *)
Definition forget_unobserved (observed : gset IdleStallFlowKey) (f : Flows) : Flows :=
  {| fl_states := filter (λ e, e.1 ∈ observed) (fl_states f);
     fl_pending := filter (λ e, ¬ (is_Some (fl_states f !! e.1) ∧ (e.1 ∉ observed))) (fl_pending f) |}.

(** Bidirectional UDP protects its source. *)
Definition is_media (p : PreparedSample) : bool :=
  negb (pr_baseline p || negb (bool_decide (fk_protocol (fs_key (pr_sample p)) = StallUdp))
        || negb (pr_original_grew p) || negb (pr_reply_grew p)).

Definition protect_media (now : Z) (media : gmap StallSource Z) (p : PreparedSample) : gmap StallSource Z :=
  if is_media p then
    let source := source_key (fs_key (pr_sample p)) in
    <[source := Z.max (default 0 (media !! source)) (now + op_active_media_hold options)]> media
  else media.

Definition media_protected (now : Z) (media : gmap StallSource Z) (source : StallSource) : bool :=
  match media !! source with Some until => now <? until | None => false end.

Definition tcp_reset_applies (scan : IdleStallScan) (state : FlowState) (p : PreparedSample) : bool :=
  let key := fs_key (pr_sample p) in
  let c := fs_counters (pr_sample p) in
  bool_decide (st_recovery_policy state = PolicyWhatsapp)
  && bool_decide (sn_preventive_mark scan = Some (fk_full_mark key))
  && bool_decide (fk_protocol key = StallTcp) && (fk_destination_port key =? 443) && negb (fk_full_mark key =? 0)
  && pr_unchanged_for_idle p && negb (pr_original_grew p) && negb (pr_reply_grew p)
  && (fc_original_packets c <=? op_preventive_max_packets options)
  && (fc_reply_packets c <=? op_preventive_max_packets options)
  && (fc_original_bytes c <=? op_preventive_max_bytes options)
  && (fc_reply_bytes c <=? op_preventive_max_bytes options)
  && negb (pr_original_progress p) && negb (pr_reply_progress p).

Definition fastnat_applies (now : Z) (state : FlowState) (p : PreparedSample) : bool :=
  op_rotate_idle_fastnat_tcp options && fs_fastnat (pr_sample p)
  && bool_decide (fk_protocol (fs_key (pr_sample p)) = StallTcp)
  && pr_original_grew p && pr_reply_grew p && negb (pr_original_progress p) && negb (pr_reply_progress p)
  && (op_fastnat_idle_rotation_threshold options <=? now - st_last_activity_at state).

(** The chain of cases for one flow: the new suspicion, whether its attempt is dropped,
    whether an early scan is asked for, and the reason for which it is a candidate. *)
Record Verdict := {
  vd_suspect_since : option Z;
  vd_drop_attempt : bool;
  vd_fast : bool;
  vd_reason : option IdleStallDecisionReason;
}.

Definition judge (scan : IdleStallScan) (now : Z) (media : gmap StallSource Z) (state : FlowState) (p : PreparedSample)
    : Verdict :=
  let keep reason := {| vd_suspect_since := st_suspect_since state; vd_drop_attempt := false; vd_fast := false;
                        vd_reason := reason |} in
  if media_protected now media (source_key (fs_key (pr_sample p))) || pr_reply_progress p then
    {| vd_suspect_since := None; vd_drop_attempt := true; vd_fast := false; vd_reason := None |}
  else match st_suspect_since state with
       | Some since =>
           keep (if confirmation_delay_for (st_recovery_policy state) <=? now - since
                 then Some IdleRequestWithoutReply else None)
       | None =>
           if pr_was_idle p && pr_original_progress p then
             {| vd_suspect_since := Some now; vd_drop_attempt := false;
                vd_fast := bool_decide (st_recovery_policy state = PolicyWhatsapp); vd_reason := None |}
           else if tcp_reset_applies scan state p then keep (Some IdleTcpResetRotation)
           else if fastnat_applies now state p then keep (Some IdleFastnatRotation)
           else keep None
       end.

Definition judged_state (now : Z) (state : FlowState) (p : PreparedSample) (v : Verdict) : FlowState :=
  {| st_counters := fs_counters (pr_sample p);
     st_last_activity_at := if pr_original_progress p || pr_reply_progress p then now else st_last_activity_at state;
     st_last_counter_change_at := if pr_original_grew p || pr_reply_grew p then now else st_last_counter_change_at state;
     st_suspect_since := vd_suspect_since v; st_recovery_policy := st_recovery_policy state |}.

Definition evaluate_one (scan : IdleStallScan) (now : Z) (media : gmap StallSource Z)
    (acc : (Flows * bool) * list (IdleStallFlowKey * IdleStallDecisionReason)) (p : PreparedSample) : (Flows * bool) * list (IdleStallFlowKey * IdleStallDecisionReason) :=
  let '((f, fast), candidates) := acc in
  let key := fs_key (pr_sample p) in
  if pr_baseline p then ((f, fast), candidates)
  else match fl_states f !! key with
       | None => ((f, fast), candidates)
       | Some state =>
           let v := judge scan now media state p in
           (({| fl_states := <[key := judged_state now state p v]> (fl_states f);
                fl_pending := if vd_drop_attempt v then delete key (fl_pending f) else fl_pending f |},
             fast || vd_fast v),
            candidates ++ option_list ((λ reason, (key, reason)) <$> vd_reason v))
       end.

(** The order of the candidates: flows without a suspicion first, then the oldest. *)
Definition since_ltb (a b : option Z) : bool :=
  match a, b with
  | None, Some _ => true
  | Some a, Some b => a <? b
  | _, None => false
  end.

Definition candidate_ltb (states : gmap IdleStallFlowKey FlowState) : IdleStallFlowKey * IdleStallDecisionReason → IdleStallFlowKey * IdleStallDecisionReason → bool :=
  lex (on (λ c : IdleStallFlowKey * IdleStallDecisionReason, states !! c.1 ≫= st_suspect_since) since_ltb) (on fst key_ltb).

Definition allocate_attempt_id (next : Z) : Z :=
  let next := u64 (next + 1) in if next =? 0 then u64 (next + 1) else next.

(** A suspicion that is given up: a new request after a new idle time is needed. *)
Definition abandon_source (now : Z) (state : FlowState) : FlowState :=
  {| st_counters := st_counters state; st_last_activity_at := now;
     st_last_counter_change_at := st_last_counter_change_at state; st_suspect_since := None;
     st_recovery_policy := st_recovery_policy state |}.

Definition in_cooldown (now : Z) (cooldown : gmap StallSource Z) (source : StallSource) : bool :=
  match cooldown !! source with Some until => now <? until | None => false end.

Definition source_pending (pending : gmap IdleStallFlowKey PendingAttempt) (source : StallSource) : bool :=
  bool_decide (source ∈ source_key <$> (map_to_list pending).*1).

(** The decisions so far and what they change. *)
Record Deciding := {
  dc_flows : Flows;
  dc_next : Z;
  dc_decisions : list IdleStallDeleteDecision;
}.

Definition decide_one (scan : IdleStallScan) (now : Z) (cooldown : gmap StallSource Z) (limit : nat) (fail_closed : bool)
    (s : Deciding) (candidate : IdleStallFlowKey * IdleStallDecisionReason) : Deciding :=
  let f := dc_flows s in
  let '(key, reason) := candidate in
  let source := source_key key in
  let retire := {| dc_flows := {| fl_states := alter (abandon_source now) key (fl_states f); fl_pending := fl_pending f |};
                   dc_next := dc_next s; dc_decisions := dc_decisions s |} in
  if in_cooldown now cooldown source then retire
  else if source_pending (fl_pending f) source then s
  else if (limit <=? length (dc_decisions s))%nat then if fail_closed then retire else s
  else
    let attempt_id := allocate_attempt_id (dc_next s) in
    {| dc_flows := {| fl_states := fl_states f;
                      fl_pending := <[key := {| pa_epoch := sn_epoch scan; pa_reason := reason;
                                                pa_attempt_id := attempt_id |}]> (fl_pending f) |};
       dc_next := attempt_id;
       dc_decisions := dc_decisions s ++ [{| dd_flow := key; dd_reason := reason; dd_epoch := sn_epoch scan;
                                             dd_attempt_id := attempt_id |}] |}.

(** How many decisions a scan may still make. *)
Definition decision_limit (times : list Z) (pending : gmap IdleStallFlowKey PendingAttempt) : nat :=
  let window := op_max_decisions_per_rate_window options in
  Nat.min (op_max_decisions_per_scan options) (window - Nat.min window (length times + size pending)).

(** The part of [observe] after the checks. *)
Definition observe_flows (scan : IdleStallScan) (now : Z) (d : Detector) : Detector * list IdleStallDeleteDecision :=
  let '(f, prepared) :=
    foldl (prepare_one (sn_owned_mark_mask scan) now)
      ({| fl_states := de_states d; fl_pending := de_pending d |}, []) (sn_flows scan) in
  let f := forget_unobserved (observed_keys scan) f in
  let media := foldl (protect_media now) (de_media_until d) prepared in
  let '((f, fast), candidates) := foldl (evaluate_one scan now media) ((f, de_fast_followup d), []) prepared in
  let candidates := stable_sort (candidate_ltb (fl_states f)) candidates in
  let limit := decision_limit (de_decision_times d) (fl_pending f) in
  let fail_closed := (op_max_decisions_per_rate_window options <=? length (de_decision_times d))%nat in
  let s := foldl (decide_one scan now (de_cooldown_until d) limit fail_closed)
             {| dc_flows := f; dc_next := de_next_attempt_id d; dc_decisions := [] |} candidates in
  ({| de_active_epoch := de_active_epoch d; de_active_mark := de_active_mark d;
      de_states := fl_states (dc_flows s); de_media_until := media; de_pending := fl_pending (dc_flows s);
      de_cooldown_until := de_cooldown_until d; de_decision_times := de_decision_times d;
      de_next_attempt_id := dc_next s; de_fast_followup := fast |}, dc_decisions s).

Definition observe (scan : IdleStallScan) (now : Z) (d : Detector) : Detector * list IdleStallDeleteDecision :=
  let d := prune_limits now (set_fast false d) in
  if scan_rejected scan then (reject_scan scan d, [])
  else
    let d := enter_scan scan d in
    if negb (keys_distinct ∅ (sn_flows scan))
    then (set_observed (Some (sn_epoch scan)) (de_active_mark d) (reset_observation_continuity d), [])
    else observe_flows scan now d.

(** ** Acknowledgement *)

Definition attempt_matches (decision : IdleStallDeleteDecision) (p : PendingAttempt) : bool :=
  bool_decide (pa_epoch p = dd_epoch decision) && bool_decide (pa_reason p = dd_reason decision)
  && (pa_attempt_id p =? dd_attempt_id decision).

Definition set_pending (pending : gmap IdleStallFlowKey PendingAttempt) (d : Detector) : Detector :=
  {| de_active_epoch := de_active_epoch d; de_active_mark := de_active_mark d; de_states := de_states d;
     de_media_until := de_media_until d; de_pending := pending; de_cooldown_until := de_cooldown_until d;
     de_decision_times := de_decision_times d; de_next_attempt_id := de_next_attempt_id d;
     de_fast_followup := de_fast_followup d |}.

(** A successful delete: the rate window, the cooldown and the suspicions of its source. *)
Definition commit_delete (source : StallSource) (now : Z) (d : Detector) : Detector :=
  let d := prune_limits now d in
  {| de_active_epoch := de_active_epoch d; de_active_mark := de_active_mark d;
     de_states := map_imap (λ key state, Some (if bool_decide (source_key key = source) then abandon_source now state else state))
                    (de_states d);
     de_media_until := de_media_until d; de_pending := de_pending d;
     de_cooldown_until := <[source := Z.max (default 0 (de_cooldown_until d !! source))
                                            (now + op_source_cooldown options)]> (de_cooldown_until d);
     de_decision_times := de_decision_times d ++ [now];
     de_next_attempt_id := de_next_attempt_id d; de_fast_followup := de_fast_followup d |}.

Definition acknowledge_delete_result (decision : IdleStallDeleteDecision) (delete_succeeded : bool) (now : Z) (d : Detector)
    : Detector * bool :=
  if negb (bool_decide (de_active_epoch d = Some (dd_epoch decision))) || (dd_attempt_id decision =? 0) then (d, false)
  else match de_pending d !! dd_flow decision with
       | None => (d, false)
       | Some p =>
           if negb (attempt_matches decision p) then (d, false)
           else
             let d := set_pending (delete (dd_flow decision) (de_pending d)) d in
             if negb delete_succeeded then (d, true)
             else (commit_delete (source_key (dd_flow decision)) now d, true)
       end.

(** [reset]: everything but the attempt counter. *)
Definition detector_reset (d : Detector) : Detector :=
  {| de_active_epoch := None; de_active_mark := None; de_states := ∅; de_media_until := ∅; de_pending := ∅;
     de_cooldown_until := ∅; de_decision_times := []; de_next_attempt_id := de_next_attempt_id d;
     de_fast_followup := false |}.

Definition tracked_flow_count (d : Detector) : nat := size (de_states d).

Definition take_whatsapp_fast_followup_delay (d : Detector) : Detector * option Z :=
  if negb (de_fast_followup d) then (d, None)
  else (set_fast false d, Some (op_whatsapp_confirmation_delay options)).
End Detector.
