(* ===== verification/IdleStallClaims.v ===== *)
(** * What the stall detector guarantees

    The order of a snapshot does not matter; every decision is justified by an
    uninterrupted observation of the flow; and whatever scans, results and resets
    come in which order, the rate window and the cooldown of each source hold. *)

From Stdlib Require Import ZArith Lia Ascii String.
From stdpp Require Import base gmap strings list sorting.
From S2P Require Import Prelude IdleStall.
Open Scope Z_scope.

(** * Passes of the stall detector

    Order of the candidates, independence of the passes from the order of the snapshot,
    and what the decisions of a scan are. *)

(** ** Lexicographic orders *)

(** A strict weak order whose incomparable elements agree on [same]. *)
Record weak_order {A} (lt : A → A → bool) (same : A → A → Prop) : Prop := {
  wk_asym a b : lt a b = true → lt b a = false;
  wk_negtrans a b c : lt b a = false → lt c b = false → lt c a = false;
  wk_total a b : lt a b = false → lt b a = false → same a b;
}.

Lemma weak_on {A B} (f : A → B) lt same : weak_order lt same → weak_order (on f lt) (λ a b, same (f a) (f b)).
Proof. intros [Ha Hn Ht]. unfold on. split; eauto. Qed.

Lemma weak_lex {A} (lt1 lt2 : A → A → bool) same1 same2 :
  weak_order lt1 same1 → weak_order lt2 same2 → weak_order (lex lt1 lt2) (λ a b, same1 a b ∧ same2 a b).
Proof.
  intros [Ha1 Hn1 Ht1] [Ha2 Hn2 Ht2]. unfold lex. split.
  - intros a b H. apply orb_true_iff in H as [H|H].
    + rewrite (Ha1 _ _ H), H. done.
    + apply andb_true_iff in H as [H1%negb_true_iff H2]. rewrite H1, (Ha2 _ _ H2). by rewrite andb_false_r.
  - intros a b c [H1 H2]%orb_false_iff [H3 H4]%orb_false_iff. rewrite (Hn1 _ _ _ H1 H3). cbn [orb].
    destruct (lt1 a c) eqn:E; [done|]. cbn [negb andb].
    pose proof (Hn1 b c a H3 E) as Eab. pose proof (Hn1 c a b E H1) as Ebc.
    rewrite Eab in H2. rewrite Ebc in H4. cbn in H2, H4. by eapply Hn2.
  - intros a b [H1 H2]%orb_false_iff [H3 H4]%orb_false_iff. rewrite H3 in H2. rewrite H1 in H4. cbn in H2, H4. split; [by apply Ht1|by apply Ht2].
Qed.

Lemma weak_Z : weak_order Z.ltb eq.
Proof. split; intros; bool_to_prop; lia. Qed.

Lemma weak_string : weak_order string_ltb eq.
Proof. split; [apply string_ltb_asym|intros a b c; apply string_ltb_negtrans|apply string_ltb_total]. Qed.

Lemma weak_bit : weak_order bit_ltb eq.
Proof. split; by intros [] []; try intros []. Qed.

Lemma weak_since : weak_order since_ltb eq.
Proof. split; intros [a|] [b|]; try intros [c|]; cbn; intros; bool_to_prop; try done; try lia. f_equal. lia. Qed.

Lemma weak_key : weak_order key_ltb eq.
Proof.
  pose proof (weak_lex _ _ _ _ (weak_on (λ k, family_bit (fk_family k)) _ _ weak_bit)
    (weak_lex _ _ _ _ (weak_on (λ k, protocol_bit (fk_protocol k)) _ _ weak_bit)
      (weak_lex _ _ _ _ (weak_on fk_source _ _ weak_string) (weak_lex _ _ _ _ (weak_on fk_destination _ _ weak_string)
        (weak_lex _ _ _ _ (weak_on fk_source_port _ _ weak_Z) (weak_lex _ _ _ _ (weak_on fk_destination_port _ _ weak_Z)
          (weak_on fk_full_mark _ _ weak_Z))))))) as [Ha Hn Ht].
  split; [exact Ha|exact Hn|]. intros a b H1 H2. destruct (Ht a b H1 H2) as (Ef & Ep & Es & Ed & Esp & Edp & Em).
  destruct a as [[] [] ? ? ? ? ?], b as [[] [] ? ? ? ? ?]; cbn in *; congruence.
Qed.

Lemma weak_candidate states : weak_order (candidate_ltb states) (λ a b, a.1 = b.1).
Proof.
  destruct (weak_lex _ _ _ _ (weak_on (λ c : IdleStallFlowKey * IdleStallDecisionReason, states !! c.1 ≫= st_suspect_since) _ _ weak_since)
    (weak_on fst _ _ weak_key)) as [Ha Hn Ht].
  split; [exact Ha|exact Hn|]. intros a b H1 H2. by apply (Ht a b H1 H2).
Qed.

(** Sorting does not depend on the order of candidates with distinct flows. *)
Lemma candidates_sorted_unique states (l l' : list (IdleStallFlowKey * IdleStallDecisionReason)) :
  l ≡ₚ l' → NoDup l.*1 → stable_sort (candidate_ltb states) l = stable_sort (candidate_ltb states) l'.
Proof.
  intros Hp Hnd. destruct (weak_candidate states) as [Ha Hn Ht].
  apply (StronglySorted_unique_strong (not_after (candidate_ltb states))).
  - intros x y Hx Hy H12 H21. rewrite stable_sort_perm in Hx, Hy. rewrite <- Hp in Hy.
    specialize (Ht x y H21 H12). apply list_elem_of_lookup in Hx as [i Hi], Hy as [j Hj].
    assert (i = j) as ->; [|congruence]. apply (NoDup_lookup l.*1 i j x.1 Hnd); rewrite list_lookup_fmap.
    + by rewrite Hi.
    + rewrite Hj. cbn. by rewrite Ht.
  - by apply stable_sort_sorted.
  - by apply stable_sort_sorted.
  - by rewrite !stable_sort_perm.
Qed.

(** ** Loops that touch one key at a time *)

Section Commute.
Context {S A B K : Type} (key : A → K) (step : S → A → S) (out : S → A → list B).

Definition loop_body (acc : S * list B) (a : A) : S * list B := (step acc.1 a, acc.2 ++ out acc.1 a).

Context (Hcomm : ∀ s a b, key a ≠ key b → step (step s a) b = step (step s b) a).
Context (Hout : ∀ s a b, key a ≠ key b → out (step s a) b = out s b).

Lemma loop_permutation l l' :
  l ≡ₚ l' → NoDup (key <$> l) → ∀ s o o', o ≡ₚ o' →
  (foldl loop_body (s, o) l).1 = (foldl loop_body (s, o') l').1
  ∧ (foldl loop_body (s, o) l).2 ≡ₚ (foldl loop_body (s, o') l').2.
Proof using Hcomm Hout.
  induction 1 as [|a l l' Hp IH|a b l|l1 l2 l3 H12 IH12 H23 IH23]; intros Hnd s o o' Ho.
  - done.
  - cbn [foldl]. unfold loop_body at 2 4 6 8. cbn [fst snd]. apply IH; [by apply NoDup_cons in Hnd as [_ ?]|]. by rewrite Ho.
  - assert (key a ≠ key b) as Hab.
    { rewrite !fmap_cons in Hnd. apply NoDup_cons in Hnd as [Hn _]. set_solver. }
    cbn [foldl]. unfold loop_body at 2 3 5 6 8 9 11 12. cbn [fst snd].
    rewrite (Hcomm s a b Hab), (Hout s a b Hab), (Hout s b a (not_eq_sym Hab)).
    assert (∀ s o o', o ≡ₚ o' → (foldl loop_body (s, o) l).1 = (foldl loop_body (s, o') l).1
      ∧ (foldl loop_body (s, o) l).2 ≡ₚ (foldl loop_body (s, o') l).2) as Hl.
    { clear. induction l as [|x l IH]; intros s o o' Ho; [done|]. cbn [foldl]. unfold loop_body at 2 4 6 8. cbn [fst snd].
      apply IH. by rewrite Ho. }
    apply Hl. rewrite Ho, <- !app_assoc. apply Permutation_app_head, Permutation_app_comm.
  - destruct (IH12 Hnd s o o' Ho) as [E1 P1]. destruct (IH23 ltac:(by rewrite <- H12) s o' o' ltac:(done)) as [E2 P2].
    split; [congruence|by rewrite P1].
Qed.

(** Without repeated keys every element is judged in the initial state. *)
Lemma loop_out_initial l s o :
  NoDup (key <$> l) → (foldl loop_body (s, o) l).2 = o ++ concat (out s <$> l).
Proof using Hout.
  revert s o. induction l as [|a l IH]; intros s o Hnd; cbn [foldl fmap list_fmap concat]; [by rewrite app_nil_r|].
  rewrite fmap_cons, NoDup_cons in Hnd. destruct Hnd as [Hn Hnd]. unfold loop_body at 2. cbn [fst snd]. rewrite IH by done.
  rewrite <- app_assoc. f_equal. f_equal. f_equal. apply list_fmap_ext. intros i b Hi. apply Hout. intros E. apply Hn.
  rewrite E. apply list_elem_of_fmap_2. by eapply list_elem_of_lookup_2.
Qed.
End Commute.

Lemma foldl_same_body {A B} (f g : A → B → A) a l : (∀ x y, f x y = g x y) → foldl f a l = foldl g a l.
Proof. intros E. revert a. induction l as [|y l IH]; intros a; cbn; [done|]. by rewrite E. Qed.

Lemma loop_out_keys {S A B K} (key : A → K) (step : S → A → S) (out : S → A → list B) (key' : B → K) l s o :
  (∀ s a, (key' <$> out s a) = [] ∨ (key' <$> out s a) = [key a]) →
  (key' <$> (foldl (loop_body step out) (s, o) l).2) `sublist_of` ((key' <$> o) ++ (key <$> l)).
Proof.
  intros Hk. revert s o. induction l as [|a l IH]; intros s o; cbn [foldl]; [by rewrite app_nil_r|].
  etransitivity; [apply IH|]. cbn [loop_body fst snd]. rewrite fmap_app, fmap_cons, <- app_assoc.
  apply sublist_app; [done|]. destruct (Hk s a) as [-> | ->]; cbn; [by apply sublist_cons|done].
Qed.

Section Passes.
Context (options : IdleStallDetectorOptions).

(** *** The prepare loop *)

Definition prepare_step (mask now : Z) (f : Flows) (sample : IdleStallFlowSample) : Flows :=
  if eligible_sample sample mask && starts_over (fl_states f !! fs_key sample) sample then
    {| fl_states := <[fs_key sample := fresh_state sample now]> (fl_states f);
       fl_pending := delete (fs_key sample) (fl_pending f) |}
  else f.

Definition prepare_out (mask now : Z) (f : Flows) (sample : IdleStallFlowSample) : list PreparedSample :=
  if negb (eligible_sample sample mask) then []
  else if starts_over (fl_states f !! fs_key sample) sample then [baseline_sample sample]
  else option_list ((λ state, grown_sample options sample state now) <$> fl_states f !! fs_key sample).

Lemma prepare_body mask now acc sample :
  prepare_one options mask now acc sample = loop_body (prepare_step mask now) (prepare_out mask now) acc sample.
Proof.
  destruct acc as [f o]. unfold prepare_one, loop_body, prepare_step, prepare_out. cbn [fst snd].
  destruct (eligible_sample sample mask); cbn [negb andb]; [|by rewrite app_nil_r].
  by destruct (starts_over _ sample).
Qed.

Lemma prepare_lookup mask now f a key :
  fs_key a ≠ key → fl_states (prepare_step mask now f a) !! key = fl_states f !! key.
Proof. intros Hn. unfold prepare_step. destruct (_ && _); [|done]. cbn. by rewrite lookup_insert_ne. Qed.

Lemma prepare_comm mask now f a b :
  fs_key a ≠ fs_key b → prepare_step mask now (prepare_step mask now f a) b = prepare_step mask now (prepare_step mask now f b) a.
Proof.
  intros Hn. unfold prepare_step at 1 3. rewrite !prepare_lookup by done. unfold prepare_step.
  destruct (eligible_sample a mask && starts_over (fl_states f !! fs_key a) a),
    (eligible_sample b mask && starts_over (fl_states f !! fs_key b) b); cbn; try done.
  f_equal; [by apply insert_insert_ne|apply delete_delete].
Qed.

Lemma prepare_out_key mask now f a :
  ((λ p, fs_key (pr_sample p)) <$> prepare_out mask now f a) = [] ∨ ((λ p, fs_key (pr_sample p)) <$> prepare_out mask now f a) = [fs_key a].
Proof.
  unfold prepare_out. destruct (negb _); [by left|]. destruct (starts_over _ _); [by right|].
  destruct (fl_states f !! fs_key a); [by right|by left].
Qed.

(** *** The media pass *)

Lemma protect_comm now media a b :
  protect_media options now (protect_media options now media a) b = protect_media options now (protect_media options now media b) a.
Proof.
  unfold protect_media. destruct (is_media a), (is_media b); try done.
  destruct (decide (source_key (fs_key (pr_sample a)) = source_key (fs_key (pr_sample b)))) as [->|Hn].
  - done.
  - rewrite !lookup_insert_ne by done. by apply insert_insert_ne.
Qed.

(** *** The evaluation *)

Definition evaluate_step (scan : IdleStallScan) (now : Z) (media : gmap StallSource Z) (s : Flows * bool) (p : PreparedSample)
    : Flows * bool :=
  if pr_baseline p then s
  else match fl_states s.1 !! fs_key (pr_sample p) with
       | None => s
       | Some state =>
           let v := judge options scan now media state p in
           ({| fl_states := <[fs_key (pr_sample p) := judged_state now state p v]> (fl_states s.1);
               fl_pending := if vd_drop_attempt v then delete (fs_key (pr_sample p)) (fl_pending s.1) else fl_pending s.1 |},
            s.2 || vd_fast v)
       end.

Definition evaluate_out (scan : IdleStallScan) (now : Z) (media : gmap StallSource Z) (s : Flows * bool) (p : PreparedSample)
    : list (IdleStallFlowKey * IdleStallDecisionReason) :=
  if pr_baseline p then []
  else match fl_states s.1 !! fs_key (pr_sample p) with
       | None => []
       | Some state => option_list ((λ reason, (fs_key (pr_sample p), reason)) <$> vd_reason (judge options scan now media state p))
       end.

Lemma evaluate_body scan now media acc p :
  evaluate_one options scan now media acc p = loop_body (evaluate_step scan now media) (evaluate_out scan now media) acc p.
Proof.
  destruct acc as [[f fast] o]. unfold evaluate_one, loop_body, evaluate_step, evaluate_out. cbn [fst snd].
  destruct (pr_baseline p); [by rewrite app_nil_r|]. destruct (fl_states f !! fs_key (pr_sample p)); [done|by rewrite app_nil_r].
Qed.

Lemma evaluate_lookup scan now media s p key :
  fs_key (pr_sample p) ≠ key → fl_states (evaluate_step scan now media s p).1 !! key = fl_states s.1 !! key.
Proof.
  intros Hn. unfold evaluate_step. destruct (pr_baseline p); [done|].
  destruct (fl_states s.1 !! fs_key (pr_sample p)); [|done]. cbn. by rewrite lookup_insert_ne.
Qed.

Lemma evaluate_comm scan now media s a b :
  fs_key (pr_sample a) ≠ fs_key (pr_sample b) →
  evaluate_step scan now media (evaluate_step scan now media s a) b = evaluate_step scan now media (evaluate_step scan now media s b) a.
Proof.
  intros Hn. unfold evaluate_step at 1 3. rewrite !evaluate_lookup by done. unfold evaluate_step.
  destruct (pr_baseline a), (pr_baseline b); try done.
  destruct (fl_states s.1 !! fs_key (pr_sample a)) as [sa|], (fl_states s.1 !! fs_key (pr_sample b)) as [sb|]; try done.
  cbn. f_equal; [f_equal|].
  - by apply insert_insert_ne.
  - destruct (vd_drop_attempt _), (vd_drop_attempt _); [apply delete_delete|done..].
  - rewrite <- !orb_assoc. f_equal. apply orb_comm.
Qed.

Lemma evaluate_out_same scan now media s a b :
  fs_key (pr_sample a) ≠ fs_key (pr_sample b) →
  evaluate_out scan now media (evaluate_step scan now media s a) b = evaluate_out scan now media s b.
Proof. intros Hn. unfold evaluate_out. by rewrite evaluate_lookup. Qed.

Lemma evaluate_out_key scan now media s p :
  (evaluate_out scan now media s p).*1 = [] ∨ (evaluate_out scan now media s p).*1 = [fs_key (pr_sample p)].
Proof.
  unfold evaluate_out. destruct (pr_baseline p); [by left|]. destruct (fl_states s.1 !! _); [|by left].
  destruct (vd_reason _); [by right|by left].
Qed.

(** ** The order of the snapshot does not matter *)

Lemma observe_flows_permutation scan scan' now d :
  sn_flows scan ≡ₚ sn_flows scan' → NoDup (fs_key <$> sn_flows scan) →
  sn_epoch scan = sn_epoch scan' → sn_owned_mark_mask scan = sn_owned_mark_mask scan' →
  sn_preventive_mark scan = sn_preventive_mark scan' →
  observe_flows options scan now d = observe_flows options scan' now d.
Proof.
  intros Hp Hnd Ee Em Epm. unfold observe_flows. rewrite <- Em.
  rewrite !(foldl_same_body _ _ _ _ (prepare_body (sn_owned_mark_mask scan) now)).
  set (s0 := {| fl_states := de_states d; fl_pending := de_pending d |}).
  destruct (loop_permutation fs_key (prepare_step (sn_owned_mark_mask scan) now) (prepare_out (sn_owned_mark_mask scan) now)
    (prepare_comm _ now) ltac:(intros s a b Hab; unfold prepare_out; by rewrite prepare_lookup)
    _ _ Hp Hnd s0 [] [] ltac:(done)) as [E1 P1].
  pose proof (loop_out_keys fs_key (prepare_step (sn_owned_mark_mask scan) now) (prepare_out (sn_owned_mark_mask scan) now)
    (λ p, fs_key (pr_sample p)) (sn_flows scan) s0 [] (prepare_out_key (sn_owned_mark_mask scan) now)) as Hsub.
  destruct (foldl _ (s0, []) (sn_flows scan)) as [f prepared], (foldl _ (s0, []) (sn_flows scan')) as [f' prepared'].
  cbn [fst snd] in *. subst f'. rewrite app_nil_l in Hsub.
  assert (NoDup ((λ p, fs_key (pr_sample p)) <$> prepared)) as Hnd' by by eapply sublist_NoDup.
  assert (observed_keys scan = observed_keys scan') as <-.
  { unfold observed_keys. rewrite <- Em. apply list_to_set_perm_L, fmap_Permutation. clear -Hp.
    induction Hp; cbn; repeat case_match; try done; [by constructor|by constructor|by etransitivity]. }
  assert (foldl (protect_media options now) (de_media_until d) prepared = foldl (protect_media options now) (de_media_until d) prepared') as <-.
  { clear -P1. generalize (de_media_until d) as media. induction P1 as [|x l l' _ IH|x y l|? ? ? _ IH1 _ IH2]; intros media; cbn [foldl].
    - done. - apply IH. - by rewrite protect_comm. - by rewrite IH1. }
  set (media := foldl (protect_media options now) (de_media_until d) prepared).
  assert (∀ acc p, evaluate_one options scan' now media acc p = evaluate_one options scan now media acc p) as Es.
  { intros acc p. unfold evaluate_one, judge, tcp_reset_applies. by rewrite Epm. }
  rewrite (foldl_same_body _ _ _ prepared' Es), !(foldl_same_body _ _ _ _ (evaluate_body scan now media)).
  set (s1 := (forget_unobserved (observed_keys scan) f, de_fast_followup d)).
  destruct (loop_permutation (λ p, fs_key (pr_sample p)) _ _ (evaluate_comm scan now media)
    (evaluate_out_same scan now media) _ _ P1 Hnd' s1 [] [] ltac:(done)) as [E2 P2].
  pose proof (loop_out_keys (λ p, fs_key (pr_sample p)) (evaluate_step scan now media) (evaluate_out scan now media) fst prepared s1 [] (evaluate_out_key scan now media)) as Hsub2.
  destruct (foldl _ (s1, []) prepared) as [[g fast] candidates], (foldl _ (s1, []) prepared') as [[g' fast'] candidates'].
  cbn [fst snd] in *. injection E2 as <- <-. rewrite app_nil_l in Hsub2.
  rewrite (candidates_sorted_unique (fl_states g) _ _ P2) by (by eapply sublist_NoDup).
  assert (∀ cooldown limit fail_closed s c, decide_one scan' now cooldown limit fail_closed s c = decide_one scan now cooldown limit fail_closed s c) as Ed.
  { intros. unfold decide_one. by rewrite Ee. }
  rewrite (foldl_same_body _ _ _ (stable_sort (candidate_ltb (fl_states g)) candidates') (Ed _ _ _)). done.
Qed.

(** *** Where candidates come from *)

Lemma prepare_untouched mask now l f o k :
  (∀ a, a ∈ l → fs_key a = k → starts_over (fl_states f !! k) a = false) →
  fl_states (foldl (loop_body (prepare_step mask now) (prepare_out mask now)) (f, o) l).1 !! k = fl_states f !! k.
Proof.
  revert f o. induction l as [|a l IH]; intros f o Hall; cbn [foldl]; [done|]. unfold loop_body at 2. cbn [fst snd].
  assert (fl_states (prepare_step mask now f a) !! k = fl_states f !! k) as E.
  { destruct (decide (fs_key a = k)) as [Ek|Ek]; [|by apply prepare_lookup]. unfold prepare_step.
    rewrite Ek, (Hall a ltac:(by left) Ek), andb_false_r. done. }
  rewrite IH, E; [done|]. intros b Hb Ek. rewrite E. apply Hall; [by right|done].
Qed.

Lemma protect_grows now l media source until :
  media !! source = Some until → ∃ until', foldl (protect_media options now) media l !! source = Some until' ∧ until ≤ until'.
Proof.
  revert media until. induction l as [|p l IH]; intros media until E; cbn [foldl]; [by exists until|].
  destruct (decide (is_media p = true ∧ source_key (fs_key (pr_sample p)) = source)) as [[Hm Es]|Hn].
  - destruct (IH (protect_media options now media p) (Z.max until (now + op_active_media_hold options))) as (u & Hu & Hle).
    { unfold protect_media. rewrite Hm, Es, lookup_insert_eq, E. done. }
    exists u. split; [done|lia].
  - apply IH. unfold protect_media. destruct (is_media p); [|done]. rewrite lookup_insert_ne; [done|]. intros ?. by apply Hn.
Qed.

(** The source of a media flow is protected. *)
Lemma protect_all now l media p :
  p ∈ l → is_media p = true →
  ∃ until, foldl (protect_media options now) media l !! source_key (fs_key (pr_sample p)) = Some until
    ∧ now + op_active_media_hold options ≤ until.
Proof.
  intros Hin Hm. revert media. induction Hin as [p l|p q l _ IH]; intros media; cbn [foldl]; [|by apply IH].
  destruct (protect_grows now l (protect_media options now media p) (source_key (fs_key (pr_sample p)))
    (Z.max (default 0 (media !! source_key (fs_key (pr_sample p)))) (now + op_active_media_hold options))) as (u & Hu & Hle).
  { unfold protect_media. by rewrite Hm, lookup_insert_eq. }
  exists u. split; [done|lia].
Qed.

(** How a sample is prepared, from the state before the scan. *)
Definition prepared_as (now : Z) (states : gmap IdleStallFlowKey FlowState) (sample : IdleStallFlowSample) : PreparedSample :=
  match states !! fs_key sample with
  | Some state => if starts_over (Some state) sample then baseline_sample sample else grown_sample options sample state now
  | None => baseline_sample sample
  end.

Lemma elem_of_prepared mask now l f p :
  NoDup (fs_key <$> l) →
  p ∈ (foldl (loop_body (prepare_step mask now) (prepare_out mask now)) (f, []) l).2 ↔
  ∃ sample, sample ∈ l ∧ eligible_sample sample mask = true ∧ p = prepared_as now (fl_states f) sample.
Proof.
  intros Hnd. rewrite (loop_out_initial fs_key (prepare_step mask now) (prepare_out mask now)); [|intros s a b Hab; unfold prepare_out; by rewrite prepare_lookup|done].
  rewrite app_nil_l, list_elem_of_In, in_concat. setoid_rewrite <- list_elem_of_In. setoid_rewrite list_elem_of_fmap.
  assert (∀ a, prepare_out mask now f a = if eligible_sample a mask then [prepared_as now (fl_states f) a] else []) as Ho.
  { intros a. unfold prepare_out, prepared_as. destruct (eligible_sample a mask); cbn [negb]; [|done].
    destruct (fl_states f !! fs_key a) as [state|]; [|done]. by destruct (starts_over (Some state) a). }
  split.
  - intros (x & (a & -> & Ha) & Hp). rewrite Ho in Hp. destruct (eligible_sample a mask) eqn:E; [|by apply elem_of_nil in Hp].
    apply list_elem_of_singleton in Hp as ->. by exists a.
  - intros (a & Ha & He & ->). exists (prepare_out mask now f a). split; [by exists a|]. rewrite Ho, He. by apply list_elem_of_singleton.
Qed.
End Passes.

Section Claims.
Context (options : IdleStallDetectorOptions).

(** ** Order independence *)

Lemma keys_distinct_spec seen flows :
  keys_distinct seen flows = true ↔
  Forall (λ s, valid_key (fs_key s) = true) flows ∧ NoDup (fs_key <$> flows) ∧ Forall (λ s, fs_key s ∉ seen) flows.
Proof.
  revert seen. induction flows as [|s flows IH]; intros seen; cbn [keys_distinct].
  { split; [|done]. intros _. split_and!; constructor. }
  rewrite fmap_cons, NoDup_cons, !Forall_cons. destruct (valid_key (fs_key s)); cbn [negb orb]; [|naive_solver].
  destruct (decide (fs_key s ∈ seen)) as [Hin|Hin]; [rewrite (bool_decide_eq_true_2 _ Hin)|rewrite (bool_decide_eq_false_2 _ Hin)]; [naive_solver|].
  rewrite IH. rewrite !Forall_forall. setoid_rewrite list_elem_of_fmap. set_solver.
Qed.

(** ** Limits *)

(** The invariant of the limits at a time, with the commits so far. *)
Record limits_ok (d : Detector) (commits : list (StallSource * Z)) (now : Z) : Prop := {
  li_times : ∃ dropped, commits.*2 = dropped ++ de_decision_times d
    ∧ Forall (λ t, op_global_rate_window options ≤ now - t) dropped;
  li_past : Forall (λ e, e.2 ≤ now) commits;
  li_capacity : (length (de_decision_times d) + size (de_pending d) ≤ op_max_decisions_per_rate_window options)%nat;
  li_single : ∀ k k', is_Some (de_pending d !! k) → is_Some (de_pending d !! k') → source_key k = source_key k' → k = k';
  li_cooldown : ∀ s t, (s, t) ∈ commits → t + op_source_cooldown options ≤ now
    ∨ ∃ until, de_cooldown_until d !! s = Some until ∧ t + op_source_cooldown options ≤ until;
  li_pending : ∀ k s t, is_Some (de_pending d !! k) → (s, t) ∈ commits → s = source_key k → t + op_source_cooldown options ≤ now;
}.

(** *** Deciding *)

(** The attempts only shrink before the decisions. *)
Lemma prepare_pending mask now l f o :
  fl_pending (foldl (loop_body (prepare_step mask now) (prepare_out options mask now)) (f, o) l).1 ⊆ fl_pending f.
Proof.
  revert f o. induction l as [|a l IH]; intros f o; cbn [foldl]; [done|]. etransitivity; [apply IH|].
  cbn [loop_body fst]. unfold prepare_step. destruct (_ && _); [|done]. cbn. apply delete_subseteq.
Qed.

Lemma evaluate_pending scan now media l s o :
  fl_pending (foldl (loop_body (evaluate_step options scan now media) (evaluate_out options scan now media)) (s, o) l).1.1
  ⊆ fl_pending s.1.
Proof.
  revert s o. induction l as [|a l IH]; intros s o; cbn [foldl]; [done|]. etransitivity; [apply IH|].
  cbn [loop_body fst]. unfold evaluate_step. destruct (pr_baseline a); [done|].
  destruct (fl_states s.1 !! _); [|done]. cbn. destruct (vd_drop_attempt _); [apply delete_subseteq|done].
Qed.

(** What the decision loop keeps. *)
Record deciding_ok (now : Z) (cooldown : gmap StallSource Z) (limit : nat)
    (pending : gmap IdleStallFlowKey PendingAttempt) (s : Deciding) : Prop := {
  do_size : size (fl_pending (dc_flows s)) = (size pending + length (dc_decisions s))%nat;
  do_limit : (length (dc_decisions s) ≤ limit)%nat;
  do_single : ∀ k k', is_Some (fl_pending (dc_flows s) !! k) → is_Some (fl_pending (dc_flows s) !! k') →
    source_key k = source_key k' → k = k';
  do_new : ∀ k, is_Some (fl_pending (dc_flows s) !! k) →
    is_Some (pending !! k) ∨ in_cooldown now cooldown (source_key k) = false;
}.

Lemma source_pending_false pending source :
  source_pending pending source = false ↔ ∀ k, is_Some (pending !! k) → source_key k ≠ source.
Proof.
  unfold source_pending. rewrite bool_decide_eq_false. setoid_rewrite list_elem_of_fmap. setoid_rewrite list_elem_of_fmap. split.
  - intros Hn k [p Hp] E. apply Hn. exists k. split; [done|]. exists (k, p). split; [done|]. by apply elem_of_map_to_list.
  - intros Hall (k & -> & ([k' p] & -> & Hin%elem_of_map_to_list)). cbn in *. by apply (Hall k'); [eexists|].
Qed.

Lemma decide_one_ok scan now cooldown limit fail_closed pending s c :
  deciding_ok now cooldown limit pending s → deciding_ok now cooldown limit pending (decide_one scan now cooldown limit fail_closed s c).
Proof.
  intros Hok. destruct c as [key reason]. unfold decide_one. cbv zeta.
  destruct (in_cooldown now cooldown (source_key key)) eqn:Ec; [by destruct Hok; split|].
  destruct (source_pending (fl_pending (dc_flows s)) (source_key key)) eqn:Ep; [done|].
  destruct (Nat.leb_spec limit (length (dc_decisions s))); [by destruct fail_closed; destruct Hok; split|].
  rewrite source_pending_false in Ep. destruct Hok as [Hs Hl H1 Hn].
  assert (fl_pending (dc_flows s) !! key = None) as Enone.
  { apply eq_None_not_Some. intros Hk. by apply (Ep key Hk). }
  split; cbn [dc_flows fl_pending dc_decisions].
  - rewrite map_size_insert_None by done. rewrite length_app. cbn. lia.
  - rewrite length_app. cbn. lia.
  - intros k k'. rewrite !lookup_insert_is_Some. intros [->|[_ Hk]] [->|[_ Hk']] E; [done| | |by apply H1].
    + by destruct (Ep k' Hk').
    + by destruct (Ep k Hk).
  - intros k. rewrite lookup_insert_is_Some. intros [->|[_ Hk]]; [by right|by apply Hn].
Qed.

Lemma decide_all_ok scan now cooldown limit fail_closed pending s l :
  deciding_ok now cooldown limit pending s →
  deciding_ok now cooldown limit pending (foldl (decide_one scan now cooldown limit fail_closed) s l).
Proof. revert s. induction l as [|c l IH]; intros s Hok; cbn; [done|]. by apply IH, decide_one_ok. Qed.

(** The shape of a scan that is used. *)
Lemma observe_flows_shape scan now d :
  ∃ f fast media candidates, fl_pending f ⊆ de_pending d
    ∧ let limit := decision_limit options (de_decision_times d) (fl_pending f) in
      let fail_closed := (op_max_decisions_per_rate_window options <=? length (de_decision_times d))%nat in
      let s := foldl (decide_one scan now (de_cooldown_until d) limit fail_closed)
                 {| dc_flows := f; dc_next := de_next_attempt_id d; dc_decisions := [] |} candidates in
      observe_flows options scan now d =
      ({| de_active_epoch := de_active_epoch d; de_active_mark := de_active_mark d;
          de_states := fl_states (dc_flows s); de_media_until := media; de_pending := fl_pending (dc_flows s);
          de_cooldown_until := de_cooldown_until d; de_decision_times := de_decision_times d;
          de_next_attempt_id := dc_next s; de_fast_followup := fast |}, dc_decisions s).
Proof.
  unfold observe_flows. rewrite (foldl_same_body _ _ _ _ (prepare_body options (sn_owned_mark_mask scan) now)).
  set (s0 := {| fl_states := de_states d; fl_pending := de_pending d |}).
  pose proof (prepare_pending (sn_owned_mark_mask scan) now (sn_flows scan) s0 []) as H1.
  destruct (foldl _ (s0, []) (sn_flows scan)) as [f prepared]. cbn [fst] in H1.
  set (media := foldl (protect_media options now) (de_media_until d) prepared).
  rewrite (foldl_same_body _ _ _ _ (evaluate_body options scan now media)).
  set (s1 := (forget_unobserved (observed_keys scan) f, de_fast_followup d)).
  pose proof (evaluate_pending scan now media prepared s1 []) as H2.
  destruct (foldl _ (s1, []) prepared) as [[g fast] candidates]. cbn [fst] in H2.
  exists g, fast, media, (stable_sort (candidate_ltb (fl_states g)) candidates). split; [|done].
  etransitivity; [exact H2|]. cbn. etransitivity; [apply map_filter_subseteq|exact H1].
Qed.

(** *** Time passes *)

Lemma prune_times_split now times :
  ∃ removed, times = removed ++ prune_times options now times
    ∧ Forall (λ t, op_global_rate_window options ≤ now - t) removed.
Proof.
  induction times as [|t times IH]; cbn; [by exists []|]. destruct (Z.leb_spec (op_global_rate_window options) (now - t)).
  - destruct IH as (removed & E & Hr). exists (t :: removed). split; [by rewrite E at 1|by constructor].
  - by exists [].
Qed.

Lemma prune_ok d commits now0 now :
  limits_ok d commits now0 → now0 ≤ now → limits_ok (prune_limits options now d) commits now.
Proof.
  intros [(dropped & E & Hd) Hp Hc Hs Hcd Hpe] Hle.
  destruct (prune_times_split now (de_decision_times d)) as (removed & Er & Hr).
  split; cbn [prune_limits de_decision_times de_pending de_cooldown_until].
  - exists (dropped ++ removed). split; [by rewrite E, Er at 1; rewrite app_assoc|]. apply Forall_app. split; [|done].
    eapply Forall_impl; [exact Hd|]. cbn. lia.
  - eapply Forall_impl; [exact Hp|]. cbn. lia.
  - assert (length (de_decision_times d) = length removed + length (prune_times options now (de_decision_times d)))%nat as El
      by (rewrite Er at 1; apply length_app). lia.
  - done.
  - intros s t Hin. destruct (Hcd s t Hin) as [?|(until & Hu & Ht)]; [left; lia|].
    destruct (decide (now < until)) as [Hn|Hn]; [|left; lia]. right. exists until. split; [|done].
    apply map_lookup_filter_Some. done.
  - intros k s t Hk Hin Es. specialize (Hpe k s t Hk Hin Es). lia.
Qed.

Lemma limits_later d commits now0 now : limits_ok d commits now0 → now0 ≤ now → limits_ok d commits now.
Proof.
  intros [(dropped & E & Hd) Hp Hc Hs Hcd Hpe] Hle. split; try done.
  - exists dropped. split; [done|]. eapply Forall_impl; [exact Hd|]. cbn. lia.
  - eapply Forall_impl; [exact Hp|]. cbn. lia.
  - intros s t Hin. destruct (Hcd s t Hin) as [?|?]; [left; lia|by right].
  - intros k s t Hk Hin Es. specialize (Hpe k s t Hk Hin Es). lia.
Qed.

(** Dropping attempts. *)
Lemma limits_shrink d d' commits now :
  limits_ok d commits now → de_decision_times d' = de_decision_times d → de_cooldown_until d' = de_cooldown_until d →
  de_pending d' ⊆ de_pending d → limits_ok d' commits now.
Proof.
  intros [Ht Hp Hc Hs Hcd Hpe] Et Ec Hsub.
  assert (∀ k, is_Some (de_pending d' !! k) → is_Some (de_pending d !! k)) as Hk.
  { intros k [p Hk]. exists p. by eapply lookup_weaken. }
  split; rewrite ?Et, ?Ec; try done.
  - pose proof (map_subseteq_size _ _ Hsub). lia.
  - intros k k' H1 H2. apply Hs; by apply Hk.
  - intros k s t H1. by apply Hpe, Hk.
Qed.

Lemma observe_flows_limits scan now d commits :
  limits_ok d commits now → limits_ok (observe_flows options scan now d).1 commits now.
Proof.
  intros Hok. destruct (observe_flows_shape scan now d) as (f & fast & media & candidates & Hsub & Hshape). cbv zeta in Hshape. rewrite Hshape. cbn [fst]. clear Hshape.
  set (limit := decision_limit options (de_decision_times d) (fl_pending f)).
  set (s0 := {| dc_flows := f; dc_next := de_next_attempt_id d; dc_decisions := [] |}).
  pose proof (limits_shrink d (set_pending (fl_pending f) d) commits now Hok eq_refl eq_refl Hsub) as [Ht Hp Hc Hs Hcd Hpe].
  cbn [set_pending de_pending de_decision_times de_cooldown_until] in *.
  assert (deciding_ok now (de_cooldown_until d) limit (fl_pending f) s0) as H0.
  { split; cbn; [lia|lia|exact Hs|by intros k ?; left]. }
  destruct (decide_all_ok scan now (de_cooldown_until d) limit (op_max_decisions_per_rate_window options <=? length (de_decision_times d))%nat
    (fl_pending f) s0 candidates H0) as [Hsize Hlim Hsingle Hnew].
  set (s := foldl _ s0 candidates) in *. split; cbn [de_decision_times de_pending de_cooldown_until]; try done.
  - rewrite Hsize. unfold limit, decision_limit in Hlim. lia.
  - intros k src t Hk Hin ->. destruct (Hnew k Hk) as [Hold|Hcool]; [by apply (Hpe k (source_key k) t)|].
    destruct (Hcd _ _ Hin) as [?|(until & Hu & Hle)]; [done|]. unfold in_cooldown in Hcool. rewrite Hu in Hcool.
    apply Z.ltb_ge in Hcool. lia.
Qed.

Lemma observe_limits scan now0 now d commits :
  limits_ok d commits now0 → now0 ≤ now → limits_ok (observe options scan now d).1 commits now.
Proof.
  intros Hok Hle. unfold observe. set (d1 := prune_limits options now (set_fast false d)).
  assert (limits_ok d1 commits now) as H1.
  { unfold d1. eapply prune_ok; [|exact Hle]. eapply (limits_shrink d); done. }
  assert (∀ d', limits_ok d' commits now → ∀ e mk, limits_ok (set_observed e mk (reset_observation_continuity d')) commits now) as Hreset.
  { intros d' Hd' e mk. eapply (limits_shrink d'); [done..|]. cbn. apply map_empty_subseteq. }
  destruct (scan_rejected options scan).
  - cbn [fst]. unfold reject_scan. destruct (epoch_valid _); by apply Hreset.
  - assert (limits_ok (enter_scan scan d1) commits now) as H2.
    { unfold enter_scan. destruct (negb _); [by apply Hreset|]. destruct (negb _); [by apply Hreset|done]. }
    destruct (negb (keys_distinct ∅ (sn_flows scan))); [by apply Hreset|]. by apply observe_flows_limits.
Qed.

(** *** Commits *)

Definition with_commit (decision : IdleStallDeleteDecision) (ok : bool) (r : bool) (now : Z) (commits : list (StallSource * Z))
    : list (StallSource * Z) :=
  if r && ok then commits ++ [(source_key (dd_flow decision), now)] else commits.

(** A commit that still counts at a time. *)
Definition recent (now : Z) (e : StallSource * Z) : bool := now - e.2 <? op_global_rate_window options.

(** A commit is admissible: the window and the cooldown of the source are respected. *)
Definition admissible (commits : list (StallSource * Z)) (source : StallSource) (now : Z) : Prop :=
  (length (List.filter (recent now) commits) < op_max_decisions_per_rate_window options)%nat
  ∧ ∀ t, (source, t) ∈ commits → t + op_source_cooldown options ≤ now.

Lemma recent_bound commits dropped times now :
  commits.*2 = dropped ++ times → Forall (λ t, op_global_rate_window options ≤ now - t) dropped →
  (length (List.filter (recent now) commits) ≤ length times)%nat.
Proof.
  intros E Hd. assert (length (List.filter (recent now) commits)
    = length (List.filter (λ t, (now - t <? op_global_rate_window options)%Z) commits.*2)) as ->.
  { clear. induction commits as [|[s t] l IH]; cbn; [done|]. unfold recent at 1. cbn. destruct (_ <? _); cbn; by rewrite IH. }
  rewrite E, List.filter_app, length_app.
  assert (List.filter (λ t, (now - t <? op_global_rate_window options)%Z) dropped = []) as ->.
  { clear -Hd. induction Hd as [|t l Ht _ IH]; cbn; [done|]. destruct (Z.ltb_spec (now - t) (op_global_rate_window options)); [lia|done]. }
  cbn. apply List.filter_length_le.
Qed.

Lemma acknowledge_limits decision ok now0 now d commits :
  limits_ok d commits now0 → now0 ≤ now →
  let '(d', r) := acknowledge_delete_result options decision ok now d in
  limits_ok d' (with_commit decision ok r now commits) now
  ∧ (r && ok = true → admissible commits (source_key (dd_flow decision)) now).
Proof.
  intros Hok0 Hle. pose proof (limits_later _ _ _ _ Hok0 Hle) as Hok.
  unfold acknowledge_delete_result, with_commit.
  destruct (negb _ || _); [done|]. destruct (de_pending d !! dd_flow decision) as [p|] eqn:Ep; [|done].
  destruct (negb (attempt_matches decision p)); [done|].
  assert (limits_ok (set_pending (delete (dd_flow decision) (de_pending d)) d) commits now) as Hdel.
  { eapply (limits_shrink d); [done..|]. apply delete_subseteq. }
  destruct ok; cbn [negb andb]; [|done]. set (source := source_key (dd_flow decision)).
  assert (∀ t, (source, t) ∈ commits → t + op_source_cooldown options ≤ now) as Hsrc.
  { intros t Hin. by eapply (li_pending _ _ _ Hok (dd_flow decision) source t); [eexists|..]. }
  assert (size (delete (dd_flow decision) (de_pending d)) + 1 = size (de_pending d))%nat as Esize.
  { rewrite map_size_delete_Some by (by eexists). assert (size (de_pending d) ≠ 0)%nat; [|lia].
    apply map_size_ne_0_lookup. by exists (dd_flow decision). }
  pose proof (prune_ok _ _ _ now Hdel ltac:(lia)) as [(dropped & E & Hd) Hp Hc Hs Hcd Hpe].
  pose proof (li_capacity _ _ _ Hok) as Hcap.
  assert (length (prune_times options now (de_decision_times d)) ≤ length (de_decision_times d))%nat as Hlen.
  { destruct (prune_times_split now (de_decision_times d)) as (removed & Er & _). rewrite Er at 2. rewrite length_app. lia. }
  cbn [prune_limits set_pending de_decision_times de_pending de_cooldown_until] in *. split.
  - split; cbn [commit_delete prune_limits set_pending de_decision_times de_pending de_cooldown_until].
    + exists dropped. split; [|done]. by rewrite fmap_app, E, app_assoc.
    + apply Forall_app. split; [done|]. constructor; [cbn; lia|constructor].
    + rewrite length_app. cbn [length]. lia.
    + done.
    + intros s t. rewrite elem_of_app, list_elem_of_singleton. intros [Hin|[= -> ->]].
      * destruct (Hcd s t Hin) as [?|(until & Hu & Ht)]; [by left|]. right.
        destruct (decide (s = source)) as [->|Hn].
        -- rewrite lookup_insert_eq. eexists. split; [done|]. rewrite Hu. cbn. lia.
        -- rewrite lookup_insert_ne by done. by exists until.
      * right. rewrite lookup_insert_eq. eexists. split; [done|]. lia.
    + intros k s t [q Hk]. apply lookup_delete_Some in Hk as [Hne Hk]. rewrite elem_of_app, list_elem_of_singleton.
      intros [Hin|[= -> ->]] Es; [by apply (li_pending _ _ _ Hok k s t); [eexists|..]|].
      destruct Hne. by eapply (li_single _ _ _ Hok); [eexists..|].
  - intros _. split; [|exact Hsrc]. pose proof (recent_bound _ _ _ _ E Hd). lia.
Qed.

(** ** Where decisions come from *)

Record decisions_ok (scan : IdleStallScan) (now : Z) (cooldown : gmap StallSource Z) (limit : nat)
    (candidates : list (IdleStallFlowKey * IdleStallDecisionReason)) (s : Deciding) : Prop := {
  dn_from dec : dec ∈ dc_decisions s →
    (dd_flow dec, dd_reason dec) ∈ candidates ∧ dd_epoch dec = sn_epoch scan ∧ dd_attempt_id dec ≠ 0
    ∧ in_cooldown now cooldown (source_key (dd_flow dec)) = false;
  dn_pending dec : dec ∈ dc_decisions s → is_Some (fl_pending (dc_flows s) !! dd_flow dec);
  dn_sources : NoDup ((λ dec, source_key (dd_flow dec)) <$> dc_decisions s);
  dn_limit : (length (dc_decisions s) ≤ limit)%nat;
}.

Lemma allocate_nonzero next : allocate_attempt_id next ≠ 0.
Proof. unfold allocate_attempt_id. cbv zeta. by destruct (Z.eqb_spec (u64 (next + 1)) 0) as [->|]. Qed.

Lemma decide_one_from scan now cooldown limit fail_closed candidates s c :
  c ∈ candidates → decisions_ok scan now cooldown limit candidates s →
  decisions_ok scan now cooldown limit candidates (decide_one scan now cooldown limit fail_closed s c).
Proof.
  intros Hc Hok. destruct c as [key reason]. unfold decide_one. cbv zeta.
  destruct (in_cooldown now cooldown (source_key key)) eqn:Ec; [by destruct Hok; split|].
  destruct (source_pending (fl_pending (dc_flows s)) (source_key key)) eqn:Ep; [done|].
  destruct (Nat.leb_spec limit (length (dc_decisions s))); [by destruct fail_closed; destruct Hok; split|].
  rewrite source_pending_false in Ep. destruct Hok as [Hf Hp Hs Hl].
  split; cbn [dc_flows fl_pending dc_decisions].
  - intros dec. rewrite elem_of_app, list_elem_of_singleton. intros [Hin| ->]; [by apply Hf|]. cbn.
    split_and!; [done..|apply allocate_nonzero|done].
  - intros dec. rewrite elem_of_app, list_elem_of_singleton, lookup_insert_is_Some. intros [Hin| ->]; [|by left].
    destruct (decide (key = dd_flow dec)); [by left|right; split; [done|by apply Hp]].
  - rewrite fmap_app, NoDup_app. split_and!; [done| |apply NoDup_singleton].
    intros x (dec & -> & Hin)%list_elem_of_fmap. cbn. rewrite list_elem_of_singleton. apply Ep. by apply Hp.
  - rewrite length_app. cbn. lia.
Qed.

Lemma decide_all_from scan now cooldown limit fail_closed candidates l s :
  l ⊆ candidates → decisions_ok scan now cooldown limit candidates s →
  decisions_ok scan now cooldown limit candidates (foldl (decide_one scan now cooldown limit fail_closed) s l).
Proof.
  revert s. induction l as [|c l IH]; intros s Hsub Hok; cbn [foldl]; [done|]. apply IH; [set_solver|].
  apply decide_one_from; [set_solver|done].
Qed.

(** Why a flow is a candidate. *)
Definition candidate_reason (scan : IdleStallScan) (now : Z) (sample : IdleStallFlowSample) (state : FlowState)
    (reason : IdleStallDecisionReason) : Prop :=
  match reason with
  | IdleRequestWithoutReply => ∃ since, st_suspect_since state = Some since
      ∧ confirmation_delay_for options (st_recovery_policy state) ≤ now - since
  | IdleTcpResetRotation => st_suspect_since state = None
      ∧ tcp_reset_applies options scan state (grown_sample options sample state now) = true
  | IdleFastnatRotation => st_suspect_since state = None
      ∧ fastnat_applies options now state (grown_sample options sample state now) = true
  end.

(** A flow of the scan that continues an observed one. *)
Definition continues (scan : IdleStallScan) (states : gmap IdleStallFlowKey FlowState) (sample : IdleStallFlowSample) (state : FlowState) : Prop :=
  sample ∈ sn_flows scan ∧ eligible_sample sample (sn_owned_mark_mask scan) = true
  ∧ states !! fs_key sample = Some state ∧ starts_over (Some state) sample = false.

Record justified (scan : IdleStallScan) (now : Z) (d : Detector) (key : IdleStallFlowKey) (reason : IdleStallDecisionReason) : Prop := {
  ju_flow : ∃ sample state, continues scan (de_states d) sample state ∧ fs_key sample = key
    ∧ pr_reply_progress (grown_sample options sample state now) = false
    ∧ candidate_reason scan now sample state reason;
  ju_calm : ∀ other state, continues scan (de_states d) other state → source_key (fs_key other) = source_key key →
    is_media (grown_sample options other state now) = false;
}.

Lemma judge_reason scan now media sample state reason :
  vd_reason (judge options scan now media state (grown_sample options sample state now)) = Some reason →
  media_protected now media (source_key (fs_key sample)) = false
  ∧ pr_reply_progress (grown_sample options sample state now) = false
  ∧ candidate_reason scan now sample state reason.
Proof.
  unfold judge. cbn [pr_sample grown_sample]. destruct (_ || _) eqn:E; [done|]. apply orb_false_iff in E as [Em Er].
  intros H. split; [done|]. split; [done|]. destruct (st_suspect_since state) as [since|] eqn:Es.
  - cbn [vd_reason] in H. destruct (Z.leb_spec (confirmation_delay_for options (st_recovery_policy state)) (now - since)); [|done].
    injection H as <-. by exists since.
  - destruct (_ && _); [done|]. destruct (tcp_reset_applies _ _ _ _) eqn:Et; [by injection H as <-|].
    destruct (fastnat_applies _ _ _ _) eqn:Ef; [by injection H as <-|done].
Qed.

Lemma prepared_continues now states sample :
  pr_baseline (prepared_as options now states sample) = false →
  ∃ state, states !! fs_key sample = Some state ∧ starts_over (Some state) sample = false
    ∧ prepared_as options now states sample = grown_sample options sample state now.
Proof.
  unfold prepared_as. destruct (states !! fs_key sample) as [state|]; [|done].
  destruct (starts_over (Some state) sample) eqn:E; [done|]. intros _. by exists state.
Qed.

Lemma observe_flows_decisions scan now d :
  0 < op_active_media_hold options → NoDup (fs_key <$> sn_flows scan) →
  let decisions := (observe_flows options scan now d).2 in
  (length decisions ≤ op_max_decisions_per_scan options)%nat
  ∧ NoDup ((λ dec, source_key (dd_flow dec)) <$> decisions)
  ∧ ∀ dec, dec ∈ decisions → dd_epoch dec = sn_epoch scan ∧ dd_attempt_id dec ≠ 0
      ∧ in_cooldown now (de_cooldown_until d) (source_key (dd_flow dec)) = false
      ∧ justified scan now d (dd_flow dec) (dd_reason dec).
Proof.
  intros Hhold Hnd. unfold observe_flows. rewrite (foldl_same_body _ _ _ _ (prepare_body options (sn_owned_mark_mask scan) now)).
  set (s0 := {| fl_states := de_states d; fl_pending := de_pending d |}).
  pose proof (λ p, elem_of_prepared options (sn_owned_mark_mask scan) now (sn_flows scan) s0 p Hnd) as Hprep.
  pose proof (λ k H, prepare_untouched options (sn_owned_mark_mask scan) now (sn_flows scan) s0 [] k H) as Hunt.
  pose proof (loop_out_keys fs_key (prepare_step (sn_owned_mark_mask scan) now) (prepare_out options (sn_owned_mark_mask scan) now)
    (λ p, fs_key (pr_sample p)) (sn_flows scan) s0 [] (prepare_out_key options (sn_owned_mark_mask scan) now)) as Hsub.
  destruct (foldl _ (s0, []) (sn_flows scan)) as [f prepared]. cbn [fst snd] in *. rewrite app_nil_l in Hsub.
  assert (NoDup ((λ p, fs_key (pr_sample p)) <$> prepared)) as Hnd' by by eapply sublist_NoDup.
  set (media := foldl (protect_media options now) (de_media_until d) prepared).
  rewrite (foldl_same_body _ _ _ _ (evaluate_body options scan now media)).
  set (s1 := (forget_unobserved (observed_keys scan) f, de_fast_followup d)).
  pose proof (loop_out_initial (λ p, fs_key (pr_sample p)) (evaluate_step options scan now media) (evaluate_out options scan now media)
    (evaluate_out_same options scan now media) prepared s1 [] Hnd') as Hcand.
  destruct (foldl _ (s1, []) prepared) as [[g fast] candidates]. cbn [fst snd] in *. rewrite app_nil_l in Hcand.
  set (limit := decision_limit options (de_decision_times d) (fl_pending g)).
  set (s2 := {| dc_flows := g; dc_next := de_next_attempt_id d; dc_decisions := [] |}).
  assert (decisions_ok scan now (de_cooldown_until d) limit candidates s2) as H0.
  { split; cbn; [by intros dec ?%elem_of_nil|by intros dec ?%elem_of_nil|apply NoDup_nil_2|lia]. }
  destruct (decide_all_from scan now (de_cooldown_until d) limit (op_max_decisions_per_rate_window options <=? length (de_decision_times d))%nat
    candidates (stable_sort (candidate_ltb (fl_states g)) candidates) s2
    ltac:(intros x; by rewrite stable_sort_perm) H0) as [Hf _ Hs Hl].
  cbv zeta. cbn [snd]. split; [etransitivity; [exact Hl|]; unfold limit, decision_limit; lia|]. split; [exact Hs|].
  intros dec Hdec. destruct (Hf dec Hdec) as (Hin & He & Hid & Hcool). split_and!; [done..|].
  rewrite Hcand in Hin. apply list_elem_of_In, in_concat in Hin as (x & Hx & Hin). rewrite <- list_elem_of_In in Hx. rewrite <- list_elem_of_In in Hin.
  apply list_elem_of_fmap in Hx as (p & -> & Hp). unfold evaluate_out in Hin.
  destruct (pr_baseline p) eqn:Eb; [by apply elem_of_nil in Hin|].
  destruct (fl_states s1.1 !! fs_key (pr_sample p)) as [state|] eqn:Est; [|by apply elem_of_nil in Hin].
  apply Hprep in Hp as Hp'. destruct Hp' as (sample & Hsample & Helig & ->).
  destruct (prepared_continues now (fl_states s0) sample Eb) as (state0 & Hst0 & Hcont & Eprep). rewrite Eprep in *. cbn [pr_sample grown_sample] in *.
  assert (state = state0) as ->.
  { cbn in Est. apply map_lookup_filter_Some in Est as [Est _]. rewrite Hunt in Est; [congruence|].
    intros a Ha Ek. assert (a = sample) as ->; [|by rewrite Hst0].
    apply list_elem_of_lookup in Ha as [i Hi], Hsample as [j Hj]. assert (i = j) as ->; [|congruence].
    apply (NoDup_lookup _ i j (fs_key sample) Hnd); rewrite list_lookup_fmap; [by rewrite Hi; cbn; rewrite Ek|by rewrite Hj]. }
  destruct (vd_reason (judge options scan now media state0 (grown_sample options sample state0 now))) as [reason|] eqn:Ev; [|by apply elem_of_nil in Hin].
  apply list_elem_of_singleton in Hin. injection Hin as Ek Er. destruct (judge_reason scan now media sample state0 reason Ev) as (Hmp & Hrp & Hcr).
  split.
  - exists sample, state0. rewrite Er. done.
  - intros other st (Ho & Hoe & Host & Hoc) Esrc. destruct (is_media (grown_sample options other st now)) eqn:Em; [|done]. exfalso.
    assert (grown_sample options other st now ∈ prepared) as Hop.
    { apply Hprep. exists other. split; [done|]. split; [done|]. unfold prepared_as. cbn [fl_states s0]. by rewrite Host, Hoc. }
    destruct (protect_all options now prepared (de_media_until d) _ Hop Em) as (until & Hu & Hle). cbn [pr_sample grown_sample] in Hu.
    rewrite Esrc, Ek in Hu. unfold media_protected, media in Hmp. rewrite Hu in Hmp. apply Z.ltb_ge in Hmp. lia.
Qed.

(** ** Executions *)

Inductive StallEvent :=
| EvScan (scan : IdleStallScan)
| EvResult (decision : IdleStallDeleteDecision) (succeeded : bool)
| EvReset
| EvTakeFast.

(** An operation and the commits it records; [reset] starts the accounting again. *)
Definition stall_step (now : Z) (e : StallEvent) (m : Detector * list (StallSource * Z)) : Detector * list (StallSource * Z) :=
  match e with
  | EvScan scan => ((observe options scan now m.1).1, m.2)
  | EvResult decision ok =>
      let '(d, r) := acknowledge_delete_result options decision ok now m.1 in (d, with_commit decision ok r now m.2)
  | EvReset => (detector_reset m.1, [])
  | EvTakeFast => ((take_whatsapp_fast_followup_delay options m.1).1, m.2)
  end.

(** The clock does not go back. *)
Inductive stall_execution : Detector * list (StallSource * Z) → Z → Prop :=
| stall_start now : stall_execution (detector_init, []) now
| stall_next m now now' e : stall_execution m now → now ≤ now' → stall_execution (stall_step now' e m) now'.

(** Every commit was admissible when it was made. *)
Definition history_ok (commits : list (StallSource * Z)) : Prop :=
  ∀ pre source t post, commits = pre ++ (source, t) :: post → admissible pre source t.

Lemma history_snoc commits source now : history_ok commits → admissible commits source now → history_ok (commits ++ [(source, now)]).
Proof.
  intros Hh Ha pre src t post E. destruct post as [|x post] using rev_ind.
  - apply app_inj_tail in E as [-> [= -> ->]]. done.
  - rewrite app_comm_cons, app_assoc in E. apply app_inj_tail in E as [-> _]. by eapply Hh.
Qed.

Lemma execution_limits m now : stall_execution m now → limits_ok m.1 m.2 now ∧ history_ok m.2.
Proof.
  assert (∀ now, limits_ok detector_init [] now) as Hinit.
  { intros t. split; cbn; try done.
    - by exists [].
    - rewrite map_size_empty. lia.
    - intros k k' [p Hp]. by rewrite lookup_empty in Hp.
    - by intros s t' ?%elem_of_nil.
    - by intros k s t' ? ?%elem_of_nil. }
  assert (history_ok []) as Hnil by (intros [] ? ? ?; done).
  induction 1 as [now|m now now' e Hex [Hok Hh] Hle]; [done|]. destruct m as [d commits]. cbn [fst snd] in *.
  destruct e as [scan|decision ok| |]; cbn [stall_step fst snd].
  - split; [by eapply observe_limits|done].
  - pose proof (acknowledge_limits decision ok now now' d commits Hok Hle) as Ha.
    destruct (acknowledge_delete_result options decision ok now' d) as [d' r]. destruct Ha as [Hl Ha]. cbn [fst snd].
    split; [done|]. unfold with_commit. destruct (r && ok); [by apply history_snoc, Ha|done].
  - split; [|done]. eapply (limits_shrink detector_init); done.
  - split; [|done]. pose proof (limits_later _ _ _ _ Hok Hle) as Hok'.
    unfold take_whatsapp_fast_followup_delay. destruct (negb _); [done|]. cbn [fst]. eapply (limits_shrink d); done.
Qed.

(** ** The properties *)


(** C17. Decisions are justified. A scan yields at most the allowed number of decisions, for
    different clients; each is made under the epoch and authority that were
    already being observed, for an eligible flow of the scan that continues an
    observed one, whose reply direction carries no more than keepalives, whose
    client is not in its cooldown and has no UDP flow that is active in both directions;
    and either the flow is suspected since at least the confirmation delay, or it meets
    one of the two rotation rules. *)
Theorem stall_decision_justified scan now d :
  validate_options options = true →
  let decisions := (observe options scan now d).2 in
  (length decisions ≤ op_max_decisions_per_scan options)%nat
  ∧ NoDup ((λ dec, source_key (dd_flow dec)) <$> decisions)
  ∧ ∀ dec, dec ∈ decisions →
      scan_rejected options scan = false
      ∧ de_active_epoch d = Some (sn_epoch scan) ∧ de_active_mark d = sn_preventive_mark scan
      ∧ dd_epoch dec = sn_epoch scan ∧ dd_attempt_id dec ≠ 0
      ∧ in_cooldown now (de_cooldown_until d) (source_key (dd_flow dec)) = false
      ∧ justified scan now d (dd_flow dec) (dd_reason dec).
Proof.
  intros Hv. assert (0 < op_active_media_hold options) as Hhold.
  { unfold validate_options in Hv. apply negb_true_iff in Hv. bool_to_prop. lia. }
  assert (∀ d' : Detector, let decisions := (d', @nil IdleStallDeleteDecision).2 in
    (length decisions ≤ op_max_decisions_per_scan options)%nat ∧ NoDup ((λ dec, source_key (dd_flow dec)) <$> decisions)
    ∧ decisions = []) as Hnil by (intros d'; cbn; split_and!; [lia|apply NoDup_nil_2|done]).
  unfold observe. destruct (scan_rejected options scan) eqn:Er; cbv zeta.
  { destruct (Hnil (reject_scan scan (prune_limits options now (set_fast false d)))) as (? & ? & E). split_and!; [done..|].
    intros dec Hin. rewrite E in Hin. by apply elem_of_nil in Hin. }
  set (d1 := prune_limits options now (set_fast false d)).
  destruct (keys_distinct ∅ (sn_flows scan)) eqn:Ek; cbn [negb]; cbv zeta.
  2: { destruct (Hnil (set_observed (Some (sn_epoch scan)) (de_active_mark (enter_scan scan d1)) (reset_observation_continuity (enter_scan scan d1))))
         as (? & ? & E). split_and!; [done..|]. intros dec Hin. rewrite E in Hin. by apply elem_of_nil in Hin. }
  apply keys_distinct_spec in Ek as (_ & Hnd & _).
  destruct (observe_flows_decisions scan now (enter_scan scan d1) Hhold Hnd) as (Hl & Hs & Hall). split_and!; [done..|].
  intros dec Hin. destruct (Hall dec Hin) as (He & Hid & Hc & Hj).
  assert (de_active_epoch d = Some (sn_epoch scan) ∧ de_active_mark d = sn_preventive_mark scan ∧ enter_scan scan d1 = d1) as (E1 & E2 & E3).
  { destruct Hj as [(sample & state & (_ & _ & Hst & _) & _) _]. unfold enter_scan in *. change (de_active_epoch d1) with (de_active_epoch d) in *.
    change (de_active_mark d1) with (de_active_mark d) in *.
    destruct (decide (de_active_epoch d = Some (sn_epoch scan))) as [Ee|Ee]; [rewrite (bool_decide_eq_true_2 _ Ee) in *|rewrite (bool_decide_eq_false_2 _ Ee) in *];
      cbn [negb] in *; [|cbn in Hst; by rewrite lookup_empty in Hst].
    destruct (decide (de_active_mark d = sn_preventive_mark scan)) as [Em|Em]; [rewrite (bool_decide_eq_true_2 _ Em) in *|rewrite (bool_decide_eq_false_2 _ Em) in *];
      cbn [negb] in *; [done|cbn in Hst; by rewrite lookup_empty in Hst]. }
  rewrite E3 in *. do 5 (split; [done|]). split; [|destruct Hj as [Hj1 Hj2]; split; [exact Hj1|exact Hj2]].
  unfold d1, in_cooldown in *. cbn in Hc.
  destruct (de_cooldown_until d !! source_key (dd_flow dec)) as [until|] eqn:Eu; [|done].
  destruct (Z.ltb_spec now until) as [Hlt|]; [|done]. unfold unexpired in Hc.
  rewrite (proj2 (map_lookup_filter_Some _ _ _ _) (conj Eu Hlt)) in Hc. apply Z.ltb_ge in Hc. lia.
Qed.

(** The order of a snapshot does not matter: permuting the flows of a scan changes
    neither the decisions with their attempt numbers nor the state. *)
Theorem stall_order_independent scan scan' now d :
  sn_flows scan ≡ₚ sn_flows scan' → sn_epoch scan = sn_epoch scan' →
  sn_owned_mark_mask scan = sn_owned_mark_mask scan' → sn_status scan = sn_status scan' →
  sn_preventive_mark scan = sn_preventive_mark scan' →
  observe options scan now d = observe options scan' now d.
Proof.
  intros Hp Ee Em Es Epm. unfold observe.
  assert (scan_rejected options scan = scan_rejected options scan') as <-.
  { unfold scan_rejected, preventive_authority_valid. by rewrite Ee, Em, Es, Epm, Hp. }
  assert (∀ d, reject_scan scan d = reject_scan scan' d) as Hr by (intros; unfold reject_scan; by rewrite Ee, Epm).
  assert (∀ d, enter_scan scan d = enter_scan scan' d) as Hen by (intros; unfold enter_scan; by rewrite Ee, Epm).
  destruct (scan_rejected options scan); [by rewrite Hr|]. rewrite Hen, Ee.
  assert (keys_distinct ∅ (sn_flows scan) = keys_distinct ∅ (sn_flows scan')) as <-.
  { assert (∀ l l', l ≡ₚ l' → keys_distinct ∅ l = true → keys_distinct ∅ l' = true) as Hk.
    { intros l l' Hl. rewrite !keys_distinct_spec. intros (H1 & H2 & H3). split; [|split].
      - by apply (Permutation_Forall Hl).
      - apply NoDup_ListNoDup. eapply Permutation_NoDup; [|by apply NoDup_ListNoDup]. by apply fmap_Permutation.
      - by apply (Permutation_Forall Hl). }
    apply eq_true_iff_eq. split; apply Hk; [done|by symmetry]. }
  destruct (keys_distinct ∅ (sn_flows scan)) eqn:Ek; cbn [negb]; [|done]. apply keys_distinct_spec in Ek as (_ & Hnd & _).
  by apply observe_flows_permutation.
Qed.
End Claims.

(** ** Examples *)

Definition sample_flow (source : string) (port original reply : Z) : IdleStallFlowSample :=
  {| fs_key := {| fk_family := StallIpv4; fk_protocol := StallTcp; fk_source := source; fk_destination := "203.0.113.7";
                  fk_source_port := port; fk_destination_port := 443; fk_full_mark := 0x10000 |};
     fs_counters := {| fc_original_packets := original / 100; fc_original_bytes := original;
                       fc_reply_packets := reply / 100; fc_reply_bytes := reply |};
     fs_readiness := TcpEstablished; fs_fastnat := false; fs_recovery_policy := PolicyStandard |}.

Definition sample_scan (flows : list IdleStallFlowSample) : IdleStallScan :=
  {| sn_epoch := {| ep_runtime_generation := 1; ep_coverage_generation := 1 |}; sn_owned_mark_mask := 0xff0000;
     sn_status := {| sc_snapshot_complete := true; sc_counters_available := true; sc_local_scope_complete := true;
                     sc_coverage_complete := true |};
     sn_flows := flows; sn_preventive_mark := None |}.

(** A flow is seen, is idle for half a minute, and then sends a request. *)
Definition idle_scan : IdleStallScan := sample_scan [sample_flow "192.168.1.5" 4000 5000 5000; sample_flow "192.168.1.6" 4001 100 100].
Definition request_scan : IdleStallScan := sample_scan [sample_flow "192.168.1.5" 4000 9000 5000; sample_flow "192.168.1.6" 4001 100 100].

Definition suspected : Detector :=
  (observe default_options request_scan (secs 131) (observe default_options idle_scan (secs 100) detector_init).1).1.

Definition stalled_key : IdleStallFlowKey := fs_key (sample_flow "192.168.1.5" 4000 0 0).

Definition stalled_decision : IdleStallDeleteDecision :=
  {| dd_flow := stalled_key; dd_reason := IdleRequestWithoutReply;
     dd_epoch := {| ep_runtime_generation := 1; ep_coverage_generation := 1 |}; dd_attempt_id := 1 |}.

Lemma stall_decision_justified_witness :
  (observe default_options request_scan (secs 137) suspected).2 = [stalled_decision]
  ∧ justified default_options request_scan (secs 137) suspected stalled_key IdleRequestWithoutReply.
Proof.
  assert ((observe default_options request_scan (secs 137) suspected).2 = [stalled_decision]) as E by (vm_compute; reflexivity).
  split; [exact E|].
  destruct (stall_decision_justified default_options request_scan (secs 137) suspected eq_refl) as (_ & _ & H).
  apply (H stalled_decision). rewrite E. by apply list_elem_of_singleton.
Defined.


Lemma stall_order_independent_witness :
  observe default_options (sample_scan [sample_flow "192.168.1.6" 4001 100 100; sample_flow "192.168.1.5" 4000 9000 5000]) (secs 137) suspected
  = observe default_options request_scan (secs 137) suspected.
Proof. apply stall_order_independent; [constructor|reflexivity..]. Defined.
