(* ===== verification/SrsReader.v ===== *)
(** * Binary rule sets: the reader

    src/src/lists/srs_decoder.{hpp,cpp}, first part: the errors, the limits and
    [InflateReader], which decompresses a rule set piece by piece. What the decoder
    relies on is the interface [ByteReader] with the laws [ByteReaderLaws]; the
    inflating reader satisfies them. zlib is the parameter [Zlib]: the state of a
    stream and one call of [inflate]. Bytes are numbers below 256; an input stream is
    the list of the bytes it has left. *)

From Stdlib Require Import ZArith Lia.
From stdpp Require Import base list.
From S2P Require Import Prelude StateError.
Open Scope Z_scope.

(** [SrsDecodeError]; the message of an invalid input is not kept. The last two are not
    exceptions of the program: they mark an access outside an array and a loop that
    needs more rounds than its model was given, and are shown never to occur. *)
Inductive SrsDecodeError :=
| SrsInvalid
| SrsUnsupportedVersion (version : Z)
| SrsOutOfRange
| SrsOutOfFuel.

(** The width of [std::size_t], 32 bits on some routers and 64 on others. *)
Class SizeT := {
  size_bits : Z;
  size_bits_range : 32 ≤ size_bits
}.

Definition size_max `{SizeT} : Z := 2 ^ size_bits - 1.
Definition usize `{SizeT} (z : Z) : Z := wrap size_bits z.

Record SrsDecodeLimits := {
  max_compressed_bytes : Z;
  max_decompressed_bytes : Z;
  max_rules : Z;
  max_logical_depth : Z;
  max_rule_items : Z;
  max_values : Z;
  max_string_bytes : Z;
  max_total_string_bytes : Z;
  max_trie_words : Z;
  max_trie_labels : Z;
  max_trie_nodes : Z;
  max_ip_ranges : Z;
  max_output_entries : Z;
  max_output_string_bytes : Z
}.

(** The member initialisers. *)
Definition default_limits : SrsDecodeLimits := {|
  max_compressed_bytes := 16 * 1024 * 1024;
  max_decompressed_bytes := 64 * 1024 * 1024;
  max_rules := 100000;
  max_logical_depth := 32;
  max_rule_items := 64;
  max_values := 1000000;
  max_string_bytes := 4096;
  max_total_string_bytes := 16 * 1024 * 1024;
  max_trie_words := 262144;
  max_trie_labels := 4000000;
  max_trie_nodes := 4000001;
  max_ip_ranges := 1000000;
  max_output_entries := 1000000;
  max_output_string_bytes := 16 * 1024 * 1024
|}.

Definition limit_fields (l : SrsDecodeLimits) : list Z :=
  [max_compressed_bytes l; max_decompressed_bytes l; max_rules l; max_logical_depth l;
   max_rule_items l; max_values l; max_string_bytes l; max_total_string_bytes l;
   max_trie_words l; max_trie_labels l; max_trie_nodes l; max_ip_ranges l;
   max_output_entries l; max_output_string_bytes l].

(** Every member is a [std::size_t]. *)
Definition limits_wf `{SizeT} (l : SrsDecodeLimits) : Prop :=
  Forall (λ n, 0 ≤ n ≤ size_max) (limit_fields l).

Definition byte_ok (b : Z) : Prop := 0 ≤ b < 256.

(** ** What the decoder asks of its reader *)

Class ByteReader (R : Type) := {
  read_exact : nat → SE R SrsDecodeError (list Z);
  require_clean_end : SE R SrsDecodeError unit
}.

(** [reads r bs r']: from the state [r] exactly the bytes [bs] are read on the way to
    [r']. A read delivers as many bytes as it was asked for, and a reader fails only by
    rejecting its input. [reader_ok] is the invariant of its state, [at_end] a state
    with nothing left to read. *)
Class ByteReaderLaws (R : Type) `{ByteReader R} := {
  reader_ok : R → Prop;
  reads : R → list Z → R → Prop;
  reads_nil r : reads r [] r;
  reads_app r bs r' bs' r'' : reads r bs r' → reads r' bs' r'' → reads r (bs ++ bs') r'';
  read_exact_spec n r : reader_ok r →
    wp (read_exact n)
       (λ bs r', length bs = n ∧ Forall byte_ok bs ∧ reads r bs r' ∧ reader_ok r')
       (λ e _, e = SrsInvalid) r;
  at_end : R → Prop;
  clean_end_spec r : reader_ok r →
    wp require_clean_end (λ _ r', reads r [] r' ∧ reader_ok r' ∧ at_end r') (λ e _, e = SrsInvalid) r
}.

(** ** zlib *)

Definition Z_OK : Z := 0.
Definition Z_STREAM_END : Z := 1.

(** One call [inflate(&stream, Z_NO_FLUSH)]: from the bytes at [next_in] and the room at
    [next_out] to the new state, the number of bytes taken, the bytes written and the
    status. [inflateInit] may fail. *)
Class Zlib := {
  zstate : Type;
  inflateInit : option zstate;
  inflate : zstate → list Z → nat → zstate * nat * list Z * Z
}.

(** A series of calls: what they took, what they wrote, and whether the last of them
    reported the end of the stream. *)
Inductive inflates `{Zlib} : zstate → list Z → list Z → bool → zstate → Prop :=
| inflates_nil z : inflates z [] [] false z
| inflates_call z inp out fin z' avail room z'' n bs status :
    inflates z inp out fin z' →
    fin = false →
    inflate z' avail room = (z'', n, bs, status) →
    inflates z (inp ++ take n avail) (out ++ bs) (bool_decide (status = Z_STREAM_END)) z''.

(** What the manual of zlib promises: a call stays inside the two buffers, writes bytes,
    and makes progress when it returns [Z_OK]. [decompresses] is the format: whatever the
    buffers, the calls up to the end of the stream decompress what they took. *)
Class ZlibLaws `{Zlib} := {
  decompresses : list Z → list Z → Prop;
  inflate_in z avail room z' n bs st :
    inflate z avail room = (z', n, bs, st) → (n ≤ length avail)%nat;
  inflate_out z avail room z' n bs st :
    inflate z avail room = (z', n, bs, st) → (length bs ≤ room)%nat ∧ Forall byte_ok bs;
  inflate_progress z avail room z' n bs st :
    inflate z avail room = (z', n, bs, st) → st = Z_OK → (0 < n)%nat ∨ bs ≠ [];
  inflate_stream z0 inp out z :
    inflateInit = Some z0 → inflates z0 inp out true z → decompresses inp out
}.

(** ** The inflating reader *)

Section Inflate.
Context `{SizeT} `{Zlib}.
Context (limits : SrsDecodeLimits).

(** The fields of [InflateReader] with the stream it reads from; [ir_output] is the part
    of the output buffer between [output_offset_] and [output_size_]. *)
Record InflateReader := {
  ir_source : list Z;
  ir_stream : zstate;
  ir_avail_in : list Z;
  ir_input_eof : bool;
  ir_stream_finished : bool;
  ir_compressed_bytes : Z;
  ir_decompressed_bytes : Z;
  ir_output : list Z
}.

Definition buffer_size : Z := 8192.

(** The constructor. *)
Definition open_reader (source : list Z) : result SrsDecodeError InflateReader :=
  match inflateInit with
  | None => Throw SrsInvalid
  | Some z =>
      Ok {| ir_source := source; ir_stream := z; ir_avail_in := []; ir_input_eof := false;
            ir_stream_finished := false; ir_compressed_bytes := 0;
            ir_decompressed_bytes := 0; ir_output := [] |}
  end.

Abbreviation IR := (SE InflateReader SrsDecodeError).

Definition set_eof (r : InflateReader) : InflateReader :=
  {| ir_source := ir_source r; ir_stream := ir_stream r; ir_avail_in := ir_avail_in r;
     ir_input_eof := true; ir_stream_finished := ir_stream_finished r;
     ir_compressed_bytes := ir_compressed_bytes r;
     ir_decompressed_bytes := ir_decompressed_bytes r; ir_output := ir_output r |}.

Definition take_input (request : nat) (r : InflateReader) : InflateReader :=
  {| ir_source := drop request (ir_source r); ir_stream := ir_stream r;
     ir_avail_in := take request (ir_source r);
     ir_input_eof := ir_input_eof r; ir_stream_finished := ir_stream_finished r;
     ir_compressed_bytes :=
       usize (ir_compressed_bytes r + Z.of_nat (length (take request (ir_source r))));
     ir_decompressed_bytes := ir_decompressed_bytes r; ir_output := ir_output r |}.

Definition load_input : IR bool :=
  r ← gets id;
  if ir_input_eof r then mret false
  else if max_compressed_bytes limits <=? ir_compressed_bytes r then throw SrsInvalid
  else
    let remaining := usize (max_compressed_bytes limits - ir_compressed_bytes r) in
    let request := Z.min buffer_size remaining in
    if request =? 0 then throw SrsInvalid
    else
      let count := length (take (Z.to_nat request) (ir_source r)) in
      if (count =? 0)%nat then _ ← modify set_eof; mret false
      else _ ← modify (take_input (Z.to_nat request)); mret true.

(** The state after one call of [inflate] within the limit. *)
Definition inflated (z : zstate) (n : nat) (out : list Z) (status : Z) (r : InflateReader)
    : InflateReader :=
  {| ir_source := ir_source r; ir_stream := z; ir_avail_in := drop n (ir_avail_in r);
     ir_input_eof := ir_input_eof r;
     ir_stream_finished := ir_stream_finished r || (status =? Z_STREAM_END);
     ir_compressed_bytes := ir_compressed_bytes r;
     ir_decompressed_bytes := usize (ir_decompressed_bytes r + Z.of_nat (length out));
     ir_output := out |}.

(** The body of the endless loop in [fill_output] after the input has been loaded:
    [None] for another round. *)
Definition inflate_round : IR (option bool) :=
  r ← gets id;
  match inflate (ir_stream r) (ir_avail_in r) (Z.to_nat buffer_size) with
  | (z, n, out, status) =>
      let produced := Z.of_nat (length out) in
      if usize (max_decompressed_bytes limits - ir_decompressed_bytes r) <? produced
      then throw SrsInvalid
      else
        _ ← modify (inflated z n out status);
        if negb (status =? Z_STREAM_END) && negb (status =? Z_OK) then throw SrsInvalid
        else if negb (produced =? 0) then mret (Some true)
        else if status =? Z_STREAM_END then mret (Some false)
        else mret None
  end.

Fixpoint fill_loop (fuel : nat) : IR bool :=
  match fuel with
  | O => throw SrsOutOfFuel
  | S fuel =>
      r ← gets id;
      loaded ← (if (length (ir_avail_in r) =? 0)%nat then load_input else mret true);
      if negb loaded then throw SrsInvalid
      else
        o ← inflate_round;
        match o with
        | Some b => mret b
        | None => fill_loop fuel
        end
  end.

(** Every round that comes back for another one has taken a byte of the input. *)
Definition fill_output : IR bool :=
  r ← gets id;
  if ir_stream_finished r then mret false
  else fill_loop (S (length (ir_avail_in r) + length (ir_source r))).

Definition advance (n : nat) (r : InflateReader) : InflateReader :=
  {| ir_source := ir_source r; ir_stream := ir_stream r; ir_avail_in := ir_avail_in r;
     ir_input_eof := ir_input_eof r; ir_stream_finished := ir_stream_finished r;
     ir_compressed_bytes := ir_compressed_bytes r;
     ir_decompressed_bytes := ir_decompressed_bytes r; ir_output := drop n (ir_output r) |}.

(** The loop of [read_exact] with [size] bytes still to copy; a round copies at least one
    of them. *)
Fixpoint copy_loop (fuel size : nat) : IR (list Z) :=
  match size, fuel with
  | O, _ => mret []
  | _, O => throw SrsOutOfFuel
  | _, S fuel =>
      r ← gets id;
      filled ← (if (length (ir_output r) =? 0)%nat then fill_output else mret true);
      if negb filled then throw SrsInvalid
      else
        r ← gets id;
        let amount := Nat.min (length (ir_output r)) size in
        let chunk := take amount (ir_output r) in
        _ ← modify (advance amount);
        rest ← copy_loop fuel (size - amount);
        mret (chunk ++ rest)
  end.

Definition inflate_read_exact (size : nat) : IR (list Z) := copy_loop size size.

Definition try_read_byte : IR (option Z) :=
  r ← gets id;
  filled ← (if (length (ir_output r) =? 0)%nat then fill_output else mret true);
  if negb filled then mret None
  else
    r ← gets id;
    match ir_output r with
    | [] => throw SrsOutOfRange
    | value :: _ => _ ← modify (advance 1); mret (Some value)
    end.

Definition inflate_require_clean_end : IR unit :=
  extra ← try_read_byte;
  match extra with
  | Some _ => throw SrsInvalid
  | None =>
      r ← gets id;
      if negb (ir_stream_finished r) then throw SrsInvalid
      else if negb (length (ir_avail_in r) =? 0)%nat || negb (length (ir_source r) =? 0)%nat
      then throw SrsInvalid
      else mret ()
  end.

#[export] Instance inflate_byte_reader : ByteReader InflateReader := {
  read_exact := inflate_read_exact;
  require_clean_end := inflate_require_clean_end
}.

(** ** The laws of the inflating reader *)

Context `{!ZlibLaws}.
Hypothesis Hlimits : limits_wf limits.

Definition inflate_reader_ok (r : InflateReader) : Prop :=
  0 ≤ ir_compressed_bytes r ≤ max_compressed_bytes limits ∧
  0 ≤ ir_decompressed_bytes r ≤ max_decompressed_bytes limits ∧
  Forall byte_ok (ir_output r).

(** Input taken and output written between two states of the reader. *)
Definition inflate_moves (r : InflateReader) (inp out : list Z) (r' : InflateReader) : Prop :=
  ir_avail_in r ++ ir_source r = inp ++ ir_avail_in r' ++ ir_source r' ∧
  if ir_stream_finished r
  then inp = [] ∧ out = [] ∧ ir_stream r' = ir_stream r ∧ ir_stream_finished r' = true
  else inflates (ir_stream r) inp out (ir_stream_finished r') (ir_stream r').

Definition inflate_reads (r : InflateReader) (bs : list Z) (r' : InflateReader) : Prop :=
  ∃ inp out, inflate_moves r inp out r' ∧ ir_output r ++ out = bs ++ ir_output r'.

Definition inflate_at_end (r : InflateReader) : Prop :=
  ir_output r = [] ∧ ir_stream_finished r = true ∧ ir_avail_in r = [] ∧ ir_source r = [].

Lemma inflates_trans z i o z' i' o' f z'' :
  inflates z i o false z' → inflates z' i' o' f z'' → inflates z (i ++ i') (o ++ o') f z''.
Proof.
  intros Hl Hr. remember z' as y eqn:Hy. induction Hr as [y|y inp out fin z1 av room z2 n bs st].
  - subst. by rewrite !app_nil_r.
  - rewrite !app_assoc. eapply inflates_call; eauto.
Qed.

Lemma inflate_moves_refl r : inflate_moves r [] [] r.
Proof. split; [done|]. destruct (ir_stream_finished r); [done|constructor]. Qed.

Lemma inflate_moves_trans r i o r' i' o' r'' :
  inflate_moves r i o r' → inflate_moves r' i' o' r'' → inflate_moves r (i ++ i') (o ++ o') r''.
Proof.
  intros [Ha Hb] [Ha' Hb']. split; [by rewrite Ha, Ha', app_assoc|].
  destruct (ir_stream_finished r).
  - destruct Hb as (-> & -> & Hs & Hf). rewrite Hf in Hb'.
    destruct Hb' as (-> & -> & Hs' & Hf'). by rewrite Hs', Hs.
  - destruct (ir_stream_finished r').
    + destruct Hb' as (-> & -> & -> & ->). by rewrite !app_nil_r.
    + by eapply inflates_trans.
Qed.

Lemma usize_small z : 0 ≤ z ≤ size_max → usize z = z.
Proof. unfold size_max, usize, wrap. intros ?. apply Z.mod_small. lia. Qed.

Lemma limits_compressed : 0 ≤ max_compressed_bytes limits ≤ size_max.
Proof. unfold limits_wf, limit_fields in Hlimits. by inversion Hlimits. Qed.

Lemma limits_decompressed : 0 ≤ max_decompressed_bytes limits ≤ size_max.
Proof. unfold limits_wf, limit_fields in Hlimits. by apply Forall_cons in Hlimits as [_ [? _]%Forall_cons]. Qed.

Definition unread (r : InflateReader) : nat := length (ir_avail_in r) + length (ir_source r).

(** Loading changes neither the output nor what is left to decompress. *)
Lemma load_input_spec r :
  inflate_reader_ok r → ir_avail_in r = [] →
  wp load_input
    (λ b r', inflate_reader_ok r' ∧ ir_output r' = ir_output r ∧ inflate_moves r [] [] r' ∧
             ir_stream_finished r' = ir_stream_finished r ∧ unread r' = unread r)
    (λ e _, e = SrsInvalid) r.
Proof.
  intros (Hc & Hd & Ho) Ha. pose proof limits_compressed. unfold load_input.
  repeat wp_step; try done.
  - split; [done|]. split; [done|]. split; [apply inflate_moves_refl|done].
  - split; [done|]. split; [done|]. split; [|done].
    split; [done|]. cbn. destruct (ir_stream_finished r); [done|constructor].
  - cbv beta in *. unfold id in *.
    assert (usize (max_compressed_bytes limits - ir_compressed_bytes r)
            = max_compressed_bytes limits - ir_compressed_bytes r) as Hr
      by (apply usize_small; lia).
    rewrite Hr in *. set (q := Z.min buffer_size _) in *.
    assert (Z.of_nat (length (take (Z.to_nat q) (ir_source r)))
            ≤ max_compressed_bytes limits - ir_compressed_bytes r) as Hlen.
    { rewrite length_take. subst q. lia. }
    split; [|split; [done|split; [|split; [done|]]]].
    + split; [cbn; rewrite usize_small; lia|done].
    + split; [cbn; rewrite Ha, take_drop; done|]. cbn.
      destruct (ir_stream_finished r); [done|constructor].
    + unfold unread. cbn. rewrite <- length_app, take_drop, Ha. done.
Qed.

(** [r ← gets id] *)
Ltac wp_read := apply wp_bind, wp_gets; cbv beta; unfold id.

Lemma inflate_round_spec r :
  inflate_reader_ok r → ir_stream_finished r = false →
  wp inflate_round
    (λ o r', inflate_reader_ok r' ∧
       ∃ inp, inflate_moves r inp (ir_output r') r' ∧
       match o with
       | Some true => ir_output r' ≠ []
       | Some false => ir_output r' = []
       | None => ir_output r' = [] ∧ ir_stream_finished r' = false ∧ (unread r' < unread r)%nat
       end)
    (λ e _, e = SrsInvalid) r.
Proof.
  intros (Hc & Hd & Ho) Hfin. pose proof limits_decompressed.
  unfold inflate_round. wp_read.
  destruct (inflate _ _ _) as [[[z n] out] st] eqn:Hz.
  pose proof (inflate_in _ _ _ _ _ _ _ Hz) as Hn.
  destruct (inflate_out _ _ _ _ _ _ _ Hz) as [Hroom Hout].
  pose proof (inflate_progress _ _ _ _ _ _ _ Hz) as Hprog.
  rewrite usize_small by lia. wp_step; [by wp_step|]. bool_to_prop.
  wp_step. wp_step.
  assert (inflate_reader_ok (inflated z n out st r)) as Hok'.
  { split; [done|]. split; [|done]. cbn. rewrite usize_small; lia. }
  assert (inflate_moves r (take n (ir_avail_in r)) out (inflated z n out st r)) as Hmv.
  { split; cbn; [by rewrite app_assoc, take_drop|]. rewrite Hfin. cbn.
    replace (st =? Z_STREAM_END) with (bool_decide (st = Z_STREAM_END))
      by (case_bool_decide; symmetry; lia).
    eapply (inflates_call _ [] [] false); [constructor|done|exact Hz]. }
  wp_step; [by wp_step|].
  wp_step; [wp_step; split; [done|]; exists (take n (ir_avail_in r)); cbn; split; [done|];
    by destruct out|].
  destruct out; [|done].
  wp_step; wp_step; (split; [done|]); exists (take n (ir_avail_in r)); (split; [done|]); [done|].
  bool_to_prop. simpl in Heqb0. apply negb_false_iff, Z.eqb_eq in Heqb0. cbn. rewrite Hfin. cbn.
  split; [done|]. split; [by apply Z.eqb_neq|]. unfold unread. cbn. rewrite length_drop.
  destruct Hprog as [?|?]; [done|lia|done].
Qed.

Lemma fill_loop_spec fuel r :
  inflate_reader_ok r → ir_stream_finished r = false → ir_output r = [] → (unread r < fuel)%nat →
  wp (fill_loop fuel)
    (λ b r', inflate_reader_ok r' ∧ ∃ inp, inflate_moves r inp (ir_output r') r' ∧
             (if b then ir_output r' ≠ [] else ir_output r' = []))
    (λ e _, e = SrsInvalid) r.
Proof.
  revert r. induction fuel as [|fuel IH]; intros r Hok Hfin Hout Hf; [lia|]. cbn [fill_loop].
  wp_read. wp_step.
  apply (wp_mono _ (λ _ r', inflate_reader_ok r' ∧ ir_output r' = [] ∧ inflate_moves r [] [] r' ∧
            ir_stream_finished r' = false ∧ unread r' = unread r) _ (λ e _, e = SrsInvalid)); [|..|done].
  { wp_step.
    - eapply wp_mono; [apply load_input_spec; [done|]| |done].
      + apply Nat.eqb_eq in Heqb. by destruct (ir_avail_in r).
      + cbn. rewrite Hfin, Hout. intros b r'. intuition.
    - wp_step. split; [done|]. split; [done|]. split; [apply inflate_moves_refl|done]. }
  cbn. intros b r1 (Hok1 & Hout1 & Hmv1 & Hfin1 & Hun1). wp_step; [by wp_step|].
  wp_step. eapply wp_mono; [by apply inflate_round_spec| |done].
  cbn. intros o r2 (Hok2 & inp & Hmv2 & Ho).
  pose proof (inflate_moves_trans _ _ _ _ _ _ _ Hmv1 Hmv2) as Hmv. cbn in Hmv.
  destruct o as [b'|]; [wp_step; split; [done|]; exists inp; by destruct b'|].
  destruct Ho as (Ho & Hfin2 & Hlt).
  eapply wp_mono; [apply IH; [done..|lia]| |done]. cbn.
  intros b' r3 (Hok3 & inp3 & Hmv3 & Hb). split; [done|]. exists (inp ++ inp3).
  split; [|done]. rewrite Ho in Hmv. by eapply (inflate_moves_trans _ _ [] _ _ _ _ Hmv).
Qed.

Lemma fill_output_spec r :
  inflate_reader_ok r → ir_output r = [] →
  wp fill_output
    (λ b r', inflate_reader_ok r' ∧ inflate_reads r [] r' ∧
             (if b then ir_output r' ≠ [] else ir_output r' = []))
    (λ e _, e = SrsInvalid) r.
Proof.
  intros Hok Hout. unfold fill_output. wp_read. wp_step.
  - wp_step. split; [done|]. split; [|done]. exists [], []. split; [apply inflate_moves_refl|].
    by rewrite Hout.
  - eapply wp_mono; [apply fill_loop_spec; [done..|]| |done]; [unfold unread; lia|].
    cbn. intros b r' (Hok' & inp & Hmv & Hb). split; [done|]. split; [|done].
    exists inp, (ir_output r'). by rewrite Hout.
Qed.

(** The guard before every access to the output buffer. *)
Lemma ensure_output_spec r :
  inflate_reader_ok r →
  wp (if (length (ir_output r) =? 0)%nat then fill_output else mret true)
    (λ b r', inflate_reader_ok r' ∧ inflate_reads r [] r' ∧
             (if b then ir_output r' ≠ [] else ir_output r' = []))
    (λ e _, e = SrsInvalid) r.
Proof.
  intros Hok. wp_step.
  - apply fill_output_spec; [done|]. apply Nat.eqb_eq in Heqb. by destruct (ir_output r).
  - wp_step. split; [done|]. split; [|by destruct (ir_output r)].
    exists [], []. split; [apply inflate_moves_refl|]. by rewrite app_nil_r.
Qed.

Lemma inflate_reads_nil r : inflate_reads r [] r.
Proof. exists [], []. split; [apply inflate_moves_refl|]. by rewrite app_nil_r. Qed.

Lemma inflate_reads_app r bs r' bs' r'' :
  inflate_reads r bs r' → inflate_reads r' bs' r'' → inflate_reads r (bs ++ bs') r''.
Proof.
  intros (i & o & Hm & Ho) (i' & o' & Hm' & Ho'). exists (i ++ i'), (o ++ o').
  split; [by eapply inflate_moves_trans|]. by rewrite app_assoc, Ho, <- !app_assoc, Ho'.
Qed.

Lemma advance_reads n r : inflate_reads r (take n (ir_output r)) (advance n r).
Proof.
  exists [], []. split; [|cbn; by rewrite app_nil_r, take_drop].
  split; [done|]. cbn. destruct (ir_stream_finished r); [done|constructor].
Qed.

Lemma advance_ok n r : inflate_reader_ok r → inflate_reader_ok (advance n r).
Proof. intros (? & ? & ?). split; [done|]. split; [done|]. by apply Forall_drop. Qed.

Lemma copy_loop_spec fuel size r :
  inflate_reader_ok r → (size ≤ fuel)%nat →
  wp (copy_loop fuel size)
    (λ bs r', length bs = size ∧ Forall byte_ok bs ∧ inflate_reads r bs r' ∧ inflate_reader_ok r')
    (λ e _, e = SrsInvalid) r.
Proof.
  revert size r. induction fuel as [|fuel IH]; intros size r Hok Hs;
    (destruct size as [|size]; [wp_step; split; [done|]; split; [constructor|]; by split; [apply inflate_reads_nil|]|]); [lia|].
  cbn [copy_loop]. wp_read. wp_step.
  eapply wp_mono; [by apply ensure_output_spec| |done]. cbv beta.
  intros b r1 (Hok1 & Hr1 & Hb). wp_step; [by wp_step|]. destruct b; [|done].
  wp_read. cbv zeta. apply wp_bind, wp_modify, wp_bind.
  set (amount := Nat.min _ _).
  assert (0 < amount)%nat by (subst amount; destruct (ir_output r1); [done|cbn; lia]).
  eapply wp_mono; [apply IH; [by apply advance_ok|lia]| |done]. cbv beta.
  intros rest r2 (Hlen & Hby & Hr2 & Hok2). wp_step. split; [|split; [|split; [|done]]].
  - rewrite length_app, length_take, Hlen. subst amount. lia.
  - apply Forall_app. split; [|done]. apply Forall_take. apply Hok1.
  - rewrite <- (app_nil_l (_ ++ _)). eapply inflate_reads_app; [done|].
    eapply inflate_reads_app; [apply advance_reads|done].
Qed.

Lemma try_read_byte_spec r :
  inflate_reader_ok r →
  wp try_read_byte
    (λ o r', o = None → inflate_reads r [] r' ∧ inflate_reader_ok r' ∧ ir_output r' = [])
    (λ e _, e = SrsInvalid) r.
Proof.
  intros Hok. unfold try_read_byte. wp_read. wp_step.
  eapply wp_mono; [by apply ensure_output_spec| |done]. cbv beta.
  intros b r1 (Hok1 & Hr1 & Hb). wp_step; [by wp_step; destruct b|]. destruct b; [|done].
  wp_read. destruct (ir_output r1); [done|]. by repeat wp_step.
Qed.

Lemma inflate_clean_end_spec r :
  inflate_reader_ok r →
  wp inflate_require_clean_end
    (λ _ r', inflate_reads r [] r' ∧ inflate_reader_ok r' ∧ inflate_at_end r')
    (λ e _, e = SrsInvalid) r.
Proof.
  intros Hok. unfold inflate_require_clean_end. wp_step.
  eapply wp_mono; [by apply try_read_byte_spec| |done]. cbv beta.
  intros o r1 Hr. destruct o; [by wp_step|]. destruct (Hr eq_refl) as (Hr1 & Hok1 & Hout).
  wp_read. wp_step; [by wp_step|]. wp_step; [by wp_step|]. bool_to_prop. wp_step.
  split; [done|]. split; [done|]. split; [done|].
  destruct (ir_avail_in r1), (ir_source r1); simpl in *; try discriminate. done.
Qed.

#[export] Program Instance inflate_reader_laws : ByteReaderLaws InflateReader := {
  reader_ok := inflate_reader_ok;
  reads := inflate_reads;
  at_end := inflate_at_end
}.
Next Obligation. exact inflate_reads_nil. Qed.
Next Obligation. exact inflate_reads_app. Qed.
Next Obligation. intros n r Hok. by apply copy_loop_spec. Qed.
Next Obligation. exact inflate_clean_end_spec. Qed.

(** A reader opened on a stream and read to its end has decompressed all of it. *)
Lemma opened_reader_ok source r : open_reader source = Ok r → inflate_reader_ok r.
Proof.
  pose proof limits_compressed. pose proof limits_decompressed.
  unfold open_reader. destruct inflateInit; intros [= <-].
  split; [cbn; lia|]. split; [cbn; lia|constructor].
Qed.

Lemma opened_reader_payload source r bs r' :
  open_reader source = Ok r → inflate_reads r bs r' → inflate_at_end r' → decompresses source bs.
Proof.
  unfold open_reader. destruct inflateInit as [z|] eqn:Hz; intros [= <-].
  intros (inp & out & [Hin Hm] & Hout) (Ho & Hf & Ha & Hs). cbn in *.
  rewrite Ho, app_nil_r in Hout. rewrite Ha, Hs, !app_nil_r in Hin. subst.
  rewrite Hf in Hm. by eapply inflate_stream.
Qed.
End Inflate.
