(* ===== verification/SrsAddress.v ===== *)
(** * Binary rule sets: addresses

    src/src/lists/srs_decoder.cpp, the arithmetic on addresses and their text. An
    [IpAddress] is the list of its first [size] bytes, most significant first. The
    functions are related to the number an address denotes; [split_block] is one round
    of the loop that covers a range with CIDR blocks, and [range_cover] the reference it
    is compared with. *)

From Stdlib Require Import ZArith Lia Ascii String.
From stdpp Require Import base strings list.
From S2P Require Import Prelude StateError SrsReader.
Open Scope Z_scope.

Fixpoint address_less (lhs rhs : list Z) : bool :=
  match lhs, rhs with
  | _, [] => false
  | [], _ :: _ => true
  | a :: lhs, b :: rhs =>
      if a <? b then true else if b <? a then false else address_less lhs rhs
  end.

Definition address_equal (lhs rhs : list Z) : bool := bool_decide (lhs = rhs).

(** [while ((copy & 1U) == 0U)] on a non-zero byte: at most seven rounds. *)
Fixpoint byte_trailing_zeros (fuel : nat) (copy : Z) : nat :=
  match fuel with
  | O => 0
  | S fuel => if Z.land copy 1 =? 0 then S (byte_trailing_zeros fuel (Z.shiftr copy 1)) else 0
  end.

(** The loop from the last byte to the first. *)
Fixpoint trailing_zeros_rev (bytes : list Z) : nat :=
  match bytes with
  | [] => 0
  | value :: bytes =>
      if value =? 0 then 8 + trailing_zeros_rev bytes else byte_trailing_zeros 8 value
  end.

Definition address_trailing_zero_bits (address : list Z) : nat :=
  trailing_zeros_rev (rev address).

(** One pass of the loop of [block_end]; the index is outside the array when the offset
    is beyond the address. *)
Definition set_host_bit (address : list Z) (offset : nat) : result SrsDecodeError (list Z) :=
  let byte_from_end := (offset / 8)%nat in
  let bit := Z.of_nat (offset mod 8) in
  if (length address <=? byte_from_end)%nat then Throw SrsOutOfRange
  else
    let index := (length address - 1 - byte_from_end)%nat in
    Ok (alter (λ b, Z.lor b (Z.shiftl 1 bit)) index address).

Definition block_end (address : list Z) (host_bits : nat) : result SrsDecodeError (list Z) :=
  rfold set_host_bit address (seq 0 host_bits).

Fixpoint increment_rev (bytes : list Z) : option (list Z) :=
  match bytes with
  | [] => None
  | value :: bytes =>
      if negb (value =? 255) then Some (value + 1 :: bytes)
      else match increment_rev bytes with
           | Some bytes => Some (0 :: bytes)
           | None => None
           end
  end.

Definition increment_address (address : list Z) : option (list Z) :=
  match increment_rev (rev address) with Some bytes => Some (rev bytes) | None => None end.

(** [while (host_bits > 0U && address_less(to, block_end(from, host_bits))) --host_bits;] *)
Fixpoint shrink_host_bits (from to : list Z) (host_bits : nat) : result SrsDecodeError nat :=
  match host_bits with
  | O => Ok O
  | S smaller =>
      let! end_ := block_end from host_bits in
      if address_less to end_ then shrink_host_bits from to smaller else Ok host_bits
  end.

(** The host bits of the next block of a range and the block's last address. *)
Definition split_block (from to : list Z) : result SrsDecodeError (nat * list Z) :=
  let! host_bits := shrink_host_bits from to (address_trailing_zero_bits from) in
  let! end_ := block_end from host_bits in
  Ok (host_bits, end_).

(** ** Text *)

Definition format_ipv4 (address : list Z) : string :=
  let octet i := to_string (nth i address 0) in
  octet 0%nat +:+ "." +:+ octet 1%nat +:+ "." +:+ octet 2%nat +:+ "." +:+ octet 3%nat.

Definition address_groups (address : list Z) : list Z :=
  (λ i, Z.lor (Z.shiftl (nth (i * 2) address 0) 8) (nth (i * 2 + 1) address 0)) <$> seq 0 8.

(** [while (end < groups.size() && groups[end] == 0) ++end;], as the length of the run. *)
Fixpoint zero_run (groups : list Z) : nat :=
  match groups with
  | g :: groups => if g =? 0 then S (zero_run groups) else 0
  | [] => 0
  end.

(** The search for the longest run of zero groups, of two or more; a round passes over at
    least one group. *)
Fixpoint best_run (fuel index : nat) (groups : list Z) (best : nat * nat) : nat * nat :=
  match fuel, groups with
  | S fuel, g :: rest =>
      if negb (g =? 0) then best_run fuel (S index) rest best
      else
        let n := zero_run groups in
        let best := if (best.2 <? n)%nat && (2 <=? n)%nat then (index, n) else best in
        best_run fuel (index + n) (drop n groups) best
  | _, _ => best
  end.

Fixpoint print_groups (fuel index : nat) (groups : list Z) (best_start best_length : nat)
    : string :=
  match fuel, groups with
  | S fuel, g :: rest =>
      if (index =? best_start)%nat then
        "::" +:+ print_groups fuel (index + best_length) (drop best_length groups)
                   best_start best_length
      else
        (if negb (index =? 0)%nat && negb (index =? best_start + best_length)%nat
         then ":" else "")
        +:+ to_hex g +:+ print_groups fuel (S index) rest best_start best_length
  | _, _ => ""
  end.

Definition format_ipv6 (address : list Z) : string :=
  let groups := address_groups address in
  let best := best_run 8 0 groups (8%nat, 0%nat) in
  print_groups 8 0 groups best.1 best.2.

Definition format_address (address : list Z) : string :=
  if (length address =? 4)%nat then format_ipv4 address else format_ipv6 address.

(** [format_address(from) + "/" + std::to_string(address_bits - host_bits)] *)
Definition format_cidr (from : list Z) (host_bits : nat) : string :=
  format_address from +:+ "/" +:+
  to_string (Z.of_nat (length from) * 8 - Z.of_nat host_bits).

Example format_ipv6_test :
  format_address [32;1;13;184;0;0;0;0;0;0;0;0;0;0;0;1] = "2001:db8::1"
  ∧ format_address (replicate 16 0) = "::"
  ∧ format_address ([0;1;0;0;0;0;0;1;0;0;0;0;0;0;0;5]) = "1:0:0:1::5"
  ∧ format_cidr [10;0;0;0] 24 = "10.0.0.0/8".
Proof. vm_compute. repeat split; reflexivity. Qed.

(** ** The number an address denotes *)

Fixpoint addr_value (bytes : list Z) : Z :=
  match bytes with
  | [] => 0
  | b :: bytes => b * 256 ^ Z.of_nat (length bytes) + addr_value bytes
  end.

Lemma pow256_succ n : 256 ^ Z.of_nat (S n) = 256 * 256 ^ Z.of_nat n.
Proof. rewrite Nat2Z.inj_succ, Z.pow_succ_r by lia. done. Qed.

Lemma pow256_pos n : 0 < 256 ^ Z.of_nat n.
Proof. apply Z.pow_pos_nonneg; lia. Qed.

Lemma pow256_pow2 n : 256 ^ Z.of_nat n = 2 ^ Z.of_nat (8 * n).
Proof. change 256 with (2 ^ 8). rewrite <- Z.pow_mul_r by lia. f_equal. lia. Qed.

Lemma addr_value_range bytes :
  Forall byte_ok bytes → 0 ≤ addr_value bytes < 256 ^ Z.of_nat (length bytes).
Proof.
  induction 1 as [|b l Hb Hl IH]; [done|]. cbn [addr_value length]. rewrite pow256_succ.
  unfold byte_ok in Hb. pose proof (pow256_pos (length l)). nia.
Qed.

Lemma addr_value_app l l' :
  addr_value (l ++ l') = addr_value l * 256 ^ Z.of_nat (length l') + addr_value l'.
Proof.
  induction l as [|b l IH]; [done|]. cbn. rewrite IH, length_app, Nat2Z.inj_add, Z.pow_add_r by lia.
  lia.
Qed.

Lemma addr_value_inj l l' :
  Forall byte_ok l → Forall byte_ok l' → length l = length l' → addr_value l = addr_value l' → l = l'.
Proof.
  intros Hl. revert l'. induction Hl as [|b l Hb Hl IH]; intros [|b' l'] Hl' Hlen; try done.
  apply Forall_cons in Hl' as [Hb' Hl']. injection Hlen as Hlen. cbn. rewrite Hlen. intros He.
  pose proof (addr_value_range _ Hl) as Hr. pose proof (addr_value_range _ Hl') as Hr'.
  rewrite Hlen in Hr. assert (b = b') as -> by nia. f_equal. apply IH; [done..|lia].
Qed.

Lemma address_less_spec l l' :
  Forall byte_ok l → Forall byte_ok l' → length l = length l' →
  address_less l l' = (addr_value l <? addr_value l').
Proof.
  intros Hl. revert l'. induction Hl as [|b l Hb Hl IH]; intros [|b' l'] Hl' Hlen; try done.
  apply Forall_cons in Hl' as [Hb' Hl']. injection Hlen as Hlen. cbn. rewrite Hlen.
  pose proof (addr_value_range _ Hl) as Hr. pose proof (addr_value_range _ Hl') as Hr'.
  rewrite Hlen in Hr. unfold byte_ok in *.
  destruct (Z.ltb_spec b b'); [symmetry; apply Z.ltb_lt; nia|].
  destruct (Z.ltb_spec b' b); [symmetry; apply Z.ltb_ge; nia|].
  assert (b = b') as -> by lia. rewrite IH by done.
  destruct (Z.ltb_spec (addr_value l) (addr_value l')); symmetry; [apply Z.ltb_lt|apply Z.ltb_ge]; lia.
Qed.

(** ** Trailing zeros *)

(** [2 ^ k] divides [n] and no higher power of two below [2 ^ m] does. *)
Lemma byte_trailing_zeros_spec v :
  0 < v < 256 → ∃ q, v = (2 * q + 1) * 2 ^ Z.of_nat (byte_trailing_zeros 8 v)
                     ∧ (byte_trailing_zeros 8 v < 8)%nat.
Proof.
  intros Hv.
  assert (Forall (λ v, v = 0 ∨ Z.odd (v / 2 ^ Z.of_nat (byte_trailing_zeros 8 v)) = true
      ∧ v mod 2 ^ Z.of_nat (byte_trailing_zeros 8 v) = 0
      ∧ (byte_trailing_zeros 8 v < 8)%nat) byte_values) as Hall.
  { apply Forall_forall. intros x Hx. apply list_elem_of_In in Hx. revert x Hx.
    apply Stdlib.Lists.List.Forall_forall. unfold byte_values. cbn [seq fmap list_fmap].
    repeat (apply Stdlib.Lists.List.Forall_cons; [first [by left|right; vm_compute; repeat split; lia]|]).
    constructor. }
  rewrite Forall_forall in Hall.
  destruct (Hall v) as [?|(Ho & Hm & Hlt)]; [apply list_elem_of_In, elem_of_byte_values; lia|lia|].
  set (k := byte_trailing_zeros 8 v) in *. apply Z.odd_spec in Ho as [q Hq].
  exists q. split; [|done]. pose proof (Z.div_mod v (2 ^ Z.of_nat k) ltac:(lia)). lia.
Qed.

Lemma trailing_zeros_snoc l v :
  address_trailing_zero_bits (l ++ [v]) =
  if v =? 0 then (8 + address_trailing_zero_bits l)%nat else byte_trailing_zeros 8 v.
Proof. unfold address_trailing_zero_bits. by rewrite rev_app_distr. Qed.

Lemma trailing_zeros_spec l :
  Forall byte_ok l →
  (addr_value l = 0 ∧ address_trailing_zero_bits l = (8 * length l)%nat) ∨
  (∃ q, addr_value l = (2 * q + 1) * 2 ^ Z.of_nat (address_trailing_zero_bits l)
        ∧ (address_trailing_zero_bits l < 8 * length l)%nat).
Proof.
  induction l as [|v l IH] using rev_ind; intros Hl; [by left|].
  apply Forall_app in Hl as [Hl [Hv _]%Forall_cons].
  rewrite trailing_zeros_snoc, addr_value_app, length_app. cbn [addr_value length].
  change (256 ^ Z.of_nat 1) with 256. change (256 ^ Z.of_nat 0) with 1.
  destruct (Z.eqb_spec v 0) as [->|Hne].
  - destruct (IH Hl) as [[Hz Ht]|(q & Hq & Ht)]; [left; lia|right].
    exists q. split; [|lia].
    rewrite Nat2Z.inj_add, Z.pow_add_r by lia. change (2 ^ Z.of_nat 8) with 256. lia.
  - right. destruct (byte_trailing_zeros_spec v) as (q & Hq & Ht); [unfold byte_ok in Hv; lia|].
    exists (addr_value l * 2 ^ (7 - Z.of_nat (byte_trailing_zeros 8 v)) + q). split; [|lia].
    set (k := byte_trailing_zeros 8 v) in *.
    assert (256 = 2 * 2 ^ (7 - Z.of_nat k) * 2 ^ Z.of_nat k) as Hp.
    { rewrite <- Z.mul_assoc, <- Z.pow_add_r by lia.
      replace (7 - Z.of_nat k + Z.of_nat k) with 7 by lia. done. }
    rewrite Hp at 1. rewrite Hq at 1. lia.
Qed.

Lemma trailing_zeros_le l :
  Forall byte_ok l → (address_trailing_zero_bits l ≤ 8 * length l)%nat.
Proof. intros Hl. destruct (trailing_zeros_spec l Hl) as [[_ ->]|(q & _ & ?)]; lia. Qed.

Lemma trailing_zeros_divide l :
  Forall byte_ok l → (2 ^ Z.of_nat (address_trailing_zero_bits l) | addr_value l).
Proof.
  intros Hl. destruct (trailing_zeros_spec l Hl) as [[-> _]|(q & -> & _)].
  - apply Z.divide_0_r.
  - apply Z.divide_factor_r.
Qed.

(** The next higher power divides what follows an aligned block. *)
Lemma trailing_zeros_next l l' h :
  Forall byte_ok l → Forall byte_ok l' → length l' = length l →
  h = address_trailing_zero_bits l →
  addr_value l' = addr_value l + 2 ^ Z.of_nat h → (h < address_trailing_zero_bits l')%nat.
Proof.
  intros Hl Hl' Hlen -> Hv.
  pose proof (addr_value_range _ Hl) as Hr. pose proof (addr_value_range _ Hl') as Hr'.
  rewrite Hlen in Hr'. set (h := address_trailing_zero_bits l) in *.
  destruct (trailing_zeros_spec l Hl) as [[Hz Ht]|(q & Hq & Ht)]; fold h in Ht.
  - exfalso. rewrite Hz, Ht, <- pow256_pow2 in Hv. lia.
  - fold h in Hq. destruct (trailing_zeros_spec l' Hl') as [[Hz' Ht']|(q' & Hq' & Ht')]; [lia|].
    set (h' := address_trailing_zero_bits l') in *.
    destruct (le_lt_dec h' h) as [Hle|]; [exfalso|done].
    assert (addr_value l' = (q + 1) * 2 * 2 ^ Z.of_nat (h - h') * 2 ^ Z.of_nat h') as He.
    { rewrite Hv, Hq. rewrite <- (Z.mul_assoc _ (2 ^ _)), <- Z.pow_add_r by lia.
      replace (Z.of_nat (h - h') + Z.of_nat h') with (Z.of_nat h) by lia. lia. }
    rewrite Hq' in He. apply Z.mul_reg_r in He; [lia|]. apply Z.pow_nonzero; lia.
Qed.

(** ** The end of a block *)

Lemma rfold_app {E A B} (f : A → B → result E A) a l l' :
  rfold f a (l ++ l') = rbind (rfold f a l) (λ a, rfold f a l').
Proof. revert a. induction l as [|x l IH]; intros a; [done|]. cbn. destruct (f a x); cbn; auto. Qed.

Lemma testbit_div x n : 0 ≤ n → Z.testbit x n = Z.odd (x / 2 ^ n).
Proof. intros. rewrite Z.testbit_odd, Z.shiftr_div_pow2 by lia. done. Qed.

Lemma lor_pow2_byte b n :
  0 ≤ n < 8 → byte_ok b → Z.testbit b n = false →
  Z.lor b (Z.shiftl 1 n) = b + 2 ^ n ∧ byte_ok (b + 2 ^ n).
Proof.
  intros Hn Hb Ht.
  assert (Z.lor b (Z.shiftl 1 n) = b + 2 ^ n) as He.
  { rewrite Z.shiftl_1_l. assert (Z.land b (2 ^ n) = 0) as Hz.
    { apply Z.bits_inj'. intros m Hm. rewrite Z.land_spec, Z.pow2_bits_eqb, Z.bits_0 by lia.
      destruct (Z.eqb_spec n m) as [<-|]; [by rewrite Ht|by rewrite andb_false_r]. }
    pose proof (Z.add_lor_land b (2 ^ n)). lia. }
  split; [done|]. rewrite <- He. unfold byte_ok in *.
  assert (0 ≤ Z.lor b (Z.shiftl 1 n)) by (apply Z.lor_nonneg; split; [lia|apply Z.shiftl_nonneg; lia]).
  split; [done|]. destruct (Z.eq_dec (Z.lor b (Z.shiftl 1 n)) 0) as [->|Hz]; [lia|].
  apply (Z.log2_lt_pow2 _ 8); [lia|]. rewrite Z.log2_lor by (try apply Z.shiftl_nonneg; lia).
  apply Z.max_lub_lt.
  - destruct (Z.eq_dec b 0) as [->|]; [cbn; lia|]. apply Z.log2_lt_pow2; lia.
  - rewrite Z.shiftl_1_l, Z.log2_pow2; lia.
Qed.

(** The byte that [set_host_bit] changes. *)
Lemma host_byte_split (l : list Z) k :
  (k < length l)%nat →
  ∃ hi b lo, l = hi ++ b :: lo ∧ length hi = (length l - 1 - k)%nat ∧ length lo = k.
Proof.
  intros Hk. destruct (lookup_lt_is_Some_2 l (length l - 1 - k)) as [b Hb]; [lia|].
  exists (take (length l - 1 - k) l), b, (drop (S (length l - 1 - k)) l).
  split; [by rewrite take_drop_middle|]. rewrite length_take, length_drop. lia.
Qed.

Lemma host_byte_testbit hi b lo n :
  Forall byte_ok (hi ++ b :: lo) → 0 ≤ n < 8 →
  Z.testbit (addr_value (hi ++ b :: lo)) (8 * Z.of_nat (length lo) + n) = Z.testbit b n.
Proof.
  intros Hl Hn. apply Forall_app in Hl as [Hhi [Hb Hlo]%Forall_cons].
  rewrite addr_value_app. cbn [addr_value length]. rewrite pow256_succ, pow256_pow2.
  pose proof (addr_value_range _ Hlo) as Hr. rewrite pow256_pow2 in Hr.
  rewrite !testbit_div by lia. rewrite Z.pow_add_r by lia.
  replace (8 * Z.of_nat (length lo)) with (Z.of_nat (8 * length lo)) by lia.
  set (p := 2 ^ Z.of_nat (8 * length lo)) in *.
  rewrite <- Z.div_div by lia.
  replace ((addr_value hi * (256 * p) + (b * p + addr_value lo)) / p)
    with (addr_value hi * 256 + b).
  2: { apply (Z.div_unique _ _ _ (addr_value lo)); lia. }
  replace (addr_value hi * 256) with (addr_value hi * 2 ^ (8 - n - 1) * 2 * 2 ^ n).
  2: { rewrite <- !Z.mul_assoc. f_equal. change 2 with (2 ^ 1) at 2.
       rewrite <- !Z.pow_add_r by lia. replace (8 - n - 1 + (1 + n)) with 8 by lia. done. }
  rewrite Z.div_add_l by (apply Z.pow_nonzero; lia).
  rewrite Z.odd_add, Z.odd_mul, andb_comm. done.
Qed.

Lemma set_host_bit_spec l offset :
  Forall byte_ok l → (offset < 8 * length l)%nat →
  Z.testbit (addr_value l) (Z.of_nat offset) = false →
  ∃ l', set_host_bit l offset = Ok l' ∧ Forall byte_ok l' ∧ length l' = length l ∧
        addr_value l' = addr_value l + 2 ^ Z.of_nat offset.
Proof.
  intros Hl Ho Hbit. unfold set_host_bit.
  assert (offset / 8 < length l)%nat as Hk by (apply Nat.Div0.div_lt_upper_bound; lia).
  destruct (Nat.leb_spec (length l) (offset / 8)); [lia|].
  destruct (host_byte_split l (offset / 8) Hk) as (hi & b & lo & -> & Hhi & Hlo).
  rewrite <- Hhi, alter_app_r_alt, Nat.sub_diag by lia.
  cbn [alter list_alter].
  pose proof (Nat.mod_upper_bound offset 8 ltac:(lia)) as Hm.
  pose proof (Nat.div_mod_eq offset 8) as Hdm.
  assert (Z.testbit b (Z.of_nat (offset mod 8)) = false) as Hb.
  { rewrite <- (host_byte_testbit hi b lo), Hlo by (done || lia).
    rewrite <- Hbit. f_equal. lia. }
  apply Forall_app in Hl as [Hhi' [Hb' Hlo']%Forall_cons].
  destruct (lor_pow2_byte b (Z.of_nat (offset mod 8))) as [He Hby]; [lia|done..|].
  rewrite He. eexists. split; [done|]. split; [|split].
  - apply Forall_app. split; [done|]. by constructor.
  - by rewrite !length_app.
  - rewrite !addr_value_app. cbn [length addr_value]. rewrite Hlo, pow256_pow2.
    replace (Z.of_nat offset) with (Z.of_nat (offset mod 8) + Z.of_nat (8 * (offset / 8))) by lia.
    rewrite Z.pow_add_r, !pow256_pow2 by lia. lia.
Qed.

Lemma block_end_spec l h :
  Forall byte_ok l → (h ≤ address_trailing_zero_bits l)%nat →
  ∃ l', block_end l h = Ok l' ∧ Forall byte_ok l' ∧ length l' = length l ∧
        addr_value l' = addr_value l + 2 ^ Z.of_nat h - 1.
Proof.
  intros Hl. pose proof (trailing_zeros_le l Hl) as Hle. unfold block_end.
  induction h as [|h IH]; intros Hh.
  { exists l. split; [done|]. split; [done|]. split; [done|]. cbn. lia. }
  destruct IH as (m & Hm & Hby & Hlen & Hv); [lia|].
  rewrite seq_S, rfold_app, Hm. cbn.
  destruct (set_host_bit_spec m h) as (l' & Hl' & Hby' & Hlen' & Hv'); [done|lia| |].
  { destruct (trailing_zeros_divide l Hl) as [c Hc]. rewrite Hv, Hc.
    set (t := address_trailing_zero_bits l) in *.
    replace (Z.of_nat t) with (Z.of_nat (t - h - 1) + 1 + Z.of_nat h) by lia.
    rewrite !Z.pow_add_r by lia. rewrite testbit_div by lia.
    replace ((c * (2 ^ Z.of_nat (t - h - 1) * 2 ^ 1 * 2 ^ Z.of_nat h) + 2 ^ Z.of_nat h - 1)
              / 2 ^ Z.of_nat h) with (2 * (c * 2 ^ Z.of_nat (t - h - 1))).
    - by rewrite Z.odd_mul.
    - pose proof (Z.pow_pos_nonneg 2 (Z.of_nat h) ltac:(lia) ltac:(lia)).
      apply (Z.div_unique _ _ _ (2 ^ Z.of_nat h - 1)); [lia|]. change (2 ^ 1) with 2. lia. }
  rewrite Hl'. exists l'. cbn. split; [done|]. split; [done|]. split; [congruence|].
  rewrite Hv', Hv. rewrite Nat2Z.inj_succ, Z.pow_succ_r by lia. lia.
Qed.

(** ** The next address and the next block *)

Lemma increment_address_snoc l v :
  increment_address (l ++ [v]) =
  if negb (v =? 255) then Some (l ++ [v + 1])
  else match increment_address l with Some l' => Some (l' ++ [0]) | None => None end.
Proof.
  unfold increment_address. rewrite rev_app_distr. cbn.
  destruct (negb (v =? 255)); cbn; [by rewrite rev_involutive|]. by destruct (increment_rev (rev l)).
Qed.

Lemma increment_address_spec l :
  Forall byte_ok l → addr_value l + 1 < 256 ^ Z.of_nat (length l) →
  ∃ l', increment_address l = Some l' ∧ Forall byte_ok l' ∧ length l' = length l ∧
        addr_value l' = addr_value l + 1.
Proof.
  induction l as [|v l IH] using rev_ind; intros Hl; [cbn; lia|].
  apply Forall_app in Hl as [Hl [Hv _]%Forall_cons].
  rewrite increment_address_snoc, addr_value_app, length_app. cbn [addr_value length].
  rewrite Nat.add_1_r, (pow256_succ (length l)). change (256 ^ Z.of_nat 1) with 256.
  change (256 ^ Z.of_nat 0) with 1. intros Hlt. unfold byte_ok in *.
  destruct (Z.eqb_spec v 255) as [->|Hne]; cbn [negb].
  - destruct IH as (l' & -> & Hl' & Hlen & Hv'); [done|lia|].
    exists (l' ++ [0]). split; [done|]. split; [|split].
    + apply Forall_app. split; [done|]. by repeat constructor.
    + rewrite length_app, Hlen. cbn. lia.
    + rewrite addr_value_app. cbn [addr_value length]. change (256 ^ Z.of_nat 1) with 256. lia.
  - exists (l ++ [v + 1]). split; [done|]. split; [|split].
    + apply Forall_app. split; [done|]. constructor; [unfold byte_ok; lia|done].
    + by rewrite length_app, Nat.add_1_r.
    + rewrite addr_value_app. cbn [addr_value length]. change (256 ^ Z.of_nat 1) with 256.
      change (256 ^ Z.of_nat 0) with 1. lia.
Qed.

(** A block of [2 ^ h] addresses at [from] is aligned and ends no later than [to]. *)
Definition block_fits (from : Z) (h : nat) (to : Z) : Prop :=
  (2 ^ Z.of_nat h | from) ∧ from + 2 ^ Z.of_nat h - 1 ≤ to.

Lemma pow2_divide_le a b : (a ≤ b)%nat → (2 ^ Z.of_nat a | 2 ^ Z.of_nat b).
Proof.
  intros Hle. exists (2 ^ Z.of_nat (b - a)). rewrite <- Z.pow_add_r by lia. f_equal. lia.
Qed.

Lemma shrink_host_bits_spec from to h :
  Forall byte_ok from → Forall byte_ok to → length from = length to →
  addr_value from ≤ addr_value to → (h ≤ address_trailing_zero_bits from)%nat →
  ∃ k, shrink_host_bits from to h = Ok k ∧ (k ≤ h)%nat ∧
       addr_value from + 2 ^ Z.of_nat k - 1 ≤ addr_value to ∧
       (∀ k', (k < k' ≤ h)%nat → addr_value to < addr_value from + 2 ^ Z.of_nat k' - 1).
Proof.
  intros Hf Ht Hlen Hle. induction h as [|h IH]; intros Hh; cbn [shrink_host_bits].
  { exists 0%nat. split; [done|]. split; [lia|]. split; [cbn; lia|]. lia. }
  destruct (block_end_spec from (S h) Hf Hh) as (e & He & Hby & Hlen' & Hv).
  rewrite He. cbn [rbind]. rewrite address_less_spec by (done || congruence). rewrite Hv.
  destruct (Z.ltb_spec (addr_value to) (addr_value from + 2 ^ Z.of_nat (S h) - 1)).
  - destruct IH as (k & Hk & Hkh & Hfit & Hmax); [lia|]. exists k. split; [done|].
    split; [lia|]. split; [done|]. intros k' Hk'. destruct (decide (k' = S h)) as [->|]; [done|].
    apply Hmax. lia.
  - exists (S h). split; [done|]. split; [lia|]. split; [done|]. lia.
Qed.

Lemma divide_trailing_zeros l h :
  Forall byte_ok l → (2 ^ Z.of_nat h | addr_value l) → (h ≤ 8 * length l)%nat →
  (h ≤ address_trailing_zero_bits l)%nat.
Proof.
  intros Hl [c Hc] Hle. destruct (trailing_zeros_spec l Hl) as [[Hz ->]|(q & Hq & Ht)]; [done|].
  set (t := address_trailing_zero_bits l) in *.
  destruct (le_lt_dec h t) as [|Hlt]; [done|exfalso].
  replace (Z.of_nat h) with (Z.of_nat (h - t - 1) + 1 + Z.of_nat t) in Hc by lia.
  rewrite !Z.pow_add_r, Hq in Hc by lia. change (2 ^ 1) with 2 in Hc.
  rewrite Z.mul_assoc in Hc. apply Z.mul_reg_r in Hc; [lia|]. apply Z.pow_nonzero; lia.
Qed.

Lemma fits_bits from h to len :
  0 ≤ from → to < 256 ^ Z.of_nat len → block_fits from h to → (h ≤ 8 * len)%nat.
Proof.
  intros Hf Hto [_ Hle]. rewrite pow256_pow2 in Hto.
  destruct (le_lt_dec h (8 * len)) as [|Hlt]; [done|exfalso].
  pose proof (Z.pow_lt_mono_r 2 (Z.of_nat (8 * len)) (Z.of_nat h)). lia.
Qed.

Lemma fits_trailing_zeros from h to :
  Forall byte_ok from → addr_value to < 256 ^ Z.of_nat (length from) →
  block_fits (addr_value from) h (addr_value to) → (h ≤ address_trailing_zero_bits from)%nat.
Proof.
  intros Hf Hto Hfit. pose proof (addr_value_range _ Hf).
  apply divide_trailing_zeros; [done|apply Hfit|]. eapply fits_bits; [|done..]. lia.
Qed.

(** The next block of a range is the largest that is aligned and fits. *)
Lemma split_block_spec from to :
  Forall byte_ok from → Forall byte_ok to → length from = length to →
  addr_value from ≤ addr_value to →
  ∃ h e, split_block from to = Ok (h, e) ∧ Forall byte_ok e ∧ length e = length from ∧
         addr_value e = addr_value from + 2 ^ Z.of_nat h - 1 ∧
         (h ≤ address_trailing_zero_bits from)%nat ∧
         block_fits (addr_value from) h (addr_value to) ∧
         (∀ k, block_fits (addr_value from) k (addr_value to) → (k ≤ h)%nat).
Proof.
  intros Hf Ht Hlen Hle. unfold split_block.
  destruct (shrink_host_bits_spec from to _ Hf Ht Hlen Hle (le_n _)) as (h & Hh & Hht & Hfit & Hmax).
  rewrite Hh. cbn [rbind]. destruct (block_end_spec from h Hf Hht) as (e & He & Hby & Hlen' & Hv).
  rewrite He. cbn [rbind]. exists h, e. split; [done|]. split; [done|]. split; [done|]. split; [done|].
  split; [done|]. split.
  - split; [|done]. etrans; [by apply pow2_divide_le|]. by apply trailing_zeros_divide.
  - intros k Hk. destruct (le_lt_dec k h) as [|Hlt]; [done|exfalso].
    pose proof (addr_value_range _ Ht) as Hr. rewrite <- Hlen in Hr.
    specialize (Hmax k). destruct Hk as [Hd Hk]. enough (k ≤ address_trailing_zero_bits from)%nat by lia.
    apply (fits_trailing_zeros from k to); [done|lia|done].
Qed.

(** ** The cover of a range *)

(** [range_cover to v blocks]: the blocks cover the numbers from [v] to [to], one after
    the other, each the largest aligned block that starts where it starts and fits. *)
Inductive range_cover (to : Z) : Z → list (list Z * nat) → Prop :=
| cover_last f h :
    block_fits (addr_value f) h to → (∀ k, block_fits (addr_value f) k to → (k ≤ h)%nat) →
    addr_value f + 2 ^ Z.of_nat h = to + 1 →
    range_cover to (addr_value f) [(f, h)]
| cover_more f h v rest :
    block_fits (addr_value f) h to → (∀ k, block_fits (addr_value f) k to → (k ≤ h)%nat) →
    v = addr_value f + 2 ^ Z.of_nat h →
    range_cover to v rest →
    range_cover to (addr_value f) ((f, h) :: rest).

Lemma range_cover_exact to v blocks x :
  range_cover to v blocks →
  v ≤ x ≤ to ↔
  Exists (λ b, addr_value (b.1) ≤ x < addr_value (b.1) + 2 ^ Z.of_nat (b.2)) blocks.
Proof.
  assert (∀ h, 0 < 2 ^ Z.of_nat h) as Hp by (intros; apply Z.pow_pos_nonneg; lia).
  induction 1 as [f h Hf Hm He|f h v rest [Hd Hf] Hm -> Hr IH].
  - rewrite Exists_cons, Exists_nil. cbn. lia.
  - rewrite Exists_cons, <- IH. cbn. specialize (Hp h). lia.
Qed.

(** ** How many blocks a range has *)

Definition range_measure (from to : list Z) : nat :=
  let size := Z.to_nat (Z.log2 (addr_value to - addr_value from + 1)) in
  let zeros := address_trailing_zero_bits from in
  if (size <=? zeros)%nat then size else (8 * length from - zeros + 8 * length from)%nat.

Lemma range_measure_le from to :
  Forall byte_ok from → Forall byte_ok to → length from = length to →
  addr_value from ≤ addr_value to → (range_measure from to ≤ 16 * length from)%nat.
Proof.
  intros Hf Ht Hlen Hle. unfold range_measure. pose proof (trailing_zeros_le from Hf).
  destruct (Nat.leb_spec (Z.to_nat (Z.log2 (addr_value to - addr_value from + 1)))
              (address_trailing_zero_bits from)); lia.
Qed.

Lemma log2_range_le from to :
  Forall byte_ok from → Forall byte_ok to → length from = length to →
  addr_value from ≤ addr_value to →
  (Z.to_nat (Z.log2 (addr_value to - addr_value from + 1)) ≤ 8 * length from)%nat.
Proof.
  intros Hf Ht Hlen Hle. pose proof (addr_value_range _ Hf) as Hr. pose proof (addr_value_range _ Ht) as Hr'.
  rewrite <- Hlen, pow256_pow2 in Hr'.
  pose proof (Z.log2_le_mono (addr_value to - addr_value from + 1) (2 ^ Z.of_nat (8 * length from))).
  rewrite Z.log2_pow2 in * by lia. lia.
Qed.

(** Once the size of what is left is no larger than the alignment it shrinks with every
    block; until then the alignment grows. *)
Lemma range_measure_next from to h next :
  Forall byte_ok from → Forall byte_ok to → Forall byte_ok next →
  length from = length to → length next = length from →
  addr_value from ≤ addr_value to →
  block_fits (addr_value from) h (addr_value to) →
  (∀ k, block_fits (addr_value from) k (addr_value to) → (k ≤ h)%nat) →
  addr_value next = addr_value from + 2 ^ Z.of_nat h → addr_value next ≤ addr_value to →
  (range_measure next to < range_measure from to)%nat.
Proof.
  intros Hf Ht Hn Hlen Hlen' Hle Hfit Hmax Hv Hle'.
  pose proof (addr_value_range _ Hf) as Hrf. pose proof (addr_value_range _ Ht) as Hrt.
  pose proof (log2_range_le from to Hf Ht Hlen Hle) as HL.
  pose proof (log2_range_le next to Hn Ht ltac:(lia) Hle') as HL'. rewrite Hlen' in HL'.
  unfold range_measure.
  set (d := addr_value to - addr_value from + 1) in *.
  set (d' := addr_value to - addr_value next + 1) in *.
  assert (0 < d) by lia. assert (0 < d') by lia.
  pose proof (Z.log2_spec d ltac:(lia)) as [Hd1 Hd2]. pose proof (Z.log2_nonneg d).
  pose proof (Z.log2_nonneg d').
  set (t := address_trailing_zero_bits from) in *. rewrite Hlen'.
  assert (h ≤ t)%nat as Hht by (apply (fits_trailing_zeros from h to); [done|rewrite Hlen; lia|done]).
  assert (∀ k, (k ≤ t)%nat → 2 ^ Z.of_nat k ≤ d → (k ≤ h)%nat) as Hge.
  { intros k Hk Hkd. apply Hmax. split; [|lia].
    etrans; [by apply pow2_divide_le|]. by apply trailing_zeros_divide. }
  destruct (Nat.leb_spec (Z.to_nat (Z.log2 d)) t) as [Hp|Hp].
  - assert (Z.to_nat (Z.log2 d) ≤ h)%nat as Hh by (apply Hge; [done|rewrite Z2Nat.id by lia; lia]).
    assert (d' < 2 ^ Z.of_nat (Z.to_nat (Z.log2 d))) as Hsmall.
    { assert (2 ^ Z.of_nat (Z.to_nat (Z.log2 d)) ≤ 2 ^ Z.of_nat h) by (apply Z.pow_le_mono_r; lia).
      rewrite Z2Nat.id in * by lia. rewrite Z.pow_succ_r in Hd2 by lia. lia. }
    assert (Z.log2 d' < Z.log2 d) as Hlog.
    { apply Z.log2_lt_pow2; [lia|]. by rewrite Z2Nat.id in Hsmall by lia. }
    assert (h ≤ address_trailing_zero_bits next)%nat as Htn.
    { apply divide_trailing_zeros; [done| |].
      - rewrite Hv. apply Z.divide_add_r; [apply Hfit|done].
      - rewrite Hlen'. pose proof (trailing_zeros_le from Hf) as Ht8. fold t in Ht8. lia. }
    destruct (Nat.leb_spec (Z.to_nat (Z.log2 d')) (address_trailing_zero_bits next)); lia.
  - assert (h = t) as ->.
    { apply Nat.le_antisymm; [done|]. apply Hge; [done|].
      assert (2 ^ Z.of_nat t ≤ 2 ^ Z.log2 d) by (apply Z.pow_le_mono_r; lia). lia. }
    pose proof (trailing_zeros_next from next t Hf Hn Hlen' eq_refl Hv) as Hnext.
    pose proof (trailing_zeros_le next Hn) as Htn. rewrite Hlen' in Htn.
    destruct (Nat.leb_spec (Z.to_nat (Z.log2 d')) (address_trailing_zero_bits next)); lia.
Qed.
