(* ===== verification/SrsDecoder.v ===== *)
(** * Binary rule sets: the decoder

    src/src/lists/srs_decoder.cpp, [Decoder] and the entry points, over any [ByteReader].
    A computation works on the fields of the decoder, its reader among them. Texts of
    domains are lists of bytes. Indices into vectors are natural numbers: they stay below
    the sizes of the vectors. A read outside a vector is the outcome [SrsOutOfRange]. *)

From Stdlib Require Import ZArith Lia Ascii String.
From stdpp Require Import base strings list.
From S2P Require Import Prelude StateError SrsReader SrsAddress.
Open Scope Z_scope.

(** ** Pure helpers *)

Definition bit_is_set (words : list Z) (bit : nat) : option bool :=
  word ← words !! (bit / 64)%nat;
  Some (negb (Z.land word (Z.shiftl 1 (Z.of_nat (bit mod 64))) =? 0)).

Definition any_bits_set_from (words : list Z) (start_bit : nat) : bool :=
  if (length words * 64 <=? start_bit)%nat then false
  else
    let word := (start_bit / 64)%nat in
    let offset := Z.of_nat (start_bit mod 64) in
    negb (Z.land (nth word words 0) (u64 (Z.shiftl u64_max offset)) =? 0)
    || existsb (λ value, negb (value =? 0)) (drop (word + 1) words).

(** The length of a UTF-8 sequence and the bits of its first byte. *)
Definition utf8_first (first : Z) : option (nat * Z) :=
  if first <=? 0x7F then Some (1%nat, first)
  else if (0xC2 <=? first) && (first <=? 0xDF) then Some (2%nat, Z.land first 0x1F)
  else if (0xE0 <=? first) && (first <=? 0xEF) then Some (3%nat, Z.land first 0x0F)
  else if (0xF0 <=? first) && (first <=? 0xF4) then Some (4%nat, Z.land first 0x07)
  else None.

Fixpoint utf8_rest (value : Z) (continuations : list Z) : result SrsDecodeError Z :=
  match continuations with
  | [] => Ok value
  | continuation :: continuations =>
      if negb (Z.land continuation 0xC0 =? 0x80) then Throw SrsInvalid
      else utf8_rest (Z.lor (Z.shiftl value 6) (Z.land continuation 0x3F)) continuations
  end.

Definition non_canonical (length : nat) (value : Z) : bool :=
  ((length =? 3)%nat && (value <? 0x800)) || ((length =? 4)%nat && (value <? 0x10000))
  || ((0xD800 <=? value) && (value <=? 0xDFFF)) || (0x10FFFF <? value).

(** The loop that cuts the input into code points; every round takes a byte. *)
Fixpoint utf8_codepoints (fuel : nat) (input : list Z) : result SrsDecodeError (list (list Z)) :=
  match input, fuel with
  | [], _ => Ok []
  | _, O => Throw SrsOutOfFuel
  | first :: rest, S fuel =>
      match utf8_first first with
      | None => Throw SrsInvalid
      | Some (length_, value) =>
          if (length input <? length_)%nat then Throw SrsInvalid
          else
            let! value := utf8_rest value (take (length_ - 1) rest) in
            if non_canonical length_ value then Throw SrsInvalid
            else
              let! codepoints := utf8_codepoints fuel (drop length_ input) in
              Ok (take length_ input :: codepoints)
      end
  end.

Definition reverse_utf8_codepoints (input : list Z) : result SrsDecodeError (list Z) :=
  let! codepoints := utf8_codepoints (length input) input in
  Ok (concat (rev codepoints)).

Definition domain_text_ok (domain : list Z) : bool :=
  negb (length domain =? 0)%nat
  && forallb (λ value, negb ((value <? 0x20) || (value =? 0x7F))) domain.

(** [std::sort] and [std::unique] on strings, which compare as sequences of unsigned
    bytes; [std::binary_search] on a sorted range finds exactly its members. *)
Fixpoint unique_adjacent {A} `{EqDecision A} (l : list A) : list A :=
  match l with
  | [] => []
  | x :: l' =>
      match l' with
      | y :: _ => if decide (x = y) then unique_adjacent l' else x :: unique_adjacent l'
      | [] => [x]
      end
  end.

Definition sort_unique (values : list (list Z)) : list (list Z) :=
  unique_adjacent (stable_sort address_less values).
Definition sort_unique_text (values : list string) : list string :=
  unique_adjacent (stable_sort string_ltb values).
Definition binary_search (values : list (list Z)) (value : list Z) : bool :=
  bool_decide (value ∈ values).

(** ** The data *)

Record SrsDecodeResult := {
  res_version : Z;
  res_domains : list (list Z);
  res_domain_suffixes : list (list Z);
  res_ip_cidrs : list string;
  unsupported_fields : Z;
  skipped_rules : Z;
  inverted_rules : Z
}.

Definition empty_result : SrsDecodeResult := {|
  res_version := 0; res_domains := []; res_domain_suffixes := []; res_ip_cidrs := [];
  unsupported_fields := 0; skipped_rules := 0; inverted_rules := 0 |}.

Record RuleExtraction := {
  ex_domains : list (list Z);
  ex_suffixes : list (list Z);
  ex_cidrs : list string
}.

Definition no_extraction : RuleExtraction :=
  {| ex_domains := []; ex_suffixes := []; ex_cidrs := [] |}.

(** [append_move] on the three lists. *)
Definition append_extraction (a b : RuleExtraction) : RuleExtraction :=
  {| ex_domains := ex_domains a ++ ex_domains b;
     ex_suffixes := ex_suffixes a ++ ex_suffixes b;
     ex_cidrs := ex_cidrs a ++ ex_cidrs b |}.

Record Trie := {
  leaves : list Z;
  bitmap : list Z;
  labels : list Z;
  first_child : list nat;
  child_count : list nat
}.

Inductive RuleItem :=
| QueryType | Network | Domain | DomainKeyword | DomainRegex | SourceIpCidr | IpCidr
| SourcePort | SourcePortRange | Port | PortRange | ProcessName | ProcessPath
| PackageName | WifiSsid | WifiBssid | AdGuardDomain | ProcessPathRegex | NetworkType
| NetworkIsExpensive | NetworkIsConstrained | NetworkInterfaceAddress
| DefaultInterfaceAddress | PackageNameRegex.

#[export] Instance RuleItem_eq_dec : EqDecision RuleItem.
Proof. solve_decision. Defined.

Definition all_items : list RuleItem :=
  [QueryType; Network; Domain; DomainKeyword; DomainRegex; SourceIpCidr; IpCidr;
   SourcePort; SourcePortRange; Port; PortRange; ProcessName; ProcessPath;
   PackageName; WifiSsid; WifiBssid; AdGuardDomain; ProcessPathRegex; NetworkType;
   NetworkIsExpensive; NetworkIsConstrained; NetworkInterfaceAddress;
   DefaultInterfaceAddress; PackageNameRegex].

(** The enumerators count from zero; [Final] is 0xFF. *)
Definition item_of_byte (raw_item : Z) : option RuleItem :=
  if raw_item <? 0 then None else all_items !! Z.to_nat raw_item.

Definition final_item : Z := 0xFF.

Section Decoder.
Context `{SizeT} {R : Type} `{ByteReader R}.
Context (limits : SrsDecodeLimits) (version_ : Z).

Record Decoder := {
  reader_ : R;
  result_ : SrsDecodeResult;
  total_rules_ : Z;
  total_values_ : Z;
  total_string_bytes_ : Z;
  decoded_output_entries_ : Z;
  decoded_output_string_bytes_ : Z
}.

Definition new_decoder (reader : R) : Decoder :=
  {| reader_ := reader; result_ := empty_result; total_rules_ := 0; total_values_ := 0;
     total_string_bytes_ := 0; decoded_output_entries_ := 0;
     decoded_output_string_bytes_ := 0 |}.

Definition set_reader (r : R) (d : Decoder) : Decoder :=
  {| reader_ := r; result_ := result_ d; total_rules_ := total_rules_ d;
     total_values_ := total_values_ d; total_string_bytes_ := total_string_bytes_ d;
     decoded_output_entries_ := decoded_output_entries_ d;
     decoded_output_string_bytes_ := decoded_output_string_bytes_ d |}.

Definition set_totals (rules values strings entries bytes : Z) (d : Decoder) : Decoder :=
  {| reader_ := reader_ d; result_ := result_ d; total_rules_ := rules;
     total_values_ := values; total_string_bytes_ := strings;
     decoded_output_entries_ := entries; decoded_output_string_bytes_ := bytes |}.

(** The increments of the counters of the result. *)
Definition count_result (unsupported skipped inverted : Z) (d : Decoder) : Decoder :=
  {| reader_ := reader_ d;
     result_ := {| res_version := res_version (result_ d); res_domains := res_domains (result_ d);
                   res_domain_suffixes := res_domain_suffixes (result_ d);
                   res_ip_cidrs := res_ip_cidrs (result_ d);
                   unsupported_fields := unsupported_fields (result_ d) + unsupported;
                   skipped_rules := skipped_rules (result_ d) + skipped;
                   inverted_rules := inverted_rules (result_ d) + inverted |};
     total_rules_ := total_rules_ d; total_values_ := total_values_ d;
     total_string_bytes_ := total_string_bytes_ d;
     decoded_output_entries_ := decoded_output_entries_ d;
     decoded_output_string_bytes_ := decoded_output_string_bytes_ d |}.

Abbreviation D := (SE Decoder SrsDecodeError).

(** A call of the reader. *)
Definition on_reader {A} (m : SE R SrsDecodeError A) : D A := λ d,
  match m (reader_ d) with (r, x) => (set_reader r d, x) end.

(** A value the program computes without changing the decoder. *)
Definition of_result {A} (r : result SrsDecodeError A) : D A :=
  match r with Ok a => mret a | Throw e => throw e end.

(** [vector[index]] *)
Definition vector_at {A} (o : option A) : D A :=
  match o with Some a => mret a | None => throw SrsOutOfRange end.

Definition fail_if (b : bool) : D unit := if b then throw SrsInvalid else mret ().

(** [for (index = 0; index < count; ++index)], without and with a vector of results. *)
Definition for_count (count : Z) (body : D unit) : D unit :=
  mfor (λ _, body) (seq 0 (Z.to_nat count)).

Fixpoint collect {A} (count : nat) (body : D A) : D (list A) :=
  match count with
  | O => mret []
  | S count => x ← body; l ← collect count body; mret (x :: l)
  end.

(** ** Reading numbers *)

Definition read_bytes (n : Z) : D (list Z) := on_reader (read_exact (Z.to_nat n)).

Definition read_byte : D Z := l ← read_bytes 1; vector_at (head l).

Fixpoint uvarint_loop (fuel : nat) (index value : Z) : D Z :=
  match fuel with
  | O => throw SrsInvalid
  | S fuel =>
      byte ← read_byte;
      if (index =? 9) && (1 <? byte) then throw SrsInvalid
      else
        let value := Z.lor value (u64 (Z.shiftl (Z.land byte 0x7F) (index * 7))) in
        if Z.land byte 0x80 =? 0 then
          if negb (index =? 0) && (Z.land byte 0x7F =? 0) then throw SrsInvalid
          else mret value
        else uvarint_loop fuel (index + 1) value
  end.

Definition read_uvarint : D Z := uvarint_loop 10 0 0.

Definition checked_size (value limit : Z) : D Z :=
  if limit <? value then throw SrsInvalid
  else if size_max <? value then throw SrsInvalid
  else mret value.

Definition read_count (limit : Z) : D Z := value ← read_uvarint; checked_size value limit.

Definition read_be_u64 : D Z :=
  bytes ← read_bytes 8;
  mret (fold_left (λ value byte, Z.lor (u64 (Z.shiftl value 8)) byte) bytes 0).

Definition read_be_u16 : D Z :=
  bytes ← read_bytes 2;
  mret (Z.lor (Z.shiftl (nth 0 bytes 0) 8) (nth 1 bytes 0)).

Definition read_bool : D bool :=
  value ← read_byte;
  if 1 <? value then throw SrsInvalid else mret (negb (value =? 0)).

(** ** Accounting *)

Definition account_values (count : Z) : D unit :=
  d ← gets id;
  _ ← fail_if (usize (max_values limits - total_values_ d) <? count);
  modify (set_totals (total_rules_ d) (usize (total_values_ d + count)) (total_string_bytes_ d)
            (decoded_output_entries_ d) (decoded_output_string_bytes_ d)).

Definition account_string_bytes (count : Z) : D unit :=
  d ← gets id;
  _ ← fail_if (usize (max_total_string_bytes limits - total_string_bytes_ d) <? count);
  modify (set_totals (total_rules_ d) (total_values_ d) (usize (total_string_bytes_ d + count))
            (decoded_output_entries_ d) (decoded_output_string_bytes_ d)).

Definition account_output (count : Z) : D unit :=
  d ← gets id;
  _ ← fail_if (usize (max_output_entries limits - decoded_output_entries_ d) <? count);
  modify (set_totals (total_rules_ d) (total_values_ d) (total_string_bytes_ d)
            (usize (decoded_output_entries_ d + count)) (decoded_output_string_bytes_ d)).

Definition account_output_string_bytes (count : Z) : D unit :=
  d ← gets id;
  _ ← fail_if (usize (max_output_string_bytes limits - decoded_output_string_bytes_ d) <? count);
  modify (set_totals (total_rules_ d) (total_values_ d) (total_string_bytes_ d)
            (decoded_output_entries_ d) (usize (decoded_output_string_bytes_ d + count))).

(** ** Fields that are passed over *)

(** [while (remaining != 0)] with a buffer of 1024 bytes; a round reads at least one. *)
Fixpoint skip_bytes (fuel : nat) (remaining : Z) : D unit :=
  if remaining =? 0 then mret ()
  else
    match fuel with
    | O => throw SrsOutOfFuel
    | S fuel =>
        let amount := Z.min remaining 1024 in
        _ ← read_bytes amount;
        skip_bytes fuel (remaining - amount)
    end.

Definition skip_string : D unit :=
  length_ ← read_count (max_string_bytes limits);
  _ ← account_string_bytes length_;
  skip_bytes (Z.to_nat length_) length_.

Definition skip_string_list : D unit :=
  count ← read_count (max_values limits);
  _ ← account_values count;
  for_count count skip_string.

Definition skip_u16_list : D unit :=
  count ← read_count (max_values limits);
  _ ← account_values count;
  for_count count (_ ← read_be_u16; mret ()).

Definition skip_u8_list : D unit :=
  count ← read_count (max_values limits);
  _ ← account_values count;
  skip_bytes (Z.to_nat count) count.

Definition read_address : D (list Z) :=
  length_ ← read_count 16;
  _ ← fail_if (negb (length_ =? 4) && negb (length_ =? 16));
  read_bytes length_.

Definition skip_prefix : D unit :=
  address ← read_address;
  bits ← read_byte;
  fail_if (Z.of_nat (length address) * 8 <? bits).

Definition skip_prefix_list : D unit :=
  count ← read_count (max_values limits);
  _ ← account_values count;
  for_count count skip_prefix.

(** One entry of the map with the keys seen so far. *)
Definition skip_interface (seen : list Z) : D (list Z) :=
  key ← read_byte;
  _ ← fail_if (bool_decide (key ∈ seen));
  prefix_count ← read_count (max_values limits);
  _ ← account_values prefix_count;
  _ ← for_count prefix_count skip_prefix;
  mret (key :: seen).

Definition skip_interface_address_map : D unit :=
  count ← read_count 256;
  _ ← account_values count;
  _ ← mfold (λ seen (_ : nat), skip_interface seen) [] (seq 0 (Z.to_nat count));
  mret ().

(** ** The domain trie *)

Definition read_word_vector : D (list Z) :=
  count ← read_count (max_trie_words limits);
  collect (Z.to_nat count) read_be_u64.

Definition read_byte_vector (limit : Z) : D (list Z) :=
  count ← read_count limit;
  if count =? 0 then mret [] else read_bytes count.

(** The variables of the loop over the nodes; the two vectors are filled in order. *)
Record EdgeScan := {
  sc_bit : nat;
  sc_label : nat;
  sc_next_child : nat;
  sc_first_child : list nat;
  sc_child_count : list nat
}.

(** [static_cast<std::uint32_t>] of an index *)
Definition u32_index (n : nat) : nat := Z.to_nat (u32 (Z.of_nat n)).

(** The endless inner loop: one round per bit. *)
Fixpoint scan_node (fuel : nat) (words : list Z) (label_count node_count : nat)
    (bit label next_child children : nat) : result SrsDecodeError (nat * nat * nat * nat) :=
  match fuel with
  | O => Throw SrsOutOfFuel
  | S fuel =>
      if (length words * 64 <=? bit)%nat then Throw SrsInvalid
      else
        match bit_is_set words bit with
        | None => Throw SrsOutOfRange
        | Some true => Ok (S bit, label, next_child, children)
        | Some false =>
            if (label_count <=? label)%nat || (node_count <=? next_child)%nat
            then Throw SrsInvalid
            else scan_node fuel words label_count node_count (S bit) (S label) (S next_child)
                   (S children)
        end
  end.

Definition scan_step (words : list Z) (label_count node_count : nat) (s : EdgeScan) (node : nat)
    : result SrsDecodeError EdgeScan :=
  let! r := scan_node (S (length words * 64)) words label_count node_count
              (sc_bit s) (sc_label s) (sc_next_child s) 0 in
  match r with
  | (bit, label, next_child, children) =>
      Ok {| sc_bit := bit; sc_label := label; sc_next_child := next_child;
            sc_first_child := sc_first_child s ++ [u32_index (sc_next_child s)];
            sc_child_count := sc_child_count s ++ [u32_index children] |}
  end.

(** The checks and the scan after the three vectors have been read. *)
Definition build_trie (leaves_ bitmap_ labels_ : list Z) : result SrsDecodeError Trie :=
  let size l := Z.of_nat (length l) in
  if max_trie_nodes limits <=? size labels_ then Throw SrsInvalid
  else
    let node_count := (length labels_ + 1)%nat in
    if (size_max / 64 <? size leaves_) || (size_max / 64 <? size bitmap_) then Throw SrsInvalid
    else if size leaves_ * 64 <? Z.of_nat node_count then Throw SrsInvalid
    else
      let meaningful_bitmap_bits := usize (size labels_ + Z.of_nat node_count) in
      if size bitmap_ * 64 <? meaningful_bitmap_bits then Throw SrsInvalid
      else
        let start := {| sc_bit := 0; sc_label := 0; sc_next_child := 1;
                        sc_first_child := []; sc_child_count := [] |} in
        let! s := rfold (scan_step bitmap_ (length labels_) node_count) start (seq 0 node_count) in
        if negb (sc_label s =? length labels_)%nat || negb (sc_next_child s =? node_count)%nat
        then Throw SrsInvalid
        else if any_bits_set_from bitmap_ (sc_bit s) then Throw SrsInvalid
        else if any_bits_set_from leaves_ node_count then Throw SrsInvalid
        else Ok {| leaves := leaves_; bitmap := bitmap_; labels := labels_;
                   first_child := sc_first_child s; child_count := sc_child_count s |}.

Definition read_trie : D Trie :=
  trie_version ← read_byte;
  _ ← fail_if (negb (trie_version =? 0));
  leaves_ ← read_word_vector;
  bitmap_ ← read_word_vector;
  labels_ ← read_byte_vector (max_trie_labels limits);
  of_result (build_trie leaves_ bitmap_ labels_).

Record Frame := { fr_node : nat; fr_next : nat; fr_visited : bool }.

(** The three vectors the walk fills. *)
Record TrieKeys := {
  exact_domains : list (list Z);
  legacy_prefixes : list (list Z);
  root_suffixes : list (list Z)
}.

Definition kDomainPrefixLabel : Z := 13.
Definition kDomainRootLabel : Z := 10.

(** [validate_domain_text] and the [push_back] of a key that ends at a leaf. *)
Definition classify_key (key : list Z) (keys : TrieKeys) : result SrsDecodeError TrieKeys :=
  match key with
  | [] => Throw SrsOutOfRange
  | front :: value =>
      if front =? kDomainPrefixLabel then
        if domain_text_ok value
        then Ok {| exact_domains := exact_domains keys;
                   legacy_prefixes := legacy_prefixes keys ++ [value];
                   root_suffixes := root_suffixes keys |}
        else Throw SrsInvalid
      else if front =? kDomainRootLabel then
        if domain_text_ok value
        then Ok {| exact_domains := exact_domains keys;
                   legacy_prefixes := legacy_prefixes keys;
                   root_suffixes := root_suffixes keys ++ [value] |}
        else Throw SrsInvalid
      else if domain_text_ok key
      then Ok {| exact_domains := exact_domains keys ++ [key];
                 legacy_prefixes := legacy_prefixes keys;
                 root_suffixes := root_suffixes keys |}
      else Throw SrsInvalid
  end.

(** The first visit of a node. *)
Definition visit_node (trie : Trie) (node : nat) (reversed_key : list Z) (keys : TrieKeys)
    : D TrieKeys :=
  leaf ← vector_at (bit_is_set (leaves trie) node);
  if leaf : bool then
    _ ← fail_if (length reversed_key =? 0)%nat;
    key ← of_result (reverse_utf8_codepoints reversed_key);
    _ ← account_output 1;
    _ ← account_output_string_bytes (Z.of_nat (length key));
    of_result (classify_key key keys)
  else mret keys.

(** The walk over the trie; the top of the stack is the head of the list. *)
Fixpoint walk_trie (fuel : nat) (trie : Trie) (stack : list Frame) (reversed_key : list Z)
    (keys : TrieKeys) : D TrieKeys :=
  match stack with
  | [] => mret keys
  | frame :: below =>
      match fuel with
      | O => throw SrsOutOfFuel
      | S fuel =>
          keys ← (if fr_visited frame then mret keys
                  else visit_node trie (fr_node frame) reversed_key keys);
          count ← vector_at (child_count trie !! fr_node frame);
          if (fr_next frame <? count)%nat then
            first ← vector_at (first_child trie !! fr_node frame);
            let child := (first + fr_next frame)%nat in
            _ ← fail_if (max_string_bytes limits <=? Z.of_nat (length reversed_key));
            label ← vector_at (labels trie !! (child - 1)%nat);
            let frame := {| fr_node := fr_node frame; fr_next := S (fr_next frame);
                            fr_visited := true |} in
            walk_trie fuel trie
              ({| fr_node := u32_index child; fr_next := 0; fr_visited := false |} :: frame :: below)
              (reversed_key ++ [label]) keys
          else
            walk_trie fuel trie below
              (match below with [] => reversed_key | _ => removelast reversed_key end) keys
      end
  end.

(** One legacy prefix: promoted to a suffix when its root is an exact domain as well. *)
Definition promote_prefix (exact : list (list Z)) (acc : list (list Z) * list (list Z))
    (raw_prefix : list Z) : D (list (list Z) * list (list Z)) :=
  match raw_prefix with
  | front :: root =>
      if (1 <? length raw_prefix)%nat && (front =? 46) && binary_search exact root
      then mret (acc.1 ++ [root], acc.2 ++ [root])
      else _ ← modify (count_result 1 0 0); mret acc
  | [] => _ ← modify (count_result 1 0 0); mret acc
  end.

Definition extract_keys (keys : TrieKeys) : D RuleExtraction :=
  let exact := sort_unique (exact_domains keys) in
  let prefixes := sort_unique (legacy_prefixes keys) in
  let roots := sort_unique (root_suffixes keys) in
  acc ← mfold (promote_prefix exact) ([], roots) prefixes;
  let promoted := sort_unique (acc.1) in
  mret {| ex_domains := filter (λ domain, binary_search promoted domain = false) exact;
          ex_suffixes := sort_unique (acc.2);
          ex_cidrs := [] |}.

(** Every node is entered and left once. *)
Definition read_domain_matcher : D RuleExtraction :=
  trie ← read_trie;
  keys ← walk_trie (2 * S (length (labels trie))) trie
           [{| fr_node := 0; fr_next := 0; fr_visited := false |}] []
           {| exact_domains := []; legacy_prefixes := []; root_suffixes := [] |};
  extract_keys keys.

(** ** Address ranges *)

(** [while (!address_less(to, from))]: the blocks of one range. *)
Fixpoint range_loop (fuel : nat) (from to : list Z) (cidrs : list string) : D (list string) :=
  if address_less to from then mret cidrs
  else
    match fuel with
    | O => throw SrsOutOfFuel
    | S fuel =>
        block ← of_result (split_block from to);
        let cidr := format_cidr from (block.1) in
        _ ← account_output 1;
        _ ← account_output_string_bytes (Z.of_nat (String.length cidr));
        let cidrs := cidrs ++ [cidr] in
        if address_equal (block.2) to then mret cidrs
        else
          match increment_address (block.2) with
          | None => throw SrsInvalid
          | Some from => range_loop fuel from to cidrs
          end
    end.

(** A range has at most two blocks of each size. *)
Definition range_fuel (from : list Z) : nat := S (16 * length from).

Definition out_of_order (previous_end : option (list Z)) (from : list Z) : bool :=
  match previous_end with
  | None => false
  | Some previous_end =>
      (length from <? length previous_end)%nat
      || ((length previous_end =? length from)%nat && negb (address_less previous_end from))
  end.

Definition read_range (extract : bool) (acc : option (list Z) * list string)
    : D (option (list Z) * list string) :=
  from ← read_address;
  to ← read_address;
  _ ← fail_if (negb (length from =? length to)%nat);
  _ ← fail_if (address_less to from);
  _ ← fail_if (out_of_order (acc.1) from);
  cidrs ← (if extract then range_loop (range_fuel from) from to (acc.2) else mret (acc.2));
  mret (Some to, cidrs).

Definition read_ip_set (extract : bool) : D (list string) :=
  set_version ← read_byte;
  _ ← fail_if (negb (set_version =? 1));
  count ← read_be_u64;
  range_count ← checked_size count (max_ip_ranges limits);
  _ ← account_values range_count;
  acc ← mfold (λ acc (_ : nat), read_range extract acc) (None, []) (seq 0 (Z.to_nat range_count));
  mret (acc.2).

(** ** Rules *)

Definition require_item_version (minimum : Z) : D unit := fail_if (version_ <? minimum).

(** The variables of [read_default_rule]. *)
Record ItemScan := {
  rs_seen : list Z;
  rs_extracted : RuleExtraction;
  rs_supported_destination_fields : Z;
  rs_blocking_constraints : Z;
  rs_item_count : Z;
  rs_has_condition : bool
}.

Definition new_scan : ItemScan :=
  {| rs_seen := []; rs_extracted := no_extraction; rs_supported_destination_fields := 0;
     rs_blocking_constraints := 0; rs_item_count := 0; rs_has_condition := false |}.

Definition scan_item (raw_item : Z) (s : ItemScan) : ItemScan :=
  {| rs_seen := raw_item :: rs_seen s; rs_extracted := rs_extracted s;
     rs_supported_destination_fields := rs_supported_destination_fields s;
     rs_blocking_constraints := rs_blocking_constraints s;
     rs_item_count := rs_item_count s + 1; rs_has_condition := true |}.

Definition add_supported (e : RuleExtraction) (s : ItemScan) : ItemScan :=
  {| rs_seen := rs_seen s; rs_extracted := append_extraction (rs_extracted s) e;
     rs_supported_destination_fields := rs_supported_destination_fields s + 1;
     rs_blocking_constraints := rs_blocking_constraints s;
     rs_item_count := rs_item_count s; rs_has_condition := rs_has_condition s |}.

Definition add_blocking (s : ItemScan) : ItemScan :=
  {| rs_seen := rs_seen s; rs_extracted := rs_extracted s;
     rs_supported_destination_fields := rs_supported_destination_fields s;
     rs_blocking_constraints := rs_blocking_constraints s + 1;
     rs_item_count := rs_item_count s; rs_has_condition := rs_has_condition s |}.

(** The switch. *)
Definition read_item (item : RuleItem) (s : ItemScan) : D ItemScan :=
  match item with
  | Domain => e ← read_domain_matcher; mret (add_supported e s)
  | IpCidr =>
      cidrs ← read_ip_set true;
      mret (add_supported {| ex_domains := []; ex_suffixes := []; ex_cidrs := cidrs |} s)
  | QueryType => _ ← skip_u16_list; mret (add_blocking s)
  | Network | SourcePortRange | PortRange | ProcessName | ProcessPath | PackageName
  | WifiSsid | WifiBssid | ProcessPathRegex => _ ← skip_string_list; mret (add_blocking s)
  | DomainKeyword | DomainRegex => _ ← skip_string_list; mret s
  | PackageNameRegex =>
      _ ← require_item_version 5; _ ← skip_string_list; mret (add_blocking s)
  | SourceIpCidr => _ ← read_ip_set false; mret (add_blocking s)
  | SourcePort | Port => _ ← skip_u16_list; mret (add_blocking s)
  | AdGuardDomain => _ ← require_item_version 2; _ ← read_trie; mret s
  | NetworkType => _ ← require_item_version 3; _ ← skip_u8_list; mret (add_blocking s)
  | NetworkIsExpensive => _ ← require_item_version 3; mret (add_blocking s)
  | NetworkIsConstrained => _ ← require_item_version 3; mret (add_blocking s)
  | NetworkInterfaceAddress =>
      _ ← require_item_version 4; _ ← skip_interface_address_map; mret (add_blocking s)
  | DefaultInterfaceAddress =>
      _ ← require_item_version 4; _ ← skip_prefix_list; mret (add_blocking s)
  end.

Definition has_extracted_destination (e : RuleExtraction) : bool :=
  negb (length (ex_domains e) =? 0)%nat || negb (length (ex_suffixes e) =? 0)%nat
  || negb (length (ex_cidrs e) =? 0)%nat.

(** The end of a default rule. *)
Definition finish_rule (s : ItemScan) : D RuleExtraction :=
  invert ← read_bool;
  if invert : bool then _ ← modify (count_result 0 1 1); mret no_extraction
  else if negb (rs_has_condition s) || negb (rs_blocking_constraints s =? 0)
          || (rs_supported_destination_fields s =? 0)
          || negb (has_extracted_destination (rs_extracted s))
  then _ ← modify (count_result 0 1 0); mret no_extraction
  else mret (rs_extracted s).

(** Increment and decrement of [unsupported_fields] after the switch. *)
Definition item_counted (item : RuleItem) : Z :=
  match item with Domain | IpCidr => 0 | _ => 1 end.

Fixpoint default_rule_loop (fuel : nat) (s : ItemScan) : D RuleExtraction :=
  match fuel with
  | O => throw SrsOutOfFuel
  | S fuel =>
      raw_item ← read_byte;
      if raw_item =? final_item then finish_rule s
      else
        _ ← fail_if (max_rule_items limits <? rs_item_count s + 1);
        _ ← fail_if (bool_decide (raw_item ∈ rs_seen s));
        match item_of_byte raw_item with
        | None => throw SrsInvalid
        | Some item =>
            s ← read_item item (scan_item raw_item s);
            _ ← modify (count_result (item_counted item) 0 0);
            default_rule_loop fuel s
        end
  end.

(** No item type is read twice, and there are 256. *)
Definition read_default_rule : D RuleExtraction := default_rule_loop 257 new_scan.

Definition read_logical_rule (read_child : D RuleExtraction) : D RuleExtraction :=
  mode ← read_byte;
  _ ← fail_if (1 <? mode);
  child_count ← read_count (max_rules limits);
  _ ← fail_if (child_count =? 0);
  combined ← mfold (λ combined (_ : nat),
      child ← read_child;
      mret (if (mode =? 1) || (child_count =? 1) then append_extraction combined child
            else combined))
    no_extraction (seq 0 (Z.to_nat child_count));
  invert ← read_bool;
  if invert : bool then _ ← modify (count_result 0 1 1); mret no_extraction
  else if (mode =? 0) && negb (child_count =? 1)
  then _ ← modify (count_result 0 1 0); mret no_extraction
  else mret combined.

Definition enter_rule : D unit :=
  d ← gets id;
  _ ← fail_if (max_rules limits <=? total_rules_ d);
  modify (set_totals (total_rules_ d + 1) (total_values_ d) (total_string_bytes_ d)
            (decoded_output_entries_ d) (decoded_output_string_bytes_ d)).

Fixpoint read_rule (fuel : nat) (depth : Z) : D RuleExtraction :=
  match fuel with
  | O => throw SrsOutOfFuel
  | S fuel =>
      _ ← fail_if (max_logical_depth limits <? depth);
      _ ← enter_rule;
      type ← read_byte;
      if type =? 0 then read_default_rule
      else if type =? 1 then read_logical_rule (read_rule fuel (depth + 1))
      else throw SrsInvalid
  end.

(** The source refuses a depth above its own limit, which the fuel exceeds. *)
Definition rule_fuel : nat := Z.to_nat (max_logical_depth limits) + 2.

Definition decode : D SrsDecodeResult :=
  top_level_rules ← read_count (max_rules limits);
  collected ← mfold (λ collected (_ : nat),
      rule ← read_rule rule_fuel 0;
      mret (append_extraction collected rule))
    no_extraction (seq 0 (Z.to_nat top_level_rules));
  _ ← on_reader require_clean_end;
  d ← gets id;
  mret {| res_version := version_;
          res_domains := sort_unique (ex_domains collected);
          res_domain_suffixes := sort_unique (ex_suffixes collected);
          res_ip_cidrs := sort_unique_text (ex_cidrs collected);
          unsupported_fields := unsupported_fields (result_ d);
          skipped_rules := skipped_rules (result_ d);
          inverted_rules := inverted_rules (result_ d) |}.
End Decoder.

(** ** Entry points *)

Definition kMagic : list Z := [0x53; 0x52; 0x53].
Definition kMinVersion : Z := 1.
Definition kMaxVersion : Z := 5.

Definition decode_srs `{SizeT} `{Zlib} (input : list Z) (limits : SrsDecodeLimits)
    : result SrsDecodeError SrsDecodeResult :=
  match input with
  | m0 :: m1 :: m2 :: version :: source =>
      if negb (bool_decide ([m0; m1; m2] = kMagic)) then Throw SrsInvalid
      else if version <? kMinVersion then Throw SrsInvalid
      else if kMaxVersion <? version then Throw (SrsUnsupportedVersion version)
      else if existsb (λ n, n =? 0) (limit_fields limits) then Throw SrsInvalid
      else if u32_max <? max_trie_nodes limits then Throw SrsInvalid
      else
        let! reader := open_reader source in
        let reader_class := inflate_byte_reader limits in
        (decode limits version (new_decoder reader)).2
  | _ => Throw SrsInvalid
  end.

(** [contents] is [None] when the file cannot be opened; a failure is reported again with
    the path in its message and the same kind. *)
Definition decode_srs_file `{SizeT} `{Zlib} (contents : option (list Z))
    (limits : SrsDecodeLimits) : result SrsDecodeError SrsDecodeResult :=
  match contents with
  | None => Throw SrsInvalid
  | Some input => decode_srs input limits
  end.
