(* ===== verification/SrsText.v ===== *)
(** * Binary rule sets: the text of a block

    [format_cidr] (lists/srs_decoder.cpp) against the parsers of lists/ipset.cpp: the
    text of a block is read back as exactly the block. *)

From Stdlib Require Import ZArith Lia Ascii String.
From stdpp Require Import base strings list.
From S2P Require Import Prelude IpSet ListParser InetModel StateError SrsReader SrsAddress.
Open Scope Z_scope.

(** Groups without the leading colon. *)
Definition join_groups (gs : list Z) : string :=
  match gs with [] => EmptyString | g :: gs => to_hex g +:+ colon_groups gs end.

(** ** What [format_ipv6] prints *)

Lemma zero_run_spec gs :
  (zero_run gs ≤ length gs)%nat ∧ gs = replicate (zero_run gs) 0 ++ drop (zero_run gs) gs.
Proof.
  induction gs as [|g gs [IH1 IH2]]; [done|]. cbn [zero_run].
  destruct (Z.eqb_spec g 0) as [->|]; [|cbn; lia || (split; [cbn; lia|done])].
  cbn [length drop replicate]. split; [lia|]. cbn. by f_equal.
Qed.

Definition run_ok (all : list Z) (r : nat * nat) : Prop :=
  r = (8%nat, 0%nat) ∨
  ((2 ≤ r.2)%nat ∧ (r.1 + r.2 ≤ length all)%nat ∧
   drop r.1 all = replicate r.2 0 ++ drop (r.1 + r.2) all).

Lemma best_run_ok all fuel index best :
  run_ok all best → run_ok all (best_run fuel index (drop index all) best).
Proof.
  revert index best. induction fuel as [|fuel IH]; intros index best Hb; [done|].
  destruct (drop index all) as [|g rest] eqn:Hd; [done|]. cbn [best_run].
  assert (rest = drop (S index) all) as ->.
  { rewrite <- Nat.add_1_r, <- drop_drop, Hd. done. }
  destruct (Z.eqb_spec g 0) as [->|]; cbn [negb]; [|by apply IH].
  set (n := zero_run _). rewrite <- Hd, drop_drop. apply IH.
  destruct ((best.2 <? n)%nat && (2 <=? n)%nat) eqn:Hn; [|done]. bool_to_prop.
  right. cbn [fst snd]. destruct (zero_run_spec (drop index all)) as [Hl He].
  assert (zero_run (drop index all) = n) as Hz by (by rewrite Hd).
  rewrite Hz in Hl, He. rewrite length_drop in Hl. split; [done|]. split; [lia|].
  rewrite He at 1. by rewrite drop_drop.
Qed.

(** After the run. *)
Lemma print_after fuel index gs bs bl :
  (bs < index)%nat → (length gs ≤ fuel)%nat → index ≠ 0%nat →
  print_groups fuel index gs bs bl =
  if (index =? bs + bl)%nat then join_groups gs else
    if (index <? bs + bl)%nat then print_groups fuel index gs bs bl else colon_groups gs.
Proof.
  revert index gs. induction fuel as [|fuel IH]; intros index [|g gs] Hi Hf Hz; cbn [length] in *;
    [by repeat case_match|lia|by repeat case_match|].
  cbn [print_groups]. destruct (Nat.eqb_spec index bs) as [->|_]; [lia|].
  destruct (Nat.eqb_spec index 0) as [->|_]; [done|]. cbn [negb andb].
  destruct (Nat.eqb_spec index (bs + bl)) as [->|Hne]; cbn [negb].
  - cbn [String.append join_groups]. rewrite IH by lia.
    destruct (Nat.eqb_spec (S (bs + bl)) (bs + bl)); [lia|].
    by destruct (Nat.ltb_spec (S (bs + bl)) (bs + bl)); [lia|].
  - destruct (Nat.ltb_spec index (bs + bl)); [done|].
    cbn [colon_groups]. rewrite IH by lia.
    destruct (Nat.eqb_spec (S index) (bs + bl)); [lia|].
    by destruct (Nat.ltb_spec (S index) (bs + bl)); [lia|].
Qed.

(** Without a run. *)
Lemma print_plain fuel index gs :
  (index + length gs ≤ 8)%nat → (length gs ≤ fuel)%nat →
  print_groups fuel index gs 8 0 =
  if (index =? 0)%nat then join_groups gs else colon_groups gs.
Proof.
  revert index gs. induction fuel as [|fuel IH]; intros index [|g gs] Hi Hf; cbn [length] in *;
    [by case_match|lia|by case_match|].
  cbn [print_groups]. destruct (Nat.eqb_spec index 8); [lia|].
  replace (index =? 8 + 0)%nat with false by (symmetry; apply Nat.eqb_neq; lia).
  rewrite IH by lia. by destruct (Nat.eqb_spec index 0) as [->|].
Qed.

(** Up to the run. *)
Lemma print_before fuel index pre post bl :
  (2 ≤ bl)%nat → (length (pre ++ replicate bl 0%Z ++ post) ≤ fuel)%nat →
  print_groups fuel index (pre ++ replicate bl 0 ++ post) (index + length pre) bl =
  (if (index =? 0)%nat then join_groups pre else colon_groups pre) +:+ "::" +:+ join_groups post.
Proof.
  intros Hbl. revert index pre.
  induction fuel as [|fuel IH]; intros index pre Hf.
  { rewrite !length_app, length_replicate in Hf. lia. }
  destruct pre as [|g pre].
  - destruct bl as [|bl]; [lia|]. cbn [app replicate print_groups length].
    rewrite Nat.add_0_r, Nat.eqb_refl.
    change (0 :: replicate bl 0 ++ post) with (replicate (S bl) 0 ++ post).
    rewrite drop_app_length' by (by rewrite length_replicate).
    rewrite print_after by (rewrite ?length_app, ?length_replicate in Hf; cbn in Hf; rewrite ?length_app in Hf; lia).
    rewrite Nat.eqb_refl. by destruct (index =? 0)%nat.
  - cbn [app print_groups length]. destruct (Nat.eqb_spec index (index + S (length pre))); [lia|].
    replace (index =? index + S (length pre) + bl)%nat with false by (symmetry; apply Nat.eqb_neq; lia).
    rewrite andb_true_r. replace (index + S (length pre))%nat with (S index + length pre)%nat by lia.
    rewrite IH by (cbn in Hf; lia). cbn [Nat.eqb]. destruct (Nat.eqb_spec index 0); cbn [negb];
      cbn [join_groups colon_groups]; by rewrite ?append_assoc.
Qed.

Lemma format_ipv6_shape gs :
  length gs = 8%nat →
  let best := best_run 8 0 gs (8%nat, 0%nat) in
  let text := print_groups 8 0 gs best.1 best.2 in
  text = join_groups gs ∨
  ∃ pre bl post, gs = pre ++ replicate bl 0 ++ post ∧ (2 ≤ bl)%nat ∧
                 text = join_groups pre +:+ "::" +:+ join_groups post.
Proof.
  intros Hlen best text.
  destruct (best_run_ok gs 8 0 (8%nat, 0%nat)) as [Hb|(Hn & Hle & Hd)]; [by left|..].
  - left. subst text best. rewrite drop_0 in Hb. rewrite Hb. cbn [fst snd].
    by rewrite print_plain by lia.
  - rewrite drop_0 in *. fold best in Hn, Hle, Hd. right.
    exists (take best.1 gs), best.2, (drop (best.1 + best.2) gs).
    assert (gs = take best.1 gs ++ replicate best.2 0 ++ drop (best.1 + best.2) gs) as Hg
      by (by rewrite <- Hd, take_drop).
    split; [done|]. split; [done|]. subst text.
    pose proof (print_before 8 0 (take best.1 gs) (drop (best.1 + best.2) gs) best.2 Hn) as Hp.
    rewrite <- Hg in Hp. rewrite length_take in Hp.
    replace (0 + Nat.min best.1 (length gs))%nat with best.1 in Hp by lia.
    rewrite Hp by lia. done.
Qed.

(** ** What the parser makes of it *)

(** Groups up to a text that ends them. *)
Lemma parse_groups_tail gs fuel acc dcp tail :
  Forall is_u16 gs → after_group tail →
  parse_groups (length gs + fuel) (colon_groups gs +:+ tail) acc dcp =
  parse_groups fuel tail (acc ++ gs) dcp.
Proof.
  intros Hgs Ht. revert acc. induction Hgs as [|g gs Hg Hgs IH]; intros acc.
  { by rewrite app_nil_r. }
  cbn [colon_groups String.append length Nat.add parse_groups].
  rewrite Ascii.eqb_refl, append_assoc.
  assert (after_group (colon_groups gs +:+ tail)) as Ha by (by destruct gs).
  pose proof (parse_hex_group_ok g (colon_groups gs +:+ tail) Hg Ha) as Eg.
  destruct (to_hex_first g Hg) as (c & h & Eh & Ec). rewrite Eh in Eg |- *.
  cbn [String.append] in *. rewrite Ec, Eg, IH. by rewrite <- app_assoc.
Qed.

Lemma parse_groups_join gs fuel acc dcp tail :
  Forall is_u16 gs → gs ≠ [] → after_group tail →
  parse_groups (length gs + fuel) (join_groups gs +:+ tail) acc dcp =
  parse_groups fuel tail (acc ++ gs) dcp.
Proof.
  intros Hgs Hne Ht. destruct Hgs as [|g gs Hg Hgs]; [done|].
  cbn [join_groups length Nat.add]. rewrite append_assoc.
  assert (after_group (colon_groups gs +:+ tail)) as Ha by (by destruct gs).
  pose proof (parse_hex_group_ok g (colon_groups gs +:+ tail) Hg Ha) as Eg.
  destruct (to_hex_first g Hg) as (c & h & Eh & Ec). rewrite Eh in Eg |- *.
  cbn [String.append parse_groups] in *. rewrite Ec, Eg, parse_groups_tail by done.
  by rewrite <- app_assoc.
Qed.

Lemma parse_groups_end fuel acc dcp : parse_groups fuel EmptyString acc dcp = Some (acc, dcp).
Proof. by destruct fuel. Qed.

(** The last part, with fuel to spare. *)
Lemma parse_groups_last gs fuel acc dcp :
  Forall is_u16 gs → (length gs ≤ fuel)%nat →
  parse_groups fuel (join_groups gs) acc dcp = Some (acc ++ gs, dcp).
Proof.
  intros Hgs Hf. destruct (decide (gs = [])) as [->|Hne].
  { by rewrite parse_groups_end, app_nil_r. }
  rewrite <- (append_nil_r (join_groups gs)).
  replace fuel with (length gs + (fuel - length gs))%nat by lia.
  rewrite parse_groups_join by done. apply parse_groups_end.
Qed.

Lemma length_join_groups gs : Forall is_u16 gs → (length gs ≤ String.length (join_groups gs))%nat.
Proof.
  intros [|g gs' Hg Hgs]; [done|]. cbn [join_groups length]. rewrite length_append.
  pose proof (length_colon_groups gs'). destruct (to_hex_first g Hg) as (c & h & -> & _). cbn. lia.
Qed.

Lemma join_groups_no_dot gs : Forall is_u16 gs → has_char "." (join_groups gs) = false.
Proof.
  intros [|g gs' Hg Hgs]; [done|]. cbn [join_groups].
  by rewrite has_char_app, to_hex_has_no, colon_groups_no_dot.
Qed.

Lemma parse_compressed pre bl post :
  Forall is_u16 pre → Forall is_u16 post → (length pre + bl + length post = 8)%nat → (2 ≤ bl)%nat →
  parse_ipv6_groups (join_groups pre +:+ "::" +:+ join_groups post) =
  Some (concat (group_bytes <$> pre ++ replicate bl 0 ++ post)).
Proof.
  intros Hpre Hpost Hlen Hbl. unfold parse_ipv6_groups.
  assert (∀ fuel, (length pre + S (length post) ≤ fuel)%nat →
    parse_groups fuel (join_groups pre +:+ "::" +:+ join_groups post) [] None
    = Some (pre ++ post, Some (length pre)) ∨ pre = []) as Hp.
  { intros fuel Hf. destruct (decide (pre = [])) as [|Hne]; [by right|left].
    replace fuel with (length pre + S (fuel - length pre - 1))%nat by lia.
    rewrite parse_groups_join by done. cbn [String.append parse_groups Ascii.eqb Bool.eqb].
    rewrite parse_groups_last by (done || lia). done. }
  assert (expand_groups (pre ++ post) (Some (length pre))
          = Some (concat (group_bytes <$> pre ++ replicate bl 0 ++ post))) as He.
  { unfold expand_groups. rewrite length_app.
    destruct (Z.ltb_spec 8 (Z.of_nat (length pre + length post))); [lia|].
    rewrite take_app_length, drop_app_length.
    by replace (8 - (length pre + length post))%nat with bl by lia. }
  destruct pre as [|g pre].
  - cbn [join_groups String.append]. cbn [Ascii.eqb Bool.eqb andb].
    destruct (join_groups post) as [|c r] eqn:Hj.
    { destruct post as [|p post]; [|cbn [join_groups] in Hj; apply Forall_cons in Hpost as [Hp1 _];
        destruct (to_hex_first p Hp1) as (? & ? & Eh & _); by rewrite Eh in Hj].
      cbn in Hlen. replace bl with 8%nat by lia. done. }
    rewrite <- Hj. rewrite parse_groups_last; [done|done|].
    pose proof (length_join_groups post Hpost). rewrite Hj in *. cbn [String.length] in *. lia.
  - set (text := join_groups (g :: pre) +:+ "::" +:+ join_groups post) in *.
    destruct (Hp (String.length text)) as [Hp'|?]; [|clear Hp|done].
    { subst text. rewrite !length_append. pose proof (length_join_groups _ Hpre).
      pose proof (length_join_groups _ Hpost). cbn [String.length]. lia. }
    assert (∃ c t, text = String c t ∧ Ascii.eqb c ":" = false) as (c & t & Ht & Hc).
    { subst text. apply Forall_cons in Hpre as [Hg _]. cbn [join_groups].
      destruct (to_hex_first g Hg) as (c & h & -> & Hc). cbn [String.append]. eauto. }
    rewrite Hp', Ht in *. destruct t as [|c2 t].
    + done.
    + rewrite Hc. cbn [andb]. done.
Qed.

(** ** Groups and bytes *)

Lemma address_groups_bytes a :
  length a = 16%nat → Forall byte_ok a →
  Forall is_u16 (address_groups a) ∧ concat (group_bytes <$> address_groups a) = a.
Proof.
  intros Hlen Ha.
  do 16 (destruct a as [|? a]; [discriminate Hlen|]). destruct a; [|discriminate Hlen]. clear Hlen.
  repeat (apply Forall_cons in Ha as [? Ha]). unfold byte_ok in *.
  unfold address_groups. cbn [seq fmap list_fmap nth Nat.mul Nat.add].
  repeat match goal with
  | |- context [Z.lor (Z.shiftl ?a 8) ?b] =>
      let H1 := fresh in let H2 := fresh in
      destruct (quad_group a b) as [H1 H2]; [done..|];
      generalize dependent (Z.lor (Z.shiftl a 8) b); intros
  end.
  split; [repeat (apply List.Forall_cons; [done|]); apply List.Forall_nil|]. cbn [concat]. by repeat match goal with H : group_bytes _ = _ |- _ => rewrite H; clear H end.
Qed.

Lemma parse_format_ipv6 a :
  length a = 16%nat → Forall byte_ok a → parse_ipv6 (format_ipv6 a) = Some a.
Proof.
  intros Hlen Ha. destruct (address_groups_bytes a Hlen Ha) as [Hu Hc].
  destruct (format_ipv6_shape (address_groups a)) as [Ht|(pre & bl & post & Hg & Hbl & Ht)];
    [done|..]; unfold format_ipv6; rewrite Ht.
  - destruct (address_groups a) as [|g gs] eqn:Hgs; [done|].
    apply Forall_cons in Hu as [Hu1 Hu2]. cbn [join_groups]. rewrite parse_canonical, Hc; [done..|].
    apply (f_equal length) in Hgs. cbn in Hgs. lia.
  - rewrite Hg in Hu, Hc. pose proof (f_equal length Hg) as Hl.
    rewrite !length_app, length_replicate in Hl. change (length (address_groups a)) with 8%nat in Hl.
    apply Forall_app in Hu as [Hu1 [_ Hu2]%Forall_app].
    unfold parse_ipv6. rewrite parse_ipv6_no_dot.
    2: { rewrite !has_char_app, !join_groups_no_dot by done. done. }
    rewrite (parse_compressed pre bl post), Hc by (done || lia). done.
Qed.

(** ** Blocks *)

Definition is_v6 (a : list Z) : bool := (length a =? 16)%nat.

Definition address_ok (a : list Z) : Prop :=
  (length a = 4%nat ∨ length a = 16%nat) ∧ Forall byte_ok a.

Lemma format_ipv6_chars a c :
  length a = 16%nat → Forall byte_ok a → is_xdigit c = false → c ≠ ":"%char →
  has_char c (format_ipv6 a) = false.
Proof.
  intros Hlen Ha Hx Hc. destruct (address_groups_bytes a Hlen Ha) as [Hu _].
  assert (Ascii.eqb c ":" = false) as Hcc by (by apply Ascii.eqb_neq).
  assert (∀ gs, Forall is_u16 gs → has_char c (colon_groups gs) = false) as Hcol.
  { induction 1 as [|g gs Hg Hgs IH]; [done|]. cbn [colon_groups].
    rewrite !has_char_app, IH, to_hex_has_no by done. unfold has_char. cbn. by rewrite Hcc. }
  assert (∀ gs, Forall is_u16 gs → has_char c (join_groups gs) = false) as Hjoin.
  { intros gs [|g gs' Hg Hgs]; [done|]. cbn [join_groups]. by rewrite has_char_app, Hcol, to_hex_has_no. }
  destruct (format_ipv6_shape (address_groups a)) as [Ht|(pre & bl & post & Hg & Hbl & Ht)];
    [done|..]; unfold format_ipv6; rewrite Ht.
  - by apply Hjoin.
  - rewrite Hg in Hu. apply Forall_app in Hu as [Hu1 [_ Hu2]%Forall_app].
    rewrite !has_char_app, !Hjoin by done. unfold has_char. cbn. by rewrite Hcc.
Qed.

Lemma format_ipv6_colon a :
  length a = 16%nat → Forall byte_ok a → has_char ":" (format_ipv6 a) = true.
Proof.
  intros Hlen Ha. destruct (address_groups_bytes a Hlen Ha) as [Hu _].
  destruct (format_ipv6_shape (address_groups a)) as [Ht|(pre & bl & post & Hg & Hbl & Ht)];
    [done|..]; unfold format_ipv6; rewrite Ht.
  - destruct (address_groups a) as [|g [|g' gs]] eqn:E; [done|done|].
    cbn [join_groups colon_groups]. rewrite !has_char_app. change (has_char ":" ":") with true.
    by rewrite orb_true_r.
  - rewrite !has_char_app. change (has_char ":" "::") with true. by rewrite orb_true_r.
Qed.

Lemma parse_any_format a :
  address_ok a → parse_any (format_address a) = Some (is_v6 a, a).
Proof.
  intros [[Hlen|Hlen] Ha]; unfold format_address, is_v6, parse_any; rewrite Hlen; cbn [Nat.eqb].
  - do 4 (destruct a as [|? a]; [discriminate Hlen|]). destruct a; [|discriminate Hlen].
    repeat (apply Forall_cons in Ha as [? Ha]).
    pose proof (parse_v4_text z z0 z1 z2) as Hp. unfold v4_text in Hp. unfold format_ipv4.
    cbn [nth]. cbn [String.append] in *. by rewrite (Hp H H0 H1 H2).
  - destruct (parse_ipv4 (format_ipv6 a)) as [vs|] eqn:Hv4.
    + apply parse_ipv4_spec in Hv4 as (_ & ds & Ed & Hf).
      pose proof (format_ipv6_colon a Hlen Ha) as Hcol.
      rewrite Ed, (dotted_no_colon true ds vs Hf) in Hcol. done.
    + by rewrite parse_format_ipv6.
Qed.

Lemma format_address_no_slash a :
  address_ok a → has_char "/" (format_address a) = false.
Proof.
  intros [[Hlen|Hlen] Ha]; unfold format_address; rewrite Hlen; cbn [Nat.eqb].
  - do 4 (destruct a as [|? a]; [discriminate Hlen|]). destruct a; [|discriminate Hlen].
    repeat (apply Forall_cons in Ha as [? Ha]). unfold byte_ok in *. unfold format_ipv4. cbn [nth].
    rewrite !has_char_app, !(has_char_digits "/" (to_string _)) by
      first [done | apply to_string_digits; lia]. done.
  - by apply format_ipv6_chars.
Qed.

Definition address_bits (a : list Z) : nat := (8 * length a)%nat.

Lemma op_prefix_format a h :
  address_ok a → (h ≤ address_bits a)%nat →
  op_prefix (AddCidr (format_cidr a h)) = Some (is_v6 a, addr_bits a (address_bits a - h)).
Proof.
  intros Ha Hh. unfold format_cidr, op_prefix.
  assert (address_bits a = width (is_v6 a)) as Hw.
  { unfold address_bits, is_v6. by destruct Ha as [[-> | ->] _]. }
  assert (width (is_v6 a) ≤ 128)%nat by (destruct (is_v6 a); cbn; lia).
  cbn [String.append]. rewrite break_at_app by (by apply format_address_no_slash).
  rewrite parse_any_format by done. unfold address_bits in *.
  rewrite from_chars_to_string by (unfold u32_max; lia).
  destruct (Z.leb_spec (Z.of_nat (length a) * 8 - Z.of_nat h) (Z.of_nat (width (is_v6 a)))); [|lia].
  do 3 f_equal. lia.
Qed.

Lemma address_bit_testbit a i :
  Forall byte_ok a → (i < address_bits a)%nat →
  addr_bit a i = Z.testbit (addr_value a) (Z.of_nat (address_bits a) - 1 - Z.of_nat i).
Proof.
  unfold address_bits. intros Ha Hi.
  assert (i / 8 < length a)%nat as Hk by (apply Nat.Div0.div_lt_upper_bound; lia).
  destruct (host_byte_split a (length a - 1 - i / 8)) as (hi & b & lo & -> & Hhi & Hlo); [lia|].
  rewrite length_app in *. cbn [length] in *.
  assert (length hi = (i / 8)%nat) as Hh by lia.
  unfold addr_bit. rewrite <- Hh, list_lookup_middle by done. cbn [from_option id].
  pose proof (Nat.div_mod_eq i 8) as Hdm. pose proof (Nat.mod_upper_bound i 8 ltac:(lia)) as Hm.
  replace (Z.of_nat (8 * (length hi + S (length lo))) - 1 - Z.of_nat i)
    with (8 * Z.of_nat (length lo) + (7 - Z.of_nat (i mod 8))) by lia.
  rewrite host_byte_testbit by (done || lia). rewrite Z.testbit_odd.
  set (x := Z.shiftr b _). change 1 with (Z.ones 1) at 1. rewrite Z.land_ones by lia.
  change (2 ^ 1) with 2. rewrite Zmod_odd. by destruct (Z.odd x).
Qed.

Lemma addr_bits_app a m k :
  addr_bits a (m + k) = addr_bits a m ++ (addr_bit a <$> seq m k).
Proof. unfold addr_bits. by rewrite seq_app, fmap_app. Qed.

Lemma is_prefix_bits_app p q r :
  length p = length q → is_prefix_bits p (q ++ r) = true ↔ p = q.
Proof.
  revert q. induction p as [|b p IH]; intros [|b' q] Hl; try done. cbn [app is_prefix_bits].
  rewrite andb_true_iff, IH by (cbn in Hl; lia). rewrite eqb_true_iff. split; [by intros [-> ->]|by intros [= -> ->]].
Qed.

(** Two addresses agree in their first bits when their numbers agree above the others. *)
Lemma addr_bits_eq f a m h :
  Forall byte_ok f → Forall byte_ok a → length a = length f → (m + h = address_bits f)%nat →
  addr_bits f m = addr_bits a m ↔
  addr_value f / 2 ^ Z.of_nat h = addr_value a / 2 ^ Z.of_nat h.
Proof.
  intros Hf Ha Hlen Hm.
  assert (address_bits a = address_bits f) as Hw by (unfold address_bits; lia).
  pose proof (addr_value_range _ Hf) as Hrf. pose proof (addr_value_range _ Ha) as Hra.
  rewrite Hlen in Hra. rewrite pow256_pow2 in Hrf, Hra.
  assert (addr_bits f m = addr_bits a m ↔ ∀ i, (i < m)%nat → addr_bit f i = addr_bit a i) as ->.
  { unfold addr_bits. split.
    - intros He i Hi. apply (f_equal (λ l, l !! i)) in He.
      rewrite !list_lookup_fmap, lookup_seq_lt in He by done. by injection He.
    - intros He. apply list_eq. intros i. rewrite !list_lookup_fmap.
      destruct (decide (i < m)%nat) as [Hi|Hi]; [rewrite lookup_seq_lt by done; cbn; f_equal; auto|].
      by rewrite lookup_seq_ge by lia. }
  split.
  - intros He. apply Z.bits_inj'. intros n Hn. rewrite !Z.div_pow2_bits by lia.
    destruct (decide (n < Z.of_nat m)) as [Hlt|Hge].
    + specialize (He (m - 1 - Z.to_nat n)%nat ltac:(lia)).
      rewrite !address_bit_testbit, Hw in He by (done || lia).
      by replace (Z.of_nat (address_bits f) - 1 - Z.of_nat (m - 1 - Z.to_nat n))
        with (n + Z.of_nat h) in He by lia.
    + rewrite !testbit_div by lia. rewrite !Z.div_small; [done|split; [lia|]..].
      all: eapply Z.lt_le_trans; [apply Hra || apply Hrf|].
      all: apply Z.pow_le_mono_r; unfold address_bits in *; lia.
  - intros He i Hi. rewrite !address_bit_testbit, Hw by (done || lia).
    apply (f_equal (λ z, Z.testbit z (Z.of_nat m - 1 - Z.of_nat i))) in He.
    rewrite !Z.div_pow2_bits in He by lia.
    by replace (Z.of_nat (address_bits f) - 1 - Z.of_nat i)
      with (Z.of_nat m - 1 - Z.of_nat i + Z.of_nat h) by lia.
Qed.

(** The addresses the text of an entry stands for. *)
Definition cidr_covers (text : string) (a : list Z) : bool :=
  match op_prefix (AddCidr text) with
  | Some p => prefix_covers p (is_v6 a) a
  | None => false
  end.

Lemma cidr_covers_spec f h a :
  address_ok f → address_ok a → (h ≤ address_bits f)%nat → (2 ^ Z.of_nat h | addr_value f) →
  cidr_covers (format_cidr f h) a = true ↔
  length a = length f ∧ addr_value f ≤ addr_value a < addr_value f + 2 ^ Z.of_nat h.
Proof.
  intros Hf Ha Hh [c Hc]. unfold cidr_covers. rewrite op_prefix_format by done.
  unfold prefix_covers. cbn [fst snd]. rewrite andb_true_iff, eqb_true_iff.
  assert (is_v6 f = is_v6 a ↔ length a = length f) as ->.
  { unfold is_v6. destruct Hf as [[-> | ->] _], Ha as [[-> | ->] _]; done. }
  split; intros [Hlen Hp]; (split; [done|]).
  - assert (width (is_v6 a) = address_bits f) as Hw.
    { unfold is_v6, address_bits. by destruct Hf as [[Hl | Hl] _]; rewrite Hl in *; rewrite Hlen. }
    rewrite Hw in Hp. replace (address_bits f) with (address_bits f - h + h)%nat in Hp at 2 by lia.
    rewrite addr_bits_app in Hp. apply is_prefix_bits_app in Hp; [|unfold addr_bits; by rewrite !length_fmap].
    apply (addr_bits_eq f a _ h) in Hp; [|apply Hf|apply Ha|done|lia].
    pose proof (Z.pow_pos_nonneg 2 (Z.of_nat h) ltac:(lia) ltac:(lia)).
    rewrite Hc, Z.div_mul in Hp by lia.
    pose proof (Z.div_mod (addr_value a) (2 ^ Z.of_nat h) ltac:(lia)).
    pose proof (Z.mod_pos_bound (addr_value a) (2 ^ Z.of_nat h) ltac:(lia)). rewrite <- Hp in *. lia.
  - assert (width (is_v6 a) = address_bits f) as ->.
    { unfold is_v6, address_bits. by destruct Hf as [[Hl | Hl] _]; rewrite Hl in *; rewrite Hlen. }
    replace (address_bits f) with (address_bits f - h + h)%nat at 2 by lia.
    rewrite addr_bits_app. apply is_prefix_bits_app; [unfold addr_bits; by rewrite !length_fmap|].
    apply (addr_bits_eq f a _ h); [apply Hf|apply Ha|done|lia|].
    pose proof (Z.pow_pos_nonneg 2 (Z.of_nat h) ltac:(lia) ltac:(lia)).
    rewrite Hc, Z.div_mul by lia. apply (Z.div_unique _ _ _ (addr_value a - c * 2 ^ Z.of_nat h)); lia.
Qed.
