(* ===== verification/SrsFields.v ===== *)
(** * Binary rule sets: fields

    The fields of lists/srs_decoder.cpp that are passed over, and the address ranges:
    what was read is the encoding of a field, and the blocks extracted from ranges are
    the canonical cover of each of them. *)

From Stdlib Require Import ZArith Lia Ascii String.
From stdpp Require Import base strings list.
From S2P Require Import Prelude StateError SrsReader SrsAddress SrsDecoder SrsText.
Open Scope Z_scope.

(** * Binary rule sets: the format

    The specification the decoder of lists/srs_decoder.cpp is compared with: rule sets as
    trees, the bytes that encode them, and a calculus for statements of the form "what
    was read is the encoding of what was returned" ([spec]). The operations on numbers,
    the accounting and the fields that are passed over are specified here. *)

(** ** Encodings *)

(** Canonical unsigned LEB128, at most [fuel] bytes. *)
Fixpoint leb128 (fuel : nat) (v : Z) : list Z :=
  match fuel with
  | O => []
  | S fuel => if v <? 128 then [v] else v mod 128 + 128 :: leb128 fuel (v / 128)
  end.

Definition enc_uvarint (v : Z) : list Z := leb128 10 v.

(** Big endian, [n] bytes. *)
Fixpoint enc_be (n : nat) (v : Z) : list Z :=
  match n with
  | O => []
  | S n => enc_be n (v / 256) ++ [v mod 256]
  end.

Definition enc_string (s : list Z) : list Z := enc_uvarint (Z.of_nat (length s)) ++ s.

Definition enc_list {A} (enc : A → list Z) (l : list A) : list Z :=
  enc_uvarint (Z.of_nat (length l)) ++ concat (enc <$> l).

Definition enc_prefix (p : list Z * Z) : list Z := enc_string (p.1) ++ [p.2].

Definition enc_interface (e : Z * list (list Z * Z)) : list Z :=
  e.1 :: enc_list enc_prefix (e.2).

(** The succinct trie: leaf bits, edge bits and labels. *)
Record TrieBits := { tb_leaves : list Z; tb_bitmap : list Z; tb_labels : list Z }.

Definition enc_trie (t : TrieBits) : list Z :=
  0 :: enc_list (enc_be 8) (tb_leaves t) ++ enc_list (enc_be 8) (tb_bitmap t)
    ++ enc_string (tb_labels t).

Definition enc_range (r : list Z * list Z) : list Z := enc_string (r.1) ++ enc_string (r.2).

Definition enc_ip_set (rs : list (list Z * list Z)) : list Z :=
  1 :: enc_be 8 (Z.of_nat (length rs)) ++ concat (enc_range <$> rs).

(** The payload of an item. *)
Inductive Field :=
| FieldTrie (t : TrieBits)
| FieldRanges (rs : list (list Z * list Z))
| FieldStrings (ss : list (list Z))
| FieldShorts (ns : list Z)
| FieldBytes (bs : list Z)
| FieldPrefixes (ps : list (list Z * Z))
| FieldInterfaces (m : list (Z * list (list Z * Z)))
| FieldFlag.

Definition enc_field (f : Field) : list Z :=
  match f with
  | FieldTrie t => enc_trie t
  | FieldRanges rs => enc_ip_set rs
  | FieldStrings ss => enc_list enc_string ss
  | FieldShorts ns => enc_list (enc_be 2) ns
  | FieldBytes bs => enc_string bs
  | FieldPrefixes ps => enc_list enc_prefix ps
  | FieldInterfaces m => enc_list enc_interface m
  | FieldFlag => []
  end.

(** A rule: items and the inversion flag, or a conjunction ([false]) or disjunction of
    rules. *)
Inductive Rule :=
| DefaultRule (items : list (RuleItem * Field)) (invert : bool)
| LogicalRule (any : bool) (children : list Rule) (invert : bool).

Definition item_byte (i : RuleItem) : Z :=
  match list_find (i =.) all_items with Some (n, _) => Z.of_nat n | None => 0 end.

Definition enc_item (i : RuleItem * Field) : list Z := item_byte (i.1) :: enc_field (i.2).

Definition enc_bool (b : bool) : Z := if b then 1 else 0.

Fixpoint enc_rule (r : Rule) : list Z :=
  match r with
  | DefaultRule items invert =>
      0 :: concat (enc_item <$> items) ++ [final_item; enc_bool invert]
  | LogicalRule any children invert =>
      1 :: enc_bool any :: enc_uvarint (Z.of_nat (length children))
        ++ concat (enc_rule <$> children) ++ [enc_bool invert]
  end.

(** The decompressed part of a file. *)
Definition enc_rule_set (rs : list Rule) : list Z := enc_list enc_rule rs.

Lemma item_byte_of raw i : item_of_byte raw = Some i → item_byte i = raw.
Proof.
  unfold item_of_byte. destruct (Z.ltb_spec raw 0); [done|]. intros Hl.
  assert (Z.to_nat raw < 24)%nat as Hn by (apply (lookup_lt_Some _ _ _ Hl)).
  rewrite <- (Z2Nat.id raw) by done. revert Hl Hn. generalize (Z.to_nat raw). intros n Hl Hn.
  do 24 (destruct n as [|n]; [vm_compute in Hl; injection Hl as <-; reflexivity|]). lia.
Qed.

Lemma enc_be_value l : Forall byte_ok l → enc_be (length l) (addr_value l) = l.
Proof.
  induction l as [|v l IH] using rev_ind; [done|]. intros [Hl [Hv _]%Forall_cons]%Forall_app.
  rewrite length_app, Nat.add_1_r. cbn [enc_be]. rewrite addr_value_app. cbn [addr_value length].
  change (256 ^ Z.of_nat 1) with 256. change (256 ^ Z.of_nat 0) with 1. unfold byte_ok in Hv.
  replace ((addr_value l * 256 + (v * 1 + 0)) / 256) with (addr_value l)
    by (apply (Z.div_unique _ _ _ v); lia).
  replace ((addr_value l * 256 + (v * 1 + 0)) mod 256) with v
    by (apply (Z.mod_unique _ _ (addr_value l)); lia).
  by rewrite IH.
Qed.

Lemma fold_be l acc :
  Forall byte_ok l → 0 ≤ acc → acc * 256 ^ Z.of_nat (length l) + addr_value l < 2 ^ 64 →
  fold_left (λ value byte, Z.lor (u64 (Z.shiftl value 8)) byte) l acc
  = acc * 256 ^ Z.of_nat (length l) + addr_value l.
Proof.
  intros Hl. revert acc. induction Hl as [|b l Hb Hl IH]; intros acc Ha Hlt; cbn [fold_left].
  { cbn. lia. }
  cbn [length addr_value] in *. rewrite pow256_succ in *. unfold byte_ok in Hb.
  pose proof (pow256_pos (length l)). pose proof (addr_value_range _ Hl).
  assert (acc * 256 + b < 2 ^ 64) by nia.
  rewrite Z.shiftl_mul_pow2 by lia. change (2 ^ 8) with 256.
  unfold u64, wrap. rewrite Z.mod_small by lia. change 256 with (2 ^ 8) at 1.
  rewrite lor_disjoint by lia. change (2 ^ 8) with 256. rewrite IH by lia. lia.
Qed.

(** ** Statements about what is read *)

Section Spec.
Context `{SizeT} {R : Type} `{ByteReaderLaws R}.
Context (limits : SrsDecodeLimits).
Hypothesis Hlimits : limits_wf limits.

Abbreviation Dec := (@Decoder R).
Abbreviation D := (SE Dec SrsDecodeError).

(** The invariant of the decoder: every total is within its limit. *)
Definition dec_ok (d : Dec) : Prop :=
  reader_ok (reader_ d) ∧
  0 ≤ total_values_ d ≤ max_values limits ∧
  0 ≤ total_string_bytes_ d ≤ max_total_string_bytes limits ∧
  0 ≤ decoded_output_entries_ d ≤ max_output_entries limits ∧
  0 ≤ decoded_output_string_bytes_ d ≤ max_output_string_bytes limits.

(** From [d], the computation fails by rejecting its input, or returns [a] after reading
    bytes [bs], in a state [d'] that satisfies the invariant and [Q a bs d']. *)
Definition spec {A} (m : D A) (d : Dec) (Q : A → list Z → Dec → Prop) : Prop :=
  dec_ok d →
  wp m (λ a d', ∃ bs, reads (reader_ d) bs (reader_ d') ∧ dec_ok d' ∧ Forall byte_ok bs ∧ Q a bs d')
       (λ e _, e = SrsInvalid) d.

Lemma spec_ret {A} (a : A) d (Q : A → list Z → Dec → Prop) : Q a [] d → spec (mret a) d Q.
Proof. intros HQ Hd. apply wp_ret. exists []. split; [apply reads_nil|]. by repeat split; try apply Hd. Qed.

Lemma spec_invalid {A} d (Q : A → list Z → Dec → Prop) : spec (throw SrsInvalid) d Q.
Proof. intros _. by apply wp_throw. Qed.

Lemma spec_mono {A} (m : D A) d (Q Q' : A → list Z → Dec → Prop) :
  spec m d Q → (∀ a bs d', Forall byte_ok bs → Q a bs d' → Q' a bs d') → spec m d Q'.
Proof.
  intros Hm HQ Hd. eapply wp_mono; [by apply Hm| |done]. cbv beta.
  intros a d' (bs & Hr & Hok & Hbs & HQa). exists bs. auto.
Qed.

Lemma spec_bind {A B} (m : D A) (k : A → D B) d (Q : B → list Z → Dec → Prop) :
  spec m d (λ a bs d', spec (k a) d' (λ b bs' d'', Q b (bs ++ bs') d'')) →
  spec (mbind k m) d Q.
Proof.
  intros Hm Hd. apply wp_bind. eapply wp_mono; [by apply Hm| |done]. cbv beta.
  intros a d' (bs & Hr & Hok & Hbs & Hk). eapply wp_mono; [by apply Hk| |done]. cbv beta.
  intros b d'' (bs' & Hr' & Hok' & Hbs' & HQ). exists (bs ++ bs').
  split; [by eapply reads_app|]. split; [done|]. split; [by apply Forall_app|done].
Qed.

(** The usual shape: what [m] guarantees, then the continuation under it. *)
Lemma spec_seq {A B} (m : D A) (k : A → D B) d (P : A → list Z → Dec → Prop) Q :
  spec m d P →
  (∀ a bs d', Forall byte_ok bs → P a bs d' → spec (k a) d' (λ b bs' d'', Q b (bs ++ bs') d'')) →
  spec (mbind k m) d Q.
Proof. intros Hm Hk. apply spec_bind. eapply spec_mono; [done|]. auto. Qed.

Lemma spec_gets {A} (f : Dec → A) d (Q : A → list Z → Dec → Prop) : Q (f d) [] d → spec (gets f) d Q.
Proof. intros HQ. exact (spec_ret (f d) d Q HQ). Qed.

Lemma spec_modify f d (Q : unit → list Z → Dec → Prop) :
  reader_ (f d) = reader_ d → (dec_ok d → dec_ok (f d)) → Q () [] (f d) → spec (modify f) d Q.
Proof.
  intros Hr Hok HQ Hd. apply wp_modify. exists []. rewrite Hr. split; [apply reads_nil|]. auto.
Qed.

Lemma spec_fail_if b d (Q : unit → list Z → Dec → Prop) :
  (b = false → Q () [] d) → spec (fail_if b) d Q.
Proof. intros HQ. unfold fail_if. destruct b; [apply spec_invalid|by apply spec_ret, HQ]. Qed.

Lemma spec_of_result {A} (r : result SrsDecodeError A) d (Q : A → list Z → Dec → Prop) :
  (∀ a, r = Ok a → Q a [] d) → (∀ e, r = Throw e → e = SrsInvalid) → spec (of_result r) d Q.
Proof.
  intros Hok Ht. destruct r as [a|e]; [by apply spec_ret, Hok|].
  rewrite (Ht e eq_refl). apply spec_invalid.
Qed.

Lemma spec_vector_at {A} (o : option A) d (Q : A → list Z → Dec → Prop) :
  (∃ a, o = Some a ∧ Q a [] d) → spec (vector_at o) d Q.
Proof. intros (a & -> & HQ). by apply spec_ret. Qed.

(** Loops whose passes agree with a list of values: [P] relates a value to the bytes of
    its pass, [I] holds of the accumulator before and after. *)
Lemma spec_mfold {A B X} (f : B → A → D B) (l : list A) (b : B) d
    (I : list X → B → list Z → Dec → Prop) :
  I [] b [] d →
  (∀ xs b x bs d', I xs b bs d' →
     spec (f b x) d' (λ b' bs' d'', ∃ y, I (xs ++ [y]) b' (bs ++ bs') d'')) →
  spec (mfold f b l) d (λ b' bs d', ∃ xs, length xs = length l ∧ I xs b' bs d').
Proof.
  intros HI Hf.
  assert (∀ l xs b bs0 d', I xs b bs0 d' →
    spec (mfold f b l) d' (λ b' bs d'', ∃ ys, length ys = length l ∧ I (xs ++ ys) b' (bs0 ++ bs) d'')) as Hgen.
  { clear HI b d l. induction l as [|x l IH]; intros xs b bs0 d HI; cbn [mfold].
    - apply spec_ret. exists []. by rewrite !app_nil_r.
    - eapply spec_seq; [by apply Hf|]. cbv beta. intros b' bs d' _ [y HI'].
      eapply spec_mono; [by apply IH|]. cbv beta. intros b'' bs' d'' _ (ys & Hlen & HI'').
      exists (y :: ys). cbn. rewrite <- !app_assoc in HI''. split; [by rewrite Hlen|done]. }
  eapply spec_mono; [by apply (Hgen l [] b [] d)|]. cbv beta. intros b' bs d' _ (ys & Hlen & HI').
  by exists ys.
Qed.

(** ** Numbers *)

(** A state after an operation that only reads. *)
Definition only_reads (d d' : Dec) : Prop := d' = set_reader (reader_ d') d.

Lemma only_reads_refl d : only_reads d d.
Proof. by destruct d. Qed.

Lemma only_reads_trans d d' d'' : only_reads d d' → only_reads d' d'' → only_reads d d''.
Proof. unfold only_reads. intros E1 E2. rewrite E2, E1. done. Qed.

Lemma spec_read_bytes n d :
  0 ≤ n → spec (read_bytes n) d (λ l bs d', l = bs ∧ length bs = Z.to_nat n ∧ only_reads d d').
Proof.
  intros Hn Hd. unfold read_bytes, on_reader, wp.
  pose proof (read_exact_spec (Z.to_nat n) (reader_ d) (proj1 Hd)) as Hr. unfold wp in Hr.
  destruct (read_exact (Z.to_nat n) (reader_ d)) as [r [l|e]]; [|done].
  destruct Hr as (Hlen & Hby & Hr & Hok). exists l. split; [done|]. split; [by split; [|apply Hd]|].
  split; [done|]. done.
Qed.

Lemma spec_read_byte d :
  spec read_byte d (λ b bs d', bs = [b] ∧ byte_ok b ∧ only_reads d d').
Proof.
  unfold read_byte. eapply spec_seq; [apply spec_read_bytes; lia|]. cbv beta.
  intros l bs d' Hby (-> & Hlen & Hd). destruct bs as [|b [|]]; [done| |done].
  apply spec_vector_at. exists b. split; [done|]. apply Forall_cons in Hby as [? _]. done.
Qed.

Lemma land_127 b : 0 ≤ b → Z.land b 127 = b mod 128.
Proof. intros. apply (Z.land_ones b 7). lia. Qed.

Lemma land_128 b : byte_ok b → Z.land b 128 = if b <? 128 then 0 else 128.
Proof.
  unfold byte_ok. intros Hb.
  pose proof (elem_of_byte_values b Hb) as Hin. revert b Hin Hb.
  enough (forallb (λ b, Z.land b 128 =? (if b <? 128 then 0 else 128)) byte_values = true) as Hall.
  { intros b Hin _. rewrite forallb_forall in Hall. apply Z.eqb_eq. by apply Hall. }
  vm_compute. reflexivity.
Qed.

Lemma spec_uvarint_loop fuel i v0 d :
  Z.of_nat fuel + i = 10 → 0 ≤ i → 0 ≤ v0 < 2 ^ (7 * i) →
  spec (uvarint_loop fuel i v0) d (λ v bs d', ∃ w,
    v = v0 + w * 2 ^ (7 * i) ∧ bs = leb128 fuel w ∧ 0 ≤ w < 2 ^ (64 - 7 * i) ∧
    (i ≠ 0 → w ≠ 0) ∧ only_reads d d').
Proof.
  revert i v0 d. induction fuel as [|fuel IH]; intros i v0 d Hfi Hi Hv0; [apply spec_invalid|].
  cbn [uvarint_loop]. eapply spec_seq; [apply spec_read_byte|]. cbv beta.
  intros b bs d' _ (-> & Hb & Hd). pose proof Hb as Hb'. unfold byte_ok in Hb'.
  destruct ((i =? 9) && (1 <? b)) eqn:Hov; [apply spec_invalid|].
  assert (i = 9 → b ≤ 1) as H9.
  { intros ->. cbn in Hov. by apply Z.ltb_ge in Hov. }
  cbv zeta. rewrite land_127 by lia.
  pose proof (Z.mod_pos_bound b 128 ltac:(lia)) as Hm.
  assert (0 < 2 ^ (7 * i)) as Hp by (apply Z.pow_pos_nonneg; lia).
  assert (b mod 128 * 2 ^ (i * 7) < 2 ^ 64) as Hfit.
  { destruct (Z.eq_dec i 9) as [->|].
    - specialize (H9 eq_refl). rewrite Z.mod_small by lia. change (2 ^ (9 * 7)) with (2 ^ 63). lia.
    - assert (2 ^ (i * 7) ≤ 2 ^ 56) by (apply Z.pow_le_mono_r; lia). nia. }
  rewrite Z.shiftl_mul_pow2 by lia. rewrite (Z.mul_comm i 7) in *.
  assert (0 ≤ b mod 128 * 2 ^ (7 * i)) by (apply Z.mul_nonneg_nonneg; lia).
  unfold u64, wrap. rewrite (Z.mod_small (_ * _)) by (split; assumption).
  rewrite Z.lor_comm, lor_disjoint by lia.
  rewrite land_128 by done. destruct (Z.ltb_spec b 128) as [Hlt|Hge]; cbn [Z.eqb].
  - rewrite Z.mod_small by lia.
    destruct (negb (i =? 0) && (b =? 0)) eqn:Hz; [apply spec_invalid|]. apply spec_ret.
    exists b. split; [lia|]. split; [cbn [leb128 app]; by rewrite (proj2 (Z.ltb_lt _ _) Hlt)|].
    split.
    { split; [lia|]. destruct (Z.eq_dec i 9) as [->|]; [specialize (H9 eq_refl); cbn; lia|].
      assert (2 ^ 7 ≤ 2 ^ (64 - 7 * i)) by (apply Z.pow_le_mono_r; lia). lia. }
    split; [|done]. intros Hi0 ->. by rewrite (proj2 (Z.eqb_neq _ _) Hi0) in Hz.
  - assert (i ≠ 9) by (intros ->; specialize (H9 eq_refl); lia).
    assert (2 ^ (7 * (i + 1)) = 128 * 2 ^ (7 * i)) as Hpi.
    { replace (7 * (i + 1)) with (7 + 7 * i) by lia. by rewrite Z.pow_add_r by lia. }
    eapply spec_mono; [apply IH; [lia|lia|rewrite Hpi; nia]|]. cbv beta.
    intros v bs d'' _ (w & -> & -> & Hw & Hwz & Hd'). specialize (Hwz ltac:(lia)).
    exists (b mod 128 + 128 * w).
    assert (b = b mod 128 + 128) as Hbm.
    { rewrite <- (Z.mod_unique b 128 1 (b - 128)); lia. }
    split; [rewrite Hpi; lia|]. split.
    { cbn [leb128 app]. destruct (Z.ltb_spec (b mod 128 + 128 * w) 128); [lia|].
      replace ((b mod 128 + 128 * w) mod 128) with (b mod 128)
        by (rewrite Z.mul_comm, Z.mod_add, Z.mod_mod by lia; done).
      replace ((b mod 128 + 128 * w) / 128) with w
        by (rewrite Z.mul_comm, Z.div_add, (Z.div_small (b mod 128)) by lia; lia).
      by rewrite <- Hbm. }
    split.
    { replace (64 - 7 * i) with (7 + (64 - 7 * (i + 1))) by lia. rewrite Z.pow_add_r by lia.
      change (2 ^ 7) with 128. lia. }
    split; [lia|]. by eapply only_reads_trans.
Qed.

Lemma spec_read_uvarint d :
  spec read_uvarint d (λ v bs d', bs = enc_uvarint v ∧ 0 ≤ v < 2 ^ 64 ∧ only_reads d d').
Proof.
  eapply spec_mono; [apply spec_uvarint_loop; [done|lia|cbn; lia]|]. cbv beta.
  intros v bs d' _ (w & -> & -> & Hw & _ & Hd). change (2 ^ (7 * 0)) with 1.
  rewrite Z.mul_1_r. done.
Qed.

Lemma spec_read_count limit d :
  spec (read_count limit) d (λ v bs d', bs = enc_uvarint v ∧ 0 ≤ v ≤ limit ∧ only_reads d d').
Proof.
  unfold read_count. eapply spec_seq; [apply spec_read_uvarint|]. cbv beta.
  intros v bs d' _ (-> & Hv & Hd). unfold checked_size.
  destruct (Z.ltb_spec limit v); [apply spec_invalid|].
  destruct (size_max <? v); [apply spec_invalid|]. apply spec_ret. rewrite app_nil_r.
  split; [done|]. split; [lia|done].
Qed.

Lemma spec_read_be_u64 d :
  spec read_be_u64 d (λ v bs d', bs = enc_be 8 v ∧ 0 ≤ v < 2 ^ 64 ∧ only_reads d d').
Proof.
  unfold read_be_u64. eapply spec_seq; [apply spec_read_bytes; lia|]. cbv beta.
  intros l bs d' Hby (-> & Hlen & Hd). apply spec_ret. rewrite app_nil_r.
  pose proof (addr_value_range _ Hby) as Hr. rewrite Hlen in Hr.
  change (256 ^ Z.of_nat (Z.to_nat 8)) with (2 ^ 64) in Hr.
  rewrite fold_be by (try done; lia). rewrite Z.mul_0_l, Z.add_0_l.
  split; [|done]. change 8%nat with (Z.to_nat 8). by rewrite <- Hlen, enc_be_value.
Qed.

Lemma spec_read_be_u16 d :
  spec read_be_u16 d (λ v bs d', bs = enc_be 2 v ∧ only_reads d d').
Proof.
  unfold read_be_u16. eapply spec_seq; [apply spec_read_bytes; lia|]. cbv beta.
  intros l bs d' Hby (-> & Hlen & Hd). apply spec_ret. rewrite app_nil_r. split; [|done].
  destruct bs as [|a [|b [|]]]; try discriminate Hlen. cbn [nth].
  rewrite <- (enc_be_value [a; b]) at 1 by done. cbn [length]. f_equal.
  apply Forall_cons in Hby as [Ha [Hb _]%Forall_cons]. unfold byte_ok in *.
  rewrite Z.shiftl_mul_pow2, lor_disjoint by lia. cbn. lia.
Qed.

Lemma spec_read_bool d :
  spec read_bool d (λ b bs d', bs = [enc_bool b] ∧ only_reads d d').
Proof.
  unfold read_bool. eapply spec_seq; [apply spec_read_byte|]. cbv beta.
  intros v bs d' _ (-> & Hb & Hd). destruct (Z.ltb_spec 1 v); [apply spec_invalid|].
  apply spec_ret. split; [|done]. unfold byte_ok in Hb.
  by assert (v = 0 ∨ v = 1) as [-> | ->] by lia.
Qed.

(** ** Accounting *)

(** A state after [n] more entries with [b] more bytes have been accounted for. *)
Definition grown (n b : Z) (d d' : Dec) : Prop :=
  result_ d' = result_ d ∧
  decoded_output_entries_ d' = decoded_output_entries_ d + n ∧
  decoded_output_string_bytes_ d' = decoded_output_string_bytes_ d + b.

Definition calm : Dec → Dec → Prop := grown 0 0.

Lemma grown_trans n b n' b' d d' d'' :
  grown n b d d' → grown n' b' d' d'' → grown (n + n') (b + b') d d''.
Proof. intros (E1 & E2 & E3) (F1 & F2 & F3). repeat split; [congruence|lia..]. Qed.

Lemma calm_refl d : calm d d.
Proof. repeat split; lia. Qed.

Lemma calm_trans d d' d'' : calm d d' → calm d' d'' → calm d d''.
Proof. apply grown_trans. Qed.

Lemma calm_grown n b d d' d'' : calm d d' → grown n b d' d'' → grown n b d d''.
Proof. intros Hc Hg. exact (grown_trans 0 0 n b _ _ _ Hc Hg). Qed.

Lemma grown_calm n b d d' d'' : grown n b d d' → calm d' d'' → grown n b d d''.
Proof. intros Hg Hc. pose proof (grown_trans _ _ _ _ _ _ _ Hg Hc) as Ht. by rewrite !Z.add_0_r in Ht. Qed.

Lemma only_reads_calm d d' : only_reads d d' → calm d d'.
Proof. intros E. unfold only_reads in E. rewrite E. repeat split; cbn; lia. Qed.

Lemma limit_range f : f ∈ limit_fields limits → 0 ≤ f ≤ size_max.
Proof. intros Hf. unfold limits_wf in Hlimits. rewrite Forall_forall in Hlimits. by apply Hlimits. Qed.

Ltac in_limits := apply limit_range; unfold limit_fields; rewrite !elem_of_cons; tauto.

Lemma account_within used count lim :
  0 ≤ used ≤ lim → 0 ≤ lim ≤ size_max → 0 ≤ count → (usize (lim - used) <? count) = false →
  usize (used + count) = used + count ∧ used + count ≤ lim.
Proof.
  intros Hu Hl Hc Hlt. rewrite usize_small in Hlt by lia. apply Z.ltb_ge in Hlt.
  rewrite usize_small; lia.
Qed.

(** [d ← gets id] in a specification. *)
Lemma spec_get {B} (k : Dec → D B) d Q : spec (k d) d Q → spec (mbind k (gets id)) d Q.
Proof. intros Hk. apply spec_bind, spec_gets. unfold id. done. Qed.

Ltac account_tac lim :=
  let Hlt := fresh "Hlt" in let Hd := fresh "Hd" in let E := fresh "E" in
  apply spec_get, spec_bind, spec_fail_if; intros Hlt; cbn [app];
  intros Hd; pose proof Hd as (? & ? & ? & ? & ?);
  assert (0 ≤ lim limits ≤ size_max) by in_limits;
  match type of Hlt with (usize (?l - ?u) <? ?c) = _ =>
    destruct (account_within u c l) as [E ?]; [lia|lia|lia|done|] end;
  revert Hd; apply spec_modify; [done| |];
  [intros _; unfold dec_ok; cbn; rewrite E; repeat split; first [done|lia]
  |unfold calm, grown; cbn; rewrite ?E; repeat split; first [done|lia]].

Lemma spec_account_values count d :
  0 ≤ count → spec (account_values limits count) d (λ _ bs d', bs = [] ∧ calm d d').
Proof. intros Hc. unfold account_values. account_tac max_values. Qed.

Lemma spec_account_string_bytes count d :
  0 ≤ count → spec (account_string_bytes limits count) d (λ _ bs d', bs = [] ∧ calm d d').
Proof. intros Hc. unfold account_string_bytes. account_tac max_total_string_bytes. Qed.

Lemma spec_account_output count d :
  0 ≤ count → spec (account_output limits count) d (λ _ bs d', bs = [] ∧ grown count 0 d d').
Proof. intros Hc. unfold account_output. account_tac max_output_entries. Qed.

Lemma spec_account_output_string_bytes count d :
  0 ≤ count →
  spec (account_output_string_bytes limits count) d (λ _ bs d', bs = [] ∧ grown 0 count d d').
Proof. intros Hc. unfold account_output_string_bytes. account_tac max_output_string_bytes. Qed.
End Spec.

Section Fields.
Context `{SizeT} {R : Type} `{ByteReaderLaws R}.
Context (limits : SrsDecodeLimits).
Hypothesis Hlimits : limits_wf limits.

Abbreviation Dec := (@Decoder R).
Abbreviation D := (SE Dec SrsDecodeError).
Abbreviation spec := (spec limits).

(** ** Loops *)

Lemma spec_for_count {X} (enc : X → list Z) n (body : D unit) d :
  (∀ d, spec body d (λ _ bs d', (∃ x, bs = enc x) ∧ calm d d')) →
  0 ≤ n →
  spec (for_count n body) d
    (λ _ bs d', (∃ xs, Z.of_nat (length xs) = n ∧ bs = concat (enc <$> xs)) ∧ calm d d').
Proof.
  intros Hb Hn. unfold for_count, mfor.
  eapply spec_mono.
  - apply (spec_mfold _ _ _ _ _ (λ xs _ bs d', bs = concat (enc <$> xs) ∧ calm d d')).
    + split; [done|apply calm_refl].
    + cbv beta. intros xs _ _ bs d' [-> Hd]. eapply spec_mono; [apply Hb|]. cbv beta.
      intros _ bs' d'' _ [[x ->] Hd']. exists x.
      rewrite fmap_app, concat_app. cbn. rewrite app_nil_r. split; [done|]. by eapply calm_trans.
  - cbv beta. intros _ bs d' _ (xs & Hlen & -> & Hd). split; [|done]. exists xs.
    rewrite Hlen, length_seq. split; [lia|done].
Qed.

Lemma spec_collect {X} (enc : X → list Z) (P : X → Prop) n (body : D X) d :
  (∀ d, spec body d (λ x bs d', bs = enc x ∧ P x ∧ only_reads d d')) →
  spec (collect n body) d
    (λ xs bs d', length xs = n ∧ bs = concat (enc <$> xs) ∧ Forall P xs ∧ only_reads d d').
Proof.
  intros Hb. revert d. induction n as [|n IH]; intros d; cbn [collect].
  { apply spec_ret. repeat split; [constructor|apply only_reads_refl]. }
  eapply spec_seq; [apply Hb|]. cbv beta. intros x bs d' _ (-> & Hx & Hd).
  eapply spec_seq; [apply IH|]. cbv beta. intros xs bs d'' _ (Hlen & -> & Hxs & Hd').
  apply spec_ret. rewrite app_nil_r. split; [by rewrite <- Hlen|]. split; [done|].
  split; [by constructor|by eapply only_reads_trans].
Qed.

(** ** Fields that are passed over *)

Lemma spec_skip_bytes fuel n d :
  0 ≤ n → (Z.to_nat n ≤ fuel)%nat →
  spec (skip_bytes fuel n) d (λ _ bs d', Z.of_nat (length bs) = n ∧ calm d d').
Proof.
  revert n d. induction fuel as [|fuel IH]; intros n d Hn Hf; cbn [skip_bytes];
    (destruct (Z.eqb_spec n 0) as [->|]; [apply spec_ret; split; [done|apply calm_refl]|]); [lia|].
  eapply spec_seq; [apply spec_read_bytes; lia|]. cbv beta. intros l bs d' _ (-> & Hlen & Hd).
  eapply spec_mono; [apply IH; lia|]. cbv beta. intros _ bs' d'' _ [Hlen' Hd'].
  rewrite length_app. split; [lia|]. eapply calm_trans; [by apply only_reads_calm|done].
Qed.

Lemma spec_skip_string d :
  spec (skip_string limits) d (λ _ bs d', (∃ s, bs = enc_string s) ∧ calm d d').
Proof.
  unfold skip_string. eapply spec_seq; [apply spec_read_count|]. cbv beta.
  intros n bs d1 _ (-> & Hn & Hd1).
  eapply spec_seq; [apply spec_account_string_bytes; [done|lia]|]. cbv beta.
  intros _ bs d2 _ [-> Hd2]. eapply spec_mono; [apply spec_skip_bytes; lia|]. cbv beta.
  intros _ s d3 _ [Hlen Hd3]. split; [exists s; unfold enc_string; by rewrite Hlen|].
  eapply calm_trans; [by apply only_reads_calm|]. by eapply calm_trans.
Qed.

(** A counted list of fields. *)
Lemma spec_skip_counted {X} (enc : X → list Z) (body : D unit) d :
  (∀ d, spec body d (λ _ bs d', (∃ x, bs = enc x) ∧ calm d d')) →
  spec (count ← read_count (max_values limits);
        _ ← account_values limits count; for_count count body) d
    (λ _ bs d', (∃ xs, bs = enc_list enc xs) ∧ calm d d').
Proof.
  intros Hb. eapply spec_seq; [apply spec_read_count|]. cbv beta. intros n bs d1 _ (-> & Hn & Hd1).
  eapply spec_seq; [apply spec_account_values; [done|lia]|]. cbv beta. intros _ bs d2 _ [-> Hd2].
  eapply spec_mono; [apply (spec_for_count enc); [done|lia]|]. cbv beta.
  intros _ bs d3 _ [(xs & Hlen & ->) Hd3]. split; [exists xs; unfold enc_list; by rewrite Hlen|].
  eapply calm_trans; [by apply only_reads_calm|]. by eapply calm_trans.
Qed.

Lemma spec_skip_string_list d :
  spec (skip_string_list limits) d (λ _ bs d', (∃ ss, bs = enc_list enc_string ss) ∧ calm d d').
Proof. apply spec_skip_counted, spec_skip_string. Qed.

Lemma spec_skip_u16_list d :
  spec (skip_u16_list limits) d (λ _ bs d', (∃ ns, bs = enc_list (enc_be 2) ns) ∧ calm d d').
Proof.
  apply spec_skip_counted. intros d0. eapply spec_seq; [apply spec_read_be_u16|]. cbv beta.
  intros n bs d' _ (-> & Hd). apply spec_ret. rewrite app_nil_r.
  split; [by exists n|by apply only_reads_calm].
Qed.

Lemma spec_skip_u8_list d :
  spec (skip_u8_list limits) d (λ _ bs d', (∃ l, bs = enc_string l) ∧ calm d d').
Proof.
  unfold skip_u8_list. eapply spec_seq; [apply spec_read_count|]. cbv beta.
  intros n bs d1 _ (-> & Hn & Hd1).
  eapply spec_seq; [apply spec_account_values; [done|lia]|]. cbv beta.
  intros _ bs d2 _ [-> Hd2]. eapply spec_mono; [apply spec_skip_bytes; lia|]. cbv beta.
  intros _ s d3 _ [Hlen Hd3]. split; [exists s; unfold enc_string; by rewrite Hlen|].
  eapply calm_trans; [by apply only_reads_calm|]. by eapply calm_trans.
Qed.

Lemma spec_read_address d :
  spec read_address d (λ a bs d', bs = enc_string a ∧ address_ok a ∧ only_reads d d').
Proof.
  unfold read_address. eapply spec_seq; [apply spec_read_count|]. cbv beta.
  intros n bs d1 _ (-> & Hn & Hd1). apply spec_bind, spec_fail_if. intros Hlen.
  eapply spec_mono; [apply spec_read_bytes; lia|]. cbv beta.
  intros a bs d2 Hby (-> & Hl & Hd2). unfold enc_string.
  assert (n = 4 ∨ n = 16) as Hn' by (destruct (Z.eqb_spec n 4), (Z.eqb_spec n 16); tauto || discriminate).
  split; [rewrite Hl, Z2Nat.id by lia; by rewrite app_nil_l|].
  split; [|by eapply only_reads_trans]. split; [|done]. rewrite Hl.
  destruct Hn' as [-> | ->]; [by left|by right].
Qed.

Lemma spec_skip_prefix d :
  spec skip_prefix d (λ _ bs d', (∃ p, bs = enc_prefix p) ∧ calm d d').
Proof.
  unfold skip_prefix. eapply spec_seq; [apply spec_read_address|]. cbv beta.
  intros a bs d1 _ (-> & Ha & Hd1). eapply spec_seq; [apply spec_read_byte|]. cbv beta.
  intros n bs d2 _ (-> & Hn & Hd2). apply spec_fail_if. intros _. rewrite app_nil_r.
  split; [by exists (a, n)|]. apply only_reads_calm. by eapply only_reads_trans.
Qed.

Lemma spec_skip_prefix_list d :
  spec (skip_prefix_list limits) d (λ _ bs d', (∃ ps, bs = enc_list enc_prefix ps) ∧ calm d d').
Proof. apply spec_skip_counted, spec_skip_prefix. Qed.

Lemma spec_skip_interface seen d :
  spec (skip_interface limits seen) d (λ _ bs d', (∃ e, bs = enc_interface e) ∧ calm d d').
Proof.
  unfold skip_interface. eapply spec_seq; [apply spec_read_byte|]. cbv beta.
  intros key bs d1 _ (-> & _ & Hd1). apply spec_bind, spec_fail_if. intros _.
  eapply spec_seq; [apply spec_read_count|]. cbv beta. intros n bs d2 _ (-> & Hn & Hd2).
  eapply spec_seq; [apply spec_account_values; [done|lia]|]. cbv beta. intros _ bs d3 _ [-> Hd3].
  eapply spec_seq; [apply (spec_for_count enc_prefix); [apply spec_skip_prefix|lia]|]. cbv beta.
  intros _ bs d4 _ [(ps & Hlen & ->) Hd4]. apply spec_ret.
  split; [exists (key, ps); unfold enc_interface, enc_list; cbn; by rewrite Hlen, app_nil_r|].
  eapply calm_trans; [apply only_reads_calm; by eapply only_reads_trans|]. by eapply calm_trans.
Qed.

Lemma spec_skip_interface_address_map d :
  spec (skip_interface_address_map limits) d
    (λ _ bs d', (∃ m, bs = enc_list enc_interface m) ∧ calm d d').
Proof.
  unfold skip_interface_address_map. eapply spec_seq; [apply spec_read_count|]. cbv beta.
  intros n bs d1 _ (-> & Hn & Hd1).
  eapply spec_seq; [apply spec_account_values; [done|lia]|]. cbv beta. intros _ bs d2 _ [-> Hd2].
  eapply spec_seq.
  - apply (spec_mfold _ _ _ _ _ (λ xs _ bs d', bs = concat (enc_interface <$> xs) ∧ calm d2 d')).
    + split; [done|apply calm_refl].
    + cbv beta. intros xs seen _ bs d' [-> Hd]. eapply spec_mono; [apply spec_skip_interface|].
      cbv beta. intros _ bs' d'' _ [[x ->] Hd']. exists x.
      rewrite fmap_app, concat_app. cbn [concat fmap list_fmap]. rewrite app_nil_r.
      split; [done|]. by eapply calm_trans.
  - cbv beta. intros _ bs d3 _ (xs & Hlen & -> & Hd3). apply spec_ret. rewrite length_seq in Hlen.
    split.
    + exists xs. unfold enc_list. rewrite Hlen, Z2Nat.id by lia. by rewrite app_nil_r.
    + eapply calm_trans; [by apply only_reads_calm|]. by eapply calm_trans.
Qed.

(** ** Ranges *)

Definition block_text (b : list Z * nat) : string := format_cidr (b.1) (b.2).

Definition block_ok (len : nat) (b : list Z * nat) : Prop :=
  address_ok (b.1) ∧ length (b.1) = len ∧ (b.2 ≤ 8 * len)%nat ∧
  (2 ^ Z.of_nat (b.2) | addr_value (b.1)).

Definition text_bytes (texts : list string) : Z :=
  Z.of_nat (sum_list_with String.length texts).

Lemma text_bytes_app l l' : text_bytes (l ++ l') = text_bytes l + text_bytes l'.
Proof. unfold text_bytes. rewrite sum_list_with_app. lia. Qed.

Lemma address_ok_length a b : address_ok a → Forall byte_ok b → length b = length a → address_ok b.
Proof. intros [Hl _] Hb Hlen. split; [by rewrite Hlen|done]. Qed.

(** The texts appended for one range are those of its canonical cover. *)
Lemma spec_range_loop fuel from to cidrs d :
  address_ok from → address_ok to → length from = length to →
  addr_value from ≤ addr_value to → (range_measure from to < fuel)%nat →
  spec (range_loop limits fuel from to cidrs) d (λ out bs d', bs = [] ∧
    ∃ blocks, out = cidrs ++ (block_text <$> blocks) ∧
      range_cover (addr_value to) (addr_value from) blocks ∧
      Forall (block_ok (length from)) blocks ∧
      grown (Z.of_nat (length blocks)) (text_bytes (block_text <$> blocks)) d d').
Proof.
  revert from cidrs d. induction fuel as [|fuel IH]; intros from cidrs d Hf Ht Hlen Hle Hfuel; [lia|].
  cbn [range_loop].
  destruct (split_block_spec from to (proj2 Hf) (proj2 Ht) Hlen Hle)
    as (h & e & Hs & He & Hlene & Hve & Htz & Hfit & Hmax).
  rewrite address_less_spec, (proj2 (Z.ltb_ge _ _) Hle) by (done || apply Hf || apply Ht).
  rewrite Hs. apply spec_bind, spec_of_result; [|done]. intros ? [= <-]. cbn [fst snd app].
  eapply spec_seq; [apply spec_account_output; [done|lia]|]. cbv beta. intros _ bs d1 _ [-> Hd1].
  eapply spec_seq; [apply spec_account_output_string_bytes; [done|lia]|]. cbv beta.
  intros _ bs d2 _ [-> Hd2]. cbn [app].
  pose proof (addr_value_range _ (proj2 Ht)) as Hrt.
  assert (block_ok (length from) (from, h)) as Hblock.
  { split; [done|]. split; [done|]. split; [|apply Hfit]. cbn.
    pose proof (trailing_zeros_le from (proj2 Hf)). lia. }
  pose proof (grown_trans _ _ _ _ _ _ _ Hd1 Hd2) as Hd12.
  unfold address_equal. case_bool_decide as Heq.
  - subst e. apply spec_ret. split; [done|]. exists [(from, h)]. split; [done|].
    split; [apply cover_last; [done|done|lia]|]. split; [by apply Forall_singleton|].
    replace (text_bytes _) with (0 + Z.of_nat (String.length (format_cidr from h)))
      by (unfold text_bytes, block_text; cbn; lia). done.
  - assert (addr_value e ≠ addr_value to) as Hne.
    { intros Hv. apply Heq, addr_value_inj; [done|apply Ht|congruence|done]. }
    assert (addr_value e < addr_value to) by (destruct Hfit; lia).
    rewrite <- Hlen, <- Hlene in Hrt.
    destruct (increment_address_spec e He) as (next & Hi & Hn & Hlenn & Hvn); [lia|].
    rewrite Hi. eapply spec_mono; [apply IH|].
    + eapply address_ok_length; [exact Hf|done|congruence].
    + done.
    + congruence.
    + lia.
    + assert (range_measure next to < range_measure from to)%nat; [|lia].
      eapply (range_measure_next from to h); try done; [apply Hf|apply Ht|congruence|lia|lia].
    + cbv beta. intros out bs d3 _ (-> & blocks & -> & Hcov & Hblocks & Hd3).
      split; [done|]. exists ((from, h) :: blocks).
      split; [by rewrite <- app_assoc|]. split; [|split].
      * eapply cover_more; [done|done| |exact Hcov]. lia.
      * constructor; [done|]. by rewrite Hlenn, Hlene in Hblocks.
      * pose proof (grown_trans _ _ _ _ _ _ _ Hd12 Hd3) as Hd.
        replace (Z.of_nat (length ((from, h) :: blocks))) with (1 + 0 + Z.of_nat (length blocks)) by (cbn; lia).
        replace (text_bytes (block_text <$> (from, h) :: blocks))
          with (0 + Z.of_nat (String.length (format_cidr from h)) + text_bytes (block_text <$> blocks))
          by (unfold text_bytes, block_text; cbn; lia).
        done.
Qed.

(** A range of an IP set and the blocks extracted from it. *)
Definition range_ok (r : list Z * list Z) : Prop :=
  address_ok (r.1) ∧ address_ok (r.2) ∧ length (r.1) = length (r.2) ∧
  addr_value (r.1) ≤ addr_value (r.2).

Definition range_blocks (r : list Z * list Z) (blocks : list (list Z * nat)) : Prop :=
  range_cover (addr_value (r.2)) (addr_value (r.1)) blocks ∧
  Forall (block_ok (length (r.1))) blocks.

Lemma spec_read_range extract acc d :
  spec (read_range limits extract acc) d (λ out bs d', ∃ r blocks,
    bs = enc_range r ∧ range_ok r ∧
    out.2 = (acc.2) ++ (block_text <$> blocks) ∧
    (if extract then range_blocks r blocks else blocks = []) ∧
    grown (Z.of_nat (length blocks)) (text_bytes (block_text <$> blocks)) d d').
Proof.
  unfold read_range. eapply spec_seq; [apply spec_read_address|]. cbv beta.
  intros from bs d1 _ (-> & Hf & Hd1). eapply spec_seq; [apply spec_read_address|]. cbv beta.
  intros to bs d2 _ (-> & Ht & Hd2).
  apply spec_bind, spec_fail_if. intros Hlen. apply negb_false_iff, Nat.eqb_eq in Hlen.
  apply spec_bind, spec_fail_if. intros Hle.
  rewrite address_less_spec in Hle by (done || apply Ht || apply Hf). apply Z.ltb_ge in Hle.
  apply spec_bind, spec_fail_if. intros _. cbn [app].
  pose proof (only_reads_calm _ _ (only_reads_trans _ _ _ Hd1 Hd2)) as Hd12.
  destruct extract.
  - eapply spec_seq; [apply spec_range_loop; try done|].
    { pose proof (range_measure_le from to (proj2 Hf) (proj2 Ht) Hlen Hle). unfold range_fuel. lia. }
    cbv beta. intros out bs d3 _ (-> & blocks & -> & Hcov & Hblocks & Hd3). apply spec_ret.
    exists (from, to), blocks. rewrite !app_nil_r. split; [done|]. split; [done|]. split; [done|].
    split; [done|]. by eapply calm_grown.
  - eapply spec_seq; [apply (spec_ret _ _ _ (λ x bs d, x = acc.2 ∧ bs = [] ∧ calm d2 d)); split; [done|split; [done|apply calm_refl]]|].
    cbv beta. intros out bs d3 _ (-> & -> & Hd3). apply spec_ret. exists (from, to), [].
    change (block_text <$> []) with (@nil string).
    rewrite !app_nil_r. split; [done|]. split; [done|]. split; [done|].
    split; [done|]. by eapply calm_trans.
Qed.

(** The cover of a set: one list of blocks per range. *)
Definition set_blocks (rs : list (list Z * list Z)) (blocks : list (list Z * nat)) : Prop :=
  ∃ bss, Forall2 range_blocks rs bss ∧ blocks = concat bss.

Lemma spec_read_ip_set extract d :
  spec (read_ip_set limits extract) d (λ out bs d', ∃ rs blocks,
    bs = enc_ip_set rs ∧ Forall range_ok rs ∧ out = block_text <$> blocks ∧
    (if extract then set_blocks rs blocks else blocks = []) ∧
    grown (Z.of_nat (length blocks)) (text_bytes out) d d').
Proof.
  unfold read_ip_set. eapply spec_seq; [apply spec_read_byte|]. cbv beta.
  intros v bs d1 _ (-> & _ & Hd1). apply spec_bind, spec_fail_if. intros Hv.
  apply negb_false_iff, Z.eqb_eq in Hv as ->.
  eapply spec_seq; [apply spec_read_be_u64|]. cbv beta. intros n bs d2 _ (-> & Hn & Hd2).
  unfold checked_size. destruct (Z.ltb_spec (max_ip_ranges limits) n); [apply spec_invalid|].
  destruct (size_max <? n); [apply spec_invalid|]. apply spec_bind, spec_ret.
  eapply spec_seq; [apply spec_account_values; [done|lia]|]. cbv beta. intros _ bs d3 _ [-> Hd3].
  eapply spec_seq.
  - apply (spec_mfold _ _ _ _ _ (λ rs acc bs d', ∃ blocks,
      bs = concat (enc_range <$> rs) ∧ Forall range_ok rs ∧ acc.2 = block_text <$> blocks ∧
      (if extract then set_blocks rs blocks else blocks = []) ∧
      grown (Z.of_nat (length blocks)) (text_bytes (block_text <$> blocks)) d3 d')).
    + exists []. split; [done|]. split; [constructor|]. split; [done|].
      split; [|apply calm_refl]. destruct extract; [|done]. by exists [].
    + cbv beta. intros rs acc _ bs d' (blocks & -> & Hrs & Hacc & Hb & Hd).
      eapply spec_mono; [apply spec_read_range|]. cbv beta.
      intros out bs' d'' _ (r & new & -> & Hr & Hout & Hnew & Hd'). exists r, (blocks ++ new).
      rewrite !fmap_app, concat_app. cbn [concat fmap list_fmap]. rewrite app_nil_r.
      split; [done|]. split; [apply Forall_app; split; [done|by apply Forall_singleton]|].
      split; [by rewrite Hout, Hacc|]. split.
      * destruct extract; [|by subst]. destruct Hb as (bss & Hbss & ->). exists (bss ++ [new]).
        split; [apply Forall2_app; [done|constructor; [done|constructor]]|].
        rewrite concat_app. cbn. by rewrite app_nil_r.
      * rewrite length_app, Nat2Z.inj_add, text_bytes_app. by eapply grown_trans.
  - cbv beta. intros acc bs d4 _ (rs & Hlen & blocks & -> & Hrs & Hacc & Hb & Hd4).
    rewrite length_seq in Hlen. apply spec_ret. exists rs, blocks.
    split; [unfold enc_ip_set; rewrite Hlen, Z2Nat.id by lia; by rewrite app_nil_r|].
    split; [done|]. split; [done|]. split; [done|]. rewrite Hacc.
    eapply calm_grown; [|done]. eapply calm_trans; [|done].
    apply only_reads_calm. by eapply only_reads_trans.
Qed.
End Fields.
