(* ===== verification/SrsTrie.v ===== *)
(** * Binary rule sets: the succinct trie

    [read_trie] and the walk of lists/srs_decoder.cpp against the meaning of the trie:
    the edge bits list the number of children of every node in unary, the children are
    numbered in that order, and a key is spelled by a path from the root to a leaf bit. *)

From Stdlib Require Import ZArith Lia.
From stdpp Require Import base list.
From S2P Require Import Prelude SrsReader SrsDecoder.
Open Scope Z_scope.

(** * Binary rule sets: keys of the domain trie

    The trie stores the keys backwards, code point by code point. [reverse_utf8_codepoints]
    (lists/srs_decoder.cpp) against the definition of UTF-8: it accepts exactly the
    encodings of sequences of Unicode scalar values and reverses the sequence. *)

Definition scalar (c : Z) : Prop := 0 ≤ c ≤ 0x10FFFF ∧ ¬ (0xD800 ≤ c ≤ 0xDFFF).

Definition utf8_enc (c : Z) : list Z :=
  if c <? 0x80 then [c]
  else if c <? 0x800 then [192 + c / 64; 128 + c mod 64]
  else if c <? 0x10000 then [224 + c / 4096; 128 + c / 64 mod 64; 128 + c mod 64]
  else [240 + c / 262144; 128 + c / 4096 mod 64; 128 + c / 64 mod 64; 128 + c mod 64].

Definition utf8 (cs : list Z) : list Z := concat (utf8_enc <$> cs).

Lemma byte_check (P : Z → bool) :
  forallb P byte_values = true → ∀ b, byte_ok b → P b = true.
Proof. intros Hall b Hb. rewrite forallb_forall in Hall. by apply Hall, elem_of_byte_values. Qed.

(** The bit tests of the code, as arithmetic. *)
Lemma utf8_first_spec b :
  byte_ok b →
  utf8_first b =
  if b <? 128 then Some (1%nat, b)
  else if b <? 194 then None
  else if b <? 224 then Some (2%nat, b - 192)
  else if b <? 240 then Some (3%nat, b - 224)
  else if b <? 245 then Some (4%nat, b - 240)
  else None.
Proof.
  revert b. enough (∀ b, byte_ok b → bool_decide (utf8_first b =
    if b <? 128 then Some (1%nat, b)
    else if b <? 194 then None
    else if b <? 224 then Some (2%nat, b - 192)
    else if b <? 240 then Some (3%nat, b - 224)
    else if b <? 245 then Some (4%nat, b - 240)
    else None) = true) as Hall.
  { intros b Hb. specialize (Hall b Hb). by apply bool_decide_eq_true in Hall. }
  apply byte_check. vm_compute. reflexivity.
Qed.

Lemma continuation_spec b :
  byte_ok b →
  (Z.land b 0xC0 =? 0x80) = (128 <=? b) && (b <? 192) ∧ Z.land b 0x3F = b mod 64.
Proof.
  intros Hb. split; [|apply (Z.land_ones b 6); lia].
  pose proof (byte_check (λ b, Bool.eqb (Z.land b 0xC0 =? 0x80) ((128 <=? b) && (b <? 192)))
    ltac:(vm_compute; reflexivity) b Hb) as Hc. by apply eqb_prop in Hc.
Qed.

Lemma utf8_rest_cons v b l :
  byte_ok b → 0 ≤ v →
  utf8_rest v (b :: l) =
  if (128 <=? b) && (b <? 192) then utf8_rest (v * 64 + (b - 128)) l else Throw SrsInvalid.
Proof.
  intros Hb Hv. cbn [utf8_rest]. destruct (continuation_spec b Hb) as [-> ->].
  destruct ((128 <=? b) && (b <? 192)) eqn:Hc; [|done]. bool_to_prop. cbn [negb].
  pose proof (Z.mod_pos_bound b 64 ltac:(lia)).
  rewrite Z.shiftl_mul_pow2 by lia. rewrite lor_disjoint by lia.
  replace (b mod 64) with (b - 128); [done|]. apply (Z.mod_unique b 64 2); lia.
Qed.

Lemma length_utf8_enc c : (1 ≤ length (utf8_enc c))%nat.
Proof. unfold utf8_enc. repeat case_match; cbn; lia. Qed.

(** One round on the encoding of a scalar value. *)
Lemma utf8_codepoints_enc fuel c rest :
  scalar c →
  utf8_codepoints (S fuel) (utf8_enc c ++ rest) =
  rbind (utf8_codepoints fuel rest) (λ l, Ok (utf8_enc c :: l)).
Proof.
  intros [Hc Hs]. unfold utf8_enc.
  pose proof (Z.mod_pos_bound c 64 ltac:(lia)). pose proof (Z.mod_pos_bound (c / 64) 64 ltac:(lia)).
  pose proof (Z.mod_pos_bound (c / 4096) 64 ltac:(lia)).
  pose proof (Z.div_mod c 64 ltac:(lia)). pose proof (Z.div_mod (c / 64) 64 ltac:(lia)).
  pose proof (Z.div_mod (c / 4096) 64 ltac:(lia)).
  assert (c / 64 / 64 = c / 4096) by (by rewrite Z.div_div by lia).
  assert (c / 4096 / 64 = c / 262144) by (by rewrite Z.div_div by lia).
  destruct (Z.ltb_spec c 0x80); [|destruct (Z.ltb_spec c 0x800); [|destruct (Z.ltb_spec c 0x10000)]].
  - cbn [app utf8_codepoints]. rewrite utf8_first_spec by (unfold byte_ok; lia).
    destruct (Z.ltb_spec c 128); [|lia]. cbn [length Nat.ltb Nat.leb Nat.sub take drop]. rewrite ?take_0, ?drop_0.
    cbn [utf8_rest rbind].
    unfold non_canonical. cbn [Nat.eqb andb orb].
    destruct (Z.leb_spec 0xD800 c), (Z.leb_spec c 0xDFFF), (Z.ltb_spec 0x10FFFF c); try lia; done.
  - assert (2 ≤ c / 64 < 32) by lia.
    cbn [app utf8_codepoints]. rewrite utf8_first_spec by (unfold byte_ok; lia).
    destruct (Z.ltb_spec (192 + c / 64) 128); [lia|]. destruct (Z.ltb_spec (192 + c / 64) 194); [lia|].
    destruct (Z.ltb_spec (192 + c / 64) 224); [|lia].
    cbn [length Nat.ltb Nat.leb Nat.sub take drop]. rewrite ?take_0, ?drop_0. rewrite utf8_rest_cons by (unfold byte_ok; lia).
    destruct (Z.leb_spec 128 (128 + c mod 64)), (Z.ltb_spec (128 + c mod 64) 192); try lia.
    cbn [andb utf8_rest rbind]. replace ((192 + c / 64 - 192) * 64 + (128 + c mod 64 - 128)) with c by lia.
    unfold non_canonical. cbn [Nat.eqb andb orb].
    destruct (Z.leb_spec 0xD800 c), (Z.leb_spec c 0xDFFF), (Z.ltb_spec 0x10FFFF c); try lia; done.
  - assert (c / 4096 < 16) by lia.
    cbn [app utf8_codepoints]. rewrite utf8_first_spec by (unfold byte_ok; lia).
    destruct (Z.ltb_spec (224 + c / 4096) 128); [lia|]. destruct (Z.ltb_spec (224 + c / 4096) 194); [lia|].
    destruct (Z.ltb_spec (224 + c / 4096) 224); [lia|]. destruct (Z.ltb_spec (224 + c / 4096) 240); [|lia].
    cbn [length Nat.ltb Nat.leb Nat.sub take drop]. rewrite ?take_0, ?drop_0. rewrite utf8_rest_cons by (unfold byte_ok; lia).
    destruct (Z.leb_spec 128 (128 + c / 64 mod 64)), (Z.ltb_spec (128 + c / 64 mod 64) 192); try lia.
    cbn [andb]. rewrite utf8_rest_cons by (unfold byte_ok; lia).
    destruct (Z.leb_spec 128 (128 + c mod 64)), (Z.ltb_spec (128 + c mod 64) 192); try lia.
    cbn [andb utf8_rest rbind].
    replace (((224 + c / 4096 - 224) * 64 + (128 + c / 64 mod 64 - 128)) * 64 + (128 + c mod 64 - 128))
      with c by lia.
    unfold non_canonical. cbn [Nat.eqb andb orb].
    destruct (Z.ltb_spec c 0x800), (Z.leb_spec 0xD800 c), (Z.leb_spec c 0xDFFF), (Z.ltb_spec 0x10FFFF c);
      try lia; done.
  - assert (c / 262144 < 5) by lia.
    cbn [app utf8_codepoints]. rewrite utf8_first_spec by (unfold byte_ok; lia).
    destruct (Z.ltb_spec (240 + c / 262144) 128); [lia|]. destruct (Z.ltb_spec (240 + c / 262144) 194); [lia|].
    destruct (Z.ltb_spec (240 + c / 262144) 224); [lia|]. destruct (Z.ltb_spec (240 + c / 262144) 240); [lia|].
    destruct (Z.ltb_spec (240 + c / 262144) 245); [|lia].
    cbn [length Nat.ltb Nat.leb Nat.sub take drop]. rewrite ?take_0, ?drop_0. rewrite utf8_rest_cons by (unfold byte_ok; lia).
    destruct (Z.leb_spec 128 (128 + c / 4096 mod 64)), (Z.ltb_spec (128 + c / 4096 mod 64) 192); try lia.
    cbn [andb]. rewrite utf8_rest_cons by (unfold byte_ok; lia).
    destruct (Z.leb_spec 128 (128 + c / 64 mod 64)), (Z.ltb_spec (128 + c / 64 mod 64) 192); try lia.
    cbn [andb]. rewrite utf8_rest_cons by (unfold byte_ok; lia).
    destruct (Z.leb_spec 128 (128 + c mod 64)), (Z.ltb_spec (128 + c mod 64) 192); try lia.
    cbn [andb utf8_rest rbind].
    replace ((((240 + c / 262144 - 240) * 64 + (128 + c / 4096 mod 64 - 128)) * 64
              + (128 + c / 64 mod 64 - 128)) * 64 + (128 + c mod 64 - 128)) with c by lia.
    unfold non_canonical. cbn [Nat.eqb andb orb].
    destruct (Z.ltb_spec c 0x10000), (Z.leb_spec 0xD800 c), (Z.leb_spec c 0xDFFF), (Z.ltb_spec 0x10FFFF c);
      try lia; done.
Qed.

Lemma utf8_rest_invalid v l e :
  utf8_rest v l = Throw e → e = SrsInvalid.
Proof.
  revert v. induction l as [|b l IH]; intros v; cbn [utf8_rest]; [done|].
  case_match; [by intros [= <-]|]. apply IH.
Qed.

Lemma non_canonical_false n v :
  non_canonical n v = false →
  (n = 3%nat → 0x800 ≤ v) ∧ (n = 4%nat → 0x10000 ≤ v) ∧ ¬ (0xD800 ≤ v ≤ 0xDFFF) ∧ v ≤ 0x10FFFF.
Proof.
  unfold non_canonical. intros Hc. bool_to_prop.
  repeat match goal with H : andb _ _ = false |- _ => apply andb_false_iff in H end.
  repeat match goal with H : _ ∨ _ |- _ => destruct H end; bool_to_prop;
    repeat match goal with H : (_ =? _)%nat = false |- _ => apply Nat.eqb_neq in H end; lia.
Qed.

(** What a successful round has read. *)
Lemma utf8_round_inv b rest n v0 v :
  Forall byte_ok (b :: rest) → utf8_first b = Some (n, v0) → (n ≤ length (b :: rest))%nat →
  utf8_rest v0 (take (n - 1) rest) = Ok v → non_canonical n v = false →
  scalar v ∧ take n (b :: rest) = utf8_enc v.
Proof.
  intros [Hb Hrest]%Forall_cons Hf Hn Hr (H3 & H4 & Hsur & Hmax)%non_canonical_false.
  rewrite utf8_first_spec in Hf by done. unfold byte_ok in Hb.
  destruct (Z.ltb_spec b 128); [|destruct (Z.ltb_spec b 194); [done|];
    destruct (Z.ltb_spec b 224); [|destruct (Z.ltb_spec b 240); [|destruct (Z.ltb_spec b 245); [|done]]]];
    injection Hf as <- <-; cbn [length Nat.sub] in *; unfold scalar, utf8_enc.
  - rewrite take_0 in Hr. injection Hr as <-. split; [lia|].
    by destruct (Z.ltb_spec b 128); [cbn; rewrite take_0|lia].
  - destruct rest as [|c1 rest]; [cbn in Hn; lia|]. apply Forall_cons in Hrest as [Hc1 _].
    cbn [take] in *. rewrite take_0 in *. rewrite utf8_rest_cons in Hr by (done || lia).
    destruct ((128 <=? c1) && (c1 <? 192)) eqn:E1; [|done]. bool_to_prop. injection Hr as <-.
    set (v := (b - 192) * 64 + (c1 - 128)) in *. split; [lia|].
    destruct (Z.ltb_spec v 128); [lia|]. destruct (Z.ltb_spec v 2048); [|lia].
    replace (v / 64) with (b - 192) by (apply (Z.div_unique _ _ _ (c1 - 128)); lia).
    replace (v mod 64) with (c1 - 128) by (apply (Z.mod_unique _ _ (b - 192)); lia).
    repeat f_equal; lia.
  - destruct rest as [|c1 [|c2 rest]]; [cbn in Hn; lia..|].
    apply Forall_cons in Hrest as [Hc1 [Hc2 _]%Forall_cons].
    cbn [take] in *. rewrite take_0 in *. rewrite utf8_rest_cons in Hr by (done || lia).
    destruct ((128 <=? c1) && (c1 <? 192)) eqn:E1; [|done]. bool_to_prop.
    rewrite utf8_rest_cons in Hr by (done || lia).
    destruct ((128 <=? c2) && (c2 <? 192)) eqn:E2; [|done]. bool_to_prop. injection Hr as <-.
    set (v := ((b - 224) * 64 + (c1 - 128)) * 64 + (c2 - 128)) in *. specialize (H3 eq_refl).
    split; [lia|]. destruct (Z.ltb_spec v 128); [lia|]. destruct (Z.ltb_spec v 2048); [lia|].
    destruct (Z.ltb_spec v 65536); [|lia].
    assert (v / 64 = (b - 224) * 64 + (c1 - 128)) as Hd by (symmetry; apply (Z.div_unique _ _ _ (c2 - 128)); lia).
    replace (v / 4096) with (b - 224) by (apply (Z.div_unique _ _ _ ((c1 - 128) * 64 + (c2 - 128))); lia).
    rewrite Hd. replace (((b - 224) * 64 + (c1 - 128)) mod 64) with (c1 - 128)
      by (apply (Z.mod_unique _ _ (b - 224)); lia).
    replace (v mod 64) with (c2 - 128) by (apply (Z.mod_unique _ _ ((b - 224) * 64 + (c1 - 128))); lia).
    repeat f_equal; lia.
  - destruct rest as [|c1 [|c2 [|c3 rest]]]; [cbn in Hn; lia..|].
    apply Forall_cons in Hrest as [Hc1 [Hc2 [Hc3 _]%Forall_cons]%Forall_cons].
    cbn [take] in *. rewrite take_0 in *. rewrite utf8_rest_cons in Hr by (done || lia).
    destruct ((128 <=? c1) && (c1 <? 192)) eqn:E1; [|done]. bool_to_prop.
    rewrite utf8_rest_cons in Hr by (done || lia).
    destruct ((128 <=? c2) && (c2 <? 192)) eqn:E2; [|done]. bool_to_prop.
    rewrite utf8_rest_cons in Hr by (done || lia).
    destruct ((128 <=? c3) && (c3 <? 192)) eqn:E3; [|done]. bool_to_prop. injection Hr as <-.
    set (x := (b - 240) * 64 + (c1 - 128)) in *. set (y := x * 64 + (c2 - 128)) in *.
    set (v := y * 64 + (c3 - 128)) in *. specialize (H4 eq_refl).
    split; [lia|]. destruct (Z.ltb_spec v 128); [lia|]. destruct (Z.ltb_spec v 2048); [lia|].
    destruct (Z.ltb_spec v 65536); [lia|].
    assert (v / 64 = y) as -> by (symmetry; apply (Z.div_unique _ _ _ (c3 - 128)); lia).
    assert (v / 4096 = x) as ->
      by (symmetry; apply (Z.div_unique _ _ _ ((c2 - 128) * 64 + (c3 - 128))); lia).
    replace (v / 262144) with (b - 240)
      by (apply (Z.div_unique _ _ _ ((c1 - 128) * 4096 + (c2 - 128) * 64 + (c3 - 128))); lia).
    replace (x mod 64) with (c1 - 128) by (apply (Z.mod_unique _ _ (b - 240)); lia).
    replace (y mod 64) with (c2 - 128) by (apply (Z.mod_unique _ _ x); lia).
    replace (v mod 64) with (c3 - 128) by (apply (Z.mod_unique _ _ y); lia).
    repeat f_equal; lia.
Qed.

Lemma utf8_codepoints_inv fuel input l :
  Forall byte_ok input → utf8_codepoints fuel input = Ok l →
  ∃ cs, Forall scalar cs ∧ input = utf8 cs ∧ l = utf8_enc <$> cs.
Proof.
  revert input l. induction fuel as [|fuel IH]; intros [|b rest] l Hby; cbn [utf8_codepoints];
    try done; [by intros [= <-]; exists []|by intros [= <-]; exists []|].
  destruct (utf8_first b) as [[n v0]|] eqn:Hf; [|done].
  destruct (Nat.ltb_spec (length (b :: rest)) n) as [|Hn]; [done|].
  intros (v & Hv & Hl)%rbind_ok. destruct (non_canonical n v) eqn:Hc; [done|].
  apply rbind_ok in Hl as (l' & Hl' & [= <-]).
  destruct (utf8_round_inv b rest n v0 v Hby Hf Hn Hv Hc) as [Hs Ht].
  destruct (IH _ _ (Forall_drop _ n _ Hby) Hl') as (cs & Hcs & Hin & ->).
  exists (v :: cs). split; [by constructor|]. split; [|by rewrite Ht].
  rewrite <- (take_drop n (b :: rest)), Ht, Hin. done.
Qed.

Lemma utf8_codepoints_throw fuel input e :
  (length input ≤ fuel)%nat → utf8_codepoints fuel input = Throw e → e = SrsInvalid.
Proof.
  revert input. induction fuel as [|fuel IH]; intros [|b rest] Hf; cbn [utf8_codepoints];
    try done; [cbn in Hf; lia|].
  destruct (utf8_first b) as [[n v0]|] eqn:Hfirst; [|by intros [= <-]].
  destruct (length (b :: rest) <? n)%nat; [by intros [= <-]|].
  destruct (utf8_rest _ _) as [v|e'] eqn:Hr; cbn [rbind];
    [|intros [= ->]; by eapply utf8_rest_invalid].
  destruct (non_canonical n v); [by intros [= <-]|].
  destruct (utf8_codepoints fuel (drop n (b :: rest))) as [l|e'] eqn:Hl; cbn [rbind]; [done|].
  intros [= ->]. eapply IH; [|exact Hl]. rewrite length_drop. cbn [length] in *.
  assert (1 ≤ n)%nat; [|lia]. unfold utf8_first in Hfirst.
  repeat match type of Hfirst with (if ?c then _ else _) = _ => destruct c end;
    congruence || (injection Hfirst as <- _; lia).
Qed.

Lemma utf8_codepoints_ok fuel cs :
  Forall scalar cs → (length (utf8 cs) ≤ fuel)%nat →
  utf8_codepoints fuel (utf8 cs) = Ok (utf8_enc <$> cs).
Proof.
  intros Hcs. revert fuel. induction Hcs as [|c cs Hc Hcs IH]; intros fuel Hf; [by destruct fuel|].
  change (utf8 (c :: cs)) with (utf8_enc c ++ utf8 cs) in *. rewrite length_app in Hf.
  pose proof (length_utf8_enc c). destruct fuel as [|fuel]; [lia|].
  rewrite utf8_codepoints_enc, IH by (done || lia). done.
Qed.

(** A word and a key that are the same text, written backwards. *)
Definition reversed_text (word key : list Z) : Prop :=
  ∃ cs, Forall scalar cs ∧ word = utf8 cs ∧ key = utf8 (rev cs).

Lemma concat_rev_utf8 cs : concat (rev (utf8_enc <$> cs)) = utf8 (rev cs).
Proof.
  unfold utf8. f_equal. rewrite !rev_alt. symmetry. apply (fmap_reverse utf8_enc).
Qed.

Lemma reverse_utf8_spec word key :
  Forall byte_ok word → reverse_utf8_codepoints word = Ok key ↔ reversed_text word key.
Proof.
  intros Hby. unfold reverse_utf8_codepoints. split.
  - intros (l & Hl & [= <-])%rbind_ok.
    destruct (utf8_codepoints_inv _ _ _ Hby Hl) as (cs & Hcs & -> & ->).
    exists cs. by rewrite concat_rev_utf8.
  - intros (cs & Hcs & -> & ->). rewrite utf8_codepoints_ok by done. cbn [rbind].
    by rewrite concat_rev_utf8.
Qed.

Lemma reverse_utf8_throw word e : reverse_utf8_codepoints word = Throw e → e = SrsInvalid.
Proof.
  unfold reverse_utf8_codepoints. destruct (utf8_codepoints _ word) as [l|e'] eqn:Hl; cbn; [done|].
  intros [= ->]. by eapply utf8_codepoints_throw.
Qed.

Lemma reversed_text_nonempty word key : reversed_text word key → word ≠ [] → key ≠ [].
Proof.
  intros (cs & _ & -> & ->) Hw Hk. apply Hw. destruct cs as [|c cs]; [done|exfalso].
  cbn [rev] in Hk. unfold utf8 in Hk. rewrite fmap_app, concat_app in Hk.
  apply app_eq_nil in Hk as [_ Hk]. pose proof (length_utf8_enc c) as Hl.
  cbn in Hk. rewrite app_nil_r in Hk. rewrite Hk in Hl. cbn in Hl. lia.
Qed.

(** ** Bits *)

(** Bit [i] of a vector of 64-bit words; zero outside. *)
Definition tbit (words : list Z) (i : nat) : bool :=
  match words !! (i / 64)%nat with
  | Some w => Z.testbit w (Z.of_nat (i mod 64))
  | None => false
  end.

Lemma land_pow2 w n : 0 ≤ n → Z.land w (Z.shiftl 1 n) = if Z.testbit w n then 2 ^ n else 0.
Proof.
  intros Hn. rewrite Z.shiftl_1_l. apply Z.bits_inj'. intros m Hm.
  rewrite Z.land_spec, Z.pow2_bits_eqb by lia.
  destruct (Z.eqb_spec n m) as [<-|Hne].
  - destruct (Z.testbit w n); cbn; [by rewrite Z.pow2_bits_true|by rewrite Z.bits_0].
  - rewrite andb_false_r. destruct (Z.testbit w n); [|by rewrite Z.bits_0].
    by rewrite Z.pow2_bits_false.
Qed.

Lemma bit_is_set_spec words i :
  (i < length words * 64)%nat → bit_is_set words i = Some (tbit words i).
Proof.
  intros Hi. unfold bit_is_set, tbit.
  destruct (lookup_lt_is_Some_2 words (i / 64)) as [w Hw]; [apply Nat.Div0.div_lt_upper_bound; lia|].
  rewrite Hw. cbn. f_equal. rewrite land_pow2 by lia.
  destruct (Z.testbit w _); [|done]. apply negb_true_iff, Z.eqb_neq. apply Z.pow_nonzero; lia.
Qed.

Lemma tbit_outside words i : (length words * 64 ≤ i)%nat → tbit words i = false.
Proof.
  intros Hi. unfold tbit. rewrite lookup_ge_None_2; [done|].
  apply Nat.div_le_lower_bound; lia.
Qed.

Lemma any_bits_spec words start i :
  any_bits_set_from words start = false → (start ≤ i)%nat → tbit words i = false.
Proof.
  unfold any_bits_set_from. intros Hany Hi.
  destruct (Nat.leb_spec (length words * 64) start); [apply tbit_outside; lia|].
  apply orb_false_iff in Hany as [Hw Hrest]. apply negb_false_iff, Z.eqb_eq in Hw.
  pose proof (Nat.div_mod_eq i 64). pose proof (Nat.div_mod_eq start 64).
  pose proof (Nat.mod_upper_bound i 64 ltac:(lia)). pose proof (Nat.mod_upper_bound start 64 ltac:(lia)).
  unfold tbit. destruct (words !! (i / 64)%nat) as [w|] eqn:Hl; [|done].
  destruct (decide (i / 64 = start / 64)%nat) as [He|Hne].
  - rewrite He in Hl. rewrite (nth_lookup_Some _ _ 0 w Hl) in Hw.
    apply (f_equal (λ z, Z.testbit z (Z.of_nat (i mod 64)))) in Hw.
    rewrite Z.land_spec, Z.bits_0 in Hw. unfold u64, wrap in Hw.
    rewrite Z.mod_pow2_bits_low, Z.shiftl_spec in Hw by lia.
    change u64_max with (Z.ones 64) in Hw. rewrite Z.ones_spec_low, andb_true_r in Hw by lia. done.
  - assert (start / 64 ≤ i / 64)%nat by (apply Nat.Div0.div_le_mono; lia).
    assert (drop (start / 64 + 1) words !! (i / 64 - (start / 64 + 1))%nat = Some w) as Hd.
    { rewrite lookup_drop. by replace (start / 64 + 1 + (i / 64 - (start / 64 + 1)))%nat with (i / 64)%nat by lia. }
    apply list_elem_of_lookup_2, list_elem_of_In in Hd.
    destruct (Z.eqb_spec w 0) as [->|Hw0]; [apply Z.bits_0|].
    assert (existsb (λ v, negb (v =? 0)) (drop (start / 64 + 1) words) = true) as Ht; [|congruence].
    apply existsb_exists. exists w. split; [done|]. by apply negb_true_iff, Z.eqb_neq.
Qed.

(** ** The shape of a trie *)

(** The edge bits: for each node as many zeros as it has children and a one. *)
Definition unary (counts : list nat) : list bool :=
  concat ((λ c, replicate c false ++ [true]) <$> counts).

(** The number of the first child of a node. *)
Definition first_of (counts : list nat) (node : nat) : nat := S (sum_list (take node counts)).

(** [counts] is the shape of the trie with these leaf bits, edge bits and labels: it has a
    node for the root and for each label, the bits beyond are zero. *)
Definition trie_shape (leaves_ bitmap_ labels_ : list Z) (counts : list nat) : Prop :=
  length counts = S (length labels_) ∧
  sum_list counts = length labels_ ∧
  (∀ i, tbit bitmap_ i = default false (unary counts !! i)) ∧
  (length (unary counts) ≤ length bitmap_ * 64)%nat ∧
  (S (length labels_) ≤ length leaves_ * 64)%nat ∧
  (∀ i, (S (length labels_) ≤ i)%nat → tbit leaves_ i = false).

Lemma unary_snoc counts c : unary (counts ++ [c]) = unary counts ++ replicate c false ++ [true].
Proof. unfold unary. rewrite fmap_app, concat_app. cbn. by rewrite app_nil_r. Qed.

Lemma unary_cons c counts : unary (c :: counts) = replicate c false ++ true :: unary counts.
Proof. unfold unary. cbn [fmap list_fmap concat]. by rewrite <- app_assoc. Qed.

(** The bits determine the shape. *)
Lemma unary_inj counts counts' :
  length counts = length counts' →
  (∀ i, default false (unary counts !! i) = default false (unary counts' !! i)) →
  counts = counts'.
Proof.
  revert counts'. induction counts as [|c counts IH]; intros [|c' counts'] Hlen Hbits; try done.
  rewrite !unary_cons in Hbits.
  assert (∀ c l i, (i < c)%nat → default false ((replicate c false ++ true :: l) !! i) = false) as Hlow.
  { intros a l i Hi. rewrite lookup_app_l by (by rewrite length_replicate).
    by rewrite lookup_replicate_2. }
  assert (∀ c l i, (replicate c false ++ true :: l) !! (c + i)%nat = (true :: l) !! i) as Hhigh.
  { intros a l i. rewrite lookup_app_r, length_replicate by (rewrite length_replicate; lia). f_equal. lia. }
  assert (c = c') as <-.
  { destruct (Nat.lt_trichotomy c c') as [Hlt|[?|Hlt]]; [|done|].
    - pose proof (Hbits (c + 0)%nat) as Hb. rewrite Hhigh, Hlow in Hb by lia. done.
    - pose proof (Hbits (c' + 0)%nat) as Hb. rewrite Hhigh, Hlow in Hb by lia. done. }
  f_equal. apply IH; [by injection Hlen|]. intros i. specialize (Hbits (c + S i)%nat).
  by rewrite !Hhigh in Hbits.
Qed.

Lemma sum_list_snoc (l : list nat) c : sum_list (l ++ [c]) = (sum_list l + c)%nat.
Proof. rewrite sum_list_with_app. cbn. lia. Qed.

Lemma trie_shape_unique l b ls counts counts' :
  trie_shape l b ls counts → trie_shape l b ls counts' → counts = counts'.
Proof.
  intros (Hl & _ & Hb & _) (Hl' & _ & Hb' & _). apply unary_inj; [congruence|].
  intros i. by rewrite <- Hb, <- Hb'.
Qed.

Lemma scan_node_spec fuel words label_count node_count bit label next_child children :
  (bit ≤ length words * 64 < fuel + bit)%nat →
  match scan_node fuel words label_count node_count bit label next_child children with
  | Ok (bit', label', next', children') =>
      ∃ c, bit' = (bit + c + 1)%nat ∧ label' = (label + c)%nat ∧ next' = (next_child + c)%nat ∧
           children' = (children + c)%nat ∧
           (∀ i, (i < c)%nat → tbit words (bit + i) = false) ∧ tbit words (bit + c) = true ∧
           (bit' ≤ length words * 64)%nat ∧
           (c = 0%nat ∨ (label' ≤ label_count)%nat ∧ (next' ≤ node_count)%nat)
  | Throw e => e = SrsInvalid
  end.
Proof.
  revert bit label next_child children.
  induction fuel as [|fuel IH]; intros bit label next_child children Hf; cbn [scan_node].
  { lia. }
  destruct (Nat.leb_spec (length words * 64) bit) as [|Hb]; [done|].
  rewrite bit_is_set_spec by done. destruct (tbit words bit) eqn:Ht.
  { exists 0%nat. rewrite !Nat.add_0_r. repeat split; first [lia|done|by left]. }
  destruct (Nat.leb_spec label_count label) as [|Hl]; [done|].
  destruct (Nat.leb_spec node_count next_child) as [|Hn]; [done|]. cbn [orb].
  specialize (IH (S bit) (S label) (S next_child) (S children) ltac:(lia)).
  destruct (scan_node _ _ _ _ _ _ _ _) as [[[[bit' label'] next'] children']|e]; [|done].
  destruct IH as (c & -> & -> & -> & -> & Hz & Hone & Hle & Hc). exists (S c).
  split; [lia|]. split; [lia|]. split; [lia|]. split; [lia|]. split; [|split; [|split; [done|right; lia]]].
  - intros [|i] Hi; [by rewrite Nat.add_0_r|]. specialize (Hz i ltac:(lia)).
    by replace (bit + S i)%nat with (S bit + i)%nat by lia.
  - by replace (bit + S c)%nat with (S bit + c)%nat by lia.
Qed.

Lemma u32_index_small n : Z.of_nat n ≤ u32_max → u32_index n = n.
Proof.
  unfold u32_max. intros Hn. unfold u32_index, u32, wrap. rewrite Z.mod_small by lia. lia.
Qed.

(** The scan after some nodes, whose child counts are [counts]. *)
Definition scanned (words : list Z) (label_count : nat) (counts : list nat) (s : EdgeScan) : Prop :=
  sc_bit s = length (unary counts) ∧ sc_label s = sum_list counts ∧
  sc_next_child s = S (sum_list counts) ∧
  sc_first_child s = first_of counts <$> seq 0 (length counts) ∧ sc_child_count s = counts ∧
  (∀ i, (i < length (unary counts))%nat → unary counts !! i = Some (tbit words i)) ∧
  (length (unary counts) ≤ length words * 64)%nat ∧ (sum_list counts ≤ label_count)%nat.

Lemma first_of_snoc counts c i : (i ≤ length counts)%nat → first_of (counts ++ [c]) i = first_of counts i.
Proof. intros Hi. unfold first_of. by rewrite take_app_le. Qed.

Lemma scan_step_spec words label_count node_count counts s node :
  Z.of_nat label_count < u32_max →
  scanned words label_count counts s →
  match scan_step words label_count node_count s node with
  | Ok s' => ∃ c, scanned words label_count (counts ++ [c]) s'
  | Throw e => e = SrsInvalid
  end.
Proof.
  intros Hsmall (Hb & Hl & Hn & Hfc & Hcc & Hbits & Hle & Hsum). unfold scan_step.
  pose proof (scan_node_spec (S (length words * 64)) words label_count node_count
    (sc_bit s) (sc_label s) (sc_next_child s) 0 ltac:(lia)) as Hs.
  destruct (scan_node _ _ _ _ _ _ _ _) as [[[[bit label] next] children]|e]; cbn [rbind]; [|done].
  destruct Hs as (c & Hbit & -> & -> & -> & Hz & Hone & Hle' & Hc). exists c.
  assert (length (unary (counts ++ [c])) = (length (unary counts) + c + 1)%nat) as Hu.
  { rewrite unary_snoc, !length_app, length_replicate. cbn. lia. }
  assert (sum_list counts + c ≤ label_count)%nat as Hsum' by (destruct Hc; lia).
  unfold scanned. rewrite Hu, sum_list_snoc. cbn. rewrite Hfc, Hcc, Hn, !u32_index_small by lia.
  split; [lia|]. split; [lia|]. split; [lia|]. split.
  { rewrite length_app, Nat.add_1_r, seq_S, fmap_app. f_equal.
    - apply list_fmap_ext. intros i x Hi%lookup_seq. rewrite first_of_snoc; [done|lia].
    - cbn. rewrite first_of_snoc by lia. unfold first_of. by rewrite firstn_all. }
  split; [done|]. split; [|lia].
  intros i Hi. rewrite unary_snoc.
  destruct (decide (i < length (unary counts))%nat) as [Hlt|Hge].
  { rewrite lookup_app_l by done. by apply Hbits. }
  rewrite lookup_app_r by lia. rewrite Hb in *.
  destruct (decide (i - length (unary counts) < c)%nat) as [Hlt'|Hge'].
  - rewrite lookup_app_l by (by rewrite length_replicate). rewrite lookup_replicate_2 by done.
    specialize (Hz _ Hlt').
    replace (length (unary counts) + (i - length (unary counts)))%nat with i in Hz by lia. by rewrite Hz.
  - assert (i = length (unary counts) + c)%nat as -> by lia.
    rewrite lookup_app_r, length_replicate by (rewrite length_replicate; lia).
    replace (length (unary counts) + c - length (unary counts) - c)%nat with 0%nat by lia. by rewrite Hone.
Qed.

Lemma scan_loop_spec words label_count node_count n start s counts :
  Z.of_nat label_count < u32_max →
  scanned words label_count counts s →
  match rfold (scan_step words label_count node_count) s (seq start n) with
  | Ok s' => ∃ more, length more = n ∧ scanned words label_count (counts ++ more) s'
  | Throw e => e = SrsInvalid
  end.
Proof.
  intros Hsmall. revert start s counts. induction n as [|n IH]; intros start s counts Hs; cbn [seq rfold].
  { exists []. by rewrite app_nil_r. }
  pose proof (scan_step_spec words label_count node_count counts s start Hsmall Hs) as Hstep.
  destruct (scan_step _ _ _ s start) as [s'|e]; cbn [rbind]; [|done]. destruct Hstep as [c Hs'].
  specialize (IH (S start) s' _ Hs').
  destruct (rfold _ s' _) as [s''|e]; [|done]. destruct IH as (more & Hlen & Hs'').
  exists (c :: more). rewrite <- app_assoc in Hs''. split; [by rewrite <- Hlen|done].
Qed.

Section Build.
Context `{SizeT} (limits : SrsDecodeLimits).
Hypothesis Hnodes : max_trie_nodes limits ≤ u32_max.

(** A trie that is accepted has a shape, and its index vectors describe it. *)
Definition trie_wf (t : Trie) (counts : list nat) : Prop :=
  trie_shape (leaves t) (bitmap t) (labels t) counts ∧
  first_child t = first_of counts <$> seq 0 (length counts) ∧ child_count t = counts ∧
  Z.of_nat (length (labels t)) < u32_max.

Lemma build_trie_spec l b ls :
  match build_trie limits l b ls with
  | Ok t => leaves t = l ∧ bitmap t = b ∧ labels t = ls ∧ ∃ counts, trie_wf t counts
  | Throw e => e = SrsInvalid
  end.
Proof.
  unfold build_trie. destruct (Z.leb_spec (max_trie_nodes limits) (Z.of_nat (length ls))) as [|Hn]; [done|].
  destruct (_ || _); [done|].
  destruct (Z.ltb_spec (Z.of_nat (length l) * 64) (Z.of_nat (length ls + 1))) as [|Hl]; [done|].
  destruct (_ <? _); [done|].
  set (start := {| sc_bit := 0 |}).
  pose proof (scan_loop_spec b (length ls) (length ls + 1) (length ls + 1) 0 start [] ltac:(lia)) as Hs.
  destruct (rfold _ start _) as [s|e]; cbn [rbind]; [|by apply Hs; repeat split; cbn; lia || done].
  destruct Hs as (counts & Hlen & Hsc). { repeat split; cbn; try lia; done. }
  cbn [app] in Hsc. destruct Hsc as (Hb & Hlab & Hnx & Hfc & Hcc & Hbits & Hle & Hsum).
  destruct (Nat.eqb_spec (sc_label s) (length ls)) as [El|]; [|done].
  destruct (Nat.eqb_spec (sc_next_child s) (length ls + 1)) as [En|]; [|done]. cbn [negb orb].
  destruct (any_bits_set_from b (sc_bit s)) eqn:Hpb; [done|].
  destruct (any_bits_set_from l (length ls + 1)) eqn:Hpl; [done|].
  split; [done|]. split; [done|]. split; [done|]. exists counts. split; [|split; [done|split; [done|cbn; lia]]].
  split; [cbn; lia|]. split; [cbn; congruence|]. split; [|split; [done|split; [cbn; lia|]]].
  - intros i. cbn. destruct (decide (i < length (unary counts))%nat) as [Hi|Hi].
    + by rewrite Hbits.
    + rewrite lookup_ge_None_2 by lia. cbn. eapply any_bits_spec; [exact Hpb|lia].
  - intros i Hi. cbn in Hi |- *. eapply any_bits_spec; [exact Hpl|lia].
Qed.
End Build.

(** ** Paths and keys *)

Definition child_of (counts : list nat) (n m : nat) : Prop :=
  ∃ k j, counts !! n = Some k ∧ (j < k)%nat ∧ m = (first_of counts n + j)%nat.

(** The words on the paths from the root. *)
Inductive spelled (counts : list nat) (labels_ : list Z) : nat → list Z → Prop :=
| spelled_root : spelled counts labels_ 0 []
| spelled_child n m w c :
    spelled counts labels_ n w → child_of counts n m → labels_ !! (m - 1)%nat = Some c →
    spelled counts labels_ m (w ++ [c]).

(** The keys of a trie: the texts that end at leaf bits, read backwards. *)
Definition trie_key (leaves_ labels_ : list Z) (counts : list nat) (key : list Z) : Prop :=
  ∃ n w, spelled counts labels_ n w ∧ tbit leaves_ n = true ∧ reversed_text w key.

Lemma first_of_succ counts n k :
  counts !! n = Some k → first_of counts (S n) = (first_of counts n + k)%nat.
Proof. intros Hn. unfold first_of. rewrite (take_S_r _ _ _ Hn), sum_list_snoc. lia. Qed.

Lemma first_of_mono counts n m : (n ≤ m)%nat → (first_of counts n ≤ first_of counts m)%nat.
Proof.
  intros Hle. unfold first_of. rewrite <- (take_drop n (take m counts)), take_take.
  rewrite Nat.min_l by lia. rewrite sum_list_with_app. lia.
Qed.

Lemma first_of_total counts n : (first_of counts n ≤ S (sum_list counts))%nat.
Proof.
  unfold first_of. rewrite <- (take_drop n counts) at 2. rewrite sum_list_with_app. lia.
Qed.

Lemma child_of_unique counts n n' m : child_of counts n m → child_of counts n' m → n = n'.
Proof.
  intros (k & j & Hk & Hj & ->) (k' & j' & Hk' & Hj' & He).
  destruct (Nat.lt_trichotomy n n') as [Hlt|[->|Hlt]]; [|done|].
  - pose proof (first_of_mono counts (S n) n' ltac:(lia)). rewrite (first_of_succ _ _ _ Hk) in *. lia.
  - pose proof (first_of_mono counts (S n') n ltac:(lia)). rewrite (first_of_succ _ _ _ Hk') in *. lia.
Qed.

Lemma child_of_range counts n m :
  child_of counts n m → (0 < m ≤ sum_list counts)%nat ∧ (n < length counts)%nat.
Proof.
  intros (k & j & Hk & Hj & ->). pose proof (first_of_total counts (S n)) as Ht.
  rewrite (first_of_succ _ _ _ Hk) in Ht. unfold first_of in *. split; [lia|]. by eapply lookup_lt_Some.
Qed.

Lemma spelled_unique counts labels_ n w w' :
  spelled counts labels_ n w → spelled counts labels_ n w' → w = w'.
Proof.
  intros Hw. revert w'. induction Hw as [|n m w c Hw IH Hc Hl]; intros w' Hw'.
  - inversion Hw' as [|n' m' w1 c' ? Hc' ? E]; [done|]. subst. apply child_of_range in Hc'. lia.
  - destruct Hw' as [|n' m w1 c' Hw' Hc' Hl']; [apply child_of_range in Hc; lia|].
    rewrite (child_of_unique _ _ _ _ Hc' Hc) in Hw'. rewrite (IH _ Hw'). congruence.
Qed.

(** ** The walk *)

Section Walk.
Context (counts : list nat) (leaves_ labels_ : list Z).

(** The stack is a path, and the key is the word along it. *)
Inductive stack_path : list Frame → list Z → Prop :=
| path_root f : fr_node f = 0%nat → stack_path [f] []
| path_child f g below key c :
    stack_path (g :: below) key → child_of counts (fr_node g) (fr_node f) →
    labels_ !! (fr_node f - 1)%nat = Some c →
    stack_path (f :: g :: below) (key ++ [c]).

Lemma stack_path_spelled f below key :
  stack_path (f :: below) key → spelled counts labels_ (fr_node f) key.
Proof.
  remember (f :: below) as stack eqn:Hs. intros Hp. revert f below Hs.
  induction Hp as [f Hf|f g below key c Hp IH Hc Hl]; intros f' below' [= <- <-].
  - rewrite Hf. constructor.
  - econstructor; [by eapply IH|done|done].
Qed.

Lemma stack_path_replace f f' below key :
  fr_node f' = fr_node f → stack_path (f :: below) key → stack_path (f' :: below) key.
Proof.
  intros Hn Hp. inversion Hp; subst; [by apply path_root; rewrite Hn|].
  apply path_child; by rewrite ?Hn.
Qed.

Lemma stack_path_pop f g below key :
  stack_path (f :: g :: below) key → stack_path (g :: below) (removelast key).
Proof. intros Hp. inversion Hp; subst. by rewrite removelast_last. Qed.

(** [V]: the nodes entered so far; [K]: the keys found so far. *)
Record walk_inv (stack : list Frame) (V : list nat) (K : list (list Z)) : Prop := {
  wi_root : 0%nat ∈ V;
  wi_nodup : NoDup V;
  wi_range : ∀ n, n ∈ V → (n < length counts)%nat;
  wi_stack : NoDup (fr_node <$> stack);
  wi_stack_in : ∀ f, f ∈ stack → fr_node f ∈ V;
  wi_below : ∀ f, f ∈ tail stack → fr_visited f = true;
  wi_parent : ∀ n m, child_of counts n m → m ∈ V → n ∈ V;
  wi_done : ∀ n m, n ∈ V → (∀ f, f ∈ stack → fr_node f ≠ n) → child_of counts n m → m ∈ V;
  wi_frame : ∀ f k j, f ∈ stack → counts !! fr_node f = Some k → (j < k)%nat →
    (j < fr_next f)%nat ↔ (first_of counts (fr_node f) + j)%nat ∈ V;
  wi_sound : ∀ key, key ∈ K → trie_key leaves_ labels_ counts key;
  wi_found : ∀ n w key, n ∈ V → (∀ f, f ∈ stack → fr_node f = n → fr_visited f = true) →
    spelled counts labels_ n w → tbit leaves_ n = true → reversed_text w key → key ∈ K
}.

(** After the visit of the top of the stack. *)
Lemma walk_inv_visit f below V K K' :
  walk_inv (f :: below) V K →
  (∀ key, key ∈ K → key ∈ K') →
  (∀ key, key ∈ K' → trie_key leaves_ labels_ counts key) →
  (∀ w key, spelled counts labels_ (fr_node f) w → tbit leaves_ (fr_node f) = true →
     reversed_text w key → key ∈ K') →
  walk_inv ({| fr_node := fr_node f; fr_next := fr_next f; fr_visited := true |} :: below) V K'.
Proof.
  intros [] Hsub Hsound Hfound. constructor; try done.
  - intros g [->|Hg]%elem_of_cons; [by apply (wi_stack_in0 f); left|]. apply wi_stack_in0. by right.
  - intros n m Hn Hns. apply wi_done0; [done|].
    intros g [->|Hg]%elem_of_cons; [apply (Hns (Build_Frame (fr_node f) (fr_next f) true)); by left|apply Hns; by right].
  - intros g k j [->|Hg]%elem_of_cons; [apply (wi_frame0 f); by left|apply wi_frame0; by right].
  - intros n w key Hn Hns Hw Hl Hr. destruct (decide (n = fr_node f)) as [->|Hne]; [by eapply Hfound|].
    apply Hsub. apply (wi_found0 n w); [done| |done..].
    intros g [->|Hg]%elem_of_cons Hgn; [done|]. apply Hns; [by right|done].
Qed.

(** When the top of the stack has no further children. *)
Lemma walk_inv_pop f below V K k :
  walk_inv (f :: below) V K → counts !! fr_node f = Some k → (k ≤ fr_next f)%nat →
  fr_visited f = true → walk_inv below V K.
Proof.
  intros [] Hk Hnext Hvis. constructor; try done.
  - by apply NoDup_cons in wi_stack0 as [_ ?].
  - intros g Hg. apply wi_stack_in0. by right.
  - intros g Hg. apply wi_below0. destruct below; [by apply elem_of_nil in Hg|]. by right.
  - intros n m Hn Hns Hc. destruct (decide (n = fr_node f)) as [->|Hne].
    + destruct Hc as (k' & j & Hk' & Hj & ->). rewrite Hk in Hk'. injection Hk' as <-.
      apply (wi_frame0 f k j); [by left|done|done|lia].
    + apply (wi_done0 n m); [done| |done]. intros g [->|Hg]%elem_of_cons; [done|by apply Hns].
  - intros g k' j Hg. apply wi_frame0. by right.
  - intros n w key Hn Hns. apply wi_found0; [done|].
    intros g [->|Hg]%elem_of_cons Hgn; [done|by apply Hns].
Qed.

(** When its next child is entered. *)
Lemma walk_inv_push f below V K k :
  walk_inv (f :: below) V K → sum_list counts = (length counts - 1)%nat →
  counts !! fr_node f = Some k → (fr_next f < k)%nat → fr_visited f = true →
  let child := (first_of counts (fr_node f) + fr_next f)%nat in
  (child ∉ V) ∧ (child < length counts)%nat ∧
  walk_inv ({| fr_node := child; fr_next := 0; fr_visited := false |}
            :: {| fr_node := fr_node f; fr_next := S (fr_next f); fr_visited := true |} :: below)
           (child :: V) K.
Proof.
  intros Hinv Hsum Hk Hnext Hvis child. pose proof Hinv as [].
  assert (child = first_of counts (fr_node f) + fr_next f)%nat as Hdef by done. clearbody child.
  assert (child_of counts (fr_node f) child) as Hchild by (by exists k, (fr_next f)).
  assert (child ∉ V) as HnotV.
  { intros Hc. rewrite Hdef in Hc. apply (wi_frame0 f k (fr_next f)) in Hc; [lia|by left|done..]. }
  assert (fr_node f ∈ V) as HfV by (apply wi_stack_in0; by left).
  assert (child < length counts)%nat as Hrange.
  { apply child_of_range in Hchild as [??]. lia. }
  apply NoDup_cons in wi_stack0 as [Hfresh Hstack].
  split; [done|]. split; [done|]. constructor.
  - by right.
  - by constructor.
  - intros n [->|Hn]%elem_of_cons; [done|by apply wi_range0].
  - change (NoDup (child :: fr_node f :: (fr_node <$> below))). apply NoDup_cons.
    split; [|by apply NoDup_cons].
    intros [Heq|Hin]%elem_of_cons; [apply HnotV; by rewrite Heq|].
    apply list_elem_of_fmap in Hin as (g & Hg & Hin). apply HnotV. rewrite Hg. apply wi_stack_in0. by right.
  - intros g [->|[->|Hg]%elem_of_cons]%elem_of_cons; [by left|by right|right; apply wi_stack_in0; by right].
  - intros g [->|Hg]%elem_of_cons; [done|by apply wi_below0].
  - intros n m Hc [->|Hm]%elem_of_cons; right; [|by eapply wi_parent0].
    by rewrite (child_of_unique _ _ _ _ Hc Hchild).
  - intros n m [->|Hn]%elem_of_cons Hns Hc.
    + exfalso. apply (Hns {| fr_node := child; fr_next := 0; fr_visited := false |}); [by left|done].
    + right. apply (wi_done0 n m); [done| |done].
      intros g [->|Hg]%elem_of_cons; [|apply Hns; by right; right].
      apply (Hns {| fr_node := fr_node f; fr_next := S (fr_next f); fr_visited := true |}).
      right; by left.
  - intros g k' j [->|[->|Hg]%elem_of_cons]%elem_of_cons Hk' Hj; cbn [fr_node fr_next] in *.
    + split; [lia|]. intros [He|Hin]%elem_of_cons; exfalso.
      * assert (child_of counts child child) as Hself by (by exists k', j).
        apply HnotV. by rewrite (child_of_unique _ _ _ _ Hself Hchild).
      * apply HnotV. eapply wi_parent0; [|exact Hin]. by exists k', j.
    + rewrite elem_of_cons. rewrite <- (wi_frame0 f k' j) by (done || by left).
      rewrite Hk in Hk'. injection Hk' as <-. lia.
    + rewrite elem_of_cons. rewrite <- (wi_frame0 g k' j) by (done || by right).
      split; [by right|]. intros [He|?]; [exfalso|done].
      apply Hfresh. apply list_elem_of_fmap. exists g. split; [|done].
      apply (child_of_unique counts _ _ child); [done|]. exists k', j. split; [done|]. split; [done|]. lia.
  - done.
  - intros n w key [->|Hn]%elem_of_cons Hns Hw Hl Hr.
    + exfalso. specialize (Hns {| fr_node := child; fr_next := 0; fr_visited := false |}).
      discriminate Hns; [by left|done].
    + apply (wi_found0 n w); [done| |done..]. intros g [->|Hg]%elem_of_cons Hgn; [done|].
      apply Hns; [by right; right|done].
Qed.

(** With an empty stack every key has been found. *)
Lemma walk_inv_end V K key :
  walk_inv [] V K → key ∈ K ↔ trie_key leaves_ labels_ counts key.
Proof.
  intros []. split; [apply wi_sound0|]. intros (n & w & Hw & Hl & Hr).
  apply (wi_found0 n w); [|by intros ? ?%elem_of_nil|done..].
  clear Hl Hr. induction Hw as [|n m w c Hw IH Hc Hlab]; [done|].
  apply (wi_done0 n m); [done|by intros ? ?%elem_of_nil|done].
Qed.

Lemma walk_inv_start : (0 < length counts)%nat →
  walk_inv [{| fr_node := 0; fr_next := 0; fr_visited := false |}] [0%nat] [].
Proof.
  intros Hlen. constructor.
  - by left.
  - apply NoDup_singleton.
  - by intros n ->%list_elem_of_singleton.
  - apply NoDup_singleton.
  - intros f ->%list_elem_of_singleton. by left.
  - by intros f ?%elem_of_nil.
  - intros n m Hc ->%list_elem_of_singleton. apply child_of_range in Hc. lia.
  - intros n m ->%list_elem_of_singleton Hns. exfalso. eapply Hns; [by left|done].
  - intros f k j ->%list_elem_of_singleton Hk Hj. cbn. split; [lia|].
    intros ?%list_elem_of_singleton. unfold first_of in *. cbn in *. lia.
  - by intros key ?%elem_of_nil.
  - intros n w key ->%list_elem_of_singleton Hns. exfalso.
    specialize (Hns {| fr_node := 0; fr_next := 0; fr_visited := false |}).
    discriminate Hns; [by left|done].
Qed.

(** A step of the walk leaves fewer steps to do. *)
Definition walk_measure (stack : list Frame) (V : list nat) : nat :=
  2 * (length counts - length V) + length stack.

Lemma walk_inv_size stack V K : walk_inv stack V K → (length V ≤ length counts)%nat.
Proof.
  intros []. rewrite <- (length_seq (length counts) 0).
  apply submseteq_length, NoDup_submseteq; [done|].
  intros n Hn. apply elem_of_seq. specialize (wi_range0 n Hn). lia.
Qed.
End Walk.
