(* ===== verification/SrsRules.v ===== *)
(** * Binary rule sets: rules

    What a rule set means, and the reading of rules in lists/srs_decoder.cpp: the list
    extracted from a rule matches no destination that the rule does not match. *)

From Stdlib Require Import ZArith Lia String.
From stdpp Require Import base list.
From S2P Require Import Prelude StateError SrsReader SrsAddress SrsDecoder SrsText SrsFields SrsTrie.
Open Scope Z_scope.

(** * Binary rule sets: domains

    The domain matcher of lists/srs_decoder.cpp: the walk finds exactly the keys of the
    trie, and what is extracted from them matches nothing that the keys do not match. *)

(** ** Raw keys *)

Definition key_exact (key : list Z) : bool :=
  match key with
  | [] => false
  | c :: _ => negb (c =? kDomainPrefixLabel) && negb (c =? kDomainRootLabel)
  end.

Definition key_prefix (key : list Z) : option (list Z) :=
  match key with c :: v => if c =? kDomainPrefixLabel then Some v else None | [] => None end.

Definition key_root (key : list Z) : option (list Z) :=
  match key with c :: v => if c =? kDomainRootLabel then Some v else None | [] => None end.

(** The keys sorted into the three vectors. *)
Definition keys_of (K : list (list Z)) : TrieKeys :=
  {| exact_domains := filter (λ k, key_exact k = true) K;
     legacy_prefixes := omap key_prefix K;
     root_suffixes := omap key_root K |}.

Lemma classify_key_spec key K :
  key ≠ [] →
  match classify_key key (keys_of K) with
  | Ok ks => ks = keys_of (K ++ [key])
  | Throw e => e = SrsInvalid
  end.
Proof.
  intros Hne. destruct key as [|c v]; [done|]. unfold classify_key, keys_of.
  rewrite filter_app, !omap_app. cbn [omap list_omap key_prefix key_root].
  rewrite filter_cons. cbn [key_exact].
  destruct (Z.eqb_spec c kDomainPrefixLabel) as [->|]; cbn [negb andb].
  { destruct (domain_text_ok v); [|done]. rewrite decide_False by done.
    rewrite filter_nil, !app_nil_r. done. }
  destruct (Z.eqb_spec c kDomainRootLabel) as [->|]; cbn [negb andb];
    [destruct (domain_text_ok v)|destruct (domain_text_ok (c :: v))]; try done.
  - rewrite decide_False by done. by rewrite filter_nil, !app_nil_r.
  - rewrite decide_True by done. by rewrite filter_nil, !app_nil_r.
Qed.

(** ** What keys match *)

(** A suffix of a keen-pbr list covers the name itself and the names below it. *)
Definition suffix_matches (s d : list Z) : Prop := d = s ∨ ∃ p, d = p ++ 46 :: s.

(** A plain key stands for one name, a key behind the root label for a suffix, a key
    behind the prefix label for everything that ends in it. *)
Definition key_matches (key d : list Z) : Prop :=
  (key_exact key = true ∧ d = key) ∨
  (∃ v, key_prefix key = Some v ∧ ∃ p, d = p ++ v) ∨
  (∃ r, key_root key = Some r ∧ suffix_matches r d).

(** The domains an extraction matches. *)
Definition extraction_domain (domains suffixes : list (list Z)) (d : list Z) : Prop :=
  d ∈ domains ∨ ∃ s, s ∈ suffixes ∧ suffix_matches s d.

(** ** Sorting *)

Lemma unique_adjacent_elem {A} `{EqDecision A} (l : list A) x : x ∈ unique_adjacent l ↔ x ∈ l.
Proof.
  induction l as [|y [|z l] IH]; [done..|]. cbn [unique_adjacent].
  destruct (decide (y = z)) as [->|]; [|rewrite !elem_of_cons in *; by rewrite IH].
  cbn [unique_adjacent] in IH. rewrite IH, !elem_of_cons. tauto.
Qed.

Lemma unique_adjacent_weight {A} `{EqDecision A} (f : A → nat) (l : list A) :
  (sum_list_with f (unique_adjacent l) ≤ sum_list_with f l)%nat.
Proof.
  induction l as [|y [|z l] IH]; [done..|]. cbn [unique_adjacent].
  destruct (decide (y = z)) as [->|]; [|cbn [unique_adjacent sum_list_with] in *; lia].
  change (sum_list_with f (z :: z :: l)) with (f z + sum_list_with f (z :: l))%nat.
  cbn [unique_adjacent] in IH. lia.
Qed.

Lemma sum_list_with_perm {A} (f : A → nat) (l l' : list A) :
  l ≡ₚ l' → sum_list_with f l = sum_list_with f l'.
Proof. induction 1; cbn; lia. Qed.

Lemma sort_unique_elem l x : x ∈ sort_unique l ↔ x ∈ l.
Proof. unfold sort_unique. rewrite unique_adjacent_elem. by rewrite stable_sort_perm. Qed.

Lemma sort_unique_text_elem l x : x ∈ sort_unique_text l ↔ x ∈ l.
Proof. unfold sort_unique_text. rewrite unique_adjacent_elem. by rewrite stable_sort_perm. Qed.

Lemma sort_unique_weight f l : (sum_list_with f (sort_unique l) ≤ sum_list_with f l)%nat.
Proof.
  unfold sort_unique. etrans; [apply unique_adjacent_weight|].
  by rewrite (sum_list_with_perm f _ _ (stable_sort_perm _ l)).
Qed.

Lemma sum_filter_le {A} (P : A → Prop) `{∀ x, Decision (P x)} (f : A → nat) (l : list A) :
  (sum_list_with f (filter P l) ≤ sum_list_with f l)%nat.
Proof. induction l as [|x l IH]; [done|]. rewrite filter_cons. case_decide; cbn; lia. Qed.

(** ** Promotion of legacy prefixes *)

Section Promote.
Context (exact : list (list Z)).

Definition promotes (v root : list Z) : Prop := v = 46 :: root ∧ root ∈ exact ∧ root ≠ [].

(** The condition of the loop. *)
Definition promoted_root (v : list Z) : option (list Z) :=
  match v with
  | front :: root =>
      if (1 <? length v)%nat && (front =? 46) && binary_search exact root then Some root else None
  | [] => None
  end.

Lemma promoted_root_spec v root : promoted_root v = Some root ↔ promotes v root.
Proof.
  unfold promotes. destruct v as [|front r]; [split; [intros He; discriminate He|intros [He _]; discriminate He]|]. cbn [promoted_root].
  unfold binary_search.
  destruct ((1 <? length (front :: r))%nat && (front =? 46) && bool_decide (r ∈ exact)) eqn:Hc.
  - bool_to_prop. cbn [length] in *. split.
    + intros [= <-]. split; [by f_equal|]. split; [done|]. intros ->. cbn in *. lia.
    + by intros [[= _ ->] _].
  - split; [done|]. intros ([= -> ->] & Hin & Hne). rewrite bool_decide_true in Hc by done.
    destruct root; [done|]. done.
Qed.
End Promote.

(** ** What is extracted *)

(** The texts of an extraction, weighed by [f]. *)
Definition texts_weight (f : list Z → nat) (domains suffixes : list (list Z)) : nat :=
  (sum_list_with f domains + sum_list_with f suffixes)%nat.

Lemma omap_weight (f : list Z → nat) (g : list Z → option (list Z)) l :
  (∀ x y, g x = Some y → f y ≤ f x)%nat → (sum_list_with f (omap g l) ≤ sum_list_with f l)%nat.
Proof.
  intros Hg. induction l as [|x l IH]; [done|]. cbn. destruct (g x) as [y|] eqn:E; cbn; [|lia].
  specialize (Hg x y E). lia.
Qed.

(** The elements of an option. *)
Definition option_list {A} (o : option A) : list A := match o with Some x => [x] | None => [] end.

Lemma keys_of_weight (f : list Z → nat) K :
  (∀ c v, f v ≤ f (c :: v))%nat →
  (sum_list_with f (exact_domains (keys_of K)) + sum_list_with f (legacy_prefixes (keys_of K))
   + sum_list_with f (root_suffixes (keys_of K)) ≤ sum_list_with f K)%nat.
Proof.
  intros Hf. induction K as [|key K IH]; [done|].
  assert (∀ k, exact_domains (keys_of (k :: K)) = (if key_exact k then [k] else []) ++ exact_domains (keys_of K)
    ∧ legacy_prefixes (keys_of (k :: K)) = option_list (key_prefix k) ++ legacy_prefixes (keys_of K)
    ∧ root_suffixes (keys_of (k :: K)) = option_list (key_root k) ++ root_suffixes (keys_of K)) as Hcons.
  { intros k. cbn [keys_of exact_domains legacy_prefixes root_suffixes omap list_omap].
    rewrite filter_cons. split; [by destruct (key_exact k)|]. by destruct (key_prefix k), (key_root k). }
  destruct (Hcons key) as (-> & -> & ->). rewrite !sum_list_with_app. cbn [sum_list_with].
  enough (sum_list_with f (if key_exact key then [key] else []) + sum_list_with f (option_list (key_prefix key))
          + sum_list_with f (option_list (key_root key)) ≤ f key)%nat by lia.
  destruct key as [|c v]; [cbn; lia|]. specialize (Hf c v). cbn [key_exact key_prefix key_root].
  destruct (Z.eqb_spec c kDomainPrefixLabel) as [->|]; cbn [negb andb].
  { cbn. lia. }
  destruct (Z.eqb_spec c kDomainRootLabel) as [->|]; cbn; lia.
Qed.

(** [u] prefixes had to be left out. *)
Definition extracted_from (K : list (list Z)) (u : Z) (e : RuleExtraction) : Prop :=
  (∀ d, extraction_domain (ex_domains e) (ex_suffixes e) d → ∃ key, key ∈ K ∧ key_matches key d) ∧
  (u = 0 → ∀ key d, key ∈ K → key_matches key d →
     extraction_domain (ex_domains e) (ex_suffixes e) d) ∧
  ex_cidrs e = [] ∧
  (∀ f : list Z → nat, (∀ c v, f v ≤ f (c :: v))%nat →
     (texts_weight f (ex_domains e) (ex_suffixes e) ≤ sum_list_with f K)%nat).

(** The pure part of [extract_keys]. *)
Definition extraction_of (K : list (list Z)) : RuleExtraction :=
  let exact := sort_unique (exact_domains (keys_of K)) in
  let prefixes := sort_unique (legacy_prefixes (keys_of K)) in
  let roots := sort_unique (root_suffixes (keys_of K)) in
  let promoted := omap (promoted_root exact) prefixes in
  {| ex_domains := filter (λ domain, binary_search (sort_unique promoted) domain = false) exact;
     ex_suffixes := sort_unique (roots ++ promoted);
     ex_cidrs := [] |}.

Definition left_out (K : list (list Z)) : list (list Z) :=
  let exact := sort_unique (exact_domains (keys_of K)) in
  filter (λ v, promoted_root exact v = None) (sort_unique (legacy_prefixes (keys_of K))).

Lemma exact_elem K x : x ∈ sort_unique (exact_domains (keys_of K)) ↔ key_exact x = true ∧ x ∈ K.
Proof. rewrite sort_unique_elem. unfold keys_of. cbn [exact_domains]. by rewrite list_elem_of_filter. Qed.

Lemma prefix_elem K v :
  v ∈ sort_unique (legacy_prefixes (keys_of K)) ↔ ∃ key, key ∈ K ∧ key_prefix key = Some v.
Proof. rewrite sort_unique_elem. unfold keys_of. cbn [legacy_prefixes root_suffixes]. by rewrite list_elem_of_omap. Qed.

Lemma root_elem K r :
  r ∈ sort_unique (root_suffixes (keys_of K)) ↔ ∃ key, key ∈ K ∧ key_root key = Some r.
Proof. rewrite sort_unique_elem. unfold keys_of. cbn [legacy_prefixes root_suffixes]. by rewrite list_elem_of_omap. Qed.

Lemma promoted_elem K r :
  r ∈ omap (promoted_root (sort_unique (exact_domains (keys_of K))))
        (sort_unique (legacy_prefixes (keys_of K))) ↔
  (∃ key, key ∈ K ∧ key_prefix key = Some (46 :: r)) ∧ (key_exact r = true ∧ r ∈ K).
Proof.
  rewrite list_elem_of_omap. split.
  - intros (v & (key & Hk & Hv)%prefix_elem & Hp). apply promoted_root_spec in Hp as (-> & Hr & _).
    apply exact_elem in Hr. eauto.
  - intros [(key & Hk & Hv) Hr]. exists (46 :: r). split; [apply prefix_elem; eauto|].
    apply promoted_root_spec. split; [done|]. split; [by apply exact_elem|].
    destruct Hr as [Hr _]. by intros ->.
Qed.

Lemma extraction_sound K d :
  extraction_domain (ex_domains (extraction_of K)) (ex_suffixes (extraction_of K)) d →
  ∃ key, key ∈ K ∧ key_matches key d.
Proof.
  intros [Hd|(s & Hs & Hm)]; cbn [extraction_of ex_domains ex_suffixes] in *.
  - apply list_elem_of_filter in Hd as [_ [He Hin]%exact_elem]. exists d. split; [done|]. by left.
  - apply sort_unique_elem, elem_of_app in Hs as [(key & Hk & Hr)%root_elem|Hp].
    + exists key. split; [done|]. right; right. eauto.
    + apply promoted_elem in Hp as [(key & Hk & Hp) [He Hin]].
      destruct Hm as [->|[p ->]]; [exists s; split; [done|by left]|].
      exists key. split; [done|]. right; left. eauto.
Qed.

Lemma extraction_complete K key d :
  left_out K = [] → key ∈ K → key_matches key d →
  extraction_domain (ex_domains (extraction_of K)) (ex_suffixes (extraction_of K)) d.
Proof.
  intros Hout Hk. cbn [extraction_of ex_domains ex_suffixes].
  set (exact := sort_unique (exact_domains (keys_of K))) in *.
  set (promoted := omap _ _).
  intros [[He ->]|[(v & Hv & p & ->)|(r & Hr & Hm)]].
  - destruct (decide (key ∈ promoted)) as [Hin|Hin].
    + right. exists key. split; [|by left]. apply sort_unique_elem, elem_of_app. by right.
    + left. apply list_elem_of_filter. split; [|by apply exact_elem].
      unfold binary_search. apply bool_decide_eq_false. by rewrite sort_unique_elem.
  - destruct (promoted_root exact v) as [r|] eqn:Hp.
    + right. exists r. split.
      * apply sort_unique_elem, elem_of_app. right. apply list_elem_of_omap. exists v.
        split; [apply prefix_elem; eauto|done].
      * apply promoted_root_spec in Hp as [-> _]. right. by exists p.
    + exfalso. assert (v ∈ left_out K) as Hl; [|by rewrite Hout in Hl; apply elem_of_nil in Hl].
      apply list_elem_of_filter. split; [done|]. apply prefix_elem. eauto.
  - right. exists r. split; [|done]. apply sort_unique_elem, elem_of_app. left. apply root_elem. eauto.
Qed.

Lemma extraction_weight K (f : list Z → nat) :
  (∀ c v, f v ≤ f (c :: v))%nat →
  (texts_weight f (ex_domains (extraction_of K)) (ex_suffixes (extraction_of K))
   ≤ sum_list_with f K)%nat.
Proof.
  intros Hf. unfold texts_weight, extraction_of. cbn [ex_domains ex_suffixes].
  etrans; [|by apply keys_of_weight].
  pose proof (sort_unique_weight f (exact_domains (keys_of K))).
  pose proof (sort_unique_weight f (legacy_prefixes (keys_of K))).
  pose proof (sort_unique_weight f (root_suffixes (keys_of K))).
  set (exact := sort_unique (exact_domains (keys_of K))) in *.
  set (prefixes := sort_unique (legacy_prefixes (keys_of K))) in *.
  set (promoted := omap (promoted_root exact) prefixes).
  pose proof (sort_unique_weight f (sort_unique (root_suffixes (keys_of K)) ++ promoted)) as Hs.
  rewrite sum_list_with_app in Hs.
  assert (sum_list_with f promoted ≤ sum_list_with f prefixes)%nat.
  { apply omap_weight. intros x y [-> _]%promoted_root_spec. apply Hf. }
  pose proof (sum_filter_le (λ domain, binary_search (sort_unique promoted) domain = false) f exact).
  lia.
Qed.

Lemma extraction_of_ok K : extracted_from K (Z.of_nat (length (left_out K))) (extraction_of K).
Proof.
  split; [apply extraction_sound|]. split; [|split; [done|apply extraction_weight]].
  intros Hu key d. apply extraction_complete. by destruct (left_out K).
Qed.

(** ** The decoder *)

Section Keys.
Context `{SizeT} {R : Type} `{ByteReaderLaws R}.
Context (limits : SrsDecodeLimits).
Hypothesis Hlimits : limits_wf limits.
Hypothesis Hnodes : max_trie_nodes limits ≤ u32_max.

Abbreviation Dec := (@Decoder R).
Abbreviation D := (SE Dec SrsDecodeError).
Abbreviation spec := (spec limits).

(** How far the counters have moved: fields and rules left out, entries and bytes put out. *)
Definition advanced (u s n b : Z) (d d' : Dec) : Prop :=
  unsupported_fields (result_ d') = unsupported_fields (result_ d) + u ∧
  skipped_rules (result_ d') = skipped_rules (result_ d) + s ∧
  decoded_output_entries_ d' = decoded_output_entries_ d + n ∧
  decoded_output_string_bytes_ d' = decoded_output_string_bytes_ d + b.

Lemma advanced_refl d : advanced 0 0 0 0 d d.
Proof. repeat split; lia. Qed.

Lemma advanced_trans u s n b u' s' n' b' d d' d'' :
  advanced u s n b d d' → advanced u' s' n' b' d' d'' →
  advanced (u + u') (s + s') (n + n') (b + b') d d''.
Proof. intros (E1 & E2 & E3 & E4) (F1 & F2 & F3 & F4). repeat split; lia. Qed.

Lemma grown_advanced n b (d d' : Dec) : grown n b d d' → advanced 0 0 n b d d'.
Proof. intros (E1 & E2 & E3). unfold advanced. rewrite E1. repeat split; lia. Qed.

Lemma spec_promote exact l acc d :
  spec (mfold (promote_prefix exact) acc l) d (λ acc' bs d', bs = [] ∧
    acc' = (acc.1 ++ omap (promoted_root exact) l, acc.2 ++ omap (promoted_root exact) l) ∧
    advanced (Z.of_nat (length (filter (λ v, promoted_root exact v = None) l))) 0 0 0 d d').
Proof.
  revert acc d. induction l as [|v l IH]; intros acc d; cbn [mfold].
  { apply spec_ret. split; [done|]. cbn. rewrite !app_nil_r. split; [by destruct acc|apply advanced_refl]. }
  assert (promote_prefix exact acc v = match promoted_root exact v with
    | Some root => mret (acc.1 ++ [root], acc.2 ++ [root])
    | None => _ ← modify (count_result 1 0 0); mret acc end) as ->.
  { destruct v as [|front root]; [done|]. cbn [promote_prefix promoted_root]. by destruct (_ && _). }
  rewrite filter_cons. cbn [omap list_omap]. destruct (promoted_root exact v) as [root|] eqn:Hp.
  - rewrite decide_False by done. apply spec_bind, spec_ret. eapply spec_mono; [apply IH|].
    cbv beta. intros acc' bs d' _ (-> & -> & Hd). split; [done|]. cbn. rewrite <- !app_assoc. done.
  - rewrite decide_True by done. apply spec_bind, spec_bind, spec_modify; [done..|].
    apply spec_ret. eapply spec_mono; [apply IH|].
    cbv beta. intros acc' bs d' _ (-> & -> & Hd). split; [done|]. split; [done|].
    destruct Hd as (E1 & E2 & E3 & E4). cbn in *. repeat split; cbn; lia.
Qed.

Lemma spec_extract_keys K d :
  spec (extract_keys (keys_of K)) d (λ e bs d', bs = [] ∧ ∃ u, 0 ≤ u ∧
    extracted_from K u e ∧ advanced u 0 0 0 d d').
Proof.
  unfold extract_keys. eapply spec_seq; [apply spec_promote|]. cbv beta.
  intros acc bs d' _ (-> & -> & Hd). apply spec_ret. split; [done|].
  exists (Z.of_nat (length (left_out K))). split; [lia|]. split; [apply extraction_of_ok|done].
Qed.

Lemma spec_read_word_vector d :
  spec (read_word_vector limits) d (λ ws bs d', bs = enc_list (enc_be 8) ws ∧ only_reads d d').
Proof.
  unfold read_word_vector. eapply spec_seq; [apply spec_read_count|]. cbv beta.
  intros n bs d1 _ (-> & Hn & Hd1).
  eapply spec_mono; [apply (spec_collect limits (enc_be 8) (λ _, True))|].
  { intros d2. eapply spec_mono; [apply spec_read_be_u64|]. cbv beta. naive_solver. }
  cbv beta. intros ws bs d2 _ (Hlen & -> & _ & Hd2). unfold enc_list. rewrite Hlen, Z2Nat.id by lia.
  split; [done|by eapply only_reads_trans].
Qed.

Lemma spec_read_byte_vector lim d :
  spec (read_byte_vector lim) d (λ l bs d', bs = enc_string l ∧ Forall byte_ok l ∧ only_reads d d').
Proof.
  unfold read_byte_vector. eapply spec_seq; [apply spec_read_count|]. cbv beta.
  intros n bs d1 _ (-> & Hn & Hd1). destruct (Z.eqb_spec n 0) as [->|].
  - apply spec_ret. split; [done|]. by split; [constructor|].
  - eapply spec_mono; [apply spec_read_bytes; lia|]. cbv beta. intros l bs d2 Hby (-> & Hlen & Hd2).
    unfold enc_string. rewrite Hlen, Z2Nat.id by lia.
    split; [done|]. split; [done|by eapply only_reads_trans].
Qed.

(** The bits of an accepted trie. *)
Definition bits_of (t : Trie) : TrieBits :=
  {| tb_leaves := leaves t; tb_bitmap := bitmap t; tb_labels := labels t |}.

Lemma spec_read_trie d :
  spec (read_trie limits) d (λ t bs d', bs = enc_trie (bits_of t) ∧ Forall byte_ok (labels t) ∧
    (∃ counts, trie_wf t counts) ∧ only_reads d d').
Proof.
  unfold read_trie. eapply spec_seq; [apply spec_read_byte|]. cbv beta.
  intros v bs d1 _ (-> & _ & Hd1). apply spec_bind, spec_fail_if. intros Hv.
  apply negb_false_iff, Z.eqb_eq in Hv as ->.
  eapply spec_seq; [apply spec_read_word_vector|]. cbv beta. intros l bs d2 _ (-> & Hd2).
  eapply spec_seq; [apply spec_read_word_vector|]. cbv beta. intros b bs d3 _ (-> & Hd3).
  eapply spec_seq; [apply spec_read_byte_vector|]. cbv beta. intros ls bs d4 _ (-> & Hls & Hd4).
  pose proof (build_trie_spec limits Hnodes l b ls) as Hb.
  apply spec_of_result; [|by intros e He; rewrite He in Hb].
  intros t Ht. rewrite Ht in Hb. destruct Hb as (El & Eb & Els & Hwf). rewrite app_nil_r.
  unfold enc_trie, bits_of. cbn. rewrite El, Eb, Els. split; [done|]. split; [done|].
  split; [done|]. exact (only_reads_trans _ _ _ (only_reads_trans _ _ _ Hd1 Hd2) (only_reads_trans _ _ _ Hd3 Hd4)).
Qed.

(** ** The walk *)

Definition key_bytes (K : list (list Z)) : Z := Z.of_nat (sum_list_with length K).

Lemma key_bytes_app K K' : key_bytes (K ++ K') = key_bytes K + key_bytes K'.
Proof. unfold key_bytes. rewrite sum_list_with_app. lia. Qed.

Context (t : Trie) (counts : list nat).
Hypothesis Hwf : trie_wf t counts.
Hypothesis Hlabels : Forall byte_ok (labels t).

Lemma spelled_bytes n w : spelled counts (labels t) n w → Forall byte_ok w.
Proof.
  induction 1 as [|n m w c Hw IH Hc Hl]; [constructor|]. apply Forall_app. split; [done|].
  apply Forall_singleton. eapply Forall_lookup_1; [exact Hlabels|done].
Qed.

Lemma spec_visit_node n w K d :
  (n < length counts)%nat → spelled counts (labels t) n w →
  spec (visit_node limits t n w (keys_of K)) d (λ ks bs d', bs = [] ∧ ∃ new,
    ks = keys_of (K ++ new) ∧ grown (Z.of_nat (length new)) (key_bytes new) d d' ∧
    (∀ key, key ∈ new → tbit (leaves t) n = true ∧ reversed_text w key) ∧
    (∀ key, tbit (leaves t) n = true → reversed_text w key → key ∈ new)).
Proof.
  intros Hn Hw. destruct Hwf as ((Hlen & _ & _ & _ & Hleaves & _) & _). unfold visit_node.
  apply spec_bind, spec_vector_at. exists (tbit (leaves t) n).
  split; [apply bit_is_set_spec; lia|]. destruct (tbit (leaves t) n) eqn:Hl.
  2: { apply spec_ret. split; [done|]. exists []. rewrite app_nil_r.
       split; [done|]. split; [apply calm_refl|]. split; [by intros ? ?%elem_of_nil|done]. }
  apply spec_bind, spec_fail_if. intros Hne. cbn [app]. apply Nat.eqb_neq in Hne.
  pose proof (spelled_bytes n w Hw) as Hby.
  apply spec_bind, spec_of_result; [|apply reverse_utf8_throw].
  intros key Hkey. pose proof (proj1 (reverse_utf8_spec w key Hby) Hkey) as Hrev. cbn [app].
  eapply spec_seq; [apply spec_account_output; [done|lia]|]. cbv beta. intros _ bs d1 _ [-> Hd1].
  eapply spec_seq; [apply spec_account_output_string_bytes; [done|lia]|]. cbv beta.
  intros _ bs d2 _ [-> Hd2]. cbn [app].
  pose proof (classify_key_spec key K) as Hc.
  assert (key ≠ []) as Hk0 by (eapply reversed_text_nonempty; [done|by destruct w]).
  specialize (Hc Hk0). apply spec_of_result; [|by intros e He; rewrite He in Hc].
  intros ks Hks. rewrite Hks in Hc. split; [done|]. exists [key].
  split; [done|]. split.
  { pose proof (grown_trans _ _ _ _ _ _ _ Hd1 Hd2) as Hg. unfold key_bytes. cbn.
    by rewrite Nat.add_0_r. }
  split.
  - intros k ->%list_elem_of_singleton. done.
  - intros k _ Hk. apply list_elem_of_singleton.
    apply (reverse_utf8_spec w k Hby) in Hk. congruence.
Qed.

Lemma spec_walk_trie fuel stack w V K d :
  walk_inv counts (leaves t) (labels t) stack V K →
  (stack = [] ∨ stack_path counts (labels t) stack w) →
  (walk_measure counts stack V ≤ fuel)%nat →
  spec (walk_trie limits fuel t stack w (keys_of K)) d (λ ks bs d', bs = [] ∧ ∃ new,
    ks = keys_of (K ++ new) ∧ grown (Z.of_nat (length new)) (key_bytes new) d d' ∧
    (∀ key, key ∈ K ++ new ↔ trie_key (leaves t) (labels t) counts key)).
Proof.
  revert stack w V K d. induction fuel as [|fuel IH]; intros stack w V K d Hinv Hpath Hfuel;
    (destruct stack as [|f below];
      [apply spec_ret; split; [done|]; exists []; rewrite app_nil_r;
       split; [done|]; split; [apply calm_refl|]; intros key; by eapply walk_inv_end|]).
  { unfold walk_measure in Hfuel. cbn in Hfuel. lia. }
  cbn [walk_trie]. destruct Hpath as [|Hpath]; [done|].
  pose proof (stack_path_spelled _ _ _ _ _ Hpath) as Hw.
  assert (fr_node f < length counts)%nat as Hrange.
  { eapply wi_range; [exact Hinv|]. eapply wi_stack_in; [exact Hinv|]. by left. }
  pose proof Hwf as ((Hlen & Hsum & _) & Hfirst & Hcount & Hsmall).
  set (f' := {| fr_node := fr_node f; fr_next := fr_next f; fr_visited := true |}).
  apply (spec_seq limits _ _ _ (λ ks bs d', bs = [] ∧ ∃ new,
      ks = keys_of (K ++ new) ∧ grown (Z.of_nat (length new)) (key_bytes new) d d' ∧
      walk_inv counts (leaves t) (labels t) (f' :: below) V (K ++ new))).
  - destruct (fr_visited f) eqn:Hvis.
    + apply spec_ret. split; [done|]. exists []. rewrite app_nil_r. split; [done|].
      split; [apply calm_refl|]. subst f'. rewrite <- Hvis. by destruct f.
    + eapply spec_mono; [by apply spec_visit_node|]. cbv beta.
      intros ks bs d' _ (-> & new & -> & Hg & Hs & Hc). split; [done|]. exists new.
      split; [done|]. split; [done|]. eapply walk_inv_visit; [exact Hinv| | |].
      * intros key Hk. apply elem_of_app. by left.
      * intros key [Hk|Hk]%elem_of_app; [by eapply wi_sound|]. destruct (Hs key Hk) as [Hl Hr].
        by exists (fr_node f), w.
      * intros w' key Hw' Hl Hr. rewrite (spelled_unique _ _ _ _ _ Hw' Hw) in Hr.
        apply elem_of_app. right. by apply Hc.
  - cbv beta. intros ks bs d1 _ (-> & new & -> & Hd1 & Hinv1).
    destruct (lookup_lt_is_Some_2 counts (fr_node f) Hrange) as [k Hk].
    apply spec_bind, spec_vector_at. exists k. rewrite Hcount. split; [done|]. cbn [app].
    assert (∀ d' new' b', grown (Z.of_nat (length new')) b' d1 d' → b' = key_bytes new' →
      grown (Z.of_nat (length (new ++ new'))) (key_bytes (new ++ new')) d d') as Hgrow.
    { intros d' new' b' Hg ->. rewrite length_app, Nat2Z.inj_add, key_bytes_app. by eapply grown_trans. }
    destruct (Nat.ltb_spec (fr_next f) k) as [Hlt|Hge].
    + apply spec_bind, spec_vector_at. exists (first_of counts (fr_node f)). rewrite Hfirst.
      split; [by rewrite list_lookup_fmap, lookup_seq_lt by done|]. cbn [app].
      apply spec_bind, spec_fail_if. intros _. cbn [app].
      destruct (walk_inv_push counts _ _ f' below V (K ++ new) k Hinv1) as (Hfresh & Hcr & Hpush);
        [lia|done|done|done|]. cbn [fr_node fr_next f'] in Hfresh, Hcr, Hpush.
      set (child := (first_of counts (fr_node f) + fr_next f)%nat) in *.
      assert (0 < child)%nat by (unfold child, first_of; lia).
      destruct (lookup_lt_is_Some_2 (labels t) (child - 1)) as [c Hc]; [lia|].
      apply spec_bind, spec_vector_at. exists c. split; [done|]. cbn [app].
      rewrite u32_index_small by lia.
      pose proof (walk_inv_size _ _ _ _ _ _ Hpush) as Hsize.
      eapply spec_mono; [apply (IH _ _ (child :: V) (K ++ new)); [exact Hpush| |]|].
      * right. apply path_child; [by apply (stack_path_replace _ _ f)|by exists k, (fr_next f)|done].
      * unfold walk_measure in *. cbn [length] in *. lia.
      * cbv beta. intros ks bs d2 _ (-> & new' & -> & Hd2 & Hall). split; [done|].
        exists (new ++ new'). rewrite <- app_assoc in *. split; [done|]. split; [by eapply Hgrow|done].
    + pose proof (walk_inv_pop counts _ _ f' below V (K ++ new) k Hinv1 Hk Hge eq_refl) as Hpop.
      eapply spec_mono; [apply (IH _ _ V (K ++ new)); [exact Hpop| |]|].
      * destruct below as [|g below]; [by left|right]. by eapply stack_path_pop.
      * unfold walk_measure in *. cbn [length] in *. lia.
      * cbv beta. intros ks bs d2 _ (-> & new' & -> & Hd2 & Hall). split; [done|].
        exists (new ++ new'). rewrite <- app_assoc in *. split; [done|]. split; [by eapply Hgrow|done].
Qed.
End Keys.

(** ** The matcher *)

(** The keys that the bits of a trie encode. *)
Definition bits_key (t : TrieBits) (key : list Z) : Prop :=
  ∃ counts, trie_shape (tb_leaves t) (tb_bitmap t) (tb_labels t) counts ∧
            trie_key (tb_leaves t) (tb_labels t) counts key.

Section Matcher.
Context `{SizeT} {R : Type} `{ByteReaderLaws R}.
Context (limits : SrsDecodeLimits).
Hypothesis Hlimits : limits_wf limits.
Hypothesis Hnodes : max_trie_nodes limits ≤ u32_max.

Lemma spec_read_domain_matcher (d : @Decoder R) :
  spec limits (read_domain_matcher limits) d (λ e bs d', ∃ t K u, bs = enc_trie t ∧
    (∀ key, key ∈ K ↔ bits_key t key) ∧ 0 ≤ u ∧ extracted_from K u e ∧
    advanced u 0 (Z.of_nat (length K)) (key_bytes K) d d').
Proof.
  unfold read_domain_matcher. eapply spec_seq; [by apply spec_read_trie|]. cbv beta.
  intros t bs d1 _ (-> & Hlab & [counts Hwf] & Hd1).
  pose proof Hwf as ((Hlen & Hrest) & _).
  eapply spec_seq.
  - change {| exact_domains := []; legacy_prefixes := []; root_suffixes := [] |} with (keys_of []).
    apply (spec_walk_trie limits Hlimits t counts Hwf Hlab _ _ _ [0%nat] []).
    + apply walk_inv_start. lia.
    + right. by apply path_root.
    + unfold walk_measure. cbn [length]. lia.
  - cbv beta. intros ks bs d2 _ (-> & K & -> & Hd2 & HK). cbn [app] in *.
    eapply spec_mono; [apply spec_extract_keys|]. cbv beta.
    intros e bs d3 _ (-> & u & Hu & He & Hd3). exists (bits_of t), K, u.
    rewrite app_nil_r. split; [done|]. split.
    { intros key. rewrite HK. split.
      - intros Hk. exists counts. split; [apply Hwf|done].
      - intros (counts' & Hs & Hk). by rewrite (trie_shape_unique _ _ _ _ _ Hs (proj1 Hwf)) in Hk. }
    split; [done|]. split; [done|].
    pose proof (grown_advanced _ _ _ _ (calm_grown _ _ _ _ _ (only_reads_calm _ _ Hd1) Hd2)) as Ha.
    pose proof (advanced_trans _ _ _ _ _ _ _ _ _ _ _ Ha Hd3) as Hall.
    by rewrite !Z.add_0_r, Z.add_0_l in Hall.
Qed.
End Matcher.

(** ** The meaning of rule sets *)

Inductive Dest := DomainName (d : list Z) | Address (a : list Z).

Definition dest_ok (x : Dest) : Prop :=
  match x with DomainName _ => True | Address a => address_ok a end.

(** What the rule language says beyond domains and addresses. [Flow] is everything else
    about a connection; [alternative] is the meaning of keywords, expressions and AdGuard
    patterns, [constraints] that of all other items of a rule taken together, which says
    nothing when there are none. *)
Class RuleLanguage := {
  Flow : Type;
  alternative : RuleItem → Field → Dest → Flow → Prop;
  constraints : list (RuleItem * Field) → Dest → Flow → Prop;
  constraints_nil x w : constraints [] x w
}.

(** Domains, addresses, keywords, expressions and AdGuard patterns are alternatives of
    one group. *)
Inductive ItemClass := Extracted | Alternative | Blocking.

Definition item_class (i : RuleItem) : ItemClass :=
  match i with
  | Domain | IpCidr => Extracted
  | DomainKeyword | DomainRegex | AdGuardDomain => Alternative
  | _ => Blocking
  end.

#[export] Instance ItemClass_eq_dec : EqDecision ItemClass.
Proof. solve_decision. Defined.

Definition in_range_of (a : list Z) (r : list Z * list Z) : Prop :=
  length a = length (r.1) ∧ addr_value (r.1) ≤ addr_value a ≤ addr_value (r.2).

(** ** Ranges and their blocks *)

Lemma elem_of_concat {A} (x : A) ls : x ∈ concat ls ↔ ∃ l, x ∈ l ∧ l ∈ ls.
Proof.
  rewrite list_elem_of_In, in_concat. setoid_rewrite list_elem_of_In. naive_solver.
Qed.

Lemma range_blocks_cover r bs a :
  range_blocks r bs → address_ok a →
  (∃ b, b ∈ bs ∧ cidr_covers (block_text b) a = true) ↔ in_range_of a r.
Proof.
  intros [Hcov Hbs] Ha. rewrite Forall_forall in Hbs.
  assert (∀ b, b ∈ bs → cidr_covers (block_text b) a = true ↔
    length a = length (r.1) ∧ addr_value (b.1) ≤ addr_value a < addr_value (b.1) + 2 ^ Z.of_nat (b.2)) as Hb.
  { intros b Hb. destruct (Hbs b Hb) as (Hok & Hlen & Hh & Hd). unfold block_text.
    rewrite cidr_covers_spec; [by rewrite Hlen|done|done|unfold address_bits; lia|done]. }
  unfold in_range_of. rewrite (range_cover_exact _ _ _ (addr_value a) Hcov). rewrite Exists_exists.
  split; [intros (b & Hin & Hc); apply Hb in Hc; naive_solver|].
  intros [Hlen (b & Hin & Hc)]. exists b. split; [done|]. by apply Hb.
Qed.

Lemma set_blocks_cover rs blocks a :
  set_blocks rs blocks → address_ok a →
  (∃ c, c ∈ block_text <$> blocks ∧ cidr_covers c a = true) ↔ ∃ r, r ∈ rs ∧ in_range_of a r.
Proof.
  intros (bss & Hbss & ->) Ha. split.
  - intros (c & (b & -> & Hb)%list_elem_of_fmap & Hc). apply elem_of_concat in Hb as (bs & Hb & Hbs).
    apply list_elem_of_lookup in Hbs as [i Hi].
    destruct (Forall2_lookup_r _ _ _ _ _ Hbss Hi) as (r & Hr & Hrb).
    apply list_elem_of_lookup_2 in Hr. exists r. split; [done|].
    apply (range_blocks_cover r bs a); [done|done|]. by exists b.
  - intros (r & Hr & Hin). apply list_elem_of_lookup in Hr as [i Hi].
    destruct (Forall2_lookup_l _ _ _ _ _ Hbss Hi) as (bs & Hbs & Hrb).
    destruct (proj2 (range_blocks_cover r bs a Hrb Ha) Hin) as (b & Hb & Hc). exists (block_text b).
    split; [|done]. apply list_elem_of_fmap. exists b. split; [done|].
    apply elem_of_concat. exists bs. split; [done|]. by eapply list_elem_of_lookup_2.
Qed.

Section Language.
Context `{RuleLanguage}.

Definition item_matches (i : RuleItem) (f : Field) (x : Dest) (w : Flow) : Prop :=
  match item_class i with
  | Extracted =>
      match f, x with
      | FieldTrie t, DomainName d => ∃ key, bits_key t key ∧ key_matches key d
      | FieldRanges rs, Address a => ∃ r, r ∈ rs ∧ in_range_of a r
      | _, _ => False
      end
  | Alternative => alternative i f x w
  | Blocking => False
  end.

Definition is_blocking (i : RuleItem * Field) : Prop := item_class (i.1) = Blocking.

Definition items_match (items : list (RuleItem * Field)) (x : Dest) (w : Flow) : Prop :=
  (Forall is_blocking items ∨ Exists (λ i, item_matches (i.1) (i.2) x w) items) ∧
  constraints (filter is_blocking items) x w.

Definition inverted (invert : bool) (P : Prop) : Prop := if invert then ¬ P else P.

Fixpoint rule_matches (r : Rule) (x : Dest) (w : Flow) : Prop :=
  match r with
  | DefaultRule items invert => inverted invert (items_match items x w)
  | LogicalRule true children invert =>
      inverted invert (fold_right (λ r P, rule_matches r x w ∨ P) False children)
  | LogicalRule false children invert =>
      inverted invert (fold_right (λ r P, rule_matches r x w ∧ P) True children)
  end.

Definition rule_set_matches (rs : list Rule) (x : Dest) (w : Flow) : Prop :=
  Exists (λ r, rule_matches r x w) rs.

Lemma fold_or {A} (P : A → Prop) l : fold_right (λ a Q, P a ∨ Q) False l ↔ Exists P l.
Proof. induction l as [|a l IH]; cbn; [by rewrite Exists_nil|]. by rewrite Exists_cons, IH. Qed.

Lemma fold_and {A} (P : A → Prop) l : fold_right (λ a Q, P a ∧ Q) True l ↔ Forall P l.
Proof. induction l as [|a l IH]; cbn; [by rewrite Forall_nil|]. by rewrite Forall_cons, IH. Qed.

(** ** The meaning of an extraction *)

Definition texts_match (domains suffixes : list (list Z)) (cidrs : list string) (x : Dest) : Prop :=
  match x with
  | DomainName d => extraction_domain domains suffixes d
  | Address a => ∃ c, c ∈ cidrs ∧ cidr_covers c a = true
  end.

Definition ext_matches (e : RuleExtraction) : Dest → Prop :=
  texts_match (ex_domains e) (ex_suffixes e) (ex_cidrs e).

Definition result_matches (r : SrsDecodeResult) : Dest → Prop :=
  texts_match (res_domains r) (res_domain_suffixes r) (res_ip_cidrs r).

Lemma ext_matches_none x : ¬ ext_matches no_extraction x.
Proof. destruct x as [d|a]; cbn; [|by intros (c & ?%elem_of_nil & _)].
  intros [?%elem_of_nil|(s & ?%elem_of_nil & _)]; done. Qed.

Lemma ext_matches_append e e' x :
  ext_matches (append_extraction e e') x ↔ ext_matches e x ∨ ext_matches e' x.
Proof.
  unfold ext_matches, append_extraction, texts_match, extraction_domain. destruct x as [d|a]; cbn.
  - setoid_rewrite elem_of_app. naive_solver.
  - setoid_rewrite elem_of_app. naive_solver.
Qed.

(** Entries and bytes of an extraction. *)
Definition ext_entries (e : RuleExtraction) : Z :=
  Z.of_nat (length (ex_domains e) + length (ex_suffixes e) + length (ex_cidrs e)).

Definition ext_bytes (e : RuleExtraction) : Z :=
  Z.of_nat (texts_weight length (ex_domains e) (ex_suffixes e)) + text_bytes (ex_cidrs e).

Lemma ext_entries_append e e' :
  ext_entries (append_extraction e e') = ext_entries e + ext_entries e'.
Proof. unfold ext_entries, append_extraction. cbn. rewrite !length_app. lia. Qed.

Lemma ext_bytes_append e e' : ext_bytes (append_extraction e e') = ext_bytes e + ext_bytes e'.
Proof.
  unfold ext_bytes, append_extraction, texts_weight. cbn.
  rewrite !sum_list_with_app, text_bytes_app. lia.
Qed.

(** [m] stands for what is matched, [u] and [s] for the fields and rules left out. *)
Definition extracts (e : RuleExtraction) (m : Dest → Prop) (u s : Z) : Prop :=
  (∀ x, dest_ok x → ext_matches e x → m x) ∧
  (u = 0 → s = 0 → ∀ x, dest_ok x → m x → ext_matches e x).

Lemma extracts_none m u s : 0 < s → extracts no_extraction m u s.
Proof.
  intros Hs. split; [by intros x _ ?%ext_matches_none|]. intros _ ->. lia.
Qed.

Lemma extracts_append e e' m m' u u' s s' :
  extracts e m u s → extracts e' m' u' s' → 0 ≤ u → 0 ≤ u' → 0 ≤ s → 0 ≤ s' →
  extracts (append_extraction e e') (λ x, m x ∨ m' x) (u + u') (s + s').
Proof.
  intros [Ha Hb] [Ha' Hb'] ????. split.
  - intros x Hx [?|?]%ext_matches_append; [left|right]; auto.
  - intros Hu Hs x Hx Hm. apply ext_matches_append.
    destruct Hm; [left; apply Hb|right; apply Hb']; (lia || done).
Qed.

Lemma extracts_iff e m m' u s : (∀ x, m x ↔ m' x) → extracts e m u s → extracts e m' u s.
Proof. intros Hm [Ha Hb]. split; [intros x Hx He; by apply Hm, Ha|].
  intros Hu Hs x Hx Hx'. apply Hb; [done..|]. by apply Hm.  Qed.

(** ** Items *)

Lemma extracts_domains t K u e w :
  (∀ key, key ∈ K ↔ bits_key t key) → extracted_from K u e →
  extracts e (λ x, item_matches Domain (FieldTrie t) x w) u 0.
Proof.
  intros HK (Hs & Hc & Hcidr & _). unfold extracts, ext_matches, item_matches. rewrite Hcidr. cbn.
  split.
  - intros [d|a] _; cbn; [|by intros (c & ?%elem_of_nil & _)].
    intros Hd. destruct (Hs d Hd) as (key & Hk & Hm). exists key. by rewrite <- HK.
  - intros Hu _ [d|a] _; cbn; [|done]. intros (key & Hk & Hm). apply (Hc Hu key); [by apply HK|done].
Qed.

Lemma extracts_ranges rs blocks w :
  set_blocks rs blocks →
  extracts {| ex_domains := []; ex_suffixes := []; ex_cidrs := block_text <$> blocks |}
    (λ x, item_matches IpCidr (FieldRanges rs) x w) 0 0.
Proof.
  intros Hb. unfold extracts, ext_matches, item_matches. cbn. split.
  - intros [d|a] Ha; cbn; [|by apply (set_blocks_cover rs blocks)].
    intros [?%elem_of_nil|(s & ?%elem_of_nil & _)]; done.
  - intros _ _ [d|a] Ha; cbn; [done|]. by apply (set_blocks_cover rs blocks).
Qed.
End Language.
