(* ===== verification/SrsClaims.v ===== *)
(** * Binary rule sets: properties

    What decode_srs (lists/srs_decoder.cpp) guarantees of any file, and a model of zlib
    for the witnesses: a stream that is stored behind its length. Before that, the reading
    of rules. *)

From Stdlib Require Import ZArith Lia String.
From stdpp Require Import base list.
From S2P Require Import Prelude StateError SrsReader SrsAddress SrsDecoder SrsText SrsFields SrsTrie.
From S2P Require Import SrsRules.
Open Scope Z_scope.

(** * Binary rule sets: reading rules

    Items, rules and rule sets of lists/srs_decoder.cpp: what was read is the encoding of
    a rule set, and the extraction stands in the relation [rule_read] to it. *)

Section Rules.
Context `{SizeT} {R : Type} `{ByteReaderLaws R} `{RuleLanguage}.
Context (limits : SrsDecodeLimits) (version : Z).
Hypothesis Hlimits : limits_wf limits.
Hypothesis Hnodes : max_trie_nodes limits ≤ u32_max.

Abbreviation Dec := (@Decoder R).
Abbreviation D := (SE Dec SrsDecodeError).
Abbreviation spec := (spec limits).

(** ** Items *)

(** What reading an item does to the scan of its rule. *)
Definition item_read (i : RuleItem) (f : Field) (u n b : Z) (s s' : ItemScan) : Prop :=
  0 ≤ u ∧ 0 ≤ n ∧ 0 ≤ b ∧
  match item_class i with
  | Extracted => ∃ e, s' = add_supported e s ∧
      (∀ w, extracts e (λ x, item_matches i f x w) u 0) ∧ ext_entries e ≤ n ∧ ext_bytes e ≤ b
  | Alternative => s' = s
  | Blocking => s' = add_blocking s
  end.

(** Items that are passed over. *)
Lemma spec_skip_item {X} (enc : X → list Z) (mk : X → Field) i s s' (m : D unit) d :
  (∀ x, enc_field (mk x) = enc x) →
  item_class i ≠ Extracted → s' = (if decide (item_class i = Blocking) then add_blocking s else s) →
  (∀ d, spec m d (λ _ bs d', (∃ x, bs = enc x) ∧ calm d d')) →
  spec (_ ← m; mret s') d (λ s' bs d', ∃ f u n b, bs = enc_field f ∧
    item_read i f u n b s s' ∧ advanced u 0 n b d d').
Proof.
  intros Hmk Hi -> Hm. eapply spec_seq; [apply Hm|]. cbv beta. intros _ bs d' _ [[x ->] Hd].
  apply spec_ret. exists (mk x), 0, 0, 0. rewrite app_nil_r, Hmk. split; [done|].
  split; [|by apply grown_advanced]. split; [lia|]. split; [lia|]. split; [lia|].
  by destruct (item_class i).
Qed.

(** Items that need a version. *)
Lemma spec_versioned {A} k (m : D A) d Q :
  spec m d Q → spec (_ ← require_item_version version k; m) d Q.
Proof. intros Hm. apply spec_bind, spec_fail_if. by intros _. Qed.

Lemma ext_domains_size K u e :
  extracted_from K u e → ext_entries e ≤ Z.of_nat (length K) ∧ ext_bytes e ≤ key_bytes K.
Proof.
  intros (_ & _ & Hc & Hw). unfold ext_entries, ext_bytes, key_bytes. rewrite Hc. cbn.
  pose proof (Hw (λ _, 1%nat) ltac:(cbn; lia)) as Hw1. pose proof (Hw length ltac:(cbn; lia)) as Hw2.
  unfold texts_weight in *.
  assert (∀ l : list (list Z), sum_list_with (λ _, 1%nat) l = length l) as Hone
    by (induction l; cbn; lia).
  rewrite !Hone in Hw1. change (text_bytes []) with 0. lia.
Qed.

Lemma spec_unit {X} (m : D X) (enc : list Z → Prop) d :
  spec m d (λ _ bs d', enc bs ∧ calm d d') →
  spec (_ ← m; mret ()) d (λ _ bs d', enc bs ∧ calm d d').
Proof.
  intros Hm. eapply spec_seq; [exact Hm|]. cbv beta. intros _ bs d' _ [He Hd]. apply spec_ret.
  by rewrite app_nil_r.
Qed.

Lemma spec_read_item i s d :
  spec (read_item limits version i s) d (λ s' bs d', ∃ f u n b, bs = enc_field f ∧
    item_read i f u n b s s' ∧ advanced u 0 n b d d').
Proof.
  destruct i; cbn [read_item]; try apply spec_versioned;
    try (by apply (spec_skip_item (enc_list enc_string) FieldStrings); [done|done|done|apply spec_skip_string_list]);
    try (by apply (spec_skip_item (enc_list (enc_be 2)) FieldShorts); [done|done|done|apply spec_skip_u16_list]).
  - eapply spec_seq; [by apply spec_read_domain_matcher|]. cbv beta.
    intros e bs d1 _ (t & K & u & -> & HK & Hu & He & Hd1). apply spec_ret. rewrite app_nil_r.
    exists (FieldTrie t), u, (Z.of_nat (length K)), (key_bytes K). split; [done|]. split; [|done].
    split; [done|]. split; [lia|]. split; [unfold key_bytes; lia|]. cbn. exists e. split; [done|].
    split; [intros w; exact (extracts_domains t K u e w HK He)|]. by eapply ext_domains_size.
  - eapply spec_seq; [by apply spec_read_ip_set|]. cbv beta.
    intros out bs d1 _ (rs & blocks & -> & Hrs & -> & _ & Hd1). apply spec_ret. rewrite app_nil_r.
    exists (FieldRanges rs), 0, (Z.of_nat (length blocks)), (text_bytes (block_text <$> blocks)).
    split; [done|]. split; [|by apply grown_advanced]. split; [lia|]. split; [lia|].
    split; [unfold text_bytes; lia|]. done.
  - eapply spec_seq; [by apply spec_read_ip_set|]. cbv beta.
    intros out bs d1 _ (rs & blocks & -> & Hrs & -> & Hb & Hd1). apply spec_ret. rewrite app_nil_r.
    exists (FieldRanges rs), 0, (Z.of_nat (length blocks)), (text_bytes (block_text <$> blocks)).
    split; [done|]. split; [|by apply grown_advanced]. split; [lia|]. split; [lia|].
    split; [unfold text_bytes; lia|]. cbn. eexists. split; [done|].
    split; [intros w; exact (extracts_ranges rs blocks w Hb)|].
    unfold ext_entries, ext_bytes. cbn. rewrite length_fmap. lia.
  - eapply spec_seq; [by apply spec_read_trie|]. cbv beta.
    intros t bs d1 _ (-> & _ & _ & Hd1). apply spec_ret. rewrite app_nil_r.
    exists (FieldTrie (bits_of t)), 0, 0, 0. split; [done|].
    split; [by repeat split|]. by apply grown_advanced, only_reads_calm.
  - apply (spec_skip_item enc_string FieldBytes); [done|done|done|]. by apply spec_skip_u8_list.
  - apply spec_ret. exists FieldFlag, 0, 0, 0. split; [done|]. split; [by repeat split|apply advanced_refl].
  - apply spec_ret. exists FieldFlag, 0, 0, 0. split; [done|]. split; [by repeat split|apply advanced_refl].
  - apply (spec_skip_item (enc_list enc_interface) FieldInterfaces); [done|done|done|].
    by apply spec_skip_interface_address_map.
  - apply (spec_skip_item (enc_list enc_prefix) FieldPrefixes); [done|done|done|].
    by apply spec_skip_prefix_list.
Qed.

(** ** The scan of a default rule *)

(** The scan after [items], with [u] fields left out. *)
Definition scan_ok (items : list (RuleItem * Field)) (u n b : Z) (s : ItemScan) : Prop :=
  NoDup (rs_seen s) ∧ Forall byte_ok (rs_seen s) ∧
  rs_has_condition s = bool_decide (items ≠ []) ∧
  0 ≤ rs_blocking_constraints s ∧
  (rs_blocking_constraints s = 0 → Forall (λ i, item_class (i.1) ≠ Blocking) items) ∧
  0 ≤ rs_supported_destination_fields s ∧
  (rs_supported_destination_fields s ≠ 0 → Exists (λ i, item_class (i.1) = Extracted) items) ∧
  (u = 0 → Forall (λ i, item_class (i.1) ≠ Alternative) items) ∧
  (∀ w, extracts (rs_extracted s)
     (λ x, Exists (λ i, item_class (i.1) = Extracted ∧ item_matches (i.1) (i.2) x w) items) u 0) ∧
  0 ≤ u ∧ 0 ≤ n ∧ 0 ≤ b ∧ ext_entries (rs_extracted s) ≤ n ∧ ext_bytes (rs_extracted s) ≤ b.

Lemma scan_ok_start : scan_ok [] 0 0 0 new_scan.
Proof.
  split; [apply NoDup_nil_2|]. split; [constructor|]. split; [done|]. split; [cbn; lia|].
  split; [by constructor|]. split; [cbn; lia|]. split; [done|]. split; [by constructor|].
  split; [|by unfold ext_entries, ext_bytes, texts_weight, text_bytes].
  intros w. split; [by intros x _ ?%ext_matches_none|]. intros _ _ x _ ?%Exists_nil. done.
Qed.

(** Appending an item without an extraction to the scan. *)
Lemma extracts_snoc_other e items i f u w :
  item_class i ≠ Extracted →
  extracts e (λ x, Exists (λ i, item_class (i.1) = Extracted ∧ item_matches (i.1) (i.2) x w) items) u 0 →
  extracts e (λ x, Exists (λ i, item_class (i.1) = Extracted ∧ item_matches (i.1) (i.2) x w)
                     (items ++ [(i, f)])) u 0.
Proof.
  intros Hi. apply extracts_iff. intros x. rewrite Exists_app, Exists_cons, Exists_nil. cbn. tauto.
Qed.

Lemma extracts_mono e m u u' s : 0 ≤ u → 0 ≤ u' → extracts e m u s → extracts e m (u + u') s.
Proof. intros Hu Hu' [Ha Hb]. split; [done|]. intros ?. apply Hb. lia. Qed.

Lemma scan_ok_item items u n b s raw i f u' n' b' s' :
  scan_ok items u n b s → raw ∉ rs_seen s → byte_ok raw →
  item_read i f u' n' b' (scan_item raw s) s' →
  scan_ok (items ++ [(i, f)]) (u + u' + item_counted i) (n + n') (b + b') s' ∧
  length (rs_seen s') = S (length (rs_seen s)).
Proof.
  intros (H1' & H2' & Hcond & Hb0 & Hb & Hs0 & Hs & Hu & He & Hu0 & Hn0 & Hbb0 & Hn & Hbb) Hfresh Hraw
    (Hu' & Hn' & Hb' & Hc).
  assert (rs_seen s' = raw :: rs_seen s ∧ rs_has_condition s' = true) as [Hseen Hcond'].
  { destruct (item_class i); [destruct Hc as (e & -> & _)|subst|subst]; done. }
  rewrite Hseen. split; [|done]. unfold scan_ok. rewrite Hseen, Hcond'.
  split; [by apply NoDup_cons|]. split; [by constructor|].
  split; [symmetry; apply bool_decide_eq_true; by destruct items|].
  assert (0 ≤ item_counted i) as Hk by (destruct i; cbn; lia).
  assert (item_class i ≠ Extracted → item_counted i = 1) as Hk1 by (by destruct i).
  rewrite !Forall_app, !Forall_singleton, !Exists_app, !Exists_cons, !Exists_nil. cbn [fst snd].
  destruct (item_class i) eqn:Hi.
  - destruct Hc as (e & -> & Hext & Hne & Hbe).
    cbn [add_supported scan_item rs_blocking_constraints rs_supported_destination_fields rs_extracted].
    rewrite ext_entries_append, ext_bytes_append.
    split; [done|]. split; [intros Hz; by split; [apply Hb|]|]. split; [lia|].
    split; [by right; left|]. split; [intros Hz; split; [apply Hu; lia|done]|].
    split; [|lia].
    intros w. pose proof (extracts_append _ _ _ _ _ _ _ _ (He w)
      (extracts_mono _ _ u' (item_counted i) 0 Hu' Hk (Hext w)) Hu0 ltac:(lia) ltac:(lia) ltac:(lia)) as Ha.
    rewrite Z.add_assoc in Ha. eapply extracts_iff; [|exact Ha].
    intros x. rewrite Exists_app, Exists_cons, Exists_nil. cbn. tauto.
  - subst s'. specialize (Hk1 ltac:(done)).
    cbn [scan_item rs_blocking_constraints rs_supported_destination_fields rs_extracted].
    split; [done|]. split; [intros Hz; by split; [apply Hb|]|]. split; [lia|].
    split; [intros Hz; left; by apply Hs|]. split; [lia|]. split; [|lia].
    intros w. apply extracts_snoc_other; [by rewrite Hi|].
    rewrite <- Z.add_assoc. apply extracts_mono; [done|lia|apply He].
  - subst s'. specialize (Hk1 ltac:(done)).
    cbn [add_blocking scan_item rs_blocking_constraints rs_supported_destination_fields rs_extracted].
    split; [lia|]. split; [lia|]. split; [lia|].
    split; [intros Hz; left; by apply Hs|]. split; [lia|]. split; [|lia].
    intros w. apply extracts_snoc_other; [by rewrite Hi|].
    rewrite <- Z.add_assoc. apply extracts_mono; [done|lia|apply He].
Qed.

(** ** Rules *)

(** An extraction of a rule, with the fields and rules left out and the room it takes. *)
Definition rule_read (m : Dest → Flow → Prop) (e : RuleExtraction) (u s n b : Z) : Prop :=
  0 ≤ u ∧ 0 ≤ s ∧ 0 ≤ n ∧ 0 ≤ b ∧ (∀ w, extracts e (λ x, m x w) u s) ∧
  ext_entries e ≤ n ∧ ext_bytes e ≤ b.

Lemma rule_read_none m u s n b :
  0 ≤ u → 0 ≤ n → 0 ≤ b → 0 < s → rule_read m no_extraction u s n b.
Proof.
  intros ????. unfold rule_read. split; [done|]. split; [lia|]. split; [done|]. split; [done|].
  split; [intros w; by apply extracts_none|]. by split.
Qed.

(** Without blocking items the rule is the disjunction of its items. *)
Lemma items_match_extracted items x w :
  Forall (λ i, item_class (i.1) ≠ Blocking) items → Exists (λ i, item_class (i.1) = Extracted) items →
  items_match items x w ↔ Exists (λ i, item_matches (i.1) (i.2) x w) items.
Proof.
  intros Hall Hex. unfold items_match.
  assert (filter is_blocking items = []) as ->.
  { clear Hex. induction Hall as [|i l Hi Hl IH]; [done|]. by rewrite filter_cons_False. }
  split; [|intros He; split; [by right|apply constraints_nil]].
  intros [[Hb|He] _]; [exfalso|done].
  apply Exists_exists in Hex as (i & Hi & Hc). rewrite Forall_forall in Hb.
  specialize (Hb i Hi). unfold is_blocking in Hb. congruence.
Qed.

Lemma spec_finish_rule items u n b s d :
  scan_ok items u n b s →
  spec (finish_rule s) d (λ e bs d', ∃ invert s', bs = [enc_bool invert] ∧
    advanced 0 s' 0 0 d d' ∧ rule_read (rule_matches (DefaultRule items invert)) e u s' n b).
Proof.
  intros (_ & _ & _ & Hb0 & Hb & Hs0 & Hs & Hu & He & Hu0 & Hn0 & Hbb0 & Hn & Hbb).
  unfold finish_rule. eapply spec_seq; [apply spec_read_bool|]. cbv beta.
  intros invert bs d1 _ (-> & Hd1). pose proof (grown_advanced _ _ _ _ (only_reads_calm _ _ Hd1)) as Ha.
  destruct invert.
  { apply spec_bind, spec_modify; [done..|]. apply spec_ret. exists true, 1. split; [done|].
    split; [|by apply rule_read_none]. destruct Ha as (E1 & E2 & E3 & E4). repeat split; cbn; lia. }
  destruct (_ || _) eqn:Hc.
  { apply spec_bind, spec_modify; [done..|]. apply spec_ret. exists false, 1. split; [done|].
    split; [|by apply rule_read_none]. destruct Ha as (E1 & E2 & E3 & E4). repeat split; cbn; lia. }
  bool_to_prop. apply spec_ret. exists false, 0. split; [done|]. split; [done|].
  split; [done|]. split; [done|]. split; [done|]. split; [done|]. split; [|done].
  intros w. cbn [rule_matches inverted].
  assert (Forall (λ i, item_class (i.1) ≠ Blocking) items) as Hnb by (apply Hb; lia).
  assert (Exists (λ i, item_class (i.1) = Extracted) items) as Hex by (apply Hs; lia).
  destruct (He w) as [Hsound Hcomplete]. split.
  - intros x Hx Hm. apply items_match_extracted; [done..|].
    eapply Exists_impl; [by apply Hsound|]. cbv beta. tauto.
  - intros Hu' _ x Hx Hm. apply Hcomplete; [done..|].
    apply items_match_extracted in Hm; [|done..]. apply Exists_exists in Hm as (i & Hi & Hm).
    apply Exists_exists. exists i. split; [done|]. split; [|done].
    specialize (Hu Hu'). rewrite Forall_forall in Hu, Hnb.
    specialize (Hu i Hi). specialize (Hnb i Hi). by destruct (item_class (i.1)).
Qed.

Lemma seen_bound (l : list Z) : NoDup l → Forall byte_ok l → (length l ≤ 256)%nat.
Proof.
  intros Hnd Hby. change 256%nat with (length byte_values).
  apply submseteq_length, NoDup_submseteq; [done|]. intros x Hx. rewrite Forall_forall in Hby.
  apply list_elem_of_In, elem_of_byte_values. by apply Hby.
Qed.

Lemma spec_default_rule_loop fuel items u n b s d :
  scan_ok items u n b s → (256 < fuel + length (rs_seen s))%nat →
  spec (default_rule_loop limits version fuel s) d (λ e bs d', ∃ more invert u' s' n' b',
    bs = concat (enc_item <$> more) ++ [final_item; enc_bool invert] ∧
    advanced u' s' n' b' d d' ∧
    rule_read (rule_matches (DefaultRule (items ++ more) invert)) e (u + u') s' (n + n') (b + b')).
Proof.
  revert items u n b s d. induction fuel as [|fuel IH]; intros items u n b s d Hok Hfuel.
  { pose proof Hok as (Hnd & Hby & _). pose proof (seen_bound _ Hnd Hby). lia. }
  cbn [default_rule_loop]. eapply spec_seq; [apply spec_read_byte|]. cbv beta.
  intros raw bs d1 _ (-> & Hraw & Hd1).
  pose proof (grown_advanced _ _ _ _ (only_reads_calm _ _ Hd1)) as Ha1.
  destruct (Z.eqb_spec raw final_item) as [->|Hne].
  - eapply spec_mono; [by apply spec_finish_rule|]. cbv beta.
    intros e bs d2 _ (invert & s' & -> & Ha2 & He). exists [], invert, 0, s', 0, 0.
    rewrite app_nil_r, !Z.add_0_r. split; [done|]. split; [|done].
    pose proof (advanced_trans _ _ _ _ _ _ _ _ _ _ _ Ha1 Ha2) as Ha. exact Ha.
  - apply spec_bind, spec_fail_if. intros _. apply spec_bind, spec_fail_if. intros Hfresh.
    apply bool_decide_eq_false in Hfresh. cbn [app].
    destruct (item_of_byte raw) as [i|] eqn:Hi; [|apply spec_invalid].
    eapply spec_seq; [apply spec_read_item|]. cbv beta.
    intros s1 bs d2 _ (f & u1 & n1 & b1 & -> & Hread & Ha2).
    destruct (scan_ok_item _ _ _ _ _ _ _ _ _ _ _ _ Hok Hfresh Hraw Hread) as [Hok' Hlen].
    apply spec_bind, spec_modify; [done..|]. cbn [app].
    eapply spec_mono; [apply (IH _ _ _ _ _ _ Hok'); lia|]. cbv beta.
    intros e bs d3 _ (more & invert & u2 & s2 & n2 & b2 & -> & Ha3 & He).
    exists ((i, f) :: more), invert, (u1 + item_counted i + u2), s2, (n1 + n2), (b1 + b2).
    split.
    { cbn [fmap list_fmap concat]. unfold enc_item at 2. cbn [fst snd app].
      rewrite (item_byte_of raw i Hi). by rewrite <- !app_assoc. }
    split.
    { destruct Ha1 as (E1 & E2 & E3 & E4), Ha2 as (F1 & F2 & F3 & F4), Ha3 as (G1 & G2 & G3 & G4).
      cbn in *. repeat split; lia. }
    rewrite <- app_assoc in He. cbn [app] in He.
    replace (u + (u1 + item_counted i + u2)) with (u + u1 + item_counted i + u2) by lia.
    by rewrite !Z.add_assoc.
Qed.

(** What reading the rest of a rule guarantees when [pre] has been read. *)
Definition reads_rest (pre : list Z) (m : D RuleExtraction) : Prop :=
  ∀ d, spec m d (λ e bs d', ∃ r u s n b, pre ++ bs = enc_rule r ∧
    advanced u s n b d d' ∧ rule_read (rule_matches r) e u s n b).

(** A list of rules, as the disjunction of its members. *)
Lemma rule_read_snoc (rs : list Rule) r e e' u s n b u' s' n' b' :
  rule_read (λ x w, Exists (λ r, rule_matches r x w) rs) e u s n b →
  rule_read (rule_matches r) e' u' s' n' b' →
  rule_read (λ x w, Exists (λ r, rule_matches r x w) (rs ++ [r]))
    (append_extraction e e') (u + u') (s + s') (n + n') (b + b').
Proof.
  intros (Hu & Hs & Hn & Hb & He & Hne & Hbe) (Hu' & Hs' & Hn' & Hb' & He' & Hne' & Hbe').
  unfold rule_read. rewrite ext_entries_append, ext_bytes_append.
  split; [lia|]. split; [lia|]. split; [lia|]. split; [lia|]. split; [|lia].
  intros w. eapply extracts_iff; [|by apply (extracts_append _ _ _ _ _ _ _ _ (He w) (He' w))].
  intros x. cbv beta. rewrite Exists_app, Exists_cons, Exists_nil. tauto.
Qed.

Lemma rule_read_empty : rule_read (λ x w, Exists (λ r, rule_matches r x w) []) no_extraction 0 0 0 0.
Proof.
  unfold rule_read. repeat (split; [done|]). split; [|done].
  intros w. split; [by intros x _ ?%ext_matches_none|]. by intros _ _ x _ ?%Exists_nil.
Qed.

(** The children of a logical rule, collected or passed over. *)
Definition children_read (keep : bool) (rs : list Rule) (e : RuleExtraction) (u s n b : Z) : Prop :=
  if keep then rule_read (λ x w, Exists (λ r, rule_matches r x w) rs) e u s n b
  else 0 ≤ u ∧ 0 ≤ s ∧ 0 ≤ n ∧ 0 ≤ b ∧ e = no_extraction.

Lemma spec_collect_rules keep (m : D RuleExtraction) k d :
  reads_rest [] m →
  spec (mfold (λ combined (_ : nat), child ← m;
          mret (if keep : bool then append_extraction combined child else combined))
        no_extraction (seq 0 k)) d
    (λ e bs d', ∃ rs, length rs = k ∧ ∃ u s n b, bs = concat (enc_rule <$> rs) ∧
      advanced u s n b d d' ∧ children_read keep rs e u s n b).
Proof.
  intros Hm. eapply spec_mono.
  - apply (spec_mfold _ _ _ _ _ (λ rs e bs d', ∃ u s n b, bs = concat (enc_rule <$> rs) ∧
      advanced u s n b d d' ∧ children_read keep rs e u s n b)).
    + exists 0, 0, 0, 0. split; [done|]. split; [apply advanced_refl|].
      destruct keep; [apply rule_read_empty|done].
    + cbv beta. intros rs e _ bs d' (u & s & n & b & -> & Ha & Hc).
      eapply spec_seq; [apply Hm|]. cbv beta. intros e' bs d'' _ (r & u' & s' & n' & b' & Henc & Ha' & Hr).
      cbn [app] in Henc. subst bs.
      apply spec_ret. exists r, (u + u'), (s + s'), (n + n'), (b + b').
      rewrite fmap_app, concat_app. cbn [fmap list_fmap concat]. rewrite !app_nil_r.
      split; [done|]. split; [by eapply advanced_trans|].
      destruct keep; [by apply rule_read_snoc|]. destruct Hr as (? & ? & ? & ? & _), Hc as (? & ? & ? & ? & ->).
      cbn. lia || (repeat split; lia || done).
  - cbv beta. intros e bs d' _ (rs & Hlen & Hrest). exists rs. by rewrite length_seq in Hlen.
Qed.

Lemma rule_read_iff (m m' : Dest → Flow → Prop) e u s n b :
  (∀ x w, m x w ↔ m' x w) → rule_read m e u s n b → rule_read m' e u s n b.
Proof.
  intros Hm (Hu & Hs & Hn & Hb & He & Hrest). unfold rule_read. repeat (split; [done|]).
  split; [|done]. intros w. eapply extracts_iff; [|apply He]. intros x. apply Hm.
Qed.

Lemma spec_read_logical_rule m : reads_rest [] m → reads_rest [1] (read_logical_rule limits m).
Proof.
  intros Hm d. unfold read_logical_rule. eapply spec_seq; [apply spec_read_byte|]. cbv beta.
  intros mode bs d1 _ (-> & Hmode & Hd1). apply spec_bind, spec_fail_if. intros Hle.
  apply Z.ltb_ge in Hle. unfold byte_ok in Hmode. cbn [app].
  eapply spec_seq; [apply spec_read_count|]. cbv beta. intros k bs d2 _ (-> & Hk & Hd2).
  apply spec_bind, spec_fail_if. intros Hk0. apply Z.eqb_neq in Hk0. cbn [app].
  eapply spec_seq; [by apply spec_collect_rules|]. cbv beta.
  intros e bs d3 _ (rs & Hlen & u & s & n & b & -> & Ha3 & Hc).
  eapply spec_seq; [apply spec_read_bool|]. cbv beta. intros invert bs d4 _ (-> & Hd4).
  pose proof (grown_advanced _ _ _ _ (only_reads_calm _ _ (only_reads_trans _ _ _ Hd1 Hd2))) as Ha12.
  pose proof (grown_advanced _ _ _ _ (only_reads_calm _ _ Hd4)) as Ha4.
  pose proof (advanced_trans _ _ _ _ _ _ _ _ _ _ _ (advanced_trans _ _ _ _ _ _ _ _ _ _ _ Ha12 Ha3) Ha4) as Ha.
  rewrite !Z.add_0_r, !Z.add_0_l in Ha. clear Ha12 Ha3 Ha4.
  assert (1 :: mode :: enc_uvarint k ++ concat (enc_rule <$> rs) ++ [enc_bool invert]
    = enc_rule (LogicalRule (mode =? 1) rs invert)) as Henc.
  { cbn [enc_rule]. rewrite Hlen, Z2Nat.id by lia. assert (mode = 0 ∨ mode = 1) as [-> | ->] by lia; done. }
  assert (0 ≤ u ∧ 0 ≤ s ∧ 0 ≤ n ∧ 0 ≤ b) as (Hu & Hs & Hn & Hb).
  { unfold children_read in Hc. destruct (_ || _); [|tauto]. destruct Hc as (?&?&?&?&_). done. }
  set (r := LogicalRule (mode =? 1) rs invert) in *.
  destruct invert.
  { apply spec_bind, spec_modify; [done..|]. apply spec_ret. exists r, u, (s + 1), n, b.
    rewrite <- Henc. rewrite !app_nil_r. split; [done|]. split; [|apply rule_read_none; lia].
    destruct Ha as (E1 & E2 & E3 & E4). repeat split; cbn; lia. }
  destruct ((mode =? 0) && negb (k =? 1)) eqn:Hand.
  { apply spec_bind, spec_modify; [done..|]. apply spec_ret. exists r, u, (s + 1), n, b.
    rewrite <- Henc. rewrite !app_nil_r. split; [done|]. split; [|apply rule_read_none; lia].
    destruct Ha as (E1 & E2 & E3 & E4). repeat split; cbn; lia. }
  apply spec_ret. exists r, u, s, n, b. rewrite <- Henc. rewrite !app_nil_r.
  split; [done|]. split; [done|]. unfold children_read in Hc.
  assert (mode = 1 ∨ (mode = 0 ∧ k = 1)) as Hmk.
  { destruct (Z.eqb_spec mode 0), (Z.eqb_spec k 1); cbn in Hand; lia || done. }
  assert ((mode =? 1) || (k =? 1) = true) as Hkeep.
  { apply orb_true_iff. rewrite !Z.eqb_eq. lia. }
  rewrite Hkeep in Hc. eapply rule_read_iff; [|exact Hc]. intros x w. subst r. cbn [rule_matches inverted].
  destruct Hmk as [-> |[-> ->]]; cbn [Z.eqb Pos.eqb].
  - by rewrite fold_or.
  - rewrite fold_and. destruct rs as [|r [|]]; try discriminate Hlen.
    rewrite Exists_cons, Exists_nil, Forall_singleton. tauto.
Qed.

Lemma spec_read_default_rule : reads_rest [0] (read_default_rule limits version).
Proof.
  intros d. unfold read_default_rule.
  eapply spec_mono; [apply spec_default_rule_loop; [apply scan_ok_start|cbn; lia]|]. cbv beta.
  intros e bs d' _ (items & invert & u & s & n & b & -> & Ha & Hr).
  by exists (DefaultRule items invert), u, s, n, b.
Qed.

Lemma spec_enter_rule d : spec (enter_rule limits) d (λ _ bs d', bs = [] ∧ calm d d').
Proof.
  unfold enter_rule. apply spec_get, spec_bind, spec_fail_if. intros _.
  apply spec_modify; [done|done|]. split; [done|]. repeat split; cbn; lia.
Qed.

Lemma spec_read_rule fuel depth :
  depth ≤ max_logical_depth limits + 1 → max_logical_depth limits + 1 - depth < Z.of_nat fuel →
  reads_rest [] (read_rule limits version fuel depth).
Proof.
  revert depth. induction fuel as [|fuel IH]; intros depth Hd Hf d; [lia|]. cbn [read_rule].
  apply spec_bind, spec_fail_if. intros Hdepth. apply Z.ltb_ge in Hdepth.
  eapply spec_seq; [apply spec_enter_rule|]. cbv beta. intros _ bs d1 _ [-> Hd1].
  eapply spec_seq; [apply spec_read_byte|]. cbv beta. intros type bs d2 _ (-> & _ & Hd2). cbn [app].
  pose proof (grown_advanced _ _ _ _ (calm_trans _ _ _ Hd1 (only_reads_calm _ _ Hd2))) as Ha.
  assert (∀ m, reads_rest [type] m → spec m d2 (λ e bs d', ∃ r u s n b, type :: bs = enc_rule r ∧
    advanced u s n b d d' ∧ rule_read (rule_matches r) e u s n b)) as Hrest.
  { intros m Hm. eapply spec_mono; [apply Hm|]. cbv beta.
    intros e bs d3 _ (r & u & s & n & b & Henc & Ha' & Hr). exists r, u, s, n, b. split; [done|].
    split; [|done]. exact (advanced_trans _ _ _ _ _ _ _ _ _ _ _ Ha Ha'). }
  destruct (Z.eqb_spec type 0) as [->|]; [apply Hrest, spec_read_default_rule|].
  destruct (Z.eqb_spec type 1) as [->|]; [|apply spec_invalid].
  apply Hrest, spec_read_logical_rule, IH; lia.
Qed.

(** ** The decoder *)

(** What a list extracted from a rule set guarantees. *)
Definition decoded (rs : list Rule) (r : SrsDecodeResult) : Prop :=
  (∀ x w, dest_ok x → result_matches r x → rule_set_matches rs x w) ∧
  (unsupported_fields r = 0 → skipped_rules r = 0 →
   ∀ x w, dest_ok x → rule_set_matches rs x w → result_matches r x) ∧
  Z.of_nat (length (res_domains r) + length (res_domain_suffixes r) + length (res_ip_cidrs r))
    ≤ max_output_entries limits ∧
  Z.of_nat (texts_weight length (res_domains r) (res_domain_suffixes r)) + text_bytes (res_ip_cidrs r)
    ≤ max_output_string_bytes limits ∧
  res_version r = version.

Lemma sum_ones {A} (l : list A) : sum_list_with (λ _, 1%nat) l = length l.
Proof. induction l; cbn; lia. Qed.

Lemma sort_unique_length l : (length (sort_unique l) ≤ length l)%nat.
Proof. rewrite <- !sum_ones. apply sort_unique_weight. Qed.

Lemma sort_unique_text_weight f l :
  (sum_list_with f (sort_unique_text l) ≤ sum_list_with f l)%nat.
Proof.
  unfold sort_unique_text. etrans; [apply unique_adjacent_weight|].
  by rewrite (sum_list_with_perm f _ _ (stable_sort_perm _ l)).
Qed.

Lemma sort_unique_text_length l : (length (sort_unique_text l) ≤ length l)%nat.
Proof. rewrite <- !sum_ones. apply sort_unique_text_weight. Qed.

Lemma spec_clean_end (d : Dec) :
  spec (on_reader require_clean_end) d (λ _ bs d', bs = [] ∧ at_end (reader_ d') ∧ only_reads d d').
Proof.
  intros Hd. unfold on_reader, wp. pose proof (clean_end_spec (reader_ d) (proj1 Hd)) as Hr.
  unfold wp in Hr. destruct (require_clean_end (reader_ d)) as [r [[]|e]]; [|done].
  destruct Hr as (Hr & Hok & Hend). exists []. split; [done|]. split; [by split; [|apply Hd]|].
  split; [constructor|done].
Qed.

Lemma decoded_of rs e u s n b d0 d' :
  d0 = new_decoder (reader_ d0) → dec_ok limits d' → advanced u s n b d0 d' →
  rule_read (λ x w, Exists (λ r, rule_matches r x w) rs) e u s n b →
  decoded rs {| res_version := version;
                res_domains := sort_unique (ex_domains e);
                res_domain_suffixes := sort_unique (ex_suffixes e);
                res_ip_cidrs := sort_unique_text (ex_cidrs e);
                unsupported_fields := unsupported_fields (result_ d');
                skipped_rules := skipped_rules (result_ d');
                inverted_rules := inverted_rules (result_ d') |}.
Proof.
  intros H0' (_ & _ & _ & Hn' & Hb') (E1 & E2 & E3 & E4) (Hu & Hs & Hn & Hb & He & Hne & Hbe).
  rewrite H0' in E1, E2, E3, E4. cbn in E1, E2, E3, E4. unfold decoded. cbn [res_domains
    res_domain_suffixes res_ip_cidrs unsupported_fields skipped_rules res_version].
  assert (∀ x, result_matches {| res_version := version;
                res_domains := sort_unique (ex_domains e);
                res_domain_suffixes := sort_unique (ex_suffixes e);
                res_ip_cidrs := sort_unique_text (ex_cidrs e);
                unsupported_fields := unsupported_fields (result_ d');
                skipped_rules := skipped_rules (result_ d');
                inverted_rules := inverted_rules (result_ d') |} x ↔ ext_matches e x) as Hm.
  { intros [dom|a]; unfold result_matches, ext_matches, texts_match, extraction_domain; cbn.
    - setoid_rewrite sort_unique_elem. done.
    - setoid_rewrite sort_unique_text_elem. done. }
  split; [intros x w Hx Hr; by apply (He w), Hm|].
  split; [intros Hu0 Hs0 x w Hx Hr; apply Hm, (He w); [lia|lia|done|done]|].
  unfold ext_entries, ext_bytes, texts_weight, text_bytes in *.
  pose proof (sort_unique_length (ex_domains e)). pose proof (sort_unique_length (ex_suffixes e)).
  pose proof (sort_unique_text_length (ex_cidrs e)).
  pose proof (sort_unique_weight length (ex_domains e)). pose proof (sort_unique_weight length (ex_suffixes e)).
  pose proof (sort_unique_text_weight String.length (ex_cidrs e)).
  split; [lia|]. split; [lia|done].
Qed.

(** Decoding rejects its input or returns what the rule set it has read says. *)
Lemma spec_decode reader :
  0 ≤ max_logical_depth limits → reader_ok reader →
  wp (decode limits version) (λ r d', ∃ rs, reads reader (enc_rule_set rs) (reader_ d') ∧
      at_end (reader_ d') ∧ decoded rs r)
    (λ e _, e = SrsInvalid) (new_decoder reader).
Proof.
  intros Hdepth Hr. set (d := new_decoder reader).
  assert (dec_ok limits d) as Hd.
  { split; [done|]. assert (∀ f, f ∈ limit_fields limits → 0 ≤ 0 ≤ f) as Hl.
    { intros f Hf. pose proof (limit_range limits Hlimits f Hf). lia. }
    split; [|split; [|split]]; apply Hl; unfold limit_fields; rewrite !elem_of_cons; tauto. }
  assert (spec (decode limits version) d (λ r bs d', ∃ rs u s n b e,
      bs = enc_rule_set rs ∧ at_end (reader_ d') ∧ advanced u s n b d d' ∧
      rule_read (λ x w, Exists (λ r, rule_matches r x w) rs) e u s n b ∧
      r = {| res_version := version;
             res_domains := sort_unique (ex_domains e);
             res_domain_suffixes := sort_unique (ex_suffixes e);
             res_ip_cidrs := sort_unique_text (ex_cidrs e);
             unsupported_fields := unsupported_fields (result_ d');
             skipped_rules := skipped_rules (result_ d');
             inverted_rules := inverted_rules (result_ d') |})) as Hspec.
  { unfold decode. eapply spec_seq; [apply spec_read_count|]. cbv beta.
    intros k bs d1 _ (-> & Hk & Hd1).
    eapply spec_seq; [apply (spec_collect_rules true); apply spec_read_rule; unfold rule_fuel; lia|].
    cbv beta. intros e bs d2 _ (rs & Hlen & u & s & n & b & -> & Ha & Hc).
    eapply spec_seq; [apply spec_clean_end|]. cbv beta. intros _ bs d3 _ (-> & Hend & Hd3).
    apply spec_get, spec_ret. exists rs, u, s, n, b, e. rewrite !app_nil_r.
    split; [unfold enc_rule_set, enc_list; by rewrite Hlen, Z2Nat.id by lia|]. split; [done|].
    split; [|split; [exact Hc|done]].
    pose proof (grown_advanced _ _ _ _ (only_reads_calm _ _ Hd1)) as Ha1.
    pose proof (grown_advanced _ _ _ _ (only_reads_calm _ _ Hd3)) as Ha3.
    pose proof (advanced_trans _ _ _ _ _ _ _ _ _ _ _ (advanced_trans _ _ _ _ _ _ _ _ _ _ _ Ha1 Ha) Ha3) as Hall.
    by rewrite !Z.add_0_r, !Z.add_0_l in Hall. }
  eapply wp_mono; [exact (Hspec Hd)| |done].
  cbv beta. intros r d' (bs & Hreads & Hok & _ & rs & u & s & n & b & e & -> & Hend & Ha & Hrr & ->).
  exists rs. split; [done|]. split; [done|]. by eapply (decoded_of rs e u s n b d).
Qed.
End Rules.

(** ** Running the decoder on a file *)

Lemma decode_srs_run `{SizeT} `{ZlibLaws} `{RuleLanguage} input limits :
  limits_wf limits →
  match decode_srs input limits with
  | Ok r => ∃ version body rs, input = kMagic ++ version :: body ∧
      kMinVersion ≤ version ≤ kMaxVersion ∧ decompresses body (enc_rule_set rs) ∧
      decoded limits version rs r
  | Throw e => e = SrsInvalid ∨ ∃ version, e = SrsUnsupportedVersion version ∧ kMaxVersion < version
  end.
Proof.
  intros Hlimits. unfold decode_srs.
  destruct input as [|m0 [|m1 [|m2 [|version source]]]]; [by left..|].
  case_bool_decide as Hmagic; [|by left]. cbn [negb].
  destruct (Z.ltb_spec version kMinVersion); [by left|].
  destruct (Z.ltb_spec kMaxVersion version); [right; by exists version|].
  destruct (existsb _ _); [by left|].
  destruct (Z.ltb_spec u32_max (max_trie_nodes limits)) as [|Hnodes]; [by left|].
  destruct (open_reader source) as [reader|e] eqn:Hopen; cbn [rbind].
  2: { left. unfold open_reader in Hopen. by destruct inflateInit; simplify_eq. }
  assert (0 ≤ max_logical_depth limits) as Hdepth.
  { apply (limit_range limits Hlimits). unfold limit_fields. rewrite !elem_of_cons. tauto. }
  pose proof (opened_reader_ok limits Hlimits source reader Hopen) as Hok.
  pose proof (@spec_decode _ _ (inflate_byte_reader limits) (inflate_reader_laws limits Hlimits) _
    limits version Hlimits Hnodes reader Hdepth Hok) as Hd.
  unfold wp in Hd. destruct (decode _ _ _) as [d' [r|e]]; cbn [snd]; [|by left].
  destruct Hd as (rs & Hreads & Hend & Hdec). exists version, source, rs.
  injection Hmagic as -> -> ->. split; [done|]. split; [lia|]. split; [|done].
  eapply opened_reader_payload; [exact Hopen|exact Hreads|exact Hend].
Qed.

(** ** A zlib for the witnesses *)

Inductive Stored := StoredStart | StoredCopy (n : nat) | StoredEnd.

Definition Z_BUF_ERROR : Z := -5.

Definition stored_inflate (z : Stored) (avail : list Z) (room : nat) : Stored * nat * list Z * Z :=
  match z with
  | StoredStart =>
      match avail with
      | [] => (z, 0%nat, [], Z_BUF_ERROR)
      | b :: _ =>
          if (Z.to_nat b =? 0)%nat then (StoredEnd, 1%nat, [], Z_STREAM_END)
          else (StoredCopy (Z.to_nat b), 1%nat, [], Z_OK)
      end
  | StoredCopy n =>
      let k := Nat.min n (Nat.min (length avail) room) in
      let out := (λ b, b mod 256) <$> take k avail in
      if (k =? n)%nat then (StoredEnd, k, out, Z_STREAM_END)
      else if (k =? 0)%nat then (z, 0%nat, [], Z_BUF_ERROR)
      else (StoredCopy (n - k), k, out, Z_OK)
  | StoredEnd => (z, 0%nat, [], Z_BUF_ERROR)
  end.

#[export] Instance stored_zlib : Zlib :=
  {| zstate := Stored; inflateInit := Some StoredStart; inflate := stored_inflate |}.

Definition stored_decompresses (inp out : list Z) : Prop :=
  ∃ b data, inp = b :: data ∧ length data = Z.to_nat b ∧ out = (λ b, b mod 256) <$> data.

(** The calls made so far on a stored stream. *)
Definition stored_state (inp out : list Z) (fin : bool) (z : Stored) : Prop :=
  match z with
  | StoredStart => inp = [] ∧ out = [] ∧ fin = false
  | StoredCopy n => ∃ b data, inp = b :: data ∧ (length data + n = Z.to_nat b)%nat ∧
      out = (λ b, b mod 256) <$> data ∧ fin = false
  | StoredEnd => stored_decompresses inp out
  end.

Lemma stored_inflates inp out fin (z : Stored) :
  @inflates stored_zlib StoredStart inp out fin z → stored_state inp out fin z.
Proof.
  intros Hi. remember (StoredStart : @zstate stored_zlib) as z0 eqn:Hz0.
  induction Hi as [z|z inp out fin z' avail room z'' n bs st Hr IH Hf Hi].
  { by subst z. }
  specialize (IH Hz0). subst fin. destruct z' as [|m|]; cbn in Hi.
  - destruct IH as (-> & -> & _). destruct avail as [|b avail]; [by simplify_eq|].
    destruct (Nat.eqb_spec (Z.to_nat b) 0) as [Hb|Hb]; simplify_eq; cbn; rewrite take_0.
    + by exists b, [].
    + by exists b, [].
  - destruct IH as (b & data & -> & Hlen & -> & _).
    set (k := Nat.min m (Nat.min (length avail) room)) in *.
    destruct (Nat.eqb_spec k m) as [Hk|Hk]; [|destruct (Nat.eqb_spec k 0)]; simplify_eq; cbn.
    + eexists b, _. split; [reflexivity|]. rewrite length_app, length_take, fmap_app.
      split; [lia|done].
    + rewrite take_0, app_nil_r. by exists b, data; rewrite app_nil_r.
    + eexists b, _. split; [reflexivity|]. rewrite length_app, length_take, fmap_app.
      split; [lia|done].
  - simplify_eq. by rewrite take_0, !app_nil_r.
Qed.

#[export] Instance stored_zlib_laws : ZlibLaws.
Proof.
  assert (∀ l, Forall byte_ok ((λ b, b mod 256) <$> l)) as Hby.
  { intros l. apply Forall_fmap, Forall_forall. intros x _. apply Z.mod_pos_bound. lia. }
  refine {| decompresses := stored_decompresses |}.
  - intros [|m|] avail room z' n bs st; cbn; [destruct avail; [|destruct (_ =? _)%nat]| |];
      intros Heq; simplify_eq; cbn; try lia. repeat case_match; simplify_eq; lia.
  - intros [|m|] avail room z' n bs st; cbn; [destruct avail; [|destruct (_ =? _)%nat]| |];
      intros Heq; simplify_eq; cbn; try (by split; [lia|constructor]).
    repeat case_match; simplify_eq; (split; [rewrite ?length_fmap, ?length_take; cbn; lia|]);
      first [apply Hby|constructor].
  - intros [|m|] avail room z' n bs st; cbn; [destruct avail; [|destruct (_ =? _)%nat]| |];
      unfold Z_OK, Z_STREAM_END, Z_BUF_ERROR; intros Heq Hst; simplify_eq; try (left; lia).
    repeat case_match; simplify_eq; left.
    repeat match goal with H : (_ =? _)%nat = false |- _ => apply Nat.eqb_neq in H end. lia.
  - intros z0 inp out z [= <-] Hi. pose proof (stored_inflates _ _ _ _ Hi) as Hs.
    destruct z as [|n|]; cbn in Hs; [naive_solver|naive_solver|done].
Defined.

#[export] Instance size64 : SizeT := {| size_bits := 64; size_bits_range := ltac:(lia) |}.

(** A language without alternatives, in which every other item is a constraint that never
    holds. *)
#[export] Instance plain_language : RuleLanguage :=
  {| Flow := unit; alternative := λ _ _ _ _, False; constraints := λ l _ _, l = [];
     constraints_nil := λ _ _, eq_refl |}.

(** ** Properties *)

(** C18. A rule set never comes out broader than it went in. When decode_srs returns, the
    file is the magic number, a supported version and a zlib stream that decompresses to
    the encoding of some rule set, with nothing behind it. Every destination matched by the
    extracted domains, suffixes and CIDR texts (as the address lists of keen-pbr read
    them) is matched by that rule set, whatever the rest of the connection and whatever the
    items mean that the decoder cannot represent. And if the result counts no omitted
    field and no skipped rule, the extracted list matches exactly what the rule set does. *)
Theorem srs_decode_faithful `{SizeT} `{ZlibLaws} `{RuleLanguage} input limits r :
  limits_wf limits → decode_srs input limits = Ok r →
  ∃ version body rs,
    input = kMagic ++ version :: body ∧ kMinVersion ≤ version ≤ kMaxVersion ∧
    decompresses body (enc_rule_set rs) ∧
    (∀ x w, dest_ok x → result_matches r x → rule_set_matches rs x w) ∧
    (unsupported_fields r = 0 → skipped_rules r = 0 →
     ∀ x w, dest_ok x → result_matches r x ↔ rule_set_matches rs x w).
Proof.
  intros Hlimits Hr. pose proof (decode_srs_run input limits Hlimits) as Hrun. rewrite Hr in Hrun.
  destruct Hrun as (version & body & rs & Hin & Hv & Hz & Hsound & Hcomplete & _).
  exists version, body, rs. split; [done|]. split; [done|]. split; [done|]. split; [done|].
  intros Hu Hs x w Hx. split; [by apply Hsound|by apply Hcomplete].
Qed.

(** An outcome of the decoder: a failure is a rejected input or a version that is too new,
    and a result keeps within the limits for entries and for the bytes of their texts. *)
Definition outcome_ok (limits : SrsDecodeLimits) (o : result SrsDecodeError SrsDecodeResult) : Prop :=
  match o with
  | Ok r =>
      Z.of_nat (length (res_domains r) + length (res_domain_suffixes r) + length (res_ip_cidrs r))
        ≤ max_output_entries limits ∧
      Z.of_nat (sum_list_with length (res_domains r) + sum_list_with length (res_domain_suffixes r)
                + sum_list_with String.length (res_ip_cidrs r))
        ≤ max_output_string_bytes limits
  | Throw e =>
      e ≠ SrsOutOfFuel ∧ e ≠ SrsOutOfRange ∧
      (e = SrsInvalid ∨ ∃ version, e = SrsUnsupportedVersion version ∧ kMaxVersion < version)
  end.

(** C19. decode_srs is total and safe on every input, every limit and every width of
    [std::size_t]: no loop of the reader, the trie walk, the range splitting or the rule
    recursion runs out of its rounds, no vector, key or address is accessed out of range,
    a failure is a rejected input or a version above 5, and what is returned keeps within
    the limits for entries and for the bytes of their texts. *)
Theorem srs_decode_total `{SizeT} `{ZlibLaws} input limits :
  limits_wf limits → outcome_ok limits (decode_srs input limits).
Proof.
  intros Hlimits. pose proof (@decode_srs_run _ _ _ plain_language input limits Hlimits) as Hrun.
  destruct (decode_srs input limits) as [r|e].
  - destruct Hrun as (_ & _ & rs & _ & _ & _ & _ & _ & Hn & Hb & _). split; [done|].
    unfold texts_weight, text_bytes in Hb. lia.
  - destruct Hrun as [->|(v & -> & Hv)]; [by split; [|split; [|left]]|].
    split; [done|]. split; [done|]. right. by exists v.
Qed.

(** C37. The CIDR blocks of an IP set are its ranges. Over any reader, read_ip_set rejects
    its input or has read the encoding of well-formed ranges and returns texts which, read
    back by the parsers of the address lists, cover exactly the addresses of the ranges;
    for every range they are the blocks of its canonical cover: one after the other, each
    the largest aligned block that fits. *)
Theorem srs_ranges_exact `{SizeT} {R} `{ByteReaderLaws R} limits (d : Decoder (R := R)) :
  limits_wf limits → dec_ok limits d →
  wp (read_ip_set limits true)
    (λ cidrs d', ∃ rs blocks, reads (reader_ d) (enc_ip_set rs) (reader_ d') ∧
       Forall range_ok rs ∧ cidrs = block_text <$> blocks ∧ set_blocks rs blocks ∧
       ∀ a, address_ok a →
         (∃ c, c ∈ cidrs ∧ cidr_covers c a = true) ↔ (∃ r, r ∈ rs ∧ in_range_of a r))
    (λ e _, e = SrsInvalid) d.
Proof.
  intros Hlimits Hd. eapply wp_mono; [exact (spec_read_ip_set limits Hlimits true d Hd)| |done].
  cbv beta. intros cidrs d' (bs & Hr & _ & _ & rs & blocks & -> & Hrs & -> & Hb & _).
  exists rs, blocks. split; [done|]. split; [done|]. split; [done|]. split; [done|].
  intros a Ha. by apply set_blocks_cover.
Qed.

(** ** Witnesses *)

(** A version 1 file with one rule: the domain "ab" (labels "b", "a" below the root) or an
    address between 10.0.0.1 and 10.0.0.6. *)
Definition example_ranges : list Z :=
  [1; 0; 0; 0; 0; 0; 0; 0; 1; 4; 10; 0; 0; 1; 4; 10; 0; 0; 6].

Definition example_payload : list Z :=
  [1; 0; 2; 0; 1; 0; 0; 0; 0; 0; 0; 0; 4; 1; 0; 0; 0; 0; 0; 0; 0; 26; 2; 98; 97; 6]
  ++ example_ranges ++ [255; 0].

Definition example_file : list Z := [0x53; 0x52; 0x53; 1; 47] ++ example_payload.

Definition example_result : SrsDecodeResult := {|
  res_version := 1; res_domains := [[97; 98]]; res_domain_suffixes := [];
  res_ip_cidrs := ["10.0.0.1/32"; "10.0.0.2/31"; "10.0.0.4/31"; "10.0.0.6/32"]%string;
  unsupported_fields := 0; skipped_rules := 0; inverted_rules := 0 |}.

Lemma default_limits_wf : limits_wf default_limits.
Proof. unfold limits_wf. repeat (apply List.Forall_cons; [by vm_compute; split|]). apply List.Forall_nil. Qed.

Lemma srs_decode_faithful_witness :
  decode_srs example_file default_limits = Ok example_result ∧
  ∃ version body rs,
    example_file = kMagic ++ version :: body ∧ kMinVersion ≤ version ≤ kMaxVersion ∧
    decompresses body (enc_rule_set rs) ∧
    (∀ x w, dest_ok x → result_matches example_result x → rule_set_matches rs x w) ∧
    (unsupported_fields example_result = 0 → skipped_rules example_result = 0 →
     ∀ x w, dest_ok x → result_matches example_result x ↔ rule_set_matches rs x w).
Proof.
  assert (decode_srs example_file default_limits = Ok example_result) as Hr
    by (vm_compute; reflexivity).
  split; [exact Hr|].
  exact (srs_decode_faithful example_file default_limits example_result default_limits_wf Hr).
Defined.

(** Cut off in the middle, the file is rejected. *)
Lemma srs_decode_total_witness :
  decode_srs (take 20 example_file) default_limits = Throw SrsInvalid ∧
  outcome_ok default_limits (decode_srs (take 20 example_file) default_limits).
Proof.
  split; [vm_compute; reflexivity|].
  exact (srs_decode_total (take 20 example_file) default_limits default_limits_wf).
Defined.

(** A decoder on the stored stream of the ranges alone. *)
Definition example_decoder : Decoder (R := InflateReader) :=
  new_decoder {| ir_source := 19 :: example_ranges; ir_stream := StoredStart; ir_avail_in := [];
                 ir_input_eof := false; ir_stream_finished := false; ir_compressed_bytes := 0;
                 ir_decompressed_bytes := 0; ir_output := [] |}.

Lemma example_decoder_ok :
  @dec_ok _ (inflate_byte_reader default_limits)
    (inflate_reader_laws default_limits default_limits_wf) default_limits example_decoder.
Proof.
  split; [exact (opened_reader_ok default_limits default_limits_wf (19 :: example_ranges) _ eq_refl)|].
  by vm_compute.
Qed.

Lemma srs_ranges_exact_witness :
  let H := inflate_byte_reader default_limits in
  let H' := inflate_reader_laws default_limits default_limits_wf in
  (read_ip_set default_limits true example_decoder).2 =
    Ok ["10.0.0.1/32"; "10.0.0.2/31"; "10.0.0.4/31"; "10.0.0.6/32"]%string ∧
  wp (read_ip_set default_limits true)
    (λ cidrs d', ∃ rs blocks, reads (reader_ example_decoder) (enc_ip_set rs) (reader_ d') ∧
       Forall range_ok rs ∧ cidrs = block_text <$> blocks ∧ set_blocks rs blocks ∧
       ∀ a, address_ok a →
         (∃ c, c ∈ cidrs ∧ cidr_covers c a = true) ↔ (∃ r, r ∈ rs ∧ in_range_of a r))
    (λ e _, e = SrsInvalid) example_decoder.
Proof.
  intros H H'. split; [vm_compute; reflexivity|].
  exact (srs_ranges_exact default_limits example_decoder default_limits_wf example_decoder_ok).
Defined.
