(* ===== verification/Lifecycle.v ===== *)
(** * Lifecycle of the runtime

    src/src/runtime/runtime_state_machine.cpp: the states of the runtime and the moves
    between them. src/src/runtime/lifecycle_operation.{hpp,cpp}: the single operation
    (apply, start, stop, restart) whose stages the status page shows, the store it is
    published in and the coordinator that admits it. src/src/util/
    bounded_operation_admission.hpp: the counter of expensive operations. Every operation
    runs under a mutex and is one step; [finish] takes its mutex twice and is two. *)

From Stdlib Require Import ZArith Lia Ascii String.
From stdpp Require Import base strings list.
From S2P Require Import Prelude StateError.
Open Scope Z_scope.

(** ** The states of the runtime *)

Inductive RuntimeState :=
| starting | running | restart_required | applying | stopped | broken | shutting_down.

#[export] Instance RuntimeState_eq_dec : EqDecision RuntimeState.
Proof. solve_decision. Defined.

Definition runtime_state_name (s : RuntimeState) : string :=
  match s with
  | starting => "starting" | running => "running" | restart_required => "restart_required"
  | applying => "applying" | stopped => "stopped" | broken => "broken"
  | shutting_down => "shutting_down"
  end.

Record RuntimeStateMachine := { rsm_state : RuntimeState; rsm_reason : string }.

Definition transition_allowed (state_ next : RuntimeState) : bool :=
  match state_, next with
  | starting, (running | stopped | broken | shutting_down)
  | running, (applying | restart_required | stopped | broken | shutting_down)
  | restart_required, (applying | stopped | broken | shutting_down)
  | applying, (running | broken | stopped)
  | stopped, (starting | applying | broken | shutting_down)
  | broken, (starting | applying | stopped | shutting_down)
  | shutting_down, stopped => true
  | _, _ => false
  end.

(** The result, and the text written to [error] when there is none. *)
Definition transition (next : RuntimeState) (reason : string) (m : RuntimeStateMachine)
    : RuntimeStateMachine * option string :=
  if transition_allowed (rsm_state m) next
  then ({| rsm_state := next; rsm_reason := reason |}, None)
  else (m, Some ("invalid runtime transition: " +:+ runtime_state_name (rsm_state m) +:+ " -> "
                 +:+ runtime_state_name next)).

(** ** Operations *)

Inductive LifecycleOperationType := ApplyConfig | Start | Stop | Restart.
Inductive LifecycleOperationStatus := Pending | Running | Succeeded | Failed | Skipped.
Inductive LifecycleOperationResult := ResultRunning | ResultSucceeded | ResultFailed.

#[export] Instance LifecycleOperationStatus_eq_dec : EqDecision LifecycleOperationStatus.
Proof. solve_decision. Defined.

Record LifecycleOperationStage := {
  st_id : string;
  st_title : string;
  st_status : LifecycleOperationStatus;
  st_detail : string
}.

Record LifecycleOperationSnapshot := {
  op_id : string;
  op_type : LifecycleOperationType;
  op_result : LifecycleOperationResult;
  op_started_at : Z;
  op_finished_at : option Z;
  op_error : string;
  op_stages : list LifecycleOperationStage
}.

Definition set_status (status : LifecycleOperationStatus) (detail : option string)
    (s : LifecycleOperationStage) : LifecycleOperationStage :=
  {| st_id := st_id s; st_title := st_title s; st_status := status;
     st_detail := default (st_detail s) detail |}.

Definition set_stages (stages : list LifecycleOperationStage) (error : string)
    (o : LifecycleOperationSnapshot) : LifecycleOperationSnapshot :=
  {| op_id := op_id o; op_type := op_type o; op_result := op_result o;
     op_started_at := op_started_at o; op_finished_at := op_finished_at o;
     op_error := error; op_stages := stages |}.

(** The loops with [break]: the first stage that satisfies [p] is changed. *)
Fixpoint update_first_stage (p : LifecycleOperationStage → bool)
    (f : LifecycleOperationStage → LifecycleOperationStage) (l : list LifecycleOperationStage)
    : list LifecycleOperationStage :=
  match l with
  | [] => []
  | s :: l => if p s then f s :: l else s :: update_first_stage p f l
  end.

Definition is_status (status : LifecycleOperationStatus) (s : LifecycleOperationStage) : bool :=
  bool_decide (st_status s = status).

(** The loop that skips what is still pending. *)
Definition skip_pending (l : list LifecycleOperationStage) : list LifecycleOperationStage :=
  (λ s, if is_status Pending s then set_status Skipped None s else s) <$> l.

(** The lambdas given to [mutate]. [start_stage] looks only at the first stage of the name. *)
Definition start_stage_of (stage_id : string) (o : LifecycleOperationSnapshot)
    : LifecycleOperationSnapshot :=
  set_stages (update_first_stage (λ s, String.eqb (st_id s) stage_id)
    (λ s, if is_status Pending s then set_status Running None s else s) (op_stages o)) (op_error o) o.

Definition succeed_stage_of (stage_id detail : string) (o : LifecycleOperationSnapshot)
    : LifecycleOperationSnapshot :=
  set_stages (update_first_stage (λ s, String.eqb (st_id s) stage_id && is_status Running s)
    (set_status Succeeded (Some detail)) (op_stages o)) (op_error o) o.

Definition fails (stage_id : string) (s : LifecycleOperationStage) : bool :=
  String.eqb (st_id s) stage_id && (is_status Pending s || is_status Running s).

Definition fail_stage_of (stage_id detail : string) (o : LifecycleOperationSnapshot)
    : LifecycleOperationSnapshot :=
  set_stages (skip_pending (update_first_stage (fails stage_id) (set_status Failed (Some detail)) (op_stages o)))
    (if existsb (fails stage_id) (op_stages o) then detail else op_error o) o.

Definition skip_stage_of (stage_id detail : string) (o : LifecycleOperationSnapshot)
    : LifecycleOperationSnapshot :=
  set_stages (update_first_stage (λ s, String.eqb (st_id s) stage_id && is_status Pending s)
    (set_status Skipped (Some detail)) (op_stages o)) (op_error o) o.

Definition finish_of (error : string) (now : Z) (o : LifecycleOperationSnapshot)
    : LifecycleOperationSnapshot :=
  let error := if empty_str error then op_error o else error in
  {| op_id := op_id o; op_type := op_type o;
     op_result := if empty_str error then ResultSucceeded else ResultFailed;
     op_started_at := op_started_at o; op_finished_at := Some now;
     op_error := error; op_stages := skip_pending (op_stages o) |}.

(** ** The store and the coordinator *)

(** An exception that leaves the publish callback. *)
Inductive LifecycleError := ObserverFailed.

(** [lc_store] and [lc_callback] are the fields of the store: the snapshot and whether a
    callback is set. *)
Record Coordinator := {
  lc_active : option LifecycleOperationSnapshot;
  lc_sequence : Z;
  lc_store : option LifecycleOperationSnapshot;
  lc_callback : bool
}.

Definition coordinator_init : Coordinator :=
  {| lc_active := None; lc_sequence := 0; lc_store := None; lc_callback := false |}.

Abbreviation LC := (SE Coordinator LifecycleError).

Definition set_operation (active : option LifecycleOperationSnapshot) (c : Coordinator) : Coordinator :=
  {| lc_active := active; lc_sequence := lc_sequence c; lc_store := lc_store c;
     lc_callback := lc_callback c |}.

Definition set_store (o : LifecycleOperationSnapshot) (c : Coordinator) : Coordinator :=
  {| lc_active := lc_active c; lc_sequence := lc_sequence c; lc_store := Some o;
     lc_callback := lc_callback c |}.

Definition set_publish_callback (callback : bool) : LC unit :=
  modify (λ c, {| lc_active := lc_active c; lc_sequence := lc_sequence c;
                  lc_store := lc_store c; lc_callback := callback |}).

(** [throws]: the callback, if one is set, ends with an exception. *)
Definition publish (throws : bool) (o : LifecycleOperationSnapshot) : LC unit :=
  _ ← modify (set_store o);
  c ← gets id;
  if lc_callback c && throws then throw ObserverFailed else mret ().

Definition next_sequence : LC Z :=
  c ← gets id;
  let sequence := u64 (lc_sequence c + 1) in
  _ ← modify (λ c, {| lc_active := lc_active c; lc_sequence := sequence; lc_store := lc_store c;
                      lc_callback := lc_callback c |});
  mret sequence.

Definition operation_id (sequence : Z) : string := "lifecycle-" +:+ to_string sequence.

(** [inl] is the id of the operation in progress, [inr] the operation created; the caller's
    [created] lends it the members that are not assigned. *)
Definition begin_operation (type : LifecycleOperationType) (stages : list LifecycleOperationStage)
    (created : LifecycleOperationSnapshot) (now : Z) (throws : bool)
    : LC (string + LifecycleOperationSnapshot) :=
  c ← gets id;
  match lc_active c with
  | Some o => mret (inl (op_id o))
  | None =>
      sequence ← next_sequence;
      let created :=
        {| op_id := operation_id sequence; op_type := type; op_result := ResultRunning;
           op_started_at := now; op_finished_at := op_finished_at created;
           op_error := op_error created; op_stages := stages |} in
      _ ← modify (set_operation (Some created));
      _ ← catch (publish throws created)
                (λ e, _ ← modify (set_operation None); throw e);
      mret (inr created)
  end.

Definition mutate (throws : bool) (id : string)
    (mutation : LifecycleOperationSnapshot → LifecycleOperationSnapshot) : LC unit :=
  c ← gets (λ c, c);
  match lc_active c with
  | Some o =>
      if String.eqb (op_id o) id then
        _ ← modify (set_operation (Some (mutation o)));
        publish throws (mutation o)
      else mret ()
  | None => mret ()
  end.

(** The second critical section of [finish]; it is entered on both ways out of the first. *)
Definition finish_release (id : string) : LC unit :=
  modify (λ c, match lc_active c with
               | Some o => if String.eqb (op_id o) id then set_operation None c else c
               | None => c
               end).

Definition finish (throws : bool) (id error : string) (now : Z) : LC unit :=
  _ ← catch (mutate throws id (finish_of error now)) (λ e, _ ← finish_release id; throw e);
  finish_release id.

(** ** The bounded admission *)

(** The state with, for each token that was handed out, the number of leases that share
    it; a token is destroyed with its last lease. *)
Record BoundedAdmission := {
  ba_limit : Z;
  ba_active : Z;
  ba_accepting : bool;
  ba_tokens : list nat
}.

Definition bounded_init (limit : Z) : BoundedAdmission :=
  {| ba_limit := limit; ba_active := 0; ba_accepting := true; ba_tokens := [] |}.

Definition with_tokens (active : Z) (tokens : list nat) (b : BoundedAdmission) : BoundedAdmission :=
  {| ba_limit := ba_limit b; ba_active := active; ba_accepting := ba_accepting b;
     ba_tokens := tokens |}.

(** [no_memory]: [std::make_shared] throws. *)
Inductive AcquireOutcome := Acquired | Refused | OutOfMemory.

Definition bounded_acquire (no_memory : bool) (b : BoundedAdmission)
    : BoundedAdmission * AcquireOutcome :=
  if negb (ba_accepting b) || (ba_limit b <=? ba_active b) then (b, Refused)
  else if no_memory then (with_tokens (ba_active b + 1 - 1) (ba_tokens b) b, OutOfMemory)
  else (with_tokens (ba_active b + 1) (ba_tokens b ++ [1%nat]) b, Acquired).

(** A copy of a lease shares its token. *)
Definition lease_copy (i : nat) (b : BoundedAdmission) : BoundedAdmission :=
  with_tokens (ba_active b) (alter S i (ba_tokens b)) b.

(** [reset] or the end of one lease; the last one runs the destructor of the token. *)
Definition lease_drop (i : nat) (b : BoundedAdmission) : BoundedAdmission :=
  match ba_tokens b !! i with
  | Some 1%nat =>
      with_tokens (if 0 <? ba_active b then ba_active b - 1 else ba_active b)
        (<[i := 0%nat]> (ba_tokens b)) b
  | _ => with_tokens (ba_active b) (alter Nat.pred i (ba_tokens b)) b
  end.

Definition bounded_shutdown (b : BoundedAdmission) : BoundedAdmission :=
  {| ba_limit := ba_limit b; ba_active := ba_active b; ba_accepting := false;
     ba_tokens := ba_tokens b |}.

(** ** Executions

    Threads call the operations in any order; a thread inside [finish] has left its first
    critical section and still has to enter the second. The log lists what the store held
    after each operation. *)

Inductive StageCall := StartStage | SucceedStage (detail : string) | FailStage (detail : string)
| SkipStage (detail : string).

Definition stage_call (call : StageCall) (stage_id : string)
    : LifecycleOperationSnapshot → LifecycleOperationSnapshot :=
  match call with
  | StartStage => start_stage_of stage_id
  | SucceedStage detail => succeed_stage_of stage_id detail
  | FailStage detail => fail_stage_of stage_id detail
  | SkipStage detail => skip_stage_of stage_id detail
  end.

Inductive LifecycleAction :=
| Begin (type : LifecycleOperationType) (stages : list LifecycleOperationStage)
    (created : LifecycleOperationSnapshot) (now : Z) (throws : bool)
| CallStage (call : StageCall) (id stage_id : string) (throws : bool)
| FinishEnter (id error : string) (now : Z) (throws : bool)
| FinishLeave (thread : nat)
| SetCallback (callback : bool).

Record LifecycleWorld := {
  lw_coordinator : Coordinator;
  lw_leaving : list string;
  lw_log : list LifecycleOperationSnapshot
}.

Definition lifecycle_init : LifecycleWorld :=
  {| lw_coordinator := coordinator_init; lw_leaving := []; lw_log := [] |}.

Definition observed {A} (r : Coordinator * A) (leaving : list string) (w : LifecycleWorld)
    : LifecycleWorld :=
  {| lw_coordinator := r.1; lw_leaving := leaving;
     lw_log := lw_log w ++ option_list (lc_store r.1) |}.

Definition lifecycle_perform (w : LifecycleWorld) (a : LifecycleAction) : LifecycleWorld :=
  let c := lw_coordinator w in
  match a with
  | Begin type stages created now throws =>
      observed (begin_operation type stages created now throws c) (lw_leaving w) w
  | CallStage call id stage_id throws =>
      observed (mutate throws id (stage_call call stage_id) c) (lw_leaving w) w
  | FinishEnter id error now throws =>
      observed (mutate throws id (finish_of error now) c) (lw_leaving w ++ [id]) w
  | FinishLeave thread =>
      match lw_leaving w !! thread with
      | Some id => observed (finish_release id c) (delete thread (lw_leaving w)) w
      | None => w
      end
  | SetCallback callback => observed (set_publish_callback callback c) (lw_leaving w) w
  end.

Definition lifecycle_run : list LifecycleAction → LifecycleWorld :=
  foldl lifecycle_perform lifecycle_init.

(** ** How an operation advances *)

Definition finished_status (status : LifecycleOperationStatus) : Prop :=
  status = Succeeded ∨ status = Failed ∨ status = Skipped.

(** A stage keeps its name, leaves [Pending] and [Running] for good and never changes once
    it is finished. *)
Definition stage_le (s t : LifecycleOperationStage) : Prop :=
  st_id s = st_id t ∧ st_title s = st_title t ∧
  (st_status s = Running → st_status t ≠ Pending) ∧ (finished_status (st_status s) → s = t).

Definition op_le (a b : LifecycleOperationSnapshot) : Prop :=
  op_id a = op_id b ∧ op_type a = op_type b ∧ op_started_at a = op_started_at b ∧
  Forall2 stage_le (op_stages a) (op_stages b).

#[export] Instance stage_le_preorder : PreOrder stage_le.
Proof.
  split; [intros s; repeat split; congruence|].
  intros s t u (Hi & Ht & Hr & Hf) (Hi' & Ht' & Hr' & Hf').
  split; [congruence|]. split; [congruence|]. unfold finished_status in *. split.
  - intros Hs. specialize (Hr Hs). destruct (st_status t) eqn:E; [done|by apply Hr'|..];
      rewrite <- Hf' by tauto; congruence.
  - intros Hs. rewrite <- (Hf Hs) in *. by apply Hf'.
Qed.

#[export] Instance op_le_preorder : PreOrder op_le.
Proof.
  split; [intros a; do 3 (split; [done|]); reflexivity|].
  intros a b c (? & ? & ? & ?) (? & ? & ? & ?). repeat split; etransitivity; eassumption.
Qed.

Definition advances (f : LifecycleOperationStage → LifecycleOperationStage)
    (s : LifecycleOperationStage) : Prop := stage_le s (f s).

Lemma update_first_advances p f l :
  (∀ s, p s = true → advances f s) → Forall2 stage_le l (update_first_stage p f l).
Proof.
  intros Hf. induction l as [|s l IH]; cbn; [constructor|].
  destruct (p s) eqn:E; constructor; [by apply Hf|reflexivity|reflexivity|done].
Qed.

Lemma set_status_advances status detail s :
  st_status s = Pending ∨ (st_status s = Running ∧ status ≠ Pending) →
  advances (set_status status detail) s.
Proof.
  intros Hs. split; [done|]. split; [done|]. cbn. split; [|unfold finished_status; intuition congruence].
  destruct Hs as [->|[-> ?]]; done.
Qed.

Lemma is_status_true status s : is_status status s = true ↔ st_status s = status.
Proof. apply bool_decide_eq_true. Qed.

Lemma skip_pending_advances l : Forall2 stage_le l (skip_pending l).
Proof.
  induction l as [|s l IH]; cbn; constructor; [|done].
  destruct (is_status Pending s) eqn:E; [|done]. apply is_status_true in E.
  apply set_status_advances. by left.
Qed.

Lemma skip_pending_none l : Forall (λ s, st_status s ≠ Pending) (skip_pending l).
Proof.
  apply Forall_fmap, Forall_forall. intros s _. cbn.
  destruct (is_status Pending s) eqn:E; [done|]. intros Hs. apply is_status_true in Hs. congruence.
Qed.

Lemma Forall2_stage_trans l l' l'' :
  Forall2 stage_le l l' → Forall2 stage_le l' l'' → Forall2 stage_le l l''.
Proof. intros. by etransitivity. Qed.

Lemma op_le_stages stages error o :
  Forall2 stage_le (op_stages o) stages → op_le o (set_stages stages error o).
Proof. by repeat split. Qed.

Lemma stage_call_advances call stage_id o : op_le o (stage_call call stage_id o).
Proof.
  destruct call; apply op_le_stages.
  - apply update_first_advances. intros s _. unfold advances.
    destruct (is_status Pending s) eqn:E; [|done]. apply is_status_true in E.
    apply set_status_advances. by left.
  - apply update_first_advances. intros s [_ E]%andb_true_iff. apply is_status_true in E.
    apply set_status_advances. by right.
  - eapply Forall2_stage_trans; [|apply skip_pending_advances].
    apply update_first_advances. intros s [_ [E|E]%orb_true_iff]%andb_true_iff;
      apply is_status_true in E; apply set_status_advances; [by left|by right].
  - apply update_first_advances. intros s [_ E]%andb_true_iff. apply is_status_true in E.
    apply set_status_advances. by left.
Qed.

Lemma finish_advances error now o : op_le o (finish_of error now o).
Proof. split; [done|]. split; [done|]. split; [done|]. apply skip_pending_advances. Qed.

(** A finished operation has no pending stage, and an advance does not bring one back. *)
Definition complete (o : LifecycleOperationSnapshot) : Prop :=
  op_result o ≠ ResultRunning → Forall (λ s, st_status s ≠ Pending) (op_stages o).

Lemma stage_le_pending l l' :
  Forall2 stage_le l l' → Forall (λ s, st_status s ≠ Pending) l → Forall (λ s, st_status s ≠ Pending) l'.
Proof.
  induction 1 as [|s t l l' (Hi & Ht & Hr & Hf) Hl IH]; [done|].
  intros [Hs Hrest]%Forall_cons. constructor; [|by apply IH].
  destruct (st_status s) eqn:E; [done|by apply Hr|..]; rewrite <- Hf by (unfold finished_status; tauto); congruence.
Qed.

Lemma stage_call_complete call stage_id o : complete o → complete (stage_call call stage_id o).
Proof.
  intros Ho Hr. eapply stage_le_pending; [apply (stage_call_advances call stage_id o)|].
  apply Ho. by destruct call.
Qed.

Lemma finish_complete error now o : complete (finish_of error now o).
Proof. intros _. apply skip_pending_none. Qed.

(** ** The invariant of executions *)

Definition is_begin (a : LifecycleAction) : bool :=
  match a with Begin _ _ _ _ _ => true | _ => false end.

Definition begins (actions : list LifecycleAction) : Z :=
  Z.of_nat (length (filter (λ a, is_begin a = true) actions)).

Lemma operation_id_inj n k : 0 ≤ n < 2 ^ 64 → 0 ≤ k < 2 ^ 64 → operation_id n = operation_id k → n = k.
Proof.
  unfold operation_id. intros Hn Hk. cbn [String.append]. intros [= E].
  rewrite <- (to_string_value n), <- (to_string_value k) by lia. by rewrite E.
Qed.

Definition named (n : Z) (o : LifecycleOperationSnapshot) : Prop :=
  ∃ k, 1 ≤ k ≤ n ∧ op_id o = operation_id k.

#[local] Arguments operation_id : simpl never.

(** A log in which every operation only advances. *)
Definition advancing (log : list LifecycleOperationSnapshot) : Prop :=
  ∀ i j a b, log !! i = Some a → log !! j = Some b → (i ≤ j)%nat → op_id a = op_id b → op_le a b.

Record lifecycle_ok (w : LifecycleWorld) : Prop := {
  lo_sequence : 0 ≤ lc_sequence (lw_coordinator w) < 2 ^ 64;
  lo_named : Forall (named (lc_sequence (lw_coordinator w))) (lw_log w);
  lo_complete : Forall complete (lw_log w);
  lo_advancing : advancing (lw_log w);
  lo_store : match lc_store (lw_coordinator w) with
             | Some o => last (lw_log w) = Some o
             | None => lw_log w = []
             end;
  lo_active : match lc_active (lw_coordinator w) with
              | Some o => 1 ≤ lc_sequence (lw_coordinator w) ∧ complete o ∧
                  op_id o = operation_id (lc_sequence (lw_coordinator w)) ∧
                  Forall (λ x, op_id x = op_id o → op_le x o) (lw_log w)
              | None => True
              end
}.

Lemma advancing_snoc log o :
  advancing log → Forall (λ x, op_id x = op_id o → op_le x o) log → advancing (log ++ [o]).
Proof.
  intros Hlog Ho i j a b Hi Hj Hij Hid.
  destruct (decide (j < length log)%nat) as [Hl|Hl].
  - rewrite lookup_app_l in Hi, Hj by lia. by eapply Hlog.
  - rewrite lookup_app_r in Hj by lia. apply list_lookup_singleton_Some in Hj as [Hj <-].
    destruct (decide (i < length log)%nat) as [Hl'|Hl'].
    + rewrite lookup_app_l in Hi by lia. rewrite Forall_forall in Ho.
      apply Ho; [by eapply list_elem_of_lookup_2|done].
    + rewrite lookup_app_r in Hi by lia. apply list_lookup_singleton_Some in Hi as [_ <-]. done.
Qed.

Lemma last_elem {A} (l : list A) x : last l = Some x → ∃ l', l = l' ++ [x].
Proof. apply last_Some. Qed.

Lemma named_mono n n' o : n ≤ n' → named n o → named n' o.
Proof. intros Hn (k & Hk & Ho). exists k. split; [lia|done]. Qed.

Lemma named_fresh n o : 0 ≤ n < 2 ^ 64 - 1 → named n o → op_id o ≠ operation_id (n + 1).
Proof.
  intros Hn (k & Hk & ->) E. apply operation_id_inj in E; lia.
Qed.

(** Logging a snapshot that every earlier one of the same name has advanced to. *)
Lemma log_ok n log o :
  Forall (named n) log → Forall complete log → advancing log →
  named n o → complete o → Forall (λ x, op_id x = op_id o → op_le x o) log →
  Forall (named n) (log ++ [o]) ∧ Forall complete (log ++ [o]) ∧ advancing (log ++ [o]).
Proof.
  intros Hn Hc Ha Ho Hco Hle. rewrite !Forall_app, !Forall_singleton.
  split; [done|]. split; [done|]. by apply advancing_snoc.
Qed.

(** An operation that leaves the store as it is. *)
Lemma observed_same {A} w c leaving (x : A) :
  lifecycle_ok w → lc_sequence c = lc_sequence (lw_coordinator w) →
  lc_store c = lc_store (lw_coordinator w) →
  lc_active c = lc_active (lw_coordinator w) ∨ lc_active c = None →
  lifecycle_ok (observed (c, x) leaving w).
Proof.
  intros [Hs Hn Hc Ha Hst Hact] Hseq Hstore Hactive.
  assert (∀ P, Forall P (lw_log w) → Forall P (lw_log w ++ option_list (lc_store c))) as Hlast.
  { intros P HP. rewrite Hstore. destruct (lc_store _) as [o|]; [|by rewrite app_nil_r].
    apply last_elem in Hst as [l Hl]. rewrite Hl in HP |- *. cbn [option_list].
    apply Forall_app in HP as [HP Hx]. by rewrite !Forall_app. }
  split; cbn; rewrite ?Hseq; [done|by apply Hlast|by apply Hlast| |..].
  - rewrite Hstore. destruct (lc_store _) as [o|]; [|by rewrite app_nil_r].
    apply advancing_snoc; [done|]. apply last_elem in Hst as [l Hl].
    apply Forall_forall. intros x' Hx Hid. apply list_elem_of_lookup in Hx as [i Hi].
    eapply (Ha i (length l)); [done| | |done].
    + rewrite Hl, lookup_app_r, Nat.sub_diag by lia. done.
    + apply lookup_lt_Some in Hi. rewrite Hl, length_app in Hi. cbn in Hi. lia.
  - rewrite Hstore. destruct (lc_store _) as [o|]; cbn; [by rewrite last_snoc|].
    by rewrite Hst.
  - destruct Hactive as [->| ->]; [|done]. destruct (lc_active (lw_coordinator w)) as [o|]; [|done].
    destruct Hact as (? & ? & ? & ?). split; [done|]. split; [done|]. split; [done|]. by apply Hlast.
Qed.

(** The operation that [begin_operation] makes. *)
Definition new_operation (type : LifecycleOperationType) (stages : list LifecycleOperationStage)
    (created : LifecycleOperationSnapshot) (now sequence : Z) : LifecycleOperationSnapshot :=
  {| op_id := operation_id sequence; op_type := type; op_result := ResultRunning;
     op_started_at := now; op_finished_at := op_finished_at created;
     op_error := op_error created; op_stages := stages |}.

Lemma begin_spec type stages created now throws c :
  begin_operation type stages created now throws c =
  match lc_active c with
  | Some o => (c, Ok (inl (op_id o)))
  | None =>
      let sequence := u64 (lc_sequence c + 1) in
      let o := new_operation type stages created now sequence in
      if lc_callback c && throws
      then ({| lc_active := None; lc_sequence := sequence; lc_store := Some o; lc_callback := lc_callback c |},
            Throw ObserverFailed)
      else ({| lc_active := Some o; lc_sequence := sequence; lc_store := Some o; lc_callback := lc_callback c |},
            Ok (inr o))
  end.
Proof.
  destruct c as [[o|] sequence store callback]; [done|]. by destruct callback, throws.
Qed.

Lemma mutate_spec throws id m c :
  (mutate throws id m c).1 =
  match lc_active c with
  | Some o => if String.eqb (op_id o) id then set_store (m o) (set_operation (Some (m o)) c) else c
  | None => c
  end.
Proof.
  destruct c as [[o|] sequence store callback]; [|done].
  unfold mutate, gets, mbind, se_bind. cbn [lc_active].
  destruct (String.eqb (op_id o) id); [|done]. by destruct callback, throws.
Qed.

Lemma finish_release_spec id c :
  finish_release id c =
  (match lc_active c with
   | Some o => if String.eqb (op_id o) id then set_operation None c else c
   | None => c
   end, Ok ()).
Proof. done. Qed.

Lemma finish_active throws id error now c :
  lc_active (finish throws id error now c).1 =
  match lc_active c with Some o => if String.eqb (op_id o) id then None else Some o | None => None end.
Proof.
  unfold finish, catch, mbind, se_bind. pose proof (mutate_spec throws id (finish_of error now) c) as Hm.
  destruct (mutate _ _ _ _) as [c1 [u|e]]; cbn [fst] in Hm; subst c1; cbn;
    (destruct (lc_active c) as [o|] eqn:Ea; [destruct (String.eqb (op_id o) id) eqn:E|]; cbn;
     rewrite ?Ea, ?E; done).
Qed.

(** A mutation that advances the operation in progress. *)
Lemma mutate_ok throws id m leaving w :
  (∀ o, op_le o (m o)) → (∀ o, complete o → complete (m o)) →
  lifecycle_ok w → lifecycle_ok (observed (mutate throws id m (lw_coordinator w)) leaving w).
Proof.
  intros Hle Hco Hw. destruct (mutate throws id m (lw_coordinator w)) as [c x] eqn:E.
  assert (c = (mutate throws id m (lw_coordinator w)).1) as Hc by by rewrite E.
  rewrite mutate_spec in Hc. destruct (lc_active (lw_coordinator w)) as [o|] eqn:Ea.
  2: { subst c. apply observed_same; auto. }
  destruct (String.eqb_spec (op_id o) id) as [Hid|Hid].
  2: { subst c. apply observed_same; auto. }
  destruct Hw as [Hs Hn Hcs Ha Hst Hact]. rewrite Ea in Hact. destruct Hact as (Hseq & Hc1 & Hid1 & Hle1).
  assert (op_id (m o) = op_id o) as Hid2 by by destruct (Hle o).
  assert (Forall (λ x, op_id x = op_id (m o) → op_le x (m o)) (lw_log w)) as Hle2.
  { eapply Forall_impl; [exact Hle1|]. intros y Hy Hyid. etransitivity; [|apply Hle]. apply Hy. congruence. }
  destruct (log_ok (lc_sequence (lw_coordinator w)) (lw_log w) (m o)) as (Hn' & Hc' & Ha'); try done.
  { exists (lc_sequence (lw_coordinator w)). split; [lia|congruence]. }
  { by apply Hco. }
  subst c. split; cbn; try done; [by rewrite last_snoc|].
  split; [done|]. split; [by apply Hco|]. split; [congruence|].
  apply Forall_app. split; [done|]. apply Forall_singleton. done.
Qed.

Lemma begin_ok type stages created now throws w :
  lc_sequence (lw_coordinator w) < 2 ^ 64 - 1 → lifecycle_ok w →
  lifecycle_ok (observed (begin_operation type stages created now throws (lw_coordinator w)) (lw_leaving w) w).
Proof.
  intros Hlt Hw. rewrite begin_spec. destruct (lc_active (lw_coordinator w)) as [o|] eqn:Ea.
  { apply (observed_same w (lw_coordinator w)); auto. }
  destruct Hw as [Hs Hn Hcs Ha Hst _]. cbn zeta.
  assert (u64 (lc_sequence (lw_coordinator w) + 1) = lc_sequence (lw_coordinator w) + 1) as ->.
  { unfold u64, wrap. apply Z.mod_small. lia. }
  set (n := lc_sequence (lw_coordinator w)) in *.
  set (o := new_operation type stages created now (n + 1)).
  assert (Forall (λ x, op_id x = op_id o → op_le x o) (lw_log w)) as Hfresh.
  { eapply Forall_impl; [exact Hn|]. intros x Hx Hid.
    exfalso. apply (named_fresh n x); [lia|done|exact Hid]. }
  destruct (log_ok (n + 1) (lw_log w) o) as (Hn' & Hc' & Ha'); try done.
  { eapply Forall_impl; [exact Hn|]. intros x. apply named_mono. lia. }
  { exists (n + 1). split; [lia|done]. }
  { intros Hr. by destruct Hr. }
  destruct (lc_callback (lw_coordinator w) && throws); split; cbn; try done; try lia; try (by rewrite last_snoc).
  split; [lia|]. split; [by intros Hr; destruct Hr|]. split; [done|].
  apply Forall_app. split; [exact Hfresh|]. by apply Forall_singleton.
Qed.

Lemma perform_lifecycle_ok w a :
  lc_sequence (lw_coordinator w) < 2 ^ 64 - 1 → lifecycle_ok w → lifecycle_ok (lifecycle_perform w a).
Proof.
  intros Hlt Hw. destruct a; cbn.
  - by apply begin_ok.
  - apply mutate_ok; [apply stage_call_advances|apply stage_call_complete|done].
  - apply mutate_ok; [intros; apply finish_advances|intros; apply finish_complete|done].
  - destruct (lw_leaving w !! thread) as [id|]; [|done]. rewrite finish_release_spec.
    apply observed_same; [done|..]; destruct (lc_active (lw_coordinator w)) as [o|] eqn:Ea;
      try destruct (String.eqb (op_id o) id); auto.
  - by apply observed_same; auto.
Qed.

Lemma perform_sequence w a :
  0 ≤ lc_sequence (lw_coordinator w) < 2 ^ 64 - 1 →
  lc_sequence (lw_coordinator w) ≤ lc_sequence (lw_coordinator (lifecycle_perform w a))
    ≤ lc_sequence (lw_coordinator w) + (if is_begin a then 1 else 0).
Proof.
  intros Hs. destruct a; cbn [lifecycle_perform is_begin].
  - rewrite begin_spec. destruct (lc_active (lw_coordinator w)); cbn; [lia|].
    assert (u64 (lc_sequence (lw_coordinator w) + 1) = lc_sequence (lw_coordinator w) + 1) as ->
      by (unfold u64, wrap; apply Z.mod_small; lia).
    destruct (lc_callback (lw_coordinator w) && throws); cbn; lia.
  - unfold observed. rewrite mutate_spec. cbn. destruct (lc_active (lw_coordinator w)) as [o|]; [|lia].
    destruct (String.eqb (op_id o) id); cbn; lia.
  - unfold observed. rewrite mutate_spec. cbn. destruct (lc_active (lw_coordinator w)) as [o|]; [|lia].
    destruct (String.eqb (op_id o) id); cbn; lia.
  - destruct (lw_leaving w !! thread) as [id|]; [|lia]. cbn. destruct (lc_active (lw_coordinator w)) as [o|]; [|lia].
    destruct (String.eqb (op_id o) id); cbn; lia.
  - cbn. lia.
Qed.

Lemma begins_snoc actions a : begins (actions ++ [a]) = begins actions + (if is_begin a then 1 else 0).
Proof.
  unfold begins. rewrite filter_app, length_app, filter_cons, filter_nil.
  case_decide as Hd; destruct (is_begin a); cbn [length]; (lia || done).
Qed.

Lemma lifecycle_run_ok actions :
  begins actions < 2 ^ 64 - 1 →
  lifecycle_ok (lifecycle_run actions) ∧ lc_sequence (lw_coordinator (lifecycle_run actions)) ≤ begins actions.
Proof.
  induction actions as [|a actions IH] using rev_ind; intros Hb.
  - split; [|done]. split; cbn; done.
  - rewrite begins_snoc in Hb |- *. unfold lifecycle_run. rewrite foldl_snoc.
    fold (lifecycle_run actions). destruct IH as [Hok Hseq]; [destruct (is_begin a); lia|].
    set (w := lifecycle_run actions) in *. pose proof (lo_sequence w Hok).
    assert (lc_sequence (lw_coordinator w) < 2 ^ 64 - 1) as Hlt by (destruct (is_begin a); lia).
    pose proof (perform_sequence w a). split; [by apply perform_lifecycle_ok|lia].
Qed.

(** ** Properties *)

(** C36. One lifecycle operation at a time, and it only moves forward. In every execution of
    the coordinator - any threads, any order of calls, observers that throw, threads that
    hang between the two halves of [finish] - all snapshots of one operation that the store
    ever shows are in order: its stages keep their names, a stage that has begun is never
    pending again and a finished stage never changes, and a finished operation has no
    pending stage. A new operation is refused, with the id of the one in progress and
    without any effect, exactly while there is one; an accepted one has an id that no
    operation had before, and if its publication throws it does not stay in progress.
    After [finish] has returned, or thrown, its operation is not in progress. *)
Theorem lifecycle_single_flight actions :
  begins actions < 2 ^ 64 - 1 →
  let w := lifecycle_run actions in
  advancing (lw_log w) ∧ Forall complete (lw_log w) ∧
  (∀ type stages created now throws c r,
     begin_operation type stages created now throws (lw_coordinator w) = (c, r) →
     match lc_active (lw_coordinator w), r with
     | Some o, Ok (inl id) => id = op_id o ∧ c = lw_coordinator w
     | None, Ok (inr o) => lc_active c = Some o ∧ lc_store c = Some o ∧ op_stages o = stages ∧
         Forall (λ x, op_id x ≠ op_id o) (lw_log w)
     | None, Throw _ => lc_active c = None ∧ lc_callback c = true ∧ throws = true
     | _, _ => False
     end) ∧
  (∀ throws id error now c r, finish throws id error now (lw_coordinator w) = (c, r) →
     ∀ o, lc_active c = Some o → op_id o ≠ id).
Proof.
  intros Hb w. destruct (lifecycle_run_ok actions Hb) as [Hok Hseq]. fold w in Hok, Hseq.
  split; [apply Hok|]. split; [apply Hok|]. split.
  - intros type stages created now throws c r. rewrite begin_spec.
    destruct (lc_active (lw_coordinator w)) as [o|] eqn:Ea; [by intros [= <- <-]|].
    pose proof (lo_sequence w Hok) as Hs. cbn zeta.
    assert (u64 (lc_sequence (lw_coordinator w) + 1) = lc_sequence (lw_coordinator w) + 1) as ->.
    { unfold u64, wrap. apply Z.mod_small. lia. }
    destruct (lc_callback (lw_coordinator w)) eqn:Ec, throws; intros [= <- <-]; try done;
      split_and?; try done; cbn; (eapply Forall_impl; [exact (lo_named w Hok)|]);
      intros x Hx; apply named_fresh; [lia|done|lia|done|lia|done].
  - intros throws id error now c r Hf o Ho Hid. subst id.
    assert (lc_active (finish throws (op_id o) error now (lw_coordinator w)).1 = Some o) as Hf'.
    { by rewrite Hf. }
    rewrite finish_active in Hf'. destruct (lc_active (lw_coordinator w)) as [a|]; [|done].
    destruct (String.eqb_spec (op_id a) (op_id o)); [done|]. by injection Hf' as ->.
Qed.

(** A publication that throws leaves the operation in the store as running, although it was
    never admitted: nothing replaces it there until another operation begins. *)
Lemma failed_begin_stays_published c type stages created now :
  lc_active c = None → lc_callback c = true →
  ∃ c' o, begin_operation type stages created now true c = (c', Throw ObserverFailed) ∧
    lc_active c' = None ∧ lc_store c' = Some o ∧ op_result o = ResultRunning ∧
    ∀ call throws id stage_id, (mutate throws id (stage_call call stage_id) c').1 = c'.
Proof.
  intros Ha Hc. rewrite begin_spec, Ha, Hc. cbn [andb]. eexists _, _. split; [reflexivity|].
  split; [done|]. split; [done|]. split; [done|]. intros. by rewrite mutate_spec.
Qed.

(** ** The bounded admission *)

Inductive BoundedAction := BoundedAcquire (no_memory : bool) | LeaseCopy (token : nat)
| LeaseDrop (token : nat) | BoundedShutdown.

(** Leases are copied and dropped while they exist. *)
Definition bounded_perform (b : BoundedAdmission) (a : BoundedAction) : BoundedAdmission :=
  match a with
  | BoundedAcquire no_memory => (bounded_acquire no_memory b).1
  | LeaseCopy i => if (0 <? nth i (ba_tokens b) 0)%nat then lease_copy i b else b
  | LeaseDrop i => if (0 <? nth i (ba_tokens b) 0)%nat then lease_drop i b else b
  | BoundedShutdown => bounded_shutdown b
  end.

Definition live_tokens (tokens : list nat) : Z :=
  Z.of_nat (length (filter (λ n, (0 < n)%nat) tokens)).

Lemma live_tokens_app l l' : live_tokens (l ++ l') = live_tokens l + live_tokens l'.
Proof. unfold live_tokens. rewrite filter_app, length_app. lia. Qed.

Lemma live_tokens_one n : live_tokens [n] = if (0 <? n)%nat then 1 else 0.
Proof.
  unfold live_tokens. rewrite filter_cons, filter_nil. destruct (Nat.ltb_spec 0 n); case_decide; (done || lia).
Qed.

Lemma live_tokens_cons n l : live_tokens (n :: l) = live_tokens [n] + live_tokens l.
Proof. apply (live_tokens_app [n] l). Qed.

Lemma live_tokens_insert i n n' l :
  l !! i = Some n →
  live_tokens (<[i := n']> l) = live_tokens l - live_tokens [n] + live_tokens [n'].
Proof.
  intros Hi. assert (i < length l)%nat by by eapply lookup_lt_Some.
  rewrite <- (take_drop_middle l i n Hi) at 2. rewrite insert_take_drop by done.
  rewrite !live_tokens_app, (live_tokens_cons n), (live_tokens_cons n'). lia.
Qed.

Lemma alter_lookup (f : nat → nat) i n (l : list nat) : l !! i = Some n → alter f i l = <[i := f n]> l.
Proof. intros Hi. rewrite list_insert_alter. apply list_alter_ext; [|done]. intros m Hm. congruence. Qed.

Definition bounded_ok (b : BoundedAdmission) : Prop :=
  ba_active b = live_tokens (ba_tokens b) ∧ 0 ≤ ba_active b ≤ ba_limit b.

Lemma bounded_perform_ok b a : bounded_ok b → bounded_ok (bounded_perform b a).
Proof.
  intros [Ha Hl]. destruct a as [no_memory|i|i|]; cbn [bounded_perform].
  - unfold bounded_acquire. destruct (ba_accepting b); [|done]. cbn [negb orb].
    destruct (Z.leb_spec (ba_limit b) (ba_active b)); [done|]. destruct no_memory.
    + split; cbn; lia.
    + split; cbn; [|lia]. rewrite live_tokens_app, live_tokens_one. cbn. lia.
  - destruct (Nat.ltb_spec 0 (nth i (ba_tokens b) 0%nat)) as [Hn|]; [|done].
    destruct (ba_tokens b !! i) as [n|] eqn:Hi.
    + rewrite (nth_lookup_Some _ _ _ _ Hi) in Hn. split; [|done]. cbn.
      rewrite (alter_lookup _ i n), (live_tokens_insert i n), !live_tokens_one by done.
      destruct (Nat.ltb_spec 0 n); [cbn; lia|lia].
    + rewrite nth_lookup, Hi in Hn. cbn in Hn. lia.
  - destruct (Nat.ltb_spec 0 (nth i (ba_tokens b) 0%nat)) as [Hn|]; [|done].
    destruct (ba_tokens b !! i) as [n|] eqn:Hi; [|rewrite nth_lookup, Hi in Hn; cbn in Hn; lia].
    rewrite (nth_lookup_Some _ _ _ _ Hi) in Hn. unfold lease_drop. rewrite Hi.
    assert (live_tokens (<[i := Nat.pred n]> (ba_tokens b))
            = live_tokens (ba_tokens b) - 1 + (if (0 <? Nat.pred n)%nat then 1 else 0)) as Hc.
    { rewrite (live_tokens_insert i n), !live_tokens_one by done.
      destruct (Nat.ltb_spec 0 n); [done|lia]. }
    destruct n as [|[|n]]; [lia|..]; cbn in Hc.
    + assert (0 ≤ live_tokens (<[i := 0%nat]> (ba_tokens b))) by (unfold live_tokens; lia).
      destruct (Z.ltb_spec 0 (ba_active b)); split; cbn; lia.
    + rewrite (alter_lookup _ i (S (S n))) by done. cbn [Nat.pred]. split; cbn; lia.
  - done.
Qed.

(** In every history of acquisitions, copies, drops and shutdown, [active] counts the tokens
    that some lease still shares; it never exceeds the limit; an acquisition is granted
    exactly while it is below the limit, admission is open and memory suffices; and after
    shutdown none is. *)
Theorem bounded_admission_exact limit actions :
  0 ≤ limit →
  let b := foldl bounded_perform (bounded_init limit) actions in
  ba_active b = live_tokens (ba_tokens b) ∧ 0 ≤ ba_active b ≤ limit ∧
  (∀ no_memory, (bounded_acquire no_memory b).2 = Acquired ↔
     no_memory = false ∧ (BoundedShutdown ∉ actions) ∧ (live_tokens (ba_tokens b) < limit)).
Proof.
  intros Hlimit b.
  assert (bounded_ok b ∧ ba_limit b = limit ∧ (ba_accepting b = true ↔ BoundedShutdown ∉ actions))
    as ([Ha Hr] & Hl & Hacc).
  { unfold b. clear b. induction actions as [|a actions (Hok & Hl & Hacc)] using rev_ind; cbn.
    - split; [split; cbn; [done|lia]|]. split; [done|]. split; [|done]. intros _ Hin. by apply elem_of_nil in Hin.
    - rewrite foldl_snoc. set (b := foldl _ _ actions) in *. split; [by apply bounded_perform_ok|].
      rewrite elem_of_app, list_elem_of_singleton.
      assert (ba_limit (bounded_perform b a) = ba_limit b ∧
              ba_accepting (bounded_perform b a) = match a with BoundedShutdown => false | _ => ba_accepting b end)
        as [-> ->].
      { destruct a as [m|i|i|]; cbn; unfold bounded_acquire, lease_drop; repeat case_match; done. }
      split; [done|]. destruct a; naive_solver. }
  rewrite Hl in Hr. split; [done|]. split; [done|]. intros no_memory. unfold bounded_acquire.
  rewrite <- Hacc, <- Ha, Hl. destruct (ba_accepting b); cbn [negb orb]; [|naive_solver].
  destruct (Z.leb_spec limit (ba_active b)); cbn; [split; [done|lia]|].
  destruct no_memory; cbn; [naive_solver|]. split; [split; [done|split; [done|lia]]|done].
Qed.

(** ** Moves of the runtime *)

Fixpoint allowed_path (from : RuntimeState) (path : list RuntimeState) : bool :=
  match path with [] => true | next :: path => transition_allowed from next && allowed_path next path end.

(** A runtime that needs a restart, has stopped, broken down or is shutting down runs again
    only after it has been started or an apply has gone through. *)
Lemma running_needs_apply from path :
  from ∈ [restart_required; stopped; broken; shutting_down] →
  allowed_path from path = true → running ∈ path → starting ∈ path ∨ applying ∈ path.
Proof.
  revert from. induction path as [|next path IH]; intros from Hfrom Hp Hr; [by apply elem_of_nil in Hr|].
  cbn in Hp. apply andb_true_iff in Hp as [Ht Hp]. rewrite !elem_of_cons in Hr |- *.
  destruct next; try (by left; left); try (by right; left);
    try (by destruct from; repeat (apply elem_of_cons in Hfrom as [Hfrom|Hfrom]; try done);
         apply elem_of_nil in Hfrom);
    (destruct Hr as [Hr|Hr]; [done|]); eapply IH in Hp as [?|?]; [by left; right|by right; right| |done|..];
    try done; rewrite !elem_of_cons; tauto.
Qed.

(** ** Witnesses *)

Definition sample_stage (id : string) : LifecycleOperationStage :=
  {| st_id := id; st_title := id; st_status := Pending; st_detail := "" |}.

Definition sample_created : LifecycleOperationSnapshot :=
  {| op_id := ""; op_type := ApplyConfig; op_result := ResultRunning; op_started_at := 0;
     op_finished_at := None; op_error := ""; op_stages := [] |}.

(** An apply whose second stage fails, a refused start, a publication that throws. *)
Definition sample_actions : list LifecycleAction :=
  [SetCallback true;
   Begin ApplyConfig [sample_stage "plan"; sample_stage "install"; sample_stage "verify"] sample_created 5 false;
   CallStage StartStage "lifecycle-1" "plan" false;
   Begin Start [sample_stage "start"] sample_created 6 false;
   CallStage (SucceedStage "done") "lifecycle-1" "plan" true;
   CallStage StartStage "lifecycle-1" "install" false;
   CallStage (FailStage "no route") "lifecycle-1" "install" false;
   FinishEnter "lifecycle-1" "no route" 7 true; FinishLeave 0;
   Begin Start [sample_stage "start"] sample_created 8 true].

Lemma lifecycle_single_flight_witness :
  let w := lifecycle_run sample_actions in
  lc_active (lw_coordinator w) = None ∧
  st_status <$> (op_stages <$> lw_log w !! 7%nat) ≫= (λ l, l !! 2%nat) = Some Skipped ∧
  advancing (lw_log w) ∧ Forall complete (lw_log w).
Proof.
  destruct (lifecycle_single_flight sample_actions) as (Hadv & Hcomplete & _); [by vm_compute|].
  split; [by vm_compute|]. split; [by vm_compute|]. by split.
Defined.
