(* ===== verification/ResolverSync.v ===== *)
(** * Resolver synchronisation

    src/src/daemon/resolver_sync_state_machine.{hpp,cpp}: what the daemon knows of the
    configuration the DNS resolver runs with, what it reports, and when it probes again; and
    the commit of one probe in src/src/daemon/daemon_resolver.cpp. Timestamps are seconds;
    a run of failures is shorter than 2^31. *)

From Stdlib Require Import ZArith Lia Ascii String.
From stdpp Require Import base strings list.
From S2P Require Import Prelude.
Open Scope Z_scope.

(** ** Data *)

Inductive ResolverConfigProbeStatus :=
| ProbeInvalidTxt | ProbeMissingTxt | ProbeNotConfigured | ProbeQueryFailed | ProbeSuccess | ProbeUnknown.
Inductive ResolverConfigSyncState := Converged | Converging | Stale.
Inductive ResolverLiveStatus := Degraded | Healthy | Unavailable | LiveUnknown.
Inductive ResolverConfigHashProbeStatus := HashSuccess | NoUsableTxt | InvalidTxt | QueryFailed.

#[export] Instance ResolverConfigProbeStatus_eq_dec : EqDecision ResolverConfigProbeStatus.
Proof. solve_decision. Defined.
#[export] Instance ResolverConfigSyncState_eq_dec : EqDecision ResolverConfigSyncState.
Proof. solve_decision. Defined.
#[export] Instance ResolverLiveStatus_eq_dec : EqDecision ResolverLiveStatus.
Proof. solve_decision. Defined.
#[export] Instance ResolverConfigHashProbeStatus_eq_dec : EqDecision ResolverConfigHashProbeStatus.
Proof. solve_decision. Defined.

Record ResolverSyncSnapshot := {
  ss_expected_hash : string;
  ss_actual_hash : string;
  ss_actual_ts : option Z;
  ss_last_probe_ts : option Z;
  ss_apply_started_ts : option Z;
  ss_sync_state : option ResolverConfigSyncState;
  ss_probe_status : ResolverConfigProbeStatus;
  ss_live_status : ResolverLiveStatus
}.

Record ResolverSyncStateMachine := {
  expected_hash_ : string;
  actual_hash_ : string;
  actual_ts_ : option Z;
  last_probe_ts_ : option Z;
  apply_started_ts_ : option Z;
  probe_status_ : ResolverConfigProbeStatus;
  consecutive_probe_failures_ : Z;
  runtime_active_ : bool;
  resolver_configured_ : bool
}.

Record ResolverSyncCheckpoint := {
  cp_expected_hash : string;
  cp_actual_hash : string;
  cp_actual_ts : option Z;
  cp_last_probe_ts : option Z;
  cp_apply_started_ts : option Z;
  cp_probe_status : ResolverConfigProbeStatus;
  cp_consecutive_probe_failures : Z;
  cp_runtime_active : bool;
  cp_resolver_configured : bool
}.

Definition resolver_init : ResolverSyncStateMachine :=
  {| expected_hash_ := ""; actual_hash_ := ""; actual_ts_ := None; last_probe_ts_ := None;
     apply_started_ts_ := None; probe_status_ := ProbeUnknown; consecutive_probe_failures_ := 0;
     runtime_active_ := true; resolver_configured_ := true |}.

Definition kConvergingWindowSeconds : Z := 15.
Definition kFailuresBeforeClearing : Z := 3.

(** ** Operations *)

Definition resolver_probe_status_from_hash_probe_status (status : ResolverConfigHashProbeStatus)
    : ResolverConfigProbeStatus :=
  match status with
  | HashSuccess => ProbeSuccess
  | NoUsableTxt => ProbeMissingTxt
  | InvalidTxt => ProbeInvalidTxt
  | QueryFailed => ProbeQueryFailed
  end.

Definition resolver_cleared (runtime_active : bool) (m : ResolverSyncStateMachine)
    : ResolverSyncStateMachine :=
  {| expected_hash_ := expected_hash_ m; actual_hash_ := ""; actual_ts_ := None;
     last_probe_ts_ := None; apply_started_ts_ := apply_started_ts_ m;
     probe_status_ := ProbeNotConfigured; consecutive_probe_failures_ := 0;
     runtime_active_ := runtime_active; resolver_configured_ := false |}.

Definition runtime_stopped : ResolverSyncStateMachine → ResolverSyncStateMachine := resolver_cleared false.

Definition resolver_not_configured : ResolverSyncStateMachine → ResolverSyncStateMachine :=
  resolver_cleared true.

Definition expected_hash_updated (expected_hash : string) (m : ResolverSyncStateMachine)
    : ResolverSyncStateMachine :=
  {| expected_hash_ := expected_hash; actual_hash_ := actual_hash_ m; actual_ts_ := actual_ts_ m;
     last_probe_ts_ := last_probe_ts_ m; apply_started_ts_ := apply_started_ts_ m;
     probe_status_ := probe_status_ m;
     consecutive_probe_failures_ := consecutive_probe_failures_ m;
     runtime_active_ := true; resolver_configured_ := true |}.

Definition apply_started (ts : Z) (expected_hash : string) (m : ResolverSyncStateMachine)
    : ResolverSyncStateMachine :=
  {| expected_hash_ := expected_hash; actual_hash_ := actual_hash_ m; actual_ts_ := actual_ts_ m;
     last_probe_ts_ := last_probe_ts_ m; apply_started_ts_ := Some ts;
     probe_status_ := probe_status_ m; consecutive_probe_failures_ := 0;
     runtime_active_ := true; resolver_configured_ := true |}.

Definition probe_succeeded (actual_hash : string) (actual_ts probe_ts : option Z)
    (m : ResolverSyncStateMachine) : ResolverSyncStateMachine :=
  {| expected_hash_ := expected_hash_ m; actual_hash_ := actual_hash; actual_ts_ := actual_ts;
     last_probe_ts_ := probe_ts; apply_started_ts_ := apply_started_ts_ m;
     probe_status_ := ProbeSuccess; consecutive_probe_failures_ := 0;
     runtime_active_ := true; resolver_configured_ := true |}.

Definition probe_failed (status : ResolverConfigHashProbeStatus) (probe_ts : option Z)
    (m : ResolverSyncStateMachine) : ResolverSyncStateMachine :=
  let failures := consecutive_probe_failures_ m + 1 in
  let clear := negb (bool_decide (status = QueryFailed)) && (kFailuresBeforeClearing <=? failures) in
  {| expected_hash_ := expected_hash_ m;
     actual_hash_ := if clear then "" else actual_hash_ m;
     actual_ts_ := if clear then None else actual_ts_ m;
     last_probe_ts_ := probe_ts; apply_started_ts_ := apply_started_ts_ m;
     probe_status_ := resolver_probe_status_from_hash_probe_status status;
     consecutive_probe_failures_ := failures;
     runtime_active_ := true; resolver_configured_ := true |}.

Definition within_converging_window (apply_started_ts : option Z) (now_ts : Z) : bool :=
  match apply_started_ts with
  | Some ts => now_ts - ts <=? kConvergingWindowSeconds
  | None => false
  end.

Definition older (actual_ts apply_started_ts : option Z) : bool :=
  match actual_ts, apply_started_ts with Some a, Some s => a <? s | _, _ => false end.

Definition is_converging (m : ResolverSyncStateMachine) (now_ts : Z) : bool :=
  within_converging_window (apply_started_ts_ m) now_ts
  && match probe_status_ m with
     | ProbeUnknown | ProbeQueryFailed | ProbeMissingTxt | ProbeInvalidTxt => true
     | _ => negb (String.eqb (expected_hash_ m) (actual_hash_ m))
            && older (actual_ts_ m) (apply_started_ts_ m)
     end.

(** The two fields that [snapshot] derives, after the copies. *)
Definition resolver_report (m : ResolverSyncStateMachine) (now_ts : Z)
    : option ResolverConfigSyncState * ResolverLiveStatus :=
  if empty_str (expected_hash_ m) then (None, LiveUnknown)
  else if is_converging m now_ts then
    (Some Converging,
     if bool_decide (probe_status_ m = ProbeQueryFailed) then Unavailable else Healthy)
  else
    match probe_status_ m with
    | ProbeQueryFailed => (None, Unavailable)
    | ProbeSuccess =>
        (Some (if String.eqb (expected_hash_ m) (actual_hash_ m) then Converged else Stale), Healthy)
    | ProbeMissingTxt | ProbeInvalidTxt => (Some Stale, Degraded)
    | _ => (None, LiveUnknown)
    end.

Definition resolver_snapshot (m : ResolverSyncStateMachine) (now_ts : Z) : ResolverSyncSnapshot :=
  let on := runtime_active_ m && resolver_configured_ m in
  let report := if on then resolver_report m now_ts else (None, LiveUnknown) in
  {| ss_expected_hash := expected_hash_ m; ss_actual_hash := actual_hash_ m;
     ss_actual_ts := actual_ts_ m; ss_last_probe_ts := last_probe_ts_ m;
     ss_apply_started_ts := apply_started_ts_ m; ss_sync_state := report.1;
     ss_probe_status := if on then probe_status_ m else ProbeNotConfigured;
     ss_live_status := report.2 |}.

Definition checkpoint (m : ResolverSyncStateMachine) : ResolverSyncCheckpoint :=
  {| cp_expected_hash := expected_hash_ m; cp_actual_hash := actual_hash_ m;
     cp_actual_ts := actual_ts_ m; cp_last_probe_ts := last_probe_ts_ m;
     cp_apply_started_ts := apply_started_ts_ m; cp_probe_status := probe_status_ m;
     cp_consecutive_probe_failures := consecutive_probe_failures_ m;
     cp_runtime_active := runtime_active_ m; cp_resolver_configured := resolver_configured_ m |}.

Definition restore (c : ResolverSyncCheckpoint) (m : ResolverSyncStateMachine)
    : ResolverSyncStateMachine :=
  {| expected_hash_ := cp_expected_hash c; actual_hash_ := cp_actual_hash c;
     actual_ts_ := cp_actual_ts c; last_probe_ts_ := cp_last_probe_ts c;
     apply_started_ts_ := cp_apply_started_ts c; probe_status_ := cp_probe_status c;
     consecutive_probe_failures_ := cp_consecutive_probe_failures c;
     runtime_active_ := cp_runtime_active c; resolver_configured_ := cp_resolver_configured c |}.

(** ** Planning the next probe *)

Definition resolver_sync_semantically_equal (lhs rhs : ResolverSyncSnapshot) : bool :=
  String.eqb (ss_expected_hash lhs) (ss_expected_hash rhs)
  && String.eqb (ss_actual_hash lhs) (ss_actual_hash rhs)
  && bool_decide (ss_actual_ts lhs = ss_actual_ts rhs)
  && bool_decide (ss_apply_started_ts lhs = ss_apply_started_ts rhs)
  && bool_decide (ss_sync_state lhs = ss_sync_state rhs)
  && bool_decide (ss_probe_status lhs = ss_probe_status rhs)
  && bool_decide (ss_live_status lhs = ss_live_status rhs).

(** Attempts are 32-bit numbers. *)
Definition resolver_convergence_retry_delay (attempt : Z) : Z :=
  if 5 <? attempt then 60 else u32 (Z.shiftl 1 attempt).

Record ResolverProbeCommitPlan := {
  publish_runtime_state : bool;
  report_stale_txt_observation : bool;
  schedule_convergence_retry : bool;
  convergence_retry_delay : Z;
  next_retry_attempt : Z
}.

Definition successful_hash_mismatch (current : ResolverSyncSnapshot) : bool :=
  bool_decide (ss_probe_status current = ProbeSuccess)
  && negb (empty_str (ss_expected_hash current))
  && negb (String.eqb (ss_actual_hash current) (ss_expected_hash current)).

Definition wants_retry (current : ResolverSyncSnapshot) : bool :=
  bool_decide (ss_sync_state current = Some Converging) || successful_hash_mismatch current.

Definition settled_snapshot (current : ResolverSyncSnapshot) : bool :=
  bool_decide (ss_sync_state current = Some Converged)
  || bool_decide (ss_probe_status current = ProbeNotConfigured).

Definition plan_resolver_probe_commit (previous current : ResolverSyncSnapshot) (retry_attempt : Z)
    : ResolverProbeCommitPlan :=
  let publish := negb (resolver_sync_semantically_equal previous current) in
  let retry := wants_retry current in
  {| publish_runtime_state := publish;
     report_stale_txt_observation :=
       publish && successful_hash_mismatch current
       && older (ss_actual_ts current) (ss_apply_started_ts current);
     schedule_convergence_retry := retry;
     convergence_retry_delay := if retry then resolver_convergence_retry_delay retry_attempt else 0;
     next_retry_attempt :=
       if retry then (if 6 <=? retry_attempt then 6 else u32 (retry_attempt + 1))
       else if settled_snapshot current then 0
       else retry_attempt |}.

(** ** The commit of a probe *)

(** [None]: the probe gave no result. *)
Inductive ProbeResult := ProbeAnswered (hash : string) (ts : option Z)
| ProbeFailed (status : ResolverConfigHashProbeStatus).

Record Resolver := {
  rv_machine : ResolverSyncStateMachine;
  rv_attempt : Z
}.

(** [commit_resolver_hash_probe_result] for the current generation of the runtime. *)
Definition commit_probe (result : option ProbeResult) (probe_ts : option Z) (now_ts : Z) (r : Resolver)
    : Resolver * ResolverProbeCommitPlan :=
  let previous := resolver_snapshot (rv_machine r) now_ts in
  let machine :=
    match result with
    | Some (ProbeAnswered hash ts) => probe_succeeded hash ts probe_ts (rv_machine r)
    | Some (ProbeFailed status) => probe_failed status probe_ts (rv_machine r)
    | None => rv_machine r
    end in
  let plan := plan_resolver_probe_commit previous (resolver_snapshot machine now_ts) (rv_attempt r) in
  ({| rv_machine := machine; rv_attempt := next_retry_attempt plan |}, plan).

(** ** Histories *)

Inductive ResolverEvent :=
| EvStopped | EvNotConfigured
| EvExpected (hash : string) | EvApply (ts : Z) (hash : string)
| EvAnswered (hash : string) (ts probe_ts : option Z)
| EvFailed (status : ResolverConfigHashProbeStatus) (probe_ts : option Z).

Definition resolver_step (m : ResolverSyncStateMachine) (e : ResolverEvent) : ResolverSyncStateMachine :=
  match e with
  | EvStopped => runtime_stopped m
  | EvNotConfigured => resolver_not_configured m
  | EvExpected hash => expected_hash_updated hash m
  | EvApply ts hash => apply_started ts hash m
  | EvAnswered hash ts probe_ts => probe_succeeded hash ts probe_ts m
  | EvFailed status probe_ts => probe_failed status probe_ts m
  end.

Definition resolver_run : list ResolverEvent → ResolverSyncStateMachine :=
  foldl resolver_step resolver_init.

(** What a history says, the most recent event first: the hash that is wanted, whether the
    resolver is in use, and what the last probe found. *)
Fixpoint wanted_hash (past : list ResolverEvent) : string :=
  match past with
  | [] => EmptyString
  | (EvExpected hash | EvApply _ hash) :: _ => hash
  | _ :: past => wanted_hash past
  end.

Definition in_use (past : list ResolverEvent) : bool :=
  match past with (EvStopped | EvNotConfigured) :: _ => false | _ => true end.

Inductive ProbeFinding := NoProbe | Found (hash : string) | Missed (status : ResolverConfigHashProbeStatus).

Fixpoint last_finding (past : list ResolverEvent) : ProbeFinding :=
  match past with
  | [] | (EvStopped | EvNotConfigured) :: _ => NoProbe
  | EvAnswered hash _ _ :: _ => Found hash
  | EvFailed status _ :: _ => Missed status
  | (EvExpected _ | EvApply _ _) :: past => last_finding past
  end.

(** The events are those of the program: a failed probe is not a success. *)
Definition event_ok (e : ResolverEvent) : Prop :=
  match e with EvFailed status _ => status ≠ HashSuccess | _ => True end.

Definition finding_agrees (f : ProbeFinding) (m : ResolverSyncStateMachine) : Prop :=
  match f with
  | NoProbe => probe_status_ m = ProbeUnknown ∨ probe_status_ m = ProbeNotConfigured
  | Found hash => probe_status_ m = ProbeSuccess ∧ actual_hash_ m = hash
  | Missed status => probe_status_ m = resolver_probe_status_from_hash_probe_status status
                     ∧ status ≠ HashSuccess
  end.

Lemma resolver_run_history events :
  Forall event_ok events →
  let m := resolver_run events in
  let past := rev events in
  expected_hash_ m = wanted_hash past ∧ runtime_active_ m && resolver_configured_ m = in_use past ∧
  finding_agrees (last_finding past) m.
Proof.
  induction events as [|e events IH] using rev_ind; intros Hok; [by repeat split; left|].
  apply Forall_app in Hok as [Hok He%Forall_inv]. specialize (IH Hok). destruct IH as (Hw & Hu & Hf).
  unfold resolver_run. rewrite foldl_snoc, rev_app_distr. fold (resolver_run events). cbn zeta.
  cbn [rev app]. destruct e; cbn; (split; [done|]); (split; [done|]); [by right|by right| | |done|split; [done|exact He]];
    by destruct (last_finding (rev events)).
Qed.

(** The report in terms of what the last probe found. *)
Definition reported (window behind unknown : bool) (wanted : string) (f : ProbeFinding)
    : option ResolverConfigSyncState :=
  match f with
  | NoProbe => if window && unknown then Some Converging else None
  | Found hash =>
      if String.eqb wanted hash then Some Converged
      else if window && behind then Some Converging else Some Stale
  | Missed QueryFailed => if window then Some Converging else None
  | Missed _ => if window then Some Converging else Some Stale
  end.

Lemma report_of f m now_ts :
  finding_agrees f m → expected_hash_ m ≠ EmptyString →
  ∃ unknown, (resolver_report m now_ts).1 =
    reported (within_converging_window (apply_started_ts_ m) now_ts)
      (older (actual_ts_ m) (apply_started_ts_ m)) unknown (expected_hash_ m) f.
Proof.
  intros Hf Hw. unfold resolver_report, is_converging.
  destruct (empty_str (expected_hash_ m)) eqn:E; [by apply empty_str_true in E|].
  destruct f as [|hash|[]]; cbn in Hf.
  - destruct Hf as [-> | ->].
    + exists true. by destruct (within_converging_window _ _).
    + exists (negb (String.eqb (expected_hash_ m) (actual_hash_ m))
              && older (actual_ts_ m) (apply_started_ts_ m)). cbn.
      by destruct (within_converging_window _ _), (_ && _).
  - exists true. destruct Hf as [-> ->]. cbn. destruct (String.eqb _ hash); cbn.
    + by rewrite andb_false_r.
    + by destruct (within_converging_window _ _), (older _ _).
  - by destruct Hf.
  - exists true. destruct Hf as [-> _]. by destruct (within_converging_window _ _).
  - exists true. destruct Hf as [-> _]. by destruct (within_converging_window _ _).
  - exists true. destruct Hf as [-> _]. by destruct (within_converging_window _ _).
Qed.

(** Failed probes after an answer. *)
Definition forgets (failures : list ResolverEvent) : bool :=
  existsb (λ e, match e with EvFailed QueryFailed _ => false | _ => true end) (drop 2 failures).

Definition all_failed (failures : list ResolverEvent) : Prop :=
  Forall (λ e, ∃ status p, e = EvFailed status p) failures.

Lemma forgets_snoc failures status p :
  forgets (failures ++ [EvFailed status p]) =
  forgets failures || (negb (bool_decide (status = QueryFailed)) && (2 <=? Z.of_nat (length failures))).
Proof.
  unfold forgets. destruct failures as [|a [|b l]]; cbn [app drop existsb length].
  - by rewrite andb_false_r.
  - by rewrite andb_false_r.
  - rewrite !drop_0, existsb_app. cbn [existsb]. rewrite orb_false_r.
    replace (2 <=? Z.of_nat (S (S (length l)))) with true by (symmetry; apply Z.leb_le; lia).
    rewrite andb_true_r. by destruct status.
Qed.

Lemma after_failures hash ts m failures :
  all_failed failures → actual_hash_ m = hash → actual_ts_ m = ts → consecutive_probe_failures_ m = 0 →
  let m' := foldl resolver_step m failures in
  actual_hash_ m' = (if forgets failures then EmptyString else hash) ∧
  actual_ts_ m' = (if forgets failures then None else ts) ∧
  consecutive_probe_failures_ m' = Z.of_nat (length failures).
Proof.
  intros Hf Hh Ht Hc. induction failures as [|e failures IH] using rev_ind; [done|].
  apply Forall_app in Hf as [Hf (status & p & ->)%Forall_inv]. destruct (IH Hf) as (H1 & H2 & H3).
  rewrite foldl_snoc, forgets_snoc, length_app. cbn zeta. cbn [resolver_step].
  unfold probe_failed. cbn -[Z.leb]. rewrite H1, H2, H3. unfold kFailuresBeforeClearing.
  replace (3 <=? Z.of_nat (length failures) + 1) with (2 <=? Z.of_nat (length failures))
    by (apply eq_true_iff_eq; rewrite !Z.leb_le; lia).
  split_and!; [| |lia];
    destruct (forgets failures), (_ && _); done.
Qed.

(** ** Properties *)

(** The report tells the truth. In every history the resolver counts as converged if and
    only if it is in use, a configuration is wanted, and the last probe found exactly its
    hash; it counts as stale only if the last probe found another hash or a missing or
    invalid record; and it counts as converging only within fifteen seconds of the apply.
    After an answer, failed probes do not make the daemon forget it, except from the third
    failure in a row on when the resolver did answer, with no usable record. *)
Theorem resolver_reports_exact events now_ts :
  Forall event_ok events →
  let s := resolver_snapshot (resolver_run events) now_ts in
  let past := rev events in
  (ss_sync_state s = Some Converged ↔
     in_use past = true ∧ wanted_hash past ≠ EmptyString ∧ last_finding past = Found (wanted_hash past)) ∧
  (ss_sync_state s = Some Stale →
     (∃ hash, last_finding past = Found hash ∧ hash ≠ wanted_hash past) ∨
     last_finding past = Missed NoUsableTxt ∨ last_finding past = Missed InvalidTxt) ∧
  (ss_sync_state s = Some Converging →
     ∃ ts, ss_apply_started_ts s = Some ts ∧ now_ts - ts ≤ 15 ∧
       last_finding past ≠ Found (wanted_hash past)) ∧
  (∀ before hash ts probe_ts failures,
     events = before ++ EvAnswered hash ts probe_ts :: failures → all_failed failures →
     ss_actual_hash s = (if forgets failures then EmptyString else hash) ∧
     ss_actual_ts s = (if forgets failures then None else ts)).
Proof.
  intros Hok s past. destruct (resolver_run_history events Hok) as (Hw & Hu & Hf). fold past in Hw, Hu, Hf.
  set (m := resolver_run events) in *.
  assert (ss_sync_state s = if in_use past then (resolver_report m now_ts).1 else None) as Hs.
  { unfold s, resolver_snapshot. cbn. rewrite Hu. by destruct (in_use past). }
  assert (ss_sync_state s = Some Converged ∨ ss_sync_state s = Some Converging ∨ ss_sync_state s = Some Stale →
          in_use past = true ∧ wanted_hash past ≠ EmptyString) as Hon.
  { rewrite Hs. destruct (in_use past); [|naive_solver]. intros Hr. split; [done|]. rewrite <- Hw. intros E.
    unfold resolver_report in Hr. rewrite E in Hr. naive_solver. }
  assert (in_use past = true → wanted_hash past ≠ EmptyString → ∃ unknown,
          ss_sync_state s = reported (within_converging_window (apply_started_ts_ m) now_ts)
            (older (actual_ts_ m) (apply_started_ts_ m)) unknown (wanted_hash past) (last_finding past)) as Hr.
  { intros Hon' Hne. rewrite Hs, Hon', <- Hw. apply report_of; [done|by rewrite Hw]. }
  split_and!.
  - split.
    + intros Hc. destruct Hon as [Huse Hne]; [auto|]. destruct (Hr Huse Hne) as [u E]. rewrite Hc in E.
      split; [done|]. split; [done|]. unfold reported in E.
      destruct (last_finding past) as [|hash|[]]; repeat case_match; try done.
      by f_equal; symmetry; apply String.eqb_eq.
    + intros (Huse & Hne & Hl). destruct (Hr Huse Hne) as [u E]. rewrite E, Hl. cbn. by rewrite String.eqb_refl.
  - intros Hc. destruct Hon as [Huse Hne]; [auto|]. destruct (Hr Huse Hne) as [u E]. rewrite Hc in E.
    unfold reported in E. destruct (last_finding past) as [|hash|[]] eqn:El; repeat case_match; try done; try naive_solver.
    left. exists hash. split; [done|]. intros ->. by rewrite String.eqb_refl in *.
  - intros Hc. destruct Hon as [Huse Hne]; [auto|]. destruct (Hr Huse Hne) as [u E]. rewrite Hc in E.
    assert (within_converging_window (apply_started_ts_ m) now_ts = true ∧
            last_finding past ≠ Found (wanted_hash past)) as [Hwin Hl].
    { unfold reported in E. destruct (within_converging_window _ _).
      - split; [done|]. intros El. by rewrite El, String.eqb_refl in E.
      - destruct (last_finding past) as [|hash|[]]; cbn in E; repeat case_match; done. }
    unfold within_converging_window in Hwin. cbn [ss_apply_started_ts s resolver_snapshot].
    destruct (apply_started_ts_ m) as [ts|]; [|done]. exists ts. apply Z.leb_le in Hwin. done.
  - intros before hash ts probe_ts failures -> Hall. unfold s, m, resolver_run.
    rewrite foldl_app. cbn [foldl]. cbn [ss_actual_hash ss_actual_ts resolver_snapshot].
    set (m0 := resolver_step _ (EvAnswered hash ts probe_ts)).
    destruct (after_failures hash ts m0 failures) as (H1 & H2 & _); done.
Qed.

(** ** Retries *)

Record ProbeCommit := { pc_result : option ProbeResult; pc_probe_ts : option Z; pc_now_ts : Z }.

(** The snapshot after each commit of a series, and its plan. *)
Fixpoint commit_all (commits : list ProbeCommit) (r : Resolver)
    : list (ResolverSyncSnapshot * ResolverProbeCommitPlan) :=
  match commits with
  | [] => []
  | c :: commits =>
      let '(r', plan) := commit_probe (pc_result c) (pc_probe_ts c) (pc_now_ts c) r in
      (resolver_snapshot (rv_machine r') (pc_now_ts c), plan) :: commit_all commits r'
  end.

(** The delays of the retries that are scheduled. *)
Definition retry_delays (l : list (ResolverSyncSnapshot * ResolverProbeCommitPlan)) : list Z :=
  convergence_retry_delay <$> filter (λ p, schedule_convergence_retry p = true) l.*2.

(** 1, 2, 4, 8, 16, 32 seconds, then a minute. *)
Definition retry_ladder (k : Z) : Z := Z.min 60 (2 ^ k).

Lemma retry_delay_ladder attempt :
  0 ≤ attempt ≤ 6 → resolver_convergence_retry_delay attempt = retry_ladder attempt.
Proof.
  intros Ha. assert (attempt ∈ [0;1;2;3;4;5;6]) as Hin by (rewrite !elem_of_cons; lia).
  repeat (apply elem_of_cons in Hin as [->|Hin]; [reflexivity|]). by apply elem_of_nil in Hin.
Qed.

Lemma retry_ladder_top k : 6 ≤ k → retry_ladder k = 60.
Proof. intros Hk. unfold retry_ladder. pose proof (Z.pow_le_mono_r 2 6 k). lia. Qed.

(** One commit: the snapshot and plan, and the next attempt. *)
Lemma commit_cases c r :
  let '(r', plan) := commit_probe (pc_result c) (pc_probe_ts c) (pc_now_ts c) r in
  let s := resolver_snapshot (rv_machine r') (pc_now_ts c) in
  schedule_convergence_retry plan = wants_retry s ∧
  convergence_retry_delay plan =
    (if wants_retry s then resolver_convergence_retry_delay (rv_attempt r) else 0) ∧
  rv_attempt r' =
    (if wants_retry s then (if 6 <=? rv_attempt r then 6 else u32 (rv_attempt r + 1))
     else if settled_snapshot s then 0 else rv_attempt r).
Proof. done. Qed.

Lemma next_attempt_small a : 0 ≤ a ≤ 6 → (if 6 <=? a then 6 else u32 (a + 1)) = Z.min 6 (a + 1).
Proof.
  intros Ha. destruct (Z.leb_spec 6 a); [lia|]. unfold u32, wrap. rewrite Z.mod_small by lia. lia.
Qed.

(** While the resolver does not have the wanted configuration, the daemon keeps asking,
    at growing intervals. In every series of probes in which convergence is never observed
    the delays of the retries climb the ladder 1, 2, 4, 8, 16, 32, 60, 60, ... seconds from
    the current attempt, one rung per retry; probes that call for none do not lose the
    place. A probe that finds a wrong hash always schedules a retry, and a converged or
    unconfigured resolver goes back to the first rung and to the regular refresh. *)
Theorem resolver_retry_backoff r commits :
  0 ≤ rv_attempt r ≤ 6 →
  let l := commit_all commits r in
  (Forall (λ p, settled_snapshot p.1 = false) l →
   retry_delays l = (λ k, retry_ladder (rv_attempt r + Z.of_nat k)) <$> seq 0 (length (retry_delays l))) ∧
  Forall (λ p, schedule_convergence_retry p.2 = true ↔
    ss_sync_state p.1 = Some Converging ∨
    (ss_probe_status p.1 = ProbeSuccess ∧ ss_expected_hash p.1 ≠ EmptyString ∧
     ss_actual_hash p.1 ≠ ss_expected_hash p.1)) l ∧
  Forall (λ p, 0 ≤ next_retry_attempt p.2 ≤ 6 ∧
    (schedule_convergence_retry p.2 = true → 1 ≤ convergence_retry_delay p.2 ≤ 60) ∧
    (schedule_convergence_retry p.2 = false → settled_snapshot p.1 = true → next_retry_attempt p.2 = 0)) l.
Proof.
  intros Ha. cbn zeta. revert r Ha. induction commits as [|c commits IH]; intros r Ha; [by repeat split|].
  cbn [commit_all]. pose proof (commit_cases c r) as Hc.
  destruct (commit_probe (pc_result c) (pc_probe_ts c) (pc_now_ts c) r) as [r' plan] eqn:Ecommit.
  destruct Hc as (Hretry & Hdelay & Hattempt). set (s := resolver_snapshot (rv_machine r') (pc_now_ts c)) in *.
  assert (next_retry_attempt plan = rv_attempt r') as Hnext.
  { unfold commit_probe in Ecommit. by injection Ecommit as <- <-. }
  rewrite next_attempt_small in Hattempt by done.
  assert (0 ≤ rv_attempt r' ≤ 6) as Ha'.
  { rewrite Hattempt. destruct (wants_retry s); [lia|]. destruct (settled_snapshot s); lia. }
  destruct (IH r' Ha') as (Hladder & Hwhen & Hrange).
  assert (wants_retry s = true → 1 ≤ convergence_retry_delay plan ≤ 60) as Hd.
  { intros Hw. rewrite Hdelay, Hw, retry_delay_ladder by done. unfold retry_ladder.
    pose proof (Z.pow_pos_nonneg 2 (rv_attempt r)). lia. }
  split; [|split].
  - intros [Hs Hrest]%Forall_cons. cbn [fst] in Hs. specialize (Hladder Hrest).
    unfold retry_delays in *. cbn [fmap list_fmap snd]. rewrite filter_cons, Hretry.
    destruct (wants_retry s) eqn:Hw.
    + case_decide; [|done]. cbn [fmap list_fmap length seq]. rewrite Hdelay, retry_delay_ladder by done.
      rewrite Hladder at 1. f_equal; [f_equal; lia|]. rewrite <- seq_shift, <- list_fmap_compose.
      apply list_fmap_ext. intros i k _. cbn. rewrite Hattempt.
      destruct (decide (rv_attempt r = 6)) as [->|].
      * by rewrite !retry_ladder_top by lia.
      * f_equal. lia.
    + case_decide; [done|]. rewrite Hs in Hattempt. by rewrite Hattempt in Hladder.
  - constructor; [|done]. cbn [fst snd]. rewrite Hretry. unfold wants_retry, successful_hash_mismatch.
    rewrite orb_true_iff, !andb_true_iff, !bool_decide_eq_true, !negb_true_iff, empty_str_false, String.eqb_neq.
    tauto.
  - constructor; [|done]. cbn [fst snd]. rewrite Hretry, Hnext. split; [done|]. split; [done|].
    intros Hw Hs. by rewrite Hattempt, Hw, Hs.
Qed.

(** A checkpoint holds the whole state. *)
Lemma restore_checkpoint m m' : restore (checkpoint m) m' = m.
Proof. by destruct m. Qed.

(** ** Witnesses *)

(** An apply at 100, a stale answer, two lost probes, then the wanted answer. *)
Definition sample_events : list ResolverEvent :=
  [EvApply 100 "new"; EvAnswered "old" (Some 50) (Some 101); EvFailed QueryFailed None;
   EvFailed NoUsableTxt None].

Lemma resolver_reports_exact_witness :
  Forall event_ok sample_events ∧
  ss_sync_state (resolver_snapshot (resolver_run sample_events) 104) = Some Converging ∧
  ss_actual_hash (resolver_snapshot (resolver_run sample_events) 104) = "old".
Proof.
  assert (Forall event_ok sample_events) as Hok.
  { unfold sample_events. repeat (apply Forall_cons; split; [done|]). constructor. }
  split; [exact Hok|]. split; [reflexivity|].
  destruct (resolver_reports_exact sample_events 104 Hok) as (_ & _ & _ & Hkeep).
  destruct (Hkeep [EvApply 100 "new"] "old" (Some 50) (Some 101) [EvFailed QueryFailed None; EvFailed NoUsableTxt None])
    as [Hh _]; [reflexivity| |exact Hh].
  unfold all_failed. repeat (apply Forall_cons; split; [eexists _, _; reflexivity|]). constructor.
Defined.

Definition sample_resolver : Resolver :=
  {| rv_machine := apply_started 100 "new" resolver_init; rv_attempt := 0 |}.

Definition wrong_answer (now : Z) : ProbeCommit :=
  {| pc_result := Some (ProbeAnswered "old" (Some 50)); pc_probe_ts := None; pc_now_ts := now |}.

Lemma resolver_retry_backoff_witness :
  0 ≤ rv_attempt sample_resolver ≤ 6 ∧
  retry_delays (commit_all (wrong_answer <$> [101; 103; 110; 130; 150]) sample_resolver) = [1; 2; 4; 8; 16].
Proof.
  split; [cbn; lia|].
  destruct (resolver_retry_backoff sample_resolver (wrong_answer <$> [101; 103; 110; 130; 150])) as [Hl _];
    [cbn; lia|].
  rewrite Hl; [reflexivity|]. repeat (apply Forall_cons; split; [reflexivity|]). constructor.
Defined.
